(* ===== verification/_CoqProject ===== *)
-Q . S2P
Prelude.v
GoStrings.v
ConfigKV.v
Cid.v
Dag.v
Blockstores.v
GC.v
CoreRepo.v
Refs.v
PinApi.v
BlockRm.v
Peering.v
P2P.v
OnlyOne.v
GoFS.v
Datastores.v
Migrations.v
FsRepo.v
Hostname.v
ConfigCmd.v
Bootstrap.v
Loader.v
Mfs.v
Files.v
Adder.v
CmdEnv.v
PinCmd.v
Keystore.v
Keys.v
LazySeek.v
Gateway.v
RemotePin.v
DagEdit.v
Object.v
PinMfs.v
BlockCmd.v
Traverse.v
Batch.v
DagCmd.v
Swarm.v
P2PCmd.v
ReadCmd.v
AddCmd.v
RepoCmd.v
BsMessage.v
Contribution.v
Daemon.v
CliContext.v
Serve.v
Dht.v
Names.v
NodeConfig.v
NodeGraph.v
FilesRoot.v
Tar.v
Init.v
