(* ===== verification/Prelude.v ===== *)
(** * Verification of the ipfs node (go-ipfs)

    The node stores content-addressed blocks in a repository on disk, protects
    some of them with pins, collects the rest as garbage, and offers them to
    users through commands, an HTTP gateway and peer-to-peer connections.  This
    library models the parts of that program that decide something, as executable
    functions translated from the Go sources under src/, and proves what each
    part promises.

    ** The program's parts and the files that model them

    - Values and effects: this file has Go's [(value, error)] results ([res]), the
      state-and-error monad [M] in which an early return keeps the mutations made
      before it, loops over slices ([mfor]), invariants of computations ([keeps]),
      64-bit arithmetic with its wrap-around ([u64], [i64]) and the tactics.
      [GoStrings] has the functions of strings and strconv the sources use,
      [GoFS] paths and a file system in which every operation may fail for
      reasons of its own.
    - Content identifiers and DAGs: [Cid] (versions, codecs, hashes, conversion
      between the versions), [Dag] (reachability and the concurrent walk of
      merkledag as steps with an arbitrary schedule), [Traverse] (descents that
      visit a node once), [Batch] (groups of nodes committed concurrently) and
      [DagEdit] (protobuf nodes, editing below a path, differences).
    - Block storage: [Blockstores] has the blockstore interface as a class with
      laws, and the wrappers of thirdparty/cidv0v1 and thirdparty/verifbs as
      instances over any instance; [BlockRm] is blocks/blockstoreutil/remove.go.
    - Garbage collection: [GC] is gc/gc.go, with [ColoredSet] marking what the
      pins keep and [sweep] deleting the rest; [CoreRepo] is core/corerepo (limits
      in uint64, conditional and periodic collection, collecting results).
    - Pins: [PinApi] is core/coreapi/pin.go against the pinner's interface,
      [PinCmd] core/commands/pin/pin.go, [RemotePin] remotepin.go, [PinMfs]
      cmd/ipfs/pinmfs.go.
    - Files: [Mfs] is the tree of the mutable file system, [Files]
      core/commands/files.go over it, [Adder] core/coreunix/add.go, [AddCmd] and
      [ReadCmd] the add, cat, get and ls commands, [FilesRoot] the root that is
      kept on disk (core/node/core.go) and [Tar] tar/format.go.
    - Objects, blocks and DAGs as commands: [Object], [BlockCmd], [DagCmd], [Refs]
      (core/commands/refs.go) and [RepoCmd] (gc, stat and verify); [CmdEnv] is the
      encoder of CIDs they share.
    - Connections: [Peering] is peering/peering.go as a step relation over
      handlers, timers and pending goroutines; [Bootstrap] the rounds of
      core/bootstrap and the commands that edit its list; [Swarm]
      core/commands/swarm.go; [P2P] and [P2PCmd] p2p (stream and listener
      registries, stream set-up) and its command; [Dht] the routing commands.
    - Messages: [BsMessage] is the bitswap message with the wallet this repository
      added, [Contribution] who is credited for the blocks of a file.
    - Names and keys: [Keystore] is the interface of key stores and the one on
      disk, [Keys] the key API and command, [Names] publishing and resolving.
    - The repository: [OnlyOne] is repo/onlyone.go, [ConfigKV]
      repo/common/common.go, [Datastores] and [FsRepo] repo/fsrepo (datastore
      specs, Init, open, Close, the configuration and the API file), [Migrations]
      repo/fsrepo/migrations, [ConfigCmd] the config command, [Init]
      cmd/ipfs/init.go.
    - The process: [NodeConfig] and [NodeGraph] are core/node (what its constructors
      decide, and which of them a configuration puts together), [Loader]
      plugin/loader, [CliContext] commands/context.go and reqlog.go, [Daemon]
      cmd/ipfs/daemon.go.
    - HTTP: [Serve] is core/corehttp's options and servers, [Hostname] its
      hostname.go, the whole handler as a function from a request to its response,
      [Gateway] gateway_handler.go and [LazySeek] lazyseek.go.

    Components meet where the program's do: [CoreRepo] runs [GC]; [PinApi]
    and [PinCmd] show that what they pin is live for [GC]; [FsRepo] opens
    the datastore that [Datastores] configures, reads the version through
    [Migrations] and edits the configuration with [ConfigKV]; [Keys] and [Names]
    use any [Keystore], [Keys] and [Init] the repository of [FsRepo]; [Files], [Adder] and
    [Gateway] write through [Mfs]; [DagCmd] stores through [Batch] and descends
    with [Traverse]; [Serve] has the handler of [Hostname] and the options of
    [Daemon], and takes the gateway as an outcome, as [Daemon] and [NodeGraph]
    do the parts they start.

    ** What is proved

    - Collection is safe and exact: whatever the order of the concurrent walk, the
      moment of cancellation and the failing deletions, no block reachable from a
      pin is touched; if links cannot be fetched nothing is deleted; the marking
      ends; and a clean run deletes exactly the blocks that are not live.
      Periodic runs keep what is pinned; a pin that pin add reports is live, and
      an add in progress has pinned what it built when it lets the collector in.
    - Pins, references, listings and removals answer exactly what the DAG says:
      they are complete and without repetition, depth-limited references are those
      within the depth, block rm never removes a pinned block, and each command
      changes what its arguments name and nothing else, with every error.
    - What is written is read back: a file added or written, an object patched, an
      archive or a DAG exported and imported, a key, a name in a DNS label, a
      bitswap message, a configuration value.
    - Services keep their invariants in every reachable state: peering's delays
      and timers, the stream counts and connection tags, one open repository per
      key, plugins started and closed in order, the root of the files on disk
      whenever the machine stops.  Machines of goroutines (repo verify, merge,
      bootstrapping, a walk) end, with a bound, and give everything they should.
    - The repository is opened only under its lock, which every failing path
      releases, only at the version the program expects and with a datastore spec
      that matches the disk; what Init creates opens; the private key survives
      every edit of the configuration, and no command shows a secret.  Migrations
      run as the chain of single steps, all binaries located first, and end at the
      target version.  The daemon gives back all it took on every way out.
    - The HTTP servers separate what they serve: gateway subdomains isolate
      origins, a read-only gateway writes nothing, and pages of other sites run no
      commands.
    - A node's units fit together for every configuration that reports no error.
    - Where the code falls short of its intention there is a theorem too: internal
      pins behind direct pins, peers abandoned by a race, an Init that stopped
      half-way, a private key replaced under another spelling, a verification that
      reads no raw leaves, a block still found after its removal, a seeker that
      reads elsewhere after a failure, a bootstrap that hangs, and others.

    ** Bounds and parameters

    Loops that are not structural carry fuel, and each theorem either holds for any
    fuel or says how much is enough.  The walk's is the number of pending nodes plus
    the number of links in the store, proved always enough; that of a reference
    listing, of a verification of pins and of an announcement of a graph is the rank
    of the acyclic graph, and so is that of a descent, of a tar archive and of copying
    a DAG, which need more than the height; that of fetching a graph is its links.
    findMigrations' is the number of steps, a datastore spec's its depth, a varint's
    ten digits, a prompt's three tries, a server's the number of its muxes, and a
    wait's the number of answers polled.  A run of repo verify has at most twice the
    keys plus the workers plus one steps, a run of merge exactly twice the values plus
    the channels plus one.
    Contexts are oracles consulted at each poll, concurrent visits follow an
    arbitrary schedule, maps are ranged over in an arbitrary order, and the failures
    of the file system, the network and the stores are arbitrary functions.  Code
    that is not in the repository is a parameter: the pinner and the blockstore
    through classes with laws, the config package's JSON, the codecs of CIDs, peer
    IDs and nodes, HTTP, archives, the migration binaries, the fx container.  Each
    law is stated as documented and shown to hold of a concrete instance.

    ** What is not modelled

    The command line and the signals of the process, the FUSE bindings, the templates
    and other generated assets, the temporary node that fetches migrations, and the
    vendored libraries themselves, but for the parts named above on which a model
    rests.  Downloads of migrations are run one after the other, which their disjoint
    file names allow; os.Rename is atomic; the file a lock is kept in is there while
    the lock is held; peering's Stop is one step; maps read from JSON are values,
    since each is parsed afresh. *)

From stdpp Require Import base gmap sets list strings.
From Stdlib Require Import ZArith.

(** ** Results: Go's [(value, error)] pairs *)

(** A Go function returning [(A, error)] yields [Ok a] when the error is [nil]
    and [Err e] otherwise. *)
Inductive res (E A : Type) : Type :=
  | Ok (a : A)
  | Err (e : E).
Arguments Ok {E A} a.
Arguments Err {E A} e.

#[export] Instance res_ret E : MRet (res E) := λ A a, Ok a.
#[export] Instance res_bind E : MBind (res E) :=
  λ A B f r, match r with Ok a => f a | Err e => Err e end.
#[export] Instance res_fmap E : FMap (res E) :=
  λ A B f r, match r with Ok a => Ok (f a) | Err e => Err e end.

Definition is_ok {E A} (r : res E A) : bool :=
  match r with Ok _ => true | Err _ => false end.

Definition is_err {E A} (r : res E A) : bool := negb (is_ok r).

#[export] Instance res_eq_dec {E A} `{EqDecision E, EqDecision A} :
  EqDecision (res E A).
Proof. solve_decision. Defined.

(** ** The state and error monad

    Code that mutates its receiver and may return early with an error is a
    computation [S -> res E A * S]: an early return keeps the mutations made
    before it, as it does in Go. *)
Definition M (S E A : Type) : Type := S → res E A * S.

#[export] Instance M_ret S E : MRet (M S E) := λ A a s, (Ok a, s).
#[export] Instance M_bind S E : MBind (M S E) :=
  λ A B f m s, match m s with
               | (Ok a, s') => f a s'
               | (Err e, s') => (Err e, s')
               end.

Definition mget {S E} : M S E S := λ s, (Ok s, s).
Definition mmodify {S E} (f : S → S) : M S E unit := λ s, (Ok (), f s).
#[export] Instance M_throw S E : MThrow E (M S E) := λ A e s, (Err e, s).
#[export] Instance res_throw E : MThrow E (res E) := λ A e, Err e.
Definition mlift {S E A} (r : res E A) : M S E A := λ s, (r, s).

(** [if err := c(); err != nil { h }]: run [c], and on an error continue with
    [h e] from the state [c] left. *)
Definition mcatch {S E F A} (c : M S E A) (h : E → M S F A) : M S F A :=
  λ s, match c s with
       | (Ok a, s') => (Ok a, s')
       | (Err e, s') => h e s'
       end.

(** [for _, x := range l { body }] with an early return out of the loop. *)
Fixpoint mfor {S E A} (l : list A) (body : A → M S E unit) : M S E unit :=
  match l with
  | [] => mret ()
  | x :: l' => _ ← body x; mfor l' body
  end.

Lemma bind_ok {S E A B} (m : M S E A) (f : A → M S E B) s b s' :
  (m ≫= f) s = (Ok b, s') ↔ ∃ a s1, m s = (Ok a, s1) ∧ f a s1 = (Ok b, s').
Proof.
  unfold mbind, M_bind. split.
  - destruct (m s) as [[a|e] s1]; [eauto 6|discriminate].
  - intros (a & s1 & -> & ?). done.
Qed.

Lemma bind_err {S E A B} (m : M S E A) (f : A → M S E B) s e s' :
  (m ≫= f) s = (Err e, s') ↔
    m s = (Err e, s') ∨ ∃ a s1, m s = (Ok a, s1) ∧ f a s1 = (Err e, s').
Proof.
  unfold mbind, M_bind. split.
  - destruct (m s) as [[a|e'] s1]; [eauto 6|]. intros [= -> ->]. by left.
  - intros [->|(a & s1 & -> & ?)]; done.
Qed.

Lemma bind_unfold {S E A B} (m : M S E A) (f : A → M S E B) s :
  (m ≫= f) s = match m s with
               | (Ok a, s') => f a s'
               | (Err e, s') => (Err e, s')
               end.
Proof. done. Qed.

Lemma mlift_ok {S E A} (r : res E A) (s : S) a s' : mlift r s = (Ok a, s') → r = Ok a ∧ s' = s.
Proof. by intros [= -> ->]. Qed.

Lemma ret_unfold {S E A} (a : A) (s : S) : (mret a : M S E A) s = (Ok a, s).
Proof. done. Qed.

(** An invariant kept by the body of a loop is kept by the loop, whichever way
    it is left. *)
Lemma mfor_inv {S E A} (I : S → Prop) (body : A → M S E unit) (l : list A) s r s' :
  (∀ x s r s', x ∈ l → I s → body x s = (r, s') → I s') →
  I s → mfor l body s = (r, s') → I s'.
Proof.
  revert s. induction l as [|x l IH]; intros s Hb HI; simpl.
  - intros [= _ <-]. done.
  - rewrite bind_unfold. destruct (body x s) as [[[]|e] s1] eqn:Hx.
    + apply IH; [intros; eapply Hb; [by right|..]; eauto|].
      eapply Hb; [by left|..]; eauto.
    + intros [= _ <-]. eapply Hb; [by left|..]; eauto.
Qed.

Lemma mfor_rule_from {S E A} (I : list A → S → Prop) (Q : S → Prop) (body : A → M S E unit) l done s r s' :
  (∀ pre x s s', x ∈ l → I pre s → body x s = (Ok (), s') → I (pre ++ [x]) s') →
  (∀ pre x s e s', x ∈ l → I pre s → body x s = (Err e, s') → Q s') →
  I done s → mfor l body s = (r, s') → match r with Ok _ => I (done ++ l) s' | Err _ => Q s' end.
Proof.
  revert s done. induction l as [|x l IH]; intros s done Hok Herr HI; simpl.
  - intros [= <- <-]. by rewrite app_nil_r.
  - rewrite bind_unfold. destruct (body x s) as [[[]|e] s1] eqn:Hx.
    + rewrite (app_assoc done [x] l : done ++ x :: l = _).
      apply IH; [intros; eapply Hok; [by right|..]; eauto|intros; eapply Herr; [by right|..]; eauto|].
      eapply Hok; [by left|..]; eauto.
    + intros [= <- <-]. eapply Herr; [by left|..]; eauto.
Qed.

(** The rule of a loop left at its first error: [I] holds of the elements done
    before every turn, [Q] after the turn that fails. *)
Lemma mfor_rule {S E A} (I : list A → S → Prop) (Q : S → Prop) (body : A → M S E unit) l s r s' :
  (∀ pre x s s', x ∈ l → I pre s → body x s = (Ok (), s') → I (pre ++ [x]) s') →
  (∀ pre x s e s', x ∈ l → I pre s → body x s = (Err e, s') → Q s') →
  I [] s → mfor l body s = (r, s') → match r with Ok _ => I l s' | Err _ => Q s' end.
Proof. apply (mfor_rule_from I Q body l []). Qed.

(** A computation given by what it does to the state. *)
Definition mstate {S E A} (f : S → res E A * S) : M S E A := f.

(** A Hoare triple for an invariant of the state, whatever the outcome. *)
Definition keeps {S E A} (I : S → Prop) (c : M S E A) : Prop :=
  ∀ s r s', c s = (r, s') → I s → I s'.

Lemma keeps_bind {S E A B} (I : S → Prop) (c : M S E A) (f : A → M S E B) :
  keeps I c → (∀ a, keeps I (f a)) → keeps I (c ≫= f).
Proof.
  intros Hc Hf s r s'. rewrite bind_unfold. destruct (c s) as [[a|e] s1] eqn:H1.
  - intros H2 Hi. eapply Hf; [exact H2|]. by eapply Hc.
  - intros [= _ <-]. by eapply Hc.
Qed.

Lemma keeps_ret {S E A} (I : S → Prop) (a : A) : keeps I (mret a : M S E A).
Proof. by intros s r s' [= _ <-]. Qed.

Lemma keeps_modify {S E} (I : S → Prop) f : (∀ s, I s → I (f s)) → keeps I (mmodify f : M S E unit).
Proof. intros Hf s r s' [= _ <-]. apply Hf. Qed.

Lemma keeps_throw {S E A} (I : S → Prop) (e : E) : keeps I (mthrow e : M S E A).
Proof. by intros s r s' [= _ <-]. Qed.

(** ** Machine integers *)

(** Go's [uint64] arithmetic wraps modulo 2^64. *)
Definition u64 (x : Z) : Z := (x mod 2 ^ 64)%Z.

(** Go's [int64]/[int] arithmetic wraps in two's complement. *)
Definition i64 (x : Z) : Z := ((x + 2 ^ 63) mod 2 ^ 64 - 2 ^ 63)%Z.

Definition u64_max : Z := (2 ^ 64 - 1)%Z.
Definition i64_max : Z := (2 ^ 63 - 1)%Z.
Definition i64_min : Z := (- 2 ^ 63)%Z.

#[global] Arguments u64 : simpl never.
#[global] Arguments i64 : simpl never.

Lemma u64_range x : (0 ≤ u64 x ≤ u64_max)%Z.
Proof. unfold u64, u64_max. pose proof (Z.mod_pos_bound x (2 ^ 64)). lia. Qed.

Lemma u64_small x : (0 ≤ x ≤ u64_max)%Z → u64 x = x.
Proof. unfold u64, u64_max. intros. apply Z.mod_small. lia. Qed.

Lemma i64_range x : (i64_min ≤ i64 x ≤ i64_max)%Z.
Proof.
  unfold i64, i64_max, i64_min.
  pose proof (Z.mod_pos_bound (x + 2 ^ 63) (2 ^ 64)). lia.
Qed.

Lemma i64_small x : (i64_min ≤ x ≤ i64_max)%Z → i64 x = x.
Proof. unfold i64, i64_max, i64_min. intros. rewrite Z.mod_small; lia. Qed.

Lemma u64_add_l a b : u64 (u64 a + b) = u64 (a + b).
Proof. unfold u64. by rewrite Zplus_mod_idemp_l. Qed.

Lemma i64_add_l a b : i64 (i64 a + b) = i64 (a + b).
Proof.
  unfold i64. f_equal.
  replace ((a + 2 ^ 63) mod 2 ^ 64 - 2 ^ 63 + b + 2 ^ 63)%Z with ((a + 2 ^ 63) mod 2 ^ 64 + b)%Z by lia.
  rewrite Zplus_mod_idemp_l. f_equal. lia.
Qed.

(** ** Lists *)

(** [map[T]struct{}] used to drop repetitions: the elements of [l] not in
    [seen], in order, each once (Go's [if _, found := m[x]; found {continue}]). *)
Fixpoint dedup_from {A} `{Countable A} (seen : gset A) (l : list A) : list A :=
  match l with
  | [] => []
  | x :: l' => if decide (x ∈ seen) then dedup_from seen l'
               else x :: dedup_from ({[x]} ∪ seen) l'
  end.

Lemma elem_of_dedup_from {A} `{Countable A} (seen : gset A) l x :
  x ∈ dedup_from seen l ↔ x ∈ l ∧ x ∉ seen.
Proof.
  revert seen. induction l as [|y l IH]; intros seen; simpl; [set_solver|].
  case_decide; [rewrite IH; set_solver|].
  rewrite elem_of_cons, IH, elem_of_cons.
  destruct (decide (x = y)); set_solver.
Qed.

Lemma NoDup_dedup_from {A} `{Countable A} (seen : gset A) l :
  NoDup (dedup_from seen l).
Proof.
  revert seen. induction l as [|y l IH]; intros seen; simpl; [constructor|].
  case_decide; [done|]. constructor; [|done].
  rewrite elem_of_dedup_from. set_solver.
Qed.

Lemma dedup_from_ext {A} `{Countable A} (s1 s2 : gset A) l :
  (∀ x, x ∈ s1 ↔ x ∈ s2) → dedup_from s1 l = dedup_from s2 l.
Proof. intros Hs. replace s2 with s1; [done|]. by apply leibniz_equiv; intros x; apply Hs. Qed.

Lemma prefix_snoc_inv {A} (q l : list A) x : q `prefix_of` l ++ [x] → q = l ++ [x] ∨ q `prefix_of` l.
Proof.
  intros [k Hk]. destruct k as [|y k _] using rev_ind; [left; by rewrite app_nil_r in Hk|].
  rewrite app_assoc in Hk. apply app_inj_tail in Hk as [-> _]. right. by apply prefix_app_r.
Qed.

(** *** One element of a list replaced, for machines whose threads are a list *)

Lemma sum_insert {A} (f : A → nat) l j x y : l !! j = Some x →
  sum_list_with f (<[j := y]> l) + f x = sum_list_with f l + f y.
Proof.
  intros Hj. apply list_elem_of_split_length in Hj as (l1 & l2 & -> & ->).
  rewrite insert_app_r_alt, Nat.sub_diag by done. cbn [insert list_insert]. rewrite !sum_list_with_app. cbn. lia.
Qed.

Lemma bind_insert {A B} (f : A → list B) l j x y : l !! j = Some x →
  ∃ rest, l ≫= f ≡ₚ f x ++ rest ∧ <[j := y]> l ≫= f ≡ₚ f y ++ rest.
Proof.
  intros Hj. apply list_elem_of_split_length in Hj as (l1 & l2 & -> & ->).
  rewrite insert_app_r_alt, Nat.sub_diag by done. cbn [insert list_insert].
  exists ((l1 ≫= f) ++ (l2 ≫= f)). rewrite !bind_app, !bind_cons. split; apply Permutation_app_swap_app.
Qed.

(** ** Automation *)

Create HintDb go.
#[export] Hint Rewrite @bind_unfold : go.
#[export] Hint Resolve u64_range i64_range : go.

(** Split a hypothesis about a monadic run into the runs of its parts. *)
Ltac go_inv :=
  repeat match goal with
  | H : (_ ≫= _) _ = (Ok _, _) |- _ => apply bind_ok in H as (? & ? & ? & ?)
  | H : (mret _) _ = _ |- _ => injection H as ? ?; subst
  | H : mget _ = _ |- _ => injection H as ? ?; subst
  | H : mmodify _ _ = _ |- _ => injection H as ? ?; subst
  | H : mthrow _ _ = _ |- _ => injection H as ? ?; subst
  | H : (Ok _, _) = (Ok _, _) |- _ => injection H as ? ?; subst
  | H : (Err _, _) = (Err _, _) |- _ => injection H as ? ?; subst
  | H : (Err _, _) = (Ok _, _) |- _ => discriminate H
  | H : (Ok _, _) = (Err _, _) |- _ => discriminate H
  | H : Ok _ = Ok _ |- _ => injection H as ?; subst
  | H : Err _ = Err _ |- _ => injection H as ?; subst
  | H : Ok _ = Err _ |- _ => discriminate H
  | H : Err _ = Ok _ |- _ => discriminate H
  end.

(** Run one bind of the goal. *)
Ltac go_step := rewrite bind_unfold; cbv beta iota.

(** Unfold the monad and reduce what is known of the run. *)
Ltac go_run :=
  cbv beta iota delta [mbind M_bind mret M_ret mget mmodify mlift mthrow M_throw mcatch
                       res_bind res_ret res_throw].

(** Case on every scrutinee of the goal, keeping the equations. *)
Ltac go_cases := repeat case_match; simplify_eq/=; try done.
