(* ===== verification/GoStrings.v ===== *)
(** * The part of Go's [strings] package the sources use

    Go strings are byte strings; here [string], a list of 8-bit characters.
    [strings.Replace(s, old, new, -1)] and [strings.Split] with a non-empty
    separator scan from the left and restart after each match, which the skip
    counter of the fixpoints below does structurally. *)

From Stdlib Require Import ZArith Ascii String Decimal DecimalString DecimalPos DecimalZ.
From S2P Require Import Prelude.
From stdpp Require Import base list strings.

#[global] Arguments String.append : simpl nomatch.

(** strings.HasPrefix *)
Fixpoint HasPrefix (s p : string) {struct p} : bool :=
  match p, s with
  | EmptyString, _ => true
  | String a p', String b s' => if decide (a = b) then HasPrefix s' p' else false
  | String _ _, EmptyString => false
  end.

(** [s[n:]] for [n <= len(s)] *)
Fixpoint sdrop (n : nat) (s : string) : string :=
  match n, s with
  | 0, _ => s
  | S n', String _ s' => sdrop n' s'
  | S _, EmptyString => EmptyString
  end.

(** strings.TrimPrefix *)
Definition TrimPrefix (s p : string) : string :=
  if HasPrefix s p then sdrop (String.length p) s else s.

Fixpoint srev_app (s acc : string) : string :=
  match s with EmptyString => acc | String c s' => srev_app s' (String c acc) end.
Definition srev (s : string) : string := srev_app s "".

(** strings.HasSuffix, strings.TrimSuffix *)
Definition HasSuffix (s p : string) : bool := HasPrefix (srev s) (srev p).
Definition TrimSuffix (s p : string) : string :=
  if HasSuffix s p then srev (sdrop (String.length p) (srev s)) else s.

(** strings.Contains *)
Fixpoint Contains (s p : string) : bool :=
  HasPrefix s p || match s with EmptyString => false | String _ s' => Contains s' p end.

Fixpoint replace_go (old new : string) (skip : nat) (s : string) : string :=
  match s with
  | EmptyString => EmptyString
  | String c s' =>
      match skip with
      | S k => replace_go old new k s'
      | 0 => if HasPrefix s old then new +:+ replace_go old new (pred (String.length old)) s'
             else String c (replace_go old new 0 s')
      end
  end.

(** strings.Replace(s, old, new, -1) with a non-empty [old] *)
Definition ReplaceAll (s old new : string) : string := replace_go old new 0 s.

Fixpoint split_go (sep : string) (skip : nat) (s : string) : list string :=
  match s with
  | EmptyString => [EmptyString]
  | String c s' =>
      match skip with
      | S k => split_go sep k s'
      | 0 => if HasPrefix s sep then EmptyString :: split_go sep (pred (String.length sep)) s'
             else match split_go sep 0 s' with
                  | w :: ws => String c w :: ws
                  | [] => [String c EmptyString]
                  end
      end
  end.

(** strings.Split(s, sep) with a non-empty [sep] *)
Definition Split (s sep : string) : list string := split_go sep 0 s.

(** strings.Join *)
Fixpoint Join (ws : list string) (sep : string) : string :=
  match ws with
  | [] => ""
  | [w] => w
  | w :: ws' => w +:+ sep +:+ Join ws' sep
  end.

(** strings.SplitN(s, sep, n) with n > 0 *)
Definition SplitN (s sep : string) (n : nat) : list string :=
  let ws := Split s sep in
  match n with
  | 0 => []
  | S k => if decide (List.length ws ≤ n) then ws else take k ws ++ [Join (drop k ws) sep]
  end.

Fixpoint sforall (p : ascii → bool) (s : string) : bool :=
  match s with EmptyString => true | String c s' => p c && sforall p s' end.

Definition has_char (c : ascii) (s : string) : bool := negb (sforall (λ x, negb (bool_decide (x = c))) s).

(** ** Lemmas *)

Lemma sapp_nil_r s : s +:+ "" = s.
Proof. induction s; simpl; congruence. Qed.

Lemma sapp_assoc a b c : (a +:+ b) +:+ c = a +:+ (b +:+ c).
Proof. induction a; simpl; congruence. Qed.

Lemma slength_app a b : String.length (a +:+ b) = String.length a + String.length b.
Proof. induction a; simpl; congruence. Qed.

Lemma HasPrefix_app p s : HasPrefix (p +:+ s) p = true.
Proof. induction p as [|c p IH]; [by destruct s|]. simpl. by rewrite decide_True. Qed.

Lemma sdrop_app p s : sdrop (String.length p) (p +:+ s) = s.
Proof. by induction p. Qed.

Lemma HasPrefix_true s p : HasPrefix s p = true → ∃ t, s = p +:+ t.
Proof.
  revert s. induction p as [|a p IH]; intros s; simpl; [eauto|].
  destruct s as [|b s]; simpl; [done|]. destruct (decide (a = b)) as [<-|]; [|done].
  intros [t ->]%IH. by exists t.
Qed.

Lemma Contains_app a s p : Contains s p = true → Contains (a +:+ s) p = true.
Proof. induction a as [|c a IH]; intros Hs; [done|]. cbn. rewrite IH by done. apply orb_true_r. Qed.

Lemma Contains_prefix s p : HasPrefix s p = true → Contains s p = true.
Proof. intros Hp. destruct s; cbn; by rewrite Hp. Qed.

(** A part in the middle is found. *)
Lemma Contains_mid a p b : Contains (a +:+ p +:+ b) p = true.
Proof. apply Contains_app, Contains_prefix, HasPrefix_app. Qed.

Lemma TrimPrefix_app p s : TrimPrefix (p +:+ s) p = s.
Proof. unfold TrimPrefix. by rewrite HasPrefix_app, sdrop_app. Qed.

Lemma srev_app_app a b acc : srev_app (a +:+ b) acc = srev_app b (srev_app a acc).
Proof. revert acc. induction a; intros acc; simpl; auto. Qed.

Lemma srev_app_acc s acc : srev_app s acc = srev s +:+ acc.
Proof.
  revert acc. unfold srev. induction s as [|c s IH]; intros acc; simpl; [done|].
  rewrite IH, (IH (String c "")), sapp_assoc. done.
Qed.

Lemma srev_app_dist a b : srev (a +:+ b) = srev b +:+ srev a.
Proof. unfold srev. rewrite srev_app_app, srev_app_acc. by unfold srev. Qed.

Lemma srev_involutive s : srev (srev s) = s.
Proof.
  induction s as [|c s IH]; [done|].
  change (String c s) with (String c "" +:+ s). rewrite !srev_app_dist, IH. done.
Qed.

Lemma srev_length s : String.length (srev s) = String.length s.
Proof.
  induction s as [|c s IH]; [done|]. change (String c s) with (String c "" +:+ s) at 1.
  rewrite srev_app_dist, slength_app, IH. simpl. lia.
Qed.

Lemma HasSuffix_app s p : HasSuffix (s +:+ p) p = true.
Proof. unfold HasSuffix. rewrite srev_app_dist. apply HasPrefix_app. Qed.

Lemma HasSuffix_true s p : HasSuffix s p = true → ∃ t, s = t +:+ p.
Proof.
  intros [t Ht]%HasPrefix_true. exists (srev t).
  rewrite <- (srev_involutive s), Ht, srev_app_dist, srev_involutive. done.
Qed.

Lemma TrimSuffix_app s p : TrimSuffix (s +:+ p) p = s.
Proof.
  unfold TrimSuffix. rewrite HasSuffix_app, srev_app_dist, <- (srev_length p), sdrop_app.
  apply srev_involutive.
Qed.

Lemma Split_not_nil s sep skip : split_go sep skip s ≠ [].
Proof.
  revert skip. induction s as [|c s IH]; intros skip; simpl; [done|].
  destruct skip; [|done]. by repeat case_match.
Qed.

(** Splitting on one character. *)
Lemma Split_cons_sep c s : Split (String c s) (String c "") = "" :: Split s (String c "").
Proof. unfold Split. simpl. by rewrite decide_True. Qed.

Lemma Split_cons_ne c d s : c ≠ d →
  Split (String c s) (String d "") =
    match Split s (String d "") with w :: ws => String c w :: ws | [] => [String c ""] end.
Proof. intros. unfold Split. simpl. by rewrite decide_False by congruence. Qed.

(** Joining what was split gives the string back. *)
Lemma Join_Split s d : Join (Split s (String d "")) (String d "") = s.
Proof.
  induction s as [|c s IH]; [done|]. destruct (decide (c = d)) as [->|Hne].
  - rewrite Split_cons_sep. pose proof (Split_not_nil s (String d "") 0) as Hn.
    fold (Split s (String d "")) in Hn.
    destruct (Split s (String d "")) as [|w ws]; [done|]. simpl in *. by rewrite IH.
  - rewrite Split_cons_ne by done.
    destruct (Split s (String d "")) as [|w [|w' ws]]; simpl in *; congruence.
Qed.

Lemma sforall_app p a b : sforall p (a +:+ b) = sforall p a && sforall p b.
Proof. induction a; simpl; [done|]. rewrite IHa. by destruct (p a). Qed.

Lemma has_char_cons c x s : has_char c (String x s) = bool_decide (x = c) || has_char c s.
Proof. unfold has_char. simpl. by case_bool_decide. Qed.

Lemma has_char_app c a b : has_char c (a +:+ b) = has_char c a || has_char c b.
Proof. unfold has_char. rewrite sforall_app. by destruct (sforall _ a). Qed.

(** Splitting what was joined gives the words back when none has the separator. *)
Lemma Split_word w d : has_char d w = false → Split w (String d "") = [w].
Proof.
  induction w as [|c w IH]; [done|]. rewrite has_char_cons, orb_false_iff.
  intros [Hc%bool_decide_eq_false Hw]. rewrite Split_cons_ne by done. by rewrite IH.
Qed.

Lemma Split_app_sep w s d :
  has_char d w = false → Split (w +:+ String d s) (String d "") = w :: Split s (String d "").
Proof.
  induction w as [|c w IH]; simpl; [intros _; apply Split_cons_sep|].
  rewrite has_char_cons, orb_false_iff. intros [Hc%bool_decide_eq_false Hw].
  rewrite Split_cons_ne by done. by rewrite IH.
Qed.

Lemma Split_Join ws d :
  ws ≠ [] → Forall (λ w, has_char d w = false) ws → Split (Join ws (String d "")) (String d "") = ws.
Proof.
  intros Hn Hf. induction Hf as [|w ws Hw Hf IH]; [done|].
  destruct ws as [|w' ws]; [by apply Split_word|].
  change (Join (w :: w' :: ws) (String d "")) with (w +:+ String d (Join (w' :: ws) (String d ""))).
  rewrite Split_app_sep by done. by rewrite IH.
Qed.

(** Every word of a split is free of the separator. *)
Lemma Split_words s d : Forall (λ w, has_char d w = false) (Split s (String d "")).
Proof.
  induction s as [|c s IH]; [by constructor|]. destruct (decide (c = d)) as [->|Hne].
  - rewrite Split_cons_sep. by constructor.
  - rewrite Split_cons_ne by done. destruct (Split s _) as [|w ws].
    + constructor; [|constructor]. rewrite has_char_cons. by rewrite bool_decide_eq_false_2.
    + apply Forall_cons in IH as [Hw Hws]. constructor; [|done].
      rewrite has_char_cons, bool_decide_eq_false_2; done.
Qed.

Lemma Split_length s d : 1 ≤ List.length (Split s (String d "")).
Proof.
  pose proof (Split_not_nil s (String d "") 0). unfold Split.
  destruct (split_go _ _ s); simpl; [done|lia].
Qed.

(** Replacing a pattern that starts with a character the string does not have. *)
Lemma ReplaceAll_absent s c old new : has_char c s = false → ReplaceAll s (String c old) new = s.
Proof.
  unfold ReplaceAll. induction s as [|x s IH]; [done|].
  rewrite has_char_cons, orb_false_iff. intros [Hc%bool_decide_eq_false Hs]. simpl.
  rewrite decide_False by congruence. by rewrite IH.
Qed.

(** ** White space and numbers *)

(** The ASCII part of [unicode.IsSpace]. *)
Definition is_space (c : ascii) : bool :=
  let n := nat_of_ascii c in
  bool_decide (n = 32) || bool_decide (9 ≤ n ≤ 13).

Fixpoint trim_left (s : string) : string :=
  match s with
  | EmptyString => EmptyString
  | String c s' => if is_space c then trim_left s' else s
  end.

(** strings.TrimSpace *)
Definition TrimSpace (s : string) : string := srev (trim_left (srev (trim_left s))).

(** fmt's %d on an integer. *)
Definition Itoa (n : Z) : string := NilZero.string_of_int (Z.to_int n).

(** strconv.Atoi: a sign, decimal digits, and the range of int64. *)
Definition Atoi (s : string) : option Z :=
  let d := match s with
           | String "+"%char s' => match NilZero.uint_of_string s' with Some u => Some (Decimal.Pos u) | None => None end
           | _ => NilZero.int_of_string s
           end in
  match d with
  | Some i => let n := Z.of_int i in
              if decide (i64_min ≤ n ≤ i64_max)%Z then Some n else None
  | None => None
  end.

Definition no_space (s : string) : bool := sforall (λ c, negb (is_space c)) s.

Lemma trim_left_no_space s : no_space s = true → trim_left s = s.
Proof.
  destruct s as [|c s]; [done|]. unfold no_space. simpl. intros [Hc _]%andb_true_iff.
  by apply negb_true_iff in Hc as ->.
Qed.

Lemma sforall_srev p s : sforall p (srev s) = sforall p s.
Proof.
  induction s as [|c s IH]; [done|]. change (String c s) with (String c "" +:+ s).
  rewrite srev_app_dist, !sforall_app, IH. simpl. by destruct (p c), (sforall p s).
Qed.

Lemma TrimSpace_no_space s : no_space s = true → TrimSpace s = s.
Proof.
  intros Hs. unfold TrimSpace. rewrite (trim_left_no_space s) by done.
  rewrite trim_left_no_space by (unfold no_space in *; by rewrite sforall_srev).
  apply srev_involutive.
Qed.

Lemma trim_left_starts s :
  match trim_left s with EmptyString => True | String c _ => is_space c = false end.
Proof. induction s as [|c s IH]; simpl; [done|]. by destruct (is_space c) eqn:Hc. Qed.

Lemma trim_left_suffix s : ∃ a, s = a +:+ trim_left s.
Proof.
  induction s as [|c s [a IH]]; [by exists ""|]. simpl. destruct (is_space c); [|by exists ""].
  exists (String c a). simpl. by rewrite <- IH.
Qed.

Lemma TrimSpace_idemp s : TrimSpace (TrimSpace s) = TrimSpace s.
Proof.
  unfold TrimSpace. set (t := trim_left s). set (u := trim_left (srev t)).
  assert (trim_left (srev u) = srev u) as ->.
  { destruct (trim_left_suffix (srev t)) as [a Ha]. fold u in Ha.
    assert (t = srev u +:+ srev a) as Ht by (by rewrite <- srev_app_dist, <- Ha, srev_involutive).
    pose proof (trim_left_starts s) as Hs. fold t in Hs. rewrite Ht in Hs.
    destruct (srev u) as [|c r]; [done|]. simpl in *. by rewrite Hs. }
  rewrite srev_involutive. pose proof (trim_left_starts (srev t)) as Hs. fold u in Hs.
  f_equal. destruct u as [|c r]; [done|]. simpl. by rewrite Hs.
Qed.

Lemma TrimSpace_newline s : s ≠ "" → no_space s = true → TrimSpace (s +:+ String "010"%char "") = s.
Proof.
  intros Hn Hs. unfold TrimSpace.
  assert (trim_left (s +:+ String "010"%char "") = s +:+ String "010"%char "") as ->.
  { destruct s as [|c s]; [done|]. unfold no_space in Hs. simpl in *.
    apply andb_true_iff in Hs as [Hc _]. by apply negb_true_iff in Hc as ->. }
  rewrite srev_app_dist. simpl.
  rewrite trim_left_no_space by (unfold no_space in *; by rewrite sforall_srev).
  apply srev_involutive.
Qed.

Lemma string_of_uint_no_space d : no_space (NilEmpty.string_of_uint d) = true.
Proof. unfold no_space. induction d; simpl; try done; by rewrite IHd. Qed.

Lemma Itoa_no_space n : no_space (Itoa n) = true ∧ Itoa n ≠ "".
Proof.
  assert (∀ u, no_space (NilZero.string_of_uint u) = true ∧ NilZero.string_of_uint u ≠ "") as Hu.
  { intros u. destruct u; simpl; split; try done; apply string_of_uint_no_space. }
  unfold Itoa. destruct (Z.to_int n); simpl; [apply Hu|]. split; [|done].
  unfold no_space. simpl. apply Hu.
Qed.

Lemma Itoa_plain n : has_char "/"%char (Itoa n) = false.
Proof.
  assert (∀ u, has_char "/"%char (NilEmpty.string_of_uint u) = false) as Hu.
  { induction u; simpl; rewrite ?has_char_cons; try done; by rewrite IHu. }
  unfold Itoa. destruct (Z.to_int n) as [u|u]; simpl; [|rewrite has_char_cons; simpl];
    destruct u; try done; simpl; rewrite ?has_char_cons; simpl; try apply Hu; by rewrite Hu.
Qed.

Lemma Itoa_not_plus n : ∀ s, Itoa n ≠ String "+"%char s.
Proof.
  intros s. unfold Itoa. destruct (Z.to_int n) as [u|u]; simpl; [|done].
  destruct u; simpl; done.
Qed.

(** Printing and reading back a machine integer. *)
Lemma Atoi_Itoa n : (i64_min ≤ n ≤ i64_max)%Z → Atoi (Itoa n) = Some n.
Proof.
  intros Hn. unfold Atoi.
  assert (NilZero.int_of_string (Itoa n) = Some (Z.to_int n)) as Hr.
  { unfold Itoa. apply NilZero.isi; destruct n; simpl; try done; intros [= Hx];
      by apply DecimalPos.Unsigned.to_uint_nonnil in Hx. }
  pose proof (Itoa_not_plus n) as Hp.
  destruct (Itoa n) as [|c s] eqn:Hs.
  - rewrite Hr, DecimalZ.of_to. by rewrite decide_True.
  - destruct (decide (c = "+"%char)) as [->|Hc]; [by destruct (Hp s)|].
    assert (match String c s with
            | String "+"%char s' => match NilZero.uint_of_string s' with
                                    | Some u => Some (Decimal.Pos u) | None => None end
            | _ => NilZero.int_of_string (String c s) end = Some (Z.to_int n)) as ->.
    { rewrite <- Hr. destruct c as [[] [] [] [] [] [] [] []]; try done. }
    rewrite DecimalZ.of_to. by rewrite decide_True.
Qed.

#[export] Hint Rewrite sapp_nil_r sapp_assoc slength_app has_char_cons has_char_app : go.
