(* ===== verification/ConfigKV.v ===== *)
(** * Dotted keys in JSON maps (src/repo/common/common.go)

    The configuration is edited as a JSON object: [MapGetKV] and [MapSetKV] follow
    a dotted key through nested maps.  The maps are mutable in Go; every map here
    comes fresh from parsing, so values are passed and returned. *)

From Stdlib Require Import ZArith.
From stdpp Require Import base gmap sets list strings.
From S2P Require Import Prelude GoStrings.

(** What encoding/json decodes into an [interface{}]. *)
Inductive JVal :=
  | JNull
  | JBool (b : bool)
  | JNum (n : Z)
  | JStr (s : string)
  | JArr (l : list JVal)
  | JObj (m : gmap string JVal).

(** [fmt.Errorf("%s key is not a map", sofar)] and [... has no attributes]. *)
Inductive KVError :=
  | NotAMap (sofar : string)
  | NoAttributes (sofar : string).

(** The loop of MapGetKV from [cursor], with the parts already followed. *)
Fixpoint get_parts (before parts : list string) (cursor : JVal) : res KVError JVal :=
  match parts with
  | [] => Ok cursor
  | part :: parts' =>
      let sofar := Join before "." in
      match cursor with
      | JObj m =>
          match m !! part with
          | Some c => get_parts (before ++ [part]) parts' c
          | None => Err (NoAttributes sofar)
          end
      | _ => Err (NotAMap sofar)
      end
  end.

(** common.MapGetKV *)
Definition MapGetKV (v : gmap string JVal) (key : string) : res KVError JVal :=
  get_parts [] (Split key ".") (JObj v).

(** The map found or created under [part]. *)
Definition sub_map (m : gmap string JVal) (part : string) : JVal :=
  match m !! part with None | Some JNull => JObj ∅ | Some c => c end.

(** The loop of MapSetKV: the updated cursor. *)
Fixpoint set_parts (before parts : list string) (value cursor : JVal) : res KVError JVal :=
  match parts with
  | [] => Ok cursor
  | part :: parts' =>
      match cursor with
      | JObj m =>
          match parts' with
          | [] => Ok (JObj (<[part := value]> m))
          | _ => c ← set_parts (before ++ [part]) parts' value (sub_map m part);
                 Ok (JObj (<[part := c]> m))
          end
      | _ => Err (NotAMap (Join before "."))
      end
  end.

(** common.MapSetKV *)
Definition MapSetKV (v : gmap string JVal) (key : string) (value : JVal) : res KVError (gmap string JVal) :=
  match set_parts [] (Split key ".") value (JObj v) with
  | Ok (JObj m) => Ok m
  | Ok _ => Ok v
  | Err e => Err e
  end.

(** ** Reading what was written *)

Lemma set_parts_cons before p q ps value cursor :
  set_parts before (p :: q :: ps) value cursor =
    match cursor with
    | JObj m =>
        match set_parts (before ++ [p]) (q :: ps) value (sub_map m p) with
        | Ok c => Ok (JObj (<[p := c]> m))
        | Err e => Err e
        end
    | _ => Err (NotAMap (Join before "."))
    end.
Proof. done. Qed.

Lemma set_parts_obj before parts value m c :
  set_parts before parts value (JObj m) = Ok c → ∃ m', c = JObj m'.
Proof.
  destruct parts as [|p [|q ps]]; [simpl; naive_solver..|]. rewrite set_parts_cons.
  destruct (set_parts _ _ _ _); naive_solver.
Qed.

Lemma get_set_parts before before' parts value cursor c :
  parts ≠ [] → set_parts before parts value cursor = Ok c → get_parts before' parts c = Ok value.
Proof.
  revert before before' cursor c. induction parts as [|p ps IH]; [done|].
  intros before before' cursor c _. destruct ps as [|q ps].
  - simpl. destruct cursor; try done. intros [= <-]. by rewrite lookup_insert_eq.
  - rewrite set_parts_cons. destruct cursor as [| | | | |m]; try done.
    destruct (set_parts (before ++ [p]) (q :: ps) value (sub_map m p)) as [c'|] eqn:Hs; [|done].
    intros [= <-]. change (match <[p := c']> m !! p with
      | Some c => get_parts (before' ++ [p]) (q :: ps) c
      | None => Err (NoAttributes (Join before' ".")) end = Ok value).
    rewrite lookup_insert_eq. by eapply IH.
Qed.

(** Neither key extends the other. *)
Definition unrelated (ps qs : list string) : Prop := ¬ (ps `prefix_of` qs) ∧ ¬ (qs `prefix_of` ps).

Lemma get_set_other before before' ps qs value cursor c :
  set_parts before ps value cursor = Ok c → unrelated ps qs →
  ∀ r, get_parts before' qs cursor = Ok r → get_parts before' qs c = Ok r.
Proof.
  revert before before' qs cursor c.
  induction ps as [|p ps IH]; intros before before' qs cursor c;
    [intros _ [H _]; by destruct H; apply prefix_nil|].
  destruct qs as [|q qs]; [intros _ [_ H]; by destruct H; apply prefix_nil|].
  intros Hset Hu r. simpl. destruct cursor as [| | | | |m]; try done.
  destruct ps as [|p' ps].
  - simpl in Hset. injection Hset as <-. rewrite lookup_insert_ne; [done|].
    intros <-. destruct Hu as [H _]. destruct H. apply prefix_cons, prefix_nil.
  - rewrite set_parts_cons in Hset.
    destruct (set_parts (before ++ [p]) (p' :: ps) value (sub_map m p)) as [c'|] eqn:Hs; [|done].
    injection Hset as <-. destruct (decide (p = q)) as [<-|Hne]; [|by rewrite lookup_insert_ne].
    rewrite lookup_insert_eq. destruct (m !! p) as [c0|] eqn:Hp; [|done].
    intros Hg. eapply IH; [exact Hs| |].
    + destruct Hu as [H1 H2]. split; intros Hx; [apply H1|apply H2]; by apply prefix_cons.
    + unfold sub_map. rewrite Hp. destruct c0; try done. destruct qs; [|done].
      destruct Hu as [_ H]. destruct H. apply prefix_cons, prefix_nil.
Qed.

Lemma MapGetKV_set_same m key value m' :
  MapSetKV m key value = Ok m' → MapGetKV m' key = Ok value.
Proof.
  unfold MapSetKV, MapGetKV. pose proof (Split_not_nil key "." 0) as Hn.
  fold (Split key ".") in Hn.
  destruct (set_parts [] (Split key ".") value (JObj m)) as [c|] eqn:Hs; [|done].
  destruct (set_parts_obj _ _ _ _ _ Hs) as [m0 ->]. intros [= <-]. by eapply get_set_parts.
Qed.

Lemma MapGetKV_set_other m key value m' key' r :
  MapSetKV m key value = Ok m' → unrelated (Split key ".") (Split key' ".") →
  MapGetKV m key' = Ok r → MapGetKV m' key' = Ok r.
Proof.
  unfold MapSetKV, MapGetKV.
  destruct (set_parts [] (Split key ".") value (JObj m)) as [c|] eqn:Hs; [|done].
  destruct (set_parts_obj _ _ _ _ _ Hs) as [m0 ->]. intros [= <-] Hu Hg.
  by eapply get_set_other.
Qed.

(** Setting a key makes exactly it readable with the value set, and keeps
    the value of every key that is neither a prefix nor an extension of it, maps
    created on the way included. *)
Theorem MapSetKV_roundtrip m key value m' :
  MapSetKV m key value = Ok m' →
  MapGetKV m' key = Ok value ∧
  ∀ key' r, unrelated (Split key ".") (Split key' ".") →
    MapGetKV m key' = Ok r → MapGetKV m' key' = Ok r.
Proof.
  intros Hs. split; [by eapply MapGetKV_set_same|]. intros. by eapply MapGetKV_set_other.
Qed.

Lemma MapSetKV_roundtrip_witness :
  ∃ m', MapSetKV {["Identity" := JObj {["PrivKey" := JStr "k"]}]} "Swarm.ConnMgr.LowWater" (JNum 5) = Ok m' ∧
    MapGetKV m' "Swarm.ConnMgr.LowWater" = Ok (JNum 5).
Proof.
  destruct (MapSetKV _ _ _) as [m'|] eqn:He; [|by vm_compute in He].
  exists m'. split; [done|]. apply (proj1 (MapSetKV_roundtrip _ _ _ _ He)).
Defined.
