(* ===== verification/Cid.v ===== *)
(** * Content identifiers

    The part of [go-cid] and [go-verifcid] (vendored under
    src/vendor/github.com/ipfs) the node's own code relies on: a CID is
    undefined, a bare sha2-256 multihash (version 0), or a codec with any
    multihash (version 1).  [ValidateCid] is the security check the verifying
    blockstores and the garbage collector run before they touch a block. *)

From S2P Require Import Prelude.
From stdpp Require Import base gmap sets list strings.
From Stdlib Require Import ZArith.

(** A multihash: the code of the hash function and the digest bytes. *)
Record Multihash := mkMultihash {
  mh_code : N;
  mh_digest : string;
}.

Inductive Cid :=
  | Undef
  | CidV0 (digest : string)
  | CidV1 (codec : N) (hash : Multihash).

#[export] Instance Multihash_eq_dec : EqDecision Multihash.
Proof. solve_decision. Defined.
#[export] Instance Cid_eq_dec : EqDecision Cid.
Proof. solve_decision. Defined.

#[export] Instance Multihash_countable : Countable Multihash.
Proof.
  apply (inj_countable' (λ m, (mh_code m, mh_digest m))
           (λ p, mkMultihash p.1 p.2)). by intros [].
Defined.

#[export] Instance Cid_countable : Countable Cid.
Proof.
  refine (inj_countable'
    (λ c, match c with
          | Undef => inl ()
          | CidV0 d => inr (inl d)
          | CidV1 k h => inr (inr (k, h))
          end)
    (λ e, match e with
          | inl () => Undef
          | inr (inl d) => CidV0 d
          | inr (inr (k, h)) => CidV1 k h
          end) _).
  by intros [| |].
Defined.

(** Multicodec and multihash codes. *)
Definition Raw : N := 0x55.
Definition DagProtobuf : N := 0x70.
Definition Libp2pKey : N := 0x72.
Definition SHA2_256 : N := 0x12.
Definition mh_ID : N := 0x00.
Definition BLAKE2B_MIN : N := 0xb201.
Definition BLAKE2B_MAX : N := 0xb240.
Definition BLAKE2S_MIN : N := 0xb241.
Definition BLAKE2S_MAX : N := 0xb260.

(** cid.Cid.Defined *)
Definition cid_Defined (c : Cid) : bool :=
  match c with Undef => false | _ => true end.

(** cid.Prefix: version, codec, hash function and digest length. *)
Record Prefix := mkPrefix {
  Version : N;
  Codec : N;
  MhType : N;
  MhLength : N;
}.

(** cid.Cid.Prefix; calling it on an undefined CID is undefined behaviour in the
    library, the zero prefix here. *)
Definition cid_Prefix (c : Cid) : Prefix :=
  match c with
  | Undef => mkPrefix 0 0 0 0
  | CidV0 _ => mkPrefix 0 DagProtobuf SHA2_256 32
  | CidV1 k h => mkPrefix 1 k (mh_code h) (N.of_nat (String.length (mh_digest h)))
  end.

Definition cid_Type (c : Cid) : N := Codec (cid_Prefix c).

(** cid.Cid.Hash *)
Definition cid_Hash (c : Cid) : Multihash :=
  match c with
  | Undef => mkMultihash 0 ""
  | CidV0 d => mkMultihash SHA2_256 d
  | CidV1 _ h => h
  end.

(** cid.NewCidV0 panics (here: [None]) unless the multihash is a 32-byte sha2-256. *)
Definition NewCidV0 (h : Multihash) : option Cid :=
  if decide (mh_code h = SHA2_256 ∧ String.length (mh_digest h) = 32)
  then Some (CidV0 (mh_digest h)) else None.

(** cid.NewCidV1 *)
Definition NewCidV1 (codec : N) (h : Multihash) : Cid := CidV1 codec h.

(** A CID as the library's constructors build it: version 0 only over a 32-byte digest. *)
Definition cid_wf (c : Cid) : Prop :=
  match c with CidV0 d => String.length d = 32 | _ => True end.

#[export] Instance cid_wf_dec c : Decision (cid_wf c).
Proof. destruct c; apply _. Defined.

Lemma NewCidV0_wf h c : NewCidV0 h = Some c → cid_wf c.
Proof. unfold NewCidV0. case_decide; naive_solver. Qed.

(** *** go-verifcid *)

Inductive VerifError :=
  | ErrPossiblyInsecureHashFunction
  | ErrBelowMinimumHashLength.

Definition minimumHashLength : N := 20.

(** verifcid.goodset *)
Definition goodset : list N :=
  [0x12; 0x13; 0x17; 0x16; 0x15; 0x14; 0x19; 0x56; 0x1A; 0x1B; 0x1C; 0x1D; 0x00; 0x11]%N.

(** verifcid.IsGoodHash *)
Definition IsGoodHash (code : N) : bool :=
  bool_decide (code ∈ goodset)
  || bool_decide (BLAKE2B_MIN + 19 ≤ code ≤ BLAKE2B_MAX)%N
  || bool_decide (BLAKE2S_MIN + 19 ≤ code ≤ BLAKE2S_MAX)%N.

#[export] Instance VerifError_eq_dec : EqDecision VerifError.
Proof. solve_decision. Defined.

(** verifcid.ValidateCid *)
Definition ValidateCid (c : Cid) : res VerifError unit :=
  let pref := cid_Prefix c in
  if negb (IsGoodHash (MhType pref)) then Err ErrPossiblyInsecureHashFunction
  else if negb (bool_decide (MhType pref = mh_ID))
          && bool_decide (MhLength pref < minimumHashLength)%N
  then Err ErrBelowMinimumHashLength
  else Ok ().
