(* ===== verification/Dag.v ===== *)
(** * Merkle-DAG reachability and the concurrent walk

    [merkledag.Walk] (src/vendor/github.com/ipfs/go-merkledag/merkledag.go)
    drives the garbage collector and the pin listing.  With [Concurrent()] it
    runs 32 fetchers over a shared frontier and serialises the calls to [visit]
    with a lock, so a run is a sequence of steps, each taking some pending CID.
    [sched] resolves the choice: quantifying over it covers every order the
    fetchers can produce.  The theorems say that whatever the order, a walk that
    returns without an error has marked exactly what is reachable through nodes
    that were not marked before, and that it does return. *)

From S2P Require Import Prelude.
From stdpp Require Import base gmap sets list strings relations.
From Stdlib Require Import ZArith.

Section dag.
Context {N : Type} `{Countable N}.
Variable children : N → list N.

Definition edge (a b : N) : Prop := b ∈ children a.

#[export] Instance edge_dec a b : Decision (edge a b).
Proof. unfold edge. apply _. Defined.

(** [reach a b]: [b] is [a] or a descendant of [a]. *)
Definition reach : N → N → Prop := rtc edge.

(** [reach_in n a b]: [b] is at depth [n] below [a]. *)
Definition reach_in : nat → N → N → Prop := nsteps edge.

Definition dag_closed (X : gset N) : Prop :=
  ∀ c d, c ∈ X → edge c d → d ∈ X.

Lemma closed_reach X a b : dag_closed X → reach a b → a ∈ X → b ∈ X.
Proof. intros HX Hr. induction Hr; eauto. Qed.

Lemma closed_union_reach X Y :
  (∀ c d, c ∈ X → edge c d → d ∈ Y) → X ⊆ Y →
  (∀ c d, c ∈ Y → c ∉ X → edge c d → d ∈ Y) → dag_closed Y.
Proof. intros HX HXY HY c d Hc Hd. destruct (decide (c ∈ X)); eauto. Qed.

(** A list closed under links bounds what is reachable from its members; the
    hypothesis is decidable, so concrete DAGs discharge it by computation. *)
Lemma reach_within (X : list N) r c :
  Forall (λ x, Forall (λ y, y ∈ X) (children x)) X → r ∈ X → reach r c → c ∈ X.
Proof.
  intros HX Hr Hrc. induction Hrc as [|x y z Hxy _ IH]; [done|]. apply IH.
  rewrite Forall_forall in HX. specialize (HX x Hr). rewrite Forall_forall in HX. by apply HX.
Qed.

(** ** Pending work *)

(** Take the [i mod length l]-th element out of [l]. *)
Definition take_at (i : nat) (l : list N) : option (N * list N) :=
  match l with
  | [] => None
  | x :: _ =>
      let j := i mod length l in
      Some (default x (l !! j), take j l ++ drop (S j) l)
  end.

Lemma take_at_None i l : take_at i l = None ↔ l = [].
Proof. destruct l; simpl; split; congruence. Qed.

Lemma take_at_Permutation i l c rest : take_at i l = Some (c, rest) → l ≡ₚ c :: rest.
Proof.
  destruct l as [|x l']; [done|]. unfold take_at.
  set (l := x :: l'). set (j := i mod length l).
  assert (j < length l) as Hj by (apply Nat.mod_upper_bound; done).
  destruct (lookup_lt_is_Some_2 l j Hj) as [y Hy]. rewrite Hy. simpl.
  intros [= <- <-].
  rewrite <- (take_drop_middle l j y Hy) at 1. by rewrite Permutation_middle.
Qed.

Lemma elem_of_take_at i l c rest x :
  take_at i l = Some (c, rest) → x ∈ l ↔ x = c ∨ x ∈ rest.
Proof. intros ->%take_at_Permutation. by rewrite elem_of_cons. Qed.

(** The links out of a finite set of nodes *)
Definition links_in (X : gset N) : nat :=
  set_fold (λ c n, length (children c) + n) 0 X.

Lemma links_in_insert c X :
  c ∉ X → links_in ({[c]} ∪ X) = length (children c) + links_in X.
Proof.
  intros Hc. unfold links_in.
  rewrite (set_fold_disj_union_strong (=)); [..|set_solver].
  - rewrite set_fold_singleton.
    cut (∀ n (Y : gset N), set_fold (λ c n, length (children c) + n) n Y
               = n + set_fold (λ c n, length (children c) + n) 0 Y); [intros Hf; rewrite Hf; lia|].
    intros n Y. unfold set_fold. simpl. generalize (elements Y).
    induction l; simpl; lia.
  - apply _.
  - intros. lia.
Qed.

Lemma links_in_mono X Y : X ⊆ Y → links_in X ≤ links_in Y.
Proof.
  intros HXY. revert Y HXY. induction X as [|c X Hc IH] using set_ind_L; intros Y HXY.
  - unfold links_in. rewrite set_fold_empty. lia.
  - replace Y with ({[c]} ∪ (Y ∖ {[c]})).
    + rewrite !links_in_insert by set_solver.
      pose proof (IH (Y ∖ {[c]}) ltac:(set_solver)). lia.
    + apply leibniz_equiv. intros x. destruct (decide (x = c)); set_solver.
Qed.

(** ** The walk *)

Inductive walk_err (E : Type) :=
  | WErr (e : E)
  | OutOfFuel.
Arguments WErr {E} e.
Arguments OutOfFuel {E}.

Context {A E : Type}.
Variable getLinks : N → M A E (list N).

(** [cid.Set.Visit]: mark [c], reporting whether it was new. *)
Definition set_Visit (c : N) (m : gset N) : bool * gset N :=
  if decide (c ∈ m) then (false, m) else (true, {[c]} ∪ m).

(** The fetch loop of [parallelWalkDepth], from the frontier [todo]. *)
Fixpoint walk_loop (sched : nat → nat) (fuel : nat) (todo : list N)
    : M (gset N * A) (walk_err E) unit := λ '(m, a),
  match take_at (sched fuel) todo with
  | None => (Ok (), (m, a))
  | Some (c, rest) =>
      match fuel with
      | 0 => (Err OutOfFuel, (m, a))
      | S fuel' =>
          match set_Visit c m with
          | (false, m') => walk_loop sched fuel' rest (m', a)
          | (true, m') =>
              match getLinks c a with
              | (Err e, a') => (Err (WErr e), (m', a'))
              | (Ok links, a') => walk_loop sched fuel' (rest ++ links) (m', a')
              end
          end
      end
  end.

Hypothesis getLinks_children :
  ∀ c a l a', getLinks c a = (Ok l, a') → l = children c.

Section outcome.
(** A property of the auxiliary state every successful fetch establishes for
    the node it fetched, and that later fetches keep. *)
Variable good : N → A → Prop.
Hypothesis good_est : ∀ c a l a', getLinks c a = (Ok l, a') → good c a'.
Hypothesis good_keep : ∀ c d a r a', good c a → getLinks d a = (r, a') → good c a'.

Record walk_inv (m0 : gset N) (roots : list N) (todo : list N) (m : gset N) (a : A) : Prop := {
  wi_mono : m0 ⊆ m;
  wi_roots : ∀ r, r ∈ roots → r ∈ m ∨ r ∈ todo;
  wi_closed : ∀ c d, c ∈ m → c ∉ m0 → edge c d → d ∈ m ∨ d ∈ todo;
  wi_sound : ∀ c, c ∈ m → c ∉ m0 → ∃ r, r ∈ roots ∧ reach r c;
  wi_todo : ∀ c, c ∈ todo → ∃ r, r ∈ roots ∧ reach r c;
  wi_good : ∀ c, c ∈ m → c ∉ m0 → good c a;
}.

Lemma walk_inv_skip m0 roots todo m a c rest i :
  take_at i todo = Some (c, rest) → c ∈ m →
  walk_inv m0 roots todo m a → walk_inv m0 roots rest m a.
Proof.
  intros Ht Hc [? Hr Hcl ? Htd ?].
  assert (∀ x, x ∈ todo ↔ x = c ∨ x ∈ rest) as Hel
    by (intros; by eapply elem_of_take_at).
  split; try done.
  - intros r ?. destruct (Hr r) as [|[->|]%Hel]; auto.
  - intros x d ? ? ?. destruct (Hcl x d) as [|[->|]%Hel]; auto.
  - intros x Hx. apply Htd, Hel. by right.
Qed.

Lemma walk_inv_visit m0 roots todo m a c rest i a' :
  take_at i todo = Some (c, rest) → c ∉ m →
  getLinks c a = (Ok (children c), a') →
  walk_inv m0 roots todo m a →
  walk_inv m0 roots (rest ++ children c) ({[c]} ∪ m) a'.
Proof.
  intros Ht Hc Hg [Hm Hr Hcl Hs Htd Hgd].
  assert (∀ x, x ∈ todo ↔ x = c ∨ x ∈ rest) as Hel
    by (intros; by eapply elem_of_take_at).
  assert (∃ r, r ∈ roots ∧ reach r c) as (r0 & Hr0 & Hreach)
    by (apply Htd, Hel; by left).
  split.
  - set_solver.
  - intros r Hin. destruct (Hr r Hin) as [|Hin']; [set_solver|].
    apply Hel in Hin' as [->|]; set_solver.
  - intros x d Hx Hx0 Hd. rewrite elem_of_union, elem_of_singleton in Hx.
    destruct Hx as [->|Hx]; [right; apply elem_of_app; by right|].
    destruct (Hcl x d Hx Hx0 Hd) as [|Hin']; [set_solver|].
    apply Hel in Hin' as [->|]; set_solver.
  - intros x Hx Hx0. rewrite elem_of_union, elem_of_singleton in Hx.
    destruct Hx as [->|Hx]; eauto.
  - intros x Hx. apply elem_of_app in Hx as [Hx|Hx]; [apply Htd, Hel; by right|].
    exists r0. split; [done|]. eapply rtc_r; [exact Hreach|exact Hx].
  - intros x Hx Hx0. rewrite elem_of_union, elem_of_singleton in Hx.
    destruct Hx as [->|Hx]; eauto.
Qed.

Lemma walk_loop_inv sched fuel m0 roots todo m a m' a' :
  walk_inv m0 roots todo m a →
  walk_loop sched fuel todo (m, a) = (Ok (), (m', a')) →
  walk_inv m0 roots [] m' a'.
Proof.
  revert todo m a. induction fuel as [|fuel IH]; intros todo m a Hinv; simpl;
    destruct (take_at _ todo) as [[c rest]|] eqn:Ht; try discriminate.
  1,3: intros [= <- <-]; apply take_at_None in Ht as ->; done.
  unfold set_Visit. case_decide.
  - intros Hw. eapply IH; [|exact Hw]. by eapply walk_inv_skip.
  - destruct (getLinks c a) as [[l|e] a1] eqn:Hg; [|discriminate].
    intros Hw. pose proof (getLinks_children _ _ _ _ Hg) as ->.
    eapply IH; [|exact Hw]. by eapply walk_inv_visit.
Qed.

Lemma walk_inv_init m0 roots a : walk_inv m0 roots roots m0 a.
Proof.
  split; [done|by right|set_solver|set_solver| |set_solver].
  intros c Hc. exists c. split; [done|apply rtc_refl].
Qed.

(** What a walk that returned without an error has done. *)
Record walk_post (m0 : gset N) (roots : list N) (m : gset N) (a : A) : Prop := {
  wp_mono : m0 ⊆ m;
  wp_roots : ∀ r, r ∈ roots → r ∈ m;
  wp_closed : ∀ c d, c ∈ m → c ∉ m0 → edge c d → d ∈ m;
  wp_sound : ∀ c, c ∈ m → c ∉ m0 → ∃ r, r ∈ roots ∧ reach r c;
  wp_good : ∀ c, c ∈ m → c ∉ m0 → good c a;
}.

Lemma walk_loop_post sched fuel todo m0 a m' a' :
  walk_loop sched fuel todo (m0, a) = (Ok (), (m', a')) →
  walk_post m0 todo m' a'.
Proof.
  intros Hw. destruct (walk_loop_inv _ _ _ _ _ _ _ _ _ (walk_inv_init m0 todo a) Hw)
    as [? Hr Hc ? ? ?].
  split; try done.
  - intros r Hr'. destruct (Hr r Hr'); [done|set_solver].
  - intros c d ? ? ?. destruct (Hc c d); [done..|set_solver].
Qed.

End outcome.

(** A walk only ever adds marks, however it ends. *)
Lemma walk_loop_mono sched fuel todo m a r m' a' :
  walk_loop sched fuel todo (m, a) = (r, (m', a')) → m ⊆ m'.
Proof.
  revert todo m a. induction fuel as [|fuel IH]; intros todo m a; simpl;
    destruct (take_at _ todo) as [[c rest]|]; try (intros [= _ <- _]; done).
  unfold set_Visit. case_decide; [apply IH|].
  destruct (getLinks c a) as [[l|e] a1]; [|intros [= _ <- _]; set_solver].
  intros ?%IH. set_solver.
Qed.

(** ** Termination *)

(** Outside the finite set [U] a node has no children. *)
Variable U : gset N.
Hypothesis U_children : ∀ c, c ∉ U → children c = [].

Lemma links_in_visit c m :
  c ∉ m → links_in (U ∖ m) = length (children c) + links_in (U ∖ ({[c]} ∪ m)).
Proof.
  intros Hc. destruct (decide (c ∈ U)) as [Hu|Hu].
  - rewrite <- links_in_insert by set_solver. f_equal.
    apply leibniz_equiv. intros x. destruct (decide (x = c)); set_solver.
  - rewrite (U_children c Hu). simpl. f_equal. set_solver.
Qed.

(** Fuel for a walk from [todo]: each pending node once, plus each link once. *)
Definition walk_fuel (todo : list N) : nat := length todo + links_in U.

Lemma walk_loop_fuel sched fuel todo m a :
  length todo + links_in (U ∖ m) ≤ fuel →
  (walk_loop sched fuel todo (m, a)).1 ≠ Err OutOfFuel.
Proof.
  revert todo m a. induction fuel as [|fuel IH]; intros todo m a Hf; simpl;
    destruct (take_at _ todo) as [[c rest]|] eqn:Ht; try done.
  all: pose proof (Permutation_length (take_at_Permutation _ _ _ _ Ht)) as Hl; simpl in Hl.
  - lia.
  - unfold set_Visit. case_decide; [apply IH; lia|].
    destruct (getLinks c a) as [[l|e] a1] eqn:Hg; [|done].
    pose proof (getLinks_children _ _ _ _ Hg) as ->.
    apply IH. rewrite length_app. rewrite (links_in_visit c m) in Hf by done. lia.
Qed.


Lemma walk_fuel_enough sched todo m a :
  (walk_loop sched (walk_fuel todo) todo (m, a)).1 ≠ Err OutOfFuel.
Proof.
  apply walk_loop_fuel. unfold walk_fuel.
  pose proof (links_in_mono (U ∖ m) U ltac:(set_solver)). lia.
Qed.

(** If every node the walk can meet is fetched without an error, the walk
    returns, and an invariant [I] of those fetches holds afterwards. *)
Lemma walk_loop_clean_from (P : N → Prop) (I : A → Prop) sched fuel todo m a :
  (∀ c d, P c → edge c d → P d) →
  (∀ c a, P c → I a → ∃ a', getLinks c a = (Ok (children c), a') ∧ I a') →
  (walk_loop sched fuel todo (m, a)).1 ≠ Err OutOfFuel →
  (∀ c, c ∈ todo → P c) → I a →
  ∃ m' a', walk_loop sched fuel todo (m, a) = (Ok (), (m', a')) ∧ I a'.
Proof.
  intros HPe HPg. revert todo m a.
  induction fuel as [|fuel IH]; intros todo m a; simpl;
    destruct (take_at _ todo) as [[c rest]|] eqn:Ht; try by eauto.
  intros Hf HPt HIa.
  assert (∀ x, x ∈ todo ↔ x = c ∨ x ∈ rest) as Hel by (intros; by eapply elem_of_take_at).
  revert Hf. unfold set_Visit. case_decide.
  - intros Hf. apply IH; [done| |done]. intros x Hx. apply HPt, Hel. by right.
  - assert (P c) as HPc by (apply HPt, Hel; by left).
    destruct (HPg c a HPc HIa) as (a' & -> & HIa'). intros Hf. apply IH; [done| |done].
    intros x [Hx|Hx]%elem_of_app; [apply HPt, Hel; by right|by eapply HPe].
Qed.

Lemma walk_loop_clean (P : N → Prop) (I : A → Prop) sched todo m a :
  (∀ c d, P c → edge c d → P d) →
  (∀ c a, P c → I a → ∃ a', getLinks c a = (Ok (children c), a') ∧ I a') →
  (∀ c, c ∈ todo → P c) → I a →
  ∃ m' a', walk_loop sched (walk_fuel todo) todo (m, a) = (Ok (), (m', a')) ∧ I a'.
Proof. intros HPe HPg. apply (walk_loop_clean_from P I); [done..|apply walk_fuel_enough]. Qed.

End dag.

(** Over a finite set closed under links on which every fetch succeeds, enough
    fuel makes the walk return; nothing is assumed of the nodes outside it. *)
Lemma walk_loop_total {N : Type} `{Countable N} {A E : Type} (children : N → list N) (g : N → M A E (list N))
    (X : gset N) (I : A → Prop) sched fuel todo m a :
  dag_closed children X →
  (∀ c a, c ∈ X → I a → ∃ a', g c a = (Ok (children c), a') ∧ I a') →
  (∀ c, c ∈ todo → c ∈ X) → I a → length todo + links_in children (X ∖ m) ≤ fuel →
  ∃ m' a', walk_loop g sched fuel todo (m, a) = (Ok (), (m', a')) ∧ I a'.
Proof.
  intros HX Hget. revert todo m a. induction fuel as [|fuel IH]; intros todo m a Ht HI Hf; simpl;
    destruct (take_at _ todo) as [[c rest]|] eqn:Hta; try by eauto.
  all: pose proof (Permutation_length (take_at_Permutation _ _ _ _ Hta)) as Hl; simpl in Hl.
  1: lia.
  assert (∀ x, x ∈ todo ↔ x = c ∨ x ∈ rest) as Hel by (intros; by eapply elem_of_take_at).
  assert (c ∈ X) as Hc by (apply Ht, Hel; by left).
  unfold set_Visit. case_decide as Hm.
  - apply IH; [|done|lia]. intros x Hx. apply Ht, Hel. by right.
  - destruct (Hget c a Hc HI) as (a' & -> & HI'). apply IH; [|done|].
    + intros x [Hx|Hx]%elem_of_app; [apply Ht, Hel; by right|by eapply HX].
    + assert (X ∖ m = {[c]} ∪ (X ∖ ({[c]} ∪ m))) as Hx
        by (apply leibniz_equiv; intros x; destruct (decide (x = c)); set_solver).
      rewrite Hx, links_in_insert in Hf by set_solver. rewrite length_app. lia.
Qed.

(** Two fetchers that agree under an invariant they keep make the same walk. *)
Lemma walk_loop_ext {N : Type} `{Countable N} {A E : Type} (g1 g2 : N → M A E (list N)) (I : A → Prop) sched fuel todo m a :
  (∀ c a, I a → g1 c a = g2 c a) → (∀ c a r a', I a → g1 c a = (r, a') → I a') → I a →
  walk_loop g1 sched fuel todo (m, a) = walk_loop g2 sched fuel todo (m, a).
Proof.
  intros Heq Hk. revert todo m a. induction fuel as [|fuel IH]; intros todo m a HI; simpl;
    destruct (take_at _ todo) as [[c rest]|]; try done.
  unfold set_Visit. case_decide; [by apply IH|]. rewrite <- (Heq c a HI).
  destruct (g1 c a) as [[l|e] a1] eqn:Hg; [|done]. apply IH. by eapply Hk.
Qed.

Lemma walk_loop_keeps {N : Type} `{Countable N} {A E : Type} (g : N → M A E (list N)) (I : A → Prop) sched fuel todo m a r m' a' :
  (∀ c a r a', I a → g c a = (r, a') → I a') → I a →
  walk_loop g sched fuel todo (m, a) = (r, (m', a')) → I a'.
Proof.
  intros Hk. revert todo m a. induction fuel as [|fuel IH]; intros todo m a HI; simpl;
    destruct (take_at _ todo) as [[c rest]|]; try (by intros [= _ _ <-]).
  unfold set_Visit. case_decide; [by apply IH|].
  destruct (g c a) as [[l|e] a1] eqn:Hg; [|intros [= _ _ <-]; by eapply Hk]. apply IH. by eapply Hk.
Qed.

(** An error of a walk is an error of a fetch. *)
Lemma walk_loop_err {N : Type} `{Countable N} {A E : Type} (g : N → M A E (list N)) sched fuel todo m a e s' :
  walk_loop g sched fuel todo (m, a) = (Err e, s') → e = OutOfFuel E ∨ ∃ c a1 e' a2, e = WErr E e' ∧ g c a1 = (Err e', a2).
Proof.
  revert todo m a. induction fuel as [|fuel IH]; intros todo m a; simpl;
    destruct (take_at _ todo) as [[c rest]|]; try done; [intros [= <- <-]; by left|].
  unfold set_Visit. case_decide; [by apply IH|].
  destruct (g c a) as [[l|e'] a1] eqn:Hg; [by apply IH|]. intros [= <- <-]. right. by exists c, a, e', a1.
Qed.

Arguments WErr {E} e.
Arguments OutOfFuel {E}.
