(* ===== verification/Blockstores.v ===== *)
(** * The blockstore layers

    The node stacks wrappers over a blockstore (src/core/node/storage.go):
    [VerifBS] and [VerifBSGC] (src/thirdparty/verifbs) refuse CIDs with insecure
    hash functions, and [cidv0v1] (src/thirdparty/cidv0v1) finds a block under
    either version of its CID.  A blockstore is a class of operations; its laws
    relate them to an abstract view, the data stored under each CID, up to an
    equivalence of CIDs.  Each wrapper is an instance over any instance, proved
    to keep the laws; those of removal, kept by VerifBS only, are apart. *)

From Stdlib Require Import ZArith.
From S2P Require Import Prelude Cid.
From stdpp Require Import base gmap sets list strings.

Inductive BsError :=
  | BsNotFound
  | BsVerif (err : VerifError)
  | BsPanic
  | BsOther (msg : string).

(** ** The interface *)

(** bstore.Blockstore over a state [S]; a block is its CID with its data. *)
Class Blockstore (S : Type) := {
  bs_Has : Cid → M S BsError bool;
  bs_Get : Cid → M S BsError string;
  bs_GetSize : Cid → M S BsError Z;
  bs_Put : Cid → string → M S BsError unit;
  bs_PutMany : list (Cid * string) → M S BsError unit;
  bs_DeleteBlock : Cid → M S BsError unit;
  bs_AllKeysChan : M S BsError (list Cid);
  bs_HashOnRead : bool → S → S;
}.

(** What a blockstore promises, whatever errors it may return: reads leave the
    view alone and answer from it, writes change only CIDs equivalent to theirs. *)
Record BlockstoreLaws {S} (B : Blockstore S) (eqv : Cid → Cid → Prop)
    (view : S → Cid → option string) : Prop := {
  Has_view : ∀ c s r s', bs_Has c s = (r, s') → ∀ x, view s' x = view s x;
  Has_ok : ∀ c s b s', bs_Has c s = (Ok b, s') → (b = true ↔ is_Some (view s c));
  Get_view : ∀ c s r s', bs_Get c s = (r, s') → ∀ x, view s' x = view s x;
  Get_ok : ∀ c s d s', bs_Get c s = (Ok d, s') → view s c = Some d;
  Get_missing : ∀ c s s', bs_Get c s = (Err BsNotFound, s') → view s c = None;
  GetSize_view : ∀ c s r s', bs_GetSize c s = (r, s') → ∀ x, view s' x = view s x;
  GetSize_ok : ∀ c s n s', bs_GetSize c s = (Ok n, s') →
    ∃ d, view s c = Some d ∧ n = Z.of_nat (String.length d);
  GetSize_missing : ∀ c s s', bs_GetSize c s = (Err BsNotFound, s') → view s c = None;
  Put_frame : ∀ c d s r s', bs_Put c d s = (r, s') → ∀ x, ¬ eqv c x → view s' x = view s x;
  Put_missing : ∀ c d s s', bs_Put c d s ≠ (Err BsNotFound, s');
  Put_err : ∀ c d s e s', bs_Put c d s = (Err e, s') →
    view s' c = view s c ∨ view s' c = Some d;
  Put_ok : ∀ c d s s', bs_Put c d s = (Ok (), s') → view s' c = Some d;
  PutMany_frame : ∀ l s r s', bs_PutMany l s = (r, s') →
    ∀ x, Forall (λ p, ¬ eqv p.1 x) l → view s' x = view s x;
  PutMany_ok : ∀ l s s', bs_PutMany l s = (Ok (), s') → ∀ c d, (c, d) ∈ l → is_Some (view s' c);
  Delete_frame : ∀ c s r s', bs_DeleteBlock c s = (r, s') → ∀ x, ¬ eqv c x → view s' x = view s x;
  Delete_less : ∀ c s r s', bs_DeleteBlock c s = (r, s') → ∀ x, is_Some (view s' x) → is_Some (view s x);
  AllKeys_view : ∀ s r s', bs_AllKeysChan s = (r, s') → ∀ x, view s' x = view s x;
  AllKeys_there : ∀ s ks s', bs_AllKeysChan s = (Ok ks, s') → ∀ c, c ∈ ks → is_Some (view s c);
  HashOnRead_view : ∀ b s x, view (bs_HashOnRead b s) x = view s x;
}.

(** What it promises of a removal and of a listing: what is removed is gone, and
    the listing leaves nothing out. *)
Record RemovalLaws {S} (B : Blockstore S) (view : S → Cid → option string) : Prop := {
  Delete_gone : ∀ c s s', bs_DeleteBlock c s = (Ok (), s') → view s' c = None;
  AllKeys_all : ∀ s ks s', bs_AllKeysChan s = (Ok ks, s') → ∀ c, is_Some (view s c) → c ∈ ks;
}.

(** ** VerifBS *)

Section verifbs.
Context {S : Type} (B : Blockstore S).

Definition verif {A} (c : Cid) (k : M S BsError A) : M S BsError A :=
  match ValidateCid c with Err e => mthrow (BsVerif e) | Ok _ => k end.

(** VerifBS.Put *)
Definition verif_Put (c : Cid) (d : string) : M S BsError unit := verif c (bs_Put c d).

(** VerifBS.PutMany: every CID is checked before anything is written. *)
Definition verif_PutMany (blks : list (Cid * string)) : M S BsError unit :=
  _ ← mfor blks (λ b, verif b.1 (mret ()));
  bs_PutMany blks.

(** VerifBS.Get *)
Definition verif_Get (c : Cid) : M S BsError string := verif c (bs_Get c).

(** VerifBS embeds the blockstore: the other methods are its own. *)
#[local] Instance VerifBS : Blockstore S := {|
  bs_Has := bs_Has;
  bs_Get := verif_Get;
  bs_GetSize := bs_GetSize;
  bs_Put := verif_Put;
  bs_PutMany := verif_PutMany;
  bs_DeleteBlock := bs_DeleteBlock;
  bs_AllKeysChan := bs_AllKeysChan;
  bs_HashOnRead := bs_HashOnRead;
|}.

End verifbs.

(** VerifBSGC wraps a GCBlockstore the same way; its locks are not data. *)
Definition VerifBSGC {S} (B : Blockstore S) : Blockstore S := VerifBS B.

(** ** cidv0v1 *)

(** tryOtherCidVersion; [None] if NewCidV0 panics. *)
Definition tryOtherCidVersion (c : Cid) : option Cid :=
  let prefix := cid_Prefix c in
  if decide (Codec prefix ≠ DagProtobuf ∨ MhType prefix ≠ SHA2_256 ∨ MhLength prefix ≠ 32%N)
  then Some Undef
  else if decide (Version prefix = 0%N) then Some (NewCidV1 DagProtobuf (cid_Hash c))
  else NewCidV0 (cid_Hash c).

Section cidv0v1.
Context {S : Type} (B : Blockstore S).

(** Continue with the other version of [c], or with [k0] if there is none. *)
Definition other {A} (c : Cid) (k0 : M S BsError A) (k : Cid → M S BsError A) : M S BsError A :=
  match tryOtherCidVersion c with
  | None => mthrow BsPanic
  | Some c1 => if cid_Defined c1 then k c1 else k0
  end.

(** blockstore.Has *)
Definition v0v1_Has (c : Cid) : M S BsError bool :=
  have ← bs_Has c;
  if have : bool then mret true else other c (mret false) bs_Has.

(** blockstore.Get: a block found under the other version is stored under [c] too. *)
Definition v0v1_Get (c : Cid) : M S BsError string := λ s,
  match bs_Get c s with
  | (Ok d, s1) => (Ok d, s1)
  | (Err BsNotFound, s1) =>
      other c (mthrow BsNotFound) (λ c1,
        d ← bs_Get c1;
        _ ← bs_Put c d;
        mret d) s1
  | (Err e, s1) => (Err e, s1)
  end.

(** blockstore.GetSize *)
Definition v0v1_GetSize (c : Cid) : M S BsError Z := λ s,
  match bs_GetSize c s with
  | (Ok n, s1) => (Ok n, s1)
  | (Err BsNotFound, s1) => other c (mthrow BsNotFound) bs_GetSize s1
  | (Err e, s1) => (Err e, s1)
  end.

(** The wrapper embeds the blockstore: what it does not define is its own. *)
#[local] Instance cidv0v1 : Blockstore S := {|
  bs_Has := v0v1_Has;
  bs_Get := v0v1_Get;
  bs_GetSize := v0v1_GetSize;
  bs_Put := bs_Put;
  bs_PutMany := bs_PutMany;
  bs_DeleteBlock := bs_DeleteBlock;
  bs_AllKeysChan := bs_AllKeysChan;
  bs_HashOnRead := bs_HashOnRead;
|}.

End cidv0v1.

(** ** CID versions *)

(** [c'] is the other version of [c]. *)
Definition other_version (c c' : Cid) : Prop :=
  tryOtherCidVersion c = Some c' ∧ cid_Defined c' = true.

Lemma tryOther_Undef : tryOtherCidVersion Undef = Some Undef.
Proof. done. Qed.

Lemma tryOther_V0 d : tryOtherCidVersion (CidV0 d) = Some (CidV1 DagProtobuf (mkMultihash SHA2_256 d)).
Proof. done. Qed.

Lemma tryOther_V1 k h :
  tryOtherCidVersion (CidV1 k h) = Some (
    if decide (k = DagProtobuf ∧ mh_code h = SHA2_256 ∧ String.length (mh_digest h) = 32)
    then CidV0 (mh_digest h) else Undef).
Proof.
  unfold tryOtherCidVersion. simpl. case_decide as H1; case_decide as H2.
  - destruct H2 as (Hk & Hc & Hl). rewrite Hl in H1. naive_solver.
  - done.
  - destruct H2 as (_ & Hc & Hl). unfold NewCidV0. by rewrite decide_True.
  - destruct H2. destruct (decide (k = DagProtobuf)), (decide (mh_code h = SHA2_256)),
      (decide (N.of_nat (String.length (mh_digest h)) = 32%N)); try (exfalso; tauto).
    split_and!; [done..|lia].
Qed.

Lemma tryOther_total c : ∃ c1, tryOtherCidVersion c = Some c1.
Proof. destruct c; [eauto|rewrite tryOther_V0; eauto|rewrite tryOther_V1; eauto]. Qed.

(** Looking for the other version of a CID never panics, and it is an
    involution: for a well-formed CID that has another version, the other version
    of that is the CID itself, with the same multihash; versions differ. *)
Theorem tryOtherCidVersion_involutive c :
  (∃ c1, tryOtherCidVersion c = Some c1) ∧
  (cid_wf c → ∀ c1, other_version c c1 →
     other_version c1 c ∧ cid_Hash c1 = cid_Hash c ∧ c1 ≠ c ∧ cid_wf c1).
Proof.
  split; [apply tryOther_total|]. intros Hwf c1 [Ht Hd]. unfold other_version.
  destruct c as [|d|k h]; [rewrite tryOther_Undef in Ht; by injection Ht as <-|..].
  - rewrite tryOther_V0 in Ht. injection Ht as <-. rewrite tryOther_V1. simpl.
    rewrite decide_True by (split_and!; done). done.
  - rewrite tryOther_V1 in Ht. injection Ht as <-. case_decide as Hc; [|done].
    destruct Hc as (-> & Hh & Hl). rewrite tryOther_V0. simpl. rewrite <- Hh. by destruct h.
Qed.

(** ** The wrappers keep the laws *)

Lemma mfor_verif {S} (blks : list (Cid * string)) (s : S) r s' :
  mfor blks (λ b, verif b.1 (mret ())) s = (r, s') →
  s' = s ∧ (r = Ok () → Forall (λ b, ValidateCid b.1 = Ok ()) blks) ∧
  r ≠ Err BsNotFound.
Proof.
  revert s. induction blks as [|b blks IH]; intros s; simpl.
  { intros [= <- <-]. by split_and!. }
  rewrite bind_unfold. unfold verif at 1. destruct (ValidateCid b.1) as [[]|e] eqn:Hv.
  - intros (-> & Hf & ?)%IH. split_and!; [done| |done]. intros Hr. constructor; auto.
  - intros [= <- <-]. by split_and!.
Qed.

Lemma other_version_back x c c1 : other_version x c → other_version c c1 → x = c1.
Proof.
  intros [Hx Hd] [Hc Hd1]. destruct x as [|d|k h]; [rewrite tryOther_Undef in Hx; by injection Hx as <-|..].
  - rewrite tryOther_V0 in Hx. injection Hx as <-. rewrite tryOther_V1 in Hc. injection Hc as <-.
    case_decide; done.
  - rewrite tryOther_V1 in Hx. injection Hx as <-. case_decide as Hk; [|done].
    destruct Hk as (-> & Hh & _). rewrite tryOther_V0 in Hc. injection Hc as <-.
    rewrite <- Hh. by destruct h.
Qed.

(** Wrapping a blockstore in VerifBS keeps every promise of the interface,
    for the same view: refusing insecure CIDs is never reported as not found. *)
Theorem VerifBS_laws {S} (B : Blockstore S) eqv view :
  BlockstoreLaws B eqv view → RemovalLaws B view →
  BlockstoreLaws (VerifBS B) eqv view ∧ RemovalLaws (VerifBS B) view.
Proof.
  intros HB HR. split; [|split; apply HR]. split; simpl; try apply HB.
  - intros c s r s'. unfold verif_Get, verif. destruct (ValidateCid c); [apply HB|].
    by intros [= _ <-].
  - intros c s d s'. unfold verif_Get, verif. destruct (ValidateCid c); [apply HB|done].
  - intros c s s'. unfold verif_Get, verif. destruct (ValidateCid c); [apply HB|done].
  - intros c d s r s'. unfold verif_Put, verif. destruct (ValidateCid c); [apply HB|].
    by intros [= _ <-].
  - intros c d s s'. unfold verif_Put, verif. destruct (ValidateCid c); [apply HB|done].
  - intros c d s e s'. unfold verif_Put, verif. destruct (ValidateCid c); [apply HB|].
    intros [= _ <-]. by left.
  - intros c d s s'. unfold verif_Put, verif. destruct (ValidateCid c); [apply HB|done].
  - intros l s r s'. unfold verif_PutMany. rewrite bind_unfold.
    destruct (mfor _ _ _) as [[[]|e] s1] eqn:Hm; apply mfor_verif in Hm as (-> & _).
    + apply HB.
    + by intros [= _ <-].
  - intros l s s'. unfold verif_PutMany. rewrite bind_unfold.
    destruct (mfor _ _ _) as [[[]|e] s1] eqn:Hm; apply mfor_verif in Hm as (-> & _); [apply HB|done].
Qed.

(** The view of cidv0v1: what is stored under [c], else under its other version. *)
Definition either_version {S} (view : S → Cid → option string) (s : S) (c : Cid) : option string :=
  match view s c with
  | Some d => Some d
  | None => match tryOtherCidVersion c with
            | Some c1 => if cid_Defined c1 then view s c1 else None
            | None => None
            end
  end.

(** A CID is equivalent to itself and to the CID it is the other version of. *)
Definition same_block (c x : Cid) : Prop := c = x ∨ other_version x c.

Section v0v1_laws.
Context {S : Type} (B : Blockstore S) (view : S → Cid → option string).
Hypothesis HB : BlockstoreLaws B (=) view.

Lemma either_ext s s' c : (∀ x, view s' x = view s x) → either_version view s' c = either_version view s c.
Proof.
  intros Hv. unfold either_version. rewrite Hv. destruct (view s c); [done|].
  destruct (tryOtherCidVersion c) as [c1|]; [|done]. by rewrite Hv.
Qed.

Lemma either_some s c d : view s c = Some d → either_version view s c = Some d.
Proof. unfold either_version. by intros ->. Qed.

Lemma either_other s c c1 :
  view s c = None → other_version c c1 → either_version view s c = view s c1.
Proof. unfold either_version. intros -> [-> ->]. done. Qed.

Lemma either_none s c :
  view s c = None → (∀ c1, ¬ other_version c c1) → either_version view s c = None.
Proof.
  unfold either_version, other_version. intros -> Hn.
  destruct (tryOtherCidVersion c) as [c1|]; [|done].
  destruct (cid_Defined c1) eqn:Hd; [|done]. destruct (Hn c1). done.
Qed.

Lemma either_is_some s c :
  is_Some (either_version view s c) ↔ is_Some (view s c) ∨ ∃ y, other_version c y ∧ is_Some (view s y).
Proof.
  unfold either_version, other_version. destruct (view s c) as [d|]; [naive_solver|].
  destruct (tryOtherCidVersion c) as [c1|].
  - destruct (cid_Defined c1) eqn:Hd.
    + split; [intros Hx; right; eauto|]. intros [[? ?]|(y & [[= ->] _] & Hy)]; done.
    + split; [by intros [? ?]|]. intros [[? ?]|(y & [[= ->] Hy] & _)]; [done|congruence].
  - split; [by intros [? ?]|]. intros [[? ?]|(y & [? _] & _)]; done.
Qed.

(** The two ways the lookup of the other version can go. *)
Lemma other_cases {A} c (k0 : M S BsError A) k s :
  (other c k0 k s = k0 s ∧ ∀ c1, ¬ other_version c c1) ∨
  (∃ c1, other_version c c1 ∧ other c k0 k s = k c1 s).
Proof.
  unfold other, other_version. destruct (tryOther_total c) as [c1 ->].
  destruct (cid_Defined c1) eqn:Hd; [right; eauto|left]. split; [done|].
  intros c2 [[= ->] ?]. congruence.
Qed.

(** Storing under [c] what its other version holds changes nothing one can see. *)
Lemma either_put s s' c c1 d :
  other_version c c1 → view s c = None → view s c1 = Some d →
  view s' c = Some d → (∀ x, c ≠ x → view s' x = view s x) →
  ∀ x, either_version view s' x = either_version view s x.
Proof.
  intros Ho Hc Hc1 Hc' Hx x. destruct (decide (x = c)) as [->|Hne].
  - rewrite (either_some s' c d) by done. by rewrite (either_other s c c1).
  - unfold either_version. rewrite Hx by done. destruct (view s x) eqn:Hvx; [done|].
    destruct (tryOtherCidVersion x) as [y|] eqn:Hy; [|done].
    destruct (cid_Defined y) eqn:Hdy; [|done]. destruct (decide (y = c)) as [->|]; [|by rewrite Hx].
    rewrite (other_version_back x c c1) in Hvx by done. congruence.
Qed.

Lemma frame_same_block c s s' x :
  (∀ y, c ≠ y → view s' y = view s y) → ¬ same_block c x →
  either_version view s' x = either_version view s x.
Proof.
  intros Hf Hn. unfold either_version, same_block in *.
  rewrite Hf by (intros ->; apply Hn; by left). destruct (view s x); [done|].
  destruct (tryOtherCidVersion x) as [y|] eqn:Hy; [|done].
  destruct (cid_Defined y) eqn:Hd; [|done]. apply Hf. intros ->. apply Hn. by right.
Qed.

Lemma PutMany_same_block (l : list (Cid * string)) s s' x :
  (∀ y, Forall (λ p, p.1 ≠ y) l → view s' y = view s y) → Forall (λ p, ¬ same_block p.1 x) l →
  either_version view s' x = either_version view s x.
Proof.
  unfold same_block. intros Hf Hn. unfold either_version.
  rewrite Hf by (eapply Forall_impl; [exact Hn|]; intros p Hp Heq; apply Hp; by left).
  destruct (view s x); [done|]. destruct (tryOtherCidVersion x) as [y|] eqn:Hy; [|done].
  destruct (cid_Defined y) eqn:Hd; [|done].
  apply Hf. eapply Forall_impl; [exact Hn|]. intros p Hp Heq. apply Hp. right. by rewrite Heq.
Qed.

Lemma v0v1_Get_found c s s1 d s' :
  bs_Get c s = (Err BsNotFound, s1) →
  (∃ c1, other_version c c1 ∧
     (d ← bs_Get c1; _ ← bs_Put c d; mret d) s1 = (d, s')) →
  (∀ x, either_version view s' x = either_version view s x) ∧
  (∀ v, d = Ok v → either_version view s c = Some v) ∧
  (d = Err BsNotFound → either_version view s c = None).
Proof.
  intros Hg (c1 & Ho & Hr). pose proof (Get_view _ _ _ HB _ _ _ _ Hg) as Hv1.
  pose proof (Get_missing _ _ _ HB _ _ _ Hg) as Hn. rewrite bind_unfold in Hr.
  rewrite (either_other s c c1 Hn Ho).
  destruct (bs_Get c1 s1) as [[v|e] s2] eqn:Hg1; pose proof (Get_view _ _ _ HB _ _ _ _ Hg1) as Hv2.
  - pose proof (Get_ok _ _ _ HB _ _ _ _ Hg1) as Hv. rewrite Hv1 in Hv. rewrite Hv.
    rewrite bind_unfold in Hr. destruct (bs_Put c v s2) as [[[]|e] s3] eqn:Hp.
    + injection Hr as <- <-. split_and!; [|by intros ? [= <-]|done].
      apply (either_put s s3 c c1 v); [done..| |].
      * by apply (Put_ok _ _ _ HB _ _ _ _ Hp).
      * intros x Hx. rewrite (Put_frame _ _ _ HB _ _ _ _ _ Hp x Hx), Hv2. apply Hv1.
    + injection Hr as <- <-. split_and!; [|done|].
      * assert (∀ x, c ≠ x → view s3 x = view s x) as Hfr.
        { intros x Hx. rewrite (Put_frame _ _ _ HB _ _ _ _ _ Hp x Hx), Hv2. apply Hv1. }
        destruct (Put_err _ _ _ HB _ _ _ _ _ Hp) as [Hc|Hc]; [|by apply (either_put s s3 c c1 v)].
        intros x. apply either_ext. intros y. destruct (decide (c = y)) as [<-|]; [|auto].
        by rewrite Hc, Hv2, Hv1.
      * intros [= ->]. by destruct (Put_missing _ _ _ HB _ _ _ _ Hp).
  - injection Hr as <- <-. split_and!; [|done|].
    + intros x. apply either_ext. intros y. by rewrite Hv2, Hv1.
    + intros [= ->]. rewrite <- Hv1. by apply (Get_missing _ _ _ HB _ _ _ Hg1).
Qed.

Lemma v0v1_Get_spec c s r s' :
  v0v1_Get B c s = (r, s') →
  (∀ x, either_version view s' x = either_version view s x) ∧
  (∀ v, r = Ok v → either_version view s c = Some v) ∧
  (r = Err BsNotFound → either_version view s c = None).
Proof.
  unfold v0v1_Get. destruct (bs_Get c s) as [[d|e] s1] eqn:Hg;
    pose proof (Get_view _ _ _ HB _ _ _ _ Hg) as Hv1.
  - intros [= <- <-].
    split_and!; [|intros ? [= <-]; apply either_some, (Get_ok _ _ _ HB _ _ _ _ Hg)|done].
    intros x. by apply either_ext.
  - destruct e; try (intros [= <- <-]; split_and!; [intros x; by apply either_ext|done|done]).
    destruct (other_cases c (mthrow BsNotFound) (λ c1, d ← bs_Get c1; _ ← bs_Put c d; mret d) s1)
      as [[-> Hn]|(c1 & Ho & ->)].
    + intros [= <- <-]. split_and!; [intros x; by apply either_ext|done|].
      intros _. apply either_none; [by apply (Get_missing _ _ _ HB _ _ _ Hg)|done].
    + intros Hr. eapply v0v1_Get_found; eauto.
Qed.

Lemma v0v1_GetSize_spec c s r s' :
  v0v1_GetSize B c s = (r, s') →
  (∀ x, either_version view s' x = either_version view s x) ∧
  (∀ n, r = Ok n → ∃ d, either_version view s c = Some d ∧ n = Z.of_nat (String.length d)) ∧
  (r = Err BsNotFound → either_version view s c = None).
Proof.
  unfold v0v1_GetSize. destruct (bs_GetSize c s) as [[d|e] s1] eqn:Hg;
    pose proof (GetSize_view _ _ _ HB _ _ _ _ Hg) as Hv1.
  - destruct (GetSize_ok _ _ _ HB _ _ _ _ Hg) as (v & Hv & ->). intros [= <- <-].
    split_and!; [intros x; by apply either_ext| |done].
    intros ? [= <-]. exists v. split; [by apply either_some|done].
  - destruct e; try (intros [= <- <-]; split_and!; [intros x; by apply either_ext|done|done]).
    pose proof (GetSize_missing _ _ _ HB _ _ _ Hg) as Hn.
    destruct (other_cases c (mthrow BsNotFound) bs_GetSize s1) as [[-> Hno]|(c1 & Ho & ->)].
    + intros [= <- <-]. split_and!; [intros x; by apply either_ext|done|].
      intros _. by apply either_none.
    + intros Hr. rewrite (either_other s c c1 Hn Ho).
      pose proof (GetSize_view _ _ _ HB _ _ _ _ Hr) as Hv2. rewrite <- Hv1. split_and!.
      * intros x. apply either_ext. intros y. by rewrite Hv2, Hv1.
      * intros n ->. by apply (GetSize_ok _ _ _ HB _ _ _ _ Hr).
      * intros ->. by apply (GetSize_missing _ _ _ HB _ _ _ Hr).
Qed.

Lemma v0v1_Has_spec c s r s' :
  v0v1_Has B c s = (r, s') →
  (∀ x, either_version view s' x = either_version view s x) ∧
  (∀ b, r = Ok b → (b = true ↔ is_Some (either_version view s c))).
Proof.
  unfold v0v1_Has. rewrite bind_unfold. destruct (bs_Has c s) as [[b|e] s1] eqn:Hh;
    pose proof (Has_view _ _ _ HB _ _ _ _ Hh) as Hv1.
  2: { intros [= <- <-]. split; [intros x; by apply either_ext|done]. }
  pose proof (Has_ok _ _ _ HB _ _ _ _ Hh) as Hb. destruct b.
  - intros [= <- <-]. split; [intros x; by apply either_ext|]. intros ? [= <-].
    destruct (proj1 Hb eq_refl) as [d Hd]. rewrite (either_some s c d Hd). by split; eauto.
  - assert (view s c = None) as Hn.
    { destruct (view s c) eqn:Hd; [|done]. destruct Hb as [_ Hb]. by discriminate Hb; eauto. }
    destruct (other_cases c (mret false) bs_Has s1) as [[-> Hno]|(c1 & Ho & ->)].
    + intros [= <- <-]. split; [intros x; by apply either_ext|]. intros ? [= <-].
      rewrite either_none by done. split; [done|by intros []].
    + intros Hr. pose proof (Has_view _ _ _ HB _ _ _ _ Hr) as Hv2. split.
      * intros x. apply either_ext. intros y. by rewrite Hv2, Hv1.
      * intros b ->. rewrite (either_other s c c1 Hn Ho), <- Hv1.
        by apply (Has_ok _ _ _ HB _ _ _ _ Hr).
Qed.

End v0v1_laws.

(** What is stored under the other version of [c]. *)
Definition other_view {S} (view : S → Cid → option string) (s : S) (c : Cid) : option string :=
  match tryOtherCidVersion c with
  | Some c1 => if cid_Defined c1 then view s c1 else None
  | None => None
  end.

(** The cidv0v1 wrapper keeps the promises the interface makes of its reads
    and writes, for the view in which a block can be found under either version of
    its CID; in particular the copy that Get stores under the requested version is
    not observable, and Has, Get and GetSize agree on what is there.  A removal is
    the blockstore's own: it takes nothing else away, and leaves to be found under
    the CID exactly what is stored under its other version. *)
Theorem cidv0v1_laws {S} (B : Blockstore S) view :
  BlockstoreLaws B (=) view → RemovalLaws B view →
  BlockstoreLaws (cidv0v1 B) same_block (either_version view) ∧
  ∀ c s s', cid_wf c → bs_DeleteBlock (Blockstore := cidv0v1 B) c s = (Ok (), s') →
    either_version view s' c = other_view view s c.
Proof.
  intros HB HR. split; [split; simpl|].
  - intros c s r s' H. by apply (v0v1_Has_spec B view HB c s r s' H).
  - intros c s b s' H. by apply (v0v1_Has_spec B view HB c s _ s' H).
  - intros c s r s' H. by apply (v0v1_Get_spec B view HB c s r s' H).
  - intros c s d s' H. by apply (v0v1_Get_spec B view HB c s _ s' H).
  - intros c s s' H. by apply (v0v1_Get_spec B view HB c s _ s' H).
  - intros c s r s' H. by apply (v0v1_GetSize_spec B view HB c s r s' H).
  - intros c s n s' H. by apply (v0v1_GetSize_spec B view HB c s _ s' H).
  - intros c s s' H. by apply (v0v1_GetSize_spec B view HB c s _ s' H).
  - intros c d s r s' H x. apply frame_same_block. by apply (Put_frame _ _ _ HB _ _ _ _ _ H).
  - intros c d s s'. apply (Put_missing _ _ _ HB).
  - intros c d s e s' H. pose proof (Put_frame _ _ _ HB _ _ _ _ _ H) as Hf.
    destruct (Put_err _ _ _ HB _ _ _ _ _ H) as [Hc|Hc]; [left|right; by apply either_some].
    apply either_ext. intros x. destruct (decide (c = x)) as [<-|]; auto.
  - intros c d s s' H. apply either_some. by apply (Put_ok _ _ _ HB _ _ _ _ H).
  - intros l s r s' H x. apply PutMany_same_block. by apply (PutMany_frame _ _ _ HB _ _ _ _ H).
  - intros l s s' H c d Hin. destruct (PutMany_ok _ _ _ HB _ _ _ H c d Hin) as [v Hv].
    exists v. by apply either_some.
  - intros c s r s' H x. apply frame_same_block. by apply (Delete_frame _ _ _ HB _ _ _ _ H).
  - intros c s r s' H x Hx. pose proof (Delete_less _ _ _ HB _ _ _ _ H) as Hl.
    apply either_is_some in Hx as [Hx|(y & Hy & Hx)]; apply either_is_some; [by left; apply Hl|].
    right. exists y. split; [done|by apply Hl].
  - intros s r s' H x. apply either_ext. by apply (AllKeys_view _ _ _ HB _ _ _ H).
  - intros s ks s' H c Hc. apply either_is_some. left. by apply (AllKeys_there _ _ _ HB _ _ _ H).
  - intros b s x. apply either_ext. intros y. by apply (HashOnRead_view _ _ _ HB).
  - intros c s s' Hwf H. simpl in H. unfold either_version, other_view. rewrite (Delete_gone _ _ HR _ _ _ H).
    destruct (tryOtherCidVersion c) as [c1|] eqn:Ht; [|done]. destruct (cid_Defined c1) eqn:Hd; [|done].
    apply (Delete_frame _ _ _ HB _ _ _ _ H). intros Heq.
    by destruct (proj2 (tryOtherCidVersion_involutive c) Hwf c1 (conj Ht Hd)) as (_ & _ & Hne & _).
Qed.

(** ** Security of the stack *)

(** Only CIDs that pass the check are stored. *)
Definition secure {S} (view : S → Cid → option string) (s : S) : Prop :=
  ∀ x, is_Some (view s x) → ValidateCid x = Ok ().

(** The calls a client can make. *)
Inductive BsOp :=
  | OpHas (c : Cid) | OpGet (c : Cid) | OpGetSize (c : Cid)
  | OpPut (c : Cid) (d : string) | OpPutMany (l : list (Cid * string))
  | OpDeleteBlock (c : Cid) | OpAllKeysChan | OpHashOnRead (b : bool).

Definition run_op {S} (B : Blockstore S) (op : BsOp) (s : S) : S :=
  match op with
  | OpHas c => (bs_Has c s).2
  | OpGet c => (bs_Get c s).2
  | OpGetSize c => (bs_GetSize c s).2
  | OpPut c d => (bs_Put c d s).2
  | OpPutMany l => (bs_PutMany l s).2
  | OpDeleteBlock c => (bs_DeleteBlock c s).2
  | OpAllKeysChan => (bs_AllKeysChan s).2
  | OpHashOnRead b => bs_HashOnRead b s
  end.

Definition run_ops {S} (B : Blockstore S) (ops : list BsOp) (s : S) : S :=
  fold_left (λ s op, run_op B op s) ops s.

Section secure.
Context {S : Type} (B : Blockstore S) (view : S → Cid → option string).
Hypothesis HB : BlockstoreLaws B (=) view.

Abbreviation sec := (secure view).

Lemma same_view_secure s s' : (∀ x, view s' x = view s x) → sec s → sec s'.
Proof. intros Hv Hs x. rewrite Hv. apply Hs. Qed.

Lemma verif_Put_secure c d : keeps sec (verif_Put B c d).
Proof.
  intros s r s'. unfold verif_Put, verif. destruct (ValidateCid c) as [[]|] eqn:Hc;
    [|by intros [= _ <-]].
  intros Hp Hs x Hx. destruct (decide (c = x)) as [<-|Hne]; [done|].
  apply Hs. by rewrite <- (Put_frame _ _ _ HB _ _ _ _ _ Hp x Hne).
Qed.

Lemma verif_PutMany_secure l : keeps sec (verif_PutMany B l).
Proof.
  intros s r s'. unfold verif_PutMany. rewrite bind_unfold.
  destruct (mfor _ _ _) as [[[]|e] s1] eqn:Hm; apply mfor_verif in Hm as (-> & Hok & _);
    [|by intros [= _ <-]].
  intros Hp Hs x Hx. specialize (Hok eq_refl). rewrite Forall_forall in Hok.
  destruct (decide (x ∈ l.*1)) as [([c d] & -> & Hin)%list_elem_of_fmap|Hn]; [by apply (Hok (c, d))|].
  apply Hs. rewrite <- (PutMany_frame _ _ _ HB _ _ _ _ Hp x); [done|].
  apply Forall_forall. intros [c d] Hin Heq. apply Hn, list_elem_of_fmap. by exists (c, d).
Qed.

Lemma verif_Get_secure c : keeps sec (verif_Get B c).
Proof.
  intros s r s'. unfold verif_Get, verif. destruct (ValidateCid c); [|by intros [= _ <-]].
  intros Hg. by apply same_view_secure, (Get_view _ _ _ HB _ _ _ _ Hg).
Qed.

Lemma Has_secure c : keeps sec (bs_Has c).
Proof. intros s r s' Hg. by apply same_view_secure, (Has_view _ _ _ HB _ _ _ _ Hg). Qed.

Lemma GetSize_secure c : keeps sec (bs_GetSize c).
Proof. intros s r s' Hg. by apply same_view_secure, (GetSize_view _ _ _ HB _ _ _ _ Hg). Qed.

Lemma other_secure {A} c (k0 : M S BsError A) k :
  keeps sec k0 → (∀ c1, keeps sec (k c1)) → keeps sec (other c k0 k).
Proof.
  intros H0 H1 s r s'. destruct (other_cases c k0 k s) as [[-> _]|(c1 & _ & ->)];
    [apply H0|apply H1].
Qed.

Lemma v0v1_Get_secure c : keeps sec (v0v1_Get (VerifBS B) c).
Proof.
  intros s r s'. unfold v0v1_Get. simpl.
  destruct (verif_Get B c s) as [[d|e] s1] eqn:Hg; [intros [= _ <-]; by eapply verif_Get_secure|].
  destruct e; try (intros [= _ <-]; by eapply verif_Get_secure).
  intros Ho Hs. eapply other_secure; [apply keeps_throw| |exact Ho|by eapply verif_Get_secure].
  intros c1. apply keeps_bind; [apply verif_Get_secure|intros d].
  apply keeps_bind; [apply verif_Put_secure|intros u; apply keeps_ret].
Qed.

Lemma v0v1_GetSize_secure c : keeps sec (v0v1_GetSize (VerifBS B) c).
Proof.
  intros s r s'. unfold v0v1_GetSize. simpl.
  destruct (bs_GetSize c s) as [[d|e] s1] eqn:Hg; [intros [= _ <-]; by eapply GetSize_secure|].
  destruct e; try (intros [= _ <-]; by eapply GetSize_secure).
  intros Ho Hs. eapply other_secure; [apply keeps_throw| |exact Ho|by eapply GetSize_secure].
  apply GetSize_secure.
Qed.

Lemma v0v1_Has_secure c : keeps sec (v0v1_Has (VerifBS B) c).
Proof.
  apply keeps_bind; [apply Has_secure|]. intros []; [apply keeps_ret|].
  apply other_secure; [apply keeps_ret|apply Has_secure].
Qed.

Lemma stack_op_secure op s : sec s → sec (run_op (cidv0v1 (VerifBS B)) op s).
Proof.
  destruct op as [c|c|c|c d|l|c| |b]; simpl.
  - destruct (v0v1_Has _ c s) eqn:H. by eapply v0v1_Has_secure.
  - destruct (v0v1_Get _ c s) eqn:H. by eapply v0v1_Get_secure.
  - destruct (v0v1_GetSize _ c s) eqn:H. by eapply v0v1_GetSize_secure.
  - destruct (verif_Put _ c d s) eqn:H. by eapply verif_Put_secure.
  - destruct (verif_PutMany _ l s) eqn:H. by eapply verif_PutMany_secure.
  - destruct (bs_DeleteBlock c s) eqn:H. intros Hs x Hx. apply Hs. by apply (Delete_less _ _ _ HB _ _ _ _ H).
  - destruct (bs_AllKeysChan s) eqn:H. apply same_view_secure, (AllKeys_view _ _ _ HB _ _ _ H).
  - apply same_view_secure. intros x. apply (HashOnRead_view _ _ _ HB).
Qed.

End secure.

(** C29.  The stack the node builds over its datastore, cidv0v1 over VerifBS, never
    lets an insecure CID in: after any sequence of calls, whatever errors occur,
    every stored CID passes the check, copies made by Get included. *)
Theorem stack_secure {S} (B : Blockstore S) view ops s :
  BlockstoreLaws B (=) view → secure view s →
  secure view (run_ops (cidv0v1 (VerifBS B)) ops s).
Proof.
  intros HB. unfold run_ops. revert s.
  induction ops as [|op ops IH]; intros s Hs; simpl; [done|].
  apply IH. by apply stack_op_secure.
Qed.

(** *** A store in memory *)

Module MapStore.

Definition Put (c : Cid) (d : string) : M (gmap Cid string) BsError unit := mmodify (<[c := d]>).

#[global] Instance ops : Blockstore (gmap Cid string) := {|
  bs_Has := λ c s, (Ok (bool_decide (is_Some (s !! c))), s);
  bs_Get := λ c s, (match s !! c with Some d => Ok d | None => Err BsNotFound end, s);
  bs_GetSize := λ c s, (match s !! c with
                        | Some d => Ok (Z.of_nat (String.length d)) | None => Err BsNotFound end, s);
  bs_Put := Put;
  bs_PutMany := λ l, mfor l (λ b, Put b.1 b.2);
  bs_DeleteBlock := λ c, mmodify (delete c);
  bs_AllKeysChan := λ s, (Ok (map_to_list s).*1, s);
  bs_HashOnRead := λ _ s, s;
|}.

Lemma PutMany_spec l s :
  ∃ s', mfor l (λ b, Put b.1 b.2) s = (Ok (), s') ∧
    (∀ x, x ∉ l.*1 → s' !! x = s !! x) ∧ (∀ x, x ∈ l.*1 ∨ is_Some (s !! x) → is_Some (s' !! x)).
Proof.
  revert s. induction l as [|[c d] l IH]; intros s; simpl.
  { exists s. split_and!; [done..|]. intros x [?%not_elem_of_nil|?]; done. }
  destruct (IH (<[c := d]> s)) as (s' & Hs & Hf & Hi). exists s'.
  rewrite bind_unfold. simpl. split_and!; [done| |].
  - intros x [? ?]%not_elem_of_cons. rewrite Hf by done. by rewrite lookup_insert_ne.
  - intros x Hx. apply Hi. rewrite elem_of_cons in Hx.
    destruct (decide (x = c)) as [->|]; [right; by rewrite lookup_insert_eq|].
    rewrite lookup_insert_ne by done. naive_solver.
Qed.

Lemma laws : BlockstoreLaws ops (=) (λ s c, s !! c).
Proof.
  split; simpl; try (by intros * [= _ <-]).
  - intros c s b s' [= <- <-]. by rewrite bool_decide_eq_true.
  - intros c s d s'. by destruct (s !! c); intros [= <- <-].
  - intros c s s'. by destruct (s !! c); intros [= <-].
  - intros c s n s'. destruct (s !! c); intros [= <- <-]. eauto.
  - intros c s s'. by destruct (s !! c); intros [= <-].
  - intros c d s r s' [= _ <-] x Hx. by rewrite lookup_insert_ne.
  - intros c d s s' [= <-]. by rewrite lookup_insert_eq.
  - intros l s r s' Hm x Hx. destruct (PutMany_spec l s) as (s1 & H1 & Hf & _).
    rewrite H1 in Hm. injection Hm as _ <-. apply Hf.
    intros ([c d] & -> & Hin)%list_elem_of_fmap. rewrite Forall_forall in Hx. by apply (Hx _ Hin).
  - intros l s s' Hm c d Hin. destruct (PutMany_spec l s) as (s1 & H1 & _ & Hi).
    rewrite H1 in Hm. injection Hm as <-. apply Hi. left. apply list_elem_of_fmap. by exists (c, d).
  - intros c s r s' [= _ <-] x Hx. by rewrite lookup_delete_ne.
  - intros c s r s' [= _ <-] x [d Hd]. apply lookup_delete_Some in Hd as [_ Hd]. eauto.
  - intros s ks s' [= <- <-] c ([c' d] & -> & Hin)%list_elem_of_fmap. apply elem_of_map_to_list in Hin. eauto.
  - done.
Qed.

Lemma removal : RemovalLaws ops (λ s c, s !! c).
Proof.
  split; simpl.
  - intros c s s' [= <-]. apply lookup_delete_eq.
  - intros s ks s' [= <- <-] c [d Hd]. apply list_elem_of_fmap. exists (c, d). by rewrite elem_of_map_to_list.
Qed.

Definition digest : string := "01234567890123456789012345678901".
Definition v0 : Cid := CidV0 digest.
Definition v1 : Cid := CidV1 DagProtobuf (mkMultihash SHA2_256 digest).

Lemma Get_copies :
  (v0v1_Get ops v0 {[v1 := "data"]}).1 = Ok "data" ∧
  (v0v1_Get ops v0 {[v1 := "data"]}).2 !! v0 = Some "data".
Proof. by vm_compute. Qed.

End MapStore.

(** A CID that was removed can still be found, under its other version: reading
    the block by it has stored it twice. *)
Theorem removed_block_is_found :
  let s := run_ops (cidv0v1 MapStore.ops)
             [OpPut MapStore.v1 "data"; OpGet MapStore.v0; OpDeleteBlock MapStore.v1] ∅ in
  s !! MapStore.v1 = None ∧ (v0v1_Has MapStore.ops MapStore.v1 s).1 = Ok true.
Proof. split; vm_compute; reflexivity. Qed.

Lemma VerifBS_laws_witness : BlockstoreLaws (VerifBS MapStore.ops) (=) (λ s c, s !! c).
Proof. apply VerifBS_laws; [apply MapStore.laws|apply MapStore.removal]. Defined.

Lemma cidv0v1_laws_witness :
  BlockstoreLaws (cidv0v1 MapStore.ops) same_block (either_version (λ s c, s !! c)) ∧
  either_version (λ (s : gmap Cid string) c, s !! c) (delete MapStore.v1 {[MapStore.v0 := "data"]}) MapStore.v1 = Some "data".
Proof.
  destruct (cidv0v1_laws MapStore.ops _ MapStore.laws MapStore.removal) as [Hl Hd].
  split; [exact Hl|]. rewrite (Hd MapStore.v1 {[MapStore.v0 := "data"]}); [vm_compute; reflexivity|by apply (bool_decide_unpack _); vm_compute|reflexivity].
Defined.

Lemma stack_secure_witness :
  secure (λ s c, s !! c) (run_ops (cidv0v1 (VerifBS MapStore.ops))
    [OpPut MapStore.v1 "data"; OpGet MapStore.v0; OpDeleteBlock MapStore.v1; OpPut (CidV1 Raw (mkMultihash 0xd4 "md4")) "x"] ∅).
Proof.
  apply stack_secure; [apply MapStore.laws|]. intros x [d Hd]. by rewrite lookup_empty in Hd.
Defined.
