(* ===== verification/GC.v ===== *)
(** * The mark-and-sweep garbage collector (src/gc/gc.go)

    [GC] marks what the pins and the MFS root keep alive ([ColoredSet], with
    [Descendants] walking the DAG) and deletes every other block.  The pinner,
    the datastore and the cancellation of the context are the environment: each
    [select] between a send on the output channel and [ctx.Done()] reads the
    oracle [ctx_done] at the next poll number, so quantifying over the oracle
    covers every moment at which the context can be cancelled, and quantifying
    over [walk_sched] every order in which the concurrent walk visits nodes. *)

From S2P Require Import Prelude Cid Dag.
From stdpp Require Import base gmap sets list strings relations.
From Stdlib Require Import ZArith.

(** A stored block: its decoded links, or [None] when it cannot be read or decoded. *)
Record Block := mkBlock {
  blk_data : string;
  blk_links : option (list Cid);
}.

Inductive DagError :=
  | ErrNotFound
  | ErrDag (msg : string).

#[export] Instance DagError_eq_dec : EqDecision DagError.
Proof. solve_decision. Defined.

Inductive GCError :=
  | CannotFetchLinksError (key : Cid) (err : DagError)
  | CannotDeleteBlockError (key : Cid) (err : string)
  | ErrCannotFetchAllLinks
  | ErrCannotDeleteSomeBlocks
  | VerifCidError (err : VerifError)
  | VerboseCidError (err : VerifError)
  | CtxErr
  | EnvError (msg : string)
  | WalkDiverged.

(** gc.Result: the key of a removed block or an error. *)
Inductive Result :=
  | KeyRemoved (key : Cid)
  | ResultError (err : GCError).

#[export] Instance GCError_eq_dec : EqDecision GCError.
Proof. solve_decision. Defined.
#[export] Instance Result_eq_dec : EqDecision Result.
Proof. solve_decision. Defined.

(** What the collector is given: the pinner, the blockstore's key listing and
    deletion, the datastore's own collector, the context and the walk order. *)
Record GCEnv := mkGCEnv {
  RecursiveKeys : res string (list Cid);
  DirectKeys : res string (list Cid);
  InternalPins : res string (list Cid);
  AllKeysChan : res string (list Cid);
  DeleteBlock_err : Cid → option string;
  CollectGarbage : option (res string unit);
  ctx_done : nat → bool;
  walk_sched : nat → nat;
}.

(** The collector's own variables: [errors], the output channel, and the number
    of times the context has been polled. *)
Record GCAux := mkGCAux {
  gc_errors : bool;
  gc_output : list Result;
  gc_polls : nat;
}.

Definition set_errors (a : GCAux) : GCAux :=
  mkGCAux true (gc_output a) (gc_polls a).

Section gc.
Variable env : GCEnv.
Variable store : gmap Cid Block.

(** [select { case output <- r: case <-ctx.Done(): return ctx.Err() }] *)
Definition send (r : Result) : M GCAux GCError unit := λ a,
  let a' := mkGCAux (gc_errors a) (gc_output a) (S (gc_polls a)) in
  if ctx_done env (gc_polls a) then (Err CtxErr, a')
  else (Ok (), mkGCAux (gc_errors a) (gc_output a ++ [r]) (S (gc_polls a))).

(** [ctx.Err()]: poll the context. *)
Definition poll : M GCAux GCError unit := λ a,
  let a' := mkGCAux (gc_errors a) (gc_output a) (S (gc_polls a)) in
  if ctx_done env (gc_polls a) then (Err CtxErr, a') else (Ok (), a').

(** ipld.GetLinks on a DAG service over the offline exchange: raw blocks have no
    links and are not even looked up. *)
Definition ipld_GetLinks (c : Cid) : res DagError (list Cid) :=
  if decide (cid_Type c = Raw) then Ok []
  else match store !! c with
       | None => Err ErrNotFound
       | Some b => match blk_links b with
                   | Some l => Ok l
                   | None => Err (ErrDag "cannot decode block")
                   end
       end.

(** The links the walk follows out of [c]: none when they cannot be fetched. *)
Definition children (c : Cid) : list Cid :=
  match ipld_GetLinks c with Ok l => l | Err _ => [] end.

(** The closure [getLinks] of ColoredSet. *)
Definition getLinks (c : Cid) : M GCAux GCError (list Cid) := λ a,
  match ipld_GetLinks c with
  | Ok links => (Ok links, a)
  | Err e =>
      match send (ResultError (CannotFetchLinksError c e)) (set_errors a) with
      | (Ok _, a') => (Ok [], a')
      | (Err e', a') => (Err e', a')
      end
  end.

(** The closure [bestEffortGetLinks]: a block that is not stored is no error. *)
Definition bestEffortGetLinks (c : Cid) : M GCAux GCError (list Cid) := λ a,
  match ipld_GetLinks c with
  | Ok links => (Ok links, a)
  | Err ErrNotFound => (Ok [], a)
  | Err e =>
      match send (ResultError (CannotFetchLinksError c e)) (set_errors a) with
      | (Ok _, a') => (Ok [], a')
      | (Err e', a') => (Err e', a')
      end
  end.

(** The closure [verifyGetLinks] of Descendants, polled by the walk's fetcher. *)
Definition verifyGetLinks (gl : Cid → M GCAux GCError (list Cid)) (c : Cid)
    : M GCAux GCError (list Cid) := λ a,
  match poll a with
  | (Err e, a') => (Err e, a')
  | (Ok _, a') =>
      match ValidateCid c with
      | Err e => (Err (VerifCidError e), a')
      | Ok _ => gl c a'
      end
  end.

(** The closure [verboseCidError]: rephrase the two verifcid errors. *)
Definition verboseCidError (e : GCError) : GCError :=
  match e with VerifCidError v => VerboseCidError v | _ => e end.

Definition walk_error (e : walk_err GCError) : GCError :=
  match e with WErr e => e | OutOfFuel => WalkDiverged end.

(** dag.Walk(ctx, verifyGetLinks, c, set.Visit, dag.Concurrent()) *)
Definition Walk (gl : Cid → M GCAux GCError (list Cid)) (c : Cid)
    : M (gset Cid * GCAux) GCError unit := λ s,
  match walk_loop (verifyGetLinks gl) (walk_sched env)
          (walk_fuel children (dom store) [c]) [c] s with
  | (Ok u, s') => (Ok u, s')
  | (Err e, s') => (Err (walk_error e), s')
  end.

(** gc.Descendants *)
Definition Descendants (gl : Cid → M GCAux GCError (list Cid)) (roots : list Cid)
    : M (gset Cid * GCAux) GCError unit :=
  mfor roots (λ c, mcatch (Walk gl c) (λ e, mthrow (verboseCidError e))).

(** [err = Descendants(...); if err != nil { errors = true; select ... }] *)
Definition tryDescendants (gl : Cid → M GCAux GCError (list Cid)) (roots : list Cid)
    : M (gset Cid * GCAux) GCError unit :=
  mcatch (Descendants gl roots) (λ e '(m, a),
    let '(r, a') := send (ResultError e) (set_errors a) in (r, (m, a'))).

Definition fromEnv {S A} (r : res string A) : M S GCError A :=
  mlift (match r with Ok x => Ok x | Err e => Err (EnvError e) end).

(** gc.ColoredSet: the marked set is the state's first component. *)
Definition ColoredSet (bestEffortRoots : list Cid) : M (gset Cid * GCAux) GCError unit :=
  rkeys ← fromEnv (RecursiveKeys env);
  _ ← tryDescendants getLinks rkeys;
  _ ← tryDescendants bestEffortGetLinks bestEffortRoots;
  dkeys ← fromEnv (DirectKeys env);
  _ ← mmodify (λ '(m, a), (m ∪ list_to_set dkeys, a));
  ikeys ← fromEnv (InternalPins env);
  _ ← tryDescendants getLinks ikeys;
  s ← mget;
  if gc_errors s.2 then mthrow ErrCannotFetchAllLinks else mret ().

End gc.

(** *** The sweep *)

Definition sendTo (env : GCEnv) (r : Result) : M (gmap Cid Block * GCAux) GCError unit :=
  λ '(bs, a), let '(o, a') := send env r a in (o, (bs, a')).

(** The loop over the blockstore's keys.  Leaving it early (the context is
    done) returns [errors] as it is, like [break loop]. *)
Fixpoint sweep (env : GCEnv) (gcs : gset Cid) (keys : list Cid) (errors : bool)
    : M (gmap Cid Block * GCAux) GCError bool := λ '(bs, a),
  match poll env a with
  | (Err _, a1) => (Ok errors, (bs, a1))
  | (Ok _, a1) =>
      match keys with
      | [] => (Ok errors, (bs, a1))
      | k :: keys' =>
          if decide (k ∈ gcs) then sweep env gcs keys' errors (bs, a1)
          else match DeleteBlock_err env k with
               | Some err =>
                   match send env (ResultError (CannotDeleteBlockError k err)) a1 with
                   | (Ok _, a2) => sweep env gcs keys' true (bs, a2)
                   | (Err _, a2) => (Ok true, (bs, a2))
                   end
               | None =>
                   match send env (KeyRemoved k) a1 with
                   | (Ok _, a2) => sweep env gcs keys' errors (delete k bs, a2)
                   | (Err _, a2) => (Ok errors, (delete k bs, a2))
                   end
               end
      end
  end.

(** The body of GC's goroutine; the lock it holds throughout keeps the store
    unchanged by anyone else.  [ColoredSet] starts from an empty set and from
    [errors = false]. *)
Definition GC_body (env : GCEnv) (bestEffortRoots : list Cid)
    : M (gmap Cid Block * GCAux) GCError unit := λ '(bs, a),
  match ColoredSet env bs bestEffortRoots (∅, a) with
  | (Err e, (_, a1)) => sendTo env (ResultError e) (bs, a1)
  | (Ok _, (gcs, a1)) =>
      match AllKeysChan env with
      | Err e => sendTo env (ResultError (EnvError e)) (bs, a1)
      | Ok keys =>
          match sweep env gcs keys false (bs, a1) with
          | (Err e, s2) => (Err e, s2)
          | (Ok errors, s2) =>
              match (if errors then sendTo env (ResultError ErrCannotDeleteSomeBlocks) s2
                     else (Ok (), s2)) with
              | (Err e, s3) => (Err e, s3)
              | (Ok _, s3) =>
                  match CollectGarbage env with
                  | None | Some (Ok _) => (Ok (), s3)
                  | Some (Err e) => sendTo env (ResultError (EnvError e)) s3
                  end
              end
          end
      end
  end.

(** gc.GC: the store after the run and what was sent on the output channel
    before it was closed. *)
Definition GC (env : GCEnv) (bs : gmap Cid Block) (bestEffortRoots : list Cid)
    : gmap Cid Block * list Result :=
  let '(_, (bs', a)) := GC_body env bestEffortRoots (bs, mkGCAux false [] 0) in
  (bs', gc_output a).

(** ** The mark phase *)

Section mark.
Variable env : GCEnv.
Variable store : gmap Cid Block.

Abbreviation children := (GC.children store).

(** The links of [c] could be fetched; for best-effort roots, [c] may be absent. *)
Definition fetched (c : Cid) : Prop := ∃ l, ipld_GetLinks store c = Ok l.
Definition fetched_or_absent (c : Cid) : Prop :=
  fetched c ∨ ipld_GetLinks store c = Err ErrNotFound.

(** A link-fetching closure of ColoredSet: it returns the children, and it
    raises [errors] unless the node satisfies [Q]. *)
Record link_fetcher (gl : Cid → M GCAux GCError (list Cid)) (Q : Cid → Prop) : Prop := {
  lf_children : ∀ c a l a', gl c a = (Ok l, a') → l = children c;
  lf_good : ∀ c a l a', gl c a = (Ok l, a') → Q c ∨ gc_errors a' = true;
  lf_mono : ∀ c a r a', gl c a = (r, a') → gc_errors a = true → gc_errors a' = true;
  lf_err : ∀ c a e a', gl c a = (Err e, a') → e = CtxErr;
}.

Lemma send_spec r a o a' :
  send env r a = (o, a') →
  gc_errors a' = gc_errors a ∧
  (o = Err CtxErr ∧ gc_output a' = gc_output a ∧ ctx_done env (gc_polls a) = true
   ∨ o = Ok () ∧ gc_output a' = gc_output a ++ [r] ∧ ctx_done env (gc_polls a) = false).
Proof. unfold send. case_match; intros [= <- <-]; simpl; auto 10. Qed.

Lemma poll_spec a o a' :
  poll env a = (o, a') →
  gc_errors a' = gc_errors a ∧ gc_output a' = gc_output a ∧
  (o = Err CtxErr ∧ ctx_done env (gc_polls a) = true
   ∨ o = Ok () ∧ ctx_done env (gc_polls a) = false).
Proof. unfold poll. case_match; intros [= <- <-]; simpl; auto 10. Qed.

Lemma getLinks_cases c a r a' :
  getLinks env store c a = (r, a') →
  (∃ l, ipld_GetLinks store c = Ok l ∧ r = Ok l ∧ a' = a) ∨
  (∃ e, ipld_GetLinks store c = Err e ∧ gc_errors a' = true ∧
        (r = Ok [] ∨ r = Err CtxErr)).
Proof.
  unfold getLinks. destruct (ipld_GetLinks store c) as [l|e]; [naive_solver|].
  destruct (send _ _ _) as [o a1] eqn:Hs. apply send_spec in Hs as [He Hs].
  intros Hr. right. exists e. destruct Hs as [(-> & _)|(-> & _)]; simplify_eq; auto.
Qed.

Lemma bestEffortGetLinks_cases c a r a' :
  bestEffortGetLinks env store c a = (r, a') →
  (∃ l, ipld_GetLinks store c = Ok l ∧ r = Ok l ∧ a' = a) ∨
  (ipld_GetLinks store c = Err ErrNotFound ∧ r = Ok [] ∧ a' = a) ∨
  (∃ e, ipld_GetLinks store c = Err e ∧ gc_errors a' = true ∧
        (r = Ok [] ∨ r = Err CtxErr)).
Proof.
  unfold bestEffortGetLinks.
  destruct (ipld_GetLinks store c) as [l|[]]; [naive_solver..|].
  destruct (send _ _ _) as [o a1] eqn:Hs. apply send_spec in Hs as [He Hs].
  intros Hr. right; right. eexists.
  destruct Hs as [(-> & _)|(-> & _)]; simplify_eq; auto.
Qed.

Lemma getLinks_fetcher : link_fetcher (getLinks env store) fetched.
Proof.
  unfold fetched.
  split; intros c a r a' [(l & Hl & ? & ?)|(e & Hl & ? & [?|?])]%getLinks_cases;
    simplify_eq; unfold GC.children; rewrite ?Hl; eauto.
Qed.

Lemma bestEffortGetLinks_fetcher :
  link_fetcher (bestEffortGetLinks env store) fetched_or_absent.
Proof.
  unfold fetched_or_absent, fetched.
  split; intros c a r a'
    [(l & Hl & ? & ?)|[(Hl & ? & ?)|(e & Hl & ? & [?|?])]]%bestEffortGetLinks_cases;
    simplify_eq; unfold GC.children; rewrite ?Hl; eauto.
Qed.

Lemma children_outside c : c ∉ dom store → children c = [].
Proof.
  intros Hc%not_elem_of_dom. unfold GC.children, ipld_GetLinks.
  case_decide; [done|]. by rewrite Hc.
Qed.

Section fetcher.
Context (gl : Cid → M GCAux GCError (list Cid)) (Q : Cid → Prop).
Hypothesis Hgl : link_fetcher gl Q.

Definition mgood (c : Cid) (a : GCAux) : Prop := Q c ∨ gc_errors a = true.

Lemma verify_children c a l a' :
  verifyGetLinks env gl c a = (Ok l, a') → l = children c.
Proof.
  unfold verifyGetLinks. destruct (poll env a) as [[] a1]; [|done].
  destruct (ValidateCid c); [|done]. apply Hgl.
Qed.

Lemma verify_good c a l a' : verifyGetLinks env gl c a = (Ok l, a') → mgood c a'.
Proof.
  unfold verifyGetLinks. destruct (poll env a) as [[] a1]; [|done].
  destruct (ValidateCid c); [|done]. apply Hgl.
Qed.

Lemma verify_mono c a r a' :
  verifyGetLinks env gl c a = (r, a') → gc_errors a = true → gc_errors a' = true.
Proof.
  unfold verifyGetLinks. destruct (poll env a) as [o a1] eqn:Hp.
  apply poll_spec in Hp as (He & _ & _).
  destruct o; [|intros; simplify_eq; congruence].
  destruct (ValidateCid c); [|intros; simplify_eq; congruence].
  intros Hv Ha. eapply Hgl; [exact Hv|congruence].
Qed.

Lemma verify_err c a e a' :
  verifyGetLinks env gl c a = (Err e, a') → e = CtxErr ∨ ∃ v, e = VerifCidError v.
Proof.
  unfold verifyGetLinks. destruct (poll env a) as [o a1] eqn:Hp.
  apply poll_spec in Hp as (_ & _ & Hp).
  destruct o; [|naive_solver]. destruct (ValidateCid c); [|naive_solver].
  intros ?%(lf_err _ _ Hgl). by left.
Qed.

Lemma Walk_post c m0 a m1 a1 :
  Walk env store gl c (m0, a) = (Ok (), (m1, a1)) →
  walk_post children mgood m0 [c] m1 a1.
Proof.
  unfold Walk. destruct (walk_loop _ _ _ _ _) as [[[]|e] s] eqn:Hw; [|done].
  intros [= ->]. eapply walk_loop_post; [..|exact Hw].
  - apply verify_children.
  - apply verify_good.
  - intros x y b r b' [|] Hv; [by left|right; by eapply verify_mono].
Qed.

Lemma walk_loop_errs sched fuel todo m a r m' a' :
  walk_loop (verifyGetLinks env gl) sched fuel todo (m, a) = (r, (m', a')) →
  gc_errors a = true → gc_errors a' = true.
Proof.
  revert todo m a. induction fuel as [|fuel IH]; intros todo m a; simpl;
    destruct (take_at _ todo) as [[c rest]|]; try (intros [= _ _ <-]; done).
  unfold set_Visit. case_decide; [apply IH|].
  destruct (verifyGetLinks env gl c a) as [[l|e] a1] eqn:Hv.
  - intros Hw Ha. eapply IH; [exact Hw|]. by eapply verify_mono.
  - intros [= _ _ <-] Ha. by eapply verify_mono.
Qed.

Lemma Walk_errs c s r s' :
  Walk env store gl c s = (r, s') → gc_errors s.2 = true → gc_errors s'.2 = true.
Proof.
  unfold Walk. destruct s as [m a], s' as [m' a'].
  destruct (walk_loop _ _ _ _ _) as [[]s1] eqn:Hw; intros [= _ ->];
    by eapply walk_loop_errs.
Qed.

Lemma walk_loop_werr sched fuel todo m a e s' :
  walk_loop (verifyGetLinks env gl) sched fuel todo (m, a) = (Err (WErr e), s') →
  e = CtxErr ∨ ∃ v, e = VerifCidError v.
Proof.
  revert todo m a. induction fuel as [|fuel IH]; intros todo m a; simpl;
    destruct (take_at _ todo) as [[x rest]|]; try done.
  unfold set_Visit. case_decide; [apply IH|].
  destruct (verifyGetLinks env gl x a) as [[l|e2] a1] eqn:Hv; [apply IH|].
  intros [= <- _]. by eapply verify_err.
Qed.

Lemma Walk_err c s e s' :
  Walk env store gl c s = (Err e, s') → e = CtxErr ∨ ∃ v, e = VerifCidError v.
Proof.
  unfold Walk. destruct s as [m a].
  destruct (walk_loop _ _ _ _ _) as [[[]|[e'|]] s1] eqn:Hw; [done|..];
    intros [= <- ->]; simpl; [by eapply walk_loop_werr|].
  destruct (walk_fuel_enough children (verifyGetLinks env gl) verify_children
    (dom store) children_outside (walk_sched env) [c] m a). by rewrite Hw.
Qed.

Lemma Descendants_errs roots s r s' :
  Descendants env store gl roots s = (r, s') → gc_errors s.2 = true → gc_errors s'.2 = true.
Proof.
  intros Hd Hs.
  refine (mfor_inv (λ s : gset Cid * GCAux, gc_errors s.2 = true) _ _ _ _ _ _ Hs Hd).
  intros c s1 r1 s1' _ Hs1. unfold mcatch.
  destruct (Walk env store gl c s1) as [[]s2] eqn:Hw; intros [= _ <-]; by eapply Walk_errs.
Qed.

Lemma Descendants_err roots s e s' :
  Descendants env store gl roots s = (Err e, s') → e = CtxErr ∨ ∃ v, e = VerboseCidError v.
Proof.
  unfold Descendants. revert s. induction roots as [|c roots IH]; intros s; simpl; [done|].
  rewrite bind_unfold. unfold mcatch at 1.
  destruct (Walk env store gl c s) as [[[]|e'] s1] eqn:Hw; [apply IH|].
  intros [= <- _]. apply Walk_err in Hw as [->|[v ->]]; simpl; eauto.
Qed.

(** Walking several roots marks what walking them together would. *)
Lemma Descendants_post roots m0 a m1 a1 :
  Descendants env store gl roots (m0, a) = (Ok (), (m1, a1)) →
  walk_post children mgood m0 roots m1 a1.
Proof.
  revert m0 a. unfold Descendants. induction roots as [|c roots IH]; intros m0 a; simpl.
  - intros [= <- <-]. split; set_solver.
  - rewrite bind_unfold. unfold mcatch at 1.
    destruct (Walk env store gl c (m0, a)) as [[[]|e] [m a']] eqn:Hw; [|done].
    intros Hd. pose proof (Descendants_errs _ _ _ _ Hd) as Hmono. simpl in Hmono.
    apply Walk_post in Hw as [? Hr1 Hc1 Hs1 Hg1]. apply IH in Hd as [? Hr2 Hc2 Hs2 Hg2].
    assert (∀ x, x ∈ m1 → x ∉ m0 → x ∈ m ∨ x ∉ m) as Hdec
      by (intros; destruct (decide (x ∈ m)); auto).
    split.
    + set_solver.
    + intros r [->|]%elem_of_cons; [|by auto].
      apply wp_mono0. apply Hr1. set_solver.
    + intros x d Hx Hx0 Hd. destruct (decide (x ∈ m)); eauto.
    + intros x Hx Hx0. destruct (decide (x ∈ m)) as [Hm|Hm].
      * destruct (Hs1 x Hm Hx0) as (r & Hr & ?). exists r. split; [|done]. set_solver.
      * destruct (Hs2 x Hx Hm) as (r & Hr & ?). exists r. split; [|done]. by right.
    + intros x Hx Hx0. destruct (decide (x ∈ m)) as [Hm|Hm]; [|by auto].
      destruct (Hg1 x Hm Hx0); [by left|right; by apply Hmono].
Qed.

Lemma tryDescendants_post roots m0 a m1 a1 :
  tryDescendants env store gl roots (m0, a) = (Ok (), (m1, a1)) →
  gc_errors a1 = false →
  walk_post children mgood m0 roots m1 a1.
Proof.
  unfold tryDescendants, mcatch.
  destruct (Descendants env store gl roots (m0, a)) as [[[]|e] [m a']] eqn:Hd.
  - intros [= <- <-] _. by eapply Descendants_post.
  - destruct (send _ _ _) as [o a2] eqn:Hs. apply send_spec in Hs as [He _].
    intros [= _ <- <-]. by rewrite He.
Qed.

Lemma tryDescendants_errs roots s r s' :
  tryDescendants env store gl roots s = (r, s') → gc_errors s.2 = true → gc_errors s'.2 = true.
Proof.
  unfold tryDescendants, mcatch.
  destruct (Descendants env store gl roots s) as [[[]|e] [m a']] eqn:Hd.
  - intros [= _ <-]. by eapply Descendants_errs.
  - destruct (send _ _ _) as [o a2] eqn:Hs. apply send_spec in Hs as [He _].
    intros [= _ <-] _. simpl. by rewrite He.
Qed.

End fetcher.
End mark.

(** What the marked set is when ColoredSet returns one. *)
Section colored.
Variable env : GCEnv.
Variable store : gmap Cid Block.

Abbreviation reach := (Dag.reach (children store)).
Abbreviation edge := (Dag.edge (children store)).

(** Reachable through nodes outside [D]. *)
Definition reach_avoiding (D : list Cid) : Cid → Cid → Prop :=
  rtc (λ x y, edge x y ∧ x ∉ D).

Record marked_set (rkeys broots dkeys ikeys : list Cid) (gcs : gset Cid) : Prop := {
  ms_recursive : ∀ r c, r ∈ rkeys → reach r c → c ∈ gcs ∧ fetched store c;
  ms_best : ∀ r c, r ∈ broots → reach r c → c ∈ gcs ∧ fetched_or_absent store c;
  ms_direct : ∀ c, c ∈ dkeys → c ∈ gcs;
  ms_internal : ∀ i c, i ∈ ikeys → reach_avoiding dkeys i c → c ∈ gcs;
  ms_sound : ∀ c, c ∈ gcs →
    c ∈ dkeys ∨ ∃ r, r ∈ rkeys ++ broots ++ ikeys ∧ reach r c;
}.

Lemma tryDescendants_errors gl Q roots m a u m' a' :
  link_fetcher store gl Q →
  tryDescendants env store gl roots (m, a) = (u, (m', a')) →
  gc_errors a' = false → gc_errors a = false.
Proof.
  intros Hl Ht Ha'. destruct (gc_errors a) eqn:Ha; [|done].
  pose proof (tryDescendants_errs env store gl Q Hl _ _ _ _ Ht Ha) as Hx.
  simpl in Hx. congruence.
Qed.

Lemma ColoredSet_inv broots a u gcs a' :
  ColoredSet env store broots (∅, a) = (Ok u, (gcs, a')) →
  ∃ rkeys dkeys ikeys m1 a1 m2 a2,
    RecursiveKeys env = Ok rkeys ∧ DirectKeys env = Ok dkeys ∧ InternalPins env = Ok ikeys ∧
    tryDescendants env store (getLinks env store) rkeys (∅, a) = (Ok (), (m1, a1)) ∧
    tryDescendants env store (bestEffortGetLinks env store) broots (m1, a1)
      = (Ok (), (m2, a2)) ∧
    tryDescendants env store (getLinks env store) ikeys (m2 ∪ list_to_set dkeys, a2)
      = (Ok (), (gcs, a')) ∧
    gc_errors a' = false.
Proof.
  unfold ColoredSet. intros HC. go_inv.
  unfold fromEnv, mlift in *. repeat case_match; simplify_eq.
  all: repeat match goal with x : unit |- _ => destruct x end.
  all: repeat match goal with x : (gset Cid * GCAux)%type |- _ => destruct x end.
  all: simplify_eq/=. go_inv. simplify_eq. do 7 eexists. eauto 10.
Qed.

Lemma ColoredSet_marked broots a u gcs a' :
  ColoredSet env store broots (∅, a) = (Ok u, (gcs, a')) →
  ∃ rkeys dkeys ikeys,
    RecursiveKeys env = Ok rkeys ∧ DirectKeys env = Ok dkeys ∧ InternalPins env = Ok ikeys ∧
    marked_set rkeys broots dkeys ikeys gcs.
Proof.
  intros (rkeys & dkeys & ikeys & m1 & a1 & m2 & a2 & HR & HD & HI & H1 & H2 & H3 & He)
    %ColoredSet_inv.
  exists rkeys, dkeys, ikeys. split_and!; [done..|].
  pose proof (getLinks_fetcher env store) as Hg.
  pose proof (bestEffortGetLinks_fetcher env store) as Hb.
  pose proof (tryDescendants_errors _ _ _ _ _ _ _ _ Hg H3 He) as He2.
  pose proof (tryDescendants_errors _ _ _ _ _ _ _ _ Hb H2 He2) as He1.
  apply (tryDescendants_post env store _ _ Hg) in H1 as [_ Hr1 Hc1 Hs1 Hg1]; [|done].
  apply (tryDescendants_post env store _ _ Hb) in H2 as [Hm2 Hr2 Hc2 Hs2 Hg2]; [|done].
  apply (tryDescendants_post env store _ _ Hg) in H3 as [Hm3 Hr3 Hc3 Hs3 Hg3]; [|done].
  assert (dag_closed (children store) m1) as Hcl1 by (intros c d ? ?; eapply Hc1; eauto; set_solver).
  assert (dag_closed (children store) m2) as Hcl2
    by (intros c d ? ?; destruct (decide (c ∈ m1)); eauto).
  assert (∀ c, c ∈ m1 → fetched store c) as Hf1
    by (intros c Hc; destruct (Hg1 c Hc); [set_solver|done|congruence]).
  assert (∀ c, c ∈ m2 → fetched_or_absent store c) as Hf2.
  { intros c Hc. destruct (decide (c ∈ m1)); [left; by apply Hf1|].
    destruct (Hg2 c Hc); [done..|congruence]. }
  split.
  - intros r c Hr Hrc. assert (c ∈ m1) by (eapply closed_reach; eauto).
    split; [set_solver|by apply Hf1].
  - intros r c Hr Hrc. assert (c ∈ m2) by (eapply closed_reach; eauto).
    split; [set_solver|by apply Hf2].
  - intros c Hc. apply Hm3. set_solver.
  - intros i c Hi Hic. apply Hr3 in Hi. induction Hic as [|x y z [Hxy Hx] _ IH]; [done|].
    apply IH. destruct (decide (x ∈ m2)); [apply Hm3; set_solver|].
    eapply Hc3; [exact Hi|set_solver|exact Hxy].
  - intros c Hc. setoid_rewrite elem_of_app. setoid_rewrite elem_of_app.
    destruct (decide (c ∈ m2)) as [Hc2'|Hc2'].
    + right. destruct (decide (c ∈ m1)) as [Hc1'|Hc1'].
      * destruct (Hs1 c Hc1') as (r & ? & ?); [set_solver|]. eauto.
      * destruct (Hs2 c Hc2' Hc1') as (r & ? & ?). eauto 6.
    + destruct (decide (c ∈ dkeys)); [by left|right].
      destruct (Hs3 c Hc) as (r & ? & ?); [set_solver|]. eauto 6.
Qed.

End colored.

(** ** The sweep phase *)

Lemma sweep_keeps env gcs keys errs bs a r bs' a' :
  sweep env gcs keys errs (bs, a) = (r, (bs', a')) →
  bs' ⊆ bs ∧ ∀ k, k ∈ gcs → bs' !! k = bs !! k.
Proof.
  revert errs bs a. induction keys as [|k keys IH]; intros errs bs a; simpl;
    destruct (poll env a) as [[[]|e] a1]; try (by intros [= _ <- _]).
  case_decide as Hk; [apply IH|].
  destruct (DeleteBlock_err env k); destruct (send env _ a1) as [[[]|e'] a2];
    try (by intros [= _ <- _]); try apply IH.
  - intros [Hs Hl]%IH. split; [etrans; [exact Hs|apply delete_subseteq]|].
    intros x Hx. rewrite Hl by done. rewrite lookup_delete_ne; congruence.
  - intros [= _ <- _]. split; [apply delete_subseteq|].
    intros x Hx. rewrite lookup_delete_ne; congruence.
Qed.

(** What the body of the collector's goroutine can have done to the store. *)
Lemma GC_body_store env roots bs a r bs' a' :
  GC_body env roots (bs, a) = (r, (bs', a')) →
  bs' = bs ∨
  ∃ gcs a1, ColoredSet env bs roots (∅, a) = (Ok (), (gcs, a1)) ∧
    bs' ⊆ bs ∧ ∀ k, k ∈ gcs → bs' !! k = bs !! k.
Proof.
  unfold GC_body, sendTo. destruct (ColoredSet _ _ _ _) as [[[]|e] [gcs a1]] eqn:HC.
  2: { destruct (send _ _ _). intros [= _ <- _]. by left. }
  destruct (AllKeysChan env) as [keys|]; [|destruct (send _ _ _); intros [= _ <- _]; by left].
  destruct (sweep _ _ _ _ _) as [[errs|e] [bs2 a2]] eqn:Hs; apply sweep_keeps in Hs as [Hs1 Hs2].
  2: { intros [= _ <- _]. right. eauto 10. }
  intros Hr. right. exists gcs, a1. split; [done|].
  assert (bs' = bs2) as ->; [|done].
  destruct errs; [destruct (send _ _ _) as [[]]|];
    destruct (CollectGarbage env) as [[|]|]; try destruct (send _ _ _); by simplify_eq/=.
Qed.

Lemma GC_store env bs roots :
  (GC env bs roots).1 = bs ∨
  ∃ gcs a1, ColoredSet env bs roots (∅, mkGCAux false [] 0) = (Ok (), (gcs, a1)) ∧
    (GC env bs roots).1 ⊆ bs ∧ ∀ k, k ∈ gcs → (GC env bs roots).1 !! k = bs !! k.
Proof.
  unfold GC. destruct (GC_body _ _ _) as [r [bs' a']] eqn:HG.
  by apply GC_body_store in HG.
Qed.

(** *** Claims *)

(** [c] must survive a collection of [bs]: it is reachable from a recursive pin
    or from a best-effort root, is pinned directly, or is reachable from an
    internal pin without passing through a direct pin. *)
Definition live (env : GCEnv) (bs : gmap Cid Block) (roots : list Cid) (c : Cid) : Prop :=
  (∃ rkeys r, RecursiveKeys env = Ok rkeys ∧ r ∈ rkeys ∧ Dag.reach (children bs) r c) ∨
  (∃ r, r ∈ roots ∧ Dag.reach (children bs) r c) ∨
  (∃ dkeys, DirectKeys env = Ok dkeys ∧ c ∈ dkeys) ∨
  (∃ dkeys ikeys i, DirectKeys env = Ok dkeys ∧ InternalPins env = Ok ikeys ∧ i ∈ ikeys ∧
     reach_avoiding bs dkeys i c).

Lemma marked_live env bs roots a gcs a1 c :
  ColoredSet env bs roots (∅, a) = (Ok (), (gcs, a1)) → live env bs roots c → c ∈ gcs.
Proof.
  intros (rkeys & dkeys & ikeys & HR & HD & HI & [Hr Hb Hd Hi _])%ColoredSet_marked.
  unfold live. rewrite HR, HD, HI.
  intros [(? & r & ? & ? & ?)|[(r & ? & ?)|[(? & ? & ?)|(? & ? & i & ? & ? & ? & ?)]]];
    simplify_eq; [by edestruct (Hr r c)|by edestruct (Hb r c)|by apply Hd|by apply (Hi i)].
Qed.

Lemma GC_keeps env bs roots :
  (GC env bs roots).1 ⊆ bs ∧
  ∀ c, live env bs roots c → (GC env bs roots).1 !! c = bs !! c.
Proof.
  destruct (GC_store env bs roots) as [->|(gcs & a1 & HC & Hs & Hk)]; [done|].
  split; [done|]. intros c Hl. apply Hk. by eapply marked_live.
Qed.

(** A path all of whose nodes are stored unchanged is still a path. *)
Lemma rtc_kept bs bs' (B : Cid → Prop) r c :
  (∀ x, rtc (λ x y, Dag.edge (children bs) x y ∧ B x) r x → bs' !! x = bs !! x) →
  rtc (λ x y, Dag.edge (children bs) x y ∧ B x) r c →
  rtc (λ x y, Dag.edge (children bs') x y ∧ B x) r c.
Proof.
  intros Hk. revert c. apply rtc_ind_r; [done|]. intros x y Hrx [Hxy Hx] IH.
  eapply rtc_r; [exact IH|]. split; [|done]. revert Hxy.
  unfold Dag.edge, children, ipld_GetLinks. by rewrite (Hk x Hrx).
Qed.

Lemma reach_True bs r c :
  Dag.reach (children bs) r c ↔ rtc (λ x y, Dag.edge (children bs) x y ∧ True) r c.
Proof. split; apply rtc_subrel; naive_solver. Qed.

(** More stored blocks and more best-effort roots keep more alive. *)
Lemma edge_mono bs bs' x y :
  bs ⊆ bs' → Dag.edge (children bs) x y → Dag.edge (children bs') x y.
Proof.
  intros Hs. unfold Dag.edge, children, ipld_GetLinks. case_decide; [done|].
  destruct (bs !! x) as [b|] eqn:Hb; [|by intros ?%not_elem_of_nil].
  by rewrite (lookup_weaken _ _ _ _ Hb Hs).
Qed.

Lemma live_mono env env' bs bs' roots roots' c :
  RecursiveKeys env' = RecursiveKeys env → DirectKeys env' = DirectKeys env →
  InternalPins env' = InternalPins env → bs ⊆ bs' → roots ⊆ roots' →
  live env bs roots c → live env' bs' roots' c.
Proof.
  intros HR HD HI Hbs Hro. unfold live. rewrite HR, HD, HI.
  assert (∀ r c, Dag.reach (children bs) r c → Dag.reach (children bs') r c) as Hm.
  { intros r d. apply rtc_subrel. intros x y. by apply edge_mono. }
  intros [(ks & r & ? & ? & Hr)|[(r & ? & Hr)|[?|(ds & ks & i & ? & ? & ? & Hr)]]].
  - left. eauto 10.
  - right; left. eauto.
  - by right; right; left.
  - right; right; right. exists ds, ks, i. split_and!; [done..|].
    eapply rtc_subrel; [|exact Hr]. intros x y [? ?]. split; [by eapply edge_mono|done].
Qed.

(** What is live before a collection is live after it. *)
Lemma live_preserved env env' bs roots roots' c :
  RecursiveKeys env' = RecursiveKeys env → DirectKeys env' = DirectKeys env →
  InternalPins env' = InternalPins env → roots' ⊆ roots →
  live env bs roots' c → live env' (GC env bs roots).1 roots' c.
Proof.
  intros HR HD HI Hro. destruct (GC_keeps env bs roots) as [_ Hk]. unfold live at 2.
  rewrite HR, HD, HI.
  intros [(ks & r & ? & ? & Hr)|[(r & ? & Hr)|[?|(ds & ks & i & ? & ? & ? & Hr)]]].
  - left. exists ks, r. split_and!; [done..|]. apply reach_True. apply reach_True in Hr.
    apply (rtc_kept bs); [|done]. intros x Hx%reach_True. apply Hk. left. eauto.
  - right; left. exists r. split_and!; [done..|]. apply reach_True. apply reach_True in Hr.
    apply (rtc_kept bs); [|done]. intros x Hx%reach_True. apply Hk. right; left. eauto.
  - by right; right; left.
  - right; right; right. exists ds, ks, i. split_and!; [done..|].
    apply (rtc_kept bs); [|done]. intros x Hx. apply Hk. right; right; right. by exists ds, ks, i.
Qed.

(** C1.  Whatever the order of the walk and whenever the context is cancelled, a
    collection never adds a block, and never removes or alters a block that is
    reachable from a recursive pin or from the MFS root, that is pinned directly,
    or that an internal pin reaches without passing through a direct pin. *)
Theorem gc_keeps_live env bs roots :
  (GC env bs roots).1 ⊆ bs ∧
  ∀ c, live env bs roots c → (GC env bs roots).1 !! c = bs !! c.
Proof. apply GC_keeps. Qed.

(** C10.  If the links of some block below a recursive pin cannot be fetched, the
    collection aborts without deleting anything. *)
Theorem gc_aborts_on_missing_links env bs roots rkeys r c e :
  RecursiveKeys env = Ok rkeys → r ∈ rkeys → Dag.reach (children bs) r c →
  ipld_GetLinks bs c = Err e →
  (GC env bs roots).1 = bs.
Proof.
  intros HR Hr Hrc He. destruct (GC_store env bs roots) as [->|(gcs & a1 & HC & _)]; [done|].
  apply ColoredSet_marked in HC as (rk & dk & ik & HR' & _ & _ & Hm).
  simplify_eq. destruct (ms_recursive _ _ _ _ _ _ Hm r c) as [_ [l Hl]]; try done; congruence.
Qed.

(** ** Termination and completeness *)

(** An invariant of the collector's variables that its sends and polls keep is
    kept by every phase; [ok] says which results may be sent. *)
Section aux_inv.
Variable env : GCEnv.
Variable I : GCAux → Prop.
Variable ok : Result → Prop.
Hypothesis I_send : ∀ r a o a', ok r → I a → send env r a = (o, a') → I a'.
Hypothesis I_poll : ∀ a o a', I a → poll env a = (o, a') → I a'.
Hypothesis I_errors : ∀ a, I a → I (set_errors a).
Hypothesis ok_links : ∀ c e, ok (ResultError (CannotFetchLinksError c e)).
Hypothesis ok_removed : ∀ c, ok (KeyRemoved c).
Hypothesis ok_err : ∀ e, e ≠ WalkDiverged → ok (ResultError e).

Lemma getLinks_keep store c a r a' : getLinks env store c a = (r, a') → I a → I a'.
Proof.
  unfold getLinks. destruct (ipld_GetLinks store c); [by intros [= _ <-]|].
  destruct (send _ _ _) as [[] a1] eqn:Hs; intros [= _ <-] Ha; (eapply I_send; [..|exact Hs]); eauto.
Qed.

Lemma bestEffort_keep store c a r a' : bestEffortGetLinks env store c a = (r, a') → I a → I a'.
Proof.
  unfold bestEffortGetLinks. destruct (ipld_GetLinks store c) as [|[]]; try by intros [= _ <-].
  destruct (send _ _ _) as [[] a1] eqn:Hs; intros [= _ <-] Ha; (eapply I_send; [..|exact Hs]); eauto.
Qed.

Section fetcher_keep.
Variable store : gmap Cid Block.
Variable gl : Cid → M GCAux GCError (list Cid).
Variable Q : Cid → Prop.
Hypothesis Hgl : link_fetcher store gl Q.
Hypothesis gl_keep : ∀ c a r a', gl c a = (r, a') → I a → I a'.

Lemma walk_loop_keep fuel todo m a r s' :
  walk_loop (verifyGetLinks env gl) (walk_sched env) fuel todo (m, a) = (r, s') → I a → I s'.2.
Proof.
  revert todo m a. induction fuel as [|fuel IH]; intros todo m a; simpl;
    destruct (take_at _ todo) as [[c rest]|]; try (by intros [= _ <-]).
  unfold set_Visit. case_decide; [apply IH|]. unfold verifyGetLinks at 1.
  destruct (poll env a) as [[[]|e] a1] eqn:Hp; [|intros [= _ <-] ?; simpl; by eapply I_poll].
  destruct (ValidateCid c); [|intros [= _ <-] ?; simpl; by eapply I_poll].
  destruct (gl c a1) as [[l|e] a2] eqn:Hg.
  - intros Hw Ha. eapply IH; [exact Hw|]. eapply gl_keep; [exact Hg|]. by eapply I_poll.
  - intros [= _ <-] Ha. simpl. eapply gl_keep; [exact Hg|]. by eapply I_poll.
Qed.

Lemma Walk_keep c s r s' : Walk env store gl c s = (r, s') → I s.2 → I s'.2.
Proof.
  unfold Walk. destruct s as [m a].
  destruct (walk_loop (verifyGetLinks env gl) _ _ _ _) as [[] s1] eqn:Hw;
    intros [= _ <-]; by apply (walk_loop_keep _ _ _ _ _ _ Hw).
Qed.

Lemma Descendants_keep roots s r s' : Descendants env store gl roots s = (r, s') → I s.2 → I s'.2.
Proof.
  intros Hd Hs. refine (mfor_inv (λ s, I s.2) _ _ _ _ _ _ Hs Hd).
  intros c s1 r1 s1' _ Hs1. unfold mcatch.
  destruct (Walk env store gl c s1) as [[] s2] eqn:Hw; intros [= _ <-]; by eapply Walk_keep.
Qed.

Lemma tryDescendants_keep roots s r s' :
  tryDescendants env store gl roots s = (r, s') → I s.2 →
  I s'.2 ∧ ∀ e, r = Err e → e = CtxErr.
Proof.
  unfold tryDescendants, mcatch.
  destruct (Descendants env store gl roots s) as [[[]|e] [m a1]] eqn:Hd.
  - intros [= <- <-] Hs. split; [by eapply Descendants_keep in Hd|done].
  - destruct (send _ _ _) as [o a2] eqn:Hs. intros [= <- <-] Ha. simpl. split.
    + eapply Descendants_keep in Hd as Ha1; [|done]. eapply I_send; [|by apply I_errors|exact Hs].
      apply ok_err. by destruct (Descendants_err _ _ _ _ Hgl _ _ _ _ Hd) as [->|[v ->]].
    + apply send_spec in Hs as [_ Hs]. naive_solver.
Qed.

End fetcher_keep.

Lemma ColoredSet_keep store roots s r s' :
  ColoredSet env store roots s = (r, s') → I s.2 →
  I s'.2 ∧ ∀ e, r = Err e → e ≠ WalkDiverged.
Proof.
  unfold ColoredSet, fromEnv, mlift. rewrite !bind_unfold.
  destruct (RecursiveKeys env); [|intros [= <- <-] ?; naive_solver].
  rewrite !bind_unfold. destruct (tryDescendants _ _ _ _ s) as [r1 s1] eqn:H1.
  intros HC Hs. apply (tryDescendants_keep _ _ _ (getLinks_fetcher _ _)
    (getLinks_keep store)) in H1 as [Hs1 He1]; [|done].
  destruct r1 as [[]|]; [|simplify_eq; naive_solver]. revert HC. rewrite !bind_unfold.
  destruct (tryDescendants _ _ _ _ s1) as [r2 s2] eqn:H2. intros HC.
  apply (tryDescendants_keep _ _ _ (bestEffortGetLinks_fetcher _ _)
    (bestEffort_keep store)) in H2 as [Hs2 He2]; [|done].
  destruct r2 as [[]|]; [|simplify_eq; naive_solver]. revert HC. rewrite !bind_unfold.
  destruct (DirectKeys env); [|intros [= <- <-]; naive_solver]. rewrite !bind_unfold.
  unfold mmodify. rewrite !bind_unfold.
  destruct (InternalPins env); [|intros [= <- <-]; destruct s2; naive_solver].
  rewrite !bind_unfold. destruct s2 as [m2 a2].
  destruct (tryDescendants _ _ _ _ _) as [r3 s3] eqn:H3. intros HC.
  apply (tryDescendants_keep _ _ _ (getLinks_fetcher _ _)
    (getLinks_keep store)) in H3 as [Hs3 He3]; [|done].
  destruct r3 as [[]|]; [|simplify_eq; naive_solver]. revert HC. rewrite !bind_unfold.
  unfold mget. destruct (gc_errors s3.2); intros [= <- <-]; naive_solver.
Qed.

Lemma sweep_keep gcs keys errs bs a r bs' a' :
  sweep env gcs keys errs (bs, a) = (r, (bs', a')) → I a → I a'.
Proof.
  revert errs bs a. induction keys as [|k keys IH]; intros errs bs a; simpl;
    destruct (poll env a) as [[[]|e] a1] eqn:Hp;
    try (intros [= _ _ <-] ?; by eapply I_poll).
  case_decide as Hk; [intros Hs ?; eapply IH; [exact Hs|by eapply I_poll]|].
  destruct (DeleteBlock_err env k); destruct (send env _ a1) as [[[]|e'] a2] eqn:Hs;
    intros Hr Ha; (assert (I a2) by (eapply I_send; [..|exact Hs]; [|by eapply I_poll];
      first [apply ok_removed | by apply ok_err])); try (by simplify_eq); eauto.
Qed.

Lemma sendTo_keep r s o s' : sendTo env r s = (o, s') → ok r → I s.2 → I s'.2.
Proof.
  unfold sendTo. destruct s as [bs a]. destruct (send env r a) as [o1 a1] eqn:Hs.
  intros [= _ <-] Hr Ha. by eapply I_send.
Qed.

Lemma GC_body_keep roots s o s' : GC_body env roots s = (o, s') → I s.2 → I s'.2.
Proof.
  unfold GC_body. destruct s as [bs a]. intros HG Ha.
  destruct (ColoredSet _ _ _ _) as [[[]|e] [gcs a1]] eqn:HC;
    apply ColoredSet_keep in HC as [H1 He]; try done; simpl in H1; [|eapply sendTo_keep; eauto].
  destruct (AllKeysChan env) as [keys|]; [|eapply sendTo_keep; [exact HG|by apply ok_err|done]].
  destruct (sweep _ _ _ _ _) as [[errs|e] [bs2 a2]] eqn:Hs;
    apply sweep_keep in Hs; [|by simplify_eq..].
  destruct (if errs then _ else _) as [o3 s3] eqn:H3.
  assert (I s3.2) as Hs3.
  { destruct errs; [|by simplify_eq]. eapply sendTo_keep; [exact H3|by apply ok_err|done]. }
  destruct o3; [|by simplify_eq].
  destruct (CollectGarbage env) as [[|]|]; [by simplify_eq| |by simplify_eq].
  eapply sendTo_keep; [exact HG|by apply ok_err|done].
Qed.

End aux_inv.

(** C12.  The concurrent walk always terminates: with one unit of fuel per
    pending root and per stored link, the collector never reports a walk that
    ran out of it, for any schedule, any store (cyclic link structures
    included) and any cancellation. *)
Theorem gc_terminates env bs roots :
  ResultError WalkDiverged ∉ (GC env bs roots).2.
Proof.
  unfold GC. destruct (GC_body _ _ _) as [o [bs' a']] eqn:E.
  apply (GC_body_keep env (λ a, ResultError WalkDiverged ∉ gc_output a)
    (λ r, r ≠ ResultError WalkDiverged)) in E; simpl in *; try (done || congruence).
  - intros r a o' a1 Hr Ha [_ Hs]%send_spec. destruct Hs as [(_ & -> & _)|(_ & -> & _)]; set_solver.
  - intros a o' a1 Ha (_ & -> & _)%poll_spec. done.
  - set_solver.
Qed.

(** *** A collection that meets no problem *)

(** Nothing goes wrong: the context is never cancelled, the pinner and the
    listing answer, every deletion succeeds, every block below a recursive pin
    has a valid CID and can be fetched, and every block below a best-effort
    root has a valid CID and is stored or absent. *)
Record gc_clean (env : GCEnv) (bs : gmap Cid Block) (roots rkeys dkeys keys : list Cid) : Prop := {
  cl_ctx : ∀ n, ctx_done env n = false;
  cl_rec : RecursiveKeys env = Ok rkeys;
  cl_dir : DirectKeys env = Ok dkeys;
  cl_int : InternalPins env = Ok [];
  cl_keys : AllKeysChan env = Ok keys;
  cl_del : ∀ k, DeleteBlock_err env k = None;
  cl_col : CollectGarbage env = None ∨ CollectGarbage env = Some (Ok ());
  cl_rfetch : ∀ r c, r ∈ rkeys → Dag.reach (children bs) r c →
    ValidateCid c = Ok () ∧ fetched bs c;
  cl_bfetch : ∀ r c, r ∈ roots → Dag.reach (children bs) r c →
    ValidateCid c = Ok () ∧ fetched_or_absent bs c;
}.

Section clean.
Variable env : GCEnv.
Variable store : gmap Cid Block.
Hypothesis ctx_live : ∀ n, ctx_done env n = false.

(** No error raised and nothing sent yet. *)
Definition quiet (a : GCAux) : Prop := gc_errors a = false ∧ gc_output a = [].

Lemma poll_live a : poll env a = (Ok (), mkGCAux (gc_errors a) (gc_output a) (S (gc_polls a))).
Proof. unfold poll. by rewrite ctx_live. Qed.

Lemma send_live r a :
  send env r a = (Ok (), mkGCAux (gc_errors a) (gc_output a ++ [r]) (S (gc_polls a))).
Proof. unfold send. by rewrite ctx_live. Qed.

Lemma verify_clean gl c a :
  ValidateCid c = Ok () → (∀ a, gl c a = (Ok (children store c), a)) → quiet a →
  ∃ a', verifyGetLinks env gl c a = (Ok (children store c), a') ∧ quiet a'.
Proof.
  intros Hv Hg [He Ho]. unfold verifyGetLinks. rewrite poll_live, Hv, Hg. eexists. by split.
Qed.

Lemma getLinks_clean c a : fetched store c → getLinks env store c a = (Ok (children store c), a).
Proof. intros [l Hl]. unfold getLinks, children. by rewrite Hl. Qed.

Lemma bestEffort_clean c a :
  fetched_or_absent store c → bestEffortGetLinks env store c a = (Ok (children store c), a).
Proof. intros [[l Hl]|Hl]; unfold bestEffortGetLinks, children; by rewrite Hl. Qed.

Section roots.
Context (gl : Cid → M GCAux GCError (list Cid)) (Q : Cid → Prop).
Hypothesis Hgl : link_fetcher store gl Q.
Hypothesis gl_clean : ∀ c a, Q c → gl c a = (Ok (children store c), a).

Lemma Walk_clean c m a :
  (∀ d, Dag.reach (children store) c d → ValidateCid d = Ok () ∧ Q d) → quiet a →
  ∃ m' a', Walk env store gl c (m, a) = (Ok (), (m', a')) ∧ quiet a'.
Proof.
  intros HQ Ha. unfold Walk.
  destruct (walk_loop_clean (children store) (verifyGetLinks env gl)
    (verify_children env store gl Q Hgl) (dom store) (children_outside store)
    (Dag.reach (children store) c) quiet (walk_sched env) [c] m a) as (m' & a' & -> & Ha').
  - intros x y Hx Hy. by eapply rtc_r.
  - intros x b Hx Hb. destruct (HQ x Hx). apply verify_clean; auto.
  - intros x ->%list_elem_of_singleton. apply rtc_refl.
  - done.
  - eauto.
Qed.

Lemma tryDescendants_clean roots m a :
  (∀ c d, c ∈ roots → Dag.reach (children store) c d → ValidateCid d = Ok () ∧ Q d) → quiet a →
  ∃ m' a', tryDescendants env store gl roots (m, a) = (Ok (), (m', a')) ∧ quiet a'.
Proof.
  unfold tryDescendants, mcatch at 1, Descendants.
  revert m a. induction roots as [|c roots IH]; intros m a HQ Ha; simpl; [eauto|].
  rewrite bind_unfold. unfold mcatch at 1.
  destruct (Walk_clean c m a) as (m1 & a1 & -> & Ha1); [|done|].
  - intros d Hd. apply (HQ c); [by left|done].
  - apply IH; [|done]. intros x d Hx Hd. apply (HQ x); [by right|done].
Qed.

End roots.
End clean.

Lemma ColoredSet_clean env bs roots rkeys dkeys keys :
  gc_clean env bs roots rkeys dkeys keys →
  ∃ gcs a', ColoredSet env bs roots (∅, mkGCAux false [] 0) = (Ok (), (gcs, a')) ∧ quiet a'.
Proof.
  intros [Hctx HR HD HI _ _ _ Hrf Hbf]. unfold ColoredSet, fromEnv, mlift.
  rewrite HR, HD, HI. do 2 go_step.
  destruct (tryDescendants_clean env bs Hctx _ _ (getLinks_fetcher env bs)
    (λ c a, getLinks_clean env bs c a) rkeys ∅ (mkGCAux false [] 0)) as (m1 & a1 & -> & Ha1);
    [done|done|]. cbv beta iota. go_step.
  destruct (tryDescendants_clean env bs Hctx _ _ (bestEffortGetLinks_fetcher env bs)
    (λ c a, bestEffort_clean env bs c a) roots m1 a1) as (m2 & a2 & -> & Ha2); [done|done|].
  cbv beta iota. unfold mmodify. do 4 go_step.
  destruct (tryDescendants_clean env bs Hctx _ _ (getLinks_fetcher env bs)
    (λ c a, getLinks_clean env bs c a) [] (m2 ∪ list_to_set dkeys) a2) as (m3 & a3 & -> & Ha3);
    [set_solver|done|].
  cbv beta iota. go_step. unfold mget. simpl.
  destruct Ha3 as [He ?]. rewrite He. eexists _, _. by split.
Qed.

Lemma sweep_exact env gcs keys bs a :
  (∀ n, ctx_done env n = false) → (∀ k, DeleteBlock_err env k = None) →
  ∃ bs' a', sweep env gcs keys false (bs, a) = (Ok false, (bs', a')) ∧
    (∀ k, bs' !! k = if decide (k ∈ keys ∧ k ∉ gcs) then None else bs !! k) ∧
    gc_output a' = gc_output a ++ (KeyRemoved <$> filter (λ k, k ∉ gcs) keys).
Proof.
  intros Hctx Hdel. revert bs a. induction keys as [|k keys IH]; intros bs a; cbn [sweep].
  - rewrite poll_live by done. eexists _, _. split; [done|]. cbn [gc_output].
    rewrite filter_nil, fmap_nil, app_nil_r. split; [|done]. intros k.
    rewrite decide_False; [done|]. by intros [?%not_elem_of_nil _].
  - rewrite poll_live by done. rewrite filter_cons, Hdel.
    destruct (decide (k ∈ gcs)) as [Hk|Hk].
    + rewrite (decide_False (P := k ∉ gcs)) by tauto.
      edestruct (IH bs) as (bs' & a' & -> & Hb & Ho).
      eexists _, _. split; [done|]. rewrite Ho. split; [|done].
      intros x. rewrite Hb. apply decide_ext. rewrite elem_of_cons. naive_solver.
    + rewrite (decide_True (P := k ∉ gcs)) by done. rewrite send_live by done.
      edestruct (IH (delete k bs)) as (bs' & a' & -> & Hb & Ho).
      eexists _, _. split; [done|]. rewrite Ho, fmap_cons. cbn [gc_output].
      rewrite <- app_assoc. split; [|done]. intros x. rewrite Hb.
      destruct (decide (x = k)) as [->|Hne].
      * rewrite lookup_delete_eq, (decide_True (P := k ∈ k :: keys ∧ _)) by set_solver.
        by case_decide.
      * rewrite lookup_delete_ne by done. apply decide_ext. set_solver.
Qed.

(** C2.  A collection that meets no problem removes exactly the blocks that are
    not live, reports each removed key, and reports nothing else. *)
Theorem gc_exact env bs roots rkeys dkeys keys :
  gc_clean env bs roots rkeys dkeys keys → (∀ k, k ∈ keys ↔ k ∈ dom bs) →
  (∀ k b, (GC env bs roots).1 !! k = Some b ↔ bs !! k = Some b ∧ live env bs roots k) ∧
  (∀ k, KeyRemoved k ∈ (GC env bs roots).2 ↔ k ∈ dom bs ∧ ¬ live env bs roots k) ∧
  (∀ e, ResultError e ∉ (GC env bs roots).2).
Proof.
  intros Hcl Hkeys.
  destruct (ColoredSet_clean _ _ _ _ _ _ Hcl) as (gcs & a1 & HC & [_ Ho1]).
  assert (∀ k, k ∈ gcs ↔ live env bs roots k) as Hlive.
  { intros k. split; [|by eapply marked_live].
    apply ColoredSet_marked in HC as (rk & dk & ik & HR & HD & HI & Hm).
    intros Hk%(ms_sound _ _ _ _ _ _ Hm). unfold live. rewrite HR, HD, HI.
    rewrite (cl_int _ _ _ _ _ _ Hcl) in HI. simplify_eq.
    destruct Hk as [|(r & Hr & ?)]; [naive_solver|].
    rewrite !elem_of_app in Hr. destruct Hr as [|[|Hn]]; [naive_solver..|].
    by apply not_elem_of_nil in Hn. }
  destruct Hcl as [Hctx _ _ _ HK Hdel Hcol _ _].
  destruct (sweep_exact env gcs keys bs a1 Hctx Hdel) as (bs' & a' & Hs & Hb & Ho).
  assert (GC env bs roots = (bs', KeyRemoved <$> filter (λ k, k ∉ gcs) keys)) as ->.
  { unfold GC, GC_body. rewrite HC, HK, Hs.
    destruct Hcol as [-> | ->]; by rewrite Ho, Ho1. }
  simpl. split_and!.
  - intros k b. rewrite Hb, <- Hlive. case_decide as Hk; [naive_solver|].
    split; [|by intros []]. intros Hk'. split; [done|].
    destruct (decide (k ∈ gcs)); [done|]. destruct Hk. split; [|done].
    apply Hkeys, elem_of_dom. by eexists.
  - intros k. rewrite <- Hlive, <- Hkeys, list_elem_of_fmap. split.
    + intros (x & [= ->] & [? ?]%list_elem_of_filter). done.
    + intros [? ?]. exists k. split; [done|]. by apply list_elem_of_filter.
  - intros e (x & [=] & _)%list_elem_of_fmap.
Qed.

(** ** A concrete repository *)

Module Example.

Definition node (name : string) : Cid := CidV1 DagProtobuf (mkMultihash mh_ID name).
Definition leaf (name : string) : Cid := CidV1 Raw (mkMultihash mh_ID name).

(** A pinned file of two chunks, a directly pinned block, an MFS root one of
    whose entries is not stored, and two unreferenced blocks. *)
Definition bs : gmap Cid Block := list_to_map [
  (node "file", mkBlock "f" (Some [leaf "chunk1"; leaf "chunk2"]));
  (leaf "chunk1", mkBlock "1" (Some []));
  (leaf "chunk2", mkBlock "2" (Some []));
  (node "direct", mkBlock "d" (Some [node "behind"]));
  (node "behind", mkBlock "b" (Some []));
  (node "mfs", mkBlock "m" (Some [node "absent"; leaf "entry"]));
  (leaf "entry", mkBlock "e" (Some []));
  (node "garbage", mkBlock "g" (Some [leaf "chunk1"]))].

Definition env : GCEnv := {|
  RecursiveKeys := Ok [node "file"];
  DirectKeys := Ok [node "direct"];
  InternalPins := Ok [];
  AllKeysChan := Ok (elements (dom bs));
  DeleteBlock_err := λ _, None;
  CollectGarbage := None;
  ctx_done := λ _, false;
  walk_sched := λ n, n;
|}.

Lemma file_reach : Dag.reach (children bs) (node "file") (leaf "chunk2").
Proof. apply rtc_once. apply (bool_decide_unpack _). by vm_compute. Qed.

Lemma env_clean :
  gc_clean env bs [node "mfs"] [node "file"] [node "direct"] (elements (dom bs)).
Proof.
  split; try done; [by left| |].
  - intros r c ->%list_elem_of_singleton Hr.
    apply (reach_within _ [node "file"; leaf "chunk1"; leaf "chunk2"]) in Hr.
    + repeat (apply elem_of_cons in Hr as [->|Hr]; [split; [done|by eexists]|]).
      by apply not_elem_of_nil in Hr.
    + apply (bool_decide_unpack _). by vm_compute.
    + by left.
  - intros r c ->%list_elem_of_singleton Hr.
    apply (reach_within _ [node "mfs"; node "absent"; leaf "entry"]) in Hr.
    + repeat (apply elem_of_cons in Hr as [->|Hr];
        [split; [done|first [by left; eexists|by right]]|]).
      by apply not_elem_of_nil in Hr.
    + apply (bool_decide_unpack _). by vm_compute.
    + by left.
Qed.

End Example.

Lemma gc_keeps_live_witness :
  (GC Example.env Example.bs [Example.node "mfs"]).1 !! Example.leaf "chunk2"
  = Some (mkBlock "2" (Some [])).
Proof.
  rewrite (proj2 (gc_keeps_live Example.env Example.bs [Example.node "mfs"]) (Example.leaf "chunk2")).
  - by vm_compute.
  - left. exists [Example.node "file"], (Example.node "file").
    split_and!; [done|by left|apply Example.file_reach].
Defined.

Lemma gc_aborts_witness :
  (GC Example.env (delete (Example.node "behind")
        (<[Example.node "file" := mkBlock "f" (Some [Example.node "behind"])]> Example.bs)) []).1
  = delete (Example.node "behind")
      (<[Example.node "file" := mkBlock "f" (Some [Example.node "behind"])]> Example.bs).
Proof.
  apply (gc_aborts_on_missing_links _ _ _ [Example.node "file"] (Example.node "file")
           (Example.node "behind") ErrNotFound).
  - done.
  - by left.
  - apply rtc_once. apply (bool_decide_unpack _). by vm_compute.
  - by vm_compute.
Defined.

Lemma gc_exact_witness :
  KeyRemoved (Example.node "garbage") ∈ (GC Example.env Example.bs [Example.node "mfs"]).2 ∧
  ResultError ErrCannotFetchAllLinks ∉ (GC Example.env Example.bs [Example.node "mfs"]).2.
Proof.
  destruct (gc_exact Example.env Example.bs [Example.node "mfs"] [Example.node "file"]
    [Example.node "direct"] (elements (dom Example.bs)) Example.env_clean) as (_ & _ & He).
  - intros k. apply elem_of_elements.
  - split; [|apply He]. apply (bool_decide_unpack _). by vm_compute.
Defined.

(** The marks of direct pins are added before the internal pins are walked,
    and the walk does not go below a node that is already marked: a block that an
    internal pin reaches only through a directly pinned block is collected. *)
Theorem gc_internal_pin_behind_direct_pin_lost :
  let env := {| RecursiveKeys := Ok []; DirectKeys := Ok [Example.node "direct"];
                InternalPins := Ok [Example.node "direct"];
                AllKeysChan := Ok (elements (dom Example.bs));
                DeleteBlock_err := λ _, None; CollectGarbage := None;
                ctx_done := λ _, false; walk_sched := λ _, 0 |} in
  Dag.reach (children Example.bs) (Example.node "direct") (Example.node "behind") ∧
  Example.bs !! Example.node "behind" = Some (mkBlock "b" (Some [])) ∧
  (GC env Example.bs []).1 !! Example.node "behind" = None.
Proof.
  split_and!; [|by vm_compute..].
  apply rtc_once. apply (bool_decide_unpack _). by vm_compute.
Qed.
