(* ===== verification/CoreRepo.v ===== *)
(** * Storage watermarks and scheduled collection (src/core/corerepo/gc.go)

    [NewGC] turns the datastore configuration into byte limits, [maybeGC] runs
    the collector when the usage passes the watermark, [PeriodicGC] repeats that
    on a timer, and [CollectResult] drains the collector's output channel.  The
    byte arithmetic is Go's [uint64] arithmetic. *)

From S2P Require Import Prelude Cid Dag GC.
From stdpp Require Import base gmap sets list strings.
From Stdlib Require Import ZArith.

(** ** Collecting the results of a run *)

(** The error CollectResult returns: the only one, or a MultiError. *)
Inductive CollectError :=
  | OneError (err : GCError)
  | MultiError (Errors : list GCError) (Summary : GCError).

#[export] Instance CollectError_eq_dec : EqDecision CollectError.
Proof. solve_decision. Defined.

(** NewMultiError: slicing an empty slice panics, here [None]. *)
Definition NewMultiError (errs : list GCError) : option CollectError :=
  match last errs with
  | Some e => Some (MultiError (take (length errs - 1) errs) e)
  | None => None
  end.

(** The loop of CollectResult: the [i]-th select takes the [ctx.Done()] branch
    when [done i]; [removed] are the keys the callback was called with. *)
Fixpoint collect_loop (done : nat → bool) (cb : bool) (i : nat) (gcOut : list Result)
    (errors : list GCError) (removed : list Cid) : list GCError * list Cid :=
  if done i then (errors ++ [CtxErr], removed)
  else match gcOut with
       | [] => (errors, removed)
       | ResultError e :: out => collect_loop done cb (S i) out (errors ++ [e]) removed
       | KeyRemoved k :: out =>
           collect_loop done cb (S i) out errors
             (if cid_Defined k && cb then removed ++ [k] else removed)
       end.

(** CollectResult: the error, if any, and the keys passed to the callback. *)
Definition CollectResult (done : nat → bool) (cb : bool) (gcOut : list Result)
    : option CollectError * list Cid :=
  let '(errors, removed) := collect_loop done cb 0 gcOut [] [] in
  (match errors with
   | [] => None
   | [e] => Some (OneError e)
   | _ => NewMultiError errors
   end, removed).

(** The errors a CollectError carries, in the order they were received. *)
Definition error_list (e : option CollectError) : list GCError :=
  match e with
  | None => []
  | Some (OneError e) => [e]
  | Some (MultiError es s) => es ++ [s]
  end.

Definition results_errors (out : list Result) : list GCError :=
  omap (λ r, match r with ResultError e => Some e | _ => None end) out.
Definition results_removed (out : list Result) : list Cid :=
  omap (λ r, match r with KeyRemoved k => if cid_Defined k then Some k else None | _ => None end) out.

(** ** The node *)

(** The datastore section of the configuration and the blocks. *)
Record NodeState := mkNode {
  StorageMax_cfg : string;
  StorageGCWatermark : Z;
  GCPeriod : string;
  node_blocks : gmap Cid Block;
}.

(** The repository, the parsers of the configuration's strings and the MFS root.
    [GetNode] of an MFS directory writes the flushed node to the blockstore. *)
Record NodeEnv := mkNodeEnv {
  Config_err : option string;
  SetConfigKey_err : string → option string;
  ParseBytes : string → res string Z;
  ParseDuration : string → res string Z;
  GetStorageUsage : gmap Cid Block → res string Z;
  FilesRoot_GetNode : gmap Cid Block → res string Cid * gmap Cid Block;
  gc_env : gmap Cid Block → GCEnv;
  collect_done : nat → bool;
}.

Inductive RepoError :=
  | RErr (msg : string)
  | RCollect (err : CollectError).

(** The struct GC of corerepo. *)
Record GCLimits := mkGCLimits {
  StorageMax : Z;
  StorageGC : Z;
  SlackGB : Z;
}.

(** The arithmetic of NewGC, in uint64. *)
Definition limits (storageMax watermark : Z) : GCLimits :=
  let storageGC := (u64 (storageMax * u64 watermark) / 100)%Z in
  let slackGB := (u64 (storageMax - storageGC) / 10000000000)%Z in
  mkGCLimits storageMax storageGC (if (slackGB <? 1)%Z then 1%Z else slackGB).

#[global] Arguments limits : simpl never.

Definition env_check (e : option string) : M NodeState RepoError unit :=
  match e with None => mret () | Some m => mthrow (RErr m) end.

Definition env_res {A} (r : res string A) : M NodeState RepoError A :=
  mlift (match r with Ok a => Ok a | Err m => Err (RErr m) end).

Definition set_StorageMax (v : string) (s : NodeState) : NodeState :=
  mkNode v (StorageGCWatermark s) (GCPeriod s) (node_blocks s).
Definition set_Watermark (v : Z) (s : NodeState) : NodeState :=
  mkNode (StorageMax_cfg s) v (GCPeriod s) (node_blocks s).
Definition set_GCPeriod (v : string) (s : NodeState) : NodeState :=
  mkNode (StorageMax_cfg s) (StorageGCWatermark s) v (node_blocks s).
Definition set_blocks (bs : gmap Cid Block) (s : NodeState) : NodeState :=
  mkNode (StorageMax_cfg s) (StorageGCWatermark s) (GCPeriod s) bs.

(** corerepo.NewGC: unset fields get defaults, in the repo and in [cfg]. *)
Definition NewGC (env : NodeEnv) : M NodeState RepoError GCLimits :=
  _ ← env_check (Config_err env);
  cfg ← mget;
  _ ← (if decide (StorageMax_cfg cfg = "")
       then _ ← env_check (SetConfigKey_err env "Datastore.StorageMax");
            mmodify (set_StorageMax "10GB")
       else mret ());
  _ ← (if decide (StorageGCWatermark cfg = 0%Z)
       then _ ← env_check (SetConfigKey_err env "Datastore.StorageGCWatermark");
            mmodify (set_Watermark 90)
       else mret ());
  cfg ← mget;
  storageMax ← env_res (ParseBytes env (StorageMax_cfg cfg));
  mret (limits storageMax (StorageGCWatermark cfg)).

(** corerepo.BestEffortRoots *)
Definition BestEffortRoots (env : NodeEnv) : M NodeState string (list Cid) := λ s,
  match FilesRoot_GetNode env (node_blocks s) with
  | (Ok c, bs) => (Ok [c], set_blocks bs s)
  | (Err m, bs) => (Err m, set_blocks bs s)
  end.

(** corerepo.GarbageCollect, with the collector run to the end of its channel. *)
Definition GarbageCollect (env : NodeEnv) : M NodeState RepoError unit :=
  roots ← mcatch (BestEffortRoots env) (λ m, mthrow (RErr m));
  s ← mget;
  let '(bs, rmed) := GC (gc_env env (node_blocks s)) (node_blocks s) roots in
  _ ← mmodify (set_blocks bs);
  match (CollectResult (collect_done env) false rmed).1 with
  | None => mret ()
  | Some e => mthrow (RCollect e)
  end.

(** maybeGC: [storage+offset] is uint64 addition. *)
Definition maybeGC (env : NodeEnv) (gc : GCLimits) (offset : Z) : M NodeState RepoError unit :=
  s ← mget;
  storage ← env_res (GetStorageUsage env (node_blocks s));
  if (StorageGC gc <? u64 (storage + offset))%Z then GarbageCollect env else mret ().

(** corerepo.ConditionalGC *)
Definition ConditionalGC (env : NodeEnv) (offset : Z) : M NodeState RepoError unit :=
  gc ← NewGC env;
  maybeGC env gc offset.

(** The loop of PeriodicGC over the environments found at the ticks that come
    before [ctx.Done()]; an error of a cycle is logged and the loop goes on. *)
Definition periodic_loop (gc : GCLimits) (ticks : list NodeEnv) : M NodeState RepoError unit :=
  mfor ticks (λ env, mcatch (maybeGC env gc 0) (λ _, mret ())).

(** corerepo.PeriodicGC *)
Definition PeriodicGC (env : NodeEnv) (ticks : list NodeEnv) : M NodeState RepoError unit :=
  _ ← env_check (Config_err env);
  cfg ← mget;
  _ ← (if decide (GCPeriod cfg = "") then mmodify (set_GCPeriod "1h") else mret ());
  cfg ← mget;
  period ← env_res (ParseDuration env (GCPeriod cfg));
  if (period =? 0)%Z then mret ()
  else gc ← NewGC env; periodic_loop gc ticks.

(** *** Channels *)

(** A channel with no receiver yet: its capacity and what is buffered in it. *)
Record Chan := mkChan { chan_cap : nat; chan_buf : list Result }.

(** Sending to a channel nobody receives from blocks once the buffer is full. *)
Definition chan_send (c : Chan) (r : Result) : option Chan :=
  if decide (length (chan_buf c) < chan_cap c)
  then Some (mkChan (chan_cap c) (chan_buf c ++ [r])) else None.

(** GarbageCollectAsync: the results its caller reads from the channel it
    returns, or [None] when it never returns. *)
Definition GarbageCollectAsync (env : NodeEnv) (s : NodeState) : option (list Result) * NodeState :=
  match BestEffortRoots env s with
  | (Err m, s') => (chan_buf <$> chan_send (mkChan 0 []) (ResultError (EnvError m)), s')
  | (Ok roots, s') =>
      let '(bs, out) := GC (gc_env env (node_blocks s')) (node_blocks s') roots in
      (Some out, set_blocks bs s')
  end.

(** ** Repository statistics (src/core/corerepo/stat.go) *)

Record SizeStat := mkSizeStat { RepoSize_bytes : Z; RepoStorageMax : Z }.

Record Stat := mkStat {
  Stat_size : SizeStat;
  NumObjects : Z;
  RepoPath : string;
  Stat_version : string;
}.

Definition NoLimit : Z := u64_max.

(** corerepo.RepoSize *)
Definition RepoSize (env : NodeEnv) : M NodeState RepoError SizeStat :=
  _ ← env_check (Config_err env);
  s ← mget;
  usage ← env_res (GetStorageUsage env (node_blocks s));
  storageMax ← (if decide (StorageMax_cfg s = "") then mret NoLimit
                else env_res (ParseBytes env (StorageMax_cfg s)));
  mret (mkSizeStat usage storageMax).

(** corerepo.RepoStat; [path] is what fsrepo.BestKnownPath returns. *)
Definition RepoStat (env : NodeEnv) (path : res string string) : M NodeState RepoError Stat :=
  sizeStat ← RepoSize env;
  s ← mget;
  allKeys ← env_res (AllKeysChan (gc_env env (node_blocks s)));
  path ← env_res path;
  mret (mkStat (mkSizeStat (RepoSize_bytes sizeStat) (RepoStorageMax sizeStat))
          (u64 (Z.of_nat (length allKeys))) path "fs-repo@11").

(** ** CollectResult *)

Lemma NewMultiError_list errs e : NewMultiError errs = Some e → error_list (Some e) = errs.
Proof.
  unfold NewMultiError. destruct errs as [|x errs _] using rev_ind; [done|].
  rewrite last_snoc, length_app. simpl. intros [= <-]. simpl. f_equal.
  rewrite Nat.add_sub. by rewrite take_app_length.
Qed.

Lemma collect_error_list errors :
  error_list match errors with
             | [] => None | [e] => Some (OneError e) | _ => NewMultiError errors
             end = errors.
Proof.
  destruct errors as [|e1 [|e2 es]]; [done..|].
  destruct (NewMultiError (e1 :: e2 :: es)) eqn:He; [by apply NewMultiError_list|].
  unfold NewMultiError in He. rewrite last_cons_cons in He.
  destruct (last (e2 :: es)) eqn:Hl; [done|]. by apply last_None in Hl.
Qed.

Lemma collect_loop_spec done cb out i errors removed :
  ∃ n, n ≤ length out ∧ (∀ k, k < n → done (i + k) = false) ∧
    (collect_loop done cb i out errors removed).2
      = removed ++ (if cb then results_removed (take n out) else []) ∧
    ((n = length out ∧ done (i + n) = false ∧
      (collect_loop done cb i out errors removed).1 = errors ++ results_errors out) ∨
     (done (i + n) = true ∧
      (collect_loop done cb i out errors removed).1
        = errors ++ results_errors (take n out) ++ [CtxErr])).
Proof.
  revert i errors removed. induction out as [|r out IH]; intros i errors removed; simpl.
  - exists 0. rewrite Nat.add_0_r. destruct (done i) eqn:Hd; simpl; rewrite ?app_nil_r;
      (split_and!; [lia|lia|by destruct cb; rewrite ?app_nil_r|]); [by right|by left].
  - destruct (done i) eqn:Hd.
    { exists 0. rewrite Nat.add_0_r. simpl.
      split_and!; [lia|lia|by destruct cb; rewrite ?app_nil_r|by right]. }
    assert (∀ n, (∀ k, k < n → done (S i + k) = false) → ∀ k, k < S n → done (i + k) = false) as Hlt.
    { intros n Hn [|k] Hk; [by rewrite Nat.add_0_r|]. rewrite <- (Hn k) by lia. f_equal. lia. }
    destruct r as [key|e].
    + edestruct (IH (S i) errors (if cid_Defined key && cb then removed ++ [key] else removed))
        as (n & ? & Hn & -> & Hr). exists (S n). rewrite <- plus_n_Sm.
      split_and!; [lia|by apply Hlt| |].
      * destruct cb; simpl; [|by rewrite andb_false_r].
        destruct (cid_Defined key); simpl; [by rewrite <- app_assoc|done].
      * simpl. destruct Hr as [(-> & ? & ?)|?]; [left|right]; done.
    + edestruct (IH (S i) (errors ++ [e]) removed) as (n & ? & Hn & -> & Hr).
      exists (S n). rewrite <- plus_n_Sm. split_and!; [lia|by apply Hlt|by destruct cb|].
      simpl. destruct Hr as [(-> & ? & ->)|(? & ->)]; [left|right]; rewrite <- app_assoc; done.
Qed.

(** CollectResult reads the channel in order until it is closed or the
    context is done: the callback sees exactly the keys removed so far, and the
    error returned carries exactly the errors received, in order, followed by the
    context's error when it stopped early; nothing is dropped by wrapping them in
    a MultiError. *)
Theorem CollectResult_spec done cb out :
  ∃ n, n ≤ length out ∧ (∀ k, k < n → done k = false) ∧
    (CollectResult done cb out).2 = (if cb then results_removed (take n out) else []) ∧
    ((n = length out ∧ error_list (CollectResult done cb out).1 = results_errors out) ∨
     (done n = true ∧
      error_list (CollectResult done cb out).1 = results_errors (take n out) ++ [CtxErr])).
Proof.
  destruct (collect_loop_spec done cb out 0 [] []) as (n & Hn & Hd & Hr & He). exists n.
  unfold CollectResult. destruct (collect_loop _ _ _ _ _ _) as [errors removed].
  simpl in *. rewrite collect_error_list. naive_solver.
Qed.

(** ** Limits *)

(** For a watermark of at most 100 percent and a limit whose product with
    the watermark fits a uint64, the watermark computed by NewGC is the exact
    percentage, never exceeds the limit, and the slack is the rounded-down
    difference, at least 1. *)
Theorem limits_bounds storageMax watermark :
  (0 ≤ watermark ≤ 100)%Z → (0 ≤ storageMax)%Z → (storageMax ≤ u64_max)%Z →
  (storageMax * watermark ≤ u64_max)%Z →
  let l := limits storageMax watermark in
  StorageGC l = (storageMax * watermark / 100)%Z ∧
  (StorageGC l ≤ StorageMax l)%Z ∧
  SlackGB l = Z.max 1 ((storageMax - StorageGC l) / 10000000000)%Z.
Proof.
  intros Hw Hs Hm Hp. cbn zeta. unfold limits. cbn [StorageGC StorageMax SlackGB].
  rewrite (u64_small watermark) by (unfold u64_max; lia).
  rewrite (u64_small (storageMax * watermark)) by nia.
  assert (0 ≤ storageMax * watermark / 100 ≤ storageMax)%Z as Hle.
  { split; [apply Z.div_pos; nia|]. apply Z.div_le_upper_bound; nia. }
  rewrite u64_small by lia. split_and!; [done|lia|].
  destruct (Z.ltb_spec ((storageMax - storageMax * watermark / 100) / 10000000000) 1); lia.
Qed.

Lemma limits_bounds_witness : StorageGC (limits 10000000000 90) = 9000000000%Z.
Proof.
  destruct (limits_bounds 10000000000 90) as [-> _]; [lia|lia|done|done|done].
Defined.

(** The product of the limit and the watermark is computed in uint64: for a
    limit of 300 PB and the default watermark it wraps, and the watermark is less
    than a third of the intended 270 PB; and a watermark above 100 percent makes
    the slack wrap to more than a thousand million units. *)
Theorem limits_wrap :
  (StorageGC (limits 300000000000000000 90) < 90000000000000000)%Z ∧
  (1000000000 < SlackGB (limits 10000000000 101))%Z.
Proof. split; vm_compute; reflexivity. Qed.

(** ** Conditional and periodic collection *)

Lemma NewGC_configured env s m :
  Config_err env = None → StorageMax_cfg s ≠ "" → StorageGCWatermark s ≠ 0%Z →
  ParseBytes env (StorageMax_cfg s) = Ok m →
  NewGC env s = (Ok (limits m (StorageGCWatermark s)), s).
Proof.
  intros Hc Hm Hw Hp. unfold NewGC, env_check, env_res. rewrite Hc. go_run.
  rewrite !decide_False by done. by rewrite Hp.
Qed.

(** NewGC leaves a configuration on which it does not default again. *)
Lemma NewGC_idempotent env s l s' :
  NewGC env s = (Ok l, s') → NewGC env s' = (Ok l, s') ∧ node_blocks s' = node_blocks s.
Proof.
  unfold NewGC, env_check, env_res. destruct (Config_err env); go_run; [done|].
  destruct (decide (StorageMax_cfg s = ""));
    [destruct (SetConfigKey_err env "Datastore.StorageMax"); [done|]|];
    (destruct (decide (StorageGCWatermark s = 0%Z));
     [destruct (SetConfigKey_err env "Datastore.StorageGCWatermark"); [done|]|]);
    simpl; destruct (ParseBytes env _) eqn:Hp; try done; intros [= <- <-];
    simpl; rewrite ?decide_False by done; simpl; by rewrite Hp.
Qed.

(** With a configured limit, ConditionalGC collects exactly when the usage
    plus the offset passes the watermark; otherwise it leaves the node alone. *)
Theorem ConditionalGC_threshold env s m usage offset :
  Config_err env = None → StorageMax_cfg s ≠ "" →
  (0 < StorageGCWatermark s ≤ 100)%Z →
  ParseBytes env (StorageMax_cfg s) = Ok m →
  (0 ≤ m)%Z → (m * StorageGCWatermark s ≤ u64_max)%Z →
  GetStorageUsage env (node_blocks s) = Ok usage →
  (0 ≤ usage + offset ≤ u64_max)%Z →
  ConditionalGC env offset s =
    if (m * StorageGCWatermark s / 100 <? usage + offset)%Z then GarbageCollect env s
    else (Ok (), s).
Proof.
  intros Hc Hm Hw Hp Hm0 Hmw Hu Ho. unfold ConditionalGC. rewrite bind_unfold.
  rewrite (NewGC_configured _ _ m) by (done || lia). cbv beta iota.
  unfold maybeGC. rewrite bind_unfold. cbv beta iota delta [mget]. rewrite bind_unfold.
  unfold env_res, mlift. rewrite Hu. cbv beta iota.
  rewrite (u64_small (usage + offset)) by done. unfold limits. cbn [StorageGC].
  rewrite (u64_small (StorageGCWatermark s)) by (unfold u64_max; lia).
  rewrite u64_small by nia. by destruct (_ <? _)%Z.
Qed.

(** *** Pinned blocks survive any number of cycles *)

Section pinned.
Variable P : GCEnv.

(** The pinner lists the pins of [P] throughout, and flushing the MFS root only
    adds blocks. *)
Definition pins_of (env : NodeEnv) : Prop :=
  (∀ bs, RecursiveKeys (gc_env env bs) = RecursiveKeys P ∧
         DirectKeys (gc_env env bs) = DirectKeys P ∧
         InternalPins (gc_env env bs) = InternalPins P) ∧
  (∀ bs, bs ⊆ (FilesRoot_GetNode env bs).2).

Definition pinned_in (s : NodeState) (c : Cid) (b : Block) : Prop :=
  live P (node_blocks s) [] c ∧ node_blocks s !! c = Some b.

Definition keeps_pinned (s s' : NodeState) : Prop :=
  ∀ c b, pinned_in s c b → pinned_in s' c b.

#[export] Instance keeps_pinned_preorder : PreOrder keeps_pinned.
Proof. split; [by intros s c b|intros s1 s2 s3 H1 H2 c b ?; by apply H2, H1]. Qed.

Lemma keeps_same_blocks s s' : node_blocks s' = node_blocks s → keeps_pinned s s'.
Proof. intros Hb c b. unfold pinned_in. by rewrite Hb. Qed.

Lemma BestEffortRoots_keeps env s r s' :
  pins_of env → BestEffortRoots env s = (r, s') → keeps_pinned s s'.
Proof.
  intros [_ Hm]. unfold BestEffortRoots. specialize (Hm (node_blocks s)).
  destruct (FilesRoot_GetNode env (node_blocks s)) as [[c|e] bs]; simpl in Hm;
    intros [= _ <-] d b [Hl Hb]; (split; simpl; [|by eapply lookup_weaken]);
    eapply live_mono; try exact Hl; done.
Qed.

Lemma GC_keeps_pinned env s roots :
  pins_of env →
  keeps_pinned s (set_blocks (GC (gc_env env (node_blocks s)) (node_blocks s) roots).1 s).
Proof.
  intros [Hp _] c b [Hl Hb]. destruct (Hp (node_blocks s)) as (HR & HD & HI).
  assert (live (gc_env env (node_blocks s)) (node_blocks s) [] c) as Hl'
    by (eapply live_mono; try exact Hl; done).
  split; simpl.
  - eapply live_preserved; try exact Hl'; try done. set_solver.
  - rewrite (proj2 (GC_keeps _ _ roots)); [done|].
    eapply live_mono; try exact Hl'; try done. set_solver.
Qed.

Lemma GarbageCollect_keeps env s r s' :
  pins_of env → GarbageCollect env s = (r, s') → keeps_pinned s s'.
Proof.
  intros Hp. unfold GarbageCollect. rewrite bind_unfold. unfold mcatch.
  destruct (BestEffortRoots env s) as [[roots|e] s1] eqn:Hb;
    apply BestEffortRoots_keeps in Hb; try done; [|intros [= _ <-]; done].
  cbv beta iota. rewrite bind_unfold. cbv beta iota delta [mget].
  pose proof (GC_keeps_pinned env s1 roots Hp) as Hk.
  destruct (GC (gc_env env (node_blocks s1)) (node_blocks s1) roots) as [bs rmed].
  rewrite bind_unfold. cbv beta iota delta [mmodify].
  case_match; intros [= _ <-]; by etrans.
Qed.

Lemma maybeGC_keeps env gc offset s r s' :
  pins_of env → maybeGC env gc offset s = (r, s') → keeps_pinned s s'.
Proof.
  intros Hp. unfold maybeGC. rewrite bind_unfold. cbv beta iota delta [mget].
  rewrite bind_unfold. unfold env_res, mlift.
  destruct (GetStorageUsage env (node_blocks s)); cbv beta iota; [|by intros [= _ <-]].
  destruct (_ <? _)%Z; [by apply GarbageCollect_keeps|by intros [= _ <-]].
Qed.

Lemma NewGC_blocks env s r s' : NewGC env s = (r, s') → node_blocks s' = node_blocks s.
Proof.
  unfold NewGC, env_check, env_res. destruct (Config_err env); go_run; [by intros [= _ <-]|].
  destruct (decide (StorageMax_cfg s = ""));
    [destruct (SetConfigKey_err env "Datastore.StorageMax"); [by intros [= _ <-]|]|];
    (destruct (decide (StorageGCWatermark s = 0%Z));
     [destruct (SetConfigKey_err env "Datastore.StorageGCWatermark"); [by intros [= _ <-]|]|]);
    simpl; destruct (ParseBytes env _); by intros [= _ <-].
Qed.

Lemma periodic_loop_keeps gc ticks s r s' :
  Forall pins_of ticks → periodic_loop gc ticks s = (r, s') → keeps_pinned s s'.
Proof.
  intros Ht. rewrite Forall_forall in Ht.
  apply (mfor_inv (keeps_pinned s)); [|done].
  intros env s1 r1 s2 He H1. unfold mcatch. destruct (maybeGC env gc 0 s1) as [[]s3] eqn:Hm;
    apply maybeGC_keeps in Hm; auto; intros [= _ <-]; by etrans.
Qed.

End pinned.

(** C40.  However many cycles the periodic collector runs, whatever each cycle's
    usage, cancellation and errors, a stored block that the pins keep alive is
    still stored, unchanged and pinned, as long as the pins stay. *)
Theorem PeriodicGC_keeps_pinned P env ticks s r s' c b :
  Forall (pins_of P) (env :: ticks) →
  PeriodicGC env ticks s = (r, s') → pinned_in P s c b → pinned_in P s' c b.
Proof.
  intros [He Ht]%Forall_cons HP. revert c b. change (keeps_pinned P s s'). revert HP.
  unfold PeriodicGC. rewrite bind_unfold. unfold env_check.
  destruct (Config_err env); [by intros [= _ <-]|]. rewrite ret_unfold.
  cbv beta iota. rewrite bind_unfold. cbv beta iota delta [mget]. rewrite bind_unfold.
  assert (∃ s1, (if decide (GCPeriod s = "") then mmodify (set_GCPeriod "1h") else mret ()) s
                = (Ok (E:=RepoError) (), s1) ∧ node_blocks s1 = node_blocks s)
    as (s1 & -> & Hb) by (case_decide; eexists; by split).
  cbv beta iota. rewrite bind_unfold. cbv beta iota. rewrite bind_unfold. unfold env_res, mlift.
  destruct (ParseDuration env (GCPeriod s1)) as [period|];
    [|intros [= _ <-]; by apply keeps_same_blocks].
  destruct (period =? 0)%Z; [intros [= _ <-]; by apply keeps_same_blocks|].
  rewrite bind_unfold. destruct (NewGC env s1) as [[gc|] s2] eqn:HN; apply NewGC_blocks in HN.
  - intros Hl c b [Hl1 Hl2]. eapply periodic_loop_keeps; [exact Ht|exact Hl|].
    split; rewrite HN, Hb; done.
  - intros [= _ <-]. apply keeps_same_blocks. congruence.
Qed.

(** When the MFS root cannot be read, GarbageCollectAsync sends the error on
    the unbuffered channel it has not returned yet: it never returns. *)
Theorem GarbageCollectAsync_blocks env s m bs :
  FilesRoot_GetNode env (node_blocks s) = (Err m, bs) → (GarbageCollectAsync env s).1 = None.
Proof. intros Hg. unfold GarbageCollectAsync, BestEffortRoots. by rewrite Hg. Qed.

Module CoreRepoExample.

(** The repository of [GC.Example], above its watermark. *)
Definition env (root : res string Cid) : NodeEnv := {|
  Config_err := None;
  SetConfigKey_err := λ _, None;
  ParseBytes := λ s, if decide (s = "10GB") then Ok 10000000000%Z else Err "unparsable";
  ParseDuration := λ s, if decide (s = "1h") then Ok 3600000000000%Z else Err "unparsable";
  GetStorageUsage := λ _, Ok 9500000000%Z;
  FilesRoot_GetNode := λ bs, (root, bs);
  gc_env := λ bs, {|
    RecursiveKeys := Ok [Example.node "file"]; DirectKeys := Ok [Example.node "direct"];
    InternalPins := Ok []; AllKeysChan := Ok (elements (dom bs));
    DeleteBlock_err := λ _, None; CollectGarbage := None;
    ctx_done := λ _, false; walk_sched := λ n, n |};
  collect_done := λ _, false |}.

Definition state : NodeState := mkNode "" 0 "" Example.bs.

Lemma collects :
  elements (dom (node_blocks (PeriodicGC (env (Ok (Example.node "mfs")))
    [env (Ok (Example.node "mfs")); env (Ok (Example.node "mfs"))] state).2)) ≡ₚ
  elements (dom (delete (Example.node "garbage") (delete (Example.node "behind") Example.bs))).
Proof. apply (bool_decide_unpack _). by vm_compute. Qed.

Lemma pins root : pins_of Example.env (env root).
Proof.
  split; intros bs; [split_and!; reflexivity|]. unfold env. simpl. reflexivity.
Qed.

End CoreRepoExample.

Lemma ConditionalGC_threshold_witness :
  ConditionalGC (CoreRepoExample.env (Ok (Example.node "mfs"))) 100
    (mkNode "10GB" 99 "" Example.bs) = (Ok (), mkNode "10GB" 99 "" Example.bs).
Proof.
  rewrite (ConditionalGC_threshold _ _ 10000000000 9500000000); cbn; try done; lia.
Defined.

Lemma PeriodicGC_keeps_pinned_witness :
  node_blocks (PeriodicGC (CoreRepoExample.env (Ok (Example.node "mfs")))
    [CoreRepoExample.env (Ok (Example.node "mfs"))] CoreRepoExample.state).2
    !! Example.leaf "chunk2" = Some (mkBlock "2" (Some [])).
Proof.
  destruct (PeriodicGC _ _ _) as [r s'] eqn:HP.
  eapply (PeriodicGC_keeps_pinned Example.env) in HP as [_ HP]; [exact HP| |].
  - repeat apply Forall_cons_2; [apply CoreRepoExample.pins..|apply Forall_nil_2].
  - split; [|by vm_compute]. left. exists [Example.node "file"], (Example.node "file").
    split_and!; [done|by left|apply Example.file_reach].
Defined.

Lemma GarbageCollectAsync_blocks_witness :
  (GarbageCollectAsync (CoreRepoExample.env (Err "context canceled")) CoreRepoExample.state).1 = None.
Proof. by eapply GarbageCollectAsync_blocks. Defined.
