(* ===== verification/Refs.v ===== *)
(** * Listing references (src/core/commands/refs.go)

    [ipfs refs -r] walks a Merkle-DAG depth first and prints the links it
    follows.  With [--unique] it remembers every CID with the smallest depth at
    which it was met, and prunes a branch met again at the same or a greater
    depth.  The model keeps the node getter, the response emitter and the
    context as oracles. *)

From Stdlib Require Import ZArith.
From S2P Require Import Prelude GoStrings Cid Dag.
From stdpp Require Import base gmap sets list strings relations.

(** ** Data *)

Record Link := mkLink { link_Name : string; link_Cid : Cid }.

(** One emitted RefWrapper, with the edge it was written for. *)
Record RefWrapper := mkRef {
  ref_from : Cid;
  ref_to : Cid;
  Ref : string;
}.

Inductive RefError :=
  | RefNotFound (msg : string)
  | RefCtx
  | RefEmit (msg : string)
  | RefOutOfFuel.

(** The immutable fields of RefWriter and its environment: [DAG_Get], the
    [i]-th promise of [ipld.GetDAG] for a node, the poll of the context before
    the [i]-th write and the emitter's answer to it. *)
Record RefEnv := mkRefEnv {
  Unique : bool;
  MaxDepth : Z;
  PrintFmt : string;
  Encode : Cid → string;
  DAG_Get : Cid → res string (list Link);
  promise_Get : Cid → nat → Cid → res string (list Link);
  ref_ctx_done : nat → bool;
  Emit_err : nat → option string;
}.

(** The mutable fields: [seen], what was emitted, and the number of writes tried. *)
Record RefWriter := mkRW {
  seen : gmap Cid Z;
  emitted : list RefWrapper;
  writes : nat;
}.

Section refs.
Variable env : RefEnv.

(** RefWriter.visit: (keep traversing, print). *)
Definition visit (c : Cid) (depth : Z) (rw : RefWriter) : (bool * bool) * RefWriter :=
  let atMaxDepth := (0 <=? MaxDepth env)%Z && (depth =? MaxDepth env)%Z in
  let overMaxDepth := (0 <=? MaxDepth env)%Z && (MaxDepth env <? depth)%Z in
  if overMaxDepth then ((false, false), rw)
  else if negb (Unique env) then ((negb atMaxDepth, true), rw)
  else
    let old := seen rw !! c in
    let pruned := match old with
                  | Some oldDepth => (MaxDepth env <? 0)%Z || (oldDepth <=? depth)%Z
                  | None => false
                  end in
    if pruned then ((false, false), rw)
    else ((negb atMaxDepth, negb (bool_decide (is_Some old))),
          mkRW (<[c := depth]> (seen rw)) (emitted rw) (writes rw)).

(** The string WriteEdge emits. *)
Definition edge_string (from to : Cid) (linkname : string) : string :=
  if decide (PrintFmt env = "") then Encode env to
  else ReplaceAll (ReplaceAll (ReplaceAll (PrintFmt env) "<src>" (Encode env from))
                     "<dst>" (Encode env to)) "<linkname>" linkname.

(** RefWriter.WriteEdge *)
Definition WriteEdge (from to : Cid) (linkname : string) : M RefWriter RefError unit := λ rw,
  let i := writes rw in
  if ref_ctx_done env i then (Err RefCtx, mkRW (seen rw) (emitted rw) (S i))
  else match Emit_err env i with
       | Some e => (Err (RefEmit e), mkRW (seen rw) (emitted rw) (S i))
       | None => (Ok (), mkRW (seen rw)
                    (emitted rw ++ [mkRef from to (edge_string from to linkname)]) (S i))
       end.

(** [if shouldWrite { ... }] of writeRefsRecursive. *)
Definition write_if (shouldWrite : bool) (from to : Cid) (linkname : string)
    : M RefWriter RefError unit :=
  if shouldWrite then WriteEdge from to linkname else mret ().

(** What writeRefsRecursive returns: the count and the error, with the state. *)
Definition refs_out : Type := (Z * option RefError) * RefWriter.

(** The loop over the links of [nc]; [rec] lists the node below a link. *)
Fixpoint refs_loop (rec : Cid → list Link → Z → RefWriter → refs_out)
    (nc : Cid) (depth : Z) (i : nat) (links : list Link) (count : Z) (rw : RefWriter)
    : refs_out :=
  match links with
  | [] => ((count, None), rw)
  | l :: links' =>
      let lc := link_Cid l in
      let '((goDeeper, shouldWrite), rw1) := visit lc (depth + 1) rw in
      if negb shouldWrite && negb goDeeper
      then refs_loop rec nc depth (S i) links' count rw1
      else match promise_Get env nc i lc with
           | Err e => ((count, Some (RefNotFound e)), rw1)
           | Ok nd =>
               match write_if shouldWrite nc lc (link_Name l) rw1 with
               | (Err e, rw2) => ((count, Some e), rw2)
               | (Ok _, rw2) =>
                   let count := if shouldWrite then (count + 1)%Z else count in
                   if goDeeper
                   then match rec lc nd (depth + 1)%Z rw2 with
                        | ((c, Some e), rw3) => (((count + c)%Z, Some e), rw3)
                        | ((c, None), rw3) =>
                            refs_loop rec nc depth (S i) links' (count + c)%Z rw3
                        end
                   else refs_loop rec nc depth (S i) links' count rw2
               end
           end
  end.

(** RefWriter.writeRefsRecursive, with a bound on the depth of the recursion. *)
Fixpoint writeRefsRecursive (fuel : nat) (nc : Cid) (links : list Link) (depth : Z)
    (rw : RefWriter) : refs_out :=
  match fuel with
  | 0 => ((0%Z, Some RefOutOfFuel), rw)
  | S fuel' => refs_loop (writeRefsRecursive fuel') nc depth 0 links 0 rw
  end.

(** RefWriter.WriteRefs *)
Definition WriteRefs (fuel : nat) (c : Cid) (rw : RefWriter) : refs_out :=
  match DAG_Get env c with
  | Err e => ((0%Z, Some (RefNotFound e)), rw)
  | Ok links => writeRefsRecursive fuel c links 0 rw
  end.

(** The loop of the command over its objects; an error is emitted and the loop
    goes on, unless emitting it fails too.  The first component is what was emitted
    as errors, with the failure of the emitter the command returned last. *)
Fixpoint write_objects (fuel : nat) (objs : list Cid) (rw : RefWriter) : list RefError * RefWriter :=
  match objs with
  | [] => ([], rw)
  | o :: objs' =>
      let '((_, e), rw1) := WriteRefs fuel o rw in
      match e with
      | None => write_objects fuel objs' rw1
      | Some e =>
          let rw2 := mkRW (seen rw1) (emitted rw1) (S (writes rw1)) in
          match Emit_err env (writes rw1) with
          | Some msg => ([RefEmit msg], rw2)
          | None => let '(es, rw3) := write_objects fuel objs' rw2 in (e :: es, rw3)
          end
      end
  end.

End refs.

Definition rw_init : RefWriter := mkRW ∅ [] 0.

(** The option handling of the command: the depth and the format it runs with. *)
Definition refs_options (recursive edges : bool) (maxDepth : Z) (format : string)
    : res string (Z * string) :=
  let maxDepth := if negb recursive then 1%Z else maxDepth in
  if edges then
    if decide (format = "<dst>") then Ok (maxDepth, "<src> -> <dst>")
    else Err "using format argument with edges is not allowed"
  else Ok (maxDepth, format).

(** ** Unique output *)

Definition printed (rw : RefWriter) : list Cid := ref_to <$> emitted rw.

(** Every CID printed has been recorded, and none twice. *)
Definition unique_inv (rw : RefWriter) : Prop :=
  NoDup (printed rw) ∧ ∀ c, c ∈ printed rw → is_Some (seen rw !! c).

Section unique.
Variable env : RefEnv.
Hypothesis Huniq : Unique env = true.

(** A visit that asks for printing has just recorded a CID not printed before. *)
Lemma visit_unique c d rw go w rw1 :
  visit env c d rw = ((go, w), rw1) → unique_inv rw →
  unique_inv rw1 ∧ (w = true → (c ∉ printed rw1) ∧ is_Some (seen rw1 !! c)).
Proof.
  unfold visit, unique_inv. rewrite Huniq. intros Hv [Hnd Hs].
  destruct (_ && (_ <? _)%Z); simplify_eq/=; [done|].
  destruct (seen rw !! c) as [od|] eqn:Hc; simpl in Hv.
  - destruct (_ || _); simplify_eq/=; [done|]. split; [|done].
    split; [done|]. intros x Hx. rewrite lookup_insert_is_Some'. auto.
  - simplify_eq/=. split; [split; [done|]|].
    + intros x Hx. rewrite lookup_insert_is_Some'. auto.
    + intros _. split; [|by rewrite lookup_insert_eq]. intros Hx%Hs.
      rewrite Hc in Hx. by destruct Hx.
Qed.

Lemma WriteEdge_unique from to ln rw r rw1 :
  WriteEdge env from to ln rw = (r, rw1) → unique_inv rw →
  to ∉ printed rw → is_Some (seen rw !! to) → unique_inv rw1.
Proof.
  unfold WriteEdge. intros Hw [Hnd Hs] Hto Hsee.
  destruct (ref_ctx_done _ _); [by simplify_eq/=|].
  destruct (Emit_err _ _); simplify_eq/=; [done|].
  split; unfold printed; simpl; rewrite fmap_app.
  - apply NoDup_app. split_and!; [done| |apply NoDup_singleton].
    intros x Hx ->%list_elem_of_singleton. done.
  - intros x [?| ->%list_elem_of_singleton]%elem_of_app; auto.
Qed.

Lemma write_if_unique w from to ln rw r rw1 :
  write_if env w from to ln rw = (r, rw1) → unique_inv rw →
  (w = true → (to ∉ printed rw) ∧ is_Some (seen rw !! to)) → unique_inv rw1.
Proof.
  unfold write_if. destruct w; [|by intros [= _ <-]].
  intros Hw Hi [? ?]; [done|]. by eapply WriteEdge_unique.
Qed.

Lemma refs_loop_unique rec nc depth :
  (∀ c nd d rw o rw', rec c nd d rw = (o, rw') → unique_inv rw → unique_inv rw') →
  ∀ links i count rw o rw',
  refs_loop env rec nc depth i links count rw = (o, rw') → unique_inv rw → unique_inv rw'.
Proof.
  intros Hrec links. induction links as [|l links IH]; intros i count rw o rw'; simpl.
  { by intros [= _ <-]. }
  destruct (visit _ _ _ _) as [[go w] rw1] eqn:Hv. intros Hl Hi.
  destruct (visit_unique _ _ _ _ _ _ Hv Hi) as [Hi1 Hw].
  destruct (negb w && negb go); [by eapply IH|].
  destruct (promise_Get _ _ _ _) as [nd|]; [|by simplify_eq].
  destruct (write_if _ _ _ _ _ _) as [[[]|e] rw2] eqn:Hwe;
    apply write_if_unique in Hwe; auto; [|by simplify_eq].
  destruct go; [|by eapply IH].
  destruct (rec _ _ _ _) as [[c [e|]] rw3] eqn:Hr; apply Hrec in Hr; auto; [by simplify_eq|].
  by eapply IH.
Qed.

Lemma writeRefsRecursive_unique fuel nc links depth rw o rw' :
  writeRefsRecursive env fuel nc links depth rw = (o, rw') → unique_inv rw → unique_inv rw'.
Proof.
  revert nc links depth rw o rw'. induction fuel as [|fuel IH]; intros *; simpl.
  - by intros [= _ <-].
  - apply refs_loop_unique, IH.
Qed.

Lemma write_objects_unique fuel objs rw :
  unique_inv rw → unique_inv (write_objects env fuel objs rw).2.
Proof.
  revert rw. induction objs as [|o objs IH]; intros rw Hi; simpl; [done|].
  destruct (WriteRefs env fuel o rw) as [[c e] rw1] eqn:Hw.
  assert (unique_inv rw1) as Hi1.
  { revert Hw. unfold WriteRefs. destruct (DAG_Get env o).
    - intros Hw. by eapply writeRefsRecursive_unique.
    - by intros [= _ _ <-]. }
  destruct e as [e|]; [|by apply IH]. destruct (Emit_err env (writes rw1)); [done|].
  set (rw2 := mkRW _ _ _). specialize (IH rw2 Hi1). by destruct (write_objects env fuel objs rw2).
Qed.

End unique.

(** With [--unique], whatever the objects, the depth limit, the DAG, the
    failures and the cancellation, no CID is printed twice. *)
Theorem refs_unique env fuel objs :
  Unique env = true → NoDup (printed (write_objects env fuel objs rw_init).2).
Proof.
  intros Hu. apply (write_objects_unique env Hu fuel objs rw_init).
  split; [constructor|]. intros c Hc. by apply not_elem_of_nil in Hc.
Qed.

(** ** What is printed *)

(** The DAG, and a run in which no node is missing and nothing is cancelled. *)
Definition link_cids (links : Cid → list Link) (c : Cid) : list Cid := link_Cid <$> links c.

Record refs_clean (env : RefEnv) (links : Cid → list Link) : Prop := {
  rc_root : ∀ c, DAG_Get env c = Ok (links c);
  rc_get : ∀ nc i c, promise_Get env nc i c = Ok (links c);
  rc_ctx : ∀ i, ref_ctx_done env i = false;
  rc_emit : ∀ i, Emit_err env i = None;
}.

(** A depth the limit allows; a negative limit allows all. *)
Definition lim (env : RefEnv) (d : Z) : Prop := (MaxDepth env < 0 ∨ d ≤ MaxDepth env)%Z.

(** CIDs at depth [n >= 1] below a root, within the limit. *)
Definition listed (env : RefEnv) (links : Cid → list Link) (o c : Cid) : Prop :=
  ∃ n, 1 ≤ n ∧ lim env (Z.of_nat n) ∧ reach_in (link_cids links) n o c.

Section exact.
Variable env : RefEnv.
Variable links : Cid → list Link.
Hypothesis Hclean : refs_clean env links.

Abbreviation lim := (Refs.lim env).
Abbreviation edge := (Dag.edge (link_cids links)).
Abbreviation reach_in := (Dag.reach_in (link_cids links)).

Lemma write_if_clean w from to ln rw :
  ∃ rw', write_if env w from to ln rw = (Ok (), rw') ∧ seen rw' = seen rw ∧
    printed rw' = printed rw ++ (if w then [to] else []).
Proof.
  destruct Hclean as [_ _ Hctx Hemit]. unfold write_if, WriteEdge, printed.
  destruct w; [|exists rw; by rewrite app_nil_r]. rewrite Hctx, Hemit. eexists.
  split_and!; [done|done|]. simpl. by rewrite fmap_app.
Qed.

Lemma lim_dec d : {lim d} + {¬ lim d}.
Proof.
  unfold Refs.lim. destruct (Z_lt_dec (MaxDepth env) 0); [left; lia|].
  destruct (Z_le_dec d (MaxDepth env)); [left; lia|right; lia].
Qed.

(** *** The listing returns *)

Section rank.
Variable rank : Cid → nat.
Hypothesis Hrank : ∀ a b, edge a b → rank b < rank a.

Lemma refs_loop_returns rec nc depth n :
  (∀ c d rw, rank c < n → (rec c (links c) d rw).1.2 = None) →
  ∀ ls i count rw, Forall (λ l, rank (link_Cid l) < n) ls →
  (refs_loop env rec nc depth i ls count rw).1.2 = None.
Proof.
  intros Hrec ls. induction ls as [|l ls IH]; intros i count rw Hf; simpl; [done|].
  apply Forall_cons in Hf as [Hl Hf].
  destruct (visit _ _ _ _) as [[go w] rw1]. destruct (negb w && negb go); [auto|].
  rewrite (rc_get _ _ Hclean).
  destruct (write_if_clean w nc (link_Cid l) (link_Name l) rw1) as (rw2 & -> & _).
  destruct go; [|auto]. specialize (Hrec (link_Cid l) (depth + 1)%Z rw2 Hl).
  destruct (rec _ _ _ _) as [[c e] rw3]. simpl in Hrec. subst e. auto.
Qed.

Lemma edge_link nc l : l ∈ links nc → edge nc (link_Cid l).
Proof. intros Hl. apply list_elem_of_fmap. eauto. Qed.

Lemma writeRefsRecursive_returns fuel nc depth rw :
  rank nc < fuel → (writeRefsRecursive env fuel nc (links nc) depth rw).1.2 = None.
Proof.
  revert nc depth rw. induction fuel as [|fuel IH]; intros nc depth rw Hf; [lia|]. simpl.
  apply (refs_loop_returns _ _ _ fuel); [auto|]. apply Forall_forall. intros l Hl.
  apply edge_link, Hrank in Hl. lia.
Qed.

End rank.

(** *** With repetitions *)

Section repeated.
Hypothesis Hrep : Unique env = false.

Lemma visit_repeated c d rw :
  (¬ lim d ∧ visit env c d rw = ((false, false), rw)) ∨
  (lim d ∧ ∃ go, visit env c d rw = ((go, true), rw) ∧ (go = true ↔ lim (d + 1))).
Proof.
  unfold visit, Refs.lim. rewrite Hrep. simpl.
  destruct (Z.leb_spec 0 (MaxDepth env)); simpl;
    [|right; split; [lia|]; exists true; split; [done|]; split; [lia|done]].
  destruct (Z.ltb_spec (MaxDepth env) d); [left; split; [lia|done]|].
  right. split; [lia|]. destruct (Z.eqb_spec d (MaxDepth env)); eexists; (split; [done|]);
    simpl; split; intros; lia || done.
Qed.

(** What the listing of [nc] at depth [d] adds. *)
Definition below (d : Z) (nc x : Cid) : Prop :=
  ∃ n, lim (d + Z.of_nat n) ∧ reach_in n nc x.

Lemma refs_loop_repeated rec nc d :
  (∀ c rw o rw', rec c (links c) (d + 1)%Z rw = ((o, None), rw') → lim (d + 1 + 1) →
     ∀ x, x ∈ printed rw' ↔ x ∈ printed rw ∨ ∃ y, edge c y ∧ below (d + 1 + 1) y x) →
  ∀ ls i count rw o rw',
  refs_loop env rec nc d i ls count rw = ((o, None), rw') →
  ∀ x, x ∈ printed rw' ↔ x ∈ printed rw ∨ ∃ l, l ∈ ls ∧ below (d + 1) (link_Cid l) x.
Proof.
  intros Hrec ls. induction ls as [|l ls IH]; intros i count rw o rw'; simpl.
  { intros [= _ <-] x. split; [auto|]. intros [?|(l & Hl & _)]; [done|].
    by apply not_elem_of_nil in Hl. }
  assert (∀ z, ¬ lim (d + 1) → ∀ y, ¬ below (d + 1) y z) as Hno.
  { intros z Hl y (n & Hn & _). apply Hl. unfold Refs.lim in *. lia. }
  destruct (visit_repeated (link_Cid l) (d + 1) rw) as [[Hl ->]|(Hl & go & -> & Hgo)];
    cbn [negb andb].
  { intros H x. rewrite (IH _ _ _ _ _ H x). setoid_rewrite elem_of_cons. naive_solver. }
  rewrite (rc_get _ _ Hclean).
  destruct (write_if_clean true nc (link_Cid l) (link_Name l) rw) as (rw2 & -> & _ & Hp2).
  assert (∀ z, below (d + 1) (link_Cid l) z ↔
    z = link_Cid l ∨ lim (d + 1 + 1) ∧ ∃ y, edge (link_Cid l) y ∧ below (d + 1 + 1) y z) as Hb.
  { intros z. split.
    - intros (n & Hn & Hr). destruct n as [|n]; [left; by inversion Hr|right].
      inversion Hr; subst. split; [unfold Refs.lim in *; lia|]. eexists; split; [done|].
      exists n. split; [unfold Refs.lim in *; lia|done].
    - intros [->|(_ & y & Hy & n & Hn & Hr)]; [exists 0; split; [|constructor]|].
      + unfold Refs.lim in *. lia.
      + exists (S n). split; [unfold Refs.lim in *; lia|by econstructor]. }
  destruct go.
  - destruct (rec _ _ _ _) as [[c [e|]] rw3] eqn:Hr; [done|].
    pose proof (proj1 Hgo eq_refl) as Hgo'.
    intros H x. rewrite (IH _ _ _ _ _ H x), (Hrec _ _ _ _ Hr Hgo' x), Hp2, elem_of_app.
    rewrite list_elem_of_singleton. setoid_rewrite elem_of_cons. specialize (Hb x). naive_solver.
  - assert (¬ lim (d + 1 + 1)) as Hgo' by (intros ?%Hgo; done).
    intros H x. rewrite (IH _ _ _ _ _ H x), Hp2, elem_of_app.
    rewrite list_elem_of_singleton. setoid_rewrite elem_of_cons. specialize (Hb x). naive_solver.
Qed.

Lemma writeRefsRecursive_repeated fuel nc d rw o rw' :
  writeRefsRecursive env fuel nc (links nc) d rw = ((o, None), rw') →
  ∀ x, x ∈ printed rw' ↔ x ∈ printed rw ∨ ∃ y, edge nc y ∧ below (d + 1) y x.
Proof.
  revert nc d rw o rw'. induction fuel as [|fuel IH]; intros nc d rw o rw'; simpl; [done|].
  intros H x. erewrite (refs_loop_repeated _ _ _ _ _ _ _ _ _ _ H).
  - unfold Dag.edge, link_cids. setoid_rewrite list_elem_of_fmap. naive_solver.
  Unshelve. intros c rw1 o1 rw2 H1 _ y. apply (IH _ _ _ _ _ H1).
Qed.

End repeated.

(** *** Without repetitions *)

Section once.
Hypothesis Hone : Unique env = true.

(** [y] has been met at depth [d] or above (at any depth without a limit). *)
Definition met (s : gmap Cid Z) (y : Cid) (d : Z) : Prop :=
  ∃ v, s !! y = Some v ∧ (MaxDepth env < 0 ∨ v ≤ d)%Z.

(** The links of a node met at depth [d] have been met one level below. *)
Definition explored (s : gmap Cid Z) (x : Cid) (d : Z) : Prop :=
  ∀ y, edge x y → lim (d + 1) → met s y (d + 1).

(** Every node met is explored, but for those in [S], which are in progress. *)
Definition settled (S : gset Cid) (s : gmap Cid Z) : Prop :=
  ∀ x d, s !! x = Some d → x ∉ S → explored s x d.

(** From [s] to [s'], recorded depths only decrease, and new ones are at least [d]. *)
Definition grows (d : Z) (s s' : gmap Cid Z) : Prop :=
  (∀ x v, s !! x = Some v → ∃ v', s' !! x = Some v' ∧ (v' ≤ v)%Z) ∧
  (∀ x v, s' !! x = Some v → s !! x = Some v ∨ (d ≤ v)%Z).

(** Records are depths of CIDs below a root of [roots] within the limit, and the
    CIDs recorded are the ones printed. *)
Definition sound (roots : list Cid) (rw : RefWriter) : Prop :=
  (∀ x v, seen rw !! x = Some v →
     (0 < v)%Z ∧ lim v ∧ ∃ r, r ∈ roots ∧ reach_in (Z.to_nat v) r x) ∧
  (∀ x, x ∈ printed rw ↔ is_Some (seen rw !! x)).

Lemma grows_refl d s : grows d s s.
Proof. split; [|by left]. intros x v ?. exists v. split; [done|lia]. Qed.

Lemma grows_trans d d' s1 s2 s3 : (d ≤ d')%Z → grows d s1 s2 → grows d' s2 s3 → grows d s1 s3.
Proof.
  intros Hd [H1 H1'] [H2 H2']. split.
  - intros x v (v1 & Hv1 & ?)%H1. destruct (H2 _ _ Hv1) as (v2 & ? & ?). exists v2. split; [done|lia].
  - intros x v [Hv|?]%H2'; [|right; lia]. apply H1' in Hv. destruct Hv; [by left|by right].
Qed.

Lemma met_grows d s s' y e : grows d s s' → met s y e → met s' y e.
Proof. intros [H _] (v & Hv & ?). destruct (H _ _ Hv) as (v' & ? & ?). exists v'. split; [done|lia]. Qed.

Lemma explored_grows d s s' x e : grows d s s' → explored s x e → explored s' x e.
Proof. intros Hg He y Hy Hl. eapply met_grows; [done|]. by apply He. Qed.

Lemma visit_once c d rw :
  (¬ lim d ∧ visit env c d rw = ((false, false), rw)) ∨
  (lim d ∧ met (seen rw) c d ∧ visit env c d rw = ((false, false), rw)) ∨
  (lim d ∧ (∀ v, seen rw !! c = Some v → (d < v)%Z) ∧ ∃ go w,
     visit env c d rw = ((go, w), mkRW (<[c := d]> (seen rw)) (emitted rw) (writes rw)) ∧
     (go = false → ¬ lim (d + 1)) ∧ (w = false → go = false → is_Some (seen rw !! c)) ∧
     (w = true ↔ seen rw !! c = None)).
Proof.
  unfold visit, Refs.lim, met. rewrite Hone. cbn [negb].
  destruct (Z.leb_spec 0 (MaxDepth env)) as [Hm|Hm]; cbn [andb].
  - destruct (Z.ltb_spec (MaxDepth env) d); [left; split; [lia|done]|right].
    destruct (seen rw !! c) as [v|] eqn:Hv.
    + destruct (Z.ltb_spec (MaxDepth env) 0); [lia|]. cbn [orb].
      destruct (Z.leb_spec v d); [left; split_and!; [lia| |done]; exists v; split; [done|lia]|].
      right. split_and!; [lia|by intros ? [= <-]|]. eexists _, _. split; [done|].
      rewrite bool_decide_eq_true_2 by eauto. split_and!; [|eauto|by split].
      intros He%negb_false_iff%Z.eqb_eq. lia.
    + right. split_and!; [lia|done|]. eexists _, _. split; [done|].
      rewrite bool_decide_eq_false_2 by (by intros []). split_and!; [|done|done].
      intros He%negb_false_iff%Z.eqb_eq. lia.
  - right. destruct (seen rw !! c) as [v|] eqn:Hv.
    + destruct (Z.ltb_spec (MaxDepth env) 0); [|lia]. cbn [orb].
      left. split_and!; [lia| |done]. exists v. split; [done|lia].
    + right. split_and!; [lia|done|]. eexists _, _. split; [done|].
      rewrite bool_decide_eq_false_2 by (by intros []). done.
Qed.

(** The state right after recording [c] at depth [d], and printing it if new. *)
Lemma record_step roots S c d rw rw2 :
  settled S (seen rw) → sound roots rw → lim d → (0 < d)%Z →
  (∃ r, r ∈ roots ∧ reach_in (Z.to_nat d) r c) →
  (∀ v, seen rw !! c = Some v → (d < v)%Z) →
  seen rw2 = <[c := d]> (seen rw) →
  (∀ x, x ∈ printed rw2 ↔ x ∈ printed rw ∨ x = c ∧ seen rw !! c = None) →
  grows d (seen rw) (seen rw2) ∧ settled ({[c]} ∪ S) (seen rw2) ∧ sound roots rw2.
Proof.
  intros Hset [Hs Hp] Hl Hd Hr Hv Hrw2 Hp2.
  assert (grows d (seen rw) (seen rw2)) as Hg.
  { rewrite Hrw2. split; intros x v; rewrite lookup_insert; case_decide; subst.
    - intros ?%Hv. exists d. split; [done|lia].
    - intros ?. exists v. split; [done|lia].
    - intros [= ->]. right; lia.
    - by left. }
  split_and!; [done| |split].
  - intros x v Hx Hn. rewrite Hrw2, lookup_insert_ne in Hx by set_solver.
    eapply explored_grows; [exact Hg|]. apply Hset; [done|set_solver].
  - intros x v. rewrite Hrw2, lookup_insert. case_decide; [|apply Hs]. subst x. by intros [= <-].
  - intros x. rewrite Hp2, Hp, Hrw2, lookup_insert_is_Some.
    destruct (decide (x = c)) as [->|]; [|naive_solver].
    destruct (seen rw !! c) eqn:Hc; naive_solver.
Qed.

Lemma settled_remove S c d s :
  settled ({[c]} ∪ S) s → (∀ v, s !! c = Some v → v = d) → explored s c d → settled S s.
Proof.
  intros Hs Hc He x v Hx HS. destruct (decide (x = c)) as [->|Hn].
  - by rewrite (Hc v Hx).
  - apply Hs; [done|set_solver].
Qed.

(** A node recorded at depth [d] and explored below keeps that record. *)
Lemma settled_child S c d s s' :
  s !! c = Some d → grows (d + 1) s s' → settled ({[c]} ∪ S) s' → explored s' c d → settled S s'.
Proof.
  intros Hc [Hg Hg'] Hs He. eapply settled_remove; [exact Hs| |exact He]. intros v Hv.
  destruct (Hg c d Hc) as (v' & Hv' & ?). rewrite Hv in Hv'. injection Hv' as <-.
  apply Hg' in Hv as [Hv|?]; [congruence|lia].
Qed.

(** A link that was recorded stays met. *)
Lemma met_recorded c d s s1 s2 : s1 = <[c := d]> s → grows d s1 s2 → met s2 c d.
Proof.
  intros -> Hg. eapply met_grows; [exact Hg|]. exists d. rewrite lookup_insert_eq. split; [done|lia].
Qed.

(** What a listing that returns without an error guarantees. *)
Definition once_post (roots : list Cid) (nc : Cid) (d : Z)
    (rec : Cid → list Link → Z → RefWriter → refs_out) : Prop :=
  ∀ S rw o rw', rec nc (links nc) d rw = ((o, None), rw') →
  (0 ≤ d)%Z → (∃ r, r ∈ roots ∧ reach_in (Z.to_nat d) r nc) →
  settled S (seen rw) → sound roots rw →
  grows (d + 1) (seen rw) (seen rw') ∧ settled S (seen rw') ∧ sound roots rw' ∧
  explored (seen rw') nc d.

Lemma refs_loop_once roots rec nc d :
  (∀ c, once_post roots c (d + 1) rec) → (0 ≤ d)%Z →
  (∃ r, r ∈ roots ∧ reach_in (Z.to_nat d) r nc) →
  ∀ ls i count S rw o rw',
  Forall (λ l, edge nc (link_Cid l)) ls →
  refs_loop env rec nc d i ls count rw = ((o, None), rw') →
  settled S (seen rw) → sound roots rw →
  grows (d + 1) (seen rw) (seen rw') ∧ settled S (seen rw') ∧ sound roots rw' ∧
  (lim (d + 1) → Forall (λ l, met (seen rw') (link_Cid l) (d + 1)) ls).
Proof.
  intros Hrec Hd (r & Hr & Hrn) ls.
  induction ls as [|l ls IH]; intros i count S rw o rw' Hf; simpl.
  { intros [= _ <-] Hset Hs. split_and!; [apply grows_refl|done..]. }
  apply Forall_cons in Hf as [Hl Hf].
  assert (∃ r, r ∈ roots ∧ reach_in (Z.to_nat (d + 1)) r (link_Cid l)) as Hrl.
  { exists r. split; [done|]. rewrite Z2Nat.inj_add by lia.
    replace (Z.to_nat d + Z.to_nat 1) with (Datatypes.S (Z.to_nat d)) by lia.
    by eapply nsteps_r. }
  destruct (visit_once (link_Cid l) (d + 1) rw) as
    [[Hlim ->]|[(Hlim & Hmet & ->)|(Hlim & Hold & go & w & -> & Hgo & Hw & Hwn)]]; cbn [negb andb].
  - intros H Hset Hs. destruct (IH _ _ _ _ _ _ Hf H Hset Hs) as (? & ? & ? & ?).
    split_and!; [done..|]. intros. by destruct Hlim.
  - intros H Hset Hs. destruct (IH _ _ _ _ _ _ Hf H Hset Hs) as (? & ? & ? & ?).
    split_and!; [done..|]. intros Hl1. constructor; [by eapply met_grows|auto].
  - intros H Hset Hs.
    set (rw1 := mkRW (<[link_Cid l := (d + 1)%Z]> (seen rw)) (emitted rw) (writes rw)) in H.
    rewrite (rc_get _ _ Hclean) in H.
    destruct (write_if_clean w nc (link_Cid l) (link_Name l) rw1) as (rw2 & Hwr & Hs2 & Hp2).
    destruct (record_step roots S (link_Cid l) (d + 1) rw rw2) as (Hg2 & Hset2 & Hsd2);
      try done; [lia| |].
    { intros x. rewrite Hp2, elem_of_app. unfold rw1, printed. simpl. destruct w.
      - rewrite list_elem_of_singleton. naive_solver.
      - destruct (seen rw !! link_Cid l); [|naive_solver]. set_solver. }
    assert (∀ rw3 S', settled S' (seen rw3) → sound roots rw3 →
        grows (d + 1) (seen rw2) (seen rw3) →
        ∀ i count, refs_loop env rec nc d i ls count rw3 = ((o, None), rw') →
        grows (d + 1) (seen rw) (seen rw') ∧ settled S' (seen rw') ∧ sound roots rw' ∧
        (lim (d + 1) → Forall (λ l, met (seen rw') (link_Cid l) (d + 1)) (l :: ls))) as Hrest.
    { intros rw3 S' Hs3 Hsd3 Hg3 i' c' H3.
      destruct (IH _ _ _ _ _ _ Hf H3 Hs3 Hsd3) as (Hg4 & ? & ? & Hm4).
      assert (grows (d + 1) (seen rw2) (seen rw')) as Hg5 by (by eapply grows_trans).
      split_and!; [by eapply grows_trans|done..|]. intros Hl1. constructor; [|auto].
      exact (met_recorded _ _ (seen rw) (seen rw2) _ Hs2 Hg5). }
    destruct go; cbn [negb] in H.
    + rewrite andb_false_r, Hwr in H.
      destruct (rec _ _ _ _) as [[c [e|]] rw3] eqn:Hr3; [done|].
      destruct (Hrec _ ({[link_Cid l]} ∪ S) _ _ _ Hr3)
        as (Hg3 & Hset3 & Hsd3 & Hex3); try done; [lia|].
      eapply Hrest; [|exact Hsd3| |exact H].
      * eapply settled_child; [|exact Hg3|exact Hset3|exact Hex3]. rewrite Hs2. apply lookup_insert_eq.
      * eapply (grows_trans _ (d + 1 + 1)); [|apply grows_refl|exact Hg3]. lia.
    + assert (settled S (seen rw2)) as Hset2'.
      { eapply settled_remove; [exact Hset2| |].
        - intros v. rewrite Hs2. unfold rw1. simpl. rewrite lookup_insert_eq. by intros [= <-].
        - intros y _ Hy. by destruct Hgo. }
      destruct w; cbn [negb andb] in H.
      * rewrite Hwr in H. eapply Hrest; [done|done|apply grows_refl|exact H].
      * unfold write_if in Hwr. injection Hwr as <-.
        eapply Hrest; [done|done|apply grows_refl|exact H].
Qed.

Lemma writeRefsRecursive_once roots fuel nc d :
  once_post roots nc d (writeRefsRecursive env fuel).
Proof.
  revert nc d. induction fuel as [|fuel IH]; intros nc d S rw o rw'; simpl; [done|].
  intros H Hd Hr Hset Hs.
  destruct (refs_loop_once roots (writeRefsRecursive env fuel) nc d (λ c, IH c _) Hd Hr
              (links nc) 0 0 S rw o rw') as (? & ? & ? & Hm); try done.
  { apply Forall_forall. intros l Hl. apply list_elem_of_fmap. eauto. }
  split_and!; [done..|]. intros y (l & -> & Hl)%list_elem_of_fmap Hlim.
  specialize (Hm Hlim). rewrite Forall_forall in Hm. auto.
Qed.

(** In a settled state everything below an explored root has been met. *)
Lemma settled_met s o n x :
  settled ∅ s → explored s o 0 → 1 ≤ n → reach_in n o x → lim (Z.of_nat n) → met s x (Z.of_nat n).
Proof.
  intros Hs Ho. revert x. induction n as [|n IH]; intros x Hn Hr Hl; [lia|].
  apply nsteps_inv_r in Hr as (y & Hy & Hyx). replace (Z.of_nat (S n)) with (Z.of_nat n + 1)%Z in * by lia.
  destruct n as [|n]; [inversion Hy; subst; by apply Ho|].
  destruct (IH y) as (v & Hv & Hvn); [lia|done|unfold Refs.lim in *; lia|].
  destruct (Hs y v Hv ltac:(set_solver) x Hyx) as (w & Hw & ?).
  - unfold Refs.lim in *. lia.
  - exists w. split; [done|lia].
Qed.

Lemma listed_seen roots rw :
  settled ∅ (seen rw) → sound roots rw → (∀ o, o ∈ roots → explored (seen rw) o 0) →
  ∀ c, c ∈ printed rw ↔ ∃ o, o ∈ roots ∧ listed env links o c.
Proof.
  intros Hset [Hs Hp] Hex c. rewrite Hp. split.
  - intros [v Hv]. destruct (Hs c v Hv) as (Hv0 & Hl & o & Ho & Hr). exists o. split; [done|].
    exists (Z.to_nat v). rewrite Z2Nat.id by lia. split_and!; [lia|done..].
  - intros (o & Ho & n & Hn & Hl & Hr).
    destruct (settled_met (seen rw) o n c) as (v & -> & _); eauto.
Qed.

Section objects_once.
Variable rank : Cid → nat.
Hypothesis Hrank : ∀ a b, edge a b → rank b < rank a.

Lemma write_objects_once roots fuel objs rw :
  Forall (λ o, rank o < fuel) objs → objs ⊆ roots → settled ∅ (seen rw) → sound roots rw →
  ∃ rw', write_objects env fuel objs rw = ([], rw') ∧ grows 1 (seen rw) (seen rw') ∧
    settled ∅ (seen rw') ∧ sound roots rw' ∧ ∀ o, o ∈ objs → explored (seen rw') o 0.
Proof.
  revert rw. induction objs as [|o objs IH]; intros rw Hf Hsub Hset Hs; simpl.
  { exists rw. split_and!; [done|apply grows_refl|done..|]. intros o Ho. by apply not_elem_of_nil in Ho. }
  apply Forall_cons in Hf as [Ho Hf]. unfold WriteRefs. rewrite (rc_root _ _ Hclean).
  pose proof (writeRefsRecursive_returns rank Hrank fuel o 0 rw Ho) as He.
  destruct (writeRefsRecursive env fuel o (links o) 0 rw) as [[n e] rw1] eqn:Hw.
  simpl in He. subst e.
  destruct (writeRefsRecursive_once roots fuel o 0 ∅ rw n rw1) as (Hg1 & ? & ? & Hex); try done.
  { exists o. split; [apply Hsub; by left|constructor]. }
  destruct (IH rw1) as (rw2 & -> & Hg2 & ? & ? & Hex2); try done; [set_solver|].
  exists rw2. split_and!; [done|by eapply grows_trans|done..|].
  intros x [->|Hx]%elem_of_cons; [by eapply explored_grows|auto].
Qed.

End objects_once.

End once.

Section objects_repeated.
Variable rank : Cid → nat.
Hypothesis Hrank : ∀ a b, edge a b → rank b < rank a.

Lemma listed_below o c : listed env links o c ↔ ∃ y, edge o y ∧ below (0 + 1) y c.
Proof.
  split.
  - intros (n & Hn & Hl & Hr). destruct n as [|n]; [lia|]. inversion Hr; subst.
    eexists; split; [done|]. exists n. split; [unfold Refs.lim in *; lia|done].
  - intros (y & Hy & n & Hl & Hr). exists (S n).
    split_and!; [lia|unfold Refs.lim in *; lia|by econstructor].
Qed.

Lemma write_objects_repeated fuel objs rw :
  Unique env = false → Forall (λ o, rank o < fuel) objs →
  ∃ rw', write_objects env fuel objs rw = ([], rw') ∧
    ∀ c, c ∈ printed rw' ↔ c ∈ printed rw ∨ ∃ o, o ∈ objs ∧ listed env links o c.
Proof.
  intros Hrep. revert rw. induction objs as [|o objs IH]; intros rw Hf; simpl.
  { exists rw. split; [done|]. intros c. split; [by left|]. intros [?|(o & Ho & _)]; [done|].
    by apply not_elem_of_nil in Ho. }
  apply Forall_cons in Hf as [Ho Hf]. unfold WriteRefs. rewrite (rc_root _ _ Hclean).
  pose proof (writeRefsRecursive_returns rank Hrank fuel o 0 rw Ho) as He.
  destruct (writeRefsRecursive env fuel o (links o) 0 rw) as [[n e] rw1] eqn:Hw.
  simpl in He. subst e. destruct (IH rw1 Hf) as (rw2 & -> & Hp). exists rw2. split; [done|].
  intros c. rewrite Hp, (writeRefsRecursive_repeated Hrep _ _ _ _ _ _ Hw c), <- listed_below.
  setoid_rewrite elem_of_cons. naive_solver.
Qed.

End objects_repeated.

End exact.

(** C9.  On an acyclic DAG whose nodes can all be fetched, [ipfs refs] returns
    without an error and prints exactly the CIDs at depth 1 up to the limit below
    one of its objects, whether or not it prunes with [--unique]: remembering the
    smallest depth at which a CID was met loses nothing.  The recursion is as
    deep as the DAG is high. *)
Theorem refs_exact env links rank fuel objs :
  refs_clean env links →
  (∀ a b, Dag.edge (link_cids links) a b → rank b < rank a) →
  Forall (λ o, rank o < fuel) objs →
  (write_objects env fuel objs rw_init).1 = [] ∧
  ∀ c, c ∈ printed (write_objects env fuel objs rw_init).2 ↔
       ∃ o, o ∈ objs ∧ listed env links o c.
Proof.
  intros Hc Hr Hf. destruct (Unique env) eqn:Hu.
  - destruct (write_objects_once env links Hc Hu rank Hr objs fuel objs rw_init Hf)
      as (rw & -> & _ & Hset & Hs & Hex).
    + done.
    + by intros x d Hx.
    + split; [by intros x v Hx|]. intros x. split; [by intros ?%not_elem_of_nil|by intros []].
    + split; [done|]. by apply listed_seen.
  - destruct (write_objects_repeated env links Hc rank Hr fuel objs rw_init Hu Hf)
      as (rw & -> & Hp). split; [done|]. intros c. rewrite Hp.
    split; [|by right]. by intros [?%not_elem_of_nil|?].
Qed.

(** *** A concrete DAG *)

Module RefsExample.

Definition node (name : string) : Cid := CidV1 DagProtobuf (mkMultihash mh_ID name).

(** [c] is met first at depth 2, below [b], then at depth 1; [d] is only within
    depth 2 through the second. *)
Definition links (c : Cid) : list Link :=
  if decide (c = node "a") then [mkLink "b" (node "b"); mkLink "c" (node "c")]
  else if decide (c = node "b") then [mkLink "c" (node "c")]
  else if decide (c = node "c") then [mkLink "d" (node "d")]
  else [].

Definition rank (c : Cid) : nat :=
  if decide (c = node "a") then 3 else if decide (c = node "b") then 2
  else if decide (c = node "c") then 1 else 0.

Definition env : RefEnv := {|
  Unique := true; MaxDepth := 2; PrintFmt := "<dst>"; Encode := λ c, mh_digest (cid_Hash c);
  DAG_Get := λ c, Ok (links c); promise_Get := λ _ _ c, Ok (links c);
  ref_ctx_done := λ _, false; Emit_err := λ _, None |}.

Lemma refs_env_clean : refs_clean env links.
Proof. by split. Qed.

Lemma refs_rank_edge a b : Dag.edge (link_cids links) a b → rank b < rank a.
Proof.
  unfold Dag.edge, link_cids, links, rank.
  intros (l & -> & Hl)%list_elem_of_fmap. revert Hl.
  repeat (case_decide; subst; simpl); rewrite ?elem_of_cons, ?elem_of_nil;
    intros; destruct_or?; subst; simpl in *; try done; try lia; naive_solver.
Qed.

End RefsExample.

Lemma refs_exact_witness :
  RefsExample.node "d" ∈ printed (write_objects RefsExample.env 4 [RefsExample.node "a"] rw_init).2.
Proof.
  apply (refs_exact RefsExample.env RefsExample.links RefsExample.rank).
  - apply RefsExample.refs_env_clean.
  - apply RefsExample.refs_rank_edge.
  - repeat constructor.
  - exists (RefsExample.node "a"). split; [by left|]. exists 2.
    split_and!; [lia|right; simpl; lia|].
    apply (nsteps_l _ 1 _ (RefsExample.node "c")); [|apply nsteps_once];
      apply (bool_decide_unpack _); by vm_compute.
Defined.

Lemma refs_unique_witness :
  NoDup (printed (write_objects RefsExample.env 4 [RefsExample.node "a"] rw_init).2).
Proof. by apply refs_unique. Defined.
