(* ===== verification/PinApi.v ===== *)
(** * The pin API (src/core/coreapi/pin.go)

    [Verify] checks that everything below each recursive pin can be read, with a
    table of the statuses already computed; [pinLsAll] lists the pins by type,
    walking the DAG below the recursive pins for the indirect ones; [Add], [Rm],
    [Update] and [IsPinned] drive the pinner.  The pinner itself
    (go-ipfs-pinner) is an interface: a class of operations with the laws its
    documentation states. *)

From Stdlib Require Import ZArith.
From S2P Require Import Prelude Cid Dag GC.
From stdpp Require Import base gmap sets list strings relations.

(** ** Verify *)

Record PinStatus := mkPinStatus {
  ps_cid : Cid;
  ps_ok : bool;
  badNodes : list (Cid * DagError);
}.

Section verify.
Variable getLinks : Cid → res DagError (list Cid).

(** The loop over the links: a bad child makes the status bad and its bad nodes
    are appended. *)
Fixpoint check_links (rec : Cid → M (gmap Cid PinStatus) unit PinStatus)
    (links : list Cid) (status : PinStatus) : M (gmap Cid PinStatus) unit PinStatus :=
  match links with
  | [] => mret status
  | l :: links' =>
      r ← rec l;
      check_links rec links'
        (if ps_ok r then status
         else mkPinStatus (ps_cid status) false (badNodes status ++ badNodes r))
  end.

(** The closure [checkPin]; [visited] is the state, [Err ()] exhausted fuel. *)
Fixpoint checkPin (fuel : nat) (root : Cid) : M (gmap Cid PinStatus) unit PinStatus := λ visited,
  match visited !! root with
  | Some status => (Ok status, visited)
  | None =>
      match fuel with
      | 0 => (Err (), visited)
      | S fuel' =>
          match getLinks root with
          | Err e =>
              let status := mkPinStatus root false [(root, e)] in
              (Ok status, <[root := status]> visited)
          | Ok links =>
              match check_links (checkPin fuel') links (mkPinStatus root true []) visited with
              | (Err e, v) => (Err e, v)
              | (Ok status, v) => (Ok status, <[root := status]> v)
              end
          end
      end
  end.

Fixpoint verify_pins (fuel : nat) (recPins : list Cid) : M (gmap Cid PinStatus) unit (list PinStatus) :=
  match recPins with
  | [] => mret []
  | c :: recPins' => st ← checkPin fuel c; sts ← verify_pins fuel recPins'; mret (st :: sts)
  end.

(** The links that are followed. *)
Definition follow (c : Cid) : list Cid := match getLinks c with Ok l => l | Err _ => [] end.
Abbreviation reach := (Dag.reach follow).

(** What a status has to say about its pin. *)
Definition status_spec (c : Cid) (st : PinStatus) : Prop :=
  ps_cid st = c ∧ (ps_ok st = true ↔ badNodes st = []) ∧
  ∀ x e, (x, e) ∈ badNodes st ↔ reach c x ∧ getLinks x = Err e.

Section acyclic.
Variable rank : Cid → nat.
Hypothesis Hrank : ∀ a b, Dag.edge follow a b → rank b < rank a.

(** The status accumulated over a prefix of the links. *)
Definition partial_spec (done : list Cid) (st : PinStatus) : Prop :=
  (ps_ok st = true ↔ badNodes st = []) ∧
  ∀ x e, (x, e) ∈ badNodes st ↔
    ∃ d, d ∈ done ∧ reach d x ∧ getLinks x = Err e.

Lemma partial_step done l st r :
  partial_spec done st → status_spec l r →
  partial_spec (done ++ [l])
    (if ps_ok r then st else mkPinStatus (ps_cid st) false (badNodes st ++ badNodes r)).
Proof.
  intros [Hok Hbad] (_ & Hrok & Hrbad). destruct (ps_ok r) eqn:Hr.
  - split; [done|]. intros x e. rewrite Hbad. setoid_rewrite elem_of_app.
    setoid_rewrite list_elem_of_singleton. split; [naive_solver|].
    intros (d & [?| ->] & Hx); [eauto|]. apply Hrbad in Hx.
    rewrite (proj1 Hrok eq_refl) in Hx. by apply not_elem_of_nil in Hx.
  - split; simpl.
    + split; [done|]. intros [_ Hn]%app_eq_nil. apply Hrok in Hn. done.
    + intros x e. rewrite elem_of_app, Hbad, Hrbad. setoid_rewrite elem_of_app.
      setoid_rewrite list_elem_of_singleton. naive_solver.
Qed.

Lemma check_links_spec rec n links done st v :
  (∀ c v, rank c < n → map_Forall status_spec v →
     ∃ r v', rec c v = (Ok r, v') ∧ status_spec c r ∧ map_Forall status_spec v') →
  Forall (λ l, rank l < n) links → partial_spec done st → map_Forall status_spec v →
  ∃ st' v', check_links rec links st v = (Ok st', v') ∧ ps_cid st' = ps_cid st ∧
    partial_spec (done ++ links) st' ∧ map_Forall status_spec v'.
Proof.
  intros Hrec. revert done st v. induction links as [|l links IH]; intros done st v Hf Hp Hv; simpl.
  { exists st, v. by rewrite app_nil_r. }
  apply Forall_cons in Hf as [Hl Hf].
  destruct (Hrec l v Hl Hv) as (r & v1 & Hr & Hs & Hv1).
  rewrite bind_unfold, Hr. cbv beta iota.
  destruct (IH (done ++ [l]) (if ps_ok r then st else
    mkPinStatus (ps_cid st) false (badNodes st ++ badNodes r)) v1) as (st' & v' & -> & Hc & Hp' & Hv');
    [done|by apply partial_step|done|].
  exists st', v'. rewrite <- app_assoc in Hp'. split_and!; [done| |done..].
  rewrite Hc. by destruct (ps_ok r).
Qed.

Lemma checkPin_spec fuel root v :
  rank root < fuel → map_Forall status_spec v →
  ∃ st v', checkPin fuel root v = (Ok st, v') ∧ status_spec root st ∧ map_Forall status_spec v'.
Proof.
  revert root v. induction fuel as [|fuel IH]; intros root v Hf Hv; [lia|]. simpl.
  destruct (v !! root) as [st|] eqn:Hr; [exists st, v; split_and!; [done|by apply Hv|done]|].
  destruct (getLinks root) as [links|e] eqn:Hl.
  - assert (follow root = links) as Hch by (unfold follow; by rewrite Hl).
    destruct (check_links_spec (checkPin fuel) fuel links [] (mkPinStatus root true []) v)
      as (st & v' & -> & Hc & [Hok Hbad] & Hv'); [done| | |done|].
    { apply Forall_forall. intros l Hin. rewrite <- Hch in Hin. apply Hrank in Hin. lia. }
    { split; [done|]. intros x e. simpl. split; [by intros ?%not_elem_of_nil|].
      intros (d & Hd & _). by apply not_elem_of_nil in Hd. }
    simpl in Hc, Hbad.
    assert (status_spec root st) as Hst.
    { split_and!; [done|apply Hok..|]. intros x e. rewrite Hbad. rewrite <- Hch. split.
      - intros (d & Hd & Hdx & He). split; [by eapply rtc_l|done].
      - intros [Hrx He]. inversion Hrx as [|? d ? Hd Hdx]; subst; [congruence|]. eauto. }
    eexists _, _. split_and!; [done|done|]. by apply map_Forall_insert_2.
  - assert (status_spec root (mkPinStatus root false [(root, e)])) as Hst.
    { split_and!; [done|done|]. intros x e'. simpl. rewrite list_elem_of_singleton. split.
      - intros [= -> ->]. split; [apply rtc_refl|done].
      - intros [Hrx He]. inversion Hrx as [|? d ? Hd Hdx]; subst; [congruence|].
        unfold Dag.edge, follow in Hd. rewrite Hl in Hd. by apply not_elem_of_nil in Hd. }
    eexists _, _. split_and!; [done|done|]. by apply map_Forall_insert_2.
Qed.

Lemma verify_pins_spec fuel pins v :
  Forall (λ c, rank c < fuel) pins → map_Forall status_spec v →
  ∃ sts v', verify_pins fuel pins v = (Ok sts, v') ∧ Forall2 status_spec pins sts.
Proof.
  intros Hf. revert v. induction Hf as [|c pins Hc Hf IH]; intros v Hv; simpl; [eauto|].
  destruct (checkPin_spec fuel c v Hc Hv) as (st & v1 & Hst & Hs & Hv1).
  destruct (IH v1 Hv1) as (sts & v2 & Hsts & Hss).
  exists (st :: sts), v2. rewrite bind_unfold, Hst. cbv beta iota. rewrite bind_unfold, Hsts.
  split; [done|by constructor].
Qed.

End acyclic.
End verify.

(** PinAPI.Verify: the statuses sent on its channel, or the pinner's error. *)
Definition Verify (store : gmap Cid Block) (fuel : nat) (RecursiveKeys : res string (list Cid))
    : res string (res unit (list PinStatus)) :=
  recPins ← RecursiveKeys; mret (verify_pins (ipld_GetLinks store) fuel recPins ∅).1.

Abbreviation children := GC.children.

(** Verify sends one status per recursive pin, in order.  A status lists
    exactly the blocks below its pin whose links cannot be read, with the error,
    and is ok exactly when there are none; sharing the statuses of sub-DAGs
    between pins changes nothing. *)
Theorem Verify_exact store rank fuel pins :
  (∀ a b, Dag.edge (children store) a b → rank b < rank a) →
  Forall (λ c, rank c < fuel) pins →
  ∃ sts, Verify store fuel (Ok pins) = Ok (Ok sts) ∧ Forall2 (status_spec (ipld_GetLinks store)) pins sts.
Proof.
  intros Hr Hf.
  destruct (verify_pins_spec (ipld_GetLinks store) rank Hr fuel pins ∅ Hf) as (sts & v' & Hv & Hs).
  { apply map_Forall_empty. }
  exists sts. unfold Verify. cbn. by rewrite Hv.
Qed.

(** ** Listing *)

Inductive LsError :=
  | LsPinner (msg : string)
  | LsCtx
  | LsDag (err : DagError)
  | LsDiverged.

(** pinInfo: a listed pin with its type, or an error. *)
Inductive pinInfo :=
  | PinListed (pinType : string) (c : Cid)
  | PinErr (err : LsError).

(** The pinner's key lists, the order [cid.Set.Keys] happens to give, the
    context and the order of the concurrent walk. *)
Record LsEnv := mkLsEnv {
  ls_RecursiveKeys : res string (list Cid);
  ls_DirectKeys : res string (list Cid);
  set_Keys : gset Cid → list Cid;
  ls_ctx_done : nat → bool;
  ls_sched : nat → nat;
}.

(** [keys], what was sent, and the number of polls of the context. *)
Record LsState := mkLs {
  ls_keys : gset Cid;
  ls_out : list pinInfo;
  ls_polls : nat;
}.

Section ls.
Variable env : LsEnv.
Variable store : gmap Cid Block.

(** The closure [AddToResultKeys]. *)
Fixpoint AddToResultKeys (keyList : list Cid) (typeStr : string) : M LsState LsError unit := λ s,
  match keyList with
  | [] => (Ok (), s)
  | c :: keyList' =>
      match set_Visit c (ls_keys s) with
      | (false, keys) => AddToResultKeys keyList' typeStr (mkLs keys (ls_out s) (ls_polls s))
      | (true, keys) =>
          let n := ls_polls s in
          if ls_ctx_done env n then (Err LsCtx, mkLs keys (ls_out s) (S n))
          else AddToResultKeys keyList' typeStr
                 (mkLs keys (ls_out s ++ [PinListed typeStr c]) (S n))
      end
  end.

(** The closure [VisitKeys]. *)
Fixpoint VisitKeys (keyList : list Cid) (s : LsState) : LsState :=
  match keyList with
  | [] => s
  | c :: keyList' => VisitKeys keyList' (mkLs (set_Visit c (ls_keys s)).2 (ls_out s) (ls_polls s))
  end.

(** GetLinksWithDAG(api.dag), polling the context. *)
Definition dag_getLinks (c : Cid) : M nat LsError (list Cid) := λ n,
  if ls_ctx_done env n then (Err LsCtx, S n)
  else match ipld_GetLinks store c with
       | Ok l => (Ok l, S n)
       | Err e => (Err (LsDag e), S n)
       end.

(** merkledag.Walk(ctx, getLinks, k, set.Visit, SkipRoot(), Concurrent()): the
    root is fetched without being visited. *)
Definition walk_skip_root (k : Cid) : M (gset Cid * nat) LsError unit := λ '(m, n),
  match dag_getLinks k n with
  | (Err e, n') => (Err e, (m, n'))
  | (Ok links, n') =>
      match walk_loop dag_getLinks (ls_sched env)
              (walk_fuel (children store) (dom store) links) links (m, n') with
      | (Ok u, s') => (Ok u, s')
      | (Err (WErr e), s') => (Err e, s')
      | (Err OutOfFuel, s') => (Err LsDiverged, s')
      end
  end.

(** The walks below every recursive pin into one set. *)
Definition indirect_set (rkeys : list Cid) : M LsState LsError (gset Cid) := λ s,
  match mfor rkeys walk_skip_root (∅, ls_polls s) with
  | (Ok _, (m, n)) => (Ok m, mkLs (ls_keys s) (ls_out s) n)
  | (Err e, (m, n)) => (Err e, mkLs (ls_keys s) (ls_out s) n)
  end.

Definition fromPinner {A} (r : res string A) : M LsState LsError A :=
  mlift (match r with Ok a => Ok a | Err e => Err (LsPinner e) end).

(** The goroutine of pinLsAll up to its error returns. *)
Definition pinLsAll_body (typeStr : string) : M LsState LsError unit :=
  rkeys ← (if decide (typeStr = "recursive" ∨ typeStr = "all") then
             rkeys ← fromPinner (ls_RecursiveKeys env);
             _ ← AddToResultKeys rkeys "recursive"; mret rkeys
           else mret []);
  _ ← (if decide (typeStr = "direct" ∨ typeStr = "all") then
         dkeys ← fromPinner (ls_DirectKeys env); AddToResultKeys dkeys "direct"
       else mret ());
  _ ← (if decide (typeStr = "all") then
         set ← indirect_set rkeys; AddToResultKeys (set_Keys env set) "indirect"
       else mret ());
  if decide (typeStr = "indirect") then
    dkeys ← fromPinner (ls_DirectKeys env);
    _ ← mmodify (VisitKeys dkeys);
    rkeys ← fromPinner (ls_RecursiveKeys env);
    _ ← mmodify (VisitKeys rkeys);
    set ← indirect_set rkeys;
    AddToResultKeys (set_Keys env set) "indirect"
  else mret ().

(** PinAPI.pinLsAll: what is read from its channel until it is closed. *)
Definition pinLsAll (typeStr : string) : list pinInfo :=
  match pinLsAll_body typeStr (mkLs ∅ [] 0) with
  | (Ok _, s) => ls_out s
  | (Err e, s) => ls_out s ++ [PinErr e]
  end.

(** PinAPI.Ls *)
Definition Ls (typeStr : string) : res string (list pinInfo) :=
  if decide (typeStr ∈ ["all"; "direct"; "indirect"; "recursive"]) then Ok (pinLsAll typeStr)
  else Err ("invalid type '" +:+ typeStr +:+ "', must be one of {direct, indirect, recursive, all}").

End ls.

(** The CIDs listed, whatever their type. *)
Definition listed_cids (l : list pinInfo) : list Cid :=
  omap (λ p, match p with PinListed _ c => Some c | PinErr _ => None end) l.

(** *** No CID is listed twice *)

Definition ls_inv (s : LsState) : Prop :=
  NoDup (listed_cids (ls_out s)) ∧ ∀ c, c ∈ listed_cids (ls_out s) → c ∈ ls_keys s.

Lemma listed_snoc l t c : listed_cids (l ++ [PinListed t c]) = listed_cids l ++ [c].
Proof. unfold listed_cids. by rewrite omap_app. Qed.

Lemma AddToResultKeys_inv env keys t s r s' :
  AddToResultKeys env keys t s = (r, s') → ls_inv s → ls_inv s'.
Proof.
  revert s. induction keys as [|c keys IH]; intros s; simpl; [by intros [= _ <-]|].
  unfold set_Visit. case_decide as Hc; [intros H Hi; by eapply IH|].
  destruct (ls_ctx_done _ _).
  - intros [= _ <-] [Hn Hk]. split; simpl; [done|]. intros x ?%Hk. set_solver.
  - intros H [Hn Hk]. eapply IH; [exact H|]. split; simpl; rewrite listed_snoc.
    + apply NoDup_app. split_and!; [done| |apply NoDup_singleton].
      intros x Hx ->%list_elem_of_singleton. by apply Hc, Hk.
    + intros x [?%Hk| ->%list_elem_of_singleton]%elem_of_app; set_solver.
Qed.

Lemma VisitKeys_keys keys s :
  ls_out (VisitKeys keys s) = ls_out s ∧ ls_keys (VisitKeys keys s) = list_to_set keys ∪ ls_keys s.
Proof.
  revert s. induction keys as [|c keys IH]; intros s; simpl.
  { split; [done|]. apply leibniz_equiv. set_solver. }
  destruct (IH (mkLs (set_Visit c (ls_keys s)).2 (ls_out s) (ls_polls s))) as [-> ->].
  split; [done|]. simpl. unfold set_Visit. apply leibniz_equiv. case_decide; set_solver.
Qed.

Lemma VisitKeys_inv keys s : ls_inv s → ls_inv (VisitKeys keys s).
Proof.
  destruct (VisitKeys_keys keys s) as [Ho Hk]. unfold ls_inv. rewrite Ho, Hk. set_solver.
Qed.

Lemma indirect_set_state env store rkeys s r s' :
  indirect_set env store rkeys s = (r, s') → ls_keys s' = ls_keys s ∧ ls_out s' = ls_out s.
Proof. unfold indirect_set. destruct (mfor _ _ _) as [[] [m n]]; by intros [= _ <-]. Qed.

Lemma indirect_set_inv env store rkeys s r s' :
  indirect_set env store rkeys s = (r, s') → ls_inv s → ls_inv s'.
Proof. intros [Hk Ho]%indirect_set_state. unfold ls_inv. by rewrite Hk, Ho. Qed.

Lemma keeps_pinner {A} (I : LsState → Prop) (r : res string A) : keeps I (fromPinner r).
Proof. by intros s o s' [= _ <-]. Qed.

Lemma pinLsAll_body_inv env store t : keeps ls_inv (pinLsAll_body env store t).
Proof.
  assert (∀ l t, keeps ls_inv (AddToResultKeys env l t)) as Hadd.
  { intros l t' s r s'. apply AddToResultKeys_inv. }
  assert (∀ l, keeps ls_inv (indirect_set env store l)) as Hset.
  { intros l s r s'. apply indirect_set_inv. }
  assert (∀ l, keeps ls_inv (mmodify (VisitKeys l) : M LsState LsError unit)) as Hvis.
  { intros l. apply keeps_modify, VisitKeys_inv. }
  unfold pinLsAll_body.
  repeat first [ apply Hadd | apply Hset | apply Hvis | apply keeps_pinner | apply keeps_ret
               | apply keeps_bind | case_decide | intros ? ].
Qed.

(** Whatever the type asked for, the errors and the cancellation, pin ls
    lists no CID twice: a CID pinned in several ways appears with one type. *)
Theorem pinLsAll_once env store t : NoDup (listed_cids (pinLsAll env store t)).
Proof.
  unfold pinLsAll. destruct (pinLsAll_body env store t (mkLs ∅ [] 0)) as [r s] eqn:Hb.
  destruct (pinLsAll_body_inv env store t _ _ _ Hb) as [Hn _].
  { split; [constructor|]. intros c Hc. by apply not_elem_of_nil in Hc. }
  destruct r; [done|]. unfold listed_cids. rewrite omap_app. simpl. by rewrite app_nil_r.
Qed.

(** *** What is listed *)

Section ls_exact.
Variable env : LsEnv.
Variable store : gmap Cid Block.
Abbreviation children := (GC.children store).
Hypothesis Hctx : ∀ n, ls_ctx_done env n = false.
Hypothesis Hkeys : ∀ X c, c ∈ set_Keys env X ↔ c ∈ X.

Definition has_type (out : list pinInfo) (t : string) (c : Cid) : Prop := PinListed t c ∈ out.

Lemma AddToResultKeys_spec keys t s :
  ∃ s', AddToResultKeys env keys t s = (Ok (), s') ∧
    ls_keys s' = list_to_set keys ∪ ls_keys s ∧
    ∀ p, p ∈ ls_out s' ↔ p ∈ ls_out s ∨ ∃ c, p = PinListed t c ∧ c ∈ keys ∧ c ∉ ls_keys s.
Proof.
  revert s. induction keys as [|c keys IH]; intros s; simpl.
  { exists s. split_and!; [done|apply leibniz_equiv; set_solver|]. set_solver. }
  unfold set_Visit. case_decide as Hc.
  - destruct (IH (mkLs (ls_keys s) (ls_out s) (ls_polls s))) as (s' & -> & Hk & Ho).
    exists s'. split_and!; [done|rewrite Hk; simpl; apply leibniz_equiv; set_solver|].
    intros p. rewrite Ho. simpl. setoid_rewrite elem_of_cons. split; [naive_solver|].
    intros [?|(x & -> & [->|?] & ?)]; [naive_solver|done|naive_solver].
  - rewrite Hctx.
    destruct (IH (mkLs ({[c]} ∪ ls_keys s) (ls_out s ++ [PinListed t c]) (S (ls_polls s))))
      as (s' & -> & Hk & Ho). exists s'.
    split_and!; [done|rewrite Hk; simpl; apply leibniz_equiv; set_solver|].
    intros p. rewrite Ho. simpl. rewrite elem_of_app, list_elem_of_singleton.
    setoid_rewrite elem_of_cons. setoid_rewrite not_elem_of_union.
    setoid_rewrite not_elem_of_singleton. split; [naive_solver|].
    intros [?|(x & -> & [->|?] & ?)]; [naive_solver..|].
    destruct (decide (x = c)) as [->|]; naive_solver.
Qed.

(** The links below the recursive pins can all be fetched. *)
Variable rkeys : list Cid.
Hypothesis Hfetch : ∀ r c, r ∈ rkeys → Dag.reach children r c → ∃ l, ipld_GetLinks store c = Ok l.

(** [c] is a proper descendant of a recursive pin. *)
Definition indirect (c : Cid) : Prop := ∃ r, r ∈ rkeys ∧ tc (Dag.edge children) r c.

Lemma dag_getLinks_ok c n :
  (∃ l, ipld_GetLinks store c = Ok l) → dag_getLinks env store c n = (Ok (children c), S n).
Proof. intros [l Hl]. unfold dag_getLinks, GC.children. by rewrite Hctx, Hl. Qed.

Lemma dag_getLinks_children c n l n' :
  dag_getLinks env store c n = (Ok l, n') → l = children c.
Proof.
  unfold dag_getLinks, GC.children. rewrite Hctx. destruct (ipld_GetLinks store c); naive_solver.
Qed.

Lemma walk_skip_root_spec k m n :
  k ∈ rkeys →
  ∃ m' n', walk_skip_root env store k (m, n) = (Ok (), (m', n')) ∧
    walk_post children (λ _ _, True) m (children k) m' n'.
Proof.
  intros Hk. unfold walk_skip_root.
  rewrite dag_getLinks_ok by (apply (Hfetch k); [done|apply rtc_refl]).
  edestruct (walk_loop_clean children (dag_getLinks env store) dag_getLinks_children (dom store)
    (children_outside store) (λ c, Dag.reach children k c) (λ _, True) (ls_sched env)
    (children k) m (S n)) as (m' & n' & Hw & _); [..|done|].
  - intros c d Hc Hd. by eapply rtc_r.
  - intros c a Hc _. exists (S a). split; [|done]. apply dag_getLinks_ok. by eapply Hfetch.
  - intros c Hc. by apply rtc_once.
  - rewrite Hw. exists m', n'. split; [done|].
    by eapply (walk_loop_post children _ dag_getLinks_children); [..|exact Hw].
Qed.

(** The walks mark exactly the proper descendants. *)
Lemma indirect_set_spec s :
  ∃ X s', indirect_set env store rkeys s = (Ok X, s') ∧ ls_keys s' = ls_keys s ∧
    ls_out s' = ls_out s ∧ ∀ c, c ∈ X ↔ indirect c.
Proof.
  assert (∀ ks m n, ks ⊆ rkeys → dag_closed children m → (∀ c, c ∈ m → indirect c) →
    ∃ m' n', mfor ks (walk_skip_root env store) (m, n) = (Ok (), (m', n')) ∧
      m ⊆ m' ∧ dag_closed children m' ∧ (∀ c, c ∈ m' → indirect c) ∧
      ∀ k d, k ∈ ks → Dag.edge children k d → d ∈ m') as Hloop.
  { induction ks as [|k ks IH]; intros m n Hsub Hcl Hs; simpl.
    { exists m, n. split_and!; [done..|]. intros k d Hk. by apply not_elem_of_nil in Hk. }
    destruct (walk_skip_root_spec k m n) as (m1 & n1 & Hw & [Hm1 Hr1 Hc1 Hs1 _]);
      [apply Hsub; by left|].
    rewrite bind_unfold, Hw. cbv beta iota.
    destruct (IH m1 n1) as (m2 & n2 & -> & Hm2 & ? & ? & Hk2); [set_solver| | |].
    - intros c d Hc Hd. destruct (decide (c ∈ m)); [apply Hm1; by eapply Hcl|by eapply Hc1].
    - intros c Hc. destruct (decide (c ∈ m)); [auto|].
      destruct (Hs1 c Hc) as (r & Hr & Hrc); [done|]. exists k.
      split; [apply Hsub; by left|]. eapply tc_rtc_r; [by apply tc_once|done].
    - exists m2, n2. split_and!; [done|set_solver|done..|].
      intros x d [->|Hx]%elem_of_cons Hd; [apply Hm2, Hr1, Hd|by eapply Hk2]. }
  unfold indirect_set.
  destruct (Hloop rkeys ∅ (ls_polls s)) as (m & n & -> & _ & Hcl & Hs & Hk);
    [done|by intros c d ?%not_elem_of_empty|by intros c ?%not_elem_of_empty|].
  exists m, (mkLs (ls_keys s) (ls_out s) n). split_and!; [done..|]. intros c. split; [auto|].
  intros (r & Hr & Hrc).
  assert (∃ d, Dag.edge children r d ∧ rtc (Dag.edge children) d c) as (d & Hd & Hdc).
  { inversion Hrc; subst; [eexists; split; [done|apply rtc_refl]|].
    eexists; split; [done|]. by apply tc_rtc. }
  eapply closed_reach; [exact Hcl|exact Hdc|eauto].
Qed.

(** *** The four listings *)

Variable dkeys : list Cid.
Hypothesis HR : ls_RecursiveKeys env = Ok rkeys.
Hypothesis HD : ls_DirectKeys env = Ok dkeys.

Definition entries_all (p : pinInfo) : Prop :=
  (∃ c, p = PinListed "recursive" c ∧ c ∈ rkeys) ∨
  (∃ c, p = PinListed "direct" c ∧ c ∈ dkeys ∧ c ∉ rkeys) ∨
  (∃ c, p = PinListed "indirect" c ∧ indirect c ∧ (c ∉ rkeys) ∧ c ∉ dkeys).

(** Run the adding of a key list and name its outcome. *)
Lemma add_step {A} keys t (k : unit → M LsState LsError A) s :
  ∃ s', (AddToResultKeys env keys t ≫= k) s = k () s' ∧
    ls_keys s' = list_to_set keys ∪ ls_keys s ∧
    ∀ p, p ∈ ls_out s' ↔ p ∈ ls_out s ∨ ∃ c, p = PinListed t c ∧ c ∈ keys ∧ c ∉ ls_keys s.
Proof.
  destruct (AddToResultKeys_spec keys t s) as (s' & Hs & ? & ?). exists s'.
  by rewrite bind_unfold, Hs.
Qed.

Lemma pinLsAll_recursive p :
  p ∈ pinLsAll env store "recursive" ↔ ∃ c, p = PinListed "recursive" c ∧ c ∈ rkeys.
Proof.
  unfold pinLsAll, pinLsAll_body. rewrite HR. simpl.
  destruct (AddToResultKeys_spec rkeys "recursive" (mkLs ∅ [] 0)) as (s' & Hs & _ & Ho).
  unfold fromPinner. go_run. rewrite Hs. rewrite Ho. simpl. set_solver.
Qed.

Lemma pinLsAll_direct p :
  p ∈ pinLsAll env store "direct" ↔ ∃ c, p = PinListed "direct" c ∧ c ∈ dkeys.
Proof.
  unfold pinLsAll, pinLsAll_body. rewrite HD. simpl.
  destruct (AddToResultKeys_spec dkeys "direct" (mkLs ∅ [] 0)) as (s' & Hs & _ & Ho).
  unfold fromPinner. go_run. rewrite Hs. rewrite Ho. simpl. set_solver.
Qed.

Lemma pinLsAll_indirect p :
  p ∈ pinLsAll env store "indirect" ↔
    ∃ c, p = PinListed "indirect" c ∧ indirect c ∧ (c ∉ rkeys) ∧ c ∉ dkeys.
Proof.
  unfold pinLsAll, pinLsAll_body. rewrite HD, HR. simpl.
  set (s0 := VisitKeys rkeys (VisitKeys dkeys (mkLs ∅ [] 0))).
  destruct (indirect_set_spec s0) as (X & s1 & H1 & Hk1 & Ho1 & HX).
  destruct (AddToResultKeys_spec (set_Keys env X) "indirect" s1) as (s2 & H2 & _ & Ho2).
  unfold fromPinner. go_run. fold s0. rewrite H1. cbv beta iota. rewrite H2, Ho2, Ho1, Hk1.
  unfold s0. destruct (VisitKeys_keys rkeys (VisitKeys dkeys (mkLs ∅ [] 0))) as [-> ->].
  destruct (VisitKeys_keys dkeys (mkLs ∅ [] 0)) as [-> ->]. simpl.
  setoid_rewrite Hkeys. setoid_rewrite HX. set_solver.
Qed.

Lemma keys_visited (ks ks' : list Cid) c :
  c ∉ (list_to_set ks ∪ (list_to_set ks' ∪ ∅) : gset Cid) ↔ (c ∉ ks') ∧ c ∉ ks.
Proof. set_solver. Qed.

Lemma pinLsAll_all p : p ∈ pinLsAll env store "all" ↔ entries_all p.
Proof.
  unfold pinLsAll, pinLsAll_body, entries_all. rewrite HD, HR. simpl.
  destruct (AddToResultKeys_spec rkeys "recursive" (mkLs ∅ [] 0)) as (s1 & H1 & Hk1 & Ho1).
  destruct (AddToResultKeys_spec dkeys "direct" s1) as (s2 & H2 & Hk2 & Ho2).
  destruct (indirect_set_spec s2) as (X & s3 & H3 & Hk3 & Ho3 & HX).
  destruct (AddToResultKeys_spec (set_Keys env X) "indirect" s3) as (s4 & H4 & _ & Ho4).
  unfold fromPinner. go_run. rewrite H1. cbv beta iota. rewrite H2. cbv beta iota. rewrite H3.
  cbv beta iota. rewrite H4, Ho4, Ho3, Ho2, Ho1, Hk3, Hk2, Hk1. simpl.
  setoid_rewrite Hkeys. setoid_rewrite HX. setoid_rewrite keys_visited.
  setoid_rewrite union_empty_r_L. setoid_rewrite elem_of_list_to_set.
  pose proof (not_elem_of_nil p) as Hn. pose proof (not_elem_of_empty (C := gset Cid)) as He.
  clear -Hn He. naive_solver.
Qed.

End ls_exact.

(** When nothing is cancelled and the DAGs below the recursive pins can be
    read, pin ls lists exactly: with type all, the recursive pins, the direct
    pins that are not recursive, and as indirect the proper descendants of
    recursive pins that are neither; with a single type, the pins of that type,
    the indirect ones being the same as with type all.  No error is listed. *)
Theorem pinLsAll_exact env store rkeys dkeys p :
  (∀ n, ls_ctx_done env n = false) → (∀ X c, c ∈ set_Keys env X ↔ c ∈ X) →
  (∀ r c, r ∈ rkeys → Dag.reach (children store) r c → ∃ l, ipld_GetLinks store c = Ok l) →
  ls_RecursiveKeys env = Ok rkeys → ls_DirectKeys env = Ok dkeys →
  (p ∈ pinLsAll env store "all" ↔ entries_all store rkeys dkeys p) ∧
  (p ∈ pinLsAll env store "recursive" ↔ ∃ c, p = PinListed "recursive" c ∧ c ∈ rkeys) ∧
  (p ∈ pinLsAll env store "direct" ↔ ∃ c, p = PinListed "direct" c ∧ c ∈ dkeys) ∧
  (p ∈ pinLsAll env store "indirect" ↔
     ∃ c, p = PinListed "indirect" c ∧ indirect store rkeys c ∧ (c ∉ rkeys) ∧ c ∉ dkeys).
Proof.
  intros. split_and!; [by eapply pinLsAll_all|by eapply pinLsAll_recursive
                      |by eapply pinLsAll_direct|by eapply pinLsAll_indirect].
Qed.

(** ** Changing pins *)

(** The pinner, as its interface documents it.  [pn_recursive] and [pn_direct]
    are the key lists; the laws say what a successful call does to them. *)
Class Pinner (P : Type) := {
  pn_recursive : P → list Cid;
  pn_direct : P → list Cid;
  pn_Pin : P → Cid → bool → res string P;
  pn_Unpin : P → Cid → bool → res string P;
  pn_Update : P → Cid → Cid → bool → res string P;
  pn_Flush : P → res string P;
}.

Class PinnerLaws (P : Type) `{Pinner P} : Prop := {
  Pin_recursive : ∀ p c p', pn_Pin p c true = Ok p' →
    ∀ x, x ∈ pn_recursive p' ↔ x = c ∨ x ∈ pn_recursive p;
  Unpin_recursive : ∀ p c b p', pn_Unpin p c b = Ok p' →
    ∀ x, x ≠ c → (x ∈ pn_recursive p' ↔ x ∈ pn_recursive p);
  Unpin_gone : ∀ p c p', pn_Unpin p c true = Ok p' → c ∉ pn_recursive p';
  Update_recursive : ∀ p from to u p', pn_Update p from to u = Ok p' →
    ∀ x, x ∈ pn_recursive p' ↔
      x = to ∨ x ∈ pn_recursive p ∧ (u = true → x ≠ from);
  Flush_recursive : ∀ p p', pn_Flush p = Ok p' → pn_recursive p' = pn_recursive p;
}.

Section pin_api.
Context {P : Type} `{Pinner P}.

(** Path resolution and the provider, outside this component. *)
Record PinEnv := mkPinEnv {
  Resolve : string → res string Cid;
  Provide_err : Cid → option string;
}.
Variable env : PinEnv.

Definition pinErr {A} (r : res string A) : res string A :=
  match r with Ok a => Ok a | Err e => Err ("pin: " +:+ e) end.

(** PinAPI.Add, from the pinner before to the pinner after; an error after the
    pin was made leaves it made. *)
Definition pin_Add (path : string) (recursive : bool) : M P string unit := λ p,
  match pinErr (Resolve env path) with
  | Err e => (Err e, p)
  | Ok c =>
      match pinErr (pn_Pin p c recursive) with
      | Err e => (Err e, p)
      | Ok p1 =>
          match Provide_err env c with
          | Some e => (Err e, p1)
          | None => match pn_Flush p1 with Err e => (Err e, p1) | Ok p2 => (Ok (), p2) end
          end
      end
  end.

(** PinAPI.Rm *)
Definition pin_Rm (path : string) (recursive : bool) : M P string unit := λ p,
  match Resolve env path with
  | Err e => (Err e, p)
  | Ok c =>
      match pn_Unpin p c recursive with
      | Err e => (Err e, p)
      | Ok p1 => match pn_Flush p1 with Err e => (Err e, p1) | Ok p2 => (Ok (), p2) end
      end
  end.

(** PinAPI.Update *)
Definition pin_Update (from to : string) (unpin : bool) : M P string unit := λ p,
  match Resolve env from with
  | Err e => (Err e, p)
  | Ok f =>
      match Resolve env to with
      | Err e => (Err e, p)
      | Ok t =>
          match pn_Update p f t unpin with
          | Err e => (Err e, p)
          | Ok p1 => match pn_Flush p1 with Err e => (Err e, p1) | Ok p2 => (Ok (), p2) end
          end
      end
  end.

(** The collector's view of a pinner. *)
Definition with_pins (p : P) (env : GCEnv) : GCEnv :=
  mkGCEnv (Ok (pn_recursive p)) (Ok (pn_direct p)) (InternalPins env) (AllKeysChan env)
    (DeleteBlock_err env) (CollectGarbage env) (ctx_done env) (walk_sched env).

Context `{!PinnerLaws P}.

Lemma pin_Add_ok path p u p' :
  pin_Add path true p = (Ok u, p') →
  ∃ c, Resolve env path = Ok c ∧ ∀ x, x ∈ pn_recursive p' ↔ x = c ∨ x ∈ pn_recursive p.
Proof.
  unfold pin_Add, pinErr. destruct (Resolve env path) as [c|]; [|done].
  destruct (pn_Pin p c true) as [p1|] eqn:H1; [|done].
  destruct (Provide_err env c); [done|]. destruct (pn_Flush p1) as [p2|] eqn:H2; [|done].
  intros [= _ <-]. exists c. split; [done|]. rewrite (Flush_recursive _ _ H2).
  by apply Pin_recursive.
Qed.

Lemma pin_Update_ok from to unpin p u p' :
  pin_Update from to unpin p = (Ok u, p') →
  ∃ f t, Resolve env from = Ok f ∧ Resolve env to = Ok t ∧
    ∀ x, x ∈ pn_recursive p' ↔ x = t ∨ x ∈ pn_recursive p ∧ (unpin = true → x ≠ f).
Proof.
  unfold pin_Update. destruct (Resolve env from) as [f|]; [|done].
  destruct (Resolve env to) as [t|]; [|done].
  destruct (pn_Update p f t unpin) as [p1|] eqn:H1; [|done].
  destruct (pn_Flush p1) as [p2|] eqn:H2; [|done].
  intros [= _ <-]. exists f, t. split_and!; [done..|]. rewrite (Flush_recursive _ _ H2).
  by eapply Update_recursive.
Qed.

End pin_api.

(** C6.  Once pin add -r has returned without an error, no collection removes or
    alters a block below the pin, nor below the pins that were there before. *)
Theorem pin_Add_protects {P : Type} `{PinnerLaws P} env genv bs roots path p u p' c r x :
  pin_Add env path true p = (Ok u, p') → Resolve env path = Ok c →
  r = c ∨ r ∈ pn_recursive p → Dag.reach (children bs) r x →
  (GC (with_pins p' genv) bs roots).1 !! x = bs !! x.
Proof.
  intros Hadd Hres Hr Hx. destruct (pin_Add_ok env path p u p' Hadd) as (c' & Hc & Hin). rewrite Hres in Hc. injection Hc as <-.
  apply (proj2 (GC_keeps _ _ _)). left. exists (pn_recursive p'), r.
  split_and!; [done|by apply Hin|done].
Qed.

(** A pinner that satisfies the laws: the two lists themselves. *)
Module SetPinner.
Definition t : Type := list Cid * list Cid.

#[global] Instance ops : Pinner t := {|
  pn_recursive := fst;
  pn_direct := snd;
  pn_Pin := λ p c recursive,
    if recursive : bool then Ok (c :: p.1, filter (λ x, x ≠ c) p.2)
    else if decide (c ∈ p.1) then Err "already pinned recursively" else Ok (p.1, c :: p.2);
  pn_Unpin := λ p c recursive,
    if decide (c ∈ p.1) then
      if recursive : bool then Ok (filter (λ x, x ≠ c) p.1, p.2)
      else Err "is pinned recursively"
    else if decide (c ∈ p.2) then Ok (p.1, filter (λ x, x ≠ c) p.2) else Err "not pinned";
  pn_Update := λ p from to unpin,
    if decide (from ∈ p.1) then
      Ok (to :: (if unpin : bool then filter (λ x, x ≠ from) p.1 else p.1), p.2)
    else Err "'from' cid was not recursively pinned already";
  pn_Flush := Ok |}.

#[global] Instance laws : PinnerLaws t.
Proof.
  split; simpl.
  - intros p c p' [= <-] x. simpl. apply elem_of_cons.
  - intros p c b p'. repeat case_match; intros [= <-] x Hx; simpl; [|done].
    rewrite list_elem_of_filter. naive_solver.
  - intros p c p'. repeat case_match; intros [= <-]; simpl; [rewrite list_elem_of_filter; naive_solver|done].
  - intros p from to [] p'; case_decide; intros [= <-] x; simpl; rewrite elem_of_cons.
    + rewrite list_elem_of_filter. naive_solver.
    + naive_solver.
  - by intros p p' [= <-].
Qed.

End SetPinner.

Module PinExample.
Definition env : PinEnv :=
  mkPinEnv (λ s, if decide (s = "/ipfs/file") then Ok (Example.node "file") else Err "unresolved")
    (λ _, None).

Definition rank (c : Cid) : nat :=
  if decide (c = Example.leaf "chunk1" ∨ c = Example.leaf "chunk2" ∨ c = Example.leaf "entry" ∨
             c = Example.node "behind" ∨ c = Example.node "absent") then 0 else 1.

Definition ls_env : LsEnv :=
  mkLsEnv (Ok [Example.node "file"]) (Ok [Example.leaf "chunk1"]) elements (λ _, false) (λ n, n).

Lemma pin_rank_edge a b : Dag.edge (children Example.bs) a b → rank b < rank a.
Proof.
  intros Hab. assert (a ∈ dom Example.bs) as Ha.
  { destruct (decide (a ∈ dom Example.bs)) as [|Hn]; [done|].
    unfold Dag.edge in Hab. rewrite children_outside in Hab by done. by apply not_elem_of_nil in Hab. }
  revert b Hab. unfold Dag.edge. setoid_rewrite <- Forall_forall.
  apply elem_of_elements in Ha. revert a Ha. setoid_rewrite <- Forall_forall.
  apply (bool_decide_unpack _). by vm_compute.
Qed.

End PinExample.

Lemma Verify_exact_witness :
  ∃ st, Verify Example.bs 2 (Ok [Example.node "mfs"]) = Ok (Ok [st]) ∧
    status_spec (ipld_GetLinks Example.bs) (Example.node "mfs") st.
Proof.
  destruct (Verify_exact Example.bs PinExample.rank 2 [Example.node "mfs"]) as (sts & Hv & Hs).
  - apply PinExample.pin_rank_edge.
  - apply Forall_singleton. apply (bool_decide_unpack _). by vm_compute.
  - apply Forall2_cons_inv_l in Hs as (st & sts' & Hst & Hn & ->).
    apply Forall2_nil_inv_l in Hn as ->. eauto.
Defined.

Lemma pinLsAll_exact_witness :
  PinListed "indirect" (Example.leaf "chunk2") ∈ pinLsAll PinExample.ls_env Example.bs "all".
Proof.
  apply (pinLsAll_exact PinExample.ls_env Example.bs [Example.node "file"] [Example.leaf "chunk1"]);
    [done|intros X c; apply elem_of_elements| |done|done|].
  - intros r c ->%list_elem_of_singleton Hr.
    apply (reach_within _ [Example.node "file"; Example.leaf "chunk1"; Example.leaf "chunk2"]) in Hr.
    + repeat (apply elem_of_cons in Hr as [->|Hr]; [by eexists|]). by apply not_elem_of_nil in Hr.
    + apply (bool_decide_unpack _). by vm_compute.
    + by left.
  - right; right. eexists. split_and!; [done| |by apply (bool_decide_unpack _); vm_compute..].
    exists (Example.node "file"). split; [by left|]. apply tc_once.
    apply (bool_decide_unpack _). by vm_compute.
Defined.

Lemma pin_Add_protects_witness :
  (GC (with_pins (P := SetPinner.t) ([Example.node "file"], []) Example.env) Example.bs []).1
    !! Example.leaf "chunk2" = Example.bs !! Example.leaf "chunk2".
Proof.
  eapply (pin_Add_protects (P := SetPinner.t) PinExample.env Example.env Example.bs [] "/ipfs/file"
           ([], []) () ([Example.node "file"], []) (Example.node "file") (Example.node "file")).
  - by vm_compute.
  - done.
  - by left.
  - apply Example.file_reach.
Defined.
