(* ===== verification/BlockRm.v ===== *)
(** * Removing blocks (src/blocks/blockstoreutil/remove.go)

    [ipfs block rm] removes the blocks named, skipping pinned ones; the results go
    through a channel sized so that the goroutine never waits for a reader while
    it holds the collector's lock, and [ProcRmOutput] turns them into the
    command's outcome. *)

From Stdlib Require Import ZArith.
From S2P Require Import Prelude GoStrings Cid.
From stdpp Require Import base gmap sets list strings.

(** ** Data *)

Inductive PinMode := PinRecursive | PinDirect | PinIndirect | PinInternal | NotPinned.

#[export] Instance PinMode_eq_dec : EqDecision PinMode.
Proof. solve_decision. Defined.

(** pin.Pinned: the answer of CheckIfPinned for one CID. *)
Record Pinned := mkPinned { pinned_Key : Cid; pinned_Mode : PinMode; pinned_Via : Cid }.

Definition is_pinned (p : Pinned) : bool := negb (bool_decide (pinned_Mode p = NotPinned)).

Record RemovedBlock := mkRemoved { Hash : string; Error : string }.

#[export] Instance RemovedBlock_eq_dec : EqDecision RemovedBlock.
Proof. solve_decision. Defined.

Record RmBlocksOpts := mkRmOpts { Quiet : bool; Force : bool }.

(** The pinner's check, the blockstore's errors and the encoding of CIDs. *)
Record RmEnv := mkRmEnv {
  CheckIfPinned : list Cid → res string (list Pinned);
  Has_err : Cid → option string;
  DeleteBlock_err : Cid → option string;
  cid_String : Cid → string;
}.

Definition mode_String (m : PinMode) : string :=
  match m with
  | PinRecursive => "recursive" | PinDirect => "direct" | PinIndirect => "indirect"
  | PinInternal => "internal" | NotPinned => ""
  end.

(** pin.Pinned.String *)
Definition pinned_String (env : RmEnv) (p : Pinned) : string :=
  match pinned_Mode p with
  | NotPinned => "not pinned"
  | PinIndirect => "pinned via " +:+ cid_String env (pinned_Via p)
  | m => "pinned: " +:+ mode_String m
  end.

(** ** Operations *)

(** FilterPinned: the CIDs that are not pinned, and what was sent. *)
Definition FilterPinned (env : RmEnv) (cids : list Cid) : list Cid * list RemovedBlock :=
  match CheckIfPinned env cids with
  | Err e => ([], [mkRemoved "" ("pin check failed: " +:+ e)])
  | Ok res =>
      (pinned_Key <$> filter (λ r, is_pinned r = false) res,
       (λ r, mkRemoved (cid_String env (pinned_Key r)) (pinned_String env r))
         <$> filter (λ r, is_pinned r = true) res)
  end.

(** The body of the loop over the CIDs still to remove. *)
Definition rm_one (env : RmEnv) (opts : RmBlocksOpts) (c : Cid) (bs : gmap Cid string)
    : gmap Cid string * list RemovedBlock :=
  match Has_err env c with
  | Some e => (bs, [mkRemoved (cid_String env c) e])
  | None =>
      if negb (bool_decide (is_Some (bs !! c))) && negb (Force opts)
      then (bs, [mkRemoved (cid_String env c) "blockstore: block not found"])
      else match DeleteBlock_err env c with
           | Some e => (bs, [mkRemoved (cid_String env c) e])
           | None => (delete c bs, if Quiet opts then [] else [mkRemoved (cid_String env c) ""])
           end
  end.

Fixpoint rm_loop (env : RmEnv) (opts : RmBlocksOpts) (stillOkay : list Cid) (bs : gmap Cid string)
    : gmap Cid string * list RemovedBlock :=
  match stillOkay with
  | [] => (bs, [])
  | c :: l =>
      let '(bs1, out1) := rm_one env opts c bs in
      let '(bs2, out2) := rm_loop env opts l bs1 in
      (bs2, out1 ++ out2)
  end.

(** RmBlocks: the blockstore afterwards and everything sent on the channel. *)
Definition RmBlocks (env : RmEnv) (opts : RmBlocksOpts) (cids : list Cid) (bs : gmap Cid string)
    : gmap Cid string * list RemovedBlock :=
  let '(stillOkay, out1) := FilterPinned env cids in
  let '(bs', out2) := rm_loop env opts stillOkay bs in
  (bs', out1 ++ out2).

(** The capacity RmBlocks gives its channel. *)
Definition rm_chan_cap (cids : list Cid) : nat := length cids.

(** ProcRmOutput over the results until EOF: the error, and the lines written to
    the error and the standard output. *)
Fixpoint ProcRmOutput (results : list RemovedBlock) (someFailed : bool)
    : option string * list string * list string :=
  match results with
  | [] => (if someFailed then Some "some blocks not removed" else None, [], [])
  | r :: results' =>
      if decide (Hash r = "" ∧ Error r ≠ "") then (Some ("aborted: " +:+ Error r), [], [])
      else if decide (Error r ≠ "") then
        let '(e, serr, sout) := ProcRmOutput results' true in
        (e, ("cannot remove " +:+ Hash r +:+ ": " +:+ Error r) :: serr, sout)
      else
        let '(e, serr, sout) := ProcRmOutput results' someFailed in
        (e, serr, ("removed " +:+ Hash r) :: sout)
  end.

(** ** Properties *)

(** What CheckIfPinned answers: about each CID it was asked for and no other, at
    most once for each time it was asked (a pinned CID each time, another once). *)
Definition check_spec (env : RmEnv) (cids : list Cid) (res : list Pinned) : Prop :=
  CheckIfPinned env cids = Ok res ∧ (pinned_Key <$> res) ⊆+ cids ∧
  ∀ c, c ∈ (pinned_Key <$> res) ↔ c ∈ cids.

Lemma rm_one_frame env opts c bs k : k ≠ c → (rm_one env opts c bs).1 !! k = bs !! k.
Proof. intros Hk. unfold rm_one. repeat case_match; simpl; by rewrite ?lookup_delete_ne. Qed.

Lemma rm_loop_frame env opts l bs k : k ∉ l → (rm_loop env opts l bs).1 !! k = bs !! k.
Proof.
  revert bs. induction l as [|c l IH]; intros bs; simpl; [done|].
  intros [Hk Hl]%not_elem_of_cons. pose proof (rm_one_frame env opts c bs k Hk) as H1.
  destruct (rm_one env opts c bs) as [bs1 o1]. specialize (IH bs1 Hl).
  destruct (rm_loop env opts l bs1) as [bs2 o2]. simpl in *. congruence.
Qed.

Lemma rm_loop_subset env opts l bs : (rm_loop env opts l bs).1 ⊆ bs.
Proof.
  revert bs. induction l as [|c l IH]; intros bs; simpl; [done|].
  assert ((rm_one env opts c bs).1 ⊆ bs) as H1.
  { unfold rm_one. repeat case_match; simpl; try done; apply delete_subseteq. }
  destruct (rm_one env opts c bs) as [bs1 o1]. specialize (IH bs1).
  destruct (rm_loop env opts l bs1) as [bs2 o2]. simpl in *. by etrans.
Qed.

Lemma rm_one_out env opts c bs : length (rm_one env opts c bs).2 ≤ 1.
Proof. unfold rm_one. repeat case_match; simpl; lia. Qed.

Lemma rm_loop_out env opts l bs : length (rm_loop env opts l bs).2 ≤ length l.
Proof.
  revert bs. induction l as [|c l IH]; intros bs; simpl; [lia|].
  pose proof (rm_one_out env opts c bs) as H1. destruct (rm_one env opts c bs) as [bs1 o1].
  specialize (IH bs1). destruct (rm_loop env opts l bs1) as [bs2 o2]. simpl in *.
  rewrite length_app. lia.
Qed.

(** C14.  RmBlocks never touches a block that the pinner reports as pinned nor one
    it was not asked to remove, never adds a block, and, given at least one CID,
    sends at most as many results as its channel holds: it never waits for a
    reader while it holds the collector's lock. *)
Theorem RmBlocks_safe env opts cids bs :
  (∀ r, CheckIfPinned env cids = Ok r → check_spec env cids r) →
  (RmBlocks env opts cids bs).1 ⊆ bs ∧
  (∀ k, (∀ r p, CheckIfPinned env cids = Ok r → p ∈ r → pinned_Key p = k → is_pinned p = true) →
        (RmBlocks env opts cids bs).1 !! k = bs !! k) ∧
  (cids ≠ [] → length (RmBlocks env opts cids bs).2 ≤ rm_chan_cap cids).
Proof.
  intros Hcheck. unfold RmBlocks, FilterPinned, rm_chan_cap.
  destruct (CheckIfPinned env cids) as [res|e].
  2: { simpl. split_and!; [done..|]. destruct cids; simpl; [done|lia]. }
  set (still := pinned_Key <$> filter (λ r, is_pinned r = false) res).
  pose proof (rm_loop_subset env opts still bs) as Hsub.
  pose proof (rm_loop_frame env opts still bs) as Hfr.
  pose proof (rm_loop_out env opts still bs) as Hout.
  destruct (rm_loop env opts still bs) as [bs' out]. simpl in *. split_and!; [done| |].
  - intros k Hk. apply Hfr. intros (p & -> & [Hp Hin]%list_elem_of_filter)%list_elem_of_fmap.
    rewrite (Hk res p) in Hp; done.
  - intros _. destruct (Hcheck res eq_refl) as (_ & Hnd & Hin).
    assert (length res ≤ length cids) as Hlen.
    { rewrite <- (length_fmap pinned_Key res). by apply submseteq_length. }
    rewrite length_app, length_fmap. unfold still in Hout. rewrite length_fmap in Hout.
    assert (length (filter (λ r, is_pinned r = true) res)
            + length (filter (λ r, is_pinned r = false) res) = length res) as Hsplit; [|lia].
    clear. induction res as [|r res IH]; [done|]. rewrite !filter_cons. simpl.
    destruct (is_pinned r); simpl; lia.
Qed.

Lemma ProcRmOutput_ok results failed serr sout :
  ProcRmOutput results failed = (None, serr, sout) →
  failed = false ∧ Forall (λ r, Error r = "") results ∧ serr = [] ∧
  sout = (λ r, "removed " +:+ Hash r) <$> results.
Proof.
  revert failed serr sout. induction results as [|r results IH]; intros failed serr sout; simpl.
  { destruct failed; [done|]. intros [= <- <-]. by split_and!. }
  destruct (decide (Hash r = "" ∧ Error r ≠ "")); [done|].
  destruct (decide (Error r ≠ "")) as [He|He].
  - destruct (ProcRmOutput results true) as [[e serr'] sout'] eqn:Hp. intros [= -> _ _].
    by destruct (IH _ _ _ Hp).
  - destruct (ProcRmOutput results failed) as [[e serr'] sout'] eqn:Hp. intros [= -> <- <-].
    destruct (IH _ _ _ Hp) as (-> & ? & -> & ->). split_and!; [done| |done..].
    constructor; [|done]. by apply dec_stable.
Qed.

(** Errors have a message; without one the protocol of RemovedBlock cannot carry them. *)
Definition errors_have_text (env : RmEnv) : Prop :=
  ∀ c, Has_err env c ≠ Some "" ∧ DeleteBlock_err env c ≠ Some "".

Lemma rm_loop_ok env opts l bs :
  errors_have_text env → Forall (λ r, Error r = "") (rm_loop env opts l bs).2 →
  ∀ c, c ∈ l → (rm_loop env opts l bs).1 !! c = None.
Proof.
  intros Htxt. revert bs. induction l as [|c l IH]; intros bs; simpl.
  { intros _ c Hc. by apply not_elem_of_nil in Hc. }
  destruct (rm_one env opts c bs) as [bs1 o1] eqn:H1.
  pose proof (rm_loop_subset env opts l bs1) as Hsub. specialize (IH bs1).
  destruct (rm_loop env opts l bs1) as [bs2 o2]. simpl in *.
  intros [Ho1 Ho2]%Forall_app x [->|Hx]%elem_of_cons; [|auto].
  eapply lookup_weaken_None; [|exact Hsub]. revert H1 Ho1. unfold rm_one.
  destruct (Htxt c) as [Hh Hd]. destruct (Has_err env c) as [e|].
  { intros [= <- <-] [?%eq_sym ?]%Forall_cons. simpl in *. congruence. }
  destruct (_ && _); [by intros [= <- <-] [? ?]%Forall_cons|].
  destruct (DeleteBlock_err env c) as [e|].
  { intros [= <- <-] [?%eq_sym ?]%Forall_cons. simpl in *. congruence. }
  intros [= <- _] _. apply lookup_delete_eq.
Qed.

(** When the command reports success, that is when ProcRmOutput returns no
    error on the results of RmBlocks, none of the CIDs given was pinned and none
    of them is stored any more. *)
Theorem block_rm_success env opts cids bs res serr sout :
  check_spec env cids res → errors_have_text env →
  ProcRmOutput (RmBlocks env opts cids bs).2 false = (None, serr, sout) →
  (∀ c, c ∈ cids → (RmBlocks env opts cids bs).1 !! c = None) ∧
  Forall (λ p, is_pinned p = false) res.
Proof.
  intros (Hc & _ & Hin) Htxt (_ & Hall & _ & _)%ProcRmOutput_ok. revert Hall.
  unfold RmBlocks, FilterPinned. rewrite Hc.
  set (still := pinned_Key <$> filter (λ r, is_pinned r = false) res).
  pose proof (rm_loop_ok env opts still bs Htxt) as Hok.
  destruct (rm_loop env opts still bs) as [bs' out]. simpl in *.
  intros [Hpin Hout]%Forall_app.
  assert (Forall (λ p, is_pinned p = false) res) as Hnp.
  { apply Forall_forall. intros p Hp. destruct (is_pinned p) eqn:Hpp; [exfalso|done].
    rewrite Forall_fmap, Forall_forall in Hpin.
    specialize (Hpin p ltac:(apply list_elem_of_filter; done)). simpl in Hpin.
    unfold pinned_String in Hpin. by destruct (pinned_Mode p). }
  split; [|done]. intros c (p & -> & Hp)%Hin%list_elem_of_fmap. apply Hok; [done|].
  apply list_elem_of_fmap. exists p. split; [done|]. apply list_elem_of_filter.
  split; [|done]. rewrite Forall_forall in Hnp. by apply Hnp.
Qed.

(** With no CID to remove, a failing pin check sends one result to a channel
    of capacity zero: the goroutine waits for a reader while it holds the lock. *)
Theorem RmBlocks_empty_overflow env opts bs e :
  CheckIfPinned env [] = Err e →
  rm_chan_cap [] < length (RmBlocks env opts [] bs).2.
Proof. intros He. unfold RmBlocks, FilterPinned, rm_chan_cap. rewrite He. simpl. lia. Qed.

Module BlockRmExample.

Definition leaf (name : string) : Cid := CidV1 Raw (mkMultihash mh_ID name).

Definition env : RmEnv := {|
  CheckIfPinned := λ cids,
    Ok ((λ c, mkPinned c (if decide (c = leaf "p") then PinRecursive else NotPinned) Undef)
          <$> dedup_from ∅ cids);
  Has_err := λ _, None; DeleteBlock_err := λ _, None;
  cid_String := λ c, mh_digest (cid_Hash c) |}.

Lemma env_check cids r : CheckIfPinned env cids = Ok r → check_spec env cids r.
Proof.
  simpl. intros [= <-].
  assert (∀ c, c ∈ dedup_from ∅ cids ↔ c ∈ cids) as Hin by (intros c; rewrite elem_of_dedup_from; set_solver).
  split_and!; [done|..]; rewrite <- list_fmap_compose, (list_fmap_ext _ id), list_fmap_id by done; [|done].
  apply NoDup_submseteq; [apply NoDup_dedup_from|]. intros c. apply Hin.
Qed.

Definition bs : gmap Cid string := {[leaf "p" := "x"; leaf "q" := "y"]}.

End BlockRmExample.

Lemma RmBlocks_safe_witness :
  (RmBlocks BlockRmExample.env (mkRmOpts false false) [BlockRmExample.leaf "p"; BlockRmExample.leaf "q"]
     BlockRmExample.bs).1 ⊆ BlockRmExample.bs.
Proof. apply RmBlocks_safe. apply BlockRmExample.env_check. Defined.

Lemma block_rm_success_witness :
  (RmBlocks BlockRmExample.env (mkRmOpts false false) [BlockRmExample.leaf "q"] BlockRmExample.bs).1
    !! BlockRmExample.leaf "q" = None.
Proof.
  eapply (block_rm_success BlockRmExample.env (mkRmOpts false false) [BlockRmExample.leaf "q"]
    BlockRmExample.bs [mkPinned (BlockRmExample.leaf "q") NotPinned Undef] [] ["removed q"]).
  - by apply BlockRmExample.env_check.
  - by intros c.
  - by vm_compute.
  - by left.
Defined.

Lemma RmBlocks_empty_overflow_witness :
  rm_chan_cap [] < length (RmBlocks (mkRmEnv (λ _, Err "no index") (λ _, None) (λ _, None) (λ _, ""))
    (mkRmOpts false false) [] ∅).2.
Proof. by eapply RmBlocks_empty_overflow. Defined.
