(* ===== verification/Peering.v ===== *)
(** * The peering service (src/peering/peering.go)

    The service keeps connections to configured peers: one handler per peer with
    a reconnect timer whose delay backs off.  Each critical section is one step:
    handlers live in a heap because goroutines and timers keep referring to them
    after they are removed, the goroutines spawned and not run yet are pending
    tasks, and the network's connections change under the service.  A label
    resolves each choice, including the random numbers. *)

From Stdlib Require Import ZArith.
From S2P Require Import Prelude.
From stdpp Require Import base gmap sets list strings.

(** ** Data *)

(** Durations in nanoseconds. *)
Definition maxBackoff : Z := 600000000000.
Definition maxBackoffJitter : Z := 10.
Definition initialDelay : Z := 5000000000.

Inductive svc_state := stateInit | stateRunning | stateStopped.

#[export] Instance svc_state_eq_dec : EqDecision svc_state.
Proof. solve_decision. Defined.

(** peerHandler; [reconnectTimer] is nil, or a timer that is armed or has fired. *)
Record peerHandler := mkHandler {
  h_peer : string;
  h_addrs : list string;
  reconnectTimer : option bool;
  nextDelay : Z;
  h_cancelled : bool;
}.

(** What a goroutine or an expired timer is about to run on a handler. *)
Inductive Task :=
  | TStart (h : nat)      (* startIfDisconnected *)
  | TStop (h : nat)       (* stopIfConnected *)
  | TReconnect (h : nat)  (* reconnect, up to the result of Connect *)
  | TReset (h : nat).     (* reconnect, after a failure of Connect *)

#[export] Instance Task_eq_dec : EqDecision Task.
Proof. solve_decision. Defined.

(** PeeringService with its handlers, its host's connection manager and
    notifications, the pending goroutines and the network. *)
Record PeeringService := mkPS {
  handlers : gmap nat peerHandler;
  next_id : nat;
  peers : gmap string nat;
  ps_state : svc_state;
  protected : gset string;
  notifying : bool;
  tasks : list Task;
  connected : gset string;
}.

Definition NewPeeringService (conns : gset string) : PeeringService :=
  mkPS ∅ 0 ∅ stateInit ∅ false [] conns.

(** Field updates. *)
Definition set_handler (h : nat) (hd : peerHandler) (s : PeeringService) : PeeringService :=
  mkPS (<[h := hd]> (handlers s)) (next_id s) (peers s) (ps_state s) (protected s) (notifying s)
    (tasks s) (connected s).
Definition set_tasks (ts : list Task) (s : PeeringService) : PeeringService :=
  mkPS (handlers s) (next_id s) (peers s) (ps_state s) (protected s) (notifying s) ts (connected s).
Definition spawn (ts : list Task) (s : PeeringService) : PeeringService := set_tasks (tasks s ++ ts) s.
Definition set_connected (cs : gset string) (s : PeeringService) : PeeringService :=
  mkPS (handlers s) (next_id s) (peers s) (ps_state s) (protected s) (notifying s) (tasks s) cs.

(** ** The handler *)

(** peerHandler.stop *)
Definition stop (hd : peerHandler) : peerHandler :=
  mkHandler (h_peer hd) (h_addrs hd) None (nextDelay hd) true.

(** The ranges of the two calls of rand.Int63n; the first panics on a
    non-positive argument. *)
Definition rand_ok (hd : peerHandler) (r1 r2 : Z) : Prop :=
  (0 ≤ r1 < nextDelay hd)%Z ∧ (0 ≤ r2 < maxBackoff * maxBackoffJitter / 100)%Z.

(** peerHandler.nextBackoff, on int64 durations. *)
Definition nextBackoff (r1 r2 : Z) (d : Z) : Z :=
  let d := if (d <? maxBackoff)%Z then i64 (d + i64 (d ÷ 2 + r1)) else d in
  if (maxBackoff <? d)%Z then i64 (maxBackoff - r2) else d.

Definition arm (r1 r2 : Z) (hd : peerHandler) : peerHandler :=
  mkHandler (h_peer hd) (h_addrs hd) (Some true) (nextBackoff r1 r2 (nextDelay hd)) (h_cancelled hd).

(** peerHandler.startIfDisconnected *)
Definition startIfDisconnected (conns : gset string) (r1 r2 : Z) (hd : peerHandler) : peerHandler :=
  match reconnectTimer hd with
  | None => if decide (h_peer hd ∈ conns) then hd else arm r1 r2 hd
  | Some _ => hd
  end.

(** peerHandler.stopIfConnected *)
Definition stopIfConnected (conns : gset string) (hd : peerHandler) : peerHandler :=
  match reconnectTimer hd with
  | Some _ => if decide (h_peer hd ∈ conns)
              then mkHandler (h_peer hd) (h_addrs hd) None initialDelay (h_cancelled hd) else hd
  | None => hd
  end.

(** The failure branch of reconnect. *)
Definition reset_timer (r1 r2 : Z) (hd : peerHandler) : peerHandler :=
  match reconnectTimer hd with Some _ => arm r1 r2 hd | None => hd end.

(** peerHandler.setAddrs *)
Definition setAddrs (addrs : list string) (hd : peerHandler) : peerHandler :=
  mkHandler (h_peer hd) addrs (reconnectTimer hd) (nextDelay hd) (h_cancelled hd).

(** ** The service *)

(** PeeringService.Start *)
Definition Start (s : PeeringService) : res string unit * PeeringService :=
  match ps_state s with
  | stateRunning => (Ok (), s)
  | stateStopped => (Err "already stopped", s)
  | stateInit =>
      (Ok (), mkPS (handlers s) (next_id s) (peers s) stateRunning (protected s) true
                (tasks s ++ (TStart <$> (map_to_list (peers s)).*2)) (connected s))
  end.

(** PeeringService.Stop, as one step: no other runs between its StopNotify and the
    section it guards by the mutex, where the service still runs and hears no more. *)
Definition Stop (s : PeeringService) : PeeringService :=
  match ps_state s with
  | stateStopped =>
      mkPS (handlers s) (next_id s) (peers s) stateStopped (protected s) false (tasks s) (connected s)
  | _ =>
      mkPS (map_imap (λ h hd, Some (if decide (peers s !! h_peer hd = Some h) then stop hd else hd))
              (handlers s))
        (next_id s) (peers s) stateStopped (protected s) false (tasks s) (connected s)
  end.

(** PeeringService.AddPeer *)
Definition AddPeer (id : string) (addrs : list string) (s : PeeringService) : PeeringService :=
  match peers s !! id with
  | Some h =>
      match handlers s !! h with
      | Some hd => set_handler h (setAddrs addrs hd) s
      | None => s
      end
  | None =>
      let h := next_id s in
      let hd := mkHandler id addrs None initialDelay (bool_decide (ps_state s = stateStopped)) in
      mkPS (<[h := hd]> (handlers s)) (S h) (<[id := h]> (peers s)) (ps_state s)
        ({[id]} ∪ protected s) (notifying s)
        (tasks s ++ (if decide (ps_state s = stateRunning) then [TStart h] else [])) (connected s)
  end.

(** PeeringService.RemovePeer *)
Definition RemovePeer (id : string) (s : PeeringService) : PeeringService :=
  match peers s !! id with
  | Some h =>
      mkPS (alter stop h (handlers s)) (next_id s) (delete id (peers s)) (ps_state s)
        (protected s ∖ {[id]}) (notifying s) (tasks s) (connected s)
  | None => s
  end.

(** PeeringService.ListPeers *)
Definition ListPeers (s : PeeringService) : list (string * list string) :=
  (λ '(id, h), (id, match handlers s !! h with Some hd => h_addrs hd | None => [] end))
    <$> map_to_list (peers s).

(** netNotifee.Connected and Disconnected: spawn the task of the peer's handler. *)
Definition notify (mk : nat → Task) (p : string) (s : PeeringService) : PeeringService :=
  if notifying s then match peers s !! p with Some h => spawn [mk h] s | None => s end else s.

Definition net_up (p : string) (s : PeeringService) : PeeringService :=
  notify TStop p (set_connected ({[p]} ∪ connected s) s).
Definition net_down (p : string) (s : PeeringService) : PeeringService :=
  notify TStart p (set_connected (connected s ∖ {[p]}) s).

(** ** Steps *)

Inductive Label :=
  | LStart | LStop
  | LAddPeer (id : string) (addrs : list string)
  | LRemovePeer (id : string)
  | LNetUp (p : string) | LNetDown (p : string)
  | LFire (h : nat)
  | LRun (i : nat) (ok : bool) (r1 r2 : Z).

(** Run a task on its handler; [ok] is the result of host.Connect. *)
Definition run_task (t : Task) (ok : bool) (r1 r2 : Z) (s : PeeringService) : option PeeringService :=
  match t with
  | TStart h =>
      hd ← handlers s !! h;
      guard (rand_ok hd r1 r2);;
      Some (set_handler h (startIfDisconnected (connected s) r1 r2 hd) s)
  | TStop h =>
      hd ← handlers s !! h;
      Some (set_handler h (stopIfConnected (connected s) hd) s)
  | TReconnect h =>
      hd ← handlers s !! h;
      Some (if ok : bool then spawn [TStop h] (net_up (h_peer hd) s) else spawn [TReset h] s)
  | TReset h =>
      hd ← handlers s !! h;
      guard (rand_ok hd r1 r2);;
      Some (spawn [TStop h] (set_handler h (reset_timer r1 r2 hd) s))
  end.

#[export] Instance rand_ok_dec hd r1 r2 : Decision (rand_ok hd r1 r2).
Proof. unfold rand_ok. apply _. Defined.

Definition exec (l : Label) (s : PeeringService) : option PeeringService :=
  match l with
  | LStart => Some (Start s).2
  | LStop => Some (Stop s)
  | LAddPeer id addrs => Some (AddPeer id addrs s)
  | LRemovePeer id => Some (RemovePeer id s)
  | LNetUp p => Some (net_up p s)
  | LNetDown p => Some (net_down p s)
  | LFire h =>
      hd ← handlers s !! h;
      guard (reconnectTimer hd = Some true);;
      Some (spawn [TReconnect h]
        (set_handler h (mkHandler (h_peer hd) (h_addrs hd) (Some false) (nextDelay hd) (h_cancelled hd)) s))
  | LRun i ok r1 r2 =>
      t ← tasks s !! i;
      run_task t ok r1 r2 (set_tasks (delete i (tasks s)) s)
  end.

(** The states the service can reach from its construction. *)
Inductive reachable (conns : gset string) : PeeringService → Prop :=
  | reach_new : reachable conns (NewPeeringService conns)
  | reach_step s l s' : reachable conns s → exec l s = Some s' → reachable conns s'.

Fixpoint exec_all (ls : list Label) (s : PeeringService) : option PeeringService :=
  match ls with
  | [] => Some s
  | l :: ls' => s' ← exec l s; exec_all ls' s'
  end.

Lemma exec_all_reachable conns ls s s' :
  reachable conns s → exec_all ls s = Some s' → reachable conns s'.
Proof.
  revert s. induction ls as [|l ls IH]; intros s Hr; simpl; [by intros [= <-]|].
  destruct (exec l s) as [s1|] eqn:H1; [|done]. simpl. apply IH. by eapply reach_step.
Qed.

(** ** Backoff *)

Lemma nextBackoff_range r1 r2 d :
  (initialDelay ≤ d ≤ maxBackoff)%Z → (0 ≤ r1 < d)%Z →
  (0 ≤ r2 < maxBackoff * maxBackoffJitter / 100)%Z →
  (initialDelay ≤ nextBackoff r1 r2 d ≤ maxBackoff)%Z ∧
  (Z.min (d + d / 2) (maxBackoff - maxBackoff * maxBackoffJitter / 100) ≤ nextBackoff r1 r2 d)%Z.
Proof.
  intros Hd H1 H2. unfold nextBackoff.
  assert ((maxBackoff * maxBackoffJitter / 100)%Z = 60000000000%Z) as Hj by done.
  rewrite Hj in *. unfold initialDelay, maxBackoff in *.
  assert (d ÷ 2 = d / 2)%Z as Hq by (apply Z.quot_div_nonneg; lia). rewrite Hq.
  assert (0 ≤ d / 2 ≤ d)%Z by (split; [apply Z.div_pos; lia|apply Z.div_le_upper_bound; lia]).
  rewrite !i64_small by (rewrite ?i64_small; unfold i64_min, i64_max; lia).
  destruct (Z.ltb_spec d 600000000000); destruct (Z.ltb_spec 600000000000 (d + (d / 2 + r1)));
    destruct (Z.ltb_spec 600000000000 d); lia.
Qed.

(** ** Invariant *)

Definition delay_ok (hd : peerHandler) : Prop := (initialDelay ≤ nextDelay hd ≤ maxBackoff)%Z.

(** [h] is the handler of a registered peer. *)
Definition registered (s : PeeringService) (h : nat) (hd : peerHandler) : Prop :=
  handlers s !! h = Some hd ∧ peers s !! h_peer hd = Some h.

Record Inv (s : PeeringService) : Prop := {
  inv_fresh : ∀ h, is_Some (handlers s !! h) → h < next_id s;
  inv_peers : ∀ p h, peers s !! p = Some h → ∃ hd, handlers s !! h = Some hd ∧ h_peer hd = p;
  inv_delay : ∀ h hd, handlers s !! h = Some hd → delay_ok hd;
  inv_protected : protected s = dom (peers s);
  inv_notify : notifying s = true ↔ ps_state s = stateRunning;
  inv_init : ps_state s = stateInit → tasks s = [] ∧
    ∀ h hd, handlers s !! h = Some hd → reconnectTimer hd = None;
  inv_cancel : ∀ h hd, handlers s !! h = Some hd →
    (h_cancelled hd = false ↔ ps_state s ≠ stateStopped ∧ peers s !! h_peer hd = Some h);
}.

(** While the service runs, a disconnected peer has a timer or will get one. *)
Definition live (s : PeeringService) : Prop :=
  ∀ h hd, ps_state s = stateRunning → registered s h hd →
    h_peer hd ∉ connected s → reconnectTimer hd = None → TStart h ∈ tasks s.

Lemma Inv_new conns : Inv (NewPeeringService conns).
Proof. split; simpl; try done; try (by intros *; rewrite lookup_empty). Qed.

Lemma live_new conns : live (NewPeeringService conns).
Proof. intros h hd [=]. Qed.

Lemma Inv_set_tasks s ts : Inv s → ps_state s ≠ stateInit ∨ ts = [] → Inv (set_tasks ts s).
Proof.
  intros [Hf Hp Hd Hpr Hn Hi Hc] Hts. split; simpl; try done.
  intros Hs. destruct (Hi Hs). split; [|done]. by destruct Hts.
Qed.

Lemma Inv_set_connected s cs : Inv s → Inv (set_connected cs s).
Proof. by intros [Hf Hp Hd Hpr Hn Hi Hc]. Qed.

(** Changing a handler's timer, delay and addresses only. *)
Lemma Inv_set_handler s h hd hd' :
  Inv s → handlers s !! h = Some hd →
  h_peer hd' = h_peer hd → h_cancelled hd' = h_cancelled hd → delay_ok hd' →
  ps_state s ≠ stateInit ∨ reconnectTimer hd' = None →
  Inv (set_handler h hd' s).
Proof.
  intros [Hf Hp Hd Hpr Hn Hi Hc] Hh Hpe Hca Hde Hin. split; simpl in *; try done.
  - intros x. rewrite lookup_insert_is_Some. intros [->|[_ ?]]; [apply Hf; eauto|auto].
  - intros p x Hx. destruct (Hp p x Hx) as (hd0 & H0 & <-). destruct (decide (h = x)) as [->|].
    + exists hd'. rewrite lookup_insert_eq. split; [done|]. congruence.
    + exists hd0. by rewrite lookup_insert_ne.
  - intros x hx. rewrite lookup_insert. case_decide; [by intros [= <-]|apply Hd].
  - intros Hs. destruct (Hi Hs) as [Ht Hno]. split; [done|]. intros x hx. rewrite lookup_insert.
    case_decide; [|apply Hno]. intros [= <-]. by destruct Hin.
  - intros x hx. rewrite lookup_insert. case_decide; [|apply Hc]. subst x. intros [= <-].
    rewrite Hca, Hpe. by apply Hc.
Qed.

(** Only the handler updated can lose its promise; the tasks kept are enough for
    the others. *)
Lemma live_set_handler s h hd hd' :
  handlers s !! h = Some hd → h_peer hd' = h_peer hd →
  (∀ x hx, x ≠ h → ps_state s = stateRunning → registered s x hx →
     h_peer hx ∉ connected s → reconnectTimer hx = None → TStart x ∈ tasks s) →
  (ps_state s = stateRunning → registered s h hd → h_peer hd ∉ connected s →
     reconnectTimer hd' = None → TStart h ∈ tasks s) →
  live (set_handler h hd' s).
Proof.
  intros Hh Hpe Hother Hself x hx Hs [Hx Hreg] Hcn Ht. simpl in *.
  rewrite lookup_insert in Hx. case_decide.
  - subst x. injection Hx as <-. rewrite Hpe in *. apply Hself; [done|by split|done..].
  - eapply Hother; [done|done|by split|done..].
Qed.

Lemma live_spawn s ts : live s → live (spawn ts s).
Proof. intros Hl h hd Hs Hr Hc Ht. simpl. apply elem_of_app. left. by eapply Hl. Qed.

Lemma Inv_spawn s ts : Inv s → ps_state s ≠ stateInit → Inv (spawn ts s).
Proof. intros. apply Inv_set_tasks; auto. Qed.

Lemma running_not_init s : Inv s → notifying s = true → ps_state s ≠ stateInit.
Proof. intros HI Hn%(inv_notify _ HI). congruence. Qed.

Lemma has_task_not_init s i t : Inv s → tasks s !! i = Some t → ps_state s ≠ stateInit.
Proof. intros HI Ht Hs. destruct (inv_init _ HI Hs) as [He _]. by rewrite He in Ht. Qed.

Lemma Inv_notify mk p s : Inv s → Inv (notify mk p s).
Proof.
  intros HI. unfold notify. destruct (notifying s) eqn:Hn; [|done].
  destruct (peers s !! p); [|done]. by apply Inv_spawn, running_not_init.
Qed.

Lemma Inv_net_up p s : Inv s → Inv (net_up p s).
Proof. intros. by apply Inv_notify, Inv_set_connected. Qed.

Lemma Inv_net_down p s : Inv s → Inv (net_down p s).
Proof. intros. by apply Inv_notify, Inv_set_connected. Qed.

Lemma live_net_up p s : live s → live (net_up p s).
Proof.
  intros Hl. unfold net_up, notify. simpl.
  assert (live (set_connected ({[p]} ∪ connected s) s)) as Hl'.
  { intros h hd Hs Hr Hc Ht. simpl in *. eapply Hl; [done..| |done]. set_solver. }
  destruct (notifying s); [|done]. destruct (peers s !! p); [|done]. by apply live_spawn.
Qed.

Lemma live_net_down p s : Inv s → live s → live (net_down p s).
Proof.
  intros HI Hl h hd Hs [Hh Hreg] Hc Ht. unfold net_down, notify in *.
  destruct (notifying s) eqn:Hn; simpl in *; rewrite Hn in *.
  - destruct (decide (h_peer hd = p)) as [<-|Hne].
    + simpl in *. destruct (peers s !! h_peer hd) eqn:Hp; simpl in *; rewrite Hp in *; simpl in *;
        [|done]. simplify_eq. apply elem_of_app. right. by left.
    + destruct (peers s !! p); simpl in *; [apply elem_of_app; left|];
        (eapply Hl; [done|by split|set_solver|done]).
  - apply (inv_notify _ HI) in Hs. congruence.
Qed.

(** *** The service's operations *)

Lemma Start_preserves s : Inv s → live s → Inv (Start s).2 ∧ live (Start s).2.
Proof.
  intros HI Hl. unfold Start. destruct (ps_state s) eqn:Hs; [|done..].
  destruct HI as [Hf Hp Hd Hpr Hn Hi Hc]. split.
  - split; simpl; try done. intros h hd Hh. rewrite (Hc h hd Hh), Hs. naive_solver.
  - intros h hd _ [Hh Hreg] _ _. simpl in *. apply elem_of_app. right.
    apply list_elem_of_fmap. exists h. split; [done|]. apply list_elem_of_fmap.
    exists (h_peer hd, h). split; [done|]. by apply elem_of_map_to_list.
Qed.

Lemma Stop_preserves s : Inv s → Inv (Stop s) ∧ live (Stop s).
Proof.
  intros [Hf Hp Hd Hpr Hn Hi Hc]. unfold Stop.
  assert (∀ h hd, map_imap (λ h hd, Some (if decide (peers s !! h_peer hd = Some h) then stop hd else hd))
      (handlers s) !! h = Some hd → ∃ hd0, handlers s !! h = Some hd0 ∧ h_peer hd = h_peer hd0 ∧
        nextDelay hd = nextDelay hd0 ∧ (h_cancelled hd = true ∨ peers s !! h_peer hd ≠ Some h ∧ hd = hd0))
    as Hmap.
  { intros h hd. rewrite map_lookup_imap. destruct (handlers s !! h) as [hd0|]; simpl; [|done].
    intros [= <-]. exists hd0. case_decide; simpl; eauto 10. }
  destruct (ps_state s) eqn:Hs; (split; [|by intros ? ?]); split; simpl; try done.
  1,5: intros h [hd (hd0 & H0 & _)%Hmap]; apply Hf; eauto.
  1,4: intros p h (hd0 & H0 & <-)%Hp; rewrite map_lookup_imap, H0; simpl;
       eexists; split; [done|]; by case_decide.
  1,3: intros h hd (hd0 & H0 & _ & H1 & _)%Hmap; unfold delay_ok; rewrite H1; by apply (Hd h).
  1,2: intros h hd (hd0 & H0 & H1 & H2 & [H3|[H3 ->]])%Hmap; [rewrite H3; naive_solver|];
       rewrite (Hc h hd0 H0); naive_solver.
Qed.

Lemma AddPeer_preserves id addrs s :
  Inv s → live s → Inv (AddPeer id addrs s) ∧ live (AddPeer id addrs s).
Proof.
  intros HI Hl. unfold AddPeer. destruct (peers s !! id) as [h|] eqn:Hid.
  { destruct (inv_peers _ HI _ _ Hid) as (hd & Hh & Hpe). rewrite Hh. split.
    - apply (Inv_set_handler s h hd); try done; [exact (inv_delay _ HI h hd Hh)|].
      destruct (decide (ps_state s = stateInit)) as [Hs|]; [|by left]. right.
      exact (proj2 (inv_init _ HI Hs) h hd Hh).
    - apply (live_set_handler s h hd); try done; eauto. }
  assert (handlers s !! next_id s = None) as Hnew.
  { destruct (handlers s !! next_id s) eqn:He; [|done].
    assert (next_id s < next_id s) by (apply (inv_fresh _ HI); eauto). lia. }
  destruct HI as [Hf Hp Hd Hpr Hn Hi Hc]. split.
  - split; simpl; try done.
    + intros h. rewrite lookup_insert_is_Some. intros [<-|[_ ?%Hf]]; lia.
    + intros p h. rewrite lookup_insert. case_decide.
      * intros [= <-]. eexists. rewrite lookup_insert_eq. done.
      * intros (hd & Hh & <-)%Hp. exists hd. rewrite lookup_insert_ne by congruence. done.
    + intros h hd. rewrite lookup_insert. case_decide; [|apply Hd]. intros [= <-].
      unfold delay_ok, initialDelay, maxBackoff; simpl. unfold initialDelay. lia.
    + rewrite dom_insert_L, Hpr. done.
    + intros Hs. destruct (Hi Hs) as [Ht Hno]. rewrite Ht, decide_False by congruence. split; [done|].
      intros h hd. rewrite lookup_insert. case_decide; [by intros [= <-]|apply Hno].
    + intros h hd. rewrite lookup_insert. case_decide as Hh.
      * subst h. intros [= <-]. simpl. rewrite lookup_insert_eq, bool_decide_eq_false. naive_solver.
      * intros H0. rewrite (Hc h hd H0). rewrite lookup_insert. case_decide as Hid'; [|done].
        subst id. rewrite Hid. naive_solver.
  - intros h hd Hs [Hh Hreg] Hcn Ht. simpl in *. rewrite Hs, decide_True by done.
    apply elem_of_app. rewrite lookup_insert in Hh. case_decide; [right; subst; by left|].
    left. eapply Hl; [done| |done..]. split; [done|]. rewrite lookup_insert in Hreg.
    case_decide; [|done]. by simplify_eq.
Qed.

Lemma RemovePeer_preserves id s :
  Inv s → live s → Inv (RemovePeer id s) ∧ live (RemovePeer id s).
Proof.
  intros HI Hl. unfold RemovePeer. destruct (peers s !! id) as [h|] eqn:Hid; [|done].
  destruct HI as [Hf Hp Hd Hpr Hn Hi Hc].
  destruct (Hp _ _ Hid) as (hd0 & Hh0 & Hpe0). split.
  - split; simpl; try done.
    + intros x. rewrite lookup_alter_is_Some. apply Hf.
    + intros p x. rewrite lookup_delete_Some. intros [Hne (hd & Hx & <-)%Hp].
      destruct (decide (h = x)) as [->|]; [congruence|].
      exists hd. by rewrite lookup_alter_ne.
    + intros x hd. rewrite lookup_alter_Some. intros [(-> & hd1 & H1 & ->)|[_ H1]];
        [unfold delay_ok; simpl|]; by eapply Hd.
    + rewrite dom_delete_L, Hpr. done.
    + intros Hs. destruct (Hi Hs) as [Ht Hno]. split; [done|]. intros x hd.
      rewrite lookup_alter_Some. intros [(-> & hd1 & H1 & ->)|[_ H1]]; [done|by eapply Hno].
    + intros x hd. rewrite lookup_alter_Some. intros [(-> & hd1 & H1 & ->)|[Hne H1]]; simpl.
      * split; [done|]. intros [_ Hx]. simplify_eq. by rewrite lookup_delete_eq in Hx.
      * rewrite (Hc x hd H1). rewrite lookup_delete. case_decide as Hid'; [|done].
        rewrite <- Hid', Hid. naive_solver.
  - intros x hd Hs [Hx Hreg] Hcn Ht. simpl in *. apply lookup_delete_Some in Hreg as [Hne Hreg].
    apply lookup_alter_Some in Hx as [(-> & hd1 & H1 & ->)|[Hne' H1]].
    + simpl in *. by simplify_eq.
    + eapply Hl; [done|by split|done..].
Qed.

(** *** The handlers' steps *)

Lemma stopIfConnected_same conns hd :
  h_peer (stopIfConnected conns hd) = h_peer hd ∧
  h_cancelled (stopIfConnected conns hd) = h_cancelled hd ∧
  (delay_ok hd → delay_ok (stopIfConnected conns hd)) ∧
  (reconnectTimer (stopIfConnected conns hd) = None →
     reconnectTimer hd = None ∨ h_peer hd ∈ conns).
Proof.
  unfold stopIfConnected, delay_ok. repeat case_match; simpl; split_and!;
    first [done|unfold initialDelay, maxBackoff; lia|naive_solver].
Qed.

Lemma arm_ok r1 r2 hd : delay_ok hd → rand_ok hd r1 r2 → delay_ok (arm r1 r2 hd).
Proof. intros Hd [H1 H2]. by apply nextBackoff_range. Qed.

Lemma elem_of_delete_other (ts : list Task) i t x :
  ts !! i = Some t → x ∈ ts → x ≠ t → x ∈ delete i ts.
Proof.
  intros Hi Hx Hne. rewrite (delete_Permutation ts i t Hi) in Hx.
  by apply elem_of_cons in Hx as [->|].
Qed.

(** Taking out a task that is not a TStart keeps the promises. *)
Lemma live_take s i t :
  live s → tasks s !! i = Some t → (∀ h, t ≠ TStart h) → live (set_tasks (delete i (tasks s)) s).
Proof.
  intros Hl Hi Ht h hd Hs Hr Hc Hn. simpl. eapply elem_of_delete_other; [done| |congruence].
  by eapply Hl.
Qed.

Lemma run_task_preserves i t ok r1 r2 s s' :
  Inv s → live s → tasks s !! i = Some t →
  run_task t ok r1 r2 (set_tasks (delete i (tasks s)) s) = Some s' → Inv s' ∧ live s'.
Proof.
  intros HI Hl Hi. pose proof (has_task_not_init s i t HI Hi) as Hni.
  set (s0 := set_tasks (delete i (tasks s)) s).
  assert (Inv s0) as HI0 by (apply Inv_set_tasks; auto).
  destruct t as [h|h|h|h]; simpl; intros Hrun;
    destruct (handlers s !! h) as [hd|] eqn:Hh; simpl in Hrun; try done;
    pose proof (inv_delay _ HI h hd Hh) as Hdel.
  - case_guard as Hr; [|done]. simpl in Hrun. injection Hrun as <-. split.
    + apply (Inv_set_handler s0 h hd); try done; unfold startIfDisconnected;
        [by repeat case_match..| |by left]. repeat case_match; try done. by apply arm_ok.
    + apply (live_set_handler s0 h hd); [done|unfold startIfDisconnected; by repeat case_match|..].
      * intros x hx Hne Hs Hrx Hc Ht. simpl. eapply elem_of_delete_other; [done| |congruence].
        by eapply Hl.
      * intros _ _ Hc. unfold startIfDisconnected. destruct (reconnectTimer hd) eqn:Ht; [by rewrite Ht|].
        by rewrite decide_False.
  - injection Hrun as <-. destruct (stopIfConnected_same (connected s) hd) as (H1 & H2 & H3 & H4).
    pose proof (live_take s i _ Hl Hi ltac:(done)) as Hl0. split.
    + apply (Inv_set_handler s0 h hd); auto.
    + apply (live_set_handler s0 h hd); [done|done|intros; by eapply Hl0|].
      intros Hs Hr Hc [Ht|Ht]%H4; [by eapply Hl0|]. by destruct Hc.
  - pose proof (live_take s i _ Hl Hi ltac:(done)) as Hl0. destruct ok; injection Hrun as <-.
    + split; [|by apply live_spawn, live_net_up]. apply Inv_spawn; [by apply Inv_net_up|].
      unfold net_up, notify. by repeat case_match.
    + split; [by apply Inv_spawn|by apply live_spawn].
  - case_guard as Hr; [|done]. simpl in Hrun. injection Hrun as <-.
    pose proof (live_take s i _ Hl Hi ltac:(done)) as Hl0. split.
    + apply Inv_spawn; [|done]. apply (Inv_set_handler s0 h hd); try done; unfold reset_timer;
        [by repeat case_match..| |by left]. repeat case_match; try done. by apply arm_ok.
    + apply live_spawn. apply (live_set_handler s0 h hd);
        [done|unfold reset_timer; by repeat case_match|intros; by eapply Hl0|].
      intros Hs Hrg Hc Ht. eapply Hl0; [done|exact Hrg|done|]. revert Ht. unfold reset_timer.
      by destruct (reconnectTimer hd).
Qed.

Lemma exec_preserves l s s' : Inv s → live s → exec l s = Some s' → Inv s' ∧ live s'.
Proof.
  intros HI Hl. destruct l as [| |id addrs|id|p|p|h|i ok r1 r2]; simpl.
  - intros [= <-]. by apply Start_preserves.
  - intros [= <-]. by apply Stop_preserves.
  - intros [= <-]. by apply AddPeer_preserves.
  - intros [= <-]. by apply RemovePeer_preserves.
  - intros [= <-]. split; [by apply Inv_net_up|by apply live_net_up].
  - intros [= <-]. split; [by apply Inv_net_down|by apply live_net_down].
  - destruct (handlers s !! h) as [hd|] eqn:Hh; simpl; [|done]. case_guard as Ht; [|done]. simpl.
    intros [= <-]. assert (ps_state s ≠ stateInit) as Hni.
    { intros Hs. rewrite (proj2 (inv_init _ HI Hs) h hd Hh) in Ht. done. }
    split.
    + apply Inv_spawn; [|done]. apply (Inv_set_handler s h hd); try done; [|by left].
      exact (inv_delay _ HI h hd Hh).
    + apply live_spawn, (live_set_handler s h hd); try done. intros; by eapply Hl.
  - destruct (tasks s !! i) as [t|] eqn:Hi; simpl; [|done]. by apply run_task_preserves.
Qed.

Lemma reachable_inv conns s : reachable conns s → Inv s ∧ live s.
Proof.
  induction 1 as [|s l s' _ [HI Hl] Hs]; [split; [apply Inv_new|apply live_new]|].
  by eapply exec_preserves.
Qed.

(** ** Claims *)

(** From a delay between the initial and the maximal one, the next delay is
    again between them, no arithmetic overflows, and the delay grows by at least
    half until it comes within the jitter of the maximum. *)
Theorem nextBackoff_bounds r1 r2 d :
  (initialDelay ≤ d ≤ maxBackoff)%Z → (0 ≤ r1 < d)%Z →
  (0 ≤ r2 < maxBackoff * maxBackoffJitter / 100)%Z →
  (initialDelay ≤ nextBackoff r1 r2 d ≤ maxBackoff)%Z ∧
  (Z.min (d + d / 2) (maxBackoff - maxBackoff * maxBackoffJitter / 100) ≤ nextBackoff r1 r2 d)%Z.
Proof. apply nextBackoff_range. Qed.

Lemma nextBackoff_bounds_witness : (initialDelay ≤ nextBackoff 3000000000 0 initialDelay)%Z.
Proof.
  destruct (nextBackoff_bounds 3000000000 0 initialDelay) as [[H _] _]; [done..|exact H].
Defined.

(** C26.  In every state the service can reach, by any interleaving of its
    operations, goroutines, timers and network events: every delay is between the
    initial and the maximal one, so the random draw never panics; the connection
    manager protects exactly the registered peers; a handler's context is live
    exactly while its peer is registered and the service not stopped; nothing runs
    before Start; and while the service runs, a registered peer that is
    disconnected has a timer or a pending goroutine that will set one. *)
Theorem peering_invariant conns s :
  reachable conns s →
  (∀ h hd, handlers s !! h = Some hd → delay_ok hd) ∧
  protected s = dom (peers s) ∧
  (∀ h hd, handlers s !! h = Some hd →
     (h_cancelled hd = false ↔ ps_state s ≠ stateStopped ∧ peers s !! h_peer hd = Some h)) ∧
  (ps_state s = stateInit → tasks s = [] ∧
     ∀ h hd, handlers s !! h = Some hd → reconnectTimer hd = None) ∧
  (∀ h hd, ps_state s = stateRunning → registered s h hd → h_peer hd ∉ connected s →
     is_Some (reconnectTimer hd) ∨ TStart h ∈ tasks s).
Proof.
  intros [[Hf Hp Hd Hpr Hn Hi Hc] Hl]%reachable_inv. split_and!; [done..|].
  intros h hd Hs Hr Hcn. destruct (reconnectTimer hd) eqn:Ht; [by left; eexists|right].
  by eapply Hl.
Qed.

Module PeeringExample.

(** The peer is dialled successfully and the connection drops before the result
    of the dial is acted upon. *)
Definition dropped : list Label :=
  [LAddPeer "p" ["/ip4/1.2.3.4/tcp/4001"]; LStart; LRun 0 true 0 0; LFire 0; LRun 0 true 0 0;
   LNetDown "p"; LRun 0 true 0 0; LRun 0 true 0 0; LRun 0 true 0 0].

(** Stop overtakes the goroutine spawned by Start. *)
Definition overtaken : list Label :=
  [LAddPeer "p" []; LStart; LStop; LRun 0 true 0 0].

End PeeringExample.

Lemma peering_invariant_witness :
  ∃ s, exec_all (take 4 PeeringExample.dropped) (NewPeeringService ∅) = Some s ∧
    protected s = dom (peers s).
Proof.
  destruct (exec_all (take 4 PeeringExample.dropped) (NewPeeringService ∅)) as [s|] eqn:He;
    [|by vm_compute in He].
  exists s. split; [done|].
  apply (peering_invariant ∅). eapply exec_all_reachable; [apply reach_new|exact He].
Defined.

(** A handler whose timer has fired and been left behind, with nothing pending
    but notifications of disconnections. *)
Definition abandoned (p : string) (s : PeeringService) : Prop :=
  ∃ hd, h_peer hd = p ∧ handlers s = {[0 := hd]} ∧ reconnectTimer hd = Some false ∧
    h_peer hd ∉ connected s ∧ Forall (λ t, t = TStart 0) (tasks s) ∧
    ps_state s = stateRunning ∧ (∀ p h, peers s !! p = Some h → h = 0).

(** The steps of the service itself, and disconnections. *)
Definition internal (l : Label) : Prop :=
  match l with LStart | LFire _ | LRun _ _ _ _ | LNetDown _ => True | _ => False end.

Lemma abandoned_step q l s s' :
  abandoned q s → internal l → exec l s = Some s' → abandoned q s'.
Proof.
  intros (hd & Hq & Hh & Ht & Hc & Hts & Hs & Hp) Hl. destruct l; try done; simpl.
  - unfold Start. rewrite Hs. intros [= <-]. by exists hd.
  - intros [= <-]. unfold net_down, notify. simpl. destruct (notifying s).
    + destruct (peers s !! p) as [h|] eqn:Hph.
      * rewrite (Hp _ _ Hph) in *. exists hd. simpl. split_and!; try done; [set_solver|].
        apply Forall_app. split; [done|]. by constructor.
      * exists hd. simpl. split_and!; try done. set_solver.
    + exists hd. simpl. split_and!; try done. set_solver.
  - rewrite Hh, lookup_singleton. case_decide; simpl; [|done]. rewrite Ht. by case_guard.
  - destruct (tasks s !! i) as [t|] eqn:Hi; simpl; [|done].
    assert (t = TStart 0) as -> by (rewrite Forall_lookup in Hts; by eapply Hts).
    simpl. rewrite Hh, lookup_singleton_eq. simpl. case_guard; [|done]. simpl. intros [= <-].
    unfold startIfDisconnected. rewrite Ht. exists hd. simpl. split_and!; try done.
    + by rewrite Hh, insert_singleton_eq.
    + by apply Forall_delete.
Qed.

Lemma abandoned_run q ls s s' :
  abandoned q s → Forall internal ls → exec_all ls s = Some s' → abandoned q s'.
Proof.
  revert s. induction ls as [|l ls IH]; intros s Ha Hls; simpl; [by intros [= <-]|].
  apply Forall_cons in Hls as [Hl Hls]. destruct (exec l s) as [s1|] eqn:He; [|done]. simpl.
  apply IH; [by eapply abandoned_step|done].
Qed.

(** The service can lose a peer for good: if the connection drops between a
    successful dial and the check that follows it, a state is reached in which the
    service runs, the peer is registered and disconnected, nothing is pending,
    and from which, until a connection to the peer comes up by other means or the
    service is reconfigured, no sequence of timers, goroutines and notifications
    ever dials again. *)
Theorem peering_abandons_peer :
  ∃ s, reachable ∅ s ∧ ps_state s = stateRunning ∧ peers s !! "p" = Some 0 ∧
    ("p" ∉ connected s) ∧ tasks s = [] ∧
    ∀ ls s', Forall internal ls → exec_all ls s = Some s' →
      ("p" ∉ connected s') ∧ ∀ h, TReconnect h ∉ tasks s'.
Proof.
  destruct (exec_all PeeringExample.dropped (NewPeeringService ∅)) as [s|] eqn:He;
    [|by vm_compute in He].
  exists s. split; [eapply exec_all_reachable; [apply reach_new|exact He]|].
  vm_compute in He. injection He as <-.
  split_and!; [done|done|by apply (bool_decide_unpack _); vm_compute|done|].
  intros ls s' Hls He. eapply (abandoned_run "p") in He as (hd & <- & _ & _ & Hc & Hts & _);
    [split; [done|]|..|exact Hls].
  - intros h Hh. rewrite Forall_forall in Hts. by apply Hts in Hh.
  - eexists. split_and!; [|reflexivity|done|by apply (bool_decide_unpack _); vm_compute|done|done|];
      [done|]. intros p h Hp. change (({["p" := 0]} : gmap string nat) !! p = Some h) in Hp.
    by apply lookup_singleton_Some in Hp as [_ <-].
Qed.

(** Stop can be overtaken: a goroutine spawned by Start that runs after Stop
    arms the reconnect timer of a handler of the stopped service. *)
Theorem peering_timer_after_stop :
  ∃ s hd, reachable ∅ s ∧ ps_state s = stateStopped ∧ handlers s !! 0 = Some hd ∧
    h_cancelled hd = true ∧ reconnectTimer hd = Some true.
Proof.
  destruct (exec_all PeeringExample.overtaken (NewPeeringService ∅)) as [s|] eqn:He;
    [|by vm_compute in He].
  exists s. destruct (handlers s !! 0) as [hd|] eqn:Hh; [|vm_compute in He; by injection He as <-].
  exists hd. split; [eapply exec_all_reachable; [apply reach_new|exact He]|].
  vm_compute in He. injection He as <-. vm_compute in Hh. injection Hh as <-. done.
Qed.
