(* ===== verification/P2P.v ===== *)
(** * Stream forwarding (src/p2p)

    The stream registry counts the forwarded streams of each peer and tags the
    peers that have any in the connection manager; the listener registries map
    keys to listeners; [handleStream] and [setupStream] connect the two ends of a
    forwarded stream.  Connections are resources: the model keeps the set of the
    open ones. *)

From Stdlib Require Import ZArith.
From S2P Require Import Prelude.
From stdpp Require Import base gmap sets list strings.

(** ** Data *)

Record Stream := mkStream {
  st_Protocol : string;
  OriginAddr : string;
  TargetAddr : string;
  st_peer : string;
  Local : nat;
  Remote : nat;
}.

(** StreamRegistry, the connection manager's tag, and the open connections. *)
Record StreamRegistry := mkReg {
  Streams : gmap Z Stream;
  conns : gmap string Z;
  nextID : Z;
  tagged : gset string;
  open_conns : gset nat;
}.

Definition newStreamRegistry : StreamRegistry := mkReg ∅ ∅ 0 ∅ ∅.

(** StreamRegistry.Register; it returns the id stored in the stream.  The
    goroutines it starts end in Close or Reset. *)
Definition Register (s : Stream) (r : StreamRegistry) : Z * StreamRegistry :=
  (nextID r,
   mkReg (<[nextID r := s]> (Streams r))
     (<[st_peer s := (default 0 (conns r !! st_peer s) + 1)%Z]> (conns r))
     (u64 (nextID r + 1)) ({[st_peer s]} ∪ tagged r) (open_conns r)).

(** StreamRegistry.Deregister *)
Definition Deregister (id : Z) (r : StreamRegistry) : StreamRegistry :=
  match Streams r !! id with
  | None => r
  | Some s =>
      let p := st_peer s in
      let n := (default 0 (conns r !! p) - 1)%Z in
      if (n <? 1)%Z
      then mkReg (delete id (Streams r)) (delete p (conns r)) (nextID r) (tagged r ∖ {[p]}) (open_conns r)
      else mkReg (delete id (Streams r)) (<[p := n]> (conns r)) (nextID r) (tagged r) (open_conns r)
  end.

(** StreamRegistry.Close and Reset: both ends are closed, then the stream goes. *)
Definition reg_Close (id : Z) (s : Stream) (r : StreamRegistry) : StreamRegistry :=
  Deregister id (mkReg (Streams r) (conns r) (nextID r) (tagged r)
                   (open_conns r ∖ {[Local s; Remote s]})).

Definition reg_Reset (id : Z) (s : Stream) (r : StreamRegistry) : StreamRegistry :=
  Deregister id (mkReg (Streams r) (conns r) (nextID r) (tagged r)
                   (open_conns r ∖ {[Local s; Remote s]})).

(** ** Handling a stream *)

(** What the calls of handleStream and setupStream answer. *)
Record P2PEnv := mkP2PEnv {
  Dial : res string nat;
  report_err : option string;
  multiaddr_err : option string;
  NewStream : res string nat;
}.

Definition add_conn (c : nat) (r : StreamRegistry) : StreamRegistry :=
  mkReg (Streams r) (conns r) (nextID r) (tagged r) ({[c]} ∪ open_conns r).
Definition drop_conn (c : nat) (r : StreamRegistry) : StreamRegistry :=
  mkReg (Streams r) (conns r) (nextID r) (tagged r) (open_conns r ∖ {[c]}).

(** remoteListener.handleStream: an incoming stream [remote] from [peer]. *)
Definition handleStream (env : P2PEnv) (reportRemote : bool) (proto addr peer : string) (remote : nat)
    (r : StreamRegistry) : StreamRegistry :=
  match Dial env with
  | Err _ => drop_conn remote r
  | Ok local =>
      let r := add_conn local r in
      match (if reportRemote then report_err env else None) with
      | Some _ => drop_conn remote r
      | None =>
          match multiaddr_err env with
          | Some _ => drop_conn remote r
          | None => (Register (mkStream proto ("/p2p/" +:+ peer) addr peer local remote) r).2
          end
      end
  end.

(** localListener.setupStream: an accepted connection [local] forwarded to [peer]. *)
Definition setupStream (env : P2PEnv) (proto origin peer : string) (local : nat)
    (r : StreamRegistry) : StreamRegistry :=
  match NewStream env with
  | Err _ => drop_conn local r
  | Ok remote =>
      (Register (mkStream proto origin ("/p2p/" +:+ peer) peer local remote) (add_conn remote r)).2
  end.

(** ** Listeners *)

(** A listener: local ones are keyed by the address they listen on, remote ones
    by their protocol. *)
Inductive Listener :=
  | localListener (proto laddr peer : string) (sock : nat)
  | remoteListener (proto addr : string) (reportRemote : bool).

Definition key (l : Listener) : string :=
  match l with localListener _ laddr _ _ => laddr | remoteListener proto _ _ => proto end.

(** Listeners.Register *)
Definition lis_Register (l : Listener) (ls : gmap string Listener) : res string (gmap string Listener) :=
  match ls !! key l with
  | Some _ => Err "listener already registered"
  | None => Ok (<[key l := l]> ls)
  end.

(** Listeners.Close: what is left and the listeners closed. *)
Definition lis_Close (matchFunc : Listener → bool) (ls : gmap string Listener)
    : gmap string Listener * list Listener :=
  (filter (λ kl, matchFunc kl.2 = false) ls,
   (map_to_list (filter (λ kl, matchFunc kl.2 = true) ls)).*2).

(** The handler newListenersP2P installs: the listener an incoming protocol is
    dispatched to. *)
Definition dispatch (proto : string) (ls : gmap string Listener) : option Listener := ls !! proto.

(** P2P.ForwardLocal: [sock] listens on [laddr] once manet.Listen succeeded. *)
Definition ForwardLocal (listen : res string (nat * string)) (proto peer : string)
    (ls : gmap string Listener) : res string Listener * gmap string Listener :=
  match listen with
  | Err e => (Err e, ls)
  | Ok (sock, laddr) =>
      let l := localListener proto laddr peer sock in
      match lis_Register l ls with Err e => (Err e, ls) | Ok ls' => (Ok l, ls') end
  end.

(** P2P.ForwardRemote *)
Definition ForwardRemote (proto addr : string) (reportRemote : bool) (ls : gmap string Listener)
    : res string Listener * gmap string Listener :=
  let l := remoteListener proto addr reportRemote in
  match lis_Register l ls with Err e => (Err e, ls) | Ok ls' => (Ok l, ls') end.

(** P2P.CheckProtoExists *)
Definition CheckProtoExists (protos : list string) (proto : string) : bool :=
  existsb (λ p, bool_decide (p = proto)) protos.

(** ** The registry's invariant *)

(** The streams of a peer. *)
Definition streams_of (p : string) (m : gmap Z Stream) : gmap Z Stream :=
  filter (λ kv, st_peer kv.2 = p) m.

Record RegInv (r : StreamRegistry) : Prop := {
  ri_count : ∀ p, default 0%Z (conns r !! p) = Z.of_nat (size (streams_of p (Streams r)));
  ri_pos : ∀ p n, conns r !! p = Some n → (0 < n)%Z;
  ri_tagged : tagged r = dom (conns r);
  ri_next : (0 ≤ nextID r)%Z;
  ri_ids : ∀ id, is_Some (Streams r !! id) → (0 ≤ id < nextID r)%Z;
}.

Lemma streams_of_insert p id s m :
  m !! id = None →
  size (streams_of p (<[id := s]> m)) = (if decide (st_peer s = p) then 1 else 0) + size (streams_of p m).
Proof.
  intros Hid. unfold streams_of. rewrite map_filter_insert. case_decide as Hp; simpl in Hp.
  - rewrite decide_True by done. rewrite map_size_insert_None; [lia|].
    apply map_lookup_filter_None. by left.
  - rewrite decide_False by done. by rewrite delete_id.
Qed.

Lemma streams_of_delete p id s m :
  m !! id = Some s →
  size (streams_of p m) = (if decide (st_peer s = p) then 1 else 0) + size (streams_of p (delete id m)).
Proof.
  intros Hid. rewrite <- (insert_delete_id m id s Hid) at 1.
  apply streams_of_insert, lookup_delete_eq.
Qed.

Lemma Register_inv s r : (nextID r < u64_max)%Z → RegInv r → RegInv (Register s r).2.
Proof.
  intros Hid [Hc Hp Ht Hn Hi]. simpl.
  assert (Streams r !! nextID r = None) as Hnew.
  { destruct (Streams r !! nextID r) eqn:He; [|done].
    assert (0 ≤ nextID r < nextID r)%Z by (apply Hi; eauto). lia. }
  assert (0 ≤ default 0 (conns r !! st_peer s))%Z as Hpos.
  { destruct (conns r !! st_peer s) eqn:He; simpl; [apply Hp in He; lia|lia]. }
  split; simpl.
  - intros p. rewrite lookup_insert, streams_of_insert by done. case_decide as Hs; simpl.
    + subst p. rewrite Hc. lia.
    + rewrite Hc. lia.
  - intros p n. rewrite lookup_insert. case_decide; [intros [= <-]; lia|apply Hp].
  - rewrite dom_insert_L, Ht. done.
  - rewrite u64_small; lia.
  - intros id. rewrite u64_small by lia. rewrite lookup_insert_is_Some. intros [<-|[_ ?%Hi]]; lia.
Qed.

Lemma Deregister_inv id r : RegInv r → RegInv (Deregister id r).
Proof.
  intros HI. unfold Deregister. destruct (Streams r !! id) as [s|] eqn:Hid; [|done].
  destruct HI as [Hc Hp Ht Hn Hi].
  assert (∀ x, is_Some (delete id (Streams r) !! x) → (0 ≤ x < nextID r)%Z) as Hids.
  { intros x [? [_ ?]%lookup_delete_Some]. apply Hi. eauto. }
  assert (∀ p, Z.of_nat (size (streams_of p (delete id (Streams r)))) =
    (default 0 (conns r !! p) - if decide (st_peer s = p) then 1 else 0)%Z) as Hcnt.
  { intros p. rewrite Hc, (streams_of_delete p id s (Streams r)) by done. destruct (decide _); lia. }
  destruct (Z.ltb_spec (default 0%Z (conns r !! st_peer s) - 1) 1) as [Hlt|Hge].
  - split; simpl; try done.
    + intros p. rewrite Hcnt, lookup_delete. case_decide as He; simpl; [|lia].
      subst p. specialize (Hcnt (st_peer s)). rewrite decide_True in Hcnt by done. lia.
    + intros p n [_ ?]%lookup_delete_Some. by eapply Hp.
    + rewrite dom_delete_L, Ht. done.
  - split; simpl; try done.
    + intros p. rewrite Hcnt, lookup_insert. destruct (decide (st_peer s = p)) as [<-|]; simpl; lia.
    + intros p n. rewrite lookup_insert. case_decide; [intros [= <-]; lia|apply Hp].
    + rewrite dom_insert_L, Ht. apply leibniz_equiv. intros x. rewrite elem_of_union.
      split; [by right|]. intros [->%elem_of_singleton|?]; [|done]. apply elem_of_dom.
      destruct (conns r !! st_peer s); [by eexists|]. simpl in Hge. lia.
Qed.

(** Only the connections open differ. *)
Lemma RegInv_conns r os : RegInv r → RegInv (mkReg (Streams r) (conns r) (nextID r) (tagged r) os).
Proof. by intros [Hc Hp Ht Hn Hi]. Qed.

Lemma RegInv_add c r : RegInv r → RegInv (add_conn c r).
Proof. apply RegInv_conns. Qed.
Lemma RegInv_drop c r : RegInv r → RegInv (drop_conn c r).
Proof. apply RegInv_conns. Qed.
Lemma Register_add_inv c s r :
  (nextID r < u64_max)%Z → RegInv r → RegInv (Register s (add_conn c r)).2.
Proof. intros Hn HI. by apply Register_inv, RegInv_add. Qed.
#[local] Hint Resolve Register_add_inv Deregister_inv RegInv_conns RegInv_add RegInv_drop : go.

(** The calls on the registry. *)
Inductive RegOp :=
  | OpRegister (s : Stream)
  | OpClose (id : Z) (s : Stream)
  | OpReset (id : Z) (s : Stream)
  | OpDeregister (id : Z)
  | OpHandle (env : P2PEnv) (report : bool) (proto addr peer : string) (remote : nat)
  | OpSetup (env : P2PEnv) (proto origin peer : string) (local : nat).

Definition reg_op (op : RegOp) (r : StreamRegistry) : StreamRegistry :=
  match op with
  | OpRegister s => (Register s r).2
  | OpClose id s => reg_Close id s r
  | OpReset id s => reg_Reset id s r
  | OpDeregister id => Deregister id r
  | OpHandle env report proto addr peer remote => handleStream env report proto addr peer remote r
  | OpSetup env proto origin peer local => setupStream env proto origin peer local r
  end.

Definition reg_ops (ops : list RegOp) (r : StreamRegistry) : StreamRegistry :=
  fold_left (λ r op, reg_op op r) ops r.

Lemma Deregister_next id r : nextID (Deregister id r) = nextID r.
Proof. unfold Deregister. by repeat case_match. Qed.

Lemma reg_op_inv op r :
  (nextID r < u64_max)%Z → RegInv r →
  RegInv (reg_op op r) ∧ (nextID (reg_op op r) ≤ nextID r + 1)%Z.
Proof.
  intros Hn HI. assert (u64 (nextID r + 1) = nextID r + 1)%Z as Hu.
  { apply u64_small. pose proof (ri_next _ HI). lia. }
  destruct op as [s|id s|id s|id|env report proto addr peer remote|env proto origin peer local]; simpl.
  - split; [by apply Register_inv|rewrite Hu; lia].
  - split; [by apply Deregister_inv, RegInv_conns|]. unfold reg_Close. rewrite Deregister_next. simpl. lia.
  - split; [by apply Deregister_inv, RegInv_conns|]. unfold reg_Reset. rewrite Deregister_next. simpl. lia.
  - split; [by apply Deregister_inv|]. rewrite Deregister_next. lia.
  - unfold handleStream. repeat case_match; (split; [by auto with go|simpl; rewrite ?Hu; lia]).
  - unfold setupStream. case_match; (split; [by auto with go|simpl; rewrite ?Hu; lia]).
Qed.

Lemma reg_ops_inv ops r :
  (nextID r + Z.of_nat (length ops) ≤ u64_max)%Z → RegInv r → RegInv (reg_ops ops r).
Proof.
  unfold reg_ops. revert r. induction ops as [|op ops IH]; intros r Hn HI; simpl; [done|].
  simpl in Hn. destruct (reg_op_inv op r) as [HI' Hn']; [lia|done|]. apply IH; [lia|done].
Qed.

Lemma RegInv_new : RegInv newStreamRegistry.
Proof.
  split; simpl; [by intros p|by intros p n|done|done|]. intros id [? H]. by rewrite lookup_empty in H.
Qed.

(** C28.  After any sequence of fewer than 2^64 calls, in particular when both
    goroutines of a stream close it, each peer's connection count is the number
    of its registered streams, and the connection manager tags exactly the peers
    that have a stream. *)
Theorem registry_counts ops p :
  (Z.of_nat (length ops) ≤ u64_max)%Z →
  let r := reg_ops ops newStreamRegistry in
  default 0%Z (conns r !! p) = Z.of_nat (size (streams_of p (Streams r))) ∧
  (p ∈ tagged r ↔ ∃ id s, Streams r !! id = Some s ∧ st_peer s = p).
Proof.
  intros Hl r. destruct (reg_ops_inv ops newStreamRegistry) as [Hc Hp Ht Hn Hi];
    [simpl; lia|apply RegInv_new|]. fold r in Hc, Hp, Ht, Hn, Hi. split; [done|].
  rewrite Ht, elem_of_dom. specialize (Hc p). split.
  - intros [n Hpn]. pose proof (Hp _ _ Hpn). rewrite Hpn in Hc. simpl in Hc.
    destruct (decide (streams_of p (Streams r) = ∅)) as [He|He].
    { rewrite He, map_size_empty in Hc. lia. }
    apply map_choose in He as (id & s & [Hs Hps]%map_lookup_filter_Some). eauto.
  - intros (id & s & Hs & <-).
    assert (size (streams_of (st_peer s) (Streams r)) ≠ 0) as Hsz.
    { rewrite (streams_of_delete _ id s (Streams r)) by done. rewrite decide_True by done. lia. }
    destruct (conns r !! st_peer s); [by eexists|]. simpl in Hc. lia.
Qed.

(** Closing listeners removes exactly those that match and closes each once,
    and registering one never replaces another: a key is either free and then
    bound to the new listener, or refused. *)
Theorem listeners_exact matchFunc l ls :
  (∀ k x, (lis_Close matchFunc ls).1 !! k = Some x ↔ ls !! k = Some x ∧ matchFunc x = false) ∧
  (∀ x, x ∈ (lis_Close matchFunc ls).2 ↔ ∃ k, ls !! k = Some x ∧ matchFunc x = true) ∧
  length (lis_Close matchFunc ls).2 + size (lis_Close matchFunc ls).1 = size ls ∧
  match lis_Register l ls with
  | Ok ls' => ls !! key l = None ∧ ls' = <[key l := l]> ls
  | Err _ => is_Some (ls !! key l)
  end.
Proof.
  unfold lis_Close. simpl. split_and!.
  - intros k x. apply map_lookup_filter_Some.
  - intros x. rewrite list_elem_of_fmap. split.
    + intros ([k y] & -> & [Hk Hm]%elem_of_map_to_list%map_lookup_filter_Some). eauto.
    + intros (k & Hk & Hm). exists (k, x). split; [done|].
      by apply elem_of_map_to_list, map_lookup_filter_Some.
  - rewrite length_fmap, length_map_to_list.
    rewrite <- (map_filter_union_complement (λ kl, matchFunc kl.2 = true) ls) at 3.
    rewrite map_size_disj_union by apply map_disjoint_filter_complement. f_equal.
    f_equal. apply map_filter_ext. intros k x _. simpl. destruct (matchFunc x); naive_solver.
  - unfold lis_Register. destruct (ls !! key l) eqn:Hk; [by eexists|done].
Qed.

(** When the target cannot be told the remote peer, handleStream resets the
    remote end but leaves the connection it dialled to the target open, owned by
    no stream. *)
Theorem handleStream_leaks_local env proto addr peer remote local e r :
  Dial env = Ok local → report_err env = Some e → local ≠ remote →
  let r' := handleStream env true proto addr peer remote r in
  local ∈ open_conns r' ∧ remote ∉ open_conns r' ∧ Streams r' = Streams r.
Proof.
  intros Hd Hr Hne r'. unfold r', handleStream. rewrite Hd, Hr. simpl. set_solver.
Qed.

Module P2PExample.
Definition env : P2PEnv := mkP2PEnv (Ok 1) (Some "broken pipe") None (Ok 4).
Definition s1 : Stream := mkStream "/x/ssh" "/p2p/Qm1" "/ip4/127.0.0.1/tcp/22" "Qm1" 1 2.
End P2PExample.

Lemma registry_counts_witness :
  "Qm1" ∉ tagged (reg_ops [OpRegister P2PExample.s1; OpClose 0 P2PExample.s1; OpReset 0 P2PExample.s1]
                    newStreamRegistry).
Proof.
  intros (id & s & Hs & _)%registry_counts; [|done]. vm_compute in Hs.
  by destruct id.
Defined.

Lemma handleStream_leaks_local_witness :
  1 ∈ open_conns (handleStream P2PExample.env true "/x/ssh" "/ip4/127.0.0.1/tcp/22" "Qm1" 2
                    (add_conn 2 newStreamRegistry)).
Proof.
  eapply (handleStream_leaks_local P2PExample.env "/x/ssh" "/ip4/127.0.0.1/tcp/22" "Qm1" 2 1); done.
Defined.
