(* ===== verification/OnlyOne.v ===== *)
(** * One open repository per key (src/repo/onlyone.go)

    [OnlyOne] hands out references to open repositories: the first Open of a key
    opens the repository, later ones share it, and the last Close closes it.  The
    references live in a heap, because a client can keep one after it was closed;
    [held] counts, for each reference, the Opens not yet closed, which is what a
    disciplined client keeps track of. *)

From Stdlib Require Import ZArith.
From S2P Require Import Prelude.
From stdpp Require Import base gmap sets list strings.

(** ref: its key, its uint32 counter and the repository it wraps. *)
Record ref := mkRef { ref_key : string; ref_refs : Z; ref_repo : nat }.

Definition u32 (x : Z) : Z := (x mod 2 ^ 32)%Z.

(** OnlyOne with the heap of references, the repositories that are open and the
    next fresh reference. *)
Record OnlyOne := mkOnlyOne {
  active : gmap string nat;
  refs : gmap nat ref;
  open_repos : gset nat;
  fresh_ref : nat;
  held : gmap nat nat;
}.

Definition newOnlyOne : OnlyOne := mkOnlyOne ∅ ∅ ∅ 0 ∅.

(** OnlyOne.Open; [open] is what calling the given function answers. *)
Definition Open (k : string) (open : res string nat) (o : OnlyOne) : res string nat * OnlyOne :=
  match active o !! k with
  | Some i =>
      match refs o !! i with
      | Some r =>
          (Ok i, mkOnlyOne (active o) (<[i := mkRef (ref_key r) (u32 (ref_refs r + 1)) (ref_repo r)]> (refs o))
                   (open_repos o) (fresh_ref o) (<[i := S (default 0 (held o !! i))]> (held o)))
      | None => (Err "unreachable", o)
      end
  | None =>
      match open with
      | Err e => (Err e, o)
      | Ok repo =>
          let i := fresh_ref o in
          (Ok i, mkOnlyOne (<[k := i]> (active o)) (<[i := mkRef k 1 repo]> (refs o))
                   ({[repo]} ∪ open_repos o) (S i) (<[i := 1]> (held o)))
      end
  end.

(** ref.Close; the result tells whether the repository itself was closed. *)
Definition Close (i : nat) (o : OnlyOne) : bool * OnlyOne :=
  match refs o !! i with
  | None => (false, o)
  | Some r =>
      let n := u32 (ref_refs r - 1) in
      let rs := <[i := mkRef (ref_key r) n (ref_repo r)]> (refs o) in
      let hs := <[i := pred (default 0 (held o !! i))]> (held o) in
      if (0 <? n)%Z then (false, mkOnlyOne (active o) rs (open_repos o) (fresh_ref o) hs)
      else (true, mkOnlyOne (delete (ref_key r) (active o)) rs (open_repos o ∖ {[ref_repo r]})
                    (fresh_ref o) hs)
  end.

(** ** Disciplined clients *)

(** Calls that close only what is held, and open functions that return a
    repository not open yet; fewer than 2^32 references are held at once. *)
Inductive only_step : OnlyOne → OnlyOne → Prop :=
  | step_open k open o :
      (active o !! k = None → ∀ repo, open = Ok repo → repo ∉ open_repos o) →
      (∀ i r, refs o !! i = Some r → ref_refs r + 1 < 2 ^ 32)%Z →
      only_step o (Open k open o).2
  | step_close i o : 0 < default 0 (held o !! i) → only_step o (Close i o).2.

Record OnlyInv (o : OnlyOne) : Prop := {
  oi_active : ∀ k i, active o !! k = Some i →
    ∃ r, refs o !! i = Some r ∧ ref_key r = k ∧ (0 < ref_refs r)%Z ∧ ref_repo r ∈ open_repos o;
  oi_held : ∀ i r, refs o !! i = Some r →
    ref_refs r = Z.of_nat (default 0 (held o !! i)) ∧ (ref_refs r < 2 ^ 32)%Z;
  oi_live : ∀ i r, refs o !! i = Some r → (0 < ref_refs r)%Z → active o !! ref_key r = Some i;
  oi_fresh : ∀ i, is_Some (refs o !! i) ∨ is_Some (held o !! i) → i < fresh_ref o;
  oi_repos : ∀ i j r s, refs o !! i = Some r → refs o !! j = Some s →
    (0 < ref_refs r)%Z → (0 < ref_refs s)%Z → ref_repo r = ref_repo s → i = j;
  oi_open : ∀ x, x ∈ open_repos o → ∃ i r, refs o !! i = Some r ∧ ref_repo r = x ∧ (0 < ref_refs r)%Z;
  oi_heldrefs : ∀ i n, held o !! i = Some n → is_Some (refs o !! i);
}.

Lemma u32_small x : (0 ≤ x < 2 ^ 32)%Z → u32 x = x.
Proof. apply Z.mod_small. Qed.

Lemma OnlyInv_new : OnlyInv newOnlyOne.
Proof.
  split; simpl; try (by intros *; rewrite lookup_empty).
  - intros i [[? H]|[? H]]; by rewrite lookup_empty in H.
  - intros x Hx. by apply not_elem_of_empty in Hx.
Qed.

(** Changing the count of a reference that stays held. *)
Lemma recount_inv i r n h o :
  OnlyInv o → refs o !! i = Some r → (0 < ref_refs r)%Z → (0 < n < 2 ^ 32)%Z → n = Z.of_nat h →
  OnlyInv (mkOnlyOne (active o) (<[i := mkRef (ref_key r) n (ref_repo r)]> (refs o)) (open_repos o)
             (fresh_ref o) (<[i := h]> (held o))).
Proof.
  intros [Ha Hh Hl Hf Hr Ho Hhr] Hri Hpos Hn Hnh. split; simpl.
  - intros k' j Hj. destruct (Ha _ _ Hj) as (s & Hs & Hks & ? & ?).
    destruct (decide (i = j)) as [<-|]; [|exists s; by rewrite lookup_insert_ne].
    rewrite Hri in Hs. injection Hs as <-. eexists. rewrite lookup_insert_eq. simpl.
    split_and!; try done. simpl. lia.
  - intros j s. rewrite !lookup_insert. case_decide; [|apply Hh]. subst j. intros [= <-]. simpl. lia.
  - intros j s. rewrite lookup_insert. case_decide; [|apply Hl]. subst j. intros [= <-] _. simpl. by apply Hl.
  - intros j. rewrite !lookup_insert_is_Some'. intros [[<-|?]|[<-|?]]; apply Hf; eauto.
  - intros j1 j2 s1 s2. rewrite !lookup_insert. repeat case_decide; subst; try done.
    + intros [= <-] ? _ ?. simpl. by eapply Hr.
    + intros ? [= <-] ? _. simpl. by eapply Hr.
    + by apply Hr.
  - intros x (j & s & Hs & Hx & ?)%Ho. destruct (decide (i = j)) as [<-|].
    + rewrite Hri in Hs. injection Hs as <-. eexists i, _. rewrite lookup_insert_eq. simpl.
      split_and!; try done. simpl. lia.
    + exists j, s. by rewrite lookup_insert_ne.
  - intros j m. rewrite lookup_insert_is_Some', lookup_insert. case_decide; [by left|].
    intros ?%Hhr. by right.
Qed.

(** The first reference to a repository that was not open. *)
Lemma new_ref_inv k repo o :
  OnlyInv o → active o !! k = None → repo ∉ open_repos o →
  OnlyInv (mkOnlyOne (<[k := fresh_ref o]> (active o)) (<[fresh_ref o := mkRef k 1 repo]> (refs o))
             ({[repo]} ∪ open_repos o) (S (fresh_ref o)) (<[fresh_ref o := 1]> (held o))).
Proof.
  intros [Ha Hh Hl Hf Hr Ho Hhr] Hk Hnew. set (i := fresh_ref o).
  assert (refs o !! i = None) as Hi.
  { destruct (refs o !! i) eqn:He; [|done]. assert (i < i) by (apply Hf; left; eauto). lia. }
  assert (∀ j r, refs o !! j = Some r → (0 < ref_refs r)%Z → ref_repo r ≠ repo) as Hnr.
  { intros j r Hj Hp Heq. destruct (Ha _ _ (Hl _ _ Hj Hp)) as (r' & Hj' & _ & _ & Hin).
    rewrite Hj in Hj'. injection Hj' as <-. by rewrite Heq in Hin. }
  split; simpl.
  - intros k' j. rewrite lookup_insert. case_decide.
    + intros [= <-]. eexists. rewrite lookup_insert_eq. simpl. split_and!; try done. set_solver.
    + intros (r & Hrj & ? & ? & ?)%Ha. exists r.
      rewrite lookup_insert_ne by congruence. split_and!; try done. set_solver.
  - intros j r. rewrite !lookup_insert. case_decide; [|apply Hh]. by intros [= <-].
  - intros j r. rewrite lookup_insert. case_decide; [intros [= <-] _; subst; by rewrite lookup_insert_eq|].
    intros Hj Hp. pose proof (Hl _ _ Hj Hp) as Hact. rewrite lookup_insert_ne; [done|].
    intros ->. congruence.
  - intros j. rewrite !lookup_insert_is_Some'. intros [[<-|?]|[<-|?]]; [lia| |lia|];
      (assert (j < fresh_ref o) by (apply Hf; eauto); unfold i; lia).
  - intros j1 j2 r1 r2. rewrite !lookup_insert. repeat case_decide; subst; try done.
    + intros [= <-] Hj _ Hp Heq. simpl in Heq. by destruct (Hnr j2 r2 Hj Hp).
    + intros Hj [= <-] Hp _ Heq. simpl in Heq. by destruct (Hnr j1 r1 Hj Hp).
    + by apply Hr.
  - intros x [->%elem_of_singleton|(j & r & Hj & ? & ?)%Ho]%elem_of_union.
    + eexists i, _. by rewrite lookup_insert_eq.
    + exists j, r. rewrite lookup_insert_ne by congruence. done.
  - intros j n. rewrite lookup_insert_is_Some', lookup_insert. case_decide; [by left|].
    intros ?%Hhr. by right.
Qed.

(** Giving up the last reference. *)
Lemma last_ref_inv i r o :
  OnlyInv o → refs o !! i = Some r → ref_refs r = 1%Z → is_Some (held o !! i) →
  OnlyInv (mkOnlyOne (delete (ref_key r) (active o)) (<[i := mkRef (ref_key r) 0 (ref_repo r)]> (refs o))
             (open_repos o ∖ {[ref_repo r]}) (fresh_ref o) (<[i := 0]> (held o))).
Proof.
  intros [Ha Hh Hl Hf Hr Ho Hhr] Hri Hone Hheld.
  assert (∀ j s, j ≠ i → refs o !! j = Some s → (0 < ref_refs s)%Z → ref_repo s ≠ ref_repo r) as Hdiff.
  { intros j s Hne Hj Hp Heq. apply Hne. eapply Hr; [done..|lia|done]. }
  split; simpl.
  - intros k j [Hne (s & Hs & Hk & ? & ?)%Ha]%lookup_delete_Some. exists s.
    assert (j ≠ i) by (intros ->; congruence). rewrite lookup_insert_ne by done.
    split_and!; try done. apply elem_of_difference. split; [done|].
    rewrite elem_of_singleton. by eapply Hdiff.
  - intros j s. rewrite !lookup_insert. case_decide; [|apply Hh]. subst j. by intros [= <-].
  - intros j s. rewrite lookup_insert. case_decide; [subst; intros [= <-]; simpl; lia|].
    intros Hj Hp. pose proof (Hl _ _ Hj Hp) as Hact. rewrite lookup_delete_ne; [done|].
    intros Hk. rewrite <- Hk in Hact. rewrite (Hl i r Hri) in Hact by lia. congruence.
  - intros j. rewrite !lookup_insert_is_Some'. intros [[<-|?]|[<-|?]]; apply Hf; eauto.
  - intros j1 j2 s1 s2. rewrite !lookup_insert. repeat case_decide; subst; try done.
    + intros [= <-] _ ?. simpl in *. lia.
    + intros _ [= <-] _ ?. simpl in *. lia.
    + by apply Hr.
  - intros x [Hx Hne]%elem_of_difference. apply Ho in Hx as (j & s & Hs & Hx & ?).
    exists j, s. rewrite lookup_insert_ne; [done|]. intros <-. rewrite Hri in Hs.
    injection Hs as <-. apply Hne. by apply elem_of_singleton.
  - intros j n. rewrite lookup_insert_is_Some', lookup_insert. case_decide; [by left|].
    intros ?%Hhr. by right.
Qed.

Lemma Open_inv k open o :
  OnlyInv o → (active o !! k = None → ∀ repo, open = Ok repo → repo ∉ open_repos o) →
  (∀ i r, refs o !! i = Some r → ref_refs r + 1 < 2 ^ 32)%Z → OnlyInv (Open k open o).2.
Proof.
  intros HI Hnew Hbound. unfold Open. destruct (active o !! k) as [i|] eqn:Hk.
  - destruct (oi_active _ HI _ _ Hk) as (r & Hri & <- & Hpos & Hrepo). rewrite Hri. simpl.
    pose proof (Hbound i r Hri) as Hb. rewrite u32_small by lia.
    apply recount_inv; [done..|lia|]. destruct (oi_held _ HI i r Hri). lia.
  - destruct open as [repo|e]; [|done]. apply new_ref_inv; auto.
Qed.

Lemma Close_inv i o : OnlyInv o → 0 < default 0 (held o !! i) → OnlyInv (Close i o).2.
Proof.
  intros HI Hheld. unfold Close. destruct (held o !! i) as [h|] eqn:Hhi; simpl in Hheld; [|lia].
  destruct (oi_heldrefs _ HI i h Hhi) as [r Hri]. rewrite Hri.
  destruct (oi_held _ HI i r Hri) as [Hcnt Hlt]. rewrite Hhi in Hcnt. simpl in Hcnt.
  rewrite u32_small by lia. simpl. destruct (Z.ltb_spec 0 (ref_refs r - 1)) as [Hpos|Hlast].
  - apply recount_inv; [done..|lia|lia|lia].
  - assert (ref_refs r = 1%Z ∧ h = 1) as [Hone ->] by lia. rewrite Hone. simpl.
    apply last_ref_inv; [done..|]. rewrite Hhi. eauto.
Qed.

Lemma only_step_inv o o' : only_step o o' → OnlyInv o → OnlyInv o'.
Proof. destruct 1; intros HI; [by apply Open_inv|by apply Close_inv]. Qed.

Lemma only_reach_inv o : rtc only_step newOnlyOne o → OnlyInv o.
Proof.
  intros Hr. assert (OnlyInv newOnlyOne) as H0 by apply OnlyInv_new. revert H0.
  induction Hr; [done|]. intros ?%(only_step_inv _ _ H). auto.
Qed.

(** C27.  Clients that close what they opened share one repository per key, and it
    is open exactly as long as somebody holds it: every held reference wraps an
    open repository and is the one later Opens of its key return; two held
    references of one key are the same; every open repository is held; and a
    Close closes the repository exactly when it gives up the last reference. *)
Theorem only_one_per_key o :
  rtc only_step newOnlyOne o →
  (∀ i n, held o !! i = Some (S n) → ∃ r, refs o !! i = Some r ∧ ref_repo r ∈ open_repos o ∧
     active o !! ref_key r = Some i ∧ (Close i o).1 = bool_decide (n = 0)) ∧
  (∀ i j n m r s, held o !! i = Some (S n) → held o !! j = Some (S m) →
     refs o !! i = Some r → refs o !! j = Some s → ref_key r = ref_key s → i = j) ∧
  (∀ x, x ∈ open_repos o → ∃ i r, refs o !! i = Some r ∧ ref_repo r = x ∧ 0 < default 0 (held o !! i)).
Proof.
  intros [Ha Hh Hl Hf Hr Ho Hhr]%only_reach_inv.
  assert (∀ i n r, held o !! i = Some (S n) → refs o !! i = Some r →
    ref_refs r = Z.of_nat (S n) ∧ (ref_refs r < 2 ^ 32)%Z ∧ active o !! ref_key r = Some i) as Hact.
  { intros i n r Hi Hri. destruct (Hh i r Hri) as [Hc Hlt]. rewrite Hi in Hc. simpl in Hc.
    split_and!; [lia|done|]. apply Hl; [done|lia]. }
  split_and!.
  - intros i n Hi. destruct (Hhr i _ Hi) as [r Hri]. destruct (Hact i n r Hi Hri) as (Hc & Hlt & Ha').
    exists r. split_and!; [done| |done|].
    + destruct (Ha _ _ Ha') as (r' & Hri' & _ & _ & ?). by simplify_eq.
    + unfold Close. rewrite Hri, u32_small by lia.
      destruct (Z.ltb_spec 0 (ref_refs r - 1)); simpl; symmetry;
        [apply bool_decide_eq_false|apply bool_decide_eq_true]; lia.
  - intros i j n m r s Hi Hj Hri Hsj Hk. destruct (Hact i n r Hi Hri) as (_ & _ & H1).
    destruct (Hact j m s Hj Hsj) as (_ & _ & H2). congruence.
  - intros x (i & r & Hri & Hx & Hp)%Ho. exists i, r. split_and!; [done..|].
    destruct (Hh i r Hri) as [Hc _]. lia.
Qed.

Lemma only_one_per_key_witness :
  let o := (Open "a" (Ok 8) (Open "a" (Ok 7) newOnlyOne).2).2 in
  ∃ r, refs o !! 0 = Some r ∧ ref_repo r ∈ open_repos o ∧ active o !! ref_key r = Some 0 ∧
    (Close 0 o).1 = bool_decide (1 = 0).
Proof.
  intros o. eapply (only_one_per_key o); [|done].
  eapply rtc_l; [|eapply rtc_once].
  - apply (step_open "a" (Ok 7)); [intros _ repo _; apply not_elem_of_empty|].
    intros i r Hi. unfold newOnlyOne in Hi. simpl in Hi. by apply lookup_empty_Some in Hi.
  - apply (step_open "a" (Ok 8)); [done|]. intros i r Hi.
    change (({[0 := mkRef "a" 1 7]} : gmap nat ref) !! i = Some r) in Hi.
    by apply lookup_singleton_Some in Hi as [_ <-].
Defined.
