(* ===== verification/GoFS.v ===== *)
(** * Paths and files (Go's path/filepath, os and io/ioutil)

    The parts of the file system the repository code relies on: a map from
    clean paths to files and directories.  Every operation can also fail for a
    reason of the operating system's own (permissions, a full disk): [fault]
    names those failures, and is arbitrary. *)

From Stdlib Require Import ZArith Ascii String.
From stdpp Require Import base gmap sets list strings.
From S2P Require Import Prelude GoStrings.

(** ** Paths *)

Definition slash : string := "/".

(** One component of filepath.Clean; the stack is reversed. *)
Definition clean_step (rooted : bool) (stack : list string) (c : string) : list string :=
  if decide (c = "" ∨ c = ".") then stack
  else if decide (c = "..") then
    match stack with
    | t :: stack' => if decide (t = "..") then c :: stack else stack'
    | [] => if rooted then [] else [c]
    end
  else c :: stack.

(** filepath.Clean *)
Definition Clean (p : string) : string :=
  let rooted := HasPrefix p slash in
  let body := Join (rev (foldl (clean_step rooted) [] (Split p slash))) slash in
  if rooted then slash +:+ body else if decide (body = "") then "." else body.

(** filepath.Join of two elements *)
Definition PathJoin (a b : string) : string :=
  if decide (a = "") then (if decide (b = "") then "" else Clean b)
  else if decide (b = "") then Clean a else Clean (a +:+ slash +:+ b).

(** filepath.Base *)
Definition Base (p : string) : string :=
  if decide (p = "") then "."
  else match last (filter (λ c, c ≠ "") (Split p slash)) with Some c => c | None => slash end.

(** filepath.Dir *)
Definition Dir (p : string) : string :=
  match rev (Split p slash) with
  | [] | [_] => "."
  | _ :: l => Clean (Join (rev l) slash +:+ slash)
  end.

(** A file name: one component, neither of the two special ones. *)
Definition file_name (n : string) : Prop :=
  n ≠ "" ∧ n ≠ "." ∧ n ≠ ".." ∧ has_char "/"%char n = false.

#[export] Instance file_name_dec n : Decision (file_name n).
Proof. unfold file_name. apply _. Defined.

Lemma Split_app_word s w d :
  has_char d w = false → Split (s +:+ String d w) (String d "") = Split s (String d "") ++ [w].
Proof.
  intros Hw. induction s as [|c s IH]; simpl.
  - by rewrite Split_cons_sep, Split_word.
  - destruct (decide (c = d)) as [->|Hne]; [by rewrite !Split_cons_sep, IH|].
    rewrite !Split_cons_ne, IH by done.
    pose proof (Split_not_nil s (String d "") 0) as Hn. fold (Split s (String d "")) in Hn.
    by destruct (Split s (String d "")).
Qed.

Lemma clean_step_name rooted stack n : file_name n → clean_step rooted stack n = n :: stack.
Proof. intros (?&?&?&?). unfold clean_step. rewrite !decide_False by naive_solver. done. Qed.

(** The components Clean keeps. *)
Lemma clean_step_ok rooted stack c :
  has_char "/"%char c = false →
  Forall (λ w, w ≠ "" ∧ has_char "/"%char w = false) stack →
  Forall (λ w, w ≠ "" ∧ has_char "/"%char w = false) (clean_step rooted stack c).
Proof.
  intros Hc Hs. unfold clean_step. destruct (decide (c = "" ∨ c = ".")) as [|Hn]; [done|].
  destruct (decide (c = "..")) as [->|].
  - assert (".." ≠ "" ∧ has_char "/"%char ".." = false) as Hd by done.
    destruct Hs as [|t stack ? Hs]; [by destruct rooted; auto|].
    destruct (decide (t = "..")); auto.
  - constructor; [naive_solver|done].
Qed.

Lemma foldl_clean_ok rooted cs stack :
  Forall (λ w, has_char "/"%char w = false) cs →
  Forall (λ w, w ≠ "" ∧ has_char "/"%char w = false) stack →
  Forall (λ w, w ≠ "" ∧ has_char "/"%char w = false) (foldl (clean_step rooted) stack cs).
Proof.
  intros Hcs. revert stack. induction Hcs as [|c cs Hc Hcs IH]; intros stack Hs; simpl; [done|].
  by apply IH, clean_step_ok.
Qed.

Lemma filter_all {A} (P : A → Prop) `{∀ x, Decision (P x)} l : Forall P l → filter P l = l.
Proof. induction 1; [done|]. by rewrite filter_cons_True, IHForall. Qed.

(** The last component of a file's path is its name. *)
Lemma Base_Join a n : file_name n → Base (PathJoin a n) = n.
Proof.
  intros Hn. assert (Hn' := Hn). destruct Hn' as (Hn1&_&_&Hn2).
  assert (∀ p, (∃ cs, Split p slash = cs ++ [n]) → Base (Clean p) = n) as H.
  { intros p [cs Hp]. unfold Clean. set (rooted := HasPrefix p slash).
    pose proof (Split_words p "/"%char) as Hw. fold slash in Hw. rewrite Hp in Hw |- *.
    apply Forall_app in Hw as [Hcs _].
    rewrite foldl_app. simpl. rewrite clean_step_name by done. simpl.
    pose proof (foldl_clean_ok rooted cs [] Hcs (Forall_nil_2 _)) as Hok.
    apply Forall_rev in Hok. set (st := rev (foldl (clean_step rooted) [] cs)) in *.
    assert (Forall (λ w, w ≠ "" ∧ has_char "/"%char w = false) (st ++ [n])) as Hall
      by (apply Forall_app; split; [done|by repeat constructor]).
    assert (Split (Join (st ++ [n]) slash) slash = st ++ [n]) as HS.
    { apply Split_Join; [by destruct st|]. eapply Forall_impl; [exact Hall|naive_solver]. }
    assert (filter (λ c, c ≠ "") (st ++ [n]) = st ++ [n]) as HF.
    { apply filter_all. eapply Forall_impl; [exact Hall|naive_solver]. }
    assert (Join (st ++ [n]) slash ≠ "") as HJ.
    { intros HJ. rewrite HJ in HS. destruct st as [|x [|]]; simplify_eq. }
    unfold Base. destruct rooted.
    - rewrite decide_False by done. unfold slash at 1. simpl.
      change (String "/" (Join (st ++ [n]) slash)) with (String "/"%char (Join (st ++ [n]) slash)).
      unfold slash at 2. rewrite Split_cons_sep. fold slash. rewrite HS, filter_cons_False by naive_solver.
      by rewrite HF, last_snoc.
    - destruct (decide (Join (st ++ [n]) slash = "")) as [|_]; [done|].
      rewrite decide_False by done. by rewrite HS, HF, last_snoc. }
  unfold PathJoin. destruct (decide (a = "")); rewrite decide_False by done; apply H.
  - exists []. by apply Split_word.
  - exists (Split a slash). by apply Split_app_word.
Qed.

Lemma Clean_name n : file_name n → Clean n = n.
Proof.
  intros Hn. assert (Hn' := Hn). destruct Hn' as (Hn1&_&_&Hn2). unfold Clean.
  destruct (HasPrefix n slash) eqn:Hp.
  { apply HasPrefix_true in Hp as [t ->]. unfold slash in Hn2. simpl in Hn2.
    by rewrite has_char_cons in Hn2. }
  unfold slash. rewrite Split_word by done. simpl. rewrite clean_step_name by done. simpl.
  by destruct (decide (n = "")).
Qed.

Lemma Base_name n : file_name n → Base n = n.
Proof.
  intros Hn. rewrite <- (Clean_name n Hn) at 1. replace (Clean n) with (PathJoin "" n); [by apply Base_Join|].
  unfold PathJoin. destruct Hn as [? _]. simpl. by destruct (decide (n = "")).
Qed.

Lemma Join_snoc ws w d : ws ≠ [] → Join (ws ++ [w]) (String d "") = Join ws (String d "") +:+ String d w.
Proof.
  induction ws as [|x [|y ws] IH]; [done|done|]. intros _.
  change (Join ((x :: y :: ws) ++ [w]) (String d ""))
    with (x +:+ String d "" +:+ Join ((y :: ws) ++ [w]) (String d "")).
  rewrite IH by done. simpl. by rewrite sapp_assoc.
Qed.

(** A file of a directory with a clean path lies under it. *)
Lemma Join_under t n :
  Clean t = t → t ≠ "." → t ≠ slash → file_name n → PathJoin t n = t +:+ slash +:+ n.
Proof.
  intros Hc Hdot Hslash Hn. assert (Hn' := Hn). destruct Hn' as (Hn1&_&_&Hn2).
  assert (t ≠ "") as Ht by (intros ->; done).
  unfold PathJoin. rewrite !decide_False by done.
  assert (HasPrefix (t +:+ slash +:+ n) slash = HasPrefix t slash) as Hp.
  { destruct t as [|c t]; [done|]. unfold slash. simpl. by destruct (decide _), t. }
  assert (Split (t +:+ slash +:+ n) slash = Split t slash ++ [n]) as Hs by (by apply Split_app_word).
  unfold Clean in *. rewrite Hp, Hs, foldl_app. cbn [foldl]. rewrite clean_step_name by done. cbn [rev].
  set (st := rev (foldl (clean_step (HasPrefix t slash)) [] (Split t slash))) in *.
  destruct (decide (st = [])) as [Hst|Hst].
  { rewrite Hst in Hc. cbn [Join] in Hc. destruct (HasPrefix t slash); [by destruct Hslash|].
    destruct (decide ("" = "")); [by destruct Hdot|done]. }
  assert (Join (st ++ [n]) slash = Join st slash +:+ slash +:+ n) as HJ by (by apply Join_snoc).
  rewrite HJ. destruct (HasPrefix t slash).
  - by rewrite <- (sapp_assoc slash), Hc.
  - destruct (decide (Join st slash = "")); [done|].
    rewrite Hc. destruct (decide (t +:+ slash +:+ n = "")) as [He|]; [|done]. by destruct t.
Qed.

Lemma Clean_trailing p : p ≠ "" → Clean (p +:+ slash) = Clean p.
Proof.
  intros Hp. unfold Clean.
  assert (HasPrefix (p +:+ slash) slash = HasPrefix p slash) as ->.
  { destruct p as [|c p]; [done|]. unfold slash. simpl. by destruct (decide _), p. }
  assert (Split (p +:+ slash) slash = Split p slash ++ [""]) as -> by (by apply (Split_app_word p "")).
  rewrite foldl_app. cbn [foldl]. assert (∀ r st, clean_step r st "" = st) as -> by done. done.
Qed.

(** The directory of a file of a clean directory. *)
Lemma Dir_Join t n :
  Clean t = t → t ≠ "." → t ≠ slash → file_name n → Dir (PathJoin t n) = t.
Proof.
  intros Hc Hdot Hs Hn. rewrite Join_under by done. unfold Dir. destruct Hn as (_&_&_&Hn).
  assert (Split (t +:+ slash +:+ n) slash = Split t slash ++ [n]) as -> by (by apply Split_app_word).
  rewrite rev_app_distr. simpl. pose proof (Split_not_nil t slash 0) as Hnil. fold (Split t slash) in Hnil.
  destruct (rev (Split t slash)) as [|x l] eqn:Hr.
  { destruct Hnil. rewrite <- (rev_involutive (Split t slash)), Hr. done. }
  rewrite <- Hr, rev_involutive. unfold slash at 1 2. rewrite Join_Split. fold slash.
  rewrite Clean_trailing; [done|]. by intros ->.
Qed.

Lemma Join_inj_name t n n' : file_name n → file_name n' → n ≠ n' → PathJoin t n ≠ PathJoin t n'.
Proof. intros Hn Hn' Hne Heq. apply Hne. rewrite <- (Base_Join t n), <- (Base_Join t n'), Heq; done. Qed.

Lemma Join_ne_dir t n :
  Clean t = t → t ≠ "." → t ≠ slash → file_name n → PathJoin t n ≠ t.
Proof.
  intros Hc Hdot Hs Hn Heq. rewrite Join_under in Heq by done.
  apply (f_equal String.length) in Heq. rewrite !slength_app in Heq. simpl in Heq. lia.
Qed.

(** ** Files *)

Inductive Node := NDir | NFile (content : string).

Notation FS := (gmap string Node).

Inductive OSErr := ErrNotExist | ErrExist | OtherErr (msg : string).

#[export] Instance OSErr_eq_dec : EqDecision OSErr.
Proof. solve_decision. Defined.

(** os.IsNotExist *)
Definition IsNotExist (e : OSErr) : bool := bool_decide (e = ErrNotExist).

(** [defer d()] around [c]: [d] runs on every return of [c]. *)
Definition mdefer {S E A} (c : M S E A) (d : M S E unit) : M S E A :=
  λ s, let '(r, s1) := c s in let '(_, s2) := d s1 in (r, s2).

Section files.
Context (fault : string → string → option string).

Definition os_try (op p : string) : M FS OSErr unit :=
  match fault op p with Some msg => mthrow (OtherErr msg) | None => mret () end.

(** os.Stat *)
Definition Stat (p : string) : M FS OSErr Node :=
  _ ← os_try "stat" p;
  fs ← mget;
  match fs !! p with Some n => mret n | None => mthrow ErrNotExist end.

(** ioutil.ReadFile *)
Definition ReadFile (p : string) : M FS OSErr string :=
  _ ← os_try "read" p;
  fs ← mget;
  match fs !! p with
  | Some (NFile c) => mret c
  | Some NDir => mthrow (OtherErr "is a directory")
  | None => mthrow ErrNotExist
  end.

(** os.Create: the file is there and empty. *)
Definition OsCreate (p : string) : M FS OSErr unit :=
  _ ← os_try "create" p;
  fs ← mget;
  match fs !! Dir p with
  | Some NDir =>
      match fs !! p with
      | Some NDir => mthrow (OtherErr "is a directory")
      | _ => mmodify (<[p := NFile ""]>)
      end
  | _ => mthrow ErrNotExist
  end.

(** Writing [c] to a file just created. *)
Definition WriteTo (p c : string) : M FS OSErr unit :=
  _ ← os_try "write" p; mmodify (<[p := NFile c]>).

(** ioutil.WriteFile: a failed write leaves the truncated file. *)
Definition WriteFile (p c : string) : M FS OSErr unit :=
  _ ← OsCreate p; WriteTo p c.

(** os.Rename of a file *)
Definition Rename (p q : string) : M FS OSErr unit :=
  _ ← os_try "rename" p;
  fs ← mget;
  match fs !! p with
  | Some n => mmodify (λ fs, <[q := n]> (delete p fs))
  | None => mthrow ErrNotExist
  end.

(** os.Remove *)
Definition Remove (p : string) : M FS OSErr unit :=
  _ ← os_try "remove" p;
  fs ← mget;
  match fs !! p with Some _ => mmodify (delete p) | None => mthrow ErrNotExist end.

(** [p] itself or a path below it. *)
Definition under (p q : string) : bool := bool_decide (q = p) || HasPrefix q (p +:+ slash).

(** os.RemoveAll *)
Definition RemoveAll (p : string) : M FS OSErr unit :=
  mmodify (filter (λ kv : string * Node, under p kv.1 = false)).

(** ioutil.TempDir: a directory with a new name. *)
Context (tempname : FS → string → string).

Definition TempDir (pattern : string) : M FS OSErr string :=
  _ ← os_try "tempdir" pattern;
  fs ← mget;
  let t := tempname fs pattern in
  _ ← mmodify (<[t := NDir]>);
  mret t.

(** A path other than [q] keeps its node when [q] is written. *)
Lemma WriteFile_other p c fs q : q ≠ p → (WriteFile p c fs).2 !! q = fs !! q.
Proof.
  intros Hne. unfold WriteFile, OsCreate, WriteTo, os_try. go_run.
  go_cases; rewrite ?lookup_insert_ne by congruence; done.
Qed.

Lemma WriteFile_same p c fs fs' : WriteFile p c fs = (Ok (), fs') → fs' !! p = Some (NFile c).
Proof.
  unfold WriteFile, OsCreate, WriteTo, os_try. go_run.
  go_cases; intros [= <-]; by rewrite lookup_insert_eq.
Qed.

Lemma ReadFile_same p fs : (ReadFile p fs).2 = fs.
Proof. unfold ReadFile, os_try. go_run. go_cases. Qed.

Lemma Stat_same p fs : (Stat p fs).2 = fs.
Proof. unfold Stat, os_try. go_run. go_cases. Qed.

(** What the operations leave alone, as invariants. *)
Lemma keeps_os_try (I : FS → Prop) op p : keeps I (os_try op p).
Proof. intros fs r fs'. unfold os_try. destruct (fault op p); by intros [= <- <-]. Qed.

Lemma keeps_ReadFile (I : FS → Prop) p : keeps I (ReadFile p).
Proof. intros fs r fs' Hr. by rewrite <- (ReadFile_same p fs), Hr. Qed.

Lemma keeps_Stat (I : FS → Prop) p : keeps I (Stat p).
Proof. intros fs r fs' Hr. by rewrite <- (Stat_same p fs), Hr. Qed.

Lemma keeps_OsCreate q nd p : q ≠ p → keeps (λ fs, fs !! q = nd) (OsCreate p).
Proof.
  intros Hne fs r fs'. unfold OsCreate, os_try. go_run.
  go_cases; intros [= <- <-]; rewrite ?lookup_insert_ne by congruence; done.
Qed.

Lemma keeps_WriteTo q nd p c : q ≠ p → keeps (λ fs, fs !! q = nd) (WriteTo p c).
Proof.
  intros Hne fs r fs'. unfold WriteTo, os_try. go_run.
  go_cases; intros [= <- <-]; rewrite ?lookup_insert_ne by congruence; done.
Qed.

Lemma keeps_RemoveAll q nd t : under t q = false → keeps (λ fs, fs !! q = nd) (RemoveAll t).
Proof.
  intros Hu fs r fs'. unfold RemoveAll, mmodify. intros [= <- <-] Hq. destruct nd as [n|].
  - by apply map_lookup_filter_Some_2.
  - apply map_lookup_filter_None_2. by left.
Qed.

End files.

(** What the operations do when the operating system has no objection. *)
Section calm.
Context (fault : string → string → option string) (Hcalm : ∀ op p, fault op p = None).

Lemma os_try_calm op p fs : os_try fault op p fs = (Ok (), fs).
Proof. unfold os_try. by rewrite Hcalm. Qed.

Lemma Stat_calm p fs n : fs !! p = Some n → Stat fault p fs = (Ok n, fs).
Proof. intros Hp. unfold Stat. rewrite bind_unfold, os_try_calm. go_run. by rewrite Hp. Qed.

Lemma ReadFile_calm p fs c : fs !! p = Some (NFile c) → ReadFile fault p fs = (Ok c, fs).
Proof. intros Hp. unfold ReadFile. rewrite bind_unfold, os_try_calm. go_run. by rewrite Hp. Qed.

Lemma OsCreate_calm p fs :
  fs !! Dir p = Some NDir → fs !! p ≠ Some NDir → OsCreate fault p fs = (Ok (), <[p := NFile ""]> fs).
Proof.
  intros Hd Hp. unfold OsCreate. rewrite bind_unfold, os_try_calm. go_run. rewrite Hd.
  by destruct (fs !! p) as [[]|].
Qed.

Lemma WriteFile_calm p c fs :
  fs !! Dir p = Some NDir → fs !! p ≠ Some NDir → WriteFile fault p c fs = (Ok (), <[p := NFile c]> fs).
Proof.
  intros Hd Hp. unfold WriteFile, WriteTo. rewrite bind_unfold, OsCreate_calm by done.
  rewrite bind_unfold, os_try_calm. unfold mmodify. by rewrite insert_insert_eq.
Qed.

Lemma Remove_calm p fs n : fs !! p = Some n → Remove fault p fs = (Ok (), delete p fs).
Proof. intros Hp. unfold Remove. rewrite bind_unfold, os_try_calm. go_run. by rewrite Hp. Qed.

End calm.

Lemma keeps_mlift {S E A} (I : S → Prop) (r : res E A) : keeps I (mlift r).
Proof. intros s r' s'. by intros [= <- <-]. Qed.

Lemma keeps_mdefer {S E A} (I : S → Prop) (c : M S E A) d : keeps I c → keeps I d → keeps I (mdefer c d).
Proof.
  intros Hc Hd s r s'. unfold mdefer. destruct (c s) as [r1 s1] eqn:H1. destruct (d s1) as [r2 s2] eqn:H2.
  intros [= <- <-] Hs. eauto.
Qed.

#[export] Hint Resolve keeps_os_try keeps_ReadFile keeps_Stat keeps_OsCreate keeps_WriteTo keeps_RemoveAll
  keeps_mlift keeps_mdefer keeps_ret keeps_throw : go.

(** Show that a computation keeps an invariant, part by part. *)
Ltac keep :=
  repeat first
    [ solve [eauto with go]
    | apply keeps_bind; [|intros ?]
    | case_match ].

#[export] Hint Rewrite WriteFile_other ReadFile_same Stat_same using done : go.
