(* ===== verification/Datastores.v ===== *)
(** * Datastore configurations (src/repo/fsrepo/datastores.go)

    A "spec" from the configuration becomes a [DatastoreConfig]; its [DiskSpec],
    the part that must match what is on disk, leaves out run-time wrappers.
    Handlers are looked up by the spec's "type" in a registry that plugins
    extend.  A plugin's handler is a parameter: it answers with the disk spec of
    the datastore it configures. *)

From Stdlib Require Import ZArith.
From stdpp Require Import base gmap sets list strings sorting.
From S2P Require Import Prelude GoStrings ConfigKV.

Inductive DsError :=
  | TypeMissing | UnknownType (which : string) | MountsMissing | ExpectedMap | NoMountpoint
  | ChildMissing | NameMissing | PrefixMissing | DsPanic | PluginError (msg : string)
  | AlreadyHave (name : string) | DsOutOfFuel.

(** The handlers of the registry. *)
Inductive Handler :=
  | HMount | HMem | HLog | HMeasure
  | HPlugin (f : gmap string JVal → res string (gmap string JVal)).

(** DatastoreConfig: what each handler builds. *)
Inductive DsConfig :=
  | mountDatastoreConfig (mounts : list (DsConfig * string))
  | memDatastoreConfig (cfg : gmap string JVal)
  | logDatastoreConfig (child : DsConfig) (name : string)
  | measureDatastoreConfig (child : DsConfig) (prefix : string)
  | pluginDatastoreConfig (spec : gmap string JVal).

(** The map filled by init(). *)
Definition datastores : gmap string Handler :=
  {["mount" := HMount; "mem" := HMem; "log" := HLog; "measure" := HMeasure]}.

(** AddDatastoreConfigHandler *)
Definition AddDatastoreConfigHandler (name : string) (dsc : Handler) (reg : gmap string Handler)
    : res DsError (gmap string Handler) :=
  match reg !! name with
  | Some _ => Err (AlreadyHave name)
  | None => Ok (<[name := dsc]> reg)
  end.

(** The order of sort.Slice: descending prefixes. *)
Definition mount_le (a b : DsConfig * string) : Prop := String.le b.2 a.2.

#[export] Instance mount_le_dec a b : Decision (mount_le a b).
Proof. unfold mount_le. apply _. Defined.

Section config.
Variable reg : gmap string Handler.
(** ds.NewKey: the cleaned key of a mount point. *)
Variable NewKey : string → string.

Fixpoint map_res {A B E} (f : A → res E B) (l : list A) : res E (list B) :=
  match l with
  | [] => Ok []
  | x :: l' => y ← f x; ys ← map_res f l'; mret (y :: ys)
  end.

(** One iteration of MountDatastoreConfig's loop. *)
Definition mount_one (any : gmap string JVal → res DsError DsConfig) (iface : JVal)
    : res DsError (DsConfig * string) :=
  match iface with
  | JObj cfg =>
      child ← any cfg;
      match cfg !! "mountpoint" with
      | None => Err NoMountpoint
      | Some (JStr prefix) => Ok (child, NewKey prefix)
      | Some _ => Err DsPanic
      end
  | _ => Err ExpectedMap
  end.

(** MountDatastoreConfig *)
Definition MountDatastoreConfig (any : gmap string JVal → res DsError DsConfig)
    (params : gmap string JVal) : res DsError DsConfig :=
  match params !! "mounts" with
  | Some (JArr mounts) =>
      ms ← map_res (mount_one any) mounts;
      mret (mountDatastoreConfig (merge_sort mount_le ms))
  | _ => Err MountsMissing
  end.

(** LogDatastoreConfig *)
Definition LogDatastoreConfig (any : gmap string JVal → res DsError DsConfig)
    (params : gmap string JVal) : res DsError DsConfig :=
  match params !! "child" with
  | Some (JObj childField) =>
      child ← any childField;
      match params !! "name" with
      | Some (JStr name) => Ok (logDatastoreConfig child name)
      | _ => Err NameMissing
      end
  | _ => Err ChildMissing
  end.

(** MeasureDatastoreConfig *)
Definition MeasureDatastoreConfig (any : gmap string JVal → res DsError DsConfig)
    (params : gmap string JVal) : res DsError DsConfig :=
  match params !! "child" with
  | Some (JObj childField) =>
      child ← any childField;
      match params !! "prefix" with
      | Some (JStr prefix) => Ok (measureDatastoreConfig child prefix)
      | _ => Err PrefixMissing
      end
  | _ => Err ChildMissing
  end.

(** AnyDatastoreConfig; the recursion is as deep as the spec is nested. *)
Fixpoint AnyDatastoreConfig (fuel : nat) (params : gmap string JVal) : res DsError DsConfig :=
  match fuel with
  | 0 => Err DsOutOfFuel
  | S fuel' =>
      match params !! "type" with
      | Some (JStr which) =>
          match reg !! which with
          | None => Err (UnknownType which)
          | Some HMount => MountDatastoreConfig (AnyDatastoreConfig fuel') params
          | Some HMem => Ok (memDatastoreConfig params)
          | Some HLog => LogDatastoreConfig (AnyDatastoreConfig fuel') params
          | Some HMeasure => MeasureDatastoreConfig (AnyDatastoreConfig fuel') params
          | Some (HPlugin f) =>
              match f params with Ok spec => Ok (pluginDatastoreConfig spec) | Err e => Err (PluginError e) end
          end
      | _ => Err TypeMissing
      end
  end.

(** DiskSpec of the configurations; [None] is Go's nil map. *)
Fixpoint DiskSpec (c : DsConfig) : option (gmap string JVal) :=
  match c with
  | mountDatastoreConfig mounts =>
      Some {["type" := JStr "mount";
             "mounts" := JArr ((fix go (l : list (DsConfig * string)) : list JVal :=
                 match l with
                 | [] => []
                 | (d, p) :: l' => JObj (<["mountpoint" := JStr p]> (default ∅ (DiskSpec d))) :: go l'
                 end) mounts)]}
  | memDatastoreConfig _ => None
  | logDatastoreConfig child _ | measureDatastoreConfig child _ => DiskSpec child
  | pluginDatastoreConfig spec => Some spec
  end.

(** The datastore Create builds, or the first error of a part. *)
Inductive Datastore :=
  | DMount (mounts : list (Datastore * string))
  | DMap | DLog (child : Datastore) (name : string) | DMeasure (prefix : string) (child : Datastore)
  | DPlugin (spec : gmap string JVal) (path : string).

Fixpoint Create (mk : gmap string JVal → string → res string unit) (path : string) (c : DsConfig)
    : res string Datastore :=
  match c with
  | mountDatastoreConfig mounts =>
      ms ← (fix go (l : list (DsConfig * string)) : res string (list (Datastore * string)) :=
         match l with
         | [] => Ok []
         | (d, p) :: l' => d' ← Create mk path d; ds ← go l'; mret ((d', p) :: ds)
         end) mounts;
      mret (DMount ms)
  | memDatastoreConfig _ => Ok DMap
  | logDatastoreConfig child name => d ← Create mk path child; mret (DLog d name)
  | measureDatastoreConfig child prefix => d ← Create mk path child; mret (DMeasure prefix d)
  | pluginDatastoreConfig spec => _ ← mk spec path; mret (DPlugin spec path)
  end.

(** ** Order of the mounts *)

Lemma map_res_Permutation {A B E} (f : A → res E B) l l' ys :
  l ≡ₚ l' → map_res f l = Ok ys → ∃ ys', map_res f l' = Ok ys' ∧ ys ≡ₚ ys'.
Proof.
  intros Hp. revert ys. induction Hp as [|x l l' Hp IH|x y l|l1 l2 l3 _ IH1 _ IH2]; intros ys; simpl.
  - eauto.
  - destruct (f x) as [y|]; simpl; [|done]. destruct (map_res f l) as [zs|]; simpl; [|done].
    intros [= <-]. destruct (IH zs eq_refl) as (ys' & -> & ?). simpl. eexists. split; [done|].
    by constructor.
  - destruct (f y) as [b|]; simpl; [|done]. destruct (f x) as [a|]; simpl; [|done].
    destruct (map_res f l) as [zs|]; simpl; [|done]. intros [= <-]. eexists. split; [done|].
    apply Permutation_swap.
  - intros (ys2 & H2 & Hp2)%IH1. destruct (IH2 _ H2) as (ys3 & -> & ?).
    eexists. split; [done|]. by etrans.
Qed.

#[local] Instance mount_le_trans : Transitive mount_le.
Proof. intros a b c Hab Hbc. unfold mount_le in *. by etrans. Qed.
#[local] Instance mount_le_total : Total mount_le.
Proof. intros a b. unfold mount_le. destruct (total String.le a.2 b.2); auto. Qed.

Lemma sort_unique (ms ms' : list (DsConfig * string)) :
  ms ≡ₚ ms' → NoDup ms.*2 → merge_sort mount_le ms = merge_sort mount_le ms'.
Proof.
  intros Hp Hnd.
  apply (StronglySorted_unique_strong mount_le);
    [|apply StronglySorted_merge_sort; apply _..|by rewrite !merge_sort_Permutation].
  intros [d p] [d' p'] Hin Hin' H1 H2. rewrite merge_sort_Permutation in Hin.
  rewrite merge_sort_Permutation, <- Hp in Hin'. unfold mount_le in *. simpl in *.
  assert (p = p') as <- by (by apply (anti_symm String.le)).
  f_equal.
  apply list_elem_of_lookup in Hin as [i Hi]. apply list_elem_of_lookup in Hin' as [j Hj].
  assert (i = j) as ->.
  { eapply NoDup_lookup; [exact Hnd|rewrite list_lookup_fmap, Hi; done|rewrite list_lookup_fmap, Hj; done]. }
  congruence.
Qed.

End config.

(** The configuration of a mount datastore, and so the disk spec compared
    with the one on disk, does not depend on the order in which the mounts are
    listed, as long as their mount points differ. *)
Theorem mount_order_irrelevant reg NewKey fuel params l l' ms :
  params !! "type" = Some (JStr "mount") → reg !! "mount" = Some HMount →
  params !! "mounts" = Some (JArr l) → l ≡ₚ l' →
  AnyDatastoreConfig reg NewKey fuel params = Ok (mountDatastoreConfig ms) → NoDup ms.*2 →
  AnyDatastoreConfig reg NewKey fuel (<["mounts" := JArr l']> params) = Ok (mountDatastoreConfig ms).
Proof.
  intros Ht Hreg Hm Hp. destruct fuel as [|fuel]; [done|]. simpl.
  rewrite lookup_insert_ne by done. rewrite Ht, Hreg. unfold MountDatastoreConfig.
  rewrite Hm, lookup_insert_eq.
  destruct (map_res (mount_one NewKey (AnyDatastoreConfig reg NewKey fuel)) l) as [ys|] eqn:Hy; simpl; [|done].
  intros [= <-] Hnd. destruct (map_res_Permutation _ _ _ _ Hp Hy) as (ys' & -> & Hpy). simpl.
  do 2 f_equal. symmetry. apply sort_unique; [done|].
  by rewrite merge_sort_Permutation in Hnd.
Qed.

Module DatastoresExample.

Definition flatfs : Handler :=
  HPlugin (λ m, match m !! "path" with
                | Some (JStr p) => Ok {["type" := JStr "flatfs"; "path" := JStr p]}
                | _ => Err "path missing" end).
Definition reg : gmap string Handler := <["flatfs" := flatfs]> datastores.
Definition blocks : JVal :=
  JObj {["mountpoint" := JStr "/blocks"; "type" := JStr "flatfs"; "path" := JStr "blocks"]}.
Definition root : JVal :=
  JObj {["mountpoint" := JStr "/"; "type" := JStr "mem"]}.
Definition spec (l : list JVal) : gmap string JVal :=
  {["type" := JStr "mount"; "mounts" := JArr l]}.

End DatastoresExample.

Lemma mount_order_irrelevant_witness :
  ∃ c, AnyDatastoreConfig DatastoresExample.reg id 3
         (<["mounts" := JArr [DatastoresExample.root; DatastoresExample.blocks]]>
            (DatastoresExample.spec [DatastoresExample.blocks; DatastoresExample.root])) = Ok c.
Proof.
  destruct (AnyDatastoreConfig DatastoresExample.reg id 3
    (DatastoresExample.spec [DatastoresExample.blocks; DatastoresExample.root])) as [c|] eqn:Hc;
    [|by vm_compute in Hc].
  destruct c as [ms| | | |] eqn:Hc'; try by vm_compute in Hc.
  exists (mountDatastoreConfig ms).
  apply (mount_order_irrelevant _ _ _ _ [DatastoresExample.blocks; DatastoresExample.root]);
    [done|done|done|apply Permutation_swap|done|].
  vm_compute in Hc. injection Hc as <-. apply (bool_decide_unpack _). by vm_compute.
Defined.
