(* ===== verification/Migrations.v ===== *)
(** * Repository migrations (src/repo/fsrepo/migrations)

    The repository's version is a number in a file; [RunMigration] brings it to a
    target version by running one binary per step, looking for the binaries on
    the path and downloading the missing ones from the first source that has
    them.  The binaries, the network, the archives' formats and the process's
    surroundings are the environment [Env]; files are those of [GoFS].  The
    downloads of one run are concurrent in the source and write files of their
    own names: they are run here one after the other. *)

From Stdlib Require Import ZArith Ascii String.
From stdpp Require Import base gmap sets list strings sorting.
From S2P Require Import Prelude GoStrings GoFS.

(** What the package uses of the process and of code it does not contain. *)
Record Env := mkEnv {
  IPFS_PATH : string;
  homedir_Expand : string → res OSErr string;
  homedir_Dir : res OSErr string;
  fault : string → string → option string;
  tempname : FS → string → string;
  DownloadDirectory : string;
  GOOS : string;
  GOARCH : string;
  ldd : res OSErr (list string);
  LookPath : string → option string;
  ctx_Err : nat → option OSErr;
  (** Fetcher.Fetch: the data that can be read, and the error that ends it. *)
  Fetch : string → res OSErr (string * option OSErr);
  (** The entries of an archive; the error met instead of the end of a tar file. *)
  tar_entries : string → res OSErr (list (string * (string * option OSErr)) * option OSErr);
  zip_entries : string → res OSErr (list (string * res OSErr (string * option OSErr)));
  (** Running a binary with its arguments. *)
  exec : string → list string → FS → res OSErr unit * FS;
}.

(** A semantic version with the parser, the order and the printer of the semver package. *)
Class Semver (V : Type) := {
  semver_Make : string → option V;
  semver_String : V → string;
  semver_le : V → V → Prop;
  semver_le_dec :: RelDecision semver_le;
}.

Section migrations.
Context (env : Env) {V : Type} `{Semver V}.

(** ** The version file (ipfsdir.go) *)

(** migrations.IpfsDir *)
Definition IpfsDir (dir : string) : res OSErr string :=
  let dir := if decide (dir = "") then IPFS_PATH env else dir in
  if decide (dir ≠ "") then homedir_Expand env dir
  else home ← homedir_Dir env;
       if decide (home = "") then Err (OtherErr "could not determine IPFS_PATH, home dir not set")
       else Ok (PathJoin home ".ipfs").

(** migrations.CheckIpfsDir *)
Definition CheckIpfsDir (dir : string) : M FS OSErr string :=
  dir ← mlift (IpfsDir dir);
  _ ← Stat (fault env) dir;
  mret dir.

Definition version_path (ipfsDir : string) : string := PathJoin ipfsDir "version".

(** repoVersion *)
Definition repoVersion (ipfsDir : string) : M FS OSErr Z :=
  c ← ReadFile (fault env) (version_path ipfsDir);
  match Atoi (TrimSpace c) with
  | Some ver => mret ver
  | None => mthrow (OtherErr "invalid data in repo version file")
  end.

(** migrations.RepoVersion *)
Definition RepoVersion (ipfsDir : string) : M FS OSErr Z :=
  ipfsDir ← CheckIpfsDir ipfsDir;
  repoVersion ipfsDir.

(** fmt.Sprintf("%d\n", version) *)
Definition version_content (version : Z) : string := Itoa version +:+ String "010"%char "".

(** migrations.WriteRepoVersion *)
Definition WriteRepoVersion (ipfsDir : string) (version : Z) : M FS OSErr unit :=
  ipfsDir ← mlift (IpfsDir ipfsDir);
  WriteFile (fault env) (version_path ipfsDir) (version_content version).

(** ** Versions of a distribution (versions.go) *)

(** strings.TrimLeft(s, "v") *)
Fixpoint trim_v (s : string) : string :=
  match s with String "v"%char s' => trim_v s' | _ => s end.

Definition newline : string := String "010"%char "".
Definition return_ : string := String "013"%char "".

(** bufio.Scanner with its default split function and buffer, over all the data. *)
Definition scan_lines (data : string) : res OSErr (list string) :=
  let ls := Split data newline in
  let ls := match last ls with Some EmptyString => take (length ls - 1) ls | _ => ls end in
  if decide (Exists (λ l, 65536 ≤ Z.of_nat (String.length l))%Z ls) then Err (OtherErr "bufio.Scanner: token too long")
  else Ok (map (λ l, TrimSuffix l return_) ls).

Definition version_text (v : V) : string := "v" +:+ semver_String v.

(** DistVersions: lines that are no version are skipped. *)
Definition DistVersions (dist : string) (sortDesc : bool) : res OSErr (list string) :=
  rc ← Fetch env (PathJoin dist "versions");
  match scan_lines (rc.1), rc.2 with
  | Ok ls, None =>
      let vers := omap (λ l, semver_Make (trim_v l)) ls in
      Ok (map version_text
            (if sortDesc then merge_sort (flip semver_le) vers else merge_sort semver_le vers))
  | _, _ => Err (OtherErr "could not read versions")
  end.

(** The loop of LatestDistVersion, from the last version down. *)
Fixpoint latest (vs_rev : list string) (stableOnly : bool) : res OSErr string :=
  match vs_rev with
  | [] => Err (OtherErr "could not find a non dev version")
  | ver :: vs =>
      if stableOnly && Contains ver "-rc" then latest vs stableOnly
      else if Contains ver "-dev" then latest vs stableOnly
      else Ok ver
  end.

(** LatestDistVersion *)
Definition LatestDistVersion (dist : string) (stableOnly : bool) : res OSErr string :=
  vs ← DistVersions dist false;
  latest (rev vs) stableOnly.

(** ** Unpacking (unpack.go) *)

(** writeToPath, of what an entry of an archive holds *)
Definition writeToPath (data : string * option OSErr) (out : string) : M FS OSErr unit :=
  _ ← OsCreate (fault env) out;
  _ ← WriteTo (fault env) out data.1;
  match data.2 with Some e => mthrow e | None => mret () end.

Fixpoint find_entry {A} (lookFor : string) (es : list (string * A)) : option A :=
  match es with
  | [] => None
  | (name, a) :: es' => if decide (name = lookFor) then Some a else find_entry lookFor es'
  end.

(** unpackTgz *)
Definition unpackTgz (arcPath root name out : string) : M FS OSErr unit :=
  arc ← ReadFile (fault env) arcPath;
  es ← mlift (tar_entries env arc);
  match find_entry (root +:+ "/" +:+ name) es.1, es.2 with
  | Some bin, _ => writeToPath bin out
  | None, Some e => mthrow e
  | None, None => mthrow (OtherErr "no binary found in archive")
  end.

(** unpackZip *)
Definition unpackZip (arcPath root name out : string) : M FS OSErr unit :=
  arc ← ReadFile (fault env) arcPath;
  es ← mlift (zip_entries env arc);
  match find_entry (root +:+ "/" +:+ name) es with
  | Some rc => bin ← mlift rc; writeToPath bin out
  | None => mthrow (OtherErr "no binary found in archive")
  end.

(** unpackArchive *)
Definition unpackArchive (arcPath atype root name out : string) : M FS OSErr unit :=
  if decide (atype = "tar.gz") then unpackTgz arcPath root name out
  else if decide (atype = "zip") then unpackZip arcPath root name out
  else mthrow (OtherErr ("unrecognized archive type: " +:+ atype)).

(** ** Downloading (fetch.go) *)

(** ExeName *)
Definition ExeName (name : string) : string :=
  if decide (GOOS env = "windows") then name +:+ ".exe" else name.

(** makeArchivePath *)
Definition makeArchivePath (dist name ver atype : string) : string * string :=
  let arcName := name +:+ "_" +:+ ver +:+ "_" +:+ GOOS env +:+ "-" +:+ GOARCH env +:+ "." +:+ atype in
  (dist +:+ "/" +:+ ver +:+ "/" +:+ arcName, arcName).

(** Whether a Stat found something: an error other than "not exist" is returned. *)
Definition stat_exists (p : string) : M FS OSErr (option Node) := λ fs,
  match Stat (fault env) p fs with
  | (Ok n, fs') => (Ok (Some n), fs')
  | (Err e, fs') => if IsNotExist e then (Ok None, fs') else (Err e, fs')
  end.

(** The download and the unpacking of FetchBinary, in its temporary directory. *)
Definition fetch_into (tmpDir dist arcName ver binName out : string) : M FS OSErr string :=
  let atype := if decide (GOOS env = "windows") then "zip" else "tar.gz" in
  let '(arcDistPath, arcFullName) := makeArchivePath dist arcName ver atype in
  let arcPath := PathJoin tmpDir arcFullName in
  _ ← OsCreate (fault env) arcPath;
  rc ← mlift (Fetch env arcDistPath);
  _ ← WriteTo (fault env) arcPath rc.1;
  _ ← (match rc.2 with Some e => mthrow e | None => mret () end);
  _ ← unpackArchive arcPath atype dist binName out;
  _ ← os_try (fault env) "chmod" out;
  mret out.

(** FetchBinary *)
Definition FetchBinary (dist ver binName out : string) : M FS OSErr string :=
  let arcName := Base dist in
  let binName := ExeName (if decide (binName = "") then arcName else binName) in
  fi ← stat_exists out;
  out ← (match fi with
         | None => mret out
         | Some (NFile _) => mthrow ErrExist
         | Some NDir =>
             fi ← stat_exists (PathJoin out binName);
             match fi with None => mret (PathJoin out binName) | Some _ => mthrow ErrExist end
         end);
  if decide (DownloadDirectory env ≠ "") then
    fi ← Stat (fault env) (DownloadDirectory env);
    match fi with
    | NDir => fetch_into (DownloadDirectory env) dist arcName ver binName out
    | NFile _ => mthrow ErrExist
    end
  else
    tmpDir ← TempDir (fault env) (tempname env) arcName;
    mdefer (fetch_into tmpDir dist arcName ver binName out) (RemoveAll tmpDir).

(** osWithVariant *)
Definition osWithVariant : res OSErr string :=
  if decide (GOOS env ≠ "linux") then Ok (GOOS env)
  else out ← ldd env;
       if decide (Exists (λ l, Contains l "musl" = true) out) then Ok "linux-musl" else Ok "linux".

(** ** Running (migrations.go) *)

(** migrationName *)
Definition migrationName (from to : Z) : string :=
  "fs-repo-" +:+ Itoa from +:+ "-to-" +:+ Itoa to.

(** The name findMigrations computes at [cur]. *)
Definition mig_name (step cur : Z) : string :=
  if decide (step = -1)%Z then migrationName (cur + step) cur else migrationName cur (cur + step).

(** The loop of findMigrations, at its [i]-th iteration. *)
Fixpoint find_loop (fuel i : nat) (cur to step : Z) (migrations : list string)
    (binPaths : gmap string string) : res OSErr (list string * gmap string string) :=
  if decide (cur = to) then Ok (migrations, binPaths) else
  match fuel with
  | 0 => Err (OtherErr "out of fuel")
  | S fuel' =>
      match ctx_Err env i with
      | Some e => Err e
      | None =>
          let migName := mig_name step cur in
          find_loop fuel' (S i) (cur + step) to step (migrations ++ [migName])
            (match LookPath env migName with Some bin => <[migName := bin]> binPaths | None => binPaths end)
      end
  end.

(** findMigrations; a make with a capacity no slice can have panics. *)
Definition findMigrations (from to : Z) : res OSErr (list string * gmap string string) :=
  let step := if decide (from > to)%Z then (-1)%Z else 1%Z in
  let count := if decide (from > to)%Z then i64 (from - to) else i64 (to - from) in
  if decide (count < 0 ∨ 2 ^ 44 < count)%Z then Err (OtherErr "panic: makeslice: cap out of range")
  else find_loop (Z.to_nat count) 0 from to step [] ∅.

(** One download of fetchMigrations: its slot of [bins]. *)
Definition fetch_one (name destDir : string) : M FS OSErr string := λ fs,
  let dist := PathJoin "" name in
  match LatestDistVersion dist false with
  | Err _ => (Ok "", fs)
  | Ok ver => match FetchBinary dist ver name destDir fs with
              | (Ok loc, fs') => (Ok loc, fs')
              | (Err _, fs') => (Ok "", fs')
              end
  end.

Fixpoint fetch_all (needed : list string) (destDir : string) : M FS OSErr (list string) :=
  match needed with
  | [] => mret []
  | name :: needed' =>
      loc ← fetch_one name destDir;
      locs ← fetch_all needed' destDir;
      mret (loc :: locs)
  end.

(** fetchMigrations *)
Definition fetchMigrations (needed : list string) (destDir : string) : M FS OSErr (list string) :=
  osv ← mlift osWithVariant;
  if decide (osv = "linux-musl") then mthrow (OtherErr "linux-musl not supported")
  else
    bins ← fetch_all needed destDir;
    if decide ("" ∈ bins) then mthrow (OtherErr "failed to download migrations")
    else mret bins.

(** The files, and the binaries run so far with their arguments. *)
Record MW := mkMW { mfs : FS; ran : list (string * list string) }.

Definition onfs {A} (c : M FS OSErr A) : M MW OSErr A := λ w,
  let '(r, fs') := c (mfs w) in (r, mkMW fs' (ran w)).

(** runMigration *)
Definition run_args (ipfsDir : string) (revert : bool) : list string :=
  ("-path=" +:+ ipfsDir) :: "-verbose=true" :: (if revert then ["-revert"] else []).

Definition runMigration (binPath ipfsDir : string) (revert : bool) : M MW OSErr unit := λ w,
  let args := run_args ipfsDir revert in
  let '(r, fs') := exec env binPath args (mfs w) in
  (r, mkMW fs' (ran w ++ [(binPath, args)])).

(** The run of the migrations found; [binPaths[migration]] is "" for an absent one. *)
Definition run_all (migrations : list string) (binPaths : gmap string string) (ipfsDir : string)
    (revert : bool) : M MW OSErr unit :=
  mfor migrations (λ migration, runMigration (default "" (binPaths !! migration)) ipfsDir revert).

Definition missing_of (migrations : list string) (binPaths : gmap string string) : list string :=
  filter (λ mig, binPaths !! mig = None) migrations.

(** [for i := range missing { binPaths[missing[i]] = fetched[i] }] *)
Definition add_fetched (binPaths : gmap string string) (missing fetched : list string) : gmap string string :=
  foldl (λ m nf, <[nf.1 := nf.2]> m) binPaths (zip missing fetched).

(** RunMigration *)
Definition RunMigration (targetVer : Z) (ipfsDir : string) (allowDowngrade : bool) : M MW OSErr unit :=
  ipfsDir ← onfs (CheckIpfsDir ipfsDir);
  fromVer ← onfs (RepoVersion ipfsDir);
  if decide (fromVer = targetVer) then mret ()
  else if (fromVer >? targetVer)%Z && negb allowDowngrade then
    mthrow (OtherErr "downgrade not allowed")
  else
    mb ← mlift (findMigrations fromVer targetVer);
    let '(migrations, binPaths) := mb in
    let revert := (fromVer >? targetVer)%Z in
    if decide (size binPaths < length migrations) then
      let missing := missing_of migrations binPaths in
      tmpDir ← onfs (TempDir (fault env) (tempname env) "migrations");
      mdefer
        (fetched ← onfs (fetchMigrations missing tmpDir);
         run_all migrations (add_fetched binPaths missing fetched) ipfsDir revert)
        (onfs (RemoveAll tmpDir))
    else run_all migrations binPaths ipfsDir revert.

(** NeedMigration *)
Definition NeedMigration (target : Z) : M FS OSErr bool :=
  vnum ← RepoVersion "";
  mret (bool_decide (vnum ≠ target)).

(** ** Sources (fetcher.go, httpfetcher.go, migrations.go) *)

(** The fetchers; an IPFS fetcher is what the caller's constructor makes of the path. *)
Inductive Fetcher :=
  | HttpFetcher (distPath gateway : string) (limit : Z) (userAgent : string)
  | IpfsFetcher (distPath : string)
  | MultiFetcher (fetchers : list Fetcher).

Definition LatestIpfsDist : string := "/ipns/dist.ipfs.io".
Definition defaultGatewayURL : string := "https://ipfs.io".
Definition defaultFetchLimit : Z := 536870912.

(** strings.TrimRight(s, "/") *)
Definition TrimRightSlash (s : string) : string :=
  srev ((fix go (t : string) : string :=
           match t with String "/"%char t' => go t' | _ => t end) (srev s)).

(** NewHttpFetcher *)
Definition NewHttpFetcher (distPath gateway userAgent : string) (fetchLimit : Z) : Fetcher :=
  HttpFetcher
    (if decide (distPath = "") then LatestIpfsDist
     else if HasPrefix distPath "/" then distPath else "/" +:+ distPath)
    (if decide (gateway = "") then defaultGatewayURL else TrimRightSlash gateway)
    (if decide (fetchLimit = 0%Z) then defaultFetchLimit
     else if (fetchLimit <? 0)%Z then 0%Z else fetchLimit)
    "".

(** What an HTTP client answers: a status with a body and its read error. *)
Definition HttpDo : Type := string → string → res OSErr (Z * (string * option OSErr)).

(** io.LimitReader: the read error lies beyond a limit the data reaches. *)
Definition limit_body (limit : Z) (body : string * option OSErr) : string * option OSErr :=
  if decide (limit = 0%Z) then body
  else if (limit <=? Z.of_nat (String.length body.1))%Z
  then (String.substring 0 (Z.to_nat limit) body.1, None) else body.

(** HttpFetcher.Fetch *)
Definition http_Fetch (http_do : HttpDo) (distPath gateway : string) (limit : Z) (userAgent filePath : string)
    : res OSErr (string * option OSErr) :=
  let gwURL := gateway +:+ PathJoin distPath filePath in
  resp ← http_do gwURL userAgent;
  if (400 <=? resp.1)%Z then
    match resp.2.2 with
    | Some _ => Err (OtherErr "error reading error body")
    | None => Err (OtherErr ("GET " +:+ gwURL +:+ " error: " +:+ resp.2.1))
    end
  else Ok (limit_body limit resp.2).

(** Fetch of a fetcher; a MultiFetcher answers with its first success, or fails
    with the errors of all its fetchers. *)
Fixpoint fetcher_Fetch (http_do : HttpDo) (ipfs_do : string → string → res OSErr (string * option OSErr))
    (f : Fetcher) (filePath : string) : res (list OSErr) (string * option OSErr) :=
  match f with
  | HttpFetcher distPath gateway limit userAgent =>
      match http_Fetch http_do distPath gateway limit userAgent filePath with
      | Ok rc => Ok rc | Err e => Err [e]
      end
  | IpfsFetcher distPath => match ipfs_do distPath filePath with Ok rc => Ok rc | Err e => Err [e] end
  | MultiFetcher fetchers =>
      (fix go (fs : list Fetcher) (errs : list OSErr) : res (list OSErr) (string * option OSErr) :=
         match fs with
         | [] => Err errs
         | f :: fs' => match fetcher_Fetch http_do ipfs_do f filePath with
                       | Ok rc => Ok rc
                       | Err es => go fs' (errs ++ es)
                       end
         end) fetchers []
  end.

(** GetDistPathEnv *)
Definition GetDistPathEnv (envIpfsDistPath distPath : string) : string :=
  if decide (envIpfsDistPath ≠ "") then envIpfsDistPath
  else if decide (distPath = "") then LatestIpfsDist else distPath.

(** config.Migration *)
Record Migration := mkMigration { DownloadSources : list string; Keep : string }.

(** ReadMigrationConfig, on the decoded section, with the config package's defaults. *)
Definition ReadMigrationConfig (DefaultMigrationKeep : string) (DefaultMigrationDownloadSources : list string)
    (decoded : res OSErr Migration) : res OSErr Migration :=
  cfg ← decoded;
  keep ← (if decide (Keep cfg = "") then Ok DefaultMigrationKeep
          else if decide (Keep cfg ∈ ["discard"; "cache"; "keep"]) then Ok (Keep cfg)
          else Err (OtherErr "unknown config value, Migrations.Keep must be 'cache', 'pin', or 'discard'"));
  mret (mkMigration (match DownloadSources cfg with [] => DefaultMigrationDownloadSources | l => l end) keep).

(** The fetchers of one source; [parse] is url.Parse, giving the scheme and what
    String prints after it. *)
Definition source_fetcher (parse : string → res OSErr (string * string)) (distPath : string)
    (newIpfsFetcher : bool) (src : string) : res OSErr (list Fetcher) :=
  let src := TrimSpace src in
  if decide (src ∈ ["HTTPS"; "https"; "HTTP"; "http"]) then Ok [NewHttpFetcher distPath "" "go-ipfs" 0]
  else if decide (src ∈ ["IPFS"; "ipfs"]) then Ok (if newIpfsFetcher then [IpfsFetcher distPath] else [])
  else if decide (src = "") then Ok []
  else
    u ← parse src;
    if decide (u.1 = "") then Ok [NewHttpFetcher distPath ("https" +:+ u.2) "go-ipfs" 0]
    else if decide (u.1 ∈ ["https"; "http"]) then Ok [NewHttpFetcher distPath (u.1 +:+ u.2) "go-ipfs" 0]
    else Err (OtherErr "bad gateway address: url scheme must be http or https").

Fixpoint source_fetchers (parse : string → res OSErr (string * string)) (distPath : string)
    (newIpfsFetcher : bool) (sources : list string) : res OSErr (list Fetcher) :=
  match sources with
  | [] => Ok []
  | src :: sources' =>
      fs ← source_fetcher parse distPath newIpfsFetcher src;
      rest ← source_fetchers parse distPath newIpfsFetcher sources';
      mret (fs ++ rest)
  end.

(** GetMigrationFetcher *)
Definition GetMigrationFetcher (parse : string → res OSErr (string * string)) (sources : list string)
    (distPath : string) (newIpfsFetcher : bool) : res OSErr Fetcher :=
  fs ← source_fetchers parse distPath newIpfsFetcher sources;
  match fs with
  | [] => Err (OtherErr "no sources specified")
  | [f] => Ok f
  | _ => Ok (MultiFetcher fs)
  end.

End migrations.

(** ** The version file *)

Lemma version_content_read v :
  (i64_min ≤ v ≤ i64_max)%Z → Atoi (TrimSpace (version_content v)) = Some v.
Proof.
  intros Hv. unfold version_content. destruct (Itoa_no_space v) as [Hs Hn].
  rewrite TrimSpace_newline by done. by apply Atoi_Itoa.
Qed.

(** The version a repository's file holds. *)
Definition version_of (d : string) (fs : FS) : option Z :=
  match fs !! version_path d with
  | Some (NFile c) => Atoi (TrimSpace c)
  | _ => None
  end.

(** The operating system lets the version of [d] be read. *)
Definition readable (env : Env) (d : string) : Prop :=
  fault env "stat" d = None ∧ fault env "read" (version_path d) = None.

Lemma RepoVersion_ok env dir fs v fs' :
  RepoVersion env dir fs = (Ok v, fs') →
  fs' = fs ∧ ∃ d, IpfsDir env dir = Ok d ∧ version_of d fs = Some v ∧ is_Some (fs !! d).
Proof.
  unfold RepoVersion, CheckIpfsDir, repoVersion, version_of, Stat, ReadFile, os_try. go_run.
  destruct (IpfsDir env dir) as [d|]; [|done].
  intros Hr. go_cases; simplify_eq/=; (split; [done|]); eexists; repeat split; try done; by simplify_map_eq.
Qed.

Lemma RepoVersion_reads env dir d fs v :
  IpfsDir env dir = Ok d → readable env d → is_Some (fs !! d) → version_of d fs = Some v →
  RepoVersion env dir fs = (Ok v, fs).
Proof.
  unfold RepoVersion, CheckIpfsDir, repoVersion, version_of, Stat, ReadFile, os_try, readable. go_run.
  intros -> [Hs Hr] [n Hn] Hv. rewrite Hs, Hn, Hr.
  destruct (fs !! version_path d) as [[|c]|]; [done| |done]. by rewrite Hv.
Qed.

(** The version written to a repository is the version read back, for every
    int, and nothing but the version file changes; a write that fails leaves
    every other file as it was. *)
Theorem RepoVersion_roundtrip env dir d v fs r fs' :
  (i64_min ≤ v ≤ i64_max)%Z → IpfsDir env dir = Ok d → readable env d → is_Some (fs !! d) →
  WriteRepoVersion env dir v fs = (r, fs') →
  (r = Ok () → RepoVersion env dir fs' = (Ok v, fs')) ∧
  ∀ q, q ≠ version_path d → fs' !! q = fs !! q.
Proof.
  intros Hv Hd Hr He Hw. unfold WriteRepoVersion in Hw. rewrite bind_unfold, Hd in Hw. simpl in Hw.
  set (c := version_content v) in *.
  assert (∀ q, q ≠ version_path d → fs' !! q = fs !! q) as Ho.
  { intros q Hq. rewrite <- (WriteFile_other (fault env) (version_path d) c fs q Hq).
    by rewrite Hw. }
  split; [intros ->|done].
  assert (fs' !! version_path d = Some (NFile c)) as Hs by (eapply WriteFile_same; exact Hw).
  apply (RepoVersion_reads _ _ d); [done|done| |].
  - destruct (decide (d = version_path d)) as [Heq|]; [|by rewrite Ho].
    rewrite Heq, Hs. eauto.
  - unfold version_of. rewrite Hs. by apply version_content_read.
Qed.

(** ** The latest version *)

(** A version LatestDistVersion may return. *)
Definition eligible (stableOnly : bool) (ver : string) : Prop :=
  Contains ver "-dev" = false ∧ (stableOnly = true → Contains ver "-rc" = false).

Lemma latest_spec vs so :
  match latest vs so with
  | Ok v => eligible so v ∧ ∃ pre post, vs = pre ++ v :: post ∧ ∀ w, w ∈ pre → ¬ eligible so w
  | Err _ => ∀ w, w ∈ vs → ¬ eligible so w
  end.
Proof.
  assert (∀ v vs, ¬ eligible so v →
    match latest vs so with
    | Ok u => eligible so u ∧ ∃ pre post, vs = pre ++ u :: post ∧ ∀ w, w ∈ pre → ¬ eligible so w
    | Err _ => ∀ w, w ∈ vs → ¬ eligible so w
    end →
    match latest vs so with
    | Ok u => eligible so u ∧ ∃ pre post, v :: vs = pre ++ u :: post ∧ ∀ w, w ∈ pre → ¬ eligible so w
    | Err _ => ∀ w, w ∈ v :: vs → ¬ eligible so w
    end) as Hskip.
  { intros v vs' Hv. destruct (latest vs' so) as [u|].
    - intros (He & pre & post & -> & Hn). split; [done|]. exists (v :: pre), post. split; [done|].
      intros w [->|Hw]%elem_of_cons; auto.
    - intros Hn w [->|Hw]%elem_of_cons; auto. }
  induction vs as [|v vs IH]; simpl; [by intros w ?%not_elem_of_nil|].
  destruct (so && Contains v "-rc") eqn:Hrc.
  { apply Hskip; [|done]. apply andb_true_iff in Hrc as [-> Hrc]. intros [_ He].
    rewrite He in Hrc; done. }
  destruct (Contains v "-dev") eqn:Hdev.
  { apply Hskip; [|done]. intros [He _]. congruence. }
  split; [split; [done|]|].
  - intros ->. by destruct (Contains v "-rc").
  - exists [], vs. split; [done|]. by intros w ?%not_elem_of_nil.
Qed.

(** LatestDistVersion returns the greatest listed version that is not a
    development version (nor a release candidate when only stable ones are
    wanted), and fails only if there is none; lines that are no version are ignored. *)
Theorem LatestDistVersion_max {V} `{Semver V} env dist so data lines :
  Transitive semver_le → Total semver_le →
  Fetch env (PathJoin dist "versions") = Ok (data, None) → scan_lines data = Ok lines →
  match LatestDistVersion env dist so with
  | Ok ver => ∃ v l, ver = version_text v ∧ l ∈ lines ∧ semver_Make (trim_v l) = Some v ∧ eligible so ver ∧
      ∀ l' w, l' ∈ lines → semver_Make (trim_v l') = Some w → eligible so (version_text w) →
        version_text w = ver ∨ semver_le w v
  | Err _ => ∀ l w, l ∈ lines → semver_Make (trim_v l) = Some w → ¬ eligible so (version_text w)
  end.
Proof.
  intros Htr Htot Hf Hsc. unfold LatestDistVersion, DistVersions. rewrite Hf. simpl. rewrite Hsc. simpl.
  set (vers := omap (λ l, semver_Make (trim_v l)) lines).
  rewrite <- map_rev. set (sorted := merge_sort semver_le vers).
  assert (∀ w, w ∈ rev sorted ↔ ∃ l, l ∈ lines ∧ semver_Make (trim_v l) = Some w) as Hin.
  { intros w. unfold sorted. rewrite list_elem_of_In, <- in_rev, <- list_elem_of_In, merge_sort_Permutation.
    apply list_elem_of_omap. }
  pose proof (latest_spec (map version_text (rev sorted)) so) as Hl.
  destruct (latest _ so) as [ver|e].
  - destruct Hl as (He & pre & post & Hsplit & Hpre).
    apply fmap_app_inv in Hsplit as (pre' & rest & -> & Hrest & Hrev).
    destruct rest as [|v post']; [done|]. simpl in Hrest. injection Hrest as -> ->.
    assert (v ∈ rev sorted) as Hv by (rewrite Hrev; set_solver).
    apply Hin in Hv as (l & Hl & Hmk). exists v, l. split_and!; try done.
    intros l' w Hl' Hmk' Hel. assert (w ∈ rev sorted) as Hw by (apply Hin; eauto).
    rewrite Hrev in Hw. apply elem_of_app in Hw as [Hw|[->|Hw]%elem_of_cons]; [|by left|right].
    + destruct (Hpre (version_text w)); [|done]. by apply list_elem_of_fmap_2.
    + assert (sorted = rev post' ++ v :: rev pre') as Hs.
      { rewrite <- (rev_involutive sorted), Hrev, rev_app_distr. simpl. by rewrite <- app_assoc. }
      pose proof (StronglySorted_merge_sort semver_le vers) as Hss. fold sorted in Hss. rewrite Hs in Hss.
      apply StronglySorted_app in Hss as (Hc & _ & _). apply Hc; [|set_solver].
      by apply list_elem_of_In, in_rev; rewrite rev_involutive; apply list_elem_of_In.
  - intros l w ? ? ?. eapply (Hl (version_text w)); [|done]. apply list_elem_of_fmap_2, Hin. eauto.
Qed.

(** ** The chain of migrations *)

(** The names of the [n] steps from [cur]. *)
Fixpoint chain_from (step cur : Z) (n : nat) : list string :=
  match n with
  | 0 => []
  | S n' => mig_name step cur :: chain_from step (cur + step) n'
  end.

Definition step_of (from to : Z) : Z := if (from >? to)%Z then (-1)%Z else 1%Z.

(** The migrations from one version to another, in the order they apply. *)
Definition chain (from to : Z) : list string := chain_from (step_of from to) from (Z.to_nat (Z.abs (to - from))).

(** What findMigrations records: locations of names on the list, as LookPath gave them. *)
Definition located (env : Env) (migs : list string) (bins : gmap string string) : Prop :=
  ∀ x p, bins !! x = Some p → LookPath env x = Some p ∧ x ∈ migs.

Lemma find_loop_spec env n i cur to step migs bins :
  to = (cur + step * Z.of_nat n)%Z → step ≠ 0%Z → located env migs bins →
  match find_loop env n i cur to step migs bins with
  | Ok (m, b) => m = migs ++ chain_from step cur n ∧ located env m b
  | Err e => ∃ j, ctx_Err env j = Some e
  end.
Proof.
  revert i cur migs bins. induction n as [|n IH]; intros i cur migs bins Hto Hstep Hl; simpl.
  - rewrite decide_True by lia. by rewrite app_nil_r.
  - rewrite decide_False by nia. destruct (ctx_Err env i) eqn:Hc; [eauto|].
    specialize (IH (S i) (cur + step)%Z (migs ++ [mig_name step cur])
      (match LookPath env (mig_name step cur) with
       | Some bin => <[mig_name step cur := bin]> bins | None => bins end)).
    destruct (find_loop _ _ _ _ _ _ _ _) as [[m b]|]; [destruct IH as [-> IH]|apply IH]; try lia.
    + intros x p. destruct (LookPath env (mig_name step cur)) as [bin|] eqn:Hlp.
      * rewrite lookup_insert_Some. intros [[<- <-]|[_ Hx]]; [set_solver|].
        apply Hl in Hx. set_solver.
      * intros Hx%Hl. set_solver.
    + split; [|done]. by rewrite <- app_assoc.
    + intros x p. destruct (LookPath env (mig_name step cur)) as [bin|] eqn:Hlp.
      * rewrite lookup_insert_Some. intros [[<- <-]|[_ Hx]]; [set_solver|].
        apply Hl in Hx. set_solver.
      * intros Hx%Hl. set_solver.
Qed.

(** findMigrations lists the chain; it fails only when the context is done or
    there are more steps than a slice can hold. *)
Lemma findMigrations_spec env from to :
  (i64_min ≤ from ≤ i64_max)%Z → (i64_min ≤ to ≤ i64_max)%Z →
  match findMigrations env from to with
  | Ok (m, b) => m = chain from to ∧ located env m b
  | Err e => (∃ j, ctx_Err env j = Some e) ∨ (2 ^ 44 < Z.abs (to - from))%Z
  end.
Proof.
  intros Hf Ht. unfold findMigrations, chain, step_of.
  assert (Habs : (if decide (from > to)%Z then i64 (from - to) else i64 (to - from)) =
                 i64 (Z.abs (to - from))).
  { destruct (decide (from > to)%Z); f_equal; lia. }
  rewrite Habs. clear Habs. set (n := Z.abs (to - from)).
  assert (0 ≤ n < 2 ^ 64)%Z as Hn by (unfold i64_min, i64_max in *; lia).
  assert (n ≤ i64_max ∨ i64 n < 0 ∧ 2 ^ 44 < n)%Z as Hi.
  { destruct (decide (n ≤ i64_max)%Z); [by left|right]. unfold i64_max in *.
    unfold i64. rewrite <- (Z.mod_unique (n + 2 ^ 63) (2 ^ 64) 1 (n + 2 ^ 63 - 2 ^ 64)) by lia. lia. }
  destruct (decide (i64 n < 0 ∨ 2 ^ 44 < i64 n)%Z) as [Hbad|Hok].
  { right. destruct Hi as [Hi|[_ Hi]]; [|done].
    rewrite i64_small in Hbad by (unfold i64_min, i64_max in *; lia). lia. }
  assert (i64 n = n) as -> by (apply i64_small; unfold i64_min, i64_max in *; lia).
  replace (if decide (from > to)%Z then (-1)%Z else 1%Z) with (if (from >? to)%Z then (-1)%Z else 1%Z)
    by (destruct (decide (from > to)%Z); destruct (Z.gtb_spec from to); lia).
  pose proof (find_loop_spec env (Z.to_nat n) 0 from to (if (from >? to)%Z then -1 else 1)%Z [] ∅) as Hl.
  destruct (find_loop _ _ _ _ _ _ _ _) as [[m b]|]; [apply Hl|left; apply Hl].
  all: destruct (Z.gtb_spec from to); try lia; by intros x p ?%lookup_empty_Some.
Qed.

(** ** Downloads *)

(** What holds of the paths a download answers with, and of the directories
    that are there while it runs. *)
Section downloads.
Context (env : Env) {V : Type} `{Semver V}.

(** The system's temporary directories: clean absolute paths that are new, so
    that no path in use is one of them or lies below. *)
Hypothesis tempname_new : ∀ fs pat q, is_Some (fs !! q) → under (tempname env fs pat) q = false.
Hypothesis tempname_clean : ∀ fs pat,
  let t := tempname env fs pat in Clean t = t ∧ t ≠ "." ∧ t ≠ slash.
(** Names of platforms and semantic versions hold no slash. *)
Hypothesis platform_plain : has_char "/"%char (GOOS env +:+ GOARCH env) = false.
Hypothesis semver_plain : ∀ v : V, has_char "/"%char (semver_String v) = false.

(** Every directory is still a directory. *)
Definition dirs_stay (fs fs' : FS) : Prop := ∀ q, fs !! q = Some NDir → fs' !! q = Some NDir.

Lemma keeps_unpackArchive q nd arcPath atype root name out :
  q ≠ out → keeps (λ fs, fs !! q = nd) (unpackArchive env arcPath atype root name out).
Proof. intros Hq. unfold unpackArchive, unpackTgz, unpackZip, writeToPath. keep. Qed.

Lemma keeps_fetch_into q nd tmpDir dist arcName ver binName out :
  q ≠ out → q ≠ PathJoin tmpDir (makeArchivePath env dist arcName ver
    (if decide (GOOS env = "windows") then "zip" else "tar.gz")).2 →
  keeps (λ fs, fs !! q = nd) (fetch_into env tmpDir dist arcName ver binName out).
Proof.
  intros Ho Ha. unfold fetch_into. destruct (makeArchivePath _ _ _ _ _) as [dp full]. simpl in Ha.
  pose proof keeps_unpackArchive. keep.
Qed.

Lemma archive_name dist name ver atype :
  has_char "/"%char name = false → has_char "/"%char ver = false → atype ∈ ["zip"; "tar.gz"] →
  file_name (makeArchivePath env dist name ver atype).2.
Proof.
  intros Hn Hv Ha. rewrite has_char_app in platform_plain. apply orb_false_iff in platform_plain as [Hos Harch].
  unfold makeArchivePath, file_name. cbn [snd].
  assert (∀ a b, a +:+ "_" +:+ b ≠ "" ∧ a +:+ "_" +:+ b ≠ "." ∧ a +:+ "_" +:+ b ≠ "..") as Hne.
  { intros [|x [|y [|z a]]] b; by split_and!. }
  destruct (Hne name (ver +:+ "_" +:+ GOOS env +:+ "-" +:+ GOARCH env +:+ "." +:+ atype)) as (?&?&?).
  split_and!; try done. rewrite !has_char_app, Hn, Hv, Hos, Harch.
  by repeat (apply elem_of_cons in Ha as [->|Ha]; [done|]); apply not_elem_of_nil in Ha.
Qed.

Lemma stat_exists_inv p fs :
  ∃ r, stat_exists env p fs = (r, fs) ∧ (r = Ok None → fs !! p = None) ∧
       ∀ n, r = Ok (Some n) → fs !! p = Some n.
Proof.
  unfold stat_exists, Stat, os_try. go_run.
  destruct (fault env "stat" p); [by eexists|]. destruct (fs !! p) as [n|] eqn:Hp.
  - eexists. split_and!; [done|done|]. congruence.
  - eexists. split_and!; [done|done|done].
Qed.

(** Either FetchBinary gives up before it touches anything, or it downloads into
    a new directory, or the download directory, towards a path that is free. *)
Lemma FetchBinary_inv dist ver binName out fs r fs' :
  FetchBinary env dist ver binName out fs = (r, fs') →
  let bin := ExeName env (if decide (binName = "") then Base dist else binName) in
  (is_err r = true ∧ fs' = fs) ∨
  ∃ out', fs !! out' = None ∧ (fs !! out = Some NDir → out' = PathJoin out bin) ∧
    if decide (DownloadDirectory env = "") then
      let t := tempname env fs (Base dist) in
      mdefer (fetch_into env t dist (Base dist) ver bin out') (RemoveAll t) (<[t := NDir]> fs) = (r, fs')
    else fetch_into env (DownloadDirectory env) dist (Base dist) ver bin out' fs = (r, fs').
Proof.
  unfold FetchBinary. set (bin := ExeName env _). intros Hr. simpl.
  destruct (stat_exists_inv out fs) as (r1 & H1 & Hn1 & Hs1).
  rewrite bind_unfold, H1 in Hr. destruct r1 as [fi|]; [|left; by simplify_eq].
  assert (∃ r2, (match fi with
       | None => mret out
       | Some (NFile _) => mthrow ErrExist
       | Some NDir =>
           fi ← stat_exists env (PathJoin out bin);
           match fi with None => mret (PathJoin out bin) | Some _ => mthrow ErrExist end
       end : M FS OSErr string) fs = (r2, fs) ∧
     ∀ o, r2 = Ok o → fs !! o = None ∧ (fs !! out = Some NDir → o = PathJoin out bin)) as (r2 & H2 & Ho).
  { destruct fi as [[|c]|].
    - destruct (stat_exists_inv (PathJoin out bin) fs) as (r2 & H2 & Hn2 & Hs2).
      setoid_rewrite bind_unfold. rewrite H2. destruct r2 as [[|]|]; eexists; (split; [done|]); try done.
      intros o [= <-]. auto.
    - eexists. split; [done|]. done.
    - eexists. split; [done|]. intros o [= <-]. rewrite (Hn1 eq_refl). done. }
  rewrite bind_unfold, H2 in Hr. destruct r2 as [o|]; [|left; by simplify_eq].
  destruct (Ho o eq_refl) as [Hfree Hdir].
  destruct (decide (DownloadDirectory env = "")) as [Hdd|Hdd].
  2: { rewrite decide_True in Hr by done. rewrite bind_unfold in Hr.
       pose proof (Stat_same (fault env) (DownloadDirectory env) fs) as Hs.
       destruct (Stat _ (DownloadDirectory env) fs) as [[[|c]|] f] eqn:HS; simpl in Hs; subst f;
         [right; by exists o| |]; cbv beta iota in Hr; simpl in Hr; injection Hr as <- <-; by left. }
  rewrite decide_False in Hr by (by intros []).
  unfold TempDir, os_try in Hr. destruct (fault env "tempdir" (Base dist)).
  { left. rewrite bind_unfold in Hr. simpl in Hr. by simplify_eq. }
  right. exists o. split_and!; [done|done|]. exact Hr.
Qed.

Lemma fetch_into_keeps dist ver binName out t pat q nd fs :
  has_char "/"%char (Base dist) = false → has_char "/"%char ver = false →
  t = tempname env fs pat → fs !! q = Some nd → fs !! out = None →
  keeps (λ fs, fs !! q = Some nd)
    (mdefer (fetch_into env t dist (Base dist) ver binName out) (RemoveAll t)).
Proof.
  intros Hd Hv -> Hq Hout. set (t := tempname env fs pat).
  assert (under t q = false) as Hu by (apply tempname_new; eauto).
  apply keeps_mdefer; [|by apply keeps_RemoveAll].
  apply keeps_fetch_into; [congruence|]. intros Heq.
  destruct (tempname_clean fs pat) as (Hc & Hdot & Hs). fold t in Hc, Hdot, Hs.
  rewrite Join_under in Heq; [|done..|].
  - rewrite Heq in Hu. unfold under in Hu. rewrite <- sapp_assoc, HasPrefix_app, orb_true_r in Hu. done.
  - apply archive_name; [done|done|]. destruct (decide _); set_solver.
Qed.

(** A directory cannot be created as a file. *)
Lemma keeps_create {A} q p (c : M FS OSErr A) :
  (q ≠ p → keeps (λ fs, fs !! q = Some NDir) c) →
  keeps (λ fs, fs !! q = Some NDir) (_ ← OsCreate (fault env) p; c).
Proof.
  intros Hc fs r fs' Hr Hq. destruct (decide (q = p)) as [<-|Hne].
  - assert (∃ e, OsCreate (fault env) q fs = (Err e, fs)) as [e He].
    { unfold OsCreate, os_try. go_run. go_cases; simplify_eq; eauto. }
    rewrite bind_unfold, He in Hr. by injection Hr as <- <-.
  - revert fs r fs' Hr Hq. apply keeps_bind; [by apply keeps_OsCreate|]. intros []. by apply Hc.
Qed.

Lemma fetch_into_dirs q t dist arcName ver bin out :
  keeps (λ fs, fs !! q = Some NDir) (fetch_into env t dist arcName ver bin out).
Proof.
  unfold fetch_into. destruct (makeArchivePath _ _ _ _ _) as [dp full]. apply (keeps_create q). intros Hne.
  assert (∀ data o, keeps (λ fs, fs !! q = Some NDir) (writeToPath env data o)) as Hw.
  { intros data o. apply (keeps_create q). intros ?. keep. }
  assert (∀ a b c d e, keeps (λ fs, fs !! q = Some NDir) (unpackArchive env a b c d e)) as Hu.
  { intros. unfold unpackArchive, unpackTgz, unpackZip. keep. }
  keep.
Qed.

Lemma FetchBinary_dirs dist ver binName out fs r fs' :
  FetchBinary env dist ver binName out fs = (r, fs') → dirs_stay fs fs'.
Proof.
  intros Hr q Hq. apply FetchBinary_inv in Hr as [[_ ->]|(o & _ & _ & Hr)]; [done|].
  destruct (decide _); [|by eapply fetch_into_dirs].
  refine (keeps_mdefer (λ fs, fs !! q = Some NDir) _ _ (fetch_into_dirs _ _ _ _ _ _ _) _ _ _ _ Hr _).
  - apply keeps_RemoveAll, tempname_new; eauto.
  - destruct (decide (tempname env fs (Base dist) = q)) as [->|];
      [by rewrite lookup_insert_eq|by rewrite lookup_insert_ne].
Qed.

(** Without a download directory FetchBinary changes no path that was in use. *)
Lemma FetchBinary_keeps dist ver binName out q nd :
  DownloadDirectory env = "" →
  has_char "/"%char (Base dist) = false → has_char "/"%char ver = false →
  keeps (λ fs, fs !! q = Some nd) (FetchBinary env dist ver binName out).
Proof.
  intros Hdd Hd Hv fs r fs' Hr Hq.
  apply FetchBinary_inv in Hr as [[_ ->]|(o & Ho & _ & Hr)]; [done|]. rewrite decide_True in Hr by done.
  refine (fetch_into_keeps _ _ _ _ _ (Base dist) q nd fs Hd Hv eq_refl Hq Ho _ _ _ Hr _).
  assert (tempname env fs (Base dist) ≠ q) as Hne.
  { intros <-. pose proof (tempname_new fs (Base dist) (tempname env fs (Base dist))) as Hu.
    unfold under in Hu. rewrite bool_decide_eq_true_2 in Hu by done. by discriminate Hu; eauto. }
  by rewrite lookup_insert_ne.
Qed.

(** A binary that was fetched is where FetchBinary was asked to put it. *)
Lemma fetch_into_out t dist arcName ver bin out fs o fs' :
  fetch_into env t dist arcName ver bin out fs = (Ok o, fs') → o = out.
Proof.
  unfold fetch_into. destruct (makeArchivePath _ _ _ _ _) as [dp full]. intros Hr.
  repeat (apply bind_ok in Hr as (? & ? & _ & Hr)). by injection Hr.
Qed.

Lemma FetchBinary_out dist ver binName out fs o fs' :
  FetchBinary env dist ver binName out fs = (Ok o, fs') → fs !! out = Some NDir →
  fs !! o = None ∧ o = PathJoin out (ExeName env (if decide (binName = "") then Base dist else binName)).
Proof.
  intros Hr Hd. apply FetchBinary_inv in Hr as [[Hr _]|(o' & Hfree & Ho & Hr)]; [done|].
  destruct (decide (DownloadDirectory env = "")); [|apply fetch_into_out in Hr as ->; auto].
  unfold mdefer in Hr. destruct (fetch_into _ _ _ _ _ _ _ _) as [r1 f1] eqn:Hf. simpl in Hr.
  injection Hr as -> _. apply fetch_into_out in Hf as ->. auto.
Qed.

Lemma latest_text dist ver : LatestDistVersion env dist false = Ok ver → has_char "/"%char ver = false.
Proof.
  unfold LatestDistVersion, DistVersions. destruct (Fetch env _) as [[data e]|]; simpl; [|done].
  destruct (scan_lines data) as [ls|]; [|done]. destruct e; [done|]. simpl.
  set (vs := merge_sort _ _). rewrite <- map_rev. pose proof (latest_spec (map version_text (rev vs)) false) as Hl.
  intros Hok. rewrite Hok in Hl. destruct Hl as (_ & pre & post & Hs & _).
  assert (ver ∈ map version_text (rev vs)) as Hin by (rewrite Hs; set_solver).
  apply list_elem_of_fmap in Hin as (v & -> & _). unfold version_text. rewrite has_char_app. simpl.
  apply semver_plain.
Qed.

Lemma migrationName_file a b : file_name (migrationName a b).
Proof.
  unfold migrationName, file_name. split_and!; try done.
  rewrite !has_char_app, !Itoa_plain. done.
Qed.

Lemma ExeName_file a b : file_name (ExeName env (migrationName a b)).
Proof.
  unfold ExeName. destruct (decide _); [|apply migrationName_file].
  destruct (migrationName_file a b) as (_&_&_&Hp). unfold file_name. split_and!; try done.
  by rewrite has_char_app, Hp.
Qed.

Lemma mig_name_cases step cur : ∃ a b, mig_name step cur = migrationName a b.
Proof. unfold mig_name. destruct (decide _); eauto. Qed.

Lemma chain_names step cur n x : x ∈ chain_from step cur n → ∃ a b, x = migrationName a b.
Proof.
  revert cur. induction n as [|n IH]; intros cur; simpl; [by intros ?%not_elem_of_nil|].
  intros [->|Hx]%elem_of_cons; [apply mig_name_cases|eauto].
Qed.

Lemma dist_name a b : PathJoin "" (migrationName a b) = migrationName a b.
Proof.
  unfold PathJoin. pose proof (migrationName_file a b) as Hf. rewrite decide_True by done.
  destruct (decide (migrationName a b = "")); [by destruct Hf|]. by apply Clean_name.
Qed.

(** Where a migration's binary was found: where exec.LookPath said, or where a
    download has put it. *)
Definition found (x p : string) : Prop :=
  LookPath env x = Some p ∨ p ≠ "" ∧ ∃ dest fs, (fetch_one env x dest fs).1 = Ok p.

(** One download: it keeps what is there, and answers "" or the binary's path. *)
Lemma fetch_one_spec a b destDir fs r fs' :
  fetch_one env (migrationName a b) destDir fs = (r, fs') →
  fs !! destDir = Some NDir →
  (∃ o, r = Ok o ∧ (o = "" ∨ Base o = ExeName env (migrationName a b) ∧ found (migrationName a b) o)) ∧
  dirs_stay fs fs' ∧
  (DownloadDirectory env = "" → ∀ q nd, fs !! q = Some nd → fs' !! q = Some nd).
Proof.
  intros Hr Hd. pose proof Hr as Hf0. revert Hr. unfold fetch_one. rewrite dist_name. intros Hr.
  destruct (LatestDistVersion env _ false) as [ver|] eqn:Hv;
    [|simplify_eq; split_and!; [eauto|by intros q|done]].
  apply latest_text in Hv. pose proof (migrationName_file a b) as Hf.
  assert (has_char "/"%char (Base (migrationName a b)) = false) as Hb
    by (rewrite Base_name by done; by destruct Hf as (_&_&_&?)).
  destruct (FetchBinary env _ _ _ _ fs) as [r1 f1] eqn:HF.
  assert (DownloadDirectory env = "" → ∀ q nd, fs !! q = Some nd → f1 !! q = Some nd) as Hk.
  { intros Hdd q nd. by eapply (FetchBinary_keeps _ _ _ _ q nd Hdd Hb Hv). }
  pose proof (FetchBinary_dirs _ _ _ _ _ _ _ HF) as Hds.
  destruct r1 as [o|]; simplify_eq; split_and!; eauto.
  eexists. split; [done|]. destruct (decide (o = "")) as [|Ho]; [by left|right].
  split; [|right; split; [done|]; exists destDir, fs; by rewrite Hf0].
  apply FetchBinary_out in HF as [_ ->]; [|done].
  destruct (decide _); [by destruct Hf|]. apply Base_Join, ExeName_file.
Qed.

Lemma fetch_all_spec needed destDir fs r fs' :
  (∀ x, x ∈ needed → ∃ a b, x = migrationName a b) →
  fetch_all env needed destDir fs = (r, fs') → fs !! destDir = Some NDir →
  (∃ os, r = Ok os ∧ Forall2 (λ x o, o = "" ∨ Base o = ExeName env x ∧ found x o) needed os) ∧
  (DownloadDirectory env = "" → ∀ q nd, fs !! q = Some nd → fs' !! q = Some nd).
Proof.
  revert fs r fs'. induction needed as [|x needed IH]; intros fs r fs' Hn Hr Hd; simpl in Hr.
  { injection Hr as <- <-. eauto. }
  destruct (Hn x) as (a & b & ->); [set_solver|].
  rewrite bind_unfold in Hr. destruct (fetch_one _ _ _ fs) as [r1 f1] eqn:H1.
  apply fetch_one_spec in H1 as [(o & -> & Ho) [Hds Hk]]; [|done].
  rewrite bind_unfold in Hr. destruct (fetch_all _ _ _ f1) as [r2 f2] eqn:H2.
  apply IH in H2 as [(os & -> & Hos) Hk2]; [|set_solver|auto].
  injection Hr as <- <-. split; eauto.
Qed.

(** exec.LookPath finds a file of the name looked for. *)
Hypothesis LookPath_name : ∀ n p, LookPath env n = Some p → Base p = ExeName env n.

(** A location for each migration, where a file of its name was found. *)
Definition all_located (migs : list string) (bins : gmap string string) : Prop :=
  ∀ x, x ∈ migs → ∃ p, bins !! x = Some p ∧ Base p = ExeName env x ∧ found x p.

Lemma add_fetched_lookup (P : string → string → Prop) m missing fetched :
  (∀ x p, m !! x = Some p → P x p) → Forall2 P missing fetched →
  ∀ x, x ∈ missing ∨ is_Some (m !! x) → ∃ p, add_fetched m missing fetched !! x = Some p ∧ P x p.
Proof.
  intros Hm Hf. unfold add_fetched. revert m Hm.
  induction Hf as [|y o missing fetched Hy Hf IH]; intros m Hm x Hx; simpl.
  - destruct Hx as [?%not_elem_of_nil|[p Hp]]; [done|eauto].
  - apply IH.
    + intros z p. rewrite lookup_insert_Some. intros [[<- <-]|[_ ?]]; auto.
    + rewrite lookup_insert_is_Some'. set_solver.
Qed.

Lemma size_names (l : list string) : size (list_to_set l : gset string) ≤ length l.
Proof.
  induction l as [|y l IH]; [by rewrite list_to_set_nil, size_empty|].
  rewrite list_to_set_cons, size_union_alt, size_singleton. cbn [length].
  pose proof (subseteq_size (list_to_set l ∖ {[y]} : gset string) (list_to_set l)
                (subseteq_difference_l _ _ _ (reflexivity _))). lia.
Qed.

Lemma located_full migs bins :
  located env migs bins → length migs ≤ size bins → all_located migs bins.
Proof.
  intros Hl Hs x Hx.
  assert (dom bins ⊆ (list_to_set migs : gset string)) as Hsub.
  { intros y [p Hp]%elem_of_dom. apply Hl in Hp. set_solver. }
  assert (dom bins = (list_to_set migs : gset string)) as Heq.
  { apply set_subseteq_size_eq; [done|]. rewrite size_dom. etrans; [apply size_names|exact Hs]. }
  assert (x ∈ dom bins) as [p Hp]%elem_of_dom by (rewrite Heq; set_solver).
  exists p. apply Hl in Hp as Hlp. destruct Hlp as [Hlp _]. split_and!; [done|by apply LookPath_name|by left].
Qed.

Lemma located_fetched migs bins os :
  located env migs bins →
  Forall2 (λ x o, o = "" ∨ Base o = ExeName env x ∧ found x o) (missing_of migs bins) os → "" ∉ os →
  all_located migs (add_fetched bins (missing_of migs bins) os).
Proof.
  intros Hl Hf Hne x Hx. apply (add_fetched_lookup (λ x o, Base o = ExeName env x ∧ found x o)).
  - intros y p Hy. apply Hl in Hy as [Hy _]. split; [by apply LookPath_name|by left].
  - clear Hx. revert Hne. induction Hf as [|y o l os Ho Hf IH]; intros Hne; constructor; [|set_solver].
    destruct Ho as [->|]; [|done]. destruct Hne. by left.
  - unfold missing_of. rewrite list_elem_of_filter. destruct (bins !! x) eqn:Hb; [right; eauto|by left].
Qed.

(** The binaries a run starts: for each migration of the list a file of its
    name, in order, up to the first that fails. *)
Definition runs_of (migs : list string) (d : string) (revert : bool) : list (string * list string) :=
  map (λ n, (ExeName env n, run_args d revert)) migs.

Definition by_name (l : list (string * list string)) : list (string * list string) :=
  map (λ pa, (Base pa.1, pa.2)) l.

Lemma run_all_spec migs bins d revert w r w' :
  run_all env migs bins d revert w = (r, w') → all_located migs bins →
  ∃ l, ran w' = ran w ++ l ∧ by_name l `prefix_of` runs_of migs d revert ∧
       (r = Ok () → by_name l = runs_of migs d revert).
Proof.
  unfold run_all. revert w. induction migs as [|n migs IH]; intros w Hr Ha; simpl in Hr.
  { injection Hr as <- <-. exists []. by rewrite app_nil_r. }
  destruct (Ha n) as (p & Hp & HB & _); [by left|].
  rewrite bind_unfold, Hp in Hr. simpl in Hr. unfold runMigration in Hr at 1.
  destruct (exec env p (run_args d revert) (mfs w)) as [r1 f1]. destruct r1 as [[]|e].
  - apply IH in Hr as (l & Hl & Hpre & Hok); [|intros x Hx; apply Ha; by right].
    exists ((p, run_args d revert) :: l). simpl in *. rewrite Hl, <- app_assoc. split_and!; [done| |].
    + rewrite HB. by apply prefix_cons.
    + intros ->. by rewrite HB, Hok.
  - injection Hr as <- <-. exists [(p, run_args d revert)]. simpl. rewrite HB.
    split_and!; [done| |done]. apply prefix_cons, prefix_nil.
Qed.

(** ** RunMigration *)

Lemma CheckIpfsDir_inv dir fs r fs' :
  CheckIpfsDir env dir fs = (r, fs') → fs' = fs ∧ ∀ d, r = Ok d → IpfsDir env dir = Ok d.
Proof.
  unfold CheckIpfsDir, Stat, os_try. go_run. destruct (IpfsDir env dir) as [d|].
  - intros Hr. go_cases; simplify_eq/=; naive_solver.
  - intros [= <- <-]. naive_solver.
Qed.

Lemma RepoVersion_same dir fs : (RepoVersion env dir fs).2 = fs.
Proof.
  unfold RepoVersion, repoVersion, CheckIpfsDir, Stat, ReadFile, os_try. go_run.
  destruct (IpfsDir env dir); [|done]. go_cases.
Qed.

Lemma Atoi_range s v : Atoi s = Some v → (i64_min ≤ v ≤ i64_max)%Z.
Proof.
  unfold Atoi. destruct (match s with String _ _ => _ | _ => _ end); [|done].
  go_cases. intros [= <-]. lia.
Qed.

(** The new directory of a run. *)
Lemma TempDir_inv pat fs r fs' :
  TempDir (fault env) (tempname env) pat fs = (r, fs') →
  (∀ t, r = Ok t → fs' !! t = Some NDir ∧ ∀ q, is_Some (fs !! q) → under t q = false) ∧
  ∀ q nd, fs !! q = Some nd → fs' !! q = Some nd.
Proof.
  unfold TempDir, os_try. destruct (fault env "tempdir" pat).
  { rewrite bind_unfold. simpl. intros [= <- <-]. naive_solver. }
  intros Hr. change ((Ok (tempname env fs pat), <[tempname env fs pat := NDir]> fs) = (r, fs')) in Hr.
  injection Hr as <- <-. split.
  - intros t [= <-]. split; [by rewrite lookup_insert_eq|]. intros q Hq. by apply tempname_new.
  - intros q nd Hq. rewrite lookup_insert_ne; [done|]. intros Heq.
    assert (under (tempname env fs pat) q = false) as Hu by (apply tempname_new; eauto).
    unfold under in Hu. by rewrite bool_decide_eq_true_2 in Hu.
Qed.

Lemma fetchMigrations_inv needed destDir fs r fs' :
  (∀ x, x ∈ needed → ∃ a b, x = migrationName a b) →
  fetchMigrations env needed destDir fs = (r, fs') → fs !! destDir = Some NDir →
  (∀ os, r = Ok os → "" ∉ os ∧ Forall2 (λ x o, o = "" ∨ Base o = ExeName env x ∧ found x o) needed os) ∧
  (DownloadDirectory env = "" → ∀ q nd, fs !! q = Some nd → fs' !! q = Some nd).
Proof.
  intros Hn Hr Hd. unfold fetchMigrations in Hr. rewrite bind_unfold in Hr. unfold mlift in Hr.
  destruct (osWithVariant env) as [osv|]; [|injection Hr as <- <-; naive_solver].
  destruct (decide (osv = "linux-musl")); [injection Hr as <- <-; naive_solver|].
  rewrite bind_unfold in Hr. destruct (fetch_all env needed destDir fs) as [r1 f1] eqn:Hf.
  apply fetch_all_spec in Hf as [(os & -> & Hos) Hk]; [|done|done].
  destruct (decide ("" ∈ os)); injection Hr as <- <-; naive_solver.
Qed.

(** What RunMigration did: it failed without running anything, had nothing to
    do, or ran along the chain with every binary located beforehand. *)
Inductive Migrated (target : Z) (dir : string) (allow : bool) (w : MW) : res OSErr unit → MW → Prop :=
  | mig_failed e w' : ran w' = ran w → Migrated target dir allow w (Err e) w'
  | mig_nothing d :
      IpfsDir env dir = Ok d → RepoVersion env d (mfs w) = (Ok target, mfs w) →
      Migrated target dir allow w (Ok ()) w
  | mig_ran d v bins w1 w2 r w' :
      IpfsDir env dir = Ok d → RepoVersion env d (mfs w) = (Ok v, mfs w) →
      v ≠ target → (v < target)%Z ∨ allow = true →
      all_located (chain v target) bins → ran w1 = ran w →
      (DownloadDirectory env = "" → ∀ q nd, mfs w !! q = Some nd → mfs w1 !! q = Some nd) →
      run_all env (chain v target) bins d (v >? target)%Z w1 = (r, w2) →
      ran w' = ran w2 → (∀ q, is_Some (mfs w !! q) → mfs w' !! q = mfs w2 !! q) →
      Migrated target dir allow w r w'.

(** The download branch of RunMigration. *)
Lemma download_run migs bins d v target w r w' :
  migs = chain v target → located env migs bins →
  (tmpDir ← onfs (TempDir (fault env) (tempname env) "migrations");
   mdefer
     (fetched ← onfs (fetchMigrations env (missing_of migs bins) tmpDir);
      run_all env migs (add_fetched bins (missing_of migs bins) fetched) d (v >? target)%Z)
     (onfs (RemoveAll tmpDir)) : M MW OSErr unit) w = (r, w') →
  (∃ e, r = Err e ∧ ran w' = ran w) ∨
  ∃ bins' w1 w2, all_located migs bins' ∧ ran w1 = ran w ∧
    (DownloadDirectory env = "" → ∀ q nd, mfs w !! q = Some nd → mfs w1 !! q = Some nd) ∧
    run_all env migs bins' d (v >? target)%Z w1 = (r, w2) ∧
    ran w' = ran w2 ∧ ∀ q, is_Some (mfs w !! q) → mfs w' !! q = mfs w2 !! q.
Proof.
  intros Hm Hl Hr. rewrite bind_unfold in Hr. unfold onfs in Hr at 1.
  destruct (TempDir _ _ _ (mfs w)) as [rt ft] eqn:Ht. apply TempDir_inv in Ht as [Ht Hkt].
  destruct rt as [t|e]; [|injection Hr as <- <-; eauto]. destruct (Ht t eq_refl) as [Htd Hnew].
  unfold mdefer in Hr. rewrite bind_unfold in Hr. unfold onfs in Hr at 1. simpl in Hr.
  destruct (fetchMigrations env _ t ft) as [rf ff] eqn:Hf.
  apply fetchMigrations_inv in Hf as [Hf Hkf]; [| |done].
  2: { intros x [_ Hx]%list_elem_of_filter. subst migs. by eapply chain_names. }
  destruct rf as [os|e]; [|injection Hr as <- <-; eauto].
  destruct (Hf os eq_refl) as [Hne Hos].
  set (bins' := add_fetched _ _ _) in *. set (w1 := mkMW ff (ran w)) in *.
  destruct (run_all env migs bins' d _ w1) as [r2 w2] eqn:Hrun. injection Hr as <- <-.
  right. exists bins', w1, w2. split_and!; try done.
  - by apply located_fetched.
  - intros Hdd q nd Hq. apply (Hkf Hdd), Hkt, Hq.
  - intros q Hq. pose proof (keeps_RemoveAll q (mfs w2 !! q) t (Hnew q Hq) (mfs w2) _ _ eq_refl eq_refl) as Hk.
    exact Hk.
Qed.

Lemma RunMigration_inv target dir allow w r w' :
  (i64_min ≤ target ≤ i64_max)%Z →
  RunMigration env target dir allow w = (r, w') → Migrated target dir allow w r w'.
Proof.
  intros Ht Hr. unfold RunMigration in Hr. rewrite bind_unfold in Hr.
  unfold onfs in Hr at 1. destruct (CheckIpfsDir env dir (mfs w)) as [r0 f0] eqn:Hc.
  apply CheckIpfsDir_inv in Hc as [-> Hd]. destruct r0 as [d|]; [|injection Hr as <- <-; by constructor].
  specialize (Hd d eq_refl). rewrite bind_unfold in Hr. unfold onfs in Hr at 1. simpl in Hr.
  destruct (RepoVersion env d (mfs w)) as [r1 f1] eqn:Hv.
  assert (f1 = mfs w) as -> by (pose proof (RepoVersion_same d (mfs w)) as Hs; by rewrite Hv in Hs).
  destruct r1 as [v|]; [|injection Hr as <- <-; by constructor].
  replace (mkMW (mfs w) (ran w)) with w in Hr by (by destruct w).
  destruct (decide (v = target)) as [->|Hne]; [injection Hr as <- <-; by eapply mig_nothing|].
  destruct ((v >? target)%Z && negb allow) eqn:Hdown; [injection Hr as <- <-; by constructor|].
  assert ((v < target)%Z ∨ allow = true) as Hallow.
  { destruct (Z.gtb_spec v target), allow; simpl in Hdown; try done; auto. left. lia. }
  rewrite bind_unfold in Hr. unfold mlift in Hr.
  assert ((i64_min ≤ v ≤ i64_max)%Z) as Hvr.
  { apply RepoVersion_ok in Hv as (_ & d' & _ & Hvo & _). unfold version_of in Hvo.
    destruct (mfs w !! version_path d') as [[]|]; try done. by apply Atoi_range in Hvo. }
  pose proof (findMigrations_spec env v target Hvr Ht) as Hfm.
  destruct (findMigrations env v target) as [[migs bins]|]; [|injection Hr as <- <-; by constructor].
  destruct Hfm as [-> Hl]. destruct (decide (size bins < length (chain v target))).
  - apply download_run in Hr; [|done|done].
    destruct Hr as [(e & -> & He)|(bins' & w1 & w2 & ? & ? & ? & ? & ? & ?)]; [by constructor|].
    by eapply mig_ran.
  - eapply (mig_ran target dir allow w d v bins w w' r w'); try done. apply located_full; [done|lia].
Qed.

Lemma chain_nil v : chain v v = [].
Proof. unfold chain. by rewrite Z.sub_diag. Qed.

(** The binaries behave as their names say: the k-to-k+1 migration that succeeds
    has brought the repository from version k to k+1, or back with -revert. *)
Definition exec_migrates : Prop := ∀ k p d (revert : bool) fs fs',
  Base p = ExeName env (migrationName k (k + 1)) →
  exec env p (run_args d revert) fs = (Ok (), fs') →
  version_of d fs = Some (if revert then k + 1 else k)%Z →
  version_of d fs' = Some (if revert then k else k + 1)%Z.

Lemma run_all_version step cur n bins d w w' :
  exec_migrates → step = 1%Z ∨ step = (-1)%Z →
  run_all env (chain_from step cur n) bins d (bool_decide (step = -1)%Z) w = (Ok (), w') →
  all_located (chain_from step cur n) bins → version_of d (mfs w) = Some cur →
  version_of d (mfs w') = Some (cur + step * Z.of_nat n)%Z.
Proof.
  intros Hex Hstep. unfold run_all. revert cur w. induction n as [|n IH]; intros cur w Hr Ha Hv.
  { injection Hr as <-. rewrite Hv. f_equal. lia. }
  cbn [chain_from mfor] in Hr. destruct (Ha (mig_name step cur)) as (p & Hp & HB & _); [by left|].
  rewrite bind_unfold, Hp in Hr. change (default "" (Some p)) with p in Hr. unfold runMigration in Hr at 1.
  destruct (exec env p (run_args d (bool_decide (step = -1)%Z)) (mfs w)) as [[[]|] f1] eqn:He;
    cbv beta iota zeta in Hr; [|discriminate Hr].
  apply IH in Hr; [rewrite Hr; f_equal; lia|intros x Hx; apply Ha; by right|].
  unfold mig_name in HB. simpl. destruct Hstep as [-> | ->]; simpl in *.
  - by apply (Hex cur p d false (mfs w) f1).
  - apply (Hex (cur + -1)%Z p d true (mfs w) f1); replace (cur + -1 + 1)%Z with cur by lia; done.
Qed.

End downloads.

(** C5.  A successful RunMigration has run exactly the binaries of the chain of
    single-version steps from the repository's version to the target, in order
    and each once, downgrading only if allowed; a failed one has run an initial
    part of that chain.  Before the first binary runs every binary of the chain
    has been located, on the path or by a download: if one of them is not on the
    path and cannot be downloaded, RunMigration fails and has run none. *)
Theorem RunMigration_chain {V} `{Semver V} env target dir allow w r w' :
  (∀ fs pat q, is_Some (fs !! q) → under (tempname env fs pat) q = false) →
  (∀ fs pat, let t := tempname env fs pat in Clean t = t ∧ t ≠ "." ∧ t ≠ slash) →
  has_char "/"%char (GOOS env +:+ GOARCH env) = false →
  (∀ v : V, has_char "/"%char (semver_String v) = false) →
  (∀ n p, LookPath env n = Some p → Base p = ExeName env n) →
  (i64_min ≤ target ≤ i64_max)%Z → ran w = [] →
  RunMigration env target dir allow w = (r, w') →
  ((is_err r = true ∧ ran w' = []) ∨
   ∃ d v, IpfsDir env dir = Ok d ∧ RepoVersion env d (mfs w) = (Ok v, mfs w) ∧
     (target < v → allow = true)%Z ∧
     by_name (ran w') `prefix_of` runs_of env (chain v target) d (v >? target)%Z ∧
     (r = Ok () → by_name (ran w') = runs_of env (chain v target) d (v >? target)%Z) ∧
     (v ≠ target → ∃ bins fs w2, all_located env (chain v target) bins ∧
        run_all env (chain v target) bins d (v >? target)%Z (mkMW fs []) = (r, w2) ∧ ran w' = ran w2)) ∧
  (∀ d v n, IpfsDir env dir = Ok d → RepoVersion env d (mfs w) = (Ok v, mfs w) →
     n ∈ chain v target → LookPath env n = None → (∀ dest fs, (fetch_one env n dest fs).1 = Ok "") →
     is_err r = true ∧ ran w' = []).
Proof.
  intros H1 H2 H3 H4 H6 Ht Hran Hr. eapply RunMigration_inv in Hr; try done.
  destruct Hr as [e w' He|d Hd Hv|d v bins w1 w2 r w' Hd Hv Hne Hal Hloc Hr1 _ Hrun Hrw _].
  - by split; [left|]; rewrite He.
  - split.
    + right. exists d, target. rewrite Hran, chain_nil. by split_and!; try lia.
    + intros d' v n Hd' Hv' Hn. assert (d' = d) as -> by congruence. rewrite Hv in Hv'. injection Hv' as <-. rewrite chain_nil in Hn. by apply not_elem_of_nil in Hn.
  - assert (w1 = mkMW (mfs w1) []) as Hw1 by (destruct w1; simpl in *; congruence). split.
    + right. exists d, v. pose proof Hrun as Hrun0.
      eapply run_all_spec in Hrun as (l & Hl & Hpre & Hok); [|done].
      rewrite Hr1, Hran in Hl. simpl in Hl. rewrite Hrw, Hl. split_and!; try done.
      * intros ?. destruct Hal; [lia|done].
      * intros _. exists bins, (mfs w1), w2. by rewrite <- Hw1, Hl.
    + intros d' v' n Hd' Hv' Hn Hlp Hf. assert (d' = d) as -> by congruence. rewrite Hv in Hv'. injection Hv' as <-.
      destruct (Hloc n Hn) as (p & _ & _ & [Hp|[Hp (dest & fs & Hp')]]); [congruence|].
      rewrite Hf in Hp'. by simplify_eq.
Qed.

(** A successful RunMigration leaves the repository at the target version,
    whatever it had to download on the way, if the migration binaries do what
    their names say. *)
Theorem RunMigration_reaches {V} `{Semver V} env target dir d allow w w' :
  (∀ fs pat q, is_Some (fs !! q) → under (tempname env fs pat) q = false) →
  (∀ fs pat, let t := tempname env fs pat in Clean t = t ∧ t ≠ "." ∧ t ≠ slash) →
  has_char "/"%char (GOOS env +:+ GOARCH env) = false →
  (∀ v : V, has_char "/"%char (semver_String v) = false) →
  DownloadDirectory env = "" →
  (∀ n p, LookPath env n = Some p → Base p = ExeName env n) →
  exec_migrates env →
  (i64_min ≤ target ≤ i64_max)%Z → IpfsDir env dir = Ok d → IpfsDir env d = Ok d →
  RunMigration env target dir allow w = (Ok (), w') → version_of d (mfs w') = Some target.
Proof.
  intros H1 H2 H3 H4 H5 H6 Hex Ht Hd Hdd Hr. eapply RunMigration_inv in Hr; try done.
  inversion_clear Hr as [|d' Hd' Hv|d' v bins w1 w2 r w0 Hd' Hv Hne Hal Hloc Hr1 Hk Hrun Hrw Hfr];
    (assert (d' = d) as -> by congruence); apply RepoVersion_ok in Hv as (_ & d' & Hd'' & Hv & _);
    (assert (d' = d) as -> by congruence); [done|].
  assert (is_Some (mfs w !! version_path d)) as Hsome.
  { unfold version_of in Hv. destruct (mfs w !! version_path d); [eauto|done]. }
  assert (version_of d (mfs w1) = Some v) as Hv1.
  { unfold version_of in *. destruct (mfs w !! version_path d) eqn:Hq; [|done]. by rewrite (Hk H5 _ _ Hq). }
  unfold version_of. rewrite Hfr by done. fold (version_of d (mfs w2)). unfold chain in *.
  assert (step_of v target = 1 ∨ step_of v target = -1)%Z as Hs by (unfold step_of; destruct (_ >? _)%Z; auto).
  replace (v >? target)%Z with (bool_decide (step_of v target = -1)%Z) in Hrun
    by (unfold step_of; by destruct (v >? target)%Z).
  eapply run_all_version in Hrun; [|done..]. rewrite Hrun. f_equal. unfold step_of.
  destruct (Z.gtb_spec v target); lia.
Qed.

(** ** A repository at version 10, with the migration to 11 to be downloaded *)

Module MigrationExample.

Fixpoint ts (n : nat) : string := match n with 0 => "" | S n' => String "t"%char (ts n') end.

(** The length of the longest path in use. *)
Definition longest (fs : FS) : nat := map_fold (λ p _ m, max (String.length p) m) 0 fs.

Definition migrate (p : string) (args : list string) (fs : FS) : res OSErr unit * FS :=
  if decide (args = run_args "/repo" false ∧ version_of "/repo" fs = Some 10%Z)
  then (Ok (), <["/repo/version" := NFile (version_content 11)]> fs)
  else (Err (OtherErr "cannot migrate"), fs).

#[global] Instance Z_semver : Semver Z := {|
  semver_Make := Atoi; semver_String := Itoa; semver_le := Z.le; semver_le_dec := Z.le_dec |}.

Definition env : Env := {|
  IPFS_PATH := ""; homedir_Expand := Ok; homedir_Dir := Ok "/home"; fault := λ _ _, None;
  tempname := λ fs _, "/" +:+ ts (S (longest fs)); DownloadDirectory := "";
  GOOS := "linux"; GOARCH := "amd64"; ldd := Ok ["ldd (GNU libc) 2.31"];
  LookPath := λ _, None; ctx_Err := λ _, None;
  Fetch := λ p, if decide (p = "fs-repo-10-to-11/versions")
                then Ok ("v1" +:+ newline +:+ "v3" +:+ newline +:+ "v2-dev" +:+ newline, None)
                else if decide (p = "fs-repo-10-to-11/v3/fs-repo-10-to-11_v3_linux-amd64.tar.gz")
                then Ok ("archive", None) else Err (OtherErr "not found");
  tar_entries := λ _, Ok ([("fs-repo-10-to-11/README", ("", None));
                           ("fs-repo-10-to-11/fs-repo-10-to-11", ("binary", None))], None);
  zip_entries := λ _, Err (OtherErr "not a zip file");
  exec := migrate |}.

Definition world : MW :=
  mkMW {["/repo" := NDir; "/repo/version" := NFile (version_content 10)]} [].

Lemma ts_length n : String.length (ts n) = n.
Proof. induction n; simpl; congruence. Qed.

Lemma ts_plain n : has_char "/"%char (ts n) = false.
Proof. induction n as [|n IH]; [done|]. simpl. by rewrite has_char_cons, IH. Qed.

Lemma longest_max fs q : is_Some (fs !! q) → String.length q ≤ longest fs.
Proof.
  intros [n Hn]. revert q n Hn. unfold longest.
  apply (map_fold_weak_ind (λ m fs, ∀ q n, fs !! q = Some n → String.length q ≤ m)).
  - intros q n Hq. by apply lookup_empty_Some in Hq.
  - intros p x fs' m Hp IH q n. rewrite lookup_insert_Some. intros [[-> _]|[_ Hq]]; [lia|].
    apply IH in Hq. lia.
Qed.

Lemma tempname_new fs pat q : is_Some (fs !! q) → under (tempname env fs pat) q = false.
Proof.
  intros Hq%longest_max. unfold under, env. cbn [tempname]. apply orb_false_iff. split.
  - apply bool_decide_eq_false_2. intros ->. rewrite slength_app, ts_length in Hq. simpl in Hq. lia.
  - destruct (HasPrefix _ _) eqn:Hp; [|done]. apply HasPrefix_true in Hp as [t ->].
    rewrite !slength_app, ts_length in Hq. simpl in Hq. lia.
Qed.

Lemma tempname_clean fs pat :
  let t := tempname env fs pat in Clean t = t ∧ t ≠ "." ∧ t ≠ slash.
Proof.
  unfold env. cbn [tempname]. set (n := longest fs).
  assert (file_name (ts (S n))) as Hf by (split_and!; try done; [..|apply ts_plain]; by destruct n).
  split_and!; [|done|done]. unfold Clean.
  change ("/" +:+ ts (S n)) with (String "/"%char (ts (S n))).
  replace (HasPrefix (String "/"%char (ts (S n))) slash) with true by done.
  unfold slash at 2. rewrite Split_cons_sep, Split_word by apply ts_plain.
  cbn [foldl]. rewrite clean_step_name by done. done.
Qed.

Lemma LookPath_name n p : LookPath env n = Some p → Base p = ExeName env n.
Proof. done. Qed.

Lemma Z_plain (v : Z) : has_char "/"%char (semver_String v) = false.
Proof. apply Itoa_plain. Qed.

Lemma target_range : (i64_min ≤ 11 ≤ i64_max)%Z.
Proof. by vm_compute. Qed.
Lemma write_range : (i64_min ≤ 12 ≤ i64_max)%Z.
Proof. by vm_compute. Qed.

Lemma exec_ok : exec_migrates env.
Proof.
  intros k p d revert fs fs' _. unfold env. cbn [exec]. unfold migrate.
  destruct (decide _) as [[Ha Hv]|]; [|done]. intros [= <-]. destruct revert; [by inversion Ha|].
  assert (d = "/repo") as ->.
  { unfold run_args in Ha. by injection Ha. }
  rewrite Hv. intros [= <-]. unfold version_of.
  replace (version_path "/repo") with "/repo/version" by (by vm_compute).
  rewrite lookup_insert_eq. by apply version_content_read.
Qed.

End MigrationExample.

Lemma RunMigration_chain_witness :
  ∃ w', RunMigration (V := Z) MigrationExample.env 11 "/repo" false MigrationExample.world = (Ok (), w') ∧
    by_name (ran w') = [("fs-repo-10-to-11", ["-path=/repo"; "-verbose=true"])].
Proof.
  destruct (RunMigration (V := Z) MigrationExample.env 11 "/repo" false MigrationExample.world) as [r w'] eqn:Hr.
  assert (r = Ok ()) as -> by (apply (f_equal fst) in Hr; vm_compute in Hr; done).
  exists w'. split; [reflexivity|].
  pose proof (RunMigration_chain (V := Z) MigrationExample.env 11 "/repo" false MigrationExample.world (Ok ()) w'
    MigrationExample.tempname_new MigrationExample.tempname_clean eq_refl
    MigrationExample.Z_plain MigrationExample.LookPath_name
    MigrationExample.target_range eq_refl Hr) as [Hc _].
  clear Hr. destruct Hc as [[Hc _]|(d & v & Hd & Hv & _ & _ & Hok & _)]; [discriminate Hc|].
  vm_compute in Hd. injection Hd as <-.
  assert (v = 10)%Z as -> by (apply (f_equal fst) in Hv; vm_compute in Hv; by injection Hv).
  exact (Hok eq_refl).
Defined.

Lemma RunMigration_reaches_witness :
  ∃ w', RunMigration (V := Z) MigrationExample.env 11 "/repo" false MigrationExample.world = (Ok (), w') ∧
    version_of "/repo" (mfs w') = Some 11%Z.
Proof.
  destruct (RunMigration (V := Z) MigrationExample.env 11 "/repo" false MigrationExample.world) as [r w'] eqn:Hr.
  assert (r = Ok ()) as -> by (apply (f_equal fst) in Hr; vm_compute in Hr; done).
  exists w'. split; [reflexivity|].
  apply (RunMigration_reaches (V := Z) MigrationExample.env 11 "/repo" "/repo" false MigrationExample.world w'
    MigrationExample.tempname_new MigrationExample.tempname_clean eq_refl
    MigrationExample.Z_plain eq_refl MigrationExample.LookPath_name MigrationExample.exec_ok
    MigrationExample.target_range eq_refl eq_refl Hr).
Defined.

Lemma LatestDistVersion_max_witness :
  match LatestDistVersion (V := Z) MigrationExample.env "fs-repo-10-to-11" false with
  | Ok ver => ∃ v, ver = "v3" ∧ v = 3%Z ∧ ver = version_text v
  | Err _ => False
  end.
Proof.
  pose proof (LatestDistVersion_max (V := Z) MigrationExample.env "fs-repo-10-to-11" false
    ("v1" +:+ newline +:+ "v3" +:+ newline +:+ "v2-dev" +:+ newline) ["v1"; "v3"; "v2-dev"]
    Z.le_trans ltac:(intros x y; cbn; lia) eq_refl eq_refl) as H.
  destruct (LatestDistVersion (V := Z) MigrationExample.env "fs-repo-10-to-11" false) as [ver|e] eqn:Hl;
    vm_compute in Hl; [|discriminate Hl]. injection Hl as <-.
  destruct H as (v & l & Hv & _). exists 3%Z. done.
Defined.

Lemma RepoVersion_roundtrip_witness :
  ∃ fs', WriteRepoVersion MigrationExample.env "/repo" 12 (mfs MigrationExample.world) = (Ok (), fs') ∧
    RepoVersion MigrationExample.env "/repo" fs' = (Ok 12%Z, fs').
Proof.
  destruct (WriteRepoVersion MigrationExample.env "/repo" 12 (mfs MigrationExample.world)) as [r fs'] eqn:Hw.
  assert (r = Ok ()) as -> by (apply (f_equal fst) in Hw; vm_compute in Hw; done).
  exists fs'. split; [reflexivity|].
  apply (proj1 (RepoVersion_roundtrip MigrationExample.env "/repo" "/repo" 12 (mfs MigrationExample.world)
    (Ok ()) fs' MigrationExample.write_range eq_refl (conj eq_refl eq_refl)
    (mk_is_Some _ NDir eq_refl) Hw) eq_refl).
Defined.
