(* ===== verification/FsRepo.v ===== *)
(** * The repository on disk (src/repo/fsrepo/fsrepo.go, src/thirdparty/dir/dir.go)

    A repository is a directory with a configuration, a datastore spec, a version
    file, a keystore and, while a daemon runs, an API address.  [open] takes the
    repository's lock and checks the parts in turn; [FSRepo] is the open
    repository.  Operations hold the package lock, so each is one atomic step on
    the world: the files, the locks and the datastores this process holds. *)

From Stdlib Require Import ZArith Ascii String.
From stdpp Require Import base gmap sets list strings.
From S2P Require Import Prelude GoStrings ConfigKV GoFS Datastores Migrations.

(** The config package: the configuration struct, its JSON and its fields. *)
Class ConfigPkg (C : Type) := {
  Marshal_map : gmap string JVal → string;
  Marshal_conf : C → string;
  (** Decoding into a map: null leaves it nil. *)
  Decode_map : string → option (option (gmap string JVal));
  Decode_conf : string → option C;
  FromMap : gmap string JVal → option C;
  ToMap : C → option (gmap string JVal);
  Datastore_Type : C → string;
  Datastore_Path : C → string;
  Datastore_Spec : C → option (gmap string JVal);
  FilestoreEnabled : C → bool;
  UrlstoreEnabled : C → bool;
}.

(** What the rest of the process provides: the locks of other processes, the
    datastore handlers registered, and the datastores' own constructors. *)
Record RepoEnv := mkRepoEnv {
  others : gset string;
  reg : gmap string Handler;
  NewKey : string → string;
  spec_depth : nat;
  plugin_Create : gmap string JVal → string → res string unit;
  json_Marshal : option (gmap string JVal) → string;
  NewMultiaddr : string → option string;
}.

Inductive RErr :=
  | EOS (e : OSErr)
  | ErrNoVersion | ErrOldRepo | ErrNeedMigration
  | ProgramTooLow (version ver : Z)
  | NoRepoError (path : string)
  | LockedError (msg : string)
  | ErrNotInitialized
  | ErrApiNotRunning
  | EKey (e : KVError)
  | EDatastore (e : DsError)
  | EMsg (msg : string).

(** The world an operation acts on. *)
Record W := mkW { wfs : FS; locks : gset string; open_ds : gset string }.

(** FSRepo, less the handles that only stand for parts of the world. *)
Record FSRepo (C : Type) := mkFSRepo {
  closed : bool;
  path : string;
  config : C;
  ds : Datastore;
  filemgr : option (bool * bool);
}.
Arguments mkFSRepo {C}. Arguments closed {C}. Arguments path {C}. Arguments config {C}.
Arguments ds {C}. Arguments filemgr {C}.

(** fsrepo.RepoVersion *)
Definition repo_version : Z := 11.
Definition apiFile : string := "api".
Definition swarmKeyFile : string := "swarm.key".
Definition specFn : string := "datastore_spec".
Definition LockFile : string := "repo.lock".
(** config.PrivKeySelector *)
Definition PrivKeySelector : string := "Identity.PrivKey".

(** strings.Replace(s, old, new, 1) *)
Fixpoint Replace1 (s old new : string) : string :=
  if HasPrefix s old then new +:+ TrimPrefix s old
  else match s with EmptyString => EmptyString | String c s' => String c (Replace1 s' old new) end.

Definition on_fs {A} (c : M FS OSErr A) : M W RErr A := λ w,
  let '(r, fs') := c (wfs w) in
  (match r with Ok a => Ok a | Err e => Err (EOS e) end, mkW fs' (locks w) (open_ds w)).

Section fsrepo.
Context (env : Env) (X : RepoEnv) {C : Type} `{ConfigPkg C}.
Local Abbreviation fault := (fault env).

(** config.Path, config.Filename *)
Definition config_Path (configroot extension : string) : res OSErr string :=
  if decide (configroot = "") then
    root ← (if decide (IPFS_PATH env = "") then homedir_Expand env "~/.ipfs" else Ok (IPFS_PATH env));
    mret (PathJoin root extension)
  else Ok (PathJoin configroot extension).

Definition Filename (configroot : string) : res OSErr string := config_Path configroot "config".

(** util.FileExists *)
Definition FileExists (p : string) (fs : FS) : bool :=
  match fault "stat" p with Some _ => true | None => bool_decide (is_Some (fs !! p)) end.

(** os.MkdirAll; the directories from the outermost in. *)
Definition ancestors (p : string) : list string :=
  let cs := Split p slash in
  filter (λ q, q ≠ "") (map (λ k, Join (take k cs) slash) (seq 1 (length cs))).

Definition MkdirAll (p : string) : M FS OSErr unit :=
  _ ← os_try fault "mkdir" p;
  fs ← mget;
  match fs !! p with
  | Some NDir => mret ()
  | Some (NFile _) => mthrow (OtherErr "not a directory")
  | None =>
      mfor (ancestors p) (λ q,
        fs ← mget;
        match fs !! q with
        | Some NDir => mret ()
        | Some (NFile _) => mthrow (OtherErr "not a directory")
        | None => mmodify (<[q := NDir]>)
        end)
  end.

(** serialize.WriteConfigFile: the temporary file replaces the old one when it
    is closed, also after a failed write; a failed replacement is not reported. *)
Definition WriteConfigFile (filename content : string) : M FS OSErr unit :=
  _ ← MkdirAll (Dir filename);
  _ ← os_try fault "create" filename;
  mstate (λ fs,
    let '(r, data) := match fault "write" filename with
                      | Some msg => (Err (OtherErr msg), "")
                      | None => (Ok (), content)
                      end in
    (r, match fault "rename" filename with Some _ => fs | None => <[filename := NFile data]> fs end)).

(** serialize.ReadConfigFile into what [decode] gives *)
Definition ReadConfigFile {A} (decode : string → option A) (filename : string) : M W RErr A := λ w,
  match ReadFile fault filename (wfs w) with
  | (Ok c, _) => match decode c with Some a => (Ok a, w) | None => (Err (EMsg "failure to decode config"), w) end
  | (Err e, _) => (Err (if IsNotExist e then ErrNotInitialized else EOS e), w)
  end.

(** serialize.Load *)
Definition Load (filename : string) : M W RErr C := ReadConfigFile Decode_conf filename.

(** dir.Writable *)
Definition Writable (p : string) : M FS OSErr unit :=
  _ ← MkdirAll p;
  let check := PathJoin p "._check_writable" in
  mstate (λ fs, match OsCreate fault check fs with
        | (Ok _, fs') => (Ok (), (Remove fault check fs').2)
        | (Err _, fs') => (Err (OtherErr ("'" +:+ p +:+ "' is not writable")), fs')
        end).

(** lockfile.Lock and Close of the lock.  The lock's file, empty, is not kept among
    the files: it is there while the lock is held. *)
Definition Lock (confdir lockFileName : string) : M W RErr unit := λ w,
  let p := PathJoin confdir lockFileName in
  match fault "lock" p with
  | Some msg => (Err (EOS (OtherErr msg)), w)
  | None =>
      if decide (p ∈ others X) then (Err (LockedError "someone else has the lock"), w)
      else if decide (p ∈ locks w) then (Err (LockedError "lock is already held by us"), w)
      else (Ok (), mkW (wfs w) ({[p]} ∪ locks w) (open_ds w))
  end.

Definition Unlock (confdir lockFileName : string) : M W RErr unit := λ w,
  (Ok (), mkW (wfs w) (locks w ∖ {[PathJoin confdir lockFileName]}) (open_ds w)).

(** lockfile.Locked *)
Definition Locked (confdir lockFileName : string) : M W RErr bool := λ w,
  let p := PathJoin confdir lockFileName in
  if FileExists p (wfs w) || bool_decide (p ∈ locks w ∨ p ∈ others X) then
    match Lock confdir lockFileName w with
    | (Ok _, w') => (Ok false, (Unlock confdir lockFileName w').2)
    | (Err (LockedError _), w') => (Ok true, w')
    | (Err e, w') => (Err e, w')
    end
  else (Ok false, w).

(** ** Initialisation *)

(** configIsInitialized, isInitializedUnsynced and IsInitialized *)
Definition configIsInitialized (p : string) (fs : FS) : bool :=
  match Filename p with Ok f => FileExists f fs | Err _ => false end.

Definition isInitializedUnsynced (repoPath : string) (fs : FS) : bool := configIsInitialized repoPath fs.

Definition IsInitialized (p : string) (w : W) : bool := isInitializedUnsynced p (wfs w).

(** checkInitialized *)
Definition checkInitialized (p : string) : M W RErr unit := λ w,
  if isInitializedUnsynced p (wfs w) then (Ok (), w)
  else if isInitializedUnsynced (Replace1 p ".ipfs" ".go-ipfs") (wfs w) then (Err ErrOldRepo, w)
  else (Err (NoRepoError p), w).

(** initConfig *)
Definition initConfig (p : string) (conf : C) : M W RErr unit := λ w,
  if configIsInitialized p (wfs w) then (Ok (), w)
  else (f ← on_fs (mlift (Filename p)); on_fs (WriteConfigFile f (Marshal_conf conf))) w.

(** DiskSpec.Bytes and String *)
Definition spec_string (spec : option (gmap string JVal)) : string := TrimSpace (json_Marshal X spec).

Definition any_config (spec : gmap string JVal) : M W RErr DsConfig :=
  mlift (match AnyDatastoreConfig (reg X) (NewKey X) (spec_depth X) spec with
         | Ok d => Ok d | Err e => Err (EDatastore e) end).

(** initSpec; a nil map reads as an empty one. *)
Definition initSpec (p : string) (conf : option (gmap string JVal)) : M W RErr unit :=
  fn ← on_fs (mlift (config_Path p specFn));
  mstate (λ w, if FileExists fn (wfs w) then (Ok (), w)
       else (dsc ← any_config (default ∅ conf);
             on_fs (WriteFile fault fn (spec_string (DiskSpec dsc)))) w).

(** Init *)
Definition Init (repoPath : string) (conf : C) : M W RErr unit := λ w,
  if isInitializedUnsynced repoPath (wfs w) then (Ok (), w)
  else (_ ← initConfig repoPath conf;
        _ ← initSpec repoPath (Datastore_Spec conf);
        on_fs (WriteRepoVersion env repoPath repo_version)) w.

(** ConfigAt *)
Definition ConfigAt (repoPath : string) : M W RErr C :=
  f ← on_fs (mlift (Filename repoPath)); Load f.

(** LockedByOtherProcess *)
Definition LockedByOtherProcess (repoPath : string) : M W RErr bool := Locked (Clean repoPath) LockFile.

(** ** Opening *)

(** openConfig *)
Definition openConfig (p : string) : M W RErr C := f ← on_fs (mlift (Filename p)); Load f.

(** readSpec *)
Definition readSpec (p : string) : M W RErr string :=
  fn ← on_fs (mlift (config_Path p specFn));
  b ← on_fs (ReadFile fault fn);
  mret (TrimSpace b).

(** openDatastore *)
Definition openDatastore (p : string) (conf : C) : M W RErr Datastore :=
  if decide (Datastore_Type conf ≠ "" ∨ Datastore_Path conf ≠ "") then
    mthrow (EMsg "old style datatstore config detected")
  else
    match Datastore_Spec conf with
    | None => mthrow (EMsg "required Datastore.Spec entry missing from config file")
    | Some spec =>
        dsc ← any_config spec;
        oldSpec ← readSpec p;
        if decide (oldSpec ≠ spec_string (DiskSpec dsc)) then
          mthrow (EMsg "datastore configuration does not match what is on disk")
        else mstate (λ w,
          match Create (plugin_Create X) p dsc with
          | Err msg => (Err (EMsg msg), w)
          | Ok d => (Ok (DMeasure "ipfs.fsrepo.datastore" d), mkW (wfs w) (locks w) ({[p]} ∪ open_ds w))
          end)
    end.

(** openKeystore, keystore.NewFSKeystore: os.Mkdir where the path is free. *)
Definition openKeystore (p : string) : M FS OSErr unit :=
  let ksp := PathJoin p "keystore" in
  _ ← os_try fault "mkdir" ksp;
  fs ← mget;
  match fs !! ksp with
  | Some _ => mret ()
  | None => match fs !! Dir ksp with
            | Some NDir => mmodify (<[ksp := NDir]>)
            | _ => mthrow ErrNotExist
            end
  end.

(** newFSRepo: the path of the repository *)
Definition newFSRepo (rpath : string) : res OSErr string := homedir_Expand env (Clean rpath).

(** The version check of open *)
Definition checkVersion (p : string) : M W RErr unit := λ w,
  match RepoVersion env p (wfs w) with
  | (Err e, fs') => (Err (if IsNotExist e then ErrNoVersion else EOS e), mkW fs' (locks w) (open_ds w))
  | (Ok ver, fs') =>
      let w' := mkW fs' (locks w) (open_ds w) in
      if (repo_version >? ver)%Z then (Err ErrNeedMigration, w')
      else if (ver >? repo_version)%Z then (Err (ProgramTooLow repo_version ver), w')
      else (Ok (), w')
  end.

(** The part of open that runs under the lock *)
Definition open_locked (p : string) : M W RErr (FSRepo C) :=
  _ ← checkVersion p;
  _ ← on_fs (Writable p);
  conf ← openConfig p;
  d ← openDatastore p conf;
  _ ← on_fs (openKeystore p);
  mret (mkFSRepo false p conf d
    (if FilestoreEnabled conf || UrlstoreEnabled conf
     then Some (FilestoreEnabled conf, UrlstoreEnabled conf) else None)).

(** open: the lock is kept only on success. *)
Definition open (repoPath : string) : M W RErr (FSRepo C) :=
  p ← on_fs (mlift (newFSRepo repoPath));
  _ ← checkInitialized p;
  _ ← Lock p LockFile;
  mstate (λ w, match open_locked p w with
       | (Ok r, w') => (Ok r, w')
       | (Err e, w') => (Err e, (Unlock p LockFile w').2)
       end).

(** ** The open repository *)

Record RS := mkRS { rw : W; rr : FSRepo C }.

Definition on_w {A} (c : M W RErr A) : M RS RErr A := λ s,
  let '(r, w') := c (rw s) in (r, mkRS w' (rr s)).

Definition repo_path : M RS RErr string := λ s, (Ok (path (rr s)), s).

Definition unless_closed {A} (msg : string) (c : M RS RErr A) : M RS RErr A := λ s,
  if closed (rr s) then (Err (EMsg msg), s) else c s.

(** APIAddr; io.LimitReader reads at most 2048 bytes. *)
Definition APIAddr (repoPath : string) : M W RErr string := λ w,
  let apiFilePath := PathJoin (Clean repoPath) apiFile in
  match ReadFile fault apiFilePath (wfs w) with
  | (Err e, _) => (Err (if IsNotExist e then ErrApiNotRunning else EOS e), w)
  | (Ok c, _) =>
      let buf := String.substring 0 2048 c in
      if decide (String.length buf = 2048) then (Err (EMsg "API file too large"), w)
      else match NewMultiaddr X (TrimSpace buf) with
           | Some a => (Ok a, w)
           | None => (Err (EMsg "invalid multiaddr"), w)
           end
  end.

(** SetAPIAddr *)
Definition SetAPIAddr (p addr : string) : M FS OSErr unit :=
  let tmp := PathJoin p ("." +:+ apiFile +:+ ".tmp") in
  _ ← OsCreate fault tmp;
  _ ← WriteTo fault tmp addr;
  _ ← os_try fault "close" tmp;
  mstate (λ fs, match Rename fault tmp (PathJoin p apiFile) fs with
        | (Ok _, fs') => (Ok (), fs')
        | (Err e, fs') => match Remove fault tmp fs' with
                          | (Ok _, fs'') => (Err e, fs'')
                          | (Err _, fs'') => (Err (OtherErr "File Rename error, File remove error"), fs'')
                          end
        end).

(** Close *)
Definition Close : M RS RErr unit := unless_closed "repo is closed" (λ s,
  let p := path (rr s) in
  let w1 := mkW (Remove fault (PathJoin p apiFile) (wfs (rw s))).2 (locks (rw s)) (open_ds (rw s)) in
  match fault "dsclose" p with
  | Some msg => (Err (EMsg msg), mkRS w1 (rr s))
  | None =>
      let w2 := mkW (wfs w1) (locks w1) (open_ds w1 ∖ {[p]}) in
      let '(r, w3) := Unlock p LockFile w2 in
      (r, mkRS w3 (mkFSRepo true p (config (rr s)) (ds (rr s)) (filemgr (rr s))))
  end).

(** Config *)
Definition Config : M RS RErr C :=
  unless_closed "cannot access config, repo not open" (λ s, (Ok (config (rr s)), s)).

(** BackupConfig; [temp] is the name TempFile picks in the repository. *)
Definition BackupConfig (temp : string) : M RS RErr string :=
  p ← repo_path;
  _ ← on_w (on_fs (OsCreate fault temp));
  f ← on_w (on_fs (mlift (Filename p)));
  c ← on_w (on_fs (ReadFile fault f));
  _ ← on_w (on_fs (WriteTo fault temp c));
  mret f.

(** [for k, v := range m { mapconf[k] = v }], which panics on a nil map. *)
Definition merge_into (mapconf : option (gmap string JVal)) (m : gmap string JVal) : res RErr (gmap string JVal) :=
  match mapconf with
  | Some mc => Ok (m ∪ mc)
  | None => if decide (m = ∅) then Ok ∅ else Err (EMsg "panic: assignment to entry in nil map")
  end.

Definition of_opt {S A} (msg : string) (o : option A) : M S RErr A :=
  match o with Some a => mret a | None => mthrow (EMsg msg) end.

(** setConfigUnsynced *)
Definition setConfigUnsynced (updated : C) : M RS RErr unit :=
  p ← repo_path;
  f ← on_w (on_fs (mlift (Filename p)));
  mapconf ← on_w (ReadConfigFile Decode_map f);
  m ← of_opt "failure to decode config" (ToMap updated);
  merged ← mlift (merge_into mapconf m);
  _ ← on_w (on_fs (WriteConfigFile f (Marshal_map merged)));
  mstate (λ s, (Ok (), mkRS (rw s) (mkFSRepo (closed (rr s)) (path (rr s)) updated (ds (rr s)) (filemgr (rr s))))).

(** SetConfig *)
Definition SetConfig (updated : C) : M RS RErr unit := setConfigUnsynced updated.

Definition lift_key {S A} (r : res KVError A) : M S RErr A :=
  mlift (match r with Ok a => Ok a | Err e => Err (EKey e) end).

(** GetConfigKey *)
Definition GetConfigKey (key : string) : M RS RErr JVal := unless_closed "repo is closed" (
  p ← repo_path;
  f ← on_w (on_fs (mlift (Filename p)));
  cfg ← on_w (ReadConfigFile Decode_map f);
  lift_key (MapGetKV (default ∅ cfg) key)).

(** SetConfigKey *)
Definition SetConfigKey (key : string) (value : JVal) : M RS RErr unit := unless_closed "repo is closed" (
  p ← repo_path;
  f ← on_w (on_fs (mlift (Filename p)));
  mapconf ← on_w (ReadConfigFile Decode_map f);
  let mapconf := default ∅ mapconf in
  pkval ← lift_key (MapGetKV mapconf PrivKeySelector);
  m1 ← lift_key (MapSetKV mapconf key value);
  m2 ← lift_key (MapSetKV m1 PrivKeySelector pkval);
  conf ← of_opt "failure to decode config" (FromMap m2);
  _ ← on_w (on_fs (WriteConfigFile f (Marshal_map m2)));
  setConfigUnsynced conf).

(** SwarmKey: no file is no key. *)
Definition SwarmKey : M RS RErr (option string) := λ s,
  match ReadFile fault (PathJoin (Clean (path (rr s))) swarmKeyFile) (wfs (rw s)) with
  | (Ok c, _) => (Ok (Some c), s)
  | (Err e, _) => if IsNotExist e then (Ok None, s) else (Err (EOS e), s)
  end.

End fsrepo.

(** ** The lock *)

Section locking.
Context (env : Env) (X : RepoEnv) {C : Type} `{ConfigPkg C}.

Lemma keeps_on_fs {A} (I : W → Prop) (c : M FS OSErr A) :
  (∀ w fs', I w → I (mkW fs' (locks w) (open_ds w))) → keeps I (on_fs c).
Proof. intros HI w r w'. unfold on_fs. destruct (c (wfs w)). intros [= <- <-]. apply HI. Qed.

Lemma keeps_on_fs_locks {A} L (c : M FS OSErr A) : keeps (λ w, locks w = L) (on_fs c).
Proof. by apply keeps_on_fs. Qed.

Lemma keeps_ReadConfigFile {A} (I : W → Prop) (decode : string → option A) f :
  keeps I (ReadConfigFile env decode f).
Proof. intros w r w'. unfold ReadConfigFile. go_cases; by intros [= <- <-]. Qed.

Lemma keeps_checkVersion L p : keeps (λ w, locks w = L) (checkVersion env p).
Proof. intros w r w'. unfold checkVersion. destruct (RepoVersion _ _ _) as [[]]; go_cases; by intros [= <- <-]. Qed.

Lemma keeps_openDatastore L p conf : keeps (λ w, locks w = L) (openDatastore env X p conf).
Proof.
  unfold openDatastore, readSpec, any_config. pose proof @keeps_on_fs_locks. keep.
  intros w r w'. unfold mstate. destruct (Create _ _ _); by intros [= <- <-].
Qed.

Lemma keeps_open_locked L p : keeps (λ w, locks w = L) (open_locked env X p).
Proof.
  unfold open_locked, openConfig, Load.
  pose proof @keeps_on_fs_locks. pose proof keeps_checkVersion. pose proof keeps_openDatastore.
  pose proof @keeps_ReadConfigFile. keep.
Qed.

(** The stages of open before the lock change nothing. *)
Lemma open_inv repoPath w r w' :
  open env X repoPath w = (r, w') →
  (∃ e, r = Err e ∧ w' = w) ∨
  ∃ p, newFSRepo env repoPath = Ok p ∧ isInitializedUnsynced env p (wfs w) = true ∧
    let l := PathJoin p LockFile in
    (l ∉ locks w) ∧ (l ∉ others X) ∧
    ∃ r1 w1, open_locked env X p (mkW (wfs w) ({[l]} ∪ locks w) (open_ds w)) = (r1, w1) ∧ r = r1 ∧
      w' = (if is_ok r1 then w1 else (Unlock p LockFile w1).2).
Proof.
  unfold open. intros Hr. rewrite bind_unfold in Hr. unfold on_fs in Hr at 1. unfold mlift in Hr.
  destruct w as [fs L D]. cbn [wfs locks open_ds] in *.
  destruct (newFSRepo env repoPath) as [p|e]; cbv beta iota zeta in Hr; [|left; simplify_eq; eauto].
  rewrite bind_unfold in Hr. unfold checkInitialized in Hr. cbn [wfs] in Hr.
  destruct (isInitializedUnsynced env p fs) eqn:Hi.
  2: { destruct (isInitializedUnsynced env _ fs) in Hr; cbv beta iota in Hr; left; simplify_eq; eauto. }
  cbv beta iota in Hr. rewrite bind_unfold in Hr. unfold Lock in Hr. cbn [wfs locks open_ds] in Hr.
  destruct (fault env "lock" _) in Hr; [left; simplify_eq; eauto|].
  destruct (decide (PathJoin p LockFile ∈ others X)); [left; simplify_eq; eauto|].
  destruct (decide (PathJoin p LockFile ∈ L)); [left; simplify_eq; eauto|].
  right. exists p. split_and!; try done.
  unfold mstate in Hr. destruct (open_locked env X p _) as [r1 w1]. eexists _, _. split; [done|].
  by destruct r1; simplify_eq/=.
Qed.

End locking.

(** C3.  Opening takes the repository's lock exactly when it succeeds: on every
    error path, whichever check fails, the locks held are those held before; on
    success the repository's lock, free before, is added, and no other. *)
Theorem open_lock_discipline env X {C} `{ConfigPkg C} repoPath w :
  match open env X repoPath w with
  | (Err _, w') => locks w' = locks w
  | (Ok r, w') =>
      let l := PathJoin (path r) LockFile in
      (l ∉ locks w) ∧ (l ∉ others X) ∧ locks w' = {[l]} ∪ locks w ∧ closed r = false
  end.
Proof.
  destruct (open env X repoPath w) as [r w'] eqn:Hr. apply open_inv in Hr as
    [(e & -> & ->)|(p & _ & _ & Hl & Ho & r1 & w1 & Hrun & -> & ->)]; [done|].
  pose proof (keeps_open_locked env X _ p _ _ _ Hrun eq_refl) as HL. cbn [locks] in HL.
  destruct r1 as [rep|e]; simpl.
  - assert (path rep = p ∧ closed rep = false) as [-> ->]; [|done].
    unfold open_locked in Hrun. go_inv. done.
  - rewrite HL. set_solver.
Qed.

(** ** What an open repository has been checked for *)

Section opened.
Context (env : Env) (X : RepoEnv) {C : Type} `{ConfigPkg C}.

Lemma on_fs_ok {A} (c : M FS OSErr A) w a w' :
  on_fs c w = (Ok a, w') →
  ∃ fs', c (wfs w) = (Ok a, fs') ∧ w' = mkW fs' (locks w) (open_ds w).
Proof. unfold on_fs. destruct (c (wfs w)) as [[] fs']; intros; simplify_eq; eauto. Qed.

Lemma ReadFile_ok fl p fs c fs' : ReadFile fl p fs = (Ok c, fs') → fs' = fs ∧ fs !! p = Some (NFile c).
Proof. unfold ReadFile, os_try. go_run. go_cases; intros; by simplify_eq. Qed.

Lemma ReadConfigFile_ok {A} (decode : string → option A) f w a w' :
  ReadConfigFile env decode f w = (Ok a, w') →
  w' = w ∧ ∃ c, wfs w !! f = Some (NFile c) ∧ decode c = Some a.
Proof.
  unfold ReadConfigFile. destruct (ReadFile _ _ _) as [[c|] fs'] eqn:Hr; [|done].
  apply ReadFile_ok in Hr as [_ Hr]. destruct (decode c) eqn:Hd; intros; simplify_eq. eauto.
Qed.

(** The configuration a repository's file holds. *)
Definition config_on_disk (p : string) (conf : C) (fs : FS) : Prop :=
  ∃ f c, Filename env p = Ok f ∧ fs !! f = Some (NFile c) ∧ Decode_conf c = Some conf.

(** The datastore spec on disk is the one the configuration asks for. *)
Definition spec_matches (p : string) (conf : C) (fs : FS) : Prop :=
  ∃ fn b spec dsc, config_Path env p specFn = Ok fn ∧ fs !! fn = Some (NFile b) ∧
    Datastore_Spec conf = Some spec ∧
    AnyDatastoreConfig (reg X) (NewKey X) (spec_depth X) spec = Ok dsc ∧
    TrimSpace b = spec_string X (DiskSpec dsc).

Lemma openConfig_ok p w conf w' :
  openConfig env p w = (Ok conf, w') → w' = w ∧ config_on_disk p conf (wfs w).
Proof.
  unfold openConfig, Load. intros (f & w1 & Hf & Hr)%bind_ok.
  apply on_fs_ok in Hf as (fs' & [Hf ->]%mlift_ok & ->).
  apply ReadConfigFile_ok in Hr as [-> (c & Hc & Hd)]. simpl in *.
  split; [by destruct w|]. unfold config_on_disk. eauto.
Qed.

Lemma readSpec_ok p w b w' :
  readSpec env p w = (Ok b, w') →
  w' = w ∧ ∃ fn c, config_Path env p specFn = Ok fn ∧ wfs w !! fn = Some (NFile c) ∧ b = TrimSpace c.
Proof.
  unfold readSpec. intros (fn & w1 & Hf & (c & w2 & Hc & Hr)%bind_ok)%bind_ok.
  apply on_fs_ok in Hf as (fs' & [Hf ->]%mlift_ok & ->).
  apply on_fs_ok in Hc as (fs' & [-> Hc]%ReadFile_ok & ->). injection Hr as <- <-. simpl in *.
  split; [by destruct w|]. eauto.
Qed.

Lemma openDatastore_ok p conf w d w' :
  openDatastore env X p conf w = (Ok d, w') →
  w' = mkW (wfs w) (locks w) ({[p]} ∪ open_ds w) ∧ spec_matches p conf (wfs w) ∧
  Datastore_Type conf = "" ∧ Datastore_Path conf = "".
Proof.
  unfold openDatastore. destruct (decide _) as [|Hold]; [done|].
  destruct (Datastore_Spec conf) as [spec|] eqn:Hs; [|done].
  intros (dsc & w1 & Hd & (old & w2 & Ho & Hr)%bind_ok)%bind_ok.
  apply mlift_ok in Hd as [Hd ->]. apply readSpec_ok in Ho as [-> (fn & c & Hfn & Hc & ->)].
  destruct (decide _) as [|Heq]; [done|]. apply dec_stable in Heq.
  unfold mstate in Hr. destruct (Create _ _ _); [|done]. injection Hr as <- <-.
  destruct (AnyDatastoreConfig _ _ _ _) as [dsc'|] eqn:Ha; [|done]. injection Hd as ->.
  split_and!; [done| |apply dec_stable; naive_solver..].
  exists fn, c, spec, dsc. done.
Qed.

Lemma openKeystore_ok p fs fs' :
  openKeystore env p fs = (Ok (), fs') → ∀ q n, fs !! q = Some n → fs' !! q = Some n.
Proof.
  unfold openKeystore, os_try. go_run. go_cases; intros Hr; simplify_eq; try done; intros q nd Hq;
    rewrite lookup_insert_ne; congruence.
Qed.

Lemma checkVersion_ok p w w' :
  checkVersion env p w = (Ok (), w') → w' = w ∧ (RepoVersion env p (wfs w)).1 = Ok repo_version.
Proof.
  unfold checkVersion. pose proof (RepoVersion_same env p (wfs w)) as Hs.
  destruct (RepoVersion env p (wfs w)) as [[ver|] fs']; simpl in *; [|done]. subst fs'.
  destruct (Z.gtb_spec repo_version ver); [done|]. destruct (Z.gtb_spec ver repo_version); [done|].
  intros [= <-]. split; [by destruct w|]. f_equal. lia.
Qed.

Lemma open_locked_ok p w r w' :
  open_locked env X p w = (Ok r, w') →
  (RepoVersion env p (wfs w)).1 = Ok repo_version ∧
  path r = p ∧ config_on_disk p (config r) (wfs w') ∧ spec_matches p (config r) (wfs w') ∧
  open_ds w' = {[p]} ∪ open_ds w.
Proof.
  unfold open_locked. intros ([] & w1 & Hv & Hr)%bind_ok. apply checkVersion_ok in Hv as [-> Hv].
  apply bind_ok in Hr as ([] & w2 & Hw & Hr). apply on_fs_ok in Hw as (fs2 & Hw & ->).
  apply bind_ok in Hr as (conf & w3 & Hc & Hr). apply openConfig_ok in Hc as [-> Hc].
  apply bind_ok in Hr as (d & w4 & Hd & Hr). apply openDatastore_ok in Hd as (-> & Hd & _).
  apply bind_ok in Hr as ([] & w5 & Hk & Hr). apply on_fs_ok in Hk as (fs5 & Hk & ->).
  injection Hr as <- <-. simpl in *. pose proof (openKeystore_ok _ _ _ Hk) as Hkeep.
  split_and!; try done.
  - destruct Hc as (f & c & ? & ? & ?). exists f, c. auto.
  - destruct Hd as (fn & b & spec & dsc & ? & ? & ? & ? & ?). exists fn, b, spec, dsc. auto.
Qed.

End opened.

(** A repository that opens has version 11 (neither older nor newer), its
    configuration is the one on disk, and the datastore spec stored in the
    repository equals the one the configuration describes. *)
Theorem open_checked env X {C} `{ConfigPkg C} repoPath w r w' :
  open env X repoPath w = (Ok r, w') →
  newFSRepo env repoPath = Ok (path r) ∧
  (RepoVersion env (path r) (wfs w)).1 = Ok repo_version ∧
  config_on_disk env (path r) (config r) (wfs w') ∧ spec_matches env X (path r) (config r) (wfs w') ∧
  open_ds w' = {[path r]} ∪ open_ds w.
Proof.
  intros Hr. apply open_inv in Hr as
    [(e & He & ->)|(p & Hp & _ & _ & _ & r1 & w1 & Hrun & <- & ->)]; [done|].
  apply open_locked_ok in Hrun as (Hv & <- & Hc & Hs & Hd). by split_and!.
Qed.

(** ** Editing the configuration *)

(** ASCII lower case, as strings.ToLower has it. *)
Definition to_lower_char (c : ascii) : ascii :=
  let n := nat_of_ascii c in if decide (65 ≤ n ≤ 90) then ascii_of_nat (n + 32) else c.

Fixpoint ToLower (s : string) : string :=
  match s with EmptyString => EmptyString | String c s' => String (to_lower_char c) (ToLower s') end.

(** No key of the map is another spelling of [k]: encoding/json, which decodes
    into a struct, matches the names of fields without regard to case. *)
Definition one_spelling (k : string) (m : gmap string JVal) : Prop :=
  ∀ k', is_Some (m !! k') → ToLower k' = ToLower k → k' = k.

Definition exact_privkey (m : gmap string JVal) : Prop :=
  one_spelling "Identity" m ∧ ∀ i, m !! "Identity" = Some (JObj i) → one_spelling "PrivKey" i.

(** What the config package promises of its JSON. *)
Class ConfigLaws (C : Type) `{ConfigPkg C} : Prop := {
  decode_marshal m k :
    MapGetKV m PrivKeySelector = Ok (JStr k) →
    ∃ m', Decode_map (Marshal_map m) = Some (Some m') ∧ MapGetKV m' PrivKeySelector = Ok (JStr k);
  privkey_kept m c mt k :
    exact_privkey m → FromMap m = Some c → ToMap c = Some mt →
    MapGetKV m PrivKeySelector = Ok (JStr k) → MapGetKV mt PrivKeySelector = Ok (JStr k);
}.

Lemma get_parts_Identity before m v :
  get_parts before ["Identity"; "PrivKey"] (JObj m) = Ok v ↔
  ∃ i, m !! "Identity" = Some (JObj i) ∧ i !! "PrivKey" = Some v.
Proof.
  simpl. split.
  - destruct (m !! "Identity") as [[| | | | |i]|]; try done. destruct (i !! "PrivKey") eqn:Hi; [|done].
    intros [= ->]. eauto.
  - intros (i & -> & ->). done.
Qed.

Lemma MapGetKV_privkey m v :
  MapGetKV m PrivKeySelector = Ok v ↔
  ∃ i, m !! "Identity" = Some (JObj i) ∧ i !! "PrivKey" = Some v.
Proof. apply (get_parts_Identity [] m v). Qed.

Lemma MapSetKV_privkey m v m' :
  MapSetKV m PrivKeySelector v = Ok m' →
  ∃ i, sub_map m "Identity" = JObj i ∧ m' = <["Identity" := JObj (<["PrivKey" := v]> i)]> m.
Proof.
  unfold MapSetKV. change (Split PrivKeySelector ".") with ["Identity"; "PrivKey"]. cbn [set_parts].
  destruct (sub_map m "Identity") as [| | | | |i]; try done. intros [= <-]. eauto.
Qed.

Lemma exact_privkey_set m v m' : exact_privkey m → MapSetKV m PrivKeySelector v = Ok m' → exact_privkey m'.
Proof.
  intros [He Hp] (i & Hi & ->)%MapSetKV_privkey. split.
  - intros k' [x Hk']. destruct (decide (k' = "Identity")); [done|].
    rewrite lookup_insert_ne in Hk' by done. apply He. eauto.
  - intros i'. rewrite lookup_insert_eq. intros [= <-] k' [x Hk']. destruct (decide (k' = "PrivKey")); [done|].
    rewrite lookup_insert_ne in Hk' by done. unfold sub_map in Hi.
    destruct (m !! "Identity") as [[| | | | |i0]|] eqn:Hm; simplify_eq.
    eapply Hp; eauto.
Qed.

Section editing.
Context (env : Env) (X : RepoEnv) {C : Type} `{ConfigLaws C}.

(** The key stored in the configuration file [f]. *)
Definition key_on_disk (f k : string) (s : RS (C := C)) : Prop :=
  ∃ c m, wfs (rw s) !! f = Some (NFile c) ∧ Decode_map c = Some (Some m) ∧
         MapGetKV m PrivKeySelector = Ok (JStr k).

Lemma on_w_ok {A} (c : M W RErr A) (s : RS (C := C)) a s' :
  on_w c s = (Ok a, s') → ∃ w', c (rw s) = (Ok a, w') ∧ s' = mkRS w' (rr s).
Proof. unfold on_w. destruct (c (rw s)) as [[] w']; intros; simplify_eq; eauto. Qed.

(** MkdirAll adds directories and changes nothing that is there. *)
Lemma keeps_MkdirAll q n p : keeps (λ fs, fs !! q = Some n) (MkdirAll env p).
Proof.
  unfold MkdirAll. apply keeps_bind; [apply keeps_os_try|]. intros _.
  intros fs r fs' Hr Hq. rewrite bind_unfold in Hr. simpl in Hr.
  destruct (fs !! p) as [[|c]|]; [by injection Hr as <- <-..|].
  eapply (mfor_inv (λ fs, fs !! q = Some n)); [|done|exact Hr].
  intros a fs1 r1 fs2 _ Hq1. cbv beta. rewrite bind_unfold. simpl. destruct (fs1 !! a) as [[|c]|] eqn:Ha.
  1,2: intros [= <- <-]; done.
  intros [= <- <-]. rewrite lookup_insert_ne; congruence.
Qed.

(** A write of a configuration that is not cut short leaves the old file or the
    new one, and touches no other file. *)
Lemma WriteConfigFile_inv f content fs r fs' :
  fault env "write" f = None → WriteConfigFile env f content fs = (r, fs') →
  (∀ n, fs !! f = Some n → fs' !! f = Some n ∨ fs' !! f = Some (NFile content)) ∧
  ∀ q n, q ≠ f → fs !! q = Some n → fs' !! q = Some n.
Proof.
  intros Hw Hr. unfold WriteConfigFile in Hr. rewrite bind_unfold in Hr.
  destruct (MkdirAll env (Dir f) fs) as [r1 fs1] eqn:Hm.
  assert (∀ q n, fs !! q = Some n → fs1 !! q = Some n) as Hk
    by (intros q n; by eapply (keeps_MkdirAll q n)).
  destruct r1 as [[]|]; [|injection Hr as <- <-; eauto].
  rewrite bind_unfold in Hr. unfold os_try in Hr. destruct (fault env "create" f); simpl in Hr;
    [injection Hr as <- <-; eauto|].
  unfold mstate in Hr. rewrite Hw in Hr. simpl in Hr.
  destruct (fault env "rename" f); injection Hr as <- <-; [eauto|].
  split; [right; by rewrite lookup_insert_eq|]. intros q n Hq Hn. rewrite lookup_insert_ne; auto.
Qed.

Lemma write_keeps_key f k m (s : RS (C := C)) r s' :
  fault env "write" f = None → MapGetKV m PrivKeySelector = Ok (JStr k) →
  on_w (on_fs (WriteConfigFile env f (Marshal_map m))) s = (r, s') →
  key_on_disk f k s → key_on_disk f k s' ∧ rr s' = rr s.
Proof.
  intros Hf Hm Hr (c & mc & Hc & Hd & Hk). unfold on_w, on_fs in Hr.
  destruct (WriteConfigFile env f _ _) as [r1 fs1] eqn:Hw. injection Hr as <- <-.
  split; [|done]. apply WriteConfigFile_inv in Hw as [Hw _]; [|done].
  destruct (Hw _ Hc) as [Hw1|Hw1].
  - exists c, mc. done.
  - destruct (decode_marshal m k Hm) as (m' & Hd' & Hk'). exists (Marshal_map m), m'. done.
Qed.

Lemma MapGetKV_union m1 m2 v :
  MapGetKV m1 PrivKeySelector = Ok v → MapGetKV (m1 ∪ m2) PrivKeySelector = Ok v.
Proof.
  rewrite !MapGetKV_privkey. intros (i & Hi & Hv). exists i. split; [|done].
  by apply lookup_union_Some_l.
Qed.

Lemma read_config_inv {A} (decode : string → option A) f (s : RS (C := C)) :
  ∃ r, on_w (ReadConfigFile env decode f) s = (r, s) ∧
    ∀ a, r = Ok a → ∃ c, wfs (rw s) !! f = Some (NFile c) ∧ decode c = Some a.
Proof.
  unfold on_w. destruct (ReadConfigFile env decode f (rw s)) as [r w'] eqn:Hr.
  pose proof (keeps_ReadConfigFile env (λ w, w = rw s) decode f (rw s) _ _ Hr eq_refl) as ->.
  exists r. split; [by destruct s|]. intros a ->. by apply ReadConfigFile_ok in Hr as [_ Hr].
Qed.

Lemma filename_inv p (s : RS (C := C)) f :
  Filename env p = Ok f → on_w (on_fs (mlift (Filename env p))) s = (Ok f, s).
Proof. intros Hf. unfold on_w, on_fs, mlift. rewrite Hf. by destruct s as [[] ]. Qed.

(** setConfigUnsynced with a configuration that has the key keeps it on disk. *)
Lemma setConfigUnsynced_key f k conf (s : RS (C := C)) r s' :
  Filename env (path (rr s)) = Ok f → fault env "write" f = None →
  (∀ mt, ToMap conf = Some mt → MapGetKV mt PrivKeySelector = Ok (JStr k)) →
  setConfigUnsynced env conf s = (r, s') → key_on_disk f k s → key_on_disk f k s'.
Proof.
  intros Hf Hw Hmt Hr Hk. unfold setConfigUnsynced in Hr. rewrite bind_unfold in Hr.
  unfold repo_path in Hr at 1. rewrite bind_unfold, (filename_inv _ _ f) in Hr by done.
  destruct (read_config_inv Decode_map f s) as (r1 & H1 & Hr1).
  rewrite bind_unfold, H1 in Hr. destruct r1 as [mapconf|]; [|by injection Hr as <- <-].
  rewrite bind_unfold in Hr. unfold of_opt in Hr. destruct (ToMap conf) as [mt|] eqn:Ht;
    [|by injection Hr as <- <-]. simpl in Hr.
  rewrite bind_unfold in Hr. unfold mlift in Hr.
  destruct Hk as (c & m & Hc & Hd & Hg). destruct (Hr1 _ eq_refl) as (c' & Hc' & Hd').
  rewrite Hc in Hc'. injection Hc' as <-. rewrite Hd in Hd'. injection Hd' as <-. simpl in Hr.
  rewrite bind_unfold in Hr. destruct (on_w _ s) as [r2 s2] eqn:H2 in Hr.
  apply (write_keeps_key f k) in H2 as [H2 _]; [|done|by apply MapGetKV_union, Hmt|exists c, m; done].
  destruct r2; injection Hr as <- <-; done.
Qed.

Lemma lift_key_inv {S A} (r : res KVError A) (s : S) :
  lift_key r s = (match r with Ok a => Ok a | Err e => Err (EKey e) end, s).
Proof. done. Qed.

Lemma SetConfigKey_key key value f k (s : RS (C := C)) r s' :
  Filename env (path (rr s)) = Ok f → fault env "write" f = None →
  (∀ c m m1, wfs (rw s) !! f = Some (NFile c) → Decode_map c = Some (Some m) →
     MapSetKV m key value = Ok m1 → exact_privkey m1) →
  SetConfigKey env key value s = (r, s') → key_on_disk f k s → key_on_disk f k s'.
Proof.
  intros Hf Hw Hex Hr Hk. unfold SetConfigKey, unless_closed in Hr.
  destruct (closed (rr s)); [by injection Hr as <- <-|].
  rewrite bind_unfold in Hr. unfold repo_path in Hr at 1.
  rewrite bind_unfold, (filename_inv _ _ f) in Hr by done.
  destruct (read_config_inv Decode_map f s) as (r1 & H1 & Hr1).
  rewrite bind_unfold, H1 in Hr. destruct r1 as [mapconf|]; [|by injection Hr as <- <-].
  assert (Hk' := Hk). destruct Hk' as (c & m & Hc & Hd & Hg). destruct (Hr1 _ eq_refl) as (c' & Hc' & Hd').
  rewrite Hc in Hc'. injection Hc' as <-. rewrite Hd in Hd'. injection Hd' as <-. simpl in Hr.
  rewrite bind_unfold, lift_key_inv, Hg in Hr.
  rewrite bind_unfold, lift_key_inv in Hr. destruct (MapSetKV m key value) as [m1|] eqn:Hm1;
    [|by injection Hr as <- <-].
  rewrite bind_unfold, lift_key_inv in Hr.
  destruct (MapSetKV m1 PrivKeySelector (JStr k)) as [m2|] eqn:Hm2; [|by injection Hr as <- <-].
  assert (MapGetKV m2 PrivKeySelector = Ok (JStr k)) as Hg2 by (by eapply MapGetKV_set_same).
  rewrite bind_unfold in Hr. unfold of_opt in Hr. destruct (FromMap m2) as [conf|] eqn:Hfm;
    [|by injection Hr as <- <-]. simpl in Hr.
  rewrite bind_unfold in Hr. destruct (on_w _ s) as [r2 s2] eqn:H2 in Hr.
  apply (write_keeps_key f k) in H2 as [H2 Hrr]; [|done..].
  destruct r2 as [[]|]; [|by injection Hr as <- <-].
  eapply setConfigUnsynced_key in Hr; [done|by rewrite Hrr|done| |done].
  intros mt Hmt. eapply privkey_kept; [|done..]. eapply exact_privkey_set; [|done]. eauto.
Qed.

End editing.

(** C16.  SetConfigKey never changes the private key on disk, whatever key and
    value it is given and whether it succeeds or fails, provided the result does
    not spell the key's path in another case and the write is not cut short. *)
Theorem SetConfigKey_keeps_privkey env {C} `{ConfigLaws C} key value f k (s : RS (C := C)) r s' :
  Filename env (path (rr s)) = Ok f → fault env "write" f = None →
  (∀ c m m1, wfs (rw s) !! f = Some (NFile c) → Decode_map c = Some (Some m) →
     MapSetKV m key value = Ok m1 → exact_privkey m1) →
  key_on_disk f k s → SetConfigKey env key value s = (r, s') → key_on_disk f k s'.
Proof. intros. by eapply SetConfigKey_key. Qed.

(** ** Initialising a repository *)

Section init.
Context (env : Env) (X : RepoEnv) {C : Type} `{ConfigPkg C}.
Context (Hcalm : ∀ op q, fault env op q = None).
(** A directory given by a clean, expanded path. *)
Context (p : string) (Hclean : Clean p = p) (Hdot : p ≠ ".") (Hslash : p ≠ slash)
        (Hexpand : homedir_Expand env p = Ok p).

Let cfg : string := PathJoin p "config".
Let spc : string := PathJoin p specFn.
Let ver : string := version_path p.

Lemma p_nonempty : p ≠ "".
Proof. intros Hp. rewrite Hp in Hclean. done. Qed.

Lemma Filename_p : Filename env p = Ok cfg.
Proof. unfold Filename, config_Path. destruct (decide (p = "")); [by destruct p_nonempty|done]. Qed.

Lemma spec_path_p : config_Path env p specFn = Ok spc.
Proof. unfold config_Path. destruct (decide (p = "")); [by destruct p_nonempty|done]. Qed.

Lemma IpfsDir_p : IpfsDir env p = Ok p.
Proof.
  unfold IpfsDir. destruct (decide (p = "")); [by destruct p_nonempty|].
  destruct (decide (p ≠ "")); [done|by destruct p_nonempty].
Qed.

Lemma FileExists_calm q fs : FileExists env q fs = bool_decide (is_Some (fs !! q)).
Proof. unfold FileExists. by rewrite Hcalm. Qed.

Lemma MkdirAll_there q fs : fs !! q = Some NDir → MkdirAll env q fs = (Ok (), fs).
Proof. intros Hq. unfold MkdirAll. rewrite bind_unfold, os_try_calm by done. go_run. by rewrite Hq. Qed.

Lemma names_ok : file_name "config" ∧ file_name specFn ∧ file_name "version" ∧
  file_name "._check_writable" ∧ file_name "keystore".
Proof. split_and!; apply (bool_decide_unpack _); by vm_compute. Qed.

Lemma paths_ne : cfg ≠ spc ∧ cfg ≠ ver ∧ spc ≠ ver ∧ cfg ≠ p ∧ spc ≠ p ∧ ver ≠ p.
Proof.
  destruct names_ok as (?&?&?&_).
  split_and!; (by apply Join_inj_name) || (by apply Join_ne_dir).
Qed.

Lemma Dir_p n : file_name n → Dir (PathJoin p n) = p.
Proof. by apply Dir_Join. Qed.

Lemma Dir_files : Dir cfg = p ∧ Dir spc = p ∧ Dir ver = p.
Proof. destruct names_ok as (?&?&?&_). split_and!; by apply Dir_p. Qed.

(** Init writes the three files and nothing else. *)
Lemma Init_run conf spec dsc w :
  wfs w !! p = Some NDir → wfs w !! cfg = None → wfs w !! spc = None → wfs w !! ver ≠ Some NDir →
  Datastore_Spec conf = Some spec →
  AnyDatastoreConfig (reg X) (NewKey X) (spec_depth X) spec = Ok dsc →
  Init env X p conf w =
    (Ok (), mkW (<[ver := NFile (version_content repo_version)]>
                  (<[spc := NFile (spec_string X (DiskSpec dsc))]>
                    (<[cfg := NFile (Marshal_conf conf)]> (wfs w)))) (locks w) (open_ds w)).
Proof.
  intros Hp Hc Hs Hv Hspec Hdsc. destruct paths_ne as (N1&N2&N3&N4&N5&N6).
  destruct names_ok as (F1&F2&F3&_&_). destruct Dir_files as (D1&D2&D3).
  unfold Init, isInitializedUnsynced, configIsInitialized. rewrite Filename_p, FileExists_calm, Hc.
  cbn [bool_decide is_Some]. rewrite bool_decide_eq_false_2 by (by intros []).
  rewrite bind_unfold. unfold initConfig, configIsInitialized. rewrite Filename_p, FileExists_calm, Hc.
  rewrite bool_decide_eq_false_2 by (by intros []).
  rewrite bind_unfold. unfold on_fs at 1, mlift. cbn [wfs locks open_ds].
  unfold on_fs at 1, WriteConfigFile. cbn [wfs locks open_ds].
  rewrite bind_unfold, D1, MkdirAll_there by done.
  rewrite bind_unfold, os_try_calm by done. unfold mstate. rewrite !Hcalm. cbn [locks open_ds].
  rewrite bind_unfold. unfold initSpec. rewrite bind_unfold. unfold on_fs at 1, mlift.
  rewrite spec_path_p. unfold mstate. cbn [wfs locks open_ds]. rewrite FileExists_calm.
  rewrite lookup_insert_ne, Hs by done. rewrite bool_decide_eq_false_2 by (by intros []).
  rewrite bind_unfold. unfold any_config, mlift. rewrite Hspec. cbn [default]. unfold id. rewrite Hdsc.
  unfold on_fs at 1. cbn [wfs locks open_ds].
  rewrite WriteFile_calm; [|done|by rewrite D2, lookup_insert_ne|by rewrite lookup_insert_ne, Hs].
  unfold on_fs, WriteRepoVersion. cbn [wfs locks open_ds].
  rewrite bind_unfold. unfold mlift. rewrite IpfsDir_p. fold ver.
  rewrite WriteFile_calm; [done|done|by rewrite D3, !lookup_insert_ne|].
  by rewrite !lookup_insert_ne.
Qed.

(** A directory with the three files opens. *)
Lemma open_run conf spec dsc d w :
  wfs w !! p = Some NDir → wfs w !! cfg = Some (NFile (Marshal_conf conf)) →
  wfs w !! spc = Some (NFile (spec_string X (DiskSpec dsc))) →
  wfs w !! ver = Some (NFile (version_content repo_version)) →
  wfs w !! PathJoin p "._check_writable" = None →
  PathJoin p LockFile ∉ locks w → PathJoin p LockFile ∉ others X →
  Decode_conf (Marshal_conf conf) = Some conf →
  Datastore_Type conf = "" → Datastore_Path conf = "" → Datastore_Spec conf = Some spec →
  AnyDatastoreConfig (reg X) (NewKey X) (spec_depth X) spec = Ok dsc →
  Create (plugin_Create X) p dsc = Ok d →
  ∃ r w', open env X p w = (Ok r, w') ∧ config r = conf ∧ path r = p.
Proof.
  intros Hp Hc Hs Hv Hk Hl Ho Hdec Ht Hpa Hspec Hdsc Hcr. destruct paths_ne as (N1&N2&N3&N4&N5&N6).
  destruct names_ok as (F1&F2&F3&F4&F5).
  unfold open. rewrite bind_unfold. unfold on_fs at 1, mlift, newFSRepo. rewrite Hclean, Hexpand.
  rewrite bind_unfold. unfold checkInitialized, isInitializedUnsynced, configIsInitialized. cbn [wfs].
  rewrite Filename_p, FileExists_calm, Hc, bool_decide_eq_true_2 by eauto.
  rewrite bind_unfold. unfold Lock. rewrite Hcalm. cbn [wfs locks open_ds].
  rewrite decide_False, decide_False by done. unfold mstate.
  unfold open_locked. rewrite bind_unfold. unfold checkVersion at 1. cbn [wfs locks open_ds].
  rewrite (RepoVersion_reads env p p (wfs w) repo_version); [|apply IpfsDir_p|done|eauto|].
  2: { unfold version_of. fold ver. rewrite Hv. by apply version_content_read. }
  cbn. rewrite bind_unfold. unfold on_fs at 1, Writable. cbn [wfs locks open_ds].
  rewrite bind_unfold, MkdirAll_there by done. unfold mstate.
  rewrite OsCreate_calm; [|done|by rewrite Dir_p|by rewrite Hk].
  rewrite (Remove_calm _ Hcalm _ _ (NFile "")) by (by rewrite lookup_insert_eq). cbn [snd locks open_ds].
  rewrite delete_insert_id by done.
  rewrite bind_unfold. unfold openConfig at 1. rewrite bind_unfold. unfold on_fs at 1, mlift.
  rewrite Filename_p. unfold Load, ReadConfigFile. cbn [wfs locks open_ds].
  rewrite (ReadFile_calm _ Hcalm _ _ _ Hc), Hdec.
  rewrite bind_unfold. unfold openDatastore at 1. rewrite decide_False by naive_solver.
  rewrite Hspec, bind_unfold. unfold any_config, mlift. rewrite Hdsc.
  rewrite bind_unfold. unfold readSpec. rewrite bind_unfold. unfold on_fs at 1, mlift. rewrite spec_path_p.
  cbn [wfs locks open_ds]. rewrite bind_unfold. unfold on_fs at 1. cbn [wfs locks open_ds].
  rewrite (ReadFile_calm _ Hcalm _ _ _ Hs). cbn.
  destruct (decide _) as [Hne|_]; [destruct Hne; apply TrimSpace_idemp|]. unfold mstate. rewrite Hcr.
  rewrite bind_unfold. unfold on_fs, openKeystore. cbn [wfs locks open_ds].
  rewrite bind_unfold, os_try_calm by done. go_run. rewrite Dir_p by done.
  destruct (wfs w !! PathJoin p "keystore"); [|rewrite Hp]; eexists _, _; split; done.
Qed.

End init.

(** A repository that Init created can be opened, with the configuration
    it was given, when the operating system raises no errors: Init writes the
    three files open checks, consistently with each other. *)
Theorem Init_then_open env X {C} `{ConfigPkg C} p conf spec dsc d w :
  (∀ op q, fault env op q = None) →
  Clean p = p → p ≠ "." → p ≠ slash → homedir_Expand env p = Ok p →
  wfs w !! p = Some NDir →
  (∀ n, n ∈ ["config"; "datastore_spec"; "version"; "._check_writable"] → wfs w !! PathJoin p n = None) →
  PathJoin p LockFile ∉ locks w → PathJoin p LockFile ∉ others X →
  Decode_conf (Marshal_conf conf) = Some conf →
  Datastore_Type conf = "" → Datastore_Path conf = "" → Datastore_Spec conf = Some spec →
  AnyDatastoreConfig (reg X) (NewKey X) (spec_depth X) spec = Ok dsc →
  Create (plugin_Create X) p dsc = Ok d →
  ∃ w1 r w2, Init env X p conf w = (Ok (), w1) ∧ open env X p w1 = (Ok r, w2) ∧ config r = conf.
Proof.
  intros Hcalm Hcl Hdot Hsl Hex Hp Hfree Hl Ho Hdec Ht Hpa Hspec Hdsc Hcr.
  destruct (paths_ne p Hcl Hdot Hsl) as (N1&N2&N3&N4&N5&N6). destruct names_ok as (F1&F2&F3&F4&F5).
  eexists _. pose proof (Init_run env X Hcalm p Hcl Hdot Hsl Hex conf spec dsc w) as Hi.
  edestruct (open_run env X Hcalm p Hcl Hdot Hsl Hex conf spec dsc d) as (r & w2 & Hopen & Hr & _);
    [..|exists r, w2; split_and!; [apply Hi|exact Hopen|done]]; try done.
  all: cbn [wfs locks]; try (by apply Hfree; set_solver).
  - by rewrite !lookup_insert_ne.
  - by rewrite !lookup_insert_ne, lookup_insert_eq by done.
  - by rewrite lookup_insert_ne, lookup_insert_eq by done.
  - by rewrite lookup_insert_eq.
  - rewrite !lookup_insert_ne by (by apply Join_inj_name). apply Hfree. set_solver.
  - unfold version_path. rewrite (Hfree "version") by set_solver. done.
Qed.

(** Init is not atomic: once the configuration exists it reports success
    and does nothing, so a repository whose first Init stopped before the version
    file was written is reported as initialised, and never opens. *)
Theorem Init_incomplete env X {C} `{ConfigPkg C} p conf w e :
  IsInitialized env p w = true → (RepoVersion env p (wfs w)).1 = Err e → newFSRepo env p = Ok p →
  Init env X p conf w = (Ok (), w) ∧ ∀ r w', open env X p w ≠ (Ok r, w').
Proof.
  intros Hi Hv Hp. split; [unfold Init, IsInitialized in *; by rewrite Hi|].
  intros r w' Hr. apply open_inv in Hr as
    [(e' & He & _)|(p' & Hp' & _ & _ & _ & r1 & w1 & Hrun & <- & _)]; [done|].
  apply open_locked_ok in Hrun as (Hv' & _). cbn [wfs] in Hv'. congruence.
Qed.

(** ** The API address *)

Lemma api_names : file_name apiFile ∧ file_name ("." +:+ apiFile +:+ ".tmp").
Proof. split; apply (bool_decide_unpack _); by vm_compute. Qed.

Lemma keeps_Rename fl q nd a b : q ≠ a → q ≠ b → keeps (λ fs, fs !! q = nd) (Rename fl a b).
Proof.
  intros Ha Hb fs r fs'. unfold Rename, os_try. go_run.
  go_cases; intros [= <- <-]; rewrite ?lookup_insert_ne, ?lookup_delete_ne by congruence; done.
Qed.

Lemma keeps_Remove fl q nd a : q ≠ a → keeps (λ fs, fs !! q = nd) (Remove fl a).
Proof.
  intros Ha fs r fs'. unfold Remove, os_try. go_run.
  go_cases; intros [= <- <-]; rewrite ?lookup_delete_ne by congruence; done.
Qed.

(** Publishing the API address is atomic: a reader of the api file finds the
    new address if SetAPIAddr succeeded and what was there before if it failed at
    any step, never part of an address; no other file but the temporary one
    changes, and that one is gone on success. *)
Theorem SetAPIAddr_atomic env p addr fs :
  let api := PathJoin p apiFile in
  let tmp := PathJoin p ("." +:+ apiFile +:+ ".tmp") in
  match SetAPIAddr env p addr fs with
  | (Ok _, fs') => fs' !! api = Some (NFile addr) ∧ fs' !! tmp = None ∧
                   ∀ q, q ≠ api → q ≠ tmp → fs' !! q = fs !! q
  | (Err _, fs') => ∀ q, q ≠ tmp → fs' !! q = fs !! q
  end.
Proof.
  intros api tmp. destruct api_names as [Ha Ht].
  assert (api ≠ tmp) as Hne by (by apply Join_inj_name).
  unfold SetAPIAddr. fold api tmp. rewrite bind_unfold.
  destruct (OsCreate _ tmp fs) as [[[]|] f1] eqn:H1.
  2: { intros q Hq. by eapply (keeps_OsCreate _ q (fs !! q)). }
  rewrite bind_unfold. destruct (WriteTo _ tmp addr f1) as [[[]|] f2] eqn:H2.
  2: { intros q Hq. eapply (keeps_WriteTo _ q (fs !! q)); [done|exact H2|].
       by eapply (keeps_OsCreate _ q (fs !! q)). }
  assert (f2 !! tmp = Some (NFile addr)) as Haddr.
  { revert H2. unfold WriteTo, os_try. go_run. go_cases. intros [= <-]. by rewrite lookup_insert_eq. }
  assert (∀ q, q ≠ tmp → f2 !! q = fs !! q) as Hk.
  { intros q Hq. eapply (keeps_WriteTo _ q (fs !! q)); [done|exact H2|].
    by eapply (keeps_OsCreate _ q (fs !! q)). }
  rewrite bind_unfold. unfold os_try at 1. destruct (fault env "close" tmp); [done|].
  cbn [mret M_ret]. unfold mret, M_ret, mstate.
  destruct (Rename _ tmp api f2) as [[[]|] f3] eqn:H3.
  - revert H3. unfold Rename, os_try. go_run. destruct (fault env "rename" tmp); [done|].
    rewrite Haddr. intros [= <-]. rewrite lookup_insert_eq, lookup_insert_ne, lookup_delete_eq by done.
    split_and!; [done|done|]. intros q Hq1 Hq2.
    rewrite lookup_insert_ne, lookup_delete_ne by done. auto.
  - assert (f3 = f2) as ->.
    { revert H3. unfold Rename, os_try. go_run. destruct (fault env "rename" tmp); [by intros [= <- <-]|].
      by rewrite Haddr. }
    destruct (Remove _ tmp f2) as [[[]|] f4] eqn:H4; intros q Hq;
      (eapply (keeps_Remove _ q (fs !! q)); [done|exact H4|auto]).
Qed.

(** ** The open repository's life *)

(** After Close no operation of the repository that reads or edits its
    configuration succeeds, a second Close fails, the lock is free for the next
    open and the datastore is closed. *)
Theorem Close_releases env {C} `{ConfigPkg C} (s s' : RS (C := C)) :
  Close env s = (Ok (), s') →
  locks (rw s') = locks (rw s) ∖ {[PathJoin (path (rr s)) LockFile]} ∧
  (path (rr s) ∉ open_ds (rw s')) ∧
  is_err (Close env s').1 = true ∧ is_err (Config s').1 = true ∧
  (∀ k, is_err (GetConfigKey env k s').1 = true) ∧
  ∀ k v, SetConfigKey env k v s' = (Err (EMsg "repo is closed"), s').
Proof.
  unfold Close, unless_closed. destruct (closed (rr s)); [done|].
  destruct (fault env "dsclose" (path (rr s))); [done|]. unfold Unlock. cbn [wfs locks open_ds].
  intros [= <-]. cbn. split_and!; try done. set_solver.
Qed.

(** ** A small configuration, with the names of its fields matched without
    regard to case between the two spellings of the key *)

Module RepoExample.

Record Conf := mkConf { key : option string; mem : bool }.

Definition str_at (a b : string) (m : gmap string JVal) : option string :=
  match m !! a with
  | Some (JObj i) => match i !! b with Some (JStr s) => Some s | _ => None end
  | _ => None
  end.

Definition with_key (k : option string) : gmap string JVal :=
  match k with Some k => {["Identity" := JObj {["PrivKey" := JStr k]}]} | None => ∅ end.

Definition write_key (k : option string) : string := match k with Some k => "k" +:+ k | None => "n" end.
Definition read_key (s : string) : option string := match s with String "k"%char k => Some k | _ => None end.

#[global] Instance conf_pkg : ConfigPkg Conf := {|
  Marshal_map m := write_key (str_at "Identity" "PrivKey" m);
  Marshal_conf c := write_key (key c);
  Decode_map s := Some (Some (with_key (read_key s)));
  Decode_conf s := Some (mkConf (read_key s) true);
  FromMap m := Some (mkConf (match str_at "identity" "privkey" m with
                             | Some k => Some k | None => str_at "Identity" "PrivKey" m end) true);
  ToMap c := Some (with_key (key c));
  Datastore_Type _ := ""; Datastore_Path _ := "";
  Datastore_Spec c := Some {["type" := JStr (if mem c then "mem" else "flatfs")]};
  FilestoreEnabled _ := false; UrlstoreEnabled _ := false |}.

Lemma str_at_key m k : MapGetKV m PrivKeySelector = Ok (JStr k) → str_at "Identity" "PrivKey" m = Some k.
Proof. intros (i & Hi & Hk)%MapGetKV_privkey. unfold str_at. by rewrite Hi, Hk. Qed.

Lemma with_key_get k : MapGetKV (with_key (Some k)) PrivKeySelector = Ok (JStr k).
Proof. apply MapGetKV_privkey. eexists. split; [done|]. done. Qed.

#[global] Instance conf_laws : ConfigLaws Conf.
Proof.
  split.
  - intros m k Hk%str_at_key. exists (with_key (Some k)). split; [|apply with_key_get].
    cbn. by rewrite Hk.
  - intros m c mt k [He _] [= <-] [= <-] Hk%str_at_key.
    assert (str_at "identity" "privkey" m = None) as Hn.
    { unfold str_at. destruct (m !! "identity") eqn:Hi; [|done].
      assert ("identity" = "Identity") as Heq by (apply He; [eauto|by vm_compute]). done. }
    change (MapGetKV (with_key (match str_at "identity" "privkey" m with
      | Some k => Some k | None => str_at "Identity" "PrivKey" m end)) PrivKeySelector = Ok (JStr k)).
    rewrite Hn, Hk. apply with_key_get.
Qed.

Definition env : Env := MigrationExample.env.
Definition X : RepoEnv := mkRepoEnv ∅ datastores id 3 (λ _ _, Err "no plugin")
  (λ spec, if decide (spec = None) then "null" else "{}") Some.

Definition w0 : W := mkW {["/repo" := NDir]} ∅ ∅.
Definition conf : Conf := mkConf (Some "secret") true.
Definition bad_conf : Conf := mkConf (Some "secret") false.

Definition ds0 : Datastore := DMap.
Definition s0 : RS (C := Conf) :=
  mkRS (mkW {["/repo" := NDir; "/repo/config" := NFile "ksecret"]} ∅ ∅)
       (mkFSRepo false "/repo" conf ds0 None).

Lemma s0_key : key_on_disk "/repo/config" "secret" s0.
Proof. exists "ksecret", (with_key (Some "secret")). split_and!; [done|done|apply with_key_get]. Qed.

(** The environment with a keystore that cannot be created. *)
Definition no_keystore : Env := {|
  IPFS_PATH := ""; homedir_Expand := Ok; homedir_Dir := Ok "/home";
  fault := λ op p, if decide (op = "mkdir" ∧ p = "/repo/keystore") then Some "permission denied" else None;
  tempname := tempname env; DownloadDirectory := ""; GOOS := "linux"; GOARCH := "amd64"; ldd := Ok [];
  LookPath := λ _, None; ctx_Err := λ _, None; Fetch := Fetch env; tar_entries := tar_entries env;
  zip_entries := zip_entries env; exec := exec env |}.

End RepoExample.

Lemma Init_then_open_witness :
  ∃ w1 r w2, Init RepoExample.env RepoExample.X "/repo" RepoExample.conf RepoExample.w0 = (Ok (), w1) ∧
    open RepoExample.env RepoExample.X "/repo" w1 = (Ok r, w2) ∧ config r = RepoExample.conf.
Proof.
  apply (Init_then_open RepoExample.env RepoExample.X "/repo" RepoExample.conf
    {["type" := JStr "mem"]} (memDatastoreConfig {["type" := JStr "mem"]}) DMap RepoExample.w0); try done.
  intros n Hn. repeat (apply elem_of_cons in Hn as [->|Hn]; [by vm_compute|]). by apply not_elem_of_nil in Hn.
Defined.

Lemma open_checked_witness :
  ∃ w1 r w2, Init RepoExample.env RepoExample.X "/repo" RepoExample.conf RepoExample.w0 = (Ok (), w1) ∧
    open RepoExample.env RepoExample.X "/repo" w1 = (Ok r, w2) ∧
    (RepoVersion RepoExample.env (path r) (wfs w1)).1 = Ok repo_version.
Proof.
  destruct (Init RepoExample.env RepoExample.X "/repo" RepoExample.conf RepoExample.w0) as [ri w1] eqn:Hi.
  assert (ri = Ok () ∧ w1 = (Init RepoExample.env RepoExample.X "/repo" RepoExample.conf RepoExample.w0).2)
    as [-> Hw1] by (split; [apply (f_equal fst) in Hi; vm_compute in Hi; congruence|by rewrite Hi]).
  exists w1. destruct (open RepoExample.env RepoExample.X "/repo" w1) as [[r|e] w2] eqn:Ho.
  - exists r, w2. split_and!; [reflexivity|reflexivity|].
    apply (proj1 (proj2 (open_checked RepoExample.env RepoExample.X "/repo" w1 r w2 Ho))).
  - exfalso. rewrite Hw1 in Ho. apply (f_equal fst) in Ho. vm_compute in Ho. discriminate Ho.
Defined.

Lemma Init_incomplete_witness :
  let '(r1, w1) := Init RepoExample.env RepoExample.X "/repo" RepoExample.bad_conf RepoExample.w0 in
  is_err r1 = true ∧ Init RepoExample.env RepoExample.X "/repo" RepoExample.bad_conf w1 = (Ok (), w1).
Proof.
  destruct (Init RepoExample.env RepoExample.X "/repo" RepoExample.bad_conf RepoExample.w0) as [r1 w1] eqn:Hi.
  assert (w1 = (Init RepoExample.env RepoExample.X "/repo" RepoExample.bad_conf RepoExample.w0).2) as Hw1
    by (by rewrite Hi).
  split; [apply (f_equal fst) in Hi; vm_compute in Hi; simpl in Hi; by subst r1|].
  apply (proj1 (Init_incomplete RepoExample.env RepoExample.X "/repo" RepoExample.bad_conf w1 ErrNotExist
    ltac:(rewrite Hw1; by vm_compute) ltac:(rewrite Hw1; by vm_compute) eq_refl)).
Defined.

Lemma SetConfigKey_keeps_privkey_witness :
  ∃ s', SetConfigKey RepoExample.env "Identity" (JObj {["PrivKey" := JStr "evil"]}) RepoExample.s0 = (Ok (), s') ∧
    key_on_disk "/repo/config" "secret" s'.
Proof.
  destruct (SetConfigKey RepoExample.env "Identity" (JObj {["PrivKey" := JStr "evil"]}) RepoExample.s0)
    as [r s'] eqn:Hr.
  assert (r = Ok ()) as -> by (apply (f_equal fst) in Hr; vm_compute in Hr; congruence).
  exists s'. split; [reflexivity|].
  refine (SetConfigKey_keeps_privkey RepoExample.env "Identity" (JObj {["PrivKey" := JStr "evil"]})
    "/repo/config" "secret" RepoExample.s0 (Ok ()) s' eq_refl eq_refl _ RepoExample.s0_key Hr).
  clear Hr. intros c m m1 Hc Hd Hm.
  assert (c = "ksecret") as -> by (vm_compute in Hc; congruence).
  assert (m = RepoExample.with_key (Some "secret")) as -> by (injection Hd as <-; reflexivity).
  assert (m1 = <["Identity" := JObj {["PrivKey" := JStr "evil"]}]> (RepoExample.with_key (Some "secret"))) as ->
    by (injection Hm as <-; reflexivity).
  split.
  - intros k' [x Hx] _. apply lookup_insert_Some in Hx as [[<- _]|[_ Hx]]; [reflexivity|].
    unfold RepoExample.with_key in Hx. apply lookup_singleton_Some in Hx as [<- _]. reflexivity.
  - intros i Hi k' [x Hx] _. rewrite lookup_insert_eq in Hi. injection Hi as <-.
    apply lookup_singleton_Some in Hx as [<- _]. reflexivity.
Defined.

Lemma Close_releases_witness :
  ∃ s', Close RepoExample.env RepoExample.s0 = (Ok (), s') ∧ is_err (Close RepoExample.env s').1 = true.
Proof.
  destruct (Close RepoExample.env RepoExample.s0) as [r s'] eqn:Hr.
  assert (r = Ok ()) as -> by (apply (f_equal fst) in Hr; vm_compute in Hr; congruence).
  exists s'. split; [reflexivity|].
  apply (proj1 (proj2 (proj2 (Close_releases RepoExample.env RepoExample.s0 s' Hr)))).
Defined.

(** The guard of SetConfigKey knows one spelling of the key only: with another
    one the private key on disk is replaced. *)
Theorem SetConfigKey_other_spelling :
  ∃ s', SetConfigKey RepoExample.env "identity.privkey" (JStr "evil") RepoExample.s0 = (Ok (), s') ∧
    key_on_disk "/repo/config" "secret" RepoExample.s0 ∧ key_on_disk "/repo/config" "evil" s'.
Proof.
  destruct (SetConfigKey RepoExample.env "identity.privkey" (JStr "evil") RepoExample.s0) as [r s'] eqn:Hr.
  assert (r = Ok ()) as -> by (apply (f_equal fst) in Hr; vm_compute in Hr; congruence).
  exists s'. split_and!; [reflexivity|apply RepoExample.s0_key|].
  assert (wfs (rw s') !! "/repo/config" = Some (NFile "kevil")) as Hf.
  { apply (f_equal (λ rs, wfs (rw rs.2) !! "/repo/config")) in Hr. cbn [snd] in Hr. rewrite <- Hr.
    by vm_compute. }
  exists "kevil", (RepoExample.with_key (Some "evil")). split_and!; [exact Hf|reflexivity|].
  apply RepoExample.with_key_get.
Qed.

(** When the keystore cannot be opened, open fails and releases the lock, but the
    datastore it opened stays open. *)
Theorem open_leaks_datastore :
  let w1 := (Init RepoExample.no_keystore RepoExample.X "/repo" RepoExample.conf RepoExample.w0).2 in
  let '(r, w2) := open (C := RepoExample.Conf) RepoExample.no_keystore RepoExample.X "/repo" w1 in
  is_err r = true ∧ locks w2 = ∅ ∧ "/repo" ∈ open_ds w2.
Proof.
  cbv zeta. rewrite (surjective_pairing (open _ _ _ _)).
  split_and!; [by vm_compute|apply (bool_decide_unpack _); by vm_compute..].
Qed.
