(* ===== verification/Hostname.v ===== *)
(** * The gateway's host names (src/core/corehttp/hostname.go)

    A gateway serves content under paths ([/ipfs/cid]) or under subdomains
    ([cid.ipfs.gateway]), so that each root has a Web origin of its own.  The
    handler decides from the Host header which gateway is meant, redirects paths
    to subdomains and rewrites subdomains to paths for the next handler.  The CID
    and peer ID codecs, regular expressions, URL parsing and the name system are
    parameters. *)

From Stdlib Require Import ZArith Ascii String.
From stdpp Require Import base gmap sets list strings.
From S2P Require Import Prelude GoStrings Cid.

(** config.GatewaySpec *)
Record GatewaySpec := mkGatewaySpec {
  Paths : list string;
  UseSubdomains : bool;
  NoDNSLink : bool;
}.

(** A wildcard host: [None] is the nil expression of a pattern that did not compile. *)
Record wildcardHost := mkWildcard { re : option (string → bool); spec : GatewaySpec }.

Record gatewayHosts := mkHosts { exact : gmap string GatewaySpec; wildcard : list wildcardHost }.

Definition defaultPaths : list string := ["/ipfs/"; "/ipns/"; "/api/"; "/p2p/"].
Definition subdomainGatewaySpec : GatewaySpec := mkGatewaySpec defaultPaths true false.
Definition defaultKnownGateways : gmap string GatewaySpec := {["localhost" := subdomainGatewaySpec]}.
Definition dnsLabelMaxLength : nat := 63.

(** The part of a request the handler reads. *)
Record Request := mkRequest {
  Host : string;
  XForwardedHost : string;
  XForwardedProto : string;
  Scheme : string;
  URLPath : string;
  RawQuery : string;
}.

(** What the handler does with a request: the next handler serves a path, with
    the gateway's host name in its context and a Location header if one was set. *)
Inductive Response :=
  | Serve (path : string) (gwHostname location : option string)
  | Redirect (url : string)
  | NotFound
  | BadRequest (msg : string)
  | HandlerPanic.

(** A look-up of a host: matching with a nil expression panics. *)
Inductive Known := KFound (gw : GatewaySpec) | KNone | KPanic.

(** net.SplitHostPort, for the host it gives. *)
Definition no_brackets (s : string) : bool := negb (has_char "["%char s || has_char "]"%char s).

Definition SplitHost (hostport : string) : option string :=
  match hostport with
  | String "["%char rest =>
      match SplitN rest "]" 2 with
      | [host; String ":"%char port] =>
          if no_brackets port && negb (has_char ":"%char port) && negb (has_char "["%char host)
          then Some host else None
      | _ => None
      end
  | _ => match Split hostport ":" with
         | [host; port] => if no_brackets host && no_brackets port then Some host else None
         | _ => None
         end
  end.

(** stripPort *)
Definition stripPort (hostname : string) : string :=
  match SplitHost hostname with Some host => host | None => hostname end.

(** hasPrefix *)
Fixpoint hasPrefix (path : string) (prefixes : list string) : bool :=
  match prefixes with
  | [] => false
  | prefix :: prefixes' =>
      let p := TrimSuffix prefix "/" in
      if decide (p = path) then true
      else if HasPrefix path (p +:+ "/") then true else hasPrefix path prefixes'
  end.

(** isSubdomainNamespace, isPeerIDNamespace *)
Definition isSubdomainNamespace (ns : string) : bool := bool_decide (ns ∈ ["ipfs"; "ipns"; "p2p"; "ipld"]).
Definition isPeerIDNamespace (ns : string) : bool := bool_decide (ns ∈ ["ipns"; "p2p"]).

(** isHTTPSRequest *)
Definition isHTTPSRequest (r : Request) : bool :=
  bool_decide (Scheme r = "https") || bool_decide (XForwardedProto r = "https").

(** toDNSLinkDNSLabel *)
Definition toDNSLinkDNSLabel (fqdn : string) : res string string :=
  let dnsLabel := ReplaceAll fqdn "-" "--" in
  let dnsLabel := ReplaceAll dnsLabel "." "-" in
  if decide (dnsLabelMaxLength < String.length dnsLabel)
  then Err ("DNSLink representation incompatible with DNS label length limit of 63: " +:+ dnsLabel)
  else Ok dnsLabel.

(** toDNSLinkFQDN *)
Definition toDNSLinkFQDN (dnsLabel : string) : string :=
  let fqdn := ReplaceAll dnsLabel "--" "@" in
  let fqdn := ReplaceAll fqdn "-" "." in
  ReplaceAll fqdn "@" "-".

(** The multibase encodings the handler asks for. *)
Inductive Encoding := Base32 | Base36.

(** cid, peer, regexp, net/url, dns and the name system *)
Record HostEnv := mkHostEnv {
  cid_Decode : string → option Cid;
  StringOfBase : Cid → Encoding → res string string;
  (** peer.Decode followed by peer.ToCid(...).String() *)
  peer_cid : string → option string;
  IsDomainName : string → bool;
  (** Resolve of /ipns/name at depth 1 ends with a value or in recursion *)
  has_dnslink : string → bool;
  ParseRequestURI : string → res string string;
  regexp_Compile : string → option (string → bool);
}.

Section hostname.
Context (E : HostEnv).

(** prepareKnownGateways, over the entries of the map in some order; [None] is a
    nil spec. *)
Definition add_gateway (hosts : gatewayHosts) (e : string * option GatewaySpec) : gatewayHosts :=
  let '(hostname, gw) := e in
  match gw with
  | None => mkHosts (delete hostname (exact hosts)) (wildcard hosts)
  | Some gw =>
      if Contains hostname "*" then
        let escaped := ReplaceAll hostname "." "\." in
        let regexed := ReplaceAll escaped "*" "[^.]+" in
        mkHosts (exact hosts)
          (wildcard hosts ++ [mkWildcard (regexp_Compile E ("^" +:+ regexed +:+ "(?::\d+)?$")) gw])
      else mkHosts (<[hostname := gw]> (exact hosts)) (wildcard hosts)
  end.

Definition prepareKnownGateways (publicGateways : list (string * option GatewaySpec)) : gatewayHosts :=
  foldl add_gateway (mkHosts defaultKnownGateways []) publicGateways.

(** The wildcard loop of isKnownHostname *)
Fixpoint match_wildcards (hostname : string) (ws : list wildcardHost) : Known :=
  match ws with
  | [] => KNone
  | w :: ws' =>
      match re w with
      | None => KPanic
      | Some matches => if matches hostname then KFound (spec w) else match_wildcards hostname ws'
      end
  end.

(** isKnownHostname *)
Definition isKnownHostname (hostname : string) (known : gatewayHosts) : Known :=
  match exact known !! hostname with
  | Some gw => KFound gw
  | None => match exact known !! stripPort hostname with
            | Some gw => KFound gw
            | None => match_wildcards hostname (wildcard known)
            end
  end.

(** The result of knownSubdomainDetails *)
Inductive Details :=
  | DFound (gw : GatewaySpec) (gwHostname ns rootID : string)
  | DNone | DPanic.

(** The loop of knownSubdomainDetails, with [i] one more than the loop's. *)
Fixpoint subdomain_loop (labels : list string) (known : gatewayHosts) (i : nat) : Details :=
  match i with
  | 0 => DNone
  | S i' =>
      if decide (i' < 2) then DNone else
      let fqdn := Join (drop i' labels) "." in
      match isKnownHostname fqdn known with
      | KPanic => DPanic
      | KNone => subdomain_loop labels known i'
      | KFound gw =>
          let ns := default "" (labels !! (i' - 1)) in
          if isSubdomainNamespace ns
          then DFound gw fqdn ns (Join (take (i' - 1) labels) ".")
          else subdomain_loop labels known i'
      end
  end.

(** knownSubdomainDetails *)
Definition knownSubdomainDetails (hostname : string) (known : gatewayHosts) : Details :=
  let labels := Split hostname "." in
  subdomain_loop labels known (length labels).

(** isDomainNameAndNotPeerID *)
Definition isDomainNameAndNotPeerID (hostname : string) : bool :=
  if decide (hostname = "") then false
  else match peer_cid E hostname with
       | Some _ => false
       | None => IsDomainName E hostname
       end.

(** isDNSLinkName *)
Definition isDNSLinkName (host : string) : bool :=
  let dnslinkName := stripPort host in
  if isDomainNameAndNotPeerID dnslinkName then has_dnslink E dnslinkName else false.

(** toDNSLabel *)
Definition toDNSLabel (rootID : string) (rootCID : Cid) : res string string :=
  if decide (String.length rootID ≤ dnsLabelMaxLength) then Ok rootID
  else
    rootID ← StringOfBase E (NewCidV1 (cid_Type rootCID) (cid_Hash rootCID)) Base36;
    if decide (String.length rootID ≤ dnsLabelMaxLength) then Ok rootID
    else Err ("CID incompatible with DNS label length limit of 63: " +:+ rootID).

(** The root of a subdomain for the root of a path, in toSubdomainURL *)
Definition subdomain_root (ns rootID : string) (isHTTPS : bool) : res string string :=
  let rootID := if isPeerIDNamespace ns && negb (isDomainNameAndNotPeerID rootID)
                then match peer_cid E rootID with Some c => c | None => rootID end
                else rootID in
  match cid_Decode E rootID with
  | Some rootCID =>
      let multicodec := if isPeerIDNamespace ns then Libp2pKey else cid_Type rootCID in
      let base := if isPeerIDNamespace ns then Base36 else Base32 in
      let rootCID := NewCidV1 multicodec (cid_Hash rootCID) in
      rootID ← StringOfBase E rootCID base;
      toDNSLabel rootID rootCID
  | None =>
      if isHTTPS && bool_decide (ns = "ipns") && Contains rootID "." && isDNSLinkName rootID
      then toDNSLinkDNSLabel rootID
      else Ok rootID
  end.

(** toSubdomainURL *)
Definition toSubdomainURL (hostname path : string) (r : Request) : res string string :=
  let parts := SplitN path "/" 4 in
  let isHTTPS := isHTTPSRequest r in
  let scheme := if isHTTPS then "https:" else "http:" in
  let go (ns rootID rest : string) : res string string :=
    if isSubdomainNamespace ns then
      let query := if decide (RawQuery r = "") then "" else "?" +:+ RawQuery r in
      rootID ← subdomain_root ns rootID isHTTPS;
      ParseRequestURI E (scheme +:+ "//" +:+ rootID +:+ "." +:+ ns +:+ "." +:+ hostname +:+ "/" +:+ rest +:+ query)
    else Ok "" in
  match parts with
  | [_; ns; rootID; rest] => go ns rootID rest
  | [_; ns; rootID] => go ns rootID ""
  | _ => Ok ""
  end.

(** ** The handler of HostnameOption *)

(** A request to a known gateway that does not use a subdomain *)
Definition handle_known (host : string) (gw : GatewaySpec) (r : Request) : Response :=
  if hasPrefix (URLPath r) (Paths gw) then
    if UseSubdomains gw then
      match toSubdomainURL host (URLPath r) r with
      | Err e => BadRequest e
      | Ok newURL => Serve (URLPath r) None (if decide (newURL = "") then None else Some newURL)
      end
    else Serve (URLPath r) None None
  else if negb (NoDNSLink gw) && isDNSLinkName host
  then Serve ("/ipns/" +:+ stripPort host +:+ URLPath r) (Some host) None
  else NotFound.

(** The path prefix of a root that is no CID: the DNSLink name it may inline *)
Definition dnslink_prefix (ns rootID pathPrefix : string) : string :=
  if bool_decide (ns = "ipns") && negb (Contains rootID ".") && negb (isDNSLinkName rootID)
  then let dnslinkFQDN := toDNSLinkFQDN rootID in
       if isDNSLinkName dnslinkFQDN then "/ipns/" +:+ dnslinkFQDN else pathPrefix
  else pathPrefix.

(** A request to a subdomain of a known gateway *)
Definition handle_subdomain (gw : GatewaySpec) (gwHostname ns rootID : string) (r : Request) : Response :=
  let pathPrefix := "/" +:+ ns +:+ "/" +:+ rootID in
  if negb (UseSubdomains gw && hasPrefix pathPrefix (Paths gw)) then NotFound
  else
    match cid_Decode E rootID with
    | Some rootCID =>
        match toDNSLabel rootID rootCID with
        | Err e => BadRequest e
        | Ok dnsCID =>
            let serve := Serve (pathPrefix +:+ URLPath r) (Some gwHostname) None in
            let fix_codec :=
              if isPeerIDNamespace ns && bool_decide (cid_Type rootCID ≠ Libp2pKey) then
                match toSubdomainURL gwHostname (pathPrefix +:+ URLPath r) r with
                | Err e => BadRequest e
                | Ok newURL => if decide (newURL = "") then serve else Redirect newURL
                end
              else serve in
            if HasPrefix (Host r) dnsCID then fix_codec
            else match toSubdomainURL gwHostname ("/" +:+ ns +:+ "/" +:+ dnsCID +:+ URLPath r) r with
                 | Err e => BadRequest e
                 | Ok newURL => if decide (newURL = "") then fix_codec else Redirect newURL
                 end
        end
    | None => Serve (dnslink_prefix ns rootID pathPrefix +:+ URLPath r) (Some gwHostname) None
    end.

(** HostnameOption's handler; [noDNSLink] is the configuration's Gateway.NoDNSLink. *)
Definition HostnameOption (known : gatewayHosts) (noDNSLink : bool) (r : Request) : Response :=
  let host := if decide (XForwardedHost r ≠ "") then XForwardedHost r else Host r in
  match isKnownHostname host known with
  | KPanic => HandlerPanic
  | KFound gw => handle_known host gw r
  | KNone =>
      match knownSubdomainDetails host known with
      | DPanic => HandlerPanic
      | DFound gw gwHostname ns rootID => handle_subdomain gw gwHostname ns rootID r
      | DNone =>
          if negb noDNSLink && isDNSLinkName host
          then Serve ("/ipns/" +:+ stripPort host +:+ URLPath r) (Some host) None
          else Serve (URLPath r) None None
      end
  end.

End hostname.

(** ** Names inlined in a label *)

Lemma ReplaceAll_char x s c new :
  ReplaceAll (String x s) (String c "") new =
  (if decide (c = x) then new else String x "") +:+ ReplaceAll s (String c "") new.
Proof.
  unfold ReplaceAll. simpl. destruct (decide (c = x)) as [->|]; simpl; [done|].
  done.
Qed.

(** The label of a name, character by character. *)
Definition inline_char (c : ascii) : string :=
  if decide (c = "-"%char) then "--" else if decide (c = "."%char) then "-" else String c "".

Lemma ReplaceAll_app_char a b c new :
  ReplaceAll (a +:+ b) (String c "") new = ReplaceAll a (String c "") new +:+ ReplaceAll b (String c "") new.
Proof.
  induction a as [|x a IH]; [done|]. change (String x a +:+ b) with (String x (a +:+ b)).
  rewrite !ReplaceAll_char, IH. by rewrite sapp_assoc.
Qed.

Definition inline (s : string) : string := ReplaceAll (ReplaceAll s "-" "--") "." "-".

Lemma inline_cons c s : inline (String c s) = inline_char c +:+ inline s.
Proof.
  unfold inline. rewrite ReplaceAll_char, ReplaceAll_app_char. f_equal. unfold inline_char.
  destruct (decide ("-"%char = c)) as [<-|Hc]; [done|]. rewrite decide_False by congruence.
  rewrite ReplaceAll_char. destruct (decide ("."%char = c)) as [<-|]; [done|].
  rewrite decide_False by congruence. done.
Qed.

(** Whether a label goes on with a dash. *)
Definition dashed (s : string) : bool := HasPrefix s "-".

Lemma dashed_inline s : dashed (inline s) = HasPrefix s "-" || HasPrefix s ".".
Proof.
  destruct s as [|c s]; [done|]. rewrite inline_cons. unfold inline_char, dashed.
  destruct (decide (c = "-"%char)) as [->|H1]; [done|].
  destruct (decide (c = "."%char)) as [->|H2]; [done|]. simpl.
  rewrite !decide_False by congruence. done.
Qed.

(** The first replacement of toDNSLinkFQDN undoes the inlining of dashes. *)
Definition marked_char (c : ascii) : string :=
  if decide (c = "-"%char) then "@" else if decide (c = "."%char) then "-" else String c "".

Fixpoint marked (s : string) : string :=
  match s with EmptyString => "" | String c s' => marked_char c +:+ marked s' end.

Lemma replace_dashes s :
  Contains s ".-" = false → Contains s ".." = false → ReplaceAll (inline s) "--" "@" = marked s.
Proof.
  induction s as [|c s IH]; [done|]. intros H1 H2. rewrite inline_cons. cbn [marked].
  cbn [Contains] in H1, H2. apply orb_false_iff in H1 as [P1 H1]. apply orb_false_iff in H2 as [P2 H2].
  specialize (IH H1 H2). unfold inline_char, marked_char. unfold ReplaceAll in *.
  destruct (decide (c = "-"%char)) as [->|Hd].
  - simpl. by rewrite IH.
  - destruct (decide (c = "."%char)) as [->|Hp].
    + assert (dashed (inline s) = false) as Hn.
      { rewrite dashed_inline. destruct s as [|x s]; [done|]. simpl in P1, P2 |- *.
        destruct (decide ("-"%char = x)), (decide ("."%char = x)); done. }
      unfold dashed in Hn. simpl in Hn |- *. by rewrite Hn, IH.
    + simpl. rewrite decide_False by congruence. by rewrite IH.
Qed.

Lemma unmark s :
  has_char "@"%char s = false → ReplaceAll (ReplaceAll (marked s) "-" ".") "@" "-" = s.
Proof.
  induction s as [|c s IH]; [done|]. rewrite has_char_cons, orb_false_iff.
  intros [Hc%bool_decide_eq_false Hs]. cbn [marked]. rewrite !ReplaceAll_app_char, IH by done.
  unfold marked_char. destruct (decide (c = "-"%char)) as [->|H1]; [done|].
  destruct (decide (c = "."%char)) as [->|H2]; [done|].
  rewrite !ReplaceAll_char. rewrite (decide_False (P := "-"%char = c)) by congruence. simpl.
  rewrite ReplaceAll_char, decide_False by congruence. done.
Qed.

(** Inlining a DNSLink name in a single DNS label loses nothing: the name
    found in the host of a request is the name the redirect was made for, for
    every name without empty labels and without labels that start with a dash. *)
Theorem dnslink_label_roundtrip fqdn label :
  toDNSLinkDNSLabel fqdn = Ok label →
  has_char "@"%char fqdn = false → Contains fqdn ".-" = false → Contains fqdn ".." = false →
  toDNSLinkFQDN label = fqdn ∧ String.length label ≤ 63.
Proof.
  unfold toDNSLinkDNSLabel, dnsLabelMaxLength. cbv zeta. fold (inline fqdn).
  destruct (decide _) as [|Hlen]; [done|]. intros [= <-] Hat H1 H2. split; [|lia].
  unfold toDNSLinkFQDN. rewrite replace_dashes by done. by apply unmark.
Qed.

Lemma dnslink_label_roundtrip_witness :
  ∃ label, toDNSLinkDNSLabel "my.v-long.example.com" = Ok label ∧
    toDNSLinkFQDN label = "my.v-long.example.com".
Proof.
  exists "my-v--long-example-com". split; [by vm_compute|].
  apply (proj1 (dnslink_label_roundtrip "my.v-long.example.com" "my-v--long-example-com"
    eq_refl eq_refl eq_refl eq_refl)).
Defined.

(** A label that starts with a dash is read back wrongly. *)
Theorem dnslink_label_leading_dash :
  ∃ label, toDNSLinkDNSLabel "a.-b.com" = Ok label ∧ toDNSLinkFQDN label = "a-.b.com".
Proof. exists "a---b-com". by vm_compute. Qed.

(** ** Hosts *)

Lemma Join_app ws vs d : ws ≠ [] → vs ≠ [] →
  Join (ws ++ vs) (String d "") = Join ws (String d "") +:+ String d (Join vs (String d "")).
Proof.
  intros Hw Hv. induction ws as [|w [|x ws] IH]; [done| |].
  - destruct vs as [|v vs]; [done|]. done.
  - change (Join ((w :: x :: ws) ++ vs) (String d ""))
      with (w +:+ String d "" +:+ Join ((x :: ws) ++ vs) (String d "")).
    rewrite IH by done. simpl. by rewrite sapp_assoc.
Qed.

(** What a host is split into is what it is made of. *)
Lemma subdomain_loop_sound labels known i gw fqdn ns root :
  i ≤ length labels → subdomain_loop labels known i = DFound gw fqdn ns root →
  Join labels "." = root +:+ "." +:+ ns +:+ "." +:+ fqdn ∧
  isKnownHostname fqdn known = KFound gw ∧ isSubdomainNamespace ns = true.
Proof.
  induction i as [|i IH]; [done|]. intros Hi. cbn [subdomain_loop].
  destruct (decide (i < 2)) as [|H2]; [done|].
  destruct (isKnownHostname (Join (drop i labels) ".") known) as [gw'| |] eqn:Hk; [|apply IH; lia|done].
  destruct (isSubdomainNamespace (default "" (labels !! (i - 1)))) eqn:Hns; [|apply IH; lia]. intros [= <- <- <- <-].
  split_and!; [|done|done].
  destruct (lookup_lt_is_Some_2 labels (i - 1)) as [x Hx]; [lia|]. rewrite Hx. cbn [default].
  rewrite <- (take_drop_middle labels (i - 1) x) at 1 by done.
  replace (S (i - 1)) with i by lia.
  assert (drop i labels ≠ []) as Hd by (intros He%(f_equal length); rewrite length_drop in He; simpl in He; lia).
  assert (take (i - 1) labels ≠ []) as Ht
    by (intros He%(f_equal length); rewrite length_take in He; simpl in He; lia).
  rewrite Join_app by done. f_equal. change (x :: drop i labels) with ([x] ++ drop i labels).
  rewrite Join_app by done. done.
Qed.

Lemma knownSubdomainDetails_sound host known gw fqdn ns root :
  knownSubdomainDetails host known = DFound gw fqdn ns root →
  host = root +:+ "." +:+ ns +:+ "." +:+ fqdn ∧
  isKnownHostname fqdn known = KFound gw ∧ isSubdomainNamespace ns = true.
Proof.
  unfold knownSubdomainDetails. intros Hd. apply subdomain_loop_sound in Hd; [|done].
  by rewrite Join_Split in Hd.
Qed.

Lemma Split_app_words a b d :
  Split (a +:+ String d b) (String d "") = Split a (String d "") ++ Split b (String d "").
Proof.
  induction a as [|c a IH]; [apply Split_cons_sep|]. change (String c a +:+ String d b) with (String c (a +:+ String d b)).
  destruct (decide (c = d)) as [->|Hne]; [by rewrite !Split_cons_sep, IH|].
  rewrite !Split_cons_ne, IH by done.
  pose proof (Split_not_nil a (String d "") 0) as Hn. fold (Split a (String d "")) in Hn.
  by destruct (Split a (String d "")).
Qed.

(** The loop passes over suffixes that are no gateway. *)
Lemma subdomain_loop_skip labels known i j :
  2 ≤ j → j ≤ i →
  (∀ k, j ≤ k < i → isKnownHostname (Join (drop k labels) ".") known = KNone) →
  subdomain_loop labels known i = subdomain_loop labels known j.
Proof.
  intros H2 Hj Hk. induction i as [|i IH]; [lia|]. destruct (decide (j = S i)) as [->|]; [done|].
  cbn [subdomain_loop]. rewrite decide_False by lia. rewrite Hk by lia. apply IH; [lia|].
  intros k ?. apply Hk. lia.
Qed.

(** The host of a redirect is understood as it was meant: for a gateway
    known by its exact name, of which no proper suffix is itself a known gateway,
    [root.ns.gateway] is taken apart into the same gateway, namespace and root,
    also when the root contains dots. *)
Theorem subdomain_roundtrip host gw ns root known :
  exact known !! host = Some gw → isSubdomainNamespace ns = true →
  (∀ k, 0 < k < length (Split host ".") → isKnownHostname (Join (drop k (Split host ".")) ".") known = KNone) →
  knownSubdomainDetails (root +:+ "." +:+ ns +:+ "." +:+ host) known = DFound gw host ns root.
Proof.
  intros Hgw Hns Hsuf. unfold knownSubdomainDetails.
  assert (Split ns "." = [ns]) as Hsn.
  { apply Split_word. unfold isSubdomainNamespace in Hns. apply bool_decide_eq_true in Hns.
    by repeat (apply elem_of_cons in Hns as [->|Hns]; [done|]); apply not_elem_of_nil in Hns. }
  change (root +:+ "." +:+ ns +:+ "." +:+ host) with (root +:+ String "."%char (ns +:+ String "."%char host)).
  rewrite Split_app_words, (Split_app_words ns host), Hsn.
  set (rs := Split root (String "."%char "")). set (hs := Split host (String "."%char "")) in *.
  pose proof (Split_length root "."%char) as Hlr. fold rs in Hlr.
  pose proof (Split_length host "."%char) as Hlh. fold hs in Hlh.
  set (labels := rs ++ [ns] ++ hs).
  assert (length labels = length rs + 1 + length hs) as Hll
    by (unfold labels; rewrite !length_app; simpl; lia).
  assert (∀ k, drop (length rs + 1 + k) labels = drop k hs) as Hdrop.
  { intros k. unfold labels. rewrite app_assoc.
    replace (length rs + 1 + k) with (length (rs ++ [ns]) + k) by (rewrite length_app; simpl; lia).
    rewrite <- drop_drop, drop_app_length. done. }
  rewrite (subdomain_loop_skip labels known (length labels) (S (length rs + 1))); [|lia|lia|].
  2: { intros k Hk. replace k with (length rs + 1 + (k - length rs - 1)) by lia. rewrite Hdrop.
       apply Hsuf. lia. }
  cbn [subdomain_loop]. rewrite decide_False by lia.
  specialize (Hdrop 0). rewrite Nat.add_0_r, drop_0 in Hdrop. rewrite Hdrop.
  assert (Join hs "." = host) as -> by apply Join_Split.
  unfold isKnownHostname. rewrite Hgw. replace (length rs + 1 - 1) with (length rs) by lia.
  unfold labels. rewrite lookup_app_r, Nat.sub_diag by lia. cbn [default lookup list_lookup app].
  unfold id. rewrite Hns, take_app_length. f_equal. apply Join_Split.
Qed.

(** ** The handler *)

Lemma handle_subdomain_serves E gw gwh ns root r path ctx loc :
  handle_subdomain E gw gwh ns root r = Serve path ctx loc →
  ctx = Some gwh ∧ loc = None ∧ UseSubdomains gw = true ∧
  hasPrefix ("/" +:+ ns +:+ "/" +:+ root) (Paths gw) = true ∧
  (path = ("/" +:+ ns +:+ "/" +:+ root) +:+ URLPath r ∨
   ns = "ipns" ∧ cid_Decode E root = None ∧ path = ("/ipns/" +:+ toDNSLinkFQDN root) +:+ URLPath r).
Proof.
  unfold handle_subdomain. set (pp := "/" +:+ ns +:+ "/" +:+ root).
  destruct (UseSubdomains gw); [|done]. destruct (hasPrefix pp (Paths gw)); [|done]. cbn [andb negb].
  destruct (cid_Decode E root) as [c|] eqn:Hc.
  - destruct (toDNSLabel E root c) as [dns|]; [|done].
    assert (∀ f, (∃ u, f = Redirect u) ∨ (∃ e, f = BadRequest e) ∨ f = Serve (pp +:+ URLPath r) (Some gwh) None →
      f = Serve path ctx loc →
      ctx = Some gwh ∧ loc = None ∧ true = true ∧ true = true ∧
      (path = pp +:+ URLPath r ∨ ns = "ipns" ∧ Some c = None ∧ path = ("/ipns/" +:+ toDNSLinkFQDN root) +:+ URLPath r))
      as Hfin by naive_solver.
    intros Hr. refine (Hfin _ _ Hr). clear Hr Hfin. cbv zeta.
    destruct (HasPrefix (Host r) dns); repeat case_match; eauto.
  - intros [= <- <- <-]. split_and!; try done. unfold dnslink_prefix.
    destruct (bool_decide (ns = "ipns")) eqn:Hns; [|by left]. apply bool_decide_eq_true in Hns.
    cbn [andb]. destruct (negb (Contains root ".") && negb (isDNSLinkName E root)); [|by left].
    destruct (isDNSLinkName E (toDNSLinkFQDN root)); [right|left]; done.
Qed.

(** C18.  Origins are isolated: a request to a subdomain of a known gateway that
    is served is served from the root named in its host and from no other: the
    host is [root.ns.gateway], the path handed on starts with [/ns/root] (or with
    the DNSLink name the root inlines), and the gateway allows that path. *)
Theorem subdomain_isolation E known noDNSLink r gw gwh ns root path ctx loc :
  let host := if decide (XForwardedHost r ≠ "") then XForwardedHost r else Host r in
  isKnownHostname host known = KNone → knownSubdomainDetails host known = DFound gw gwh ns root →
  HostnameOption E known noDNSLink r = Serve path ctx loc →
  host = root +:+ "." +:+ ns +:+ "." +:+ gwh ∧ ctx = Some gwh ∧ loc = None ∧
  UseSubdomains gw = true ∧ hasPrefix ("/" +:+ ns +:+ "/" +:+ root) (Paths gw) = true ∧
  (path = ("/" +:+ ns +:+ "/" +:+ root) +:+ URLPath r ∨
   ns = "ipns" ∧ cid_Decode E root = None ∧ path = ("/ipns/" +:+ toDNSLinkFQDN root) +:+ URLPath r).
Proof.
  intros host Hk Hd Hr. unfold HostnameOption in Hr. fold host in Hr. rewrite Hk, Hd in Hr.
  apply handle_subdomain_serves in Hr. apply knownSubdomainDetails_sound in Hd as [Hd _]. done.
Qed.

(** ** A gateway on localhost *)

Module HostnameExample.

Definition E : HostEnv := {|
  cid_Decode := λ s, if decide (s = "bafy1") then Some (CidV1 DagProtobuf (mkMultihash SHA2_256 "d")) else None;
  StringOfBase := λ _ _, Ok "bafy1";
  peer_cid := λ _, None;
  IsDomainName := λ _, true;
  has_dnslink := λ s, bool_decide (s = "en.wikipedia-on-ipfs.org");
  ParseRequestURI := Ok;
  regexp_Compile := λ _, None |}.

Definition known : gatewayHosts := prepareKnownGateways E [].

Definition request (host path : string) : Request := mkRequest host "" "" "" path "".

End HostnameExample.

Lemma subdomain_roundtrip_witness :
  knownSubdomainDetails "en.wikipedia-on-ipfs.org.ipns.localhost" HostnameExample.known =
  DFound subdomainGatewaySpec "localhost" "ipns" "en.wikipedia-on-ipfs.org".
Proof.
  apply (subdomain_roundtrip "localhost" subdomainGatewaySpec "ipns" "en.wikipedia-on-ipfs.org"
    HostnameExample.known eq_refl eq_refl).
  intros k [Hk1 Hk2]. change (length (Split "localhost" ".")) with 1 in Hk2. lia.
Defined.

Lemma subdomain_isolation_witness :
  "bafy1.ipfs.localhost" = "bafy1" +:+ "." +:+ "ipfs" +:+ "." +:+ "localhost" ∧
  HostnameOption HostnameExample.E HostnameExample.known false
    (HostnameExample.request "bafy1.ipfs.localhost" "/index.html") =
  Serve "/ipfs/bafy1/index.html" (Some "localhost") None.
Proof.
  split.
  - apply (proj1 (subdomain_isolation HostnameExample.E HostnameExample.known false
      (HostnameExample.request "bafy1.ipfs.localhost" "/index.html") subdomainGatewaySpec "localhost" "ipfs"
      "bafy1" "/ipfs/bafy1/index.html" (Some "localhost") None eq_refl eq_refl eq_refl)).
  - by vm_compute.
Defined.

(** A wildcard name that is no regular expression makes the handler panic on
    hosts that are not known exactly. *)
Theorem bad_wildcard_panics :
  HostnameOption HostnameExample.E
    (prepareKnownGateways HostnameExample.E [("*.[example", Some subdomainGatewaySpec)]) false
    (HostnameExample.request "example.net" "/") = HandlerPanic.
Proof. by vm_compute. Qed.
