(* ===== verification/ConfigCmd.v ===== *)
(** * The config command (src/core/commands/config.go)

    `ipfs config` reads and writes the configuration of a repository that a daemon
    may serve to others over HTTP, so it must neither show nor change the secrets
    the file holds: the private key and the API keys of the pinning services. *)

From Stdlib Require Import ZArith Ascii String.
From stdpp Require Import base gmap sets list strings.
From S2P Require Import Prelude GoStrings ConfigKV GoFS Datastores Migrations FsRepo.

(** ** Case folding

    strings.ToLower and strings.EqualFold work rune by rune.  Both are only used
    to compare with ASCII text here, so only the runes outside ASCII that come to
    an ASCII letter matter: U+212A and U+0130 under unicode.ToLower, U+212A and
    U+017F under simple folding.  Every other byte over 127 stands for itself. *)

Definition bytes (l : list nat) : string := string_of_list_ascii (map ascii_of_nat l).
Definition rune_kelvin : string := bytes [226; 132; 170].
Definition rune_dotted_I : string := bytes [196; 176].
Definition rune_long_s : string := bytes [197; 191].

Fixpoint map_runes (tbl : list (string * string)) (skip : nat) (s : string) : string :=
  match s with
  | EmptyString => EmptyString
  | String c s' =>
      match skip with
      | S k => map_runes tbl k s'
      | 0 => match List.find (λ e, HasPrefix s e.1) tbl with
             | Some (p, r) => r +:+ map_runes tbl (pred (String.length p)) s'
             | None => String (to_lower_char c) (map_runes tbl 0 s')
             end
      end
  end.

(** strings.ToLower, up to runes that do not come to ASCII *)
Definition strings_ToLower (s : string) : string :=
  map_runes [(rune_kelvin, "k"); (rune_dotted_I, "i")] 0 s.

(** strings.EqualFold where one side is ASCII *)
Definition fold (s : string) : string := map_runes [(rune_kelvin, "k"); (rune_long_s, "s")] 0 s.
Definition EqualFold (s t : string) : bool := bool_decide (fold s = fold t).

(** ** What the config package and encoding/json provide *)

(** config.RemotePinningService and its API part; policies are kept as they are. *)
Record RemotePinningServiceAPI := mkAPI { Endpoint : string; Key : string }.
Record RemotePinningService := mkSvc { API : RemotePinningServiceAPI; Policies : string }.

#[global] Instance api_eq_dec : EqDecision RemotePinningServiceAPI.
Proof. solve_decision. Defined.

Class ConfigFields (C : Type) := {
  Identity_PrivKey : C → string;
  set_PrivKey : string → C → C;
  RemoteServices : C → gmap string RemotePinningService;
  set_RemoteServices : gmap string RemotePinningService → C → C;
  Clone : C → option C;
  (** json.Unmarshal of json.Marshal of a map into the services *)
  Unmarshal_services : gmap string JVal → option (gmap string RemotePinningService);
  (** json.Unmarshal into an interface{} *)
  Unmarshal_value : string → option JVal;
}.

(** The fields are those of a struct. *)
Class FieldLaws (C : Type) `{ConfigFields C} : Prop := {
  get_set_PrivKey k c : Identity_PrivKey (set_PrivKey k c) = k;
  get_set_services s c : RemoteServices (set_RemoteServices s c) = s;
  PrivKey_of_services s c : Identity_PrivKey (set_RemoteServices s c) = Identity_PrivKey c;
}.

(** config.PinningConcealSelector, config.RemoteServicesPath and the tags of the key *)
Definition PinningConcealSelector : list string := ["Pinning"; "RemoteServices"; "*"; "API"; "Key"].
Definition RemoteServicesPath : string := "Pinning.RemoteServices".
Definition IdentityTag : string := "Identity".
Definition PrivKeyTag : string := "PrivKey".

Inductive CmdErr :=
  | FromRepo (e : RErr)
  | FailedGet (e : RErr)
  | FailedSet (e : RErr)
  | FailedServices (e : CmdErr)
  | CMsg (msg : string).

Record ConfigField := mkField { fKey : string; fValue : JVal }.
Record ConfigUpdateOutput := mkUpdate { OldCfg : gmap string JVal; NewCfg : gmap string JVal }.

Definition of_repo {S A} (wrap : RErr → CmdErr) (c : M S RErr A) : M S CmdErr A := λ s,
  let '(r, s') := c s in (match r with Ok a => Ok a | Err e => Err (wrap e) end, s').

Definition some_or {S A} (msg : string) (o : option A) : M S CmdErr A :=
  match o with Some a => mret a | None => mthrow (CMsg msg) end.

(** ** Globs *)

(** The loop of matchesGlobPrefix over the parts and the patterns *)
Fixpoint matches_parts (k glob : list string) : bool :=
  match glob, k with
  | [], _ | _, [] => true
  | g :: glob', p :: k' =>
      if decide (g = "*") then matches_parts k' glob'
      else if EqualFold p g then matches_parts k' glob' else false
  end.

Definition matchesGlobPrefix (key : string) (glob : list string) : bool :=
  matches_parts (Split key ".") glob.

(** ** Scrubbing *)

(** The [interface{}] scrubValueInternal receives: nil, or a map that may be nil. *)
Definition Iface : Type := option (option (gmap string JVal)).

Definition scrubValueInternal (v : Iface) (key : list string) (okIfMissing : bool) : res CmdErr (option JVal) :=
  if decide (v = None ∧ okIfMissing = false) then Err (CMsg "failed to find specified key")
  else Ok None.

(** The range loop of scrubMapInternal with what [either] makes of a value that
    the pattern selects: [None] drops the entry. *)
Definition scrub_entries (p : string) (either : JVal → res CmdErr (option JVal)) (m : gmap string JVal)
    : res CmdErr (gmap string JVal) :=
  let out k v := if decide (p = "*" ∨ EqualFold p k = true) then either v else Ok (Some v) in
  match map_to_list (map_imap (λ k v, match out k v with Err e => Some e | Ok _ => None end) m) with
  | (_, e) :: _ => Err e
  | [] => Ok (map_imap (λ k v, match out k v with Ok u => u | Err _ => None end) m)
  end.

(** scrubMapInternal; scrubEither is the function it hands to the loop. *)
Fixpoint scrubMapInternal (m : gmap string JVal) (key : list string) (okIfMissing : bool)
    : res CmdErr (gmap string JVal) :=
  match key with
  | [] => Ok ∅
  | p :: key' =>
      scrub_entries p (λ u,
        match u with
        | JObj m' => match scrubMapInternal m' key' okIfMissing with
                     | Ok n => Ok (Some (JObj n)) | Err e => Err e end
        | _ => scrubValueInternal (Some None) key' okIfMissing
        end) m
  end.

(** scrubEither: for a value that is not a map, the nil map of the failed type
    assertion is what is passed on. *)
Definition scrubEither (u : JVal) (key : list string) (okIfMissing : bool) : res CmdErr (option JVal) :=
  match u with
  | JObj m' => match scrubMapInternal m' key okIfMissing with
               | Ok n => Ok (Some (JObj n)) | Err e => Err e end
  | _ => scrubValueInternal (Some None) key okIfMissing
  end.

Definition scrubValue (m : gmap string JVal) (key : list string) : res CmdErr (gmap string JVal) :=
  scrubMapInternal m key false.
Definition scrubOptionalValue (m : gmap string JVal) (key : list string) : res CmdErr (gmap string JVal) :=
  scrubMapInternal m key true.

(** ** The commands *)

Section commands.
Context (env : Env) (X : RepoEnv) {C : Type} `{ConfigPkg C, ConfigFields C}.
Local Abbreviation RS := (RS (C := C)).

(** [r, err := fsrepo.Open(root)] followed by [defer r.Close()] *)
Definition with_repo {A} (root : string) (c : M RS CmdErr A) : M W CmdErr A := λ w,
  match open env X root w with
  | (Err e, w1) => (Err (FromRepo e), w1)
  | (Ok r, w1) =>
      let '(res, s) := c (mkRS w1 r) in
      (res, rw (Close env s).2)
  end.

Definition getConfig (key : string) : M RS CmdErr ConfigField :=
  v ← of_repo FailedGet (GetConfigKey env key); mret (mkField key v).

Definition setConfig (key : string) (value : JVal) : M RS CmdErr ConfigField :=
  _ ← of_repo FailedSet (SetConfigKey env key value); getConfig key.

(** The value an invocation sets, by the options *)
Definition arg_value (json isbool : bool) (value : string) : res CmdErr JVal :=
  if json then match Unmarshal_value value with
               | Some v => Ok v | None => Err (CMsg "failed to unmarshal json") end
  else if isbool then Ok (JBool (bool_decide (value = "true")))
  else Ok (JStr value).

(** ConfigCmd.Run, with the root of the configuration that the environment gives *)
Definition ConfigCmd (cfgRoot : res CmdErr string) (json isbool : bool) (key : string) (value : option string)
    : M W CmdErr ConfigField :=
  if decide (strings_ToLower key = "identity" ∨ strings_ToLower key = "identity.privkey") then
    mthrow (CMsg "cannot show or change private key through API")
  else if matchesGlobPrefix key PinningConcealSelector then
    mthrow (CMsg "cannot show or change pinning services credentials")
  else
    root ← mlift cfgRoot;
    with_repo root
      (match value with
       | Some value => v ← mlift (arg_value json isbool value); setConfig key v
       | None => getConfig key
       end).

Definition configShowCmd (cfgRoot : res CmdErr string) : M W CmdErr (gmap string JVal) :=
  root ← mlift cfgRoot;
  fname ← mlift (match Filename env root with Ok f => Ok f | Err e => Err (FromRepo (EOS e)) end);
  data ← of_repo FromRepo (on_fs (ReadFile (fault env) fname));
  cfg ← some_or "json: cannot unmarshal" (Decode_map data);
  cfg ← mlift (scrubValue (default ∅ cfg) [IdentityTag; PrivKeyTag]);
  mlift (scrubOptionalValue cfg PinningConcealSelector).

(** editConfig; [sh] is what the command line does to the files. *)
Definition editConfig (EDITOR : string) (sh : string → M FS OSErr unit) (filename : string) : M W CmdErr unit :=
  if decide (EDITOR = "") then mthrow (CMsg "ENV variable $EDITOR not set")
  else of_repo FromRepo (on_fs (sh (EDITOR +:+ " " +:+ filename))).

Definition scrubPrivKey (cfg : C) : res CmdErr (gmap string JVal) :=
  match ToMap cfg with
  | None => Err (CMsg "json: unsupported value")
  | Some cfgMap => scrubValue cfgMap [IdentityTag; PrivKeyTag]
  end.

(** transformConfig; the transformer works on the copy it is given, [temp] is
    the name BackupConfig picks with the prefix "pre-" and the profile's name. *)
Definition transformConfig (configRoot temp : string) (transformer : C → res CmdErr C) (dryRun : bool)
    : M W CmdErr (C * C) :=
  with_repo configRoot (
    oldCfg ← of_repo FromRepo Config;
    copy ← some_or "failure to decode config" (Clone oldCfg);
    newCfg ← mlift (transformer copy);
    _ ← (if dryRun then mret ()
         else _ ← of_repo FromRepo (BackupConfig env temp);
              of_repo FromRepo (SetConfig env newCfg));
    mret (oldCfg, newCfg)).

(** configProfileApplyCmd.Run *)
Definition configProfileApplyCmd (Profiles : gmap string (C → res CmdErr C)) (cfgRoot : res CmdErr string)
    (temp profile : string) (dryRun : bool) : M W CmdErr ConfigUpdateOutput :=
  match Profiles !! profile with
  | None => mthrow (CMsg (profile +:+ " is not a profile"))
  | Some transformer =>
      root ← mlift cfgRoot;
      cfgs ← transformConfig root temp transformer dryRun;
      oldCfgMap ← mlift (scrubPrivKey cfgs.1);
      newCfgMap ← mlift (scrubPrivKey cfgs.2);
      mret (mkUpdate oldCfgMap newCfgMap)
  end.

Definition getRemotePinningServices : M RS CmdErr (gmap string RemotePinningService) := λ s,
  match getConfig RemoteServicesPath s with
  | (Ok tag, s') =>
      match fValue tag with
      | JObj val => some_or "json: cannot unmarshal" (Unmarshal_services val) s'
      | _ => (Ok ∅, s')
      end
  | (Err _, s') => (Ok ∅, s')
  end.

(** The body of replaceConfig's loop on the services of the new configuration *)
Definition reapply_service (name : string) (oldSvc : RemotePinningService)
    : M (gmap string RemotePinningService) CmdErr unit :=
  newServices ← mget;
  match newServices !! name with
  | Some newSvc =>
      if decide (Key (API newSvc) ≠ "" ∨
                 (Endpoint (API newSvc) ≠ "" ∧ Endpoint (API newSvc) ≠ Endpoint (API oldSvc))) then
        mthrow (CMsg "cannot change remote pinning services api info with `config replace`")
      else mmodify (<[name := mkSvc (API oldSvc) (Policies newSvc)]>)
  | None => mthrow (CMsg "cannot add or remove remote pinning services with 'config replace'")
  end.

(** replaceConfig of the decoded file; [range] is the order in which Go visits
    the services of the old configuration. *)
Definition replaceConfig (range : gmap string RemotePinningService → list (string * RemotePinningService))
    (decoded : option C) : M RS CmdErr unit :=
  newCfg ← some_or "failed to decode file as config" decoded;
  if decide (Identity_PrivKey newCfg ≠ "") then
    mthrow (CMsg "setting private key with API is not supported")
  else
    keyF ← mcatch (getConfig PrivKeySelector) (λ _, mthrow (CMsg "failed to get PrivKey"));
    pkstr ← some_or "private key in config was not a string"
              (match fValue keyF with JStr s => Some s | _ => None end);
    let newCfg := set_PrivKey pkstr newCfg in
    let newServices := RemoteServices newCfg in
    oldServices ← mcatch getRemotePinningServices (λ e, mthrow (FailedServices e));
    if decide (size newServices ≠ size oldServices) then
      mthrow (CMsg "cannot add or remove remote pinning services with 'config replace'")
    else
      let '(r, services) := mfor (range oldServices) (λ e, reapply_service e.1 e.2) newServices in
      _ ← mlift r;
      of_repo FromRepo (SetConfig env (set_RemoteServices services newCfg)).

(** configReplaceCmd.Run *)
Definition configReplaceCmd range (cfgRoot : res CmdErr string) (file : res CmdErr (option C)) : M W CmdErr unit :=
  root ← mlift cfgRoot;
  with_repo root (decoded ← mlift file; replaceConfig range decoded).

End commands.

(** ** Documents that differ in secrets only *)

(** [sel p k]: the pattern [p] of a glob selects the key [k]. *)
Definition selects (sel : string → string → bool) (p k : string) : bool := bool_decide (p = "*") || sel p k.
Definition exactly (p k : string) : bool := bool_decide (p = k).

(** What remains of the globs under the key [k]. *)
Definition under (sel : string → string → bool) (k : string) (gs : list (list string)) : list (list string) :=
  omap (λ g, match g with p :: g' => if selects sel p k then Some g' else None | [] => None end) gs.

(** Two values that are equal but for strings at the places the globs name. *)
Inductive same_but (sel : string → string → bool) : list (list string) → JVal → JVal → Prop :=
  | sb_eq gs v : same_but sel gs v v
  | sb_secret gs s s' : [] ∈ gs → same_but sel gs (JStr s) (JStr s')
  | sb_obj gs m m' :
      (∀ k, is_Some (m !! k) ↔ is_Some (m' !! k)) →
      (∀ k v v', m !! k = Some v → m' !! k = Some v' → same_but sel (under sel k gs) v v') →
      same_but sel gs (JObj m) (JObj m').

Lemma under_cons sel k p g gs :
  under sel k ((p :: g) :: gs) = if selects sel p k then g :: under sel k gs else under sel k gs.
Proof. unfold under. simpl. by destruct (selects sel p k). Qed.

Lemma same_but_nil sel gs v v' : same_but sel gs v v' → gs = [] → v = v'.
Proof.
  induction 1 as [|gs s s' Hin|gs m m' Hd _ IH]; intros ->; [done|by apply not_elem_of_nil in Hin|].
  f_equal. apply map_eq. intros k. destruct (m !! k) as [v|] eqn:Hk.
  - destruct (proj1 (Hd k) (ex_intro _ v Hk)) as [v' Hk']. rewrite Hk'. f_equal. by eapply IH.
  - symmetry. apply eq_None_not_Some. rewrite <- Hd, Hk. apply is_Some_None.
Qed.

(** ** Scrubbing never fails and hides what it scrubs *)

Definition scrub_value (g : list string) (scrub : gmap string JVal → gmap string JVal) (u : JVal) : option JVal :=
  match u with JObj m' => Some (JObj (scrub m')) | _ => None end.

(** What scrubbing comes to: selected values that are not maps disappear. *)
Fixpoint scrubbed (g : list string) (m : gmap string JVal) : gmap string JVal :=
  match g with
  | [] => ∅
  | p :: g' => map_imap (λ k v, if selects EqualFold p k then scrub_value g' (scrubbed g') v else Some v) m
  end.

Lemma scrubMapInternal_cons m p key ok :
  scrubMapInternal m (p :: key) ok = scrub_entries p (λ u, scrubEither u key ok) m.
Proof. done. Qed.

Lemma selects_fold p k : selects EqualFold p k = bool_decide (p = "*" ∨ EqualFold p k = true).
Proof. unfold selects. apply eq_true_iff_eq. rewrite orb_true_iff, !bool_decide_eq_true. done. Qed.

Lemma scrub_entries_total p f g m :
  (∀ v, f v = Ok (g v)) →
  scrub_entries p f m = Ok (map_imap (λ k v, if selects EqualFold p k then g v else Some v) m).
Proof.
  intros Hf. unfold scrub_entries.
  replace (map_imap _ m) with (∅ : gmap string CmdErr) at 1.
  - rewrite map_to_list_empty. f_equal. apply map_imap_ext. intros k.
    destruct (m !! k) as [v|]; [|done]. simpl. rewrite selects_fold.
    case_bool_decide; rewrite ?decide_True, ?decide_False by done; by rewrite ?Hf.
  - symmetry. apply map_eq. intros k. rewrite map_lookup_imap, lookup_empty.
    destruct (m !! k); [|done]. simpl. case_decide; by rewrite ?Hf.
Qed.

(** The scrubbers are total: the error that scrubValue documents is never returned. *)
Lemma scrubMapInternal_total m key ok : scrubMapInternal m key ok = Ok (scrubbed key m).
Proof.
  revert m. induction key as [|p key IH]; intros m; [done|]. rewrite scrubMapInternal_cons.
  apply scrub_entries_total. intros v. unfold scrubEither, scrub_value, scrubValueInternal.
  destruct v; try (by rewrite decide_False by naive_solver). by rewrite IH.
Qed.

Lemma same_but_kind sel gs v v' : same_but sel gs v v' →
  (∃ m m', v = JObj m ∧ v' = JObj m') ∨ ((∀ m, v ≠ JObj m) ∧ ∀ m, v' ≠ JObj m).
Proof. destruct 1 as [gs v| |]; [destruct v; naive_solver|right; naive_solver|left; eauto]. Qed.

(** One step of scrubbing on related values. *)
Lemma scrub_value_same g gs v v' :
  (∀ m m', same_but EqualFold (g :: gs) (JObj m) (JObj m') →
     same_but EqualFold gs (JObj (scrubbed g m)) (JObj (scrubbed g m'))) →
  same_but EqualFold (g :: gs) v v' →
  match scrub_value g (scrubbed g) v, scrub_value g (scrubbed g) v' with
  | Some u, Some u' => same_but EqualFold gs u u'
  | None, None => True
  | _, _ => False
  end.
Proof.
  intros IH Hs. destruct (same_but_kind _ _ _ _ Hs) as [(m & m' & -> & ->)|[Hv Hv']].
  - simpl. by apply IH.
  - destruct v; try (exfalso; by eapply Hv); destruct v'; try (exfalso; by eapply Hv'); done.
Qed.

(** Scrubbing a glob removes it from what two documents may differ in. *)
Lemma scrubbed_same g gs m m' :
  same_but EqualFold (g :: gs) (JObj m) (JObj m') →
  same_but EqualFold gs (JObj (scrubbed g m)) (JObj (scrubbed g m')).
Proof.
  revert gs m m'. induction g as [|p g IH]; intros gs m m' Hs; [apply sb_eq|].
  inversion Hs as [| |? ? ? Hd Hk]; subst; [apply sb_eq|].
  assert (∀ k, match scrubbed (p :: g) m !! k, scrubbed (p :: g) m' !! k with
               | Some u, Some u' => same_but EqualFold (under EqualFold k gs) u u'
               | None, None => True | _, _ => False end) as Hall.
  { intros k. cbn [scrubbed]. rewrite !map_lookup_imap. specialize (Hd k). specialize (Hk k).
    rewrite under_cons in Hk. destruct (m !! k) as [v|], (m' !! k) as [v'|]; simpl.
    - specialize (Hk v v' eq_refl eq_refl). destruct (selects EqualFold p k); [|done].
      apply scrub_value_same; [|done]. intros. by apply IH.
    - by destruct (is_Some_None (proj1 Hd (ex_intro _ v eq_refl))).
    - by destruct (is_Some_None (proj2 Hd (ex_intro _ v' eq_refl))).
    - done. }
  apply sb_obj; intros k; specialize (Hall k); destruct (scrubbed _ m !! k), (scrubbed _ m' !! k);
    naive_solver.
Qed.

(** What the command hides. *)
Definition secrets : list (list string) := [[IdentityTag; PrivKeyTag]; PinningConcealSelector].

(** ** Reading around the secrets *)

(** The parts lead to a place on the glob's way. *)
Fixpoint covers (sel : string → string → bool) (parts g : list string) : bool :=
  match parts, g with
  | [], _ => true
  | p :: ps, q :: g' => selects sel q p && covers sel ps g'
  | _ :: _, [] => false
  end.

Lemma elem_of_under sel k gs g' : g' ∈ under sel k gs → ∃ q, q :: g' ∈ gs ∧ selects sel q k = true.
Proof.
  unfold under. rewrite list_elem_of_omap. intros ([|q g] & Hin & Hg); [done|].
  destruct (selects sel q k) eqn:Hq; [|done]. injection Hg as ->. eauto.
Qed.

(** A value found off the ways to the secrets is the same in both documents. *)
Lemma get_parts_same sel gs parts before v v' r :
  same_but sel gs v v' → (∀ g, g ∈ gs → covers sel parts g = false) →
  get_parts before parts v = Ok r → get_parts before parts v' = Ok r.
Proof.
  revert gs before v v'. induction parts as [|p ps IH]; intros gs before v v' Hs Hc.
  - assert (gs = []) as -> by (destruct gs as [|g gs]; [done|by specialize (Hc g (list_elem_of_here _ _))]).
    by rewrite (same_but_nil _ _ _ _ Hs eq_refl).
  - inversion Hs as [| |? m m' Hd Hk]; subst; [done..|]. simpl. intros Hg.
    destruct (m !! p) as [c|] eqn:Hp; [|done].
    destruct (proj1 (Hd p) (ex_intro _ c Hp)) as [c' Hp']. rewrite Hp'.
    eapply IH; [by apply (Hk p)| |done].
    intros g' (q & Hin & Hq)%elem_of_under. specialize (Hc _ Hin). simpl in Hc. by rewrite Hq in Hc.
Qed.

Lemma EqualFold_refl s : EqualFold s s = true.
Proof. by apply bool_decide_eq_true. Qed.

Lemma EqualFold_sym s t : EqualFold s t = EqualFold t s.
Proof. unfold EqualFold. apply bool_decide_ext. naive_solver. Qed.

Lemma covers_matches parts g : covers exactly parts g = true → matches_parts parts g = true.
Proof.
  revert g. induction parts as [|p ps IH]; intros g; [by destruct g|]. destruct g as [|q g]; [done|]. simpl.
  rewrite andb_true_iff. unfold selects, exactly. intros [Hs%orb_true_iff Hc%IH]. rewrite Hc.
  rewrite !bool_decide_eq_true in Hs. case_decide; [done|]. destruct Hs as [| ->]; [done|]. by rewrite EqualFold_refl.
Qed.

(** The parts of a key on the way to the private key. *)
Lemma covers_privkey key :
  covers exactly (Split key ".") [IdentityTag; PrivKeyTag] = true →
  key = "Identity" ∨ key = "Identity.PrivKey".
Proof.
  intros Hc. rewrite <- (Join_Split key "."%char) at 1 2.
  pose proof (Split_length key "."%char) as Hl.
  destruct (Split key ".") as [|a [|b [|c ps]]]; simpl in Hl, Hc; [lia|..].
  - left. rewrite andb_true_r in Hc. unfold selects, exactly in Hc.
    by apply orb_true_iff in Hc as [Hc|Hc]; apply bool_decide_eq_true in Hc; [|subst].
  - right. rewrite !andb_true_iff in Hc. unfold selects, exactly in Hc.
    destruct Hc as (Ha%orb_true_iff & Hb%orb_true_iff & _). rewrite !bool_decide_eq_true in Ha, Hb.
    by destruct Ha as [| <-], Hb as [| <-].
  - rewrite !andb_true_iff in Hc. naive_solver.
Qed.

(** The guards of ConfigCmd let no key through that leads to a secret. *)
Lemma unblocked_off_secrets key :
  ¬ (strings_ToLower key = "identity" ∨ strings_ToLower key = "identity.privkey") →
  matchesGlobPrefix key PinningConcealSelector = false →
  ∀ g, g ∈ secrets → covers exactly (Split key ".") g = false.
Proof.
  intros Hk Hp g Hg. apply not_true_iff_false. intros Hc. unfold secrets in Hg.
  apply elem_of_cons in Hg as [->|Hg]; [|apply list_elem_of_singleton in Hg as ->].
  - apply Hk. apply covers_privkey in Hc as [->| ->]; [by left; vm_compute|by right; vm_compute].
  - apply covers_matches in Hc. unfold matchesGlobPrefix in Hp. congruence.
Qed.

(** Scrubbing keeps every value off the glob's way. *)
Lemma scrubbed_get g before parts m v :
  matches_parts parts g = false →
  get_parts before parts (JObj m) = Ok v → get_parts before parts (JObj (scrubbed g m)) = Ok v.
Proof.
  revert before parts m. induction g as [|p g IH]; intros before parts m; [by destruct parts|].
  destruct parts as [|k ps]; [done|]. simpl. intros Hm. rewrite map_lookup_imap.
  destruct (m !! k) as [c|]; [|done]. simpl. unfold selects. rewrite EqualFold_sym.
  destruct (decide (p = "*" ∨ EqualFold k p = true)) as [Hsel|Hsel].
  - assert (matches_parts ps g = false) as Hps
      by (destruct (decide (p = "*")); [done|]; destruct Hsel as [|He]; [done|by rewrite He in Hm]).
    replace (bool_decide (p = "*") || EqualFold k p) with true
      by (symmetry; apply orb_true_iff; by rewrite bool_decide_eq_true).
    destruct ps as [|k' ps]; [by destruct g|]. destruct c; try done. intros Hg.
    by apply (IH (before ++ [k]) (k' :: ps)).
  - replace (bool_decide (p = "*") || EqualFold k p) with false; [done|].
    symmetry. apply orb_false_iff. rewrite bool_decide_eq_false. split; [tauto|].
    destruct (EqualFold k p); [tauto|done].
Qed.

Section secrecy.
Context (env : Env) (X : RepoEnv) {C : Type} `{ConfigPkg C, ConfigFields C}.
Local Abbreviation RS := (RS (C := C)).

Lemma of_repo_ok {S A} wrap (c : M S RErr A) s a s' :
  of_repo wrap c s = (Ok a, s') → c s = (Ok a, s').
Proof. unfold of_repo. destruct (c s) as [[] s1]; congruence. Qed.

(** The map the configuration file of an open repository holds. *)
Definition map_on_disk (s : RS) (m : gmap string JVal) : Prop :=
  ∃ f c cfg, Filename env (path (rr s)) = Ok f ∧ wfs (rw s) !! f = Some (NFile c) ∧
    Decode_map c = Some cfg ∧ m = default ∅ cfg.

Lemma filename_run p (s : RS) :
  on_w (on_fs (mlift (Filename env p))) s =
    (match Filename env p with Ok f => Ok f | Err e => Err (EOS e) end, s).
Proof. unfold on_w, on_fs, mlift. by destruct (Filename env p), s as [[]]. Qed.

(** What GetConfigKey does on an open repository, by the file it reads. *)
Lemma GetConfigKey_run key (s : RS) :
  GetConfigKey env key s = (Err (EMsg "repo is closed"), s) ∨
  (∃ e, GetConfigKey env key s = (Err e, s)) ∨
  ∃ m, map_on_disk s m ∧ GetConfigKey env key s = lift_key (MapGetKV m key) s.
Proof.
  unfold GetConfigKey, unless_closed. destruct (closed (rr s)); [by left|right].
  rewrite bind_unfold. cbv beta iota delta [repo_path]. rewrite bind_unfold, filename_run.
  destruct (Filename env (path (rr s))) as [f|e] eqn:Hf; [|left; eauto].
  rewrite bind_unfold. destruct (read_config_inv env Decode_map f s) as (r & Hrd & Hd). rewrite Hrd.
  destruct r as [cfg|e]; [|left; eauto]. right. exists (default ∅ cfg). split; [|done].
  destruct (Hd _ eq_refl) as (c & Hfile & Hdec). by exists f, c, cfg.
Qed.

Lemma GetConfigKey_same key (s : RS) : (GetConfigKey env key s).2 = s.
Proof. by destruct (GetConfigKey_run key s) as [->|[[e ->]|(m & _ & ->)]]. Qed.

Lemma GetConfigKey_ok key (s : RS) v s' :
  GetConfigKey env key s = (Ok v, s') → s' = s ∧ ∃ m, map_on_disk s m ∧ MapGetKV m key = Ok v.
Proof.
  destruct (GetConfigKey_run key s) as [->|[[e ->]|(m & Hm & ->)]]; [done..|].
  rewrite lift_key_inv. destruct (MapGetKV m key) eqn:Hg; [|done]. intros [= -> ->]. eauto.
Qed.

Lemma getConfig_ok key (s : RS) fld s' :
  getConfig env key s = (Ok fld, s') →
  s' = s ∧ ∃ m v, fld = mkField key v ∧ map_on_disk s m ∧ MapGetKV m key = Ok v.
Proof.
  unfold getConfig. intros (v & s1 & Hg%of_repo_ok & Hr)%bind_ok. injection Hr as <- <-.
  apply GetConfigKey_ok in Hg as [-> (m & Hm & Hv)]. eauto 10.
Qed.

Lemma with_repo_ok {A} root (c : M RS CmdErr A) w a w' :
  with_repo env X root c w = (Ok a, w') →
  ∃ r w1 s', open env X root w = (Ok r, w1) ∧ c (mkRS w1 r) = (Ok a, s') ∧ w' = rw (Close env s').2.
Proof.
  unfold with_repo. destruct (open env X root w) as [[r|e] w1]; [|done].
  destruct (c (mkRS w1 r)) as [res s'] eqn:Hc. intros [= -> <-]. eauto 10.
Qed.

End secrecy.

(** C35.  What `ipfs config` prints holds no secret: a command that succeeds, to get or
    to set, prints the value the key has in the configuration file, and that value
    is the same in every file that differs from it in the private key and in the
    API keys of the pinning services only. *)
Theorem ConfigCmd_hides_secrets env X {C} `{ConfigPkg C, ConfigFields C} cfgRoot json isbool key value w fld w' :
  ConfigCmd env X cfgRoot json isbool key value w = (Ok fld, w') →
  ∃ root r w1 (s' : RS (C := C)) m,
    cfgRoot = Ok root ∧ open env X root w = (Ok r, w1) ∧ w' = rw (Close env s').2 ∧
    map_on_disk env s' m ∧ fKey fld = key ∧ MapGetKV m key = Ok (fValue fld) ∧
    ∀ m', same_but exactly secrets (JObj m) (JObj m') → MapGetKV m' key = Ok (fValue fld).
Proof.
  unfold ConfigCmd. destruct (decide _) as [|Hkey]; [done|].
  destruct (matchesGlobPrefix key PinningConcealSelector) eqn:Hglob; [done|].
  intros (root & w0 & [-> ->]%mlift_ok & Hr)%bind_ok.
  apply with_repo_ok in Hr as (r & w1 & s' & Ho & Hc & ->).
  assert (∃ s1, getConfig env key s1 = (Ok fld, s')) as [s1 Hg].
  { destruct value; [|eauto]. apply bind_ok in Hc as (v & s1 & _ & Hc). unfold setConfig in Hc.
    apply bind_ok in Hc as (? & s2 & _ & Hc). eauto. }
  apply getConfig_ok in Hg as [-> (m & v & -> & Hm & Hv)].
  exists root, r, w1, s1, m. split_and!; try done. intros m' Hs. simpl in *.
  unfold MapGetKV in *. eapply get_parts_same; [exact Hs| |done]. by apply unblocked_off_secrets.
Qed.

Lemma configShow_run env {C} `{ConfigPkg C, ConfigFields C} root f c m w :
  Filename env root = Ok f → fault env "read" f = None →
  wfs w !! f = Some (NFile c) → Decode_map c = Some (Some m) →
  configShowCmd env (Ok root) w = (Ok (scrubbed PinningConcealSelector (scrubbed [IdentityTag; PrivKeyTag] m)), w).
Proof.
  intros Hf Hfl Hc Hd. unfold configShowCmd, ReadFile, os_try, of_repo, on_fs. go_run. rewrite Hf, Hfl, Hc.
  unfold some_or. rewrite Hd. go_run. unfold scrubValue, scrubOptionalValue.
  rewrite !scrubMapInternal_total. by destruct w.
Qed.

(** `ipfs config show` prints everything but the secrets: it prints the same for
    two files that differ in the private key and the API keys of the pinning
    services only, in whatever case their names are written, and every value that
    is not on the way to a secret is printed as the file has it. *)
Theorem configShow_hides_secrets env {C} `{ConfigPkg C, ConfigFields C} root f c m w :
  Filename env root = Ok f → fault env "read" f = None →
  wfs w !! f = Some (NFile c) → Decode_map c = Some (Some m) →
  ∃ n, configShowCmd env (Ok root) w = (Ok n, w) ∧
    (∀ c' m' w', wfs w' !! f = Some (NFile c') → Decode_map c' = Some (Some m') →
       same_but EqualFold secrets (JObj m) (JObj m') → configShowCmd env (Ok root) w' = (Ok n, w')) ∧
    ∀ key v, (∀ g, g ∈ secrets → matchesGlobPrefix key g = false) → MapGetKV m key = Ok v → MapGetKV n key = Ok v.
Proof.
  intros Hf Hfl Hc Hd. eexists. split_and!; [by eapply configShow_run| |].
  - intros c' m' w' Hc' Hd' Hs. rewrite (configShow_run env root f c' m') by done.
    do 2 apply scrubbed_same in Hs. apply same_but_nil in Hs; [|done].
    apply (f_equal (λ v, match v with JObj o => o | _ => ∅ end)) in Hs. by rewrite Hs.
  - intros key v Hg Hv. unfold MapGetKV in *.
    by do 2 (apply scrubbed_get; [apply Hg; set_solver|]).
Qed.

(** ** Profiles *)

(** A dry run of a profile does what opening and closing the repository does. *)
Theorem transformConfig_dry env X {C} `{ConfigPkg C, ConfigFields C} root temp (t : C → res CmdErr C) w :
  (transformConfig env X root temp t true w).2 =
    match open env X root w with
    | (Ok r, w1) => rw (Close env (mkRS w1 r)).2
    | (Err _, w1) => w1
    end.
Proof.
  unfold transformConfig, with_repo. destruct (open env X root w) as [[r|e] w1]; [|done].
  unfold of_repo, Config, unless_closed. go_run. cbn [rr].
  destruct (closed r); [done|]. unfold some_or. destruct (Clone (config r)); [|done]. go_run.
  by destruct (t c).
Qed.

(** ** Replacing the configuration *)

(** The loop gives every service of the old configuration its API back. *)
Lemma reapply_spec (l : list (string * RemotePinningService)) ns ns' :
  NoDup l.*1 → mfor l (λ e, reapply_service e.1 e.2) ns = (Ok (), ns') →
  (∀ name o, (name, o) ∈ l → ∃ n, ns !! name = Some n ∧ ns' !! name = Some (mkSvc (API o) (Policies n))) ∧
  ∀ name, name ∉ l.*1 → ns' !! name = ns !! name.
Proof.
  revert ns. induction l as [|[name o] l IH]; intros ns Hnd.
  { intros [= <-]. split; [|done]. intros ? ? []%not_elem_of_nil. }
  apply NoDup_cons in Hnd as [Hname Hnd]. cbn [mfor]. intros ([] & s1 & Hb & Hr)%bind_ok. cbn [fst snd] in *.
  unfold reapply_service in Hb. rewrite bind_unfold in Hb. simpl in Hb.
  destruct (ns !! name) as [n|] eqn:Hn; [|done]. destruct (decide _); [done|]. injection Hb as <-.
  destruct (IH _ Hnd Hr) as [H1 H2]. split.
  - intros name' o' [Heq|Hin]%elem_of_cons.
    + simplify_eq. exists n. split; [done|]. by rewrite H2, lookup_insert_eq.
    + destruct (H1 _ _ Hin) as (n' & Hn' & Hs). exists n'. split; [|done].
      rewrite lookup_insert_ne in Hn'; [done|]. intros <-. apply Hname.
      apply list_elem_of_fmap. by exists (name, o').
  - intros name' Hni. apply not_elem_of_cons in Hni as [Hne Hni]. rewrite H2 by done. by rewrite lookup_insert_ne.
Qed.

Lemma reapply_keeps_APIs (old ns ns' : gmap string RemotePinningService) l :
  l ≡ₚ map_to_list old → size ns = size old →
  mfor l (λ e, reapply_service e.1 e.2) ns = (Ok (), ns') →
  ∀ name, API <$> ns' !! name = API <$> old !! name ∧ Policies <$> ns' !! name = Policies <$> ns !! name.
Proof.
  intros Hl Hsz Hr. assert (NoDup l.*1) as Hnd by (rewrite Hl; apply NoDup_fst_map_to_list).
  destruct (reapply_spec _ _ _ Hnd Hr) as [H1 H2].
  assert (dom old = dom ns) as Hdom.
  { apply (set_subseteq_size_eq (C := gset string)); [|rewrite !size_dom; lia].
    intros name [o Ho]%elem_of_dom. destruct (H1 name o) as (n & Hn & _); [|apply elem_of_dom; eauto].
    rewrite Hl. by apply elem_of_map_to_list. }
  intros name. destruct (old !! name) as [o|] eqn:Ho.
  - destruct (H1 name o) as (n & Hn & Hs); [rewrite Hl; by apply elem_of_map_to_list|]. by rewrite Hs, Hn.
  - assert (ns !! name = None) as Hn by (apply not_elem_of_dom; rewrite <- Hdom; by apply not_elem_of_dom).
    rewrite H2, Hn; [done|]. rewrite Hl. intros ([n' o'] & -> & Hin)%list_elem_of_fmap.
    apply elem_of_map_to_list in Hin. simpl in Ho. congruence.
Qed.

Lemma SetConfig_ok env {C} `{ConfigPkg C} conf (s s' : RS (C := C)) :
  SetConfig env conf s = (Ok (), s') → config (rr s') = conf.
Proof.
  unfold SetConfig, setConfigUnsynced. intros Hr.
  repeat (apply bind_ok in Hr as (? & ? & _ & Hr)). by injection Hr as <-.
Qed.

Lemma services_ok env {C} `{ConfigPkg C, ConfigFields C} (s s' : RS (C := C)) old :
  mcatch (getRemotePinningServices env) (λ e, mthrow (FailedServices e)) s = (Ok old, s') →
  getRemotePinningServices env s = (Ok old, s) ∧ s' = s.
Proof.
  unfold mcatch. destruct (getRemotePinningServices env s) as [[o|] s1] eqn:Hg; [|done]. intros [= -> ->].
  enough (s' = s) as -> by done.
  unfold getRemotePinningServices in Hg. destruct (getConfig env RemoteServicesPath s) as [r s1] eqn:Hc.
  assert (s1 = s) as ->.
  { unfold getConfig, of_repo in Hc. rewrite bind_unfold in Hc. pose proof (GetConfigKey_same env RemoteServicesPath s).
    destruct (GetConfigKey env RemoteServicesPath s) as [[] ]; by injection Hc as _ <-. }
  destruct r as [fld|]; [|congruence]. destruct (fValue fld); try congruence.
  unfold some_or in Hg. destruct (Unmarshal_services m); by injection Hg.
Qed.

(** `ipfs config replace` cannot change a secret: when it succeeds the new
    configuration has the private key the old file had, and exactly the remote
    pinning services the old one had, each with its old endpoint and API key and
    with the policies of the new file. *)
Theorem replaceConfig_keeps_secrets env {C} `{ConfigPkg C, FieldLaws C} range decoded (s s' : RS (C := C)) :
  (∀ services, range services ≡ₚ map_to_list services) →
  replaceConfig env range decoded s = (Ok (), s') →
  ∃ newCfg m k old,
    decoded = Some newCfg ∧ map_on_disk env s m ∧ MapGetKV m PrivKeySelector = Ok (JStr k) ∧
    getRemotePinningServices env s = (Ok old, s) ∧
    let cfg := config (rr s') in
    Identity_PrivKey cfg = k ∧
    ∀ name, API <$> RemoteServices cfg !! name = API <$> old !! name ∧
            Policies <$> RemoteServices cfg !! name = Policies <$> RemoteServices (set_PrivKey k newCfg) !! name.
Proof.
  intros Hrange. unfold replaceConfig. intros (newCfg & s0 & Hd & Hr)%bind_ok.
  destruct decoded as [c|]; [|done]. injection Hd as -> <-.
  destruct (decide _); [done|].
  apply bind_ok in Hr as (keyF & s1 & Hk & Hr). unfold mcatch in Hk.
  destruct (getConfig env PrivKeySelector s) as [[fld|] s2] eqn:Hg; [|done]. injection Hk as <- <-.
  apply getConfig_ok in Hg as [-> (m & v & -> & Hm & Hv)].
  apply bind_ok in Hr as (k & s3 & Hk & Hr). simpl in Hk. destruct v as [| | |str| |]; try done.
  injection Hk as <- <-. cbv zeta in Hr.
  apply bind_ok in Hr as (old & s4 & Ho & Hr).
  assert (getRemotePinningServices env s = (Ok old, s) ∧ s4 = s) as [Hold ->] by (by eapply services_ok).
  destruct (decide _) as [|Hsz]; [done|]. apply dec_stable in Hsz.
  destruct (mfor _ _ _) as [r services] eqn:Hloop. apply bind_ok in Hr as ([] & s5 & [-> ->]%mlift_ok & Hr).
  apply of_repo_ok in Hr. apply SetConfig_ok in Hr.
  exists newCfg, m, str, old. cbv zeta. rewrite Hr. do 4 (split; [done|]).
  split; [by rewrite PrivKey_of_services, get_set_PrivKey|].
  rewrite get_set_services. eapply reapply_keeps_APIs; [apply Hrange|exact Hsz|exact Hloop].
Qed.

Lemma sb_insert sel gs k v v' m m' :
  same_but sel gs (JObj m) (JObj m') → same_but sel (under sel k gs) v v' →
  same_but sel gs (JObj (<[k := v]> m)) (JObj (<[k := v']> m')).
Proof.
  intros Hm Hv. assert ((∀ q, is_Some (m !! q) ↔ is_Some (m' !! q)) ∧
    ∀ q u u', m !! q = Some u → m' !! q = Some u' → same_but sel (under sel q gs) u u') as [Hd Hk].
  { inversion Hm; subst; [|done]. split; [done|]. intros q u u' H1 H2. simplify_eq. apply sb_eq. }
  apply sb_obj; intros q; destruct (decide (q = k)) as [->|].
  - rewrite !lookup_insert_eq. split; eauto.
  - rewrite !lookup_insert_ne by done. apply Hd.
  - intros u u'. rewrite !lookup_insert_eq. by intros [= <-] [= <-].
  - intros u u'. rewrite !lookup_insert_ne by done. apply Hk.
Qed.

Lemma sb_single sel gs k v v' :
  same_but sel (under sel k gs) v v' → same_but sel gs (JObj {[k := v]}) (JObj {[k := v']}).
Proof. intros. rewrite <- !insert_empty. apply sb_insert; [apply sb_eq|done]. Qed.

(** ** A small configuration with both kinds of secret

    A file's content names the private key; the API key of its pinning service
    is derived from it. *)

Module ConfigExample.

Record Conf := mkConf { pk : string; services : gmap string RemotePinningService }.

Definition svc_json (apikey : string) : JVal :=
  JObj {["API" := JObj {["Endpoint" := JStr "https://pin"; "Key" := JStr apikey]}]}.

Definition doc (k : string) : gmap string JVal :=
  {["Identity" := JObj {["PeerID" := JStr "12D3"; "PrivKey" := JStr k]};
    "Pinning" := JObj {["RemoteServices" := JObj {["svc" := svc_json ("api-" +:+ k)]}]}]}.

Definition pk_of (m : gmap string JVal) : string :=
  default "" (RepoExample.str_at "Identity" "PrivKey" m).

Definition svc_of (k : string) (policies : string) : gmap string RemotePinningService :=
  {["svc" := mkSvc (mkAPI "https://pin" ("api-" +:+ k)) policies]}.

Definition api_of (v : JVal) : option RemotePinningService :=
  match v with
  | JObj s => match RepoExample.str_at "API" "Endpoint" s, RepoExample.str_at "API" "Key" s with
              | Some e, Some k => Some (mkSvc (mkAPI e k) "")
              | _, _ => None
              end
  | _ => None
  end.

#[global] Instance conf_pkg : ConfigPkg Conf := {|
  Marshal_map m := pk_of m;
  Marshal_conf c := pk c;
  Decode_map s := Some (Some (doc s));
  Decode_conf s := Some (mkConf s (svc_of s ""));
  FromMap m := Some (mkConf (pk_of m) (svc_of (pk_of m) ""));
  ToMap c := Some (doc (pk c));
  Datastore_Type _ := ""; Datastore_Path _ := "";
  Datastore_Spec c := Some {["type" := JStr "mem"]};
  FilestoreEnabled _ := false; UrlstoreEnabled _ := false |}.

#[global] Instance conf_fields : ConfigFields Conf := {|
  Identity_PrivKey := pk;
  set_PrivKey k c := mkConf k (services c);
  RemoteServices := services;
  set_RemoteServices s c := mkConf (pk c) s;
  Clone := Some;
  Unmarshal_services m := Some (omap api_of m);
  Unmarshal_value s := Some (JStr s) |}.

#[global] Instance conf_fields_laws : FieldLaws Conf.
Proof. by split. Qed.

Ltac same_doc := repeat first
  [ apply sb_eq | apply sb_secret; by left | by apply sb_secret; set_solver
  | apply sb_insert | apply sb_single ].

(** The two documents differ in secrets only. *)
Lemma doc_same_fold k k' : same_but EqualFold secrets (JObj (doc k)) (JObj (doc k')).
Proof. same_doc. Qed.

Definition env : Env := RepoExample.env.
Definition X : RepoEnv := RepoExample.X.

(** The world after Init, and one whose file holds another key. *)
Definition w1 : W := (Init env X "/repo" (mkConf "secret" ∅) RepoExample.w0).2.
Definition w2 : W := mkW (<["/repo/config" := NFile "other"]> (wfs w1)) (locks w1) (open_ds w1).

Lemma peerid_public g : g ∈ secrets → matchesGlobPrefix "Identity.PeerID" g = false.
Proof.
  unfold secrets. intros Hg. repeat (apply elem_of_cons in Hg as [->|Hg]; [by vm_compute|]).
  by apply not_elem_of_nil in Hg.
Qed.

Lemma w2_file : wfs w2 !! "/repo/config" = Some (NFile "other").
Proof. unfold w2. cbn [wfs]. apply lookup_insert_eq. Qed.

Definition s0 : RS (C := Conf) :=
  mkRS (mkW {["/repo" := NDir; "/repo/config" := NFile "secret"]} ∅ ∅)
       (mkFSRepo false "/repo" (mkConf "secret" ∅) DMap None).

End ConfigExample.

Lemma ConfigCmd_hides_secrets_witness :
  ∃ fld w', ConfigCmd (C := ConfigExample.Conf) ConfigExample.env ConfigExample.X (Ok "/repo") false false
    "Identity.PeerID" None ConfigExample.w1 = (Ok fld, w') ∧ fKey fld = "Identity.PeerID".
Proof.
  destruct (ConfigCmd (C := ConfigExample.Conf) ConfigExample.env ConfigExample.X (Ok "/repo") false false
    "Identity.PeerID" None ConfigExample.w1) as [[fld|e] w'] eqn:Hr.
  - exists fld, w'. split; [reflexivity|].
    destruct (ConfigCmd_hides_secrets _ _ _ _ _ _ _ _ _ _ Hr)
      as (root & r & w1 & s' & m & _ & _ & _ & _ & Hk & _). exact Hk.
  - exfalso. apply (f_equal (is_err ∘ fst)) in Hr. vm_compute in Hr. discriminate Hr.
Defined.

Lemma configShow_hides_secrets_witness :
  ∃ n, configShowCmd (C := ConfigExample.Conf) ConfigExample.env (Ok "/repo") ConfigExample.w1 =
         (Ok n, ConfigExample.w1) ∧
       configShowCmd (C := ConfigExample.Conf) ConfigExample.env (Ok "/repo") ConfigExample.w2 =
         (Ok n, ConfigExample.w2) ∧
       MapGetKV n "Identity.PeerID" = Ok (JStr "12D3").
Proof.
  destruct (configShow_hides_secrets (C := ConfigExample.Conf) ConfigExample.env "/repo" "/repo/config" "secret"
    (ConfigExample.doc "secret") ConfigExample.w1 eq_refl eq_refl ltac:(by vm_compute) eq_refl)
    as (n & Hn & Hsame & Hkeep).
  exists n. split_and!; [exact Hn| |].
  - exact (Hsame "other" (ConfigExample.doc "other") _ ConfigExample.w2_file eq_refl
             (ConfigExample.doc_same_fold _ _)).
  - apply Hkeep; [apply ConfigExample.peerid_public|by vm_compute].
Defined.

Lemma replaceConfig_keeps_secrets_witness :
  ∃ s', replaceConfig ConfigExample.env map_to_list
          (Some (ConfigExample.mkConf "" {["svc" := mkSvc (mkAPI "" "") "auto"]})) ConfigExample.s0 = (Ok (), s') ∧
        Identity_PrivKey (config (rr s')) = "secret".
Proof.
  destruct (replaceConfig ConfigExample.env map_to_list _ ConfigExample.s0) as [r s'] eqn:Hr.
  assert (r = Ok ()) as -> by (apply (f_equal fst) in Hr; vm_compute in Hr; congruence).
  exists s'. split; [reflexivity|].
  destruct (replaceConfig_keeps_secrets _ map_to_list _ _ _ (λ _, reflexivity _) Hr)
    as (newCfg & m & k & old & _ & Hm & Hk & _ & -> & _).
  destruct Hm as (f & c & cfg & Hf & Hc & Hd & ->). vm_compute in Hf. injection Hf as <-.
  vm_compute in Hc. injection Hc as <-. injection Hd as <-. vm_compute in Hk. congruence.
Defined.
