(* ===== verification/Bootstrap.v ===== *)
(** * Bootstrapping (src/core/bootstrap/bootstrap.go, src/core/commands/bootstrap.go)

    A node keeps a minimum of connections open by dialling some of the bootstrap
    peers of its configuration at intervals; the bootstrap commands edit the list
    of those peers.  Module [Node] models the rounds and the goroutines around
    them, module [Cmd] the commands, over the repository of [FsRepo]. *)

From Stdlib Require Import ZArith Ascii String.
From stdpp Require Import base gmap sets list strings relations.
From S2P Require Import Prelude GoStrings ConfigKV GoFS Datastores Migrations FsRepo ConfigCmd.

(** peer.AddrInfo *)
Record AddrInfo (Maddr : Type) := mkAI { ID : string; Addrs : list Maddr }.
Arguments mkAI {Maddr}. Arguments ID {Maddr}. Arguments Addrs {Maddr}.

Module Node.
Section node.
Context {Maddr : Type}.
Local Abbreviation Peer := (AddrInfo Maddr).

(** BootstrapConfig, less the durations *)
Record BootstrapConfig := mkConfig { MinPeerThreshold : Z; BootstrapPeers : list Peer }.

(** BootstrapConfigWithPeers, DefaultBootstrapConfig *)
Definition BootstrapConfigWithPeers (pis : list Peer) : BootstrapConfig := mkConfig 4 pis.

(** The host during a round: the peers connected, what a dial gives, and the
    order in which the dials that failed report. *)
Record Host := mkHost {
  Peers : list string;
  Connectedness : string → bool;
  Connect : Peer → option string;
  arrival : list string → list string;
}.

(** What the network and the peerstore see of a round. *)
Inductive BErr := ErrNotEnoughBootstrapPeers | FailedToBootstrap (err : option string).

(** rand.Perm is a parameter *)
Context (Perm : nat → list nat).

Definition randomSubsetOfPeers (l : list Peer) (max : Z) : list Peer :=
  let max := if (max >? Z.of_nat (length l))%Z then Z.of_nat (length l) else max in
  omap (λ val, l !! val) (take (Z.to_nat max) (Perm (length l))).

(** bootstrapConnect: the result and the peers dialled, whose addresses are added
    to the peerstore; [range errs] leaves the last error in [err]. *)
Definition bootstrapConnect (ph : Host) (peers : list Peer) : res BErr unit * list Peer :=
  match peers with
  | [] => (Err ErrNotEnoughBootstrapPeers, [])
  | _ =>
      let errs := arrival ph (omap (Connect ph) peers) in
      (if decide (length errs = length peers) then Err (FailedToBootstrap (last errs)) else Ok (), peers)
  end.

Definition bootstrapRound (host : Host) (cfg : BootstrapConfig) : res BErr unit * list Peer :=
  let connected := Z.of_nat (length (Peers host)) in
  if (connected >=? MinPeerThreshold cfg)%Z then (Ok (), [])
  else
    let numToDial := (MinPeerThreshold cfg - connected)%Z in
    let notConnected := filter (λ p, Connectedness host (ID p) = false) (BootstrapPeers cfg) in
    if decide (length notConnected < 1) then (Err ErrNotEnoughBootstrapPeers, [])
    else bootstrapConnect host (randomSubsetOfPeers notConnected numToDial).

Context (Perm_perm : ∀ n, Perm n ≡ₚ seq 0 n).

(** Picking by distinct indices in range gives a sublist up to order. *)
Lemma pick_perm (l : list Peer) js : js ≡ₚ seq 0 (length l) → omap (λ i, l !! i) js ≡ₚ l.
Proof.
  intros ->. clear. induction l as [|x l IH] using rev_ind; [done|].
  rewrite length_app, seq_app, omap_app. simpl.
  rewrite list_lookup_middle by done. simpl. apply Permutation_app_tail. etrans; [|exact IH].
  erewrite list_omap_ext; [reflexivity|]. apply Forall_Forall2_diag, Forall_forall. intros i Hi%elem_of_seq.
  rewrite lookup_app_l by lia. done.
Qed.

Lemma pick_length (l : list Peer) js : Forall (λ i, i < length l) js → length (omap (λ i, l !! i) js) = length js.
Proof.
  induction 1 as [|i js Hi _ IH]; [done|]. simpl. destruct (lookup_lt_is_Some_2 l i Hi) as [x ->]. simpl. f_equal. exact IH.
Qed.

(** The subset has the number of peers asked for, or all there are, and with
    those left out it makes up the list. *)
Lemma randomSubset_spec l max :
  (0 ≤ max)%Z →
  length (randomSubsetOfPeers l max) = Nat.min (Z.to_nat max) (length l) ∧
  ∃ rest, randomSubsetOfPeers l max ++ rest ≡ₚ l.
Proof.
  intros Hmax. unfold randomSubsetOfPeers. set (k := Z.to_nat _).
  assert (k = Nat.min (Z.to_nat max) (length l)) as Hk by (unfold k; destruct (Z.gtb_spec max (Z.of_nat (length l))); lia).
  assert (length (Perm (length l)) = length l) as Hlen by (by rewrite Perm_perm, length_seq).
  split.
  - rewrite pick_length; [rewrite length_take; lia|]. apply Forall_forall. intros i Hi.
    assert (i ∈ Perm (length l)) as Hin by (eapply elem_of_take in Hi as (j & ? & ?); by eapply list_elem_of_lookup_2).
    rewrite Perm_perm in Hin. apply elem_of_seq in Hin. lia.
  - exists (omap (λ i, l !! i) (drop k (Perm (length l)))). rewrite <- omap_app, take_drop. by apply pick_perm.
Qed.

(** A round that runs. *)
Lemma bootstrapConnect_spec ph peers :
  (∀ l, arrival ph l ≡ₚ l) → peers ≠ [] →
  (bootstrapConnect ph peers).2 = peers ∧
  ((bootstrapConnect ph peers).1 = Ok () ↔ Exists (λ p, Connect ph p = None) peers).
Proof.
  intros Harr Hne. unfold bootstrapConnect. destruct peers as [|p0 ps0] eqn:Heq; [done|]. rewrite <- Heq.
  clear Heq Hne. split; [done|]. simpl.
  assert (length (arrival ph (omap (Connect ph) peers)) = length peers ↔ Forall (λ p, Connect ph p ≠ None) peers) as Hl.
  { rewrite Harr. clear. induction peers as [|p ps IH]; [by split; [constructor|]|].
    assert (length (omap (Connect ph) ps) ≤ length ps) as Hle
      by (clear; induction ps as [|q ps IH]; simpl; [lia|]; destruct (Connect ph q); simpl; unfold omap in IH; lia).
    rewrite Forall_cons, <- IH. unfold omap in *. simpl. destruct (Connect ph p); simpl.
    - split; [intros; split; [done|lia]|intros [_ ?]; lia].
    - split; [lia|naive_solver]. }
  rewrite Exists_exists. case_decide as Hd; split; try done.
  - intros (p & Hp & Hn). apply Hl in Hd. rewrite Forall_forall in Hd. by destruct (Hd p).
  - intros _. rewrite Hl in Hd. apply not_Forall_Exists in Hd; [|intros p; solve_decision].
    apply Exists_exists in Hd as (p & Hp & Hn). exists p. split; [done|]. by apply dec_stable.
Qed.

End node.

(** ** The goroutines of Bootstrap

    The supervisor runs one round at once and one at every tick, each in a
    goroutine that waits on [doneWithRound] before it ends.  Bootstrap starts the
    routing system meanwhile; goprocess.Close waits for the goroutines to end. *)

Inductive Worker := NotStarted | InRound | OnDone | Finished.
Inductive Main := Starting | Routing | Sending | ClosingChan | ClosingProc | Returned (ok : bool).

Record BS := mkBS { main : Main; first : Worker; tick : Worker; chan_closed : bool }.

(** [rt_ok]: whether rt.Bootstrap, if there is a routing system, succeeds. *)
Inductive step (rt_ok : bool) : BS → BS → Prop :=
  | st_go t c : step rt_ok (mkBS Starting NotStarted t c) (mkBS Routing InRound t c)
  | st_tick m f t c : t = NotStarted ∨ t = Finished → step rt_ok (mkBS m f t c) (mkBS m f InRound c)
  | st_round_first m t c : step rt_ok (mkBS m InRound t c) (mkBS m OnDone t c)
  | st_round_tick m f c : step rt_ok (mkBS m f InRound c) (mkBS m f OnDone c)
  | st_routed f t c : rt_ok = true → step rt_ok (mkBS Routing f t c) (mkBS Sending f t c)
  | st_route_err f t c : rt_ok = false → step rt_ok (mkBS Routing f t c) (mkBS ClosingProc f t c)
  | st_send_first t c : step rt_ok (mkBS Sending OnDone t c) (mkBS ClosingChan Finished t c)
  | st_send_tick f c : step rt_ok (mkBS Sending f OnDone c) (mkBS ClosingChan f Finished c)
  | st_close_chan f t c : step rt_ok (mkBS ClosingChan f t c) (mkBS (Returned true) f t true)
  | st_recv_first m t : step rt_ok (mkBS m OnDone t true) (mkBS m Finished t true)
  | st_recv_tick m f : step rt_ok (mkBS m f OnDone true) (mkBS m f Finished true)
  | st_closed t c : t = NotStarted ∨ t = Finished →
      step rt_ok (mkBS ClosingProc Finished t c) (mkBS (Returned false) Finished t c).

Definition init : BS := mkBS Starting NotStarted NotStarted false.

(** While the channel has not been used, the first round has not ended. *)
Definition unsent (rt_ok : bool) (s : BS) : Prop :=
  match main s with
  | Starting => first s = NotStarted ∧ chan_closed s = false
  | Routing | Sending => (first s = InRound ∨ first s = OnDone) ∧ chan_closed s = false
  | ClosingProc => (first s = InRound ∨ first s = OnDone) ∧ chan_closed s = false ∧ rt_ok = false
  | ClosingChan => rt_ok = true ∧ chan_closed s = false ∧ first s ≠ NotStarted
  | Returned ok => ok = true ∧ rt_ok = true ∧ chan_closed s = true ∧ first s ≠ NotStarted
  end ∧ (main s = Sending → rt_ok = true).

Lemma unsent_step rt_ok s s' : step rt_ok s s' → unsent rt_ok s → unsent rt_ok s'.
Proof. unfold unsent. destruct 1; simpl; try naive_solver; destruct m; naive_solver. Qed.

Lemma unsent_reachable rt_ok s : rtc (step rt_ok) init s → unsent rt_ok s.
Proof.
  assert (unsent rt_ok init) as H0 by done. revert H0. generalize init.
  induction 2 as [|s s1 s2 Hs _ IH]; [done|]. apply IH. by eapply unsent_step.
Qed.

(** From every state of a run in which routing starts, Bootstrap can return and
    every round can end. *)
Lemma workers_finish rt_ok f t :
  f ≠ NotStarted → rtc (step rt_ok) (mkBS (Returned true) f t true) (mkBS (Returned true) Finished Finished true).
Proof.
  intros Hf. trans (mkBS (Returned true) Finished t true).
  - destruct f; [done|..]; try reflexivity.
    + eapply rtc_l; [apply st_round_first|]. by eapply rtc_l; [apply st_recv_first|].
    + by eapply rtc_l; [apply st_recv_first|].
  - assert (rtc (step rt_ok) (mkBS (Returned true) Finished InRound true)
                             (mkBS (Returned true) Finished Finished true)) as Hround.
    { eapply rtc_l; [apply st_round_tick|]. by eapply rtc_l; [apply st_recv_tick|]. }
    destruct t; [|done| |done].
    + eapply rtc_l; [apply st_tick; by left|done].
    + by eapply rtc_l; [apply st_recv_tick|].
Qed.

Lemma sending_returns f t :
  f = InRound ∨ f = OnDone → ∃ t', rtc (step true) (mkBS Sending f t false) (mkBS (Returned true) Finished t' true).
Proof.
  intros Hf. exists t. trans (mkBS Sending OnDone t false).
  - destruct Hf as [-> | ->]; [|done]. eapply rtc_l; [apply st_round_first|done].
  - eapply rtc_l; [apply st_send_first|]. by eapply rtc_l; [apply st_close_chan|].
Qed.

(** Bootstrap terminates when the routing system starts: from every state it
    can reach, however rounds and ticks interleave, it can go on to return the
    running process, with no goroutine left waiting on the channel. *)
Theorem Bootstrap_returns s :
  rtc (step true) init s → rtc (step true) s (mkBS (Returned true) Finished Finished true).
Proof.
  intros Hs%unsent_reachable. destruct s as [m f t c].
  assert (∀ f t, f = InRound ∨ f = OnDone →
    rtc (step true) (mkBS Sending f t false) (mkBS (Returned true) Finished Finished true)) as Hsend.
  { intros f' t' Hf. destruct (sending_returns f' t' Hf) as [t'' Hr]. etrans; [exact Hr|]. by apply workers_finish. }
  destruct Hs as [Hm _]. destruct m; simpl in Hm.
  - destruct Hm as [-> ->]. eapply rtc_l; [apply st_go|]. eapply rtc_l; [by apply st_routed|]. apply Hsend. by left.
  - destruct Hm as [Hf ->]. eapply rtc_l; [by apply st_routed|]. by apply Hsend.
  - destruct Hm as [Hf ->]. by apply Hsend.
  - destruct Hm as (_ & -> & Hf). eapply rtc_l; [apply st_close_chan|]. by apply workers_finish.
  - naive_solver.
  - destruct Hm as (-> & _ & -> & Hf). by apply workers_finish.
Qed.

(** C39.  When the routing system fails to start, Bootstrap never returns the error:
    it waits for the first round's goroutine, which waits for a channel that only
    Bootstrap itself closes. *)
Theorem Bootstrap_hangs_on_routing_error s ok :
  rtc (step false) init s → main s ≠ Returned ok.
Proof.
  intros Hs%unsent_reachable Hm. unfold unsent in Hs. rewrite Hm in Hs. naive_solver.
Qed.

End Node.

(** A round dials only bootstrap peers that are not connected, each entry of the
    list at most once: none when there are enough connections, and otherwise as
    many as are missing to the threshold, or all of them.  It fails exactly when
    there was a candidate to need and no dial succeeded. *)
Theorem bootstrapRound_dials {Maddr} (Perm : nat → list nat) (host : Node.Host (Maddr := Maddr)) cfg :
  (∀ n, Perm n ≡ₚ seq 0 n) → (∀ l, Node.arrival host l ≡ₚ l) →
  let '(r, dialled) := Node.bootstrapRound Perm host cfg in
  let missing := (Node.MinPeerThreshold cfg - Z.of_nat (length (Node.Peers host)))%Z in
  let candidates := filter (λ p, Node.Connectedness host (ID p) = false) (Node.BootstrapPeers cfg) in
  length dialled = Nat.min (Z.to_nat missing) (length candidates) ∧
  (∃ rest, dialled ++ rest ≡ₚ candidates) ∧
  (r = Ok () ↔ (missing ≤ 0)%Z ∨ Exists (λ p, Node.Connect host p = None) dialled).
Proof.
  intros HP Harr. unfold Node.bootstrapRound. set (cands := filter _ _).
  destruct (Z.geb_spec (Z.of_nat (length (Node.Peers host))) (Node.MinPeerThreshold cfg)) as [Hge|Hlt].
  { split_and!; [simpl; lia|by exists cands|]. split; [left; lia|done]. }
  destruct (decide (length cands < 1)) as [Hn|Hn].
  { split_and!; [simpl; lia|by exists cands|]. split; [done|]. intros [|Hx]; [lia|by apply Exists_nil in Hx]. }
  set (missing := (Node.MinPeerThreshold cfg - _)%Z).
  destruct (Node.randomSubset_spec Perm HP cands missing) as [Hlen Hrest]; [unfold missing; lia|].
  set (sub := Node.randomSubsetOfPeers Perm cands missing) in *.
  assert (sub ≠ []) as Hne by (intros Hs; rewrite Hs in Hlen; unfold missing in Hlen; simpl in Hlen; lia).
  destruct (Node.bootstrapConnect_spec host sub Harr Hne) as [H2 H1].
  destruct (Node.bootstrapConnect host sub) as [r d]. simpl in *. subst d.
  split_and!; [done|done|]. rewrite H1. split; [by right|]. intros [|]; [unfold missing in *; lia|done].
Qed.

(** ** The bootstrap commands *)

(** The multiaddr library: an address may end in the component /p2p/<peer>. *)
Class MaddrPkg (Maddr : Type) := {
  maddr_eq_dec :: EqDecision Maddr;
  NewMultiaddr : string → option Maddr;
  maddr_String : Maddr → string;
  (** SplitLast: what is before the last component, and the peer if that is one *)
  SplitLast : Maddr → option Maddr * option (option string);
  (** addr.Encapsulate of the component of a peer; no address is the component alone *)
  Encapsulate : option Maddr → string → Maddr;
}.

Class BootstrapField (C : Type) := {
  cfg_Bootstrap : C → list string;
  set_Bootstrap : list string → C → C;
}.

Class BootstrapLaws (C : Type) `{BootstrapField C} : Prop := {
  get_set_Bootstrap l c : cfg_Bootstrap (set_Bootstrap l c) = l;
}.

Module Cmd.
Section cmd.
Context (env : Env) (X : RepoEnv) {C Maddr : Type} `{ConfigPkg C, BootstrapField C, MaddrPkg Maddr}.
Local Abbreviation RS := (RS (C := C)).
Local Abbreviation Peer := (AddrInfo Maddr).
(** The order in which Go visits a map of addresses by peer *)
Context (range : gmap string (list Maddr) → list (string * list Maddr)).

(** peer.SplitAddr *)
Definition SplitAddr (m : Maddr) : option Maddr * string :=
  match SplitLast m with
  | (transport, Some (Some id)) => (transport, id)
  | _ => (Some m, "")
  end.

(** peer.AddrInfosFromP2pAddrs *)
Fixpoint group_addrs (maddrs : list Maddr) (m : gmap string (list Maddr)) : res CmdErr (gmap string (list Maddr)) :=
  match maddrs with
  | [] => Ok m
  | maddr :: maddrs' =>
      let '(transport, id) := SplitAddr maddr in
      if decide (id = "") then Err (CMsg "invalid p2p multiaddr")
      else group_addrs maddrs' (<[id := default [] (m !! id) ++ option_list transport]> m)
  end.

Definition AddrInfosFromP2pAddrs (maddrs : list Maddr) : res CmdErr (list Peer) :=
  m ← group_addrs maddrs ∅; Ok ((λ '(id, addrs), mkAI id addrs) <$> range m).

(** config.ParseBootstrapPeers *)
Definition ParseBootstrapPeers (addrs : list string) : res CmdErr (list Peer) :=
  match mapM NewMultiaddr addrs with
  | Some maddrs => AddrInfosFromP2pAddrs maddrs
  | None => Err (CMsg "failed to parse multiaddr")
  end.

(** peer.AddrInfoToP2pAddrs, config.BootstrapPeerStrings *)
Definition AddrInfoToP2pAddrs (pi : Peer) : list Maddr :=
  match Addrs pi with
  | [] => [Encapsulate None (ID pi)]
  | addrs => (λ a, Encapsulate (Some a) (ID pi)) <$> addrs
  end.

Definition BootstrapPeerStrings (bps : list Peer) : list string :=
  bps ≫= λ pi, maddr_String <$> AddrInfoToP2pAddrs pi.

(** The checks bootstrapAdd makes of an address *)
Definition check_addr (p : string) : res CmdErr unit :=
  match NewMultiaddr p with
  | None => Err (CMsg "failed to parse multiaddr")
  | Some m =>
      match SplitLast m with
      | (tpt, Some (Some _)) =>
          match tpt with None => Err (CMsg ("bootstrap address without a transport: " +:+ p)) | Some _ => Ok () end
      | _ => Err (CMsg ("invalid bootstrap address: " +:+ p))
      end
  end.

Fixpoint check_addrs (peers : list string) : res CmdErr unit :=
  match peers with [] => Ok () | p :: ps => _ ← check_addr p; check_addrs ps end.

(** The loops of bootstrapAdd: addedMap, cfg.Bootstrap and addedList *)
Fixpoint add_new (peers : list string) (addedMap : gset string) (bootstrap addedList : list string)
    : gset string * list string * list string :=
  match peers with
  | [] => (addedMap, bootstrap, addedList)
  | s :: ps => if decide (s ∈ addedMap) then add_new ps addedMap bootstrap addedList
               else add_new ps ({[s]} ∪ addedMap) (bootstrap ++ [s]) (addedList ++ [s])
  end.

Fixpoint add_back (bpeers : list string) (addedMap : gset string) (bootstrap : list string) : list string :=
  match bpeers with
  | [] => bootstrap
  | s :: bs => if decide (s ∈ addedMap) then add_back bs addedMap bootstrap
               else add_back bs ({[s]} ∪ addedMap) (bootstrap ++ [s])
  end.

(** [cfg.Bootstrap = l]: [cfg] is the configuration the open repository holds. *)
Definition assign_Bootstrap (l : list string) : M RS CmdErr unit := mmodify (λ s,
  mkRS (rw s) (mkFSRepo (closed (rr s)) (path (rr s)) (set_Bootstrap l (config (rr s))) (ds (rr s)) (filemgr (rr s)))).

Definition save : M RS CmdErr unit := λ s, of_repo FromRepo (SetConfig env (config (rr s))) s.

Definition bootstrapAdd (peers : list string) : M RS CmdErr (list string) :=
  _ ← mlift (check_addrs peers);
  s ← mget;
  let bpeers := cfg_Bootstrap (config (rr s)) in
  let '(addedMap, bootstrap, addedList) := add_new peers ∅ [] [] in
  _ ← assign_Bootstrap (add_back bpeers addedMap bootstrap);
  _ ← save;
  mret addedList.

(** What bootstrapRemove does with one peer of the configuration *)
Definition remove_peer (toRemoveMap : gmap string (list Maddr)) (p : Peer) : list Peer * list Peer :=
  match toRemoveMap !! ID p with
  | None => ([p], [])
  | Some [] => ([], [p])
  | Some addrs =>
      let removedAddrs := filter (λ a, a ∈ addrs) (Addrs p) in
      let keptAddrs := filter (λ a, a ∉ addrs) (Addrs p) in
      (if decide (0 < length keptAddrs) then [mkAI (ID p) keptAddrs] else [],
       if decide (0 < length removedAddrs) then [mkAI (ID p) removedAddrs] else [])
  end.

Definition remove_map (toRemoveAddr : list Peer) : gmap string (list Maddr) :=
  foldl (λ m p, <[ID p := Addrs p]> m) ∅ toRemoveAddr.

Definition bootstrapRemove (toRemove : list string) : M RS CmdErr (list string) :=
  toRemoveAddr ← mlift (ParseBootstrapPeers toRemove);
  let toRemoveMap := remove_map toRemoveAddr in
  s ← mget;
  peers ← mlift (ParseBootstrapPeers (cfg_Bootstrap (config (rr s))));
  let keep := peers ≫= λ p, (remove_peer toRemoveMap p).1 in
  let removed := peers ≫= λ p, (remove_peer toRemoveMap p).2 in
  _ ← assign_Bootstrap (BootstrapPeerStrings keep);
  _ ← save;
  mret (BootstrapPeerStrings removed).

Definition bootstrapRemoveAll : M RS CmdErr (list string) :=
  s ← mget;
  removed ← mlift (ParseBootstrapPeers (cfg_Bootstrap (config (rr s))));
  _ ← assign_Bootstrap [];
  _ ← save;
  mret (BootstrapPeerStrings removed).

(** The commands: the open repository, its configuration, and one of the above *)
Definition with_config {A} (cfgRoot : res CmdErr string) (c : M RS CmdErr A) : M W CmdErr A :=
  root ← mlift cfgRoot;
  with_repo env X root (_ ← of_repo FromRepo Config; c).

Definition bootstrapAddCmd (DefaultBootstrapAddresses : list string) (cfgRoot : res CmdErr string) (deflt : bool)
    (args : res CmdErr (list string)) : M W CmdErr (list string) :=
  inputPeers ← (if deflt then mret DefaultBootstrapAddresses else mlift args);
  match inputPeers with
  | [] => mthrow (CMsg "no bootstrap peers to add")
  | _ => with_config cfgRoot (bootstrapAdd inputPeers)
  end.

Definition bootstrapAddDefaultCmd (DefaultBootstrapAddresses : list string) (cfgRoot : res CmdErr string)
    : M W CmdErr (list string) := with_config cfgRoot (bootstrapAdd DefaultBootstrapAddresses).

Definition bootstrapRemoveCmd (cfgRoot : res CmdErr string) (all : bool) (args : res CmdErr (list string))
    : M W CmdErr (list string) :=
  with_config cfgRoot (if all then bootstrapRemoveAll else toRemove ← mlift args; bootstrapRemove toRemove).

Definition bootstrapRemoveAllCmd (cfgRoot : res CmdErr string) : M W CmdErr (list string) :=
  with_config cfgRoot bootstrapRemoveAll.

Definition bootstrapListCmd (cfgRoot : res CmdErr string) : M W CmdErr (list string) :=
  with_config cfgRoot (
    s ← mget;
    peers ← mlift (ParseBootstrapPeers (cfg_Bootstrap (config (rr s))));
    mret (BootstrapPeerStrings peers)).

(** *** Adding *)

Lemma add_new_spec peers addedMap bootstrap addedList :
  add_new peers addedMap bootstrap addedList =
    (list_to_set peers ∪ addedMap, bootstrap ++ dedup_from addedMap peers, addedList ++ dedup_from addedMap peers).
Proof.
  revert addedMap bootstrap addedList. induction peers as [|s ps IH]; intros am b a; simpl.
  - rewrite !app_nil_r. f_equal. f_equal. set_solver.
  - case_decide; rewrite IH.
    + f_equal. f_equal. set_solver.
    + rewrite <- !app_assoc. f_equal. f_equal. set_solver.
Qed.

Lemma add_back_spec bpeers addedMap bootstrap :
  add_back bpeers addedMap bootstrap = bootstrap ++ dedup_from addedMap bpeers.
Proof.
  revert addedMap bootstrap. induction bpeers as [|s bs IH]; intros am b; simpl; [by rewrite app_nil_r|].
  case_decide; rewrite IH; [done|]. by rewrite <- app_assoc.
Qed.

Lemma dedup_from_app (seen : gset string) l1 l2 :
  dedup_from seen (l1 ++ l2) = dedup_from seen l1 ++ dedup_from (list_to_set l1 ∪ seen) l2.
Proof.
  revert seen. induction l1 as [|x l1 IH]; intros seen; simpl.
  - f_equal. set_solver.
  - case_decide; rewrite IH; simpl; [|f_equal]; f_equal; apply dedup_from_ext; set_solver.
Qed.

Lemma save_ok s a s' : save s = (Ok a, s') → config (rr s') = config (rr s).
Proof. unfold save. intros Hs%of_repo_ok. destruct a. by apply SetConfig_ok in Hs. Qed.

Lemma assign_ok l s a s' :
  assign_Bootstrap l s = (Ok a, s') → config (rr s') = set_Bootstrap l (config (rr s)).
Proof. by intros [= _ <-]. Qed.

Lemma bootstrapAdd_ok `{!BootstrapLaws C} peers (s s' : RS) added :
  bootstrapAdd peers s = (Ok added, s') →
  check_addrs peers = Ok () ∧ added = dedup_from ∅ peers ∧
  cfg_Bootstrap (config (rr s')) = dedup_from ∅ (peers ++ cfg_Bootstrap (config (rr s))).
Proof.
  unfold bootstrapAdd. intros ([] & s0 & [Hc ->]%mlift_ok & Hr)%bind_ok.
  apply bind_ok in Hr as (? & ? & Hg & Hr). injection Hg as <- <-.
  rewrite add_new_spec, add_back_spec in Hr. cbv beta iota zeta in Hr.
  apply bind_ok in Hr as ([] & s1 & Ha%assign_ok & Hr). apply bind_ok in Hr as ([] & s2 & Hs%save_ok & Hr).
  injection Hr as <- <-. split_and!; [done..|]. rewrite Hs, Ha, get_set_Bootstrap.
  by rewrite !app_nil_l, dedup_from_app.
Qed.

(** *** Removing *)

(** The list has the address [a] for the peer [id]. *)
Definition has (l : list Peer) (id : string) (a : Maddr) : Prop := ∃ p, p ∈ l ∧ ID p = id ∧ a ∈ Addrs p.

(** The arguments ask for the removal of the address [a] of the peer [id]: the
    peer is named without an address, or with this one. *)
Definition asked (l : list Peer) (id : string) (a : Maddr) : Prop :=
  ∃ t, t ∈ l ∧ ID t = id ∧ (Addrs t = [] ∨ a ∈ Addrs t).

Lemma remove_map_lookup l id addrs :
  NoDup (ID <$> l) → remove_map l !! id = Some addrs ↔ mkAI id addrs ∈ l.
Proof using Type.
  clear range.
  unfold remove_map. revert id addrs. induction l as [|p l IH] using rev_ind; intros id addrs Hnd.
  - simpl. rewrite lookup_empty. split; [done|by intros ?%not_elem_of_nil].
  - rewrite fmap_app in Hnd. apply NoDup_app in Hnd as (Hnd & Hdis & _).
    rewrite foldl_app. simpl. rewrite elem_of_app, list_elem_of_singleton.
    destruct (decide (ID p = id)) as [<-|Hne].
    + rewrite lookup_insert_eq. split; [intros [= <-]; right; by destruct p|].
      intros [Hin|Heq]; [|by destruct p; simplify_eq/=].
      exfalso. apply (Hdis (ID p)); [|set_solver]. apply list_elem_of_fmap. by exists (mkAI (ID p) addrs).
    + rewrite lookup_insert_ne, IH by done. split; [by left|]. intros [|Heq]; [done|]. by destruct p; simplify_eq/=.
Qed.

Lemma asked_lookup l id a :
  NoDup (ID <$> l) → asked l id a ↔ ∃ addrs, remove_map l !! id = Some addrs ∧ (addrs = [] ∨ a ∈ addrs).
Proof using Type.
  clear range.
  intros Hnd. unfold asked. split.
  - intros ([i ad] & Ht & <- & Ha). exists ad. by rewrite remove_map_lookup.
  - intros (ad & Hl & Ha). rewrite remove_map_lookup in Hl by done. by exists (mkAI id ad).
Qed.

(** Each address of a peer goes to one side. *)
Lemma remove_peer_spec m p id a :
  (has (remove_peer m p).1 id a ↔ has [p] id a ∧ ¬ ∃ addrs, m !! id = Some addrs ∧ (addrs = [] ∨ a ∈ addrs)) ∧
  (has (remove_peer m p).2 id a ↔ has [p] id a ∧ ∃ addrs, m !! id = Some addrs ∧ (addrs = [] ∨ a ∈ addrs)).
Proof using Type.
  clear range.
  assert (∀ q, has [q] id a ↔ ID q = id ∧ a ∈ Addrs q) as Hone
    by (intros q; unfold has; setoid_rewrite list_elem_of_singleton; naive_solver).
  assert (has [] id a ↔ False) as Hnone by (unfold has; set_solver).
  assert (∀ ad, has (if decide (0 < length ad) then [mkAI (ID p) ad] else []) id a ↔ ID p = id ∧ a ∈ ad) as Hif.
  { intros ad. case_decide; [by rewrite Hone|]. destruct ad; [|simpl in *; lia]. rewrite Hnone. set_solver. }
  unfold remove_peer. destruct (m !! ID p) as [[|a0 ad]|] eqn:Hm; simpl; rewrite ?Hif, ?Hnone, ?Hone, ?list_elem_of_filter.
  - naive_solver.
  - split; (split; [intros (<- & ? & ?); rewrite Hm; naive_solver|intros [[<- ?] Hx]; rewrite Hm in Hx; naive_solver]).
  - split; (split; [|naive_solver]); [|done]. intros [<- ?]. rewrite Hm. naive_solver.
Qed.

Lemma has_bind (l : list Peer) (f : Peer → list Peer) id a :
  has (l ≫= f) id a ↔ ∃ p, p ∈ l ∧ has (f p) id a.
Proof using Type.
  clear range. unfold has. setoid_rewrite list_elem_of_bind. naive_solver. Qed.

Lemma has_split (l : list Peer) id a : has l id a ↔ ∃ p, p ∈ l ∧ has [p] id a.
Proof using Type.
  clear range. unfold has. setoid_rewrite list_elem_of_singleton. naive_solver. Qed.

Context (range_perm : ∀ m, range m ≡ₚ map_to_list m).

Lemma Parse_NoDup addrs l : ParseBootstrapPeers addrs = Ok l → NoDup (ID <$> l).
Proof.
  unfold ParseBootstrapPeers. destruct (mapM _ _) as [maddrs|]; [|done].
  unfold AddrInfosFromP2pAddrs. destruct (group_addrs maddrs ∅) as [m|]; [|done]. intros [= <-].
  rewrite <- list_fmap_compose. erewrite list_fmap_ext; [rewrite range_perm; apply NoDup_fst_map_to_list|].
  by intros ? [].
Qed.

End cmd.
End Cmd.

(** `ipfs bootstrap add` checks every address before it changes anything; when
    it succeeds the list is the new addresses followed by the old ones, each once. *)
Theorem bootstrapAdd_spec env {C Maddr} `{ConfigPkg C, BootstrapLaws C, MaddrPkg Maddr} peers (s s' : RS (C := C)) r :
  Cmd.bootstrapAdd env peers s = (r, s') →
  (∀ e, Cmd.check_addrs peers = Err e → r = Err e ∧ s' = s) ∧
  ∀ added, r = Ok added →
    added = dedup_from ∅ peers ∧ NoDup (cfg_Bootstrap (config (rr s'))) ∧
    cfg_Bootstrap (config (rr s')) = dedup_from ∅ (peers ++ cfg_Bootstrap (config (rr s))).
Proof.
  intros Hr. split.
  - intros e He. unfold Cmd.bootstrapAdd in Hr. rewrite bind_unfold, He in Hr. by injection Hr as <- <-.
  - intros added ->. apply Cmd.bootstrapAdd_ok in Hr as (_ & -> & ->); [|done]. split_and!; [done| |done].
    apply NoDup_dedup_from.
Qed.

(** `ipfs bootstrap rm` removes exactly the addresses asked for: each address of
    the list is kept if it was not asked for and reported as removed if it was. *)
Theorem bootstrapRemove_exact env {C Maddr} `{ConfigPkg C, BootstrapLaws C, MaddrPkg Maddr} range toRemove
    (s s' : RS (C := C)) out :
  (∀ m, range m ≡ₚ map_to_list m) →
  Cmd.bootstrapRemove env range toRemove s = (Ok out, s') →
  ∃ args peers keep removed,
    Cmd.ParseBootstrapPeers range toRemove = Ok args ∧
    Cmd.ParseBootstrapPeers range (cfg_Bootstrap (config (rr s))) = Ok peers ∧
    cfg_Bootstrap (config (rr s')) = Cmd.BootstrapPeerStrings keep ∧ out = Cmd.BootstrapPeerStrings removed ∧
    ∀ id a, (Cmd.has keep id a ↔ Cmd.has peers id a ∧ ¬ Cmd.asked args id a) ∧
            (Cmd.has removed id a ↔ Cmd.has peers id a ∧ Cmd.asked args id a).
Proof.
  intros Hrange. unfold Cmd.bootstrapRemove. intros (args & s0 & [Hargs ->]%mlift_ok & Hr)%bind_ok. cbv zeta in Hr.
  apply bind_ok in Hr as (? & ? & Hg & Hr). injection Hg as <- <-.
  apply bind_ok in Hr as (peers & s1 & [Hpeers ->]%mlift_ok & Hr).
  apply bind_ok in Hr as ([] & s1 & Ha%Cmd.assign_ok & Hr). apply bind_ok in Hr as ([] & s2 & Hs%Cmd.save_ok & Hr).
  injection Hr as <- <-. do 4 eexists. split_and!; [done|done|by rewrite Hs, Ha, get_set_Bootstrap|done|].
  intros id a. rewrite Cmd.asked_lookup by (exact (Cmd.Parse_NoDup range Hrange _ _ Hargs)). rewrite !Cmd.has_bind, (Cmd.has_split peers).
  split; split.
  - intros (p & Hp & Hh). apply Cmd.remove_peer_spec in Hh. naive_solver.
  - intros [(p & Hp & Hh) Hn]. exists p. split; [done|]. by apply Cmd.remove_peer_spec.
  - intros (p & Hp & Hh). apply Cmd.remove_peer_spec in Hh. naive_solver.
  - intros [(p & Hp & Hh) Hn]. exists p. split; [done|]. by apply Cmd.remove_peer_spec.
Qed.

(** ** A small network and a list of peers *)

Module BootstrapExample.

(** An address is written transport@peer. *)
#[global] Instance maddr_pkg : MaddrPkg (string * string) := {|
  NewMultiaddr s := match Split s "@" with [t; id] => Some (t, id) | _ => None end;
  maddr_String m := m.1 +:+ "@" +:+ m.2;
  SplitLast m := (if decide (m.1 = "") then None else Some (m.1, ""),
                  Some (if decide (m.2 = "") then None else Some m.2));
  Encapsulate t id := (match t with Some t => t.1 | None => "" end, id) |}.

(** The configuration is the list. *)
#[global] Instance conf_pkg : ConfigPkg (list string) := {|
  Marshal_map _ := "{}"; Marshal_conf _ := "{}"; Decode_map _ := Some (Some ∅); Decode_conf _ := Some [];
  FromMap _ := Some []; ToMap _ := Some ∅; Datastore_Type _ := ""; Datastore_Path _ := "";
  Datastore_Spec _ := None; FilestoreEnabled _ := false; UrlstoreEnabled _ := false |}.

#[global] Instance conf_field : BootstrapField (list string) := {|
  cfg_Bootstrap l := l; set_Bootstrap l _ := l |}.

#[global] Instance conf_field_laws : BootstrapLaws (list string).
Proof. by split. Qed.

Definition s0 : RS (C := list string) :=
  mkRS (mkW {["/repo" := NDir; "/repo/config" := NFile "{}"]} ∅ ∅)
       (mkFSRepo false "/repo" ["tcp@A"; "udp@A"; "tcp@B"] DMap None).

Definition host : Node.Host (Maddr := string) :=
  Node.mkHost ["A"] (λ p, bool_decide (p = "A")) (λ p, if decide (ID p = "B") then None else Some "refused") id.

Definition cfg : Node.BootstrapConfig :=
  Node.BootstrapConfigWithPeers [mkAI "A" ["tcp"]; mkAI "B" ["tcp"]; mkAI "C" ["udp"]].

End BootstrapExample.

Lemma Bootstrap_returns_witness :
  rtc (Node.step true) Node.init (Node.mkBS (Node.Returned true) Node.Finished Node.Finished true).
Proof. apply (Node.Bootstrap_returns Node.init). reflexivity. Defined.

Lemma Bootstrap_hangs_on_routing_error_witness :
  let s := Node.mkBS Node.ClosingProc Node.OnDone Node.NotStarted false in
  rtc (Node.step false) Node.init s ∧ Node.main s ≠ Node.Returned false.
Proof.
  cbv zeta.
  assert (rtc (Node.step false) Node.init (Node.mkBS Node.ClosingProc Node.OnDone Node.NotStarted false)) as Hs.
  { eapply rtc_l; [apply Node.st_go|]. eapply rtc_l; [by apply Node.st_route_err|].
    by eapply rtc_l; [apply Node.st_round_first|]. }
  split; [exact Hs|]. apply (Node.Bootstrap_hangs_on_routing_error _ false Hs).
Defined.

Lemma bootstrapRound_dials_witness :
  Node.bootstrapRound (seq 0) BootstrapExample.host BootstrapExample.cfg =
    (Ok (), [mkAI "B" ["tcp"]; mkAI "C" ["udp"]]) ∧
  length (Node.bootstrapRound (seq 0) BootstrapExample.host BootstrapExample.cfg).2 = 2.
Proof.
  split; [by vm_compute|].
  pose proof (bootstrapRound_dials (seq 0) BootstrapExample.host BootstrapExample.cfg
    (λ _, reflexivity _) (λ _, reflexivity _)) as Hd.
  destruct (Node.bootstrapRound (seq 0) BootstrapExample.host BootstrapExample.cfg) as [r d].
  destruct Hd as (Hl & _). simpl in *. exact Hl.
Defined.

Lemma bootstrapAdd_spec_witness :
  ∃ s', Cmd.bootstrapAdd (Maddr := string * string) RepoExample.env ["tcp@C"; "tcp@A"; "tcp@C"] BootstrapExample.s0 =
          (Ok ["tcp@C"; "tcp@A"], s') ∧
        cfg_Bootstrap (config (rr s')) = ["tcp@C"; "tcp@A"; "udp@A"; "tcp@B"].
Proof.
  destruct (Cmd.bootstrapAdd (Maddr := string * string) RepoExample.env ["tcp@C"; "tcp@A"; "tcp@C"]
    BootstrapExample.s0) as [r s'] eqn:Hr.
  assert (r = Ok ["tcp@C"; "tcp@A"]) as -> by (apply (f_equal fst) in Hr; vm_compute in Hr; congruence).
  exists s'. split; [reflexivity|].
  destruct (proj2 (bootstrapAdd_spec _ _ _ _ _ Hr) _ eq_refl) as (_ & _ & ->). by vm_compute.
Defined.

Lemma bootstrapRemove_exact_witness :
  ∃ s', Cmd.bootstrapRemove RepoExample.env map_to_list ["tcp@A"; "@B"] BootstrapExample.s0 =
          (Ok ["tcp@A"; "tcp@B"], s') ∧ cfg_Bootstrap (config (rr s')) = ["udp@A"] ∧
        ∃ args peers keep removed : list (AddrInfo (string * string)),
          cfg_Bootstrap (config (rr s')) = Cmd.BootstrapPeerStrings keep ∧
          ∀ id a, (Cmd.has keep id a ↔ Cmd.has peers id a ∧ ¬ Cmd.asked args id a) ∧
                  (Cmd.has removed id a ↔ Cmd.has peers id a ∧ Cmd.asked args id a).
Proof.
  destruct (Cmd.bootstrapRemove RepoExample.env map_to_list ["tcp@A"; "@B"] BootstrapExample.s0) as [r s'] eqn:Hr.
  assert (r = Ok ["tcp@A"; "tcp@B"]) as -> by (apply (f_equal fst) in Hr; vm_compute in Hr; congruence).
  exists s'. split_and!; [reflexivity| |].
  - apply (f_equal (λ rs, cfg_Bootstrap (config (rr rs.2)))) in Hr. vm_compute in Hr. by vm_compute.
  - destruct (bootstrapRemove_exact _ map_to_list _ _ _ _ (λ _, reflexivity _) Hr)
      as (args & peers & keep & removed & _ & _ & Hk & _ & Hspec).
    exists args, peers, keep, removed. split; [exact Hk|exact Hspec].
Defined.
