(* ===== verification/Loader.v ===== *)
(** * The plugin loader (src/plugin/loader/loader.go)

    A loader takes plugins through phases: they are loaded, initialised, hooked
    into the subsystems, started and closed.  What a plugin's methods return is
    given with the plugin; the calls made are recorded in order. *)

From Stdlib Require Import ZArith Ascii String.
From stdpp Require Import base gmap sets list strings sorting.
From S2P Require Import Prelude GoStrings ConfigKV GoFS Datastores.

(** What a call returns: nil or an error *)
Abbreviation outcome := (option string).

(** plugin.Plugin and the interfaces it may implement besides *)
Record Plugin := mkPlugin {
  Name : string;
  Version : string;
  Init : outcome;
  IPLD : option outcome;
  Tracer : option outcome;
  DatastorePl : option (string * Handler);
  Daemon : option outcome;
  DaemonInternal : option outcome;
  Closer : option outcome;
}.

Inductive loaderState :=
  | Loading | Initializing | Initialized | Injecting | Injected
  | Starting | Started | Closing | Closed | Failed.

#[global] Instance loaderState_eq_dec : EqDecision loaderState.
Proof. solve_decision. Defined.

(** loaderState.String *)
Definition state_String (ls : loaderState) : string :=
  match ls with
  | Loading => "Loading" | Initializing => "Initializing" | Initialized => "Initialized"
  | Injecting => "Injecting" | Injected => "Injected" | Starting => "Starting"
  | Started => "Started" | Closing => "Closing" | Closed => "Closed" | Failed => "Failed"
  end.

(** Calls of plugins; a start that failed is [StartFailed]. *)
Inductive Event :=
  | EInit (p : Plugin) (config : JVal)
  | EInject (p : Plugin)
  | EStart (p : Plugin)
  | EStartFailed (p : Plugin)
  | EClose (p : Plugin).

(** config.Plugins.Plugins *)
Record PluginConfig := mkPluginConfig { Disabled : bool; Config : JVal }.

Record PluginLoader := mkLoader {
  state : loaderState;
  plugins : gmap string Plugin;
  started : list Plugin;
  config : gmap string PluginConfig;
  repo : string;
}.

(** The loader, the handlers registered in the process and the calls made *)
Record LS := mkLS { ld : PluginLoader; handlers : gmap string Handler; log : list Event }.

Abbreviation L := (M LS string).

Definition with_state (st : loaderState) (s : LS) : LS :=
  mkLS (mkLoader st (plugins (ld s)) (started (ld s)) (config (ld s)) (repo (ld s))) (handlers s) (log s).
Definition with_started (l : list Plugin) (s : LS) : LS :=
  mkLS (mkLoader (state (ld s)) (plugins (ld s)) l (config (ld s)) (repo (ld s))) (handlers s) (log s).
Definition logged (e : Event) (s : LS) : LS := mkLS (ld s) (handlers s) (log s ++ [e]).

Definition set_state (st : loaderState) : L unit := mmodify (with_state st).
Definition set_started (l : list Plugin) : L unit := mmodify (with_started l).
Definition call (e : Event) : L unit := mmodify (logged e).

Definition throw_if (o : outcome) : L unit := match o with None => mret () | Some e => mthrow e end.

(** [if err != nil { onerr; return err }] *)
Definition or_do (c : L unit) (onerr : L unit) : L unit := λ s,
  match c s with
  | (Ok _, s') => (Ok (), s')
  | (Err e, s') => (Err e, (onerr s').2)
  end.

Definition assertState (st : loaderState) : L unit := λ s,
  if decide (state (ld s) = st) then (Ok (), s)
  else (Err ("loader state must be " +:+ state_String st +:+ ", was " +:+ state_String (state (ld s))), s).

Definition transition (from to : loaderState) : L unit := _ ← assertState from; set_state to.

Definition plugin_config (s : LS) (name : string) : PluginConfig :=
  default (mkPluginConfig false JNull) (config (ld s) !! name).

Definition Load (pl : Plugin) : L unit :=
  _ ← assertState Loading;
  s ← mget;
  match plugins (ld s) !! Name pl with
  | Some ppl => mthrow ("plugin: " +:+ Name pl +:+ ", is duplicated in version: " +:+ Version ppl +:+
                        ", while trying to load dynamically: " +:+ Version pl)
  | None =>
      if Disabled (plugin_config s (Name pl)) then mret ()
      else mmodify (λ s, mkLS (mkLoader (state (ld s)) (<[Name pl := pl]> (plugins (ld s))) (started (ld s))
                                        (config (ld s)) (repo (ld s))) (handlers s) (log s))
  end.

(** An entry filepath.Walk visits *)
Inductive DirEntry :=
  | WalkErr (err : string)
  | SubDir (fi : string)
  | File (fi : string) (perm : Z).

(** loadDynamicPlugins: [stat] is what os.Stat of the directory gives, [walk] the
    entries in the order filepath.Walk visits them. *)
Fixpoint walk_plugins (loadPluginFunc : string → res string (list Plugin)) (walk : list DirEntry)
    (acc : list Plugin) : res string (list Plugin) :=
  match walk with
  | [] => Ok acc
  | WalkErr e :: _ => Err e
  | SubDir _ :: walk' => walk_plugins loadPluginFunc walk' acc
  | File fi perm :: walk' =>
      if (Z.land perm 73 =? 0)%Z then walk_plugins loadPluginFunc walk' acc
      else match loadPluginFunc fi with
           | Ok newPlugins => walk_plugins loadPluginFunc walk' (acc ++ newPlugins)
           | Err e => Err ("loading plugin " +:+ fi +:+ ": " +:+ e)
           end
  end.

Record PluginDir := mkDir {
  stat : res OSErr unit;
  walk : list DirEntry;
  loadPluginFunc : string → res string (list Plugin);
}.

Definition loadDynamicPlugins (d : PluginDir) : res string (list Plugin) :=
  match stat d with
  | Err ErrNotExist => Ok []
  | Err _ => Err "stat"
  | Ok _ => walk_plugins (loadPluginFunc d) (walk d) []
  end.

Definition LoadDirectory (d : PluginDir) : L unit :=
  _ ← assertState Loading;
  newPls ← mlift (loadDynamicPlugins d);
  mfor newPls Load.

(** NewPluginLoader; [cfg] is what loading the configuration file gives: nothing
    when there is no repository or it is not initialised. *)
Definition NewPluginLoader (repo : string) (cfg : res string (gmap string PluginConfig)) (preloadPlugins : list Plugin)
    (d : PluginDir) (handlers : gmap string Handler) : res string LS :=
  match (if decide (repo = "") then Ok ∅ else cfg) with
  | Err e => Err e
  | Ok cfg =>
      match (_ ← mfor preloadPlugins Load; LoadDirectory d) (mkLS (mkLoader Loading ∅ [] cfg repo) handlers []) with
      | (Ok _, s) => Ok s
      | (Err e, _) => Err e
      end
  end.

Section loader.
(** The order in which Go visits the plugins *)
Context (range : gmap string Plugin → list (string * Plugin)).

Definition Initialize : L unit :=
  _ ← transition Loading Initializing;
  s ← mget;
  _ ← mfor (range (plugins (ld s))) (λ '(name, p),
        _ ← call (EInit p (Config (plugin_config s name)));
        or_do (throw_if (Init p)) (set_state Failed));
  transition Initializing Initialized.

(** injectDatastorePlugin *)
Definition injectDatastorePlugin (name : string) (h : Handler) : L unit := λ s,
  match AddDatastoreConfigHandler name h (handlers s) with
  | Ok reg => (Ok (), mkLS (ld s) reg (log s))
  | Err _ => (Err ("already have a datastore named " +:+ name), s)
  end.

(** One of the interfaces a plugin may be hooked in through *)
Definition inject_as (o : option outcome) : L unit :=
  match o with Some o => or_do (throw_if o) (set_state Failed) | None => mret () end.

Definition inject_one (pl : Plugin) : L unit :=
  _ ← call (EInject pl);
  _ ← inject_as (IPLD pl);
  _ ← inject_as (Tracer pl);
  match DatastorePl pl with
  | Some (name, h) => or_do (injectDatastorePlugin name h) (set_state Failed)
  | None => mret ()
  end.

Definition Inject : L unit :=
  _ ← transition Initialized Injecting;
  s ← mget;
  _ ← mfor (range (plugins (ld s))) (λ '(_, pl), inject_one pl);
  transition Injecting Injected.

(** The loop of Close: every plugin that has a Close method; the errors *)
Fixpoint close_all (l : list Plugin) (errs : list string) : L (list string) :=
  match l with
  | [] => mret errs
  | pl :: l' =>
      match Closer pl with
      | Some o =>
          _ ← call (EClose pl);
          close_all l' (match o with
                        | Some e => errs ++ ["error closing plugin " +:+ Name pl +:+ ": " +:+ e]
                        | None => errs end)
      | None => close_all l' errs
      end
  end.

Definition Close : L unit :=
  s ← mget;
  if decide (state (ld s) = Closing ∨ state (ld s) = Failed ∨ state (ld s) = Closed) then mret ()
  else
    _ ← set_state Closing;
    let started := started (ld s) in
    _ ← set_started [];
    errs ← close_all started [];
    match errs with
    | [] => set_state Closed
    | _ => _ ← set_state Failed; mthrow (Join errs (String (Ascii.ascii_of_nat 10) ""))
    end.

(** One Start method of a plugin: on an error everything started is closed. *)
Definition start_with (pl : Plugin) (method : option outcome) : L unit :=
  match method with
  | None => mret ()
  | Some (Some err) => _ ← call (EStartFailed pl); or_do (mthrow err) Close
  | Some None =>
      _ ← call (EStart pl);
      s ← mget;
      set_started (started (ld s) ++ [pl])
  end.

(** Start; [api] is what building the core API gives. *)
Definition Start (api : outcome) : L unit :=
  _ ← transition Injected Starting;
  _ ← throw_if api;
  s ← mget;
  _ ← mfor (range (plugins (ld s))) (λ '(_, pl),
        _ ← start_with pl (Daemon pl);
        start_with pl (DaemonInternal pl));
  transition Starting Started.

(** The operations a program can call, in any order *)
Inductive Op :=
  | OLoad (pl : Plugin) | OLoadDirectory (d : PluginDir) | OInitialize | OInject
  | OStart (api : outcome) | OClose.

Definition do_op (o : Op) : L unit :=
  match o with
  | OLoad pl => Load pl | OLoadDirectory d => LoadDirectory d | OInitialize => Initialize
  | OInject => Inject | OStart api => Start api | OClose => Close
  end.

Fixpoint run (ops : list Op) (s : LS) : LS :=
  match ops with [] => s | o :: ops' => run ops' (do_op o s).2 end.

End loader.

(** ** Phases *)

Definition phase (e : Event) : nat :=
  match e with EInit _ _ => 1 | EInject _ => 2 | EStart _ | EStartFailed _ => 3 | EClose _ => 4 end.

(** The last phase that has begun in a state. *)
Definition last_phase (st : loaderState) : nat :=
  match st with
  | Loading => 0 | Initializing | Initialized => 1 | Injecting | Injected => 2
  | Starting | Started => 3 | Closing | Closed | Failed => 4
  end.

(** The log runs through the phases in order and has reached phase [k] at most. *)
Definition phased (k : nat) (l : list Event) : Prop := StronglySorted le (phase <$> l) ∧ Forall (λ e, phase e ≤ k) l.

Lemma phased_snoc k l e : phased k l → k ≤ phase e → phased (phase e) (l ++ [e]).
Proof.
  intros [Hs Hf] Hk. split.
  - rewrite fmap_app. apply StronglySorted_app_2; [|done|by repeat constructor].
    intros x1 x2 (e1 & -> & H1)%list_elem_of_fmap [->|[]%not_elem_of_nil]%elem_of_cons.
    rewrite Forall_forall in Hf. specialize (Hf e1 H1). simpl in Hf. lia.
  - apply Forall_app. split; [|by repeat constructor]. eapply Forall_impl; [exact Hf|]. simpl. lia.
Qed.

Lemma phased_le k k' l : phased k l → k ≤ k' → phased k' l.
Proof. intros [Hs Hf] Hk. split; [done|]. eapply Forall_impl; [exact Hf|]. simpl. lia. Qed.

(** The plugins started, and closed, that have a Close method. *)
Definition starts (l : list Event) : list Plugin :=
  omap (λ e, match e with EStart p => match Closer p with Some _ => Some p | None => None end | _ => None end) l.
Definition closes (l : list Event) : list Plugin := omap (λ e, match e with EClose p => Some p | _ => None end) l.
Definition closable (l : list Plugin) : list Plugin := filter (λ p, is_Some (Closer p)) l.

(** Before the start of the plugins nothing is running; when the loader is done
    nothing is running any more. *)
Definition idle (st : loaderState) : bool :=
  match st with Starting | Started | Closing => false | _ => true end.

(** Some plugin's start has been called. *)
Definition begun (l : list Event) : Prop := Exists (λ e, 3 ≤ phase e) l.

(** The states in which every plugin has been initialised. *)
Definition initialised (st : loaderState) : bool :=
  match st with Initialized | Injecting | Injected | Starting | Started => true | _ => false end.

Definition all_init (s : LS) : Prop :=
  ∀ name p, plugins (ld s) !! name = Some p → Init p = None ∧ ∃ c, EInit p c ∈ log s.

(** The invariant of a loader that is not inside a call. *)
Record loader_ok (s : LS) : Prop := mkLoaderOk {
  lo_phased : phased (last_phase (state (ld s))) (log s);
  lo_balance : starts (log s) = closes (log s) ++ closable (started (ld s));
  lo_idle : idle (state (ld s)) = true → started (ld s) = [];
  lo_init : initialised (state (ld s)) = true ∨ begun (log s) → all_init s;
}.

Lemma starts_snoc l e : starts (l ++ [e]) = starts l ++ starts [e].
Proof. unfold starts. by rewrite omap_app. Qed.
Lemma closes_snoc l e : closes (l ++ [e]) = closes l ++ closes [e].
Proof. unfold closes. by rewrite omap_app. Qed.
Lemma begun_snoc l e : begun (l ++ [e]) ↔ begun l ∨ 3 ≤ phase e.
Proof. unfold begun. rewrite Exists_app, Exists_cons, Exists_nil. tauto. Qed.

(** What no call but those of the phases can touch. *)
Lemma all_init_snoc s e : all_init s → all_init (logged e s).
Proof.
  intros Ha name p Hp. destruct (Ha name p Hp) as [Hi [c Hc]]. split; [done|]. exists c.
  apply elem_of_app. by left.
Qed.

(** ** The operations keep the invariant *)

Lemma phased_quiet k l : phased k l → k ≤ 2 → starts l = [] ∧ closes l = [] ∧ ¬ begun l.
Proof.
  intros [_ Hf] Hk. split_and!.
  - unfold starts. induction Hf as [|[] l He _ IH]; simpl in *; try done. lia.
  - unfold closes. induction Hf as [|[] l He _ IH]; simpl in *; try done. lia.
  - unfold begun. rewrite Exists_exists. intros (e & He & H3). rewrite Forall_forall in Hf.
    specialize (Hf e He). simpl in Hf. lia.
Qed.

(** Up to the injection nothing runs, and the phases are all there is to show. *)
Lemma ok_quiet s k :
  k ≤ 2 → k ≤ last_phase (state (ld s)) → phased k (log s) → started (ld s) = [] →
  (initialised (state (ld s)) = true → all_init s) → loader_ok s.
Proof.
  intros Hk Hl Hp Hs Hi. destruct (phased_quiet _ _ Hp Hk) as (H1 & H2 & H3). split.
  - by eapply phased_le.
  - by rewrite H1, H2, Hs.
  - done.
  - intros [?|?]; [auto|done].
Qed.

Lemma assertState_inv st s r s' :
  assertState st s = (r, s') → s' = s ∧ (∀ u, r = Ok u → state (ld s) = st).
Proof. unfold assertState. case_decide; intros [= <- <-]; done. Qed.

Lemma transition_inv from to s r s' :
  transition from to s = (r, s') →
  (∃ e, r = Err e ∧ s' = s) ∨ (r = Ok () ∧ state (ld s) = from ∧ s' = with_state to s).
Proof.
  unfold transition. rewrite bind_unfold. destruct (assertState from s) as [r1 s1] eqn:Ha.
  apply assertState_inv in Ha as [-> Hst]. destruct r1 as [[]|e]; [|intros [= <- <-]; left; eauto].
  intros [= <- <-]. right. split_and!; [done|by eapply Hst|done].
Qed.

Lemma or_do_inv c onerr s r s' :
  or_do c onerr s = (r, s') →
  (r = Ok () ∧ c s = (Ok (), s')) ∨ ∃ e s1, r = Err e ∧ c s = (Err e, s1) ∧ s' = (onerr s1).2.
Proof. unfold or_do. destruct (c s) as [[[]|e] s1]; intros [= <- <-]; [by left|right; eauto 10]. Qed.

Lemma throw_if_inv o s r s' : throw_if o s = (r, s') → s' = s ∧ (r = Ok () ↔ o = None).
Proof. destruct o; intros [= <- <-]; done. Qed.

Lemma Load_ok pl s r s' : Load pl s = (r, s') → loader_ok s → loader_ok s'.
Proof.
  unfold Load. rewrite bind_unfold. destruct (assertState Loading s) as [r1 s1] eqn:Ha.
  apply assertState_inv in Ha as [-> Hst]. destruct r1 as [u|]; [|by intros [= _ <-]].
  specialize (Hst _ eq_refl). rewrite bind_unfold. simpl.
  destruct (plugins (ld s) !! Name pl); [by intros [= _ <-]|].
  destruct (Disabled _); [by intros [= _ <-]|]. intros [= _ <-] Hok.
  destruct Hok as [Hp _ Hi _]. rewrite Hst in *. apply (ok_quiet _ 0); simpl; rewrite ?Hst; try done; [lia..|].
  by apply Hi.
Qed.

Lemma LoadDirectory_ok d s r s' : LoadDirectory d s = (r, s') → loader_ok s → loader_ok s'.
Proof.
  unfold LoadDirectory. rewrite bind_unfold. destruct (assertState Loading s) as [[[]|] s1] eqn:Ha;
    apply assertState_inv in Ha as [-> _]; [|by intros [= _ <-]].
  rewrite bind_unfold. unfold mlift. destruct (loadDynamicPlugins d); [|by intros [= _ <-]].
  intros Hr Hok. eapply (mfor_inv loader_ok); [|done|exact Hr]. intros. by eapply Load_ok.
Qed.

Section ops.
Context (range : gmap string Plugin → list (string * Plugin)) (range_perm : ∀ m, range m ≡ₚ map_to_list m).

(** A call and a check of its result, as every phase has them. *)
Lemma call_check e o s r s' :
  (_ ← call e; or_do (throw_if o) (set_state Failed)) s = (r, s') →
  (r = Ok () ∧ o = None ∧ s' = logged e s) ∨ ((∃ m, r = Err m) ∧ s' = with_state Failed (logged e s)).
Proof.
  rewrite bind_unfold. unfold call, mmodify. intros [[-> Hc]|(m & s1 & -> & Hc & ->)]%or_do_inv;
    apply throw_if_inv in Hc as [-> Hn]; [left; naive_solver|right; eauto].
Qed.

Lemma Initialize_ok s r s' : Initialize range s = (r, s') → loader_ok s → loader_ok s'.
Proof.
  unfold Initialize. rewrite bind_unfold. destruct (transition Loading Initializing s) as [r1 s1] eqn:Ht.
  apply transition_inv in Ht as [(e & -> & ->)|(-> & Hst & ->)]; [by intros [= _ <-]|].
  rewrite bind_unfold. cbv beta iota delta [mget]. rewrite bind_unfold.
  destruct (mfor _ _ _) as [r2 s2] eqn:Hloop. intros Hr [Hp _ Hi _]. rewrite Hst in *. specialize (Hi eq_refl).
  set (I := λ (done : list (string * Plugin)) (s2 : LS),
    ld s2 = ld (with_state Initializing s) ∧ phased 1 (log s2) ∧
    ∀ n p, (n, p) ∈ done → Init p = None ∧ ∃ c, EInit p c ∈ log s2).
  assert (match r2 with Ok _ => I (range (plugins (ld s))) s2 | Err _ => loader_ok s2 end) as HI.
  { eapply (mfor_rule I loader_ok); [| | |exact Hloop].
    - intros pre [n p] s3 s4 _ (Hld & Hph & Hdone) [(_ & Hn & ->)|([m [=]] & _)]%call_check. split_and!; [done| |].
      + by apply (phased_snoc 1 _ (EInit p _)).
      + intros n' p' [Hin|Heq%list_elem_of_singleton]%elem_of_app; simpl.
        * destruct (Hdone _ _ Hin) as [? [c ?]]. split; [done|]. exists c. apply elem_of_app. by left.
        * simplify_eq. split; [done|]. eexists. apply elem_of_app. right. by apply list_elem_of_singleton.
    - intros pre [n p] s3 m s4 _ (Hld & Hph & Hdone) [([=] & _)|(_ & ->)]%call_check.
      apply (ok_quiet _ 1); simpl; [lia..| |by rewrite Hld|done]. by apply (phased_snoc 1 _ (EInit p _)).
    - split_and!; [done| |by intros ? ? ?%not_elem_of_nil]. by apply (phased_le 0); [|lia]. }
  destruct r2 as [[]|]; [|by injection Hr as _ <-]. destruct HI as (Hld & Hph & Hdone).
  apply transition_inv in Hr as [(e & -> & ->)|(-> & _ & ->)].
  - apply (ok_quiet _ 1); rewrite ?Hld; simpl; try done. lia.
  - apply (ok_quiet _ 1); simpl; rewrite ?Hld; try done; [lia|]. intros _ n p Hn. apply (Hdone n).
    rewrite range_perm. apply elem_of_map_to_list. simpl in Hn. by rewrite Hld in Hn.
Qed.

Lemma or_failed_inv c s r s' :
  or_do c (set_state Failed) s = (r, s') →
  (∀ r1 s1, c s = (r1, s1) → ld s1 = ld s ∧ log s1 = log s) →
  log s' = log s ∧ ((r = Ok () ∧ ld s' = ld s) ∨ ((∃ m, r = Err m) ∧ ld s' = ld (with_state Failed s))).
Proof.
  intros [[-> Hc]|(m & s1 & -> & Hc & ->)]%or_do_inv Hs; destruct (Hs _ _ Hc) as [H1 H2]; simpl.
  - split; [done|]. by left.
  - split; [done|]. right. rewrite H1. eauto.
Qed.

Lemma inject_one_inv pl s r s' :
  inject_one pl s = (r, s') →
  log s' = log s ++ [EInject pl] ∧
  ((r = Ok () ∧ ld s' = ld s) ∨ ((∃ m, r = Err m) ∧ ld s' = ld (with_state Failed s))).
Proof.
  unfold inject_one. rewrite bind_unfold. cbv beta iota delta [call mmodify].
  assert (∀ o s r s', inject_as o s = (r, s') →
    log s' = log s ∧ ((r = Ok () ∧ ld s' = ld s) ∨ ((∃ m, r = Err m) ∧ ld s' = ld (with_state Failed s)))) as Hstage.
  { intros [o|] s0 r0 s0'; [|intros [= <- <-]; split; [done|by left]]. intros Hr. eapply or_failed_inv; [exact Hr|].
    by intros r1 s1 [-> _]%throw_if_inv. }
  rewrite bind_unfold. destruct (inject_as (IPLD pl) _) as [r1 s1] eqn:H1.
  apply Hstage in H1 as [Hl1 H1]. destruct r1 as [[]|]; [|intros [= <- <-]; simpl in *; naive_solver].
  destruct H1 as [[_ Hd1]|[[? [=]] _]]. rewrite bind_unfold.
  destruct (inject_as (Tracer pl) _) as [r2 s2] eqn:H2.
  apply Hstage in H2 as [Hl2 H2]. rewrite Hl1 in Hl2. rewrite Hd1 in H2. unfold with_state in H2. rewrite ?Hd1 in H2.
  destruct r2 as [[]|]; [|intros [= <- <-]; simpl in *; naive_solver].
  destruct H2 as [[_ Hd2]|[[? [=]] _]].
  assert (ld s2 = ld s ∧ log s2 = log s ++ [EInject pl]) as [Hd Hl] by done. clear Hd1 Hl1 Hd2 Hl2.
  destruct (DatastorePl pl) as [[name h]|]; [|intros [= <- <-]; naive_solver].
  intros Hr. apply or_failed_inv in Hr as [Hl3 H3].
  - rewrite Hl3. split; [done|]. unfold with_state in *. simpl in *. rewrite Hd in H3. naive_solver.
  - intros r3 s3. unfold injectDatastorePlugin. destruct (AddDatastoreConfigHandler _ _ _); by intros [= <- <-].
Qed.

Lemma Inject_ok s r s' : Inject range s = (r, s') → loader_ok s → loader_ok s'.
Proof.
  unfold Inject. rewrite bind_unfold. destruct (transition Initialized Injecting s) as [r1 s1] eqn:Ht.
  apply transition_inv in Ht as [(e & -> & ->)|(-> & Hst & ->)]; [by intros [= _ <-]|].
  rewrite bind_unfold. cbv beta iota delta [mget]. rewrite bind_unfold.
  destruct (mfor _ _ _) as [r2 s2] eqn:Hloop. intros Hr [Hp _ Hi Ha]. rewrite Hst in *. specialize (Hi eq_refl).
  specialize (Ha (or_introl eq_refl)).
  set (I := λ (_ : list (string * Plugin)) (s2 : LS),
    ld s2 = ld (with_state Injecting s) ∧ phased 2 (log s2) ∧ log s `prefix_of` log s2).
  assert (∀ e l, log s `prefix_of` l → log s `prefix_of` l ++ [e]) as Hpre
    by (intros e l Hl; etrans; [exact Hl|by apply prefix_app_r]).
  assert (match r2 with Ok _ => I (range (plugins (ld s))) s2 | Err _ => loader_ok s2 end) as HI.
  { eapply (mfor_rule I loader_ok); [| | |exact Hloop].
    - intros pre [n p] s3 s4 _ (Hld & Hph & Hdone) [Hl [[_ Hd]|[[? [=]] _]]]%inject_one_inv.
      split_and!; [by rewrite Hd| |rewrite Hl; auto]. rewrite Hl. by apply (phased_snoc 2 _ (EInject p)).
    - intros pre [n p] s3 m s4 _ (Hld & Hph & Hdone) [Hl [[[=] _]|[_ Hd]]]%inject_one_inv.
      apply (ok_quiet _ 2); rewrite ?Hd; simpl; [lia..| |by rewrite Hld|done].
      rewrite Hl. by apply (phased_snoc 2 _ (EInject p)).
    - split_and!; [done| |done]. by apply (phased_le 1); [|lia]. }
  destruct r2 as [[]|]; [|by injection Hr as _ <-]. destruct HI as (Hld & Hph & [l Hl]).
  assert (∀ st, all_init (with_state st s2)) as Ha2.
  { intros st n p Hn. simpl in Hn. rewrite Hld in Hn. destruct (Ha n p Hn) as [? [c Hc]]. split; [done|].
    exists c. simpl. rewrite Hl. apply elem_of_app. by left. }
  apply transition_inv in Hr as [(e & -> & ->)|(-> & _ & ->)].
  - apply (ok_quiet _ 2); [done|by rewrite Hld|done|by rewrite Hld|]. intros _. by apply (Ha2 (state (ld s2))).
  - apply (ok_quiet _ 2); simpl; [done|done|done|by rewrite Hld|]. intros _. apply Ha2.
Qed.

(** Closing moves what runs to the log of what was closed. *)
Lemma close_all_inv l errs s :
  ∃ errs', close_all l errs s = (Ok errs', mkLS (ld s) (handlers s) (log s ++ (EClose <$> closable l))).
Proof.
  revert errs s. induction l as [|p l IH]; intros errs s; cbn [close_all].
  - exists errs. unfold closable. rewrite app_nil_r. by destruct s.
  - unfold closable in *. destruct (Closer p) as [o|] eqn:Hc.
    + rewrite filter_cons_True by (rewrite Hc; eauto). rewrite bind_unfold. cbv beta iota delta [call mmodify].
      destruct (IH (match o with Some e => errs ++ ["error closing plugin " +:+ Name p +:+ ": " +:+ e] | None => errs end)
                   (logged (EClose p) s)) as [errs' ->].
      exists errs'. simpl. by rewrite <- app_assoc.
    + rewrite filter_cons_False by (rewrite Hc; by intros []). apply IH.
Qed.

Lemma starts_begun l p : p ∈ starts l → begun l.
Proof.
  unfold starts, begun. rewrite list_elem_of_omap, Exists_exists. intros (e & He & Hp). exists e.
  by destruct e.
Qed.

Lemma closes_EClose l : closes (EClose <$> l) = l.
Proof. induction l as [|p l IH]; [done|]. unfold closes in *. simpl. f_equal. exact IH. Qed.

Lemma starts_EClose l : starts (EClose <$> l) = [].
Proof. induction l as [|p l IH]; [done|]. exact IH. Qed.

Lemma phased_closes k l ps : phased k l → k ≤ 4 → phased 4 (l ++ (EClose <$> ps)).
Proof.
  intros Hl Hk. revert k l Hl Hk. induction ps as [|p ps IH]; intros k l Hl Hk; simpl.
  - rewrite app_nil_r. by eapply phased_le.
  - rewrite (app_assoc l [EClose p] _ : l ++ EClose p :: _ = _).
    apply (IH 4); [|done]. by apply (phased_snoc k _ (EClose p)).
Qed.

(** What Close does from a state in which it does anything: whatever the errors,
    everything that runs is closed. *)
Lemma loader_Close_inv s r s' :
  Close s = (r, s') →
  (s' = s ∧ last_phase (state (ld s)) = 4) ∨
  (plugins (ld s') = plugins (ld s) ∧ started (ld s') = [] ∧
   (state (ld s') = Closed ∨ state (ld s') = Failed) ∧ log s' = log s ++ (EClose <$> closable (started (ld s)))).
Proof.
  unfold Close. rewrite bind_unfold. cbv beta iota delta [mget].
  case_decide as Hd; [intros [= _ <-]; left; split; [done|by destruct Hd as [->|[->| ->]]]|].
  rewrite bind_unfold. cbv beta iota delta [set_state mmodify]. rewrite bind_unfold.
  cbv beta iota zeta delta [set_started mmodify]. rewrite bind_unfold.
  destruct (close_all_inv (started (ld s)) [] (with_started [] (with_state Closing s))) as [errs ->].
  destruct errs; intros [= _ <-]; right; simpl; split_and!; auto.
Qed.

(** The invariant inside a call, where a start may be under way. *)
Lemma Close_ok s r s' :
  Close s = (r, s') →
  phased (last_phase (state (ld s))) (log s) → starts (log s) = closes (log s) ++ closable (started (ld s)) →
  (idle (state (ld s)) = true → started (ld s) = []) → (begun (log s) → all_init s) →
  loader_ok s'.
Proof.
  intros [[-> H4]|(Hpl & Hs & Hst & Hl)]%loader_Close_inv Hp Hb Hi Ha.
  - split; [done..|]. intros [Hx|]; [|auto]. by destruct (state (ld s)).
  - assert (starts (log s') = closes (log s')) as Heq.
    { rewrite Hl. unfold starts, closes. rewrite !omap_app. fold (starts (log s)) (closes (log s)).
      fold (starts (EClose <$> closable (started (ld s)))) (closes (EClose <$> closable (started (ld s)))).
      by rewrite starts_EClose, closes_EClose, app_nil_r. }
    split.
    + replace (last_phase (state (ld s'))) with 4 by (by destruct Hst as [->| ->]). rewrite Hl.
      eapply phased_closes; [exact Hp|]. destruct (state (ld s)); simpl; lia.
    + by rewrite Hs, Heq, app_nil_r.
    + done.
    + intros [Hx|Hx]; [by destruct Hst as [Hst|Hst]; rewrite Hst in Hx|].
      assert (all_init s) as Ha'.
      { apply Ha. unfold begun in *. rewrite Hl, Exists_app in Hx. destruct Hx as [|Hx]; [done|].
        destruct (closable (started (ld s))) as [|p ps] eqn:Hc; [by apply Exists_nil in Hx|].
        apply (starts_begun _ p). rewrite Hb. apply elem_of_app. right. left. }
      intros n p Hn. rewrite Hpl in Hn. destruct (Ha' n p Hn) as [? [c Hc]]. split; [done|]. exists c.
      rewrite Hl. apply elem_of_app. by left.
Qed.

(** The invariant while the plugins are being started. *)
Definition starting (s : LS) : Prop :=
  state (ld s) = Starting ∧ phased 3 (log s) ∧
  starts (log s) = closes (log s) ++ closable (started (ld s)) ∧ all_init s.

Lemma start_with_inv pl method s r s' :
  start_with pl method s = (r, s') → starting s → match r with Ok _ => starting s' | Err _ => loader_ok s' end.
Proof.
  intros Hr (Hst & Hp & Hb & Ha). unfold start_with in Hr. destruct method as [[err|]|].
  - rewrite bind_unfold in Hr. cbv beta iota delta [call mmodify] in Hr.
    apply or_do_inv in Hr as [[_ [=]]|(e & s1 & -> & [= _ <-] & ->)].
    destruct (Close (logged (EStartFailed pl) s)) as [rc sc] eqn:Hc. eapply Close_ok in Hc; [exact Hc|..]; simpl.
    + rewrite Hst. by apply (phased_snoc 3 _ (EStartFailed pl)).
    + by rewrite starts_snoc, closes_snoc, !app_nil_r.
    + by rewrite Hst.
    + intros _. by apply all_init_snoc.
  - rewrite bind_unfold in Hr. cbv beta iota delta [call mmodify] in Hr. injection Hr as <- <-.
    split_and!; simpl; [done|by apply (phased_snoc 3 _ (EStart pl))| |exact (all_init_snoc s (EStart pl) Ha)].
    rewrite starts_snoc, closes_snoc, app_nil_r, Hb, <- app_assoc. f_equal.
    unfold closable. rewrite filter_app. f_equal. unfold starts. simpl.
    destruct (Closer pl) eqn:Hc; [rewrite filter_cons_True by (rewrite Hc; eauto)|
      rewrite filter_cons_False by (rewrite Hc; by intros [])]; done.
  - by injection Hr as <- <-.
Qed.

Lemma Start_ok api s r s' : Start range api s = (r, s') → loader_ok s → loader_ok s'.
Proof.
  unfold Start. rewrite bind_unfold. destruct (transition Injected Starting s) as [r1 s1] eqn:Ht.
  apply transition_inv in Ht as [(e & -> & ->)|(-> & Hst & ->)]; [by intros [= _ <-]|].
  intros Hr [Hp Hb Hi Ha]. rewrite Hst in *. specialize (Hi eq_refl). specialize (Ha (or_introl eq_refl)).
  assert (starting (with_state Starting s)) as Hs0.
  { split_and!; simpl; [done|by apply (phased_le 2); [|lia]|done|done]. }
  assert (∀ st s3, starting s3 → st = Starting ∨ st = Started → loader_ok (with_state st s3)) as Hok.
  { intros st s3 (_ & Hp3 & Hb3 & Ha3) Hs. split; simpl; [by destruct Hs as [-> | ->]|done|by destruct Hs as [-> | ->]|done]. }
  rewrite bind_unfold in Hr. destruct (throw_if api (with_state Starting s)) as [r1 s1] eqn:Hapi.
  apply throw_if_inv in Hapi as [-> _]. destruct r1 as [[]|]; [|injection Hr as _ <-].
  2: { apply (Hok Starting _ Hs0). by left. }
  rewrite bind_unfold in Hr. cbv beta iota delta [mget] in Hr. rewrite bind_unfold in Hr.
  destruct (mfor _ _ _) as [r2 s2] eqn:Hloop.
  assert (match r2 with Ok _ => starting s2 | Err _ => loader_ok s2 end) as HI.
  { eapply (mfor_rule (λ _, starting) loader_ok); [| |exact Hs0|exact Hloop].
    - intros _ [n p] s3 s4 _ Hs3 ([] & s5 & H1 & H2)%bind_ok.
      apply start_with_inv in H1; [|done]. by apply start_with_inv in H2.
    - intros _ [n p] s3 e s4 _ Hs3 [H1|([] & s5 & H1 & H2)]%bind_err; apply start_with_inv in H1; try done.
      by apply start_with_inv in H2. }
  destruct r2 as [[]|]; [|by injection Hr as _ <-].
  apply transition_inv in Hr as [(e & -> & ->)|(-> & _ & ->)]; [|apply Hok; auto].
  replace s2 with (with_state Starting s2); [by apply Hok; [|left]|].
  destruct HI as [Hx _]. destruct s2 as [[] ]. simpl in *. by subst.
Qed.

Lemma run_ok ops s : loader_ok s → loader_ok (run range ops s).
Proof.
  revert s. induction ops as [|o ops IH]; intros s Hok; simpl; [done|]. apply IH.
  destruct (do_op range o s) as [r s'] eqn:Hr. simpl.
  destruct o; simpl in Hr;
    [by eapply Load_ok|by eapply LoadDirectory_ok|by eapply Initialize_ok|by eapply Inject_ok|by eapply Start_ok|].
  destruct Hok. eapply Close_ok; eauto.
Qed.

End ops.

Lemma new_loader_ok repo cfg pre d reg s : NewPluginLoader repo cfg pre d reg = Ok s → loader_ok s.
Proof.
  unfold NewPluginLoader. destruct (if decide _ then _ else _) as [c|]; [|done].
  set (s0 := mkLS _ reg []). assert (loader_ok s0) as H0 by (apply (ok_quiet _ 0); simpl; try done; [lia|by repeat constructor]).
  destruct ((_ ← mfor pre Load; LoadDirectory d) s0) as [[[]|] s1] eqn:Hr; [|done]. intros [= <-].
  apply bind_ok in Hr as ([] & s2 & H1 & H2). eapply LoadDirectory_ok; [exact H2|].
  eapply (mfor_inv loader_ok); [|exact H0|exact H1]. intros. by eapply Load_ok.
Qed.

(** C36.  Whatever calls a program makes of a loader and whatever they return: the
    plugins are called in the order of the phases; none is started before every
    plugin was initialised without error; each plugin that was started and has a
    Close method is closed at most once, in the order of the starts; and once the
    loader is closed or has failed, all of them have been closed. *)
Theorem loader_lifecycle range repo cfg pre d reg s0 ops :
  (∀ m, range m ≡ₚ map_to_list m) → NewPluginLoader repo cfg pre d reg = Ok s0 →
  let s := run range ops s0 in
  StronglySorted le (phase <$> log s) ∧
  (∀ p, EStart p ∈ log s → all_init s) ∧
  closes (log s) `prefix_of` starts (log s) ∧
  (state (ld s) = Closed ∨ state (ld s) = Failed → closes (log s) = starts (log s)).
Proof.
  intros Hr Hn s. assert (loader_ok s) as [Hp Hb Hi Ha] by (apply run_ok; [done|by eapply new_loader_ok]).
  split_and!.
  - by destruct Hp.
  - intros p Hin. apply Ha. right. apply Exists_exists. exists (EStart p). by split; [|simpl; lia].
  - rewrite Hb. by apply prefix_app_r.
  - intros Hst. rewrite Hb, Hi, app_nil_r; [done|]. by destruct Hst as [-> | ->].
Qed.

Module LoaderExample.

Definition good : Plugin := mkPlugin "good" "1" None None None None (Some None) None (Some None).
Definition bad : Plugin := mkPlugin "bad" "1" None (Some None) None None (Some (Some "no")) None (Some None).

Definition dir : PluginDir := mkDir (Err ErrNotExist) [] (λ _, Err "no").

Definition ops : list Op := [OInitialize; OInject; OStart None; OClose].

End LoaderExample.

Lemma loader_lifecycle_witness :
  ∃ s0, NewPluginLoader "" (Err "unused") [LoaderExample.good; LoaderExample.bad] LoaderExample.dir ∅ = Ok s0 ∧
    let s := run map_to_list LoaderExample.ops s0 in
    state (ld s) = Closed ∧ closes (log s) = starts (log s).
Proof.
  destruct (NewPluginLoader "" (Err "unused") [LoaderExample.good; LoaderExample.bad] LoaderExample.dir ∅)
    as [s0|] eqn:Hn; [|vm_compute in Hn; discriminate Hn].
  exists s0. split; [reflexivity|].
  assert (state (ld (run map_to_list LoaderExample.ops s0)) = Closed) as Hc
    by (vm_compute in Hn; injection Hn as <-; vm_compute; reflexivity).
  cbv zeta. split; [exact Hc|].
  apply (proj2 (proj2 (proj2 (loader_lifecycle map_to_list _ _ _ _ _ s0 LoaderExample.ops
    (λ _, reflexivity _) Hn)))). left. exact Hc.
Defined.
