(* ===== verification/Mfs.v ===== *)
(** * The mutable file system (vendor/github.com/ipfs/go-mfs)

    The files API works on a tree of directories and files whose nodes are UnixFS
    objects.  The tree here is what the tree of cached directory objects stands
    for, flushed or not: a *Directory is the path that leads to it, an operation
    on it acts on the tree at that path.  Storing a node and flushing can fail for
    reasons of the block store: [F] names those failures, and is arbitrary. *)

From Stdlib Require Import ZArith Ascii String.
From stdpp Require Import base gmap sets list strings.
From S2P Require Import Prelude GoStrings GoFS.

(** cid.Builder: the version of the CID and the hash function *)
Record Builder := mkBuilder { Version : Z; MhType : Z; MhLength : Z }.

#[global] Instance Builder_eq_dec : EqDecision Builder.
Proof. solve_decision. Defined.

(** An IPLD node as MFS sees it: a directory, a file with its bytes, or a node
    that MFS cannot open (not UnixFS, or of a type it does not know). *)
Inductive Tree :=
  | TDir (b : Builder) (entries : gmap string Tree)
  | TFile (b : Builder) (raw : bool) (data : string)
  | TOther (node : string).

(** Induction over a tree, with the hypothesis for every entry. *)
Fixpoint tree_size (t : Tree) : nat :=
  match t with
  | TDir _ entries => S (map_fold (λ _ c n, tree_size c + n) 0 entries)
  | _ => 1
  end.

Lemma tree_size_entry (es : gmap string Tree) n c : es !! n = Some c →
  tree_size c ≤ map_fold (λ _ c n, tree_size c + n) 0 es.
Proof. intros Hc. rewrite (map_fold_delete_L _ _ n c es); [lia|intros; lia|done]. Qed.

Lemma Tree_ind' (P : Tree → Prop) :
  (∀ b raw data, P (TFile b raw data)) → (∀ n, P (TOther n)) →
  (∀ b es, (∀ n c, es !! n = Some c → P c) → P (TDir b es)) → ∀ t, P t.
Proof.
  intros Hf Ho Hd. enough (∀ n t, tree_size t < n → P t) as H by (intros t; apply (H (S (tree_size t))); lia).
  induction n as [|n IH]; intros t Ht; [lia|]. destruct t as [b es| |]; [|done..].
  apply Hd. intros k c Hc. apply IH. simpl in Ht. apply tree_size_entry in Hc. lia.
Qed.

Inductive MErr := ErrNotExist | ErrExist | ErrDirExists | MMsg (msg : string).

#[global] Instance MErr_eq_dec : EqDecision MErr.
Proof. solve_decision. Defined.

(** path.Split of the standard library *)
Definition PathSplit (p : string) : string * string :=
  match rev (Split p slash) with
  | [] => ("", "")
  | f :: ds => (match ds with [] => "" | _ => Join (rev ds) slash +:+ slash end, f)
  end.

(** strings.Trim(s, "/") and strings.TrimRight(s, "/") *)
Fixpoint trim_slashes (s : string) : string :=
  match s with String "/" s' => trim_slashes s' | _ => s end.
Definition TrimRight (s : string) : string := srev (trim_slashes (srev s)).
Definition Trim (s : string) : string := TrimRight (trim_slashes s).

(** ** The tree *)

(** childUnsync: the child object of a name, if it can be opened *)
Definition child_of (entries : gmap string Tree) (name : string) : res MErr Tree :=
  match entries !! name with
  | Some (TOther _) => Err (MMsg "unrecognized node type in cache node")
  | Some t => Ok t
  | None => Err ErrNotExist
  end.

(** The loop of DirLookup *)
Fixpoint walk_parts (parts : list string) (cur : Tree) : res MErr Tree :=
  match parts with
  | [] => Ok cur
  | p :: parts' =>
      match cur with
      | TDir _ entries => child ← child_of entries p; walk_parts parts' child
      | _ => Err (MMsg ("cannot access " +:+ p +:+ ": Not a directory"))
      end
  end.

(** The components of a path as DirLookup takes them *)
Definition parts_of (pth : string) : list string :=
  let parts := Split (Trim pth) slash in
  if decide (parts = [""]) then [] else parts.

(** The tree with the node at [parts] replaced by what [f] makes of it *)
Fixpoint alter_at (parts : list string) (f : Tree → Tree) (t : Tree) : Tree :=
  match parts with
  | [] => f t
  | p :: parts' =>
      match t with
      | TDir b entries => TDir b (alter (alter_at parts' f) p entries)
      | _ => t
      end
  end.

Definition on_entries (f : gmap string Tree → gmap string Tree) (t : Tree) : Tree :=
  match t with TDir b entries => TDir b (f entries) | _ => t end.

(** A directory object: the path to it *)
Abbreviation Directory := (list string).

Section mfs.
Context (F : string → list string → option string).
Abbreviation MF := (M Tree MErr).

Definition may_fail (op : string) (at_ : list string) : MF unit :=
  match F op at_ with Some msg => mthrow (MMsg msg) | None => mret () end.

(** Lookup: the path of the object and the object *)
Definition Lookup (pth : string) : MF (list string * Tree) := λ t,
  match walk_parts (parts_of pth) t with
  | Ok n => (Ok (parts_of pth, n), t)
  | Err e => (Err e, t)
  end.

Definition lookupDir (pth : string) : MF Directory :=
  x ← Lookup pth;
  match x.2 with TDir _ _ => mret x.1 | _ => mthrow (MMsg (pth +:+ " is not a directory")) end.

(** Directory.Child *)
Definition Child (d : Directory) (name : string) : MF Tree := λ t,
  match walk_parts d t with
  | Ok (TDir _ entries) => (child_of entries name, t)
  | Ok _ => (Err (MMsg "Not a directory"), t)
  | Err e => (Err e, t)
  end.

(** Directory.AddChild: a child that can be opened is not replaced. *)
Definition AddChild (d : Directory) (name : string) (nd : Tree) : MF unit := λ t,
  match Child d name t with
  | (Ok _, _) => (Err ErrDirExists, t)
  | (Err _, _) =>
      (_ ← may_fail "add" (d ++ [name]);
       mmodify (alter_at d (on_entries (<[name := nd]>)))) t
  end.

(** Directory.Unlink, UnixFS RemoveChild *)
Definition Unlink (d : Directory) (name : string) : MF unit := λ t,
  match walk_parts d t with
  | Ok (TDir _ entries) =>
      match entries !! name with
      | Some _ => (Ok (), alter_at d (on_entries (delete name)) t)
      | None => (Err ErrNotExist, t)
      end
  | Ok _ => (Err (MMsg "Not a directory"), t)
  | Err e => (Err e, t)
  end.

(** Directory.Mkdir: the directory made, or the one that is there with ErrExist *)
Inductive Made := NewDir | DirExists | FileExists.

Definition DirMkdir (d : Directory) (name : string) : MF Made := λ t,
  match Child d name t with
  | (Ok (TDir _ _), _) => (Ok DirExists, t)
  | (Ok _, _) => (Ok FileExists, t)
  | (Err _, _) =>
      (_ ← may_fail "add" (d ++ [name]);
       _ ← mmodify (λ t, alter_at d (λ dir, match dir with
             | TDir b entries => TDir b (<[name := TDir b ∅]> entries) | _ => dir end) t);
       mret NewDir) t
  end.

(** Directory.SetCidBuilder *)
Definition SetCidBuilder (d : Directory) (b : Builder) : MF unit :=
  mmodify (alter_at d (λ dir, match dir with TDir _ entries => TDir b entries | _ => dir end)).

Definition set_builder (d : Directory) (builder : option Builder) : MF unit :=
  match builder with Some b => SetCidBuilder d b | None => mret () end.

(** Flush of a directory or file, and FlushPath *)
Definition Flush (p : list string) : MF unit := may_fail "flush" p.

Definition FlushPath (pth : string) : MF Tree :=
  x ← Lookup pth;
  _ ← Flush x.1;
  y ← Lookup pth;
  mret y.2.

(** PutNode *)
Definition PutNode (pth : string) (nd : Tree) : MF unit :=
  let '(dirp, filename) := PathSplit pth in
  if decide (filename = "") then mthrow (MMsg "cannot create file with empty name")
  else pdir ← lookupDir dirp; AddChild pdir filename nd.

(** The loop of Mkdir over the parents; the last directory reached *)
Fixpoint mkdir_parents (builder : option Builder) (mkparents : bool) (parts : list string) (cur : Directory)
    : MF Directory :=
  match parts with
  | [] => mret cur
  | d :: parts' => λ t,
      match Child cur d t with
      | (Err ErrNotExist, _) =>
          if mkparents then
            (_ ← DirMkdir cur d; _ ← set_builder (cur ++ [d]) builder;
             mkdir_parents builder mkparents parts' (cur ++ [d])) t
          else (Err ErrNotExist, t)
      | (Err e, _) => (Err e, t)
      | (Ok (TDir _ _), _) => mkdir_parents builder mkparents parts' (cur ++ [d]) t
      | (Ok _, _) => (Err (MMsg "was not a directory"), t)
      end
  end.

(** The components Mkdir takes from its path *)
Definition mkdir_parts (pth : string) : list string :=
  let parts := Split pth slash in
  let parts := match parts with "" :: ps => ps | ps => ps end in
  match last parts with Some "" => removelast parts | _ => parts end.

(** [if err != nil { if !Mkparents || err != os.ErrExist || final == nil { return err } }] *)
Definition check_made (mkparents : bool) (made : Made) : MF unit :=
  match made with
  | NewDir => mret ()
  | DirExists => if mkparents then mret () else mthrow ErrExist
  | FileExists => mthrow ErrExist
  end.

(** Mkdir; on an empty path it fails, on "/" there is nothing to make. *)
Definition Mkdir (pth : string) (mkparents flush : bool) (builder : option Builder) : MF unit :=
  if decide (pth = "") then mthrow (MMsg "no path given to Mkdir")
  else
    match last (mkdir_parts pth) with
    | None => if mkparents then mret () else mthrow (MMsg "cannot create directory '/': Already exists")
    | Some name =>
        cur ← mkdir_parents builder mkparents (removelast (mkdir_parts pth)) [];
        made ← DirMkdir cur name;
        _ ← check_made mkparents made;
        _ ← set_builder (cur ++ [name]) builder;
        if flush then Flush (cur ++ [name]) else mret ()
    end.

(** The name of a directory object: its last component, or that of the root. *)
Definition dir_name (root_name : string) (d : Directory) : string := default root_name (last d).

(** Mv *)
Definition Mv (root_name src dst : string) : MF unit :=
  let '(srcDirName, srcFname) := PathSplit src in
  let '(dstDirName, dstFname) :=
    if HasSuffix dst slash then (dst, srcFname) else PathSplit dst in
  dstDir ← lookupDir dstDirName;
  srcDir ← lookupDir srcDirName;
  nd ← Child srcDir srcFname;
  t ← mget;
  target ← match (Child dstDir dstFname t).1 with
           | Ok (TFile _ _ _) => (λ t, (Ok (dstDir, dstFname), (Unlink dstDir dstFname t).2)) : MF _
           | Ok (TDir _ _) => mret (dstDir ++ [dstFname], srcFname)
           | Ok (TOther _) => mthrow (MMsg "unexpected type at path")
           | Err ErrNotExist => mret (dstDir, dstFname)
           | Err e => mthrow e
           end;
  let '(dstDir, dstFname) := target in
  _ ← AddChild dstDir dstFname nd;
  if decide (dir_name root_name srcDir = dir_name root_name dstDir ∧ srcFname = dstFname) then mret ()
  else Unlink srcDir srcFname.

End mfs.

(** ** The abstract file system

    What a tree stands for: at every path a file with its bytes, a directory, or
    nothing.  The operations are specified by what they do to this view. *)

(** [Some (Some data)] is a file, [Some None] a directory. *)
Fixpoint view (q : list string) (t : Tree) : option (option string) :=
  match q, t with
  | [], TDir _ _ => Some None
  | [], TFile _ _ data => Some (Some data)
  | n :: q', TDir _ entries => match entries !! n with Some c => view q' c | None => None end
  | _, _ => None
  end.

(** What follows [p] in [q] *)
Fixpoint strip (p q : list string) : option (list string) :=
  match p, q with
  | [], _ => Some q
  | a :: p', b :: q' => if decide (a = b) then strip p' q' else None
  | _ :: _, [] => None
  end.

Lemma strip_Some p q r : strip p q = Some r ↔ q = p ++ r.
Proof.
  revert q. induction p as [|a p IH]; intros q; simpl; [naive_solver|].
  destruct q as [|b q]; [naive_solver|]. case_decide; [subst; rewrite IH; naive_solver|naive_solver].
Qed.

Lemma strip_app p r : strip p (p ++ r) = Some r.
Proof. by apply strip_Some. Qed.

Lemma strip_self p : strip p p = Some [].
Proof. apply strip_Some. by rewrite app_nil_r. Qed.

Lemma strip_cons_ne p q m r : strip p q = Some (m :: r) → q ≠ p.
Proof.
  intros ->%strip_Some Heq. rewrite <- (app_nil_r p) in Heq at 2. by apply app_inv_head in Heq.
Qed.

(** A change that leaves nothing under a path but what is at the path itself. *)
Lemma strip_at {A} p q (a : A) (f : list string → A) (old : A) :
  (∀ m r, strip p q = Some (m :: r) → f (m :: r) = old) →
  match strip p q with Some [] => a | Some r => f r | None => old end = if decide (q = p) then a else old.
Proof.
  intros Hf. destruct (strip p q) as [[|m r]|] eqn:Hs.
  - apply strip_Some in Hs as ->. by rewrite app_nil_r, decide_True.
  - rewrite decide_False by (by eapply strip_cons_ne). by eapply Hf.
  - rewrite decide_False; [done|]. intros ->. by rewrite strip_self in Hs.
Qed.

Lemma strip_None p q : strip p q = None ↔ ¬ p `prefix_of` q.
Proof.
  split.
  - intros Hs [r ->]. by rewrite strip_app in Hs.
  - intros Hp. destruct (strip p q) as [r|] eqn:Hr; [|done]. apply strip_Some in Hr as ->.
    by destruct Hp; apply prefix_app_r.
Qed.

Lemma strip_snoc d n q :
  strip (d ++ [n]) q = match strip d q with Some (m :: r) => if decide (n = m) then Some r else None | _ => None end.
Proof.
  revert q. induction d as [|a d IH]; intros [|b q]; simpl; [done| |done|].
  - by destruct q.
  - case_decide; [apply IH|done].
Qed.

Lemma view_other q n : view q (TOther n) = None.
Proof. by destruct q. Qed.

Lemma child_of_Ok entries n c : child_of entries n = Ok c ↔ entries !! n = Some c ∧ ∀ x, c ≠ TOther x.
Proof. unfold child_of. destruct (entries !! n) as [[]|]; naive_solver. Qed.

(** Looking up is viewing. *)
Lemma view_walk p q t n : walk_parts p t = Ok n → view (p ++ q) t = view q n.
Proof.
  revert t. induction p as [|a p IH]; intros t; simpl; [by intros [= ->]|].
  destruct t as [b e| |]; try done. simpl.
  destruct (child_of e a) as [c|] eqn:Hc; [|done]. apply child_of_Ok in Hc as [-> _]. apply IH.
Qed.

Lemma walk_of_view p t x :
  view p t = Some x →
  ∃ n, walk_parts p t = Ok n ∧ match x with Some d => ∃ b r, n = TFile b r d | None => ∃ b e, n = TDir b e end.
Proof.
  revert t. induction p as [|a p IH]; intros t; simpl.
  - destruct t; intros [= <-]; eauto.
  - destruct t as [b e| |]; try done. destruct (e !! a) as [c|] eqn:Hc; [|done]. intros Hv.
    assert (child_of e a = Ok c) as ->; [|by apply IH].
    apply child_of_Ok. split; [done|]. intros x0 ->. by rewrite view_other in Hv.
Qed.

(** A change at a path seen from everywhere. *)
Lemma view_alter p f t n q :
  walk_parts p t = Ok n →
  view q (alter_at p f t) = match strip p q with
                            | Some r => view r (f n)
                            | None => view q t
                            end.
Proof.
  revert t q. induction p as [|a p IH]; intros t q; simpl; [by intros [= ->]|].
  destruct t as [b e| |]; try done. intros Hw.
  destruct (child_of e a) as [c|] eqn:Hc; [|done]. apply child_of_Ok in Hc as [Hc _]. simpl in Hw.
  destruct q as [|m q]; [done|]. simpl. case_decide as Hm.
  - subst m. rewrite lookup_alter_eq, Hc. simpl. by apply IH.
  - by rewrite lookup_alter_ne.
Qed.

(** The entries of a directory changed under one name. *)
Lemma view_entries d f t b e q :
  walk_parts d t = Ok (TDir b e) →
  view q (alter_at d (on_entries f) t) =
    match strip d q with
    | Some (m :: r) => match f e !! m with Some c => view r c | None => None end
    | Some [] => Some None
    | None => view q t
    end.
Proof.
  intros Hw. rewrite (view_alter _ _ _ _ _ Hw). destruct (strip d q) as [[|m r]|]; done.
Qed.

Lemma view_strip d t b e q m r :
  walk_parts d t = Ok (TDir b e) → strip d q = Some (m :: r) →
  view q t = match e !! m with Some c => view r c | None => None end.
Proof. intros Hw Hs%strip_Some. rewrite Hs. by rewrite (view_walk _ _ _ _ Hw). Qed.

Lemma view_strip_nil d t b e q :
  walk_parts d t = Ok (TDir b e) → strip d q = Some [] → view q t = Some None.
Proof. intros Hw Hs%strip_Some. rewrite Hs. by rewrite (view_walk _ _ _ _ Hw). Qed.

Lemma view_insert d name nd t b e q :
  walk_parts d t = Ok (TDir b e) →
  view q (alter_at d (on_entries (<[name := nd]>)) t) =
    match strip (d ++ [name]) q with Some r => view r nd | None => view q t end.
Proof.
  intros Hw. rewrite (view_entries _ _ _ _ _ _ Hw), strip_snoc.
  destruct (strip d q) as [[|m r]|] eqn:Hs; [|case_decide as Hm|done].
  - symmetry. by eapply view_strip_nil.
  - subst m. by rewrite lookup_insert_eq.
  - rewrite lookup_insert_ne by done. symmetry. by eapply view_strip.
Qed.

Lemma view_delete d name t b e q :
  walk_parts d t = Ok (TDir b e) →
  view q (alter_at d (on_entries (delete name)) t) =
    match strip (d ++ [name]) q with Some _ => None | None => view q t end.
Proof.
  intros Hw. rewrite (view_entries _ _ _ _ _ _ Hw), strip_snoc.
  destruct (strip d q) as [[|m r]|] eqn:Hs; [|case_decide as Hm|done].
  - symmetry. by eapply view_strip_nil.
  - subst m. by rewrite lookup_delete_eq.
  - rewrite lookup_delete_ne by done. symmetry. by eapply view_strip.
Qed.

(** ** What the operations do to the view *)

Lemma dir_walk d t : view d t = Some None → ∃ b e, walk_parts d t = Ok (TDir b e).
Proof. intros (n & Hn & b & e & ->)%walk_of_view. eauto. Qed.

Lemma walk_dir d t b e : walk_parts d t = Ok (TDir b e) → view d t = Some None.
Proof. intros Hw. pose proof (view_walk _ [] _ _ Hw) as Hv. by rewrite app_nil_r in Hv. Qed.

Lemma strip_below d n : strip (d ++ [n]) d = None.
Proof. rewrite strip_snoc, strip_self. done. Qed.

Lemma view_None_app p q t : view p t = None → view (p ++ q) t = None.
Proof.
  revert t. induction p as [|a p IH]; intros t; simpl; [by destruct t; rewrite ?view_other|].
  destruct t as [b e| |]; [|done..]. destruct (e !! a); [apply IH|done].
Qed.

Lemma view_prefix_dir p q t : view (p ++ q) t = Some None → view p t = Some None.
Proof.
  revert t. induction p as [|a p IH]; intros t; simpl; [by destruct t, q|].
  destruct t as [b e| |]; [|done..]. destruct (e !! a); [apply IH|done].
Qed.

(** Only the node at the path matters to a change. *)
Lemma alter_at_ext d f g t n : walk_parts d t = Ok n → f n = g n → alter_at d f t = alter_at d g t.
Proof.
  revert t. induction d as [|a d IH]; intros t Hw Hfg; simpl in *; [by injection Hw as ->|].
  destruct t as [b e| |]; [|done..]. f_equal. destruct (child_of e a) as [c|] eqn:Hc; [|done].
  apply child_of_Ok in Hc as [Hc _]. simpl in Hw. apply map_eq. intros k.
  destruct (decide (a = k)) as [<-|]; [|by rewrite !lookup_alter_ne].
  rewrite !lookup_alter_eq, Hc. simpl. f_equal. by apply IH.
Qed.

Lemma Lookup_spec pth t r t' :
  Lookup pth t = (r, t') → t' = t ∧ ∀ p n, r = Ok (p, n) → p = parts_of pth ∧ walk_parts p t = Ok n.
Proof. unfold Lookup. destruct (walk_parts _ t) eqn:Hw; intros [= <- <-]; naive_solver. Qed.

Lemma lookupDir_spec pth t r t' :
  lookupDir pth t = (r, t') → t' = t ∧ ∀ d, r = Ok d → d = parts_of pth ∧ view d t = Some None.
Proof.
  unfold lookupDir. rewrite bind_unfold. destruct (Lookup pth t) as [[[p n]|e] t1] eqn:Hl;
    apply Lookup_spec in Hl as [-> Hl]; [|intros [= <- <-]; done].
  destruct (Hl _ _ eq_refl) as [-> Hw]. simpl. destruct n; intros [= <- <-]; split; try done.
  intros d [= <-]. split; [done|]. by eapply walk_dir.
Qed.

Lemma Child_spec d name t r t' :
  view d t = Some None → Child d name t = (r, t') →
  t' = t ∧ match r with
           | Ok c => (∀ q, view (d ++ [name] ++ q) t = view q c) ∧ ∀ x, c ≠ TOther x
           | Err _ => view (d ++ [name]) t = None
           end.
Proof.
  intros (b & e & Hw)%dir_walk. unfold Child. rewrite Hw. intros [= <- <-]. split; [done|].
  destruct (child_of e name) as [c|] eqn:Hc.
  - apply child_of_Ok in Hc as [Hc Hx]. split; [|done]. intros q.
    rewrite (view_walk _ _ _ _ Hw). simpl. by rewrite Hc.
  - rewrite (view_walk _ _ _ _ Hw). simpl. unfold child_of in Hc. destruct (e !! name) as [[]|]; done.
Qed.

Section specs.
Context (F : string → list string → option string).

Lemma may_fail_spec op p (t : Tree) r t' : may_fail F op p t = (r, t') → t' = t.
Proof. unfold may_fail. destruct (F op p); by intros [= _ <-]. Qed.

Lemma AddChild_spec d name nd t r t' :
  view d t = Some None → AddChild F d name nd t = (r, t') →
  match r with
  | Err _ => t' = t
  | Ok _ => view (d ++ [name]) t = None ∧
            ∀ q, view q t' = match strip (d ++ [name]) q with Some r => view r nd | None => view q t end
  end.
Proof.
  intros Hd. unfold AddChild. destruct (Child d name t) as [rc tc] eqn:Hc.
  apply Child_spec in Hc as [-> Hc]; [|done]. destruct rc as [c|e]; [by intros [= <- <-]|].
  rewrite bind_unfold. destruct (may_fail F "add" (d ++ [name]) t) as [rm tm] eqn:Hm.
  apply may_fail_spec in Hm as ->. destruct rm as [[]|]; [|by intros [= <- <-]]. intros [= <- <-].
  split; [done|]. intros q. destruct (dir_walk _ _ Hd) as (b & en & Hw). by eapply view_insert.
Qed.

Lemma Unlink_spec d name t r t' :
  view d t = Some None → Unlink d name t = (r, t') →
  match r with
  | Err e => t' = t ∧ (e = ErrNotExist → view (d ++ [name]) t = None)
  | Ok _ => ∀ q, view q t' = match strip (d ++ [name]) q with Some _ => None | None => view q t end
  end.
Proof.
  intros (b & e & Hw)%dir_walk. unfold Unlink. rewrite Hw. destruct (e !! name) eqn:He; intros [= <- <-].
  - intros q. by eapply view_delete.
  - split; [done|]. intros _. rewrite (view_walk _ _ _ _ Hw). simpl. by rewrite He.
Qed.

Lemma DirMkdir_spec d name t r t' :
  view d t = Some None → DirMkdir F d name t = (r, t') →
  match r with
  | Err _ => t' = t
  | Ok NewDir => view (d ++ [name]) t = None ∧
      ∀ q, view q t' = if decide (q = d ++ [name]) then Some None else view q t
  | Ok DirExists => t' = t ∧ view (d ++ [name]) t = Some None
  | Ok FileExists => t' = t ∧ ∃ c, view (d ++ [name]) t = Some (Some c)
  end.
Proof.
  intros Hd. unfold DirMkdir. destruct (Child d name t) as [rc tc] eqn:Hc.
  apply Child_spec in Hc as [-> Hc]; [|done]. destruct rc as [c|e].
  - destruct Hc as [Hc Hx]. specialize (Hc []). simpl in Hc.
    destruct c; intros [= <- <-]; [done|split; [done|eauto]|by destruct (Hx node)].
  - rewrite bind_unfold. destruct (may_fail F "add" (d ++ [name]) t) as [rm tm] eqn:Hm.
    apply may_fail_spec in Hm as ->. destruct rm as [[]|]; [|by intros [= <- <-]]. intros [= <- <-].
    split; [done|]. intros q. destruct (dir_walk _ _ Hd) as (b & en & Hw).
    rewrite (alter_at_ext _ _ (on_entries (<[name := TDir b ∅]>)) _ _ Hw) by done.
    rewrite (view_insert _ _ _ _ _ _ _ Hw). rewrite <- (strip_at _ _ _ (λ _, None)).
    + by destruct (strip _ q) as [[|m q']|].
    + intros m r' ->%strip_Some. by rewrite (view_None_app _ _ _ Hc).
Qed.

Lemma SetCidBuilder_view d b t q : view q (SetCidBuilder d b t).2 = view q t.
Proof.
  unfold SetCidBuilder, mmodify. simpl. revert t q. induction d as [|a d IH]; intros t q; simpl; [by destruct t, q|].
  destruct t as [b' e| |]; [|done..]. destruct q as [|m q]; [done|]. simpl.
  destruct (decide (a = m)) as [<-|]; [|by rewrite lookup_alter_ne].
  rewrite lookup_alter_eq. destruct (e !! a); [|done]. simpl. apply IH.
Qed.

Lemma set_builder_view d b t r t' : set_builder d b t = (r, t') → r = Ok () ∧ ∀ q, view q t' = view q t.
Proof.
  destruct b as [b|]; [|by intros [= <- <-]]. simpl. pose proof (SetCidBuilder_view d b t) as Hv.
  unfold SetCidBuilder, mmodify in *. by intros [= <- <-].
Qed.

(** Every path that is there stays as it is, and what is new are directories on
    the way to [p]. *)
Definition grown (p : list string) (t t' : Tree) : Prop :=
  ∀ q, view q t' = view q t ∨ (view q t = None ∧ view q t' = Some None ∧ q `prefix_of` p).

Lemma grown_trans p p' t1 t2 t3 : p `prefix_of` p' → grown p t1 t2 → grown p' t2 t3 → grown p' t1 t3.
Proof.
  intros Hp H1 H2 q. destruct (H1 q) as [E1|(E1 & E2 & E3)], (H2 q) as [F1|(F1 & F2 & F3)].
  - left. congruence.
  - right. by rewrite <- E1.
  - right. split_and!; [done|congruence|by etrans].
  - congruence.
Qed.

Lemma mkdir_grown d name t t' :
  view (d ++ [name]) t = None → (∀ q, view q t' = if decide (q = d ++ [name]) then Some None else view q t) →
  grown (d ++ [name]) t t'.
Proof. intros Hn Hv q. rewrite Hv. case_decide; [right; subst; by split_and!|by left]. Qed.

Lemma mkdir_parents_spec builder mkparents parts cur t r t' :
  view cur t = Some None → mkdir_parents F builder mkparents parts cur t = (r, t') →
  grown (cur ++ parts) t t' ∧ ∀ d, r = Ok d → d = cur ++ parts ∧ view d t' = Some None.
Proof.
  revert cur t. induction parts as [|p parts IH]; intros cur t Hcur; cbn [mkdir_parents].
  { intros [= <- <-]. rewrite app_nil_r. split; [by left|]. intros d [= <-]. done. }
  destruct (Child cur p t) as [rc tc] eqn:Hc. apply Child_spec in Hc as [-> Hc]; [|done].
  replace (cur ++ p :: parts) with ((cur ++ [p]) ++ parts) by (by rewrite <- app_assoc).
  assert (∀ x, grown x t t) as Hrefl by (by left).
  destruct rc as [c|e].
  - destruct c as [b e| |]; [|by intros [= <- <-]..]. intros Hr. apply IH in Hr; [done|]. exact (proj1 Hc []).
  - destruct e; try (by intros [= <- <-]). destruct mkparents; [|by intros [= <- <-]].
    rewrite bind_unfold. destruct (DirMkdir F cur p t) as [rm t1] eqn:Hm. apply DirMkdir_spec in Hm; [|done].
    destruct rm as [m|e]; [|subst; by intros [= <- <-]]. rewrite bind_unfold.
    destruct (set_builder (cur ++ [p]) builder t1) as [rb t2] eqn:Hb. apply set_builder_view in Hb as [-> Hb].
    destruct m; [|destruct Hm as [_ Hm]; congruence|destruct Hm as [_ [? Hm]]; congruence].
    destruct Hm as [_ Hm]. intros Hr. apply IH in Hr as [Hg Hr].
    2: { by rewrite Hb, Hm, decide_True. }
    split; [|done]. eapply grown_trans; [by apply prefix_app_r| |exact Hg].
    apply mkdir_grown; [done|]. intros q. by rewrite Hb, Hm.
Qed.

(** Mkdir only adds directories, on the way to the one asked for, which is there
    when it succeeds. *)
Lemma Mkdir_spec pth mkparents flush builder t r t' :
  view [] t = Some None → Mkdir F pth mkparents flush builder t = (r, t') →
  grown (mkdir_parts pth) t t' ∧ (r = Ok () → view (mkdir_parts pth) t' = Some None).
Proof.
  intros Hroot. assert (∀ x, grown x t t) as Hrefl by (by left).
  unfold Mkdir. case_decide; [by intros [= <- <-]|].
  destruct (last (mkdir_parts pth)) as [name|] eqn:Hl.
  2: { apply last_None in Hl. rewrite Hl. destruct mkparents; by intros [= <- <-]. }
  apply last_Some in Hl as [l Hl]. rewrite Hl, removelast_last. rewrite bind_unfold.
  destruct (mkdir_parents F builder mkparents l [] t) as [rp t1] eqn:Hp.
  apply mkdir_parents_spec in Hp as [Hg Hp]; [|done]. simpl in *.
  assert (l `prefix_of` l ++ [name]) as Hpre by (by apply prefix_app_r).
  assert (grown (l ++ [name]) t t1) as Hg1 by (intros q; destruct (Hg q) as [|(?&?&?)]; [by left|right; split_and!; by try etrans]).
  destruct rp as [d|e]; [|by intros [= <- <-]]. destruct (Hp _ eq_refl) as [-> Hd].
  rewrite bind_unfold. destruct (DirMkdir F l name t1) as [rm t2] eqn:Hm. apply DirMkdir_spec in Hm; [|done].
  destruct rm as [m|e]; [|subst; by intros [= <- <-]]. rewrite bind_unfold.
  assert (grown (l ++ [name]) t t2 ∧ (m ≠ FileExists → view (l ++ [name]) t2 = Some None)) as [Hg2 Hd2].
  { destruct m.
    - destruct Hm as [Hn Hm]. split; [|by rewrite Hm, decide_True].
      eapply grown_trans; [exact Hpre|exact Hg|by apply mkdir_grown].
    - destruct Hm as [-> Hm]. done.
    - destruct Hm as [-> _]. done. }
  destruct (check_made mkparents m t2) as [r3 t3] eqn:H3.
  assert (t3 = t2 ∧ (is_ok r3 = true → m ≠ FileExists)) as [-> Hnf]
    by (unfold check_made in H3; destruct m, mkparents; by injection H3 as <- <-).
  destruct r3 as [[]|]; [|by intros [= <- <-]].
  rewrite bind_unfold. destruct (set_builder (l ++ [name]) builder t2) as [rb t4] eqn:Hb.
  apply set_builder_view in Hb as [-> Hb].
  assert (∀ rf tf, (if flush then Flush F (l ++ [name]) else mret ()) t4 = (rf, tf) → tf = t4) as Hfl.
  { intros rf tf. destruct flush; [apply may_fail_spec|by intros [= _ <-]]. }
  intros ->%Hfl. split; [intros q; by rewrite Hb|]. intros _. rewrite Hb. by apply Hd2, Hnf.
Qed.

(** Where Mv puts the node: at the destination, in it when it is a directory; and
    the tree once a file that is in the way is gone. *)
Lemma Mv_target dstDir dstFname srcFname (t : Tree) (c : M Tree MErr (Directory * string)) r t1 :
  view dstDir t = Some None →
  c = match (Child dstDir dstFname t).1 with
      | Ok (TFile _ _ _) => (λ t, (Ok (dstDir, dstFname), (Unlink dstDir dstFname t).2)) : M Tree MErr _
      | Ok (TDir _ _) => mret (dstDir ++ [dstFname], srcFname)
      | Ok (TOther _) => mthrow (MMsg "unexpected type at path")
      | Err ErrNotExist => mret (dstDir, dstFname)
      | Err e => mthrow e
      end →
  c t = (Ok r, t1) →
  r = (if decide (view (dstDir ++ [dstFname]) t = Some None) then (dstDir ++ [dstFname], srcFname)
       else (dstDir, dstFname)) ∧
  view r.1 t = Some None ∧ view r.1 t1 = Some None ∧
  (t1 = t ∨ view (r.1 ++ [r.2]) t ≠ Some None) ∧
  ∀ q, strip (r.1 ++ [r.2]) q = None → view q t1 = view q t.
Proof.
  intros Hd -> Hc. destruct (Child dstDir dstFname t) as [rc tc] eqn:Hch.
  apply Child_spec in Hch as [-> Hch]; [|done]. simpl in Hc. destruct rc as [[b e|b rw data|x]|e].
  - injection Hc as <- <-. pose proof (proj1 Hch []) as Hv. simpl in Hv. rewrite decide_True by done. split_and!; auto.
  - pose proof (proj1 Hch []) as Hv. simpl in Hv. rewrite decide_False by (by rewrite Hv).
    destruct (Unlink dstDir dstFname t) as [ru tu] eqn:Hu. apply Unlink_spec in Hu; [|done].
    injection Hc as <- <-. simpl. destruct ru as [[]|e].
    + split_and!; [done|done|by rewrite Hu, strip_below|right; by rewrite Hv|]. intros q Hs. by rewrite Hu, Hs.
    + destruct Hu as [-> _]. split_and!; auto.
  - done.
  - destruct e; try done. injection Hc as <- <-. rewrite decide_False by (by rewrite Hch). split_and!; auto.
Qed.

(** What a successful Mv leaves: the node is at its new place, everything else is
    as before, and the source is gone, unless the two directories happen to have
    the same name and the node keeps its own: then it stays where it was too. *)
Lemma Mv_spec root_name src dst t t' :
  Mv F root_name src dst t = (Ok (), t') →
  let '(srcDirName, srcFname) := PathSplit src in
  let '(dstDirName, dstFname) := if HasSuffix dst slash then (dst, srcFname) else PathSplit dst in
  let S := parts_of srcDirName ++ [srcFname] in
  let '(dd, df) := if decide (view (parts_of dstDirName ++ [dstFname]) t = Some None)
                   then (parts_of dstDirName ++ [dstFname], srcFname) else (parts_of dstDirName, dstFname) in
  view S t ≠ None ∧ view dd t = Some None ∧
  ∀ q, view q t' =
    let moved := match strip (dd ++ [df]) q with Some r => view (S ++ r) t | None => view q t end in
    if decide (dir_name root_name (parts_of srcDirName) = dir_name root_name dd ∧ srcFname = df) then moved
    else match strip S q with Some _ => None | None => moved end.
Proof.
  unfold Mv. destruct (PathSplit src) as [srcDirName srcFname].
  destruct (if HasSuffix dst slash then _ else _) as [dstDirName dstFname].
  intros (dstDir & t0 & Hdst & Hr)%bind_ok. apply lookupDir_spec in Hdst as [-> Hdst].
  destruct (Hdst _ eq_refl) as [-> Hdd]. clear Hdst.
  apply bind_ok in Hr as (srcDir & t0 & Hsrc & Hr). apply lookupDir_spec in Hsrc as [-> Hsrc].
  destruct (Hsrc _ eq_refl) as [-> Hsd]. clear Hsrc.
  apply bind_ok in Hr as (nd & t0 & Hnd & Hr). apply Child_spec in Hnd as [-> [Hnd Hno]]; [|done].
  apply bind_ok in Hr as (tg & t0 & Hg & Hr). injection Hg as <- <-.
  apply bind_ok in Hr as (target & t1 & Ht & Hr).
  eapply Mv_target in Ht as (Htg & Hdt & Hd1 & Hcase & Hsame); [|exact Hdd|reflexivity].
  rewrite <- Htg. clear Htg. destruct target as [dd df]. simpl in *.
  apply bind_ok in Hr as ([] & t2 & Ha & Hr). apply AddChild_spec in Ha as [Hnew Ha]; [|done].
  assert (∀ q, view q t2 = match strip (dd ++ [df]) q with
                           | Some r => view ((parts_of srcDirName ++ [srcFname]) ++ r) t | None => view q t end) as Hmoved.
  { intros q. rewrite Ha. destruct (strip (dd ++ [df]) q) eqn:Hs; [|by apply Hsame].
    rewrite <- app_assoc. symmetry. apply Hnd. }
  split_and!; [|done|].
  { pose proof (Hnd []) as Hv. simpl in Hv. rewrite Hv. destruct nd; try done. by destruct (Hno node). }
  case_decide; [by injection Hr as <-|]. intros q. cbv zeta.
  assert (view (parts_of srcDirName) t2 = Some None) as Hs2.
  { rewrite Hmoved. destruct (strip (dd ++ [df]) (parts_of srcDirName)) as [r|] eqn:Hs; [|done]. exfalso.
    apply strip_Some in Hs. assert (view (dd ++ [df]) t = Some None) as Hx
      by (rewrite Hs in Hsd; by eapply view_prefix_dir).
    destruct Hcase as [->|Hc]; [congruence|done]. }
  apply Unlink_spec in Hr; [|done]. by rewrite Hr, <- !Hmoved.
Qed.

End specs.

(** ** Absolute paths in their usual form *)

Definition abs (comps : list string) : string := slash +:+ Join comps slash.
(** The same as a directory, with the slash at the end *)
Definition abs_dir (comps : list string) : string := match comps with [] => slash | _ => abs comps +:+ slash end.

Lemma trim_slashes_word w s : w ≠ "" → has_char "/"%char w = false → trim_slashes (w +:+ s) = w +:+ s.
Proof.
  destruct w as [|c w]; [done|]. intros _. rewrite has_char_cons, orb_false_iff. intros [Hc%bool_decide_eq_false _].
  simpl. destruct c as [[] [] [] [] [] [] [] []]; done.
Qed.

Lemma has_char_srev c s : has_char c (srev s) = has_char c s.
Proof. unfold has_char. by rewrite sforall_srev. Qed.

Lemma clean_names rooted cs st : Forall file_name cs → foldl (clean_step rooted) st cs = rev cs ++ st.
Proof.
  intros Hn. revert st. induction Hn as [|c cs Hc _ IH]; intros st; [done|]. simpl.
  rewrite clean_step_name by done. rewrite IH, <- app_assoc. done.
Qed.

Section abs.
Context (comps : list string) (Hnames : Forall file_name comps).

Lemma words_plain : Forall (λ w, has_char "/"%char w = false) comps.
Proof. eapply Forall_impl; [exact Hnames|]. by intros w (_&_&_&?). Qed.

Lemma Split_Join_abs : comps ≠ [] → Split (Join comps slash) slash = comps.
Proof. intros Hne. apply Split_Join; [done|apply words_plain]. Qed.

(** Trimming a path to its components. *)
Lemma trim_lead s : comps ≠ [] → trim_slashes (Join comps slash +:+ s) = Join comps slash +:+ s.
Proof.
  destruct comps as [|w [|w' ws]]; [done|..]; intros _; apply Forall_cons in Hnames as [(Hw & _ & _ & Hc) _].
  - by apply trim_slashes_word.
  - change (Join (w :: w' :: ws) slash) with (w +:+ slash +:+ Join (w' :: ws) slash).
    rewrite sapp_assoc. by apply trim_slashes_word.
Qed.

Lemma trim_trail : comps ≠ [] → TrimRight (Join comps slash) = Join comps slash.
Proof.
  intros Hne. unfold TrimRight.
  destruct (exists_last Hne) as (ws & w & Heq).
  assert (file_name w) as (Hw & _ & _ & Hc).
  { rewrite Heq in Hnames. apply Forall_app in Hnames as [_ Hn]. exact (proj1 (Forall_singleton _ _) Hn). }
  assert (∃ a, Join comps slash = a +:+ w) as [a Ha].
  { rewrite Heq. destruct ws as [|x ws]; [by exists ""|]. rewrite (Join_snoc (x :: ws) w "/"%char ltac:(done) : Join ((x :: ws) ++ [w]) slash = _).
    exists (Join (x :: ws) slash +:+ slash). by rewrite sapp_assoc. }
  rewrite Ha, srev_app_dist, trim_slashes_word; [| |by rewrite has_char_srev].
  2: { intros Hx. apply Hw. by rewrite <- (srev_involutive w), Hx. }
  by rewrite srev_app_dist, !srev_involutive.
Qed.

End abs.

Lemma srev_head c s : srev (String c s) = srev s +:+ String c "".
Proof. exact (srev_app_dist (String c "") s). Qed.

Lemma TrimRight_slash s : TrimRight (s +:+ slash) = TrimRight s.
Proof. unfold TrimRight. rewrite srev_app_dist. done. Qed.

(** The components of the usual form, with or without the slash at the end. *)
Lemma parts_of_abs comps : Forall file_name comps → parts_of (abs comps) = comps.
Proof.
  intros Hn. destruct (decide (comps = [])) as [->|Hne]; [by vm_compute|].
  unfold parts_of, Trim, abs. change (trim_slashes (slash +:+ Join comps slash)) with (trim_slashes (Join comps slash)).
  rewrite <- (sapp_nil_r (Join comps slash)), trim_lead, sapp_nil_r, trim_trail, Split_Join_abs by done.
  rewrite decide_False; [done|].
  intros ->. by apply Forall_cons in Hn as [(? & _) _].
Qed.

Lemma parts_of_abs_dir comps : Forall file_name comps → parts_of (abs_dir comps) = comps.
Proof.
  intros Hn. destruct (decide (comps = [])) as [->|Hne]; [by vm_compute|].
  rewrite <- (parts_of_abs comps) at 2 by done. unfold parts_of.
  assert (Trim (abs_dir comps) = Trim (abs comps)) as ->; [|done].
  unfold Trim. replace (abs_dir comps) with (slash +:+ (Join comps slash +:+ slash)) by (by destruct comps).
  change (trim_slashes (slash +:+ (Join comps slash +:+ slash))) with (trim_slashes (Join comps slash +:+ slash)).
  change (trim_slashes (abs comps)) with (trim_slashes (Join comps slash)).
  rewrite trim_lead, TrimRight_slash by done.
  by rewrite <- (sapp_nil_r (Join comps slash)) at 2; rewrite trim_lead, sapp_nil_r.
Qed.

Lemma Split_abs comps : Forall file_name comps → Split (abs comps) slash = "" :: if decide (comps = []) then [""] else comps.
Proof.
  intros Hn. unfold abs, slash at 1. simpl. unfold slash at 2. rewrite Split_cons_sep. fold slash.
  case_decide; [by subst|]. by rewrite Split_Join_abs.
Qed.

Lemma PathSplit_abs ds f : Forall file_name (ds ++ [f]) → PathSplit (abs (ds ++ [f])) = (abs_dir ds, f).
Proof.
  intros Hn. unfold PathSplit. rewrite Split_abs, decide_False by (done || by destruct ds).
  change ("" :: ds ++ [f]) with (("" :: ds) ++ [f]). rewrite rev_app_distr. simpl.
  destruct (rev ds ++ [""]) as [|x l] eqn:Hr; [by destruct (rev ds)|]. rewrite <- Hr. clear x l Hr.
  rewrite rev_app_distr, rev_involutive. simpl. f_equal. destruct ds; done.
Qed.

Lemma Clean_abs comps : Forall file_name comps → Clean (abs comps) = abs comps.
Proof.
  intros Hn. unfold Clean. assert (HasPrefix (abs comps) slash = true) as -> by (apply HasPrefix_app).
  rewrite Split_abs by done. unfold abs. f_equal. f_equal.
  case_decide as Hc; simpl; [by subst|]. rewrite clean_names, app_nil_r by done. apply rev_involutive.
Qed.

Lemma Dir_abs ds f : Forall file_name (ds ++ [f]) → Dir (abs (ds ++ [f])) = abs ds.
Proof.
  intros Hn. unfold Dir. rewrite Split_abs, decide_False by (done || by destruct ds).
  change ("" :: ds ++ [f]) with (("" :: ds) ++ [f]). rewrite rev_app_distr. simpl.
  destruct (rev ds ++ [""]) as [|x l] eqn:Hr; [by destruct (rev ds)|]. rewrite <- Hr. clear x l Hr.
  rewrite rev_app_distr, rev_involutive. simpl. apply Forall_app in Hn as [Hn _].
  destruct ds as [|w ws]; [by vm_compute|].
  change (Join ("" :: w :: ws) slash) with (abs (w :: ws)). rewrite Clean_trailing by done. by apply Clean_abs.
Qed.

Lemma mkdir_parts_abs ds : Forall file_name ds → mkdir_parts (abs ds) = ds.
Proof.
  intros Hn. unfold mkdir_parts. rewrite Split_abs by done. case_decide as Hc; [by subst|].
  destruct (last ds) as [w|] eqn:Hl; [|done]. destruct w; [|done]. exfalso.
  apply last_Some in Hl as [l ->]. apply Forall_app in Hn as [_ Hn]. inversion Hn as [|? ? (? & _) _]. done.
Qed.

Lemma abs_root ds : Forall file_name ds → abs ds = "/" → ds = [].
Proof.
  intros Hn Ha. apply (f_equal parts_of) in Ha. rewrite parts_of_abs in Ha by done. rewrite Ha. by vm_compute.
Qed.

Lemma abs_no_trailing comps : Forall file_name comps → comps ≠ [] → HasSuffix (abs comps) slash = false.
Proof.
  intros Hn Hne. destruct (HasSuffix (abs comps) slash) eqn:Hs; [|done]. exfalso.
  apply HasSuffix_true in Hs as [t Ht]. pose proof (Split_abs comps Hn) as Hs. rewrite decide_False in Hs by done.
  rewrite Ht in Hs. assert (Split (t +:+ slash) slash = Split t slash ++ [""]) as Heq by (by apply (Split_app_word t "")).
  rewrite Heq in Hs. destruct (exists_last Hne) as (ws & w & ->).
  change ("" :: ws ++ [w]) with (("" :: ws) ++ [w]) in Hs. apply app_inj_tail in Hs as [_ <-].
  apply Forall_app in Hn as [_ Hn]. inversion Hn as [|? ? (? & _) _]. done.
Qed.

(** ** Relative paths in their usual form *)

Definition rel (comps : list string) : string := Join comps slash.
Definition rel_dir (comps : list string) : string := match comps with [] => "" | _ => rel comps +:+ slash end.

Section rel.
Context (comps : list string) (Hnames : Forall file_name comps).

Lemma Split_rel : comps ≠ [] → Split (rel comps) slash = comps.
Proof. by apply Split_Join_abs. Qed.

Lemma rel_not_rooted : HasPrefix (rel comps) slash = false.
Proof.
  destruct (HasPrefix (rel comps) slash) eqn:Hp; [|done]. exfalso.
  apply HasPrefix_true in Hp as [t Ht]. destruct (decide (comps = [])) as [->|Hne]; [done|].
  pose proof (Split_rel Hne) as Hs. rewrite Ht in Hs. unfold slash in Hs at 1. simpl in Hs.
  unfold slash in Hs. rewrite Split_cons_sep in Hs. rewrite <- Hs in Hnames. by apply Forall_cons in Hnames as [(? & _) _].
Qed.

Lemma rel_not_empty : comps ≠ [] → rel comps ≠ "".
Proof.
  intros Hne He. pose proof (Split_rel Hne) as Hs. rewrite He in Hs. rewrite <- Hs in Hnames.
  by apply Forall_cons in Hnames as [(? & _) _].
Qed.

Lemma Clean_rel : comps ≠ [] → Clean (rel comps) = rel comps.
Proof.
  intros Hne. unfold Clean. rewrite rel_not_rooted, Split_rel by done.
  rewrite clean_names, app_nil_r, rev_involutive by done. by rewrite decide_False by (by apply rel_not_empty).
Qed.

Lemma rel_not_special : comps ≠ [] → rel comps ≠ "." ∧ rel comps ≠ slash.
Proof.
  intros Hne. pose proof (Split_rel Hne) as Hs. split; intros He; rewrite He in Hs; rewrite <- Hs in Hnames.
  - by apply Forall_cons in Hnames as [(_ & ? & _) _].
  - by apply Forall_cons in Hnames as [(? & _) _].
Qed.

Lemma rel_snoc n : file_name n → PathJoin (rel comps) n = rel (comps ++ [n]).
Proof.
  intros Hn. destruct (decide (comps = [])) as [->|Hne].
  - unfold PathJoin. simpl. destruct Hn as (? & Hn'). rewrite decide_False by done. by apply Clean_name.
  - destruct (rel_not_special Hne). rewrite Join_under by (done || by apply Clean_rel).
    unfold rel, slash. by rewrite Join_snoc.
Qed.

Lemma mkdir_parts_rel : comps ≠ [] → mkdir_parts (rel comps) = comps.
Proof.
  intros Hne. unfold mkdir_parts. rewrite Split_rel by done.
  assert (match comps with "" :: ps => ps | ps => ps end = comps) as ->
    by (destruct comps as [|[|c w] ws]; [done| |done]; by apply Forall_cons in Hnames as [(? & _) _]).
  destruct (last comps) as [w|] eqn:Hl; [|done]. destruct w; [|done]. exfalso.
  apply last_Some in Hl as [l Hl]. rewrite Hl in Hnames. apply Forall_app in Hnames as [_ Hn].
  inversion Hn as [|? ? (? & _) _]. done.
Qed.

Lemma parts_of_rel_dir : parts_of (rel_dir comps) = comps.
Proof.
  destruct (decide (comps = [])) as [->|Hne]; [by vm_compute|].
  rewrite <- (parts_of_abs_dir comps) at 2 by done. unfold parts_of.
  assert (Trim (rel_dir comps) = Trim (abs_dir comps)) as ->; [|done]. unfold Trim.
  replace (abs_dir comps) with (slash +:+ (rel comps +:+ slash)) by (by destruct comps).
  replace (rel_dir comps) with (rel comps +:+ slash) by (by destruct comps). done.
Qed.

End rel.

Lemma PathSplit_rel ds f : Forall file_name (ds ++ [f]) → PathSplit (rel (ds ++ [f])) = (rel_dir ds, f).
Proof.
  intros Hn. unfold PathSplit. rewrite Split_rel by (done || by destruct ds). rewrite rev_app_distr. simpl.
  destruct (rev ds) as [|x l] eqn:Hr.
  - apply (f_equal (@rev _)) in Hr. rewrite rev_involutive in Hr. by subst.
  - rewrite <- Hr, rev_involutive. destruct ds; [by destruct l|done].
Qed.

Lemma Dir_rel ds f : Forall file_name (ds ++ [f]) → Dir (rel (ds ++ [f])) = match ds with [] => "." | _ => rel ds end.
Proof.
  intros Hn. unfold Dir. rewrite Split_rel by (done || by destruct ds). rewrite rev_app_distr. simpl.
  apply Forall_app in Hn as [Hn _]. destruct (rev ds) as [|x l] eqn:Hr.
  - apply (f_equal (@rev _)) in Hr. rewrite rev_involutive in Hr. by subst.
  - rewrite <- Hr, rev_involutive. destruct ds as [|w ws]; [by destruct l|].
    rewrite Clean_trailing by (by apply (rel_not_empty (w :: ws))). by apply (Clean_rel (w :: ws)).
Qed.

(** ** More on the operations, for building trees *)

Lemma grown_there p t t' : view p t = Some None → grown p t t' → ∀ q, view q t' = view q t.
Proof.
  intros Hp Hg q. destruct (Hg q) as [|(Hn & _ & [l ->])]; [done|]. apply view_prefix_dir in Hp. congruence.
Qed.

Lemma PutNode_spec F pth nd t t' :
  PutNode F pth nd t = (Ok (), t') →
  let '(dirp, f) := PathSplit pth in
  view (parts_of dirp ++ [f]) t = None ∧
  ∀ q, view q t' = match strip (parts_of dirp ++ [f]) q with Some r => view r nd | None => view q t end.
Proof.
  unfold PutNode. destruct (PathSplit pth) as [dirp f]. case_decide; [done|].
  intros (d & t0 & Hd & Ha)%bind_ok. apply lookupDir_spec in Hd as [-> Hd].
  destruct (Hd _ eq_refl) as [-> Hdir]. by apply AddChild_spec in Ha.
Qed.
