(* ===== verification/Files.v ===== *)
(** * The files command (src/core/commands/files.go)

    `ipfs files` edits the tree of [Mfs] by paths, as a Unix shell would: cp, ls,
    read, write, mv, mkdir, rm, stat, flush and chcid. *)

From Stdlib Require Import ZArith Ascii String.
From stdpp Require Import base gmap sets list strings.
From S2P Require Import Prelude GoStrings GoFS Mfs.

Definition last_is_slash (s : string) : bool := HasSuffix s slash.

(** checkPath *)
Definition checkPath (p : string) : res MErr string :=
  if decide (p = "") then Err (MMsg "paths must not be empty")
  else if HasPrefix p slash then
    let cleaned := Clean p in
    Ok (if last_is_slash p && bool_decide (p ≠ "/") then cleaned +:+ slash else cleaned)
  else Err (MMsg "paths must start with a leading slash").

(** ** CID options *)

(** What the options --cid-version and --hash give, if set *)
Record CidOpts := mkCidOpts { cidVer : option Z; hashFun : option string }.

(** dag.PrefixForCidVersion: SHA2-256 with the default length *)
Definition PrefixForCidVersion (v : Z) : res MErr Builder :=
  if decide (v = 0 ∨ v = 1)%Z then Ok (mkBuilder v 18 (-1)) else Err (MMsg "unknown CID version").

(** getPrefixNew; [mh_Names] is the table of the multihash library, [lower] is strings.ToLower. *)
Definition getPrefixNew (mh_Names : string → option Z) (lower : string → string) (o : CidOpts)
    : res MErr (option Builder) :=
  match cidVer o, hashFun o with
  | None, None => Ok None
  | ver, hash =>
      let v := default 0%Z ver in
      let v := match hash with Some _ => if decide (v = 0)%Z then 1%Z else v | None => v end in
      prefix ← PrefixForCidVersion v;
      match hash with
      | None => Ok (Some prefix)
      | Some h => match mh_Names (lower h) with
                  | None => Err (MMsg ("unrecognized hash function: " +:+ lower h))
                  | Some code => Ok (Some (mkBuilder (Version prefix) code (-1)))
                  end
      end
  end.

(** getPrefix, which the source writes out a second time *)
Definition getPrefix (mh_Names : string → option Z) (lower : string → string) (o : CidOpts)
    : res MErr (option Builder) :=
  match cidVer o, hashFun o with
  | None, None => Ok None
  | ver, hash =>
      let v := default 0%Z ver in
      let v := match hash with Some _ => if decide (v = 0)%Z then 1%Z else v | None => v end in
      prefix ← PrefixForCidVersion v;
      match hash with
      | None => Ok (Some prefix)
      | Some h => match mh_Names (lower h) with
                  | None => Err (MMsg ("unrecognized hash function: " +:+ lower h))
                  | Some code => Ok (Some (mkBuilder (Version prefix) code (-1)))
                  end
      end
  end.

(** ** stat *)

Definition newline : string := String (ascii_of_nat 10) "".
Definition defaultStatFormat : string :=
  "<hash>" +:+ newline +:+ "Size: <size>" +:+ newline +:+ "CumulativeSize: <cumulsize>" +:+ newline +:+
  "ChildBlocks: <childs>" +:+ newline +:+ "Type: <type>".

Definition moreThanOne (a b c : bool) : bool := a && b || b && c || a && c.

Definition statGetFormatOptions (hash size : bool) (format : string) : res MErr string :=
  if moreThanOne hash size (bool_decide (format ≠ defaultStatFormat)) then
    Err (MMsg "format was set by multiple options. Only one format option is allowed")
  else Ok (if hash then "<hash>" else if size then "<cumulsize>" else format).

(** The UnixFS type of a ProtoNode's data, and the kinds of IPLD node *)
Inductive FSType := TDirectory | THAMTShard | TFileT | TMetadata | TRaw | TSymlink.
Inductive NodeKind :=
  | ProtoNode (d : res MErr (FSType * Z))
  | RawNode
  | OtherNode.

(** An IPLD node with the unfolding of its DAG in the local store: what getting
    each linked block gives. *)
Inductive INode :=
  mkINode (Cid : string) (Size : res MErr Z) (kind : NodeKind) (RawLen : Z) (Links : list Got)
with Got := GotNode (n : INode) | GotNotFound | GotErr (e : MErr).

Definition nCid (n : INode) : string := match n with mkINode c _ _ _ _ => c end.
Definition nSize (n : INode) : res MErr Z := match n with mkINode _ s _ _ _ => s end.
Definition nKind (n : INode) : NodeKind := match n with mkINode _ _ k _ _ => k end.
Definition nRawLen (n : INode) : Z := match n with mkINode _ _ _ r _ => r end.
Definition nLinks (n : INode) : list Got := match n with mkINode _ _ _ _ l => l end.

Record statOutput := mkStat {
  Hash : string; sSize : Z; CumulativeSize : Z; Blocks : nat; sType : string;
  WithLocality : bool; Local_ : bool; SizeLocal : Z;
}.

Definition statNode (enc : string → string) (nd : INode) : res MErr statOutput :=
  cumulsize ← nSize nd;
  match nKind nd with
  | ProtoNode d =>
      ts ← d;
      let mk ty := Ok (mkStat (enc (nCid nd)) ts.2 cumulsize (length (nLinks nd)) ty false false 0) in
      match ts.1 with
      | TDirectory | THAMTShard => mk "directory"
      | TFileT | TMetadata | TRaw => mk "file"
      | TSymlink => Err (MMsg "unrecognized node type: Symlink")
      end
  | RawNode => Ok (mkStat (enc (nCid nd)) cumulsize cumulsize 0 "file" false false 0)
  | OtherNode => Err (MMsg "not unixfs node (proto or raw)")
  end.

(** walkBlock: whether everything under the node is local, and the bytes that
    are; an error stops the walk with what was counted so far. *)
Fixpoint walkBlock (nd : INode) : (bool * Z) * option MErr :=
  match nd with
  | mkINode _ _ _ rawlen links =>
      (fix go (links : list Got) (local : bool) (sizeLocal : Z) : (bool * Z) * option MErr :=
         match links with
         | [] => ((local, sizeLocal), None)
         | GotNotFound :: links' => go links' false sizeLocal
         | GotErr e :: _ => ((local, sizeLocal), Some e)
         | GotNode child :: links' =>
             match walkBlock child with
             | (_, Some e) => ((local, sizeLocal), Some e)
             | ((childLocal, childLocalSize), None) =>
                 go links' (local && childLocal) (u64 (sizeLocal + childLocalSize))
             end
         end) links true (u64 rawlen)
  end.

(** ** The commands on the tree *)

Record NodeListing := mkListing { lName : string; lType : Z; lSize : Z; lHash : string }.

Section files.
Context (F : string → list string → option string).
(** The core API resolving /ipfs/ paths, the IPLD node behind a tree, and the
    order of the entries of a directory *)
Context (ResolveNode : string → res MErr Tree) (node_of : Tree → INode).
Context (ForEachLink : gmap string Tree → list (string * Tree)) (root_name : string).
Local Abbreviation MF := (M Tree MErr).

Definition getNodeFromPath (p : string) : MF Tree :=
  if HasPrefix p "/ipfs/" then mlift (ResolveNode p)
  else x ← Lookup p; mret x.2.

(** filesStatCmd.Run *)
Definition filesStatCmd (enc : string → string) (hash size : bool) (format : string) (withLocal : bool)
    (arg : string) : MF statOutput :=
  _ ← mlift (statGetFormatOptions hash size format);
  path ← mlift (checkPath arg);
  nd ← getNodeFromPath path;
  o ← mlift (statNode enc (node_of nd));
  if withLocal then
    match walkBlock (node_of nd) with
    | (_, Some e) => mthrow e
    | ((local, sizeLocal), None) =>
        mret (mkStat (Hash o) (sSize o) (CumulativeSize o) (Blocks o) (sType o) true local sizeLocal)
    end
  else mret o.

(** ensureContainingDirectoryExists *)
Definition ensureContainingDirectoryExists (pth : string) (builder : option Builder) : MF unit :=
  let dirtomake := Dir pth in
  if decide (dirtomake = "/") then mret () else Mkdir F dirtomake true false builder.

(** filesCpCmd.Run *)
Definition filesCpCmd (prefix : res MErr (option Builder)) (mkParents flush : bool) (arg0 arg1 : string) : MF unit :=
  prefix ← mlift prefix;
  src ← mlift (checkPath arg0);
  let src := TrimRight src in
  dst ← mlift (checkPath arg1);
  let dst := if last_is_slash dst then dst +:+ Base src else dst in
  node ← getNodeFromPath src;
  _ ← (if mkParents then ensureContainingDirectoryExists dst prefix else mret ());
  _ ← PutNode F dst node;
  if flush then _ ← FlushPath F dst; mret () else mret ().

(** filesLsCmd.Run; [list_dir] is Directory.List *)
Fixpoint list_dir (enc : string → string) (entries : list (string * Tree)) : res MErr (list NodeListing) :=
  match entries with
  | [] => Ok []
  | (name, t) :: es =>
      l ← match t with
          | TDir _ _ => Ok (mkListing name 1 0 (enc (nCid (node_of t))))
          | TFile _ _ data => Ok (mkListing name 0 (Z.of_nat (String.length data)) (enc (nCid (node_of t))))
          | TOther _ => Err (MMsg "unrecognized node type in cache node")
          end;
      ls ← list_dir enc es;
      Ok (l :: ls)
  end.

Definition filesLsCmd (enc : string → string) (long : bool) (arg : option string) : MF (list NodeListing) :=
  path ← mlift (checkPath (default "/" arg));
  fsn ← Lookup path;
  match fsn.2 with
  | TDir _ entries =>
      if long then mlift (list_dir id (ForEachLink entries))
      else mret ((λ e, mkListing e.1 0 0 "") <$> ForEachLink entries)
  | TFile _ _ data =>
      let name := (PathSplit path).2 in
      mret [if long then mkListing name 0 (Z.of_nat (String.length data)) (enc (nCid (node_of fsn.2)))
            else mkListing name 0 0 ""]
  | TOther _ => mthrow (MMsg "unrecognized type")
  end.

(** *** Bytes *)

Definition slen (s : string) : Z := Z.of_nat (String.length s).
Definition stake (n : Z) (s : string) : string := String.substring 0 (Z.to_nat n) s.
Fixpoint zeros (n : nat) : string := match n with 0 => "" | S n => String Ascii.zero (zeros n) end.

(** DagModifier.Seek past the end fills the file with zeros. *)
Definition seek_fill (c : string) (offset : Z) : string := c +:+ zeros (Z.to_nat (offset - slen c)).

(** DagModifier.Write at an offset inside the file *)
Definition overwrite (c : string) (offset : Z) (d : string) : string :=
  stake offset c +:+ d +:+ sdrop (Z.to_nat offset + String.length d) c.

(** filesReadCmd.Run: the bytes emitted *)
Definition filesReadCmd (offset : option Z) (count : option Z) (arg : string) : MF string :=
  path ← mlift (checkPath arg);
  fsn ← Lookup path;
  match fsn.2 with
  | TFile _ _ data =>
      _ ← may_fail F "open" fsn.1;
      let offset := default 0%Z offset in
      if (offset <? 0)%Z then mthrow (MMsg "cannot specify negative offset")
      else if (offset >? slen data)%Z then mthrow (MMsg "offset was past end of file")
      else
        let r := sdrop (Z.to_nat offset) data in
        match count with
        | None => mret r
        | Some count => if (count <? 0)%Z then mthrow (MMsg "cannot specify negative 'count'")
                        else mret (stake count r)
        end
  | _ => mthrow (MMsg (path +:+ " was not a file"))
  end.

(** filesMvCmd.Run *)
Definition filesMvCmd (flush : bool) (arg0 arg1 : string) : MF unit :=
  src ← mlift (checkPath arg0);
  dst ← mlift (checkPath arg1);
  _ ← Mv F root_name src dst;
  if flush then _ ← FlushPath F "/"; mret () else mret ().

(** getParentDir *)
Definition getParentDir (dir : string) : MF Directory :=
  x ← Lookup dir;
  match x.2 with
  | TDir _ _ => mret x.1
  | _ => mthrow (MMsg "expected *mfs.Directory, didn't get it. This is likely a race condition")
  end.

Definition dir_builder (d : Directory) : MF Builder := λ t,
  match walk_parts d t with
  | Ok (TDir b _) => (Ok b, t)
  | _ => (Err (MMsg "Not a directory"), t)
  end.

(** getFileHandle: the path of the file opened or created *)
Definition getFileHandle (pth : string) (create : bool) (builder : option Builder) : MF (list string) := λ t,
  match Lookup pth t with
  | (Ok (p, TFile _ _ _), _) => (Ok p, t)
  | (Ok _, _) => (Err (MMsg (pth +:+ " was not a file")), t)
  | (Err ErrNotExist, _) =>
      if create then
        (let '(dirname, fname) := PathSplit pth in
         pdir ← getParentDir dirname;
         b ← match builder with Some b => mret b | None => dir_builder pdir end;
         _ ← AddChild F pdir fname (TFile b false "");
         fsn ← Child pdir fname;
         match fsn with
         | TFile _ _ _ => mret (pdir ++ [fname])
         | _ => mthrow (MMsg "expected *mfs.File, didn't get it. This is likely a race condition")
         end) t
      else (Err ErrNotExist, t)
  | (Err e, _) => (Err e, t)
  end.

(** What the body of the write does with an open file: the result, and the bytes
    the descriptor holds when it is closed. *)
Definition write_body (p : list string) (trunc : bool) (offset : Z) (count : option Z) (file : res MErr string)
    (data : string) : res MErr unit * string :=
  match (if trunc then F "truncate" p else None) with
  | Some e => (Err (MMsg e), data)
  | None =>
      let c1 := if trunc then "" else data in
      if match count with Some n => (n <? 0)%Z | None => false end then
        (Err (MMsg "cannot have negative byte count"), c1)
      else
        let c2 := seek_fill c1 offset in
        match file with
        | Err e => (Err e, c2)
        | Ok input =>
            let input := match count with Some n => stake n input | None => input end in
            (Ok (), overwrite c2 offset input)
        end
  end.

Definition set_file (raw : option bool) (data : string → string) (t : Tree) : Tree :=
  match t with TFile b r d => TFile b (default r raw) (data d) | _ => t end.

(** filesWriteCmd.Run; the deferred Close stores what the descriptor holds, and
    its error is returned if there is no other. *)
Definition filesWriteCmd (prefix : res MErr (option Builder)) (create mkParents trunc flush : bool)
    (rawLeaves : option bool) (offset : option Z) (count : option Z) (file : res MErr string) (arg : string) : MF unit :=
  path ← mlift (checkPath arg);
  prefix ← mlift prefix;
  let offset := default 0%Z offset in
  if (offset <? 0)%Z then mthrow (MMsg "cannot have negative write offset")
  else
    _ ← (if mkParents then ensureContainingDirectoryExists path prefix else mret ());
    p ← getFileHandle path create prefix;
    _ ← mmodify (alter_at p (set_file rawLeaves id));
    _ ← may_fail F "open" p;
    t ← mget;
    match walk_parts p t with
    | Ok (TFile _ _ data) =>
        let '(r, data') := write_body p trunc offset count file data in
        match F "close" p with
        | Some e => mlift (match r with Ok _ => Err (MMsg e) | Err e => Err e end)
        | None => _ ← mmodify (alter_at p (set_file None (λ _, data'))); mlift r
        end
    | _ => mthrow (MMsg "not a file")
    end.

(** filesMkdirCmd.Run *)
Definition filesMkdirCmd (prefix : res MErr (option Builder)) (dashp flush : bool) (arg : string) : MF unit :=
  dirtomake ← mlift (checkPath arg);
  prefix ← mlift prefix;
  Mkdir F dirtomake dashp flush prefix.

(** filesFlushCmd.Run *)
Definition filesFlushCmd (enc : string → string) (arg : option string) : MF string :=
  n ← FlushPath F (default "/" arg);
  mret (enc (nCid (node_of n))).

(** updatePath *)
Definition updatePath (pth : string) (builder : option Builder) : MF unit :=
  match builder with
  | None => mret ()
  | Some b =>
      x ← Lookup pth;
      match x.2 with
      | TDir _ _ => SetCidBuilder x.1 b
      | _ => mthrow (MMsg "can only update directories")
      end
  end.

(** filesChcidCmd.Run *)
Definition filesChcidCmd (prefix : res MErr (option Builder)) (flush : bool) (arg : option string) : MF unit :=
  let path := default "/" arg in
  prefix ← mlift prefix;
  _ ← updatePath path prefix;
  if flush then _ ← FlushPath F path; mret () else mret ().

(** The path an argument of rm names, once it is known not to be the root *)
Definition rm_path (path : string) : string := if last_is_slash path then TrimSuffix path slash else path.

(** One argument of rm: an error of it is collected, [None] is none. *)
Definition rm_one (force dashr : bool) (arg : string) : M Tree Empty_set (option MErr) := λ t,
  match checkPath arg with
  | Err e => (Ok (Some e), t)
  | Ok path =>
      if decide (path = "/") then (Ok (Some (MMsg "cannot delete root")), t)
      else
        let '(dir, name) := PathSplit (rm_path path) in
        match getParentDir dir t with
        | (Err e, t) => (Ok (if force && bool_decide (e = ErrNotExist) then None else Some e), t)
        | (Ok pdir, t) =>
            let unlink_flush :=
              match Unlink pdir name t with
              | (Err e, t') => (Ok (if force && bool_decide (e = ErrNotExist) then None else Some e), t')
              | (Ok _, t') => (Ok (match Flush F pdir t' with (Err e, _) => Some e | (Ok _, _) => None end), t')
              end in
            if force then unlink_flush
            else
              match Child pdir name t with
              | (Err e, _) => (Ok (Some e), t)
              | (Ok (TDir _ _), _) =>
                  if dashr then unlink_flush
                  else (Ok (Some (MMsg (path +:+ " is a directory, use -r to remove directories"))), t)
              | (Ok _, _) => unlink_flush
              end
        end
  end.

(** The loop of filesRmCmd.Run *)
Fixpoint rm_all (force dashr : bool) (args : list string) (errs : list MErr) (t : Tree) : list MErr * Tree :=
  match args with
  | [] => (errs, t)
  | arg :: args' =>
      match rm_one force dashr arg t with
      | (Ok o, t') => rm_all force dashr args' (errs ++ option_list o) t'
      | (Err e, t') => match e with end
      end
  end.

(** filesRmCmd.Run *)
Definition filesRmCmd (force dashr : bool) (args : list string) : MF unit := λ t,
  let '(errs, t') := rm_all force dashr args [] t in
  (match errs with [] => Ok () | _ => Err (MMsg "can't remove some files") end, t').

End files.

(** ** Removing *)

(** The path an argument of rm names; the root and malformed paths name none. *)
Definition rm_target (arg : string) : option (list string) :=
  match checkPath arg with
  | Ok path => if decide (path = "/") then None
               else let '(dir, name) := PathSplit (rm_path path) in Some (parts_of dir ++ [name])
  | Err _ => None
  end.

Lemma walk_view_None p t e : walk_parts p t = Err e → view p t = None.
Proof.
  intros Hw. destruct (view p t) eqn:Hv; [|done]. apply walk_of_view in Hv as (n & Hn & _). congruence.
Qed.

Section removing.
Context (F : string → list string → option string).

Lemma getParentDir_spec dir t r t' :
  getParentDir dir t = (r, t') →
  t' = t ∧ match r with
           | Ok d => d = parts_of dir ∧ view d t = Some None
           | Err e => e = ErrNotExist → view (parts_of dir) t = None
           end.
Proof.
  unfold getParentDir. rewrite bind_unfold. destruct (Lookup dir t) as [rl tl] eqn:Hl.
  unfold Lookup in Hl. destruct (walk_parts (parts_of dir) t) as [n|e] eqn:Hw; injection Hl as <- <-.
  - simpl. destruct n; intros [= <- <-]; split; try done. split; [done|]. by eapply walk_dir.
  - intros [= <- <-]. split; [done|]. intros _. by eapply walk_view_None.
Qed.

(** An argument either changes nothing or removes what it names, a directory only
    when that was asked for. *)
Lemma rm_one_spec force dashr arg t o t' :
  rm_one F force dashr arg t = (Ok o, t') →
  (t' = t ∧ (o = None → ∃ p, rm_target arg = Some p ∧ view p t = None)) ∨
  ∃ p, rm_target arg = Some p ∧
    (∀ q, view q t' = match strip p q with Some _ => None | None => view q t end) ∧
    (force = false → dashr = false → view p t ≠ Some None).
Proof.
  unfold rm_one, rm_target. destruct (checkPath arg) as [path|e]; [|intros [= <- <-]; by left].
  destruct (decide (path = "/")); [intros [= <- <-]; by left|].
  destruct (PathSplit (rm_path path)) as [dir name].
  destruct (getParentDir dir t) as [rd td] eqn:Hd. apply getParentDir_spec in Hd as [-> Hd].
  destruct rd as [pdir|e].
  2: { intros [= <- <-]. left. split; [done|]. destruct force, e; simpl; try done. intros _.
       eexists. split; [done|]. by apply view_None_app, Hd. }
  destruct Hd as [-> Hdir]. set (p := parts_of dir ++ [name]).
  destruct (Unlink (parts_of dir) name t) as [ru tu] eqn:Hu. apply Unlink_spec in Hu; [|done]. fold p in Hu.
  assert (∀ x, match ru with
     | Ok _ => (Ok (E := Empty_set) (match Flush F (parts_of dir) tu with (Ok _, _) => None | (Err e, _) => Some e end), tu)
     | Err e => (Ok (if force && bool_decide (e = ErrNotExist) then None else Some e), tu) end = (Ok o, x) →
     (x = t ∧ (o = None → ∃ p', Some p = Some p' ∧ view p' t = None)) ∨
     ∀ q, view q x = match strip p q with Some _ => None | None => view q t end) as Hul.
  { intros x. destruct ru as [[]|e]; intros [= <- <-]; [by right|]. left. destruct Hu as [-> Hn]. split; [done|].
    destruct force, e; simpl; try done. intros _. eauto. }
  destruct force.
  { intros Hr. destruct (Hul t') as [Hx|Hx]; [|by left|right; exists p; by split_and!].
    rewrite <- Hr. by destruct ru. }
  destruct (Child (parts_of dir) name t) as [rc tc] eqn:Hc. apply Child_spec in Hc as [-> Hc]; [|done].
  destruct rc as [[b e|b rw data|x]|e].
  - destruct dashr; [|intros [= <- <-]; by left].
    intros Hr. destruct (Hul t') as [Hx|Hx]; [|by left|right; exists p; by split_and!]. rewrite <- Hr. by destruct ru.
  - intros Hr. destruct (Hul t') as [Hx|Hx]; [rewrite <- Hr; by destruct ru|by left|].
    right. exists p. split_and!; [done|done|]. intros _ _. rewrite (proj1 Hc [] : view p t = _). done.
  - by destruct (proj2 Hc x).
  - intros [= <- <-]. by left.
Qed.

Lemma rm_all_spec force dashr args errs t errs' t' :
  rm_all F force dashr args errs t = (errs', t') →
  (∃ more, errs' = errs ++ more) ∧
  (∀ q, view q t' = view q t ∨
        (view q t' = None ∧ ∃ arg p, arg ∈ args ∧ rm_target arg = Some p ∧ p `prefix_of` q)) ∧
  (errs' = [] → ∀ arg, arg ∈ args → ∃ p, rm_target arg = Some p ∧ ∀ q, view (p ++ q) t' = None) ∧
  (force = false → dashr = false → ∀ q, view q t = Some None → view q t' = Some None).
Proof.
  revert errs t. induction args as [|arg args IH]; intros errs t; simpl.
  { intros [= <- <-]. split_and!; [exists []; by rewrite app_nil_r|by left|by intros _ ? ?%not_elem_of_nil|done]. }
  destruct (rm_one F force dashr arg t) as [[o|[]] t1] eqn:H1. intros Hr. apply rm_one_spec in H1.
  destruct (IH _ _ Hr) as ((more & Hm) & Hq & Hall & Hdir). split_and!.
  - exists (option_list o ++ more). by rewrite app_assoc.
  - intros q. assert (view q t1 = view q t ∨ (view q t1 = None ∧ ∃ p, rm_target arg = Some p ∧ p `prefix_of` q)) as [E1|(E1 & p & Hp & Hpre)].
    { destruct H1 as [[-> _]|(p & Hp & Hv & _)]; [by left|]. rewrite Hv. destruct (strip p q) eqn:Hs; [|by left].
      right. split; [done|]. exists p. split; [done|]. apply strip_Some in Hs as ->. by apply prefix_app_r. }
    + destruct (Hq q) as [E2|(E2 & a & p & Ha & Hp & Hpre)]; [left; congruence|].
      right. split; [done|]. exists a, p. split_and!; [by right|done|done].
    + right. split; [|exists arg, p; split_and!; [by left|done|done]].
      destruct (Hq q) as [->|[-> _]]; done.
  - intros Hnil a [->|Ha]%elem_of_cons; [|by apply Hall].
    assert (o = None) as -> by (rewrite Hm in Hnil; destruct o; simpl in Hnil; [by destruct errs|done]).
    assert (∃ p, rm_target arg = Some p ∧ ∀ q, view (p ++ q) t1 = None) as (p & Hp & Hv).
    { destruct H1 as [[-> Hn]|(p & Hp & Hv & _)].
      - destruct (Hn eq_refl) as (p & Hp & Hv). exists p. split; [done|]. intros q. by apply view_None_app.
      - exists p. split; [done|]. intros q. by rewrite Hv, strip_app. }
    exists p. split; [done|]. intros q. destruct (Hq (p ++ q)) as [->|[-> _]]; [apply Hv|done].
  - intros Hf Hd q Hv. apply Hdir; [done..|]. destruct H1 as [[-> _]|(p & Hp & Hv1 & Hn)]; [done|].
    rewrite Hv1. destruct (strip p q) as [r|] eqn:Hs; [|done]. apply strip_Some in Hs as ->.
    by destruct (Hn Hf Hd); eapply view_prefix_dir.
Qed.

End removing.

(** C7.  `ipfs files rm` removes what its arguments name and nothing else: every path
    keeps its content or lies under an argument; the root is never removed; without
    -r or --force every directory stays; and if no error is reported, nothing is
    left at or under any of the arguments. *)
Theorem filesRm_exact F force dashr args t r t' :
  filesRmCmd F force dashr args t = (r, t') →
  (∀ q, view q t' = view q t ∨
        (view q t' = None ∧ ∃ arg p, arg ∈ args ∧ rm_target arg = Some p ∧ p `prefix_of` q)) ∧
  (view [] t = Some None → view [] t' = Some None) ∧
  (force = false → dashr = false → ∀ q, view q t = Some None → view q t' = Some None) ∧
  (r = Ok () → ∀ arg, arg ∈ args → ∃ p, rm_target arg = Some p ∧ ∀ q, view (p ++ q) t' = None).
Proof.
  unfold filesRmCmd. destruct (rm_all F force dashr args [] t) as [errs t1] eqn:Hr. intros [= <- <-].
  apply rm_all_spec in Hr as (_ & Hq & Hall & Hdir). split_and!; [done| |done|].
  - intros Hroot. destruct (Hq []) as [->|(_ & arg & p & _ & Hp & Hpre)]; [done|].
    apply prefix_nil_inv in Hpre as ->. unfold rm_target in Hp. destruct (checkPath arg); [|done].
    destruct (decide _); [done|]. destruct (PathSplit _) as [dir name]. injection Hp as Hp. by destruct (parts_of dir).
  - intros Hok. apply Hall. by destruct errs.
Qed.

(** ** Writing and reading back *)

Lemma checkPath_abs comps : Forall file_name comps → comps ≠ [] → checkPath (abs comps) = Ok (abs comps).
Proof.
  intros Hn Hne. unfold checkPath. rewrite decide_False by done.
  assert (HasPrefix (abs comps) slash = true) as -> by apply HasPrefix_app.
  unfold last_is_slash. rewrite abs_no_trailing by done. simpl. by rewrite Clean_abs.
Qed.

Section writing.
Context (F : string → list string → option string).

Lemma view_file p t d : view p t = Some (Some d) → ∃ b r, walk_parts p t = Ok (TFile b r d).
Proof. intros (n & Hn & b & r & ->)%walk_of_view. eauto. Qed.

Lemma file_view p t b r d : walk_parts p t = Ok (TFile b r d) → view p t = Some (Some d).
Proof. intros Hw. pose proof (view_walk _ [] _ _ Hw) as Hv. by rewrite app_nil_r in Hv. Qed.

Lemma set_file_view p raw f t d q :
  view p t = Some (Some d) →
  view q (alter_at p (set_file raw f) t) = if decide (q = p) then Some (Some (f d)) else view q t.
Proof.
  intros (b & r & Hw)%view_file. rewrite (view_alter _ _ _ _ _ Hw). simpl.
  rewrite <- (strip_at _ _ _ (λ _, None)); [by destruct (strip p q) as [[|m l]|]|].
  intros m l ->%strip_Some. by rewrite (view_walk _ _ _ _ Hw).
Qed.

(** Opening for writing: the file that is there, or a new empty one. *)
Lemma getFileHandle_spec pth create builder t p t' :
  getFileHandle F pth create builder t = (Ok p, t') →
  (p = parts_of pth ∧ t' = t ∧ ∃ d, view p t = Some (Some d)) ∨
  (create = true ∧ p = parts_of (PathSplit pth).1 ++ [(PathSplit pth).2] ∧ view p t = None ∧
   ∀ q, view q t' = if decide (q = p) then Some (Some "") else view q t).
Proof.
  unfold getFileHandle. destruct (Lookup pth t) as [rl tl] eqn:Hl. apply Lookup_spec in Hl as [-> Hl].
  destruct rl as [[p0 n]|e].
  { destruct (Hl _ _ eq_refl) as [-> Hw]. destruct n; intros [= <- <-]. left. split_and!; [done..|].
    eexists. by eapply file_view. }
  destruct e; try done. destruct create; [|done]. destruct (PathSplit pth) as [dirname fname]. simpl.
  intros (pdir & t0 & Hp & Hr)%bind_ok. apply getParentDir_spec in Hp as [-> [-> Hd]].
  apply bind_ok in Hr as (b & t0 & Hb & Hr).
  assert (t0 = t) as -> by (destruct builder; [by injection Hb|unfold dir_builder in Hb;
    destruct (walk_parts _ t) as [[]|]; by simplify_eq]).
  apply bind_ok in Hr as ([] & t1 & Ha & Hr). apply AddChild_spec in Ha as [Hnew Ha]; [|done].
  apply bind_ok in Hr as (fsn & t2 & Hc & Hr). apply Child_spec in Hc as [-> _];
    [|by rewrite Ha, strip_below].
  destruct fsn; try done. injection Hr as <- <-. right. split_and!; [done..|]. intros q. rewrite Ha.
  rewrite <- (strip_at _ _ _ (λ _, None)); [by destruct (strip _ q) as [[|m l]|]|].
  intros m l ->%strip_Some. by rewrite (view_None_app _ _ _ Hnew).
Qed.

(** The parents of a file that is to be written or copied. *)
Lemma ensure_parents_spec ds f builder t r t' :
  Forall file_name (ds ++ [f]) → view [] t = Some None →
  ensureContainingDirectoryExists F (abs (ds ++ [f])) builder t = (r, t') → grown ds t t'.
Proof.
  intros Hn Hroot. unfold ensureContainingDirectoryExists. rewrite Dir_abs by done.
  apply Forall_app in Hn as [Hn _]. case_decide as Hc; [intros [= _ <-]; by left|].
  intros Hr. apply Mkdir_spec in Hr as [Hg _]; [|done]. by rewrite mkdir_parts_abs in Hg.
Qed.

Lemma grown_above ds f t t' : grown ds t t' → view (ds ++ [f]) t' = view (ds ++ [f]) t.
Proof.
  intros Hg. destruct (Hg (ds ++ [f])) as [|(_ & _ & Hp)]; [done|].
  apply prefix_length in Hp. rewrite length_app in Hp. simpl in Hp. lia.
Qed.

(** What a write does to the bytes of a file. *)
Definition written (trunc : bool) (offset : Z) (count : option Z) (old input : string) : string :=
  overwrite (seek_fill (if trunc then "" else old) offset) offset
    (match count with Some n => stake n input | None => input end).

Lemma write_body_ok p trunc offset count file data data' :
  write_body F p trunc offset count file data = (Ok (), data') →
  ∃ input, file = Ok input ∧ data' = written trunc offset count data input.
Proof.
  unfold write_body, written. destruct (if trunc then _ else _); [done|].
  destruct (match count with Some n => _ | None => false end); [done|]. destruct file; [|done].
  intros [= <-]. eauto.
Qed.

Lemma filesWrite_ok prefix create mkParents trunc flush raw offset count file ds f t t' :
  Forall file_name (ds ++ [f]) → view [] t = Some None →
  filesWriteCmd F prefix create mkParents trunc flush raw offset count file (abs (ds ++ [f])) t = (Ok (), t') →
  let p := ds ++ [f] in
  F "open" p = None ∧
  ∃ input old, file = Ok input ∧
    (view p t = Some (Some old) ∨ (view p t = None ∧ old = "" ∧ create = true)) ∧
    view p t' = Some (Some (written trunc (default 0%Z offset) count old input)) ∧
    ∀ q, q ≠ p → view q t' = view q t ∨ (mkParents = true ∧ view q t = None ∧ view q t' = Some None ∧ q `prefix_of` ds).
Proof.
  intros Hn Hroot. unfold filesWriteCmd.
  assert (ds ++ [f] ≠ []) as Hne by (by destruct ds). rewrite bind_unfold, checkPath_abs by done. unfold mlift at 1.
  intros (pre & t0 & [_ ->]%mlift_ok & Hr)%bind_ok. destruct (_ <? 0)%Z; [done|].
  apply bind_ok in Hr as ([] & t1 & Hmk & Hr).
  assert (grown ds t t1 ∧ (mkParents = false → t1 = t)) as [Hg Hsame].
  { destruct mkParents; [split; [by eapply ensure_parents_spec|done]|injection Hmk as <-; split; [by left|done]]. }
  apply bind_ok in Hr as (p & t2 & Hh & Hr). apply getFileHandle_spec in Hh.
  rewrite PathSplit_abs in Hh by done. simpl in Hh.
  assert (parts_of (abs_dir ds) = ds) as Hpd by (apply Forall_app in Hn as [Hn _]; by apply parts_of_abs_dir).
  rewrite parts_of_abs, Hpd in Hh by done.
  assert (∃ old, p = ds ++ [f] ∧ view p t2 = Some (Some old) ∧
    (view p t = Some (Some old) ∨ (view p t = None ∧ old = "" ∧ create = true)) ∧
    ∀ q, q ≠ p → view q t2 = view q t1) as (old & -> & Hold & Horig & Hoth).
  { destruct Hh as [(-> & -> & d & Hd)|(Hc & -> & Hnew & Hv)].
    - exists d. split_and!; [done|done|left; by rewrite <- (grown_above _ _ _ _ Hg)|done].
    - exists "". rewrite (grown_above _ _ _ _ Hg) in Hnew. split_and!; [done|by rewrite Hv, decide_True|by right|].
      intros q Hq. by rewrite Hv, decide_False. }
  apply bind_ok in Hr as ([] & t3 & H3 & Hr). injection H3 as <-.
  apply bind_ok in Hr as ([] & t4 & Hopen & Hr).
  assert (F "open" (ds ++ [f]) = None) as Ho by (unfold may_fail in Hopen; by destruct (F "open" (ds ++ [f]))).
  apply may_fail_spec in Hopen as ->. apply bind_ok in Hr as (? & t4 & Hget & Hr). injection Hget as <- <-.
  pose proof (set_file_view (ds ++ [f]) raw id t2 old) as Hset.
  assert (view (ds ++ [f]) (alter_at (ds ++ [f]) (set_file raw id) t2) = Some (Some old)) as Hv3
    by (rewrite Hset by done; by rewrite decide_True).
  destruct (view_file _ _ _ Hv3) as (b & rw & Hw). rewrite Hw in Hr.
  destruct (write_body _ _ _ _ _ _ _) as [r data'] eqn:Hb.
  split; [done|]. destruct (F "close" _); [by destruct r; apply mlift_ok in Hr as [? _]|].
  apply bind_ok in Hr as ([] & t5 & H5 & [-> ->]%mlift_ok). injection H5 as <-.
  apply write_body_ok in Hb as (input & -> & ->). exists input, old. split_and!; [done|done| |].
  - rewrite (set_file_view _ _ _ _ old) by done. by rewrite decide_True.
  - intros q Hq. rewrite (set_file_view _ _ _ _ old), decide_False, Hset, decide_False, Hoth by done.
    destruct (Hg q) as [|(? & ? & ?)]; [by left|]. destruct mkParents; [right; by split_and!|].
    left. by rewrite Hsame.
Qed.

Lemma filesRead_file comps t d offset count :
  Forall file_name comps → comps ≠ [] → F "open" comps = None → view comps t = Some (Some d) →
  (0 ≤ default 0 offset ≤ slen d)%Z → (∀ n, count = Some n → (0 ≤ n)%Z) →
  filesReadCmd F offset count (abs comps) t =
    (Ok (let r := sdrop (Z.to_nat (default 0%Z offset)) d in
         match count with Some n => stake n r | None => r end), t).
Proof.
  intros Hn Hne Ho (b & rw & Hw)%view_file Hoff Hcnt. unfold filesReadCmd.
  rewrite bind_unfold, checkPath_abs by done. unfold mlift at 1. rewrite bind_unfold. unfold Lookup.
  rewrite parts_of_abs, Hw by done. cbv beta iota. cbn [snd fst]. rewrite bind_unfold. unfold may_fail. rewrite Ho.
  cbv beta iota zeta delta [mret M_ret].
  destruct (Z.ltb_spec (default 0 offset) 0)%Z; [lia|]. destruct (Z.gtb_spec (default 0 offset) (slen d))%Z; [lia|].
  destruct count as [n|]; [|done]. specialize (Hcnt n eq_refl). by destruct (Z.ltb_spec n 0)%Z; [lia|].
Qed.

End writing.

(** C22.  `ipfs files write` then `ipfs files read` give the bytes back.  A write that
    succeeds leaves the file with its old bytes, or none if it was truncated or
    created, extended with zeros to the offset and overwritten from there with the
    input, cut to --count; it creates the file only with --create, changes no other
    path but for directories made with --parents; and reading returns that content. *)
Theorem filesWrite_read F prefix create mkParents trunc flush raw offset count file ds f t t' :
  Forall file_name (ds ++ [f]) → view [] t = Some None →
  filesWriteCmd F prefix create mkParents trunc flush raw offset count file (abs (ds ++ [f])) t = (Ok (), t') →
  ∃ input old, file = Ok input ∧
    (view (ds ++ [f]) t = Some (Some old) ∨ (view (ds ++ [f]) t = None ∧ old = "" ∧ create = true)) ∧
    let new := written trunc (default 0%Z offset) count old input in
    view (ds ++ [f]) t' = Some (Some new) ∧
    filesReadCmd F None None (abs (ds ++ [f])) t' = (Ok new, t') ∧
    ∀ q, q ≠ ds ++ [f] →
      view q t' = view q t ∨ (mkParents = true ∧ view q t = None ∧ view q t' = Some None ∧ q `prefix_of` ds).
Proof.
  intros Hn Hroot Hr. apply filesWrite_ok in Hr as (Ho & input & old & -> & Hold & Hnew & Hoth); [|done..].
  exists input, old. cbv zeta. split_and!; [done|done|done| |done].
  rewrite (filesRead_file F _ _ _ None None Hn ltac:(by destruct ds) Ho Hnew); [done|simpl; unfold slen; lia|done].
Qed.

(** ** Moving *)

Lemma FlushPath_same F pth : ∀ t r t', FlushPath F pth t = (r, t') → t' = t.
Proof.
  assert (∀ t0 : Tree, keeps (λ t, t = t0) (FlushPath F pth)) as Hk.
  { intros t0. assert (keeps (λ t, t = t0) (Lookup pth)) as Hl
      by (intros t r t' Hr Ht; by apply Lookup_spec in Hr as [-> _]).
    unfold FlushPath. apply keeps_bind; [exact Hl|]. intros x.
    apply keeps_bind; [intros t r t' Hf ->; exact (may_fail_spec F "flush" x.1 _ _ _ Hf)|]. intros _.
    apply keeps_bind; [exact Hl|]. intros y. apply keeps_ret. }
  intros t r t' Hr. by apply (Hk t _ _ _ Hr).
Qed.

(** Where a move puts the node, and whether the check for a move to the same place
    stops it from removing the source. *)
Definition mv_dest (t : Tree) (sf : string) (dd : list string) (df : string) : list string * string :=
  if decide (view (dd ++ [df]) t = Some None) then (dd ++ [df], sf) else (dd, df).

Definition keeps_source (root_name : string) (sd : list string) (sf : string) (dest : list string * string) : Prop :=
  dir_name root_name sd = dir_name root_name dest.1 ∧ sf = dest.2.

#[global] Instance keeps_source_dec root_name sd sf dest : Decision (keeps_source root_name sd sf dest).
Proof. unfold keeps_source. apply _. Defined.

Lemma filesMv_run F root_name flush sd sf dd df t t' :
  Forall file_name (sd ++ [sf]) → Forall file_name (dd ++ [df]) →
  filesMvCmd F root_name flush (abs (sd ++ [sf])) (abs (dd ++ [df])) t = (Ok (), t') →
  let dest := mv_dest t sf dd df in
  view (sd ++ [sf]) t ≠ None ∧ view dest.1 t = Some None ∧
  ∀ q, view q t' =
    let moved := match strip (dest.1 ++ [dest.2]) q with
                 | Some r => view ((sd ++ [sf]) ++ r) t | None => view q t end in
    if decide (keeps_source root_name sd sf dest) then moved
    else match strip (sd ++ [sf]) q with Some _ => None | None => moved end.
Proof.
  intros Hs Hd. unfold filesMvCmd.
  rewrite bind_unfold, (checkPath_abs (sd ++ [sf])) by (done || by destruct sd). unfold mlift at 1.
  rewrite bind_unfold, (checkPath_abs (dd ++ [df])) by (done || by destruct dd). unfold mlift at 1.
  intros ([] & t1 & Hmv & Hf)%bind_ok.
  assert (t' = t1) as ->.
  { destruct flush; [|by injection Hf as <-]. apply bind_ok in Hf as (x & t2 & Hx & Hr).
    apply FlushPath_same in Hx as ->. by injection Hr. }
  apply Mv_spec in Hmv. rewrite PathSplit_abs, abs_no_trailing, PathSplit_abs in Hmv by (done || by destruct dd).
  assert (parts_of (abs_dir sd) = sd) as Hps by (apply Forall_app in Hs as [Hs _]; by apply parts_of_abs_dir).
  assert (parts_of (abs_dir dd) = dd) as Hpd by (apply Forall_app in Hd as [Hd _]; by apply parts_of_abs_dir).
  rewrite Hps, Hpd in Hmv. cbv zeta. unfold mv_dest, keeps_source.
  destruct (decide (view (dd ++ [df]) t = Some None)); simpl in *; exact Hmv.
Qed.

(** What a successful `ipfs files mv` leaves, at every path: the source's tree is
    at the destination, inside it when that is a directory, everything else is as
    before, and the source is gone, unless the check for a move to the same place,
    which compares the names of the two directories and not their paths, holds. *)
Theorem filesMv_exact F root_name flush sd sf dd df t t' :
  Forall file_name (sd ++ [sf]) → Forall file_name (dd ++ [df]) →
  filesMvCmd F root_name flush (abs (sd ++ [sf])) (abs (dd ++ [df])) t = (Ok (), t') →
  let dest := mv_dest t sf dd df in
  view (sd ++ [sf]) t ≠ None ∧ view dest.1 t = Some None ∧
  ∀ q, view q t' =
    let moved := match strip (dest.1 ++ [dest.2]) q with
                 | Some r => view ((sd ++ [sf]) ++ r) t | None => view q t end in
    if decide (keeps_source root_name sd sf dest) then moved
    else match strip (sd ++ [sf]) q with Some _ => None | None => moved end.
Proof. apply filesMv_run. Qed.

(** A directory moved into itself is lost, although the command reports success:
    the copy goes with the source. *)
Theorem filesMv_into_itself F root_name flush sd sf dd df t t' :
  Forall file_name (sd ++ [sf]) → Forall file_name (dd ++ [df]) → sd ++ [sf] `prefix_of` dd ++ [df] →
  ¬ keeps_source root_name sd sf (mv_dest t sf dd df) →
  filesMvCmd F root_name flush (abs (sd ++ [sf])) (abs (dd ++ [df])) t = (Ok (), t') →
  view (sd ++ [sf]) t ≠ None ∧ (∀ q, view ((sd ++ [sf]) ++ q) t' = None) ∧ ∀ q, view ((dd ++ [df]) ++ q) t' = None.
Proof.
  intros Hs Hd [l Hl] Hk Hmv.
  destruct (filesMv_run F root_name flush sd sf dd df t t' Hs Hd Hmv) as (Hsrc & _ & Hv). cbv zeta in Hv.
  assert (∀ q, view ((sd ++ [sf]) ++ q) t' = None) as Hgone
    by (intros q; rewrite Hv, decide_False, strip_app by done; done).
  split_and!; [done|done|]. intros q. by rewrite Hl, <- app_assoc.
Qed.

(** *** A tree to try it on *)

Module FilesExample.

Definition b0 : Builder := mkBuilder 0 18 (-1).
Definition dir (l : list (string * Tree)) : Tree := TDir b0 (list_to_map l).
Definition file (d : string) : Tree := TFile b0 false d.
Definition F : string → list string → option string := λ _ _, None.

Definition t0 : Tree :=
  dir [("a", dir [("d", dir [("f", file "hello")])]); ("b", dir [("d", dir [])])].

End FilesExample.

(** Between directories of the same name a move is a copy. *)
Theorem filesMv_copies_example :
  let '(r, t') := filesMvCmd FilesExample.F "root" true "/a/d/f" "/b/d/f" FilesExample.t0 in
  r = Ok () ∧ view ["a"; "d"; "f"] t' = Some (Some "hello") ∧ view ["b"; "d"; "f"] t' = Some (Some "hello").
Proof. by vm_compute. Qed.

(** A write refused for its count has truncated the file already. *)
Theorem filesWrite_truncates_then_fails :
  let '(r, t') := filesWriteCmd FilesExample.F (Ok None) false false true true None None (Some (-1)%Z) (Ok "x")
                    "/a/d/f" FilesExample.t0 in
  is_err r = true ∧ view ["a"; "d"; "f"] t' = Some (Some "").
Proof. by vm_compute. Qed.

(** mkdir of two slashes makes a directory without a name. *)
Theorem filesMkdir_empty_name :
  let '(r, t') := filesMkdirCmd FilesExample.F (Ok None) false true "//" FilesExample.t0 in
  r = Ok () ∧ view [""] t' = Some None.
Proof. by vm_compute. Qed.

(** cp of the root into a directory makes an entry named ".". *)
Theorem filesCp_dot_entry :
  let '(r, t') := filesCpCmd FilesExample.F (λ _, Err ErrNotExist) (Ok None) false true "/" "/b/" FilesExample.t0 in
  r = Ok () ∧ view ["b"; "."; "a"; "d"; "f"] t' = Some (Some "hello").
Proof. by vm_compute. Qed.

Lemma filesRm_exact_witness :
  let '(r, t') := filesRmCmd FilesExample.F false true ["/a/d/f"; "/b/"] FilesExample.t0 in
  r = Ok () ∧ view ["b"; "d"] t' = None ∧ view [] t' = Some None.
Proof.
  destruct (filesRmCmd FilesExample.F false true ["/a/d/f"; "/b/"] FilesExample.t0) as [r t'] eqn:Hr.
  assert (r = Ok ()) as -> by (apply (f_equal fst) in Hr; vm_compute in Hr; congruence).
  destruct (filesRm_exact _ _ _ _ _ _ _ Hr) as (_ & Hroot & _ & Hgone).
  destruct (Hgone eq_refl "/b/" ltac:(right; left)) as (p & Hp & Hv).
  assert (p = ["b"]) as -> by (vm_compute in Hp; congruence).
  split_and!; [reflexivity|exact (Hv ["d"])|apply Hroot; reflexivity].
Defined.

Lemma filesWrite_read_witness :
  let '(r, t') := filesWriteCmd FilesExample.F (Ok None) true true false true None (Some 2%Z) None (Ok "abc")
                    "/a/new/f" FilesExample.t0 in
  r = Ok () ∧ ∃ new, filesReadCmd FilesExample.F None None "/a/new/f" t' = (Ok new, t').
Proof.
  destruct (filesWriteCmd FilesExample.F (Ok None) true true false true None (Some 2%Z) None (Ok "abc")
                    "/a/new/f" FilesExample.t0) as [r t'] eqn:Hr.
  assert (r = Ok ()) as -> by (apply (f_equal fst) in Hr; vm_compute in Hr; congruence).
  split; [reflexivity|].
  destruct (filesWrite_read FilesExample.F (Ok None) true true false true None (Some 2%Z) None (Ok "abc")
    ["a"; "new"] "f" FilesExample.t0 t') as (input & old & _ & _ & _ & Hread & _).
  - repeat constructor; by vm_compute.
  - reflexivity.
  - exact Hr.
  - eexists. exact Hread.
Defined.

Lemma filesMv_exact_witness :
  let '(r, t') := filesMvCmd FilesExample.F "root" true "/a/d/f" "/b/g" FilesExample.t0 in
  r = Ok () ∧ view ["b"; "g"] t' = Some (Some "hello") ∧ view ["a"; "d"; "f"] t' = None.
Proof.
  destruct (filesMvCmd FilesExample.F "root" true "/a/d/f" "/b/g" FilesExample.t0) as [r t'] eqn:Hr.
  assert (r = Ok ()) as -> by (apply (f_equal fst) in Hr; vm_compute in Hr; congruence).
  destruct (filesMv_exact FilesExample.F "root" true ["a"; "d"] "f" ["b"] "g" FilesExample.t0 t')
    as (_ & _ & Hv); [repeat constructor; by vm_compute..|exact Hr|].
  split_and!; [reflexivity|rewrite Hv; by vm_compute..].
Defined.
