(* ===== verification/Adder.v ===== *)
(** * Adding files (src/core/coreunix/add.go)

    An [Adder] builds a tree of the mutable file system from files and pins its
    root.  It holds the pin lock, so that the garbage collector does not take what
    is not pinned yet, and lets the collector in between two files when one asks,
    with what it has so far pinned. *)

From Stdlib Require Import ZArith Ascii String.
From stdpp Require Import base gmap sets list strings.
From S2P Require Import Prelude GoStrings GoFS Mfs.

(** files.Node: what is given to be added.  A file comes with the reads that the
    chunker makes of it, a directory with the error its iterator ends with. *)
Inductive FNode :=
  | FFile (data : string) (reads : list (Z * bool))
  | FSymlink (Target : string)
  | FDir (entries : list (string * FNode)) (err : option MErr)
  | FUnknown.

(** coreiface.AddEvent *)
Record AddEvent := mkEvent { evName : string; evPath : string; evSize : string; evBytes : Z }.

(** The options of the adder *)
Record AdderOpts := mkOpts {
  Pin : bool; Progress : bool; Silent : bool; HasOut : bool; CidBuilder : Builder;
}.

(** What the libraries below provide: hashing, the layouts, symlinks, failures,
    and a directory's names in order. *)
Record AddEnv := mkAddEnv {
  cid_of : Tree → string;
  size_of : Tree → string;
  Layout : string → res MErr Tree;
  SymlinkNode : string → res MErr Tree;
  fails : string → list string → option string;
  ListNames : gmap string Tree → list string;
  (** How many events the channel takes before a sender blocks for ever, when its
      reader goes away *)
  room : option nat;
}.

(** A goroutine that blocks on the channel of events never returns. *)
Definition Blocked : MErr := MMsg "blocked on the channel of events".

(** The adder, the pins, the lock, and the moments the collector could run: the
    pins and the tree at each. *)
Record AS := mkAS {
  mroot : option Tree;
  unlocker : bool;
  tempRoot : option string;
  liveNodes : Z;
  pins : gset string;
  held : nat;
  gc_requests : list bool;
  Out : list AddEvent;
  windows : list (gset string * option Tree);
}.

Definition liveCacheSize : Z := 262144.
Definition progressReaderIncrement : Z := 262144.

Section adder.
Context (E : AddEnv) (O : AdderOpts).
Local Abbreviation A := (M AS MErr).
Local Abbreviation F := (fails E).

Definition fail_at (op : string) : A unit :=
  match F op [] with Some msg => mthrow (MMsg msg) | None => mret () end.

Definition put_root (t : Tree) : A unit := mmodify (λ s,
  mkAS (Some t) (unlocker s) (tempRoot s) (liveNodes s) (pins s) (held s) (gc_requests s) (Out s) (windows s)).
Definition put_live (n : Z) : A unit := mmodify (λ s,
  mkAS (mroot s) (unlocker s) (tempRoot s) n (pins s) (held s) (gc_requests s) (Out s) (windows s)).
Definition put_pins (temp : option string) (p : gset string) : A unit := mmodify (λ s,
  mkAS (mroot s) (unlocker s) temp (liveNodes s) p (held s) (gc_requests s) (Out s) (windows s)).
Definition put_lock (u : bool) (h : nat) : A unit := mmodify (λ s,
  mkAS (mroot s) u (tempRoot s) (liveNodes s) (pins s) h (gc_requests s) (Out s) (windows s)).
Definition emit (ev : AddEvent) : A unit :=
  s ← mget;
  if (match room E with Some n => n <=? length (Out s) | None => false end) then mthrow Blocked else
  mmodify (λ s,
    mkAS (mroot s) (unlocker s) (tempRoot s) (liveNodes s) (pins s) (held s) (gc_requests s) (Out s ++ [ev]) (windows s)).

(** Adder.mfsRoot: the empty directory the first time *)
Definition mfsRoot : A Tree :=
  s ← mget;
  match mroot s with
  | Some t => mret t
  | None =>
      _ ← fail_at "newroot";
      let t := TDir (CidBuilder O) ∅ in
      _ ← put_root t;
      mret t
  end.

(** An operation of [Mfs] on the root *)
Definition on_root {B} (c : M Tree MErr B) : A B :=
  t ← mfsRoot;
  let '(r, t') := c t in
  _ ← put_root t';
  mlift r.

(** SetMfsRoot *)
Definition SetMfsRoot (r : Tree) : A unit := put_root r.

(** gcLocker.PinLock and Unlocker.Unlock *)
Definition PinLock : A unit := λ s, put_lock true (S (held s)) s.
Definition Unlock : A unit := λ s, put_lock (unlocker s) (pred (held s)) s.

(** curRootNode: with one entry, that entry is the root. *)
Definition curRootNode : A Tree :=
  root ← mfsRoot;
  _ ← fail_at "getnode";
  match root with
  | TDir _ entries =>
      match map_to_list entries with
      | [(_, nd)] => _ ← fail_at "getlink"; mret nd
      | _ => mret root
      end
  | _ => mret root
  end.

(** PinRoot *)
Definition PinRoot (root : Tree) : A unit :=
  if Pin O then
    let rnk := cid_of E root in
    _ ← fail_at "add";
    s ← mget;
    _ ← match tempRoot s with
        | Some temp =>
            _ ← (if decide (temp ∈ pins s) then mret () else mthrow (MMsg "not pinned or pinned indirectly"));
            put_pins (Some rnk) (pins s ∖ {[temp]})
        | None => mret ()
        end;
    _ ← mmodify (λ s, mkAS (mroot s) (unlocker s) (tempRoot s) (liveNodes s) ({[rnk]} ∪ pins s) (held s)
                           (gc_requests s) (Out s) (windows s));
    fail_at "pinflush"
  else mret ().

(** outputDagnode; a nil channel takes nothing. *)
Definition outputDagnode (name : string) (dn : Tree) : A unit :=
  if HasOut O then _ ← fail_at "size"; emit (mkEvent name (cid_of E dn) (size_of E dn) 0) else mret ().

(** outputDirs: directories from the leaves up *)
Fixpoint outputDirs (path : string) (fsn : Tree) : A unit :=
  match fsn with
  | TFile _ _ _ => mret ()
  | TDir _ entries =>
      let outs := map_imap (λ name child, Some (outputDirs (PathJoin path name) child)) entries in
      _ ← mfor (ListNames E entries) (λ name, default (mthrow ErrNotExist) (outs !! name));
      _ ← fail_at "getnode";
      outputDagnode path fsn
  | TOther _ => mthrow (MMsg "unrecognized fsn type")
  end.

(** addNode *)
Definition addNode (node : Tree) (path : string) : A unit :=
  let path := if decide (path = "") then cid_of E node else path in
  let dir := Dir path in
  _ ← (if decide (dir ≠ ".") then on_root (Mkdir F dir true false (Some (CidBuilder O)))
       else _ ← mfsRoot; mret ());
  _ ← on_root (PutNode F path node);
  if Silent O then mret () else outputDagnode path node.

(** progressReader.Read: what is reported of a read of [n] bytes *)
Definition progress_read (path : string) (st : Z * Z) (r : Z * bool) : (Z * Z) * option AddEvent :=
  let bytes := (st.1 + r.1)%Z in
  if (bytes - st.2 >=? progressReaderIncrement)%Z || r.2
  then ((bytes, bytes), Some (mkEvent path "" "" bytes)) else ((bytes, st.2), None).

Fixpoint progress (path : string) (st : Z * Z) (reads : list (Z * bool)) : A unit :=
  match reads with
  | [] => mret ()
  | r :: reads' =>
      let '(st', ev) := progress_read path st r in
      _ ← match ev with Some ev => emit ev | None => mret () end;
      progress path st' reads'
  end.

(** addFile, with add *)
Definition addFile (path : string) (data : string) (reads : list (Z * bool)) : A unit :=
  _ ← (if Progress O then progress path (0, 0)%Z reads else mret ());
  dagnode ← mlift (Layout E data);
  _ ← fail_at "commit";
  addNode dagnode path.

(** addSymlink *)
Definition addSymlink (path target : string) : A unit :=
  dagnode ← mlift (SymlinkNode E target);
  _ ← fail_at "add";
  addNode dagnode path.

(** gcLocker.GCRequested *)
Definition GCRequested : A bool := λ s,
  match gc_requests s with
  | [] => (Ok false, s)
  | b :: bs => (Ok b, mkAS (mroot s) (unlocker s) (tempRoot s) (liveNodes s) (pins s) (held s) bs (Out s) (windows s))
  end.

(** The collector can run here. *)
Definition gc_window : A unit := mmodify (λ s,
  mkAS (mroot s) (unlocker s) (tempRoot s) (liveNodes s) (pins s) (held s) (gc_requests s) (Out s)
       (windows s ++ [(pins s, mroot s)])).

(** maybePauseForGC *)
Definition maybePauseForGC : A unit :=
  s ← mget;
  if unlocker s then
    req ← GCRequested;
    if req : bool then
      rn ← curRootNode;
      _ ← PinRoot rn;
      _ ← Unlock;
      _ ← gc_window;
      PinLock
    else mret ()
  else mret ().

(** What addFileNode does before it looks at the file *)
Definition before_node : A unit :=
  _ ← maybePauseForGC;
  s ← mget;
  _ ← (if (liveNodes s >=? liveCacheSize)%Z then _ ← mfsRoot; _ ← fail_at "flush"; put_live 0 else mret ());
  s ← mget;
  put_live (u64 (liveNodes s + 1)).

(** addFileNode and addDir *)
Fixpoint addFileNode (path : string) (file : FNode) (toplevel : bool) : A unit :=
  _ ← before_node;
  match file with
  | FDir entries err =>
      _ ← (if toplevel && bool_decide (path = "") then mret ()
           else on_root (Mkdir F path true false (Some (CidBuilder O))));
      _ ← (fix go (entries : list (string * FNode)) : A unit :=
             match entries with
             | [] => mret ()
             | (name, node) :: es => _ ← addFileNode (PathJoin path name) node false; go es
             end) entries;
      match err with Some e => mthrow e | None => mret () end
  | FSymlink target => addSymlink path target
  | FFile data reads => addFile path data reads
  | FUnknown => mthrow (MMsg "unknown file type")
  end.

(** The body of AddAllAndPin under the lock *)
Definition add_all (file : FNode) : A Tree :=
  _ ← addFileNode "" file true;
  rootdir ← mfsRoot;
  _ ← fail_at "flush";
  root ← match file with
         | FDir _ _ => mret ("", rootdir)
         | _ =>
             match rootdir with
             | TDir _ entries =>
                 match ListNames E entries with
                 | [] => mthrow (MMsg "expected at least one child dir, got none")
                 | name :: _ => c ← on_root (Child [] name); mret (name, c)
                 end
             | _ => mthrow (MMsg "not a directory")
             end
         end;
  _ ← fail_at "close";
  _ ← fail_at "getnode";
  _ ← outputDirs root.1 root.2;
  _ ← fail_at "sync";
  _ ← (if Pin O then PinRoot root.2 else mret ());
  mret root.2.

(** AddAllAndPin: the deferred function gives the lock back however it returns. *)
Definition AddAllAndPin (file : FNode) : A Tree :=
  _ ← (if Pin O then PinLock else mret ());
  (λ s, let '(r, s1) := add_all file s in
        match r with
        | Err e => if decide (e = Blocked) then (r, s1) else (r, if unlocker s1 then (Unlock s1).2 else s1)
        | Ok _ => (r, if unlocker s1 then (Unlock s1).2 else s1)
        end) : A Tree.

End adder.

(** ** What a computation leaves alone *)

(** [c] never changes what [π] shows of the state. *)
Definition kept {X B} (π : AS → X) (c : M AS MErr B) : Prop := ∀ x, keeps (λ s, π s = x) c.

Section kept.
Context {X : Type} (π : AS → X).

Lemma kept_run {B} (c : M AS MErr B) s r s' : kept π c → c s = (r, s') → π s' = π s.
Proof. intros Hc Hr. by apply (Hc (π s) s r s'). Qed.

Lemma kept_bind {B D} (c : M AS MErr B) (f : B → M AS MErr D) : kept π c → (∀ b, kept π (f b)) → kept π (c ≫= f).
Proof. intros Hc Hf x. apply keeps_bind; [apply Hc|]. intros b. apply Hf. Qed.

Lemma kept_get : kept π (mget : M AS MErr AS).
Proof. by intros x s r s' [= _ <-]. Qed.

Lemma kept_ret {B} (b : B) : kept π (mret b).
Proof. intros x. apply keeps_ret. Qed.

Lemma kept_throw {B} (e : MErr) : kept π (mthrow e : M AS MErr B).
Proof. intros x. apply keeps_throw. Qed.

Lemma kept_modify f : (∀ s, π (f s) = π s) → kept π (mmodify f : M AS MErr unit).
Proof. intros Hf x. apply keeps_modify. intros s. by rewrite Hf. Qed.

Lemma kept_lift {B} (r : res MErr B) : kept π (mlift r).
Proof. by intros x s r' s' [= _ <-]. Qed.

Lemma kept_fail_at E op : kept π (fail_at E op).
Proof. unfold fail_at. destruct (fails E op []); [apply kept_throw|apply kept_ret]. Qed.

Lemma kept_mfor {B} (l : list B) body : (∀ x, kept π (body x)) → kept π (mfor l body).
Proof. intros Hb. induction l; simpl; [apply kept_ret|]. apply kept_bind; [apply Hb|done]. Qed.

End kept.

Ltac kept := repeat match goal with
  | |- kept _ (_ ≫= _) => apply kept_bind; [|intros ?]
  | |- kept _ mget => apply kept_get
  | |- kept _ (mret _) => apply kept_ret
  | |- kept _ (mthrow _) => apply kept_throw
  | |- kept _ (mlift _) => apply kept_lift
  | |- kept _ (fail_at _ _) => apply kept_fail_at
  | |- kept _ (mmodify _) => by apply kept_modify
  | |- kept _ (mfor _ _) => apply kept_mfor; intros ?
  | H : kept _ ?c |- kept _ ?c => exact H
  | H : ∀ _, kept _ _ |- kept _ _ => apply H
  | H : ∀ _ _, kept _ _ |- kept _ _ => apply H
  | |- kept _ (if ?b then _ else _) => destruct b
  | |- kept _ (match ?x with _ => _ end) => destruct x
  end.

Lemma kept_emit {X} (π : AS → X) E ev :
  (∀ s, π (mkAS (mroot s) (unlocker s) (tempRoot s) (liveNodes s) (pins s) (held s) (gc_requests s) (Out s ++ [ev]) (windows s)) = π s) →
  kept π (emit E ev).
Proof. intros Hp. unfold emit. apply kept_bind; [apply kept_get|]. intros s. destruct (room E); kept. Qed.

Lemma kept_progress {X} (π : AS → X) E path reads :
  (∀ ev, kept π (emit E ev)) → ∀ st, kept π (progress E path st reads).
Proof.
  intros He. induction reads as [|r reads IH]; intros st; cbn [progress]; [apply kept_ret|].
  destruct (progress_read path st r) as [st' ev]. kept.
Qed.

(** ** What was given and what is built *)

Fixpoint entry_named (n : string) (es : list (string * FNode)) : option FNode :=
  match es with [] => None | (m, f) :: es' => if decide (m = n) then Some f else entry_named n es' end.

(** The view of what is to be added, as [view] is of a tree. *)
Fixpoint fview (E : AddEnv) (q : list string) (file : FNode) : option (option string) :=
  match q, file with
  | [], FDir _ _ => Some None
  | n :: q', FDir es _ => match entry_named n es with Some f => fview E q' f | None => None end
  | [], FFile data _ => Some (Some data)
  | _, FSymlink target => match SymlinkNode E target with Ok n => view q n | Err _ => None end
  | _, _ => None
  end.

(** Every directory has its names once, and they are names. *)
Inductive wf_node : FNode → Prop :=
  | wf_file data reads : wf_node (FFile data reads)
  | wf_symlink target : wf_node (FSymlink target)
  | wf_unknown : wf_node FUnknown
  | wf_dir es err :
      NoDup es.*1 → (∀ n f, (n, f) ∈ es → file_name n) → (∀ n f, (n, f) ∈ es → wf_node f) → wf_node (FDir es err).

(** What the adder relies on: the layouts keep the bytes, a directory lists its
    names, and a CID can be a name. *)
Class AddLaws (E : AddEnv) : Prop := {
  Layout_data d n : Layout E d = Ok n → view [] n = Some (Some d);
  ListNames_perm es : ListNames E es ≡ₚ (map_to_list es).*1;
  cid_name t : file_name (cid_of E t);
}.

Lemma find_entry_app n es m f :
  entry_named n (es ++ [(m, f)]) =
    match entry_named n es with Some g => Some g | None => if decide (m = n) then Some f else None end.
Proof. induction es as [|[k g] es IH]; simpl; [done|]. by destruct (decide (k = n)). Qed.

Lemma find_entry_None n es : n ∉ es.*1 → entry_named n es = None.
Proof.
  induction es as [|[k g] es IH]; simpl; [done|]. rewrite not_elem_of_cons. intros [Hne Hn].
  rewrite decide_False by congruence. by apply IH.
Qed.

(** The loop over the entries of a directory. *)
Lemma addFileNode_dir E O path es err toplevel :
  addFileNode E O path (FDir es err) toplevel =
    (_ ← before_node E O;
     _ ← (if toplevel && bool_decide (path = "") then mret ()
          else on_root E O (Mkdir (fails E) path true false (Some (CidBuilder O))));
     _ ← mfor es (λ e, addFileNode E O (PathJoin path e.1) e.2 false);
     match err with Some e => mthrow e | None => mret () end).
Proof.
  assert ((fix go (entries : list (string * FNode)) : M AS MErr unit :=
             match entries with
             | [] => mret ()
             | (name, node) :: es => _ ← addFileNode E O (PathJoin path name) node false; go es
             end) es = mfor es (λ e, addFileNode E O (PathJoin path e.1) e.2 false)) as Hgo.
  { induction es as [|[n f] es IH]; [done|]. cbn [mfor fst snd]. by rewrite <- IH. }
  cbn [addFileNode]. by rewrite Hgo.
Qed.

Section building.
Context (E : AddEnv) `{!AddLaws E} (O : AdderOpts).

(** The tree the adder has, before and after its first use. *)
Definition cur (s : AS) : Tree := default (TDir (CidBuilder O) ∅) (mroot s).

Lemma mfsRoot_ok s t s' : mfsRoot E O s = (Ok t, s') → t = cur s ∧ cur s' = cur s.
Proof.
  unfold mfsRoot. rewrite bind_unfold. cbv beta iota delta [mget]. unfold cur. destruct (mroot s) eqn:Hm.
  - intros [= <- <-]. by rewrite Hm.
  - rewrite bind_unfold. unfold fail_at. destruct (fails E "newroot" []); [done|]. by intros [= <- <-].
Qed.

Lemma on_root_ok {B} (c : M Tree MErr B) s b s' :
  on_root E O c s = (Ok b, s') → c (cur s) = (Ok b, cur s').
Proof.
  unfold on_root. intros (t & s1 & [-> _]%mfsRoot_ok & Hr)%bind_ok.
  destruct (c (cur s)) as [r t']. apply bind_ok in Hr as ([] & s2 & Hp & [-> ->]%mlift_ok).
  by injection Hp as <-.
Qed.

(** The adder's primitives leave the tree alone. *)
Lemma kept_mfsRoot_cur : kept cur (mfsRoot E O).
Proof.
  intros t0 s r s'. destruct r; [intros [_ ->]%mfsRoot_ok; done|].
  unfold mfsRoot. rewrite bind_unfold. cbv beta iota delta [mget]. destruct (mroot s) eqn:Hm; [done|].
  rewrite bind_unfold. unfold fail_at. destruct (fails E "newroot" []); by intros [= _ <-].
Qed.

Lemma kept_maybePause_cur : kept cur (maybePauseForGC E O).
Proof.
  assert (kept cur PinLock ∧ kept cur Unlock ∧ kept cur GCRequested) as (HL & HU & HG).
  { split_and!; intros t0 s r s'; [by intros [= _ <-]..|]. unfold GCRequested. destruct (gc_requests s); by intros [= _ <-]. }
  pose proof kept_mfsRoot_cur. unfold maybePauseForGC, curRootNode, PinRoot, put_pins, gc_window. kept.
Qed.

Lemma kept_before_cur : kept cur (before_node E O).
Proof. pose proof kept_maybePause_cur. pose proof kept_mfsRoot_cur. unfold before_node, put_live. kept. Qed.

(** What it takes for the node at [comps] to be built. *)
Definition adds (comps : list string) (new : list string → option (option string)) (s s' : AS) : Prop :=
  ∀ q, view q (cur s') = match strip comps q with Some r => new r | None => view q (cur s) end.

Lemma addNode_ok node ds f s s' :
  Forall file_name (ds ++ [f]) → view ds (cur s) = Some None →
  addNode E O node (rel (ds ++ [f])) s = (Ok (), s') → adds (ds ++ [f]) (λ r, view r node) s s'.
Proof.
  intros Hn Hds. unfold addNode. rewrite decide_False by (apply rel_not_empty; [done|by destruct ds]).
  cbv zeta. intros ([] & s1 & H1 & Hr)%bind_ok.
  assert (∀ q, view q (cur s1) = view q (cur s)) as Hs1.
  { rewrite Dir_rel in H1 by done. destruct ds as [|w ws].
    - simpl in H1. apply bind_ok in H1 as (t & s2 & [_ H2]%mfsRoot_ok & Hx). injection Hx as <-. by rewrite H2.
    - rewrite decide_True in H1 by (apply Forall_app in Hn as [Hn _]; by apply (rel_not_special (w :: ws))).
      apply on_root_ok in H1. apply Mkdir_spec in H1 as [Hg _].
      + rewrite mkdir_parts_rel in Hg by (done || by apply Forall_app in Hn as [Hn _]). by eapply grown_there.
      + by eapply (view_prefix_dir []). }
  apply bind_ok in Hr as ([] & s2 & Hp & Hr). apply on_root_ok in Hp. apply PutNode_spec in Hp.
  rewrite PathSplit_rel, parts_of_rel_dir in Hp by (done || by apply Forall_app in Hn as [Hn _]).
  destruct Hp as [_ Hp].
  assert (cur s' = cur s2) as Hs2.
  { destruct (Silent O); [by injection Hr as <-|]. apply (kept_run cur) in Hr; [done|]. unfold outputDagnode. assert (∀ ev, kept cur (emit E ev)) by (intros; by apply kept_emit). kept. }
  intros q. rewrite Hs2, Hp. by destruct (strip _ q).
Qed.

Lemma file_only n d r : view [] n = Some (Some d) → view r n = match r with [] => Some (Some d) | _ => None end.
Proof. destruct n; try done. intros [= ->]. by destruct r. Qed.

(** A file or a symlink becomes a node that looks like it, and the node is added. *)
Lemma addFile_node path data reads s s' :
  addFile E O path data reads s = (Ok (), s') →
  ∃ node s1, cur s1 = cur s ∧ (∀ r, view r node = fview E r (FFile data reads)) ∧ addNode E O node path s1 = (Ok (), s').
Proof.
  unfold addFile. intros ([] & s1 & H1 & Hr)%bind_ok.
  assert (cur s1 = cur s) as Hs1.
  { destruct (Progress O); [|by injection H1 as <-]. apply (kept_run cur) in H1; [done|].
    apply kept_progress. intros ev. by apply kept_emit. }
  apply bind_ok in Hr as (n & s2 & [Hl ->]%mlift_ok & Hr).
  apply bind_ok in Hr as ([] & s3 & H3 & Hr). apply (kept_run cur) in H3; [|apply kept_fail_at].
  exists n, s3. split_and!; [congruence| |done].
  intros r. rewrite (file_only n data) by (by apply Layout_data). by destruct r.
Qed.

Lemma addSymlink_node path target s s' :
  addSymlink E O path target s = (Ok (), s') →
  ∃ node s1, cur s1 = cur s ∧ (∀ r, view r node = fview E r (FSymlink target)) ∧ addNode E O node path s1 = (Ok (), s').
Proof using Type.
  unfold addSymlink. intros (n & s2 & [Hl ->]%mlift_ok & Hr)%bind_ok.
  apply bind_ok in Hr as ([] & s3 & H3 & Hr). apply (kept_run cur) in H3; [|apply kept_fail_at].
  exists n, s3. split_and!; [done| |done]. intros r. destruct r; simpl; by rewrite Hl.
Qed.

Lemma added_node node ds f new s s1 s' :
  Forall file_name (ds ++ [f]) → view ds (cur s) = Some None → cur s1 = cur s →
  (∀ r, view r node = new r) → addNode E O node (rel (ds ++ [f])) s1 = (Ok (), s') → adds (ds ++ [f]) new s s'.
Proof.
  intros Hn Hds H1 Hnew Hr. apply addNode_ok in Hr; [|done|by rewrite H1]. intros q. rewrite (Hr q), H1.
  destruct (strip _ q); [apply Hnew|done].
Qed.

(** A path that is empty stands for the CID of the node. *)
Lemma added_top node new s s1 s' :
  view [] (cur s) = Some None → cur s1 = cur s →
  (∀ r, view r node = new r) → addNode E O node "" s1 = (Ok (), s') → adds [cid_of E node] new s s'.
Proof.
  intros Hds H1 Hnew Hr. pose proof (cid_name node) as Hc.
  apply (added_node node [] _ new s s1); [by constructor|done..|].
  rewrite <- Hr. unfold addNode. simpl. unfold rel. simpl. rewrite decide_False; [done|]. by destruct Hc.
Qed.

(** The loop over a directory: what is done of it is in the tree. *)
Lemma entries_ok comps todo : ∀ done err s0 s s',
  Forall file_name comps → NoDup (done ++ todo).*1 → (∀ n f, (n, f) ∈ todo → file_name n) →
  (∀ n f, (n, f) ∈ todo → ∀ s s', view comps (cur s) = Some None → view (comps ++ [n]) (cur s) = None →
     addFileNode E O (rel (comps ++ [n])) f false s = (Ok (), s') →
     adds (comps ++ [n]) (λ r, fview E r f) s s') →
  adds comps (λ r, fview E r (FDir done err)) s0 s →
  mfor todo (λ e, addFileNode E O (PathJoin (rel comps) e.1) e.2 false) s = (Ok (), s') →
  adds comps (λ r, fview E r (FDir (done ++ todo) err)) s0 s'.
Proof.
  induction todo as [|[n f] todo IH]; intros done err s0 s s' Hc Hnd Hnames Hadd Hdone.
  { intros [= <-]. by rewrite app_nil_r. }
  cbn [mfor fst snd]. intros ([] & s1 & H1 & Hr)%bind_ok.
  assert (file_name n) as Hn by (eapply Hnames; by left). rewrite rel_snoc in H1 by done.
  assert (entry_named n done = None) as Hnone.
  { apply find_entry_None. rewrite fmap_app in Hnd. apply NoDup_app in Hnd as (_ & Hd & _).
    intros Hx. apply (Hd n Hx). by left. }
  apply (Hadd n f) in H1; [|by left|by rewrite (Hdone comps), strip_self|].
  2: { rewrite (Hdone (comps ++ [n])), strip_app. simpl. by rewrite Hnone. }
  replace (done ++ (n, f) :: todo) with ((done ++ [(n, f)]) ++ todo) in * by (by rewrite <- app_assoc).
  eapply IH; [done|done|intros ? ? ?; eapply Hnames; by right|intros ? ? ?; eapply Hadd; by right| |exact Hr].
  intros q. rewrite (H1 q), strip_snoc, (Hdone q). destruct (strip comps q) as [[|m r]|]; [done| |done].
  simpl. rewrite find_entry_app. case_decide as Hm.
  - subst m. by rewrite Hnone.
  - by destruct (entry_named m done).
Qed.

(** A directory made where there was none has nothing in it. *)
Lemma grown_new ds f err t t' q :
  view ds t = Some None → view (ds ++ [f]) t = None → view (ds ++ [f]) t' = Some None → grown (ds ++ [f]) t t' →
  view q t' = match strip (ds ++ [f]) q with Some r => fview E r (FDir [] err) | None => view q t end.
Proof.
  intros Hds Hnew Hd Hg. destruct (strip (ds ++ [f]) q) as [[|m r]|] eqn:Hs.
  - apply strip_Some in Hs as ->. by rewrite app_nil_r.
  - apply strip_Some in Hs as ->. destruct (Hg ((ds ++ [f]) ++ m :: r)) as [->|(_ & _ & Hp)].
    + simpl. by apply view_None_app.
    + apply prefix_length in Hp. rewrite !length_app in Hp. simpl in Hp. lia.
  - destruct (Hg q) as [|(Hq & _ & Hp)]; [done|]. exfalso.
    apply prefix_snoc_inv in Hp as [->|[l ->]]; [by rewrite strip_self in Hs|].
    apply view_prefix_dir in Hds. congruence.
Qed.

(** Adding at a path that has a directory above it and nothing there. *)
Lemma addFileNode_ok file : wf_node file → ∀ ds f toplevel s s',
  Forall file_name (ds ++ [f]) → view ds (cur s) = Some None → view (ds ++ [f]) (cur s) = None →
  addFileNode E O (rel (ds ++ [f])) file toplevel s = (Ok (), s') →
  adds (ds ++ [f]) (λ r, fview E r file) s s'.
Proof.
  induction 1 as [data reads|target| |es err Hnd Hnames Hwf IH]; intros ds f toplevel s s' Hn Hds Hnew.
  1-3: cbn [addFileNode]; intros ([] & s1 & Hb & Hr)%bind_ok; apply (kept_run cur) in Hb; [|apply kept_before_cur].
  - apply addFile_node in Hr as (n & s2 & H2 & Hv & Hr). apply (added_node n ds f _ s s2); [done|done|congruence|done|done].
  - apply addSymlink_node in Hr as (n & s2 & H2 & Hv & Hr). apply (added_node n ds f _ s s2); [done|done|congruence|done|done].
  - done.
  - rewrite addFileNode_dir. intros ([] & s1 & Hb & Hr)%bind_ok. apply (kept_run cur) in Hb; [|apply kept_before_cur].
    apply bind_ok in Hr as ([] & s2 & Hmk & Hr). apply bind_ok in Hr as ([] & s3 & Hloop & Hr).
    assert (s3 = s') as -> by (destruct err; by injection Hr).
    replace (toplevel && bool_decide (rel (ds ++ [f]) = "")) with false in Hmk.
    2: { rewrite bool_decide_eq_false_2; [by destruct toplevel|]. apply rel_not_empty; [done|by destruct ds]. }
    apply on_root_ok, Mkdir_spec in Hmk as [Hg Hd]; [|rewrite Hb; by eapply (view_prefix_dir [])].
    rewrite mkdir_parts_rel in Hg, Hd by (done || by destruct ds). rewrite Hb in Hg.
    apply (entries_ok _ es [] err s s2 s'); try done.
    + intros n f' Hin s4 s4' Hv Hnone Hr'. apply (IH n f' Hin (ds ++ [f]) n false s4 s4') in Hr'; try done.
      apply Forall_app. split; [done|]. constructor; [by eapply Hnames|constructor].
    + intros q. eapply grown_new; eauto.
Qed.

(** ** The whole of it *)

(** What an adder that is new builds at the top. *)
Lemma addFileNode_top file s s' :
  wf_node file → cur s = TDir (CidBuilder O) ∅ → addFileNode E O "" file true s = (Ok (), s') →
  match file with
  | FDir _ _ => ∀ q, view q (cur s') = fview E q file
  | _ => ∃ c, adds [c] (λ r, fview E r file) s s'
  end.
Proof.
  intros Hwf Hcur.
  destruct file as [data reads|target|es err|].
  1,2,4: cbn [addFileNode]; intros ([] & s1 & Hb & Hr)%bind_ok; apply (kept_run cur) in Hb; [|apply kept_before_cur].
  - apply addFile_node in Hr as (n & s2 & H2 & Hv & Hr). eexists.
    apply (added_top n _ s s2); [by rewrite Hcur|congruence|done|done].
  - apply addSymlink_node in Hr as (n & s2 & H2 & Hv & Hr). eexists.
    apply (added_top n _ s s2); [by rewrite Hcur|congruence|done|done].
  - done.
  - rewrite addFileNode_dir. intros ([] & s1 & Hb & Hr)%bind_ok. apply (kept_run cur) in Hb; [|apply kept_before_cur].
    apply bind_ok in Hr as ([] & s2 & Hmk & Hr). injection Hmk as <-.
    apply bind_ok in Hr as ([] & s3 & Hloop & Hr). assert (s3 = s') as -> by (destruct err; by injection Hr).
    inversion Hwf as [| | |? ? Hnd Hnames Hwfs]; subst.
    intros q. rewrite (entries_ok [] es [] err s s1 s'); try done.
    + intros n f Hin s4 s4' Hv Hnone Hr'. apply (addFileNode_ok f (Hwfs _ _ Hin) [] n false) in Hr'; try done.
      constructor; [by eapply Hnames|constructor].
    + intros q'. simpl. rewrite Hb, Hcur. destruct q'; [done|]. simpl. by rewrite lookup_empty.
Qed.

(** The lock and the pins do not touch what is built. *)
Lemma kept_pinRoot_cur t : kept cur (PinRoot E O t).
Proof using Type. unfold PinRoot, put_pins. kept. Qed.

Lemma kept_outputDirs {X} (π : AS → X) t : (∀ ev, kept π (emit E ev)) → ∀ path, kept π (outputDirs E O path t).
Proof using Type.
  intros He. induction t as [b raw data|n|b es IH] using Tree_ind'; intros path; cbn [outputDirs]; [by kept..|].
  unfold outputDagnode. kept. rewrite map_lookup_imap. destruct (es !! _) as [c|] eqn:Hc; simpl; kept.
  by eapply IH.
Qed.

Lemma add_all_ok file s nd s' :
  wf_node file → cur s = TDir (CidBuilder O) ∅ → add_all E O file s = (Ok nd, s') → ∀ q, view q nd = fview E q file.
Proof.
  intros Hwf Hroot. unfold add_all. intros ([] & s1 & Ha & Hr)%bind_ok.
  apply addFileNode_top in Ha; [|done..].
  apply bind_ok in Hr as (rootdir & s2 & [-> H2]%mfsRoot_ok & Hr).
  apply bind_ok in Hr as ([] & s3 & H3 & Hr). apply (kept_run cur) in H3; [|apply kept_fail_at].
  apply bind_ok in Hr as ([name root] & s4 & Hroot4 & Hr).
  assert (nd = root) as ->.
  { do 5 (apply bind_ok in Hr as ([] & ? & _ & Hr)). by injection Hr. }
  assert (∀ c, adds [c] (λ r, fview E r file) s s1 →
    (match cur s1 with
     | TDir _ entries =>
         match ListNames E entries with
         | [] => mthrow (MMsg "expected at least one child dir, got none")
         | name :: _ => c ← on_root E O (Child [] name); mret (name, c)
         end
     | _ => mthrow (MMsg "not a directory")
     end) s3 = (Ok (name, root), s4) → ∀ q, view q root = fview E q file) as Hchild.
  { intros c Hc Hx. destruct (cur s1) as [b es| |] eqn:Hcur; [|done..].
    destruct (ListNames E es) as [|n ns]; [done|].
    apply bind_ok in Hx as (t & s5 & Ht%on_root_ok & Hx). injection Hx as -> ->.
    rewrite H3, H2 in Ht. apply Child_spec in Ht as [_ [Hv Hno]]; [|done].
    assert (name = c) as ->.
    { specialize (Hv []). change (view [name] (TDir b es) = view [] root) in Hv. pose proof (Hc [name]) as Hcn. rewrite Hcur, Hv in Hcn.
      cbn [strip] in Hcn. case_decide; [done|]. rewrite Hroot in Hcn. simpl in Hcn.
      rewrite lookup_empty in Hcn. destruct root; try done. by destruct (Hno node). }
    intros q. rewrite <- (Hv q), <- Hcur, (Hc ([] ++ [c] ++ q)). simpl. by rewrite decide_True. }
  destruct file; try (destruct Ha as [c Ha]; by eapply Hchild).
  injection Hroot4 as _ <- _. done.
Qed.

End building.

(** ** The lock and the collector *)

Lemma FNode_ind' (P : FNode → Prop) :
  (∀ data reads, P (FFile data reads)) → (∀ target, P (FSymlink target)) → P FUnknown →
  (∀ es err, (∀ n f, (n, f) ∈ es → P f) → P (FDir es err)) → ∀ f, P f.
Proof.
  intros Hf Hs Hu Hd. fix IH 1. intros [data reads|target|es err|]; [apply Hf|apply Hs| |apply Hu].
  assert (Forall (λ e, P e.2) es) as Hes.
  { clear Hd. induction es as [|[n f] es IHes]; constructor; [apply IH|exact IHes]. }
  clear IH. apply Hd. intros n f Hin. rewrite Forall_forall in Hes. exact (Hes _ Hin).
Qed.

Section locking.
Context (E : AddEnv) (O : AdderOpts) (I : AS → Prop).
Hypothesis I_root : ∀ t s, I s → I (put_root t s).2.
Hypothesis I_emit : ∀ ev s, I s → I (emit E ev s).2.
Hypothesis I_before : keeps I (before_node E O).

Lemma keeps_fail_at op : keeps I (fail_at E op).
Proof using Type. unfold fail_at. destruct (fails E op []); [apply keeps_throw|apply keeps_ret]. Qed.

Lemma keeps_mfsRoot : keeps I (mfsRoot E O).
Proof using I_root.
  intros s r s'. unfold mfsRoot. rewrite bind_unfold. cbv beta iota delta [mget].
  destruct (mroot s); [by intros [= _ <-]|]. rewrite bind_unfold. unfold fail_at.
  destruct (fails E "newroot" []); intros [= _ <-]; [done|]. apply (I_root (TDir (CidBuilder O) ∅) s).
Qed.

Lemma keeps_on_root {B} (c : M Tree MErr B) : keeps I (on_root E O c).
Proof using I_root.
  unfold on_root. apply keeps_bind; [apply keeps_mfsRoot|]. intros t s r s'.
  destruct (c t) as [r0 t']. intros [= _ <-]. apply (I_root t' s).
Qed.

Lemma keeps_emit ev : keeps I (emit E ev).
Proof using I_emit. intros s r s' Hr Hs. pose proof (I_emit ev s Hs) as He. by rewrite Hr in He. Qed.

Lemma keeps_addNode node path : keeps I (addNode E O node path).
Proof using I_root I_emit.
  unfold addNode. cbv zeta. apply keeps_bind; [|intros []; apply keeps_bind; [apply keeps_on_root|intros []]].
  - case_decide; [apply keeps_on_root|]. apply keeps_bind; [apply keeps_mfsRoot|]. intros ?. apply keeps_ret.
  - unfold outputDagnode. destruct (Silent O), (HasOut O); try apply keeps_ret.
    apply keeps_bind; [apply keeps_fail_at|]. intros []. apply keeps_emit.
Qed.

Lemma keeps_progress path reads : ∀ st, keeps I (progress E path st reads).
Proof using I_emit.
  induction reads as [|rd reads IH]; intros st; cbn [progress]; [apply keeps_ret|].
  destruct (progress_read path st rd) as [st' ev]. apply keeps_bind; [|intros []; apply IH].
  destruct ev as [ev|]; [|apply keeps_ret]. apply keeps_emit.
Qed.

Lemma keeps_lift {B} (r : res MErr B) : keeps I (mlift r).
Proof using Type. by intros s r' s' [= _ <-]. Qed.

Lemma keeps_addFileNode file : ∀ path toplevel, keeps I (addFileNode E O path file toplevel).
Proof using I_root I_emit I_before.
  induction file as [data reads|target| |es err IH] using FNode_ind'; intros path toplevel;
    [..|rewrite addFileNode_dir]; apply keeps_bind; try exact I_before; intros [].
  - unfold addFile. apply keeps_bind; [destruct (Progress O); [apply keeps_progress|apply keeps_ret]|intros []].
    apply keeps_bind; [apply keeps_lift|intros n]. apply keeps_bind; [apply keeps_fail_at|intros []; apply keeps_addNode].
  - unfold addSymlink. apply keeps_bind; [apply keeps_lift|intros n].
    apply keeps_bind; [apply keeps_fail_at|intros []; apply keeps_addNode].
  - apply keeps_throw.
  - apply keeps_bind; [destruct (toplevel && _); [apply keeps_ret|apply keeps_on_root]|intros []].
    apply keeps_bind; [|intros []; destruct err; [apply keeps_throw|apply keeps_ret]].
    induction es as [|[n f] es IHes]; [apply keeps_ret|]. cbn [mfor].
    apply keeps_bind; [eapply IH; by left|intros []]. apply IHes. intros m g Hin. eapply IH. by right.
Qed.

End locking.

(** The node that stands for the tree, as [curRootNode] finds it. *)
Definition root_node (t : Tree) : Tree :=
  match t with
  | TDir _ entries => match map_to_list entries with [(_, nd)] => nd | _ => t end
  | _ => t
  end.

(** What the collector would find when it can run: the root of what was added so
    far is pinned. *)
Definition window_ok (E : AddEnv) (O : AdderOpts) (w : gset string * option Tree) : Prop :=
  cid_of E (root_node (default (TDir (CidBuilder O) ∅) w.2)) ∈ w.1.

Section gc.
Context (E : AddEnv) (O : AdderOpts).

(** The lock is held [h] times, once by this adder when it pins, and the collector
    found everything pinned. *)
Definition guarded (h : nat) (s : AS) : Prop :=
  unlocker s = Pin O ∧ held s = (if Pin O then S h else h) ∧ Forall (window_ok E O) (windows s).

(** What [guarded] looks at *)
Definition lock_of (s : AS) : bool * nat * list (gset string * option Tree) := (unlocker s, held s, windows s).

Lemma kept_guarded {B} (c : M AS MErr B) h : kept lock_of c → keeps (guarded h) c.
Proof.
  intros Hc s r s' Hr Hs. apply (kept_run lock_of) in Hr; [|done].
  unfold guarded in *. injection Hr as -> -> ->. done.
Qed.

Lemma kept_mfsRoot_lock : kept lock_of (mfsRoot E O).
Proof. unfold mfsRoot, put_root. kept. Qed.

Lemma kept_PinRoot_lock t : kept lock_of (PinRoot E O t).
Proof. unfold PinRoot, put_pins. kept. Qed.

Lemma kept_GCRequested_lock : kept lock_of GCRequested.
Proof. intros x s r s'. unfold GCRequested. destruct (gc_requests s); by intros [= _ <-]. Qed.

Lemma kept_curRoot_lock : kept lock_of (curRootNode E O).
Proof. pose proof kept_mfsRoot_lock. unfold curRootNode. kept. Qed.

Lemma PinRoot_pins t s s' : Pin O = true → PinRoot E O t s = (Ok (), s') → cid_of E t ∈ pins s'.
Proof.
  intros HP. unfold PinRoot. rewrite HP. intros ([] & s1 & _ & Hr)%bind_ok.
  apply bind_ok in Hr as (x & s2 & _ & Hr). apply bind_ok in Hr as ([] & s3 & _ & Hr).
  apply bind_ok in Hr as ([] & s4 & Hm & Hr). injection Hm as <-.
  eapply (kept_run pins) in Hr as ->; [|apply kept_fail_at]. simpl. set_solver.
Qed.

Lemma curRootNode_ok s t s' : curRootNode E O s = (Ok t, s') → t = root_node (cur O s) ∧ cur O s' = cur O s.
Proof.
  unfold curRootNode. intros (root & s1 & [-> H1]%mfsRoot_ok & Hr)%bind_ok.
  apply bind_ok in Hr as ([] & s2 & H2 & Hr). apply (kept_run (cur O)) in H2; [|apply kept_fail_at].
  rewrite <- H1, <- H2. unfold root_node. rewrite <- H1, <- H2 in Hr.
  destruct (cur O s2) as [b es| |] eqn:Hc; [|by injection Hr as <- <-..].
  destruct (map_to_list es) as [|[n nd] [|]]; [by injection Hr as <- <-| |by injection Hr as <- <-].
  apply bind_ok in Hr as ([] & s3 & H3 & Hr). apply (kept_run (cur O)) in H3; [|apply kept_fail_at].
  injection Hr as <- <-. by rewrite H3.
Qed.

Lemma guarded_maybePause h : keeps (guarded h) (maybePauseForGC E O).
Proof.
  unfold maybePauseForGC. intros s r s'. rewrite bind_unfold. cbv beta iota delta [mget].
  destruct (unlocker s) eqn:Hu; [|by intros [= _ <-]].
  intros Hr Hs. pose proof Hs as (HP & _ & _). rewrite Hu in HP. symmetry in HP. clear Hu.
  revert s r s' Hr Hs.
  apply (keeps_bind (guarded h)); [apply kept_guarded, kept_GCRequested_lock|].
  intros []; [|apply keeps_ret]. intros s1 r s' Hr Hs1. rewrite bind_unfold in Hr.
  destruct (curRootNode E O s1) as [[rn|e] s2] eqn:Hc;
    pose proof (kept_guarded _ h kept_curRoot_lock _ _ _ Hc Hs1) as Hs2; [|by injection Hr as _ <-].
  apply curRootNode_ok in Hc as [-> Hcur]. rewrite bind_unfold in Hr.
  destruct (PinRoot E O _ s2) as [[[]|e] s3] eqn:Hpr;
    pose proof (kept_guarded _ h (kept_PinRoot_lock _) _ _ _ Hpr Hs2) as Hs3; [|by injection Hr as _ <-].
  assert (cur O s3 = cur O s1) as Hc3.
  { rewrite <- Hcur. eapply (kept_run (cur O)); [apply kept_pinRoot_cur|exact Hpr]. }
  apply PinRoot_pins in Hpr; [|done]. injection Hr as _ <-. destruct Hs3 as (Hu3 & Hh3 & Hw3). rewrite HP in *.
  unfold guarded. rewrite HP. cbn. rewrite Hh3. split_and!; [done|done|].
  apply Forall_app. split; [done|]. constructor; [|constructor].
  unfold window_ok. cbn [fst snd]. unfold cur in Hc3, Hpr. by rewrite Hc3.
Qed.

Lemma guarded_before h : keeps (guarded h) (before_node E O).
Proof.
  unfold before_node. apply keeps_bind; [apply guarded_maybePause|intros []].
  apply kept_guarded. pose proof kept_mfsRoot_lock. unfold put_live. kept.
Qed.

Lemma guarded_add_all h file : keeps (guarded h) (add_all E O file).
Proof.
  unfold add_all. apply keeps_bind.
  { apply keeps_addFileNode; [intros t s Hs; exact Hs|intros ev s; exact (kept_guarded (emit E ev) h (kept_emit lock_of E ev (λ _, eq_refl)) s _ _ (surjective_pairing _))|apply guarded_before]. }
  intros []. apply kept_guarded. pose proof kept_mfsRoot_lock. pose proof kept_PinRoot_lock.
  assert (∀ t path, kept lock_of (outputDirs E O path t)) by (intros; apply kept_outputDirs; intros; by apply kept_emit).
  assert (∀ c : M Tree MErr Tree, kept lock_of (on_root E O c)).
  { intros c. unfold on_root, put_root. kept. }
  kept.
Qed.

End gc.

(** Whether a call never returned *)
Definition is_blocked (r : res MErr Tree) : bool := match r with Err e => bool_decide (e = Blocked) | Ok _ => false end.

Lemma AddAllAndPin_tree E O file s nd s' `{!AddLaws E} :
  wf_node file → cur O s = TDir (CidBuilder O) ∅ → AddAllAndPin E O file s = (Ok nd, s') →
  ∀ q, view q nd = fview E q file.
Proof.
  intros Hwf Hroot. unfold AddAllAndPin. intros ([] & s1 & H1 & Hr)%bind_ok.
  assert (cur O s1 = TDir (CidBuilder O) ∅) as Hroot1 by (destruct (Pin O); by injection H1 as <-).
  destruct (add_all E O file s1) as [r s2] eqn:Ha. destruct r as [t|e]; [|by destruct (decide (e = Blocked))].
  injection Hr as -> _. by eapply add_all_ok.
Qed.

Lemma AddAllAndPin_run E O file s r s' :
  unlocker s = false → windows s = [] → AddAllAndPin E O file s = (r, s') →
  held s' = (if Pin O && is_blocked r then S (held s) else held s) ∧ Forall (window_ok E O) (windows s') ∧
  (∀ nd, r = Ok nd → Pin O = true → cid_of E nd ∈ pins s').
Proof.
  intros Hu Hw. unfold AddAllAndPin. rewrite bind_unfold.
  set (s1 := ((if Pin O then PinLock else mret ()) s).2).
  assert ((if Pin O then PinLock else mret ()) s = (Ok (), s1)) as -> by (unfold s1; by destruct (Pin O)).
  assert (guarded E O (held s) s1) as Hg.
  { unfold s1, guarded. destruct (Pin O) eqn:HP; cbn; rewrite ?HP, Hw; auto. }
  cbv beta. destruct (add_all E O file s1) as [r0 s2] eqn:Ha.
  pose proof (guarded_add_all E O _ file _ _ _ Ha Hg) as (Hu2 & Hh2 & Hw2). rewrite Hu2.
  assert (∀ s3, s3 = (if Pin O then (Unlock s2).2 else s2) →
    held s3 = held s ∧ windows s3 = windows s2 ∧ pins s3 = pins s2) as Hun.
  { intros s3 ->. destruct (Pin O); cbn; rewrite Hh2; done. }
  destruct r0 as [nd|e]; [|destruct (decide (e = Blocked)) as [->|Hne]]; intros [= <- <-].
  - match goal with |- held ?x = _ ∧ _ => destruct (Hun x) as (-> & -> & ->); [by destruct (Pin O)|] end. cbn [is_blocked]. rewrite andb_false_r. split_and!; [done|done|].
    intros ? [= <-] HP. unfold add_all in Ha. do 4 (apply bind_ok in Ha as (? & ? & _ & Ha)).
    do 4 (apply bind_ok in Ha as ([] & ? & _ & Ha)). apply bind_ok in Ha as ([] & ? & Hp & Ha).
    injection Ha as <- <-. rewrite HP in Hp. by apply PinRoot_pins in Hp.
  - rewrite Hh2. cbn. rewrite andb_true_r. by destruct (Pin O).
  - match goal with |- held ?x = _ ∧ _ => destruct (Hun x) as (-> & -> & ->); [by destruct (Pin O)|] end. cbn [is_blocked]. rewrite bool_decide_eq_false_2, andb_false_r by done. done.
Qed.

(** ** The claims *)

(** C4. A new adder that returns a node returns what it was given: at every path
    below the node is the directory, or the bytes of the file, that the added
    node has there, and nothing else.  It is so for a directory and for a single
    file, with or without progress, and however often it gave way to the
    collector. *)
Theorem AddAllAndPin_builds E O file s nd s' `{!AddLaws E} :
  wf_node file → mroot s = None → AddAllAndPin E O file s = (Ok nd, s') →
  ∀ q, view q nd = fview E q file.
Proof. intros Hwf Hroot Hr. apply (AddAllAndPin_tree E O file s nd s'); [done| |done]. unfold cur. by rewrite Hroot. Qed.

(** C24. Whatever is added and however it returns, a new adder leaves the pin lock
    as it found it, and holds it for ever when it does not; each time it let the
    collector in, the root of what it had added so far was pinned; and a node that it
    returns, when it pins, is pinned. *)
Theorem AddAllAndPin_safe E O file s r s' :
  unlocker s = false → windows s = [] → AddAllAndPin E O file s = (r, s') →
  (r ≠ Err Blocked → held s' = held s) ∧ (r = Err Blocked → Pin O = true → held s' = S (held s)) ∧
  Forall (window_ok E O) (windows s') ∧
  (∀ nd, r = Ok nd → Pin O = true → cid_of E nd ∈ pins s').
Proof.
  intros Hu Hw Hr. destruct (AddAllAndPin_run _ _ _ _ _ _ Hu Hw Hr) as (Hh & ? & ?). split_and!; [..|done|done].
  - intros Hne. rewrite Hh. destruct r as [nd|e]; cbn; [by rewrite andb_false_r|].
    rewrite bool_decide_eq_false_2, andb_false_r by congruence. done.
  - intros -> HP. by rewrite Hh, HP.
Qed.

(** ** Examples *)

Definition ex_env : AddEnv := mkAddEnv
  (λ t, match t with TDir _ _ => "bafydir" | TFile _ _ _ => "bafyfile" | TOther _ => "bafynode" end)
  (λ _, "8")
  (λ d, Ok (TFile (mkBuilder 1 18 (-1)) true d)) (λ t, Ok (TFile (mkBuilder 1 18 (-1)) false t))
  (λ _ _, None) (λ es, (map_to_list es).*1) None.

#[global] Instance ex_laws : AddLaws ex_env.
Proof. split; [by intros d n [= <-]|done|]. by intros [| |]; apply (bool_decide_unpack _). Qed.

Definition ex_opts : AdderOpts := mkOpts true true false true (mkBuilder 1 18 (-1)).
Definition ex_new : AS := mkAS None false None 0 ∅ 0 [false; false; true] [] [].
Definition ex_dir : FNode :=
  FDir [("a", FFile "hello" [(5, true)%Z]); ("d", FDir [("b", FSymlink "a")] None)] None.

Lemma ex_dir_wf : wf_node ex_dir.
Proof.
  constructor; [by apply (bool_decide_unpack _)| |]; intros n f Hin;
    repeat (apply elem_of_cons in Hin as [[= -> ->]|Hin]; [|]); try by apply not_elem_of_nil in Hin.
  1,2: by apply (bool_decide_unpack _).
  - constructor.
  - constructor; [by apply (bool_decide_unpack _)| |]; intros m g Hin;
      repeat (apply elem_of_cons in Hin as [[= -> ->]|Hin]; [|]); try by apply not_elem_of_nil in Hin.
    + by apply (bool_decide_unpack _).
    + constructor.
Qed.

Lemma AddAllAndPin_builds_witness :
  ∃ nd s', AddAllAndPin ex_env ex_opts ex_dir ex_new = (Ok nd, s') ∧
    view ["d"; "b"] nd = Some (Some "a") ∧ view ["a"] nd = Some (Some "hello") ∧ view ["e"] nd = None.
Proof.
  eexists _, _. split; [vm_compute; reflexivity|].
  split_and!; eapply (AddAllAndPin_builds ex_env ex_opts ex_dir ex_new); 
    lazymatch goal with |- AddLaws _ => exact ex_laws | |- wf_node _ => exact ex_dir_wf | _ => vm_compute; reflexivity end.
Defined.

Lemma AddAllAndPin_safe_witness :
  ∃ nd s', AddAllAndPin ex_env ex_opts ex_dir ex_new = (Ok nd, s') ∧
    held s' = 0 ∧ length (windows s') = 1 ∧ cid_of ex_env nd ∈ pins s'.
Proof.
  eexists _, _. split; [vm_compute; reflexivity|].
  split; [|split; [vm_compute; reflexivity|]].
  - eapply (AddAllAndPin_safe ex_env ex_opts ex_dir ex_new); vm_compute; done.
  - eapply (AddAllAndPin_safe ex_env ex_opts ex_dir ex_new); vm_compute; reflexivity.
Defined.

(** The temporary root is only replaced where one is set, and nothing sets the
    first: what was pinned for the collector stays pinned. *)
Theorem AddAllAndPin_leaves_temporary_pins :
  (elements (pins (AddAllAndPin ex_env ex_opts ex_dir ex_new).2)) ≡ₚ ["bafydir"; "bafyfile"].
Proof. vm_compute. apply Permutation_refl || apply perm_swap. Qed.
