(* ===== verification/CmdEnv.v ===== *)
(** * What commands share (src/core/commands/cmdenv/cidbase.go)

    The encoder that a command writes CIDs with, chosen by the options of the
    request or by the CID in a path.  The multibase library is a parameter. *)

From Stdlib Require Import ZArith.
From stdpp Require Import base gmap sets list strings.
From S2P Require Import Prelude GoStrings Cid.

(** The options of a request that the encoder depends on. *)
Record CidOpts := mkCidOpts { OptionCidBase : option string; OptionUpgradeCidV0InOutput : option bool }.

(** cidenc.Encoder *)
Record Encoder := mkEncoder { Base : string; Upgrade : bool }.

(** go-multibase and the text form of a CID. *)
Record Multibase := mkMultibase {
  EncoderByName : string → res string string;
  cid_text : string → Cid → string;
  cid_Decode : string → res string Cid;
  mbase_Decode : string → option string;
}.

(** cidenc.Default *)
Definition Default : Encoder := mkEncoder "base32" false.

(** cidenc.Encoder.Encode *)
Definition Encode (mb : Multibase) (enc : Encoder) (c : Cid) : string :=
  let c := if Upgrade enc && bool_decide (Version (cid_Prefix c) = 0%N)
           then CidV1 (cid_Type c) (cid_Hash c) else c in
  cid_text mb (Base enc) c.

(** getCidBase *)
Definition getCidBase (mb : Multibase) (req : CidOpts) (autoUpgrade : bool) : res string Encoder :=
  let base := default "" (OptionCidBase req) in
  e ← (if decide (base ≠ "") then
         b ← EncoderByName mb base;
         mret (mkEncoder b (if autoUpgrade then true else Upgrade Default))
       else mret Default);
  mret (match OptionUpgradeCidV0InOutput req with Some upgrade => mkEncoder (Base e) upgrade | None => e end).

(** GetCidEncoder and GetLowLevelCidEncoder *)
Definition GetCidEncoder (mb : Multibase) (req : CidOpts) : res string Encoder := getCidBase mb req true.
Definition GetLowLevelCidEncoder (mb : Multibase) (req : CidOpts) : res string Encoder := getCidBase mb req false.

(** CidBaseDefined *)
Definition CidBaseDefined (req : CidOpts) : bool := bool_decide (default "" (OptionCidBase req) ≠ "").

(** CidEncoderFromPath; a panic is an error of its own. *)
Definition CidEncoderFromPath (mb : Multibase) (p : string) : res string Encoder :=
  let components := SplitN p "/" 4 in
  let none := "no cid in path: " +:+ p in
  maybeCid ← (match components with
             | first :: rest =>
                 if decide (first ≠ "") then Ok first
                 else match rest with
                      | _ :: third :: _ => Ok third
                      | _ => Err none
                      end
             | [] => Err none
             end : res string string);
  match cid_Decode mb maybeCid with
  | Err _ => Err none
  | Ok c =>
      if decide (Version (cid_Prefix c) = 0%N) then Ok Default
      else match mbase_Decode mb maybeCid with
           | None => Err ("BUG: failed to get multibase decoder for CID " +:+ maybeCid)
           | Some encoding => Ok (mkEncoder encoding true)
           end
  end.
