(* ===== verification/PinCmd.v ===== *)
(** * The pin command (src/core/commands/pin/pin.go)

    [pin add], [rm], [update], [ls] and [verify] over the pin API of [PinApi],
    with what they write.  [pin add --progress] runs the additions in a goroutine
    and selects between its result, a ticker and the end of the request. *)

From Stdlib Require Import ZArith.
From stdpp Require Import base gmap sets list strings pretty.
From S2P Require Import Prelude GoStrings Cid CmdEnv Dag GC PinApi.

(** ** Modes of the pinner *)

Inductive Mode := Recursive | Direct | Indirect | Internal | NotPinned | AnyMode.

(** pin.StringToMode *)
Definition StringToMode (s : string) : option Mode :=
  if decide (s = "recursive") then Some Recursive else if decide (s = "direct") then Some Direct
  else if decide (s = "indirect") then Some Indirect else if decide (s = "internal") then Some Internal
  else if decide (s = "not pinned") then Some NotPinned
  else if decide (s = "any" ∨ s = "all") then Some AnyMode else None.

(** Pinner.IsPinnedWithType: how a CID is pinned, or through which pin. *)
Class PinQuery (P : Type) := IsPinnedWithType : P → Cid → Mode → res string (string * bool).

Definition pin_types : list string := ["all"; "direct"; "indirect"; "recursive"].

Definition invalid_type (t : string) : string :=
  "invalid type '" +:+ t +:+ "', must be one of {direct, indirect, recursive, all}".

(** ** Outputs *)

Record AddPinOutput := mkAddOut { ao_Pins : option (list string); Progress : Z }.
Record PinLsObject := mkLsObj { lo_Cid : string; lo_Type : string }.
Record BadNode := mkBad { bn_Cid : string; bn_Err : string }.
Record CmdStatus := mkCmdStatus { cs_Ok : bool; BadNodes : list BadNode }.
Record PinVerifyRes := mkVerifyRes { vr_Cid : string; vr_Status : CmdStatus }.

Definition nl : string := String (Ascii.ascii_of_nat 10) "".

Section pin_cmd.
Context {P : Type} `{!Pinner P, !PinQuery P}.
Context (env : PinEnv) (mb : Multibase).

(** PinAPI.IsPinned *)
Definition pin_IsPinned (path withType : string) : M P string (string * bool) := λ p,
  match Resolve env path with
  | Err e => (Err ("error resolving path: " +:+ e), p)
  | Ok c =>
      if decide (withType ∈ pin_types) then
        match StringToMode withType with
        | None => (Err (invalid_type withType), p)
        | Some mode => (IsPinnedWithType p c mode, p)
        end
      else (Err (invalid_type withType), p)
  end.

(** pinAddMany *)
Fixpoint pinAddMany (enc : Encoder) (paths : list string) (recursive : bool) : M P string (list string) :=
  match paths with
  | [] => mret []
  | b :: paths' =>
      rp ← mlift (Resolve env b);
      _ ← pin_Add env b recursive;
      added ← pinAddMany enc paths' recursive;
      mret (Encode mb enc rp :: added)
  end.

(** What the select of [pin add --progress] receives before the result. *)
Inductive Sel := Tick (value : Z) | CtxDone (msg : string).

(** The loop of addPinCmd.Run with [--progress]: the outputs that were emitted
    and how it ended; [emit_err n] is the error of the [n]th Emit. *)
Fixpoint addPin_loop (emit_err : nat → option string) (result : res string (list string)) (final : Z)
    (sels : list Sel) (out : list AddPinOutput) : res string unit * list AddPinOutput :=
  let emit o out (k : list AddPinOutput → res string unit * list AddPinOutput) :=
    match emit_err (length out) with Some e => (Err e, out) | None => k (out ++ [o]) end in
  match sels with
  | Tick v :: sels' => emit (mkAddOut None v) out (addPin_loop emit_err result final sels')
  | CtxDone e :: _ => (Err e, out)
  | [] =>
      match result with
      | Err e => (Err e, out)
      | Ok pins =>
          let last out := emit (mkAddOut (Some pins) 0) out (λ out, (Ok (), out)) in
          if decide (final ≠ 0%Z) then emit (mkAddOut None final) out last else last out
      end
  end.

(** addPinCmd.Run.  The goroutine goes on when the command stops waiting for it. *)
Definition addPinCmd (req : CidOpts) (recursive showProgress : bool) (args : list string)
    (emit_err : nat → option string) (final : Z) (sels : list Sel)
    : P → (res string unit * list AddPinOutput) * P := λ p,
  match GetCidEncoder mb req with
  | Err e => ((Err e, []), p)
  | Ok enc =>
      let '(r, p') := pinAddMany enc args recursive p in
      if showProgress then (addPin_loop emit_err r final sels [], p')
      else match r with
           | Err e => ((Err e, []), p')
           | Ok added =>
               match emit_err 0 with
               | Some e => ((Err e, []), p')
               | None => ((Ok (), [mkAddOut (Some added) 0]), p')
               end
           end
  end.

(** addPinCmd's PostRun and text encoder: what is written of the outputs. *)
Definition addPin_text (recursive : option bool) (out : AddPinOutput) : string :=
  let pintype := match recursive with Some false => "directly" | _ => "recursively" end in
  Join ((λ k, "pinned " +:+ k +:+ " " +:+ pintype +:+ nl) <$> default [] (ao_Pins out)) "".

Definition addPin_PostRun (outs : list AddPinOutput) : list AddPinOutput :=
  filter (λ o, ao_Pins o ≠ None) outs.

(** The loop of rmPinCmd.Run *)
Fixpoint rm_pins (enc : Encoder) (recursive : bool) (args : list string) (pins : list string) : M P string (list string) :=
  match args with
  | [] => mret pins
  | b :: args' =>
      rp ← mlift (Resolve env b);
      let pins := pins ++ [Encode mb enc rp] in
      _ ← pin_Rm env b recursive;
      rm_pins enc recursive args' pins
  end.

(** rmPinCmd.Run: the pins it emits *)
Definition rmPinCmd (req : CidOpts) (recursive : bool) (args : list string) : M P string (list string) :=
  enc ← mlift (GetCidEncoder mb req);
  rm_pins enc recursive args [].

Definition rmPin_text (pins : list string) : string :=
  Join ((λ k, "unpinned " +:+ k +:+ nl) <$> pins) "".

(** updatePinCmd.Run *)
Definition updatePinCmd (req : CidOpts) (from_path to_path : string) (unpin : bool) : M P string (list string) :=
  enc ← mlift (GetCidEncoder mb req);
  from ← mlift (Resolve env from_path);
  to ← mlift (Resolve env to_path);
  _ ← pin_Update env from_path to_path unpin;
  mret [Encode mb enc from; Encode mb enc to].

(** pinLsKeys, up to what it hands to [emit] *)
Fixpoint lsKeys_loop (enc : Encoder) (typeStr : string) (args : list string) : M P string (list PinLsObject) :=
  match args with
  | [] => mret []
  | p :: args' =>
      rp ← mlift (Resolve env p);
      '(pinType, pinned) ← pin_IsPinned p typeStr;
      if pinned : bool then
        let pinType := if decide (pinType ∈ ["direct"; "indirect"; "recursive"; "internal"]) then pinType
                       else "indirect through " +:+ pinType in
        rest ← lsKeys_loop enc typeStr args';
        mret (mkLsObj (Encode mb enc rp) pinType :: rest)
      else mthrow ("path '" +:+ p +:+ "' is not pinned")
  end.

Definition pinLsKeys (req : CidOpts) (typeStr : string) (args : list string) : M P string (list PinLsObject) :=
  enc ← mlift (GetCidEncoder mb req);
  if decide (typeStr ∈ pin_types) then lsKeys_loop enc typeStr args else mthrow (invalid_type typeStr).

(** The loop of pinLsAll over the channel of PinAPI.Ls: what was handed to [emit]
    before an error is there. *)
Fixpoint lsAll_loop (ls_err : LsError → string) (enc : Encoder) (pins : list pinInfo)
    : res string unit * list PinLsObject :=
  match pins with
  | [] => (Ok (), [])
  | PinErr e :: _ => (Err (ls_err e), [])
  | PinListed t c :: pins' =>
      let '(r, out) := lsAll_loop ls_err enc pins' in (r, mkLsObj (Encode mb enc c) t :: out)
  end.

(** pinLsAll *)
Definition pinLsAll (ls_err : LsError → string) (lenv : LsEnv) (store : gmap Cid Block) (req : CidOpts) (typeStr : string)
    : res string unit * list PinLsObject :=
  match GetCidEncoder mb req with
  | Err e => (Err e, [])
  | Ok enc =>
      match Ls lenv store typeStr with
      | Err e => (Err e, [])
      | Ok pins => lsAll_loop ls_err enc pins
      end
  end.

(** What [pin ls] writes: the objects as they come with [--stream], else one table
    by CID. *)
Inductive LsOut := LsStream (objs : list PinLsObject) | LsKeys (keys : gmap string string).

Definition ls_emit (stream : bool) (objs : list PinLsObject) : LsOut :=
  if stream then LsStream objs
  else LsKeys (foldl (λ lgcList obj, <[lo_Cid obj := lo_Type obj]> lgcList) ∅ objs).

(** listPinCmd.Run *)
Definition listPinCmd (ls_err : LsError → string) (lenv : LsEnv) (store : gmap Cid Block)
    (req : CidOpts) (typeStr : string) (stream : bool) (args : list string) : P → res string unit * option LsOut := λ p,
  if decide (typeStr ∈ pin_types) then
    let '(r, objs) :=
      if decide (args ≠ []) then
        match (pinLsKeys req typeStr args p).1 with Ok objs => (Ok (), objs) | Err e => (Err e, []) end
      else pinLsAll ls_err lenv store req typeStr in
    match r with
    | Err e => (Err e, if stream then Some (LsStream objs) else None)
    | Ok _ => (Ok (), Some (ls_emit stream objs))
    end
  else (Err (invalid_type typeStr), None).

Definition ls_line (quiet : bool) (c t : string) : string :=
  if quiet then c +:+ nl else c +:+ " " +:+ t +:+ nl.

(** listPinCmd's text encoder; the order of a map is the runtime's. *)
Definition ls_text (quiet : bool) (map_order : gmap string string → list (string * string)) (out : LsOut) : string :=
  match out with
  | LsStream objs => Join ((λ o, ls_line quiet (lo_Cid o) (lo_Type o)) <$> objs) ""
  | LsKeys keys => Join ((λ kv, ls_line quiet kv.1 kv.2) <$> map_order keys) ""
  end.

End pin_cmd.

(** ** pin verify *)

(** The text of an error of the DAG service *)
Definition dag_msg (e : DagError) : string :=
  match e with ErrNotFound => "merkledag: not found" | ErrDag msg => msg end.

Section verify_cmd.
Context (mb : Multibase) (enc : Encoder) (explain : bool).
Context (store : gmap Cid Block) (verif_msg : VerifError → string).

Definition bad (key : Cid) (msg : string) : CmdStatus :=
  mkCmdStatus false (if explain then [mkBad (Encode mb enc key) msg] else []).

Fixpoint cmd_links (rec : Cid → M (gmap Cid CmdStatus) unit CmdStatus) (links : list Cid) (status : CmdStatus)
    : M (gmap Cid CmdStatus) unit CmdStatus :=
  match links with
  | [] => mret status
  | l :: links' =>
      r ← rec l;
      cmd_links rec links' (if cs_Ok r then status else mkCmdStatus false (BadNodes status ++ BadNodes r))
  end.

(** The closure checkPin of pinVerify; [Err ()] is fuel that ran out. *)
Fixpoint checkPin (fuel : nat) (root : Cid) : M (gmap Cid CmdStatus) unit CmdStatus := λ visited,
  match visited !! root with
  | Some status => (Ok status, visited)
  | None =>
      match fuel with
      | 0 => (Err (), visited)
      | S fuel' =>
          match ValidateCid root with
          | Err e => let status := bad root (verif_msg e) in (Ok status, <[root := status]> visited)
          | Ok _ =>
              match ipld_GetLinks store root with
              | Err e => let status := bad root (dag_msg e) in (Ok status, <[root := status]> visited)
              | Ok links =>
                  match cmd_links (checkPin fuel') links (mkCmdStatus true []) visited with
                  | (Err e, v) => (Err e, v)
                  | (Ok status, v) => (Ok status, <[root := status]> v)
                  end
              end
          end
      end
  end.

(** The goroutine of pinVerify, when the request is not cancelled. *)
Fixpoint verify_loop (includeOk : bool) (fuel : nat) (recPins : list Cid) : M (gmap Cid CmdStatus) unit (list PinVerifyRes) :=
  match recPins with
  | [] => mret []
  | c :: recPins' =>
      pinStatus ← checkPin fuel c;
      rest ← verify_loop includeOk fuel recPins';
      mret (if negb (cs_Ok pinStatus) || includeOk then mkVerifyRes (Encode mb enc c) pinStatus :: rest else rest)
  end.

(** pinVerify *)
Definition pinVerify (includeOk : bool) (fuel : nat) (RecursiveKeys : res string (list Cid))
    : res string (res unit (list PinVerifyRes)) :=
  recPins ← RecursiveKeys; mret (verify_loop includeOk fuel recPins ∅).1.

End verify_cmd.

(** verifyPinCmd.Run *)
Definition verifyPinCmd (mb : Multibase) (req : CidOpts) (store : gmap Cid Block) (verif_msg : VerifError → string)
    (verbose quiet : bool) (fuel : nat) (keys : res string (list Cid))
    : res string (res unit (list PinVerifyRes)) :=
  if verbose && quiet then Err "the --verbose and --quiet options can not be used at the same time"
  else enc ← GetCidEncoder mb req; pinVerify mb enc (negb quiet) store verif_msg verbose fuel keys.

(** PinVerifyRes.Format *)
Definition Format (r : PinVerifyRes) : string :=
  if cs_Ok (vr_Status r) then vr_Cid r +:+ " ok" +:+ nl
  else vr_Cid r +:+ " broken" +:+ nl +:+
       Join ((λ e, "  " +:+ bn_Cid e +:+ ": " +:+ bn_Err e +:+ nl) <$> BadNodes (vr_Status r)) "".

(** verifyPinCmd's text encoder *)
Definition verify_text (quiet : bool) (r : PinVerifyRes) : string :=
  if quiet && negb (cs_Ok (vr_Status r)) then vr_Cid r +:+ nl
  else if negb quiet then Format r else "".

(** ** Adding and removing pins *)

Section changing.
Context {P : Type} `{PinnerLaws P} (env : PinEnv) (mb : Multibase).

(** A pin that was made or, with an error, perhaps not. *)
Lemma pin_Add_any path p r p' : pin_Add env path true p = (r, p') →
  (∃ c, Resolve env path = Ok c ∧ ∀ x, x ∈ pn_recursive p' ↔ x = c ∨ x ∈ pn_recursive p) ∨
  (p' = p ∧ r ≠ Ok ()).
Proof.
  unfold pin_Add, pinErr. destruct (Resolve env path) as [c|]; [|intros [= <- <-]; by right].
  destruct (pn_Pin p c true) as [p1|] eqn:H1; [|intros [= <- <-]; by right].
  pose proof (Pin_recursive _ _ _ H1) as Hin. destruct (Provide_err env c); [intros [= <- <-]; left; eauto|].
  destruct (pn_Flush p1) as [p2|] eqn:H2; intros [= <- <-]; left; [|by eauto].
  exists c. split; [done|]. by rewrite (Flush_recursive _ _ H2).
Qed.

(** What many additions do, whatever happens: the arguments they got to are
    pinned. *)
Lemma pinAddMany_run enc paths p r p' : pinAddMany env mb enc paths true p = (r, p') →
  ∃ done cids, done `prefix_of` paths ∧ Forall2 (λ s c, Resolve env s = Ok c) done cids ∧
    (∀ x, x ∈ pn_recursive p' ↔ x ∈ cids ∨ x ∈ pn_recursive p) ∧
    ∀ added, r = Ok added → done = paths ∧ added = Encode mb enc <$> cids.
Proof.
  revert p r p'. induction paths as [|b paths IH]; intros p r p'; cbn [pinAddMany].
  { intros [= <- <-]. exists [], []. split_and!; [done|constructor|set_solver|]. by intros ? [= <-]. }
  rewrite bind_unfold. unfold mlift. destruct (Resolve env b) as [c|e] eqn:Hc.
  2: { intros [= <- <-]. exists [], []. split_and!; [apply prefix_nil|constructor|set_solver|done]. }
  rewrite bind_unfold. destruct (pin_Add env b true p) as [r1 p1] eqn:Ha.
  apply pin_Add_any in Ha as [(c' & Hc' & Hin)|[-> Hr1]].
  2: { destruct r1 as [[]|]; [done|]. intros [= <- <-]. exists [], [].
       split_and!; [apply prefix_nil|constructor|set_solver|done]. }
  rewrite Hc in Hc'. injection Hc' as <-. destruct r1 as [[]|e].
  2: { intros [= <- <-]. exists [b], [c]. split_and!; [by apply prefix_cons, prefix_nil|by repeat constructor| |done].
       intros x. rewrite Hin. set_solver. }
  rewrite bind_unfold. destruct (pinAddMany env mb enc paths true p1) as [r2 p2] eqn:Hrec.
  apply IH in Hrec as (dn & cids & Hpre & Hres & Hin2 & Hok).
  destruct r2 as [added|e]; intros [= <- <-]; exists (b :: dn), (c :: cids);
    (split_and!; [by apply prefix_cons|by constructor|intros x; rewrite Hin2, Hin; set_solver|]); [|done].
  intros ? [= <-]. destruct (Hok _ eq_refl) as [-> ->]. done.
Qed.

Lemma rm_pins_run enc args acc p out p' : rm_pins env mb enc true args acc p = (Ok out, p') →
  ∃ cids, Forall2 (λ s c, Resolve env s = Ok c) args cids ∧ out = acc ++ (Encode mb enc <$> cids) ∧
    ∀ x, x ∈ pn_recursive p' ↔ x ∈ pn_recursive p ∧ x ∉ cids.
Proof.
  revert acc p. induction args as [|b args IH]; intros acc p; cbn [rm_pins].
  { intros [= <- <-]. exists []. split_and!; [constructor|by rewrite app_nil_r|set_solver]. }
  intros (c & p0 & [Hc ->]%mlift_ok & Hr)%bind_ok. apply bind_ok in Hr as ([] & p1 & Hrm & Hr).
  apply IH in Hr as (cids & Hres & -> & Hin). exists (c :: cids).
  split_and!; [by constructor|by rewrite <- app_assoc|].
  unfold pin_Rm in Hrm. rewrite Hc in Hrm. destruct (pn_Unpin p c true) as [p2|] eqn:Hu; [|done].
  destruct (pn_Flush p2) as [p3|] eqn:Hf; [|done]. injection Hrm as <-.
  intros x. rewrite Hin, (Flush_recursive _ _ Hf), not_elem_of_cons.
  pose proof (Unpin_gone _ _ _ Hu). pose proof (Unpin_recursive _ _ _ _ Hu x).
  destruct (decide (x = c)) as [->|]; naive_solver.
Qed.

End changing.

Section loop.
Variable emit_err : nat → option string.

(** The loop of [--progress] succeeds only with the pins written last. *)
Lemma addPin_loop_ok result final sels : ∀ out out',
  addPin_loop emit_err result final sels out = (Ok (), out') →
  ∃ pins, result = Ok pins ∧ last out' = Some (mkAddOut (Some pins) 0).
Proof.
  induction sels as [|[v|e] sels IH]; intros out out'; cbn [addPin_loop]; [| |done].
  - destruct result as [pins|]; [|done]. intros Hr. exists pins. split; [done|].
    repeat case_match; simplify_eq; by rewrite last_snoc.
  - destruct (emit_err (length out)); [done|]. apply IH.
Qed.

End loop.

(** ** Verification agrees with the pin API's *)

Section sim.
Context (mb : Multibase) (enc : Encoder) (explain : bool) (store : gmap Cid Block) (verif_msg : VerifError → string).

(** The links of a block whose CID is acceptable *)
Definition valid_links (c : Cid) : res DagError (list Cid) :=
  match ValidateCid c with Err e => Err (ErrDag (verif_msg e)) | Ok _ => ipld_GetLinks store c end.

(** How a status is written *)
Definition shown (st : PinStatus) : CmdStatus :=
  mkCmdStatus (ps_ok st)
    (if explain then (λ ce, mkBad (Encode mb enc ce.1) (dag_msg ce.2)) <$> badNodes st else []).

Abbreviation api_check := (PinApi.checkPin valid_links).
Abbreviation cmd_check := (checkPin mb enc explain store verif_msg).

Definition show_res (x : res unit PinStatus * gmap Cid PinStatus) : res unit CmdStatus * gmap Cid CmdStatus :=
  (match x.1 with Ok st => Ok (shown st) | Err e => Err e end, shown <$> x.2).

Lemma cmd_links_sim (rec : Cid → M (gmap Cid CmdStatus) unit CmdStatus) (rec' : Cid → M (gmap Cid PinStatus) unit PinStatus) :
  (∀ c v, rec c (shown <$> v) = show_res (rec' c v)) →
  ∀ links st v, cmd_links rec links (shown st) (shown <$> v) = show_res (check_links rec' links st v).
Proof.
  intros Hrec. induction links as [|l links IH]; intros st v; [done|]. cbn [cmd_links check_links].
  rewrite !bind_unfold, Hrec. destruct (rec' l v) as [[r|e] v1]; [|done]. unfold show_res at 1. cbn [fst snd].
  rewrite <- IH. f_equal. unfold shown. destruct (ps_ok r); cbn; [done|].
  destruct explain; [by rewrite fmap_app|done].
Qed.

(** The command's closure computes what the API's does, with CIDs checked. *)
Lemma checkPin_sim fuel : ∀ root v, cmd_check fuel root (shown <$> v) = show_res (api_check fuel root v).
Proof.
  induction fuel as [|fuel IH]; intros root v; cbn [checkPin PinApi.checkPin];
    rewrite lookup_fmap; destruct (v !! root) as [st|] eqn:Hv; try done; simpl.
  assert (∀ e, (Ok (bad mb enc explain root (dag_msg e)), <[root := bad mb enc explain root (dag_msg e)]> (shown <$> v)) =
    show_res (Ok (mkPinStatus root false [(root, e)]), <[root := mkPinStatus root false [(root, e)]]> v)) as Hbad.
  { intros e. unfold show_res. cbn [fst snd]. rewrite fmap_insert. by unfold shown, bad; destruct explain. }
  unfold valid_links at 1. destruct (ValidateCid root) as [|e]; [|apply (Hbad (ErrDag (verif_msg e)))].
  destruct (ipld_GetLinks store root) as [links|e]; [|apply Hbad].
  assert (mkCmdStatus true [] = shown (mkPinStatus root true [])) as -> by (unfold shown; by destruct explain).
  rewrite (cmd_links_sim _ (api_check fuel)) by done.
  destruct (check_links (api_check fuel) links _ v) as [[st|e] v']; unfold show_res; cbn [fst snd]; [|done].
  by rewrite fmap_insert.
Qed.

(** What the command writes of the statuses, pin by pin *)
Definition written (includeOk : bool) (pins : list Cid) (sts : list PinStatus) : list PinVerifyRes :=
  omap (λ cst, if negb (ps_ok cst.2) || includeOk
               then Some (mkVerifyRes (Encode mb enc cst.1) (shown cst.2)) else None) (zip pins sts).

Lemma verify_loop_sim includeOk fuel pins : ∀ v sts v',
  verify_pins valid_links fuel pins v = (Ok sts, v') →
  verify_loop mb enc explain store verif_msg includeOk fuel pins (shown <$> v) =
    (Ok (written includeOk pins sts), shown <$> v').
Proof.
  induction pins as [|c pins IH]; intros v sts v'; [by intros [= <- <-]|]. cbn [verify_pins verify_loop].
  intros (st & v1 & Hst & Hr)%bind_ok. apply bind_ok in Hr as (sts' & v2 & Hsts & [= <- <-]).
  rewrite bind_unfold, checkPin_sim, Hst. unfold show_res. cbn [fst snd].
  rewrite bind_unfold, (IH _ _ _ Hsts). unfold written. cbn. by destruct (negb (ps_ok st) || includeOk).
Qed.

End sim.

(** *** What is not read *)

(** Verification looks at a store through the links of its blocks. *)
Section same_links.
Context (mb : Multibase) (enc : Encoder) (explain : bool) (store store' : gmap Cid Block) (verif_msg : VerifError → string).
Context (Hsame : ∀ c, ipld_GetLinks store' c = ipld_GetLinks store c).

Lemma cmd_links_ext rec rec' : (∀ c v, rec' c v = rec c v) →
  ∀ links st v, cmd_links rec' links st v = cmd_links rec links st v.
Proof.
  intros Hrec. induction links as [|l links IH]; intros st v; [done|]. cbn [cmd_links].
  rewrite !bind_unfold, Hrec. by destruct (rec l v) as [[r|e] v1].
Qed.

Lemma checkPin_ext fuel : ∀ root v,
  checkPin mb enc explain store' verif_msg fuel root v = checkPin mb enc explain store verif_msg fuel root v.
Proof.
  induction fuel as [|fuel IH]; intros root v; cbn [checkPin]; [done|]. rewrite Hsame.
  destruct (v !! root); [done|]. destruct (ValidateCid root); [|done].
  destruct (ipld_GetLinks store root) as [links|]; [|done]. by rewrite (cmd_links_ext _ _ IH).
Qed.

Lemma pinVerify_ext includeOk fuel keys :
  pinVerify mb enc explain store' verif_msg includeOk fuel keys = pinVerify mb enc explain store verif_msg includeOk fuel keys.
Proof.
  destruct keys as [pins|]; [|done]. unfold pinVerify. cbn. do 2 f_equal. generalize (∅ : gmap Cid CmdStatus).
  induction pins as [|c pins IH]; intros v; [done|]. cbn [verify_loop]. rewrite !bind_unfold, checkPin_ext.
  destruct (checkPin _ _ _ _ _ _ _ v) as [[st|e] v1]; [|done]. rewrite !bind_unfold.
  specialize (IH v1).
  destruct (verify_loop mb enc explain store' _ _ _ _ v1) as [[r1|e1] ?], (verify_loop mb enc explain store _ _ _ _ v1) as [[r2|e2] ?];
    simpl in IH; by simplify_eq.
Qed.
End same_links.

(** A raw block is never read: with or without it [pin verify] writes the same,
    although a pin that has lost one is not complete. *)
Theorem pinVerify_ignores_raw mb enc explain store verif_msg includeOk fuel keys c :
  cid_Type c = Raw →
  pinVerify mb enc explain (delete c store) verif_msg includeOk fuel keys =
    pinVerify mb enc explain store verif_msg includeOk fuel keys.
Proof.
  intros Hc. apply pinVerify_ext. intros x. unfold ipld_GetLinks. destruct (decide (cid_Type x = Raw)); [done|].
  rewrite lookup_delete_ne; [done|]. by intros ->.
Qed.

(** ** Listing *)

Lemma lsAll_loop_ok mb ls_err enc l : (∀ e, PinErr e ∉ l) →
  lsAll_loop mb ls_err enc l = (Ok (), omap (λ p, match p with PinListed t c => Some (mkLsObj (Encode mb enc c) t) | _ => None end) l).
Proof.
  induction l as [|[t c|e] l IH]; intros He; [done| |].
  - simpl. rewrite IH; [done|]. intros e Hin. apply (He e). by right.
  - exfalso. apply (He e). by left.
Qed.

(** The table has what was listed, when no CID comes twice. *)
Lemma keys_lookup mb enc l (m : gmap string string) s t :
  NoDup (listed_cids l) → (∀ c c', c ∈ listed_cids l → c' ∈ listed_cids l → Encode mb enc c = Encode mb enc c' → c = c') →
  (∀ c, c ∈ listed_cids l → m !! Encode mb enc c = None) →
  foldl (λ k o, <[lo_Cid o := lo_Type o]> k) m
    (omap (λ p, match p with PinListed t c => Some (mkLsObj (Encode mb enc c) t) | _ => None end) l) !! s = Some t ↔
  m !! s = Some t ∨ ∃ c, s = Encode mb enc c ∧ PinListed t c ∈ l.
Proof.
  revert m. induction l as [|[t' c|e] l IH]; intros m Hnd Hinj Hm; simpl.
  - split; [by left|]. intros [|(c & _ & Hc)]; [done|by apply not_elem_of_nil in Hc].
  - unfold listed_cids in Hnd, Hinj, Hm. simpl in Hnd, Hinj, Hm. apply NoDup_cons in Hnd as [Hc Hnd].
    rewrite IH; [|done| |].
    + destruct (decide (s = Encode mb enc c)) as [->|Hne].
      * rewrite lookup_insert, decide_True by done. rewrite (Hm c) by (by left). split.
        { intros [[= ->]|(c' & Hc' & Hin)]; right; [exists c; split; [done|by left]|exists c'; split; [done|by right]]. }
        { intros [|(c' & Heq & [[= -> ->]|Hin]%elem_of_cons)]; [done|by left|]. right. eauto. }
      * rewrite lookup_insert_ne by congruence. split.
        { intros [|(c' & Hc' & Hin)]; [by left|]. right. exists c'. split; [done|by right]. }
        { intros [|(c' & Heq & [[= -> ->]|Hin]%elem_of_cons)]; [by left|done|]. right. eauto. }
    + intros x y Hx Hy. apply Hinj; by right.
    + intros x Hx. rewrite lookup_insert_ne; [apply Hm; by right|].
      intros Heq. apply Hinj in Heq; [by subst|by left|by right].
  - rewrite IH by done. split; (intros [|(c & Hc & Hin)]; [by left|]); right; exists c; (split; [done|]); [by right|].
    by apply elem_of_cons in Hin as [|].
Qed.

(** ** The claims *)

(** pin ls without arguments writes a table in which a CID has the type all of
    its kind have: recursive, direct when not also recursive, indirect when below
    a recursive pin and neither; nothing else is in it.  So it is when the DAGs
    can be read, the request is not cancelled and the encoder tells the listed
    CIDs apart. *)
Theorem listPinCmd_exact {P : Type} `{!Pinner P, !PinQuery P} env mb ls_err lenv store req enc rkeys dkeys (p : P) :
  (∀ n, ls_ctx_done lenv n = false) → (∀ X c, c ∈ set_Keys lenv X ↔ c ∈ X) →
  (∀ r c, r ∈ rkeys → Dag.reach (children store) r c → ∃ l, ipld_GetLinks store c = Ok l) →
  ls_RecursiveKeys lenv = Ok rkeys → ls_DirectKeys lenv = Ok dkeys →
  GetCidEncoder mb req = Ok enc →
  (∀ c c', c ∈ listed_cids (PinApi.pinLsAll lenv store "all") → c' ∈ listed_cids (PinApi.pinLsAll lenv store "all") →
     Encode mb enc c = Encode mb enc c' → c = c') →
  ∃ keys, listPinCmd env mb ls_err lenv store req "all" false [] p = (Ok (), Some (LsKeys keys)) ∧
    ∀ s t, keys !! s = Some t ↔ ∃ c, s = Encode mb enc c ∧ entries_all store rkeys dkeys (PinListed t c).
Proof.
  intros Hctx Hset Hread HR HD Henc Hinj.
  assert (∀ x, x ∈ PinApi.pinLsAll lenv store "all" ↔ entries_all store rkeys dkeys x) as Hall
    by (intros x; by eapply pinLsAll_all).
  assert (Ls lenv store "all" = Ok (PinApi.pinLsAll lenv store "all")) as HLs by reflexivity.
  unfold listPinCmd, pinLsAll. rewrite decide_True by (by apply (bool_decide_unpack _)).
  rewrite decide_False by (intros Hx; by apply Hx). rewrite Henc, HLs, lsAll_loop_ok.
  2: { intros e He. apply Hall in He as [(c & ? & _)|[(c & ? & _)|(c & ? & _)]]; done. }
  eexists. split; [done|]. intros s t. rewrite keys_lookup.
  - setoid_rewrite Hall. rewrite lookup_empty. naive_solver.
  - apply pinLsAll_once.
  - done.
  - intros c _. apply lookup_empty.
Qed.

(** When pin add, with or without progress, reports no error, every block
    below every argument, and below every pin there was, survives every later
    collection; and what it wrote last names the arguments' CIDs in their order. *)
Theorem addPinCmd_protects {P : Type} `{PinnerLaws P} env mb req progress args emit_err final sels p out p' :
  addPinCmd env mb req true progress args emit_err final sels p = ((Ok (), out), p') →
  ∃ enc cids, GetCidEncoder mb req = Ok enc ∧ Forall2 (λ s c, Resolve env s = Ok c) args cids ∧
    last out = Some (mkAddOut (Some (Encode mb enc <$> cids)) 0) ∧
    ∀ genv bs roots c x, c ∈ cids ∨ c ∈ pn_recursive p → Dag.reach (children bs) c x →
      (GC (with_pins p' genv) bs roots).1 !! x = bs !! x.
Proof.
  unfold addPinCmd. destruct (GetCidEncoder mb req) as [enc|]; [|done].
  destruct (pinAddMany env mb enc args true p) as [r p1] eqn:Hadd.
  apply pinAddMany_run in Hadd as (dn & cids & _ & Hres & Hin & Hok). intros Hrun.
  assert (p1 = p' ∧ ∃ pins, r = Ok pins ∧ last out = Some (mkAddOut (Some pins) 0)) as (-> & pins & -> & Hlast).
  { destruct progress.
    - injection Hrun as Hl ->. split; [done|]. by apply addPin_loop_ok in Hl.
    - destruct r as [pins|]; [|done]. destruct (emit_err 0); [done|]. injection Hrun as <- <-. eauto. }
  destruct (Hok _ eq_refl) as [-> ->]. exists enc, cids. split_and!; [done..|].
  intros genv bs roots c x Hc Hx. apply (proj2 (GC_keeps _ _ _)). left. exists (pn_recursive p'), c.
  split_and!; [done|by apply Hin|done].
Qed.

(** C37. pin verify never fails to terminate on an acyclic store, and says of the
    recursive pins, in order, exactly this: a pin is ok when every block below it
    has an acceptable CID and its links can be told, broken otherwise; broken
    pins are always written, the others with --verbose; the bad blocks are listed
    with their errors unless --quiet.  The links of a raw block are told without
    reading it, so that a raw block need not be there ([pinVerify_ignores_raw]). *)
Theorem pinVerify_exact mb enc explain store verif_msg rank includeOk fuel pins :
  (∀ a b, Dag.edge (follow (valid_links store verif_msg)) a b → rank b < rank a) →
  Forall (λ c, rank c < fuel) pins →
  ∃ sts, pinVerify mb enc explain store verif_msg includeOk fuel (Ok pins) =
           Ok (Ok (written mb enc explain includeOk pins sts)) ∧
    Forall2 (status_spec (valid_links store verif_msg)) pins sts.
Proof.
  intros Hr Hf. destruct (verify_pins_spec _ rank Hr fuel pins ∅ Hf) as (sts & v' & Hv & Hs); [apply map_Forall_empty|].
  exists sts. split; [|done]. unfold pinVerify. cbn.
  apply (verify_loop_sim mb enc explain _ _ includeOk) in Hv. rewrite fmap_empty in Hv. by rewrite Hv.
Qed.

(** pin rm that reports no error wrote the CIDs of its arguments in order, and
    the recursive pins are what they were less those CIDs. *)
Theorem rmPinCmd_exact {P : Type} `{PinnerLaws P} env mb req args p out p' :
  rmPinCmd env mb req true args p = (Ok out, p') →
  ∃ enc cids, GetCidEncoder mb req = Ok enc ∧ Forall2 (λ s c, Resolve env s = Ok c) args cids ∧
    out = Encode mb enc <$> cids ∧ ∀ x, x ∈ pn_recursive p' ↔ x ∈ pn_recursive p ∧ x ∉ cids.
Proof.
  unfold rmPinCmd. intros (enc & p0 & [Henc ->]%mlift_ok & Hr)%bind_ok.
  apply rm_pins_run in Hr as (cids & Hres & -> & Hin). by exists enc, cids.
Qed.

(** ** Examples *)

Module CmdExample.

(** Multibase with names as they are: a CID is written as its kind and digest. *)
Definition mb : Multibase := mkMultibase (λ b, Ok b)
  (λ _ c, match c with
          | Undef => "b"
          | CidV0 d => "Qm" +:+ d
          | CidV1 k h => "b" +:+ pretty k +:+ "-" +:+ mh_digest h
          end)
  (λ s, if HasPrefix s "Qm" then Ok (CidV0 s) else Err "not a cid") (λ _, Some "base32").

Definition req : CidOpts := mkCidOpts None None.

#[global] Instance query : PinQuery SetPinner.t := λ p c mode,
  Ok (if decide (c ∈ p.1) then ("recursive", true) else if decide (c ∈ p.2) then ("direct", true) else ("", false)).

End CmdExample.

Lemma addPinCmd_protects_witness :
  (GC (with_pins (P := SetPinner.t) ([Example.node "file"], []) Example.env) Example.bs []).1
    !! Example.leaf "chunk2" = Example.bs !! Example.leaf "chunk2".
Proof.
  destruct (addPinCmd_protects (P := SetPinner.t) PinExample.env CmdExample.mb CmdExample.req true ["/ipfs/file"]
              (λ _, None) 3 [Tick 1; Tick 2] ([], [])
              [mkAddOut None 1; mkAddOut None 2; mkAddOut None 3;
               mkAddOut (Some [Encode CmdExample.mb Default (Example.node "file")]) 0] ([Example.node "file"], []))
    as (enc & cids & _ & Hc & _ & Hp); [by vm_compute|].
  apply (Hp _ _ _ (Example.node "file")); [left|apply Example.file_reach].
  apply Forall2_cons_inv_l in Hc as (c & cids' & Hc & _ & ->). injection Hc as <-. by left.
Defined.

Lemma rmPinCmd_exact_witness :
  rmPinCmd (P := SetPinner.t) PinExample.env CmdExample.mb CmdExample.req true ["/ipfs/file"] ([Example.node "file"; Example.node "mfs"], []) =
    (Ok [Encode CmdExample.mb Default (Example.node "file")], ([Example.node "mfs"], [])) ∧
  Example.node "file" ∉ pn_recursive (P := SetPinner.t) ([Example.node "mfs"], []).
Proof.
  assert (rmPinCmd (P := SetPinner.t) PinExample.env CmdExample.mb CmdExample.req true ["/ipfs/file"]
    ([Example.node "file"; Example.node "mfs"], []) =
    (Ok [Encode CmdExample.mb Default (Example.node "file")], ([Example.node "mfs"], []))) as Hr by (by vm_compute).
  split; [exact Hr|]. apply rmPinCmd_exact in Hr as (enc & cids & _ & Hc & _ & Hin).
  apply Forall2_cons_inv_l in Hc as (c & cids' & Hc & _ & ->). injection Hc as <-.
  intros [_ Hn]%Hin. apply Hn. by left.
Defined.

Lemma pinVerify_exact_witness :
  ∃ st, pinVerify CmdExample.mb Default true Example.bs (λ _, "insecure") true 2 (Ok [Example.node "mfs"]) =
      Ok (Ok (written CmdExample.mb Default true true [Example.node "mfs"] [st])) ∧
    status_spec (valid_links Example.bs (λ _, "insecure")) (Example.node "mfs") st.
Proof.
  destruct (pinVerify_exact CmdExample.mb Default true Example.bs (λ _, "insecure") PinExample.rank true 2 [Example.node "mfs"])
    as (sts & Hv & Hs).
  - intros a b Hab. apply PinExample.pin_rank_edge. revert Hab. unfold Dag.edge, follow, valid_links, children.
    destruct (ValidateCid a); [done|]. by intros ?%not_elem_of_nil.
  - apply Forall_singleton. apply (bool_decide_unpack _). by vm_compute.
  - apply Forall2_cons_inv_l in Hs as (st & sts' & Hst & Hn & ->).
    apply Forall2_nil_inv_l in Hn as ->. eauto.
Defined.

Lemma pinVerify_ignores_raw_witness :
  pinVerify CmdExample.mb Default true (delete (Example.leaf "chunk1") Example.bs) (λ _, "insecure") true 2 (Ok [Example.node "file"]) =
    Ok (Ok [mkVerifyRes "b112-file" (mkCmdStatus true [])]).
Proof. rewrite pinVerify_ignores_raw; [by vm_compute|done]. Defined.

Lemma listPinCmd_exact_witness :
  ∃ keys, listPinCmd (P := SetPinner.t) PinExample.env CmdExample.mb (λ _, "failed") PinExample.ls_env Example.bs
      CmdExample.req "all" false [] ([], []) = (Ok (), Some (LsKeys keys)) ∧
    keys !! "b85-chunk2" = Some "indirect".
Proof.
  destruct (listPinCmd_exact (P := SetPinner.t) PinExample.env CmdExample.mb (λ _, "failed") PinExample.ls_env Example.bs
    CmdExample.req Default [Example.node "file"] [Example.leaf "chunk1"] ([], [])) as (keys & Hk & Hin);
    [done|intros X c; apply elem_of_elements| |done|done|done| |].
  - intros r c ->%list_elem_of_singleton Hr.
    apply (reach_within _ [Example.node "file"; Example.leaf "chunk1"; Example.leaf "chunk2"]) in Hr.
    + repeat (apply elem_of_cons in Hr as [->|Hr]; [by eexists|]). by apply not_elem_of_nil in Hr.
    + apply (bool_decide_unpack _). by vm_compute.
    + by left.
  - intros c c' Hc Hc'.
    assert (listed_cids (PinApi.pinLsAll PinExample.ls_env Example.bs "all") =
      [Example.node "file"; Example.leaf "chunk1"; Example.leaf "chunk2"]) as Hl by (by vm_compute).
    rewrite Hl in Hc, Hc'. clear Hl.
    repeat (apply elem_of_cons in Hc as [->|Hc]; [|]); try by apply not_elem_of_nil in Hc.
    all: repeat (apply elem_of_cons in Hc' as [->|Hc']; [done|]); by apply not_elem_of_nil in Hc'.
  - exists keys. split; [exact Hk|]. apply Hin. exists (Example.leaf "chunk2"). split; [by vm_compute|].
    right; right. eexists. split_and!; [done| |by apply (bool_decide_unpack _); vm_compute..].
    exists (Example.node "file"). split; [by left|]. apply tc_once.
    apply (bool_decide_unpack _). by vm_compute.
Defined.

(** With an encoder that upgrades, the two versions of a CID share an entry of the
    table, and the one that is listed last is all there is: a recursive pin is
    shown as direct. *)
Theorem listPinCmd_merges_versions :
  let v0 := CidV0 "digest" in
  let v1 := CidV1 DagProtobuf (cid_Hash v0) in
  listPinCmd (P := SetPinner.t) PinExample.env CmdExample.mb (λ _, "failed")
    (mkLsEnv (Ok [v0]) (Ok [v1]) elements (λ _, false) (λ n, n)) {[v0 := mkBlock "" (Some [])]}
    (mkCidOpts (Some "base32") None) "all" false [] ([v0], [v1]) =
  (Ok (), Some (LsKeys {["b112-digest" := "direct"]})).
Proof. by vm_compute. Qed.
