(* ===== verification/Keystore.v ===== *)
(** * The key store

    The interface of go-ipfs-keystore as the repository's code uses it, with what
    its documentation promises, and the implementation on the disk
    (src/vendor/github.com/ipfs/go-ipfs-keystore/keystore.go): one file per key
    in a directory, named after the key in base 32. *)

From Stdlib Require Import ZArith Ascii String.
From stdpp Require Import base gmap sets list strings.
From S2P Require Import Prelude GoStrings GoFS.

Inductive KErr := ErrNoSuchKey | ErrKeyExists | KOS (e : OSErr) | KMsg (msg : string).

(** keystore.Keystore *)
Class Keystore (S K : Type) := {
  ks_Has : string → M S KErr bool;
  ks_Put : string → K → M S KErr unit;
  ks_Get : string → M S KErr K;
  ks_Delete : string → M S KErr unit;
  ks_List : M S KErr (list string);
}.

(** What is in a key store: [stored s n k], the key [k] is there under the name
    [n]; [free s n], nothing is there under [n]. *)
Class KeystoreView (S K : Type) := {
  stored : S → string → K → Prop;
  free : S → string → Prop;
}.

(** Two states agree on a name. *)
Definition agree {S K} `{KeystoreView S K} (s s' : S) (n : string) : Prop :=
  (∀ k, stored (K := K) s' n k ↔ stored (K := K) s n k) ∧ (free (K := K) s' n ↔ free (K := K) s n).

Class KeystoreLaws (S K : Type) `{Keystore S K, KeystoreView S K} : Prop := {
  stored_unique s n (k k' : K) : stored s n k → stored s n k' → k = k';
  stored_not_free s n (k : K) : stored s n k → ¬ free (K := K) s n;
  Has_law s n r s' : ks_Has (K := K) n s = (r, s') → s' = s ∧ ∀ b, r = Ok b → (b = false ↔ free (K := K) s n);
  Get_law s n r s' : ks_Get (K := K) n s = (r, s') → s' = s ∧ ∀ k, r = Ok k → stored s n k;
  Put_law s n (k : K) r s' : ks_Put n k s = (r, s') →
    (∀ m, m ≠ n → agree (K := K) s s' m) ∧
    (r = Ok () → free (K := K) s n ∧ stored s' n k) ∧
    (¬ free (K := K) s n → s' = s);
  Delete_law s n r s' : ks_Delete (K := K) n s = (r, s') →
    (∀ m, m ≠ n → agree (K := K) s s' m) ∧
    match r with Ok _ => free (K := K) s' n | Err _ => s' = s end;
  List_law s r s' : ks_List (K := K) s = (r, s') →
    s' = s ∧ ∀ l, r = Ok l → ∀ n, n ≠ "" → ¬ free (K := K) s n → n ∈ l;
}.

(** ** On the disk *)

Definition upper_char (c : ascii) : ascii :=
  let n := nat_of_ascii c in if (97 <=? n) && (n <=? 122) then ascii_of_nat (n - 32) else c.
Definition lower_char (c : ascii) : ascii :=
  let n := nat_of_ascii c in if (65 <=? n) && (n <=? 90) then ascii_of_nat (n + 32) else c.
Fixpoint smap (f : ascii → ascii) (s : string) : string :=
  match s with EmptyString => EmptyString | String c s' => String (f c) (smap f s') end.

(** encoding/base32 and the key formats of libp2p *)
Record KeyCodec (K : Type) := mkKeyCodec {
  codec_Enc : string → string;
  codec_Dec : string → option string;
  Marshal : K → res KErr string;
  Unmarshal : string → res KErr K;
}.
Arguments codec_Enc {K}. Arguments codec_Dec {K}. Arguments Marshal {K}. Arguments Unmarshal {K}. Arguments mkKeyCodec {K}.

Class KeyCodecLaws {K} (X : KeyCodec K) : Prop := {
  codec_roundtrip n : codec_Dec X (smap upper_char (smap lower_char (codec_Enc X n))) = Some n;
  codec_plain n : has_char "/"%char (smap lower_char (codec_Enc X n)) = false;
  marshal_roundtrip k b : Marshal X k = Ok b → Unmarshal X b = Ok k;
}.

Definition keyFilenamePrefix : string := "key_".

Section fs_keystore.
Context {K : Type} (X : KeyCodec K) (fault : string → string → option string) (dir : string).

Definition kos {A} (c : M FS OSErr A) : M FS KErr A := λ fs,
  let '(r, fs') := c fs in (match r with Ok a => Ok a | Err e => Err (KOS e) end, fs').

(** encode *)
Definition encode (name : string) : res KErr string :=
  if decide (name = "") then Err (KMsg "key name must be at least one character")
  else Ok (keyFilenamePrefix +:+ smap lower_char (codec_Enc X name)).

(** decode *)
Definition decode (name : string) : option string :=
  if HasPrefix name keyFilenamePrefix
  then codec_Dec X (smap upper_char (sdrop (String.length keyFilenamePrefix) name)) else None.

(** os.OpenFile with O_CREATE|O_EXCL|O_WRONLY *)
Definition OpenExcl (p : string) : M FS OSErr unit :=
  _ ← os_try fault "create" p;
  fs ← mget;
  match fs !! Dir p, fs !! p with
  | Some NDir, None => mmodify (<[p := NFile ""]>)
  | Some NDir, Some _ => mthrow ErrExist
  | _, _ => mthrow ErrNotExist
  end.

(** FSKeystore.Has *)
Definition Has (name : string) : M FS KErr bool :=
  name ← mlift (encode name);
  mstate (λ fs, match Stat fault (PathJoin dir name) fs with
                | (Ok _, fs') => (Ok true, fs')
                | (Err e, fs') => if IsNotExist e then (Ok false, fs') else (Err (KOS e), fs')
                end).

(** FSKeystore.Put *)
Definition Put (name : string) (k : K) : M FS KErr unit :=
  name ← mlift (encode name);
  b ← mlift (Marshal X k);
  let kp := PathJoin dir name in
  _ ← mstate (λ fs, match OpenExcl kp fs with
             | (Ok _, fs') => (Ok (), fs')
             | (Err e, fs') => (Err (if decide (e = ErrExist) then ErrKeyExists else KOS e), fs')
             end);
  kos (WriteTo fault kp b).

(** FSKeystore.Get *)
Definition Get (name : string) : M FS KErr K :=
  name ← mlift (encode name);
  data ← mstate (λ fs, match ReadFile fault (PathJoin dir name) fs with
                | (Ok c, fs') => (Ok c, fs')
                | (Err e, fs') => (Err (if IsNotExist e then ErrNoSuchKey else KOS e), fs')
                end);
  mlift (Unmarshal X data).

(** FSKeystore.Delete *)
Definition Delete (name : string) : M FS KErr unit :=
  name ← mlift (encode name);
  kos (Remove fault (PathJoin dir name)).

(** Readdirnames: the files right below the directory *)
Definition Readdirnames (fs : FS) : list string :=
  omap (λ pn, if decide (pn.1 ≠ dir ∧ Dir pn.1 = dir) then Some (Base pn.1) else None) (map_to_list fs).

(** FSKeystore.List *)
Definition List_ : M FS KErr (list string) :=
  _ ← kos (os_try fault "open" dir);
  _ ← kos (os_try fault "readdir" dir);
  fs ← mget;
  mret (omap decode (Readdirnames fs)).

#[global] Instance FSKeystore : Keystore FS K :=
  {| ks_Has := Has; ks_Put := Put; ks_Get := Get; ks_Delete := Delete; ks_List := List_ |}.

(** The file of a key *)
Definition key_file (n : string) : string := PathJoin dir (keyFilenamePrefix +:+ smap lower_char (codec_Enc X n)).

#[global] Instance fs_view : KeystoreView FS K := {|
  stored fs n k := n ≠ "" ∧ ∃ b, fs !! key_file n = Some (NFile b) ∧ Unmarshal X b = Ok k;
  free fs n := n = "" ∨ fs !! key_file n = None;
|}.

End fs_keystore.

Section fs_laws.
Context {K : Type} (X : KeyCodec K) `{!KeyCodecLaws X} (fault : string → string → option string) (dir : string).
Hypothesis Hdir : Clean dir = dir ∧ dir ≠ "." ∧ dir ≠ slash.

Lemma key_name n : file_name (keyFilenamePrefix +:+ smap lower_char (codec_Enc X n)).
Proof using KeyCodecLaws0. split_and!; [done..|]. simpl. apply (codec_plain n). Qed.

Lemma key_file_inj n n' : key_file X dir n = key_file X dir n' → n = n'.
Proof using KeyCodecLaws0.
  unfold key_file. intros Heq. apply (f_equal Base) in Heq. rewrite !Base_Join in Heq by apply key_name.
  injection Heq as Heq. apply Some_inj. by rewrite <- !codec_roundtrip, Heq.
Qed.

Lemma encode_ok n f : encode X n = Ok f → n ≠ "" ∧ PathJoin dir f = key_file X dir n.
Proof using Type. unfold encode. case_decide; [done|]. by intros [= <-]. Qed.

(** A change of one key's file leaves the other keys alone. *)
Lemma agree_other (fs fs' : FS) n m :
  (∀ q, q ≠ key_file X dir n → fs' !! q = fs !! q) → m ≠ n →
  @agree _ _ (fs_view X dir) fs fs' m.
Proof using KeyCodecLaws0.
  intros Hq Hm. unfold agree. simpl. rewrite Hq; [done|]. by intros ?%key_file_inj.
Qed.

Lemma agree_refl (fs : FS) m : @agree _ _ (fs_view X dir) fs fs m.
Proof using Type. by split. Qed.

Lemma Put_fs n k fs r fs' : Put X fault dir n k fs = (r, fs') →
  (fs' = fs ∧ r ≠ Ok ()) ∨
  n ≠ "" ∧ fs !! key_file X dir n = None ∧ (∀ q, q ≠ key_file X dir n → fs' !! q = fs !! q) ∧
    (r = Ok () → ∃ b, Marshal X k = Ok b ∧ fs' !! key_file X dir n = Some (NFile b)).
Proof using Type.
  unfold Put. rewrite bind_unfold. unfold mlift at 1. destruct (encode X n) as [f|] eqn:He; [|intros [= <- <-]; by left].
  apply encode_ok in He as [Hn Hf]. rewrite bind_unfold. unfold mlift at 1.
  destruct (Marshal X k) as [b|] eqn:Hb; [|intros [= <- <-]; by left]. cbv zeta. rewrite Hf, bind_unfold.
  unfold mstate, OpenExcl. rewrite bind_unfold. unfold os_try at 1.
  destruct (fault "create" (key_file X dir n)); [intros [= <- <-]; by left|].
  cbv beta iota delta [mret M_ret]. rewrite bind_unfold. cbv beta iota delta [mget].
  destruct (fs !! Dir (key_file X dir n)) as [[|]|] eqn:Hd; try (intros [= <- <-]; by left).
  destruct (fs !! key_file X dir n) eqn:Hk; cbn; [intros [= <- <-]; by left|].
  unfold kos, WriteTo. rewrite bind_unfold. unfold os_try.
  destruct (fault "write" (key_file X dir n)); cbn; intros [= <- <-]; right; (split_and!; [done|done| |]).
  - intros q Hq. by rewrite lookup_insert_ne.
  - done.
  - intros q Hq. by rewrite !lookup_insert_ne.
  - intros _. exists b. by rewrite lookup_insert, decide_True.
Qed.

#[global] Instance FSKeystore_laws : @KeystoreLaws FS K (FSKeystore X fault dir) (fs_view X dir).
Proof using KeyCodecLaws0 Hdir.
  split; simpl.
  - intros fs n k k' (_ & b & Hb & Hk) (_ & b' & Hb' & Hk'). congruence.
  - intros fs n k (Hn & b & Hb & _) [|]; congruence.
  - intros fs n r fs'. unfold Has, mstate, Stat, os_try. go_run.
    destruct (encode X n) as [f|] eqn:He; [|intros [= <- <-]; by split]. apply encode_ok in He as [Hn ->].
    destruct (fault "stat" _); [intros [= <- <-]; by split|].
    destruct (fs !! key_file X dir n) eqn:Hk; intros [= <- <-]; (split; [done|]); intros b [= <-]; naive_solver.
  - intros fs n r fs'. unfold Get, mstate, ReadFile, os_try. go_run.
    destruct (encode X n) as [f|] eqn:He; [|intros [= <- <-]; by split]. apply encode_ok in He as [Hn ->].
    destruct (fault "read" _); [intros [= <- <-]; by split|].
    destruct (fs !! key_file X dir n) as [[|c]|] eqn:Hk; intros [= <- <-]; (split; [done|]); try done.
    intros k Hu. eauto.
  - intros fs n k r fs' Hr. apply Put_fs in Hr as [[-> Hr]|(Hn & Hfree & Hq & Hok)].
    + split_and!; [intros; apply agree_refl|by intros ->|done].
    + split_and!; [intros m; by apply agree_other| |naive_solver]. intros ->.
      destruct (Hok eq_refl) as (b & Hb & Hf). apply marshal_roundtrip in Hb. eauto 10.
  - intros fs n r fs'. unfold Delete, kos, Remove, os_try. go_run.
    destruct (encode X n) as [f|] eqn:He; [|intros [= <- <-]; split; [intros; apply agree_refl|done]].
    apply encode_ok in He as [Hn ->].
    destruct (fault "remove" _); [intros [= <- <-]; split; [intros; apply agree_refl|done]|].
    destruct (fs !! key_file X dir n) eqn:Hk; intros [= <- <-]; [|split; [intros; apply agree_refl|done]].
    split; [|right; by rewrite lookup_delete, decide_True]. intros m. apply agree_other. intros q Hq. by rewrite lookup_delete_ne.
  - intros fs r fs'. unfold List_, kos, os_try. go_run. destruct (fault "open" dir); [by intros [= <- <-]|].
    destruct (fault "readdir" dir); [by intros [= <- <-]|].
    intros [= <- <-]. split; [done|]. intros l [= <-] n Hn Hfree.
    apply list_elem_of_omap. exists (keyFilenamePrefix +:+ smap lower_char (codec_Enc X n)). split.
    + destruct (fs !! key_file X dir n) as [nd|] eqn:Hk; [|naive_solver].
      unfold Readdirnames. apply list_elem_of_omap. exists (key_file X dir n, nd).
      split; [by apply elem_of_map_to_list|]. simpl. unfold key_file. destruct Hdir as (Hc & Hd & Hs).
      pose proof (key_name n). rewrite decide_True; [by rewrite Base_Join|].
      split; [by apply Join_ne_dir|by apply Dir_Join].
    + unfold decode. rewrite HasPrefix_app, sdrop_app. apply codec_roundtrip.
Qed.

End fs_laws.
