(* ===== verification/Keys.v ===== *)
(** * Keys (src/core/coreapi/key.go, src/core/commands/keystore.go and keyencode)

    The key API and the key command over the interface of [Keystore]; export,
    import and rotation, which work on the files of a repository, over [FsRepo]
    and the key store on the disk. *)

From Stdlib Require Import ZArith Ascii String.
From stdpp Require Import base gmap sets list strings relations sorting.
From S2P Require Import Prelude GoStrings GoFS Keystore Mfs ConfigKV Datastores Migrations FsRepo.

(** coreapi.key *)
Record Key := mkKey { kname : string; peerID : string }.

(** The cryptography: key generation and the peer ID of a key. *)
Record KeyEnv (K : Type) := mkKeyEnv {
  GenRSA : Z → res KErr K;
  GenEd25519 : res KErr K;
  IDFromKey : K → res KErr string;
  identity : string;
}.
Arguments GenRSA {K}. Arguments GenEd25519 {K}. Arguments IDFromKey {K}. Arguments identity {K}. Arguments mkKeyEnv {K}.

Definition DefaultRSALen : Z := 2048.

(** strings compared byte by byte, as sort.Strings does *)
Definition string_le (a b : string) : Prop := String.leb a b = true.
#[export] Instance string_le_dec a b : Decision (string_le a b).
Proof. unfold string_le. apply _. Defined.

Section key_api.
Context {S K : Type} `{!Keystore S K} (E : KeyEnv K).
Local Abbreviation A := (M S KErr).

(** KeyAPI.Generate *)
Definition Generate (name algorithm : string) (size : Z) : A Key :=
  if decide (name = "self") then mthrow (KMsg "cannot create key with name 'self'")
  else mstate (λ s,
    match ks_Get (K := K) name s with
    | (Ok _, s1) => (Err (KMsg ("key with name '" +:+ name +:+ "' already exists")), s1)
    | (Err _, s1) =>
        (sk ← mlift (if decide (algorithm = "rsa") then GenRSA E (if decide (size = -1)%Z then DefaultRSALen else size)
                     else if decide (algorithm = "ed25519") then GenEd25519 E
                     else Err (KMsg ("unrecognized key type: " +:+ algorithm)));
         _ ← ks_Put name sk;
         pid ← mlift (IDFromKey E sk);
         mret (mkKey name pid)) s1
    end).

(** The loop of KeyAPI.List *)
Fixpoint list_keys (keys : list string) : A (list Key) :=
  match keys with
  | [] => mret []
  | k :: keys' =>
      privKey ← ks_Get k;
      pid ← mlift (IDFromKey E privKey);
      rest ← list_keys keys';
      mret (mkKey k pid :: rest)
  end.

(** KeyAPI.List *)
Definition List_keys : A (list Key) :=
  keys ← ks_List (K := K);
  out ← list_keys (merge_sort string_le keys);
  mret (mkKey "self" (identity E) :: out).

(** Get with the error of Rename and Remove *)
Definition get_named (name : string) : A K := mstate (λ s,
  match ks_Get name s with
  | (Ok k, s1) => (Ok k, s1)
  | (Err _, s1) => (Err (KMsg ("no key named " +:+ name +:+ " was found")), s1)
  end).

(** The forced removal in Rename: whether there was something to overwrite *)
Definition make_room (newName : string) (force : bool) : A bool :=
  if force then
    exist ← ks_Has (K := K) newName;
    if exist : bool then _ ← ks_Delete (K := K) newName; mret true else mret false
  else mret false.

(** KeyAPI.Rename *)
Definition Rename (oldName newName : string) (force : bool) : A (Key * bool) :=
  if decide (oldName = "self") then mthrow (KMsg "cannot rename key with name 'self'")
  else if decide (newName = "self") then mthrow (KMsg "cannot overwrite key with name 'self'")
  else
    oldKey ← get_named oldName;
    pid ← mlift (IDFromKey E oldKey);
    if decide (newName = oldName) then mret (mkKey oldName pid, false)
    else
      overwrite ← make_room newName force;
      _ ← ks_Put newName oldKey;
      _ ← ks_Delete (K := K) oldName;
      mret (mkKey newName pid, overwrite).

(** KeyAPI.Remove *)
Definition Remove (name : string) : A Key :=
  if decide (name = "self") then mthrow (KMsg "cannot remove key with name 'self'")
  else
    removed ← get_named name;
    pid ← mlift (IDFromKey E removed);
    _ ← ks_Delete (K := K) name;
    mret (mkKey "" pid).

(** KeyAPI.Self *)
Definition Self : res KErr Key :=
  if decide (identity E = "") then Err (KMsg "identity not loaded") else Ok (mkKey "self" (identity E)).

(** ** The command *)

Record KeyOutput := mkKeyOutput { Name : string; Id : string }.
Record KeyRenameOutput := mkRenameOutput { Was : string; Now : string; rId : string; Overwrite : bool }.

(** keyencode: the base of a peer ID, or none for its base58 multihash *)
Context (EncoderByName : string → res KErr string).
Context (peer_Encode : string → string) (StringOfBase : string → string → string).

(** KeyEncoderFromString *)
Definition KeyEncoderFromString (formatLabel : string) : res KErr (option string) :=
  if decide (formatLabel = "b58mh" ∨ formatLabel = "v0") then Ok None
  else match EncoderByName formatLabel with Ok enc => Ok (Some enc) | Err e => Err e end.

(** KeyEncoder.FormatID *)
Definition FormatID (enc : option string) (id : string) : string :=
  match enc with None => peer_Encode id | Some base => StringOfBase base id end.

(** keyGenCmd.Run *)
Definition keyGenCmd (typ : option string) (size : option Z) (base name : string) : A KeyOutput :=
  match typ with
  | None => mthrow (KMsg "please specify a key type with --type")
  | Some typ =>
      if decide (name = "self") then mthrow (KMsg "cannot create key with name 'self'")
      else
        keyEnc ← mlift (KeyEncoderFromString base);
        key ← Generate name typ (default (-1)%Z size);
        mret (mkKeyOutput name (FormatID keyEnc (peerID key)))
  end.

(** keyListCmd.Run *)
Definition keyListCmd (base : string) : A (list KeyOutput) :=
  keyEnc ← mlift (KeyEncoderFromString base);
  keys ← List_keys;
  mret ((λ key, mkKeyOutput (kname key) (FormatID keyEnc (peerID key))) <$> keys).

(** keyRenameCmd.Run *)
Definition keyRenameCmd (base name newName : string) (force : bool) : A KeyRenameOutput :=
  keyEnc ← mlift (KeyEncoderFromString base);
  '(key, overwritten) ← Rename name newName force;
  mret (mkRenameOutput name newName (FormatID keyEnc (peerID key)) overwritten).

(** The loop of keyRmCmd.Run *)
Fixpoint rm_keys (keyEnc : option string) (names : list string) (acc : list KeyOutput) : A (list KeyOutput) :=
  match names with
  | [] => mret acc
  | name :: names' =>
      key ← Remove name;
      rm_keys keyEnc names' (acc ++ [mkKeyOutput name (FormatID keyEnc (peerID key))])
  end.

(** keyRmCmd.Run *)
Definition keyRmCmd (base : string) (names : list string) : A (list KeyOutput) :=
  keyEnc ← mlift (KeyEncoderFromString base);
  rm_keys keyEnc names [].

End key_api.

(** ** What the operations do to the key store *)

Section key_laws.
Context {S K : Type} `{KeystoreLaws S K} (E : KeyEnv K).
Local Abbreviation agree := (Keystore.agree (S := S) (K := K)).
Local Abbreviation free := (Keystore.free (S := S) (K := K)).

Lemma agree_same s m : agree s s m.
Proof using Type. by split. Qed.

Lemma agree_trans s1 s2 s3 m : agree s1 s2 m → agree s2 s3 m → agree s1 s3 m.
Proof using Type. intros [Ha Fa] [Hb Fb]. split; [intros k; by rewrite Hb, Ha|by rewrite Fb, Fa]. Qed.

Lemma get_named_spec n s r s' : get_named (K := K) n s = (r, s') → s' = s ∧ ∀ k, r = Ok k → stored s n k.
Proof.
  unfold get_named, mstate. destruct (ks_Get n s) as [r0 s0] eqn:Hg. apply Get_law in Hg as [-> Hk].
  destruct r0; intros [= <- <-]; (split; [done|]); intros ? [=]; naive_solver.
Qed.

Lemma make_room_spec n force s r s' : make_room (K := K) n force s = (r, s') →
  (∀ m, m ≠ n → agree s s' m) ∧ (force = false → s' = s) ∧
  ∀ b, r = Ok b → (b = true → free s' n) ∧ (b = true ↔ force = true ∧ ¬ free s n).
Proof.
  unfold make_room. destruct force.
  2: { intros [= <- <-]. split_and!; [intros; apply agree_same|done|]. intros b [= <-]. naive_solver. }
  rewrite bind_unfold. destruct (ks_Has n s) as [r1 s1] eqn:Hh. apply Has_law in Hh as [-> Hb].
  destruct r1 as [b1|e]; [|intros [= <- <-]; split_and!; [intros; apply agree_same|done|done]].
  specialize (Hb b1 eq_refl). destruct b1.
  - rewrite bind_unfold. destruct (ks_Delete n s) as [r2 s2] eqn:Hd. apply Delete_law in Hd as [Hm Hd].
    destruct r2; intros [= <- <-]; (split_and!; [done|done|]); [|done]. intros b [= <-]. split; [done|]. naive_solver.
  - intros [= <- <-]. split_and!; [intros; apply agree_same|done|]. intros b [= <-]. naive_solver.
Qed.

(** What Rename of [old], which is [k], does: the other names are left alone; the
    key is not lost, whatever happens; without force nothing is overwritten. *)
Definition renamed (old new : string) (force : bool) (k : K) (s s' : S) (r : res KErr (Key * bool)) : Prop :=
  (∀ m, m ≠ old → m ≠ new → agree s s' m) ∧
  (stored s' old k ∨ stored s' new k) ∧
  (force = false → ¬ free s new → s' = s) ∧
  match r with
  | Ok (key, overwritten) =>
      old ≠ "self" ∧ new ≠ "self" ∧ kname key = new ∧ IDFromKey E k = Ok (peerID key) ∧ stored s' new k ∧
      (old ≠ new → free s' old) ∧ (overwritten = true ↔ old ≠ new ∧ force = true ∧ ¬ free s new)
  | Err _ => True
  end.

Lemma Rename_run old new force s r s' k : Rename E old new force s = (r, s') → stored s old k →
  renamed old new force k s s' r.
Proof.
  intros Hr Hk. unfold Rename in Hr.
  assert (∀ e, (Err e, s) = (r, s') → renamed old new force k s s' r) as Hsame.
  { intros e [= <- <-]. split_and!; [intros; apply agree_same|by left|done|exact I]. }
  case_decide as Hold; [by eapply Hsame|]. case_decide as Hnew; [by eapply Hsame|].
  rewrite bind_unfold in Hr. destruct (get_named old s) as [r1 s1] eqn:Hg. apply get_named_spec in Hg as [-> Hg].
  destruct r1 as [k1|e]; [|by eapply Hsame]. specialize (Hg k1 eq_refl).
  rewrite (stored_unique _ _ _ _ Hg Hk) in Hr. rewrite bind_unfold in Hr. unfold mlift in Hr.
  destruct (IDFromKey E k) as [pid|e] eqn:Hpid; [|by eapply Hsame]. case_decide as Heq.
  { injection Hr as <- <-. subst new. split_and!; [intros; apply agree_same|by left|done|done..|]. naive_solver. }
  rewrite bind_unfold in Hr. destruct (make_room new force s) as [r2 s2] eqn:Hm.
  apply make_room_spec in Hm as (Ha2 & Hf2 & Hb2).
  assert (stored s2 old k) as Hk2 by (by apply Ha2).
  destruct r2 as [b|e].
  2: { injection Hr as <- <-. split_and!; [intros; by apply Ha2|by left|intros; by apply Hf2|exact I]. }
  destruct (Hb2 b eq_refl) as [Hroom Hb]. rewrite bind_unfold in Hr.
  destruct (ks_Put new k s2) as [r3 s3] eqn:Hp. apply Put_law in Hp as (Ha3 & Hok3 & Hocc3).
  assert (stored s3 old k) as Hk3 by (by apply Ha3).
  destruct r3 as [[]|e].
  2: { injection Hr as <- <-. split_and!; [intros; eapply agree_trans; eauto|by left| |exact I].
       intros Hf Hn. rewrite (Hf2 Hf) in Hocc3. by apply Hocc3. }
  destruct (Hok3 eq_refl) as [Hfree2 Hst3]. rewrite bind_unfold in Hr.
  destruct (ks_Delete old s3) as [r4 s4] eqn:Hd. apply Delete_law in Hd as [Ha4 Hd].
  assert (force = false → ¬ free s new → s' = s) as Hnf.
  { intros Hf Hn. rewrite (Hf2 Hf) in Hfree2. done. }
  destruct r4 as [[]|e]; injection Hr as <- <-.
  - split_and!; [intros; eapply agree_trans; [eapply agree_trans|]; eauto|right; by apply Ha4|exact Hnf|done..|by apply Ha4| |].
    + done.
    + naive_solver.
  - subst s4. split_and!; [intros; eapply agree_trans; eauto|by left|exact Hnf|exact I].
Qed.

Lemma Generate_run name alg size s r s' : Generate (K := K) E name alg size s = (r, s') →
  (∀ m, m ≠ name → agree s s' m) ∧ (¬ free s name → s' = s) ∧
  match r with
  | Ok key => name ≠ "self" ∧ free s name ∧ kname key = name ∧ ∃ k, stored s' name k ∧ IDFromKey E k = Ok (peerID key)
  | Err _ => True
  end.
Proof.
  unfold Generate. case_decide as Hself; [intros [= <- <-]; split_and!; [intros; apply agree_same|done|exact I]|].
  unfold mstate. destruct (ks_Get name s) as [r0 s0] eqn:Hg. apply Get_law in Hg as [-> _].
  destruct r0; [intros [= <- <-]; split_and!; [intros; apply agree_same|done|exact I]|].
  rewrite bind_unfold. unfold mlift at 1. destruct (if decide (alg = "rsa") then _ else _) as [a|e0]; [|intros [= <- <-]; split_and!; [intros; apply agree_same|done|exact I]].
  rewrite bind_unfold. destruct (ks_Put name a s) as [r1 s1] eqn:Hp. apply Put_law in Hp as (Ha & Hok & Hocc).
  destruct r1 as [[]|e1]; [|intros [= <- <-]; split_and!; [done|done|exact I]].
  destruct (Hok eq_refl) as [Hf Hst]. rewrite bind_unfold. unfold mlift.
  destruct (IDFromKey E a) eqn:Hid; intros [= <- <-]; (split; [done|split; [done|]]); [|exact I]. split_and!; [done..|]. eauto.
Qed.

Lemma Remove_run name s r s' : Remove (K := K) E name s = (r, s') →
  (∀ m, m ≠ name → agree s s' m) ∧ (name = "self" → s' = s) ∧
  match r with Ok _ => free s' name | Err _ => s' = s end.
Proof.
  unfold Remove. case_decide as Hself; [intros [= <- <-]; split_and!; [intros; apply agree_same|done|done]|].
  rewrite bind_unfold. destruct (get_named name s) as [r0 s0] eqn:Hg. apply get_named_spec in Hg as [-> _].
  destruct r0 as [k|]; [|intros [= <- <-]; split_and!; [intros; apply agree_same|done|done]].
  rewrite bind_unfold. unfold mlift. destruct (IDFromKey E k); [|intros [= <- <-]; split_and!; [intros; apply agree_same|done|done]].
  rewrite bind_unfold. destruct (ks_Delete name s) as [r1 s1] eqn:Hd. apply Delete_law in Hd as [Ha Hd].
  destruct r1; intros [= <- <-]; split_and!; done || (intros ->; done).
Qed.

End key_laws.

(** ** The claims on the API *)

(** An operation of the key API *)
Inductive key_step {S K} `{Keystore S K} (E : KeyEnv K) : S → S → Prop :=
  | step_generate name alg size s : key_step E s (Generate (K := K) E name alg size s).2
  | step_rename old new force s : key_step E s (Rename E old new force s).2
  | step_remove name s : key_step E s (Remove (K := K) E name s).2
  | step_list s : key_step E s (List_keys E s).2.

Lemma list_keys_spec {S K} `{KeystoreLaws S K} (E : KeyEnv K) l s r s' : list_keys (K := K) E l s = (r, s') →
  s' = s ∧ ∀ out, r = Ok out →
    Forall2 (λ n key, kname key = n ∧ ∃ k, stored s n k ∧ IDFromKey E k = Ok (peerID key)) l out.
Proof.
  revert r s'. induction l as [|n l IH]; intros r s'; cbn [list_keys].
  { intros [= <- <-]. split; [done|]. intros out [= <-]. constructor. }
  rewrite bind_unfold. destruct (ks_Get n s) as [r1 s1] eqn:Hg. apply Get_law in Hg as [-> Hk].
  destruct r1 as [k|]; [|by intros [= <- <-]]. specialize (Hk k eq_refl). rewrite bind_unfold. unfold mlift.
  destruct (IDFromKey E k) as [pid|] eqn:Hid; [|by intros [= <- <-]].
  rewrite bind_unfold. destruct (list_keys E l s) as [r2 s2] eqn:Hl. destruct (IH _ _ eq_refl) as [-> Hout].
  destruct r2 as [out|]; [|by intros [= <- <-]]. intros [= <- <-]. split; [done|]. intros ? [= <-].
  constructor; [|by apply Hout]. split; [done|]. eauto.
Qed.

Lemma List_keys_run {S K} `{KeystoreLaws S K} (E : KeyEnv K) s r s' : List_keys E s = (r, s') →
  s' = s ∧ ∀ out, r = Ok out → ∃ rest, out = mkKey "self" (identity E) :: rest ∧
    Sorted string_le (kname <$> rest) ∧
    (∀ n k, n ≠ "" → stored s n k → n ∈ kname <$> rest) ∧
    ∀ key, key ∈ rest → ∃ k, stored s (kname key) k ∧ IDFromKey E k = Ok (peerID key).
Proof.
  unfold List_keys. rewrite bind_unfold. destruct (ks_List s) as [r1 s1] eqn:Hl. apply List_law in Hl as [-> Hin].
  destruct r1 as [names|]; [|by intros [= <- <-]]. specialize (Hin names eq_refl). rewrite bind_unfold.
  destruct (list_keys E _ s) as [r2 s2] eqn:Hk. apply list_keys_spec in Hk as [-> Hout].
  destruct r2 as [rest|]; [|by intros [= <- <-]]. specialize (Hout rest eq_refl). intros [= <- <-].
  split; [done|]. intros ? [= <-]. exists rest. split; [done|].
  assert (kname <$> rest = merge_sort string_le names) as Hnames.
  { clear Hin. induction Hout as [|n key l out [Hn _] _ IH]; [done|]. by rewrite fmap_cons, Hn, IH. }
  split_and!.
  - rewrite Hnames. apply Sorted_merge_sort. intros x y. unfold string_le. destruct (String.leb_total x y); auto.
  - intros n k Hn Hst. rewrite Hnames, merge_sort_Permutation. apply Hin; [done|]. by eapply stored_not_free.
  - intros key Hkey. apply list_elem_of_lookup in Hkey as [i Hi].
    destruct (Forall2_lookup_r _ _ _ _ _ Hout Hi) as (n & _ & <- & Hst). done.
Qed.

(** C8. Rename leaves every other name alone and never loses the key it renames,
    whatever fails; without force it never overwrites; when it succeeds the key is
    under the new name and no longer under the old one, and it says truthfully
    whether another key was overwritten. *)
Theorem Rename_exact {S K} `{KeystoreLaws S K} (E : KeyEnv K) old new force s r s' k :
  Rename E old new force s = (r, s') → stored s old k → renamed E old new force k s s' r.
Proof. apply Rename_run. Qed.

(** No sequence of generations, renamings, removals and listings, whatever
    their arguments and whatever fails, changes what is stored under "self". *)
Theorem self_untouched {S K} `{KeystoreLaws S K} (E : KeyEnv K) s s' :
  rtc (key_step E) s s' → agree (K := K) s s' "self".
Proof.
  induction 1 as [s|s1 s2 s3 Hstep _ IH]; [apply agree_same|]. eapply agree_trans; [|exact IH]. clear IH s3.
  destruct Hstep as [name alg size s|old new force s|name s|s].
  - destruct (Generate E name alg size s) as [r s'] eqn:Hr.
    destruct (decide (name = "self")) as [->|]; [by injection Hr as <- <-|].
    apply Generate_run in Hr as (Ha & _). by apply Ha.
  - destruct (Rename E old new force s) as [r s'] eqn:Hr. unfold Rename in Hr.
    case_decide; [by injection Hr as <- <-|]. case_decide; [by injection Hr as <- <-|].
    rewrite bind_unfold in Hr. destruct (get_named old s) as [r1 s1] eqn:Hg. pose proof Hg as Hg'.
    apply get_named_spec in Hg as [-> Hk]. destruct r1 as [k|]; [|by injection Hr as <- <-].
    assert (Rename E old new force s = (r, s')) as Hrun.
    { unfold Rename. rewrite !decide_False by done. rewrite bind_unfold, Hg'. exact Hr. }
    apply (Rename_run E _ _ _ _ _ _ k) in Hrun as (Ha & _); [|by apply Hk]. apply Ha; congruence.
  - destruct (Remove E name s) as [r s'] eqn:Hr. apply Remove_run in Hr as (Ha & Hs & _).
    destruct (decide (name = "self")) as [Heq|]; [rewrite (Hs Heq); apply agree_same|by apply Ha].
  - destruct (List_keys E s) as [r s'] eqn:Hr. apply List_keys_run in Hr as [-> _]. apply agree_same.
Qed.

(** A listing that succeeds starts with the node's own identity and then has
    exactly the keys that are stored, sorted, each with the ID of its key. *)
Theorem List_keys_exact {S K} `{KeystoreLaws S K} (E : KeyEnv K) s out s' :
  List_keys E s = (Ok out, s') →
  s' = s ∧ ∃ rest, out = mkKey "self" (identity E) :: rest ∧ Sorted string_le (kname <$> rest) ∧
    (∀ n k, n ≠ "" → stored s n k → n ∈ kname <$> rest) ∧
    ∀ key, key ∈ rest → ∃ k, stored s (kname key) k ∧ IDFromKey E k = Ok (peerID key).
Proof. intros Hr. apply List_keys_run in Hr as [-> Ho]. eauto. Qed.

(** ** Export, import and rotation *)

(** The text of an error of the key store *)
Definition kerr_text (e : KErr) : string :=
  match e with
  | ErrNoSuchKey => "no key by the given name was found"
  | ErrKeyExists => "key by that name already exists, refusing to overwrite"
  | KOS (OtherErr msg) => msg
  | KOS GoFS.ErrNotExist => "file does not exist"
  | KOS GoFS.ErrExist => "file already exists"
  | KMsg msg => msg
  end.

(** What rotation needs of the config package: a new identity, and the identity of
    a configuration. *)
Record IdentityPkg (C K : Type) := mkIdentityPkg {
  Ident : Type;
  CreateIdentity : string → option Z → res string Ident;
  set_Identity : C → Ident → C;
  DecodePrivateKey : C → res string K;
}.
Arguments Ident {C K}. Arguments CreateIdentity {C K}. Arguments set_Identity {C K}.
Arguments DecodePrivateKey {C K}. Arguments mkIdentityPkg {C K}.

Section key_files.
Context (env : Env) (X : RepoEnv) {C : Type} `{ConfigPkg C} {K : Type} (KX : KeyCodec K) (E : KeyEnv K) (I : IdentityPkg C K).
Context (EncoderByName : string → res KErr string) (peer_Encode : string → string) (StringOfBase : string → string → string).

(** The keystore directory of a repository *)
Definition ks_dir (p : string) : string := PathJoin p "keystore".

(** An operation of the key store in a world, with its error as a message *)
Definition in_ks {A} (c : M FS KErr A) : M W RErr A := λ w,
  let '(r, fs') := c (wfs w) in
  (match r with Ok a => Ok a | Err e => Err (EMsg (kerr_text e)) end, mkW fs' (locks w) (open_ds w)).

Definition lift_ks {S A} (r : res KErr A) : M S RErr A :=
  mlift (match r with Ok a => Ok a | Err e => Err (EMsg (kerr_text e)) end).

(** keyExportCmd.Run: what it emits *)
Definition keyExportCmd (cfgRoot name : string) : M W RErr string :=
  if decide (name = "self") then mthrow (EMsg "cannot export key with name 'self'")
  else
    ver ← on_fs (RepoVersion env cfgRoot);
    if decide (ver ≠ repo_version) then
      mthrow (EMsg ("key export expects repo version (" +:+ Itoa repo_version +:+ ") but found (" +:+ Itoa ver +:+ ")"))
    else
      _ ← on_fs (openKeystore env cfgRoot);
      sk ← mstate (λ w, match Get KX (fault env) (ks_dir cfgRoot) name (wfs w) with
                        | (Ok sk, _) => (Ok sk, w)
                        | (Err _, _) => (Err (EMsg ("key with name '" +:+ name +:+ "' doesn't exist")), w)
                        end);
      lift_ks (Marshal KX sk).

(** The part of a path after its last separator, as filepath.Split has it *)
Definition file_part (p : string) : string := List.last (Split p slash) "".

(** keyExportCmd's PostRun: the file it is written to, and the writing *)
Definition export_path (output name : string) : string :=
  if decide (output = "") then Clean (file_part (TrimRight (name +:+ ".key"))) else output.

Definition keyExport_PostRun (output name data : string) : M FS OSErr unit :=
  let outPath := export_path output name in
  _ ← OsCreate (fault env) outPath;
  WriteTo (fault env) outPath data.

(** fsrepo.Open with the deferred Close around [body] *)
Definition with_open_repo {A} (root : string) (wrap : RErr → RErr) (body : FSRepo C → M RS RErr A) : M W RErr A := λ w,
  match open env X root w with
  | (Err e, w1) => (Err (wrap e), w1)
  | (Ok r, w1) => let '(res, s) := body r (mkRS w1 r) in (res, rw (Close env s).2)
  end.

(** keyImportCmd.Run; [data] is what the file argument holds. *)
Definition keyImportCmd (cfgRoot base name data : string) : M W RErr KeyOutput :=
  if decide (name = "self") then mthrow (EMsg "cannot import key with name 'self'")
  else
    keyEnc ← lift_ks (KeyEncoderFromString EncoderByName base);
    sk ← lift_ks (Unmarshal KX data);
    with_open_repo cfgRoot id (λ r,
      let dir := ks_dir (path r) in
      _ ← mstate (λ s, match Get KX (fault env) dir name (wfs (rw s)) with
                       | (Ok _, _) => (Err (EMsg ("key with name '" +:+ name +:+ "' already exists")), s)
                       | (Err _, _) => (Ok (), s)
                       end);
      _ ← on_w (in_ks (Put KX (fault env) dir name sk));
      pid ← lift_ks (IDFromKey E sk);
      mret (mkKeyOutput name (FormatID peer_Encode StringOfBase keyEnc pid))).

Definition rotate_msg (what : string) (e : RErr) : RErr := EMsg what.

(** doRotate *)
Definition doRotate (repoRoot oldKey algorithm : string) (nBits : option Z) : M W RErr unit :=
  with_open_repo repoRoot (rotate_msg "opening repo") (λ r,
    cfg ← Config;
    identity ← mlift (match CreateIdentity I algorithm nBits with
                      | Ok i => Ok i | Err e => Err (EMsg ("creating identity (" +:+ e +:+ ")")) end);
    oldPrivKey ← mlift (match DecodePrivateKey I cfg with
                        | Ok k => Ok k | Err e => Err (EMsg ("decoding old private key (" +:+ e +:+ ")")) end);
    _ ← on_w (in_ks (Put KX (fault env) (ks_dir (path r)) oldKey oldPrivKey));
    mstate (λ s, match SetConfig env (set_Identity I cfg identity) s with
                 | (Ok u, s') => (Ok u, s')
                 | (Err e, s') => (Err (rotate_msg "saving new key to config" e), s')
                 end)).

(** keyRotateCmd.Run after DaemonNotRunning *)
Definition DaemonNotRunning (cfgRoot : string) : M W RErr unit :=
  daemonLocked ← LockedByOtherProcess env X cfgRoot;
  if daemonLocked : bool then mthrow (EMsg "ipfs daemon is running. please stop it to run this command") else mret ().

Definition keyRotateCmd (cfgRoot : string) (oldKey : option string) (algorithm : string) (nBits : option Z) : M W RErr unit :=
  _ ← DaemonNotRunning cfgRoot;
  match oldKey with
  | None => mthrow (EMsg "keystore name for backing up old key must be provided")
  | Some old =>
      if decide (old = "self") then mthrow (EMsg "keystore name for back up cannot be named 'self'")
      else doRotate cfgRoot old algorithm nBits
  end.

End key_files.

Section key_files_laws.
Context (env : Env) (X : RepoEnv) {C : Type} `{ConfigPkg C} {K : Type} (KX : KeyCodec K) `{!KeyCodecLaws KX}.
Local Abbreviation stored_at p := (@stored FS K (fs_view KX (ks_dir p))).

Lemma with_repo_inv {A} root wrap (body : FSRepo C → M RS RErr A) w r w' :
  with_open_repo env X root wrap body w = (r, w') →
  (∃ e w1, open (C := C) env X root w = (Err e, w1) ∧ w' = w1 ∧ r = Err (wrap e)) ∨
  ∃ rp w1 s, open env X root w = (Ok rp, w1) ∧ body rp (mkRS w1 rp) = (r, s) ∧ w' = rw (Close env s).2.
Proof using Type.
  unfold with_open_repo. destruct (open env X root w) as [[rp|e] w1].
  - destruct (body rp (mkRS w1 rp)) as [res s] eqn:Hb. intros [= <- <-]. right. eauto 10.
  - intros [= <- <-]. left. eauto.
Qed.

Lemma open_path root w (rp : FSRepo C) w' : open env X root w = (Ok rp, w') →
  newFSRepo env root = Ok (path rp) ∧ config_on_disk env (path rp) (config rp) (wfs w') ∧ closed rp = false.
Proof using Type.
  intros Hr. apply open_inv in Hr as [(e & He & ->)|(p & Hp & _ & _ & _ & r1 & w1 & Hrun & <- & ->)]; [done|].
  assert (closed rp = false) as Hcl by (unfold open_locked in Hrun; go_inv; done).
  apply open_locked_ok in Hrun as (_ & <- & Hc & _). by split_and!.
Qed.

(** Closing removes the API file and no other. *)
Lemma Close_other (s : RS (C := C)) q : q ≠ PathJoin (path (rr s)) apiFile →
  wfs (rw (Close env s).2) !! q = wfs (rw s) !! q.
Proof using Type.
  intros Hq. unfold Close, unless_closed. destruct (closed (rr s)); [done|].
  assert ((GoFS.Remove (fault env) (PathJoin (path (rr s)) apiFile) (wfs (rw s))).2 !! q = wfs (rw s) !! q) as Hrm.
  { unfold GoFS.Remove, os_try. go_run. destruct (fault env "remove" _); [done|].
    destruct (wfs (rw s) !! PathJoin _ _); [|done]. cbn [snd]. by rewrite lookup_delete_ne. }
  destruct (fault env "dsclose" _); exact Hrm.
Qed.

Lemma key_not_named p n t (f : string) : file_name f → HasPrefix f keyFilenamePrefix = false →
  key_file KX (ks_dir p) n ≠ PathJoin t f.
Proof.
  intros Hf Hp Heq. apply (f_equal Base) in Heq. unfold key_file in Heq. rewrite !Base_Join in Heq; [|done|apply key_name, _].
  rewrite <- Heq, HasPrefix_app in Hp. done.
Qed.

Lemma stored_close p n k (s : RS (C := C)) : stored_at p (wfs (rw s)) n k → stored_at p (wfs (rw (Close env s).2)) n k.
Proof.
  simpl. intros (Hn & b & Hb & Hk). split; [done|]. exists b. split; [|done].
  rewrite Close_other; [done|]. by apply key_not_named; [apply (bool_decide_unpack _)|].
Qed.

Lemma in_ks_Put p n k (s : RS (C := C)) u s' :
  on_w (in_ks (Put KX (fault env) (ks_dir p) n k)) s = (Ok u, s') →
  stored_at p (wfs (rw s')) n k ∧ rr s' = rr s ∧
  ∀ q, q ≠ key_file KX (ks_dir p) n → wfs (rw s') !! q = wfs (rw s) !! q.
Proof.
  unfold on_w, in_ks. destruct (Put _ _ _ _ _ _) as [r fs'] eqn:Hp. intros Hr.
  apply Put_fs in Hp as [[-> Hno]|(Hn & _ & Hq & Hok)]; [destruct r as [[]|]; [done|by injection Hr]|].
  destruct r as [[]|]; [|by injection Hr]. injection Hr as _ <-.
  destruct (Hok eq_refl) as (b & Hb & Hf). apply marshal_roundtrip in Hb. simpl. split_and!; eauto.
Qed.

(** The error path of Put changes at most the new key's file. *)
Lemma in_ks_Put_other p n k (s : RS (C := C)) r s' :
  on_w (in_ks (Put KX (fault env) (ks_dir p) n k)) s = (r, s') →
  rr s' = rr s ∧ ∀ q, q ≠ key_file KX (ks_dir p) n → wfs (rw s') !! q = wfs (rw s) !! q.
Proof.
  unfold on_w, in_ks. destruct (Put _ _ _ _ _ _) as [r0 fs'] eqn:Hp. intros Hr.
  assert (s' = mkRS (mkW fs' (locks (rw s)) (open_ds (rw s))) (rr s)) as -> by (destruct r0; by injection Hr).
  apply Put_fs in Hp as [[-> _]|(_ & _ & Hq & _)]; simpl; by split.
Qed.

(** An exported key is the stored one. *)
Lemma keyExport_ok root name w data w' : keyExportCmd env KX root name w = (Ok data, w') →
  ∃ k, stored_at root (wfs w) name k ∧ Marshal KX k = Ok data.
Proof.
  unfold keyExportCmd. case_decide; [done|]. intros (ver & w1 & Hv & Hr)%bind_ok.
  apply on_fs_ok in Hv as (fs1 & Hv & ->). pose proof (RepoVersion_same env root (wfs w)) as Hs.
  rewrite Hv in Hs. simpl in Hs. subst fs1. case_decide; [done|].
  apply bind_ok in Hr as ([] & w2 & Hk & Hr). apply on_fs_ok in Hk as (fs2 & Hk & ->). simpl in *.
  apply bind_ok in Hr as (sk & w3 & Hg & Hr). unfold mstate in Hg. simpl in Hg.
  destruct (Get KX _ _ name fs2) as [[k|] fs3] eqn:Hget; [|done]. injection Hg as -> <-.
  apply mlift_ok in Hr as [Hm _]. exists sk.
  assert (Marshal KX sk = Ok data) as Hmar by (destruct (Marshal KX sk); [by injection Hm as ->|done]).
  split; [|done].
  unfold Get in Hget. apply bind_ok in Hget as (f & fs4 & [Hf ->]%mlift_ok & Hget).
  apply (encode_ok KX (ks_dir root)) in Hf as [Hn Hf]. rewrite Hf in Hget.
  apply bind_ok in Hget as (c & fs5 & Hrd & [Hu ->]%mlift_ok). unfold mstate in Hrd.
  destruct (ReadFile _ _ fs2) as [[c'|] fs6] eqn:Hread; [|by destruct (IsNotExist _)]. injection Hrd as -> ->.
  apply ReadFile_ok in Hread as [_ Hc]. split; [done|]. exists c. split; [|done].
  revert Hk. unfold openKeystore, os_try. go_run. intros Hk. repeat case_match; simplify_eq/=; try done.
  rewrite lookup_insert in Hc. by case_decide.
Qed.

(** What is imported is stored. *)
Lemma keyImport_ok E enc pe sb root base name data w out w' :
  keyImportCmd env X KX E enc pe sb root base name data w = (Ok out, w') →
  ∃ p k, newFSRepo env root = Ok p ∧ Unmarshal KX data = Ok k ∧ stored_at p (wfs w') name k ∧ Name out = name.
Proof.
  unfold keyImportCmd. case_decide; [done|]. intros (ke & w1 & [_ ->]%mlift_ok & Hr)%bind_ok.
  apply bind_ok in Hr as (sk & w2 & [Hu ->]%mlift_ok & Hr).
  apply with_repo_inv in Hr as [(e & w1 & _ & _ & ?)|(rp & w1 & s & Hop & Hb & ->)]; [done|].
  apply open_path in Hop as (Hp & _ & _). exists (path rp), sk. split; [done|].
  cbv zeta in Hb. apply bind_ok in Hb as ([] & s1 & Hg & Hb). unfold mstate in Hg.
  destruct (Get _ _ _ _ _) as [[]]; [done|]. injection Hg as <-.
  apply bind_ok in Hb as ([] & s2 & Hput & Hb). apply in_ks_Put in Hput as (Hst & Hrr & _).
  apply bind_ok in Hb as (pid & s3 & [_ ->]%mlift_ok & Hb). injection Hb as <- <-.
  split; [by destruct (Unmarshal KX data); [injection Hu as ->|]|]. split; [by apply stored_close|done].
Qed.

(** Writing the configuration leaves every other file. *)
Lemma keeps_WriteConfigFile q n f c : q ≠ f → keeps (λ fs, fs !! q = Some n) (WriteConfigFile env f c).
Proof using Type.
  intros Hq. unfold WriteConfigFile. apply keeps_bind; [apply keeps_MkdirAll|intros []].
  apply keeps_bind; [apply keeps_os_try|intros []]. intros fs r fs'. unfold mstate.
  destruct (fault env "write" f), (fault env "rename" f); intros [= _ <-] Hn; try done; by rewrite lookup_insert_ne.
Qed.

Lemma Filename_ok p f : Filename env p = Ok f → ∃ t, f = PathJoin t "config".
Proof using Type.
  unfold Filename, config_Path. case_decide; [|intros [= <-]; eauto].
  destruct (if decide (IPFS_PATH env = "") then _ else _) as [root|]; [|done]. intros [= <-]. eauto.
Qed.

Lemma SetConfig_other q n conf f (s : RS (C := C)) r s' : Filename env (path (rr s)) = Ok f → q ≠ f →
  SetConfig env conf s = (r, s') → wfs (rw s) !! q = Some n → wfs (rw s') !! q = Some n.
Proof using Type.
  intros Hf Hq Hr Hn. unfold SetConfig, setConfigUnsynced in Hr. rewrite bind_unfold in Hr.
  unfold repo_path in Hr at 1. rewrite bind_unfold, (filename_inv env _ _ f) in Hr by done.
  destruct (read_config_inv env Decode_map f s) as (r1 & H1 & _). rewrite bind_unfold, H1 in Hr.
  destruct r1 as [mapconf|]; [|by injection Hr as _ <-]. rewrite bind_unfold in Hr. unfold of_opt in Hr.
  destruct (ToMap conf) as [m|]; [|by injection Hr as _ <-]. simpl in Hr. rewrite bind_unfold in Hr.
  unfold mlift in Hr. destruct (merge_into mapconf m) as [merged|]; [|by injection Hr as _ <-].
  rewrite bind_unfold in Hr. unfold on_w, on_fs in Hr.
  destruct (WriteConfigFile env f _ _) as [r2 fs2] eqn:Hw.
  pose proof (keeps_WriteConfigFile q n f _ Hq _ _ _ Hw Hn) as Hkept.
  destruct r2; injection Hr as _ <-; exact Hkept.
Qed.

Lemma rotate_keeps I root old alg nb w r w' : doRotate env X KX I root old alg nb w = (r, w') →
  (∃ e w1, open (C := C) env X root w = (Err e, w1) ∧ w' = w1 ∧ r ≠ Ok ()) ∨
  ∃ rp w1, open env X root w = (Ok rp, w1) ∧
    ((r ≠ Ok () ∧ ∀ t, wfs w1 !! PathJoin t "config" = wfs w' !! PathJoin t "config") ∨
     ∃ k, DecodePrivateKey I (config rp) = Ok k ∧ stored_at (path rp) (wfs w') old k).
Proof.
  unfold doRotate. intros Hr. apply with_repo_inv in Hr as
    [(e & w1 & Hop & -> & ->)|(rp & w1 & s & Hop & Hb & ->)]; [left; by eauto|right].
  exists rp, w1. split; [done|]. pose proof (open_path _ _ _ _ Hop) as (_ & Hcd & Hcl).
  assert (∀ s0 : RS (C := C), rr s0 = rp → (∀ t, wfs (rw s0) !! PathJoin t "config" = wfs w1 !! PathJoin t "config") →
    ∀ t, wfs w1 !! PathJoin t "config" = wfs (rw (Close env s0).2) !! PathJoin t "config") as Hsame.
  { intros s0 _ Hs0 t. rewrite Close_other, Hs0; [done|]. intros Heq. apply (f_equal Base) in Heq.
    by rewrite !Base_Join in Heq by (by apply (bool_decide_unpack _)). }
  rewrite bind_unfold in Hb. unfold Config, unless_closed in Hb. simpl in Hb. rewrite Hcl in Hb.
  rewrite bind_unfold in Hb. unfold mlift in Hb.
  destruct (CreateIdentity I alg nb) as [ident|]; [|left; injection Hb as <- <-; by split; [|apply Hsame]].
  rewrite bind_unfold in Hb.
  destruct (DecodePrivateKey I (config rp)) as [k|] eqn:Hk; [|left; injection Hb as <- <-; by split; [|apply Hsame]].
  rewrite bind_unfold in Hb. destruct (on_w _ _) as [r1 s1] eqn:Hput in Hb.
  pose proof (in_ks_Put_other _ _ _ _ _ _ Hput) as [Hrr Hoth].
  destruct r1 as [[]|e].
  2: { left. injection Hb as <- <-. split; [done|]. apply Hsame; [done|]. intros t. apply Hoth.
       apply not_eq_sym, key_not_named; [by apply (bool_decide_unpack _)|done]. }
  right. exists k. split; [done|]. apply in_ks_Put in Hput as (Hst & _ & _).
  apply stored_close. destruct Hst as (Hn & b & Hbk & Hu). split; [done|]. exists b. split; [|done].
  destruct Hcd as (f & c & Hf & _). unfold mstate in Hb.
  destruct (SetConfig env _ s1) as [r2 s2] eqn:Hset.
  assert (s2 = s) as <- by (destruct r2; by injection Hb).
  eapply SetConfig_other; [by rewrite Hrr| |exact Hset|exact Hbk].
  apply Filename_ok in Hf as [t ->]. by apply key_not_named; [apply (bool_decide_unpack _)|].
Qed.

End key_files_laws.

(** ** The claims on files *)

(** C32. A key exported from one repository and imported into another, under
    whatever name, is stored there as it is stored here. *)
Theorem export_import_roundtrip env X {C} `{ConfigPkg C} {K} (KX : KeyCodec K) `{!KeyCodecLaws KX} E enc pe sb
    root root2 name name2 base data w w1 w2 out w3 :
  keyExportCmd env KX root name w = (Ok data, w1) →
  keyImportCmd env X KX E enc pe sb root2 base name2 data w2 = (Ok out, w3) →
  ∃ p k, newFSRepo env root2 = Ok p ∧ @stored FS K (fs_view KX (ks_dir root)) (wfs w) name k ∧
    @stored FS K (fs_view KX (ks_dir p)) (wfs w3) name2 k ∧ Name out = name2.
Proof.
  intros He Hi. apply keyExport_ok in He as (k & Hk & Hm). pose proof (marshal_roundtrip (X := KX) _ _ Hm) as Hm'.
  destruct (keyImport_ok _ _ _ _ _ _ _ _ _ _ _ _ _ _ Hi) as (p & k' & Hp & Hu & Hk' & Hn). exists p, k. assert (k' = k) as -> by congruence.
  split; [done|]. split; [done|]. by split.
Qed.

(** C30. However a rotation ends, the old identity is not lost: either no
    configuration file is touched after the repository was opened, or the old
    private key is in the key store under the name given for it; and a rotation
    that succeeds has put it there. *)
Theorem doRotate_keeps_identity env X {C} `{ConfigPkg C} {K} (KX : KeyCodec K) `{!KeyCodecLaws KX} I
    root old alg nb w r w' rp w1 :
  doRotate env X KX I root old alg nb w = (r, w') → open env X root w = (Ok rp, w1) →
  (r ≠ Ok () ∧ ∀ t, wfs w1 !! PathJoin t "config" = wfs w' !! PathJoin t "config") ∨
  ∃ k, DecodePrivateKey I (config rp) = Ok k ∧ @stored FS K (fs_view KX (ks_dir (path rp))) (wfs w') old k.
Proof.
  intros Hr Hop. destruct (rotate_keeps _ _ _ _ _ _ _ _ _ _ _ Hr) as [(e & w2 & Hop2 & _)|(rp2 & w2 & Hop2 & Hx)]; [congruence|].
  rewrite Hop in Hop2. by injection Hop2 as <- <-.
Qed.

(** ** Examples *)

(** The state of a run, once its result is known *)
Lemma run_state {S E A} (x : res E A * S) r : x.1 = r → x = (r, x.2).
Proof. intros <-. by destruct x. Qed.

Module KeyExample.

(** Two letters for each byte, in place of base 32. *)
Definition letter (n : nat) : ascii := ascii_of_nat (65 + n).
Definition nibble (c : ascii) : nat := nat_of_ascii c - 65.
Fixpoint enc (s : string) : string :=
  match s with
  | EmptyString => EmptyString
  | String c s' => String (letter (nat_of_ascii c / 16)) (String (letter (nat_of_ascii c mod 16)) (enc s'))
  end.
Fixpoint dec (s : string) : option string :=
  match s with
  | EmptyString => Some EmptyString
  | String a (String b s') => String (ascii_of_nat (16 * nibble a + nibble b)) <$> dec s'
  | _ => None
  end.

(** A key is its text; k marks the file of one. *)
Definition codec : KeyCodec string := mkKeyCodec enc dec (λ k, Ok ("k" +:+ k))
  (λ b, match b with String "k"%char k => Ok k | _ => Err (KMsg "not a key") end).

Lemma all_chars (P : ascii → bool) : forallb (λ n, P (ascii_of_nat n)) (seq 0 256) = true → ∀ c, P c = true.
Proof.
  intros Hall c. rewrite forallb_forall in Hall. rewrite <- (ascii_nat_embedding c). apply Hall.
  apply in_seq. pose proof (nat_ascii_bounded c). lia.
Qed.

#[global] Instance codec_laws : KeyCodecLaws codec.
Proof.
  split; cbn.
  - induction n as [|c n IH]; [done|]. cbn. rewrite IH. cbn. f_equal. f_equal.
    pose proof (all_chars (λ c, bool_decide (ascii_of_nat (16 * nibble (upper_char (lower_char (letter (nat_of_ascii c / 16)))) +
      nibble (upper_char (lower_char (letter (nat_of_ascii c mod 16))))) = c)) eq_refl c) as Hc.
    by apply bool_decide_eq_true in Hc.
  - induction n as [|c n IH]; [done|]. cbn. rewrite has_char_cons, has_char_cons, IH.
    pose proof (all_chars (λ c, bool_decide (lower_char (letter (nat_of_ascii c / 16)) ≠ "/"%char ∧
      lower_char (letter (nat_of_ascii c mod 16)) ≠ "/"%char)) eq_refl c) as Hc.
    apply bool_decide_eq_true in Hc as [H1 H2]. by rewrite !bool_decide_eq_false_2.
  - by intros k b [= <-].
Qed.

Definition dir : string := "/repo/keystore".
#[global] Instance ks : Keystore FS string := FSKeystore codec (λ _ _, None) dir.
#[global] Instance ks_view : KeystoreView FS string := fs_view codec dir.
#[global] Instance ks_laws : KeystoreLaws FS string.
Proof. apply (FSKeystore_laws codec (λ _ _, None) dir). by vm_compute. Defined.

Definition E : KeyEnv string := mkKeyEnv (λ _, Ok "rsa") (Ok "ed") (λ k, Ok ("id-" +:+ k)) "me".
Definition fs0 : FS := {[dir := NDir; key_file codec dir "a" := NFile "ksecret"]}.

Lemma fs0_stored : stored fs0 "a" "secret".
Proof. split; [done|]. exists "ksecret". by split; vm_compute. Qed.

(** A repository of version 11 with one key in its store, and another one *)
Definition w0 : W := mkW {["/repo" := NDir; "/repo/version" := NFile (version_content 11);
  "/repo/config" := NFile "kold"; "/repo/datastore_spec" := NFile "null"; dir := NDir; key_file codec dir "a" := NFile "ksecret";
  "/other" := NDir; "/other/version" := NFile (version_content 11);
  "/other/config" := NFile "kother"; "/other/datastore_spec" := NFile "null"]} ∅ ∅.

Definition ident : IdentityPkg RepoExample.Conf string :=
  mkIdentityPkg (C := RepoExample.Conf) (K := string) string (λ _ _, Ok "new") (λ c i, RepoExample.mkConf (Some i) true)
    (λ c, match RepoExample.key c with Some k => Ok k | None => Err "no key" end).

End KeyExample.

Lemma Rename_exact_witness :
  let s' := (Rename KeyExample.E "a" "b" false KeyExample.fs0).2 in
  Rename KeyExample.E "a" "b" false KeyExample.fs0 = (Ok (mkKey "b" "id-secret", false), s') ∧ stored s' "b" "secret".
Proof.
  intros s'. assert (Rename KeyExample.E "a" "b" false KeyExample.fs0 = (Ok (mkKey "b" "id-secret", false), s')) as Hr
    by (apply run_state; vm_compute; reflexivity).
  split; [exact Hr|].
  destruct (Rename_exact KeyExample.E "a" "b" false KeyExample.fs0 _ _ _ Hr KeyExample.fs0_stored) as (_ & _ & _ & Hok).
  cbv beta iota in Hok. apply Hok.
Defined.

Lemma self_untouched_witness :
  agree (K := string) KeyExample.fs0 (Remove KeyExample.E "a" KeyExample.fs0).2 "self".
Proof. apply (self_untouched KeyExample.E). apply rtc_once. constructor. Defined.

Lemma List_keys_exact_witness :
  let x := List_keys KeyExample.E KeyExample.fs0 in
  x.1 = Ok [mkKey "self" "me"; mkKey "a" "id-secret"] ∧ Sorted string_le ["a"].
Proof.
  intros x. assert (x = (Ok [mkKey "self" "me"; mkKey "a" "id-secret"], x.2)) as Hx
    by (apply run_state; vm_compute; reflexivity).
  split; [by rewrite Hx|].
  destruct (List_keys_exact KeyExample.E KeyExample.fs0 _ _ Hx) as (_ & rest & Hr & Hs & _).
  injection Hr as Hr. by rewrite <- Hr in Hs.
Defined.

Lemma export_import_roundtrip_witness :
  let x1 := keyExportCmd RepoExample.env KeyExample.codec "/repo" "a" KeyExample.w0 in
  let x2 := keyImportCmd (C := RepoExample.Conf) RepoExample.env RepoExample.X KeyExample.codec KeyExample.E Ok id (λ b i, b +:+ i)
      "/other" "k" "b" "ksecret" KeyExample.w0 in
  x1.1 = Ok "ksecret" ∧ x2.1 = Ok (mkKeyOutput "b" "kid-secret") ∧
  ∃ p k, @stored FS string (fs_view KeyExample.codec "/repo/keystore") (wfs KeyExample.w0) "a" k ∧
    @stored FS string (fs_view KeyExample.codec (ks_dir p)) (wfs x2.2) "b" k.
Proof.
  intros x1 x2. assert (x1 = (Ok "ksecret", x1.2)) as H1 by (apply run_state; vm_compute; reflexivity).
  assert (x2 = (Ok (mkKeyOutput "b" "kid-secret"), x2.2)) as H2 by (apply run_state; vm_compute; reflexivity).
  split; [by rewrite H1|]. split; [by rewrite H2|].
  destruct (export_import_roundtrip (C := RepoExample.Conf) RepoExample.env RepoExample.X KeyExample.codec KeyExample.E
    Ok id (λ b i, b +:+ i) "/repo" "/other" "a" "b" "k" _ _ _ _ _ _ H1 H2) as (p & k & _ & Hk & Hk' & _).
  exists p, k. split; [exact Hk|exact Hk'].
Defined.

Lemma doRotate_keeps_identity_witness :
  let x := doRotate (C := RepoExample.Conf) RepoExample.env RepoExample.X KeyExample.codec KeyExample.ident
      "/other" "backup" "ed25519" None KeyExample.w0 in
  x.1 = Ok () ∧ wfs x.2 !! "/other/config" = Some (NFile "knew") ∧
  ∃ k p, @stored FS string (fs_view KeyExample.codec (ks_dir p)) (wfs x.2) "backup" k.
Proof.
  intros x. assert (x = (Ok (), x.2)) as Hx by (apply run_state; vm_compute; reflexivity).
  split; [by rewrite Hx|]. split; [vm_compute; reflexivity|].
  set (y := open (C := RepoExample.Conf) RepoExample.env RepoExample.X "/other" KeyExample.w0).
  assert (∃ rp w1, y = (Ok rp, w1)) as (rp & w1 & Hy).
  { destruct y as [[rp|e] w1] eqn:Hy; [by eauto|]. apply (f_equal (λ z, is_ok z.1)) in Hy. vm_compute in Hy. done. }
  destruct (doRotate_keeps_identity (C := RepoExample.Conf) RepoExample.env RepoExample.X KeyExample.codec KeyExample.ident
    "/other" "backup" "ed25519" None KeyExample.w0 _ _ _ _ Hx Hy) as [[Hno _]|(k & Hk & Hst)].
  - destruct Hno. reflexivity.
  - exists k, (path rp). exact Hst.
Defined.
