(* ===== verification/LazySeek.v ===== *)
(** * The lazy seeker (src/core/corehttp/lazyseek.go)

    The HTTP server seeks to learn the size of a file; the gateway only moves the
    file's reader when something is read.  The reader below is a parameter. *)

From Stdlib Require Import ZArith Ascii String.
From stdpp Require Import base list strings.
From S2P Require Import Prelude GoStrings.

Inductive LErr := EOF | InvalidOffset | InvalidWhence (w : Z) | LMsg (msg : string) | Diverged.

(** io.Whence *)
Definition SeekStart : Z := 0.
Definition SeekCurrent : Z := 1.
Definition SeekEnd : Z := 2.

(** io.ReadSeeker: [rs_seek] from the start; a read may come with an error. *)
Class ReadSeeker (S : Type) := {
  rs_seek : S → Z → res LErr Z * S;
  rs_read : S → nat → (string * option LErr) * S;
}.

(** A read that failed: any error but the end of the file that comes with bytes. *)
Definition hard (b : string) (e : option LErr) : bool :=
  match e with None => false | Some EOF => bool_decide (b = "") | Some _ => true end.

(** What its documentation promises: of a reader at a known place a seek that
    succeeds goes where it is told, and a read gives the bytes from there on and
    moves behind them.  Nothing is promised of a reader once a seek or a read of
    it has failed: its place [pos] is then not known. *)
Class ReadSeekerLaws (S : Type) `{ReadSeeker S} (data : string) (pos : S → option Z) : Prop := {
  seek_law s p off r s' : pos s = Some p → (0 ≤ off)%Z → rs_seek s off = (r, s') →
    match r with Ok o => o = off ∧ pos s' = Some off | Err e => e ≠ Diverged end;
  read_law s p n b e s' : pos s = Some p → rs_read s n = ((b, e), s') →
    String.length b ≤ n ∧ e ≠ Some Diverged ∧ (∃ rest, sdrop (Z.to_nat p) data = b +:+ rest) ∧
    (hard b e = false → pos s' = Some (p + Z.of_nat (String.length b))%Z);
}.

(** lazySeeker *)
Record lazySeeker (S : Type) := mkLazy { reader : S; size : Z; offset : Z; realOffset : Z }.
Arguments mkLazy {S}. Arguments reader {S}. Arguments size {S}. Arguments offset {S}. Arguments realOffset {S}.

Section lazy.
Context {S : Type} `{ReadSeeker S}.

(** lazySeeker.Seek from the start *)
Definition seek_start (off : Z) : M (lazySeeker S) LErr Z := λ s,
  if (off <? 0)%Z then (Err InvalidOffset, s)
  else (Ok off, mkLazy (reader s) (size s) off (realOffset s)).

(** lazySeeker.Seek *)
Definition Seek (off whence : Z) : M (lazySeeker S) LErr Z := λ s,
  if (whence =? SeekEnd)%Z then seek_start (i64 (size s + off)) s
  else if (whence =? SeekCurrent)%Z then seek_start (i64 (offset s + off)) s
  else if (whence =? SeekStart)%Z then seek_start off s
  else (Err (InvalidWhence whence), s).

(** The loop that moves the reader *)
Fixpoint actually_seek (fuel : nat) : M (lazySeeker S) LErr unit := λ s,
  if (offset s =? realOffset s)%Z then (Ok (), s)
  else match fuel with
       | 0 => (Err Diverged, s)
       | Datatypes.S fuel' =>
           let '(r, rd) := rs_seek (reader s) (offset s) in
           match r with
           | Err e => (Err e, mkLazy rd (size s) (offset s) (realOffset s))
           | Ok off => actually_seek fuel' (mkLazy rd (size s) (offset s) off)
           end
       end.

(** lazySeeker.Read: the bytes, with the error if there is one *)
Definition Read (fuel n : nat) (s : lazySeeker S) : (string * option LErr) * lazySeeker S :=
  if (offset s >=? size s)%Z then (("", Some EOF), s)
  else match actually_seek fuel s with
       | (Err e, s') => (("", Some e), s')
       | (Ok _, s') =>
           let '((b, e), rd) := rs_read (reader s') n in
           let off := Z.of_nat (String.length b) in
           ((b, e), mkLazy rd (size s') (i64 (offset s' + off)) (i64 (realOffset s' + off)))
       end.

(** A client's operations and what it gets of them *)
Inductive Op := OSeek (off whence : Z) | ORead (n : nat).
Inductive Got := GSeek (r : res LErr Z) | GRead (b : string) (e : option LErr).

Fixpoint run (ops : list Op) (s : lazySeeker S) : list Got :=
  match ops with
  | [] => []
  | OSeek off w :: ops' => let '(r, s') := Seek off w s in GSeek r :: run ops' s'
  | ORead n :: ops' => let '((b, e), s') := Read 1 n s in GRead b e :: run ops' s'
  end.

End lazy.

(** ** An eager reader *)

(** Where a seek goes *)
Definition seek_spec (sz cur off whence : Z) : res LErr Z :=
  if (whence =? SeekEnd)%Z then if (sz + off <? 0)%Z then Err InvalidOffset else Ok (sz + off)%Z
  else if (whence =? SeekCurrent)%Z then if (cur + off <? 0)%Z then Err InvalidOffset else Ok (cur + off)%Z
  else if (whence =? SeekStart)%Z then if (off <? 0)%Z then Err InvalidOffset else Ok off
  else Err (InvalidWhence whence).

(** What a client may get of a reader of [sz] bytes of [data] that stands at [cur]
    and moves at once: a seek goes where it should, a read gives the bytes from
    there on, as many as it likes up to what was asked, and the end beyond [sz].
    Up to and with the first read that fails: after it anything may follow. *)
Fixpoint eager (data : string) (sz cur : Z) (ops : list Op) (gots : list Got) : Prop :=
  match ops, gots with
  | [], [] => True
  | OSeek off w :: ops', GSeek r :: gots' =>
      r = seek_spec sz cur off w ∧ eager data sz (match r with Ok o => o | Err _ => cur end) ops' gots'
  | ORead n :: ops', GRead b e :: gots' =>
      String.length b ≤ n ∧
      (if (cur >=? sz)%Z then b = "" ∧ e = Some EOF
       else (∃ rest, sdrop (Z.to_nat cur) data = b +:+ rest) ∧ e ≠ Some Diverged) ∧
      if (cur <? sz)%Z && hard b e then length gots' = length ops'
      else eager data sz (cur + Z.of_nat (String.length b))%Z ops' gots'
  | _, _ => False
  end.

(** ** Refinement *)

Lemma slength_drop n s : String.length (sdrop n s) = String.length s - n.
Proof. revert s. induction n as [|n IH]; intros [|c s]; simpl; auto. Qed.

Lemma slength_0 s : String.length s = 0 → s = "".
Proof. by destruct s. Qed.

Lemma run_length {S} `{ReadSeeker S} ops : ∀ s : lazySeeker S, length (run ops s) = length ops.
Proof.
  induction ops as [|[off w|n] ops IH]; intros s; [done|..]; cbn [run].
  - destruct (Seek off w s) as [r s']. simpl. by rewrite IH.
  - destruct (Read 1 n s) as [[b e] s']. simpl. by rewrite IH.
Qed.

Section refinement.
Context {S : Type} `{ReadSeeker S} (data : string) (pos : S → option Z) `{!ReadSeekerLaws S data pos}.

(** The lazy seeker stands for an eager reader at [cur]. *)
Definition stands (sz cur : Z) (s : lazySeeker S) : Prop :=
  pos (reader s) = Some (realOffset s) ∧ offset s = cur ∧ size s = sz.

Lemma actually_seek_ok s r s' :
  pos (reader s) = Some (realOffset s) → (0 ≤ offset s)%Z → actually_seek 1 s = (r, s') →
  match r with
  | Ok _ => offset s' = offset s ∧ size s' = size s ∧
            pos (reader s') = Some (realOffset s') ∧ realOffset s' = offset s
  | Err e => e ≠ Diverged
  end.
Proof.
  intros Hp Hn. cbn [actually_seek]. destruct (Z.eqb_spec (offset s) (realOffset s)) as [He|He].
  { intros [= <- <-]. by split_and!. }
  destruct (rs_seek (reader s) (offset s)) as [[o|e] rd] eqn:Hs;
    apply (seek_law _ _ _ _ _ Hp Hn) in Hs.
  - destruct Hs as [-> Ho]. cbn. rewrite Z.eqb_refl. intros [= <- <-]. by split_and!.
  - by intros [= <- <-].
Qed.

Lemma Seek_stands sz cur off w s r s' :
  stands sz cur s → (0 ≤ cur)%Z → (0 ≤ sz)%Z → (i64_min ≤ off)%Z → (cur + off ≤ i64_max)%Z → (sz + off ≤ i64_max)%Z →
  Seek off w s = (r, s') → r = seek_spec sz cur off w ∧ stands sz (match r with Ok o => o | Err _ => cur end) s'.
Proof.
  intros (Hp & Ho & Hs) Hc Hz Hmin Hmax Hmax'. unfold Seek, seek_spec, seek_start. rewrite Ho, Hs.
  rewrite !i64_small by (unfold i64_min, i64_max in *; lia).
  destruct (w =? SeekEnd)%Z; [|destruct (w =? SeekCurrent)%Z; [|destruct (w =? SeekStart)%Z]];
    repeat case_match; intros [= <- <-]; by split_and!.
Qed.

(** A read gives no bytes from beyond the data. *)
Lemma read_within (cur : Z) b rest : (0 ≤ cur)%Z → sdrop (Z.to_nat cur) data = b +:+ rest →
  (cur + Z.of_nat (String.length b) ≤ Z.max cur (Z.of_nat (String.length data)))%Z.
Proof.
  intros Hc Hrest. apply (f_equal String.length) in Hrest. rewrite slength_app, slength_drop in Hrest. lia.
Qed.

Lemma Read_stands sz cur n s b e s' :
  stands sz cur s → (0 ≤ cur)%Z → (cur + Z.of_nat (String.length data) ≤ i64_max)%Z →
  Read 1 n s = ((b, e), s') →
  String.length b ≤ n ∧
  (if (cur >=? sz)%Z then b = "" ∧ e = Some EOF
   else (∃ rest, sdrop (Z.to_nat cur) data = b +:+ rest) ∧ e ≠ Some Diverged) ∧
  ((cur <? sz)%Z && hard b e = false → stands sz (cur + Z.of_nat (String.length b))%Z s' ∧
     (cur + Z.of_nat (String.length b) ≤ Z.max cur (Z.of_nat (String.length data)))%Z).
Proof.
  intros (Hp & Ho & Hs) Hc Hmax. unfold Read. rewrite Ho, Hs. destruct (Z.geb_spec cur sz) as [Hge|Hlt].
  { intros [= <- <- <-]. cbn. rewrite Z.add_0_r. split_and!; [lia|done|done|]. intros _. split; [done|lia]. }
  destruct (actually_seek 1 s) as [[[]|err] s1] eqn:Ha; apply actually_seek_ok in Ha; try done; try lia.
  2: { intros [= <- <- <-]. cbn [String.length]. split_and!; [lia|by eexists|congruence|].
       destruct (Z.ltb_spec cur sz); [by destruct err|lia]. }
  destruct Ha as (Ho1 & Hs1 & Hp1 & Hr).
  destruct (rs_read (reader s1) n) as [[b0 e0] rd] eqn:Hrd.
  eapply (read_law (pos := pos)) in Hrd as (Hn & He & [rest Hrest] & Hpos); [|done].
  intros [= <- <- <-]. rewrite Hr, Ho in Hrest, Hpos.
  pose proof (read_within cur b0 rest Hc Hrest) as Hbound.
  split_and!; [done|by eexists|done|]. intros Hh. rewrite (proj2 (Z.ltb_lt _ _) Hlt) in Hh. split; [|done].
  rewrite Ho1, Hr, Ho, i64_small by (unfold i64_min, i64_max in *; lia).
  unfold stands. cbn. split_and!; [by apply Hpos|done|congruence].
Qed.

(** The seeks a client asks for move by at most [B] bytes. *)
Definition small_seeks (B : Z) (ops : list Op) : Prop :=
  Forall (λ op, match op with OSeek off _ => (- B ≤ off ≤ B)%Z | ORead _ => True end) ops.

Lemma run_eager (B sz : Z) ops : ∀ (cur C : Z) s,
  stands sz cur s → (0 ≤ cur ≤ C)%Z → (0 ≤ sz ≤ C)%Z → (Z.of_nat (String.length data) ≤ C)%Z → (0 ≤ B)%Z →
  (C + Z.of_nat (Datatypes.S (length ops)) * B + Z.of_nat (String.length data) ≤ i64_max)%Z → small_seeks B ops →
  eager data sz cur ops (run ops s).
Proof.
  induction ops as [|[off w|n] ops IH]; intros cur C s Hst Hcur Hsz Hd HB Hmax Hops; [done|..];
    apply Forall_cons in Hops as [Hop Hops]; cbn [run eager length] in *.
  - destruct (Seek off w s) as [r s'] eqn:Hs.
    apply (Seek_stands sz cur) in Hs as [-> Hs']; try done; try (unfold i64_min, i64_max in *; nia).
    split; [done|]. apply (IH _ (C + B)%Z); try done; try lia.
    revert Hs'. unfold seek_spec. repeat case_match; intros; simplify_eq; lia.
  - destruct (Read 1 n s) as [[b e] s'] eqn:Hs.
    apply (Read_stands sz cur) in Hs as (Hn & Hb & Hst'); [|done|lia|nia].
    split; [done|]. split; [done|]. destruct ((cur <? sz)%Z && hard b e); [apply run_length|].
    destruct Hst' as [Hst' Hle]; [done|]. apply (IH _ C); try done; try lia.
Qed.

End refinement.

(** C33. Whatever seeks and reads a client does, from the start of a file, it gets of
    the lazy seeker what an eager reader gives, up to and with the first read that
    fails: every seek goes where it should or fails as it should, every read gives
    the bytes at that place and ends at the size; and the loop that moves the reader
    ends.  The offsets are 64-bit integers, which seeks of at most [B] bytes do not
    leave. *)
Theorem lazySeeker_refines_eager {S} `{ReadSeekerLaws S data pos} B sz ops s :
  pos s = Some 0%Z → (0 ≤ sz)%Z → (0 ≤ B)%Z →
  (Z.max sz (Z.of_nat (String.length data)) + Z.of_nat (Datatypes.S (length ops)) * B + Z.of_nat (String.length data) ≤ i64_max)%Z →
  small_seeks B ops →
  eager data sz 0 ops (run ops (mkLazy s sz 0 0)).
Proof.
  intros Hp Hz HB Hmax Hops.
  eapply (run_eager data pos B sz ops 0 (Z.max sz (Z.of_nat (String.length data)))); try done; try lia.
Qed.

(** ** Example *)

(** A file of which a read gives at most two bytes; a seek to [bad] fails once and
    then leaves the reader at the start, as a seek of a file's DAG does whose walk
    fails after the reader was reset. *)
Module LazyExample.
Definition data : string := "hello".

Record Rd := mkRd { at_ : Z; bad : option Z; lost : bool }.

Definition place (s : Rd) : option Z := if lost s then None else Some (at_ s).

#[global] Instance rs : ReadSeeker Rd := {|
  rs_seek s off := if decide (bad s = Some off) then (Err (LMsg "node not found"), mkRd 0 None true)
                   else (Ok off, mkRd off (bad s) (lost s));
  rs_read s n := let b := String.substring (Z.to_nat (at_ s)) (min n 2) data in
                 ((b, if decide (b = "") then Some EOF else None),
                  mkRd (at_ s + Z.of_nat (String.length b))%Z (bad s) (lost s)) |}.

Lemma substring_prefix k : ∀ s m, ∃ rest, sdrop k s = String.substring k m s +:+ rest ∧ String.length (String.substring k m s) ≤ m.
Proof.
  induction k as [|k IH]; intros s m.
  - revert s. induction m as [|m IHm]; intros [|c s]; simpl; try (eexists; split; [done|simpl; lia]).
    destruct (IHm s) as (rest & Hr & Hl). exists rest. simpl in *. rewrite <- Hr. split; [done|lia].
  - destruct s as [|c s]; simpl; [by exists ""; split; [|lia]|]. apply IH.
Qed.

#[global] Instance rs_laws : ReadSeekerLaws Rd data place.
Proof.
  split; unfold place.
  - intros [a b []] p off r s'; [done|]. cbn. intros _ _. case_decide; by intros [= <- <-].
  - intros [a b []] p n c e s'; [done|]. cbn. intros [= <-] [= <- <- <-].
    destruct (substring_prefix (Z.to_nat a) data (min n 2)) as (rest & Hr & Hl).
    split_and!; [eapply Nat.le_trans; [exact Hl|apply Nat.le_min_l]|by case_decide|by exists rest|done].
Qed.

Definition ops : list Op :=
  [OSeek 0 SeekEnd; OSeek 1 SeekStart; ORead 4; ORead 4; OSeek (-1) SeekStart; OSeek 4 SeekStart; ORead 4].
Definition start : lazySeeker Rd := mkLazy (mkRd 0 (Some 4%Z) false) 5 0 0.
Definition gots : list Got :=
  [GSeek (Ok 5%Z); GSeek (Ok 1%Z); GRead "el" None; GRead "lo" None; GSeek (Err InvalidOffset); GSeek (Ok 4%Z);
   GRead "" (Some (LMsg "node not found"))].
End LazyExample.

Lemma lazySeeker_refines_eager_witness :
  run LazyExample.ops LazyExample.start = LazyExample.gots ∧
  eager LazyExample.data 5 0 LazyExample.ops (run LazyExample.ops LazyExample.start).
Proof.
  split; [vm_compute; reflexivity|].
  apply (lazySeeker_refines_eager (pos := LazyExample.place) 5); [reflexivity|lia|lia|vm_compute; discriminate|].
  repeat constructor; vm_compute; discriminate.
Defined.

(** After a seek of the file has failed the lazy seeker still believes the file
    where it was: here it has read up to 2, failed to go to 4, is told to go back
    to 2, and reads the bytes at the start. *)
Theorem failed_seek_reads_elsewhere :
  run [ORead 4; OSeek 4 SeekStart; ORead 4; OSeek 2 SeekStart; ORead 4] LazyExample.start =
    [GRead "he" None; GSeek (Ok 4%Z); GRead "" (Some (LMsg "node not found")); GSeek (Ok 2%Z); GRead "he" None].
Proof. vm_compute. reflexivity. Qed.
