(* ===== verification/Gateway.v ===== *)
(** * The gateway's handler (src/core/corehttp/gateway_handler.go, gateway_indexPage.go)

    Requests for IPFS paths: reading, with entity tags and caching, index pages
    and pretty 404s; and writing, which patches a file into a tree and answers
    with the root of the new tree.  The core API, the templates, net/url and
    http.ServeContent are parameters; the writes are the operations of [Mfs]. *)

From Stdlib Require Import ZArith Ascii String.
From stdpp Require Import base gmap sets list strings.
From S2P Require Import Prelude GoStrings GoFS Mfs Hostname.

Abbreviation Headers := (gmap string (list string)).

(** Errors as webError tells them apart *)
Inductive GErr := ErrNoLink (msg : string) | ErrRoutingNotFound | DeadlineExceeded | ErrOffline | GErrMsg (msg : string).

(** files.Node as the handler looks at it *)
Inductive GNode :=
  | GFile (content : string) (size : option Z)
  | GSymlink (target : string)
  | GDir (entries : list (string * option Z)) (err : option GErr) (size : option Z)
  | GOther.

Record Resolved := mkResolved { rpath : string; rcid : string }.

(** url.URL, as much as is used *)
Record Url := mkUrl { uScheme : string; uHost : string; uPath : string; uRawQuery : string }.

Record GRequest := mkGRequest {
  Method : string;
  gURLPath : string;
  EscapedPath : string;
  gRawQuery : string;
  Query : gmap string string;
  RequestURIPath : option string;
  rHeader : gmap string (list string);
  Body : string;
  gw_hostname : option string;
}.

Record GatewayConfig := mkGatewayConfig { cHeaders : Headers; Writable : bool; PathPrefixes : list string }.

Record directoryItem := mkItem { diSize : string; diName : string; diPath : string; diHash : string; diShortHash : string }.
Record breadcrumb := mkCrumb { bcName : string; bcPath : string }.
Record listingTemplateData := mkListing {
  GatewayURL : string; DNSLink : bool; Listing : list directoryItem; lSize : string; lPath : string;
  Breadcrumbs : list breadcrumb; BackLink : string; lHash : string;
}.
Record redirectTemplateData := mkRedirectData { RedirectURL : string; SuggestedPath : string; ErrorMsg : string }.

(** What is written to a response *)
Inductive Chunk :=
  | CText (s : string)
  | CContent (s : string)
  | CListing (d : listingTemplateData)
  | CRedirectPage (d : redirectTemplateData).

(** What the libraries provide *)
Record GwEnv := mkGwEnv {
  ParsePath : string → res GErr (list string);
  cid_Decode : string → res GErr string;
  path_valid : string → option GErr;
  ResolvePath : string → res GErr Resolved;
  UnixfsGet : string → res GErr GNode;
  url_Parse : string → option Url;
  PathEscape : string → string;
  ascii_only : string → string;
  query_Encode : string → string;
  TypeByExtension : string → string;
  DetectReader : string → res string string;
  (** http.ServeContent: the code it chooses, the headers it sets, what it writes *)
  ServeContent : GRequest → string → option Z → string → Headers → Z * Headers * string;
  humanize : Z → string;
  BindataVersionHash : string;
  template_ok : listingTemplateData → option GErr;
  (** Unixfs().Add and Dag().Get of the writes *)
  AddFile : string → res GErr Tree;
  dag_Get : string → gmap string Tree → res GErr Tree;
  node_cid : Tree → string;
  wfails : string → list string → option string;
  finalize : option GErr;
}.

Inductive HStop := Returned | Panicked.

(** The response as it is written, and the DAG *)
Record GS := mkGS {
  hdr : Headers;
  sent : option (Z * Headers);
  out : list Chunk;
  dag : gmap string Tree;
}.

Section gateway.
Context (E : GwEnv) (config : GatewayConfig).
Local Abbreviation H := (M GS HStop).

Definition return_ {A} : H A := mthrow Returned.

(** ResponseWriter: the first code written is the one sent, with the headers there are. *)
Definition WriteHeader (code : Z) : H unit := mmodify (λ s,
  match sent s with
  | Some _ => s
  | None => mkGS (hdr s) (Some (code, hdr s)) (out s) (dag s)
  end).
Definition Write (c : Chunk) : H unit :=
  _ ← WriteHeader 200; mmodify (λ s, mkGS (hdr s) (sent s) (out s ++ [c]) (dag s)).
Definition SetHeader (k v : string) : H unit := mmodify (λ s, mkGS (<[k := [v]]> (hdr s)) (sent s) (out s) (dag s)).
Definition AddHeader (k v : string) : H unit := mmodify (λ s,
  mkGS (<[k := default [] (hdr s !! k) ++ [v]]> (hdr s)) (sent s) (out s) (dag s)).
Definition get_header (h : Headers) (k : string) : string :=
  match h !! k with Some (v :: _) => v | _ => "" end.

(** statusResponseWriter.WriteHeader *)
Definition status_WriteHeader (code : Z) : H unit := λ s,
  let redirect := get_header (hdr s) "Location" in
  WriteHeader (if decide (redirect ≠ "" ∧ code = 200%Z) then 301 else code) s.

(** http.Error *)
Definition http_Error (msg : string) (code : Z) : H unit :=
  _ ← SetHeader "Content-Type" "text/plain; charset=utf-8";
  _ ← SetHeader "X-Content-Type-Options" "nosniff";
  _ ← WriteHeader code;
  Write (CText msg).

(** http.Redirect: a path is cleaned, its trailing slash and its query kept. *)
Definition redirect_url (r : GRequest) (url : string) : string :=
  match url_Parse E url with
  | Some u =>
      if decide (uScheme u = "" ∧ uHost u = "") then
        let oldpath := if decide (gURLPath r = "") then "/" else gURLPath r in
        let url := if HasPrefix url "/" then url else fst (PathSplit oldpath) +:+ url in
        let '(path, query) := match SplitN url "?" 2 with
                              | [p; q] => (p, "?" +:+ q)
                              | _ => (url, "")
                              end in
        let trailing := HasSuffix path "/" in
        let path := Clean path in
        (if trailing && negb (HasSuffix path "/") then path +:+ "/" else path) +:+ query
      else url
  | None => url
  end.

Definition http_Redirect (r : GRequest) (url : string) (code : Z) : H unit :=
  let url := redirect_url r url in
  s ← mget;
  let hadCT := bool_decide (is_Some (hdr s !! "Content-Type")) in
  _ ← SetHeader "Location" url;
  _ ← (if negb hadCT && bool_decide (Method r = "GET" ∨ Method r = "HEAD")
       then SetHeader "Content-Type" "text/html; charset=utf-8" else mret ());
  _ ← WriteHeader code;
  if negb hadCT && bool_decide (Method r = "GET") then Write (CText url) else mret ().

(** webError, webErrorWithCode and internalWebError *)
Definition gerr_text (e : GErr) : string :=
  match e with
  | ErrNoLink msg => msg
  | ErrRoutingNotFound => "routing: not found"
  | DeadlineExceeded => "context deadline exceeded"
  | ErrOffline => "this action must be run in online mode, try running 'ipfs daemon' first"
  | GErrMsg msg => msg
  end.

Definition webErrorWithCode (message : string) (err : string) (code : Z) : H unit :=
  http_Error (message +:+ ": " +:+ err) code.

Definition webError (message : string) (err : GErr) (defaultCode : Z) : H unit :=
  webErrorWithCode message (gerr_text err)
    match err with
    | ErrNoLink _ | ErrRoutingNotFound => 404
    | DeadlineExceeded => 408
    | _ => defaultCode
    end.

Definition internalWebError (err : string) : H unit := webErrorWithCode "internalWebError" err 500.

(** addUserHeaders *)
Definition addUserHeaders : H unit := mmodify (λ s, mkGS (cHeaders config ∪ hdr s) (sent s) (out s) (dag s)).

(** parseIpfsPath *)
Definition parseIpfsPath (p : string) : res GErr (string * string) :=
  rsegs ← ParsePath E p;
  match rsegs with
  | ns :: root :: rest =>
      if decide (ns ≠ "ipfs") then Err (GErrMsg "WritableGateway: only ipfs paths supported")
      else rootCid ← cid_Decode E root; mret (rootCid, Join rest "/")
  | _ => Err (GErrMsg "panic: index out of range")
  end.

(** getFilename *)
Definition count_char (c : ascii) (s : string) : nat := pred (length (Split s (String c ""))).
Definition getFilename (s : string) : string :=
  if (HasPrefix s "/ipfs/" || HasPrefix s "/ipns/") && (count_char "/" (Clean s) <=? 2) then "" else Base s.

(** path.Ext *)
Definition Ext (name : string) : string :=
  let base := List.last (Split name "/") "" in
  if has_char "." base then "." +:+ List.last (Split base ".") "" else "".

(** preferred404Filename: SplitN with 1 gives the whole of the spec. *)
Definition preferred404Filename (acceptHeaders : list string) : option (string * string) :=
  let specs := mjoin ((λ h, Split h ",") <$> acceptHeaders) in
  if bool_decide (Exists (λ spec, spec ∈ ["*/*"; "text/*"; "text/html"]) specs)
  then Some ("ipfs-404.html", "text/html") else None.

(** searchUpTreeFor404: from the whole path up to its third component *)
Fixpoint up_tree (components : list string) (idx : nat) (filename404 : string) : option Resolved :=
  if (idx <? 3) then None
  else
    let parsed404Path := "/" +:+ foldl PathJoin "" (take idx components ++ [filename404]) in
    match path_valid E parsed404Path with
    | Some _ => None
    | None =>
        match ResolvePath E parsed404Path with
        | Ok resolved => Some resolved
        | Err _ => match idx with S idx' => up_tree components idx' filename404 | O => None end
        end
    end.

Definition searchUpTreeFor404 (r : GRequest) (parsedPath : string) : option (Resolved * string) :=
  match preferred404Filename (default [] (rHeader r !! "Accept")) with
  | None => None
  | Some (filename404, ctype) =>
      let pathComponents := Split parsedPath "/" in
      match up_tree pathComponents (length pathComponents) filename404 with
      | Some resolved => Some (resolved, ctype)
      | None => None
      end
  end.

(** servePretty404IfPresent *)
Definition servePretty404IfPresent (r : GRequest) (parsedPath : string) : H bool :=
  match searchUpTreeFor404 r parsedPath with
  | None => mret false
  | Some (resolved404Path, ctype) =>
      match UnixfsGet E (rpath resolved404Path) with
      | Ok (GFile content (Some size)) =>
          _ ← SetHeader "Content-Type" ctype;
          _ ← SetHeader "Content-Length" (Itoa size);
          _ ← WriteHeader 404;
          let n := Z.to_nat size in
          _ ← Write (CContent (String.substring 0 n content));
          mret (n <=? String.length content)
      | Ok (GSymlink target) =>
          _ ← SetHeader "Content-Type" ctype;
          _ ← SetHeader "Content-Length" (Itoa (Z.of_nat (String.length target)));
          _ ← WriteHeader 404;
          _ ← Write (CContent target);
          mret true
      | _ => mret false
      end
  end.

(** fixupSuperfluousNamespace *)
Definition fixupSuperfluousNamespace (urlPath urlQuery : string) : H bool :=
  if negb (HasPrefix urlPath "/ipfs/ipfs/" || HasPrefix urlPath "/ipfs/ipns/") then mret false
  else
    let intendedPath := TrimPrefix urlPath "/ipfs" in
    match path_valid E intendedPath with
    | Some _ => mret false
    | None =>
        let intendedURL := if decide (urlQuery ≠ "") then intendedPath +:+ "?" +:+ query_Encode E urlQuery else intendedPath in
        _ ← WriteHeader 400;
        _ ← Write (CRedirectPage (mkRedirectData intendedURL intendedPath
                     ("invalid path: " +:+ urlPath +:+ " should be " +:+ intendedPath)));
        mret true
    end.

(** serveFile *)
Definition serveFile (r : GRequest) (name : string) (modtime : option Z) (file : GNode) : H unit :=
  let '(content, size, isSymlink) := match file with
    | GFile c s => (c, s, false)
    | GSymlink t => (t, Some (Z.of_nat (String.length t)), true)
    | _ => ("", None, false)
    end in
  match size with
  | None => http_Error "cannot serve files with unknown sizes" 502
  | Some _ =>
      ctype ← (if isSymlink : bool then mret "inode/symlink"
               else
                 let ctype := TypeByExtension E (Ext name) in
                 ctype ← (if decide (ctype = "") then
                            match DetectReader E content with
                            | Ok t => mret t
                            | Err e => _ ← http_Error ("cannot detect content-type: " +:+ e) 500; return_
                            end
                          else mret ctype);
                 mret (if HasPrefix ctype "text/html;" then "text/html" else ctype));
      _ ← SetHeader "Content-Type" ctype;
      s ← mget;
      let '(code, hs, written) := ServeContent E r name modtime content (hdr s) in
      _ ← mmodify (λ s, mkGS (hs ∪ hdr s) (sent s) (out s) (dag s));
      _ ← status_WriteHeader code;
      Write (CContent written)
  end.

(** shortHash, hasDNSLinkOrigin and breadcrumbs *)
Definition shortHash (hash : string) : string :=
  if String.length hash <=? 8 then hash
  else String.substring 0 4 hash +:+ "…" +:+ String.substring (String.length hash - 4) 4 hash.

Definition hasDNSLinkOrigin (gwURL path : string) : bool :=
  if decide (gwURL ≠ "") then HasPrefix path ("/ipns/" +:+ stripPort (TrimPrefix gwURL "//")) else false.

Definition breadcrumbs (urlPath : string) (dnslinkOrigin : bool) : list breadcrumb :=
  match ParsePath E urlPath with
  | Err _ => []
  | Ok segs =>
      let ret := imap (λ i seg, mkCrumb seg (if decide (i = 0) then "" else "/" +:+ Join (take (S i) segs) "/")) segs in
      if dnslinkOrigin then
        let prefix := "/ipns/" +:+ default "" (segs !! 1) in
        let ret := (λ c, if HasPrefix (bcPath c) prefix then mkCrumb (bcName c) (TrimPrefix (bcPath c) prefix) else c) <$> ret in
        alter (λ c, mkCrumb (bcName c) "/") 1 ret
      else ret
  end.

(** ** Reading *)

(** The X-Ipfs-Gateway-Prefix that is honoured *)
Fixpoint allowed_prefix (prfx : string) (ps : list string) : string :=
  match ps with
  | [] => ""
  | p :: ps' => if decide (prfx = p) then prfx else if HasPrefix prfx (p +:+ "/") then prfx else allowed_prefix prfx ps'
  end.

Definition gateway_prefix (r : GRequest) : string :=
  let prfx := get_header (rHeader r) "X-Ipfs-Gateway-Prefix" in
  if decide (prfx ≠ "") then allowed_prefix prfx (PathPrefixes config) else "".

(** The ?uri parameter of a protocol handler *)
Definition handle_uri (r : GRequest) (prefix : string) : H unit :=
  let uriParam := default "" (Query r !! "uri") in
  if decide (uriParam ≠ "") then
    match url_Parse E uriParam with
    | None => _ ← webError "failed to parse uri query parameter" (GErrMsg "parse error") 400; return_
    | Some u =>
        if decide (uScheme u ≠ "ipfs" ∧ uScheme u ≠ "ipns") then
          _ ← webErrorWithCode "uri query parameter scheme must be ipfs or ipns" "%!s(<nil>)" 400; return_
        else
          let path := if decide (uRawQuery u ≠ "") then uPath u +:+ "?" +:+ uRawQuery u else uPath u in
          _ ← http_Redirect r (foldl PathJoin "" ["/"; prefix; uScheme u; uHost u; path]) 301;
          return_
    end
  else mret ().

(** Is the path a namespace root, ^/ip[fn]s/[^/]+$ *)
Definition namespace_root (p : string) : bool :=
  match Split p "/" with
  | [e; ns; root] => bool_decide (e = "" ∧ (ns = "ipfs" ∨ ns = "ipns") ∧ root ≠ "")
  | _ => false
  end.

Definition check_service_worker (r : GRequest) : H unit :=
  if decide (get_header (rHeader r) "Service-Worker" = "script") then
    if namespace_root (gURLPath r) then
      _ ← webError "navigator.serviceWorker" (GErrMsg "registration is not allowed for this scope") 400; return_
    else mret ()
  else mret ().

(** Validating and resolving the path *)
Definition resolve_path (r : GRequest) (prefix : string) : H Resolved :=
  let urlPath := gURLPath r in
  match path_valid E urlPath with
  | Some pathErr =>
      fixed ← (if decide (prefix = "") then fixupSuperfluousNamespace urlPath (gRawQuery r) else mret false);
      if fixed : bool then return_
      else _ ← webError "invalid ipfs path" pathErr 400; return_
  | None =>
      match ResolvePath E urlPath with
      | Ok resolved => mret resolved
      | Err ErrOffline => _ ← webError ("ipfs resolve -r " +:+ EscapedPath r) ErrOffline 503; return_
      | Err err =>
          served ← servePretty404IfPresent r urlPath;
          if served : bool then return_
          else _ ← webError ("ipfs resolve -r " +:+ EscapedPath r) err 404; return_
      end
  end.

Definition etag_of (dr : GNode) (c : string) : string :=
  let q := String (Ascii.ascii_of_nat 34) "" in
  match dr with
  | GDir _ _ _ =>
      if decide (BindataVersionHash E ≠ "") then q +:+ "DirIndex-" +:+ BindataVersionHash E +:+ "_CID-" +:+ c +:+ q
      else q +:+ c +:+ q
  | _ => q +:+ c +:+ q
  end.

Definition is_file (nd : GNode) : bool := match nd with GFile _ _ | GSymlink _ => true | _ => false end.

(** The branch of a file: caching, the name and the disposition *)
Definition serve_file_branch (r : GRequest) (dr : GNode) : H unit :=
  let urlPath := gURLPath r in
  modtime ← (if HasPrefix urlPath "/ipfs/" then
               _ ← SetHeader "Cache-Control" "public, max-age=29030400, immutable"; mret (Some 1%Z)
             else mret None);
  let urlFilename := default "" (Query r !! "filename") in
  name ← (if decide (urlFilename ≠ "") then
            let disposition := if decide (Query r !! "download" = Some "true") then "attachment" else "inline" in
            let q := String (Ascii.ascii_of_nat 34) "" in
            _ ← SetHeader "Content-Disposition"
                  (disposition +:+ "; filename=" +:+ q +:+ PathEscape E (ascii_only E urlFilename) +:+ q +:+
                   "; filename*=UTF-8''" +:+ PathEscape E urlFilename);
            mret urlFilename
          else mret (getFilename urlPath));
  serveFile r name modtime dr.

(** The loop over the entries of a directory *)
Fixpoint dir_listing (resolvedPath originalUrlPath : string) (entries : list (string * option Z)) : res GErr (list directoryItem) :=
  match entries with
  | [] => Ok []
  | (name, size) :: entries' =>
      resolved ← ResolvePath E (PathJoin resolvedPath name);
      rest ← dir_listing resolvedPath originalUrlPath entries';
      mret (mkItem (match size with Some n => humanize E n | None => "?" end) name (PathJoin originalUrlPath name)
              (rcid resolved) (shortHash (rcid resolved)) :: rest)
  end.

Definition back_link (urlPath originalUrlPath : string) : string :=
  let pathSplit := Split urlPath "/" in
  if decide (length pathSplit = 3 ∨ length pathSplit = 4 ∧ pathSplit !! 3 = Some "") then originalUrlPath
  else if HasSuffix originalUrlPath "/" then originalUrlPath +:+ "./.." else originalUrlPath +:+ "/..".

(** The branch of a directory without an index page *)
Definition serve_listing (r : GRequest) (resolved : Resolved) (originalUrlPath : string)
    (entries : list (string * option Z)) (err : option GErr) (dsize : option Z) : H unit :=
  s ← mget;
  if decide (get_header (hdr s) "Location" ≠ "") then _ ← WriteHeader 301; return_
  else
    _ ← SetHeader "Content-Type" "text/html";
    if decide (Method r = "HEAD") then return_
    else
      match dir_listing (rpath resolved) originalUrlPath entries with
      | Err e => _ ← internalWebError (gerr_text e); return_
      | Ok dirListing =>
          match err with
          | Some e => _ ← internalWebError (gerr_text e); return_
          | None =>
              let gwURL := match gw_hostname r with Some h => "//" +:+ h | None => "" end in
              let dnslink := hasDNSLinkOrigin gwURL (gURLPath r) in
              let tplData := mkListing gwURL dnslink dirListing (match dsize with Some n => humanize E n | None => "?" end)
                (gURLPath r) (breadcrumbs (gURLPath r) dnslink) (back_link (gURLPath r) originalUrlPath) (rcid resolved) in
              match template_ok E tplData with
              | Some e => internalWebError (gerr_text e)
              | None => Write (CListing tplData)
              end
          end
      end.

(** The branch of a directory *)
Definition serve_dir_branch (r : GRequest) (resolved : Resolved) (originalUrlPath : string)
    (entries : list (string * option Z)) (err : option GErr) (dsize : option Z) : H unit :=
  match UnixfsGet E (PathJoin (rpath resolved) "index.html") with
  | Ok idx =>
      let dirwithoutslash := negb (HasSuffix (gURLPath r) "/") in
      let goget := bool_decide (Query r !! "go-get" = Some "1") in
      if dirwithoutslash && negb goget then
        let suffix := if decide (gRawQuery r ≠ "") then "/" +:+ "?" +:+ gRawQuery r else "/" in
        http_Redirect r (originalUrlPath +:+ suffix) 302
      else if is_file idx then serveFile r "index.html" None idx
      else internalWebError "file isn't a regular file"
  | Err (ErrNoLink _) => serve_listing r resolved originalUrlPath entries err dsize
  | Err e => internalWebError (gerr_text e)
  end.

(** getOrHeadHandler *)
Definition getOrHeadHandler (r : GRequest) : H unit :=
  let prefix := gateway_prefix r in
  match RequestURIPath r with
  | None => webError "failed to parse request path" (GErrMsg "parse error") 500
  | Some requestPath =>
      let originalUrlPath := prefix +:+ requestPath in
      _ ← handle_uri r prefix;
      _ ← check_service_worker r;
      resolved ← resolve_path r prefix;
      match UnixfsGet E (rpath resolved) with
      | Err err => webError ("ipfs cat " +:+ EscapedPath r) err 404
      | Ok dr =>
          let responseEtag := etag_of dr (rcid resolved) in
          let inm := get_header (rHeader r) "If-None-Match" in
          if decide (inm = responseEtag ∨ inm = "W/" +:+ responseEtag) then WriteHeader 304
          else
            _ ← addUserHeaders;
            _ ← SetHeader "X-IPFS-Path" (gURLPath r);
            _ ← SetHeader "Etag" responseEtag;
            match dr with
            | GFile _ _ | GSymlink _ => serve_file_branch r dr
            | GDir entries err dsize => serve_dir_branch r resolved originalUrlPath entries err dsize
            | GOther => internalWebError "unsupported file type"
            end
      end
  end.

(** ** Writing *)

Definition merr_text (e : MErr) : GErr :=
  match e with
  | Mfs.ErrNotExist => GErrMsg "file does not exist"
  | Mfs.ErrExist => GErrMsg "file already exists"
  | ErrDirExists => GErrMsg "directory already has entry by that name"
  | MMsg m => GErrMsg m
  end.

(** An error that ends the request *)
Definition fail_with {A} (message : string) (e : GErr) (code : Z) : H A := _ ← webError message e code; return_.
Definition or_fail {A} (message : string) (code : Z) (r : res GErr A) : H A :=
  match r with Ok a => mret a | Err e => fail_with message e code end.
Definition or_fail_mfs {A} (message : string) (code : Z) (r : res MErr A) : H A :=
  match r with Ok a => mret a | Err e => fail_with message (merr_text e) code end.

(** Dag().Get *)
Definition dag_get (c : string) : H (res GErr Tree) := λ s, (Ok (dag_Get E c (dag s)), s).
(** The DAG gets a node. *)
Definition dag_add (t : Tree) : H unit := mmodify (λ s, mkGS (hdr s) (sent s) (out s) (<[node_cid E t := t]> (dag s))).

(** postHandler *)
Definition postHandler (r : GRequest) : H unit :=
  match AddFile E (Body r) with
  | Err e => internalWebError (gerr_text e)
  | Ok t =>
      _ ← dag_add t;
      _ ← addUserHeaders;
      _ ← SetHeader "IPFS-Hash" (node_cid E t);
      http_Redirect r ("/ipfs/" +:+ node_cid E t) 201
  end.

(** The root of a write: a directory that MFS can open *)
Definition open_root (t : Tree) : res MErr Tree :=
  match t with
  | TDir _ _ => Ok t
  | TFile _ _ _ => Err (MMsg "root cannot be a file")
  | TOther _ => Err (MMsg "unrecognized unixfs type")
  end.

(** The path of a write: the root's CID, the path below it, its directory and its name *)
Definition write_path (r : GRequest) : H (string * string * string * string) :=
  '(rootCid, newPath) ← or_fail "WritableGateway: failed to parse the path" 400 (parseIpfsPath (gURLPath r));
  if decide (newPath = "" ∨ newPath = "/") then _ ← http_Error "WritableGateway: empty path" 400; return_
  else let '(directory, filename) := PathSplit newPath in mret (rootCid, newPath, directory, filename).

(** The changes putHandler makes to the tree *)
Definition put_tree (newDirectory newFileName : string) (newFile root : Tree) : H Tree :=
  root ← (if decide (newDirectory ≠ "") then
            let '(r, t) := Mkdir (wfails E) newDirectory true false None root in
            _ ← or_fail_mfs "WritableGateway: failed to create MFS directory" 500 r; mret t
          else mret root);
  let '(r, root) := Lookup newDirectory root in
  '(dir, dirNode) ← or_fail_mfs "WritableGateway: failed to lookup directory" 500 r;
  match dirNode with
  | TDir _ _ =>
      let '(r, root) := Unlink dir newFileName root in
      _ ← match r with
          | Ok _ | Err Mfs.ErrNotExist => mret ()
          | Err e => fail_with "WritableGateway: failed to replace existing file" (merr_text e) 400
          end;
      let '(r, root) := AddChild (wfails E) dir newFileName newFile root in
      _ ← or_fail_mfs "WritableGateway: failed to link file into directory" 500 r;
      mret root
  | _ => _ ← http_Error "WritableGateway: target directory is not a directory" 400; return_
  end.

(** putHandler *)
Definition putHandler (r : GRequest) : H unit :=
  '(rootCid, newPath, newDirectory, newFileName) ← write_path r;
  rnode ← dag_get rootCid;
  rnode ← or_fail "WritableGateway: Could not create DAG from request" 500 rnode;
  match rnode with
  | TFile _ true _ => fail_with "Cannot read non protobuf nodes through gateway" (GErrMsg "expected protobuf dag node") 400
  | _ =>
      newFile ← or_fail "WritableGateway: could not create DAG from request" 500 (AddFile E (Body r));
      _ ← dag_add newFile;
      newFile ← dag_get (node_cid E newFile);
      newFile ← or_fail "WritableGateway: failed to resolve new file" 500 newFile;
      root ← or_fail_mfs "WritableGateway: failed to create MFS root" 400 (open_root rnode);
      root ← put_tree newDirectory newFileName newFile root;
      _ ← match finalize E with Some e => fail_with "WritableGateway: failed to finalize" e 500 | None => mret () end;
      _ ← dag_add root;
      _ ← addUserHeaders;
      _ ← SetHeader "IPFS-Hash" (node_cid E root);
      http_Redirect r (foldl PathJoin "" ["/ipfs/"; node_cid E root; newPath]) 201
  end.

(** deleteHandler; after a failure to finalize it goes on with no node. *)
Definition deleteHandler (r : GRequest) : H unit :=
  '(rootCid, newPath, directory, filename) ← write_path r;
  rootNode ← dag_get rootCid;
  rootNode ← or_fail "WritableGateway: failed to resolve root CID" 500 rootNode;
  match rootNode with
  | TFile _ true _ => _ ← http_Error "WritableGateway: empty path" 500; return_
  | _ =>
      root ← or_fail_mfs "WritableGateway: failed to construct the MFS root" 400 (open_root rootNode);
      let '(lr, root) := Lookup directory root in
      '(dir, parentNode) ← or_fail_mfs "WritableGateway: failed to look up parent" 500 lr;
      match parentNode with
      | TDir _ _ =>
          let '(ur, root) := Unlink dir filename root in
          _ ← match ur with
              | Ok _ | Err Mfs.ErrNotExist => mret ()
              | Err e => fail_with "WritableGateway: failed to remove file" (merr_text e) 500
              end;
          _ ← match finalize E with
              | Some e => _ ← webError "WritableGateway: failed to finalize" e 500; mthrow Panicked
              | None => mret ()
              end;
          _ ← dag_add root;
          _ ← addUserHeaders;
          _ ← SetHeader "IPFS-Hash" (node_cid E root);
          http_Redirect r (PathJoin ("/ipfs/" +:+ node_cid E root) directory) 201
      | _ => _ ← http_Error "WritableGateway: parent is not a directory" 500; return_
      end
  end.

(** optionsHandler *)
Definition optionsHandler : H unit := addUserHeaders.

(** ServeHTTP: a panic is recovered. *)
Definition serve (r : GRequest) : H unit :=
  if Writable config && bool_decide (Method r = "POST") then postHandler r
  else if Writable config && bool_decide (Method r = "PUT") then putHandler r
  else if Writable config && bool_decide (Method r = "DELETE") then deleteHandler r
  else if decide (Method r = "GET" ∨ Method r = "HEAD") then getOrHeadHandler r
  else if decide (Method r = "OPTIONS") then optionsHandler
  else
    let errmsg := "Method " +:+ Method r +:+ " not allowed: " in
    if Writable config then http_Error (errmsg +:+ "bad request for " +:+ gURLPath r) 400
    else
      _ ← AddHeader "Allow" "GET";
      _ ← AddHeader "Allow" "HEAD";
      _ ← AddHeader "Allow" "OPTIONS";
      http_Error (errmsg +:+ "read only access") 405.

Definition ServeHTTP (r : GRequest) (s : GS) : GS := (serve r s).2.

End gateway.

(** ** Invariants of the response *)

Ltac gk := repeat (cbv zeta; match goal with
  | |- keeps _ (_ ≫= _) => apply keeps_bind; [|intros ?]
  | |- keeps _ (mret _) => apply keeps_ret
  | |- keeps _ (mthrow _) => apply keeps_throw
  | |- keeps _ return_ => apply keeps_throw
  | |- keeps _ mget => by intros ? ? ? [= _ <-]
  | H : keeps _ ?c |- keeps _ ?c => exact H
  | H : ∀ _, keeps _ _ |- keeps _ _ => solve [simple apply H]
  | H : ∀ _ _, keeps _ _ |- keeps _ _ => solve [simple apply H]
  | H : ∀ _ _ _, keeps _ _ |- keeps _ _ => solve [simple apply H]
  | H : ∀ _ _ _ _ _, keeps _ _ |- keeps _ _ => solve [simple apply H]
  | H : ∀ _ _, _ ≠ _ → keeps _ _ |- keeps _ _ => solve [simple apply H; done]
  | |- keeps _ (if ?b then _ else _) => destruct b eqn:?
  | |- keeps _ (match ?x with _ => _ end) => destruct x eqn:?
  end).

Section reading.
Context (E : GwEnv) (config : GatewayConfig) (r : GRequest) (I : GS → Prop).
Hypothesis HW : ∀ code, keeps I (WriteHeader code).
Hypothesis HO : ∀ c, keeps I (Write c).
Hypothesis HS : ∀ k v, k ≠ "Cache-Control" → keeps I (SetHeader k v).
Hypothesis HU : keeps I (addUserHeaders config).
Hypothesis HC : HasPrefix (gURLPath r) "/ipfs/" = true → ∀ v, keeps I (SetHeader "Cache-Control" v).
Hypothesis HSC : ∀ name modtime content h,
  keeps I (mmodify (λ s, mkGS ((ServeContent E r name modtime content h).1.2 ∪ hdr s) (sent s) (out s) (dag s)) : M GS HStop unit).

Lemma keeps_http_Error msg code : keeps I (http_Error msg code).
Proof using HW HO HS. unfold http_Error. gk. Qed.

Lemma keeps_webError msg e code : keeps I (webError msg e code).
Proof using HW HO HS. unfold webError, webErrorWithCode. simple apply keeps_http_Error. Qed.

Lemma keeps_internal e : keeps I (internalWebError e).
Proof using HW HO HS. unfold internalWebError, webErrorWithCode. simple apply keeps_http_Error. Qed.

Lemma keeps_Redirect url code : keeps I (http_Redirect E r url code).
Proof using HW HO HS. unfold http_Redirect. gk. Qed.

Lemma keeps_status code : keeps I (status_WriteHeader code).
Proof using HW. intros s x s'. apply HW. Qed.

Lemma keeps_serveFile name modtime file : keeps I (serveFile E r name modtime file).
Proof using HW HO HS HSC.
  pose proof keeps_http_Error. pose proof keeps_status.
  unfold serveFile. destruct file as [c [n|]|t|es err n|]; gk.
  all: pose proof (HSC name modtime) as Hsc;
    match goal with H : ServeContent _ _ _ _ ?c ?h = (_, ?hs, _) |- _ => specialize (Hsc c h); rewrite H in Hsc end; exact Hsc.
Qed.

Lemma keeps_listing resolved orig entries err dsize : keeps I (serve_listing E r resolved orig entries err dsize).
Proof using HW HO HS. pose proof keeps_internal. unfold serve_listing. gk. Qed.

Lemma keeps_uri prefix : keeps I (handle_uri E r prefix).
Proof using HW HO HS. pose proof keeps_webError. pose proof keeps_Redirect. pose proof keeps_http_Error. unfold handle_uri, webErrorWithCode. gk. Qed.

Lemma keeps_sw : keeps I (check_service_worker r).
Proof using HW HO HS. pose proof keeps_webError. unfold check_service_worker. gk. Qed.

Lemma keeps_404 parsedPath : keeps I (servePretty404IfPresent E r parsedPath).
Proof using HW HO HS. unfold servePretty404IfPresent. gk. Qed.

Lemma keeps_fixup p q : keeps I (fixupSuperfluousNamespace E p q).
Proof using HW HO HS. unfold fixupSuperfluousNamespace. gk. Qed.

Lemma keeps_resolve prefix : keeps I (resolve_path E r prefix).
Proof using HW HO HS. pose proof keeps_webError. pose proof keeps_404. pose proof keeps_fixup. unfold resolve_path. gk. Qed.

Lemma keeps_file_branch dr : keeps I (serve_file_branch E r dr).
Proof using HW HO HS HC HSC. pose proof keeps_serveFile. unfold serve_file_branch. gk. by apply HC. Qed.

Lemma keeps_dir_branch resolved orig entries err dsize : keeps I (serve_dir_branch E r resolved orig entries err dsize).
Proof using HW HO HS HSC.
  pose proof keeps_serveFile. pose proof keeps_listing. pose proof keeps_Redirect. pose proof keeps_internal.
  unfold serve_dir_branch. gk.
Qed.

Lemma keeps_getOrHead : keeps I (getOrHeadHandler E config r).
Proof using HW HO HS HU HC HSC.
  pose proof keeps_webError. pose proof keeps_internal. pose proof keeps_uri. pose proof keeps_sw. pose proof keeps_resolve.
  pose proof keeps_file_branch. pose proof keeps_dir_branch. unfold getOrHeadHandler. gk.
Qed.

End reading.

(** ** Writes *)

(** A run that goes on has not failed. *)
Lemma fail_with_not_ok {A} msg e code s (a : A) s' : fail_with msg e code s ≠ (Ok a, s').
Proof. unfold fail_with. intros (? & ? & _ & Hr)%bind_ok. by injection Hr. Qed.

Lemma error_not_ok {A} msg code s (a : A) s' : (_ ← http_Error msg code; return_) s ≠ (Ok a, s').
Proof. intros (? & ? & _ & Hr)%bind_ok. by injection Hr. Qed.

Lemma or_fail_ok {A} msg code (r : res GErr A) s a s' : or_fail msg code r s = (Ok a, s') → r = Ok a ∧ s' = s.
Proof. destruct r; simpl; [by intros [= <- <-]|]. by intros ?%fail_with_not_ok. Qed.

Lemma or_fail_mfs_ok {A} msg code (r : res MErr A) s a s' : or_fail_mfs msg code r s = (Ok a, s') → r = Ok a ∧ s' = s.
Proof. destruct r; simpl; [by intros [= <- <-]|]. by intros ?%fail_with_not_ok. Qed.

Section writes.
Context (E : GwEnv) (config : GatewayConfig).

(** What is at each path after a write of [new] under [dirp] and [name] *)
Definition patched (dirp name : string) (old new root : Tree) : Prop :=
  let p := parts_of dirp ++ [name] in
  (∀ q, view (p ++ q) root = view q new) ∧
  ∀ q, ¬ p `prefix_of` q →
    view q root = view q old ∨
    view q old = None ∧ view q root = Some None ∧ q `prefix_of` mkdir_parts dirp.

Lemma put_tree_ok dirp name new old root s s' :
  view [] old = Some None → put_tree E dirp name new old s = (Ok root, s') →
  s' = s ∧ patched dirp name old new root.
Proof.
  intros Hroot. unfold put_tree. intros (t1 & s1 & H1 & Hr)%bind_ok.
  assert (s1 = s ∧ grown (mkdir_parts dirp) old t1) as [-> Hg].
  { case_decide; [|injection H1 as <- <-; split; [done|by left]].
    destruct (Mkdir _ _ _ _ _ _) as [mr mt] eqn:Hm. apply Mkdir_spec in Hm as [Hg _]; [|done].
    apply bind_ok in H1 as (u & s2 & [_ ->]%or_fail_mfs_ok & H1). by injection H1 as <- <-. }
  destruct (Lookup dirp t1) as [lr t2] eqn:Hl. apply Lookup_spec in Hl as [-> Hl].
  apply bind_ok in Hr as ([dir nd] & s2 & [-> ->]%or_fail_mfs_ok & Hr).
  destruct (Hl dir nd eq_refl) as [-> Hw]. destruct nd as [b es|?|?]; try by apply error_not_ok in Hr.
  pose proof (walk_dir _ _ _ _ Hw) as Hdir.
  destruct (Unlink (parts_of dirp) name t1) as [ur t3] eqn:Hu. apply Unlink_spec in Hu; [|done].
  apply bind_ok in Hr as ([] & s2 & Hok & Hr).
  destruct (AddChild _ _ _ _ t3) as [ar t4] eqn:Ha.
  apply bind_ok in Hr as ([] & s3 & [-> ->]%or_fail_mfs_ok & Hr). injection Hr as <- <-.
  set (p := parts_of dirp ++ [name]) in *.
  assert (s2 = s ∧ ∀ q, ¬ p `prefix_of` q → view q t3 = view q t1) as [-> Hq3].
  { destruct ur as [[]|e].
    - injection Hok as <-. split; [done|]. intros q Hq. rewrite Hu. apply strip_None in Hq. by rewrite Hq.
    - destruct Hu as [-> _]. destruct e; try by apply fail_with_not_ok in Hok. by injection Hok as <-. }
  assert (view (parts_of dirp) t3 = Some None) as Hdir3.
  { rewrite Hq3; [done|]. apply strip_None, strip_below. }
  apply AddChild_spec in Ha as [_ Ha]; [|done]. split; [done|]. split.
  - intros q. rewrite Ha. by rewrite strip_app.
  - intros q Hq. pose proof Hq as Hs. apply strip_None in Hs. rewrite Ha, Hs, Hq3 by done. apply Hg.
Qed.

(** What the client gets of an error *)
Lemma http_Error_run msg code s x s' : http_Error msg code s = (x, s') →
  dag s' = dag s ∧ (sent s = None → ∃ h, sent s' = Some (code, h) ∧
    ∀ k, k ≠ "Content-Type" → k ≠ "X-Content-Type-Options" → h !! k = hdr s !! k).
Proof.
  unfold http_Error, Write, WriteHeader, SetHeader. go_run. cbn.
  destruct (sent s) as [x0|] eqn:Hs; cbn; rewrite ?Hs; cbn; intros [= _ <-]; (split; [done|]); intros; try done.
  eexists. split; [done|]. intros k H1 H2. by rewrite !lookup_insert_ne by done.
Qed.

(** What the client gets of a redirect *)
Lemma Redirect_run r url code s x s' : http_Redirect E r url code s = (x, s') →
  x = Ok () ∧ dag s' = dag s ∧
  (sent s = None → ∃ h, sent s' = Some (code, h) ∧ h !! "Location" = Some [redirect_url E r url] ∧
     ∀ k, k ≠ "Location" → k ≠ "Content-Type" → h !! k = hdr s !! k).
Proof.
  unfold http_Redirect, Write, WriteHeader, SetHeader. go_run.
  destruct (negb (bool_decide (is_Some (hdr s !! "Content-Type"))));
    [destruct (bool_decide (Method r = "GET" ∨ Method r = "HEAD")), (bool_decide (Method r = "GET"))|]; cbn;
    destruct (sent s) as [x0|] eqn:Hs; cbn; rewrite ?Hs; cbn; intros [= <- <-];
    (split; [done|]; split; [done|]); intros; try done; eexists; (split; [done|]); cbn; split;
    intros; by rewrite ?lookup_insert_ne, ?lookup_insert_eq by done.
Qed.

(** The end of a write: the new root is in the DAG and the client is told. *)
Definition answered (root : Tree) (s s' : GS) : Prop :=
  dag s' !! node_cid E root = Some root ∧
  (sent s = None → ∃ h, sent s' = Some (201, h)%Z ∧ h !! "IPFS-Hash" = Some [node_cid E root]).

Lemma finish_run r root url s x s' :
  (_ ← dag_add E root; _ ← addUserHeaders config; _ ← SetHeader "IPFS-Hash" (node_cid E root);
   http_Redirect E r url 201) s = (x, s') → x = Ok () ∧ answered root s s' ∧ dag s' = <[node_cid E root := root]> (dag s).
Proof.
  unfold dag_add, addUserHeaders, SetHeader. go_run. intros Hr. apply Redirect_run in Hr as (-> & Hd & Hs). cbn [dag sent hdr] in *. split; [done|]. unfold answered. rewrite Hd. split; [|done].
  split; [by rewrite lookup_insert_eq|]. intros Hnone. destruct (Hs Hnone) as (h & Hh & _ & Hk). exists h. split; [done|].
  rewrite Hk by done. by rewrite lookup_insert_eq.
Qed.

Lemma write_path_ok r s x s' : write_path E r s = (Ok x, s') →
  s' = s ∧ ∃ c p, parseIpfsPath E (gURLPath r) = Ok (c, p) ∧ p ≠ "" ∧ x = (c, p, (PathSplit p).1, (PathSplit p).2).
Proof.
  unfold write_path. intros ([c p] & s1 & [Hp ->]%or_fail_ok & Hr)%bind_ok.
  case_decide; [by apply error_not_ok in Hr|]. destruct (PathSplit p) as [d f] eqn:Hs. injection Hr as <- <-.
  split; [done|]. exists c, p. rewrite Hs. naive_solver.
Qed.

Lemma dag_get_ok c s x s' : dag_get E c s = (Ok x, s') → x = dag_Get E c (dag s) ∧ s' = s.
Proof. by intros [= <- <-]. Qed.

Lemma put_run r s x s' : 
  (∀ c d t, d !! c = Some t → dag_Get E c d = Ok t) →
  putHandler E config r s = (Ok x, s') →
  ∃ c p old new root, parseIpfsPath E (gURLPath r) = Ok (c, p) ∧ dag_Get E c (dag s) = Ok old ∧
    AddFile E (Body r) = Ok new ∧ patched (PathSplit p).1 (PathSplit p).2 old new root ∧ answered root s s'.
Proof.
  intros Hlocal. unfold putHandler. intros (y & s1 & Hp & Hr)%bind_ok.
  apply write_path_ok in Hp as (-> & c & p & Hp & _ & ->).
  apply bind_ok in Hr as (rn & s1 & [-> ->]%dag_get_ok & Hr).
  apply bind_ok in Hr as (old & s1 & [Hold ->]%or_fail_ok & Hr).
  exists c, p, old. assert (match old with TFile _ true _ => False | _ => True end) as Hok.
  { destruct old as [| b raw d|]; try done. destruct raw; [|done]. by apply fail_with_not_ok in Hr. }
  assert (∃ new s1, AddFile E (Body r) = Ok new ∧ dag_Get E (node_cid E new) (dag s1) = Ok new ∧ sent s1 = sent s ∧
    (root ← or_fail_mfs "WritableGateway: failed to create MFS root" 400 (open_root old);
     root ← put_tree E (PathSplit p).1 (PathSplit p).2 new root;
     _ ← match finalize E with Some e => fail_with "WritableGateway: failed to finalize" e 500 | None => mret () end;
     _ ← dag_add E root; _ ← addUserHeaders config; _ ← SetHeader "IPFS-Hash" (node_cid E root);
     http_Redirect E r (foldl PathJoin "" ["/ipfs/"; node_cid E root; p]) 201) s1 = (Ok x, s')) as
    (new & s1 & Hnew & _ & Hsent & Hrest).
  { destruct old as [| b [] d|]; try done;
    (apply bind_ok in Hr as (new & s1 & [Hnew ->]%or_fail_ok & Hr); apply bind_ok in Hr as ([] & s2 & Hadd & Hr);
     injection Hadd as <-; apply bind_ok in Hr as (rn & s3 & [-> ->]%dag_get_ok & Hr);
     apply bind_ok in Hr as (new' & s3 & [Hget ->]%or_fail_ok & Hr); cbn [dag] in Hget;
     rewrite (Hlocal _ _ new) in Hget by apply lookup_insert_eq; injection Hget as <-;
     eexists new, _; split; [done|]; split; [|split; [|exact Hr]]; [|done]; apply Hlocal, lookup_insert_eq). }
  apply bind_ok in Hrest as (t & s2 & [Ht ->]%or_fail_mfs_ok & Hrest).
  assert (t = old ∧ view [] old = Some None) as [-> Hdir] by (destruct old; try done; by injection Ht as <-).
  apply bind_ok in Hrest as (root & s2 & Hput & Hrest). apply put_tree_ok in Hput as [-> Hpatched]; [|done].
  apply bind_ok in Hrest as ([] & s2 & Hfin & Hrest).
  assert (s2 = s1) as -> by (destruct (finalize E); [by apply fail_with_not_ok in Hfin|by injection Hfin as <-]).
  apply finish_run in Hrest as (_ & [Hdag Hs] & _). exists new, root.
  split; [exact Hp|]. split; [exact Hold|]. split; [exact Hnew|]. split; [exact Hpatched|].
  split; [exact Hdag|]. rewrite <- Hsent. exact Hs.
Qed.

(** What is at each path after a removal *)
Definition pruned (dirp name : string) (old root : Tree) : Prop :=
  ∀ q, view q root = match strip (parts_of dirp ++ [name]) q with Some _ => None | None => view q old end.

Lemma delete_run r s x s' : deleteHandler E config r s = (Ok x, s') →
  ∃ c p old root, parseIpfsPath E (gURLPath r) = Ok (c, p) ∧ dag_Get E c (dag s) = Ok old ∧
    pruned (PathSplit p).1 (PathSplit p).2 old root ∧ answered root s s'.
Proof.
  unfold deleteHandler. intros (y & s1 & Hp & Hr)%bind_ok. apply write_path_ok in Hp as (-> & c & p & Hp & _ & ->).
  apply bind_ok in Hr as (rn & s1 & [-> ->]%dag_get_ok & Hr).
  apply bind_ok in Hr as (old & s1 & [Hold ->]%or_fail_ok & Hr). exists c, p, old.
  assert (∃ b es, old = TDir b es) as (b & es & ->).
  { destruct old as [b es|b [] d|n]; [by eauto|by apply error_not_ok in Hr|..];
      apply bind_ok in Hr as (t & s2 & [Ht _]%or_fail_mfs_ok & _); done. }
  apply bind_ok in Hr as (t & s2 & [Ht ->]%or_fail_mfs_ok & Hr). injection Ht as <-.
  destruct (Lookup _ _) as [lr t2] eqn:Hl. apply Lookup_spec in Hl as [-> Hl].
  apply bind_ok in Hr as ([dir nd] & s2 & [-> ->]%or_fail_mfs_ok & Hr).
  destruct (Hl dir nd eq_refl) as [-> Hw]. destruct nd as [b' es'|?|?]; try by apply error_not_ok in Hr.
  pose proof (walk_dir _ _ _ _ Hw) as Hdir.
  destruct (Unlink _ _ _) as [ur root] eqn:Hu. apply Unlink_spec in Hu; [|done].
  apply bind_ok in Hr as ([] & s2 & Hok & Hr).
  assert (s2 = s ∧ pruned (PathSplit p).1 (PathSplit p).2 (TDir b es) root) as [-> Hpr].
  { destruct ur as [[]|e].
    - injection Hok as <-. split; [done|]. intros q. rewrite Hu. done.
    - destruct Hu as [-> Hu]. destruct e; try by apply fail_with_not_ok in Hok. injection Hok as <-. split; [done|].
      intros q. destruct (strip _ q) as [q'|] eqn:Hs; [|done]. apply strip_Some in Hs as ->.
      apply view_None_app. by apply Hu. }
  apply bind_ok in Hr as ([] & s2 & Hfin & Hr).
  assert (s2 = s) as -> by (destruct (finalize E); [by apply bind_ok in Hfin as (? & ? & _ & ?)|by injection Hfin as <-]).
  apply finish_run in Hr as (_ & Ha & _). exists root. split; [exact Hp|]. split; [exact Hold|]. split; [exact Hpr|exact Ha].
Qed.

End writes.

(** ** The claims *)

(** C20. A PUT that succeeds answers 201 with the CID of a tree that is the old one
    with the request's body at the path: at the path and below it is what was
    added; everywhere else the tree is as it was, but for directories that were
    missing on the way. *)
Theorem putHandler_exact E config r s x s' :
  (∀ c d t, d !! c = Some t → dag_Get E c d = Ok t) →
  putHandler E config r s = (Ok x, s') →
  ∃ c p old new root, parseIpfsPath E (gURLPath r) = Ok (c, p) ∧ dag_Get E c (dag s) = Ok old ∧
    AddFile E (Body r) = Ok new ∧ patched (PathSplit p).1 (PathSplit p).2 old new root ∧ answered E root s s'.
Proof. apply put_run. Qed.

(** A DELETE that succeeds answers 201 with the CID of a tree that is the old
    one with nothing at the path or below it. *)
Theorem deleteHandler_exact E config r s x s' :
  deleteHandler E config r s = (Ok x, s') →
  ∃ c p old root, parseIpfsPath E (gURLPath r) = Ok (c, p) ∧ dag_Get E c (dag s) = Ok old ∧
    pruned (PathSplit p).1 (PathSplit p).2 old root ∧ answered E root s s'.
Proof. apply delete_run. Qed.

(** C34. A gateway that is not writable adds nothing to the DAG, whatever the
    request, and answers every method but GET, HEAD and OPTIONS with 405 and the
    methods it allows. *)
Theorem ServeHTTP_read_only E config r s :
  Writable config = false →
  dag (ServeHTTP E config r s) = dag s ∧
  (Method r ∉ ["GET"; "HEAD"; "OPTIONS"] → sent s = None → hdr s !! "Allow" = None →
   ∃ h, sent (ServeHTTP E config r s) = Some (405, h)%Z ∧ h !! "Allow" = Some ["GET"; "HEAD"; "OPTIONS"]).
Proof.
  intros Hw. unfold ServeHTTP, serve. rewrite Hw. simpl.
  destruct (decide (Method r = "GET" ∨ Method r = "HEAD")) as [Hm|Hm].
  { split; [|intros Hn; destruct Hn; set_solver].
    destruct (getOrHeadHandler E config r s) as [x s'] eqn:Hr. simpl.
    eapply (keeps_getOrHead E config r (λ s', dag s' = dag s)); [| | | | | |exact Hr|done].
    - intros code s1 y s2 [= _ <-]. by destruct (sent s1).
    - intros c s1 y s2. unfold Write, WriteHeader. go_run. intros [= _ <-]. simpl. by destruct (sent s1).
    - by intros k v _ s1 y s2 [= _ <-].
    - by intros s1 y s2 [= _ <-].
    - by intros _ v s1 y s2 [= _ <-].
    - by intros name modtime content h s1 y s2 [= _ <-]. }
  destruct (decide (Method r = "OPTIONS")) as [->|Ho]; [split; [done|intros Hn; destruct Hn; set_solver]|].
  unfold AddHeader. repeat (rewrite bind_unfold; cbv beta iota delta [mmodify]).
  destruct (http_Error _ 405 _) as [x s'] eqn:Hr. apply http_Error_run in Hr as [Hd Hk]. simpl in *. split; [done|].
  intros _ Hs Ha. destruct (Hk Hs) as (h & Hh & Hk'). exists h. split; [done|]. rewrite Hk' by done.
  rewrite !lookup_insert_eq, Ha. done.
Qed.

(** What is not under /ipfs/ is never sent as immutable: no response to a GET or
    HEAD of another path, whatever it resolves to and whatever fails, carries a
    Cache-Control header, unless the configuration or the file server puts one. *)
Theorem getOrHead_mutable_not_cached E config r s code h :
  HasPrefix (gURLPath r) "/ipfs/" = false →
  cHeaders config !! "Cache-Control" = None →
  (∀ name modtime content h, (ServeContent E r name modtime content h).1.2 !! "Cache-Control" = None) →
  hdr s !! "Cache-Control" = None → sent s = None →
  sent (getOrHeadHandler E config r s).2 = Some (code, h) → h !! "Cache-Control" = None.
Proof.
  intros Hp Hc Hsc Hh Hs Hsent.
  set (I s := hdr s !! "Cache-Control" = None ∧ ∀ code h, sent s = Some (code, h) → h !! "Cache-Control" = None).
  destruct (getOrHeadHandler E config r s) as [x s'] eqn:Hr.
  assert (∀ code, keeps I (WriteHeader code)) as HW.
  { intros c0 s1 y s2 [= _ <-] [H1 H2]. destruct (sent s1) eqn:Hs1; [by split; [|rewrite Hs1]|].
    split; [done|]. by intros ? ? [= _ <-]. }
  assert (I s') as [_ HI]; [|by eapply HI].
  eapply (keeps_getOrHead E config r I); [exact HW| | | | | |exact Hr|].
  - intros c. unfold Write. apply keeps_bind; [apply HW|]. intros [] s1 y s2 [= _ <-] [H1 H2]. by split.
  - intros k v Hk s1 y s2 [= _ <-] [H1 H2]. split; [|done]. simpl. by rewrite lookup_insert_ne.
  - intros s1 y s2 [= _ <-] [H1 H2]. split; [|done]. simpl. by rewrite lookup_union_None.
  - by rewrite Hp.
  - intros name modtime content h0 s1 y s2 [= _ <-] [H1 H2]. split; [|done]. simpl. by rewrite lookup_union_None.
  - split; [done|]. by rewrite Hs.
Qed.

(** An Accept header whose types have parameters finds no 404 page: the parameters
    are not cut off. *)
Theorem preferred404_ignores_parameters : preferred404Filename ["text/html;q=0.9"] = None ∧
  preferred404Filename ["text/html"] = Some ("ipfs-404.html", "text/html").
Proof. split; vm_compute; reflexivity. Qed.

(** ** Examples *)

Module GatewayExample.

Definition bld : Builder := mkBuilder 1 18 (-1).
Definition old : Tree := TDir bld {["a" := TFile bld false "old"; "keep" := TFile bld false "k"]}.

Definition env : GwEnv := mkGwEnv
  (λ p, Ok (tl (Split p "/"))) Ok (λ _, None) (λ p, Ok (mkResolved p "bafyfile"))
  (λ p, if decide (p = "/ipns/site/page.html") then Ok (GFile "page" (Some 4%Z)) else Err (ErrNoLink "no link"))
  (λ u, Some (mkUrl "" "" u "")) id id id (λ _, "text/html; charset=utf-8") (λ _, Ok "text/plain")
  (λ _ _ _ content _, (200%Z, {["Content-Length" := [Itoa (Z.of_nat (String.length content))]]}, content))
  Itoa "hash" (λ _, None) (λ b, Ok (TFile bld false b)) (λ c d, match d !! c with Some t => Ok t | None => Err (GErrMsg "not found") end)
  (λ t, match t with TDir _ _ => "bafydir" | TFile _ _ d => "bafy" +:+ d | TOther n => n end) (λ _ _, None) None.

Definition cfg (w : bool) : GatewayConfig := mkGatewayConfig {["Access-Control-Allow-Origin" := ["*"]]} w [].
Definition req (m p : string) : GRequest := mkGRequest m p p "" ∅ (Some p) ∅ "new" None.
Definition s0 : GS := mkGS ∅ None [] {["root" := old]}.

End GatewayExample.

Lemma putHandler_exact_witness :
  let s' := (putHandler GatewayExample.env (GatewayExample.cfg true) (GatewayExample.req "PUT" "/ipfs/root/d/b") GatewayExample.s0).2 in
  ∃ root, dag s' !! "bafydir" = Some root ∧ view ["d"; "b"] root = Some (Some "new") ∧ view ["a"] root = Some (Some "old").
Proof.
  intros s'. assert (putHandler GatewayExample.env (GatewayExample.cfg true) (GatewayExample.req "PUT" "/ipfs/root/d/b") GatewayExample.s0
    = (Ok (), s')) as Hr.
  { unfold s'. destruct (putHandler _ _ _ _) as [x s1] eqn:Hx. apply (f_equal fst) in Hx. vm_compute in Hx. by subst x. }
  destruct (putHandler_exact GatewayExample.env (GatewayExample.cfg true) (GatewayExample.req "PUT" "/ipfs/root/d/b") GatewayExample.s0 () s')
    as (c & p & old & new & root & Hp & Hold & Hnew & [Hin Hother] & Hdag & _); [by intros c d t Hd; simpl; rewrite Hd|exact Hr|].
  injection Hp as <- <-. injection Hold as <-. injection Hnew as <-. exists root.
  assert (node_cid GatewayExample.env root = "bafydir") as Hc.
  { destruct (Hother []) as [Hv|(Hv & _)]; [by apply (bool_decide_unpack _)| |discriminate Hv].
    destruct root; [reflexivity|discriminate Hv..]. }
  rewrite Hc in Hdag. split; [exact Hdag|]. split; [apply (Hin [])|].
  destruct (Hother ["a"]) as [->|(Hx & _)]; [by apply (bool_decide_unpack _)|done|done].
Defined.

Lemma deleteHandler_exact_witness :
  let s' := (deleteHandler GatewayExample.env (GatewayExample.cfg true) (GatewayExample.req "DELETE" "/ipfs/root/a") GatewayExample.s0).2 in
  ∃ root, node_cid GatewayExample.env root = "bafydir" ∧ dag s' !! "bafydir" = Some root ∧
    view ["a"] root = None ∧ view ["keep"] root = Some (Some "k").
Proof.
  intros s'. assert (deleteHandler GatewayExample.env (GatewayExample.cfg true) (GatewayExample.req "DELETE" "/ipfs/root/a") GatewayExample.s0
    = (Ok (), s')) as Hr.
  { unfold s'. destruct (deleteHandler _ _ _ _) as [x s1] eqn:Hx. apply (f_equal fst) in Hx. vm_compute in Hx. by subst x. }
  destruct (deleteHandler_exact GatewayExample.env (GatewayExample.cfg true) (GatewayExample.req "DELETE" "/ipfs/root/a") GatewayExample.s0 () s' Hr)
    as (c & p & old & root & Hp & Hold & Hq & Hdag & _).
  injection Hp as <- <-. injection Hold as <-. exists root.
  assert (node_cid GatewayExample.env root = "bafydir") as Hc
    by (specialize (Hq []); destruct root; [reflexivity|discriminate Hq..]).
  rewrite Hc in Hdag. split; [exact Hc|]. split; [exact Hdag|]. split; [exact (Hq ["a"])|exact (Hq ["keep"])].
Defined.

Lemma ServeHTTP_read_only_witness :
  ∃ h, sent (ServeHTTP GatewayExample.env (GatewayExample.cfg false) (GatewayExample.req "PUT" "/ipfs/root/a") GatewayExample.s0)
    = Some (405, h)%Z ∧ h !! "Allow" = Some ["GET"; "HEAD"; "OPTIONS"].
Proof.
  apply (ServeHTTP_read_only GatewayExample.env (GatewayExample.cfg false) (GatewayExample.req "PUT" "/ipfs/root/a") GatewayExample.s0);
    [done|by apply (bool_decide_unpack _)|done|done].
Defined.

Lemma getOrHead_mutable_not_cached_witness :
  let s' := (getOrHeadHandler GatewayExample.env (GatewayExample.cfg false) (GatewayExample.req "GET" "/ipns/site/page.html") GatewayExample.s0).2 in
  fst <$> sent s' = Some 200%Z ∧ ∀ code h, sent s' = Some (code, h) → h !! "Cache-Control" = None.
Proof.
  intros s'. split; [vm_compute; reflexivity|]. intros code h.
  apply (getOrHead_mutable_not_cached GatewayExample.env (GatewayExample.cfg false) (GatewayExample.req "GET" "/ipns/site/page.html")
    GatewayExample.s0); reflexivity.
Defined.

(** When the tree cannot be finalised, the handler of DELETE answers and then goes
    on without a node. *)
Theorem deleteHandler_panics :
  ∃ s', deleteHandler (mkGwEnv (ParsePath GatewayExample.env) Ok (λ _, None) (ResolvePath GatewayExample.env) (UnixfsGet GatewayExample.env)
      (url_Parse GatewayExample.env) id id id (λ _, "") (λ _, Ok "") (ServeContent GatewayExample.env) Itoa "" (λ _, None)
      (AddFile GatewayExample.env) (dag_Get GatewayExample.env) (node_cid GatewayExample.env) (λ _ _, None) (Some (GErrMsg "no space")))
    (GatewayExample.cfg true) (GatewayExample.req "DELETE" "/ipfs/root/a") GatewayExample.s0 = (Err Panicked, s').
Proof. eexists. vm_compute. reflexivity. Qed.
