(* ===== verification/RemotePin.v ===== *)
(** * Remote pinning (src/core/commands/pin/remotepin.go)

    The services of the configuration, and pins on a service: adding one and
    waiting for it, listing, removing.  The client of the pinning service API
    (go-pinning-service-http-client) is an interface with what its methods do to
    the pins of the service; the configuration is that of [FsRepo]. *)

From Stdlib Require Import ZArith Ascii String.
From stdpp Require Import base gmap sets list strings sorting.
From S2P Require Import Prelude GoStrings GoFS ConfigKV Datastores Migrations FsRepo Cid.

(** config.RemotePinningService, its policies aside *)
Record RemotePinningService := mkService { Endpoint : string; Key : string }.

(** pinclient.PinStatusGetter *)
Record PinStatus := mkPS { RequestId : string; Status : string; psCid : string; psName : string; Delegates : list string }.

Record RemotePinOutput := mkRemoteOut { roStatus : string; roCid : string; roName : string }.

(** The filters of a listing *)
Record Filter := mkFilter { fName : option string; fCids : list Cid; fStatus : list string }.

(** pinclient.Client *)
Class PinClient (R : Type) := {
  pc_Add : Cid → option string → list string → M R string PinStatus;
  pc_GetStatusByID : string → M R string PinStatus;
  (** what comes on the channel, and the error after it *)
  pc_Ls : Filter → R → list PinStatus * option string;
  pc_DeleteByID : string → M R string unit;
  pc_Count : string → R → res string Z;
}.

Definition valid_statuses : list string := ["queued"; "pinning"; "pinned"; "failed"].

(** url.URL of an endpoint *)
Record EndpointUrl := mkEndpoint { eScheme : string; eHost : string; ePath : string; eQuery : string }.

(** The world: the repository and the service *)
Record RW (R : Type) := mkRW { repoW : W; remote : R }.
Arguments mkRW {R}. Arguments repoW {R}. Arguments remote {R}.

(** The pins of the node's configuration, and what else it is asked for *)
Class RemoteConfig (C : Type) := {
  RemoteServices : C → option (gmap string RemotePinningService);
  set_RemoteServices : C → option (gmap string RemotePinningService) → C;
}.

Record RemoteEnv := mkRemoteEnv {
  ParseRequestURI : string → option EndpointUrl;
  url_String : EndpointUrl → string;
  rResolvePath : string → res string Cid;
  rcid_Decode : string → res string Cid;
  Blockstore_Has : Cid → res string bool;
  host_addrs : option (res string (list string));
  AddrInfoFromP2pAddr : string → res string string;
}.

Definition toRemotePinOutput (ps : PinStatus) : RemotePinOutput := mkRemoteOut (Status ps) (psCid ps) (psName ps).

(** The path of an endpoint: cleaned, without a trailing "." and "/" *)
Definition normalize_path (p : string) : string := TrimSuffix (TrimSuffix (Clean p) ".") "/".

Section remote.
Context (env : Env) (X : RepoEnv) {C : Type} `{ConfigPkg C} `{!RemoteConfig C} {R : Type} `{!PinClient R} (E : RemoteEnv).
Local Abbreviation A := (M (RW R) RErr).

(** Errors keep their text up to the quoting of what they name. *)

(** normalizeEndpoint *)
Definition normalizeEndpoint (endpoint : string) : res RErr string :=
  match ParseRequestURI E endpoint with
  | Some uri =>
      if decide (eScheme uri = "http" ∨ eScheme uri = "https") then
        let path := normalize_path (ePath uri) in
        if decide (eQuery uri ≠ "") then Err (EMsg "service endpoint should be provided without any query parameters")
        else if HasSuffix path "/pins" then Err (EMsg "service endpoint should be provided without the /pins suffix")
        else Ok (url_String E (mkEndpoint (eScheme uri) (eHost uri) path ""))
      else Err (EMsg "service endpoint must be a valid HTTP URL")
  | None => Err (EMsg "service endpoint must be a valid HTTP URL")
  end.

(** fsrepo.Open with the deferred Close around [body] *)
Definition in_repo {B} (root : string) (body : M (RS (C := C)) RErr B) : A B := λ w,
  match open env X root (repoW w) with
  | (Err e, w1) => (Err e, mkRW w1 (remote w))
  | (Ok r, w1) => let '(res, s) := body (mkRS w1 r) in (res, mkRW (rw (Close env s).2) (remote w))
  end.

Definition on_remote {B} (c : M R string B) : A B := λ w,
  let '(r, rem) := c (remote w) in
  (match r with Ok b => Ok b | Err e => Err (EMsg e) end, mkRW (repoW w) rem).

Definition of_string {S B} (r : res string B) : M S RErr B :=
  mlift (match r with Ok b => Ok b | Err e => Err (EMsg e) end).

(** getRemotePinServiceInfo *)
Definition getRemotePinServiceInfo (cfgRoot name : string) : A (string * string) :=
  in_repo cfgRoot (
    cfg ← Config;
    match RemoteServices cfg with
    | None => mthrow (EMsg "service not known")
    | Some services =>
        match services !! name with
        | None => mthrow (EMsg "service not known")
        | Some service => endpoint ← mlift (normalizeEndpoint (Endpoint service)); mret (endpoint, Key service)
        end
    end).

(** getRemotePinService, getRemotePinServiceFromRequest: the client stands for the service. *)
Definition getRemotePinService (cfgRoot name : string) : A unit :=
  if decide (name = "") then mthrow (EMsg "remote pinning service name not specified")
  else _ ← getRemotePinServiceInfo cfgRoot name; mret ().

Definition getRemotePinServiceFromRequest (cfgRoot : string) (service : option string) : A unit :=
  match service with
  | None => mthrow (EMsg "a service name must be passed")
  | Some name => getRemotePinService cfgRoot name
  end.

(** The loop that waits for a pin; [wait n] is what interrupts the [n]th wait. *)
Fixpoint wait_pinned (fuel : nat) (wait : nat → bool) (n : nat) (requestId : string) : A PinStatus :=
  match fuel with
  | 0 => mthrow (EMsg "out of fuel")
  | S fuel' =>
      ps ← mstate (λ w, match on_remote (pc_GetStatusByID requestId) w with
                        | (Ok ps, w') => (Ok ps, w')
                        | (Err _, w') => (Err (EMsg ("failed to check pin status for requestid=" +:+ requestId)), w')
                        end);
      if decide (RequestId ps ≠ requestId) then
        mthrow (EMsg ("failed to check pin status for requestid=" +:+ requestId +:+
                      ", remote service sent unexpected requestid=" +:+ RequestId ps))
      else if decide (Status ps = "pinned") then mret ps
      else if decide (Status ps = "failed") then mthrow (EMsg ("remote service failed to pin requestid=" +:+ requestId))
      else if wait n then mthrow (EMsg ("waiting for pin interrupted, requestid=" +:+ requestId +:+ " remains on remote service"))
      else wait_pinned fuel' wait (S n) requestId
  end.

(** The origins: the node's own addresses, when it has the block and a host *)
Definition pin_origins (c : Cid) : res string (list string) :=
  isInBlockstore ← Blockstore_Has E c;
  match host_addrs E with
  | Some addrs => if isInBlockstore : bool then addrs else mret []
  | None => mret []
  end.

(** addRemotePinCmd.Run; connecting to the delegates is best effort. *)
Definition addRemotePinCmd (cfgRoot : string) (service name : option string) (background : bool) (args : list string)
    (fuel : nat) (wait : nat → bool) : A RemotePinOutput :=
  _ ← getRemotePinServiceFromRequest cfgRoot service;
  match args with
  | [arg] =>
      rp ← of_string (rResolvePath E arg);
      origins ← of_string (pin_origins rp);
      ps ← on_remote (pc_Add rp name origins);
      _ ← mfor (Delegates ps) (λ d, _ ← of_string (AddrInfoFromP2pAddr E d); mret ());
      ps ← (if background then mret ps else wait_pinned fuel wait 0 (RequestId ps));
      mret (toRemotePinOutput ps)
  | _ => mthrow (EMsg "expecting one CID argument")
  end.

(** lsRemote: the filter of a request *)
Fixpoint parse_cids (raw : list string) : res RErr (list Cid) :=
  match raw with
  | [] => Ok []
  | r :: raw' =>
      match rcid_Decode E r with
      | Err e => Err (EMsg ("CID " +:+ r +:+ " cannot be parsed: " +:+ e))
      | Ok c => cs ← parse_cids raw'; mret (c :: cs)
      end
  end.

Fixpoint parse_statuses (raw : list string) : res RErr (list string) :=
  match raw with
  | [] => Ok []
  | r :: raw' =>
      if decide (r ∈ valid_statuses) then ss ← parse_statuses raw'; mret (r :: ss)
      else Err (EMsg ("status " +:+ r +:+ " is not valid"))
  end.

Definition lsRemote_filter (name : option string) (cids statuses : option (list string)) : res RErr Filter :=
  cs ← (match cids with Some raw => parse_cids raw | None => Ok [] end);
  ss ← (match statuses with Some raw => parse_statuses raw | None => Ok [] end);
  mret (mkFilter name cs ss).

Definition lsRemote (name : option string) (cids statuses : option (list string)) : A (list PinStatus * option string) :=
  f ← mlift (lsRemote_filter name cids statuses);
  w ← mget;
  mret (pc_Ls f (remote w)).

(** listRemotePinCmd.Run: what it emits, and its error *)
Definition listRemotePinCmd (cfgRoot : string) (service name : option string) (cids statuses : option (list string))
    : A (list RemotePinOutput * option string) :=
  _ ← getRemotePinServiceFromRequest cfgRoot service;
  '(pss, err) ← lsRemote name cids statuses;
  mret (toRemotePinOutput <$> pss, err).

(** rmRemotePinCmd.Run *)
Definition rmRemotePinCmd (cfgRoot : string) (service name : option string) (cids statuses : option (list string))
    (force : bool) (args : list string) : A unit :=
  _ ← getRemotePinServiceFromRequest cfgRoot service;
  match args with
  | [] =>
      '(pss, err) ← lsRemote name cids statuses;
      match err with
      | Some e => mthrow (EMsg ("error while listing remote pins: " +:+ e))
      | None =>
          let rmIDs := RequestId <$> pss in
          if (1 <? length rmIDs) && negb force then
            mthrow (EMsg "multiple remote pins are matching this query, add --force to confirm the bulk removal")
          else mfor rmIDs (λ rmID, mstate (λ w, match on_remote (pc_DeleteByID rmID) w with
                 | (Ok u, w') => (Ok u, w')
                 | (Err _, w') => (Err (EMsg ("removing pin identified by requestid=" +:+ rmID +:+ " failed")), w')
                 end))
      end
  | arg :: _ => mthrow (EMsg ("unexpected argument " +:+ arg))
  end.

(** [cfg.Pinning.RemoteServices = services]: [cfg] is the configuration the open
    repository holds. *)
Definition assign_services (services : option (gmap string RemotePinningService)) : M (RS (C := C)) RErr unit :=
  mmodify (λ s, mkRS (rw s) (mkFSRepo (closed (rr s)) (path (rr s)) (set_RemoteServices (config (rr s)) services)
                                      (ds (rr s)) (filemgr (rr s)))).

Definition save : M (RS (C := C)) RErr unit := λ s, SetConfig env (config (rr s)) s.

(** addRemotePinServiceCmd.Run *)
Definition addRemotePinServiceCmd (cfgRoot : string) (args : list string) : A unit :=
  in_repo cfgRoot (
    match args with
    | name :: endpoint :: key :: _ =>
        endpoint ← mlift (normalizeEndpoint endpoint);
        cfg ← Config;
        let services := default ∅ (RemoteServices cfg) in
        if decide (is_Some (services !! name)) then mthrow (EMsg "service already present")
        else _ ← assign_services (Some (<[name := mkService endpoint key]> services)); save
    | _ => mthrow (EMsg "expecting three arguments: service name, endpoint and key")
    end).

(** rmRemotePinServiceCmd.Run *)
Definition rmRemotePinServiceCmd (cfgRoot : string) (args : list string) : A unit :=
  in_repo cfgRoot (
    match args with
    | [name] =>
        cfg ← Config;
        _ ← (match RemoteServices cfg with
             | Some services => assign_services (Some (delete name services))
             | None => mret ()
             end);
        save
    | _ => mthrow (EMsg "expecting one argument: name")
    end).

(** Stat and ServiceDetails *)
Record PinCount := mkPinCount { Queued : Z; Pinning : Z; Pinned : Z; Failed : Z }.
Record ServiceDetails := mkDetails { Service : string; ApiEndpoint : string; Stat : option (option PinCount) }.

(** lsRemotePinCount: four requests at a time, the counts when all answer *)
Definition lsRemotePinCount (cfgRoot svcName : string) : A PinCount :=
  _ ← getRemotePinService cfgRoot svcName;
  w ← mget;
  q ← of_string (pc_Count "queued" (remote w));
  p ← of_string (pc_Count "pinning" (remote w));
  d ← of_string (pc_Count "pinned" (remote w));
  f ← of_string (pc_Count "failed" (remote w));
  mret (mkPinCount q p d f).

(** PinServicesList.Less *)
Definition service_le (a b : ServiceDetails) : Prop := String.leb (Service a) (Service b) = true.
#[export] Instance service_le_dec a b : Decision (service_le a b).
Proof. unfold service_le. apply _. Defined.

(** The loop of lsRemotePinServiceCmd.Run over the services; the repository is
    shared with the one that is open already. *)
Fixpoint list_services (stat : bool) (count : string → A PinCount) (services : list (string * RemotePinningService)) : A (list ServiceDetails) :=
  match services with
  | [] => mret []
  | (svcName, svcConfig) :: services' =>
      st ← (if stat then mstate (λ w, match count svcName w with
                                      | (Ok pc, w') => (Ok (Some (Some pc)), w')
                                      | (Err _, w') => (Ok (Some None), w')
                                      end)
            else mret None);
      rest ← list_services stat count services';
      mret (mkDetails svcName (Endpoint svcConfig) st :: rest)
  end.

(** lsRemotePinServiceCmd.Run *)
Definition lsRemotePinServiceCmd (cfgRoot : string) (stat : bool) (order : gmap string RemotePinningService → list (string * RemotePinningService))
    : A (list ServiceDetails) :=
  cfg ← in_repo cfgRoot Config;
  match RemoteServices cfg with
  | None => mret []
  | Some services =>
      result ← list_services stat (lsRemotePinCount cfgRoot) (order services);
      mret (merge_sort service_le result)
  end.

End remote.

(** ** What the commands do to the service *)

(** The pins a service holds, by request ID; a listing has those its filter
    selects.  A failed deletion may have reached the service. *)
Class PinClientLaws (R : Type) `{PinClient R} (pins : R → gmap string PinStatus) (selects : Filter → PinStatus → Prop) := {
  Ls_selected f r l : pc_Ls f r = (l, None) →
    ∀ ps, ps ∈ l ↔ pins r !! RequestId ps = Some ps ∧ selects f ps;
  DeleteByID_pins id r x r' : pc_DeleteByID id r = (x, r') →
    pins r' = delete id (pins r) ∨ (is_err x = true ∧ pins r' = pins r);
}.

Section remote_laws.
Context (env : Env) (X : RepoEnv) {C : Type} `{ConfigPkg C} `{!RemoteConfig C} {R : Type} `{!PinClient R} (E : RemoteEnv).

Lemma in_repo_remote {B} root (body : M (RS (C := C)) RErr B) (w : RW R) r w' :
  in_repo env X root body w = (r, w') → remote w' = remote w.
Proof.
  unfold in_repo. destruct (open _ _ _ _) as [[rp|e] w1]; [|by intros [= _ <-]].
  destruct (body _) as [x s]. by intros [= _ <-].
Qed.

Lemma service_remote cfgRoot service (w : RW R) r w' :
  getRemotePinServiceFromRequest env X E cfgRoot service w = (r, w') → remote w' = remote w.
Proof.
  destruct service as [name|]; simpl; [|by intros [= _ <-]]. unfold getRemotePinService.
  case_decide; [by intros [= _ <-]|]. rewrite bind_unfold.
  destruct (getRemotePinServiceInfo _ _ _ _ _ w) as [[a|e] w1] eqn:Hi; intros [= _ <-];
    by apply in_repo_remote in Hi.
Qed.

(** What is removed: IDs of [l], and nothing else is changed. *)
Context {pins : R → gmap string PinStatus} {selects : Filter → PinStatus → Prop} `{!PinClientLaws R pins selects}.

Lemma delete_ids (l : list string) (w : RW R) r w' :
  mfor l (λ rmID, mstate (λ w, match on_remote (pc_DeleteByID rmID) w with
     | (Ok u, w') => (Ok u, w')
     | (Err _, w') => (Err (EMsg ("removing pin identified by requestid=" +:+ rmID +:+ " failed")), w')
     end)) w = (r, w') →
  (∀ id, pins (remote w') !! id = pins (remote w) !! id ∨ (id ∈ l ∧ pins (remote w') !! id = None)) ∧
  (r = Ok () → ∀ id, id ∈ l → pins (remote w') !! id = None).
Proof.
  revert w. induction l as [|x l IH]; intros w; simpl.
  - intros [= <- <-]. split; [auto|]. intros _ id Hid. by apply elem_of_nil in Hid.
  - rewrite bind_unfold. unfold mstate at 1, on_remote at 1.
    destruct (pc_DeleteByID x (remote w)) as [y rem] eqn:Hd. apply DeleteByID_pins in Hd.
    assert (∀ id, pins rem !! id = pins (remote w) !! id ∨ (id = x ∧ pins rem !! id = None)) as Hx.
    { intros id. destruct Hd as [->|[_ ->]]; [|auto]. destruct (decide (id = x)) as [->|]; simplify_map_eq; auto. }
    destruct y as [[]|e].
    + intros [Hk Ho]%IH. destruct Hd as [Hd|[[=] _]]. split.
      * intros id. destruct (Hk id) as [->|[? ?]]; [|right; split; [by right|done]].
        destruct (Hx id) as [?|[-> ?]]; [by left|right; split; [by left|done]].
      * intros -> id [->|Hid]%elem_of_cons; [|by apply Ho].
        destruct (Hk x) as [->|[_ ?]]; [|done]. simpl. rewrite Hd. by simplify_map_eq.
    + intros [= <- <-]. split; [|done]. intros id. simpl.
      destruct (Hx id) as [?|[-> ?]]; [by left|right; split; [by left|done]].
Qed.

(** What a removal asks the service to remove: the pins that the name, the CIDs that
    the texts given stand for, and the statuses given, each a known one, select. *)
Definition asked_for (name : option string) (cids statuses : option (list string)) (r : R) (id : string) : Prop :=
  ∃ cs ps, Forall2 (λ t c, rcid_Decode E t = Ok c) (default [] cids) cs ∧
    Forall (λ st, st ∈ valid_statuses) (default [] statuses) ∧
    pins r !! id = Some ps ∧ RequestId ps = id ∧ selects (mkFilter name cs (default [] statuses)) ps.

Lemma parse_cids_ok raw cs : parse_cids E raw = Ok cs ↔ Forall2 (λ t c, rcid_Decode E t = Ok c) raw cs.
Proof.
  revert cs. induction raw as [|t raw IH]; intros cs; simpl.
  { split; [intros [= <-]; constructor|]. by intros ->%Forall2_nil_inv_l. }
  destruct (rcid_Decode E t) as [c|e] eqn:Ht.
  2: { split; [done|]. intros (c & ? & Hc & _)%Forall2_cons_inv_l. congruence. }
  destruct (parse_cids E raw) as [cs'|e] eqn:Hr; simpl.
  - split; [intros [= <-]; constructor; [done|by apply IH]|].
    intros (c' & cs2 & Hc & H2%IH & ->)%Forall2_cons_inv_l. injection H2 as ->.
    assert (c' = c) as -> by congruence. done.
  - split; [done|]. by intros (c' & cs2 & Hc & H2%IH & ->)%Forall2_cons_inv_l.
Qed.

Lemma parse_statuses_ok raw ss : parse_statuses raw = Ok ss ↔ ss = raw ∧ Forall (λ st, st ∈ valid_statuses) raw.
Proof.
  revert ss. induction raw as [|t raw IH]; intros ss; simpl.
  { split; [intros [= <-]; by split|by intros [-> _]]. }
  rewrite Forall_cons. destruct (decide (t ∈ valid_statuses)) as [Ht|Ht]; [|naive_solver].
  destruct (parse_statuses raw) as [ss'|e] eqn:Hr; simpl.
  - destruct (proj1 (IH ss') eq_refl) as [-> Hv]. split; [by intros [= <-]|by intros [-> _]].
  - split; [done|]. intros [-> [_ Hv]]. enough (Err e = Ok raw) by done. by apply IH.
Qed.

Lemma lsRemote_filter_ok name cids statuses f : lsRemote_filter E name cids statuses = Ok f ↔
  ∃ cs, f = mkFilter name cs (default [] statuses) ∧ Forall2 (λ t c, rcid_Decode E t = Ok c) (default [] cids) cs ∧
    Forall (λ st, st ∈ valid_statuses) (default [] statuses).
Proof.
  unfold lsRemote_filter.
  assert ((match cids with Some raw => parse_cids E raw | None => Ok [] end) = parse_cids E (default [] cids)) as -> by (by destruct cids).
  assert ((match statuses with Some raw => parse_statuses raw | None => Ok [] end) = parse_statuses (default [] statuses)) as -> by (by destruct statuses).
  setoid_rewrite <- parse_cids_ok.
  destruct (parse_cids E (default [] cids)) as [cs|e]; simpl; [|naive_solver].
  destruct (parse_statuses (default [] statuses)) as [ss|e] eqn:Hs; simpl.
  - apply parse_statuses_ok in Hs as [-> Hv]. split; [intros [= <-]; by exists cs|].
    intros (cs' & -> & Hc & _). by injection Hc as ->.
  - split; [done|]. intros (cs' & _ & _ & Hv). enough (Err e = Ok (default [] statuses)) by done.
    rewrite <- Hs. by apply parse_statuses_ok.
Qed.

Lemma rmRemote_inv cfgRoot service name cids statuses force args (w : RW R) r w' :
  rmRemotePinCmd env X E cfgRoot service name cids statuses force args w = (r, w') →
  (remote w' = remote w ∧ r ≠ Ok ()) ∨
  ∃ f pss, lsRemote_filter E name cids statuses = Ok f ∧ pc_Ls f (remote w) = (pss, None) ∧
    (force = false → length pss ≤ 1) ∧
    (∀ id, pins (remote w') !! id = pins (remote w) !! id ∨ (id ∈ RequestId <$> pss ∧ pins (remote w') !! id = None)) ∧
    (r = Ok () → ∀ id, id ∈ RequestId <$> pss → pins (remote w') !! id = None).
Proof.
  unfold rmRemotePinCmd. rewrite bind_unfold.
  destruct (getRemotePinServiceFromRequest _ _ _ _ _ w) as [[[]|e] w1] eqn:Hs; apply service_remote in Hs;
    [|by intros [= <- <-]; left].
  destruct args; [|by intros [= <- <-]; left].
  rewrite bind_unfold. unfold lsRemote at 1. rewrite bind_unfold. unfold mlift at 1.
  destruct (lsRemote_filter E name cids statuses) as [f|e] eqn:Hf; [|by intros [= <- <-]; left].
  rewrite bind_unfold. cbv beta iota delta [mget mret M_ret].
  destruct (pc_Ls f (remote w1)) as [pss [e|]] eqn:Hl; [by intros [= <- <-]; left|].
  rewrite length_fmap. destruct ((1 <? length pss) && negb force) eqn:Hb; [by intros [= <- <-]; left|].
  intros [Hk Ho]%delete_ids. right. exists f, pss. rewrite Hs in *. split_and!; try done.
  intros ->. rewrite andb_true_r in Hb. by apply Nat.ltb_ge in Hb.
Qed.
End remote_laws.

(** C38.  `ipfs pin remote rm` only ever removes pins that its query selects.  If it
    succeeds every selected pin is gone and every other one is as it was; if it
    fails, some selected ones may be gone.  Without --force at most one pin is
    removed, whatever happens. *)
Theorem rmRemotePinCmd_exact env X {C} `{ConfigPkg C} `{!RemoteConfig C} {R} `{!PinClient R} (E : RemoteEnv)
    {pins selects} `{!PinClientLaws R pins selects} cfgRoot service name cids statuses force args (w : RW R) r w' :
  rmRemotePinCmd env X E cfgRoot service name cids statuses force args w = (r, w') →
  let asked := asked_for E (pins := pins) (selects := selects) name cids statuses (remote w) in
  (∀ id, pins (remote w') !! id = pins (remote w) !! id ∨ (asked id ∧ pins (remote w') !! id = None)) ∧
  (r = Ok () → ∀ id, asked id → pins (remote w') !! id = None) ∧
  (force = false → ∀ id1 id2, pins (remote w') !! id1 ≠ pins (remote w) !! id1 →
                              pins (remote w') !! id2 ≠ pins (remote w) !! id2 → id1 = id2).
Proof.
  intros [[-> Hr]|(f & pss & Hf & Hl & Hforce & Hk & Ho)]%(rmRemote_inv env X E); [naive_solver|].
  pose proof (Ls_selected _ _ _ Hl) as Hsel. cbv zeta.
  assert (∀ id, id ∈ RequestId <$> pss ↔
    asked_for E (pins := pins) (selects := selects) name cids statuses (remote w) id) as Hasked.
  { intros id. rewrite list_elem_of_fmap. split.
    - intros (ps & -> & [Hp Hs]%Hsel). apply lsRemote_filter_ok in Hf as (cs & -> & Hc & Hv). by exists cs, ps.
    - intros (cs & ps & Hc & Hv & Hp & <- & Hs). exists ps. split; [done|]. apply Hsel. split; [done|].
      assert (lsRemote_filter E name cids statuses = Ok (mkFilter name cs (default [] statuses))) as Hf'
        by (apply lsRemote_filter_ok; eauto). congruence. }
  split_and!.
  - intros id. rewrite <- Hasked. apply Hk.
  - intros Hr id Hid%Hasked. by apply Ho.
  - intros Hno id1 id2 H1 H2. specialize (Hforce Hno).
    destruct (Hk id1) as [?|[Hid1 _]]; [done|]. destruct (Hk id2) as [?|[Hid2 _]]; [done|].
    destruct pss as [|p [|p' pss]]; simpl in Hforce; [by apply elem_of_nil in Hid1| |lia].
    apply list_elem_of_singleton in Hid1, Hid2. congruence.
Qed.

(** ** Waiting for a pin *)

(** The service after [n] status requests, and what it answers to the next one *)
Fixpoint after_polls {R} `{PinClient R} (id : string) (n : nat) (r : R) : R :=
  match n with 0 => r | S n' => after_polls id n' (pc_GetStatusByID id r).2 end.

Definition poll {R} `{PinClient R} (id : string) (n : nat) (r : R) : res string PinStatus :=
  (pc_GetStatusByID id (after_polls id n r)).1.

(** An answer after which the command asks again *)
Definition pending (id : string) (a : res string PinStatus) : Prop :=
  ∃ ps, a = Ok ps ∧ RequestId ps = id ∧ Status ps ≠ "pinned" ∧ Status ps ≠ "failed".

#[export] Instance pending_dec id a : Decision (pending id a).
Proof.
  refine (match a with
          | Ok ps => cast_if (decide (RequestId ps = id ∧ Status ps ≠ "pinned" ∧ Status ps ≠ "failed"))
          | Err _ => right _
          end); unfold pending; naive_solver.
Defined.

Section waiting.
Context {R : Type} `{!PinClient R}.

(** What the command makes of an answer that is not pending *)
Definition settle (id : string) (a : res string PinStatus) : res RErr PinStatus :=
  match a with
  | Err _ => Err (EMsg ("failed to check pin status for requestid=" +:+ id))
  | Ok ps =>
      if decide (RequestId ps ≠ id) then
        Err (EMsg ("failed to check pin status for requestid=" +:+ id +:+
                   ", remote service sent unexpected requestid=" +:+ RequestId ps))
      else if decide (Status ps = "pinned") then Ok ps
      else Err (EMsg ("remote service failed to pin requestid=" +:+ id))
  end.

Lemma wait_step fuel wait n id (w : RW R) :
  wait_pinned (S fuel) wait n id w =
    let a := poll id 0 (remote w) in
    let w' := mkRW (repoW w) (after_polls id 1 (remote w)) in
    if decide (pending id a) then
      if wait n then (Err (EMsg ("waiting for pin interrupted, requestid=" +:+ id +:+ " remains on remote service")), w')
      else wait_pinned fuel wait (S n) id w'
    else (settle id a, w').
Proof.
  destruct w as [rw r]. unfold poll. cbn [wait_pinned after_polls remote repoW].
  rewrite !bind_unfold. unfold mstate, on_remote. cbn [remote repoW].
  destruct (pc_GetStatusByID id r) as [[ps|e] r'] eqn:Hg; simpl.
  - destruct (decide (pending id (Ok ps))) as [(ps' & [= <-] & Hid & Hp & Hf)|Hn].
    + repeat case_decide; try done. by destruct (wait n).
    + unfold settle. repeat case_decide; try done. exfalso. apply Hn. exists ps. naive_solver.
  - destruct (decide (pending id (Err e))) as [(? & [=] & _)|]; done.
Qed.

Lemma settle_ok id a ps : settle id a = Ok ps ↔ a = Ok ps ∧ RequestId ps = id ∧ Status ps = "pinned".
Proof. unfold settle. destruct a as [ps'|]; repeat case_decide; naive_solver. Qed.

(** The polls that end the wait *)
Lemma wait_inv fuel wait n id (w : RW R) ps w' :
  wait_pinned fuel wait n id w = (Ok ps, w') →
  ∃ k, k < fuel ∧ poll id k (remote w) = Ok ps ∧ RequestId ps = id ∧ Status ps = "pinned" ∧
    remote w' = after_polls id (S k) (remote w) ∧
    ∀ j, j < k → pending id (poll id j (remote w)) ∧ wait (n + j) = false.
Proof.
  revert n w. induction fuel as [|fuel IH]; intros n w; [by intros [=]|].
  rewrite wait_step. cbv zeta. case_decide as Hp.
  - destruct (wait n) eqn:Hw; [by intros [=]|].
    intros (k & Hk & Ha & Hid & Hst & Hw' & Hbefore)%IH.
    exists (S k). split_and!; [lia|exact Ha|done..|exact Hw'|].
    intros [|j] Hj; [rewrite Nat.add_0_r; by split|].
    replace (n + S j) with (S n + j) by lia. apply (Hbefore j). lia.
  - intros [= Hs <-]. apply settle_ok in Hs as (Ha & Hid & Hst). exists 0.
    split; [lia|]. split; [done|]. split; [done|]. split; [done|]. split; [done|]. intros; lia.
Qed.

Lemma wait_reaches fuel wait n id (w : RW R) k ps :
  k < fuel → poll id k (remote w) = Ok ps → RequestId ps = id → Status ps = "pinned" →
  (∀ j, j < k → pending id (poll id j (remote w)) ∧ wait (n + j) = false) →
  wait_pinned fuel wait n id w = (Ok ps, mkRW (repoW w) (after_polls id (S k) (remote w))).
Proof.
  revert n w k. induction fuel as [|fuel IH]; intros n w k Hk Ha Hid Hst Hb; [lia|].
  rewrite wait_step. cbv zeta. destruct k as [|k].
  - rewrite decide_False by (rewrite Ha; intros (? & [= <-] & _ & Hn & _); exact (Hn Hst)). f_equal. by apply settle_ok.
  - destruct (Hb 0) as [Hp Hw]; [lia|]. rewrite decide_True by exact Hp.
    rewrite Nat.add_0_r in Hw. rewrite Hw. rewrite (IH (S n) _ k); [done|lia|exact Ha|done..|].
    intros j Hj. destruct (Hb (S j)) as [? Hw']; [lia|]. split; [done|]. by rewrite <- Nat.add_succ_comm in Hw'.
Qed.

(** However the answers go, the wait ends when it is interrupted or one is final. *)
Lemma wait_ends fuel fuel' wait n id (w : RW R) k :
  k < fuel → k < fuel' → ¬ pending id (poll id k (remote w)) ∨ wait (n + k) = true →
  wait_pinned fuel wait n id w = wait_pinned fuel' wait n id w.
Proof.
  revert fuel' n w k. induction fuel as [|fuel IH]; intros [|fuel'] n w k H1 H2 Hend; [lia..|].
  rewrite (wait_step fuel), (wait_step fuel'). cbv zeta. case_decide as Hp; [|done].
  destruct (wait n) eqn:Hw; [done|]. destruct k as [|k].
  { rewrite Nat.add_0_r in Hend. destruct Hend; congruence. }
  apply (IH _ _ _ k); [lia..|]. by rewrite Nat.add_succ_comm.
Qed.
End waiting.

Section adding.
Context (env : Env) (X : RepoEnv) {C : Type} `{ConfigPkg C} `{!RemoteConfig C} {R : Type} `{!PinClient R} (E : RemoteEnv).

Lemma of_string_ok {S B} (r : res string B) (s : S) b s' : of_string r s = (Ok b, s') → r = Ok b ∧ s' = s.
Proof. destruct r; [by intros [= -> ->]|by intros [=]]. Qed.

Lemma delegates_keep (l : list string) (w : RW R) r w' :
  mfor l (λ d, _ ← of_string (AddrInfoFromP2pAddr E d); mret ()) w = (r, w') → w' = w.
Proof.
  apply (mfor_inv (λ w', w' = w)); [|done]. intros d s r0 s' _ ->. rewrite bind_unfold.
  unfold of_string, mlift. destruct (AddrInfoFromP2pAddr E d); by intros [= _ <-].
Qed.

(** What a successful addition did up to the wait *)
Lemma add_inv cfgRoot service name background args fuel wait (w : RW R) out w' :
  addRemotePinCmd env X E cfgRoot service name background args fuel wait w = (Ok out, w') →
  ∃ arg c origins ps0 rem w1 ps, args = [arg] ∧ rResolvePath E arg = Ok c ∧ pin_origins E c = Ok origins ∧
    pc_Add c name origins (remote w) = (Ok ps0, rem) ∧ remote w1 = rem ∧ out = toRemotePinOutput ps ∧
    (if background then mret ps0 else wait_pinned fuel wait 0 (RequestId ps0)) w1 = (Ok ps, w').
Proof.
  unfold addRemotePinCmd. intros (? & w0 & Hs%service_remote & Hr)%bind_ok.
  destruct args as [|arg [|]]; [done| |done].
  apply bind_ok in Hr as (c & ? & [Hc ->]%of_string_ok & Hr). apply bind_ok in Hr as (o & ? & [Ho ->]%of_string_ok & Hr).
  apply bind_ok in Hr as (ps0 & w1 & Ha & Hr). apply bind_ok in Hr as (? & ? & ->%delegates_keep & Hr).
  apply bind_ok in Hr as (ps & w2 & Hw & [= <- <-]).
  unfold on_remote in Ha. rewrite Hs in Ha. destruct (pc_Add c name o (remote w)) as [[y|e] rem] eqn:Hadd; [|done].
  injection Ha as <- <-. exists arg, c, o, y, rem, (mkRW (repoW w0) rem), ps. repeat (split; [done|]). exact Hw.
Qed.

Lemma add_fuel cfgRoot service name background args fuel fuel' wait (w : RW R) k :
  k < fuel → k < fuel' →
  (∀ c origins ps0 rem, pc_Add c name origins (remote w) = (Ok ps0, rem) →
     ¬ pending (RequestId ps0) (poll (RequestId ps0) k rem) ∨ wait k = true) →
  addRemotePinCmd env X E cfgRoot service name background args fuel wait w =
  addRemotePinCmd env X E cfgRoot service name background args fuel' wait w.
Proof.
  intros H1 H2 Hend. unfold addRemotePinCmd. rewrite !bind_unfold.
  destruct (getRemotePinServiceFromRequest _ _ _ _ _ w) as [[[]|] w0] eqn:Hs; [|done]. apply service_remote in Hs.
  destruct args as [|arg [|]]; [done| |done]. rewrite !bind_unfold.
  destruct (of_string (rResolvePath E arg) w0) as [[c|] ?] eqn:Hc; [|done]. apply of_string_ok in Hc as [_ ->].
  rewrite !bind_unfold. destruct (of_string (pin_origins E c) w0) as [[o|] ?] eqn:Ho; [|done].
  apply of_string_ok in Ho as [_ ->]. rewrite !bind_unfold. unfold on_remote. rewrite Hs.
  destruct (pc_Add c name o (remote w)) as [[ps0|] rem] eqn:Ha; [|done].
  rewrite !bind_unfold. destruct (mfor _ _ _) as [[[]|] w1] eqn:Hd; [|done]. apply delegates_keep in Hd as ->.
  rewrite !bind_unfold. destruct background; [done|].
  by rewrite (wait_ends fuel fuel' wait 0 _ _ k) by eauto.
Qed.
End adding.

(** `ipfs pin remote add` sends the service the CID its argument resolves to.
    With --background it prints the accepted request; without, it succeeds only once the
    service, asked for that very request, answers "pinned", every answer before being
    still pending, and prints that answer.  When an answer settles the request or a wait
    is interrupted the command ends: more turns of the loop change nothing. *)
Theorem addRemotePinCmd_waits env X {C} `{ConfigPkg C} `{!RemoteConfig C} {R} `{!PinClient R} (E : RemoteEnv)
    cfgRoot service name background args fuel wait (w : RW R) :
  (∀ out w', addRemotePinCmd env X E cfgRoot service name background args fuel wait w = (Ok out, w') →
     ∃ arg c origins ps0 rem, args = [arg] ∧ rResolvePath E arg = Ok c ∧ pin_origins E c = Ok origins ∧
       pc_Add c name origins (remote w) = (Ok ps0, rem) ∧
       if background then out = toRemotePinOutput ps0 ∧ remote w' = rem
       else ∃ k ps, k < fuel ∧ poll (RequestId ps0) k rem = Ok ps ∧ RequestId ps = RequestId ps0 ∧
         Status ps = "pinned" ∧ out = toRemotePinOutput ps ∧ remote w' = after_polls (RequestId ps0) (S k) rem ∧
         ∀ j, j < k → pending (RequestId ps0) (poll (RequestId ps0) j rem) ∧ wait j = false) ∧
  (∀ fuel' k, k < fuel → k < fuel' →
     (∀ c origins ps0 rem, pc_Add c name origins (remote w) = (Ok ps0, rem) →
        ¬ pending (RequestId ps0) (poll (RequestId ps0) k rem) ∨ wait k = true) →
     addRemotePinCmd env X E cfgRoot service name background args fuel wait w =
     addRemotePinCmd env X E cfgRoot service name background args fuel' wait w).
Proof.
  split; [|intros; by eapply add_fuel].
  intros out w' (arg & c & o & ps0 & rem & w1 & ps & -> & Hc & Ho & Ha & <- & -> & Hw)%add_inv.
  exists arg, c, o, ps0, (remote w1). split; [done|]. split; [done|]. split; [done|]. split; [done|].
  destruct background; [by injection Hw as <- <-|].
  apply wait_inv in Hw as (k & Hk & Hp & Hid & Hst & Hr & Hb). by exists k, ps.
Qed.

(** ** A service and its pins *)

Module RemoteExample.

(** Status and CID of each request; a queued one is pinned once it was asked for. *)
Abbreviation Pins := (gmap string (string * string)).
Definition pin_status (id : string) (x : string * string) : PinStatus := mkPS id x.1 x.2 "" [].
Definition pins (r : Pins) : gmap string PinStatus := map_imap (λ id x, Some (pin_status id x)) r.
Definition selects (f : Filter) (ps : PinStatus) : Prop := Status ps ∈ fStatus f.
#[global] Instance selects_dec f ps : Decision (selects f ps).
Proof. unfold selects. apply _. Defined.

#[global] Instance client : PinClient Pins := {|
  pc_Add c _ _ r := (Ok (pin_status "new" ("queued", "c")), <["new" := ("queued", "c")]> r);
  pc_GetStatusByID id r := match r !! id with
                           | Some (st, c) => (Ok (pin_status id (st, c)), <[id := ("pinned", c)]> r)
                           | None => (Err "404", r)
                           end;
  pc_Ls f r := (filter (selects f) ((λ e, pin_status e.1 e.2) <$> map_to_list r), None);
  pc_DeleteByID id r := if decide (id = "held") then (Err "403", r) else (Ok (), delete id r);
  pc_Count _ _ := Err "500" |}.

#[global] Instance client_laws : PinClientLaws Pins pins selects.
Proof.
  split.
  - intros f r l [= <-] ps. rewrite list_elem_of_filter, list_elem_of_fmap. unfold pins. rewrite map_lookup_imap.
    split.
    + intros (Hs & [id x] & -> & Hx%elem_of_map_to_list). simpl in *. rewrite Hx. by split.
    + intros [Hp Hs]. split; [done|]. apply bind_Some in Hp as (x & Hx & Hp).
      injection Hp as Hp. exists (RequestId ps, x). split; [done|].
      by apply elem_of_map_to_list.
  - intros id r x r'. simpl. case_decide; intros [= <- <-]; [by right|left].
    apply map_eq. intros i. unfold pins. rewrite map_lookup_imap.
    destruct (decide (id = i)) as [->|Hne].
    + by rewrite !lookup_delete_eq.
    + by rewrite !lookup_delete_ne, map_lookup_imap.
Qed.

#[global] Instance remote_config : RemoteConfig RepoExample.Conf := {|
  RemoteServices _ := Some {["srv" := mkService "https://host/v1/" "key"]};
  set_RemoteServices c _ := c |}.

Definition E : RemoteEnv := {|
  ParseRequestURI s := Some (mkEndpoint "https" "host" (sdrop 12 s) "");
  url_String u := eScheme u +:+ "://" +:+ eHost u +:+ ePath u;
  rResolvePath p := Ok (CidV1 Raw (mkMultihash mh_ID "c")); rcid_Decode s := Ok (CidV1 Raw (mkMultihash mh_ID "c"));
  Blockstore_Has _ := Ok true; host_addrs := Some (Ok ["/ip4/1.2.3.4/p2p/me"]);
  AddrInfoFromP2pAddr s := Ok s |}.

End RemoteExample.

Lemma rmRemotePinCmd_exact_witness :
  let w := mkRW (Init RepoExample.env RepoExample.X "/repo" RepoExample.conf RepoExample.w0).2
                (<["a" := ("pinned", "c")]> (<["b" := ("queued", "c")]> ∅)) in
  let run := rmRemotePinCmd (C := RepoExample.Conf) RepoExample.env RepoExample.X RemoteExample.E "/repo" (Some "srv") None None
               (Some ["pinned"]) false [] w in
  run.1 = Ok () ∧ RemoteExample.pins (remote run.2) !! "a" = None.
Proof.
  cbv zeta. set (w := mkRW _ _).
  assert ((rmRemotePinCmd (C := RepoExample.Conf) RepoExample.env RepoExample.X RemoteExample.E "/repo" (Some "srv") None None
             (Some ["pinned"]) false [] w).1 = Ok ()) as Hrun by by vm_compute.
  split; [exact Hrun|].
  destruct (rmRemotePinCmd_exact (C := RepoExample.Conf) RepoExample.env RepoExample.X RemoteExample.E "/repo" (Some "srv") None None
    (Some ["pinned"]) false [] w _ _ (surjective_pairing _)) as (_ & Hgone & _).
  apply Hgone; [exact Hrun|]. exists [], (RemoteExample.pin_status "a" ("pinned", "c")).
  split_and!; [constructor|by repeat constructor|done|done|]. repeat split. by left.
Defined.

Lemma addRemotePinCmd_waits_witness :
  let w := mkRW (Init RepoExample.env RepoExample.X "/repo" RepoExample.conf RepoExample.w0).2 (∅ : RemoteExample.Pins) in
  let run fuel := addRemotePinCmd (C := RepoExample.Conf) RepoExample.env RepoExample.X RemoteExample.E "/repo" (Some "srv") None false
                    ["/ipfs/c"] fuel (λ _, false) w in
  (run 2).1 = Ok (mkRemoteOut "pinned" "c" "") ∧ (∀ fuel, 2 ≤ fuel → run 2 = run fuel).
Proof.
  cbv zeta. set (w := mkRW _ _). split; [by vm_compute|]. intros fuel Hfuel.
  destruct (addRemotePinCmd_waits (C := RepoExample.Conf) RepoExample.env RepoExample.X RemoteExample.E "/repo" (Some "srv") None false
    ["/ipfs/c"] 2 (λ _, false) w) as [_ Hends].
  apply (Hends fuel 1); [lia|lia|]. intros c o ps0 rem [= <- <-]. left. intros (ps & Hp & _ & Hn & _).
  injection Hp as <-. by apply Hn.
Defined.

(** ** Endpoints *)

(** A path that ends in a dot loses it, and one that ends in two loses another one
    every time the stored endpoint is used. *)
Theorem normalize_path_drops_dots :
  normalize_path "/v1." = "/v1" ∧ normalize_path "/v1.." = "/v1." ∧
  normalize_path (normalize_path "/v1..") ≠ normalize_path "/v1..".
Proof. split_and!; by vm_compute. Qed.
