(* ===== verification/DagEdit.v ===== *)
(** * Editing Merkle DAGs (vendor/github.com/ipfs/go-merkledag)

    ProtoNode (node.go, coding.go), the DAG service as the blocks it holds, the
    editor of dagutils/utils.go that changes a node below a path, and the
    difference of two DAGs of dagutils/diff.go.  What a block's bytes are and how
    they hash is the codec's business: [Sum] gives the CID of a content, and
    contents that share a CID are equal. *)

From Stdlib Require Import ZArith Ascii String.
From stdpp Require Import base gmap sets list strings.
From S2P Require Import Prelude GoStrings GoFS.

(** ** Nodes *)

(** ipld.Link *)
Record Link (K : Type) := mkLink { Name : string; Size : Z; lCid : K }.
Arguments mkLink {K}. Arguments Name {K}. Arguments Size {K}. Arguments lCid {K}.

(** What a protobuf block encodes: the Data field, which may be absent, and the links *)
Definition Content (K : Type) : Type := option string * list (Link K).

(** merkledag.ProtoNode; [encoded] is what the cached encoding holds. *)
Record ProtoNode (K B : Type) := mkPN {
  pdata : option string;
  plinks : list (Link K);
  encoded : option (Content K);
  builder : option B;
}.
Arguments mkPN {K B}. Arguments pdata {K B}. Arguments plinks {K B}. Arguments encoded {K B}. Arguments builder {K B}.

(** A block: a protobuf one, or one of another codec with its links and size *)
Inductive Block (K : Type) := PB (x : Content K) | OtherBlock (ls : list (Link K)) (sz : Z).
Arguments PB {K}. Arguments OtherBlock {K}.

(** ipld.Node *)
Inductive INode (K B : Type) := NProto (p : ProtoNode K B) | NOther (c : K) (ls : list (Link K)) (sz : Z).
Arguments NProto {K B}. Arguments NOther {K B}.

Inductive OErr := ErrLinkNotFound | ErrNotFound | ErrNotProtobuf | OFuel | OMsg (msg : string).

#[global] Instance OErr_eq_dec : EqDecision OErr.
Proof. solve_decision. Defined.

(** The CIDs and the encoding of go-cid and go-codec-dagpb *)
Class DagCodec (K B : Type) := {
  v0CidPrefix : B;
  Prefix : K → B;
  Sum : B → Content K → K;
  encLen : Content K → Z;
}.

(** No collisions; a CID's prefix makes CIDs as its builder does; a hash cannot be
    among what it is the hash of, so links go down. *)
Class DagCodecLaws (K B : Type) `{DagCodec K B} := {
  Sum_inj b b' x x' : Sum b x = Sum b' x' → x = x';
  Sum_Prefix b x y : Sum (Prefix (Sum b x)) y = Sum b y;
  height : K → nat;
  Sum_height b x l : l ∈ x.2 → height (lCid l) < height (Sum b x);
}.

Section nodes.
Context {K B : Type} `{!EqDecision K, !Countable K, !DagCodec K B}.

(** LinkSlice.Less and sort.Stable *)
Fixpoint insert_link (x : Link K) (l : list (Link K)) : list (Link K) :=
  match l with
  | [] => [x]
  | y :: l' => if String.leb (Name x) (Name y) then x :: y :: l' else y :: insert_link x l'
  end.
Definition sort_links (l : list (Link K)) : list (Link K) := foldr insert_link [] l.

(** EncodeProtobuf: the cached encoding, or that of the sorted links.  Sorting
    them in place shows in no later encoding. *)
Definition EncodeProtobuf (p : ProtoNode K B) : Content K := default (pdata p, sort_links (plinks p)) (encoded p).

(** ProtoNode.Cid *)
Definition pn_Cid (p : ProtoNode K B) : K := Sum (default v0CidPrefix (builder p)) (EncodeProtobuf p).

(** ProtoNode.Size, in uint64 *)
Definition pn_Size (p : ProtoNode K B) : Z :=
  foldl (λ s l, u64 (s + Size l)) (u64 (encLen (EncodeProtobuf p))) (plinks p).

Definition node_Cid (n : INode K B) : K := match n with NProto p => pn_Cid p | NOther c _ _ => c end.
Definition node_Size (n : INode K B) : Z := match n with NProto p => pn_Size p | NOther _ _ sz => sz end.
Definition node_Links (n : INode K B) : list (Link K) := match n with NProto p => plinks p | NOther _ ls _ => ls end.

(** AddNodeLink, with format.MakeLink *)
Definition AddNodeLink (name : string) (that : INode K B) (p : ProtoNode K B) : ProtoNode K B :=
  mkPN (pdata p) (plinks p ++ [mkLink name (node_Size that) (node_Cid that)]) None (builder p).

(** RemoveNodeLink: every link of the name; the links stay if there is none. *)
Definition RemoveNodeLink (name : string) (p : ProtoNode K B) : bool * ProtoNode K B :=
  let ref := filter (λ l, Name l ≠ name) (plinks p) in
  if decide (name ∈ (Name <$> plinks p)) then (true, mkPN (pdata p) ref None (builder p))
  else (false, mkPN (pdata p) (plinks p) None (builder p)).

(** GetNodeLink: the first link of the name *)
Definition GetNodeLink (name : string) (ls : list (Link K)) : option (Link K) :=
  List.find (λ l, bool_decide (Name l = name)) ls.

(** SetData, SetLinks, Copy *)
Definition SetData (d : string) (p : ProtoNode K B) : ProtoNode K B := mkPN (Some d) (plinks p) None (builder p).
Definition SetLinks (ls : list (Link K)) (p : ProtoNode K B) : ProtoNode K B := mkPN (pdata p) ls (encoded p) (builder p).
Definition Copy (p : ProtoNode K B) : ProtoNode K B :=
  mkPN (if decide (pdata p = Some "") then None else pdata p) (plinks p) None (builder p).

(** new(dag.ProtoNode) *)
Definition new_ProtoNode : ProtoNode K B := mkPN None [] None None.

(** ** Blocks *)

Definition block_of (n : INode K B) : Block K :=
  match n with NProto p => PB (EncodeProtobuf p) | NOther _ ls sz => OtherBlock ls sz end.

Definition block_Links (b : Block K) : list (Link K) := match b with PB x => x.2 | OtherBlock ls _ => ls end.

(** DecodeProtobufBlock, or the decoder of another codec *)
Definition decode_block (c : K) (b : Block K) : INode K B :=
  match b with
  | PB x => NProto (mkPN x.1 x.2 (Some x) (Some (Prefix c)))
  | OtherBlock ls sz => NOther c ls sz
  end.

(** DAGService.Get of what a service holds *)
Definition dag_Get (store : gmap K (Block K)) (c : K) : res OErr (INode K B) :=
  match store !! c with Some b => Ok (decode_block c b) | None => Err ErrNotFound end.

(** GetLinkedProtoNode *)
Definition GetLinkedProtoNode (get : K → res OErr (INode K B)) (name : string) (p : ProtoNode K B) : res OErr (ProtoNode K B) :=
  match GetNodeLink name (plinks p) with
  | None => Err ErrLinkNotFound
  | Some l => nd ← get (lCid l); match nd with NProto q => Ok q | NOther _ _ _ => Err ErrNotProtobuf end
  end.

(** ** The editor

    Its state is the temporary service, in memory; [src] is the service nodes are
    pulled from. *)
Context (src : K → res OErr (INode K B)).
Abbreviation Ed := (M (gmap K (Block K)) OErr).

Definition tmp_Add (n : INode K B) : Ed unit := mmodify <[node_Cid n := block_of n]>.
Definition tmp_Remove (c : K) : Ed unit := mmodify (delete c).

(** The node with the link of a name made to point at another *)
Definition relink (name : string) (that : INode K B) (root : ProtoNode K B) : ProtoNode K B :=
  AddNodeLink name that (RemoveNodeLink name root).2.

Definition addLink (root : ProtoNode K B) (childname : string) (childnd : INode K B) : Ed (ProtoNode K B) :=
  if decide (childname = "") then mthrow (OMsg "cannot create link with no name")
  else
    _ ← tmp_Add childnd;
    _ ← tmp_Remove (pn_Cid root);
    let root := relink childname childnd root in
    _ ← tmp_Add (NProto root);
    mret root.

(** The node below a link: from the temporary service, then from the source *)
Definition descend (create : option (ProtoNode K B)) (root : ProtoNode K B) (name : string) : Ed (ProtoNode K B) := λ tmp,
  (match GetLinkedProtoNode (dag_Get tmp) name root, create with
   | Err ErrLinkNotFound, Some nd => Ok nd
   | Err ErrNotFound, _ => GetLinkedProtoNode src name root
   | r, _ => r
   end, tmp).

Fixpoint insertNodeAtPath (root : ProtoNode K B) (path : list string) (toinsert : INode K B) (create : option (ProtoNode K B))
    : Ed (ProtoNode K B) :=
  match path with
  | [] => mthrow (OMsg "index out of range")
  | [name] => addLink root name toinsert
  | name :: rest =>
      nd ← descend create root name;
      ndprime ← insertNodeAtPath nd rest toinsert create;
      _ ← tmp_Remove (pn_Cid root);
      let root := relink name (NProto ndprime) root in
      _ ← tmp_Add (NProto root);
      mret root
  end.

Fixpoint rmLink (root : ProtoNode K B) (path : list string) : Ed (ProtoNode K B) :=
  match path with
  | [] => mthrow (OMsg "index out of range")
  | [name] =>
      match RemoveNodeLink name root with
      | (false, _) => mthrow ErrLinkNotFound
      | (true, root) => _ ← tmp_Add (NProto root); mret root
      end
  | name :: rest =>
      nd ← descend None root name;
      nnode ← rmLink nd rest;
      _ ← tmp_Remove (pn_Cid root);
      let root := relink name (NProto nnode) root in
      _ ← tmp_Add (NProto root);
      mret root
  end.

(** copyDag, from the temporary service to the node's; [add] is Add of the latter. *)
Fixpoint copyDag {W} (add : INode K B → M W OErr unit) (tmp : gmap K (Block K)) (fuel : nat) (nd : INode K B) : M W OErr unit :=
  match fuel with
  | 0 => mthrow OFuel
  | S fuel' =>
      _ ← add nd;
      mfor (node_Links nd) (λ lnk,
        match dag_Get tmp (lCid lnk) with
        | Ok child => copyDag add tmp fuel' child
        | Err ErrNotFound => mret ()
        | Err e => mthrow e
        end)
  end.

(** ** Differences *)

Inductive ChangeType := Add | Remove | Mod.
Record Change := mkChange { Type_ : ChangeType; cPath : string; Before : option K; After : option K }.

(** The links of the loop of Diff that both nodes have, with those that differ *)
Fixpoint Diff (fuel : nat) (a b : INode K B) : res OErr (list Change) :=
  match fuel with
  | 0 => Err OFuel
  | S fuel' =>
      if decide (node_Cid a = node_Cid b) then Ok []
      else
        match a, b with
        | NProto pa, NProto pb =>
            if decide (plinks pa = [] ∧ plinks pb = []) then Ok [mkChange Mod "" (Some (node_Cid a)) (Some (node_Cid b))]
            else
              '(out, cleanA, cleanB) ← foldl (λ st linkA,
                '(out, cleanA, cleanB) ← st;
                match GetNodeLink (Name linkA) (plinks pb) with
                | None => Ok (out, cleanA, cleanB)
                | Some linkB =>
                    let cleanA := (RemoveNodeLink (Name linkA) cleanA).2 in
                    let cleanB := (RemoveNodeLink (Name linkA) cleanB).2 in
                    if decide (lCid linkA = lCid linkB) then Ok (out, cleanA, cleanB)
                    else
                      nodeA ← src (lCid linkA);
                      nodeB ← src (lCid linkB);
                      sub ← Diff fuel' nodeA nodeB;
                      Ok (out ++ ((λ c, mkChange (Type_ c) (PathJoin (Name linkA) (cPath c)) (Before c) (After c)) <$> sub),
                          cleanA, cleanB)
                end) (Ok ([], Copy pa, Copy pb)) (plinks pa);
              Ok (out ++ ((λ l, mkChange Remove (Name l) (Some (lCid l)) None) <$> plinks cleanA)
                      ++ ((λ l, mkChange Add (Name l) None (Some (lCid l))) <$> plinks cleanB))
        | _, _ => Ok [mkChange Mod "" (Some (node_Cid a)) (Some (node_Cid b))]
        end
  end.

End nodes.
Arguments mkChange {K}. Arguments Type_ {K}. Arguments cPath {K}. Arguments Before {K}. Arguments After {K}.

(** ** Links by name *)

Section link_laws.
Context {K B : Type} `{!EqDecision K, !Countable K, !DagCodec K B}.
Implicit Types (p : ProtoNode K B) (l : list (Link K)).

Lemma find_cons (name : string) x l :
  GetNodeLink name (x :: l) = if decide (Name x = name) then Some x else GetNodeLink name l.
Proof. unfold GetNodeLink. simpl. case_bool_decide; case_decide; congruence. Qed.

Lemma find_app_none (name : string) l1 l2 :
  GetNodeLink name l1 = None → GetNodeLink name (l1 ++ l2) = GetNodeLink name l2.
Proof. unfold GetNodeLink. induction l1 as [|x l1 IH]; simpl; [done|]. case_bool_decide; [done|apply IH]. Qed.

Lemma find_app_some (name : string) l1 l2 x :
  GetNodeLink name l1 = Some x → GetNodeLink name (l1 ++ l2) = Some x.
Proof. unfold GetNodeLink. induction l1 as [|y l1 IH]; simpl; [done|]. case_bool_decide; [done|apply IH]. Qed.

Lemma find_insert_link name x l :
  GetNodeLink name (insert_link x l) = if decide (Name x = name) then Some x else GetNodeLink name l.
Proof.
  unfold GetNodeLink. induction l as [|y l IH]; simpl.
  - case_bool_decide; case_decide; congruence.
  - destruct (String.leb (Name x) (Name y)) eqn:Hle; simpl.
    + repeat case_bool_decide; repeat case_decide; congruence.
    + rewrite IH. repeat case_bool_decide; repeat case_decide; try congruence.
      assert (Name x = Name y) as Hxy by congruence. rewrite Hxy in Hle.
      destruct (String.leb_total (Name y) (Name y)); congruence.
Qed.

(** The sort is stable: the first link of a name stays the first. *)
Lemma find_sort name l : GetNodeLink name (sort_links l) = GetNodeLink name l.
Proof.
  induction l as [|x l IH]; [done|]. simpl. rewrite find_insert_link, IH. unfold GetNodeLink. simpl.
  case_bool_decide; case_decide; congruence.
Qed.

Lemma elem_of_insert_link x y l : x ∈ insert_link y l ↔ x = y ∨ x ∈ l.
Proof.
  induction l as [|z l IH]; simpl; [by rewrite !elem_of_cons|].
  case_match; rewrite !elem_of_cons, ?IH, ?elem_of_cons; tauto.
Qed.

Lemma elem_of_sort_links x l : x ∈ sort_links l ↔ x ∈ l.
Proof. induction l as [|y l IH]; simpl; [done|]. by rewrite elem_of_insert_link, IH, elem_of_cons. Qed.

Lemma find_elem name l x : GetNodeLink name l = Some x → x ∈ l ∧ Name x = name.
Proof.
  intros [Hx Hn]%List.find_some. apply bool_decide_eq_true in Hn. by rewrite list_elem_of_In.
Qed.

Lemma find_none name l x : GetNodeLink name l = None → x ∈ l → Name x ≠ name.
Proof. intros Hn Hx%list_elem_of_In. by eapply List.find_none, bool_decide_eq_false in Hn. Qed.

Lemma find_filter name other l :
  GetNodeLink name (filter (λ x, Name x ≠ other) l) = if decide (name = other) then None else GetNodeLink name l.
Proof.
  induction l as [|x l IH]; [by case_decide|].
  destruct (decide (Name x = other)) as [Hx|Hx].
  - rewrite filter_cons_False by (intros Hn; by apply Hn). rewrite IH, find_cons. repeat case_decide; congruence.
  - rewrite filter_cons_True by done. rewrite !find_cons, IH. repeat case_decide; congruence.
Qed.

Lemma removed_links name p : plinks (RemoveNodeLink name p).2 = filter (λ x, Name x ≠ name) (plinks p).
Proof.
  unfold RemoveNodeLink. case_decide as Hn; [done|]. simpl. induction (plinks p) as [|x l IH]; [done|].
  rewrite fmap_cons, not_elem_of_cons in Hn. destruct Hn as [Hx Hn].
  rewrite filter_cons_True by congruence. by rewrite <- IH.
Qed.

Lemma relink_links name that p :
  plinks (relink name that p) = filter (λ x, Name x ≠ name) (plinks p) ++ [mkLink name (node_Size that) (node_Cid that)].
Proof. unfold relink. simpl. by rewrite removed_links. Qed.

Lemma relink_fresh name that p : encoded (relink name that p) = None ∧ pdata (relink name that p) = pdata p.
Proof. unfold relink, RemoveNodeLink. by case_decide. Qed.

Lemma find_relink name other that p :
  GetNodeLink name (plinks (relink other that p)) =
    if decide (name = other) then Some (mkLink name (node_Size that) (node_Cid that)) else GetNodeLink name (plinks p).
Proof.
  rewrite relink_links. destruct (decide (name = other)) as [->|Hn].
  - rewrite find_app_none by (rewrite find_filter; by case_decide). simpl. by rewrite bool_decide_true.
  - destruct (GetNodeLink name (plinks p)) as [x|] eqn:Hx.
    + apply find_app_some. rewrite find_filter. by case_decide.
    + rewrite find_app_none by (rewrite find_filter; by case_decide). simpl. by rewrite bool_decide_false.
Qed.
End link_laws.

(** ** The editor against the DAG

    Paths of names are looked up in the blocks a store holds.  A store is sound
    when blocks are under their own CIDs, complete when it holds every block
    another one links to. *)
Section edit_laws.
Context {K B : Type} `{!EqDecision K, !Countable K, !DagCodec K B, !DagCodecLaws K B}.
Abbreviation Store := (gmap K (Block K)).

Fixpoint look (D : Store) (ls : list (Link K)) (path : list string) : option K :=
  match path with
  | [] => None
  | [n] => lCid <$> GetNodeLink n ls
  | n :: rest => l ← GetNodeLink n ls; b ← D !! lCid l; look D (block_Links b) rest
  end.

(** Two paths that part at some name *)
Fixpoint diverge (p q : list string) : Prop :=
  match p, q with
  | a :: p', b :: q' => a ≠ b ∨ (a = b ∧ diverge p' q')
  | _, _ => False
  end.

Definition sound (D : Store) : Prop :=
  ∀ c b, D !! c = Some b → match b with PB x => ∃ bd : B, c = Sum bd x 
  | OtherBlock ls _ => (∀ (bd : B) x, c ≠ Sum bd x) ∧ ∀ l, l ∈ ls → height (lCid l) < height c end.

Definition complete (D : Store) : Prop := ∀ c b l, D !! c = Some b → l ∈ block_Links b → is_Some (D !! lCid l).

(** A node a store may hold: a protobuf node under a CID of its own, or one read from it *)
Definition stored (D : Store) (n : INode K B) : Prop := D !! node_Cid n = Some (block_of n).

Lemma sound_at D bd x b : sound D → D !! Sum bd x = Some b → b = PB x.
Proof.
  intros Hs Hb. apply Hs in Hb. destruct b as [y|]; [|by destruct (proj1 Hb bd x)].
  destruct Hb as [bd' Hb]. apply Sum_inj in Hb. by subst.
Qed.

Lemma decode_stored D c b : sound D → D !! c = Some b → stored D (decode_block (B := B) c b) ∧
  node_Cid (decode_block (B := B) c b) = c ∧ node_Links (decode_block (B := B) c b) = block_Links b.
Proof.
  intros Hs Hb. assert (node_Cid (decode_block (B := B) c b) = c) as Hc.
  { specialize (Hs c b Hb). destruct b as [[d ls]|]; [|done]. destruct Hs as [bd ->].
    unfold decode_block, node_Cid, pn_Cid, EncodeProtobuf. simpl. apply Sum_Prefix. }
  split; [|split; [exact Hc|by destruct b as [[d ls]|]]].
  unfold stored. rewrite Hc, Hb. by destruct b as [[d ls]|].
Qed.

Lemma sound_insert D n : sound D → (match n with NProto _ => True | NOther _ _ _ => stored D n end) →
  sound (<[node_Cid n := block_of n]> D) ∧ D ⊆ <[node_Cid n := block_of n]> D.
Proof.
  intros Hs Hn. destruct n as [p|c ls sz].
  - split.
    + intros c b. destruct (decide (c = node_Cid (NProto p))) as [->|Hne].
      * rewrite lookup_insert_eq. intros [= <-]. by exists (default v0CidPrefix (builder p)).
      * rewrite lookup_insert_ne by done. apply Hs.
    + destruct (D !! node_Cid (NProto p)) as [b|] eqn:Hb.
      * rewrite insert_id; [done|]. rewrite Hb. f_equal. by eapply sound_at.
      * by apply insert_subseteq.
  - rewrite insert_id by exact Hn. done.
Qed.

Lemma look_sort D ls path : look D (sort_links ls) path = look D ls path.
Proof. destruct path as [|n [|]]; simpl; by rewrite ?find_sort. Qed.

Lemma look_cons D ls n m q :
  look D ls (n :: m :: q) = (l ← GetNodeLink n ls; b ← D !! lCid l; look D (block_Links b) (m :: q)).
Proof. done. Qed.

Lemma look_nil D path : look D [] path = None.
Proof. by destruct path as [|n [|]]. Qed.

(** The links of a node as its encoding has them lead to the same places. *)
Definition links_ok (p : ProtoNode K B) : Prop := encoded p = None ∨ (EncodeProtobuf p).2 = plinks p.

Lemma look_encoded D p path : links_ok p → look D (EncodeProtobuf p).2 path = look D (plinks p) path.
Proof.
  intros [Hn| ->]; [|done]. unfold EncodeProtobuf. rewrite Hn. apply look_sort.
Qed.

(** *** What the edits leave in the temporary service *)

Context (src : Store) (Hsrc : sound src) (Hcomplete : complete src).
(** The source: what it returns it holds. *)
Context (get : K → res OErr (INode K B)).
Context (Hget : ∀ c n, get c = Ok n → ∃ b, src !! c = Some b ∧ n = decode_block c b).

(** Where the links of an edited node may lead: to a block of the source, or to a
    temporary one that is not the empty node [e] that edits create *)
Definition in_reach (e : option (ProtoNode K B)) (tmp : Store) (c : K) : Prop :=
  is_Some (src !! c) ∨ (is_Some (tmp !! c) ∧ Some c ≠ pn_Cid <$> e).

Definition tmp_ok (e : option (ProtoNode K B)) (tmp : Store) : Prop :=
  sound tmp ∧ (∀ c ls sz, tmp !! c = Some (OtherBlock ls sz) → src !! c = Some (OtherBlock ls sz)) ∧
  ∀ c b l, tmp !! c = Some b → l ∈ block_Links b →
    in_reach e tmp (lCid l).

(** A node an edit starts from: of the source, or the one it creates *)
Definition starts (e : option (ProtoNode K B)) (p : ProtoNode K B) : Prop :=
  links_ok p ∧ (∀ l, l ∈ plinks p → is_Some (src !! lCid l)) ∧ (stored src (NProto p) ∨ Some p = e).

Definition empty_node (e : option (ProtoNode K B)) : Prop :=
  match e with Some p => plinks p = [] ∧ encoded p = None | None => True end.

Lemma starts_decoded e c b p : src !! c = Some b → decode_block c b = NProto p → starts e p ∧ pn_Cid p = c.
Proof.
  intros Hb Hd. destruct (decode_stored _ _ _ Hsrc Hb) as (Hs & Hc & Hl).
  rewrite Hd in Hs, Hc, Hl. simpl in Hc, Hl.
  split; [|done]. split; [|split].
  - right. destruct b as [[d ls]|]; [|done]. by injection Hd as <-.
  - intros l Hl'. rewrite Hl in Hl'. exact (Hcomplete _ _ _ Hb Hl').
  - by left.
Qed.

Lemma starts_empty e p : empty_node e → e = Some p → starts e p.
Proof.
  intros He ->. destruct He as [Hl He]. split; [by left|]. rewrite Hl. split; [|by right].
  intros l Hl'. by apply not_elem_of_nil in Hl'.
Qed.

(** An edit of [root] *)
Record edited (e : option (ProtoNode K B)) (root root' : ProtoNode K B) (tmp : Store) : Prop := {
  ed_tmp : tmp_ok e tmp;
  ed_stored : in_reach e tmp (pn_Cid root');
  ed_fresh : encoded root' = None;
  ed_data : pdata root' = pdata root;
  ed_links l : l ∈ plinks root' → in_reach e tmp (lCid l);
}.

Lemma in_reach_delete e root tmp c : starts e root →
  in_reach e tmp c → in_reach e (delete (pn_Cid root) tmp) c.
Proof.
  intros (_ & _ & Hr) [Hc|[Hc He]]; [by left|]. destruct (decide (pn_Cid root = c)) as [<-|Hne].
  - destruct Hr as [Hr| <-]; [left; by eexists|done].
  - right. by rewrite lookup_delete_ne.
Qed.

Lemma in_reach_insert e tmp k b c : in_reach e tmp c → in_reach e (<[k := b]> tmp) c.
Proof. intros [Hc|[Hc He]]; [by left|right]. split; [by apply lookup_insert_is_Some'; right|done]. Qed.

Lemma tmp_ok_delete e root tmp : starts e root → tmp_ok e tmp → tmp_ok e (delete (pn_Cid root) tmp).
Proof.
  intros Hr (Hs & Ho & Hl). split; [|split].
  - intros c b [_ Hb]%lookup_delete_Some. by apply Hs.
  - intros c ls sz [_ Hb]%lookup_delete_Some. by apply Ho.
  - intros c b l [_ Hb]%lookup_delete_Some Hin. apply in_reach_delete; [done|]. by eapply Hl.
Qed.

(** A node with no cached encoding and links within reach may be stored. *)
Lemma tmp_ok_insert e tmp p : tmp_ok e tmp → encoded p = None → (∀ l, l ∈ plinks p → in_reach e tmp (lCid l)) →
  tmp_ok e (<[pn_Cid p := PB (EncodeProtobuf p)]> tmp).
Proof.
  intros (Hs & Ho & Hl) Hf Hp. split; [by apply (sound_insert tmp (NProto p))|split].
  - intros c ls sz [[_ [=]]|[_ Hb]]%lookup_insert_Some. by apply Ho.
  - intros c b l [[_ <-]|[_ Hb]]%lookup_insert_Some Hin; apply in_reach_insert.
    + apply Hp. unfold EncodeProtobuf in Hin. rewrite Hf in Hin. by apply elem_of_sort_links.
    + exact (Hl _ _ _ Hb Hin).
Qed.

Lemma empty_differs e p : empty_node e → encoded p = None → plinks p ≠ [] → Some (pn_Cid p) ≠ pn_Cid <$> e.
Proof.
  destruct e as [q|]; [|done]. intros [Hq Heq] Hf Hl [= Hc]. apply Sum_inj in Hc. unfold EncodeProtobuf in Hc.
  rewrite Hf, Heq, Hq in Hc. injection Hc as _ Hc. destruct (plinks p) as [|l ls] eqn:Hls; [done|].
  assert (l ∈ sort_links (l :: ls)) as Hin by (apply elem_of_sort_links; by left).
  simpl in Hc. simpl in Hin. rewrite Hc in Hin. by apply elem_of_nil in Hin.
Qed.

(** The step all edits share: one link made to point at an edited node *)
Lemma relink_edited e root tmp name that : empty_node e → starts e root → tmp_ok e tmp → in_reach e tmp (node_Cid that) →
  let root' := relink name that root in
  edited e root root' (<[pn_Cid root' := PB (EncodeProtobuf root')]> (delete (pn_Cid root) tmp)).
Proof.
  intros He Hr Ht Hthat. cbv zeta. set (root' := relink name that root).
  destruct (relink_fresh name that root) as [Hf Hd]. fold root' in Hf, Hd.
  assert (∀ l, l ∈ plinks root' → in_reach e (delete (pn_Cid root) tmp) (lCid l)) as Hl.
  { intros l. unfold root'. rewrite relink_links, elem_of_app, list_elem_of_singleton, list_elem_of_filter.
    intros [[_ Hl]| ->]; [left; by apply Hr|]. by apply in_reach_delete. }
  split; [|right|done..|].
  - apply tmp_ok_insert; [by apply tmp_ok_delete|done..].
  - split; [by rewrite lookup_insert_eq|]. apply empty_differs; [done..|].
    unfold root'. rewrite relink_links. by destruct (filter _ _).
  - intros l Hin. by apply in_reach_insert, Hl.
Qed.

(** *** Where the paths lead after an edit *)

(** What [descend] comes to from an empty temporary service *)
Definition below (e : option (ProtoNode K B)) (root : ProtoNode K B) (name : string) (nd : ProtoNode K B) : Prop :=
  (∃ l b, GetNodeLink name (plinks root) = Some l ∧ src !! lCid l = Some b ∧ decode_block (lCid l) b = NProto nd) ∨
  (GetNodeLink name (plinks root) = None ∧ e = Some nd).

Lemma descend_inv e root name nd tmp' :
  descend get e root name ∅ = (Ok nd, tmp') → tmp' = ∅ ∧ below e root name nd.
Proof.
  unfold descend, GetLinkedProtoNode, dag_Get, below. intros [= Hr <-]. split; [done|].
  destruct (GetNodeLink name (plinks root)) as [l|]; [|by destruct e as [p|]; simplify_eq; right].
  rewrite lookup_empty in Hr. simpl in Hr. left. destruct (get (lCid l)) as [n|] eqn:Hg; [|by destruct e].
  destruct (Hget _ _ Hg) as (b & Hb & Hn). exists l, b. split; [done|]. split; [done|].
  rewrite <- Hn. destruct n as [q|]; [|by destruct e]. destruct e; simpl in Hr; congruence.
Qed.

Lemma below_starts e root name nd : empty_node e → below e root name nd → starts e nd.
Proof.
  intros He [(l & b & _ & Hb & Hd)|[_ ->]]; [by eapply starts_decoded|by apply starts_empty].
Qed.

Lemma look_relink D root that name n q :
  look D (plinks (relink name that root)) (n :: q) =
    if decide (n = name) then
      match q with [] => Some (node_Cid that) | _ => b ← D !! node_Cid that; look D (block_Links b) q end
    else look D (plinks root) (n :: q).
Proof.
  destruct q as [|m q]; cbn [look]; rewrite find_relink; by case_decide.
Qed.

Section through.
Context (D : Store) (HD : src ⊆ D) (HDs : sound D).

Lemma look_stored p q : is_Some (D !! pn_Cid p) → links_ok p →
  (b ← D !! pn_Cid p; look D (block_Links b) q) = look D (plinks p) q.
Proof.
  intros [b Hb] Hp. rewrite Hb. simpl. rewrite (sound_at D _ _ _ HDs Hb). by apply look_encoded.
Qed.

Lemma look_below e root name nd m q : empty_node e → below e root name nd →
  look D (plinks root) (name :: m :: q) = look D (plinks nd) (m :: q).
Proof.
  intros He [(l & b & Hl & Hb & Hd)|[Hn ->]]; rewrite look_cons.
  - rewrite Hl. cbn [mbind option_bind]. rewrite (lookup_weaken _ _ _ _ Hb HD). cbn [mbind option_bind].
    destruct (decode_stored _ _ _ Hsrc Hb) as (_ & _ & Hls). rewrite Hd in Hls. simpl in Hls. by rewrite <- Hls.
  - rewrite Hn. destruct He as [Hp _]. by rewrite Hp, look_nil.
Qed.

(** One level of an edit: the path goes through the edited node, and what parts
    from it is as it was. *)
Lemma relink_look e root nd nd' name m rest : empty_node e → below e root name nd → encoded nd' = None →
  is_Some (D !! pn_Cid nd') →
  look D (plinks (relink name (NProto nd') root)) (name :: m :: rest) = look D (plinks nd') (m :: rest) ∧
  ((∀ q, diverge (m :: rest) q → look D (plinks nd') q = look D (plinks nd) q) →
   ∀ q, diverge (name :: m :: rest) q → look D (plinks (relink name (NProto nd') root)) q = look D (plinks root) q).
Proof.
  intros He Hbelow Hf Hin. split.
  - rewrite look_relink, decide_True by done. apply look_stored; [done|by left].
  - intros Hq [|n q] Hdiv; [done|]. rewrite look_relink. destruct Hdiv as [Hne|[<- Hdiv]].
    + by rewrite decide_False by congruence.
    + rewrite decide_True by done. destruct q as [|k q]; [done|]. simpl (node_Cid _).
      rewrite look_stored by (first [done|by left]). rewrite Hq by done.
      symmetry. by eapply look_below.
Qed.
End through.

Definition leads (D : Store) (p : ProtoNode K B) : Prop := ∀ l, l ∈ plinks p → is_Some (D !! lCid l).

Lemma leads_relinked D root that name : sound D → complete D → leads D (relink name (NProto that) root) →
  encoded that = None → is_Some (D !! pn_Cid that) ∧ leads D that.
Proof.
  intros HDs HDc Hl Hf. assert (is_Some (D !! pn_Cid that)) as Hin.
  { apply (Hl (mkLink name (node_Size (NProto that)) (pn_Cid that))).
    rewrite relink_links, elem_of_app, list_elem_of_singleton. by right. }
  split; [done|]. destruct Hin as [b Hb]. intros l Hl'. apply (HDc _ _ _ Hb).
  rewrite (sound_at D _ _ _ HDs Hb). unfold EncodeProtobuf. simpl. rewrite Hf. by apply elem_of_sort_links.
Qed.

(** What an edit of a path leaves: [result] is where the path leads. *)
Definition edit_post (e : option (ProtoNode K B)) (result : option K) (root root' : ProtoNode K B) (path : list string)
    (tmp : Store) : Prop :=
  edited e root root' tmp ∧
  ∀ D, src ⊆ D → sound D → complete D → leads D root' →
    look D (plinks root') path = result ∧ ∀ q, diverge path q → look D (plinks root') q = look D (plinks root) q.

(** The way back up: the edited child is linked from its parent. *)
Lemma edit_up e result root nd nd' name m rest tmp : empty_node e → starts e root → below e root name nd →
  edit_post e result nd nd' (m :: rest) tmp →
  let root' := relink name (NProto nd') root in
  edit_post e result root root' (name :: m :: rest) (<[pn_Cid root' := PB (EncodeProtobuf root')]> (delete (pn_Cid root) tmp)).
Proof.
  intros He Hr Hbelow [Hed Hlook]. cbv zeta. split.
  { apply relink_edited; [done|done|apply (ed_tmp _ _ _ _ Hed)|apply (ed_stored _ _ _ _ Hed)]. }
  intros D HD HDs HDc Hl. destruct (leads_relinked D root nd' name) as [Hin Hl']; [done..|apply (ed_fresh _ _ _ _ Hed)|].
  destruct (Hlook D HD HDs HDc Hl') as [Hres Hq].
  destruct (relink_look D HD HDs e root nd nd' name m rest He Hbelow (ed_fresh _ _ _ _ Hed) Hin) as [H1 H2].
  split; [by rewrite H1|by apply H2].
Qed.

Lemma insert_post e child path : empty_node e → stored src child →
  ∀ root root' tmp', starts e root → insertNodeAtPath get root path child e ∅ = (Ok root', tmp') →
  edit_post e (Some (node_Cid child)) root root' path tmp'.
Proof.
  intros He Hc. induction path as [|name [|m rest] IH]; intros root root' tmp' Hr; [by intros [=]| |].
  - cbn [insertNodeAtPath]. unfold addLink. case_decide; [by intros [=]|]. intros [= <- <-].
    assert (tmp_ok e (<[node_Cid child := block_of child]> ∅)) as Ht.
    { split; [|split].
      - intros c b. rewrite lookup_insert_Some, lookup_empty. intros [[<- <-]|[_ [=]]]. by apply Hsrc.
      - intros c ls sz. rewrite lookup_insert_Some, lookup_empty. intros [[<- <-]|[_ [=]]]. done.
      - intros c b l. rewrite lookup_insert_Some, lookup_empty. intros [[<- <-]|[_ [=]]] Hl. left.
        exact (Hcomplete _ _ _ Hc Hl). }
    split; [by apply relink_edited; [| | |left; eexists]|]. intros D HD HDs HDc Hl. split.
    + by rewrite look_relink, decide_True.
    + intros [|n q] Hdiv; [done|]. destruct Hdiv as [Hne|[_ []]]. by rewrite look_relink, decide_False by congruence.
  - cbn [insertNodeAtPath]. intros (nd & t0 & [-> Hb]%descend_inv & Hi)%bind_ok.
    apply bind_ok in Hi as (nd' & t1 & Hi & Ho).
    apply IH in Hi; [|by eapply below_starts]. injection Ho as <- <-. by apply (edit_up e _ root nd nd').
Qed.

Lemma rm_post path : ∀ root root' tmp', starts None root → rmLink get root path ∅ = (Ok root', tmp') →
  edit_post None None root root' path tmp'.
Proof.
  induction path as [|name [|m rest] IH]; intros root root' tmp' Hr; [by intros [=]| |].
  - cbn [rmLink]. destruct (RemoveNodeLink name root) as [[|] p] eqn:Hrm; [|by intros [=]]. intros [= <- <-].
    pose proof (removed_links name root) as Hl. rewrite Hrm in Hl. simpl in Hl.
    assert (encoded p = None ∧ pdata p = pdata root) as [Hf Hd].
    { revert Hrm. unfold RemoveNodeLink. by case_decide; intros [= <-]. }
    assert (∀ l, l ∈ plinks p → in_reach None ∅ (lCid l)) as Hreach.
    { intros l. rewrite Hl, list_elem_of_filter. intros [_ Hin]. left. by apply Hr. }
    split; [split|].
    + apply (tmp_ok_insert None ∅ p); [|done..]. split; [|split]; intros ?*; by rewrite lookup_empty.
    + right. split; [by rewrite lookup_insert_eq|done].
    + done.
    + done.
    + intros l Hin. by apply in_reach_insert, Hreach.
    + intros D HD HDs HDc Hlead. rewrite Hl. split.
      * cbn [look]. by rewrite find_filter, decide_True.
      * intros [|n q] Hdiv; [done|]. destruct Hdiv as [Hne|[_ []]]. destruct q; cbn [look]; by rewrite find_filter, decide_False by congruence.
  - cbn [rmLink]. intros (nd & t0 & [-> Hb]%descend_inv & Hi)%bind_ok.
    apply bind_ok in Hi as (nd' & t1 & Hi & Ho).
    apply IH in Hi; [|by eapply below_starts]. injection Ho as <- <-. by apply (edit_up None _ root nd nd').
Qed.
End edit_laws.

(** ** Copying the edited nodes *)

Section copy_laws.
Context {K B : Type} `{!EqDecision K, !Countable K, !DagCodec K B, !DagCodecLaws K B}.
Abbreviation Store := (gmap K (Block K)).
Context {W : Type} (store : W → Store) (add : INode K B → M W OErr unit).
Context (Hadd : ∀ n w w', add n w = (Ok (), w') → store w' = <[node_Cid n := block_of n]> (store w)).
Context (tmp : Store) (Htmp : sound (B := B) tmp).

(** A node that may be added without disturbing the blocks there are *)
Definition may_add (D : Store) (n : INode K B) : Prop :=
  match n with NProto _ => True | NOther _ _ _ => stored D n end.

(** What is new in [D'] was copied: the links of every new block that lead to
    temporary blocks lead to blocks of [D']. *)
Definition copied (root : Block K) (D D' : Store) : Prop :=
  D ⊆ D' ∧ sound (B := B) D' ∧ ∀ c b, D' !! c = Some b → D !! c = Some b ∨
    ((b = root ∨ ∃ c', tmp !! c' = Some b) ∧ ∀ l, l ∈ block_Links b → is_Some (tmp !! lCid l) → is_Some (D' !! lCid l)).

Lemma links_of_block (n : INode K B) l : l ∈ block_Links (block_of n) → links_ok (match n with NProto p => p | _ => new_ProtoNode end) →
  l ∈ node_Links n.
Proof.
  destruct n as [p|c ls sz]; [|done]. simpl. intros Hl [Hf| <-]; [|done].
  unfold EncodeProtobuf in Hl. rewrite Hf in Hl. by apply elem_of_sort_links.
Qed.

(** The temporary blocks of another codec are of the store. *)
Definition others_in (D : Store) : Prop := ∀ c ls sz, tmp !! c = Some (OtherBlock ls sz) → D !! c = Some (OtherBlock ls sz).

Lemma copyDag_copies fuel : ∀ nd w w', copyDag add tmp fuel nd w = (Ok (), w') →
  sound (B := B) (store w) → may_add (store w) nd → others_in (store w) →
  links_ok (match nd with NProto p => p | _ => new_ProtoNode end) →
  copied (block_of nd) (store w) (store w') ∧ store w' !! node_Cid nd = Some (block_of nd).
Proof.
  induction fuel as [|fuel IH]; intros nd w w'; [by intros [=]|]. cbn [copyDag].
  intros ([] & w1 & Ha%Hadd & Hfor)%bind_ok Hs Hm Ho Hok.
  destruct (sound_insert (store w) nd Hs Hm) as [Hs1 Hsub]. rewrite <- Ha in Hs1, Hsub.
  assert (store w1 !! node_Cid nd = Some (block_of nd)) as Hnd by (by rewrite Ha, lookup_insert_eq).
  pose (I (pre : list (Link K)) (v : W) := store w1 ⊆ store v ∧ sound (B := B) (store v) ∧
    (∀ c b, store v !! c = Some b → store w1 !! c = Some b ∨
       ((∃ c', tmp !! c' = Some b) ∧ ∀ l, l ∈ block_Links b → is_Some (tmp !! lCid l) → is_Some (store v !! lCid l))) ∧
    ∀ l, l ∈ pre → is_Some (tmp !! lCid l) → is_Some (store v !! lCid l)).
  assert (I (node_Links nd) w') as (Hsub' & Hs' & Hnew & Hlinks).
  { refine (mfor_rule I (λ _, True) _ _ w1 (Ok ()) w' _ _ _ Hfor); [|done|].
    2: { split; [done|]. split; [done|]. split; [by left|]. intros l Hl. by apply elem_of_nil in Hl. }
    intros pre lnk v v' _ (Hv & Hsv & Hnew & Hpre). unfold dag_Get.
    destruct (tmp !! lCid lnk) as [b|] eqn:Hb.
    - intros Hc. destruct (decode_stored _ _ _ Htmp Hb) as (Hst & Hcid & Hlk).
      assert (block_of (decode_block (B := B) (lCid lnk) b) = b) as Hbb by (destruct b as [[? ?]|]; done).
      assert (others_in (store v)) as Hov.
      { intros c ls sz Hc'%Ho. by eapply lookup_weaken, Hv; eapply lookup_weaken, Hsub. }
      apply IH in Hc; [|done| |done|].
      + destruct Hc as [(Hv' & Hsv' & Hnew') Hin]. rewrite Hcid in Hin. rewrite Hbb in Hnew'.
        split; [by etrans|]. split; [done|]. split.
        * intros c b' Hb'. destruct (Hnew' c b' Hb') as [Hold|[Hwhat Hl']].
          -- destruct (Hnew c b' Hold) as [?|[Hin' Hl']]; [by left|right]. split; [done|].
             intros l Hl Ht. destruct (Hl' l Hl Ht) as [x Hx]. exists x. by eapply lookup_weaken.
          -- right. split; [|done]. destruct Hwhat as [->|?]; [by exists (lCid lnk)|done].
        * intros l Hl%elem_of_app Ht. destruct Hl as [Hl|Hl%list_elem_of_singleton].
          -- destruct (Hpre l Hl Ht) as [x Hx]. exists x. by eapply lookup_weaken.
          -- subst l. by eexists.
      + destruct b as [?|ls sz]; [done|]. apply Hov. done.
      + destruct b as [[d ls]|]; [by right|by left].
    - intros [= <-]. split; [done|]. split; [done|]. split; [done|].
      intros l Hl%elem_of_app Ht. destruct Hl as [Hl|Hl%list_elem_of_singleton]; [by apply Hpre|].
      subst l. rewrite Hb in Ht. by destruct Ht. }
  split; [|by eapply lookup_weaken]. split; [by etrans|]. split; [done|].
  intros c b Hb. destruct (Hnew c b Hb) as [Hb1|[Hin Hl]]; [|right; split; [by right|done]].
  rewrite Ha in Hb1. apply lookup_insert_Some in Hb1 as [[<- <-]|[_ Hb1]]; [|by left].
  right. split; [by left|]. intros l Hl Ht. apply Hlinks; [|done]. by apply links_of_block.
Qed.

Lemma mfor_not {S A} (l : list A) (body : A → M S OErr unit) e s :
  (∀ x s, x ∈ l → (body x s).1 ≠ Err e) → (mfor l body s).1 ≠ Err e.
Proof.
  revert s. induction l as [|x l IH]; intros s Hb; [done|]. cbn [mfor]. rewrite bind_unfold.
  pose proof (Hb x s ltac:(by left)) as Hx. destruct (body x s) as [[[]|e'] s1]; [|exact Hx].
  apply IH. intros y s' Hy. apply Hb. by right.
Qed.

Lemma copyDag_S fuel nd : copyDag add tmp (S fuel) nd =
  (_ ← add nd;
   mfor (node_Links nd) (λ lnk,
     match dag_Get tmp (lCid lnk) with
     | Ok child => copyDag add tmp fuel child
     | Err ErrNotFound => mret ()
     | Err e => mthrow e
     end)).
Proof. done. Qed.

(** Links go down, so the copy ends. *)
Lemma copyDag_ends (Hnof : ∀ n w, (add n w).1 ≠ Err OFuel) fuel : ∀ nd w,
  (∀ l, l ∈ node_Links nd → height (B := B) (lCid l) < fuel) → (copyDag add tmp (S fuel) nd w).1 ≠ Err OFuel.
Proof.
  induction fuel as [|fuel IH]; intros nd w Hh; rewrite copyDag_S, bind_unfold; pose proof (Hnof nd w) as Hn;
    destruct (add nd w) as [[[]|e] w1]; try exact Hn.
  - destruct (node_Links nd) as [|l ls]; [done|]. pose proof (Hh l ltac:(by left)). lia.
  - apply mfor_not. intros l w2 Hl%Hh. unfold dag_Get. destruct (tmp !! lCid l) as [b|] eqn:Hb; [|done].
    destruct (decode_stored _ _ _ Htmp Hb) as (_ & _ & Hlk). apply IH. rewrite Hlk. intros l' Hl'.
    enough (height (B := B) (lCid l') < height (B := B) (lCid l)) by lia.
    pose proof (Htmp _ _ Hb) as Hs. destruct b as [x|ls' sz]; [|by apply Hs].
    destruct Hs as [bd ->]. by apply Sum_height.
Qed.
End copy_laws.
