(* ===== verification/Object.v ===== *)
(** * The object API (core/coreapi/object.go, core/commands/object)

    Objects are protobuf nodes seen as data and named links.  They are created,
    put from an encoding, read, and patched: a link added or removed below a path,
    data set or appended, each patch giving the CID of a new root.  The node's DAG
    is the blocks it can get; its failures, the resolver of paths and the encodings
    (JSON, XML, protobuf, base64, CID strings) are the environment. *)

From Stdlib Require Import ZArith Ascii String.
From stdpp Require Import base gmap sets list strings.
From S2P Require Import Prelude GoStrings GoFS DagEdit.

(** coreapi.Link, coreapi.Node *)
Record OLink := mkOLink { oName : string; oHash : string; oSize : Z }.
Record ONode := mkONode { oLinks : list OLink; oData : string }.

(** commands.Object *)
Record Object := mkObject { Hash : string; objLinks : list OLink }.

(** ipld.NodeStat and ObjectStat *)
Record NodeStat (K : Type) := mkStat { sCid : K; NumLinks : Z; BlockSize : Z; LinksSize : Z; DataSize : Z; CumulativeSize : Z }.
Arguments mkStat {K}. Arguments sCid {K}. Arguments NumLinks {K}. Arguments BlockSize {K}. Arguments LinksSize {K}.
Arguments DataSize {K}. Arguments CumulativeSize {K}.

(** What a pinning command does, in order *)
Inductive Ev (K : Type) := EvPinLock | EvUnlock | EvAdded (c : K) | EvPinned (c : K) | EvFlushed.
Arguments EvPinLock {K}. Arguments EvUnlock {K}. Arguments EvAdded {K}. Arguments EvPinned {K}. Arguments EvFlushed {K}.

(** The node: the blocks it can get, the recursive pins, and what was done so far *)
Record OW (K : Type) `{!EqDecision K, !Countable K} := mkOW { odag : gmap K (Block K); opins : gset K; olog : list (Ev K) }.
Arguments mkOW {K _ _}. Arguments odag {K _ _}. Arguments opins {K _ _}. Arguments olog {K _ _}.

(** A reader: the bytes it gives and the error after them *)
Record Reader := mkReader { rBytes : string; rErr : option string }.

Record ObjEnv (K : Type) := mkObjEnv {
  get_fault : K → option string;
  add_fault : K → option string;
  flush_fault : option string;
  ResolvePath : string → res string K;
  json_Decode : string → option ONode;
  xml_Unmarshal : string → option ONode;
  DecodeProtobuf : string → option (Content K);
  base64_Decode : string → option string;
  base64_Encode : string → string;
  cid_Decode : string → option K;
  EmptyDir_data : string;
  other_Stat : K → list (Link K) → Z → res string (NodeStat K);
}.
Arguments get_fault {K}. Arguments add_fault {K}. Arguments flush_fault {K}. Arguments ResolvePath {K}. Arguments json_Decode {K}.
Arguments xml_Unmarshal {K}. Arguments DecodeProtobuf {K}. Arguments base64_Decode {K}. Arguments base64_Encode {K}.
Arguments cid_Decode {K}. Arguments EmptyDir_data {K}. Arguments other_Stat {K}.

Definition inputLimit : Z := Z.shiftl 2 20.
Definition softBlockLimit : Z := 1024 * 1024.
Definition ErrDataEncoding : OErr := OMsg "unknown data field encoding".

(** ioutil.ReadAll, and of an io.LimitReader: what is past the limit is not read *)
Definition ReadAll (r : Reader) : res OErr string :=
  match rErr r with Some e => Err (OMsg e) | None => Ok (rBytes r) end.
Definition ReadAll_limited (n : Z) (r : Reader) : res OErr string :=
  if (Z.of_nat (String.length (rBytes r)) <? n)%Z then ReadAll r else Ok (substring 0 (Z.to_nat n) (rBytes r)).

Definition opt_or {A} (msg : string) (o : option A) : res OErr A :=
  match o with Some a => Ok a | None => Err (OMsg msg) end.
Definition of_res {A} (r : res string A) : res OErr A := match r with Ok a => Ok a | Err e => Err (OMsg e) end.

Section object.
Context {K B : Type} `{!EqDecision K, !Countable K, !DagCodec K B} (E : ObjEnv K).
Abbreviation A := (M (OW K) OErr).

(** The encoder refuses sizes that int64 makes negative. *)
Definition encodable (n : INode K B) : bool :=
  match n with
  | NProto p => bool_decide (is_Some (encoded p)) || forallb (λ l, (Size l <=? i64_max)%Z) (plinks p)
  | NOther _ _ _ => true
  end.

(** api.dag.Add and Get; a node that cannot be encoded has no CID, and Cid panics. *)
Definition dagAdd (n : INode K B) : A unit := λ w,
  if negb (encodable n) then (Err (OMsg "panic: invalid CID"), w) else
  match add_fault E (node_Cid n) with
  | Some e => (Err (OMsg e), w)
  | None => (Ok (), mkOW (<[node_Cid n := block_of n]> (odag w)) (opins w) (olog w ++ [EvAdded (node_Cid n)]))
  end.

Definition dag_get (w : OW K) (c : K) : res OErr (INode K B) :=
  match get_fault E c with Some e => Err (OMsg e) | None => dag_Get (odag w) c end.
Definition dagGet (c : K) : A (INode K B) := λ w, (dag_get w c, w).

Definition event (e : Ev K) : A unit := mmodify (λ w, mkOW (odag w) (opins w) (olog w ++ [e])).

(** [if options.Pin { defer api.blockstore.PinLock(ctx).Unlock(ctx) }] around the rest *)
Definition with_pin_lock {R} (dopin : bool) (c : A R) : A R := λ w,
  if dopin then let '(r, w1) := (_ ← event EvPinLock; c) w in (r, (event EvUnlock w1).2) else c w.

(** PinWithMode(c, Recursive) and Flush *)
Definition PinWithMode (c : K) : A unit := mmodify (λ w, mkOW (odag w) ({[c]} ∪ opins w) (olog w ++ [EvPinned c])).
Definition Flush : A unit := match flush_fault E with Some e => mthrow (OMsg e) | None => event EvFlushed end.

(** CoreAPI.ResolveNode *)
Definition ResolveNode (p : string) : A (INode K B) := c ← mlift (of_res (ResolvePath E p)); dagGet c.

Definition as_proto (n : INode K B) : A (ProtoNode K B) :=
  match n with NProto p => mret p | NOther _ _ _ => mthrow ErrNotProtobuf end.

(** ft.EmptyDirNode *)
Definition EmptyDirNode : ProtoNode K B := mkPN (Some (EmptyDir_data E)) [] None None.

(** ObjectAPI.New *)
Definition New (type : string) : A (INode K B) :=
  n ← mlift (if decide (type = "empty") then Ok (NProto new_ProtoNode)
             else if decide (type = "unixfs-dir") then Ok (NProto EmptyDirNode)
             else Err (OMsg ("unknown node type: " +:+ type)));
  _ ← dagAdd n;
  mret n.

(** deserializeNode *)
Fixpoint deserialize_links (ls : list OLink) : res OErr (list (Link K)) :=
  match ls with
  | [] => Ok []
  | l :: ls' =>
      c ← opt_or "invalid cid" (cid_Decode E (oHash l));
      rest ← deserialize_links ls';
      Ok (mkLink (oName l) (oSize l) c :: rest)
  end.

Definition deserializeNode (nd : ONode) (dataFieldEncoding : string) : res OErr (ProtoNode K B) :=
  dagnode ← (if decide (dataFieldEncoding = "text") then Ok (SetData (oData nd) new_ProtoNode)
             else if decide (dataFieldEncoding = "base64") then
               data ← opt_or "illegal base64 data" (base64_Decode E (oData nd)); Ok (SetData data new_ProtoNode)
             else Err ErrDataEncoding);
  links ← deserialize_links (oLinks nd);
  Ok (SetLinks links dagnode).

(** ObjectAPI.Put *)
Definition Put (src : Reader) (InputEnc DataType : string) (dopin : bool) : A K :=
  data ← mlift (ReadAll_limited (inputLimit + 10) src);
  dagnode ← mlift (
    if decide (InputEnc = "json") then node ← opt_or "invalid json" (json_Decode E data); deserializeNode node DataType
    else if decide (InputEnc = "protobuf") then
      x ← opt_or "incorrectly formatted merkledag node" (DecodeProtobuf E data); Ok (mkPN x.1 x.2 (Some x) None)
    else if decide (InputEnc = "xml") then node ← opt_or "invalid xml" (xml_Unmarshal E data); deserializeNode node DataType
    else Err (OMsg "unknown object encoding"));
  with_pin_lock dopin (
    _ ← dagAdd (NProto dagnode);
    _ ← (if dopin then _ ← PinWithMode (pn_Cid dagnode); Flush else mret ());
    mret (pn_Cid dagnode)).

(** Get, Data, Links, Stat *)
Definition Get (path : string) : A (INode K B) := ResolveNode path.
Definition Data (path : string) : A string := nd ← ResolveNode path; p ← as_proto nd; mret (default "" (pdata p)).
Definition Links (path : string) : A (list (Link K)) := nd ← ResolveNode path; mret (node_Links nd).

Definition node_Stat (n : INode K B) : res OErr (NodeStat K) :=
  match n with
  | NProto p =>
      let enc := encLen (EncodeProtobuf p) in
      let data := Z.of_nat (String.length (default "" (pdata p))) in
      Ok (mkStat (pn_Cid p) (Z.of_nat (length (plinks p))) enc (enc - data) data (i64 (pn_Size p)))
  | NOther c ls sz => of_res (other_Stat E c ls sz)
  end.
Definition Stat (path : string) : A (NodeStat K) := nd ← ResolveNode path; mlift (node_Stat nd).

(** An editor over the API's DAG, and Finalize *)
Definition edit (fuel : nat) (op : (K → res OErr (INode K B)) → M (gmap K (Block K)) OErr (ProtoNode K B)) : A K := λ w,
  match op (dag_get w) ∅ with
  | (Err e, _) => (Err e, w)
  | (Ok root, tmp) =>
      let nd := Copy root in
      (_ ← copyDag dagAdd tmp fuel (NProto nd); mret (pn_Cid nd)) w
  end.

(** AddLink, RmLink *)
Definition AddLink (fuel : nat) (base name child : string) (create : bool) : A K :=
  baseNd ← ResolveNode base;
  childNd ← ResolveNode child;
  basePb ← as_proto baseNd;
  edit fuel (λ get, insertNodeAtPath get basePb (Split name "/") childNd (if create then Some EmptyDirNode else None)).

Definition RmLink (fuel : nat) (base link : string) : A K :=
  baseNd ← ResolveNode base;
  basePb ← as_proto baseNd;
  edit fuel (λ get, rmLink get basePb (Split link "/")).

(** patchData, AppendData, SetData *)
Definition patchData (path : string) (r : Reader) (appendData : bool) : A K :=
  nd ← ResolveNode path;
  pbnd ← as_proto nd;
  data ← mlift (ReadAll r);
  let data := if appendData then default "" (pdata pbnd) +:+ data else data in
  let pbnd := SetData data pbnd in
  _ ← dagAdd (NProto pbnd);
  mret (pn_Cid pbnd).

(** ObjectAPI.Diff *)
Definition ObjectDiff (fuel : nat) (before after : string) : A (list (Change (K := K))) :=
  beforeNd ← ResolveNode before;
  afterNd ← ResolveNode after;
  w ← mget;
  mlift (Diff (dag_get w) fuel beforeNd afterNd).

(** ** The commands *)
Context (Encode : K → string).

Definition encodeData (data encoding : string) : res OErr string :=
  if decide (encoding = "text") then Ok data
  else if decide (encoding = "base64") then Ok (base64_Encode E data)
  else Err ErrDataEncoding.

Definition out_link (l : Link K) : OLink := mkOLink (Name l) (Encode (lCid l)) (Size l).

Definition ObjectLinksCmd (path : string) : A Object :=
  rp ← mlift (of_res (ResolvePath E path));
  nd ← dagGet rp;
  mret (mkObject (Encode rp) (out_link <$> node_Links nd)).

Definition ObjectGetCmd (path datafieldenc : string) : A ONode :=
  nd ← Get path;
  data ← Data path;
  out ← mlift (encodeData data datafieldenc);
  mret (mkONode (out_link <$> node_Links nd) out).

Definition ObjectStatCmd (path : string) : A (NodeStat string) :=
  ns ← Stat path;
  mret (mkStat (Encode (sCid ns)) (NumLinks ns) (BlockSize ns) (LinksSize ns) (DataSize ns) (CumulativeSize ns)).

Definition ObjectPutCmd (file : option Reader) (inputenc datafieldenc : string) (dopin : bool) : A Object :=
  file ← mlift (opt_or "expected a file argument" file);
  c ← Put file inputenc datafieldenc dopin;
  mret (mkObject (Encode c) []).

Definition ObjectNewCmd (args : list string) : A Object :=
  nd ← New (match args with [t] => t | _ => "empty" end);
  mret (mkObject (Encode (node_Cid nd)) []).

(** checkBlockSize; Size is that of the node with all it links to. *)
Definition checkBlockSize (allowBigBlock : bool) (c : K) : A unit :=
  if allowBigBlock then mret ()
  else
    modifiedNode ← dagGet c;
    if (softBlockLimit <? node_Size modifiedNode)%Z then
      mthrow (OMsg "produced block is over 1MB, object API is deprecated and does not support HAMT-sharding: to create big directories, please use the files API (MFS)")
    else mret ().

(** What the patch commands do around their operation *)
Definition patched (allowBigBlock : bool) (op : A K) : A Object :=
  p ← op; _ ← checkBlockSize allowBigBlock p; mret (mkObject (Encode p) []).

Definition patchAppendDataCmd (big : bool) (root : string) (file : option Reader) : A Object :=
  file ← mlift (opt_or "expected a file argument" file); patched big (patchData root file true).
Definition patchSetDataCmd (big : bool) (root : string) (file : option Reader) : A Object :=
  file ← mlift (opt_or "expected a file argument" file); patched big (patchData root file false).
Definition patchRmLinkCmd (fuel : nat) (big : bool) (root name : string) : A Object := patched big (RmLink fuel root name).
Definition patchAddLinkCmd (fuel : nat) (big : bool) (root name child : string) (create : bool) : A Object :=
  patched big (AddLink fuel root name child create).

(** ObjectDiffCmd *)
Definition ObjectDiffCmd (fuel : nat) (a b : string) : A (list (Change (K := K))) := ObjectDiff fuel a b.

End object.

(** ** Patching *)

Section object_laws.
Context {K B : Type} `{!EqDecision K, !Countable K, !DagCodec K B, !DagCodecLaws K B} (E : ObjEnv K).
Implicit Types (w : OW K).

(** Where a path of names leads from a CID *)
Definition look_from (D : gmap K (Block K)) (c : K) (path : list string) : option K :=
  b ← D !! c; look D (block_Links b) path.

Lemma api_get_ok w c (n : INode K B) : dag_get E w c = Ok n → ∃ b, odag w !! c = Some b ∧ n = decode_block c b.
Proof.
  unfold dag_get, dag_Get. destruct (get_fault E c); [done|]. destruct (odag w !! c) as [b|]; [|done].
  intros [= <-]. by exists b.
Qed.

Lemma ResolveNode_ok p w (n : INode K B) w' : ResolveNode E p w = (Ok n, w') →
  w' = w ∧ ∃ c b, ResolvePath E p = Ok c ∧ odag w !! c = Some b ∧ n = decode_block c b.
Proof.
  unfold ResolveNode. intros (c & w1 & [Hc ->]%mlift_ok & Hg)%bind_ok. unfold dagGet in Hg.
  injection Hg as Hg <-. split; [done|]. apply api_get_ok in Hg as (b & Hb & ->).
  destruct (ResolvePath E p) as [c'|] eqn:Hr; simpl in Hc; [|done]. injection Hc as ->. by exists c, b.
Qed.

Lemma as_proto_ok (n : INode K B) w p w' : as_proto n w = (Ok p, w') → n = NProto p ∧ w' = w.
Proof. destruct n; [by intros [= -> ->]|by intros [=]]. Qed.

Lemma dagAdd_ok (n : INode K B) w w' : dagAdd E n w = (Ok (), w') → odag w' = <[node_Cid n := block_of n]> (odag w).
Proof. unfold dagAdd. destruct (negb _); [by intros [=]|]. destruct (add_fault _ _); [by intros [=]|by intros [= <-]]. Qed.

Lemma edit_inv fuel op w c' w' : edit (B := B) E fuel op w = (Ok c', w') →
  ∃ root tmp, op (dag_get E w) ∅ = (Ok root, tmp) ∧ c' = pn_Cid (Copy root) ∧
    copyDag (dagAdd E) tmp fuel (NProto (Copy root)) w = (Ok (), w').
Proof.
  unfold edit. destruct (op _ _) as [[root|e] tmp]; [|by intros [=]].
  intros ([] & w1 & Hc & Hr)%bind_ok. injection Hr as <- <-. by exists root, tmp.
Qed.

Lemma Copy_spec (p : ProtoNode K B) : encoded (Copy p) = None ∧ plinks (Copy p) = plinks p ∧
  default "" (pdata (Copy p)) = default "" (pdata p).
Proof. unfold Copy. simpl. split; [done|]. split; [done|]. case_decide as Hp; [by rewrite Hp|done]. Qed.

(** What an edit that succeeds makes of the DAG *)
Lemma edit_post_world e fuel op result base path w c' w' b cb :
  sound (B := B) (odag w) → complete (odag w) → empty_node e →
  odag w !! cb = Some b → decode_block cb b = NProto base →
  (∀ root tmp, op (dag_get E w) ∅ = (Ok root, tmp) → edit_post (odag w) e result base root path tmp) →
  edit (B := B) E fuel op w = (Ok c', w') →
  odag w ⊆ odag w' ∧ sound (B := B) (odag w') ∧ complete (odag w') ∧ look_from (odag w') c' path = result ∧
  (∀ q, diverge path q → look_from (odag w') c' q = look_from (odag w') cb q) ∧
  ∃ d' ls', odag w' !! c' = Some (PB (d', ls')) ∧ default "" d' = default "" (pdata base).
Proof.
  intros Hs Hc He Hb Hbase Hpost (root & tmp & Hop & -> & Hcopy)%edit_inv.
  destruct (Hpost _ _ Hop) as [Hed Hlook].
  destruct (ed_tmp _ _ _ _ _ Hed) as (Hts & Hto & Htl). destruct (Copy_spec root) as (Hf & Hl & Hd).
  apply (copyDag_copies odag (dagAdd E) dagAdd_ok tmp Hts) in Hcopy as [(Hsub & Hs' & Hnew) Hnd];
    [|done|done|exact Hto|by left].
  simpl in Hnd. assert (complete (odag w')) as Hc'.
  { intros c blk l Hblk Hin. destruct (Hnew c blk Hblk) as [Hold|[Hwhat Hlk]].
    - destruct (Hc _ _ _ Hold Hin) as [x Hx]. exists x. by eapply lookup_weaken.
    - assert (in_reach (odag w) e tmp (lCid l)) as [Hin'|[Hin' _]].
      { destruct Hwhat as [->|[c0 Hc0]]; [|by eapply Htl]. apply (ed_links _ _ _ _ _ Hed). rewrite <- Hl.
        by apply (links_of_block (NProto (Copy root))); [|left]. }
      + destruct Hin' as [x Hx]. exists x. by eapply lookup_weaken.
      + by apply Hlk. }
  assert (leads (odag w') root) as Hleads.
  { intros l Hin. rewrite <- Hl in Hin. apply (Hc' _ _ _ Hnd). unfold EncodeProtobuf. simpl.
    by apply elem_of_sort_links. }
  destruct (Hlook (odag w') Hsub Hs' Hc' Hleads) as [Hres Hq].
  assert (∀ q, look_from (odag w') (pn_Cid (Copy root)) q = look (odag w') (plinks root) q) as Hfrom.
  { intros q. unfold look_from. rewrite Hnd. cbn [mbind option_bind block_Links]. rewrite look_encoded by (by left). by rewrite Hl. }
  split; [done|]. split; [done|]. split; [done|]. split; [by rewrite Hfrom|]. split.
  - intros q Hdiv. rewrite Hfrom, Hq by done. unfold look_from. rewrite (lookup_weaken _ _ _ _ Hb Hsub). simpl.
    destruct (decode_stored _ _ _ Hs Hb) as (_ & _ & Hlk). rewrite Hbase in Hlk. by rewrite <- Hlk.
  - do 2 eexists. split; [exact Hnd|]. etrans; [exact Hd|]. by rewrite (ed_data _ _ _ _ _ Hed).
Qed.

(** A node the API can be asked to patch: what it gets is whole. *)
Definition whole (w : OW K) : Prop := sound (B := B) (odag w) ∧ complete (odag w).

Lemma EmptyDir_empty (create : bool) : empty_node (B := B) (if create then Some (EmptyDirNode E) else None).
Proof. by destruct create. Qed.

Lemma AddLink_inv fuel base name child create w c' w' : whole w →
  AddLink (B := B) E fuel base name child create w = (Ok c', w') →
  ∃ cb cc d ls, ResolvePath E base = Ok cb ∧ ResolvePath E child = Ok cc ∧ odag w !! cb = Some (PB (d, ls)) ∧
    odag w ⊆ odag w' ∧ whole w' ∧ look_from (odag w') c' (Split name "/") = Some cc ∧
    (∀ q, diverge (Split name "/") q → look_from (odag w') c' q = look_from (odag w') cb q) ∧
    ∃ d' ls', odag w' !! c' = Some (PB (d', ls')) ∧ default "" d' = default "" d.
Proof.
  intros [Hs Hc]. unfold AddLink.
  intros (bn & ? & [-> (cb & b & Hrb & Hb & ->)]%ResolveNode_ok & Hr)%bind_ok.
  apply bind_ok in Hr as (cn & ? & [-> (cc & bc & Hrc & Hbc & ->)]%ResolveNode_ok & Hr).
  apply bind_ok in Hr as (p & ? & [Hp ->]%as_proto_ok & Hr).
  destruct (decode_stored (B := B) _ _ _ Hs Hbc) as (Hst & Hcc & _).
  destruct (starts_decoded (odag w) Hs Hc (if create then Some (EmptyDirNode E) else None) _ _ _ Hb Hp) as [Hst' _].
  apply (edit_post_world (if create then Some (EmptyDirNode E) else None) fuel _ (Some cc) p (Split name "/") w c' w' b cb) in Hr;
    [|done|done|apply EmptyDir_empty|done|done|].
  - destruct b as [[d ls]|]; [|done]. injection Hp as <-. destruct Hr as (H1 & H2 & H3 & H4 & H5 & H6).
    exists cb, cc, d, ls. split; [done|]. split; [done|]. split; [done|]. split; [done|]. split; [by split|].
    split; [done|]. split; [done|]. exact H6.
  - intros root tmp Hop. rewrite <- Hcc.
    exact (insert_post (odag w) Hs Hc (dag_get E w) (api_get_ok w) _ _ _ (EmptyDir_empty create) Hst _ _ _ Hst' Hop).
Qed.

Lemma RmLink_inv fuel base link w c' w' : whole w →
  RmLink (B := B) E fuel base link w = (Ok c', w') →
  ∃ cb d ls, ResolvePath E base = Ok cb ∧ odag w !! cb = Some (PB (d, ls)) ∧
    odag w ⊆ odag w' ∧ whole w' ∧ look_from (odag w') c' (Split link "/") = None ∧
    (∀ q, diverge (Split link "/") q → look_from (odag w') c' q = look_from (odag w') cb q) ∧
    ∃ d' ls', odag w' !! c' = Some (PB (d', ls')) ∧ default "" d' = default "" d.
Proof.
  intros [Hs Hc]. unfold RmLink.
  intros (bn & ? & [-> (cb & b & Hrb & Hb & ->)]%ResolveNode_ok & Hr)%bind_ok.
  apply bind_ok in Hr as (p & ? & [Hp ->]%as_proto_ok & Hr).
  destruct (starts_decoded (odag w) Hs Hc None _ _ _ Hb Hp) as [Hst' _].
  apply (edit_post_world None fuel _ None p (Split link "/") w c' w' b cb) in Hr; [|done|done|done|done|done|].
  - destruct b as [[d ls]|]; [|done]. injection Hp as <-. destruct Hr as (H1 & H2 & H3 & H4 & H5 & H6).
    exists cb, d, ls. split; [done|]. split; [done|]. split; [done|]. split; [by split|].
    split; [done|]. split; [done|]. exact H6.
  - intros root tmp Hop. exact (rm_post (odag w) Hs Hc (dag_get E w) (api_get_ok w) _ _ _ _ Hst' Hop).
Qed.

(** Only the copy takes fuel, and links go down: enough of it ends every edit. *)
Lemma descend_no_fuel get create (root : ProtoNode K B) name tmp :
  (∀ c, get c ≠ Err OFuel) → (descend get create root name tmp).1 ≠ Err OFuel.
Proof.
  intros Hg. unfold descend, GetLinkedProtoNode, dag_Get. simpl.
  destruct (GetNodeLink name (plinks root)) as [l|]; [|by destruct create].
  specialize (Hg (lCid l)). destruct (tmp !! lCid l) as [b|]; simpl.
  - destruct (decode_block (lCid l) b); by destruct create.
  - destruct (get (lCid l)) as [[q|]|e']; simpl; destruct create; congruence.
Qed.

Lemma insert_no_fuel get (root : ProtoNode K B) path child create tmp :
  (∀ c, get c ≠ Err OFuel) → (insertNodeAtPath get root path child create tmp).1 ≠ Err OFuel.
Proof.
  intros Hg. revert root tmp. induction path as [|name rest IH]; intros root tmp; [done|].
  destruct rest as [|m rest]; [cbn [insertNodeAtPath]; unfold addLink; by case_decide|].
  change (insertNodeAtPath get root (name :: m :: rest) child create) with
    (nd ← descend get create root name; ndprime ← insertNodeAtPath get nd (m :: rest) child create;
     _ ← tmp_Remove (pn_Cid root); let root := relink name (NProto ndprime) root in
     _ ← tmp_Add (NProto root); mret root).
  rewrite bind_unfold. pose proof (descend_no_fuel get create root name tmp Hg) as Hd.
  destruct (descend get create root name tmp) as [[nd|e] t]; [|exact Hd].
  rewrite bind_unfold. specialize (IH nd t). by destruct (insertNodeAtPath get nd (m :: rest) child create t) as [[nd'|e] t'].
Qed.

Lemma rm_no_fuel get (root : ProtoNode K B) path tmp :
  (∀ c, get c ≠ Err OFuel) → (rmLink get root path tmp).1 ≠ Err OFuel.
Proof.
  intros Hg. revert root tmp. induction path as [|name rest IH]; intros root tmp; [done|].
  destruct rest as [|m rest]; [cbn [rmLink]; by destruct (RemoveNodeLink name root) as [[|] ?]|].
  change (rmLink get root (name :: m :: rest)) with
    (nd ← descend get None root name; nnode ← rmLink get nd (m :: rest);
     _ ← tmp_Remove (pn_Cid root); let root := relink name (NProto nnode) root in
     _ ← tmp_Add (NProto root); mret root).
  rewrite bind_unfold. pose proof (descend_no_fuel get None root name tmp Hg) as Hd.
  destruct (descend get None root name tmp) as [[nd|e] t]; [|exact Hd].
  rewrite bind_unfold. specialize (IH nd t). by destruct (rmLink get nd (m :: rest) t) as [[nd'|e] t'].
Qed.

Lemma dag_get_no_fuel w c : dag_get (B := B) E w c ≠ Err OFuel.
Proof. unfold dag_get, dag_Get. destruct (get_fault E c); [done|]. by destruct (odag w !! c). Qed.

Lemma list_bound {X} (f : X → nat) (l : list X) : ∃ n, ∀ x, x ∈ l → f x < n.
Proof.
  induction l as [|x l [n IH]]; [exists 0; intros x Hx; by apply elem_of_nil in Hx|].
  exists (S (f x `max` n)). intros y [->|Hy%IH]%elem_of_cons; lia.
Qed.

Lemma edit_ends op w : (∀ tmp, (op (dag_get (B := B) E w) tmp).1 ≠ Err OFuel) →
  (∀ root tmp, op (dag_get E w) ∅ = (Ok root, tmp) → sound (B := B) tmp) →
  ∃ n, ∀ fuel, n < fuel → (edit (B := B) E fuel op w).1 ≠ Err OFuel.
Proof.
  intros Hop Hsound. destruct (op (dag_get E w) ∅) as [[root|e] tmp] eqn:Hr.
  - destruct (list_bound (λ l, height (B := B) (lCid l)) (plinks (Copy root))) as [n Hn].
    exists n. intros [|fuel] Hf; [lia|]. unfold edit. rewrite Hr.
    assert ((copyDag (dagAdd E) tmp (S fuel) (NProto (Copy root)) w).1 ≠ Err OFuel) as Hc.
    { apply (copyDag_ends (dagAdd E) tmp (Hsound _ _ eq_refl)).
      - intros nd v. unfold dagAdd. destruct (negb _); [done|]. by destruct (add_fault E (node_Cid nd)).
      - intros l Hl. pose proof (Hn l Hl). lia. }
    rewrite bind_unfold. destruct (copyDag _ _ _ _ w) as [[[]|e] w1]; [done|]. intros [= ->]. by apply Hc.
  - exists 0. intros fuel _. unfold edit. rewrite Hr. specialize (Hop ∅). rewrite Hr in Hop. simpl in *. congruence.
Qed.

Lemma AddLink_ends base name child create w : whole w →
  ∃ n, ∀ fuel, n < fuel → (AddLink (B := B) E fuel base name child create w).1 ≠ Err OFuel.
Proof.
  intros [Hs Hc]. unfold AddLink.
  assert (∀ p, (ResolveNode (B := B) E p w).1 ≠ Err OFuel ∧ (ResolveNode (B := B) E p w).2 = w) as Hres.
  { intros p. unfold ResolveNode. rewrite bind_unfold. unfold mlift, dagGet.
    destruct (ResolvePath E p); [|done]. split; [apply dag_get_no_fuel|done]. }
  destruct (ResolveNode (B := B) E base w) as [[bn|e] w1] eqn:Hb; specialize (Hres base) as Hrb; rewrite Hb in Hrb;
    destruct Hrb as [Hne Hw]; simpl in Hne, Hw; subst w1.
  2: { exists 0. intros fuel _. rewrite bind_unfold, Hb. simpl. congruence. }
  destruct (ResolveNode (B := B) E child w) as [[cn|e] w1] eqn:Hch; specialize (Hres child) as Hrc; rewrite Hch in Hrc;
    destruct Hrc as [Hne' Hw]; simpl in Hne', Hw; subst w1.
  2: { exists 0. intros fuel _. rewrite bind_unfold, Hb, bind_unfold, Hch. simpl. congruence. }
  destruct bn as [p|c ls sz].
  2: { exists 0. intros fuel _. by rewrite bind_unfold, Hb, bind_unfold, Hch, bind_unfold. }
  set (e := if create then Some (EmptyDirNode (B := B) E) else None).
  destruct (edit_ends (λ get, insertNodeAtPath get p (Split name "/") cn e) w) as [n Hn].
  - intros tmp. apply insert_no_fuel, dag_get_no_fuel.
  - intros root tmp Hop.
    apply ResolveNode_ok in Hb as (_ & cb & b & _ & Hb & Hp). symmetry in Hp.
    apply ResolveNode_ok in Hch as (_ & cc & bc & _ & Hbc & ->).
    destruct (starts_decoded (odag w) Hs Hc e _ _ _ Hb Hp) as [Hst _].
    destruct (decode_stored (B := B) _ _ _ Hs Hbc) as (Hst' & _ & _).
    apply (insert_post (odag w) Hs Hc (dag_get E w) (api_get_ok w) e _ _ (EmptyDir_empty create) Hst' _ _ _ Hst) in Hop as [Hed _].
    apply (ed_tmp _ _ _ _ _ Hed).
  - exists n. intros fuel Hf. rewrite bind_unfold, Hb, bind_unfold, Hch. apply Hn, Hf.
Qed.

Lemma RmLink_ends base link w : whole w → ∃ n, ∀ fuel, n < fuel → (RmLink (B := B) E fuel base link w).1 ≠ Err OFuel.
Proof.
  intros [Hs Hc]. unfold RmLink.
  destruct (ResolveNode (B := B) E base w) as [[bn|e] w1] eqn:Hb.
  2: { exists 0. intros fuel _. rewrite bind_unfold, Hb. intros [= ->]. revert Hb. unfold ResolveNode. rewrite bind_unfold.
       unfold mlift, dagGet. destruct (ResolvePath E base) as [c|]; simpl; [|done].
       pose proof (dag_get_no_fuel w c). intros [=]. congruence. }
  apply ResolveNode_ok in Hb as Hb'. destruct Hb' as (-> & cb & b & _ & Hst & Hp).
  destruct bn as [p|c ls sz].
  2: { exists 0. intros fuel _. by rewrite bind_unfold, Hb, bind_unfold. }
  destruct (edit_ends (λ get, rmLink get p (Split link "/")) w) as [n Hn].
  - intros tmp. apply rm_no_fuel, dag_get_no_fuel.
  - intros root tmp Hop. symmetry in Hp.
    destruct (starts_decoded (odag w) Hs Hc None _ _ _ Hst Hp) as [Hstart _].
    apply (rm_post (odag w) Hs Hc (dag_get E w) (api_get_ok w) _ _ _ _ Hstart) in Hop as [Hed _].
    apply (ed_tmp _ _ _ _ _ Hed).
  - exists n. intros fuel Hf. rewrite bind_unfold, Hb. apply Hn, Hf.
Qed.
End object_laws.

(** When what the node can get is whole, `object patch add-link` gives the CID of
    a root below which the path leads to the child, every path that parts from it leads
    where it led from the base, and the data is the base's.  Nothing is lost, what the
    node can get is whole again, and the command always ends. *)
Theorem AddLink_exact {K B} `{!EqDecision K, !Countable K, !DagCodec K B, !DagCodecLaws K B} (E : ObjEnv K)
    base name child create (w : OW K) :
  whole (B := B) w →
  (∀ fuel c' w', AddLink (B := B) E fuel base name child create w = (Ok c', w') →
     ∃ cb cc d ls, ResolvePath E base = Ok cb ∧ ResolvePath E child = Ok cc ∧ odag w !! cb = Some (PB (d, ls)) ∧
       odag w ⊆ odag w' ∧ whole (B := B) w' ∧ look_from (odag w') c' (Split name "/") = Some cc ∧
       (∀ q, diverge (Split name "/") q → look_from (odag w') c' q = look_from (odag w') cb q) ∧
       ∃ d' ls', odag w' !! c' = Some (PB (d', ls')) ∧ default "" d' = default "" d) ∧
  ∃ n, ∀ fuel, n < fuel → (AddLink (B := B) E fuel base name child create w).1 ≠ Err OFuel.
Proof.
  intros Hw. split; [|by apply AddLink_ends]. intros fuel c' w' Hr. by eapply AddLink_inv.
Qed.

(** `object patch rm-link` gives the CID of a root below which the path leads
    nowhere and every path that parts from it leads where it led, with the same data;
    nothing is lost, what the node can get is whole again, and it always ends. *)
Theorem RmLink_exact {K B} `{!EqDecision K, !Countable K, !DagCodec K B, !DagCodecLaws K B} (E : ObjEnv K)
    base link (w : OW K) :
  whole (B := B) w →
  (∀ fuel c' w', RmLink (B := B) E fuel base link w = (Ok c', w') →
     ∃ cb d ls, ResolvePath E base = Ok cb ∧ odag w !! cb = Some (PB (d, ls)) ∧
       odag w ⊆ odag w' ∧ whole (B := B) w' ∧ look_from (odag w') c' (Split link "/") = None ∧
       (∀ q, diverge (Split link "/") q → look_from (odag w') c' q = look_from (odag w') cb q) ∧
       ∃ d' ls', odag w' !! c' = Some (PB (d', ls')) ∧ default "" d' = default "" d) ∧
  ∃ n, ∀ fuel, n < fuel → (RmLink (B := B) E fuel base link w).1 ≠ Err OFuel.
Proof.
  intros Hw. split; [|by apply RmLink_ends]. intros fuel c' w' Hr. by eapply RmLink_inv.
Qed.

(** ** Getting and putting *)

Section get_put.
Context {K B : Type} `{!EqDecision K, !Countable K, !DagCodec K B} (E : ObjEnv K) (Encode : K → string).

Lemma deserialize_out (ls : list (Link K)) : (∀ l, l ∈ ls → cid_Decode E (Encode (lCid l)) = Some (lCid l)) →
  deserialize_links E (out_link Encode <$> ls) = Ok ls.
Proof.
  induction ls as [|l ls IH]; intros Hc; [done|]. rewrite fmap_cons. cbn [deserialize_links]. cbn [out_link oHash oName oSize].
  rewrite Hc by (by left). rewrite IH by (intros; apply Hc; by right). by destruct l.
Qed.

Lemma ObjectGet_run path enc c d ls (w : OW K) :
  ResolvePath E path = Ok c → odag w !! c = Some (PB (d, ls)) → get_fault E c = None →
  ObjectGetCmd (B := B) E Encode path enc w =
    (match encodeData E (default "" d) enc with
     | Ok out => Ok (mkONode (out_link Encode <$> ls) out) | Err e => Err e end, w).
Proof.
  intros Hr Hc Hf. unfold ObjectGetCmd, Get, Data, ResolveNode, dagGet, dag_get, dag_Get.
  rewrite Hr. go_run. unfold of_res. rewrite Hf, Hc. simpl. by destruct (encodeData E (default "" d) enc).
Qed.

(** What [deserializeNode] makes of what [encodeData] wrote *)
Lemma deserialize_encoded d out enc (ls : list (Link K)) :
  encodeData E d enc = Ok out → base64_Decode E (base64_Encode E d) = Some d →
  (∀ l, l ∈ ls → cid_Decode E (Encode (lCid l)) = Some (lCid l)) →
  deserializeNode (B := B) E (mkONode (out_link Encode <$> ls) out) enc = Ok (mkPN (Some d) ls None None).
Proof.
  intros He H64 Hc. unfold deserializeNode. cbn [oData oLinks]. rewrite deserialize_out by done.
  revert He. unfold encodeData. destruct (decide (enc = "text")); [by intros [= <-]|].
  destruct (decide (enc = "base64")); [|done]. intros [= <-]. by rewrite H64.
Qed.

Lemma Put_run text nd enc p (w : OW K) :
  (Z.of_nat (String.length text) < inputLimit + 10)%Z → json_Decode E text = Some nd →
  deserializeNode (B := B) E nd enc = Ok p → encodable (NProto p) = true → add_fault E (pn_Cid p) = None →
  Put (B := B) E (mkReader text None) "json" enc false w =
    (Ok (pn_Cid p), mkOW (<[pn_Cid p := PB (EncodeProtobuf p)]> (odag w)) (opins w) (olog w ++ [EvAdded (pn_Cid p)])).
Proof.
  intros Hlen Hj Hd Hen Ha. unfold Put, ReadAll_limited. cbn [rBytes rErr].
  rewrite (proj2 (Z.ltb_lt _ _) Hlen). unfold ReadAll. cbn [rErr rBytes].
  go_run. rewrite decide_True by done. unfold opt_or. rewrite Hj, Hd. unfold with_pin_lock, dagAdd. rewrite Hen.
  cbn [negb node_Cid block_of]. by rewrite Ha.
Qed.
End get_put.

(** What `object get` prints of a protobuf node with data, `object put` takes back:
    for a CIDv0 node whose links are in order the CID is the same and nothing in the DAG
    changes, in either encoding of the data. *)
Theorem object_get_put {K B} `{!EqDecision K, !Countable K, !DagCodec K B} (E : ObjEnv K) (Encode : K → string)
    path enc c d ls out text (w w' : OW K) :
  ResolvePath E path = Ok c → odag w !! c = Some (PB (Some d, ls)) → c = Sum (v0CidPrefix (K := K) (B := B)) (Some d, ls) →
  sort_links ls = ls → (∀ l, l ∈ ls → (Size l ≤ i64_max)%Z) →
  (∀ l, l ∈ ls → cid_Decode E (Encode (lCid l)) = Some (lCid l)) →
  base64_Decode E (base64_Encode E d) = Some d → get_fault E c = None → add_fault E c = None →
  ObjectGetCmd (B := B) E Encode path enc w = (Ok out, w') →
  json_Decode E text = Some out → (Z.of_nat (String.length text) < inputLimit + 10)%Z →
  ∃ w'', Put (B := B) E (mkReader text None) "json" enc false w' = (Ok c, w'') ∧ odag w'' = odag w.
Proof.
  intros Hr Hc Hsum Hsort Hsize Hcid H64 Hgf Haf Hget Hjson Hlen.
  rewrite (ObjectGet_run E Encode path enc c (Some d) ls) in Hget by done. simpl in Hget.
  destruct (encodeData E d enc) as [o|] eqn:He; [|done]. injection Hget as <- <-.
  pose proof (deserialize_encoded (B := B) E Encode d o enc ls He H64 Hcid) as Hd.
  assert (EncodeProtobuf (mkPN (B := B) (Some d) ls None None) = (Some d, ls)) as Henc by (unfold EncodeProtobuf; simpl; by rewrite Hsort).
  assert (pn_Cid (mkPN (B := B) (Some d) ls None None) = c) as Hcc by (unfold pn_Cid; by rewrite Henc, Hsum).
  eexists. rewrite (Put_run E text _ enc _ w Hlen Hjson Hd); rewrite ?Hcc, ?Henc; [split; [done|]|..|done].
  - simpl. by rewrite insert_id.
  - simpl. apply forallb_forall. intros l Hl. apply Z.leb_le, Hsize. by rewrite list_elem_of_In.
Qed.

(** A node without data comes back as one with empty data, under another CID. *)
Theorem object_get_put_no_data {K B} `{!EqDecision K, !Countable K, !DagCodec K B, !DagCodecLaws K B} (E : ObjEnv K)
    (Encode : K → string) path c out text (w : OW K) c' w' :
  ResolvePath E path = Ok c → odag w !! c = Some (PB (None, [])) → c = Sum (v0CidPrefix (K := K) (B := B)) (None, []) →
  get_fault E c = None → ObjectGetCmd (B := B) E Encode path "text" w = (Ok out, w) →
  json_Decode E text = Some out → (Z.of_nat (String.length text) < inputLimit + 10)%Z →
  Put (B := B) E (mkReader text None) "json" "text" false w = (Ok c', w') → c' ≠ c.
Proof.
  intros Hr Hc Hsum Hf Hget Hj Hlen.
  rewrite (ObjectGet_run E Encode path "text" c None []) in Hget by done. injection Hget as <-.
  unfold Put, ReadAll_limited. cbn [rBytes rErr]. rewrite (proj2 (Z.ltb_lt _ _) Hlen). unfold ReadAll. cbn [rErr rBytes].
  go_run. rewrite decide_True by done. unfold opt_or. rewrite Hj. cbn [deserializeNode]. unfold deserializeNode.
  rewrite decide_True by done. cbn. unfold with_pin_lock, dagAdd. cbn [encodable].
  cbn. destruct (add_fault _ _); [by intros [=]|].
  intros [= <- _]. rewrite Hsum. unfold pn_Cid. by intros ?%Sum_inj.
Qed.

(** ** Putting with a pin *)

(** `object put --pin` stores and pins under the pin lock and gives the lock back
    however it ends; if it reports a CID the object is stored and pinned, and if it fails
    before the lock nothing changed. *)
Theorem Put_pins_under_lock {K B} `{!EqDecision K, !Countable K, !DagCodec K B} (E : ObjEnv K) src ienc denc (w : OW K) r w' :
  Put (B := B) E src ienc denc true w = (r, w') →
  (is_err r = true ∧ w' = w) ∨
  ∃ c evs, olog w' = olog w ++ [EvPinLock] ++ evs ++ [EvUnlock] ∧ evs `prefix_of` [EvAdded c; EvPinned c; EvFlushed] ∧
    opins w ⊆ opins w' ∧
    (is_ok r = true → r = Ok c ∧ evs = [EvAdded c; EvPinned c; EvFlushed] ∧ is_Some (odag w' !! c) ∧ c ∈ opins w').
Proof.
  unfold Put. rewrite bind_unfold. unfold mlift at 1. destruct (ReadAll_limited _ src) as [data|e]; [|by intros [= <- <-]; left].
  rewrite bind_unfold. match goal with |- context [mlift ?d w] => destruct d as [p|e] end; unfold mlift at 1;
    [|by intros [= <- <-]; left].
  unfold with_pin_lock. rewrite bind_unfold. unfold event at 1. cbv beta iota delta [mmodify].
  rewrite bind_unfold. unfold dagAdd.
  assert (∀ evs : list (Ev K), (olog w ++ [EvPinLock]) ++ evs ++ [EvUnlock] = olog w ++ [EvPinLock] ++ evs ++ [EvUnlock]) as Hlog
    by (intros; by rewrite <- app_assoc).
  destruct (negb _).
  { intros [= <- <-]. right. exists (pn_Cid p), []. simpl. split; [apply (Hlog [])|]. split; [apply prefix_nil|]. by split. }
  destruct (add_fault E _).
  { intros [= <- <-]. right. exists (pn_Cid p), []. simpl. split; [apply (Hlog [])|]. split; [apply prefix_nil|]. by split. }
  cbn [node_Cid block_of odag opins olog]. unfold Flush. destruct (flush_fault E); intros [= <- <-]; right; exists (pn_Cid p).
  - exists [EvAdded (pn_Cid p); EvPinned (pn_Cid p)]. cbn [olog opins odag].
    split; [by rewrite <- !app_assoc|]. split; [by exists [EvFlushed]|]. split; [set_solver|]. by intros [=].
  - exists [EvAdded (pn_Cid p); EvPinned (pn_Cid p); EvFlushed]. cbn [olog opins odag].
    split; [by rewrite <- !app_assoc|]. split; [done|]. split; [set_solver|]. intros _.
    split; [done|]. split; [done|]. split; [by rewrite lookup_insert_eq; eexists|set_solver].
Qed.

(** ** Data *)

(** `object patch set-data` and `append-data` store, under the CID they report, the
    node with its links and the new data, and change nothing else. *)
Theorem patchData_exact {K B} `{!EqDecision K, !Countable K, !DagCodec K B} (E : ObjEnv K) path r app (w w' : OW K) c' :
  patchData (B := B) E path r app w = (Ok c', w') →
  ∃ c d ls, ResolvePath E path = Ok c ∧ odag w !! c = Some (PB (d, ls)) ∧ rErr r = None ∧
    odag w' = <[c' := PB (Some (if app : bool then default "" d +:+ rBytes r else rBytes r), sort_links ls)]> (odag w) ∧
    opins w' = opins w.
Proof.
  unfold patchData. intros (nd & ? & [-> (c & b & Hr & Hb & ->)]%ResolveNode_ok & Hrun)%bind_ok.
  apply bind_ok in Hrun as (p & ? & [Hp ->]%as_proto_ok & Hrun). destruct b as [[d ls]|]; [|done]. injection Hp as <-.
  apply bind_ok in Hrun as (data & ? & [Hd ->]%mlift_ok & Hrun). unfold ReadAll in Hd.
  destruct (rErr r) eqn:Herr; [done|]. injection Hd as <-.
  apply bind_ok in Hrun as ([] & w1 & Ha & Hrun). injection Hrun as <- <-.
  exists c, d, ls. split; [done|]. split; [done|]. split; [done|]. unfold dagAdd in Ha. destruct (negb _); [done|].
  destruct (add_fault _ _); [done|]. by injection Ha as <-.
Qed.

(** ** Where the commands fall short *)

(** The size check counts what the new node links to: however small the block, a patch
    is refused, after it was stored, once its children make up more than 1 MiB. *)
Theorem patched_counts_children {K B} `{!EqDecision K, !Countable K, !DagCodec K B} (E : ObjEnv K) (Encode : K → string)
    op (w w1 : OW K) c (n : INode K B) :
  op w = (Ok c, w1) → dag_get E w1 c = Ok n → (softBlockLimit < node_Size n)%Z →
  is_err (patched (B := B) E Encode false op w).1 = true ∧ (patched (B := B) E Encode false op w).2 = w1.
Proof.
  intros Hop Hn Hsz. unfold patched, checkBlockSize, dagGet. rewrite bind_unfold, Hop, !bind_unfold, Hn.
  by rewrite (proj2 (Z.ltb_lt _ _) Hsz).
Qed.

Section diff.
Context {K B : Type} `{!EqDecision K, !Countable K, !DagCodec K B}.

Lemma find_NoDup (ls : list (Link K)) l : NoDup (Name <$> ls) → l ∈ ls → GetNodeLink (Name l) ls = Some l.
Proof.
  induction ls as [|x ls IH]; intros Hnd Hl; [by apply elem_of_nil in Hl|]. rewrite find_cons.
  rewrite fmap_cons, NoDup_cons in Hnd. destruct Hnd as [Hx Hnd].
  apply elem_of_cons in Hl as [->|Hl]; [by rewrite decide_True|].
  rewrite decide_False; [by apply IH|]. intros Heq. apply Hx. rewrite Heq. by apply list_elem_of_fmap_2.
Qed.

Lemma filter_names_nil (ls : list (Link K)) : filter (λ x, Name x ∉ Name <$> ls) ls = [].
Proof.
  enough (∀ l, l ∉ filter (λ x, Name x ∉ Name <$> ls) ls) as Hnone.
  { destruct (filter _ _) as [|l rest]; [done|]. destruct (Hnone l). by left. }
  intros l [Hn Hl]%list_elem_of_filter. apply Hn. by apply list_elem_of_fmap_2.
Qed.

Lemma filter_no_names (ls : list (Link K)) : filter (λ x, Name x ∉ Name <$> ([] : list (Link K))) ls = ls.
Proof.
  induction ls as [|x ls IH]; [done|]. rewrite filter_cons_True by (apply not_elem_of_nil). by rewrite IH.
Qed.

(** Two nodes with the same links and different data have no difference to report. *)
Theorem Diff_misses_data get fuel (pa pb : ProtoNode K B) l ls :
  plinks pa = l :: ls → plinks pb = l :: ls → NoDup (Name <$> l :: ls) →
  Diff get (S fuel) (NProto pa) (NProto pb) = Ok [].
Proof.
  intros Ha Hb Hnd. cbn [Diff]. case_decide; [done|]. rewrite decide_False by (rewrite Ha; by intros [[=] _]).
  match goal with |- context [foldl ?f _ _] => set (step := f) end.
  assert (∀ (todo : list (Link K)) A0 B0, (∀ x, x ∈ todo → GetNodeLink (Name x) (plinks pb) = Some x) →
    ∃ A1 B1 : ProtoNode K B, foldl step (Ok ([], A0, B0)) todo = Ok ([], A1, B1) ∧
      plinks A1 = filter (λ x, Name x ∉ Name <$> todo) (plinks A0) ∧
      plinks B1 = filter (λ x, Name x ∉ Name <$> todo) (plinks B0)) as Hfold.
  { induction todo as [|x todo IH]; intros A0 B0 Hin.
    - exists A0, B0. split; [done|]. split; by rewrite filter_no_names.
    - cbn [foldl]. unfold step at 2. cbn [mbind res_bind]. rewrite Hin by (by left). rewrite decide_True by done.
      destruct (IH (RemoveNodeLink (Name x) A0).2 (RemoveNodeLink (Name x) B0).2) as (A1 & B1 & Hf & HA & HB);
        [intros; apply Hin; by right|].
      exists A1, B1. split; [exact Hf|]. rewrite HA, HB, !removed_links.
      split; rewrite list_filter_filter; apply list_filter_iff; intros y; rewrite fmap_cons, not_elem_of_cons; tauto. }
  destruct (Hfold (plinks pa) (Copy pa) (Copy pb)) as (A1 & B1 & Hf & HA & HB).
  { intros x Hx. rewrite Hb. apply find_NoDup; [done|]. by rewrite <- Ha. }
  rewrite Hf. cbn [mbind res_bind]. rewrite HA, HB. simpl (plinks (Copy _)). rewrite Hb, <- Ha.
  by rewrite !filter_names_nil.
Qed.
End diff.

(** ** A codec whose hashes are the trees they stand for *)

Module ObjectExample.

Abbreviation Hash_ := (gen_tree (string + Z)).

Definition link_tree (l : Link Hash_) : list Hash_ := [GenLeaf (inl (Name l)); GenLeaf (inr (Size l)); lCid l].
Definition sum (x : Content Hash_) : Hash_ :=
  GenNode (match x.1 with Some _ => 1 | None => 0 end) (GenLeaf (inl (default "" x.1)) :: (x.2 ≫= link_tree)).

#[global] Instance codec : DagCodec Hash_ () := {|
  v0CidPrefix := (); Prefix _ := (); Sum _ x := sum x;
  encLen x := Z.of_nat (String.length (default "" x.1) + 40 * length x.2) |}.

Fixpoint tree_height (t : Hash_) : nat :=
  match t with GenLeaf _ => 0 | GenNode _ ts => S (max_list (map tree_height ts)) end.

Lemma links_inj (l1 l2 : list (Link Hash_)) : l1 ≫= link_tree = l2 ≫= link_tree → l1 = l2.
Proof.
  revert l2. induction l1 as [|[n1 s1 c1] l1 IH]; intros [|[n2 s2 c2] l2] Heq; [done..|].
  injection Heq as Hn Hs Hc Hl. rewrite Hn, Hs, Hc. f_equal. by apply IH.
Qed.

#[global] Instance codec_laws : DagCodecLaws Hash_ ().
Proof.
  refine {| height := tree_height |}.
  - intros b b' [d1 l1] [d2 l2] Heq. injection Heq as Hd Hs Hl. apply links_inj in Hl as ->.
    destruct d1, d2; simpl in Hd, Hs; congruence.
  - done.
  - intros b [d ls] l Hl. simpl in *. apply Nat.lt_succ_r.
    enough (tree_height (lCid l) ≤ max_list (map tree_height (ls ≫= link_tree))) by lia.
    apply max_list_elem_of_le. apply list_elem_of_In, in_map, list_elem_of_In, list_elem_of_bind.
    exists l. split; [|done]. do 2 right. by left.
Defined.

Definition leaf (d : string) : Content Hash_ := (Some d, []).
Definition dir : Content Hash_ := (Some "dir", [mkLink "a" 5 (sum (leaf "file"))]).
Definition big : Content Hash_ := (Some "big", [mkLink "" (3 * 1024 * 1024) (sum (leaf "chunk"))]).

Definition w0 : OW Hash_ :=
  mkOW (list_to_map ((λ x, (sum x, PB x)) <$> [leaf "file"; leaf "chunk"; dir; big])) ∅ [].

Definition show (nd : ONode) : string := oData nd.

Definition E : ObjEnv Hash_ := {|
  get_fault _ := None; add_fault _ := None; flush_fault := None;
  ResolvePath p := if decide (p = "dir") then Ok (sum dir) else if decide (p = "file") then Ok (sum (leaf "file"))
                   else if decide (p = "big") then Ok (sum big) else Err "no such path";
  json_Decode s := Some (mkONode [] s); xml_Unmarshal _ := None; DecodeProtobuf _ := None;
  base64_Decode s := Some s; base64_Encode s := s; cid_Decode _ := None; EmptyDir_data := "empty";
  other_Stat _ _ _ := Err "not a node" |}.

Lemma w0_whole : whole (B := ()) w0.
Proof.
  assert (∀ c b, odag w0 !! c = Some b → ∃ x, x ∈ [leaf "file"; leaf "chunk"; dir; big] ∧ c = sum x ∧ b = PB x) as Hin.
  { intros c b Hb%elem_of_list_to_map_2. apply list_elem_of_fmap in Hb as (x & [= -> ->] & Hx). by exists x. }
  assert (∀ x, x ∈ [leaf "file"; leaf "chunk"; dir; big] → is_Some (odag w0 !! sum x)) as Hthere.
  { intros x Hx. repeat (apply elem_of_cons in Hx as [->|Hx]; [eexists; vm_compute; reflexivity|]).
    by apply elem_of_nil in Hx. }
  split.
  - intros c b (x & _ & -> & ->)%Hin. by exists ().
  - intros c b l (x & Hx & -> & ->)%Hin Hl.
    repeat (apply elem_of_cons in Hx as [->|Hx]; [simpl in Hl; try (by apply elem_of_nil in Hl);
      apply list_elem_of_singleton in Hl as ->; apply Hthere; simpl; rewrite !elem_of_cons; tauto|]).
    by apply elem_of_nil in Hx.
Qed.

End ObjectExample.

Lemma AddLink_exact_witness :
  let run := AddLink (B := ()) ObjectExample.E 10 "dir" "x/y" "file" true ObjectExample.w0 in
  ∃ c', run.1 = Ok c' ∧ look_from (odag run.2) c' ["x"; "y"] = Some (ObjectExample.sum (ObjectExample.leaf "file")) ∧
        look_from (odag run.2) c' ["a"] = Some (ObjectExample.sum (ObjectExample.leaf "file")).
Proof.
  cbv zeta. assert (is_ok (AddLink (B := ()) ObjectExample.E 10 "dir" "x/y" "file" true ObjectExample.w0).1 = true) as Hok
    by by vm_compute.
  destruct (AddLink (B := ()) ObjectExample.E 10 "dir" "x/y" "file" true ObjectExample.w0) as [r w'] eqn:Hr.
  destruct r as [c'|e]; [|discriminate Hok]. exists c'. split; [reflexivity|].
  destruct (AddLink_exact (B := ()) ObjectExample.E "dir" "x/y" "file" true ObjectExample.w0 ObjectExample.w0_whole) as [Hspec _].
  destruct (Hspec _ _ _ Hr) as (cb & cc & d & ls & Hcb & Hcc & _ & Hsub & _ & Hlook & Hother & _).
  injection Hcb as <-. injection Hcc as <-. split; [exact Hlook|].
  simpl. rewrite (Hother ["a"]) by (left; discriminate). unfold look_from.
  rewrite (lookup_weaken (odag ObjectExample.w0) (odag w') (ObjectExample.sum ObjectExample.dir) (PB ObjectExample.dir)); [reflexivity|by vm_compute|exact Hsub].
Defined.

Lemma RmLink_exact_witness :
  let run := RmLink (B := ()) ObjectExample.E 10 "dir" "a" ObjectExample.w0 in
  ∃ c', run.1 = Ok c' ∧ look_from (odag run.2) c' ["a"] = None.
Proof.
  cbv zeta. assert (is_ok (RmLink (B := ()) ObjectExample.E 10 "dir" "a" ObjectExample.w0).1 = true) as Hok
    by by vm_compute.
  destruct (RmLink (B := ()) ObjectExample.E 10 "dir" "a" ObjectExample.w0) as [r w'] eqn:Hr.
  destruct r as [c'|e]; [|discriminate Hok]. exists c'. split; [reflexivity|].
  destruct (RmLink_exact (B := ()) ObjectExample.E "dir" "a" ObjectExample.w0 ObjectExample.w0_whole) as [Hspec _].
  destruct (Hspec _ _ _ Hr) as (cb & d & ls & _ & _ & _ & _ & Hlook & _). exact Hlook.
Defined.

Lemma object_get_put_witness :
  ∃ w'', Put (B := ()) ObjectExample.E (mkReader "file" None) "json" "text" false ObjectExample.w0 =
           (Ok (ObjectExample.sum (ObjectExample.leaf "file")), w'') ∧ odag w'' = odag ObjectExample.w0.
Proof.
  apply (object_get_put (B := ()) ObjectExample.E (λ _, "") "file" "text" (ObjectExample.sum (ObjectExample.leaf "file"))
    "file" [] (mkONode [] "file") "file" ObjectExample.w0 ObjectExample.w0).
  - vm_compute. reflexivity.
  - vm_compute. reflexivity.
  - reflexivity.
  - reflexivity.
  - intros l Hl. by apply elem_of_nil in Hl.
  - intros l Hl. by apply elem_of_nil in Hl.
  - reflexivity.
  - reflexivity.
  - reflexivity.
  - rewrite (ObjectGet_run (B := ()) ObjectExample.E (λ _, "") "file" "text" (ObjectExample.sum (ObjectExample.leaf "file"))
      (Some "file") []); [reflexivity|vm_compute; reflexivity|vm_compute; reflexivity|reflexivity].
  - reflexivity.
  - vm_compute. reflexivity.
Defined.

Lemma Put_pins_under_lock_witness :
  let run := Put (B := ()) ObjectExample.E (mkReader "new" None) "json" "text" true ObjectExample.w0 in
  is_ok run.1 = true ∧ ∃ c, run.1 = Ok c ∧ c ∈ opins run.2.
Proof.
  cbv zeta. assert (is_ok (Put (B := ()) ObjectExample.E (mkReader "new" None) "json" "text" true ObjectExample.w0).1 = true)
    as Hok by by vm_compute.
  split; [exact Hok|].
  destruct (Put_pins_under_lock (B := ()) ObjectExample.E (mkReader "new" None) "json" "text" ObjectExample.w0 _ _
    (surjective_pairing _)) as [[He _]|(c & evs & _ & _ & _ & Hspec)].
  - unfold is_err in He. rewrite Hok in He. discriminate He.
  - destruct (Hspec Hok) as (Hr & _ & _ & Hpin). exists c. split; [exact Hr|exact Hpin].
Defined.

Lemma patchData_exact_witness :
  ∃ c' w', patchData (B := ()) ObjectExample.E "file" (mkReader "s" None) true ObjectExample.w0 = (Ok c', w') ∧
    odag w' = <[c' := PB (Some "files", [])]> (odag ObjectExample.w0).
Proof.
  assert (is_ok (patchData (B := ()) ObjectExample.E "file" (mkReader "s" None) true ObjectExample.w0).1 = true) as Hok
    by by vm_compute.
  destruct (patchData (B := ()) ObjectExample.E "file" (mkReader "s" None) true ObjectExample.w0) as [r w'] eqn:Hr.
  destruct r as [c'|e]; [|discriminate Hok]. exists c', w'. split; [reflexivity|].
  destruct (patchData_exact (B := ()) _ _ _ _ _ _ _ Hr) as (c & d & ls & Hc & Hb & _ & Hd & _).
  injection Hc as <-.
  assert (odag ObjectExample.w0 !! ObjectExample.sum (ObjectExample.leaf "file") = Some (PB (ObjectExample.leaf "file")))
    as Hf by by vm_compute.
  rewrite Hf in Hb. injection Hb as <- <-. exact Hd.
Defined.

(** A directory of a few bytes that links to a file of 3 MiB cannot be made. *)
Example small_block_refused :
  (patchAddLinkCmd (B := ()) ObjectExample.E (λ _, "") 10 false "dir" "b" "big" false ObjectExample.w0).1 =
  Err (OMsg "produced block is over 1MB, object API is deprecated and does not support HAMT-sharding: to create big directories, please use the files API (MFS)").
Proof. by vm_compute. Qed.
