(* ===== verification/PinMfs.v ===== *)
(** * Pinning the MFS root remotely (cmd/ipfs/pinmfs.go)

    Every poll interval the daemon pins the current MFS root on the services whose
    policy asks for it, replacing the pin it made before, and remembers in
    [lastPins] what it pinned where.  A service is an account, the endpoint and the
    key of its client; the services of one round are independent goroutines, taken
    here in an arbitrary order. *)

From Stdlib Require Import ZArith Ascii String.
From stdpp Require Import base gmap sets list strings pretty.
From S2P Require Import Prelude GoStrings Cid.

(** config.RemotePinningService; the values of the fields are all it is compared by. *)
Record Service := mkService { Endpoint : string; Key : string; Enable : bool; PinName : string; RepinInterval : string }.

#[global] Instance Service_eq_dec : EqDecision Service.
Proof. solve_decision. Defined.

Record lastPin := mkLast { Time : Z; ServiceName : string; ServiceConfig : Service; CID : Cid }.

(** pinclient.PinStatusGetter *)
Record MfsPin := mkMfsPin { pinId : string; pinName : string; pinCid : Cid; pinStatus : string; pinCreated : Z }.

(** The client of one account: Ls by name over every status, Add and Replace *)
Class MfsClient (R : Type) := {
  mc_Ls : string → R → list MfsPin * option string;
  mc_Add : Cid → string → list string → M R string unit;
  mc_Replace : string → Cid → string → list string → M R string unit;
}.

(** What the loop reads of the node, and the library's durations *)
Record MfsEnv := mkMfsEnv {
  Identity : string;
  p2p_addrs : option (res string (list string));
  ParseDuration : string → res string Z;
}.

Definition daemonConfigPollInterval : Z := 30 * 10 ^ 9.
Definition defaultRepinInterval : Z := 5 * 60 * 10 ^ 9.

Section pinmfs.
Context (E : MfsEnv) {R : Type} `{!MfsClient R}.

(** pinName of pinMFS *)
Definition pin_name (conf : Service) : string :=
  if decide (PinName conf = "") then "policy/" +:+ Identity E +:+ "/mfs" else PinName conf.

(** The loop over the listed pins: the ID of the last one seen, and the time of the
    first that pins [c] already, where the loop stops. *)
Fixpoint scan_pins (c : Cid) (existing : string) (l : list MfsPin) : string * option Z :=
  match l with
  | [] => (existing, None)
  | ps :: l' =>
      if decide (pinCid ps = c ∧ pinStatus ps ≠ "failed") then (pinId ps, Some (pinCreated ps))
      else scan_pins c (pinId ps) l'
  end.

(** pinMFS at the time [now] *)
Definition pinMFS (now : Z) (c : Cid) (svcName : string) (conf : Service) : M R string lastPin := λ r,
  match mc_Ls (pin_name conf) r with
  | (_, Some e) => (Err ("error while listing remote pins: " +:+ e), r)
  | (l, None) =>
      match scan_pins c "" l with
      | (_, Some created) => (Ok (mkLast created svcName conf c), r)
      | (existing, None) =>
          (origins ← mlift (default (Ok []) (p2p_addrs E));
           _ ← (if decide (existing = "") then mc_Add c (pin_name conf) origins
                else mc_Replace existing c (pin_name conf) origins);
           mret (mkLast now svcName conf c)) r
      end
  end.

(** The accounts, by endpoint and key *)
Definition Accounts : Type := string * string → R.
Definition account (conf : Service) : string * string := (Endpoint conf, Key conf).
Definition set_account (k : string * string) (r : R) (a : Accounts) : Accounts := λ k', if decide (k' = k) then r else a k'.

Record MState := mkMState { lastPins : gmap string lastPin; accounts : Accounts; errors : list string }.

(** time.Since, which saturates *)
Definition since (now t : Z) : Z := Z.max i64_min (Z.min i64_max (now - t)).

(** What pinAllMFS decides about a service before it starts a goroutine *)
Inductive Todo := Skip | BadInterval (e : string) | Pin.

Definition consider (now : Z) (root : Cid) (last : option lastPin) (conf : Service) : Todo :=
  if negb (Enable conf) then Skip
  else
    match (if decide (RepinInterval conf = "") then Ok defaultRepinInterval else ParseDuration E (RepinInterval conf)) with
    | Err e => BadInterval e
    | Ok repinInterval =>
        match last with
        | Some l =>
            if decide (ServiceConfig l = conf ∧ (CID l = root ∨ (since now (Time l) < repinInterval)%Z)) then Skip else Pin
        | None => Pin
        end
    end.

(** The body of the loop of pinAllMFS, its goroutine and the reading of its result.
    A result that is the zero lastPin does not count; one of pinMFS never is. *)
Definition pin_service (now : Z) (root : Cid) (svc : string * Service) (s : MState) : MState :=
  let '(svcName, conf) := svc in
  match consider now root (lastPins s !! svcName) conf with
  | Skip => s
  | BadInterval e =>
      mkMState (lastPins s) (accounts s)
        (errors s ++ ["remote pinning service " +:+ svcName +:+ " has invalid MFS.RepinInterval (" +:+ e +:+ ")"])
  | Pin =>
      match pinMFS now root svcName conf (accounts s (account conf)) with
      | (Err e, r) =>
          mkMState (lastPins s) (set_account (account conf) r (accounts s))
            (errors s ++ ["pinning MFS root to " +:+ svcName +:+ " (" +:+ e +:+ ")"])
      | (Ok x, r) => mkMState (<[ServiceName x := x]> (lastPins s)) (set_account (account conf) r (accounts s)) (errors s)
      end
  end.

(** pinAllMFS; [order] is the order the services are taken in. *)
Definition pinAllMFS (now : Z) (root : Cid) (order : list (string * Service)) (s : MState) : MState :=
  foldl (λ s svc, pin_service now root svc s) s order.

(** A turn of the loop of pinMFSOnChange: what it reads when it wakes up *)
Record Turn := mkTurn {
  tNow : Z;
  GetConfigNoCache : res string (list (string * Service));
  RootNode : res string Cid;
}.

(** pinMFSOnChange until its context is done, after the turns given *)
Definition mfs_turn (s : MState) (t : Turn) : MState :=
  match GetConfigNoCache t with
  | Err e => mkMState (lastPins s) (accounts s) (errors s ++ ["pinning reading config (" +:+ e +:+ ")"])
  | Ok services =>
      match RootNode t with
      | Err e => mkMState (lastPins s) (accounts s) (errors s ++ ["pinning reading MFS root (" +:+ e +:+ ")"])
      | Ok root => pinAllMFS (tNow t) root services s
      end
  end.

Definition pinMFSOnChange (a : Accounts) (turns : list Turn) : MState :=
  foldl mfs_turn (mkMState ∅ a []) turns.

End pinmfs.

(** ** What the accounts hold *)

(** The pins of an account by request ID.  A listing gives those of the name; Add makes
    one with a new ID, Replace one instead of the old; either may have worked when it
    reports an error. *)
Class MfsClientLaws (R : Type) `{MfsClient R} (pins : R → gmap string MfsPin) := {
  pins_Id r id ps : pins r !! id = Some ps → pinId ps = id ∧ id ≠ "";
  Ls_name name r l : mc_Ls name r = (l, None) → ∀ ps, ps ∈ l ↔ pins r !! pinId ps = Some ps ∧ pinName ps = name;
  Add_pins c name o r x r' : mc_Add c name o r = (x, r') →
    (is_err x = true ∧ pins r' = pins r) ∨
    ∃ id st t, pins r !! id = None ∧ st ≠ "failed" ∧ pins r' = <[id := mkMfsPin id name c st t]> (pins r);
  Replace_pins old c name o r x r' : mc_Replace old c name o r = (x, r') →
    (is_err x = true ∧ pins r' = pins r) ∨
    ∃ id st t, delete old (pins r) !! id = None ∧ st ≠ "failed" ∧
      pins r' = <[id := mkMfsPin id name c st t]> (delete old (pins r));
}.

Section pinmfs_laws.
Context (E : MfsEnv) {R : Type} `{MfsClient R} {pins : R → gmap string MfsPin} `{!MfsClientLaws R pins}.

Definition named (name : string) (r : R) (ps : MfsPin) : Prop := pins r !! pinId ps = Some ps ∧ pinName ps = name.

(** The account pins [c] under the name. *)
Definition pinned_as (name : string) (c : Cid) (r : R) : Prop :=
  ∃ ps, named name r ps ∧ pinCid ps = c ∧ pinStatus ps ≠ "failed".

(** At most one pin has the name. *)
Definition one_pin (name : string) (r : R) : Prop := ∀ p q, named name r p → named name r q → p = q.

Lemma scan_spec c l : ∀ e existing o, scan_pins c e l = (existing, o) →
  match o with
  | Some t => ∃ ps, ps ∈ l ∧ pinCid ps = c ∧ pinStatus ps ≠ "failed" ∧ pinCreated ps = t
  | None => (l = [] ∧ existing = e) ∨ ∃ ps, ps ∈ l ∧ pinId ps = existing
  end.
Proof.
  induction l as [|ps l IH]; intros e existing o; simpl; [intros [= <- <-]; by left|].
  case_decide as Hd.
  - intros [= <- <-]. exists ps. destruct Hd. split; [by left|done].
  - intros Ho%IH. destruct o as [t|].
    + destruct Ho as (q & Hq & ?). exists q. split; [by right|done].
    + destruct Ho as [[-> ->]|(q & Hq & ?)]; right; [exists ps; split; [by left|done]|exists q; split; [by right|done]].
Qed.

Lemma named_insert id p (m : gmap string MfsPin) : (∀ i q, m !! i = Some q → pinId q = i) → pinId p = id →
  ∀ q, <[id := p]> m !! pinId q = Some q ↔ q = p ∨ (pinId q ≠ id ∧ m !! pinId q = Some q).
Proof.
  intros Hm Hp q. rewrite lookup_insert_Some. split.
  - intros [[Hid <-]|[Hne Hq]]; [by left|right]. done.
  - intros [-> | [Hne Hq]]; [by left|right]. split; [congruence|done].
Qed.

(** What pinMFS does to its account, and what it reports *)
Lemma pinMFS_spec now c svcName conf r x r' : pinMFS E now c svcName conf r = (x, r') →
  (one_pin (pin_name E conf) r → one_pin (pin_name E conf) r') ∧
  (∀ name ps, name ≠ pin_name E conf → named name r' ps ↔ named name r ps) ∧
  (∀ l, x = Ok l → ServiceName l = svcName ∧ ServiceConfig l = conf ∧ CID l = c ∧ pinned_as (pin_name E conf) c r').
Proof.
  unfold pinMFS. set (name := pin_name E conf).
  destruct (mc_Ls name r) as [l [e|]] eqn:Hls; [by intros [= <- <-]|].
  destruct (scan_pins c "" l) as [existing [t|]] eqn:Hscan.
  - intros [= <- <-]. split; [done|]. split; [done|]. intros x [= <-]. split; [done|]. split; [done|]. split; [done|].
    apply scan_spec in Hscan as (ps & Hps & Hc & Hst & _). exists ps. split; [by apply (Ls_name _ _ _ Hls)|done].
  - rewrite bind_unfold. unfold mlift at 1. destruct (default (Ok []) (p2p_addrs E)) as [o|e]; [|by intros [= <- <-]].
    rewrite bind_unfold. apply scan_spec in Hscan.
    assert (∀ y r1, (if decide (existing = "") then mc_Add c name o else mc_Replace existing c name o) r = (y, r1) →
      (is_err y = true ∧ pins r1 = pins r) ∨
      ∃ id st t, delete existing (pins r) !! id = None ∧ st ≠ "failed" ∧
        pins r1 = <[id := mkMfsPin id name c st t]> (delete existing (pins r)) ∧
        (∀ ps, pins r !! existing = Some ps → pinName ps = name) ∧
        (∀ ps, named name r ps → pinId ps = existing ∨ ¬ one_pin name r)) as Heff.
    { intros y r1. case_decide as Hex.
      - intros [?|(id & st & t & Hid & Hst & Hp)]%Add_pins; [by left|right]. exists id, st, t.
        assert (pins r !! existing = None) as Hnone.
        { destruct (pins r !! existing) as [ps|] eqn:Hps; [|done]. apply pins_Id in Hps as [_ ?]. done. }
        rewrite delete_id by done. split; [done|]. split; [done|]. split; [done|].
        split; [by intros ps; rewrite Hnone|].
        destruct Hscan as [[-> _]|(ps & Hps & Hpid)].
        + intros ps Hn. apply (Ls_name _ _ _ Hls) in Hn. by apply elem_of_nil in Hn.
        + apply (Ls_name _ _ _ Hls) in Hps as [Hps _]. apply pins_Id in Hps as [_ ?]. congruence.
      - intros [?|(id & st & t & Hid & Hst & Hp)]%Replace_pins; [by left|right]. exists id, st, t.
        destruct Hscan as [[_ ?]|(q & Hq & <-)]; [done|]. apply (Ls_name _ _ _ Hls) in Hq.
        split; [done|]. split; [done|]. split; [done|]. split; [intros ps Hps; destruct Hq; congruence|]. intros ps Hn.
        destruct (decide (pinId ps = pinId q)) as [?|Hne]; [by left|right]. intros Hone. apply Hne. by rewrite (Hone ps q). }
    destruct ((if decide (existing = "") then mc_Add c name o else mc_Replace existing c name o) r) as [y r1] eqn:Hact.
    intros Hrun. assert (r' = r1) as -> by (by destruct y; injection Hrun).
    destruct (Heff _ _ eq_refl) as [[Hy Hp]|(id & st & t & Hid & Hst & Hp & Hexn & Hold)].
    + unfold one_pin, named. rewrite Hp. split; [done|]. split; [done|]. destruct y; [done|]. by injection Hrun as <-.
    + assert (∀ i q, delete existing (pins r) !! i = Some q → pinId q = i) as Hkeys
        by (intros i q [_ Hq]%lookup_delete_Some; by apply pins_Id in Hq as [? _]).
      assert (∀ q, pins r1 !! pinId q = Some q ↔ q = mkMfsPin id name c st t ∨
        (pinId q ≠ id ∧ delete existing (pins r) !! pinId q = Some q)) as Hq
        by (intros q; rewrite Hp; by apply named_insert).
      split; [|split].
      * intros Hone p q [Hp1 Hpn] [Hq1 Hqn]. apply Hq in Hp1, Hq1.
        assert (∀ u, named name r u → pinId u = existing) as Hall by (intros u Hu; by destruct (Hold u Hu)).
        destruct Hp1 as [->|[_ [Hpe Hp1]%lookup_delete_Some]];
          [|exfalso; apply Hpe; symmetry; by apply Hall].
        destruct Hq1 as [->|[_ [Hqe Hq1]%lookup_delete_Some]]; [done|].
        exfalso; apply Hqe; symmetry; by apply Hall.
      * intros n ps Hn. unfold named. rewrite Hq, lookup_delete_Some. split.
        -- intros [[->|(_ & _ & Hps)] Hpn]; [by simpl in Hpn|done].
        -- intros [Hps Hpn]. split; [right|done]. assert (existing ≠ pinId ps) as Hne.
           { intros ->. apply Hexn in Hps. congruence. }
           split; [|done]. intros Hpid. rewrite <- Hpid, lookup_delete_ne in Hid by done. congruence.
      * intros lp ->. destruct y as [[]|e]; [|done]. injection Hrun as <-. split; [done|]. split; [done|]. split; [done|].
        exists (mkMfsPin id name c st t). split; [split; [|done]; apply Hq; by left|done].
Qed.

(** Accounts other than the service's own are left alone. *)
Lemma pin_service_accounts now root svcName conf s k : k ≠ account conf →
  accounts (pin_service E now root (svcName, conf) s) k = accounts s k.
Proof.
  intros Hk. unfold pin_service. destruct (consider _ _ _ _ _); [done..|].
  destruct (pinMFS _ _ _ _ _ _) as [[x|e] r]; simpl; unfold set_account; by case_decide.
Qed.

Lemma pin_service_one now root svcName conf s name k : one_pin name (accounts s k) →
  one_pin name (accounts (pin_service E now root (svcName, conf) s) k).
Proof.
  intros Hone. destruct (decide (k = account conf)) as [->|Hk]; [|by rewrite pin_service_accounts].
  unfold pin_service. destruct (consider _ _ _ _ _); [done..|].
  destruct (pinMFS _ _ _ _ _ _) as [x r] eqn:Hp. apply pinMFS_spec in Hp as (Hname & Hother & _).
  assert (one_pin name r) as Hr.
  { destruct (decide (name = pin_name E conf)) as [->|Hne]; [by apply Hname|].
    intros p q Hp' Hq'. apply Hone; by apply Hother. }
  destruct x; simpl; unfold set_account; by rewrite decide_True.
Qed.

(** What is remembered about a service, and what its account holds after its turn *)
Lemma pin_service_due now root svcName conf s : consider E now root (lastPins s !! svcName) conf = Pin →
  let s' := pin_service E now root (svcName, conf) s in
  (errors s' = errors s ∧ pinned_as (pin_name E conf) root (accounts s' (account conf)) ∧
   ∃ l, lastPins s' = <[svcName := l]> (lastPins s) ∧ ServiceConfig l = conf ∧ CID l = root) ∨
  (lastPins s' = lastPins s ∧ ∃ e, errors s' = errors s ++ [e]).
Proof.
  intros Hc. cbv zeta. unfold pin_service. rewrite Hc.
  destruct (pinMFS _ _ _ _ _ _) as [[x|e] r] eqn:Hp; [left|right; eauto].
  apply pinMFS_spec in Hp as (_ & _ & Hok). destruct (Hok x eq_refl) as (Hn & Hcf & Hcid & Hpin). simpl.
  split; [done|]. split; [unfold set_account; by rewrite decide_True|]. exists x. by rewrite Hn.
Qed.

Lemma pin_service_frame now root svcName conf s n : n ≠ svcName →
  lastPins (pin_service E now root (svcName, conf) s) !! n = lastPins s !! n.
Proof.
  intros Hn. unfold pin_service. destruct (consider _ _ _ _ _); [done..|].
  destruct (pinMFS _ _ _ _ _ _) as [[x|e] r] eqn:Hp; [|done].
  apply pinMFS_spec in Hp as (_ & _ & Hok). destruct (Hok x eq_refl) as (Hs & _). simpl.
  by rewrite lookup_insert_ne by congruence.
Qed.

Lemma pinAll_accounts now root order s k : k ∉ ((λ p, account p.2) <$> order) →
  accounts (pinAllMFS E now root order s) k = accounts s k.
Proof.
  revert s. induction order as [|[n c] order IH]; intros s Hk; [done|]. unfold pinAllMFS. simpl.
  rewrite fmap_cons, not_elem_of_cons in Hk. destruct Hk as [Hk1 Hk2].
  etrans; [by apply (IH (pin_service E now root (n, c) s))|]. by apply pin_service_accounts.
Qed.

Lemma pinAll_last now root order s n : n ∉ (fst <$> order) →
  lastPins (pinAllMFS E now root order s) !! n = lastPins s !! n.
Proof.
  revert s. induction order as [|[m c] order IH]; intros s Hn; [done|]. unfold pinAllMFS. simpl.
  rewrite fmap_cons, not_elem_of_cons in Hn. destruct Hn as [Hn1 Hn2].
  etrans; [by apply (IH (pin_service E now root (m, c) s))|]. by apply pin_service_frame.
Qed.

Lemma pinAll_errors now root order s : errors s `prefix_of` errors (pinAllMFS E now root order s).
Proof.
  revert s. induction order as [|[m c] order IH]; intros s; [done|]. unfold pinAllMFS. simpl.
  etrans; [|apply (IH (pin_service E now root (m, c) s))]. unfold pin_service.
  destruct (consider _ _ _ _ _); [done|by eexists|].
  destruct (pinMFS _ _ _ _ _ _) as [[x|e] r]; simpl; [done|by eexists].
Qed.

Lemma mfs_one_pin_turns turns s name k : one_pin name (accounts s k) →
  one_pin name (accounts (foldl (mfs_turn E) s turns) k).
Proof.
  revert s. induction turns as [|t turns IH]; intros s Hone; [done|]. simpl. apply IH. unfold mfs_turn.
  destruct (GetConfigNoCache t) as [services|]; [|done]. destruct (RootNode t) as [root|]; [|done].
  unfold pinAllMFS. revert s Hone. induction services as [|[n c] services IHs]; intros s Hone; [done|].
  simpl. by apply IHs, pin_service_one.
Qed.
End pinmfs_laws.

(** However long the daemon runs, whatever the configuration becomes and whichever
    requests fail, no account ever has two pins of the same name because of the MFS
    policy: the pin of the last root is replaced, not joined by another. *)
Theorem mfs_one_pin E {R} `{MfsClientLaws R pins} (a : Accounts (R := R)) turns name k :
  one_pin (pins := pins) name (a k) → one_pin (pins := pins) name (accounts (pinMFSOnChange E a turns) k).
Proof. intros Hone. by apply mfs_one_pin_turns. Qed.

(** After a round that reports no error, every service whose policy asks for it has
    the current root pinned under its name, or was pinned with the same settings before
    and either for this root or less than its interval ago; a service whose policy does
    not ask for it is never contacted. *)
Theorem pinAllMFS_exact E {R} `{MfsClientLaws R pins} now root order (s : MState (R := R)) svcName conf :
  NoDup (fst <$> order) → NoDup ((λ p, account p.2) <$> order) → (svcName, conf) ∈ order →
  let s' := pinAllMFS E now root order s in
  (Enable conf = false → accounts s' (account conf) = accounts s (account conf)) ∧
  (errors s' = errors s → Enable conf = true →
     (pinned_as (pins := pins) (pin_name E conf) root (accounts s' (account conf)) ∧
      ∃ l, lastPins s' !! svcName = Some l ∧ ServiceConfig l = conf ∧ CID l = root) ∨
     (accounts s' (account conf) = accounts s (account conf) ∧
      ∃ l i, lastPins s !! svcName = Some l ∧ ServiceConfig l = conf ∧
        (CID l = root ∨ ((if decide (RepinInterval conf = "") then Ok defaultRepinInterval
                          else ParseDuration E (RepinInterval conf)) = Ok i ∧ (since now (Time l) < i)%Z)))).
Proof.
  intros Hn Ha (pre & post & ->)%list_elem_of_split. cbv zeta.
  rewrite fmap_app, fmap_cons, NoDup_app, NoDup_cons in Hn. rewrite fmap_app, fmap_cons, NoDup_app, NoDup_cons in Ha.
  destruct Hn as (_ & Hpre & Hpost & _), Ha as (_ & Hapre & Hapost & _).
  set (s1 := pinAllMFS E now root pre s).
  assert (pinAllMFS E now root (pre ++ (svcName, conf) :: post) s =
          pinAllMFS E now root post (pin_service E now root (svcName, conf) s1)) as -> by (unfold pinAllMFS; by rewrite foldl_app).
  set (s2 := pin_service E now root (svcName, conf) s1).
  assert (accounts s1 (account conf) = accounts s (account conf)) as Hacc1.
  { apply pinAll_accounts. intros Hin. apply (Hapre _ Hin). by left. }
  assert (lastPins s1 !! svcName = lastPins s !! svcName) as Hlast1.
  { apply (pinAll_last E (pins := pins)). intros Hin. apply (Hpre _ Hin). by left. }
  rewrite (pinAll_accounts E now root post s2) by done.
  rewrite (pinAll_last E (pins := pins) now root post s2) by done.
  split.
  - intros Hen. unfold s2, pin_service, consider. rewrite Hen. exact Hacc1.
  - intros Herr Hen.
    assert (errors s1 = errors s ∧ errors s2 = errors s1) as [Herr1 Herr2].
    { pose proof (pinAll_errors E now root pre s) as [x Hx]. pose proof (pinAll_errors E now root post s2) as [z Hz].
      assert (errors s1 `prefix_of` errors s2) as [y Hy].
      { apply (pinAll_errors E now root [(svcName, conf)] s1). }
      fold s1 in Hx. rewrite Hz, Hy, Hx, <- !app_assoc in Herr.
      rewrite <- (app_nil_r (errors s)) in Herr at 2. apply app_inv_head in Herr.
      apply app_nil in Herr as [-> [-> ->]%app_nil]. split; [by rewrite Hx, app_nil_r|by rewrite Hy, app_nil_r]. }
    destruct (consider E now root (lastPins s1 !! svcName) conf) as [|e|] eqn:Hcons.
    + right. split; [unfold s2, pin_service; rewrite Hcons; exact Hacc1|].
      unfold consider in Hcons. rewrite Hen in Hcons. cbn [negb] in Hcons. rewrite Hlast1 in Hcons.
      set (i := if decide (RepinInterval conf = "") then _ else _) in *.
      destruct i as [i'|]; [|done]. destruct (lastPins s !! svcName) as [l|]; [|done].
      case_decide as Hd; [|done]. destruct Hd as [Hd1 Hd2]. exists l, i'. split; [done|]. split; [done|].
      destruct Hd2 as [?|?]; [by left|right]. done.
    + exfalso. unfold s2, pin_service in Herr2. rewrite Hcons in Herr2. simpl in Herr2.
      rewrite <- (app_nil_r (errors s1)) in Herr2 at 2. by apply app_inv_head in Herr2.
    + destruct (pin_service_due E (pins := pins) now root svcName conf s1 Hcons) as [(_ & Hpin & l & Hl & Hcf & Hcid)|(_ & e & He)].
      * left. split; [exact Hpin|]. exists l. unfold s2. rewrite Hl. by rewrite lookup_insert_eq.
      * exfalso. fold s2 in He. rewrite Herr2 in He.
        rewrite <- (app_nil_r (errors s1)) in He at 1. by apply app_inv_head in He.
Qed.

(** ** An account with numbered pins *)

Module PinMfsExample.

Abbreviation Slots := (gmap nat (string * Cid * string * Z)).

Definition id_of (k : nat) : string := "pin" +:+ pretty k.
#[global] Instance id_of_inj : Inj (=) (=) id_of.
Proof. intros a b Hab. unfold id_of in Hab. by injection Hab as ?%(inj pretty). Qed.

Definition slot (k : nat) (x : string * Cid * string * Z) : MfsPin := mkMfsPin (id_of k) x.1.1.1 x.1.1.2 x.1.2 x.2.
Definition pins (r : Slots) : gmap string MfsPin := kmap id_of (map_imap (λ k x, Some (slot k x)) r).

Definition add (c : Cid) (name : string) (r : Slots) : Slots := <[fresh (dom r) := (name, c, "queued", 7%Z)]> r.

(** An empty name is refused. *)
#[global] Instance client : MfsClient Slots := {|
  mc_Ls name r := (filter (λ ps, pinName ps = name) ((λ e, slot e.1 e.2) <$> map_to_list r), None);
  mc_Add c name _ r := if decide (name = "") then (Err "400", r) else (Ok (), add c name r);
  mc_Replace old c name _ r := (Ok (), add c name (filter (λ e, id_of e.1 ≠ old) r)) |}.

Lemma pins_lookup r id ps : pins r !! id = Some ps ↔ ∃ k x, id = id_of k ∧ r !! k = Some x ∧ ps = slot k x.
Proof.
  unfold pins. rewrite lookup_kmap_Some by apply _. split.
  - intros (k & -> & Hk). rewrite map_lookup_imap in Hk. apply bind_Some in Hk as (x & Hx & [= <-]). by exists k, x.
  - intros (k & x & -> & Hx & ->). exists k. split; [done|]. by rewrite map_lookup_imap, Hx.
Qed.

Lemma pins_add c name r : ∃ id, pins r !! id = None ∧ pins (add c name r) = <[id := mkMfsPin id name c "queued" 7%Z]> (pins r).
Proof.
  exists (id_of (fresh (dom r))). pose proof (is_fresh (dom r)) as Hf. apply not_elem_of_dom in Hf. split.
  - unfold pins. rewrite lookup_kmap by apply _. rewrite map_lookup_imap. by rewrite Hf.
  - unfold pins, add. rewrite map_imap_insert. rewrite kmap_insert by apply _. done.
Qed.

Lemma pins_filter old r : pins (filter (λ e, id_of e.1 ≠ old) r) = delete old (pins r).
Proof.
  apply map_eq. intros id. apply option_eq. intros ps. rewrite lookup_delete_Some, !pins_lookup. split.
  - intros (k & x & -> & [Hx Hne]%map_lookup_filter_Some & ->). split; [done|]. by exists k, x.
  - intros [Hne (k & x & -> & Hx & ->)]. exists k, x. split; [done|]. split; [|done].
    apply map_lookup_filter_Some. done.
Qed.

#[global] Instance client_laws : MfsClientLaws Slots pins.
Proof.
  split.
  - intros r id ps (k & x & -> & _ & ->)%pins_lookup. done.
  - intros name r l [= <-] ps. rewrite list_elem_of_filter, list_elem_of_fmap, pins_lookup. split.
    + intros (Hn & [k x] & -> & Hx%elem_of_map_to_list). split; [|done]. by exists k, x.
    + intros [(k & x & _ & Hx & ->) Hn]. split; [done|]. exists (k, x). split; [done|]. by apply elem_of_map_to_list.
  - intros c name o r x r'. simpl. case_decide; intros [= <- <-]; [by left|right].
    destruct (pins_add c name r) as (id & Hid & ->). by exists id, "queued", 7%Z.
  - intros old c name o r x r' [= <- <-]. right. rewrite <- pins_filter.
    destruct (pins_add c name (filter (λ e, id_of e.1 ≠ old) r)) as (id & Hid & ->). by exists id, "queued", 7%Z.
Qed.

Definition E : MfsEnv := mkMfsEnv "me" None (λ s, if decide (s = "1m") then Ok (60 * 10 ^ 9)%Z else Err "bad duration").
Definition conf : Service := mkService "https://one" "key" true "" "1m".
Definition off : Service := mkService "https://two" "key" false "" "".
Definition root : Cid := CidV1 Raw (mkMultihash mh_ID "root").
Definition start : MState (R := Slots) := mkMState ∅ (λ _, ∅) [].

End PinMfsExample.

Lemma mfs_one_pin_witness :
  let turns := [mkTurn 5 (Ok [("one", PinMfsExample.conf)]) (Ok PinMfsExample.root)] in
  one_pin (pins := PinMfsExample.pins) "policy/me/mfs"
    (accounts (pinMFSOnChange PinMfsExample.E (λ _, ∅) turns) ("https://one", "key")).
Proof.
  cbv zeta. apply (mfs_one_pin PinMfsExample.E (pins := PinMfsExample.pins)). intros p q [Hp _] _. exfalso.
  apply PinMfsExample.pins_lookup in Hp as (k & x & _ & Hx & _). by rewrite lookup_empty in Hx.
Defined.

Lemma pinAllMFS_exact_witness :
  let s' := pinAllMFS PinMfsExample.E 5 PinMfsExample.root [("two", PinMfsExample.off); ("one", PinMfsExample.conf)] PinMfsExample.start in
  errors s' = [] ∧ pinned_as (pins := PinMfsExample.pins) "policy/me/mfs" PinMfsExample.root (accounts s' ("https://one", "key")).
Proof.
  cbv zeta. set (s' := pinAllMFS _ _ _ _ _).
  assert (errors s' = []) as Herr by (vm_compute; reflexivity). split; [exact Herr|].
  destruct (pinAllMFS_exact PinMfsExample.E (pins := PinMfsExample.pins) 5 PinMfsExample.root
    [("two", PinMfsExample.off); ("one", PinMfsExample.conf)] PinMfsExample.start "one" PinMfsExample.conf)
    as [_ Hon].
  - repeat constructor; set_solver.
  - apply NoDup_cons. split; [|apply NoDup_singleton]. intros Hin%list_elem_of_singleton. discriminate Hin.
  - right. by left.
  - destruct (Hon Herr eq_refl) as [[Hp _]|[_ (l & i & Hl & _)]]; [exact Hp|].
    exfalso. vm_compute in Hl. discriminate Hl.
Defined.
