(* ===== verification/BlockCmd.v ===== *)
(** * The block API and command (core/coreapi/block.go, core/commands/block.go)

    Raw blocks: put under the CID that the options ask for, got, measured, and
    removed through [BlockRm], one argument after the other, with a result for
    each.  The options are those of interface-go-ipfs-core/options/block.go. *)

From Stdlib Require Import ZArith Ascii String.
From stdpp Require Import base gmap sets list strings.
From S2P Require Import Prelude GoStrings Cid BlockRm.

(** cid.Prefix *)
Record Prefix := mkPrefix { pVersion : N; pCodec : N; pMhType : N; pMhLength : Z }.

Definition SHA2_256 : N := 18.

Record BlockStat := mkBlockStat { bsKey : Cid; bsSize : Z }.

(** What a reader gives, and its error *)
Definition Source : Type := string * option string.

(** What put does, in order *)
Inductive PutEv := PPinLock | PUnlock | PAdded (c : Cid) | PPinned (c : Cid) | PFlushed.

Record BW := mkBW { blocks : gmap Cid string; bpins : gset Cid; plog : list PutEv }.

Record BlockEnv := mkBlockEnv {
  (** cid.Codecs and multihash.Names *)
  Codecs : string → option N;
  mh_Names : string → option N;
  prefix_Sum : Prefix → string → res string Cid;
  AddBlock_err : Cid → option string;
  GetBlock_err : Cid → option string;
  Flush_err : option string;
  ResolvePath : string → res string Cid;
  rmEnv : RmEnv;
}.

Section block.
Context (E : BlockEnv).
Abbreviation A := (M BW string).

(** BlockPutOptions with Format, Hash and Pin *)
Definition BlockPutOptions (format : string) (MhType : N) (MhLength : Z) : res string Prefix :=
  let Codec := if decide (format = "") then
                 if decide (MhType ≠ SHA2_256 ∨ (MhLength ≠ -1 ∧ MhLength ≠ 32)%Z) then "protobuf" else "v0"
               else format in
  let Version := if decide (Codec = "v0" ∧ MhType = SHA2_256) then 0%N else 1%N in
  match Codecs E Codec with
  | None => Err ("unrecognized format: " +:+ Codec)
  | Some formatval =>
      if decide (Codec = "v0" ∧ (MhType ≠ SHA2_256 ∨ (MhLength ≠ -1 ∧ MhLength ≠ 32)%Z)) then
        Err "only sha2-255-32 is allowed with CIDv0"
      else Ok (mkPrefix Version formatval MhType MhLength)
  end.

Definition log (e : PutEv) : A unit := mmodify (λ w, mkBW (blocks w) (bpins w) (plog w ++ [e])).

(** [if settings.Pin { defer api.blockstore.PinLock(ctx).Unlock(ctx) }] around the rest *)
Definition locked {R} (pin : bool) (c : A R) : A R := λ w,
  if pin then let '(r, w1) := (_ ← log PPinLock; c) w in (r, (log PUnlock w1).2) else c w.

Definition AddBlock (c : Cid) (data : string) : A unit := λ w,
  match AddBlock_err E c with
  | Some e => (Err e, w)
  | None => (Ok (), mkBW (<[c := data]> (blocks w)) (bpins w) (plog w ++ [PAdded c]))
  end.

Definition pin_recursive (c : Cid) : A unit :=
  _ ← mmodify (λ w, mkBW (blocks w) ({[c]} ∪ bpins w) (plog w ++ [PPinned c]));
  match Flush_err E with Some e => mthrow e | None => log PFlushed end.

(** BlockAPI.Put *)
Definition Put (src : Source) (format : string) (mhType : N) (mhLen : Z) (pin : bool) : A BlockStat :=
  pref ← mlift (BlockPutOptions format mhType mhLen);
  data ← mlift (match src.2 with Some e => Err e | None => Ok src.1 end);
  bcid ← mlift (prefix_Sum E pref data);
  locked pin (
    _ ← AddBlock bcid data;
    _ ← (if pin then pin_recursive bcid else mret ());
    mret (mkBlockStat bcid (Z.of_nat (String.length data)))).

Definition GetBlock (c : Cid) : A string := λ w,
  (match GetBlock_err E c with
   | Some e => Err e
   | None => match blocks w !! c with Some d => Ok d | None => Err "blockservice: key not found" end
   end, w).

(** Get and Stat *)
Definition Get (p : string) : A string := c ← mlift (ResolvePath E p); GetBlock c.
Definition Stat (p : string) : A BlockStat :=
  c ← mlift (ResolvePath E p); d ← GetBlock c; mret (mkBlockStat c (Z.of_nat (String.length d))).

(** Rm: the first result on the channel decides. *)
Definition Rm (c : Cid) (force : bool) : A unit := λ w,
  let '(bs, out) := RmBlocks (rmEnv E) (mkRmOpts false force) [c] (blocks w) in
  (match out with
   | [] => Ok ()
   | r :: _ => if decide (Error r ≠ "") then Err (Error r) else Ok ()
   end, mkBW bs (bpins w) (plog w)).

(** ** The commands *)

(** blockPutCmd.Run: the format it passes on, and the loop over the files *)
Definition put_format (format : option string) (mhtval : N) (mhlen : Z) : string :=
  match format with
  | Some f => f
  | None => if decide (mhtval ≠ SHA2_256 ∨ (mhlen ≠ -1 ∧ mhlen ≠ 32)%Z) then "protobuf" else "v0"
  end.

Fixpoint put_files (files : list Source) (format : string) (mhtval : N) (mhlen : Z) (pin : bool) (emitted : list BlockStat)
    : M BW (string * list BlockStat) (list BlockStat) :=
  match files with
  | [] => mret emitted
  | f :: files' => λ w,
      match Put f format mhtval mhlen pin w with
      | (Err e, w') => (Err (e, emitted), w')
      | (Ok st, w') => put_files files' format mhtval mhlen pin (emitted ++ [st]) w'
      end
  end.

Definition blockPutCmd (mhtype : string) (mhlen : Z) (format : option string) (pin : bool) (files : list Source)
    : M BW (string * list BlockStat) (list BlockStat) :=
  match mh_Names E mhtype with
  | None => mthrow ("unrecognized multihash function: " +:+ mhtype, [])
  | Some mhtval => put_files files (put_format format mhtval mhlen) mhtval mhlen pin []
  end.

(** blockGetCmd.Run, blockStatCmd.Run *)
Definition blockGetCmd (key : string) : A string := Get key.
Definition blockStatCmd (key : string) : A BlockStat := Stat key.

(** blockRmCmd.Run: what it emits, and the error that ends it *)
Fixpoint blockRmCmd (force quiet : bool) (args : list string) : BW → list RemovedBlock * option string * BW := λ w,
  match args with
  | [] => ([], None, w)
  | b :: args' =>
      match ResolvePath E b with
      | Err e => ([], Some e, w)
      | Ok c =>
          let '(r, w1) := Rm c force w in
          let '(out, err, w2) := blockRmCmd force quiet args' w1 in
          (match r with
           | Err e => [mkRemoved (cid_String (rmEnv E) c) e]
           | Ok _ => if quiet then [] else [mkRemoved (cid_String (rmEnv E) c) ""]
           end ++ out, err, w2)
      end
  end.

(** The outcome on the command line: the PostRun over what came, then the error of Run *)
Definition blockRm_cli (force quiet : bool) (args : list string) (w : BW) : option string * list string * list string * BW :=
  let '(out, err, w') := blockRmCmd force quiet args w in
  let '(perr, serr, sout) := ProcRmOutput out false in
  (match perr, err with
   | Some e, _ => if decide (e = "some blocks not removed") then match err with Some e' => Some e' | None => Some e end else Some e
   | None, e => e
   end, serr, sout, w').

End block.

(** ** Properties *)

Section block_laws.
Context (E : BlockEnv).
Context (Hcheck : ∀ cids r, CheckIfPinned (rmEnv E) cids = Ok r → check_spec (rmEnv E) cids r).
Context (Htext : errors_have_text (rmEnv E)).

Definition unpinned (c : Cid) : Prop :=
  ∃ r p, CheckIfPinned (rmEnv E) [c] = Ok r ∧ p ∈ r ∧ pinned_Key p = c ∧ is_pinned p = false.

Lemma pinned_text env p : is_pinned p = true → pinned_String env p ≠ "".
Proof. unfold is_pinned, pinned_String. destruct (pinned_Mode p); done. Qed.

(** One removal: the block goes and was not pinned, or nothing changes. *)
Lemma Rm_spec c force w r w' : Rm E c force w = (r, w') →
  bpins w' = bpins w ∧ plog w' = plog w ∧
  ((r = Ok () ∧ blocks w' = delete c (blocks w) ∧ unpinned c) ∨ ((∃ e, r = Err e ∧ e ≠ "") ∧ blocks w' = blocks w)).
Proof.
  unfold Rm, RmBlocks, FilterPinned. destruct (CheckIfPinned (rmEnv E) [c]) as [res|e] eqn:Hc.
  2: { simpl. intros [= <- <-]. split; [done|]. split; [done|]. right. split; [by eexists; split|done]. }
  destruct (Hcheck _ _ Hc) as (_ & Hnd & Hin).
  assert (∃ p, res = [p] ∧ pinned_Key p = c) as (p & -> & Hp).
  { destruct res as [|p [|q res]].
    - specialize (Hin c). simpl in Hin. exfalso. eapply not_elem_of_nil, Hin. by left.
    - exists p. split; [done|]. simpl in Hin. specialize (Hin (pinned_Key p)).
      apply list_elem_of_singleton, Hin. by left.
    - exfalso. apply submseteq_length in Hnd. simpl in Hnd. lia. }
  destruct (is_pinned p) eqn:Hpin.
  - rewrite filter_cons_False by congruence. rewrite filter_cons_True by done. simpl. rewrite decide_True by (by apply pinned_text).
    intros [= <- <-]. split; [done|]. split; [done|]. right. split; [|done]. eexists. split; [done|by apply pinned_text].
  - rewrite filter_cons_True by done. rewrite filter_cons_False by congruence. simpl. rewrite Hp. unfold rm_one. simpl.
    destruct (Htext c) as [Hh Hd]. destruct (Has_err (rmEnv E) c) as [e|].
    { simpl. rewrite decide_True by congruence. intros [= <- <-]. split; [done|]. split; [done|]. right. split; [|done].
      eexists. split; [done|congruence]. }
    destruct (negb _ && negb force).
    { intros [= <- <-]. split; [done|]. split; [done|]. right. split; [|done]. by eexists. }
    destruct (DeleteBlock_err (rmEnv E) c) as [e|].
    { simpl. rewrite decide_True by congruence. intros [= <- <-]. split; [done|]. split; [done|]. right. split; [|done].
      eexists. split; [done|congruence]. }
    simpl. intros [= <- <-]. simpl. split; [done|]. split; [done|]. left. split; [done|]. split; [done|].
    exists [p], p. split; [done|]. split; [by left|done].
Qed.

Lemma blockRm_spec force quiet args : ∀ w out err w', blockRmCmd E force quiet args w = (out, err, w') →
  bpins w' = bpins w ∧ blocks w' ⊆ blocks w ∧
  (∀ c, blocks w' !! c = blocks w !! c ∨ (unpinned c ∧ blocks w' !! c = None ∧ ∃ b, b ∈ args ∧ ResolvePath E b = Ok c)) ∧
  (err = None → Forall (λ r, Error r = "") out → ∀ b, b ∈ args → ∃ c, ResolvePath E b = Ok c ∧ blocks w' !! c = None).
Proof.
  induction args as [|b args IH]; intros w out err w'; cbn [blockRmCmd].
  { intros [= <- <- <-]. split; [done|]. split; [done|]. split; [by left|]. intros _ _ b Hb. by apply elem_of_nil in Hb. }
  destruct (ResolvePath E b) as [c|e] eqn:Hr.
  2: { intros [= <- <- <-]. split; [done|]. split; [done|]. split; [by left|done]. }
  destruct (Rm E c force w) as [r w1] eqn:Hrm. destruct (blockRmCmd E force quiet args w1) as [[out2 err2] w2] eqn:Hrest.
  intros [= <- <- <-]. apply Rm_spec in Hrm as (Hp1 & _ & Hcase). destruct (IH _ _ _ _ Hrest) as (Hp2 & Hsub & Hk & Hok).
  split; [congruence|]. assert (blocks w1 ⊆ blocks w) as Hsub1.
  { destruct Hcase as [(_ & -> & _)|[_ ->]]; [apply delete_subseteq|done]. }
  split; [by etrans|]. split.
  - intros k. destruct (Hk k) as [Heq|(Hun & Hnone & x & Hx & Hrx)].
    + rewrite Heq. destruct Hcase as [(_ & -> & Hun)|[_ ->]]; [|by left].
      destruct (decide (c = k)) as [<-|Hne]; [|left; by rewrite lookup_delete_ne].
      right. split; [done|]. split; [by rewrite lookup_delete_eq|]. exists b. split; [by left|done].
    + right. split; [done|]. split; [done|]. exists x. split; [by right|done].
  - intros -> [Hhead Htail]%Forall_app x [->|Hx]%elem_of_cons; [|by apply Hok].
    exists c. split; [done|]. destruct Hcase as [(_ & Hb & _)|[(e & -> & He) _]].
    + eapply lookup_weaken_None; [|exact Hsub]. rewrite Hb. apply lookup_delete_eq.
    + exfalso. apply Forall_cons in Hhead as [Hhead _]. done.
Qed.
End block_laws.

(** What a put of one block leaves *)
Lemma block_Put_spec E src format mhType mhLen pin w r w' : Put E src format mhType mhLen pin w = (r, w') →
  match r with
  | Ok st => ∃ pref, BlockPutOptions E format mhType mhLen = Ok pref ∧ src.2 = None ∧
      prefix_Sum E pref src.1 = Ok (bsKey st) ∧ bsSize st = Z.of_nat (String.length src.1) ∧
      blocks w' = <[bsKey st := src.1]> (blocks w) ∧ (pin = true → bsKey st ∈ bpins w')
  | Err _ => blocks w' = blocks w ∨ ∃ pref c, prefix_Sum E pref src.1 = Ok c ∧ blocks w' = <[c := src.1]> (blocks w)
  end.
Proof.
  unfold Put. rewrite bind_unfold. unfold mlift at 1.
  destruct (BlockPutOptions E format mhType mhLen) as [pref|e] eqn:Ho; [|by intros [= <- <-]; left].
  rewrite bind_unfold. unfold mlift at 1. destruct src.2 as [e|] eqn:Hs; [by intros [= <- <-]; left|].
  rewrite bind_unfold. unfold mlift at 1. destruct (prefix_Sum E pref src.1) as [c|e] eqn:Hc; [|by intros [= <- <-]; left].
  unfold locked, AddBlock, pin_recursive, log. destruct pin.
  - go_run. destruct (AddBlock_err E c); [by intros [= <- <-]; left|]. destruct (Flush_err E); intros [= <- <-]; simpl.
    + right. by exists pref, c.
    + exists pref. split; [done|]. split; [done|]. split; [done|]. split; [done|]. split; [done|]. set_solver.
  - go_run. destruct (AddBlock_err E c); intros [= <- <-]; simpl; [by left|].
    exists pref. split; [done|]. split; [done|]. split; [done|]. split; [done|]. by split.
Qed.

(** `block put` followed by `block get` of the CID it reports gives the bytes put,
    and `block stat` their number; without options the CID has version 0, and it has
    version 1 exactly when the format is not v0 or the hash is not sha2-256. *)
Theorem block_put_get E src format mhType mhLen pin w st w' p :
  Put E src format mhType mhLen pin w = (Ok st, w') → ResolvePath E p = Ok (bsKey st) → GetBlock_err E (bsKey st) = None →
  (Get E p w').1 = Ok src.1 ∧ (Stat E p w').1 = Ok st ∧
  ∃ pref, BlockPutOptions E format mhType mhLen = Ok pref ∧ prefix_Sum E pref src.1 = Ok (bsKey st) ∧
    (pVersion pref = 0%N ↔ mhType = SHA2_256 ∧
       (format = "v0" ∨ (format = "" ∧ (mhLen = -1 ∨ mhLen = 32)%Z))) ∧
    (pVersion pref = 0%N → mhLen = (-1)%Z ∨ mhLen = 32%Z).
Proof.
  intros (pref & Ho & Hs & Hc & Hsize & Hb & _)%block_Put_spec Hp Hg.
  assert (blocks w' !! bsKey st = Some src.1) as Hlook by (by rewrite Hb, lookup_insert_eq).
  unfold Get, Stat. rewrite !bind_unfold. unfold mlift. rewrite Hp. unfold GetBlock. rewrite bind_unfold, Hg, Hlook.
  split; [done|]. split; [simpl; rewrite <- Hsize; by destruct st|]. exists pref. split; [done|]. split; [done|].
  revert Ho. unfold BlockPutOptions. clear.
  destruct (decide (format = "")) as [->|Hf].
  - destruct (decide (mhType ≠ SHA2_256 ∨ (mhLen ≠ -1 ∧ mhLen ≠ 32)%Z)) as [Hd|Hd]; cbv zeta.
    + rewrite (decide_False (P := _ ∧ mhType = _)) by (by intros [? _]). destruct (Codecs E "protobuf"); [|done].
      rewrite decide_False by (by intros [? _]). intros [= <-]. simpl. split; [|done]. split; [done|].
      intros [-> [?|[_ ?]]]; [done|]. destruct Hd as [?|?]; [done|lia].
    + assert (mhType = SHA2_256 ∧ (mhLen = -1 ∨ mhLen = 32)%Z) as [-> Hl].
      { split; [destruct (decide (mhType = SHA2_256)); tauto|lia]. }
      rewrite decide_True by done. destruct (Codecs E "v0"); [|done].
      rewrite decide_False by (intros [_ [?|?]]; [done|lia]). intros [= <-]. simpl. split; [|done]. split; [|done].
      intros _. split; [done|]. by right.
  - cbv zeta. destruct (Codecs E format); [|done]. 
    destruct (decide (format = "v0" ∧ mhType = SHA2_256)) as [Hv|Hv];
      destruct (decide (format = "v0" ∧ (mhType ≠ SHA2_256 ∨ (mhLen ≠ -1 ∧ mhLen ≠ 32)%Z))) as [Hx|Hx];
      intros Ho; simplify_eq/=.
    + destruct Hv as [-> ->]. split; [split; [by auto|done]|]. intros _.
      destruct (decide (mhLen = -1 ∨ mhLen = 32)%Z); [done|]. exfalso. apply Hx. split; [done|]. right. lia.
    + split; [|done]. split; [done|]. intros [-> [->|[? _]]]; [|done]. by destruct Hv.
Qed.

(** `block rm` removes blocks that its arguments name and the pinner reports as not
    pinned, and touches nothing else; when it ends without an error and no result carries
    one, every argument's block is gone. *)
Theorem blockRmCmd_exact E force quiet args w out err w' :
  (∀ cids r, CheckIfPinned (rmEnv E) cids = Ok r → check_spec (rmEnv E) cids r) → errors_have_text (rmEnv E) →
  blockRmCmd E force quiet args w = (out, err, w') →
  bpins w' = bpins w ∧ blocks w' ⊆ blocks w ∧
  (∀ c, blocks w' !! c = blocks w !! c ∨
        (unpinned E c ∧ blocks w' !! c = None ∧ ∃ b, b ∈ args ∧ ResolvePath E b = Ok c)) ∧
  (err = None → Forall (λ r, Error r = "") out → ∀ b, b ∈ args → ∃ c, ResolvePath E b = Ok c ∧ blocks w' !! c = None).
Proof. intros Hc Ht. by apply blockRm_spec. Qed.

(** ** A store *)

Module BlockExample.

Definition cid_of (s : string) : Cid := CidV1 Raw (mkMultihash mh_ID s).
Definition E : BlockEnv := {|
  Codecs f := if decide (f = "v0") then Some 112%N else if decide (f = "protobuf") then Some 112%N else None;
  mh_Names n := if decide (n = "sha2-256") then Some SHA2_256 else None;
  prefix_Sum _ d := Ok (cid_of d); AddBlock_err _ := None; GetBlock_err _ := None; Flush_err := None;
  ResolvePath p := Ok (cid_of p); rmEnv := BlockRmExample.env |}.

Lemma text : errors_have_text (rmEnv E).
Proof. by intros c. Qed.

Lemma pinned_p : ¬ unpinned E (cid_of "p").
Proof.
  intros (r & p & [= <-] & Hp & Hkey & Hun). apply list_elem_of_fmap in Hp as (c & -> & _). simpl in Hkey. subst c.
  vm_compute in Hun. discriminate Hun.
Qed.

End BlockExample.

Lemma block_put_get_witness :
  let run := Put BlockExample.E ("data", None) "v0" SHA2_256 (-1) true (mkBW ∅ ∅ []) in
  run.1 = Ok (mkBlockStat (BlockExample.cid_of "data") 4) ∧ (Get BlockExample.E "data" run.2).1 = Ok "data".
Proof.
  cbv zeta. set (run := Put _ _ _ _ _ _ _).
  assert (run.1 = Ok (mkBlockStat (BlockExample.cid_of "data") 4)) as Hr by (vm_compute; reflexivity).
  split; [exact Hr|]. destruct run as [r w'] eqn:Hrun. simpl in Hr. subst r.
  apply (block_put_get BlockExample.E ("data", None) "v0" SHA2_256 (-1) true (mkBW ∅ ∅ []) _ w' "data" Hrun); reflexivity.
Defined.

Lemma blockRmCmd_exact_witness :
  let w := mkBW BlockRmExample.bs ∅ [] in
  let '(out, err, w') := blockRmCmd BlockExample.E false false ["p"; "q"] w in
  err = None ∧ length out = 2 ∧ blocks w' !! BlockExample.cid_of "p" = Some "x".
Proof.
  cbv zeta. set (w := mkBW BlockRmExample.bs ∅ []).
  assert ((blockRmCmd BlockExample.E false false ["p"; "q"] w).1.2 = None ∧
          length (blockRmCmd BlockExample.E false false ["p"; "q"] w).1.1 = 2) as [Herr Hlen] by (vm_compute; split; reflexivity).
  destruct (blockRmCmd BlockExample.E false false ["p"; "q"] w) as [[out err] w'] eqn:Hr.
  split; [exact Herr|]. split; [exact Hlen|].
  pose proof (blockRmCmd_exact BlockExample.E false false ["p"; "q"] w out err w' BlockRmExample.env_check BlockExample.text Hr) as Hspec.
  destruct Hspec as (_ & _ & Hk & _).
  destruct (Hk (BlockExample.cid_of "p")) as [Heq|[Hun _]]; [rewrite Heq; reflexivity|].
  destruct (BlockExample.pinned_p Hun).
Defined.
