(* ===== verification/Traverse.v ===== *)
(** * Depth-first traversals that visit a node once

    [traverse.Traverse] in pre-order with SkipDuplicates
    (src/vendor/github.com/ipfs/go-merkledag/traverse/traverse.go), which
    [ipfs dag stat] runs, and the exhaustive selector walk of go-car, which
    [ipfs dag export] runs, descend the same way: for every link, in order, enter
    the target (fetch it, report it, or skip it as seen) and descend into it.  The
    section proves what such a descent has done for any [enter] that keeps a seen
    set; the clients instantiate it. *)

From Stdlib Require Import ZArith Ascii String.
From stdpp Require Import base gmap sets list strings relations.
From S2P Require Import Prelude Dag.

Section descent.
Context {K : Type} `{Countable K} {St E Nd V : Type}.
Variable links : Nd → list K.
(** What is done for one link: [None] when the target is skipped *)
Variable enter : K → M St (walk_err E) (option Nd).

(** dfsDescend; [fuel] bounds the depth *)
Fixpoint descend (fuel : nat) (n : Nd) : M St (walk_err E) unit :=
  match fuel with
  | 0 => mthrow OutOfFuel
  | S fuel' =>
      mfor (links n) (λ c, r ← enter c; match r with None => mret () | Some n' => descend fuel' n' end)
  end.

Variable children : K → list K.
(** What the client observes of the state: the nodes seen, and what entering a new
    node does *)
Variable view : St → V.
Variable seen : V → gset K.
Variable step : K → V → V → Prop.

(** An invariant of the states under which entering a node does so *)
Variable inv : St → Prop.

Hypothesis enter_inv : ∀ c s r s', inv s → enter c s = (r, s') → inv s'.
Hypothesis enter_skip : ∀ c s s', inv s → enter c s = (Ok None, s') → c ∈ seen (view s) ∧ view s' = view s.
Hypothesis enter_new : ∀ c s n s', inv s → enter c s = (Ok (Some n), s') →
  c ∉ seen (view s) ∧ seen (view s') = {[c]} ∪ seen (view s) ∧ links n = children c ∧ step c (view s) (view s').

(** The nodes entered between two views, in order *)
Inductive visits : list K → V → V → Prop :=
  | visits_nil s : visits [] s s
  | visits_snoc vs c s s1 s2 : visits vs s s1 → c ∉ seen s1 → seen s2 = {[c]} ∪ seen s1 → step c s1 s2 → visits (vs ++ [c]) s s2.

Lemma visits_app vs1 vs2 s s1 s2 : visits vs1 s s1 → visits vs2 s1 s2 → visits (vs1 ++ vs2) s s2.
Proof.
  intros H1 H2. induction H2 as [|vs c s1 s3 s4 H2 IH Hc Hs Hstep]; [by rewrite app_nil_r|].
  rewrite (assoc_L (++)). econstructor; eauto.
Qed.

Lemma visits_seen vs s s' : visits vs s s' → seen s' = list_to_set vs ∪ seen s ∧ NoDup vs ∧ ∀ c, c ∈ vs → c ∉ seen s.
Proof.
  induction 1 as [|vs c s s1 s2 Hv (IHs & IHn & IHd) Hc Hs _]; [split; [set_solver|split; [constructor|set_solver]]|].
  split; [rewrite Hs, IHs, list_to_set_app_L; set_solver|]. split.
  - apply NoDup_app. split; [done|]. split; [|apply NoDup_singleton].
    intros x Hx Hxc%list_elem_of_singleton. subst. apply Hc. rewrite IHs. set_solver.
  - intros x [Hx|Hx%list_elem_of_singleton]%elem_of_app; [by apply IHd|]. subst. rewrite IHs in Hc. set_solver.
Qed.

(** What a descent from a node with children [ls] leaves. *)
Record descended (ls : list K) (vs : list K) (s s' : V) : Prop := {
  ds_visits : visits vs s s';
  ds_links : ∀ c, c ∈ ls → c ∈ seen s';
  ds_below : ∀ v, v ∈ vs → ∃ c, c ∈ ls ∧ Dag.reach children c v;
  ds_closed : ∀ v d, v ∈ vs → d ∈ children v → d ∈ seen s';
}.

Lemma descended_nil s : descended [] [] s s.
Proof. split; [constructor|set_solver..]. Qed.

Lemma visits_mono vs s s' c : visits vs s s' → c ∈ seen s → c ∈ seen s'.
Proof. intros (-> & _)%visits_seen. set_solver. Qed.

(** One more link done after those already done *)
Lemma descended_snoc ls c vs ws s s1 s2 : descended ls vs s s1 → visits ws s1 s2 → c ∈ seen s2 →
  (∀ v, v ∈ ws → Dag.reach children c v) → (∀ v d, v ∈ ws → d ∈ children v → d ∈ seen s2) →
  descended (ls ++ [c]) (vs ++ ws) s s2.
Proof.
  intros [Hv Hl Hb Hc] Hw Hcs Hr Hcl. split.
  - by eapply visits_app.
  - intros x [Hx|Hx%list_elem_of_singleton]%elem_of_app; [eapply visits_mono; eauto|by subst].
  - intros v [Hx|Hx]%elem_of_app.
    + destruct (Hb v Hx) as (y & ? & ?). exists y. split; [set_solver|done].
    + exists c. split; [set_solver|by apply Hr].
  - intros v d [Hx|Hx]%elem_of_app; [intros; eapply visits_mono; eauto|eauto].
Qed.

Lemma descend_keeps fuel : ∀ n s r s', inv s → descend fuel n s = (r, s') → inv s'.
Proof.
  induction fuel as [|fuel IH]; intros n s r s' Hs; [by intros [= _ <-]|]. cbn [descend]. intros Hrun.
  eapply mfor_inv; [|exact Hs|exact Hrun]. intros c s1 r1 s2 _ H1. cbv beta. rewrite bind_unfold.
  destruct (enter c s1) as [[[n'|]|e] s3] eqn:He; pose proof (enter_inv _ _ _ _ H1 He) as H3.
  - by apply IH.
  - by intros [= _ <-].
  - by intros [= _ <-].
Qed.

Lemma descend_post fuel : ∀ n s s', inv s → descend fuel n s = (Ok (), s') → ∃ vs, descended (links n) vs (view s) (view s').
Proof.
  induction fuel as [|fuel IH]; intros n s s' Hs; [done|]. cbn [descend]. intros Hrun.
  apply (mfor_rule (λ ls st, inv st ∧ ∃ vs, descended ls vs (view s) (view st)) (λ _, True)) in Hrun; [by destruct Hrun| |done|].
  2: { split; [done|]. exists []. apply descended_nil. }
  clear Hrun s'. intros ls c s1 s2 Hc [H1 [vs Hvs]]. rewrite bind_unfold.
  destruct (enter c s1) as [[[n'|]|e] s3] eqn:He; [| |done]; pose proof (enter_inv _ _ _ _ H1 He) as H3.
  - apply enter_new in He as (Hnew & Hs3 & Hn & Hstep); [|done]. intros Hd. split; [by eapply descend_keeps|].
    apply IH in Hd as (ws & [Hv Hl Hb Hcl]); [|done]. rewrite Hn in Hl, Hb.
    exists (vs ++ ([c] ++ ws)). apply (descended_snoc _ _ _ _ _ (view s1)); [done| | | |].
    + eapply visits_app; [|exact Hv]. apply (visits_snoc []) with (view s1); [constructor|done..].
    + eapply visits_mono; [exact Hv|]. rewrite Hs3. set_solver.
    + intros v [->%list_elem_of_singleton|Hw]%elem_of_app; [apply rtc_refl|].
      destruct (Hb v Hw) as (d & Hd & Hr). eapply rtc_l; [exact Hd|exact Hr].
    + intros v d [->%list_elem_of_singleton|Hw]%elem_of_app Hd; [by apply Hl|by eapply Hcl].
  - intros [= <-]. split; [done|]. apply enter_skip in He as [Hin Hsk]; [|done]. rewrite Hsk. exists (vs ++ []).
    apply (descended_snoc _ _ _ _ _ (view s1)); [done|constructor|done|set_solver|set_solver].
Qed.

(** From an empty seen set the descent enters the strict descendants of the root, each once. *)
Lemma descend_exact fuel n r s s' : inv s → descend fuel n s = (Ok (), s') → links n = children r → seen (view s) = ∅ →
  ∃ vs, visits vs (view s) (view s') ∧ NoDup vs ∧ ∀ v, v ∈ vs ↔ tc (Dag.edge children) r v.
Proof.
  intros Hi Hrun Hn Hs. apply descend_post in Hrun as [vs [Hv Hl Hb Hc]]; [|done]. exists vs. destruct (visits_seen _ _ _ Hv) as (Hseen & Hnd & _).
  split; [done|]. split; [done|]. rewrite Hn in Hl, Hb.
  assert (∀ x, x ∈ seen (view s') ↔ x ∈ vs) as Hiff by (intros x; rewrite Hseen, Hs; set_solver).
  intros v. split.
  - intros (c & Hcr & Hrc)%Hb. eapply tc_rtc_r; [apply tc_once; exact Hcr|exact Hrc].
  - intros Htc. assert (∃ c, Dag.edge children r c ∧ Dag.reach children c v) as (c & Hcr & Hrc).
    { destruct Htc as [|x y z Hxy Hyz]; [eexists; split; [done|apply rtc_refl]|]. exists y. split; [done|by apply tc_rtc]. }
    apply Hl, Hiff in Hcr. clear Htc. induction Hrc as [|x y z Hxy _ IH]; [done|]. apply IH, Hiff. by eapply Hc.
Qed.

(** With a rank that decreases along links, fuel beyond the rank of the root is enough. *)
Section total.
Variable rank : K → nat.
Hypothesis rank_decr : ∀ c d, d ∈ children c → rank d < rank c.
Hypothesis enter_fuel : ∀ c s, (enter c s).1 ≠ Err OutOfFuel.

Lemma descend_fuel fuel : ∀ n r s, inv s → links n = children r → rank r < fuel → (descend fuel n s).1 ≠ Err OutOfFuel.
Proof.
  induction fuel as [|fuel IH]; intros n r s Hs Hn Hf; [lia|]. cbn [descend]. rewrite Hn.
  assert (∀ c, c ∈ children r → rank c < fuel) as Hlt by (intros c ?%rank_decr; lia).
  clear Hn Hf. revert s Hs. induction (children r) as [|c l IHl]; intros s Hs; [done|]. cbn [mfor]. rewrite !bind_unfold.
  pose proof (enter_fuel c s) as He. destruct (enter c s) as [[[n'|]|e] s1] eqn:Hen; simpl in *;
    pose proof (enter_inv _ _ _ _ Hs Hen) as H1.
  - apply enter_new in Hen as (_ & _ & Hn' & _); [|done].
    pose proof (IH n' c s1 H1 Hn' ltac:(apply Hlt; by left)) as Hd.
    destruct (descend fuel n' s1) as [[[]|e] s2] eqn:Hd2; [|exact Hd].
    apply IHl; [|by eapply descend_keeps]. intros. apply Hlt. by right.
  - apply IHl; [|done]. intros. apply Hlt. by right.
  - intros [= ->]. by apply He.
Qed.

(** It succeeds when every descendant can be entered, under an invariant of the states. *)
Lemma descend_total (I : St → Prop) fuel : ∀ n r s,
  (∀ c st, tc (Dag.edge children) r c → inv st → I st → ∃ o st', enter c st = (Ok o, st') ∧ I st') →
  links n = children r → rank r < fuel → inv s → I s → ∃ s', descend fuel n s = (Ok (), s') ∧ I s'.
Proof.
  induction fuel as [|fuel IH]; intros n r s Hen Hn Hf Hs HI; [lia|]. cbn [descend]. rewrite Hn.
  assert (∀ c, c ∈ children r → Dag.edge children r c) as Hch by done. revert s Hs HI Hch.
  clear Hn. generalize (children r). intros l. induction l as [|c l IHl]; intros s Hs HI Hch; [by exists s|].
  assert (Dag.edge children r c) as Hrc by (apply Hch; by left).
  cbn [mfor]. rewrite !bind_unfold. destruct (Hen c s ltac:(by apply tc_once) Hs HI) as (o & s1 & Heq & HI1). rewrite Heq.
  pose proof (enter_inv _ _ _ _ Hs Heq) as H1.
  destruct o as [n'|]; [|apply IHl; [done..|]; intros; apply Hch; by right].
  apply enter_new in Heq as (_ & _ & Hn' & _); [|done].
  destruct (IH n' c s1) as (s2 & Hd & HI2); [|done|apply rank_decr in Hrc; lia|done..|].
  { intros x st Hx. apply Hen. eapply tc_l; [exact Hrc|exact Hx]. }
  rewrite Hd. apply IHl; [by eapply descend_keeps|done|]. intros. apply Hch. by right.
Qed.
End total.

(** An error comes from entering a descendant (or the fuel). *)
Lemma descend_err fuel : ∀ n r s e s', inv s → descend fuel n s = (Err e, s') → links n = children r →
  e = OutOfFuel ∨ ∃ c s1, inv s1 ∧ tc (Dag.edge children) r c ∧ enter c s1 = (Err e, s').
Proof.
  induction fuel as [|fuel IH]; intros n r s e s' Hs; cbn [descend]; [intros [= <- <-]; by left|]. intros Hrun Hn.
  rewrite Hn in Hrun. assert (∀ c, c ∈ children r → Dag.edge children r c) as Hch by done. revert s Hs Hrun Hch.
  clear Hn. generalize (children r). intros l. induction l as [|c l IHl]; intros s Hs; [done|]. cbn [mfor]. rewrite !bind_unfold.
  intros Hrun Hch. assert (Dag.edge children r c) as Hrc by (apply Hch; by left).
  destruct (enter c s) as [[[n'|]|e'] s1] eqn:Hen; pose proof (enter_inv _ _ _ _ Hs Hen) as H1.
  - pose proof Hen as (_ & _ & Hn' & _)%enter_new; [|done]. destruct (descend fuel n' s1) as [[[]|e'] s2] eqn:Hd.
    + apply (IHl s2); [by eapply descend_keeps|done|]. intros. apply Hch. by right.
    + injection Hrun as -> ->. destruct (IH _ _ _ _ _ H1 Hd Hn') as [|(x & sx & Hi & Hx & Hex)]; [by left|].
      right. exists x, sx. split; [done|]. split; [by eapply tc_l|done].
  - apply (IHl s1); [done..|]. intros. apply Hch. by right.
  - injection Hrun as -> ->. right. exists c, s. split; [done|]. split; [by apply tc_once|done].
Qed.

End descent.

Arguments visits {K _ _ V} seen step _ _ _.
