(* ===== verification/Batch.v ===== *)
(** * Batches of nodes (src/vendor/github.com/ipfs/go-ipld-format/batch.go)

    [ipld.Batch] buffers nodes and hands them to the node adder in groups, up to
    [parallelCommits] groups at once; [ipfs dag import] and [ipfs dag put] store
    through it.  A commit in flight takes effect when its result is received; the
    environment says when results are ready and in which order.  The theorems: a
    batch whose [Commit] returns no error has handed over exactly the nodes added
    to it, group by group; an error is kept, and what an erring batch did is still
    a sequence of calls on groups of those nodes. *)

From Stdlib Require Import ZArith Ascii String.
From stdpp Require Import base gmap sets list strings relations.
From S2P Require Import Prelude Dag.

Section batch.
(** A node, the adder's state, the node's RawData length, and [na.AddMany] *)
Context {Blk W : Type}.
Variable rawlen : Blk → Z.
Variable na_AddMany : list Blk → M W string unit.

Record BatchEnv := mkBatchEnv {
  parallelCommits : nat;
  maxSize : Z;
  maxNodes : Z;
  (** Per tick: is a result ready, which commit it is of, and which of the commits
      in flight a cancelled batch still carries out. *)
  ready : nat → bool;
  pick : nat → nat;
  late : nat → list (list Blk) → list (list Blk);
}.
Variable E : BatchEnv.

Record Batch := mkBatch {
  b_err : option string;
  activeCommits : list (list Blk);
  b_nodes : list Blk;
  b_size : Z;
  clock : nat;
}.

Definition NewBatch : Batch := mkBatch None [] [] 0 0.

(** The results of the cancelled commits are dropped. *)
Fixpoint run_late (gs : list (list Blk)) (w : W) : W :=
  match gs with [] => w | g :: gs' => run_late gs' (na_AddMany g w).2 end.

Definition setError (e : string) (b : Batch) (w : W) : Batch * W :=
  (mkBatch (Some e) [] [] 0 (S (clock b)), run_late (late E (clock b) (activeCommits b)) w).

(** [case err := <-t.commitResults] *)
Definition receive (b : Batch) (w : W) : Batch * W :=
  match take_at (pick E (clock b)) (activeCommits b) with
  | None => (b, w)
  | Some (g, rest) =>
      let '(r, w1) := na_AddMany g w in
      let b1 := mkBatch (b_err b) rest (b_nodes b) (b_size b) (S (clock b)) in
      match r with
      | Ok _ => (b1, w1)
      | Err e => setError e b1 w1
      end
  end.

(** The non-blocking loop; [n] bounds the commits in flight. *)
Fixpoint processResults (n : nat) (b : Batch) (w : W) : Batch * W :=
  match n with
  | 0 => (b, w)
  | S n' =>
      if ready E (clock b) then
        let '(b1, w1) := receive b w in
        match b_err b1 with Some _ => (b1, w1) | None => processResults n' b1 w1 end
      else (mkBatch (b_err b) (activeCommits b) (b_nodes b) (b_size b) (S (clock b)), w)
  end.

Definition asyncCommit (b : Batch) (w : W) : Batch * W :=
  match b_nodes b with
  | [] => (b, w)
  | _ =>
      let '(b1, w1) := if decide (parallelCommits E ≤ length (activeCommits b)) then receive b w else (b, w) in
      match b_err b1 with
      | Some _ => (b1, w1)
      | None => (mkBatch None (activeCommits b1 ++ [b_nodes b1]) [] 0 (clock b1), w1)
      end
  end.

Definition result (bw : Batch * W) : option string * (Batch * W) := (b_err bw.1, bw).

(** Batch.AddMany *)
Definition batch_AddMany (nds : list Blk) (bw : Batch * W) : option string * (Batch * W) :=
  match b_err bw.1 with
  | Some e => (Some e, bw)
  | None =>
      let '(b1, w1) := processResults (length (activeCommits bw.1)) bw.1 bw.2 in
      match b_err b1 with
      | Some e => (Some e, (b1, w1))
      | None =>
          let b2 := mkBatch None (activeCommits b1) (b_nodes b1 ++ nds) (b_size b1 + foldr Z.add 0%Z (rawlen <$> nds)) (clock b1) in
          result (if decide (maxSize E < b_size b2 ∨ maxNodes E < Z.of_nat (length (b_nodes b2)))%Z
                  then asyncCommit b2 w1 else (b2, w1))
      end
  end.

Definition batch_Add (nd : Blk) : Batch * W → option string * (Batch * W) := batch_AddMany [nd].

Fixpoint drain (n : nat) (b : Batch) (w : W) : Batch * W :=
  match n with
  | 0 => (b, w)
  | S n' => let '(b1, w1) := receive b w in match b_err b1 with Some _ => (b1, w1) | None => drain n' b1 w1 end
  end.

Definition batch_Commit (bw : Batch * W) : option string * (Batch * W) :=
  match b_err bw.1 with
  | Some e => (Some e, bw)
  | None => let '(b1, w1) := asyncCommit bw.1 bw.2 in result (drain (length (activeCommits b1)) b1 w1)
  end.

End batch.

Arguments BatchEnv : clear implicits.
Arguments Batch : clear implicits.

(** ** What a batch has handed over *)

Section handed_over.
Context {Blk W : Type}.
Variable na_AddMany : list Blk → M W string unit.

(** Calls that all succeeded, in order *)
Inductive committed : list (list Blk) → W → W → Prop :=
  | committed_nil w : committed [] w w
  | committed_snoc gs g w w1 w2 : committed gs w w1 → na_AddMany g w1 = (Ok (), w2) → committed (gs ++ [g]) w w2.

(** Calls of any outcome on groups of nodes in [added] *)
Inductive attempted (added : list Blk) : W → W → Prop :=
  | attempted_refl w : attempted added w w
  | attempted_call g w w1 : g ⊆ added → attempted added w w1 → attempted added w (na_AddMany g w1).2.

Lemma committed_attempted gs added w w' : committed gs w w' → concat gs ⊆ added → attempted added w w'.
Proof.
  induction 1 as [|gs g w w1 w2 _ IH Hg]; [constructor|]. rewrite concat_app. simpl. rewrite app_nil_r. intros Hs.
  replace w2 with (na_AddMany g w1).2 by (by rewrite Hg). constructor; [set_solver|]. apply IH. set_solver.
Qed.

Lemma attempted_mono a1 a2 w w' : a1 ⊆ a2 → attempted a1 w w' → attempted a2 w w'.
Proof. intros Ha. induction 1; constructor; set_solver. Qed.

End handed_over.

Section batch_laws.
Context {Blk W : Type}.
Variable na_AddMany : list Blk → M W string unit.
Variable E : BatchEnv Blk.
Hypothesis late_sub : ∀ n gs, late E n gs ⊆ gs.

Abbreviation committed := (committed na_AddMany).
Abbreviation attempted := (attempted na_AddMany).
Abbreviation run_late := (run_late na_AddMany).
Abbreviation receive := (receive na_AddMany E).
Abbreviation processResults := (processResults na_AddMany E).
Abbreviation asyncCommit := (asyncCommit na_AddMany E).
Abbreviation drain := (drain na_AddMany E).
Abbreviation batch_Commit := (batch_Commit na_AddMany E).

Lemma run_late_attempted added gs w0 w : (∀ g, g ∈ gs → g ⊆ added) → attempted added w0 w → attempted added w0 (run_late gs w).
Proof.
  revert w. induction gs as [|g gs IH]; intros w Hg Hw; [done|]. simpl. apply IH; [intros; apply Hg; by right|].
  constructor; [apply Hg; by left|done].
Qed.

(** Without an error every added node is in a committed group, in flight or buffered. *)
Definition batch_inv (w0 : W) (added : list Blk) (bw : Batch Blk * W) : Prop :=
  match b_err bw.1 with
  | None => ∃ gs, committed gs w0 bw.2 ∧ concat gs ++ concat (activeCommits bw.1) ++ b_nodes bw.1 ≡ₚ added
  | Some _ => activeCommits bw.1 = [] ∧ attempted added w0 bw.2
  end.

Lemma batch_inv_attempted w0 added bw : batch_inv w0 added bw → attempted added w0 bw.2.
Proof.
  unfold batch_inv. destruct (b_err bw.1); [by intros [_ ?]|]. intros (gs & Hc & Hp). eapply committed_attempted; [exact Hc|].
  intros x Hx. rewrite <- Hp. apply elem_of_app. by left.
Qed.

Lemma batch_inv_new w0 : batch_inv w0 [] (NewBatch, w0).
Proof. exists []. split; [constructor|done]. Qed.

Lemma receive_inv w0 added b w : batch_inv w0 added (b, w) → b_err b = None → batch_inv w0 added (receive b w).
Proof.
  unfold batch_inv at 1. simpl. intros Hinv He. rewrite He in Hinv. destruct Hinv as (gs & Hc & Hp).
  unfold receive. destruct (take_at _ (activeCommits b)) as [[g rest]|] eqn:Ht.
  2: { unfold batch_inv. simpl. rewrite He. by exists gs. }
  apply take_at_Permutation in Ht. rewrite Ht in Hp. simpl in Hp.
  destruct (na_AddMany g w) as [[[]|e] w1] eqn:Hg; unfold batch_inv; simpl.
  - rewrite He. exists (gs ++ [g]). split; [by econstructor|]. rewrite concat_app. simpl.
    rewrite app_nil_r, <- !(assoc_L (++)). by rewrite <- (assoc_L (++)) in Hp.
  - split; [done|]. apply run_late_attempted.
    + intros x Hx%late_sub y Hy. rewrite <- Hp. simpl in Hx. apply elem_of_app. right. apply elem_of_app. left.
      apply elem_of_app. right. apply list_elem_of_In, in_concat. exists x. by split; apply list_elem_of_In.
    + replace w1 with (na_AddMany g w).2 by (by rewrite Hg). constructor; [intros x Hx; rewrite <- Hp; set_solver|].
      eapply committed_attempted; [exact Hc|]. intros x Hx. rewrite <- Hp. set_solver.
Qed.

Lemma processResults_inv n w0 added : ∀ b w, batch_inv w0 added (b, w) → b_err b = None → batch_inv w0 added (processResults n b w).
Proof.
  induction n as [|n IH]; intros b w Hinv He; [done|]. simpl. destruct (ready E (clock b)); [|exact Hinv].
  pose proof (receive_inv _ _ _ _ Hinv He) as Hr. destruct (receive b w) as [b1 w1].
  destruct (b_err b1) eqn:He1; [exact Hr|by apply IH].
Qed.

Lemma drain_inv n w0 added : ∀ b w, batch_inv w0 added (b, w) → b_err b = None → batch_inv w0 added (drain n b w).
Proof.
  induction n as [|n IH]; intros b w Hinv He; [done|]. simpl.
  pose proof (receive_inv _ _ _ _ Hinv He) as Hr. destruct (receive b w) as [b1 w1].
  destruct (b_err b1) eqn:He1; [exact Hr|by apply IH].
Qed.

Lemma asyncCommit_inv w0 added b w : batch_inv w0 added (b, w) → b_err b = None → batch_inv w0 added (asyncCommit b w).
Proof.
  intros Hinv He. unfold asyncCommit. destruct (b_nodes b) as [|n0 ns] eqn:Hn; [exact Hinv|].
  assert (batch_inv w0 added (if decide (parallelCommits E ≤ length (activeCommits b)) then receive b w else (b, w))) as Hr.
  { destruct (decide _); [by apply receive_inv|exact Hinv]. }
  destruct (if decide _ then _ else _) as [b1 w1]. destruct (b_err b1) as [e|] eqn:He1; [exact Hr|].
  unfold batch_inv in *. simpl in *. rewrite He1 in Hr. destruct Hr as (gs & Hc & Hp). exists gs. split; [done|].
  rewrite concat_app. simpl. by rewrite !app_nil_r.
Qed.

(** Draining as many commits as are in flight leaves none, unless an error was met. *)
Lemma drain_empty b w : b_err b = None → b_err (drain (length (activeCommits b)) b w).1 = None →
  activeCommits (drain (length (activeCommits b)) b w).1 = [] ∧ b_nodes (drain (length (activeCommits b)) b w).1 = b_nodes b.
Proof.
  remember (length (activeCommits b)) as n eqn:Hn. revert b w Hn.
  induction n as [|n IH]; intros b w Hn He; simpl; [by destruct (activeCommits b)|].
  unfold receive. destruct (take_at (pick E (clock b)) (activeCommits b)) as [[g rest]|] eqn:Ht.
  2: { apply take_at_None in Ht. by rewrite Ht in Hn. }
  apply take_at_Permutation, Permutation_length in Ht. simpl in Ht.
  destruct (na_AddMany g w) as [[[]|e] w1]; simpl; [|done]. rewrite He. apply (IH (mkBatch _ _ _ _ _)); simpl; [lia|done].
Qed.

Lemma batch_Commit_inv w0 added bw r bw' : batch_Commit bw = (r, bw') → batch_inv w0 added bw →
  match r with
  | None => ∃ gs, committed gs w0 bw'.2 ∧ concat gs ≡ₚ added
  | Some _ => batch_inv w0 added bw'
  end.
Proof.
  destruct bw as [b w]. unfold batch_Commit. simpl. intros Hrun Hinv. destruct (b_err b) as [e|] eqn:He.
  { by injection Hrun as <- <-. }
  pose proof (asyncCommit_inv _ _ _ _ Hinv He) as Ha. unfold result in Hrun.
  assert (b_err (asyncCommit b w).1 = None → b_nodes (asyncCommit b w).1 = []) as Hnodes.
  { unfold asyncCommit. destruct (b_nodes b) eqn:Hn; [done|]. destruct (if decide _ then _ else _) as [b1 w1].
    destruct (b_err b1) eqn:He1; [simpl; by rewrite He1|done]. }
  destruct (asyncCommit b w) as [b1 w1]. simpl in *. destruct (b_err b1) as [e|] eqn:He1.
  { assert (activeCommits b1 = []) as Hnil by (unfold batch_inv in Ha; simpl in Ha; rewrite He1 in Ha; by destruct Ha).
    rewrite Hnil in Hrun. simpl in Hrun. rewrite He1 in Hrun. by injection Hrun as <- <-. }
  pose proof (drain_inv (length (activeCommits b1)) _ _ _ _ Ha He1) as Hd. pose proof (drain_empty b1 w1 He1) as Hempty.
  destruct (drain _ b1 w1) as [b2 w2]. simpl in *. injection Hrun as <- <-.
  destruct (b_err b2) as [e|] eqn:He2; [exact Hd|]. unfold batch_inv in Hd. simpl in Hd. rewrite He2 in Hd.
  destruct Hempty as [Hnil Hn2]; [done|]. destruct Hd as (gs & Hc & Hp). exists gs. split; [done|].
  rewrite Hnil, Hn2, (Hnodes eq_refl) in Hp. simpl in Hp. by rewrite app_nil_r in Hp.
Qed.

Variable rawlen : Blk → Z.
Abbreviation batch_AddMany := (batch_AddMany rawlen na_AddMany E).

Lemma batch_AddMany_inv w0 added nds bw r bw' : batch_AddMany nds bw = (r, bw') → batch_inv w0 added bw →
  batch_inv w0 (added ++ nds) bw' ∧ r = b_err bw'.1.
Proof.
  destruct bw as [b w]. unfold batch_AddMany. simpl. intros Hrun Hinv.
  assert (∀ b1 w1 e, b_err b1 = Some e → batch_inv w0 added (b1, w1) → batch_inv w0 (added ++ nds) (b1, w1)) as Herr.
  { unfold batch_inv. simpl. intros b1 w1 e -> [? Hatt]. split; [done|]. eapply attempted_mono; [|exact Hatt]. set_solver. }
  destruct (b_err b) as [e|] eqn:He; [injection Hrun as <- <-; split; [by eapply Herr|done]|].
  pose proof (processResults_inv (length (activeCommits b)) _ _ _ _ Hinv He) as Hp.
  destruct (processResults _ b w) as [b1 w1]. destruct (b_err b1) as [e|] eqn:He1.
  { injection Hrun as <- <-. split; [by eapply Herr|done]. }
  set (b2 := mkBatch None (activeCommits b1) (b_nodes b1 ++ nds) _ (clock b1)) in Hrun.
  assert (batch_inv w0 (added ++ nds) (b2, w1)) as H2.
  { unfold batch_inv in *. simpl in *. rewrite He1 in Hp. destruct Hp as (gs & Hc & Hp). exists gs. split; [done|].
    rewrite !(assoc_L (++)). by rewrite <- (assoc_L (++) (concat gs)), Hp. }
  injection Hrun as <- <-. split; [|done]. destruct (decide _); [by apply asyncCommit_inv|exact H2].
Qed.

(** With an adder that never fails, neither does the batch. *)
Section healthy.
Hypothesis AddMany_ok : ∀ g w, (na_AddMany g w).1 = Ok ().

Lemma receive_healthy b w : b_err b = None → b_err (receive b w).1 = None.
Proof.
  intros He. unfold Batch.receive. destruct (take_at _ _) as [[g rest]|]; [|done].
  pose proof (AddMany_ok g w) as Ha. destruct (na_AddMany g w) as [r w1]. simpl in Ha. by rewrite Ha.
Qed.

Lemma processResults_healthy n : ∀ b w, b_err b = None → b_err (processResults n b w).1 = None.
Proof.
  induction n as [|n IH]; intros b w He; simpl; [done|]. destruct (ready E (clock b)); [|done].
  pose proof (receive_healthy b w He) as Hr. destruct (receive b w) as [b1 w1]. simpl in Hr. rewrite Hr. by apply IH.
Qed.

Lemma drain_healthy n : ∀ b w, b_err b = None → b_err (drain n b w).1 = None.
Proof.
  induction n as [|n IH]; intros b w He; simpl; [done|].
  pose proof (receive_healthy b w He) as Hr. destruct (receive b w) as [b1 w1]. simpl in Hr. rewrite Hr. by apply IH.
Qed.

Lemma asyncCommit_healthy b w : b_err b = None → b_err (asyncCommit b w).1 = None.
Proof.
  intros He. unfold Batch.asyncCommit. destruct (b_nodes b); [done|].
  assert (b_err (if decide (parallelCommits E ≤ length (activeCommits b)) then receive b w else (b, w)).1 = None) as Hr
    by (destruct (decide _); [by apply receive_healthy|done]).
  destruct (if decide _ then _ else _) as [b1 w1]. simpl in Hr. by rewrite Hr.
Qed.

Lemma batch_AddMany_healthy nds bw : b_err bw.1 = None → (batch_AddMany nds bw).1 = None ∧ b_err (batch_AddMany nds bw).2.1 = None.
Proof.
  intros He. unfold Batch.batch_AddMany. rewrite He.
  pose proof (processResults_healthy (length (activeCommits bw.1)) bw.1 bw.2 He) as Hp.
  destruct (processResults _ bw.1 bw.2) as [b1 w1]. simpl in Hp. rewrite Hp. unfold result. simpl.
  assert (∀ b : Batch Blk, b_err b = None → b_err (if decide (maxSize E < b_size b ∨ maxNodes E < Z.of_nat (length (b_nodes b)))%Z
    then asyncCommit b w1 else (b, w1)).1 = None) as Hb by (intros b Hb; destruct (decide _); [by apply asyncCommit_healthy|done]).
  split; by apply (Hb (mkBatch _ _ _ _ _)).
Qed.

Lemma batch_Commit_healthy bw : b_err bw.1 = None → (batch_Commit bw).1 = None.
Proof.
  intros He. unfold Batch.batch_Commit. rewrite He. pose proof (asyncCommit_healthy bw.1 bw.2 He) as Ha.
  destruct (asyncCommit bw.1 bw.2) as [b1 w1]. unfold result. simpl. by apply drain_healthy.
Qed.
End healthy.

End batch_laws.
