(* ===== verification/DagCmd.v ===== *)
(** * The dag commands (core/commands/dag, core/coreapi/dag.go)

    Importing CAR files under the pin lock and pinning their roots, exporting the
    DAG below a CID, putting, getting and resolving objects, and measuring a DAG.
    Blocks are stored through [Batch]; the recursive pin is the pinner's
    (src/vendor/github.com/ipfs/go-ipfs-pinner/dspinner), which fetches the graph
    with [Dag.walk_loop] over the node's own DAG service; export and stat descend
    with [Traverse.descend].  A CAR file is its decoded header, its sections (CID
    and bytes) and how it ends; the varint framing is not modelled. *)

From Stdlib Require Import ZArith Ascii String.
From stdpp Require Import base gmap sets list strings pretty relations.
From S2P Require Import Prelude Cid Dag Traverse Batch.

(** A block: its CID and its bytes *)
Definition Blk : Type := Cid * string.

Definition blk_len (b : Blk) : Z := Z.of_nat (String.length b.2).

Record CarHeader := mkCarHeader { Version : Z; Roots : list Cid }.

(** What a CAR stream holds; [cf_end] is the error it ends with, if not EOF. *)
Record CarFile := mkCarFile { cf_header : res string CarHeader; cf_sections : list Blk; cf_end : option string }.

Inductive DEv := DLock | DUnlock | DAdded (g : list Blk) | DFetched (c : Cid) | DPinned (c : Cid).

(** The blockstore, the recursive and direct pins, a tick per store operation, and what happened. *)
Record DW := mkDW { store : gmap Cid string; rpins : gset Cid; dpins : gset Cid; tick : nat; dlog : list DEv }.

(** What dag import emits *)
Inductive ImportOut := IRoot (c : Cid) (msg : string) | IStats (blocks bytes : Z).

Record DagStat := mkDagStat { Size : Z; NumBlocks : Z }.

Record DagEnv := mkDagEnv {
  (** ipld.Decode: the links of a block *)
  dag_links : Cid → string → res string (list Cid);
  (** The links in the order in which the exhaustive selector meets them *)
  sel_links : Cid → string → res string (list Cid);
  (** [c.Prefix().Sum(data)] compared with [c] *)
  check_hash : Cid → string → option string;
  (** What the node's exchange supplies; nothing when the node is offline *)
  exchange : Cid → option string;
  (** A fault of a store operation: the error, and the blocks that land all the same *)
  put_fault : nat → option (string * (Cid → bool));
  Blockstore_err : Cid → option string;
  index_err : Cid → option string;
  Flush_err : option string;
  GetApi_err : option string;
  (** The order in which Go ranges over a set *)
  range : gset Cid → list Cid;
  sched : nat → nat;
  emit_err : nat → option string;
  (** Writing to the stream of an export: the header, the n-th block *)
  header_err : option string;
  write_err : nat → option string;
  (** "error traversing node at ...: could not load link ..." *)
  load_msg : Cid → string → string;
  cid_Decode : string → res string Cid;
  (** The CID and the remainder of a path *)
  ResolvePath : string → res string (Cid * string);
  IsOnline : bool;
  batchEnv : BatchEnv Blk;
}.

Definition ErrNotFound : string := "merkledag: not found".
Definition bs_ErrNotFound : string := "blockstore: block not found".

Section dag_cmd.
Context (E : DagEnv).
Abbreviation A := (M DW string).

Definition event (e : DEv) (w : DW) : DW := mkDW (store w) (rpins w) (dpins w) (tick w) (dlog w ++ [e]).

(** BlockService.AddBlocks over a blockstore that keeps what it has *)
Definition dag_AddMany (g : list Blk) : A unit := λ w,
  let add g := mkDW (store w ∪ list_to_map g) (rpins w) (dpins w) (S (tick w)) (dlog w ++ [DAdded g]) in
  match put_fault E (tick w) with
  | Some (e, lands) => (Err e, add (filter (λ b : Blk, lands b.1 = true) g))
  | None => (Ok (), add g)
  end.

(** dagService.Get of an online DAG service: from the store, or fetched into it *)
Definition dag_Get (ex : Cid → option string) (c : Cid) : A (string * list Cid) := λ w,
  match store w !! c with
  | Some d => (ls ← dag_links E c d; Ok (d, ls), w)
  | None =>
      match ex c with
      | Some d => (ls ← dag_links E c d; Ok (d, ls), event (DFetched c) (mkDW (<[c := d]> (store w)) (rpins w) (dpins w) (tick w) (dlog w)))
      | None => (Err ErrNotFound, w)
      end
  end.

(** ** The pinner *)

Definition walk_err_msg (e : walk_err string) : string := match e with WErr e => e | OutOfFuel => "out of fuel" end.

(** merkledag.FetchGraph *)
Definition FetchGraph (fuel : nat) (c : Cid) : A unit := λ w,
  match walk_loop (λ c, '(_, ls) ← dag_Get (exchange E) c; mret ls) (sched E) fuel [c] (∅, w) with
  | (Ok _, (_, w')) => (Ok (), w')
  | (Err e, (_, w')) => (Err (walk_err_msg e), w')
  end.

(** pinner.Pin(node, true) *)
Definition Pinner_Pin (fuel : nat) (b : Blk) : A unit :=
  _ ← dag_AddMany [b];
  w ← mget;
  match index_err E b.1 with
  | Some e => mthrow e
  | None =>
      if decide (b.1 ∈ rpins w) then mret () else
      _ ← FetchGraph fuel b.1;
      mmodify (λ w, event (DPinned b.1) (mkDW (store w) ({[b.1]} ∪ rpins w) (dpins w ∖ {[b.1]}) (tick w) (dlog w)))
  end.

Definition Pinner_Flush : A unit := match Flush_err E with Some e => mthrow e | None => mret () end.

(** pinner.PinWithMode(c, Recursive), which reports no error *)
Definition PinWithMode (c : Cid) (w : DW) : DW :=
  match index_err E c with
  | Some _ => w
  | None => if decide (c ∈ rpins w) then w
            else event (DPinned c) (mkDW (store w) ({[c]} ∪ rpins w) (dpins w) (tick w) (dlog w))
  end.

(** pinningAdder.AddMany *)
Definition pinning_AddMany (g : list Blk) : A unit := λ w,
  let '(r, w1) := (_ ← dag_AddMany g;
                   _ ← mmodify (λ w, foldl (λ w c, PinWithMode c w) w (dedup_from ∅ g.*1));
                   Pinner_Flush) (event DLock w) in
  (r, event DUnlock w1).

(** ** dag import *)

Record ImportWorker := mkIW { iw_batch : Batch Blk * DW; iw_roots : gset Cid; blockCount : Z; blockBytesCount : Z }.

(** gocar.NewCarReader *)
Definition NewCarReader (f : CarFile) : res string CarHeader :=
  ch ← cf_header f;
  if decide (Version ch ≠ 1%Z) then Err ("invalid car version: " +:+ pretty (Version ch))
  else if decide (Roots ch = []) then Err "empty car, no roots"
  else Ok ch.

(** The body of the section loop *)
Definition import_block (b : Blk) : M ImportWorker string unit := λ iw,
  match check_hash E b.1 b.2 with
  | Some e => (Err e, iw)
  | None =>
      match dag_links E b.1 b.2 with
      | Err e => (Err e, iw)
      | Ok _ =>
          match batch_Add blk_len dag_AddMany (batchEnv E) b (iw_batch iw) with
          | (Some e, bw) => (Err e, mkIW bw (iw_roots iw) (blockCount iw) (blockBytesCount iw))
          | (None, bw) => (Ok (), mkIW bw (iw_roots iw) (u64 (blockCount iw + 1)) (u64 (blockBytesCount iw + blk_len b)))
          end
      end
  end.

Definition import_file (f : option CarFile) : M ImportWorker string unit :=
  match f with
  | None => mthrow "expected a file handle"
  | Some f =>
      ch ← mlift (NewCarReader f);
      if decide (Version ch ≠ 1%Z) then mthrow "only car files version 1 supported at present" else
      _ ← mmodify (λ iw, mkIW (iw_batch iw) (iw_roots iw ∪ list_to_set (Roots ch)) (blockCount iw) (blockBytesCount iw));
      _ ← mfor (cf_sections f) import_block;
      match cf_end f with Some e => mthrow e | None => mret () end
  end.

Definition import_commit : M ImportWorker string unit := λ iw,
  let '(e, bw) := batch_Commit dag_AddMany (batchEnv E) (iw_batch iw) in
  (match e with Some e => Err e | None => Ok () end, mkIW bw (iw_roots iw) (blockCount iw) (blockBytesCount iw)).

Definition importWorker (files : list (option CarFile)) (it_err : option string) : M ImportWorker string unit :=
  _ ← mfor files import_file;
  match it_err with Some e => mthrow e | None => import_commit end.

Definition pin_root (fuel : nat) (c : Cid) : A unit := λ w,
  match Blockstore_err E c, store w !! c with
  | Some e, _ => (Err e, w)
  | None, None => (Err bs_ErrNotFound, w)
  | None, Some d =>
      match dag_links E c d with
      | Err e => (Err e, w)
      | Ok _ => (_ ← Pinner_Pin fuel (c, d); Pinner_Flush) w
      end
  end.

(** The loop over the roots: the failures, and an error of Emit. *)
Fixpoint pin_roots (fuel : nat) (roots : list Cid) (failed : nat) (out : list ImportOut) (w : DW)
    : res string nat * list ImportOut * DW :=
  match roots with
  | [] => (Ok failed, out, w)
  | c :: roots' =>
      let '(r, w1) := pin_root fuel c w in
      let msg := match r with Ok _ => "" | Err e => e end in
      let failed' := if decide (msg ≠ "") then S failed else failed in
      match emit_err E (length out) with
      | Some e => (Err e, out, w1)
      | None => pin_roots fuel roots' failed' (out ++ [IRoot c msg]) w1
      end
  end.

Definition emit_stats (stats : bool) (iw : ImportWorker) (out : list ImportOut) : option string * list ImportOut :=
  if stats then
    match emit_err E (length out) with
    | Some e => (Some e, out)
    | None => (None, out ++ [IStats (blockCount iw) (blockBytesCount iw)])
    end
  else (None, out).

Definition dagImport (fuel : nat) (doPinRoots stats : bool) (files : list (option CarFile)) (it_err : option string) (w : DW)
    : option string * list ImportOut * DW :=
  match GetApi_err E with
  | Some e => (Some e, [], w)
  | None =>
      let '(r, iw) := importWorker files it_err (mkIW (NewBatch, event DLock w) ∅ 0 0) in
      let w1 := (iw_batch iw).2 in
      let '(e, out, w2) :=
        match r with
        | Err e => (Some e, [], w1)
        | Ok _ =>
            if doPinRoots then
              match pin_roots fuel (range E (iw_roots iw)) 0 [] w1 with
              | (Err e, out, w2) => (Some e, out, w2)
              | (Ok failed, out, w2) =>
                  if decide (failed ≠ 0) then
                    (Some ("unable to pin all roots: " +:+ pretty failed +:+ " out of " +:+ pretty (size (iw_roots iw)) +:+ " failed"), out, w2)
                  else let '(e, out') := emit_stats stats iw out in (e, out', w2)
              end
            else let '(e, out') := emit_stats stats iw [] in (e, out', w1)
        end in
      (* a batch that was not committed is not cancelled: commits in flight may land later *)
      (e, out, match r with
               | Err _ => run_late dag_AddMany (late (batchEnv E) (clock (iw_batch iw).1) (activeCommits (iw_batch iw).1)) (event DUnlock w2)
               | Ok _ => event DUnlock w2
               end)
  end.

(** ** dag export *)

Record ExportState := mkXS { xw : DW; SeenLinks : gset Cid; cidSet : gset Cid; xout : list Blk }.

(** selectiveCarTraverser.loader, and the codec that reads what it returns *)
Definition loader (c : Cid) : M ExportState string (list Cid) := λ x,
  match dag_Get (exchange E) c (xw x) with
  | (Err e, w) => (Err e, mkXS w (SeenLinks x) (cidSet x) (xout x))
  | (Ok (d, _), w) =>
      if decide (c ∈ cidSet x) then (sel_links E c d, mkXS w (SeenLinks x) (cidSet x) (xout x)) else
      match write_err E (length (xout x)) with
      | Some e => (Err e, mkXS w (SeenLinks x) ({[c]} ∪ cidSet x) (xout x))
      | None => (sel_links E c d, mkXS w (SeenLinks x) ({[c]} ∪ cidSet x) (xout x ++ [(c, d)]))
      end
  end.

(** walkAdv_iterateAll with LinkVisitOnlyOnce, for one link *)
Definition export_enter (c : Cid) : M ExportState (walk_err string) (option (list Cid)) := λ x,
  if decide (c ∈ SeenLinks x) then (Ok None, x) else
  match loader c (mkXS (xw x) ({[c]} ∪ SeenLinks x) (cidSet x) (xout x)) with
  | (Ok ls, x') => (Ok (Some ls), x')
  | (Err e, x') => (Err (WErr (load_msg E c e)), x')
  end.

(** SelectiveCar.Write, after the header *)
Definition traverseBlocks (fuel : nat) (root : Cid) : M ExportState string unit := λ x,
  match loader root x with
  | (Err e, x') => (Err e, x')
  | (Ok ls, x') =>
      match descend (λ ls, ls) export_enter fuel ls x' with
      | (Ok _, x2) => (Ok (), x2)
      | (Err e, x2) => (Err (walk_err_msg e), x2)
      end
  end.

(** The hint added to the error *)
Definition offline_hint (explicitOffline : bool) (e : string) : string :=
  if decide (e = ErrNotFound) then
    if explicitOffline then e +:+ " (currently offline, perhaps retry without the offline flag)"
    else if IsOnline E then e else e +:+ " (currently offline, perhaps retry after attaching to the network)"
  else e.

(** The error of the command, the stream it emitted (always ended cleanly), and the state *)
Definition dagExport (fuel : nat) (arg : string) (explicitOffline : bool) (w : DW) : option string * option CarFile * DW :=
  match cid_Decode E arg with
  | Err e => (Some ("unable to parse root specification (currently only bare CIDs are supported): " +:+ e), None, w)
  | Ok c =>
      match GetApi_err E with
      | Some e => (Some e, None, w)
      | None =>
          let '(r, hdr, x) :=
            match header_err E with
            | Some e => (Err ("failed to write car header: " +:+ e), Err "unexpected EOF", mkXS w ∅ ∅ [])
            | None => let '(r, x) := traverseBlocks fuel c (mkXS w ∅ ∅ []) in (r, Ok (mkCarHeader 1 [c]), x)
            end in
          match emit_err E 0 with
          | Some e => (Some e, None, xw x)
          | None =>
              (match r with Ok _ => None | Err e => Some (offline_hint explicitOffline e) end,
               Some (mkCarFile hdr (xout x) None), xw x)
          end
      end
  end.

(** ** dag stat *)

Record StatState := mkSS { sw : DW; sseen : gset Cid; dagstats : DagStat; sout : list DagStat }.

(** The visit function *)
Definition stat_Func (progressive : bool) (d : string) : M StatState (walk_err string) unit := λ s,
  let st := mkDagStat (u64 (Size (dagstats s) + Z.of_nat (String.length d))) (i64 (NumBlocks (dagstats s) + 1)) in
  if progressive then
    match emit_err E (length (sout s)) with
    | Some e => (Err (WErr e), mkSS (sw s) (sseen s) st (sout s))
    | None => (Ok (), mkSS (sw s) (sseen s) st (sout s ++ [st]))
    end
  else (Ok (), mkSS (sw s) (sseen s) st (sout s)).

(** traversal.getNode and dfsPreTraverse up to the descent *)
Definition stat_enter (progressive : bool) (c : Cid) : M StatState (walk_err string) (option (list Cid)) := λ s,
  match dag_Get (exchange E) c (sw s) with
  | (Err e, w) => (Err (WErr e), mkSS w (sseen s) (dagstats s) (sout s))
  | (Ok (d, ls), w) =>
      if decide (c ∈ sseen s) then (Ok None, mkSS w (sseen s) (dagstats s) (sout s))
      else (_ ← stat_Func progressive d; mret (Some ls)) (mkSS w ({[c]} ∪ sseen s) (dagstats s) (sout s))
  end.

Definition Traverse (progressive : bool) (fuel : nat) (d : string) (ls : list Cid) : M StatState (walk_err string) unit :=
  _ ← stat_Func progressive d; descend (λ ls, ls) (stat_enter progressive) fuel ls.

Definition dagStat (fuel : nat) (progressive : bool) (arg : string) (w : DW) : option string * list DagStat * DW :=
  match GetApi_err E with
  | Some e => (Some e, [], w)
  | None =>
      match ResolvePath E arg with
      | Err e => (Some e, [], w)
      | Ok (c, remainder) =>
          if decide (remainder ≠ "") then (Some "cannot return size for anything other than a DAG with a root CID", [], w) else
          match dag_Get (exchange E) c w with
          | (Err e, w1) => (Some e, [], w1)
          | (Ok (d, ls), w1) =>
              let '(r, s) := Traverse progressive fuel d ls (mkSS w1 ∅ (mkDagStat 0 0) []) in
              match r with
              | Err e => (Some ("error traversing DAG: " +:+ walk_err_msg e), sout s, sw s)
              | Ok _ =>
                  if progressive then (None, sout s, sw s) else
                  match emit_err E (length (sout s)) with
                  | Some e => (Some e, sout s, sw s)
                  | None => (None, sout s ++ [dagstats s], sw s)
                  end
              end
          end
      end
  end.

(** finishCLIStat: the last statistics that came, unless the command failed *)
Definition finishCLIStat (e : option string) (vs : list DagStat) : res string (option DagStat) :=
  match e with Some e => Err e | None => Ok (last vs) end.

(** ** dag get and dag resolve *)

Definition dagResolve (arg : string) : res string (Cid * string) :=
  match GetApi_err E with Some e => Err e | None => ResolvePath E arg end.

End dag_cmd.

(** ** dag put and dag get: objects of any codec *)

Record CodecEnv (Nd : Type) := mkCodecEnv {
  (** mc.Code.Set, multicodec.LookupDecoder and LookupEncoder *)
  Code_Set : string → res string N;
  LookupDecoder : N → res string (string → res string Nd);
  LookupEncoder : N → res string (Nd → res string string);
  (** cid.Prefix{1, codec, mhType, -1}.Sum *)
  prefix_Sum : N → N → string → res string Cid;
  (** The node of a block, when it is a universal node, and traversal.Get in it *)
  universal : Cid → string → option Nd;
  traversal_Get : Nd → string → res string Nd;
}.
Arguments Code_Set {Nd}. Arguments LookupDecoder {Nd}. Arguments LookupEncoder {Nd}. Arguments prefix_Sum {Nd}.
Arguments universal {Nd}. Arguments traversal_Get {Nd}.

Section dag_put.
Context {Nd : Type} (E : DagEnv) (C : CodecEnv Nd).

(** The adder: the DAG service, or the pinning one *)
Definition put_adder (dopin : bool) : list Blk → M DW string unit := if dopin then pinning_AddMany E else dag_AddMany E.

(** The body of the loop over the files: the block of a file *)
Definition put_block (decoder : string → res string Nd) (encoder : Nd → res string string) (scodec mhType : N) (file : option string)
    : res string Blk :=
  match file with
  | None => Err "expected a regular file"
  | Some bytes => n ← decoder bytes; bd ← encoder n; c ← prefix_Sum C scodec mhType bd; Ok (c, bd)
  end.

Fixpoint put_files (mk : option string → res string Blk) (dopin : bool) (files : list (option string)) (emitted : list Cid)
    (bw : Batch Blk * DW) : option string * list Cid * (Batch Blk * DW) :=
  match files with
  | [] => (None, emitted, bw)
  | f :: files' =>
      match mk f with
      | Err e => (Some e, emitted, bw)
      | Ok b =>
          match batch_Add blk_len (put_adder dopin) (batchEnv E) b bw with
          | (Some e, bw') => (Some e, emitted, bw')
          | (None, bw') =>
              match emit_err E (length emitted) with
              | Some e => (Some e, emitted, bw')
              | None => put_files mk dopin files' (emitted ++ [b.1]) bw'
              end
          end
      end
  end.

Definition dagPut (inputCodec storeCodec hash : string) (dopin : bool) (files : list (option string)) (it_err : option string) (w : DW)
    : option string * list Cid * DW :=
  match GetApi_err E with
  | Some e => (Some e, [], w)
  | None =>
      match (icodec ← Code_Set C inputCodec; scodec ← Code_Set C storeCodec; mhType ← Code_Set C hash;
             decoder ← LookupDecoder C icodec; encoder ← LookupEncoder C scodec;
             Ok (put_block decoder encoder scodec mhType)) with
      | Err e => (Some e, [], w)
      | Ok mk =>
          match put_files mk dopin files [] (NewBatch, w) with
          | (Some e, out, bw) => (Some e, out, bw.2)
          | (None, out, bw) =>
              match it_err with
              | Some e => (Some e, out, bw.2)
              | None => let '(e, bw') := batch_Commit (put_adder dopin) (batchEnv E) bw in (e, out, bw'.2)
              end
          end
      end
  end.

(** The stream dag get emits, with the error it ends with *)
Definition dagGet (codecStr arg : string) : M DW string (string * option string) :=
  _ ← mlift (match GetApi_err E with Some e => Err e | None => Ok () end);
  codec ← mlift (Code_Set C codecStr);
  '(c, remainder) ← mlift (ResolvePath E arg);
  '(d, _) ← dag_Get E (exchange E) c;
  n ← mlift (match universal C c d with Some n => Ok n | None => Err "not a valid IPLD node" end);
  n ← mlift (if decide (remainder ≠ "") then traversal_Get C n remainder else Ok n);
  encoder ← mlift (match LookupEncoder C codec with Ok f => Ok f | Err e => Err ("invalid encoding: " +:+ e) end);
  mret (match encoder n with Ok s => (s, None) | Err e => ("", Some e) end).

End dag_put.

(** ** Laws and the store *)

(** The codecs agree with the CIDs: whatever hashes to [c] decodes to links
    [children c] (in the selector's order, [ordered c]), the exchange supplies
    blocks that hash to their CID, and a CID has one block. *)
Class DagLaws (E : DagEnv) (children ordered : Cid → list Cid) : Prop := {
  links_ok : ∀ c d ls, check_hash E c d = None → dag_links E c d = Ok ls → ls = children c;
  sel_ok : ∀ c d ls, check_hash E c d = None → sel_links E c d = Ok ls → ls = ordered c;
  ordered_ok : ∀ c x, x ∈ ordered c ↔ x ∈ children c;
  exchange_ok : ∀ c d, exchange E c = Some d → check_hash E c d = None;
  hash_det : ∀ c d1 d2, check_hash E c d1 = None → check_hash E c d2 = None → d1 = d2;
  range_ok : ∀ X, range E X ≡ₚ elements X;
  late_ok : ∀ n gs, late (batchEnv E) n gs ⊆ gs;
}.

Section dag_laws.
Context (E : DagEnv) (children ordered : Cid → list Cid) `{L : !DagLaws E children ordered}.

(** Every stored block hashes to the CID it is stored under. *)
Definition store_ok (w : DW) : Prop := ∀ c d, store w !! c = Some d → check_hash E c d = None.

(** Every recursive pin is there in full. *)
Definition whole (w : DW) : Prop := ∀ p x, p ∈ rpins w → Dag.reach children p x → is_Some (store w !! x).

Lemma reach_ordered a b : Dag.reach ordered a b ↔ Dag.reach children a b.
Proof.
  split; (induction 1 as [|x y z Hxy _ IH]; [apply rtc_refl|]; eapply rtc_l; [|exact IH]); by apply (ordered_ok (E := E)).
Qed.

(** What a step that touches no pins does: it only adds blocks that hash to their CID. *)
Record grown (w w' : DW) : Prop := {
  gr_ok : store_ok w → store_ok w';
  gr_sub : store w ⊆ store w';
  gr_rpins : rpins w' = rpins w;
  gr_dpins : dpins w' = dpins w;
}.

#[export] Instance grown_preorder : PreOrder grown.
Proof.
  split; [by split|]. intros w1 w2 w3 [? ? ? ?] [? ? ? ?]. split; [auto|by etrans|congruence..].
Qed.

Lemma grown_event e w : grown w (event e w).
Proof. by split. Qed.

Lemma grown_whole w w' : grown w w' → whole w → whole w'.
Proof.
  intros [_ Hs Hp _] Hw p x. rewrite Hp. intros Hin Hr. destruct (Hw p x Hin Hr) as [d Hd]. exists d.
  by eapply lookup_weaken.
Qed.

Lemma grown_state w w' : grown w w' → store_ok w → whole w →
  store_ok w' ∧ whole w' ∧ store w ⊆ store w' ∧ rpins w' = rpins w.
Proof.
  intros Hg Hok Hw. split; [by apply Hg|]. split; [by eapply grown_whole|]. by destruct Hg.
Qed.

Lemma dag_Get_spec ex c w r w' : (∀ c d, ex c = Some d → check_hash E c d = None) → dag_Get E ex c w = (r, w') →
  grown w w' ∧ ∀ d ls, r = Ok (d, ls) → store w' !! c = Some d ∧ dag_links E c d = Ok ls.
Proof.
  intros Hex. unfold dag_Get. destruct (store w !! c) as [d|] eqn:Hl.
  - intros [= <- <-]. split; [done|]. intros d' ls Hr. destruct (dag_links E c d) eqn:Hdl; simplify_eq/=. done.
  - destruct (ex c) as [d|] eqn:He; [|by intros [= <- <-]]. intros [= <- <-]. split.
    + split; [|by apply insert_subseteq|done..]. intros Hok x dx. unfold event. simpl.
      intros [[<- <-]|[_ ?]]%lookup_insert_Some; [by apply Hex|by apply Hok].
    + intros d' ls Hr. unfold event. simpl. destruct (dag_links E c d) eqn:Hdl; simplify_eq/=. by rewrite lookup_insert_eq.
Qed.

Lemma dag_Get_children ex c w d ls w' : (∀ c d, ex c = Some d → check_hash E c d = None) → store_ok w →
  dag_Get E ex c w = (Ok (d, ls), w') → check_hash E c d = None ∧ ls = children c.
Proof.
  intros Hex Hok Hg. destruct (dag_Get_spec _ _ _ _ _ Hex Hg) as [[Ho _ _ _] Hr].
  destruct (Hr d ls eq_refl) as [Hd Hl]. assert (check_hash E c d = None) as Hc by (by apply (Ho Hok)).
  split; [done|]. by eapply links_ok.
Qed.

Lemma dag_AddMany_spec g w r w' : dag_AddMany E g w = (r, w') →
  rpins w' = rpins w ∧ dpins w' = dpins w ∧ store w ⊆ store w' ∧
  ((∀ b, b ∈ g → check_hash E b.1 b.2 = None) → store_ok w → store_ok w') ∧
  (r = Ok () → ∀ b, b ∈ g → is_Some (store w' !! b.1)).
Proof.
  unfold dag_AddMany.
  assert (∀ g' n l, (∀ b, b ∈ g' → b ∈ g) → let w' := mkDW (store w ∪ list_to_map g') (rpins w) (dpins w) n l in
    rpins w' = rpins w ∧ dpins w' = dpins w ∧ store w ⊆ store w' ∧
    ((∀ b, b ∈ g → check_hash E b.1 b.2 = None) → store_ok w → store_ok w')) as Hadd.
  { intros g' n l Hsub. simpl. split; [done|]. split; [done|]. split; [apply map_union_subseteq_l|].
    intros Hg Hok c d. simpl. intros [?|[_ Hm]]%lookup_union_Some_raw; [by apply Hok|].
    apply elem_of_list_to_map_2 in Hm. by apply (Hg (c, d)), Hsub. }
  destruct (put_fault E (tick w)) as [[e lands]|]; intros [= <- <-].
  - destruct (Hadd (filter (λ b : Blk, lands b.1 = true) g) (S (tick w))
      (dlog w ++ [DAdded (filter (λ b : Blk, lands b.1 = true) g)])) as (? & ? & ? & ?); [|done].
    intros b [_ Hb]%list_elem_of_filter. done.
  - destruct (Hadd g (S (tick w)) (dlog w ++ [DAdded g]) ltac:(done)) as (? & ? & ? & ?).
    split; [done|]. split; [done|]. split; [done|]. split; [done|]. intros _ b Hb. simpl.
    destruct (store w !! b.1) as [d|] eqn:Hd; [exists d; by apply lookup_union_Some_l|].
    rewrite lookup_union_r by done.
    destruct (list_to_map g !! b.1) as [d|] eqn:Hm; [by exists d|]. exfalso.
    apply not_elem_of_list_to_map_2 in Hm. apply Hm. apply list_elem_of_fmap. by exists b.
Qed.

Lemma dag_AddMany_grown g w : (∀ b, b ∈ g → check_hash E b.1 b.2 = None) → grown w (dag_AddMany E g w).2.
Proof.
  intros Hg. destruct (dag_AddMany E g w) as [r w'] eqn:Ha. destruct (dag_AddMany_spec _ _ _ _ Ha) as (? & ? & ? & ? & _).
  split; auto.
Qed.

(** Any calls on groups of sound blocks *)
Lemma attempted_grown added w w' : (∀ b, b ∈ added → check_hash E b.1 b.2 = None) →
  attempted (dag_AddMany E) added w w' → grown w w'.
Proof.
  intros Hg. induction 1 as [|g w w1 Hsub _ IH]; [done|]. etrans; [exact IH|]. apply dag_AddMany_grown. auto.
Qed.

Lemma committed_stores gs w w' : committed (dag_AddMany E) gs w w' → (∀ b, b ∈ concat gs → check_hash E b.1 b.2 = None) →
  ∀ b, b ∈ concat gs → is_Some (store w' !! b.1).
Proof.
  induction 1 as [|gs g w w1 w2 _ IH Hg]; [set_solver|]. rewrite concat_app. simpl. rewrite app_nil_r. intros Hs b.
  destruct (dag_AddMany_spec _ _ _ _ Hg) as (_ & _ & Hsub & _ & Hin). intros [Hb|Hb]%elem_of_app; [|by apply Hin].
  destruct (IH ltac:(set_solver) b Hb) as [d Hd]. exists d. by eapply lookup_weaken.
Qed.

(** ** Pinning *)

Lemma FetchGraph_spec fuel c w r w' : FetchGraph E fuel c w = (r, w') → store_ok w →
  grown w w' ∧ (r = Ok () → ∀ x, Dag.reach children c x → is_Some (store w' !! x)).
Proof.
  unfold FetchGraph. intros Hrun Hok. set (g := λ c, '(_, ls) ← dag_Get E (exchange E) c; mret ls) in Hrun.
  assert (∀ x a r a', g x a = (r, a') → grown a a' ∧ (∀ ls, r = Ok ls → is_Some (store a' !! x) ∧ (store_ok a → ls = children x))) as Hg.
  { intros x a rr a'. unfold g. rewrite bind_unfold. destruct (dag_Get E (exchange E) x a) as [[[d ls]|e] a1] eqn:Hget;
      destruct (dag_Get_spec _ _ _ _ _ exchange_ok Hget) as [Hgr Hr]; intros [= <- <-]; (split; [done|]); [|done].
    intros ls' [= <-]. split; [eexists; by apply (Hr d ls)|]. intros Ho. by eapply (dag_Get_children _ _ _ _ _ _ exchange_ok Ho Hget). }
  set (g' := λ x a, match g x a with
             | (Ok ls, a') => if decide (ls = children x) then (Ok ls, a') else (Err "", a')
             | (Err e, a') => (Err e, a') end).
  destruct (walk_loop g (sched E) fuel [c] (∅, w)) as [rw [m' a']] eqn:Hw.
  assert (grown w a') as Hgr.
  { eapply (walk_loop_keeps g (grown w)); [|reflexivity|exact Hw]. intros x a rr a2 Ha Hx. etrans; [exact Ha|]. by apply Hg in Hx as [? _]. }
  destruct rw as [[]|e]; injection Hrun as <- <-; (split; [exact Hgr|]); [|done]. intros _ x Hx.
  rewrite (walk_loop_ext g g' store_ok) in Hw; [| | |exact Hok].
  - destruct (walk_loop_post children g') with (good := λ x (a : DW), is_Some (store a !! x)) (4 := Hw) as [_ Hroot Hcl _ Hgood].
    + intros y a l a2. unfold g'. destruct (g y a) as [[l0|e0] a0]; [|done]. case_decide; [|done]. congruence.
    + intros y a l a2. unfold g'. destruct (g y a) as [[l0|e0] a0] eqn:Hgy; [|done]. case_decide; [|done]. intros [= <- <-].
      apply Hg in Hgy as [_ Hgy]. by apply (Hgy l0).
    + intros y z a rr a2 [d Hd] Hgz. exists d. eapply lookup_weaken; [exact Hd|]. unfold g' in Hgz.
      destruct (g z a) as [[l0|e0] a0] eqn:Hgz'; [case_decide|]; injection Hgz as _ <-; by apply Hg in Hgz' as [[_ ? _ _] _].
    + apply Hgood; [|set_solver]. assert (c ∈ m') as Hc by (apply Hroot; set_solver).
      clear Hw Hroot Hgood. induction Hx as [|y z u Hyz _ IH]; [done|]. apply IH. eapply Hcl; [done|set_solver|done].
  - intros y a Ha. unfold g'. destruct (g y a) as [[l0|e0] a0] eqn:Hgy; [|done].
    apply Hg in Hgy as [_ Hgy]. destruct (Hgy l0 eq_refl) as [_ ->]; [|done]. by rewrite decide_True.
  - intros y a rr a2 Ha Hgy. apply Hg in Hgy as [[Ho _ _ _] _]. by apply Ho.
Qed.

(** The node is pinned and whole, or no pin has changed. *)
Lemma Pinner_Pin_spec fuel b w r w' : Pinner_Pin E fuel b w = (r, w') → check_hash E b.1 b.2 = None → store_ok w → whole w →
  store_ok w' ∧ whole w' ∧ store w ⊆ store w' ∧
  (rpins w' = rpins w ∨ rpins w' = {[b.1]} ∪ rpins w) ∧ (r = Ok () → b.1 ∈ rpins w').
Proof.
  unfold Pinner_Pin. rewrite bind_unfold. intros Hrun Hb Hok Hwh.
  assert (grown w (dag_AddMany E [b] w).2) as Hgr by (apply dag_AddMany_grown; intros x ->%list_elem_of_singleton; done).
  destruct (dag_AddMany E [b] w) as [[[]|e] w1]; simpl in Hgr.
  2: { injection Hrun as <- <-. destruct (grown_state _ _ Hgr Hok Hwh) as (H1 & H2 & H3 & H4). split; [done|]. split; [done|]. split; [done|]. split; [by left|done]. }
  revert Hrun. unfold mget. rewrite bind_unfold.
  destruct (grown_state _ _ Hgr Hok Hwh) as (Hok1 & Hwh1 & Hs1 & Hp1).
  destruct (index_err E b.1) as [e|]; [intros [= <- <-]; split; [done|split; [done|split; [done|split; [by left|done]]]]|].
  destruct (decide (b.1 ∈ rpins w1)) as [Hin|Hin]; [intros [= <- <-]; split; [done|split; [done|split; [done|split; [by left|done]]]]|].
  rewrite bind_unfold. destruct (FetchGraph E fuel b.1 w1) as [[[]|e] w2] eqn:Hf;
    destruct (FetchGraph_spec _ _ _ _ _ Hf Hok1) as [Hgr2 Hall];
    destruct (grown_state _ _ Hgr2 Hok1 Hwh1) as (Hok2 & Hwh2 & Hs2 & Hp2); intros [= <- <-].
  - unfold event. simpl. split; [done|]. split; [|split; [by etrans|split; [right; congruence|set_solver]]].
    intros p x. simpl. intros [->%elem_of_singleton|Hp]%elem_of_union Hx; [by apply Hall|by eapply Hwh2].
  - split; [done|]. split; [done|]. split; [by etrans|]. split; [left; congruence|done].
Qed.
(** The errors of the parameters have a text: a failed pin with an empty one is
    reported as a success. *)
Record errors_have_text : Prop := {
  text_links : ∀ c d, dag_links E c d ≠ Err "";
  text_put : ∀ n e p, put_fault E n = Some (e, p) → e ≠ "";
  text_bs : ∀ c, Blockstore_err E c ≠ Some "";
  text_index : ∀ c, index_err E c ≠ Some "";
  text_flush : Flush_err E ≠ Some "";
}.

Lemma dag_Get_text ex c w e w' : errors_have_text → dag_Get E ex c w = (Err e, w') → e ≠ "".
Proof.
  intros [Ht _ _ _ _]. unfold dag_Get.
  assert (∀ d r, (ls ← dag_links E c d; Ok (d, ls)) = r → r ≠ Err (A := string * list Cid) "") as Hl.
  { intros d r <-. pose proof (Ht c d). destruct (dag_links E c d); simpl; congruence. }
  destruct (store w !! c) as [d|]; [intros [= Hd _]; pose proof (Hl d _ Hd); congruence|].
  destruct (exchange E c), (ex c) as [d|]; intros [= Hd _]; try (pose proof (Hl d _ Hd); congruence); by subst.
Qed.

Lemma FetchGraph_text fuel c w e w' : errors_have_text → FetchGraph E fuel c w = (Err e, w') → e ≠ "".
Proof.
  intros Ht. unfold FetchGraph. destruct (walk_loop _ _ _ _ _) as [[[]|e0] [m a]] eqn:Hw; [done|]. intros [= <- _].
  apply walk_loop_err in Hw as [->|(x & a1 & e' & a2 & -> & Hg)]; [done|]. simpl.
  rewrite bind_unfold in Hg. destruct (dag_Get E (exchange E) x a1) as [[[d ls]|e1] a3] eqn:Hget; [done|].
  injection Hg as -> _. by eapply dag_Get_text.
Qed.

Lemma pin_root_text fuel c w e w' : errors_have_text → pin_root E fuel c w = (Err e, w') → e ≠ "".
Proof.
  intros Ht. unfold pin_root, Pinner_Pin, Pinner_Flush, mget. pose proof (text_bs Ht c) as Hb.
  destruct (Blockstore_err E c) as [e0|]; [intros [= <- _]; congruence|]. destruct (store w !! c) as [d|]; [|by intros [= <- _]].
  pose proof (text_links Ht c d) as Hl. destruct (dag_links E c d) as [ls|e0]; [|intros [= <- _]; congruence].
  rewrite !bind_unfold. unfold dag_AddMany at 1. destruct (put_fault E (tick w)) as [[e0 p]|] eqn:Hp.
  { intros [= <- _]. by eapply (text_put Ht). }
  rewrite bind_unfold. pose proof (text_index Ht c) as Hi. simpl. destruct (index_err E c) as [e0|]; [intros [= <- _]; congruence|].
  pose proof (text_flush Ht) as Hf. destruct (decide (c ∈ rpins w)); simpl.
  { destruct (Flush_err E); [|done]. intros [= <- _]. congruence. }
  rewrite bind_unfold. destruct (FetchGraph E fuel c _) as [[[]|e1] w1] eqn:Hg; [|intros [= <- _]; by eapply FetchGraph_text].
  simpl. destruct (Flush_err E); [|done]. intros [= <- _]. congruence.
Qed.

Lemma pin_root_spec fuel c w r w' : pin_root E fuel c w = (r, w') → store_ok w → whole w →
  store_ok w' ∧ whole w' ∧ store w ⊆ store w' ∧
  (rpins w' = rpins w ∨ rpins w' = {[c]} ∪ rpins w) ∧ (r = Ok () → c ∈ rpins w').
Proof.
  unfold pin_root. intros Hrun Hok Hwh.
  assert (∀ e, (Err e, w) = (r, w') → store_ok w' ∧ whole w' ∧ store w ⊆ store w' ∧
    (rpins w' = rpins w ∨ rpins w' = {[c]} ∪ rpins w) ∧ (r = Ok () → c ∈ rpins w')) as Herr.
  { intros e [= <- <-]. split_and!; [done..|by left|done]. }
  destruct (Blockstore_err E c) as [e|]; [by eapply Herr|]. destruct (store w !! c) as [d|] eqn:Hd; [|by eapply Herr].
  destruct (dag_links E c d); [|by eapply Herr]. clear Herr. rewrite bind_unfold in Hrun.
  destruct (Pinner_Pin E fuel (c, d) w) as [[[]|e] w1] eqn:Hp;
    destruct (Pinner_Pin_spec _ _ _ _ _ Hp (Hok _ _ Hd) Hok Hwh) as (? & ? & ? & ? & ?).
  - unfold Pinner_Flush in Hrun. destruct (Flush_err E); injection Hrun as <- <-; by split_and!.
  - injection Hrun as <- <-. by split_and!.
Qed.

(** The loop over the roots pins only roots; when it goes through, it has reported
    each root once, in order, and the roots reported as pinned are. *)
Lemma pin_roots_spec fuel roots : errors_have_text → ∀ failed out w r out' w',
  pin_roots E fuel roots failed out w = (r, out', w') → store_ok w → whole w →
  store_ok w' ∧ whole w' ∧ store w ⊆ store w' ∧ rpins w ⊆ rpins w' ∧ (∀ p, p ∈ rpins w' → p ∈ rpins w ∨ p ∈ roots) ∧
  ∀ n, r = Ok n → ∃ msgs, out' = out ++ zip_with IRoot roots msgs ∧
      n = failed + length (filter (λ m, m ≠ "") msgs) ∧ Forall2 (λ c m, m = "" → c ∈ rpins w') roots msgs.
Proof.
  intros Ht. induction roots as [|c roots IH]; intros failed out w r out' w'; cbn [pin_roots].
  { intros [= <- <- <-] ??. split_and!; [done..|by left|]. intros n [= <-]. exists []. simpl. rewrite app_nil_r.
    split; [done|]. split; [lia|constructor]. }
  destruct (pin_root E fuel c w) as [r1 w1] eqn:Hp. intros Hrun Hok Hwh.
  destruct (pin_root_spec _ _ _ _ _ Hp Hok Hwh) as (Hok1 & Hwh1 & Hs1 & Hp1 & Hr1).
  assert (rpins w ⊆ rpins w1 ∧ ∀ p, p ∈ rpins w1 → p ∈ rpins w ∨ p = c) as [Hpm Hpc].
  { destruct Hp1 as [->| ->]; [split; [done|by left]|]. split; [apply union_subseteq_r|].
    intros p [->%elem_of_singleton|?]%elem_of_union; [by right|by left]. }
  destruct (emit_err E (length out)) as [e|].
  { injection Hrun as <- <- <-. split_and!; [done..| |done]. intros p [?| ->]%Hpc; [by left|right; by left]. }
  destruct (IH _ _ _ _ _ _ Hrun Hok1 Hwh1) as (Hok2 & Hwh2 & Hs2 & Hp2 & Hq2 & Hn).
  split_and!; [done|done|by etrans|by etrans|intros p [[?| ->]%Hpc|?]%Hq2; [by left|right; by left|right; by right]|].
  intros n (msgs & -> & -> & Hf)%Hn. exists ((match r1 with Ok _ => "" | Err e => e end) :: msgs). simpl.
  rewrite <- (assoc_L (++)). split; [done|]. rewrite filter_cons. split; [destruct (decide _); simpl; lia|].
  constructor; [|done]. intros Hm. apply Hp2, Hr1. destruct r1 as [[]|e]; [done|]. exfalso. by eapply pin_root_text.
Qed.

(** ** The import worker *)

Definition file_blocks (f : option CarFile) : list Blk := match f with Some f => cf_sections f | None => [] end.
Definition file_roots (f : option CarFile) : list Cid :=
  match f with Some f => match cf_header f with Ok ch => Roots ch | Err _ => [] end | None => [] end.
Definition all_blocks (files : list (option CarFile)) : list Blk := concat (file_blocks <$> files).
Definition all_roots (files : list (option CarFile)) : list Cid := concat (file_roots <$> files).
Definition bytes_of (bs : list Blk) : Z := foldr Z.add 0%Z (blk_len <$> bs).

Definition sound_block (b : Blk) : Prop := check_hash E b.1 b.2 = None ∧ is_ok (dag_links E b.1 b.2) = true.

Lemma bytes_of_snoc bs b : bytes_of (bs ++ [b]) = (bytes_of bs + blk_len b)%Z.
Proof. unfold bytes_of. rewrite fmap_app, foldr_app. simpl. induction (blk_len <$> bs); simpl; lia. Qed.

Section worker.
Variable w0 : DW.

Record worker_inv (blks : list Blk) (roots : gset Cid) (iw : ImportWorker) : Prop := {
  wk_batch : batch_inv (dag_AddMany E) w0 blks (iw_batch iw);
  wk_roots : iw_roots iw = roots;
  wk_count : blockCount iw = u64 (Z.of_nat (length blks));
  wk_bytes : blockBytesCount iw = u64 (bytes_of blks);
  wk_sound : Forall sound_block blks;
}.

(** What an erring worker leaves: calls on sound blocks of the files *)
Definition worker_err (all : list Blk) (iw : ImportWorker) : Prop :=
  ∃ added, batch_inv (dag_AddMany E) w0 added (iw_batch iw) ∧ Forall sound_block added ∧ added ⊆ all.

Lemma worker_inv_err blks roots iw all : worker_inv blks roots iw → blks ⊆ all → worker_err all iw.
Proof. intros [Hb _ _ _ Hs] Hsub. by exists blks. Qed.

Lemma import_block_spec blks roots b iw r iw' : import_block E b iw = (r, iw') → worker_inv blks roots iw →
  match r with Ok _ => worker_inv (blks ++ [b]) roots iw' | Err _ => worker_err (blks ++ [b]) iw' end.
Proof.
  unfold import_block. intros Hrun Hinv. assert (worker_err (blks ++ [b]) iw) as Herr by (eapply worker_inv_err; [exact Hinv|set_solver]).
  destruct Hinv as [Hb Hr Hc Hby Hs]. destruct (check_hash E b.1 b.2) eqn:Hh; [by injection Hrun as <- <-|].
  destruct (dag_links E b.1 b.2) as [ls|e] eqn:Hl; [|by injection Hrun as <- <-].
  assert (Forall sound_block (blks ++ [b])) as Hsnd.
  { apply Forall_app. split; [done|]. apply Forall_singleton. split; [done|by rewrite Hl]. }
  destruct (batch_Add blk_len (dag_AddMany E) (batchEnv E) b (iw_batch iw)) as [[e|] bw] eqn:Ha;
    destruct (batch_AddMany_inv _ _ late_ok _ _ _ _ _ _ _ Ha Hb) as [Hb' _]; injection Hrun as <- <-.
  - exists (blks ++ [b]). done.
  - split; simpl; [done|done| |rewrite Hby, bytes_of_snoc; apply u64_add_l|done].
    rewrite Hc, u64_add_l, length_app. f_equal. simpl. lia.
Qed.

Lemma import_blocks_spec blks roots bs iw r iw' : mfor bs (import_block E) iw = (r, iw') → worker_inv blks roots iw →
  match r with Ok _ => worker_inv (blks ++ bs) roots iw' | Err _ => worker_err (blks ++ bs) iw' end.
Proof.
  revert blks iw. induction bs as [|b bs IH]; intros blks iw; cbn [mfor].
  { intros [= <- <-]. by rewrite app_nil_r. }
  rewrite bind_unfold. intros Hrun Hinv. destruct (import_block E b iw) as [[[]|e] iw1] eqn:Hb.
  - apply (import_block_spec blks roots) in Hb; [|done]. specialize (IH _ _ Hrun Hb). by rewrite <- (assoc_L (++)) in IH.
  - apply (import_block_spec blks roots) in Hb; [|done]. injection Hrun as <- <-.
    destruct Hb as (added & ? & ? & ?). exists added. split_and!; [done|done|set_solver].
Qed.

Lemma import_file_spec blks roots f iw r iw' : import_file E f iw = (r, iw') → worker_inv blks roots iw →
  match r with
  | Ok _ => worker_inv (blks ++ file_blocks f) (roots ∪ list_to_set (file_roots f)) iw'
  | Err _ => worker_err (blks ++ file_blocks f) iw'
  end.
Proof.
  intros Hrun Hinv. assert (worker_err (blks ++ file_blocks f) iw) as Herr by (eapply worker_inv_err; [exact Hinv|set_solver]).
  destruct f as [f|]; [|by injection Hrun as <- <-]. unfold import_file in Hrun. rewrite bind_unfold in Hrun.
  unfold mlift in Hrun. destruct (NewCarReader f) as [ch|e] eqn:Hcr; [|by injection Hrun as <- <-].
  destruct (decide (Version ch ≠ 1%Z)); [by injection Hrun as <- <-|].
  assert (cf_header f = Ok ch) as Hch.
  { revert Hcr. unfold NewCarReader. destruct (cf_header f) as [ch'|e]; [|done]. simpl. repeat case_decide; congruence. }
  rewrite bind_unfold in Hrun. unfold mmodify in Hrun. rewrite bind_unfold in Hrun.
  assert (worker_inv blks (roots ∪ list_to_set (Roots ch))
    (mkIW (iw_batch iw) (iw_roots iw ∪ list_to_set (Roots ch)) (blockCount iw) (blockBytesCount iw))) as Hinv1.
  { destruct Hinv as [? Hr ? ? ?]. split; simpl; [done|by rewrite Hr|done..]. }
  destruct (mfor (cf_sections f) (import_block E) _) as [[[]|e] iw1] eqn:Hm; apply (import_blocks_spec blks _ _ _ _ _) with (2 := Hinv1) in Hm.
  - destruct (cf_end f); injection Hrun as <- <-; [eapply worker_inv_err; [exact Hm|by intros x ?]|]. unfold file_roots. rewrite Hch. exact Hm.
  - by injection Hrun as <- <-.
Qed.

Lemma import_files_spec files : ∀ blks roots iw r iw', mfor files (import_file E) iw = (r, iw') → worker_inv blks roots iw →
  match r with
  | Ok _ => worker_inv (blks ++ all_blocks files) (roots ∪ list_to_set (all_roots files)) iw'
  | Err _ => worker_err (blks ++ all_blocks files) iw'
  end.
Proof.
  induction files as [|f files IH]; intros blks roots iw r iw'; cbn [mfor].
  { intros [= <- <-]. unfold all_blocks, all_roots. simpl. by rewrite app_nil_r, (right_id_L ∅ (∪)). }
  rewrite bind_unfold. intros Hrun Hinv. unfold all_blocks, all_roots in *. simpl.
  destruct (import_file E f iw) as [[[]|e] iw1] eqn:Hf; apply (import_file_spec blks roots) in Hf; try done.
  - specialize (IH _ _ _ _ _ Hrun Hf).
    rewrite list_to_set_app_L, !(assoc_L (++)), (assoc_L (∪)). exact IH.
  - injection Hrun as <- <-. destruct Hf as (added & ? & ? & ?). exists added. split_and!; [done|done|]. rewrite (assoc_L (++)). set_solver.
Qed.

Lemma importWorker_spec files it_err r iw : importWorker E files it_err (mkIW (NewBatch, w0) ∅ 0 0) = (r, iw) →
  match r with
  | Ok _ => iw_roots iw = list_to_set (all_roots files) ∧ blockCount iw = u64 (Z.of_nat (length (all_blocks files))) ∧
      blockBytesCount iw = u64 (bytes_of (all_blocks files)) ∧ Forall sound_block (all_blocks files) ∧
      ∃ gs, committed (dag_AddMany E) gs w0 (iw_batch iw).2 ∧ concat gs ≡ₚ all_blocks files
  | Err _ => worker_err (all_blocks files) iw
  end.
Proof.
  unfold importWorker. rewrite bind_unfold. intros Hrun.
  assert (worker_inv [] ∅ (mkIW (NewBatch, w0) ∅ 0 0)) as H0 by (split; simpl; [apply batch_inv_new|done..]).
  destruct (mfor files (import_file E) _) as [[[]|e] iw1] eqn:Hm; apply (import_files_spec _ [] ∅) in Hm; try done; simpl in Hm.
  2: by injection Hrun as <- <-.
  destruct it_err as [e|]; [injection Hrun as <- <-; eapply worker_inv_err; [exact Hm|by intros x ?]|].
  unfold import_commit in Hrun. destruct Hm as [Hb Hr Hc Hby Hs].
  destruct (batch_Commit _ _ (iw_batch iw1)) as [[e|] bw] eqn:Hcm;
    pose proof (batch_Commit_inv _ _ late_ok _ _ _ _ _ Hcm Hb) as Hci; injection Hrun as <- <-; simpl.
  - by exists (all_blocks files).
  - rewrite Hr, (left_id_L ∅ (∪)). done.
Qed.
End worker.

(** ** The import command *)

(** Nothing is locked or unlocked between two states. *)
Definition quiet (w w' : DW) : Prop :=
  ∃ evs, dlog w' = dlog w ++ evs ∧ Forall (λ e, e ≠ DLock ∧ e ≠ DUnlock) evs.

#[local] Instance quiet_preorder : PreOrder quiet.
Proof.
  split; [intros w; exists []; by rewrite app_nil_r|]. intros w1 w2 w3 (e1 & H1 & F1) (e2 & H2 & F2).
  exists (e1 ++ e2). split; [by rewrite H2, H1, (assoc_L (++))|by apply Forall_app].
Qed.

Lemma quiet_event e w st rp dp n : e ≠ DLock → e ≠ DUnlock → quiet w (event e (mkDW st rp dp n (dlog w))).
Proof. intros. exists [e]. split; [done|]. by apply Forall_singleton. Qed.

Lemma quiet_AddMany g w : quiet w (dag_AddMany E g w).2.
Proof. unfold dag_AddMany. destruct (put_fault E (tick w)) as [[e p]|]; by apply (quiet_event (DAdded _)). Qed.

Lemma quiet_Get ex c w : quiet w (dag_Get E ex c w).2.
Proof.
  unfold dag_Get. destruct (store w !! c); [done|]. destruct (ex c); [by apply (quiet_event (DFetched c))|done].
Qed.

Lemma quiet_FetchGraph fuel c w : quiet w (FetchGraph E fuel c w).2.
Proof.
  unfold FetchGraph. destruct (walk_loop _ _ _ _ _) as [r [m a]] eqn:Hw.
  assert (quiet w a) as Ha; [|by destruct r].
  eapply (walk_loop_keeps _ (quiet w)); [|reflexivity|exact Hw]. intros x a1 r1 a2 Ha. cbv beta. rewrite bind_unfold.
  pose proof (quiet_Get (exchange E) x a1) as Hg. destruct (dag_Get E (exchange E) x a1) as [[[d ls]|e] a3]; simpl in Hg;
    intros [= _ <-]; by etrans.
Qed.

Lemma quiet_Pinner_Pin fuel b w : quiet w (Pinner_Pin E fuel b w).2.
Proof.
  unfold Pinner_Pin, mget. rewrite !bind_unfold.
  pose proof (quiet_AddMany [b] w) as Ha. destruct (dag_AddMany E [b] w) as [[[]|e] w1]; simpl in Ha; [|exact Ha].
  rewrite bind_unfold. destruct (index_err E b.1); [exact Ha|]. destruct (decide (b.1 ∈ rpins w1)); [exact Ha|].
  rewrite bind_unfold. etrans; [exact Ha|].
  pose proof (quiet_FetchGraph fuel b.1 w1) as Hf. destruct (FetchGraph E fuel b.1 w1) as [[[]|e] w2]; [|exact Hf].
  etrans; [exact Hf|]. by apply quiet_event.
Qed.

Lemma quiet_pin_root fuel c w : quiet w (pin_root E fuel c w).2.
Proof.
  unfold pin_root. destruct (Blockstore_err E c); [done|]. destruct (store w !! c) as [d|]; [|done].
  destruct (dag_links E c d); [|done]. rewrite bind_unfold. pose proof (quiet_Pinner_Pin fuel (c, d) w) as Hq.
  destruct (Pinner_Pin E fuel (c, d) w) as [[[]|e] w1]; [|exact Hq]. unfold Pinner_Flush. by destruct (Flush_err E).
Qed.

Lemma quiet_pin_roots fuel roots : ∀ failed out w, quiet w (pin_roots E fuel roots failed out w).2.
Proof.
  induction roots as [|c roots IH]; intros failed out w; cbn [pin_roots]; [done|].
  pose proof (quiet_pin_root fuel c w) as Hq. destruct (pin_root E fuel c w) as [r w1]; simpl in Hq.
  destruct (emit_err E (length out)); [done|]. etrans; [exact Hq|apply IH].
Qed.

Lemma quiet_attempted added w w' : attempted (dag_AddMany E) added w w' → quiet w w'.
Proof. induction 1 as [|g w w1 _ _ IH]; [done|]. etrans; [exact IH|apply quiet_AddMany]. Qed.

Lemma quiet_late gs w : quiet w (run_late (dag_AddMany E) gs w).
Proof. revert w. induction gs as [|g gs IH]; intros w; simpl; [done|]. etrans; [apply quiet_AddMany|apply IH]. Qed.

(** What is left in flight by an erring worker is still sound. *)
Lemma late_grown w0 all iw w : worker_err w0 all iw →
  grown w (run_late (dag_AddMany E) (late (batchEnv E) (clock (iw_batch iw).1) (activeCommits (iw_batch iw).1)) w).
Proof.
  intros (added & Hb & Hs & _). assert (∀ g, g ∈ late (batchEnv E) (clock (iw_batch iw).1) (activeCommits (iw_batch iw).1) →
    ∀ b, b ∈ g → check_hash E b.1 b.2 = None) as Hg.
  { intros g Hg%late_ok b Hbg. unfold batch_inv in Hb. destruct (b_err (iw_batch iw).1) as [e|].
    - destruct Hb as [Hnil _]. rewrite Hnil in Hg. by apply elem_of_nil in Hg.
    - destruct Hb as (gs & _ & Hp). rewrite Forall_forall in Hs. apply Hs. rewrite <- Hp.
      apply elem_of_app. right. apply elem_of_app. left. apply list_elem_of_In, in_concat. exists g. by split; apply list_elem_of_In. }
  clear Hb. revert w. induction (late _ _ _) as [|g gs IH]; intros w; simpl; [done|].
  etrans; [apply (dag_AddMany_grown g w), Hg; by left|]. apply IH. intros g' Hg'. apply Hg. by right.
Qed.

Lemma sound_hash bs b : Forall sound_block bs → b ∈ bs → check_hash E b.1 b.2 = None.
Proof. rewrite Forall_forall. intros Hs Hb. by apply Hs. Qed.

(** What a finished or failed worker has done to the store *)
Lemma worker_grown files it_err w r iw : importWorker E files it_err (mkIW (NewBatch, w) ∅ 0 0) = (r, iw) →
  grown w (iw_batch iw).2 ∧ quiet w (iw_batch iw).2 ∧
  (r = Ok () → ∀ b, b ∈ all_blocks files → is_Some (store (iw_batch iw).2 !! b.1) ∧ check_hash E b.1 b.2 = None).
Proof.
  intros Hw%importWorker_spec. destruct r as [[]|e].
  - destruct Hw as (_ & _ & _ & Hs & gs & Hc & Hp).
    assert (∀ b, b ∈ concat gs → check_hash E b.1 b.2 = None) as Hh by (intros b; rewrite Hp; by apply sound_hash).
    assert (attempted (dag_AddMany E) (concat gs) w (iw_batch iw).2) as Ha by (by apply (committed_attempted _ _ _ _ _ Hc)).
    split; [by eapply attempted_grown|]. split; [by eapply quiet_attempted|]. intros _ b Hb. rewrite <- Hp in Hb.
    split; [by eapply committed_stores|by apply Hh].
  - destruct Hw as (added & Hb & Hs & _). apply batch_inv_attempted in Hb.
    split; [eapply attempted_grown; [|exact Hb]; intros b; by apply sound_hash|]. split; [by eapply quiet_attempted|done].
Qed.

(** [ipfs dag import] keeps the store sound and every recursive pin whole, adds
    blocks and pins and removes none, pins only roots named in the headers, and when
    it reports no error has stored every block of every file and, unless told not
    to, pinned every root; a file that is not well formed changes no pin. *)
Theorem dagImport_exact fuel pin stats files it_err w e out w' : errors_have_text →
  dagImport E fuel pin stats files it_err w = (e, out, w') → store_ok w → whole w →
  store_ok w' ∧ whole w' ∧ store w ⊆ store w' ∧ rpins w ⊆ rpins w' ∧
  (∀ p, p ∈ rpins w' → p ∈ rpins w ∨ pin = true ∧ p ∈ all_roots files ∧
     ∀ b, b ∈ all_blocks files → store w' !! b.1 = Some b.2) ∧
  (e = None → (∀ b, b ∈ all_blocks files → store w' !! b.1 = Some b.2) ∧
     (pin = true → ∀ p, p ∈ all_roots files → p ∈ rpins w') ∧
     (stats = true → last out = Some (IStats (u64 (Z.of_nat (length (all_blocks files)))) (u64 (bytes_of (all_blocks files)))))).
Proof.
  intros Ht Hrun Hok Hwh. unfold dagImport in Hrun.
  assert (∀ b st, store_ok st → check_hash E b.1 b.2 = None → is_Some (store st !! b.1) → store st !! b.1 = Some b.2) as Hdet.
  { intros b st Hst Hb [d Hd]. rewrite Hd. f_equal. eapply hash_det; [by apply Hst|done]. }
  destruct (GetApi_err E) as [e0|]; [injection Hrun as <- <- <-; split_and!; [done..|by left|done]|].
  destruct (importWorker E files it_err _) as [r iw] eqn:Hw.
  pose proof (worker_grown _ _ _ _ _ Hw) as (Hgr & _ & Hall). apply importWorker_spec in Hw.
  destruct (grown_state _ _ Hgr Hok Hwh) as (Hok1 & Hwh1 & Hs1 & Hp1). simpl in Hs1, Hp1.
  destruct r as [[]|e1].
  2: { injection Hrun as <- <- <-. pose proof (late_grown _ _ _ (event DUnlock (iw_batch iw).2) Hw) as Hgl.
       destruct (grown_state _ _ Hgl Hok1 Hwh1) as (Hok2 & Hwh2 & Hs2 & Hp2). simpl in Hs2, Hp2.
       assert (rpins (run_late (dag_AddMany E) (late (batchEnv E) (clock (iw_batch iw).1) (activeCommits (iw_batch iw).1)) (event DUnlock (iw_batch iw).2)) = rpins w) as Hpw by congruence.
       split_and!; [done|done|by etrans|by rewrite Hpw|intros p; rewrite Hpw; by left|done]. }
  specialize (Hall eq_refl). destruct Hw as (Hroots & Hcnt & Hby & _ & _).
  assert (∀ st, store_ok st → store (iw_batch iw).2 ⊆ store st → ∀ b, b ∈ all_blocks files → store st !! b.1 = Some b.2) as Hst.
  { intros st Hst Hsub b Hb. destruct (Hall b Hb) as [[d Hd] Hh]. apply Hdet; [done..|]. exists d. by eapply lookup_weaken. }
  assert (∀ o e o', emit_stats E stats iw o = (e, o') → e = None → stats = true →
    last o' = Some (IStats (u64 (Z.of_nat (length (all_blocks files)))) (u64 (bytes_of (all_blocks files))))) as Hstats.
  { unfold emit_stats. intros o e2 o' He -> ->. destruct (emit_err E (length o)); [done|]. injection He as <-. by rewrite last_snoc, Hcnt, Hby. }
  destruct pin.
  - destruct (pin_roots E fuel _ 0 [] (iw_batch iw).2) as [[rp outp] wp] eqn:Hpr.
    destruct (pin_roots_spec _ _ Ht _ _ _ _ _ _ Hpr Hok1 Hwh1) as (Hok2 & Hwh2 & Hs2 & Hp2 & Hq2 & Hn).
    assert (∀ x, x ∈ range E (iw_roots iw) ↔ x ∈ all_roots files) as Hrange.
    { intros x. rewrite range_ok, elem_of_elements, Hroots, elem_of_list_to_set. done. }
    assert (w' = event DUnlock wp ∧ (e = None → rp = Ok 0 ∧ (stats = true →
      last out = Some (IStats (u64 (Z.of_nat (length (all_blocks files)))) (u64 (bytes_of (all_blocks files))))))) as [-> Hnone].
    { destruct rp as [failed|e1]; [|by injection Hrun as <- <- <-]. destruct (decide (failed ≠ 0)) as [Hf|Hf]; [by injection Hrun as <- <- <-|].
      destruct (emit_stats E stats iw outp) as [e2 out2] eqn:He. injection Hrun as <- <- <-. split; [done|]. intros He2.
      split; [f_equal; lia|]. intros Hs. by eapply Hstats. }
    change (store (event DUnlock wp)) with (store wp). change (rpins (event DUnlock wp)) with (rpins wp).
    split_and!; [done|done|by etrans|by rewrite <- Hp1| |].
    + intros p [?|?%Hrange]%Hq2; [left; by rewrite <- Hp1|right]. split_and!; [done..|by apply Hst].
    + intros [-> Hls]%Hnone. split_and!; [by apply Hst| |done]. intros _ p Hp%Hrange.
      destruct (Hn 0 eq_refl) as (msgs & _ & Hz & Hf). clear -Hz Hf Hp. simpl in Hz.
      revert msgs Hz Hf. induction (range E (iw_roots iw)) as [|c l IH]; intros msgs Hz Hf; [by apply elem_of_nil in Hp|].
      apply Forall2_cons_inv_l in Hf as (m & ms & Hcm & Hf & ->). rewrite filter_cons in Hz. destruct (decide (m ≠ "")) as [Hm|Hm]; [done|].
      apply elem_of_cons in Hp as [->|Hp]; [apply Hcm; by destruct (decide (m = ""))|by eapply IH].
  - destruct (emit_stats E stats iw []) as [e2 out2] eqn:He. injection Hrun as <- <- <-.
    change (store (event DUnlock (iw_batch iw).2)) with (store (iw_batch iw).2). change (rpins (event DUnlock (iw_batch iw).2)) with (rpins (iw_batch iw).2).
    split_and!; [done|done|done|by rewrite <- Hp1|intros p; rewrite Hp1; by left|].
    intros He2. split_and!; [by apply Hst|done|intros Hs; by eapply Hstats].
Qed.

(** The whole import runs between one taking and one release of the pin lock; after
    the release of a failed one, commits still in flight may land blocks, never pins. *)
Theorem dagImport_under_lock fuel pin stats files it_err w e out w' :
  dagImport E fuel pin stats files it_err w = (e, out, w') → GetApi_err E = None →
  ∃ evs late, dlog w' = dlog w ++ DLock :: evs ++ DUnlock :: late ∧
    Forall (λ ev, ev ≠ DLock ∧ ev ≠ DUnlock) evs ∧ Forall (λ ev, ∃ g, ev = DAdded g) late ∧ (e = None → late = []).
Proof.
  intros Hrun Hapi. unfold dagImport in Hrun. rewrite Hapi in Hrun.
  destruct (importWorker E files it_err _) as [r iw] eqn:Hw. pose proof (worker_grown _ _ _ _ _ Hw) as (_ & (ev1 & Hl1 & Hq1) & _).
  assert (∀ w2, quiet (iw_batch iw).2 w2 → ∃ evs, dlog (event DUnlock w2) = dlog w ++ DLock :: evs ++ [DUnlock] ∧
    Forall (λ ev, ev ≠ DLock ∧ ev ≠ DUnlock) evs) as Hlog.
  { intros w2 (ev2 & Hl2 & Hq2). exists (ev1 ++ ev2). split; [|by apply Forall_app]. unfold event at 1. simpl. rewrite Hl2, Hl1. simpl.
    by rewrite <- !(assoc_L (++)). }
  destruct r as [[]|e1].
  - assert (∃ w2, w' = event DUnlock w2 ∧ quiet (iw_batch iw).2 w2) as (w2 & -> & Hq).
    { destruct pin.
      - pose proof (quiet_pin_roots fuel (range E (iw_roots iw)) 0 [] (iw_batch iw).2) as Hq.
        destruct (pin_roots E fuel _ 0 [] _) as [[rp outp] wp]. exists wp. split; [|exact Hq].
        destruct rp as [failed|e1]; [|by injection Hrun as <- <- <-]. destruct (decide (failed ≠ 0)); [by injection Hrun as <- <- <-|].
        destruct (emit_stats E stats iw outp). by injection Hrun as <- <- <-.
      - exists (iw_batch iw).2. split; [|done]. destruct (emit_stats E stats iw []). by injection Hrun as <- <- <-. }
    destruct (Hlog w2 Hq) as (evs & Hd & Hf). exists evs, []. by split_and!.
  - injection Hrun as <- <- <-. destruct (Hlog (iw_batch iw).2 ltac:(reflexivity)) as (evs & Hd & Hf).
    assert (∀ gs w2, ∃ late, dlog (run_late (dag_AddMany E) gs w2) = dlog w2 ++ late ∧ Forall (λ ev, ∃ g, ev = DAdded g) late) as Hlate.
    { intros gs. induction gs as [|g gs IH]; intros w2; simpl; [exists []; by rewrite app_nil_r|].
      destruct (IH (dag_AddMany E g w2).2) as (late & -> & Hf2).
      assert (∃ g', dlog (dag_AddMany E g w2).2 = dlog w2 ++ [DAdded g']) as [g' ->].
      { unfold dag_AddMany. destruct (put_fault E (tick w2)) as [[e0 p]|]; by eexists. }
      exists (DAdded g' :: late). rewrite <- (assoc_L (++)). split; [done|]. constructor; [by eexists|done]. }
    destruct (Hlate (late (batchEnv E) (clock (iw_batch iw).1) (activeCommits (iw_batch iw).1)) (event DUnlock (iw_batch iw).2))
      as (late & Hl & Hfl). exists evs, late. rewrite Hl, Hd. split_and!; [|done..].
    by rewrite <- !(assoc_L (++)); simpl; rewrite <- !(assoc_L (++)).
Qed.

(** ** Export *)

(** What [dag_Get] returns for a CID does not change when another block is fetched. *)
Lemma dag_Get_stable c c' w : (dag_Get E (exchange E) c (dag_Get E (exchange E) c' w).2).1 = (dag_Get E (exchange E) c w).1.
Proof.
  unfold dag_Get at 2. destruct (store w !! c') as [d'|] eqn:Hs; [done|]. destruct (exchange E c') as [d'|] eqn:Hx; [|done].
  unfold dag_Get, event. simpl. destruct (decide (c' = c)) as [->|Hne]; [by rewrite lookup_insert_eq, Hs, Hx|].
  rewrite lookup_insert_ne by done. destruct (store w !! c); [done|]. by destruct (exchange E c).
Qed.

Section acyclic.
Variable rank : Cid → nat.
Hypothesis rank_decr : ∀ c d, d ∈ children c → rank d < rank c.

Lemma rank_ordered c d : d ∈ ordered c → rank d < rank c.
Proof. intros Hd%(ordered_ok (E := E)). by apply rank_decr. Qed.

Lemma tc_rank (ch : Cid → list Cid) a b : (∀ c d, d ∈ ch c → rank d < rank c) → tc (Dag.edge ch) a b → rank b < rank a.
Proof. intros Hr. induction 1 as [x y Hxy|x y z Hxy _ IH]; [by apply Hr|]. apply Hr in Hxy. lia. Qed.

(** The strict descendants, with the node itself, are what is reachable. *)
Lemma reach_tc (ch : Cid → list Cid) r x : Dag.reach ch r x ↔ x = r ∨ tc (Dag.edge ch) r x.
Proof.
  split; [|intros [->|?]; [apply rtc_refl|by apply tc_rtc]]. intros Hx. destruct Hx as [|y z u Hyz Hzu]; [by left|right].
  eapply tc_rtc_r; [by apply tc_once|exact Hzu].
Qed.

Definition xview (x : ExportState) : gset Cid * gset Cid * list Blk := (SeenLinks x, cidSet x, xout x).

(** A node is written once, as a sound block. *)
Definition xstep (c : Cid) (v v' : gset Cid * gset Cid * list Blk) : Prop :=
  if decide (c ∈ v.1.2) then v'.1.2 = v.1.2 ∧ v'.2 = v.2
  else v'.1.2 = {[c]} ∪ v.1.2 ∧ ∃ d, sound_block (c, d) ∧ v'.2 = v.2 ++ [(c, d)].

Definition xinv (x : ExportState) : Prop := store_ok (xw x).

Lemma loader_spec c x r x' : loader E c x = (r, x') → xinv x →
  xinv x' ∧ SeenLinks x' = SeenLinks x ∧ ∀ ls, r = Ok ls → ls = ordered c ∧ xstep c (xview x) (xview x').
Proof.
  unfold loader, xinv. intros Hrun Hok. destruct (dag_Get E (exchange E) c (xw x)) as [[[d ls]|e] w] eqn:Hg;
    destruct (dag_Get_spec _ _ _ _ _ exchange_ok Hg) as [[Ho _ _ _] Hr]; [|by injection Hrun as <- <-; split; [apply Ho|]].
  destruct (dag_Get_children _ _ _ _ _ _ exchange_ok Hok Hg) as [Hh _]. destruct (Hr d ls eq_refl) as [_ Hl].
  assert (∀ ls', sel_links E c d = Ok ls' → ls' = ordered c) as Hsel by (intros ls' ?; by eapply sel_ok).
  unfold xstep, xview. simpl. destruct (decide (c ∈ cidSet x)).
  - injection Hrun as <- <-. simpl. split; [auto|]. split; [done|]. intros ls' Hls. split; [by apply Hsel|done].
  - destruct (write_err E (length (xout x))) as [e|]; injection Hrun as <- <-; simpl; (split; [auto|]); (split; [done|]); [done|].
    intros ls' Hls. split; [by apply Hsel|]. split; [done|]. exists d. split; [|done]. split; [done|]. simpl. by rewrite Hl.
Qed.

Lemma export_enter_inv c x r x' : xinv x → export_enter E c x = (r, x') → xinv x'.
Proof.
  unfold export_enter. intros Hx. destruct (decide _); [by intros [= _ <-]|].
  destruct (loader E c _) as [[ls|e] x1] eqn:Hl; intros [= _ <-]; by eapply (loader_spec _ _ _ _ Hl).
Qed.

Lemma export_enter_skip c x x' : xinv x → export_enter E c x = (Ok None, x') → c ∈ (xview x).1.1 ∧ xview x' = xview x.
Proof.
  unfold export_enter. intros _. destruct (decide _); [by intros [= <-]|]. by destruct (loader E c _) as [[ls|e] x1].
Qed.

Lemma export_enter_new c x n x' : xinv x → export_enter E c x = (Ok (Some n), x') →
  c ∉ (xview x).1.1 ∧ (xview x').1.1 = {[c]} ∪ (xview x).1.1 ∧ n = ordered c ∧ xstep c (xview x) (xview x').
Proof.
  unfold export_enter. intros Hx. destruct (decide _) as [|Hn]; [done|].
  destruct (loader E c _) as [[ls|e] x1] eqn:Hl; [|done]. intros [= <- <-].
  destruct (loader_spec _ _ _ _ Hl Hx) as (_ & Hs & Hr). destruct (Hr ls eq_refl) as [-> Hst].
  split; [done|]. split; [exact Hs|]. by split.
Qed.

(** The blocks written along a descent from a root already written *)
Lemma visits_out root vs v v' : visits (λ v, v.1.1) xstep vs v v' → v.1.2 = {[root]} ∪ v.1.1 → root ∉ vs →
  v'.1.2 = {[root]} ∪ v'.1.1 ∧ ∃ bs, bs.*1 = vs ∧ Forall sound_block bs ∧ v'.2 = v.2 ++ bs.
Proof.
  induction 1 as [v|vs c v v1 v2 Hv IH Hc Hs Hst]; intros Hcid Hroot; [split; [done|]; exists []; by rewrite app_nil_r|].
  destruct IH as (Hcid1 & bs & Hbs & Hsnd & Hout); [done|set_solver|]. unfold xstep in Hst.
  rewrite decide_False in Hst by (rewrite Hcid1; set_solver). destruct Hst as (Hcid2 & d & Hd & Hout2).
  split; [rewrite Hcid2, Hs, Hcid1; set_solver|]. exists (bs ++ [(c, d)]). rewrite fmap_app, Hbs. split; [done|].
  split; [apply Forall_app; split; [done|by apply Forall_singleton]|]. by rewrite Hout2, Hout, (assoc_L (++)).
Qed.

Lemma traverseBlocks_exact fuel root w x' : traverseBlocks E fuel root (mkXS w ∅ ∅ []) = (Ok (), x') → store_ok w →
  ∃ d bs, xout x' = (root, d) :: bs ∧ Forall sound_block (xout x') ∧ NoDup (xout x').*1 ∧
    ∀ x, x ∈ (xout x').*1 ↔ Dag.reach children root x.
Proof.
  unfold traverseBlocks. intros Hrun Hok. destruct (loader E root _) as [[ls|e] x1] eqn:Hl; [|done].
  destruct (loader_spec _ _ _ _ Hl Hok) as (Hx1 & Hs1 & Hr1). destruct (Hr1 ls eq_refl) as [-> Hst].
  unfold xstep, xview in Hst. simpl in Hst. destruct (decide _) as [Hin|_]; [set_solver|]. destruct Hst as (Hc1 & d & Hd & Ho1).
  destruct (descend _ _ fuel _ x1) as [[[]|e] x2] eqn:Hdesc; [|done]. injection Hrun as <-.
  destruct (descend_exact (λ ls, ls) (export_enter E) ordered xview (λ v, v.1.1) xstep xinv export_enter_inv
    export_enter_skip export_enter_new fuel (ordered root) root x1 x2 Hx1 Hdesc eq_refl Hs1) as (vs & Hv & Hnd & Hvs).
  assert (root ∉ vs) as Hroot by (intros ?%Hvs%(tc_rank _ _ _ rank_ordered); lia).
  destruct (visits_out root _ _ _ Hv) as (_ & bs & Hbs & Hsnd & Hout); [unfold xview; simpl; rewrite Hs1, Hc1; set_solver|done|].
  unfold xview in Hout. simpl in Hout. rewrite Ho1 in Hout. simpl in Hout. exists d, bs. rewrite Hout, fmap_cons, Hbs. cbn [fst]. split; [done|]. split; [by constructor|]. split; [by constructor|].
  intros x. rewrite elem_of_cons, Hvs, <- reach_ordered, reach_tc. done.
Qed.

(** An export that reports no error has emitted a CAR with the CID as its root and
    every block of the DAG below it exactly once, the root first, each hashing to
    its CID. *)
Theorem dagExport_exact fuel arg off w out w' : dagExport E fuel arg off w = (None, out, w') → store_ok w →
  ∃ c d bs f, cid_Decode E arg = Ok c ∧ out = Some f ∧ cf_header f = Ok (mkCarHeader 1 [c]) ∧ cf_end f = None ∧
    cf_sections f = (c, d) :: bs ∧ NoDup (cf_sections f).*1 ∧ Forall sound_block (cf_sections f) ∧
    ∀ x, x ∈ (cf_sections f).*1 ↔ Dag.reach children c x.
Proof.
  unfold dagExport. intros Hrun Hok. destruct (cid_Decode E arg) as [c|e]; [|done]. destruct (GetApi_err E); [done|].
  destruct (header_err E); [by destruct (emit_err E 0)|]. destruct (traverseBlocks E fuel c _) as [[[]|e] x] eqn:Ht; [|by destruct (emit_err E 0)].
  destruct (emit_err E 0); [done|]. injection Hrun as <- <-.
  destruct (traverseBlocks_exact _ _ _ _ Ht Hok) as (d & bs & Hx & Hs & Hn & Hr).
  eexists c, d, bs, _. do 2 (split; [done|]). simpl. by split_and!.
Qed.

(** ** Stat *)

Definition sview (s : StatState) : gset Cid * DagStat * list DagStat := (sseen s, dagstats s, sout s).

Definition stat_add (st : DagStat) (d : string) : DagStat :=
  mkDagStat (u64 (Size st + Z.of_nat (String.length d))) (i64 (NumBlocks st + 1)).

Definition stat_of (bs : list Blk) : DagStat := mkDagStat (u64 (bytes_of bs)) (i64 (Z.of_nat (length bs))).

Definition sstep (progressive : bool) (c : Cid) (v v' : gset Cid * DagStat * list DagStat) : Prop :=
  ∃ d, check_hash E c d = None ∧ v'.1.2 = stat_add v.1.2 d ∧ v'.2 = if progressive then v.2 ++ [v'.1.2] else v.2.

Definition sinv (s : StatState) : Prop := store_ok (sw s) ∧ ∀ c, c ∈ sseen s → is_Some (store (sw s) !! c).

Lemma stat_of_snoc bs c d : stat_add (stat_of bs) d = stat_of (bs ++ [(c, d)]).
Proof.
  unfold stat_add, stat_of. simpl. rewrite bytes_of_snoc, u64_add_l, i64_add_l, length_app. f_equal. f_equal. simpl. lia.
Qed.

Lemma stat_Func_spec prog d s r s' : stat_Func E prog d s = (r, s') →
  sw s' = sw s ∧ sseen s' = sseen s ∧ (r = Ok () → dagstats s' = stat_add (dagstats s) d ∧
    sout s' = if prog then sout s ++ [dagstats s'] else sout s).
Proof.
  unfold stat_Func. destruct prog; [|by intros [= <- <-]]. destruct (emit_err E _); by intros [= <- <-].
Qed.

Lemma stat_enter_spec prog c s r s' : sinv s → stat_enter E prog c s = (r, s') →
  sinv s' ∧ (r = Ok None → c ∈ sseen s ∧ sview s' = sview s) ∧
  (∀ n, r = Ok (Some n) → c ∉ sseen s ∧ sseen s' = {[c]} ∪ sseen s ∧ n = children c ∧ sstep prog c (sview s) (sview s')).
Proof.
  intros [Hok Hseen]. unfold stat_enter. destruct (dag_Get E (exchange E) c (sw s)) as [[[d ls]|e] w] eqn:Hg;
    destruct (dag_Get_spec _ _ _ _ _ exchange_ok Hg) as [[Ho Hsub _ _] Hr].
  2: { intros [= <- <-]. split; [|done]. split; [by apply Ho|]. intros x [dx Hx]%Hseen. exists dx. by eapply lookup_weaken. }
  destruct (dag_Get_children _ _ _ _ _ _ exchange_ok Hok Hg) as [Hh ->]. destruct (Hr d _ eq_refl) as [Hd _].
  assert (∀ x, x ∈ {[c]} ∪ sseen s → is_Some (store w !! x)) as Hsn.
  { intros x [->%elem_of_singleton|[dx Hx]%Hseen]%elem_of_union; [by exists d|exists dx; by eapply lookup_weaken]. }
  destruct (decide (c ∈ sseen s)) as [Hin|Hin].
  { intros [= <- <-]. split; [|done]. split; [by apply Ho|]. intros x Hx. apply Hsn. set_solver. }
  rewrite bind_unfold. destruct (stat_Func E prog d _) as [[[]|e] s1] eqn:Hf; destruct (stat_Func_spec _ _ _ _ _ Hf) as (Hw & Hs & Hst);
    intros [= <- <-]; (split; [split; [rewrite Hw; by apply Ho|rewrite Hs, Hw; exact Hsn]|]); [|done].
  split; [done|]. intros n [= <-]. split; [done|]. split; [done|]. split; [done|]. exists d. destruct (Hst eq_refl) as [H1 H2]. by split_and!.
Qed.

(** The statistics after a descent, given those before it *)
Lemma visits_stat prog vs v v' bs0 : visits (λ v, v.1.1) (sstep prog) vs v v' → v.1.2 = stat_of bs0 →
  ∃ bs, bs.*1 = vs ∧ Forall (λ b : Blk, check_hash E b.1 b.2 = None) bs ∧ v'.1.2 = stat_of (bs0 ++ bs) ∧
    if prog then length v'.2 = length v.2 + length vs ∧ (last v.2 = Some v.1.2 → last v'.2 = Some v'.1.2) else v'.2 = v.2.
Proof.
  induction 1 as [v|vs c v v1 v2 Hv IH Hc Hs (d & Hd & Hst & Hout)]; intros Hv0.
  { exists []. rewrite app_nil_r. split_and!; [done..|]. destruct prog; simpl; [|done]. split; [lia|done]. }
  destruct (IH Hv0) as (bs & Hbs & Hh & Hst1 & Hout1). exists (bs ++ [(c, d)]). rewrite fmap_app, Hbs.
  split; [done|]. split; [apply Forall_app; split; [done|by apply Forall_singleton]|].
  split; [by rewrite Hst, Hst1, (stat_of_snoc _ c), (assoc_L (++))|]. destruct prog; [|congruence].
  destruct Hout1 as [Hl _]. rewrite Hout, !length_app, Hl. simpl. split; [lia|]. intros _. by rewrite last_snoc.
Qed.

(** [ipfs dag stat], when it reports no error, has counted every block reachable
    from the root exactly once: its last statistics are their number and the sum of
    their sizes (in int64 and uint64), whatever links the DAG shares; with
    progress it has emitted one statistics per block. *)
Theorem dagStat_exact fuel prog arg w out w' : dagStat E fuel prog arg w = (None, out, w') → store_ok w →
  ∃ c bs, ResolvePath E arg = Ok (c, "") ∧ NoDup bs.*1 ∧ (∀ x, x ∈ bs.*1 ↔ Dag.reach children c x) ∧
    (∀ b, b ∈ bs → check_hash E b.1 b.2 = None) ∧
    finishCLIStat None out = Ok (Some (mkDagStat (u64 (bytes_of bs)) (i64 (Z.of_nat (length bs))))) ∧
    length out = if prog then length bs else 1.
Proof.
  unfold dagStat. intros Hrun Hok. destruct (GetApi_err E); [done|]. destruct (ResolvePath E arg) as [[c rem]|e]; [|done].
  destruct (decide (rem ≠ "")) as [|Hrem]; [done|]. assert (rem = "") as -> by (by destruct (decide (rem = ""))).
  destruct (dag_Get E (exchange E) c w) as [[[d ls]|e] w1] eqn:Hg; [|done].
  destruct (dag_Get_spec _ _ _ _ _ exchange_ok Hg) as [[Ho _ _ _] _].
  destruct (dag_Get_children _ _ _ _ _ _ exchange_ok Hok Hg) as [Hh ->].
  destruct (Traverse E prog fuel d (children c) _) as [[[]|e] s2] eqn:Ht; [|done].
  unfold Traverse in Ht. rewrite bind_unfold in Ht. destruct (stat_Func E prog d _) as [[[]|e] s1] eqn:Hf; [|done].
  destruct (stat_Func_spec _ _ _ _ _ Hf) as (Hw & Hs & Hst). destruct (Hst eq_refl) as [Hd1 Ho1]. simpl in *.
  assert (sinv s1) as Hi1 by (split; [rewrite Hw; by apply Ho|rewrite Hs; set_solver]).
  edestruct (descend_exact (λ ls, ls) (stat_enter E prog) children sview (λ v, v.1.1) (sstep prog) sinv)
    as (vs & Hv & Hnd & Hvs); [..|exact Hi1|exact Ht|reflexivity|exact Hs|].
  { intros x s r s' Hi Hr. by eapply stat_enter_spec. }
  { intros x s s' Hi Hr. by apply (stat_enter_spec _ _ _ _ _ Hi Hr). }
  { intros x s n s' Hi Hr. by apply (stat_enter_spec _ _ _ _ _ Hi Hr). }
  assert (dagstats s1 = stat_of [(c, d)]) as Hs1 by (rewrite Hd1; apply (stat_of_snoc [] c d)).
  destruct (visits_stat _ _ _ _ [(c, d)] Hv Hs1) as (bs & Hbs & Hhs & Hst2 & Hout2). unfold sview in Hst2, Hout2. simpl in Hst2, Hout2.
  assert (c ∉ vs) as Hcv by (intros ?%Hvs%(tc_rank _ _ _ rank_decr); lia).
  exists c, ((c, d) :: bs). rewrite fmap_cons, Hbs. split; [done|]. split; [by constructor|].
  split; [intros x; rewrite elem_of_cons, Hvs, reach_tc; done|].
  split; [intros b [->|Hb]%elem_of_cons; [done|]; rewrite Forall_forall in Hhs; by apply Hhs|].
  destruct prog.
  - injection Hrun as <- <-. rewrite Ho1 in Hout2. simpl in Hout2. destruct Hout2 as [Hl Hlast]. unfold finishCLIStat. rewrite Hlast by done.
    rewrite Hst2. split; [done|]. rewrite Hl, <- Hbs, length_fmap. done.
  - destruct (emit_err E _); [done|]. injection Hrun as <- <-. unfold finishCLIStat. rewrite last_snoc, Hst2.
    split; [done|]. rewrite Hout2, Ho1. done.
Qed.

(** [ipfs dag stat] succeeds when every block of the DAG can be fetched. *)
Theorem dagStat_total fuel prog arg w c : store_ok w → GetApi_err E = None → ResolvePath E arg = Ok (c, "") →
  (∀ x, Dag.reach children c x → is_ok (dag_Get E (exchange E) x w).1 = true) → (∀ n, emit_err E n = None) → rank c < fuel →
  ∃ out w', dagStat E fuel prog arg w = (None, out, w').
Proof.
  intros Hok Ha Hp Hget Hem Hf. unfold dagStat. rewrite Ha, Hp, decide_False by (intros Hne; by apply Hne).
  pose proof (Hget c (rtc_refl _ _)) as Hgc. destruct (dag_Get E (exchange E) c w) as [[[d ls]|e] w1] eqn:Hg; [|done].
  destruct (dag_Get_spec _ _ _ _ _ exchange_ok Hg) as [[Ho _ _ _] _].
  destruct (dag_Get_children _ _ _ _ _ _ exchange_ok Hok Hg) as [_ ->].
  assert (∀ s, ∃ s', stat_Func E prog d s = (Ok (), s') ∧ sw s' = sw s ∧ sseen s' = sseen s) as HF.
  { intros s. unfold stat_Func. destruct prog; [rewrite Hem|]; eexists; by split_and!. }
  unfold Traverse. rewrite bind_unfold. destruct (HF (mkSS w1 ∅ (mkDagStat 0 0) [])) as (s1 & -> & Hw & Hs). simpl in Hw, Hs.
  assert (sinv s1) as Hi1 by (split; [rewrite Hw; by apply Ho|rewrite Hs; set_solver]).
  assert (∀ x, (dag_Get E (exchange E) x w1).1 = (dag_Get E (exchange E) x w).1) as Hst
    by (intros x; rewrite <- (dag_Get_stable x c w), Hg; done).
  edestruct (descend_total (λ ls, ls) (stat_enter E prog) children sview (λ v, v.1.1) (sstep prog) sinv) with
    (rank := rank) (I := λ s, ∀ x, (dag_Get E (exchange E) x (sw s)).1 = (dag_Get E (exchange E) x w).1)
    (r := c) (n := children c) (s := s1) (fuel := fuel) as (s2 & Hd & _); [..|rewrite Hd].
  { intros x s r s' Hi Hr. by eapply stat_enter_spec. }
  { intros x s n s' Hi Hr. by apply (stat_enter_spec _ _ _ _ _ Hi Hr). }
  { done. }
  { intros x st Hx _ HI. unfold stat_enter. pose proof (HI x) as HIx. pose proof (Hget x (proj2 (reach_tc _ _ _) (or_intror Hx))) as Hgx.
    destruct (dag_Get E (exchange E) x (sw st)) as [[[dx lx]|e] w2] eqn:Hgs; simpl in HIx; rewrite <- HIx in Hgx; [|done].
    assert (∀ y, (dag_Get E (exchange E) y w2).1 = (dag_Get E (exchange E) y w).1) as H2
      by (intros y; rewrite <- (HI y), <- (dag_Get_stable y x (sw st)), Hgs; done).
    destruct (decide (x ∈ sseen st)); [do 2 eexists; split; [done|exact H2]|]. rewrite bind_unfold. unfold stat_Func.
    destruct prog; [rewrite Hem|]; do 2 eexists; (split; [done|exact H2]). }
  { done. }
  { done. }
  { done. }
  { intros x. by rewrite Hw, Hst. }
  destruct prog; [by do 2 eexists|]. rewrite Hem. by do 2 eexists.
Qed.

End acyclic.

End dag_laws.

(** ** Export followed by import *)

(** A node on which nothing fails *)
Record healthy (E : DagEnv) : Prop := {
  h_api : GetApi_err E = None;
  h_put : ∀ n, put_fault E n = None;
  h_bs : ∀ c, Blockstore_err E c = None;
  h_index : ∀ c, index_err E c = None;
  h_flush : Flush_err E = None;
  h_emit : ∀ n, emit_err E n = None;
}.

Section import_total.
Context (E : DagEnv) (children ordered : Cid → list Cid) `{L : !DagLaws E children ordered}.
Context (HE : healthy E).

Lemma AddMany_healthy g w : (dag_AddMany E g w).1 = Ok ().
Proof. unfold dag_AddMany. by rewrite (h_put E HE). Qed.

Lemma import_block_healthy b iw : sound_block E b → b_err (iw_batch iw).1 = None →
  ∃ iw', import_block E b iw = (Ok (), iw') ∧ b_err (iw_batch iw').1 = None.
Proof.
  intros [Hh Hl] Hb. unfold import_block. rewrite Hh. destruct (dag_links E b.1 b.2); [|done].
  destruct (batch_AddMany_healthy _ (batchEnv E) blk_len AddMany_healthy [b] (iw_batch iw) Hb) as [H1 H2]. unfold batch_Add.
  destruct (batch_AddMany blk_len (dag_AddMany E) (batchEnv E) [b] (iw_batch iw)) as [e bw]. simpl in H1, H2. subst e. by eexists.
Qed.

Lemma import_blocks_healthy bs : ∀ iw, Forall (sound_block E) bs → b_err (iw_batch iw).1 = None →
  ∃ iw', mfor bs (import_block E) iw = (Ok (), iw') ∧ b_err (iw_batch iw').1 = None.
Proof.
  induction bs as [|b bs IH]; intros iw Hs Hb; [by exists iw|]. apply Forall_cons in Hs as [Hsb Hs]. cbn [mfor].
  rewrite bind_unfold. destruct (import_block_healthy b iw Hsb Hb) as (iw1 & -> & Hb1). by apply IH.
Qed.

(** The worker accepts a well-formed file of sound blocks. *)
Lemma importWorker_healthy f ch w : NewCarReader f = Ok ch → cf_end f = None → Forall (sound_block E) (cf_sections f) →
  ∃ iw, importWorker E [Some f] None (mkIW (NewBatch, w) ∅ 0 0) = (Ok (), iw).
Proof.
  intros Hc He Hs. unfold importWorker. rewrite bind_unfold. cbn [mfor]. rewrite bind_unfold. unfold import_file. rewrite bind_unfold.
  unfold mlift. rewrite Hc.
  assert (¬ Version ch ≠ 1%Z) as Hv by (revert Hc; unfold NewCarReader; destruct (cf_header f); [|done]; simpl; repeat case_decide; congruence).
  rewrite decide_False by done. rewrite bind_unfold. unfold mmodify. rewrite bind_unfold.
  match goal with |- context [mfor _ _ ?i] => destruct (import_blocks_healthy (cf_sections f) i Hs eq_refl) as (iw1 & -> & Hb) end.
  rewrite He. rewrite !ret_unfold. unfold import_commit.
  pose proof (batch_Commit_healthy _ (batchEnv E) AddMany_healthy (iw_batch iw1) Hb) as Hcm.
  destruct (batch_Commit _ _ (iw_batch iw1)) as [e bw]. simpl in Hcm. subst e. by eexists.
Qed.

(** The graph of a root whose blocks are all in the store can be fetched. *)
Lemma FetchGraph_healthy fuel c (X : gset Cid) w : store_ok E w → Dag.dag_closed children X → c ∈ X →
  (∀ x, x ∈ X → ∃ d, store w !! x = Some d ∧ is_ok (dag_links E x d) = true) → S (Dag.links_in children X) ≤ fuel →
  (FetchGraph E fuel c w).1 = Ok ().
Proof.
  intros Hok HX Hc Hst Hf. unfold FetchGraph.
  edestruct (walk_loop_total children (λ c, '(_, ls) ← dag_Get E (exchange E) c; mret ls) X (λ a, a = w) (sched E) fuel [c] ∅ w)
    as (m & a & Hw & ->); [exact HX| |set_solver|done| |by rewrite Hw].
  - intros x a Hx ->. exists w. split; [|done]. rewrite bind_unfold. destruct (Hst x Hx) as (d & Hd & Hl). unfold dag_Get. rewrite Hd.
    destruct (dag_links E x d) as [ls|] eqn:Hls; [|done]. simpl. rewrite ret_unfold. do 2 f_equal. eapply links_ok; [by apply Hok|exact Hls].
  - simpl. rewrite difference_empty_L. lia.
Qed.

Lemma Pinner_Pin_healthy fuel (b : Blk) (X : gset Cid) w : store_ok E w → check_hash E b.1 b.2 = None → Dag.dag_closed children X → b.1 ∈ X →
  (∀ x, x ∈ X → ∃ d, store w !! x = Some d ∧ is_ok (dag_links E x d) = true) → S (Dag.links_in children X) ≤ fuel →
  ∃ w', Pinner_Pin E fuel b w = (Ok (), w').
Proof.
  intros Hok Hb HX Hc Hst Hf. unfold Pinner_Pin. rewrite bind_unfold. pose proof (AddMany_healthy [b] w) as Ha.
  destruct (dag_AddMany E [b] w) as [[[]|e] w2] eqn:Had; [|done].
  destruct (dag_AddMany_spec E _ _ _ _ Had) as (_ & _ & Hsub & Hok2 & _).
  unfold mget. rewrite bind_unfold, (h_index E HE). destruct (decide (b.1 ∈ rpins w2)); [by eexists|]. rewrite bind_unfold.
  assert ((FetchGraph E fuel b.1 w2).1 = Ok ()) as Hfg.
  { apply (FetchGraph_healthy _ _ X); [|done..| |done].
    - apply Hok2; [|done]. by intros x ->%list_elem_of_singleton.
    - intros x Hx. destruct (Hst x Hx) as (dx & Hdx & Hlx). exists dx. split; [by eapply lookup_weaken|done]. }
  destruct (FetchGraph E fuel b.1 w2) as [rf w3]. simpl in Hfg. subst rf. by eexists.
Qed.

(** Importing a well-formed CAR with one root and the whole DAG below it pins that
    root, whatever was there before, and needs nothing from the network. *)
Lemma dagImport_healthy fuel stats f c w : NewCarReader f = Ok (mkCarHeader 1 [c]) → cf_end f = None →
  Forall (sound_block E) (cf_sections f) → (∀ x, x ∈ (cf_sections f).*1 ↔ Dag.reach children c x) → store_ok E w → whole children w →
  errors_have_text E → S (Dag.links_in children (list_to_set (cf_sections f).*1)) ≤ fuel →
  ∃ out w', dagImport E fuel true stats [Some f] None w = (None, out, w').
Proof.
  intros Hc He Hs Hr Hok Hwh Ht Hf. unfold dagImport. rewrite (h_api E HE).
  destruct (importWorker_healthy f _ (event DLock w) Hc He Hs) as [iw Hw]. rewrite Hw.
  pose proof (worker_grown E children ordered _ _ _ _ _ Hw) as (Hgr & _ & Hall). specialize (Hall eq_refl).
  assert (all_blocks [Some f] = cf_sections f) as Hab by (unfold all_blocks; simpl; apply app_nil_r). rewrite Hab in Hall.
  destruct (importWorker_spec E children ordered _ _ _ _ _ Hw) as (Hroots & _). destruct (grown_state E children _ _ Hgr Hok Hwh) as (Hok1 & Hwh1 & _ & _).
  assert (cf_header f = Ok (mkCarHeader 1 [c])) as Hch.
  { revert Hc. unfold NewCarReader. destruct (cf_header f) as [ch'|e]; [|done]. simpl. repeat case_decide; congruence. }
  assert (range E (iw_roots iw) = [c]) as ->.
  { apply Permutation_length_1_inv. symmetry. rewrite range_ok, Hroots. unfold all_roots. simpl. rewrite Hch. simpl.
    by rewrite union_empty_r_L, elements_singleton. }
  cbn [pin_roots]. set (w1 := (iw_batch iw).2) in *.
  assert (∀ x, x ∈ (cf_sections f).*1 → ∃ d, store w1 !! x = Some d ∧ is_ok (dag_links E x d) = true) as Hdata.
  { intros x ([y d] & -> & Hyd)%list_elem_of_fmap. destruct (Hall _ Hyd) as [[d' Hd'] Hh]. exists d'. split; [done|].
    assert (d' = d) as -> by (eapply hash_det; [by apply Hok1|done]). rewrite Forall_forall in Hs. by apply (Hs _ Hyd). }
  assert (∃ w2, pin_root E fuel c w1 = (Ok (), w2)) as (w2 & ->).
  { unfold pin_root. rewrite (h_bs E HE). destruct (Hdata c) as (d & Hd & Hl); [apply Hr, rtc_refl|]. rewrite Hd.
    destruct (dag_links E c d); [|done]. rewrite bind_unfold.
    destruct (Pinner_Pin_healthy fuel (c, d) (list_to_set (cf_sections f).*1) w1) as (w2 & ->); [done|by apply Hok1| | | |done|].
    - intros x y. rewrite !elem_of_list_to_set, !Hr. intros ??. by eapply rtc_r.
    - rewrite elem_of_list_to_set. apply Hr, rtc_refl.
    - intros x Hx%elem_of_list_to_set. by apply Hdata.
    - unfold Pinner_Flush. rewrite (h_flush E HE). by eexists. }
  rewrite decide_False by (intros Hne; by apply Hne). rewrite (h_emit E HE). rewrite decide_False by (intros Hne; by apply Hne).
  unfold emit_stats. destruct stats; [rewrite (h_emit E HE)|]; by do 2 eexists.
Qed.
End import_total.


(** ** Put *)

Section put_laws.
Context {Nd : Type} (E : DagEnv) (C : CodecEnv Nd).
Context (Hlate : ∀ n gs, late (batchEnv E) n gs ⊆ gs).

Lemma PinWithMode_spec c w : store (PinWithMode E c w) = store w ∧ rpins w ⊆ rpins (PinWithMode E c w) ∧
  (index_err E c = None → c ∈ rpins (PinWithMode E c w)).
Proof.
  unfold PinWithMode. destruct (index_err E c); [done|]. destruct (decide (c ∈ rpins w)); [done|]. simpl. set_solver.
Qed.

Lemma PinWithMode_all cs : ∀ w, let w' := foldl (λ w c, PinWithMode E c w) w cs in
  store w' = store w ∧ rpins w ⊆ rpins w' ∧ ∀ c, c ∈ cs → index_err E c = None → c ∈ rpins w'.
Proof.
  induction cs as [|c cs IH]; intros w; simpl; [set_solver|].
  destruct (PinWithMode_spec c w) as (Hs1 & Hp1 & Hc1). destruct (IH (PinWithMode E c w)) as (Hs2 & Hp2 & Hc2).
  split; [congruence|]. split; [by etrans|]. intros x [->|Hx]%elem_of_cons Hi; [by apply Hp2, Hc1|by apply Hc2].
Qed.

(** What a successful call of the adder does *)
Lemma put_adder_spec dopin g w w' : put_adder E dopin g w = (Ok (), w') →
  store w ⊆ store w' ∧ rpins w ⊆ rpins w' ∧ ∀ b, b ∈ g →
    is_Some (store w' !! b.1) ∧ (dopin = true → index_err E b.1 = None → b.1 ∈ rpins w').
Proof.
  unfold put_adder. destruct dopin.
  - unfold pinning_AddMany. rewrite bind_unfold. destruct (dag_AddMany E g (event DLock w)) as [[[]|e] w1] eqn:Ha; [|done].
    destruct (dag_AddMany_spec E _ _ _ _ Ha) as (Hp & _ & Hs & _ & Hin). rewrite bind_unfold. unfold mmodify, Pinner_Flush.
    destruct (PinWithMode_all (dedup_from ∅ g.*1) w1) as (Hs2 & Hp2 & Hc2).
    destruct (Flush_err E); [done|]. intros [= <-]. unfold event in *. simpl in *. rewrite Hs2. split; [done|]. split; [by rewrite <- Hp|].
    intros b Hb. split; [by apply Hin|]. intros _ Hi. apply Hc2; [|done]. apply elem_of_dedup_from. split; [|set_solver].
    apply list_elem_of_fmap. by exists b.
  - intros Ha. destruct (dag_AddMany_spec E _ _ _ _ Ha) as (Hp & _ & Hs & _ & Hin).
    split; [done|]. split; [by rewrite Hp|]. intros b Hb. split; [by apply Hin|done].
Qed.

Lemma committed_put dopin gs w w' : committed (put_adder E dopin) gs w w' →
  store w ⊆ store w' ∧ rpins w ⊆ rpins w' ∧ ∀ b, b ∈ concat gs →
    is_Some (store w' !! b.1) ∧ (dopin = true → index_err E b.1 = None → b.1 ∈ rpins w').
Proof.
  induction 1 as [|gs g w w1 w2 _ (Hs1 & Hp1 & Hb1) Hg]; [split; [done|]; split; [done|]; intros b Hb; by apply elem_of_nil in Hb|].
  destruct (put_adder_spec _ _ _ _ Hg) as (Hs2 & Hp2 & Hb2). split; [by etrans|]. split; [by etrans|].
  intros b. rewrite concat_app. simpl. rewrite app_nil_r. intros [Hb|Hb]%elem_of_app; [|by apply Hb2].
  destruct (Hb1 b Hb) as [[d Hd] Hpin]. split; [exists d; by eapply lookup_weaken|]. intros. by apply Hp2, Hpin.
Qed.

Lemma put_files_spec mk dopin w0 files : ∀ emitted added bw out bw', put_files E mk dopin files emitted bw = (None, out, bw') →
  batch_inv (put_adder E dopin) w0 added bw →
  ∃ bs, Forall2 (λ f b, mk f = Ok b) files bs ∧ out = emitted ++ bs.*1 ∧ batch_inv (put_adder E dopin) w0 (added ++ bs) bw'.
Proof.
  induction files as [|f files IH]; intros emitted added bw out bw'; simpl.
  { intros [= <- <-] Hinv. exists []. rewrite !app_nil_r. by split_and!. }
  destruct (mk f) as [b|e] eqn:Hf; [|done].
  destruct (batch_Add blk_len (put_adder E dopin) (batchEnv E) b bw) as [[e|] bw1] eqn:Ha; [done|].
  destruct (emit_err E (length emitted)); [done|]. intros Hrun Hinv.
  destruct (batch_AddMany_inv _ _ Hlate _ _ _ _ _ _ _ Ha Hinv) as [Hinv1 _].
  destruct (IH _ _ _ _ _ Hrun Hinv1) as (bs & Hbs & -> & Hinv2). exists (b :: bs). split; [by constructor|].
  rewrite fmap_cons. by rewrite <- !(assoc_L (++)) in *.
Qed.

(** [ipfs dag put], when it reports no error, has emitted one CID per input in order,
    each the hash of the input recoded from the input codec to the store codec, and
    has stored them all; with [--pin] they are pinned, unless the pin index failed:
    that error is lost. *)
Theorem dagPut_exact inputCodec storeCodec hash dopin files it_err w out w' :
  dagPut E C inputCodec storeCodec hash dopin files it_err w = (None, out, w') →
  ∃ bs ic sc mh dec enc, Code_Set C inputCodec = Ok ic ∧ Code_Set C storeCodec = Ok sc ∧ Code_Set C hash = Ok mh ∧
    LookupDecoder C ic = Ok dec ∧ LookupEncoder C sc = Ok enc ∧ out = bs.*1 ∧
    Forall2 (λ f b, ∃ s n, f = Some s ∧ dec s = Ok n ∧ enc n = Ok b.2 ∧ prefix_Sum C sc mh b.2 = Ok b.1) files bs ∧
    (∀ c, c ∈ out → is_Some (store w' !! c) ∧ (dopin = true → index_err E c = None → c ∈ rpins w')).
Proof.
  unfold dagPut. destruct (GetApi_err E); [done|].
  destruct (Code_Set C inputCodec) as [ic|] eqn:Hic; [|done]. destruct (Code_Set C storeCodec) as [sc|] eqn:Hsc; [|done].
  destruct (Code_Set C hash) as [mh|] eqn:Hmh; [|done]. simpl. destruct (LookupDecoder C ic) as [dec|] eqn:Hdec; [|done].
  destruct (LookupEncoder C sc) as [enc|] eqn:Henc; [|done]. simpl.
  destruct (put_files E _ dopin files [] _) as [[[e|] out1] bw] eqn:Hp; [done|]. destruct it_err; [done|].
  destruct (batch_Commit (put_adder E dopin) (batchEnv E) bw) as [e bw'] eqn:Hc. intros [= -> <- <-].
  destruct (put_files_spec _ _ w _ _ _ _ _ _ Hp (batch_inv_new _ _)) as (bs & Hbs & Hout & Hinv). simpl in Hout, Hinv.
  destruct (batch_Commit_inv _ _ Hlate _ _ _ _ _ Hc Hinv) as (gs & Hgs & Hperm).
  exists bs, ic, sc, mh, dec, enc. do 5 (split; [done|]). split; [done|]. split.
  - eapply Forall2_impl; [exact Hbs|]. intros f [c bd]. unfold put_block. destruct f as [s|]; [|done].
    destruct (dec s) as [n|] eqn:Hn; [|done]. simpl. destruct (enc n) as [b2|] eqn:Hb; [|done]. simpl.
    destruct (prefix_Sum C sc mh b2) as [c2|] eqn:Hs2; [|done]. simpl. intros [= -> ->]. by exists s, n.
  - destruct (committed_put _ _ _ _ Hgs) as (_ & _ & Hall). intros c Hc'. rewrite Hout in Hc'.
    apply list_elem_of_fmap in Hc' as (b & -> & Hb). apply Hall. by rewrite Hperm.
Qed.
End put_laws.

(** ** A small node *)

Module DagExample.

Definition cid_of (d : string) : Cid := CidV1 Raw (mkMultihash 0 d).
Definition links_of (d : string) : list Cid :=
  if decide (d = "root") then [cid_of "a"; cid_of "b"; cid_of "a"] else if decide (d = "a") then [cid_of "b"] else [].
Definition children (c : Cid) : list Cid :=
  match c with CidV1 _ h => if decide (c = cid_of (mh_digest h)) then links_of (mh_digest h) else [] | _ => [] end.
Definition rank (c : Cid) : nat :=
  if decide (c = cid_of "root") then 2 else if decide (c = cid_of "a") then 1 else 0.

Definition env (ex : Cid → option string) (index : Cid → option string) : DagEnv := {|
  dag_links := λ _ d, Ok (links_of d); sel_links := λ _ d, Ok (links_of d);
  check_hash := λ c d, if decide (c = cid_of d) then None else Some "mismatch";
  exchange := ex; put_fault := λ _, None; Blockstore_err := λ _, None; index_err := index; Flush_err := None; GetApi_err := None;
  range := elements; sched := λ n, n; emit_err := λ _, None; header_err := None; write_err := λ _, None;
  load_msg := λ _ e, "could not load link: " +:+ e; cid_Decode := λ s, Ok (cid_of s); ResolvePath := λ s, Ok (cid_of s, "");
  IsOnline := false; batchEnv := mkBatchEnv 1 3 1 Nat.even (λ n, n) (λ _ gs, gs) |}.

Definition no_index : Cid → option string := λ _, None.
Definition offline : Cid → option string := λ _, None.
(** The exchange has the two descendants. *)
Definition peers (c : Cid) : option string :=
  if decide (c = cid_of "a") then Some "a" else if decide (c = cid_of "b") then Some "b" else None.

Lemma rank_decr c d : d ∈ children c → rank d < rank c.
Proof.
  unfold children. destruct c as [| |k h]; [by intros ?%elem_of_nil..|]. destruct (decide _) as [->|]; [|by intros ?%elem_of_nil].
  unfold links_of. destruct (decide (mh_digest h = "root")) as [->|]; [|destruct (decide (mh_digest h = "a")) as [->|]; [|by intros ?%elem_of_nil]].
  - intros [->|[->|[->|?%elem_of_nil]%elem_of_cons]%elem_of_cons]%elem_of_cons; [vm_compute; lia..|done].
  - intros ->%list_elem_of_singleton. vm_compute. lia.
Qed.

#[global] Instance laws ex index : (∀ c d, ex c = Some d → c = cid_of d) → DagLaws (env ex index) children children.
Proof.
  intros Hex. assert (∀ c d, check_hash (env ex index) c d = None → c = cid_of d) as Hc by (simpl; intros c d; by destruct (decide _)).
  assert (∀ d, links_of d = children (cid_of d)) as Hl by (intros d; unfold children; simpl; by rewrite decide_True).
  split.
  - intros c d ls ->%Hc [= <-]. apply Hl.
  - intros c d ls ->%Hc [= <-]. apply Hl.
  - done.
  - intros c d ->%Hex. simpl. by rewrite decide_True.
  - intros c d1 d2 H1%Hc H2%Hc. rewrite H1 in H2. by injection H2.
  - done.
  - by intros n gs x.
Qed.

Lemma peers_ok c d : peers c = Some d → c = cid_of d.
Proof. unfold peers. repeat case_decide; intros [= <-]; done. Qed.

Definition full : DW := mkDW {[cid_of "root" := "root"; cid_of "a" := "a"; cid_of "b" := "b"]} ∅ ∅ 0 [].
Definition bare : DW := mkDW ∅ ∅ ∅ 0 [].
Definition car : CarFile := mkCarFile (Ok (mkCarHeader 1 [cid_of "root"]))
  [(cid_of "root", "root"); (cid_of "a", "a"); (cid_of "b", "b")] None.

Lemma full_ok ex index : store_ok (env ex index) full.
Proof.
  intros c d. unfold full. simpl. intros [[<- <-]|[_ [[<- <-]|[_ [<- <-]%lookup_singleton_Some]]%lookup_insert_Some]]%lookup_insert_Some;
    by rewrite decide_True.
Qed.

Lemma bare_ok ex index : store_ok (env ex index) bare ∧ whole children bare.
Proof. split; [intros c d Hl; unfold bare in Hl; simpl in Hl; by rewrite lookup_empty in Hl|intros p x; unfold bare; simpl; set_solver]. Qed.

Lemma texts ex : errors_have_text (env ex no_index).
Proof. by split. Qed.

Lemma is_healthy ex : healthy (env ex no_index).
Proof. by split. Qed.

(** A CAR that holds only its root is imported, pinned and made whole from the
    network, although the command says it works offline. *)
Theorem import_reaches_network :
  let f := mkCarFile (Ok (mkCarHeader 1 [cid_of "root"])) [(cid_of "root", "root")] None in
  let '(e, out, w') := dagImport (env peers no_index) 10 true false [Some f] None bare in
  e = None ∧ out = [IRoot (cid_of "root") ""] ∧ DFetched (cid_of "a") ∈ dlog w' ∧ DFetched (cid_of "b") ∈ dlog w'.
Proof. vm_compute. split_and!; [done|done|do 3 right; left|do 4 right; left]. Qed.

(** The offline hint is given for a missing root only: the error of a missing
    descendant is wrapped, and no longer the error it is compared with. *)
Theorem export_hint_lost :
  (dagExport (env offline no_index) 5 "root" false (mkDW {[cid_of "root" := "root"]} ∅ ∅ 0 [])).1.1 =
    Some "could not load link: merkledag: not found" ∧
  (dagExport (env offline no_index) 5 "root" false bare).1.1 =
    Some "merkledag: not found (currently offline, perhaps retry after attaching to the network)".
Proof. by vm_compute. Qed.

Definition codecs : CodecEnv string := {|
  Code_Set := λ _, Ok 1%N; LookupDecoder := λ _, Ok (λ s, Ok s); LookupEncoder := λ _, Ok (λ s, Ok s);
  prefix_Sum := λ _ _ d, Ok (cid_of d); universal := λ _ d, Some d; traversal_Get := λ n _, Ok n |}.

(** [dag put --pin] reports success although nothing was pinned. *)
Theorem put_pin_error_lost :
  let '(e, out, w') := dagPut (env offline (λ _, Some "datastore closed")) codecs "dag-json" "dag-cbor" "sha2-256" true [Some "x"] None bare in
  e = None ∧ out = [cid_of "x"] ∧ elements (rpins w') = [].
Proof. by vm_compute. Qed.

End DagExample.

Section dag_witnesses.
Import DagExample.

Lemma offline_ok c d : offline c = Some d → c = cid_of d.
Proof. done. Qed.

Lemma dagExport_exact_witness :
  let run := dagExport (env offline no_index) 5 "root" false full in
  run.1 = (None, Some car) ∧ NoDup (cf_sections car).*1 ∧ ∀ x, x ∈ (cf_sections car).*1 ↔ Dag.reach DagExample.children (cid_of "root") x.
Proof.
  cbv zeta. set (run := dagExport _ _ _ _ _). assert (run.1 = (None, Some car)) as Hr by (vm_compute; reflexivity).
  split; [exact Hr|]. destruct run as [[e out] w'] eqn:Hrun. simpl in Hr. injection Hr as -> ->.
  destruct (@dagExport_exact (env offline no_index) DagExample.children DagExample.children (laws offline no_index offline_ok) rank rank_decr
    5 "root" false full (Some car) w' Hrun (full_ok offline no_index)) as (c & d & bs & f & Hc & Hf & _ & _ & _ & Hn & _ & Hx).
  injection Hf as <-. injection Hc as <-. split; [exact Hn|exact Hx].
Defined.

Lemma dagStat_exact_witness :
  let run := dagStat (env offline no_index) 5 true "root" full in
  run.1 = (None, [mkDagStat 4 1; mkDagStat 5 2; mkDagStat 6 3]) ∧
  ∃ bs : list Blk, (∀ x, x ∈ bs.*1 ↔ Dag.reach DagExample.children (cid_of "root") x) ∧ length bs = 3.
Proof.
  cbv zeta. set (run := dagStat _ _ _ _ _).
  assert (run.1 = (None, [mkDagStat 4 1; mkDagStat 5 2; mkDagStat 6 3])) as Hr by (vm_compute; reflexivity).
  split; [exact Hr|]. destruct run as [[e out] w'] eqn:Hrun. simpl in Hr. injection Hr as -> ->.
  destruct (@dagStat_exact (env offline no_index) DagExample.children DagExample.children (laws offline no_index offline_ok) rank rank_decr
    5 true "root" full _ w' Hrun (full_ok offline no_index)) as (c & bs & Hc & _ & Hx & _ & _ & Hl).
  injection Hc as <-. exists bs. split; [exact Hx|]. symmetry. exact Hl.
Defined.

Lemma dagStat_total_witness : ∃ out w', dagStat (env peers no_index) 3 false "root" (mkDW {[cid_of "root" := "root"]} ∅ ∅ 0 []) = (None, out, w').
Proof.
  apply (@dagStat_total (env peers no_index) DagExample.children DagExample.children (laws peers no_index peers_ok) rank rank_decr
    3 false "root" (mkDW {[cid_of "root" := "root"]} ∅ ∅ 0 []) (cid_of "root")); [|reflexivity|reflexivity| |reflexivity|vm_compute; lia].
  - intros c d. simpl. intros [<- <-]%lookup_singleton_Some. reflexivity.
  - intros x Hx. assert (x ∈ [cid_of "root"; cid_of "a"; cid_of "b"]) as Hin.
    { apply (Dag.reach_within DagExample.children _ (cid_of "root")); [|by left|exact Hx].
      eapply bool_decide_unpack; vm_compute; reflexivity. }
    apply elem_of_cons in Hin as [->|[->|[->|[]%elem_of_nil]%elem_of_cons]%elem_of_cons]; vm_compute; reflexivity.
Defined.

Lemma dagImport_exact_witness :
  let run := dagImport (env offline no_index) 5 true true [Some car] None bare in
  run.1 = (None, [IRoot (cid_of "root") ""; IStats 3 6]) ∧ cid_of "root" ∈ rpins run.2 ∧ whole DagExample.children run.2 ∧
  store run.2 !! cid_of "b" = Some "b".
Proof.
  cbv zeta. set (run := dagImport _ _ _ _ _ _ _).
  assert (run.1 = (None, [IRoot (cid_of "root") ""; IStats 3 6])) as Hr by (vm_compute; reflexivity).
  split; [exact Hr|]. destruct run as [[e out] w'] eqn:Hrun. simpl in Hr. injection Hr as -> ->.
  destruct (bare_ok offline no_index) as [Hok Hwh].
  destruct (@dagImport_exact (env offline no_index) DagExample.children DagExample.children (laws offline no_index offline_ok)
    5 true true [Some car] None bare None _ w' (texts offline) Hrun Hok Hwh) as (_ & Hw & _ & _ & _ & Hdone).
  destruct (Hdone eq_refl) as (Hb & Hp & _). simpl.
  split; [apply Hp; [reflexivity|by left]|]. split; [exact Hw|]. apply (Hb (cid_of "b", "b")). do 2 right. by left.
Defined.

Lemma dagImport_under_lock_witness :
  let run := dagImport (env offline no_index) 5 true true [Some car] None bare in
  run.1.1 = None ∧ ∃ evs, dlog run.2 = DLock :: evs ++ [DUnlock] ∧ Forall (λ ev, ev ≠ DLock ∧ ev ≠ DUnlock) evs.
Proof.
  cbv zeta. set (run := dagImport _ _ _ _ _ _ _). assert (run.1.1 = None) as Hr by (vm_compute; reflexivity).
  split; [exact Hr|]. destruct run as [[e out] w'] eqn:Hrun. simpl in Hr. subst e.
  destruct (@dagImport_under_lock (env offline no_index) DagExample.children DagExample.children (laws offline no_index offline_ok)
    5 true true [Some car] None bare None out w' Hrun eq_refl) as (evs & late & Hl & Hf & _ & Hlate).
  exists evs. split; [|exact Hf]. rewrite (Hlate eq_refl) in Hl. exact Hl.
Defined.


Lemma dagPut_exact_witness :
  let run := dagPut (env offline no_index) codecs "dag-json" "dag-cbor" "sha2-256" true [Some "x"; Some "y"] None bare in
  run.1 = (None, [cid_of "x"; cid_of "y"]) ∧ is_Some (store run.2 !! cid_of "y") ∧ cid_of "y" ∈ rpins run.2.
Proof.
  cbv zeta. set (run := dagPut _ _ _ _ _ _ _ _ _). assert (run.1 = (None, [cid_of "x"; cid_of "y"])) as Hr by (vm_compute; reflexivity).
  split; [exact Hr|]. destruct run as [[e out] w'] eqn:Hrun. simpl in Hr. injection Hr as -> ->.
  destruct (dagPut_exact (env offline no_index) codecs ltac:(by intros n gs x) "dag-json" "dag-cbor" "sha2-256" true
    [Some "x"; Some "y"] None bare _ w' Hrun) as (bs & ic & sc & mh & dec & enc & _ & _ & _ & _ & _ & _ & _ & Hall).
  destruct (Hall (cid_of "y")) as [Hs Hp]; [right; by left|]. split; [exact Hs|by apply Hp].
Defined.
End dag_witnesses.
