(* ===== verification/Swarm.v ===== *)
(** * Swarm commands (core/commands/swarm.go, core/coreapi/swarm.go)

    Parsing and resolving peer addresses, connecting and disconnecting, listing
    connections and addresses, the address filters with their configuration entry,
    and the commands over the peering service of [Peering].  A multiaddr is its list
    of components; the peer library (src/vendor/github.com/libp2p/go-libp2p-core/peer)
    and the filter set (src/vendor/github.com/multiformats/go-multiaddr/filter.go)
    are modelled on these lists ([Bootstrap] leaves multiaddrs abstract), DNS
    resolution and the host are parameters. *)

From Stdlib Require Import ZArith Ascii String.
From stdpp Require Import base gmap sets list strings pretty sorting.
From S2P Require Import Prelude GoStrings Peering.

(** A component: its protocol, by name, and its value *)
Definition Component : Type := string * string.
(** ma.Multiaddr; the empty list is nil. *)
Definition Multiaddr : Type := list Component.

Definition P_P2P : string := "p2p".

Record AddrInfo := mkAddrInfo { ID : string; Addrs : list Multiaddr }.

(** net.IPNet, by its String, and the action of a filter *)
Inductive Action := ActionNone | ActionAccept | ActionDeny.
#[export] Instance Action_eq_dec : EqDecision Action. Proof. solve_decision. Defined.

Record filterEntry := mkFilter { ipnet : string; action : Action }.

Inductive Direction := DirUnknown | DirInbound | DirOutbound.
#[export] Instance Direction_eq_dec : EqDecision Direction. Proof. solve_decision. Defined.

(** A connection of the host *)
Record Conn := mkConn { RemotePeer : string; RemoteMultiaddr : Multiaddr; connDir : Direction; connStreams : list string }.

(** What the command prints of one *)
Record connInfo := mkConnInfo { ciAddr : string; ciPeer : string; ciLatency : string; ciDirection : Direction; ciStreams : list string }.

(** The online part of the node: connections, dial back-offs, the tags of the
    connection manager, the filters, the peering service; and Swarm.AddrFilters in the
    open repository and on disk. *)
Record SwarmW := mkSwarmW {
  conns : list Conn;
  backoffs : gset string;
  tags : gmap string Z;
  filters : list filterEntry;
  peering : PeeringService;
  cfgFilters : list string;
  diskFilters : list string;
}.

Record SwarmEnv := mkSwarmEnv {
  NewMultiaddr : string → res string Multiaddr;
  maddr_String : Multiaddr → string;
  (** DNS resolution, and the order in which the answers and errors of several arrive *)
  Resolve : Multiaddr → res string (list Multiaddr);
  arrive : list Multiaddr → list Multiaddr;
  arrive_err : list string → list string;
  (** The order in which Go ranges over the map of peers *)
  range_peers : list string → list string;
  (** The host *)
  online : bool;
  host_Connect : AddrInfo → list Conn → res string (list Conn);
  ClosePeer_err : string → option string;
  Close_err : Conn → option string;
  latency : string → Z;
  Duration_String : Z → string;
  known : list (string * list Multiaddr);
  hostAddrs : list Multiaddr;
  listenAddrs : res string (list Multiaddr);
  self : res string string;
  Pretty : string → string;
  peer_Decode : string → res string string;
  NewComponent_err : string → option string;
  (** sort.Sort by a string key *)
  sort_by : ∀ A : Type, (A → string) → list A → list A;
  (** mamask.NewMask and ConvertIPNet *)
  NewMask : string → res string string;
  ConvertIPNet : string → res string string;
  (** fsrepo.Open with Config, and SetConfig *)
  Open_err : option string;
  SetConfig_err : option string;
  emit_err : nat → option string;
}.

Definition ErrOffline : string := "this action must be run in online mode, try running 'ipfs daemon' first".
Definition ErrNotOnline : string := "this command must be run in online mode. Try running 'ipfs daemon' first".
Definition ErrInvalidAddr : string := "invalid p2p multiaddr".
Definition ErrNotConnected : string := "not connected".
Definition ErrConnNotFound : string := "conn not found".

(** ** Multiaddrs and address infos *)

(** ma.SplitLast *)
Definition SplitLast (m : Multiaddr) : Multiaddr * option Component :=
  match last m with
  | None => ([], None)
  | Some c => (take (pred (length m)) m, Some c)
  end.

Definition ends_p2p (m : Multiaddr) : bool :=
  match (SplitLast m).2 with Some c => bool_decide (c.1 = P_P2P) | None => false end.

(** peer.SplitAddr: the transport and the peer, empty without a final /p2p part *)
Definition SplitAddr (m : Multiaddr) : Multiaddr * string :=
  match SplitLast m with
  | (transport, Some (proto, id)) => if decide (proto = P_P2P) then (transport, id) else (m, "")
  | (_, None) => (m, "")
  end.

(** The map of AddrInfosFromP2pAddrs, as an association list in the order of first insertion *)
Fixpoint add_addr (id : string) (transport : Multiaddr) (l : list AddrInfo) : list AddrInfo :=
  match l with
  | [] => [mkAddrInfo id (match transport with [] => [] | _ => [transport] end)]
  | ai :: l' =>
      if decide (ID ai = id) then mkAddrInfo id (Addrs ai ++ match transport with [] => [] | _ => [transport] end) :: l'
      else ai :: add_addr id transport l'
  end.

Fixpoint collect_addrs (maddrs : list Multiaddr) (m : list AddrInfo) : res string (list AddrInfo) :=
  match maddrs with
  | [] => Ok m
  | a :: maddrs' =>
      let '(transport, id) := SplitAddr a in
      if decide (id = "") then Err ErrInvalidAddr else collect_addrs maddrs' (add_addr id transport m)
  end.

Section swarm.
Context (E : SwarmEnv).
Abbreviation A := (M SwarmW string).

(** peer.AddrInfosFromP2pAddrs *)
Definition AddrInfosFromP2pAddrs (maddrs : list Multiaddr) : res string (list AddrInfo) :=
  m ← collect_addrs maddrs [];
  Ok (omap (λ id, list_find (λ ai, ID ai = id) m ≫= λ p, Some p.2) (range_peers E (ID <$> m))).

(** peer.AddrInfoToP2pAddrs *)
Definition AddrInfoToP2pAddrs (pi : AddrInfo) : res string (list Multiaddr) :=
  match NewComponent_err E (ID pi) with
  | Some e => Err e
  | None =>
      let p2ppart := (P_P2P, ID pi) in
      Ok (match Addrs pi with [] => [[p2ppart]] | l => (λ a, a ++ [p2ppart]) <$> l end)
  end.

(** One goroutine of resolveAddresses: the addresses it sends, or its error *)
Definition resolve_one (maddr : Multiaddr) : list Multiaddr * option string :=
  match Resolve E maddr with
  | Err e => ([], Some e)
  | Ok raddrs =>
      let found := filter (λ r, ends_p2p r = true) raddrs in
      (found, match found with [] => Some ("found no ipfs peers at " +:+ maddr_String E maddr) | _ => None end)
  end.

(** The loop over the arguments: the addresses that need no resolution and the
    goroutines started, up to the first that does not parse *)
Fixpoint start_resolvers (addrs : list string) (maddrs : list Multiaddr) (started : list Multiaddr)
    : res string (list Multiaddr) * list Multiaddr :=
  match addrs with
  | [] => (Ok maddrs, started)
  | addr :: addrs' =>
      match NewMultiaddr E addr with
      | Err e => (Err e, started)
      | Ok maddr =>
          if ends_p2p maddr then start_resolvers addrs' (maddrs ++ [maddr]) started
          else start_resolvers addrs' maddrs (started ++ [maddr])
      end
  end.

(** resolveAddresses, with the number of goroutines it leaves blocked on a channel
    nobody reads *)
Definition resolveAddresses (addrs : list string) : res string (list Multiaddr) * nat :=
  match start_resolvers addrs [] [] with
  | (Err e, started) => (Err e, length (filter (λ m, (resolve_one m).1 ≠ []) started))
  | (Ok maddrs, started) =>
      let maddrs := maddrs ++ arrive E (concat ((λ m, (resolve_one m).1) <$> started)) in
      (match arrive_err E (omap (λ m, (resolve_one m).2) started) with
       | e :: _ => Err e
       | [] => Ok maddrs
       end, 0)
  end.

Definition parseAddresses (addrs : list string) : res string (list AddrInfo) :=
  maddrs ← (resolveAddresses addrs).1; AddrInfosFromP2pAddrs maddrs.

(** ** SwarmAPI *)

Definition set_conns (cs : list Conn) (w : SwarmW) : SwarmW :=
  mkSwarmW cs (backoffs w) (tags w) (filters w) (peering w) (cfgFilters w) (diskFilters w).

Definition connectionManagerTag : string := "user-connect".
Definition connectionManagerWeight : Z := 100.

(** SwarmAPI.Connect *)
Definition Connect (pi : AddrInfo) : A unit := λ w,
  if online E then
    let w := mkSwarmW (conns w) (backoffs w ∖ {[ID pi]}) (tags w) (filters w) (peering w) (cfgFilters w) (diskFilters w) in
    match host_Connect E pi (conns w) with
    | Err e => (Err e, w)
    | Ok cs => (Ok (), mkSwarmW cs (backoffs w) (<[ID pi := connectionManagerWeight]> (tags w)) (filters w) (peering w) (cfgFilters w) (diskFilters w))
    end
  else (Err ErrOffline, w).

(** SwarmAPI.Disconnect *)
Definition Disconnect (addr : Multiaddr) : A unit := λ w,
  if online E then
    let '(taddr, id) := SplitAddr addr in
    if decide (id = "") then (Err ErrInvalidAddr, w) else
    if decide (taddr = []) then
      if decide (Exists (λ c, RemotePeer c = id) (conns w)) then
        match ClosePeer_err E id with
        | Some e => (Err e, w)
        | None => (Ok (), set_conns (filter (λ c, RemotePeer c ≠ id) (conns w)) w)
        end
      else (Err ErrNotConnected, w)
    else
      match list_find (λ c, RemotePeer c = id ∧ RemoteMultiaddr c = taddr) (conns w) with
      | None => (Err ErrConnNotFound, w)
      | Some (i, c) =>
          match Close_err E c with
          | Some e => (Err e, w)
          | None => (Ok (), set_conns (delete i (conns w)) w)
          end
      end
  else (Err ErrOffline, w).

Definition when_online {R} (r : R) : A R := λ w, (if online E then Ok r else Err ErrOffline, w).

(** SwarmAPI.KnownAddrs, LocalAddrs, ListenAddrs and Peers *)
Definition KnownAddrs : A (list (string * list Multiaddr)) :=
  when_online ((λ p, (p.1, sort_by E Multiaddr (maddr_String E) p.2)) <$> known E).
Definition LocalAddrs : A (list Multiaddr) := when_online (hostAddrs E).
Definition ListenAddrs : A (list Multiaddr) := _ ← when_online (); mlift (listenAddrs E).
Definition Peers : A (list Conn) := w ← mget; when_online (conns w).

(** ** The commands *)

Fixpoint connect_all (pis : list AddrInfo) (output : list string) : A (list string) :=
  match pis with
  | [] => mret output
  | pi :: pis' => λ w,
      let msg := "connect " +:+ Pretty E (ID pi) in
      match Connect pi w with
      | (Err e, w') => (Err (msg +:+ " failure: " +:+ e), w')
      | (Ok _, w') => connect_all pis' (output ++ [msg +:+ " success"]) w'
      end
  end.

(** swarmConnectCmd.Run *)
Definition swarmConnectCmd (addrs : list string) : A (list string) :=
  pis ← mlift (parseAddresses addrs); connect_all pis [].

Definition disconnect_one (id : string) (addr : Multiaddr) : M SwarmW string string := λ w,
  let msg := "disconnect " +:+ Pretty E id in
  match Disconnect addr w with
  | (Err e, w') => (Ok (msg +:+ " failure: " +:+ e), w')
  | (Ok _, w') => (Ok (msg +:+ " success"), w')
  end.

Fixpoint disconnect_addrs (id : string) (addrs : list Multiaddr) : A (list string) :=
  match addrs with
  | [] => mret []
  | a :: addrs' => m ← disconnect_one id a; ms ← disconnect_addrs id addrs'; mret (m :: ms)
  end.

Fixpoint disconnect_all (pis : list AddrInfo) : A (list string) :=
  match pis with
  | [] => mret []
  | pi :: pis' =>
      maddrs ← mlift (AddrInfoToP2pAddrs pi);
      ms ← disconnect_addrs (ID pi) maddrs;
      ms' ← disconnect_all pis';
      mret (ms ++ ms')
  end.

(** swarmDisconnectCmd.Run *)
Definition swarmDisconnectCmd (addrs : list string) : A (list string) :=
  pis ← mlift (parseAddresses addrs); disconnect_all pis.

(** The body of the loop of swarmPeersCmd.Run *)
Definition conn_info (verbose lat streams direction : bool) (c : Conn) : connInfo :=
  mkConnInfo (maddr_String E (RemoteMultiaddr c)) (Pretty E (RemotePeer c))
    (if verbose || lat then
       if decide (latency E (RemotePeer c) = 0%Z) then "n/a" else Duration_String E (latency E (RemotePeer c))
     else "")
    (if verbose || direction then connDir c else DirUnknown)
    (sort_by E string (λ s, s) (if verbose || streams then connStreams c else [])).

(** swarmPeersCmd.Run *)
Definition swarmPeersCmd (verbose lat streams direction : bool) : A (list connInfo) :=
  cs ← Peers; mret (sort_by E connInfo ciAddr (conn_info verbose lat streams direction <$> cs)).

Definition directionString (d : Direction) : string :=
  match d with DirInbound => "inbound" | DirOutbound => "outbound" | DirUnknown => "" end.

(** Its text encoder, line by line *)
Definition peer_lines (info : connInfo) : list string :=
  (ciAddr info +:+ "/" +:+ "p2p" +:+ "/" +:+ ciPeer info +:+
     (if decide (ciLatency info ≠ "") then " " +:+ ciLatency info else "") +:+
     (if decide (ciDirection info ≠ DirUnknown) then " " +:+ directionString (ciDirection info) else "")) ::
  ((λ s, "  " +:+ (if decide (s = "") then "<no protocol name>" else s)) <$> ciStreams info).

Definition swarmPeers_text (l : list connInfo) : list string := concat (peer_lines <$> l).

(** swarmAddrsCmd.Run *)
Definition swarmAddrsCmd : A (gmap string (list string)) :=
  addrs ← KnownAddrs;
  mret (foldl (λ out p, foldl (λ out a, <[Pretty E p.1 := default [] (out !! Pretty E p.1) ++ [maddr_String E a]]> out) out p.2) ∅ addrs).

(** swarmAddrsLocalCmd.Run and swarmAddrsListenCmd.Run *)
Definition swarmAddrsLocalCmd (showid : bool) : A (list string) :=
  id ← mlift (self E);
  maddrs ← LocalAddrs;
  mret (sort_by E string (λ s, s)
    ((λ a, if showid then maddr_String E a +:+ "/" +:+ P_P2P +:+ "/" +:+ Pretty E id else maddr_String E a) <$> maddrs)).

Definition swarmAddrsListenCmd : A (list string) :=
  maddrs ← ListenAddrs; mret (sort_by E string (λ s, s) (maddr_String E <$> maddrs)).

(** ** Filters *)

(** Filters.AddFilter, RemoveLiteral and FiltersForAction *)
Fixpoint AddFilter (n : string) (a : Action) (fs : list filterEntry) : list filterEntry :=
  match fs with
  | [] => [mkFilter n a]
  | f :: fs' => if decide (ipnet f = n) then mkFilter n a :: fs' else f :: AddFilter n a fs'
  end.

Fixpoint RemoveLiteral (n : string) (fs : list filterEntry) : list filterEntry :=
  match fs with
  | [] => []
  | f :: fs' => if decide (ipnet f = n) then fs' else f :: RemoveLiteral n fs'
  end.

Definition FiltersForAction (a : Action) (fs : list filterEntry) : list string := ipnet <$> filter (λ f, action f = a) fs.

Definition set_filters (fs : list filterEntry) (w : SwarmW) : SwarmW :=
  mkSwarmW (conns w) (backoffs w) (tags w) fs (peering w) (cfgFilters w) (diskFilters w).

(** [cfg.Swarm.AddrFilters = l] and [r.SetConfig(cfg)]: the open configuration has
    changed even when it cannot be written. *)
Definition save_filters (l : list string) : A unit := λ w,
  match SetConfig_err E with
  | Some e => (Err e, mkSwarmW (conns w) (backoffs w) (tags w) (filters w) (peering w) l (diskFilters w))
  | None => (Ok (), mkSwarmW (conns w) (backoffs w) (tags w) (filters w) (peering w) l l)
  end.

(** The first loop of filtersAdd, with the list added *)
Fixpoint add_new (addedMap : gset string) (fs : list string) : list string * gset string :=
  match fs with
  | [] => ([], addedMap)
  | f :: fs' =>
      if decide (f ∈ addedMap) then add_new addedMap fs'
      else let '(l, m) := add_new ({[f]} ∪ addedMap) fs' in (f :: l, m)
  end.

Definition filtersAdd (fs : list string) : A (list string) :=
  w ← mget;
  let '(added, addedMap) := add_new ∅ fs in
  let '(kept, _) := add_new addedMap (cfgFilters w) in
  _ ← save_filters (added ++ kept); mret added.

Definition filtersRemoveAll : A (list string) :=
  w ← mget; _ ← save_filters []; mret (cfgFilters w).

Definition filtersRemove (toRemove : list string) : A (list string) :=
  w ← mget;
  _ ← save_filters (filter (λ f, f ∉ toRemove) (cfgFilters w));
  mret (filter (λ f, f ∈ toRemove) (cfgFilters w)).

(** swarmFiltersCmd.Run *)
Definition swarmFiltersCmd : A (list string) := λ w,
  if online E then (mapM (ConvertIPNet E) (FiltersForAction ActionDeny (filters w)), w) else (Err ErrNotOnline, w).

(** The loop over the masks *)
Fixpoint each_mask (args : list string) (f : string → list filterEntry → list filterEntry) : A unit :=
  match args with
  | [] => mret ()
  | arg :: args' =>
      n ← mlift (NewMask E arg); _ ← mmodify (λ w, set_filters (f n (filters w)) w); each_mask args' f
  end.

Definition filters_guard : A unit := λ w,
  (if online E then match Open_err E with Some e => Err e | None => Ok () end else Err ErrNotOnline, w).

(** swarmFiltersAddCmd.Run and swarmFiltersRmCmd.Run *)
Definition swarmFiltersAddCmd (args : list string) : A (list string) :=
  if decide (args = []) then (if online E then mthrow "no filters to add" else mthrow ErrNotOnline) else
  _ ← filters_guard; _ ← each_mask args (λ n, AddFilter n ActionDeny); filtersAdd args.

Definition swarmFiltersRmCmd (args : list string) : A (list string) :=
  _ ← filters_guard;
  if decide (head args = Some "all" ∨ head args = Some "*") then
    _ ← mmodify (λ w, set_filters (foldl (λ fs n, RemoveLiteral n fs) (filters w) (FiltersForAction ActionDeny (filters w))) w);
    filtersRemoveAll
  else _ ← each_mask args RemoveLiteral; filtersRemove args.

(** ** Peering *)

Definition set_peering (p : PeeringService) (w : SwarmW) : SwarmW :=
  mkSwarmW (conns w) (backoffs w) (tags w) (filters w) p (cfgFilters w) (diskFilters w).

Definition emit (n : nat) : A unit := mlift (match emit_err E n with Some e => Err e | None => Ok () end).

(** swarmPeeringAddCmd.Run and swarmPeeringRmCmd.Run, with what they emit; swarmPeeringLsCmd.Run *)
Fixpoint peering_add (infos : list AddrInfo) (out : list (string * string)) : A (list (string * string)) :=
  match infos with
  | [] => mret out
  | ai :: infos' =>
      _ ← mmodify (λ w, set_peering (AddPeer (ID ai) (maddr_String E <$> Addrs ai) (peering w)) w);
      _ ← emit (length out);
      peering_add infos' (out ++ [(ID ai, "success")])
  end.

Definition swarmPeeringAddCmd (args : list string) : A (list (string * string)) :=
  addrs ← mlift (mapM (NewMultiaddr E) args);
  infos ← mlift (AddrInfosFromP2pAddrs addrs);
  peering_add infos [].

Fixpoint peering_rm (args : list string) (out : list (string * string)) : A (list (string * string)) :=
  match args with
  | [] => mret out
  | arg :: args' =>
      id ← mlift (peer_Decode E arg);
      _ ← mmodify (λ w, set_peering (RemovePeer id (peering w)) w);
      _ ← emit (length out);
      peering_rm args' (out ++ [(id, "success")])
  end.

Definition swarmPeeringRmCmd (args : list string) : A (list (string * string)) := peering_rm args [].

Definition swarmPeeringLsCmd : A (list (string * list string)) :=
  w ← mget; mret (ListPeers (peering w)).

(** The text of a peering result, by add and by rm *)
Definition peeringResult_text (pr : string * string) : string := "add " +:+ pr.1 +:+ " " +:+ pr.2.

End swarm.

(** ** Laws of the parameters *)

Class SwarmLaws (E : SwarmEnv) : Prop := {
  arrive_ok : ∀ l, arrive E l ≡ₚ l;
  arrive_err_ok : ∀ l, arrive_err E l ≡ₚ l;
  range_peers_ok : ∀ l, range_peers E l ≡ₚ l;
  sort_perm : ∀ A (f : A → string) l, sort_by E A f l ≡ₚ l;
  sort_sorted : ∀ A (f : A → string) l, Sorted (λ a b, String.leb (f a) (f b) = true) (sort_by E A f l);
}.

(** ** Addresses *)

Lemma SplitLast_snoc m c : SplitLast (m ++ [c]) = (m, Some c).
Proof. unfold SplitLast. rewrite last_snoc, length_app. simpl. replace (pred (length m + 1)) with (length m) by lia. by rewrite take_app_length. Qed.

Lemma ends_p2p_snoc m : ends_p2p m = true → ∃ t id, m = t ++ [(P_P2P, id)].
Proof.
  destruct m as [|c m _] using rev_ind; [done|]. unfold ends_p2p. rewrite SplitLast_snoc. simpl.
  intros Hc%bool_decide_eq_true. exists m, c.2. by destruct c as [p v]; simpl in *; subst.
Qed.

Lemma SplitAddr_snoc t id : SplitAddr (t ++ [(P_P2P, id)]) = (t, id).
Proof. unfold SplitAddr. by rewrite SplitLast_snoc, decide_True. Qed.

Lemma SplitAddr_id m t id : SplitAddr m = (t, id) → id ≠ "" → m = t ++ [(P_P2P, id)].
Proof.
  destruct m as [|c m _] using rev_ind; [by intros [= <- <-]|]. unfold SplitAddr. rewrite SplitLast_snoc. destruct c as [p v].
  destruct (decide (p = P_P2P)) as [->|]; [by intros [= <- <-]|by intros [= <- <-]].
Qed.

(** The entry of a peer in the map being collected *)
Definition entry (l : list AddrInfo) (id : string) (ts : list Multiaddr) : Prop := mkAddrInfo id ts ∈ l.

Lemma add_addr_ids id t l : ID <$> add_addr id t l = if decide (id ∈ ID <$> l) then ID <$> l else (ID <$> l) ++ [id].
Proof.
  induction l as [|ai l IH]; simpl; [by destruct t|]. destruct (decide (ID ai = id)) as [<-|Hne].
  - rewrite decide_True by (by left). done.
  - rewrite fmap_cons, IH. destruct (decide (id ∈ ID <$> l)); [rewrite decide_True by (by right); done|].
    rewrite decide_False; [done|]. intros [->|?]%elem_of_cons; done.
Qed.

Lemma add_addr_NoDup id t l : NoDup (ID <$> l) → NoDup (ID <$> add_addr id t l).
Proof.
  intros Hn. rewrite add_addr_ids. case_decide; [done|]. apply NoDup_app. split; [done|]. split; [|apply NoDup_singleton].
  by intros x Hx ->%list_elem_of_singleton.
Qed.

(** Which transports the map has for which peer *)
Definition has_addr (l : list AddrInfo) (id : string) (t : Multiaddr) : Prop := ∃ ai, ai ∈ l ∧ ID ai = id ∧ t ∈ Addrs ai.

Lemma add_addr_has id t l id' t' : t' ≠ [] →
  has_addr (add_addr id t l) id' t' ↔ has_addr l id' t' ∨ (id' = id ∧ t' = t).
Proof.
  intros Ht'. assert (∀ s : list Multiaddr, t' ∈ s ++ match t with [] => [] | _ :: _ => [t] end ↔ t' ∈ s ∨ t' = t) as Hs.
  { intros s. rewrite elem_of_app. destruct t as [|c t]; [|by rewrite list_elem_of_singleton]. split; [intros [?|?%elem_of_nil]; by left|].
    intros [?|?]; [by left|done]. }
  induction l as [|ai l IH]; simpl.
  - split; [intros (ai & ->%list_elem_of_singleton & <- & Hin); right; split; [done|]; destruct (Hs []) as [Hs1 _]; destruct (Hs1 Hin) as [?%elem_of_nil|?]; done|].
    intros [(ai & ?%elem_of_nil & _)|[-> ->]]; [done|]. eexists. split; [by left|]. split; [done|]. apply (proj2 (Hs [])). by right.
  - destruct (decide (ID ai = id)) as [Hid|Hne].
    + split.
      * intros (ai' & [->|Hin]%elem_of_cons & Hi & Ht).
        -- simpl in Hi, Ht. apply Hs in Ht as [Ht| ->]; [left; exists ai; split; [by left|]; split; [congruence|done]|by right].
        -- left. exists ai'. split; [by right|done].
      * intros [(ai' & [->|Hin]%elem_of_cons & Hi & Ht)|[-> ->]].
        -- eexists. split; [by left|]. simpl. split; [congruence|]. apply Hs. by left.
        -- exists ai'. split; [by right|done].
        -- eexists. split; [by left|]. simpl. split; [done|]. apply Hs. by right.
    + split.
      * intros (ai' & [->|Hin]%elem_of_cons & Hi & Ht); [left; exists ai; split; [by left|done]|].
        destruct (proj1 IH) as [(a2 & ? & ? & ?)|?]; [by exists ai'|left; exists a2; split; [by right|done]|by right].
      * intros [(ai' & [->|Hin]%elem_of_cons & Hi & Ht)|Heq]; [exists ai; split; [by left|done]| |].
        -- destruct (proj2 IH) as (a2 & ? & ?); [left; by exists ai'|exists a2; split; [by right|done]].
        -- destruct (proj2 IH) as (a2 & ? & ?); [by right|exists a2; split; [by right|done]].
Qed.

Lemma collect_spec maddrs : ∀ l l', collect_addrs maddrs l = Ok l' → NoDup (ID <$> l) →
  NoDup (ID <$> l') ∧ (∀ id, id ∈ ID <$> l' ↔ id ∈ ID <$> l ∨ ∃ t, t ++ [(P_P2P, id)] ∈ maddrs) ∧
  (∀ id t, t ≠ [] → has_addr l' id t ↔ has_addr l id t ∨ t ++ [(P_P2P, id)] ∈ maddrs).
Proof.
  induction maddrs as [|a maddrs IH]; intros l l'; simpl.
  { intros [= <-] Hn. split; [done|]. split; [intros id|intros id t _]; (split; [by left|]); [intros [?|[? ?%elem_of_nil]]|intros [?|?%elem_of_nil]]; done. }
  destruct (SplitAddr a) as [t id] eqn:Ha. destruct (decide (id = "")) as [|Hid]; [done|]. apply SplitAddr_id in Ha as ->; [|done].
  intros Hrun Hn. destruct (IH _ _ Hrun (add_addr_NoDup _ _ _ Hn)) as (Hn' & Hids & Hhas). split; [done|]. split.
  - intros x. rewrite Hids, add_addr_ids. split.
    + intros [Hx|[tx Hx]]; [|right; exists tx; by right]. case_decide; [by left|].
      apply elem_of_app in Hx as [?| ->%list_elem_of_singleton]; [by left|]. right. exists t. by left.
    + intros [Hx|[tx [Hx|Hx]%elem_of_cons]].
      * left. case_decide; [done|]. apply elem_of_app. by left.
      * apply app_inj_tail in Hx as [_ [= ->]]. left. case_decide; [done|]. apply elem_of_app. right. by left.
      * right. by exists tx.
  - intros x tx Htx. rewrite Hhas, add_addr_has by done. rewrite elem_of_cons. split.
    + intros [[?|[-> ->]]|?]; [by left|right; by left|right; by right].
    + intros [?|[[-> [= ->]]%app_inj_tail|?]]; [left; by left|left; by right|by right].
Qed.

(** Looking every peer up in the map gives back its entries, in another order. *)
Lemma omap_ids l ids : NoDup (ID <$> l) → ids ≡ₚ ID <$> l →
  omap (λ id, list_find (λ ai, ID ai = id) l ≫= λ p, Some p.2) ids ≡ₚ l.
Proof.
  intros Hn ->. assert (∀ ai, ai ∈ l → list_find (λ a, ID a = ID ai) l ≫= (λ p, Some p.2) = Some ai) as Hf.
  { intros ai Hin. destruct (list_find_elem_of (λ a, ID a = ID ai) l ai Hin eq_refl) as [[i b] Hb]. rewrite Hb. simpl. f_equal.
    apply list_find_Some in Hb as (Hlook & Hid & _). apply list_elem_of_lookup in Hin as [j Hj].
    assert (i = j) as ->; [|congruence]. eapply NoDup_lookup; [exact Hn| |]; rewrite list_lookup_fmap; [by rewrite Hlook|by rewrite Hj, Hid]. }
  clear Hn. assert (∀ k, k ⊆ l → omap (λ id, list_find (λ ai, ID ai = id) l ≫= λ p, Some p.2) (ID <$> k) = k) as Hk.
  { induction k as [|ai k IH]; intros Hk; [done|]. rewrite fmap_cons. cbn [omap list_omap]. rewrite Hf by (apply Hk; by left).
    f_equal. apply IH. intros x Hx. apply Hk. by right. }
  by rewrite Hk.
Qed.

Section swarm_laws.
Context (E : SwarmEnv) `{L : !SwarmLaws E}.

Lemma AddrInfos_spec maddrs pis : AddrInfosFromP2pAddrs E maddrs = Ok pis →
  ∃ l, collect_addrs maddrs [] = Ok l ∧ pis ≡ₚ l ∧ NoDup (ID <$> pis) ∧
    (∀ id, id ∈ ID <$> pis ↔ ∃ t, t ++ [(P_P2P, id)] ∈ maddrs) ∧
    (∀ id t, t ≠ [] → has_addr pis id t ↔ t ++ [(P_P2P, id)] ∈ maddrs).
Proof.
  unfold AddrInfosFromP2pAddrs. destruct (collect_addrs maddrs []) as [l|] eqn:Hc; [|done]. simpl. intros [= <-].
  destruct (collect_spec _ _ _ Hc) as (Hn & Hids & Hhas); [constructor|].
  pose proof (omap_ids l _ Hn (range_peers_ok (ID <$> l))) as Hp. exists l. split; [done|]. split; [done|].
  split; [by rewrite Hp|]. split.
  - intros id. rewrite Hp, Hids. split; [intros [?%elem_of_nil|?]; done|by right].
  - intros id t Ht. unfold has_addr. setoid_rewrite Hp.
    specialize (Hhas id t Ht). unfold has_addr in Hhas. rewrite Hhas. split; [intros [(? & ?%elem_of_nil & _)|?]; done|by right].
Qed.

(** What the arguments name: those that end in a peer, and the peers found behind
    the others *)
Definition sources (addrs : list string) : list Multiaddr :=
  concat ((λ a, match NewMultiaddr E a with
                | Ok m => if ends_p2p m then [m] else (resolve_one E m).1
                | Err _ => []
                end) <$> addrs).

Lemma resolve_one_none m : (resolve_one E m).2 = None → ∃ r, r ∈ (resolve_one E m).1.
Proof.
  unfold resolve_one. destruct (Resolve E m); [|done]. simpl. destruct (filter _ _) as [|r l]; [done|]. exists r. by left.
Qed.

Lemma start_resolvers_spec addrs : ∀ maddrs started ms st, start_resolvers E addrs maddrs started = (Ok ms, st) →
  ∃ direct later, ms = maddrs ++ direct ∧ st = started ++ later ∧
    (∀ x, x ∈ sources addrs ↔ x ∈ direct ∨ x ∈ concat ((λ m, (resolve_one E m).1) <$> later)) ∧
    ∀ a, a ∈ addrs → ∃ m, NewMultiaddr E a = Ok m ∧ (if ends_p2p m then m ∈ direct else m ∈ later).
Proof.
  induction addrs as [|a addrs IH]; intros maddrs started ms st; simpl.
  { intros [= <- <-]. exists [], []. rewrite !app_nil_r. split_and!; [done|done| |by intros ? ?%elem_of_nil].
    intros x. unfold sources. simpl. split; [by left|by intros [?|?]]. }
  destruct (NewMultiaddr E a) as [m|e] eqn:Ha; [|done].
  assert (∀ x, x ∈ sources (a :: addrs) ↔ x ∈ (if ends_p2p m then [m] else (resolve_one E m).1) ∨ x ∈ sources addrs) as Hsrc.
  { intros x. unfold sources. simpl. by rewrite elem_of_app, Ha. }
  destruct (ends_p2p m) eqn:He; intros Hrun; destruct (IH _ _ _ _ Hrun) as (direct & later & -> & -> & Hx & Hall).
  - exists (m :: direct), later. rewrite <- (assoc_L (++)). split_and!; [done|done| |].
    + intros x. rewrite Hsrc, Hx, list_elem_of_singleton, elem_of_cons. tauto.
    + intros b [->|Hb]%elem_of_cons; [exists m; rewrite He; split; [done|by left]|].
      destruct (Hall b Hb) as (mb & Hmb & Hin). exists mb. split; [done|]. destruct (ends_p2p mb); [by right|done].
  - exists direct, (m :: later). rewrite <- (assoc_L (++)). split_and!; [done|done| |].
    + intros x. rewrite Hsrc, Hx. simpl. rewrite elem_of_app. tauto.
    + intros b [->|Hb]%elem_of_cons; [exists m; rewrite He; split; [done|by left]|].
      destruct (Hall b Hb) as (mb & Hmb & Hin). exists mb. split; [done|]. destruct (ends_p2p mb); [done|by right].
Qed.

(** The addresses that [swarm connect] and [swarm disconnect] work on: every argument
    parsed and named or resolved to some peer; the result has one entry per peer
    named, with exactly the transports named for it. *)
Theorem parseAddresses_exact addrs pis : parseAddresses E addrs = Ok pis →
  NoDup (ID <$> pis) ∧ (∀ id, id ∈ ID <$> pis ↔ ∃ t, t ++ [(P_P2P, id)] ∈ sources addrs) ∧
  (∀ id t, t ≠ [] → has_addr pis id t ↔ t ++ [(P_P2P, id)] ∈ sources addrs) ∧
  (∀ a, a ∈ addrs → ∃ m id t, NewMultiaddr E a = Ok m ∧ t ++ [(P_P2P, id)] ∈ sources [a] ∧ id ∈ ID <$> pis).
Proof.
  unfold parseAddresses, resolveAddresses. destruct (start_resolvers E addrs [] []) as [[ms|e] st] eqn:Hs; [|done]. simpl.
  destruct (start_resolvers_spec _ _ _ _ _ Hs) as (direct & later & -> & -> & Hsrc & Hall). simpl.
  destruct (arrive_err E _) as [|e es] eqn:He; [|done]. simpl. intros (l & _ & _ & Hn & Hids & Hhas)%AddrInfos_spec.
  assert (∀ m, m ∈ later → (resolve_one E m).2 = None) as Hnone.
  { intros m Hm. pose proof (arrive_err_ok (omap (λ m, (resolve_one E m).2) later)) as Hp. rewrite He in Hp.
    apply Permutation_nil_l in Hp. destruct ((resolve_one E m).2) as [e|] eqn:Hr; [|done]. exfalso.
    assert (e ∈ omap (λ m, (resolve_one E m).2) later) as Hin by (apply list_elem_of_omap; by exists m). rewrite <- Hp in Hin. by apply elem_of_nil in Hin. }
  assert (∀ x, x ∈ direct ++ arrive E (concat ((λ m, (resolve_one E m).1) <$> later)) ↔ x ∈ sources addrs) as Heq.
  { intros x. rewrite elem_of_app, arrive_ok, Hsrc. done. }
  split; [done|]. split; [intros id; rewrite Hids; by setoid_rewrite Heq|].
  split; [intros id t Ht; by rewrite Hhas, Heq|]. intros a Ha. destruct (Hall a Ha) as (m & Hm & Hin).
  assert (∃ x, x ∈ sources [a] ∧ ends_p2p x = true) as (x & Hx & Hxp).
  { unfold sources. simpl. rewrite Hm, app_nil_r. destruct (ends_p2p m) eqn:Hep; [exists m; split; [by left|done]|].
    destruct (resolve_one_none m (Hnone m Hin)) as [r Hr]. exists r. split; [done|].
    revert Hr. unfold resolve_one. destruct (Resolve E m); simpl; [|by intros ?%elem_of_nil]. by intros [? _]%list_elem_of_filter. }
  destruct (ends_p2p_snoc _ Hxp) as (t & id & ->). exists m, id, t. split_and!; [done|done|].
  apply Hids. exists t. apply Heq. revert Hx. unfold sources. simpl. rewrite app_nil_r. intros Hx.
  apply list_elem_of_In, in_concat. eexists. split; [|by apply list_elem_of_In].
  apply list_elem_of_In, list_elem_of_fmap. exists a. by split.
Qed.

(** Converting peers to p2p addresses and back gives the same peers. *)
Lemma to_addrs_shape ai ms : AddrInfoToP2pAddrs E ai = Ok ms →
  ms = match Addrs ai with [] => [[(P_P2P, ID ai)]] | l => (λ a, a ++ [(P_P2P, ID ai)]) <$> l end.
Proof. unfold AddrInfoToP2pAddrs. destruct (NewComponent_err E (ID ai)); [done|]. by intros [= <-]. Qed.

(** ** Connections *)

(** One call of Disconnect with a transport closes exactly one connection, with
    that peer at that address; without one, every connection of the peer; an error
    closes none. *)
Theorem Disconnect_exact addr w r w' : Disconnect E addr w = (r, w') →
  match r with
  | Err e => w' = w
  | Ok _ => ∃ t id, SplitAddr addr = (t, id) ∧ id ≠ "" ∧ online E = true ∧
      (if decide (t = []) then conns w' = filter (λ c, RemotePeer c ≠ id) (conns w) ∧ conns w' ≠ conns w
       else ∃ l1 c l2, conns w = l1 ++ c :: l2 ∧ RemotePeer c = id ∧ RemoteMultiaddr c = t ∧ conns w' = l1 ++ l2)
  end.
Proof.
  unfold Disconnect. destruct (online E); [|by intros [= <- <-]]. destruct (SplitAddr addr) as [t id] eqn:Ha.
  destruct (decide (id = "")) as [|Hid]; [by intros [= <- <-]|]. destruct (decide (t = [])) as [Ht|Ht].
  - destruct (decide (Exists _ (conns w))) as [Hex|]; [|by intros [= <- <-]]. destruct (ClosePeer_err E id); [by intros [= <- <-]|].
    intros [= <- <-]. exists t, id. split_and!; [done..|]. rewrite decide_True by done. simpl. split; [done|]. intros Heq.
    apply Exists_exists in Hex as (c & Hc & Hcid). rewrite <- Heq in Hc. by apply list_elem_of_filter in Hc as [? _].
  - destruct (list_find _ (conns w)) as [[i c]|] eqn:Hf; [|by intros [= <- <-]]. destruct (Close_err E c); [by intros [= <- <-]|].
    intros [= <- <-]. exists t, id. split_and!; [done..|]. rewrite decide_False by done. simpl.
    apply list_find_Some in Hf as (Hi & [Hp Hm] & _). exists (take i (conns w)), c, (drop (S i) (conns w)).
    split_and!; [by rewrite take_drop_middle|done|done|]. by rewrite delete_take_drop.
Qed.

(** [swarm connect] reports success only when every peer was dialled, and then each is
    tagged for the connection manager and off the dial back-off list; it stops at
    the first failure, naming the peer. *)
Lemma connect_all_spec pis : ∀ output w r w', connect_all E pis output w = (r, w') →
  match r with
  | Ok out => out = output ++ ((λ pi, ("connect " +:+ Pretty E (ID pi)) +:+ " success") <$> pis) ∧
      (∀ pi, pi ∈ pis → tags w' !! ID pi = Some connectionManagerWeight ∧ ID pi ∉ backoffs w' ∧ online E = true)
  | Err msg => ∃ done pi rest e, pis = done ++ pi :: rest ∧ msg = ("connect " +:+ Pretty E (ID pi)) +:+ " failure: " +:+ e ∧
      (∀ p, p ∈ done → tags w' !! ID p = Some connectionManagerWeight)
  end ∧ (∀ p v, tags w !! p = Some v → v = connectionManagerWeight → tags w' !! p = Some v) ∧ backoffs w' ⊆ backoffs w.
Proof.
  induction pis as [|pi pis IH]; intros output w r w'; cbn [connect_all].
  { intros [= <- <-]. rewrite app_nil_r. split_and!; [done|by intros ? ?%elem_of_nil|done|done]. }
  unfold Connect. destruct (online E) eqn:Hon.
  2: { intros [= <- <-]. split_and!; [|done|done]. exists [], pi, pis, ErrOffline. by split_and!; [..|intros ? ?%elem_of_nil]. }
  destruct (host_Connect E pi _) as [cs|e]; intros Hrun.
  2: { injection Hrun as <- <-. split_and!; [|done|simpl; set_solver]. exists [], pi, pis, e. by split_and!; [..|intros ? ?%elem_of_nil]. }
  apply IH in Hrun as (Hr & Ht & Hb). simpl in Ht, Hb.
  assert (tags w' !! ID pi = Some connectionManagerWeight) as Hpi by (apply Ht; [by rewrite lookup_insert_eq|done]).
  split_and!.
  - destruct r as [out|msg].
    + destruct Hr as [-> Hall]. rewrite fmap_cons, <- (assoc_L (++)). split; [done|].
      intros p [->|Hp]%elem_of_cons; [|by apply Hall]. split_and!; [done|set_solver|done].
    + destruct Hr as (dn & q & rest & e & -> & -> & Hdn). exists (pi :: dn), q, rest, e. split_and!; [done..|].
      intros p [->|Hp]%elem_of_cons; [done|by apply Hdn].
  - intros p v Hp Hv. apply Ht; [|done]. destruct (decide (ID pi = p)) as [<-|Hne]; [rewrite lookup_insert_eq; by subst|by rewrite lookup_insert_ne].
  - etrans; [exact Hb|]. set_solver.
Qed.

Lemma add_addr_last id t ts l : id ∉ ID <$> l → t ≠ [] → add_addr id t (l ++ [mkAddrInfo id ts]) = l ++ [mkAddrInfo id (ts ++ [t])].
Proof.
  intros Hl Ht. induction l as [|ai l IH]; simpl.
  - rewrite decide_True by done. by destruct t.
  - rewrite decide_False by (intros <-; apply Hl; by left). f_equal. apply IH. intros Hin. apply Hl. by right.
Qed.

Lemma add_addr_new id t l : id ∉ ID <$> l → add_addr id t l = l ++ [mkAddrInfo id (match t with [] => [] | _ => [t] end)].
Proof.
  intros Hl. induction l as [|ai l IH]; simpl; [done|]. rewrite decide_False by (intros <-; apply Hl; by left). f_equal.
  apply IH. intros Hin. apply Hl. by right.
Qed.

Lemma collect_more id ts : ∀ ts0 l rest, id ∉ ID <$> l → id ≠ "" → Forall (λ t, t ≠ []) ts →
  collect_addrs (((λ a, a ++ [(P_P2P, id)]) <$> ts) ++ rest) (l ++ [mkAddrInfo id ts0]) = collect_addrs rest (l ++ [mkAddrInfo id (ts0 ++ ts)]).
Proof.
  induction ts as [|t ts IH]; intros ts0 l rest Hl Hid Hts; [by rewrite app_nil_r|]. apply Forall_cons in Hts as [Ht Hts].
  rewrite fmap_cons. cbn [app collect_addrs]. rewrite SplitAddr_snoc. rewrite decide_False by done.
  rewrite add_addr_last by done. rewrite IH by done. by rewrite <- (assoc_L (++)).
Qed.

Lemma collect_info ai ms l rest : AddrInfoToP2pAddrs E ai = Ok ms → ID ai ∉ ID <$> l → ID ai ≠ "" → Forall (λ t, t ≠ []) (Addrs ai) →
  collect_addrs (ms ++ rest) l = collect_addrs rest (l ++ [ai]).
Proof.
  intros ->%to_addrs_shape Hl Hid Ht. destruct ai as [id ts]. cbn [ID Addrs] in *. destruct ts as [|t ts].
  - cbn [app collect_addrs]. pose proof (SplitAddr_snoc [] id) as Hs. simpl in Hs. rewrite Hs, decide_False by done. by rewrite add_addr_new.
  - apply Forall_cons in Ht as [Ht Hts]. rewrite fmap_cons. cbn [app collect_addrs]. rewrite SplitAddr_snoc, decide_False by done.
    rewrite add_addr_new by done. destruct t; [done|]. by rewrite collect_more.
Qed.

Lemma collect_infos infos : ∀ mss l, mapM (AddrInfoToP2pAddrs E) infos = Ok mss → NoDup (ID <$> l ++ infos) →
  Forall (λ ai, ID ai ≠ "" ∧ Forall (λ t, t ≠ []) (Addrs ai)) infos → collect_addrs (concat mss) l = Ok (l ++ infos).
Proof.
  induction infos as [|ai infos IH]; intros mss l; cbn [mapM].
  { intros [= <-] _ _. by rewrite app_nil_r. }
  destruct (AddrInfoToP2pAddrs E ai) as [ms|] eqn:Hms; [|done]. cbn. destruct (mapM _ infos) as [mss'|] eqn:Hm; [|done]. cbn.
  intros [= <-] Hn Hall. apply Forall_cons in Hall as [[Hid Ht] Hall]. cbn [concat].
  rewrite fmap_app, fmap_cons in Hn. apply NoDup_app in Hn as (Hnl & Hdis & Hni).
  rewrite (collect_info ai ms) by (first [done|intros Hin; apply (Hdis _ Hin); by left]).
  rewrite (IH mss'), <- (assoc_L (++)); [done|done| |done].
  rewrite <- (assoc_L (++)), fmap_app. by apply NoDup_app.
Qed.

(** Peers written out as p2p addresses, as [swarm disconnect] does, are read back as
    the same peers with the same transports in the same order. *)
Theorem addrinfo_roundtrip infos mss : mapM (AddrInfoToP2pAddrs E) infos = Ok mss → NoDup (ID <$> infos) →
  Forall (λ ai, ID ai ≠ "" ∧ Forall (λ t, t ≠ []) (Addrs ai)) infos →
  ∃ pis, AddrInfosFromP2pAddrs E (concat mss) = Ok pis ∧ pis ≡ₚ infos.
Proof.
  intros Hm Hn Hall. pose proof (collect_infos infos mss [] Hm Hn Hall) as Hc. simpl in Hc.
  unfold AddrInfosFromP2pAddrs. rewrite Hc. eexists. split; [done|]. apply omap_ids; [done|apply range_peers_ok].
Qed.

(** ** Listing *)

(** [swarm peers] prints one line per connection, in the order of the addresses, with
    the extra columns that were asked for and the protocols sorted. *)
Theorem swarmPeersCmd_exact verbose lat streams direction w out w' : swarmPeersCmd E verbose lat streams direction w = (Ok out, w') →
  w' = w ∧ out ≡ₚ (conn_info E verbose lat streams direction <$> conns w) ∧
  Sorted (λ a b, String.leb (ciAddr a) (ciAddr b) = true) out ∧
  ∀ ci, ci ∈ out → Sorted (λ a b, String.leb a b = true) (ciStreams ci) ∧
    ∃ c, c ∈ conns w ∧ ciStreams ci ≡ₚ (if verbose || streams then connStreams c else []) ∧
      ciDirection ci = (if verbose || direction then connDir c else DirUnknown) ∧ (ciLatency ci = "" ∨ verbose || lat = true).
Proof.
  unfold swarmPeersCmd, Peers, when_online. rewrite bind_unfold. unfold mget. rewrite bind_unfold.
  destruct (online E); [|done]. rewrite ret_unfold. intros [= <- <-]. split; [done|]. split; [apply sort_perm|]. split; [apply sort_sorted|].
  intros ci. rewrite sort_perm. intros (c & -> & Hc)%list_elem_of_fmap. split; [apply sort_sorted|]. exists c. split; [done|].
  unfold conn_info. simpl. split; [apply sort_perm|]. split; [done|]. destruct (verbose || lat); [by right|by left].
Qed.

(** ** Filters *)

(** A filter set has one entry per network. *)
Definition filters_ok (fs : list filterEntry) : Prop := NoDup (ipnet <$> fs).

Lemma AddFilter_ids n a fs : ipnet <$> AddFilter n a fs = if decide (n ∈ ipnet <$> fs) then ipnet <$> fs else (ipnet <$> fs) ++ [n].
Proof.
  induction fs as [|f fs IH]; simpl; [done|]. destruct (decide (ipnet f = n)) as [<-|Hne].
  - rewrite decide_True by (by left). done.
  - rewrite fmap_cons, IH. destruct (decide (n ∈ ipnet <$> fs)); [rewrite decide_True by (by right); done|].
    rewrite decide_False; [done|]. intros [->|?]%elem_of_cons; done.
Qed.

Lemma AddFilter_ok n a fs : filters_ok fs → filters_ok (AddFilter n a fs).
Proof.
  unfold filters_ok. intros Hn. rewrite AddFilter_ids. case_decide; [done|]. apply NoDup_app. split; [done|].
  split; [|apply NoDup_singleton]. by intros x Hx ->%list_elem_of_singleton.
Qed.

Lemma AddFilter_elem n a fs f : filters_ok fs → f ∈ AddFilter n a fs ↔ f = mkFilter n a ∨ (f ∈ fs ∧ ipnet f ≠ n).
Proof.
  unfold filters_ok. induction fs as [|g fs IH]; intros Hn; cbn [AddFilter].
  - rewrite list_elem_of_singleton. split; [by left|]. intros [?|[?%elem_of_nil _]]; done.
  - rewrite fmap_cons, NoDup_cons in Hn. destruct Hn as [Hg Hn]. destruct (decide (ipnet g = n)) as [Heq|Hne].
    + rewrite elem_of_cons. split; [intros [->|Hf]; [by left|right]|intros [->|[[->|Hf]%elem_of_cons Hne]]; [by left|done|by right]].
      split; [by right|]. intros Hfn. apply Hg. apply list_elem_of_fmap. exists f. split; [congruence|done].
    + rewrite elem_of_cons, IH by done. rewrite elem_of_cons. split; [intros [->|[?|[? ?]]]; auto|].
      intros [?|[[->|?] ?]]; auto.
Qed.

Lemma RemoveLiteral_sublist n fs : RemoveLiteral n fs `sublist_of` fs.
Proof. induction fs as [|f fs IH]; simpl; [done|]. destruct (decide _); [by apply sublist_cons|by apply sublist_skip]. Qed.

Lemma fmap_sublist {X Y} (f : X → Y) l k : l `sublist_of` k → f <$> l `sublist_of` f <$> k.
Proof. induction 1; [done|by apply sublist_skip|by apply sublist_cons]. Qed.

Lemma RemoveLiteral_ok n fs : filters_ok fs → filters_ok (RemoveLiteral n fs).
Proof. intros Hn. eapply sublist_NoDup; [exact Hn|]. apply fmap_sublist, RemoveLiteral_sublist. Qed.

Lemma RemoveLiteral_elem n fs f : filters_ok fs → f ∈ RemoveLiteral n fs ↔ f ∈ fs ∧ ipnet f ≠ n.
Proof.
  unfold filters_ok. induction fs as [|g fs IH]; intros Hn; cbn [RemoveLiteral]; [split; [intros ?%elem_of_nil|intros [?%elem_of_nil _]]; done|].
  rewrite fmap_cons, NoDup_cons in Hn. destruct Hn as [Hg Hn]. destruct (decide (ipnet g = n)) as [Heq|Hne].
  - rewrite elem_of_cons. split; [intros Hf|intros [[->|Hf] Hne]; done]. split; [by right|]. intros Hfn. apply Hg.
    apply list_elem_of_fmap. exists f. split; [congruence|done].
  - rewrite !elem_of_cons, IH by done. split; [intros [->|[? ?]]; auto|]. intros [[->|?] ?]; auto.
Qed.

Lemma add_new_dedup fs : ∀ m, (add_new m fs).1 = dedup_from m fs ∧ (∀ x, x ∈ (add_new m fs).2 ↔ x ∈ m ∨ x ∈ fs).
Proof.
  induction fs as [|f fs IH]; intros m; simpl; [split; [done|]; intros x; split; [by left|by intros [?|?%elem_of_nil]]|].
  case_decide as Hf; [|destruct (add_new ({[f]} ∪ m) fs) as [l m'] eqn:Ha; destruct (IH ({[f]} ∪ m)) as [H1 H2]; rewrite Ha in H1, H2; simpl in *].
  - destruct (IH m) as [H1 H2]. split; [done|]. intros x. rewrite H2, elem_of_cons. naive_solver.
  - split; [by rewrite H1|]. intros x. rewrite H2, elem_of_union, elem_of_singleton, elem_of_cons. naive_solver.
Qed.

Lemma each_mask_spec f args : (∀ n fs, filters_ok fs → filters_ok (f n fs)) → ∀ w r w', each_mask E args f w = (r, w') →
  cfgFilters w' = cfgFilters w ∧ diskFilters w' = diskFilters w ∧ (filters_ok (filters w) → filters_ok (filters w')) ∧
  ∃ ns, Forall2 (λ a n, NewMask E a = Ok n) (take (length ns) args) ns ∧ filters w' = foldl (λ fs n, f n fs) (filters w) ns ∧
    (r = Ok () → length ns = length args).
Proof.
  intros Hf. induction args as [|arg args IH]; intros w r w'; cbn [each_mask].
  { intros [= <- <-]. split_and!; [done..|]. by exists []. }
  rewrite bind_unfold. unfold mlift. destruct (NewMask E arg) as [n|e] eqn:Hm.
  2: { intros [= <- <-]. split_and!; [done..|]. by exists []. }
  rewrite bind_unfold. unfold mmodify. intros Hrun. apply IH in Hrun as (Hc & Hd & Hok & ns & Hns & Hfs & Hlen).
  split_and!; [done|done|intros H0; by apply Hok, Hf|]. exists (n :: ns). split_and!; [by constructor|done|].
  intros Hr. simpl. by rewrite Hlen.
Qed.

Lemma filters_guard_ok w r w' : filters_guard E w = (r, w') → w' = w ∧ (r = Ok () → online E = true).
Proof. unfold filters_guard. intros [= <- <-]. split; [done|]. by destruct (online E). Qed.

(** [swarm filters add], when it succeeds, denies every network named and keeps the
    denials there were, and writes to the configuration the new filters in order
    followed by those it had, without repetitions. *)
Theorem swarmFiltersAddCmd_exact args w out w' : swarmFiltersAddCmd E args w = (Ok out, w') → filters_ok (filters w) →
  out = dedup_from ∅ args ∧ diskFilters w' = out ++ dedup_from (list_to_set args) (cfgFilters w) ∧ cfgFilters w' = diskFilters w' ∧
  NoDup (diskFilters w') ∧ filters_ok (filters w') ∧
  (∀ n, n ∈ FiltersForAction ActionDeny (filters w') ↔ n ∈ FiltersForAction ActionDeny (filters w) ∨ ∃ a, a ∈ args ∧ NewMask E a = Ok n).
Proof.
  unfold swarmFiltersAddCmd. destruct (decide (args = [])); [by destruct (online E)|]. rewrite bind_unfold.
  destruct (filters_guard E w) as [[[]|e] w0] eqn:Hg; [|done]. apply filters_guard_ok in Hg as [-> _]. rewrite bind_unfold.
  destruct (each_mask E args _ w) as [[[]|e] w1] eqn:He; [|done]. intros Hrun Hok.
  apply each_mask_spec in He as (Hc & _ & Hok1 & ns & Hns & Hfs & Hlen); [|intros; by apply AddFilter_ok].
  specialize (Hlen eq_refl). rewrite take_ge in Hns by lia.
  unfold filtersAdd in Hrun. rewrite bind_unfold in Hrun. unfold mget in Hrun.
  destruct (add_new_dedup args ∅) as [Ha Hm]. destruct (add_new ∅ args) as [added m]. simpl in Ha, Hm.
  destruct (add_new_dedup (cfgFilters w1) m) as [Hk _]. destruct (add_new m (cfgFilters w1)) as [kept m']. simpl in Hk.
  rewrite bind_unfold in Hrun. unfold save_filters in Hrun. destruct (SetConfig_err E); [done|]. injection Hrun as <- <-. simpl.
  assert (kept = dedup_from (list_to_set args) (cfgFilters w)) as ->.
  { rewrite Hk, Hc. apply dedup_from_ext. intros x. rewrite Hm, elem_of_list_to_set. set_solver. }
  split; [done|]. split; [done|]. split; [done|]. split.
  - apply NoDup_app. rewrite Ha. split; [apply NoDup_dedup_from|]. split; [|apply NoDup_dedup_from].
    intros x [Hx _]%elem_of_dedup_from [_ Hx2]%elem_of_dedup_from. apply Hx2. by apply elem_of_list_to_set.
  - split; [by apply Hok1|]. intros x. rewrite Hfs.
    assert (∀ fs, filters_ok fs → x ∈ FiltersForAction ActionDeny (foldl (λ fs n, AddFilter n ActionDeny fs) fs ns) ↔
      x ∈ FiltersForAction ActionDeny fs ∨ x ∈ ns) as Hdeny.
    { clear. unfold FiltersForAction. induction ns as [|k ns IH]; intros fs Hfs; simpl; [split; [by left|by intros [?|?%elem_of_nil]]|].
      rewrite IH by (by apply AddFilter_ok). rewrite elem_of_cons, !list_elem_of_fmap. setoid_rewrite list_elem_of_filter.
      setoid_rewrite AddFilter_elem; [|done]. split.
      - intros [(f & -> & Ha & [->|[Hf Hne]])|?]; [right; by left|left; by exists f|right; by right].
      - intros [(f & -> & Ha & Hf)|[->|?]]; [left|left|by right].
        + destruct (decide (ipnet f = k)) as [Heq|]; [exists (mkFilter k ActionDeny); split_and!; [done|done|by left]|exists f; split_and!; [done|done|by right]].
        + exists (mkFilter k ActionDeny). split_and!; [done|done|by left]. }
    rewrite Hdeny by done. assert (x ∈ ns ↔ ∃ a, a ∈ args ∧ NewMask E a = Ok x) as ->; [|done]. split.
    + intros [i Hi]%list_elem_of_lookup. destruct (Forall2_lookup_r _ _ _ _ _ Hns Hi) as (a & Ha' & Hn). exists a. split; [by eapply list_elem_of_lookup_2|done].
    + intros (a & [i Hi]%list_elem_of_lookup & Hn). destruct (Forall2_lookup_l _ _ _ _ _ Hns Hi) as (k & Hk' & Hn'). assert (k = x) as <- by congruence.
      by eapply list_elem_of_lookup_2.
Qed.

Lemma deny_remove ns x : ∀ fs, filters_ok fs → x ∈ FiltersForAction ActionDeny (foldl (λ fs n, RemoveLiteral n fs) fs ns) ↔
  x ∈ FiltersForAction ActionDeny fs ∧ x ∉ ns.
Proof.
  unfold FiltersForAction. induction ns as [|k ns IH]; intros fs Hfs; simpl; [split; [intros ?; split; [done|apply not_elem_of_nil]|by intros [? _]]|].
  rewrite IH by (by apply RemoveLiteral_ok). rewrite not_elem_of_cons, !list_elem_of_fmap. setoid_rewrite list_elem_of_filter.
  setoid_rewrite RemoveLiteral_elem; [|done]. split.
  - intros [(f & -> & Ha & Hf & Hne) Hns]. split; [by exists f|done].
  - intros [(f & -> & Ha & Hf) [Hne Hns]]. split; [|done]. by exists f.
Qed.

(** [swarm filters rm], when it succeeds, denies none of the networks named any more and
    drops the filters named, as strings, from the configuration, keeping the others
    in order; [all] and [*] drop everything. *)
Theorem swarmFiltersRmCmd_exact args w out w' : swarmFiltersRmCmd E args w = (Ok out, w') → filters_ok (filters w) →
  filters_ok (filters w') ∧ cfgFilters w' = diskFilters w' ∧
  if decide (head args = Some "all" ∨ head args = Some "*") then
    FiltersForAction ActionDeny (filters w') = [] ∧ diskFilters w' = [] ∧ out = cfgFilters w
  else
    out = filter (λ f, f ∈ args) (cfgFilters w) ∧ diskFilters w' = filter (λ f, f ∉ args) (cfgFilters w) ∧
    (∀ n, n ∈ FiltersForAction ActionDeny (filters w') ↔
       n ∈ FiltersForAction ActionDeny (filters w) ∧ ∀ a, a ∈ args → NewMask E a ≠ Ok n).
Proof.
  unfold swarmFiltersRmCmd. rewrite bind_unfold. destruct (filters_guard E w) as [[[]|e] w0] eqn:Hg; [|done].
  apply filters_guard_ok in Hg as [-> _]. destruct (decide _) as [Hall|Hall]; rewrite bind_unfold; intros Hrun Hok.
  - unfold mmodify in Hrun. unfold filtersRemoveAll in Hrun. rewrite bind_unfold in Hrun. unfold mget in Hrun. rewrite bind_unfold in Hrun.
    unfold save_filters in Hrun. destruct (SetConfig_err E); [done|]. injection Hrun as <- <-. simpl.
    assert (∀ ns fs, filters_ok fs → filters_ok (foldl (λ fs n, RemoveLiteral n fs) fs ns)) as Hk.
    { induction ns as [|n ns IH]; intros fs Hf; simpl; [done|]. by apply IH, RemoveLiteral_ok. }
    split; [by apply Hk|]. split; [done|]. split; [|done]. apply elem_of_nil_inv. intros x Hx%deny_remove; [|done]. by destruct Hx.
  - destruct (each_mask E args _ w) as [[[]|e] w1] eqn:He; [|done].
    apply each_mask_spec in He as (Hc & _ & Hok1 & ns & Hns & Hfs & Hlen); [|intros; by apply RemoveLiteral_ok].
    specialize (Hlen eq_refl). rewrite take_ge in Hns by lia. unfold filtersRemove in Hrun. rewrite bind_unfold in Hrun.
    unfold mget in Hrun. rewrite bind_unfold in Hrun. unfold save_filters in Hrun. destruct (SetConfig_err E); [done|].
    injection Hrun as <- <-. simpl. rewrite Hc. split; [by apply Hok1|]. do 3 (split; [done|]). intros x. rewrite Hfs, deny_remove by done.
    assert (x ∉ ns ↔ ∀ a, a ∈ args → NewMask E a ≠ Ok x) as ->; [|done]. split.
    + intros Hx a [i Hi]%list_elem_of_lookup Ha. destruct (Forall2_lookup_l _ _ _ _ _ Hns Hi) as (k & Hk & Hn). apply Hx.
      assert (k = x) as <- by congruence. by eapply list_elem_of_lookup_2.
    + intros Ha [i Hi]%list_elem_of_lookup. destruct (Forall2_lookup_r _ _ _ _ _ Hns Hi) as (a & Hia & Hn).
      apply (Ha a); [by eapply list_elem_of_lookup_2|done].
Qed.

(** ** Peering *)

Lemma AddPeer_peers id addrs s p : p ∈ dom (peers (AddPeer id addrs s)) ↔ p = id ∨ p ∈ dom (peers s).
Proof.
  unfold AddPeer. destruct (peers s !! id) as [h|] eqn:Hid.
  - assert (id ∈ dom (peers s)) as Hin by (by apply elem_of_dom). destruct (handlers s !! h); simpl; naive_solver.
  - simpl. rewrite dom_insert, elem_of_union, elem_of_singleton. done.
Qed.

Lemma RemovePeer_peers id s p : p ∈ dom (peers (RemovePeer id s)) ↔ p ≠ id ∧ p ∈ dom (peers s).
Proof.
  unfold RemovePeer. destruct (peers s !! id) as [h|] eqn:Hid; simpl.
  - rewrite dom_delete, elem_of_difference, elem_of_singleton. tauto.
  - assert (id ∉ dom (peers s)) as Hnin by (by apply not_elem_of_dom). split; [|by intros [_ ?]]. intros Hp. split; [by intros ->|done].
Qed.

Lemma peering_add_spec infos : ∀ out w r w', peering_add E infos out w = (r, w') → Inv (peering w) → live (peering w) →
  Inv (peering w') ∧ live (peering w') ∧ (∀ p, p ∈ dom (peers (peering w)) → p ∈ dom (peers (peering w'))) ∧
  ∀ o, r = Ok o → o = out ++ ((λ ai, (ID ai, "success")) <$> infos) ∧
    ∀ p, p ∈ dom (peers (peering w')) ↔ p ∈ dom (peers (peering w)) ∨ p ∈ ID <$> infos.
Proof.
  induction infos as [|ai infos IH]; intros out w r w'; cbn [peering_add].
  { intros [= <- <-] HI Hl. do 3 (split; [done|]). intros o [= <-]. rewrite app_nil_r. split; [done|]. intros p. split; [by left|by intros [?|?%elem_of_nil]]. }
  rewrite bind_unfold. unfold mmodify. rewrite bind_unfold. unfold emit, mlift. intros Hrun HI Hl.
  destruct (AddPeer_preserves (ID ai) (maddr_String E <$> Addrs ai) _ HI Hl) as [HI1 Hl1].
  set (w1 := set_peering (AddPeer (ID ai) (maddr_String E <$> Addrs ai) (peering w)) w) in *.
  assert (∀ p, p ∈ dom (peers (peering w1)) ↔ p = ID ai ∨ p ∈ dom (peers (peering w))) as Hp by (intros p; apply AddPeer_peers).
  destruct (emit_err E (length out)).
  { injection Hrun as <- <-. do 2 (split; [done|]). split; [intros p ?; apply Hp; by right|done]. }
  destruct (IH _ _ _ _ Hrun HI1 Hl1) as (HI2 & Hl2 & Hsub & Ho). do 2 (split; [done|]). split; [intros p ?; apply Hsub, Hp; by right|].
  intros o Hr. destruct (Ho o Hr) as [-> Hd]. split; [by rewrite fmap_cons, <- (assoc_L (++))|]. intros p. rewrite Hd, Hp, fmap_cons, elem_of_cons. tauto.
Qed.

Lemma peering_rm_spec args : ∀ out w r w', peering_rm E args out w = (r, w') → Inv (peering w) → live (peering w) →
  Inv (peering w') ∧ live (peering w') ∧ (∀ p, p ∈ dom (peers (peering w')) → p ∈ dom (peers (peering w))) ∧
  ∀ o, r = Ok o → ∃ ids, Forall2 (λ a id, peer_Decode E a = Ok id) args ids ∧ o = out ++ ((λ id, (id, "success")) <$> ids) ∧
    ∀ p, p ∈ dom (peers (peering w')) ↔ p ∈ dom (peers (peering w)) ∧ p ∉ ids.
Proof.
  induction args as [|a args IH]; intros out w r w'; cbn [peering_rm].
  { intros [= <- <-] HI Hl. do 3 (split; [done|]). intros o [= <-]. exists []. rewrite app_nil_r. split_and!; [constructor|done|].
    intros p. split; [intros ?; split; [done|apply not_elem_of_nil]|by intros [? _]]. }
  rewrite bind_unfold. unfold mlift. destruct (peer_Decode E a) as [id|e] eqn:Ha; [|by intros [= <- <-]].
  rewrite bind_unfold. unfold mmodify. rewrite bind_unfold. unfold emit, mlift. intros Hrun HI Hl.
  destruct (RemovePeer_preserves id _ HI Hl) as [HI1 Hl1]. set (w1 := set_peering (RemovePeer id (peering w)) w) in *.
  assert (∀ p, p ∈ dom (peers (peering w1)) ↔ p ≠ id ∧ p ∈ dom (peers (peering w))) as Hp by (intros p; apply RemovePeer_peers).
  destruct (emit_err E (length out)).
  { injection Hrun as <- <-. do 2 (split; [done|]). split; [by intros p [_ ?]%Hp|done]. }
  destruct (IH _ _ _ _ Hrun HI1 Hl1) as (HI2 & Hl2 & Hsub & Ho). do 2 (split; [done|]). split; [by intros p [_ ?]%Hsub%Hp|].
  intros o Hr. destruct (Ho o Hr) as (ids & Hids & -> & Hd). exists (id :: ids).
  split; [by constructor|]. split; [by rewrite fmap_cons, <- (assoc_L (++))|]. intros p. rewrite Hd, Hp, not_elem_of_cons. tauto.
Qed.

(** The peering commands keep the service's invariant and its promise to reconnect,
    whatever the outcome; when they succeed, exactly the peers named have been added
    to, or removed from, those it keeps connections to. *)
Theorem swarmPeering_exact (add : bool) args w r w' :
  (if add then swarmPeeringAddCmd E args else swarmPeeringRmCmd E args) w = (r, w') → Inv (peering w) → live (peering w) →
  Inv (peering w') ∧ live (peering w') ∧
  ∀ out, r = Ok out → ∃ ids : list string, out = (λ id, (id, "success")) <$> ids ∧ (swarmPeeringLsCmd w').1 = Ok (ListPeers (peering w')) ∧
    (∀ p, p ∈ dom (peers (peering w')) ↔ if add then p ∈ dom (peers (peering w)) ∨ p ∈ ids else p ∈ dom (peers (peering w)) ∧ p ∉ ids) ∧
    (if add then ∃ ms, mapM (NewMultiaddr E) args = Ok ms ∧ ∀ id, id ∈ ids ↔ ∃ t, t ++ [(P_P2P, id)] ∈ ms
     else Forall2 (λ a id, peer_Decode E a = Ok id) args ids).
Proof.
  destruct add.
  - unfold swarmPeeringAddCmd. rewrite bind_unfold. unfold mlift. destruct (mapM (NewMultiaddr E) args) as [ms|e]; [|by intros [= <- <-]].
    rewrite bind_unfold. destruct (AddrInfosFromP2pAddrs E ms) as [infos|e] eqn:Hi; [|by intros [= <- <-]]. intros Hrun HI Hl.
    destruct (peering_add_spec _ _ _ _ _ Hrun HI Hl) as (HI2 & Hl2 & _ & Ho). do 2 (split; [done|]). intros out Hr.
    destruct (Ho out Hr) as [-> Hd]. destruct (AddrInfos_spec _ _ Hi) as (_ & _ & _ & _ & Hids & _). exists (ID <$> infos).
    split; [simpl; by rewrite <- list_fmap_compose|]. split; [done|]. split; [done|]. by exists ms.
  - intros Hrun HI Hl. destruct (peering_rm_spec _ _ _ _ _ Hrun HI Hl) as (HI2 & Hl2 & _ & Ho). do 2 (split; [done|]).
    intros out Hr. destruct (Ho out Hr) as (ids & Hids & -> & Hd). by exists ids.
Qed.

End swarm_laws.

(** ** A node with two connections *)

Module SwarmExample.

(** "/p2p/A", "/ip4/a/p2p/A", "/dns/x" *)
Definition addr (s : string) : res string Multiaddr :=
  if decide (s = "/ip4/a/p2p/A") then Ok [("ip4", "a"); ("p2p", "A")]
  else if decide (s = "/ip4/b/p2p/A") then Ok [("ip4", "b"); ("p2p", "A")]
  else if decide (s = "/dns/x") then Ok [("dns", "x")] else Err "failed to parse multiaddr".

Definition insert_by {A} (f : A → string) (x : A) : list A → list A :=
  fix go l := match l with [] => [x] | y :: l' => if String.leb (f x) (f y) then x :: l else y :: go l' end.
Definition sort {A} (f : A → string) (l : list A) : list A := foldr (insert_by f) [] l.

Definition env (save : option string) : SwarmEnv := {|
  NewMultiaddr := addr; maddr_String := λ m, foldr (λ c s, "/" +:+ c.1 +:+ "/" +:+ c.2 +:+ s) "" m;
  Resolve := λ m, if decide (m = [("dns", "x")]) then Ok [[("ip4", "c"); ("p2p", "B")]; [("ip4", "d")]] else Err "no such host";
  arrive := λ l, reverse l; arrive_err := λ l, l; range_peers := λ l, reverse l; online := true;
  host_Connect := λ ai cs, Ok (cs ++ [mkConn (ID ai) (default [] (head (Addrs ai))) DirOutbound []]);
  ClosePeer_err := λ _, None; Close_err := λ _, None; latency := λ _, 0%Z; Duration_String := pretty;
  known := []; hostAddrs := []; listenAddrs := Ok []; self := Ok "Qm"; Pretty := λ p, p; peer_Decode := λ s, Ok s;
  NewComponent_err := λ _, None; sort_by := @sort;
  NewMask := λ s, if decide (s = "/ip4/10.0.0.1/ipcidr/8" ∨ s = "/ip4/10.0.0.0/ipcidr/8") then Ok "10.0.0.0/8"
                  else if decide (s = "bad") then Err "invalid multiaddr-filter format" else Ok s;
  ConvertIPNet := λ s, Ok s; Open_err := None; SetConfig_err := save; emit_err := λ _, None |}.

Lemma insert_by_perm {A} (f : A → string) x l : insert_by f x l ≡ₚ x :: l.
Proof. induction l as [|y l IH]; simpl; [done|]. destruct (String.leb (f x) (f y)); [done|]. rewrite IH. apply Permutation_swap. Qed.

Lemma insert_by_sorted {A} (f : A → string) x l :
  Sorted (λ a b, String.leb (f a) (f b) = true) l → Sorted (λ a b, String.leb (f a) (f b) = true) (insert_by f x l).
Proof.
  induction l as [|y l IH]; simpl; intros Hs; [by repeat constructor|]. destruct (String.leb (f x) (f y)) eqn:Hl; [by constructor; [|constructor]|].
  inversion Hs as [|? ? Hs' Hh]; subst. constructor; [by apply IH|].
  assert (String.leb (f y) (f x) = true) as Hyx by (destruct (String.leb_total (f x) (f y)); congruence).
  destruct l as [|z l]; simpl; [by constructor|]. destruct (String.leb (f x) (f z)); [by constructor|]. inversion Hh; by constructor.
Qed.

#[global] Instance laws save : SwarmLaws (env save).
Proof.
  split; intros; [apply reverse_Permutation|done|apply reverse_Permutation| |]; simpl; unfold sort;
    induction l as [|x l IH]; simpl; [done| |constructor|].
  - by rewrite insert_by_perm, IH.
  - by apply insert_by_sorted.
Qed.

Definition w0 : SwarmW := mkSwarmW [mkConn "A" [("ip4", "a")] DirInbound ["/b"; "/a"]; mkConn "A" [("ip4", "b")] DirOutbound []]
  {["A"]} ∅ [mkFilter "10.0.0.0/8" ActionDeny] (NewPeeringService ∅)
  ["/ip4/10.0.0.0/ipcidr/8"] ["/ip4/10.0.0.0/ipcidr/8"].

(** A resolver started before an argument that does not parse is left sending its
    answer on a channel nobody reads. *)
Theorem resolver_left_blocked : resolveAddresses (env None) ["/dns/x"; "oops"] = (Err "failed to parse multiaddr", 1).
Proof. by vm_compute. Qed.

(** Another spelling of a filtered network lifts the filter of the running node, but
    leaves it in the configuration, and reports nothing removed. *)
Theorem filter_rm_keeps_config :
  let '(r, w') := swarmFiltersRmCmd (env None) ["/ip4/10.0.0.1/ipcidr/8"] w0 in
  r = Ok [] ∧ filters w' = [] ∧ diskFilters w' = ["/ip4/10.0.0.0/ipcidr/8"].
Proof. by vm_compute. Qed.

(** Filters before one that does not parse are in force, and not in the configuration. *)
Theorem filter_add_half_done :
  let '(r, w') := swarmFiltersAddCmd (env None) ["/ip4/1.0.0.0/ipcidr/8"; "bad"] w0 in
  r = Err "invalid multiaddr-filter format" ∧ FiltersForAction ActionDeny (filters w') = ["10.0.0.0/8"; "/ip4/1.0.0.0/ipcidr/8"] ∧
  diskFilters w' = diskFilters w0 ∧ cfgFilters w' = cfgFilters w0.
Proof. by vm_compute. Qed.

(** A removed peer is reported as added. *)
Theorem peering_rm_says_add : peeringResult_text ("A", "success") = "add A success".
Proof. done. Qed.

End SwarmExample.

Section swarm_witnesses.
Import SwarmExample.

Lemma parseAddresses_exact_witness :
  parseAddresses (env None) ["/ip4/a/p2p/A"; "/dns/x"; "/ip4/b/p2p/A"] =
    Ok [mkAddrInfo "B" [[("ip4", "c")]]; mkAddrInfo "A" [[("ip4", "a")]; [("ip4", "b")]]] ∧
  has_addr [mkAddrInfo "B" [[("ip4", "c")]]; mkAddrInfo "A" [[("ip4", "a")]; [("ip4", "b")]]] "B" [("ip4", "c")].
Proof.
  assert (parseAddresses (env None) ["/ip4/a/p2p/A"; "/dns/x"; "/ip4/b/p2p/A"] =
    Ok [mkAddrInfo "B" [[("ip4", "c")]]; mkAddrInfo "A" [[("ip4", "a")]; [("ip4", "b")]]]) as Hp by (vm_compute; reflexivity).
  split; [exact Hp|]. destruct (parseAddresses_exact (env None) _ _ Hp) as (_ & _ & Hh & _). apply Hh; [done|].
  vm_compute. right. by left.
Defined.

Lemma Disconnect_exact_witness :
  let run := Disconnect (env None) [("ip4", "b"); ("p2p", "A")] w0 in
  run.1 = Ok () ∧ conns run.2 = [mkConn "A" [("ip4", "a")] DirInbound ["/b"; "/a"]] ∧
  ∃ l1 c l2, conns w0 = l1 ++ c :: l2 ∧ conns run.2 = l1 ++ l2.
Proof.
  cbv zeta. set (run := Disconnect _ _ _). assert (run.1 = Ok ()) as Hr by (vm_compute; reflexivity).
  assert (conns run.2 = [mkConn "A" [("ip4", "a")] DirInbound ["/b"; "/a"]]) as Hc by (vm_compute; reflexivity).
  split; [exact Hr|]. split; [exact Hc|]. destruct run as [r w'] eqn:Hrun. simpl in Hr. subst r.
  destruct (Disconnect_exact (env None) _ w0 (Ok ()) w' Hrun) as (t & id & [= <- <-] & _ & _ & Hx).
  rewrite decide_False in Hx by done. destruct Hx as (l1 & c & l2 & H1 & _ & _ & H2). by exists l1, c, l2.
Defined.

Lemma addrinfo_roundtrip_witness : ∃ pis,
  AddrInfosFromP2pAddrs (env None) [[("p2p", "A")]; [("ip4", "c"); ("p2p", "B")]] = Ok pis ∧
  pis ≡ₚ [mkAddrInfo "A" []; mkAddrInfo "B" [[("ip4", "c")]]].
Proof.
  apply (addrinfo_roundtrip (env None) [mkAddrInfo "A" []; mkAddrInfo "B" [[("ip4", "c")]]] [[[("p2p", "A")]]; [[("ip4", "c"); ("p2p", "B")]]]);
    [reflexivity|apply (bool_decide_unpack _); vm_compute; reflexivity|].
  repeat constructor; discriminate.
Defined.

Lemma swarmPeersCmd_exact_witness :
  let run := swarmPeersCmd (env None) true false false false w0 in
  run.1 = Ok [mkConnInfo "/ip4/a" "A" "n/a" DirInbound ["/a"; "/b"]; mkConnInfo "/ip4/b" "A" "n/a" DirOutbound []] ∧ run.2 = w0.
Proof.
  cbv zeta. set (run := swarmPeersCmd _ _ _ _ _ _).
  assert (run.1 = Ok [mkConnInfo "/ip4/a" "A" "n/a" DirInbound ["/a"; "/b"]; mkConnInfo "/ip4/b" "A" "n/a" DirOutbound []]) as Hr by (vm_compute; reflexivity).
  split; [exact Hr|]. destruct run as [r w'] eqn:Hrun. simpl in Hr. subst r.
  apply (swarmPeersCmd_exact (env None) true false false false w0 _ w' Hrun).
Defined.

Lemma w0_filters : filters_ok (filters w0).
Proof. apply (bool_decide_unpack _). by vm_compute. Qed.

Lemma swarmFiltersAddCmd_exact_witness :
  let run := swarmFiltersAddCmd (env None) ["/ip4/1.0.0.0/ipcidr/8"; "/ip4/1.0.0.0/ipcidr/8"] w0 in
  run.1 = Ok ["/ip4/1.0.0.0/ipcidr/8"] ∧ diskFilters run.2 = ["/ip4/1.0.0.0/ipcidr/8"; "/ip4/10.0.0.0/ipcidr/8"].
Proof.
  cbv zeta. set (run := swarmFiltersAddCmd _ _ _). assert (run.1 = Ok ["/ip4/1.0.0.0/ipcidr/8"]) as Hr by (vm_compute; reflexivity).
  split; [exact Hr|]. destruct run as [r w'] eqn:Hrun. simpl in Hr. subst r.
  destruct (swarmFiltersAddCmd_exact (env None) _ w0 _ w' Hrun w0_filters) as (_ & Hd & _). simpl. rewrite Hd. by vm_compute.
Defined.

Lemma swarmFiltersRmCmd_exact_witness :
  let run := swarmFiltersRmCmd (env None) ["*"] w0 in
  run.1 = Ok ["/ip4/10.0.0.0/ipcidr/8"] ∧ FiltersForAction ActionDeny (filters run.2) = [] ∧ diskFilters run.2 = [].
Proof.
  cbv zeta. set (run := swarmFiltersRmCmd _ _ _). assert (run.1 = Ok ["/ip4/10.0.0.0/ipcidr/8"]) as Hr by (vm_compute; reflexivity).
  split; [exact Hr|]. destruct run as [r w'] eqn:Hrun. simpl in Hr. subst r.
  destruct (swarmFiltersRmCmd_exact (env None) ["*"] w0 _ w' Hrun w0_filters) as (_ & _ & Hall).
  rewrite decide_True in Hall by (by right). destruct Hall as (Hd & Hk & _). by split.
Defined.

Lemma swarmPeering_exact_witness :
  let run := swarmPeeringAddCmd (env None) ["/ip4/a/p2p/A"; "/ip4/b/p2p/A"] w0 in
  run.1 = Ok [("A", "success")] ∧ Inv (peering run.2) ∧ "A" ∈ dom (peers (peering run.2)).
Proof.
  cbv zeta. set (run := swarmPeeringAddCmd _ _ _). assert (run.1 = Ok [("A", "success")]) as Hr by (vm_compute; reflexivity).
  split; [exact Hr|]. destruct run as [r w'] eqn:Hrun. simpl in Hr. subst r.
  destruct (swarmPeering_exact (env None) true _ w0 _ w' Hrun (Inv_new ∅) (live_new ∅)) as (HI & _ & Hout).
  split; [exact HI|]. destruct (Hout _ eq_refl) as (ids & Hids & _ & Hd & _). apply Hd. right.
  destruct ids as [|i ids]; [done|]. injection Hids as <- _. by left.
Defined.
End swarm_witnesses.
