(* ===== verification/P2PCmd.v ===== *)
(** * The p2p commands (core/commands/p2p.go)

    Forwarding, listening, listing and closing over the registries of [P2P].  A peer
    ID is its text form, a multiaddr its components as in [Swarm], and a listener
    keeps its multiaddrs as text.  The registries are behind locks that a panic
    leaves held, so a command ends in a result, an error, a panic or not at all. *)

From Stdlib Require Import ZArith Ascii String DecimalString.
From stdpp Require Import base gmap sets list strings.
From S2P Require Import Prelude GoStrings P2P Swarm.

(** How a command that does not succeed ends *)
Inductive P2PErr := Fail (e : string) | Panic (e : string) | Deadlock.

(** p2p.Listeners with its lock *)
Record Listeners := mkListeners { lis : gmap string Listener; locked : bool }.

(** The two registries of listeners, the streams, the sockets that accept, and the
    calls of AddAddrs made so far, the latest first *)
Record P2PW := mkP2PW {
  ListenersLocal : Listeners;
  ListenersP2P : Listeners;
  reg : StreamRegistry;
  socks : gset nat;
  AddAddrs_calls : list (string * list Multiaddr);
}.

Record P2PListenerInfoOutput := mkPLI { pli_Protocol : string; pli_ListenAddress : string; pli_TargetAddress : string }.
Record P2PStreamInfoOutput := mkPSI { psi_HandlerID : string; psi_Protocol : string; psi_OriginAddress : string; psi_TargetAddress : string }.

Record P2PCmdEnv := mkP2PCmdEnv {
  (** Multiaddrs, DNS and whether the node is online *)
  sw : SwarmEnv;
  (** cmdenv.GetNode, and Experimental.Libp2pStreamMounting of Repo.Config *)
  GetNode_err : option string;
  StreamMounting : res string bool;
  (** manet.Listen: the socket and the address it got *)
  manet_Listen : Multiaddr → gset nat → res string (nat * string);
  identity : string;
  (** The order in which Go ranges over a map *)
  range : ∀ A : Type, list A → list A;
}.

Definition P2PProtoPrefix : string := "/x/".
Definition maPrefix : string := "/p2p/".

(** Go's strconv.ParseUint(s, 10, 64) *)
Definition ParseUint (s : string) : option Z :=
  match NilZero.uint_of_string s with
  | Some u => let n := Z.of_uint u in if decide (n ≤ u64_max)%Z then Some n else None
  | None => None
  end.

(** Multiaddr.ValueForProtocol *)
Definition ValueForProtocol (m : Multiaddr) (proto : string) : option string :=
  list_find (λ c, c.1 = proto) m ≫= λ p, Some p.2.2.

(** peer.AddrInfoFromP2pAddr *)
Definition AddrInfoFromP2pAddr (m : Multiaddr) : res string AddrInfo :=
  let '(transport, id) := SplitAddr m in
  if decide (id = "") then Err ErrInvalidAddr
  else Ok (mkAddrInfo id (match transport with [] => [] | _ => [transport] end)).

(** The loop of parseIpfsAddr over the resolved addresses *)
Fixpoint collect_info (text : string) (addrs : list Multiaddr) (info : AddrInfo) : res string AddrInfo :=
  match addrs with
  | [] => Ok info
  | addr :: addrs' =>
      let '(taddr, id) := SplitAddr addr in
      if decide (id = "") then collect_info text addrs' info else
      if decide (ID info = "" ∨ ID info = id)
      then collect_info text addrs' (mkAddrInfo id (Addrs info ++ [taddr]))
      else Err ("ambiguous multiaddr " +:+ text +:+ " could refer to " +:+ ID info +:+ " or " +:+ id)
  end.

(** checkPort *)
Definition checkPort (target : Multiaddr) : res string unit :=
  let sport := default "" (ValueForProtocol target "tcp") in
  let sport := if decide (sport ≠ "") then sport else default "" (ValueForProtocol target "udp") in
  if decide (sport = "") then Err "address does not contain tcp or udp protocol" else
  match Atoi sport with
  | None => Err ("strconv.Atoi: parsing " +:+ sport)
  | Some port => if decide (port = 0%Z) then Err "port can not be 0" else Ok ()
  end.

(** The registry of a kind, and its locks *)
Inductive Kind := KLocal | KP2P.
Definition getL (k : Kind) (w : P2PW) : Listeners := match k with KLocal => ListenersLocal w | KP2P => ListenersP2P w end.
Definition setL (k : Kind) (x : Listeners) (w : P2PW) : P2PW :=
  match k with
  | KLocal => mkP2PW x (ListenersP2P w) (reg w) (socks w) (AddAddrs_calls w)
  | KP2P => mkP2PW (ListenersLocal w) x (reg w) (socks w) (AddAddrs_calls w)
  end.

Definition set_socks (s : gset nat) (w : P2PW) : P2PW := mkP2PW (ListenersLocal w) (ListenersP2P w) (reg w) s (AddAddrs_calls w).

Definition Lock (k : Kind) : M P2PW P2PErr (gmap string Listener) := λ w,
  if locked (getL k w) then (Err Deadlock, w) else (Ok (lis (getL k w)), setL k (mkListeners (lis (getL k w)) true) w).
(** The map left, and the lock given back *)
Definition Unlock (k : Kind) (m : gmap string Listener) : M P2PW P2PErr unit := mmodify (setL k (mkListeners m false)).

Definition fail {A} (r : res string A) : res P2PErr A := match r with Ok a => Ok a | Err e => Err (Fail e) end.

Section cmds.
Context (E : P2PCmdEnv).
Abbreviation A := (M P2PW P2PErr).

(** p2pGetNode *)
Definition p2pGetNode : res P2PErr unit :=
  match GetNode_err E with
  | Some e => Err (Fail e)
  | None =>
      match StreamMounting E with
      | Err e => Err (Fail e)
      | Ok false => Err (Fail "libp2p stream mounting not enabled")
      | Ok true => if online (sw E) then Ok () else Err (Fail ErrNotOnline)
      end
  end.

(** parseIpfsAddr *)
Definition parseIpfsAddr (addr : string) : res string AddrInfo :=
  multiaddr ← NewMultiaddr (sw E) addr;
  match AddrInfoFromP2pAddr multiaddr with
  | Ok pi => Ok pi
  | Err _ =>
      addrs ← Resolve (sw E) multiaddr;
      if decide (addrs = []) then Err ("fail to resolve the multiaddr:" +:+ maddr_String (sw E) multiaddr)
      else collect_info (maddr_String (sw E) multiaddr) addrs (mkAddrInfo "" [])
  end.

(** The check of the protocol's name *)
Definition check_proto (allowCustom : bool) (proto : string) : res string unit :=
  if negb allowCustom && negb (HasPrefix proto P2PProtoPrefix)
  then Err ("protocol name must be within '" +:+ P2PProtoPrefix +:+ "' namespace") else Ok ().

(** forwardLocal: AddAddrs, then P2P.ForwardLocal, which listens before it takes the lock *)
Definition forwardLocal (proto : string) (bindAddr : Multiaddr) (addr : AddrInfo) : A unit := λ w,
  let w := mkP2PW (ListenersLocal w) (ListenersP2P w) (reg w) (socks w) ((ID addr, Addrs addr) :: AddAddrs_calls w) in
  match manet_Listen E bindAddr (socks w) with
  | Err e => (Err (Fail e), w)
  | Ok (sock, laddr) =>
      (ls ← Lock KLocal;
       let '(r, ls') := ForwardLocal (Ok (sock, laddr)) proto (ID addr) ls in
       _ ← Unlock KLocal ls';
       _ ← mlift (fail r); mret ()) (set_socks ({[sock]} ∪ socks w) w)
  end.

(** p2pForwardCmd.Run *)
Definition p2pForwardCmd (protoOpt listenOpt targetOpt : string) (allowCustom : bool) : A unit :=
  _ ← mlift p2pGetNode;
  listen ← mlift (fail (NewMultiaddr (sw E) listenOpt));
  targets ← mlift (fail (parseIpfsAddr targetOpt));
  _ ← mlift (fail (check_proto allowCustom protoOpt));
  forwardLocal protoOpt listen targets.

(** p2pListenCmd.Run *)
Definition p2pListenCmd (protoOpt targetOpt : string) (allowCustom reportPeerID : bool) : A unit :=
  _ ← mlift p2pGetNode;
  target ← mlift (fail (NewMultiaddr (sw E) targetOpt));
  _ ← mlift (fail (checkPort target));
  _ ← mlift (fail (check_proto allowCustom protoOpt));
  ls ← Lock KP2P;
  let '(r, ls') := ForwardRemote protoOpt (maddr_String (sw E) target) reportPeerID ls in
  _ ← Unlock KP2P ls';
  _ ← mlift (fail r); mret ().

(** The methods of the listeners; a multiaddr that does not parse is a panic. *)
Definition must_maddr (s : string) : res P2PErr string :=
  match NewMultiaddr (sw E) s with Ok m => Ok (maddr_String (sw E) m) | Err e => Err (Panic e) end.

Definition lis_Protocol (l : Listener) : string :=
  match l with localListener proto _ _ _ => proto | remoteListener proto _ _ => proto end.
Definition ListenAddress (l : Listener) : res P2PErr string :=
  match l with localListener _ laddr _ _ => Ok laddr | remoteListener _ _ _ => must_maddr (maPrefix +:+ identity E) end.
Definition TargetAddress (l : Listener) : res P2PErr string :=
  match l with localListener _ _ peer _ => must_maddr (maPrefix +:+ peer) | remoteListener _ addr _ => Ok addr end.

Definition describe (l : Listener) : res P2PErr P2PListenerInfoOutput :=
  la ← ListenAddress l; ta ← TargetAddress l; mret (mkPLI (lis_Protocol l) la ta).

(** The listeners of a registry in the order Go meets them *)
Definition elements_of (ls : gmap string Listener) : list Listener := range E Listener (map_to_list ls).*2.

Definition list_kind (k : Kind) : A (list P2PListenerInfoOutput) :=
  ls ← Lock k; out ← mlift (mapM describe (elements_of ls)); _ ← Unlock k ls; mret out.

(** p2pLsCmd.Run *)
Definition p2pLsCmd : A (list P2PListenerInfoOutput) :=
  _ ← mlift p2pGetNode; l ← list_kind KLocal; r ← list_kind KP2P; mret (l ++ r).

(** The rows the encoders of p2pLsCmd and p2pStreamLsCmd print *)
Definition p2pLs_text (headers : bool) (out : list P2PListenerInfoOutput) : list (list string) :=
  concat ((λ i, (if headers then [["Protocol"; "Listen Address"; "Target Address"]] else []) ++
                [[pli_Protocol i; pli_ListenAddress i; pli_TargetAddress i]]) <$> out).

Definition p2pStreamLs_text (headers : bool) (out : list P2PStreamInfoOutput) : list (list string) :=
  concat ((λ i, (if headers then [["ID"; "Protocol"; "Origin"; "Target"]] else []) ++
                [[psi_HandlerID i; psi_Protocol i; psi_OriginAddress i; psi_TargetAddress i]]) <$> out).

(** The match function of p2pCloseCmd: the options given, the multiaddrs parsed *)
Definition match_listener (closeAll : bool) (p l t : option string) (x : Listener) : res P2PErr bool :=
  if closeAll then Ok true else
  if (match p with None => true | Some q => bool_decide (q = lis_Protocol x) end) then
    lok ← (match l with None => Ok true | Some q => a ← ListenAddress x; mret (bool_decide (q = a)) end);
    if lok : bool then
      match t with None => Ok true | Some q => a ← TargetAddress x; mret (bool_decide (q = a)) end
    else Ok false
  else Ok false.

(** Listeners.Close: the first loop, which can be left by a panic of the match *)
Fixpoint close_loop (matchFunc : Listener → res P2PErr bool) (todo : list Listener) (ls : gmap string Listener)
    : res P2PErr (list Listener) * gmap string Listener :=
  match todo with
  | [] => (Ok [], ls)
  | l :: todo' =>
      match matchFunc l with
      | Err e => (Err e, ls)
      | Ok false => close_loop matchFunc todo' ls
      | Ok true =>
          let '(r, ls') := close_loop matchFunc todo' (delete (key l) ls) in
          ((r' ← r; mret (l :: r')), ls')
      end
  end.

Definition sock_of (l : Listener) : gset nat := match l with localListener _ _ _ s => {[s]} | remoteListener _ _ _ => ∅ end.

(** Listeners.Close on a registry, with the count it returns *)
Definition Listeners_Close (k : Kind) (matchFunc : Listener → res P2PErr bool) : A nat :=
  ls ← Lock k;
  let '(r, ls') := close_loop matchFunc (elements_of ls) ls in
  _ ← mmodify (setL k (mkListeners ls' true));
  todo ← mlift r;
  _ ← Unlock k ls';
  _ ← mmodify (λ w, set_socks (socks w ∖ ⋃ (sock_of <$> todo)) w);
  mret (length todo).

Definition opt_maddr (o : option string) : res P2PErr (option string) :=
  match o with None => Ok None | Some s => m ← fail (NewMultiaddr (sw E) s); mret (Some (maddr_String (sw E) m)) end.

(** p2pCloseCmd.Run *)
Definition p2pCloseCmd (closeAll : bool) (protoOpt listenOpt targetOpt : option string) : A nat :=
  _ ← mlift p2pGetNode;
  listen ← mlift (opt_maddr listenOpt);
  target ← mlift (opt_maddr targetOpt);
  let given := bool_decide (is_Some protoOpt ∨ is_Some listenOpt ∨ is_Some targetOpt) in
  if negb (closeAll || given) then mthrow (Fail "no matching options given") else
  if closeAll && given then mthrow (Fail "can't combine --all with other matching options") else
  done1 ← Listeners_Close KLocal (match_listener closeAll protoOpt listen target);
  done2 ← Listeners_Close KP2P (match_listener closeAll protoOpt listen target);
  mret (done1 + done2).

(** p2pStreamLsCmd.Run *)
Definition p2pStreamLsCmd : A (list P2PStreamInfoOutput) :=
  _ ← mlift p2pGetNode;
  w ← mget;
  mret ((λ p : Z * Stream, mkPSI (Itoa p.1) (st_Protocol p.2) (OriginAddr p.2) (P2P.TargetAddr p.2)) <$>
          range E (Z * Stream) (map_to_list (Streams (reg w)))).

Definition set_reg (r : StreamRegistry) (w : P2PW) : P2PW := mkP2PW (ListenersLocal w) (ListenersP2P w) r (socks w) (AddAddrs_calls w).

(** The loop that gathers the streams to close *)
Fixpoint to_close (closeAll : bool) (handlerID : Z) (l : list (Z * Stream)) : list (Z * Stream) :=
  match l with
  | [] => []
  | p :: l' =>
      if negb closeAll && bool_decide (handlerID ≠ p.1) then to_close closeAll handlerID l'
      else p :: (if negb closeAll then [] else to_close closeAll handlerID l')
  end.

(** p2pStreamCloseCmd.Run *)
Definition p2pStreamCloseCmd (closeAll : bool) (arg : option string) : A unit :=
  _ ← mlift p2pGetNode;
  handlerID ← mlift (if closeAll then Ok 0%Z else
                     match arg with
                     | None => Err (Fail "no id specified")
                     | Some s => match ParseUint s with None => Err (Fail "strconv.ParseUint") | Some n => Ok n end
                     end);
  mmodify (λ w, set_reg (foldl (λ r p, reg_Reset p.1 p.2 r) (reg w)
    (to_close closeAll handlerID (range E (Z * Stream) (map_to_list (Streams (reg w)))))) w).

End cmds.

(** ** Laws of the parameters *)

Class P2PCmdLaws (E : P2PCmdEnv) : Prop := {
  range_perm : ∀ A l, range E A l ≡ₚ l;
  listen_fresh : ∀ m s sock a, manet_Listen E m s = Ok (sock, a) → sock ∉ s;
  identity_ok : is_ok (NewMultiaddr (sw E) (maPrefix +:+ identity E)) = true;
  (** A peer found in an address, parsed or resolved, is a valid /p2p value. *)
  p2p_value : ∀ s m t id, NewMultiaddr (sw E) s = Ok m → SplitAddr m = (t, id) → id ≠ "" →
    is_ok (NewMultiaddr (sw E) (maPrefix +:+ id)) = true;
  resolved_value : ∀ m l a t id, Resolve (sw E) m = Ok l → a ∈ l → SplitAddr a = (t, id) → id ≠ "" →
    is_ok (NewMultiaddr (sw E) (maPrefix +:+ id)) = true;
}.

(** ** Parsing *)

Lemma collect_info_spec text addrs info :
  match collect_info text addrs info with
  | Ok info' =>
      (∀ a t id, a ∈ addrs → SplitAddr a = (t, id) → id ≠ "" → id = ID info') ∧
      (ID info ≠ "" → ID info' = ID info) ∧
      Addrs info' = Addrs info ++ (SplitAddr <$> filter (λ a, (SplitAddr a).2 ≠ "") addrs).*1 ∧
      (ID info' ≠ "" → ID info ≠ "" ∨ ∃ a, a ∈ addrs ∧ (SplitAddr a).2 = ID info')
  | Err _ => ∃ a, a ∈ addrs ∧ (SplitAddr a).2 ≠ "" ∧
      (ID info ≠ "" ∧ (SplitAddr a).2 ≠ ID info ∨
       ∃ b, b ∈ addrs ∧ (SplitAddr b).2 ≠ "" ∧ (SplitAddr a).2 ≠ (SplitAddr b).2)
  end.
Proof.
  revert info. induction addrs as [|a addrs IH]; intros info; simpl.
  { split_and!; [by intros ? ? ? ?%not_elem_of_nil|done|by rewrite app_nil_r|by left]. }
  destruct (SplitAddr a) as [t id] eqn:Ha. rewrite filter_cons.
  destruct (decide (id = "")) as [->|Hid].
  - rewrite (decide_False (P := (SplitAddr a).2 ≠ "")) by (rewrite Ha; intros Hn; by apply Hn).
    specialize (IH info). destruct (collect_info text addrs info) as [info'|e].
    + destruct IH as (Hs & Hk & Hl & Hx). split_and!; [|done|done|].
      * intros b t' id' [->|Hb]%elem_of_cons Hsp Hne; [congruence|by eapply Hs].
      * intros Hne. destruct (Hx Hne) as [?|(b & ? & ?)]; [by left|]. right. exists b. by split; [right|].
    + destruct IH as (b & Hb & Hne & [?|(c & Hc & ?)]); exists b; (split; [by right|split; [done|]]); [by left|].
      right. exists c. by split; [right|].
  - rewrite (decide_True (P := (SplitAddr a).2 ≠ "")) by (by rewrite Ha). destruct (decide (ID info = "" ∨ ID info = id)) as [Hi|Hi].
    + specialize (IH (mkAddrInfo id (Addrs info ++ [t]))). simpl in IH.
      destruct (collect_info text addrs _) as [info'|e].
      * destruct IH as (Hs & Hk & Hl & Hx). specialize (Hk Hid). split_and!.
        -- intros b t' id' [->|Hb]%elem_of_cons Hsp Hne; [congruence|by eapply Hs].
        -- intros Hne. destruct Hi as [|Hi]; [done|congruence].
        -- rewrite Hl, !fmap_cons, Ha. simpl. by rewrite <- app_assoc.
        -- intros _. right. exists a. rewrite Ha. by split; [left|].
      * destruct IH as (b & Hb & Hne & [[_ Hd]|(c & Hc & ?)]); exists b; (split; [by right|split; [done|]]); right.
        -- exists a. rewrite Ha. by split; [left|].
        -- exists c. by split; [right|].
    + exists a. rewrite Ha. simpl. split; [by left|]. split; [done|]. left. naive_solver.
Qed.

Lemma AddrInfoFromP2pAddr_ok m ai : AddrInfoFromP2pAddr m = Ok ai →
  ID ai ≠ "" ∧ ∃ t, SplitAddr m = (t, ID ai) ∧ Addrs ai = match t with [] => [] | _ => [t] end.
Proof.
  unfold AddrInfoFromP2pAddr. destruct (SplitAddr m) as [t id]. case_decide; [done|].
  intros [= <-]. simpl. eauto.
Qed.

(** The target of a forward names a peer, or the address resolves to none at all. *)
Definition names_peer (E : P2PCmdEnv) (addr : string) : Prop :=
  ∀ ai, parseIpfsAddr E addr = Ok ai → ID ai ≠ "".

Section laws.
Context (E : P2PCmdEnv) {HL : P2PCmdLaws E}.

Lemma parseIpfsAddr_peer addr ai :
  parseIpfsAddr E addr = Ok ai → ID ai ≠ "" → is_ok (NewMultiaddr (sw E) (maPrefix +:+ ID ai)) = true.
Proof.
  unfold parseIpfsAddr. destruct (NewMultiaddr (sw E) addr) as [m|] eqn:Hm; [|done]. simpl.
  destruct (AddrInfoFromP2pAddr m) as [pi|] eqn:Hpi.
  { intros [= <-] Hne. apply AddrInfoFromP2pAddr_ok in Hpi as (_ & t & Ht & _). by eapply p2p_value. }
  destruct (Resolve (sw E) m) as [addrs|] eqn:Hr; [|done]. simpl. case_decide; [done|].
  intros Hc Hne. pose proof (collect_info_spec (maddr_String (sw E) m) addrs (mkAddrInfo "" [])) as Hs.
  rewrite Hc in Hs. destruct Hs as (_ & _ & _ & Hx).
  destruct (Hx Hne) as [?|(a & Ha & Hid)]; [done|].
  destruct (SplitAddr a) as [t id] eqn:Hsp. simpl in Hid. subst id. by eapply resolved_value.
Qed.

Lemma must_maddr_ok s : is_ok (NewMultiaddr (sw E) s) = true → is_ok (must_maddr E s) = true.
Proof. unfold must_maddr. by destruct (NewMultiaddr (sw E) s). Qed.

(** ** The registries *)

(** A registry of listeners of one kind, keyed by their keys, none of which panics *)
Definition kind_of (l : Listener) : Kind := match l with localListener _ _ _ _ => KLocal | remoteListener _ _ _ => KP2P end.

Record ListenersInv (k : Kind) (x : Listeners) : Prop := {
  li_free : locked x = false;
  li_key : ∀ i l, lis x !! i = Some l → key l = i;
  li_kind : ∀ i l, lis x !! i = Some l → kind_of l = k;
  li_ok : ∀ i l, lis x !! i = Some l → is_ok (ListenAddress E l) = true ∧ is_ok (TargetAddress E l) = true;
}.

(** The sockets that accept are those of the local listeners, each its own. *)
Record P2PInv (w : P2PW) : Prop := {
  pi_lis : ∀ k, ListenersInv k (getL k w);
  pi_socks : ∀ i l, lis (ListenersLocal w) !! i = Some l → sock_of l ⊆ socks w;
  pi_own : ∀ i j l l', lis (ListenersLocal w) !! i = Some l → lis (ListenersLocal w) !! j = Some l' →
    i ≠ j → sock_of l ## sock_of l';
  pi_reg : RegInv (reg w);
}.

Lemma elem_of_elements_of l ls : l ∈ elements_of E ls ↔ ∃ i, ls !! i = Some l.
Proof.
  unfold elements_of. rewrite range_perm, list_elem_of_fmap. split.
  - intros ([i x] & -> & ?%elem_of_map_to_list). eauto.
  - intros [i Hi]. exists (i, l). by rewrite elem_of_map_to_list.
Qed.

Lemma elements_of_keys ls : (∀ i l, ls !! i = Some l → key l = i) → NoDup (key <$> elements_of E ls).
Proof.
  intros Hk. unfold elements_of. rewrite range_perm, <- list_fmap_compose.
  rewrite (list_fmap_ext _ fst _); [apply NoDup_fst_map_to_list|].
  intros n [i x] Hn. simpl. apply Hk. apply list_elem_of_lookup_2 in Hn. by apply elem_of_map_to_list in Hn.
Qed.

Lemma close_loop_spec m f todo ls :
  (∀ l, l ∈ todo → m l = Ok (f l)) → NoDup (key <$> todo) →
  ∃ ls', close_loop m todo ls = (Ok (filter (λ l, f l = true) todo), ls') ∧
    ∀ i, ls' !! i = if decide (Exists (λ l, key l = i ∧ f l = true) todo) then None else ls !! i.
Proof.
  revert ls. induction todo as [|l todo IH]; intros ls Hm Hnd; cbn [close_loop].
  { eexists. split; [done|]. intros i. rewrite decide_False; [done|]. by intros ?%Exists_nil. }
  rewrite Hm by (by left). apply NoDup_cons in Hnd as [Hl Hnd]. rewrite filter_cons. destruct (f l) eqn:Hf.
  - destruct (IH (delete (key l) ls)) as (ls' & Hc & Hls); [intros; apply Hm; by right|done|]. rewrite Hc.
    eexists. split; [done|]. intros i. rewrite Hls. destruct (decide (key l = i)) as [<-|Hi].
    + rewrite (decide_True (P := Exists _ (l :: todo))) by (by left).
      case_decide; [done|]. by rewrite lookup_delete_eq.
    + rewrite lookup_delete_ne by done. apply decide_ext. rewrite Exists_cons. naive_solver.
  - destruct (IH ls) as (ls' & Hc & Hls); [intros; apply Hm; by right|done|]. rewrite Hc.
    eexists. split; [done|]. intros i. rewrite Hls. apply decide_ext. rewrite Exists_cons. rewrite Hf. naive_solver.
Qed.

(** On a registry whose match panics on none, the loop is the Close of [P2P]. *)
Lemma close_loop_exact m f ls :
  (∀ i l, ls !! i = Some l → key l = i ∧ m l = Ok (f l)) →
  close_loop m (elements_of E ls) ls = (Ok (filter (λ l, f l = true) (elements_of E ls)), (lis_Close f ls).1).
Proof.
  intros Hm. destruct (close_loop_spec m f (elements_of E ls) ls) as (ls' & -> & Hls).
  - intros l [i Hi]%elem_of_elements_of. by eapply Hm.
  - apply elements_of_keys. intros i l Hi. by apply Hm.
  - f_equal. apply map_eq. intros i. rewrite Hls. unfold lis_Close. simpl.
    destruct (ls !! i) as [l|] eqn:Hi.
    + destruct (f l) eqn:Hf.
      * rewrite decide_True by (apply Exists_exists; exists l; rewrite elem_of_elements_of; split_and!; [eauto|by eapply Hm|done]).
        symmetry. apply map_lookup_filter_None. right. intros x Hx. rewrite Hi in Hx. injection Hx as <-. simpl. by rewrite Hf.
      * rewrite decide_False.
        -- symmetry. by apply map_lookup_filter_Some.
        -- intros (l' & [j Hj]%elem_of_elements_of & Hk & Hf')%Exists_exists.
           destruct (Hm _ _ Hj) as [Hkj _]. rewrite Hk in Hkj. subst j. congruence.
    + case_decide; symmetry; apply map_lookup_filter_None; by left.
Qed.

(** ** Closing listeners *)

Definition oks (x : Listener) : Prop := is_ok (ListenAddress E x) = true ∧ is_ok (TargetAddress E x) = true.

(** What the options choose, the multiaddrs being given by their text *)
Definition chosen (closeAll : bool) (p l t : option string) (x : Listener) : Prop :=
  closeAll = true ∨
  (∀ q, p = Some q → q = lis_Protocol x) ∧ (∀ q, l = Some q → ListenAddress E x = Ok q) ∧
  (∀ q, t = Some q → TargetAddress E x = Ok q).

Definition selected (closeAll : bool) (p l t : option string) (x : Listener) : bool :=
  match match_listener E closeAll p l t x with Ok b => b | Err _ => false end.

Lemma selected_spec closeAll p l t x : oks x →
  match_listener E closeAll p l t x = Ok (selected closeAll p l t x) ∧
  (selected closeAll p l t x = true ↔ chosen closeAll p l t x).
Proof.
  unfold oks, selected, match_listener, chosen. destruct closeAll; [intros _; naive_solver|].
  destruct (ListenAddress E x) as [la|] eqn:Hla, (TargetAddress E x) as [ta|] eqn:Hta; simpl; try (intros [??]; done). intros _.
  destruct p as [p|]; simpl; [case_bool_decide as Hp; [|split; [done|]; naive_solver]|];
    (destruct l as [l|]; simpl; [case_bool_decide as Hl; simpl; [|split; [done|]; naive_solver]|]);
    (destruct t as [t|]; simpl; [case_bool_decide as Ht|]); (split; [done|]); naive_solver.
Qed.

Lemma Listeners_Close_exact k m f w :
  ListenersInv k (getL k w) → (∀ i l, lis (getL k w) !! i = Some l → m l = Ok (f l)) →
  Listeners_Close E k m w =
    (Ok (length (filter (λ l, f l = true) (elements_of E (lis (getL k w))))),
     set_socks (socks w ∖ ⋃ (sock_of <$> filter (λ l, f l = true) (elements_of E (lis (getL k w)))))
       (setL k (mkListeners (lis_Close f (lis (getL k w))).1 false) w)).
Proof.
  intros [Hf Hk _ _] Hm. unfold Listeners_Close, Lock. rewrite bind_unfold, Hf. cbv beta iota.
  rewrite (close_loop_exact m f) by eauto. destruct k; done.
Qed.

Lemma elem_of_lis_Close f ls i l : (lis_Close f ls).1 !! i = Some l ↔ ls !! i = Some l ∧ f l = false.
Proof. apply map_lookup_filter_Some. Qed.

Lemma ListenersInv_sub k x f : ListenersInv k x → ListenersInv k (mkListeners (lis_Close f (lis x)).1 false).
Proof. intros [Hf Hk Hd Ho]. split; cbn [lis locked]; [done|..]; intros i l [Hi _]%elem_of_lis_Close; eauto. Qed.

Lemma closed_length f ls :
  length (filter (λ l, f l = true) (elements_of E ls)) + size (lis_Close f ls).1 = size ls.
Proof.
  destruct (listeners_exact f (remoteListener "" "" false) ls) as (_ & _ & Hn & _). rewrite <- Hn. f_equal.
  unfold elements_of. rewrite range_perm. unfold lis_Close. simpl. rewrite !length_fmap. clear Hn.
  induction ls as [|i l ls Hi IH] using map_ind; [by rewrite map_filter_empty, map_to_list_empty|].
  rewrite map_filter_insert, map_to_list_insert by done. rewrite fmap_cons, filter_cons.
  cbn [snd]. case_decide.
  - rewrite map_to_list_insert by (apply map_lookup_filter_None; by left). cbn [length]. by rewrite IH.
  - by rewrite delete_id.
Qed.

(** ** The commands keep the registries in order *)

Lemma sock_of_kind x : kind_of x = KP2P → sock_of x = ∅.
Proof. by destruct x. Qed.

Lemma elem_of_closed f ls s :
  s ∈ ⋃ (sock_of <$> filter (λ l, f l = true) (elements_of E ls)) ↔
  ∃ i x, ls !! i = Some x ∧ f x = true ∧ s ∈ sock_of x.
Proof.
  rewrite elem_of_union_list. split.
  - intros (X & (x & -> & [Hf [i Hi]%elem_of_elements_of]%list_elem_of_filter)%list_elem_of_fmap & Hs). eauto.
  - intros (i & x & Hi & Hf & Hs). exists (sock_of x). split; [|done]. apply list_elem_of_fmap_2, list_elem_of_filter.
    split; [done|]. apply elem_of_elements_of. eauto.
Qed.

Lemma p2pClose_run closeAll p l t w n w' :
  P2PInv w →
  p2pCloseCmd E closeAll p l t w = (n, w') →
  match n with
  | Ok n =>
      ∃ lm tm, opt_maddr E l = Ok lm ∧ opt_maddr E t = Ok tm ∧
      let f := selected closeAll p lm tm in
      (∀ k, getL k w' = mkListeners (lis_Close f (lis (getL k w))).1 false) ∧
      (∀ s, s ∈ socks w' ↔ s ∈ socks w ∧ ¬ ∃ i x, lis (ListenersLocal w) !! i = Some x ∧ f x = true ∧ s ∈ sock_of x) ∧
      reg w' = reg w ∧ AddAddrs_calls w' = AddAddrs_calls w ∧
      n + size (lis (ListenersLocal w')) + size (lis (ListenersP2P w')) =
        size (lis (ListenersLocal w)) + size (lis (ListenersP2P w))
  | Err (Fail _) => w' = w
  | Err _ => False
  end.
Proof.
  intros Hw. unfold p2pCloseCmd. rewrite bind_unfold. unfold mlift at 1.
  assert (∀ e, p2pGetNode E = Err e → ∃ s, e = Fail s) as Hg.
  { unfold p2pGetNode. intros e. repeat case_match; try done; intros [= <-]; eauto. }
  destruct (p2pGetNode E) as [[]|e]; [|destruct (Hg e) as [s ->]; [done|]; by intros [= <- <-]].
  assert (∀ o e, opt_maddr E o = Err e → ∃ s, e = Fail s) as Ho.
  { intros [o|] e; simpl; [|done]. destruct (NewMultiaddr (sw E) o); simpl; [done|]. intros [= <-]. eauto. }
  rewrite bind_unfold. unfold mlift at 1. destruct (opt_maddr E l) as [lm|e] eqn:Hl;
    [|destruct (Ho _ _ Hl) as [s ->]; by intros [= <- <-]].
  rewrite bind_unfold. unfold mlift at 1. destruct (opt_maddr E t) as [tm|e] eqn:Ht;
    [|destruct (Ho _ _ Ht) as [s ->]; by intros [= <- <-]].
  destruct (negb (closeAll || _)); [by intros [= <- <-]|].
  destruct (closeAll && _); [by intros [= <- <-]|].
  assert (∀ k i x, lis (getL k w) !! i = Some x →
    match_listener E closeAll p lm tm x = Ok (selected closeAll p lm tm x)) as Hm.
  { intros k i x Hx. apply selected_spec. by eapply (li_ok k), Hx; apply pi_lis. }
  rewrite bind_unfold, (Listeners_Close_exact _ _ (selected closeAll p lm tm)); [|apply (pi_lis _ Hw KLocal)|by apply (Hm KLocal)].
  rewrite bind_unfold, (Listeners_Close_exact _ _ (selected closeAll p lm tm)); [|apply (pi_lis _ Hw KP2P)|by apply (Hm KP2P)].
  intros [= <- <-]. exists lm, tm. cbv zeta. cbn [ListenersLocal ListenersP2P lis getL setL set_socks reg socks AddAddrs_calls]. split_and!; try done.
  - by intros [].
  - intros s. rewrite !elem_of_difference, !elem_of_closed. split; [naive_solver|]. intros [Hs Hn]. split_and!; try done.
    intros (i & x & Hx & _ & Hsx). rewrite sock_of_kind in Hsx; [set_solver|].
    by eapply (li_kind KP2P), Hx; apply (pi_lis _ Hw KP2P).
  - pose proof (closed_length (selected closeAll p lm tm) (lis (ListenersLocal w))).
    pose proof (closed_length (selected closeAll p lm tm) (lis (ListenersP2P w))). unfold lis_Close in *. cbn [fst getL lis] in *. lia.
Qed.

(** p2p close: closes exactly the listeners that all the options given choose, local
    and remote, and nothing else; it says how many; an error changes nothing. *)
Theorem p2pClose_exact closeAll p l t w :
  P2PInv w →
  match p2pCloseCmd E closeAll p l t w with
  | (Ok n, w') =>
      ∃ lm tm, opt_maddr E l = Ok lm ∧ opt_maddr E t = Ok tm ∧
      (∀ k i x, lis (getL k w') !! i = Some x ↔ lis (getL k w) !! i = Some x ∧ ¬ chosen closeAll p lm tm x) ∧
      (∀ s, s ∈ socks w' ↔ s ∈ socks w ∧ ¬ ∃ i x, lis (ListenersLocal w) !! i = Some x ∧ chosen closeAll p lm tm x ∧ s ∈ sock_of x) ∧
      reg w' = reg w ∧
      n + size (lis (ListenersLocal w')) + size (lis (ListenersP2P w')) =
        size (lis (ListenersLocal w)) + size (lis (ListenersP2P w))
  | (Err (Fail _), w') => w' = w
  | (Err _, _) => False
  end.
Proof.
  intros Hw. destruct (p2pCloseCmd E closeAll p l t w) as [n w'] eqn:Hr. apply p2pClose_run in Hr; [|done].
  destruct n as [n|[e|e|]]; [|done..]. destruct Hr as (lm & tm & Hl & Ht & Hk & Hs & Hreg & _ & Hn).
  assert (∀ k i x, lis (getL k w) !! i = Some x → selected closeAll p lm tm x = true ↔ chosen closeAll p lm tm x) as Hsel.
  { intros k i x Hx. apply selected_spec. by eapply (li_ok k), Hx; apply pi_lis. }
  exists lm, tm. split_and!; try done.
  - intros k i x. rewrite Hk. cbn [lis]. rewrite elem_of_lis_Close. split; intros [Hx Hf]; (split; [done|]).
    + rewrite <- (Hsel k i x Hx). congruence.
    + rewrite <- (Hsel k i x Hx) in Hf. by apply not_true_is_false.
  - intros s. rewrite Hs. split; intros [Hin Hno]; (split; [done|]); intros (i & x & Hx & Hf & Hsx); apply Hno;
      exists i, x; (split; [done|split; [|done]]); by apply (Hsel KLocal i x Hx).
Qed.


(** ** Forwarding and listening *)

Lemma p2pGetNode_err e : p2pGetNode E = Err e → ∃ s, e = Fail s.
Proof. unfold p2pGetNode. repeat case_match; try done; intros [= <-]; eauto. Qed.

Lemma getL_socks k s w : getL k (set_socks s w) = getL k w.
Proof. by destruct k. Qed.

(** A step that needs only a lifted result *)
Lemma mlift_bind {T U} (r : res P2PErr T) (f : T → M P2PW P2PErr U) w :
  (mlift r ≫= f) w = match r with Ok a => f a w | Err e => (Err e, w) end.
Proof. by destruct r. Qed.

Lemma forwardLocal_run proto m ai w : locked (ListenersLocal w) = false →
  forwardLocal E proto m ai w =
    let calls := (ID ai, Addrs ai) :: AddAddrs_calls w in
    match manet_Listen E m (socks w) with
    | Err e => (Err (Fail e), mkP2PW (ListenersLocal w) (ListenersP2P w) (reg w) (socks w) calls)
    | Ok (sock, laddr) =>
        let '(r, ls') := ForwardLocal (Ok (sock, laddr)) proto (ID ai) (lis (ListenersLocal w)) in
        (match r with Ok _ => Ok () | Err e => Err (Fail e) end,
         mkP2PW (mkListeners ls' false) (ListenersP2P w) (reg w) ({[sock]} ∪ socks w) calls)
    end.
Proof.
  intros Hl. unfold forwardLocal. cbv zeta. cbn [socks]. destruct (manet_Listen E m (socks w)) as [[sock laddr]|e]; [|done].
  rewrite bind_unfold. unfold Lock. cbn [getL set_socks ListenersLocal]. rewrite Hl.
  unfold ForwardLocal, lis_Register. cbn. by destruct (lis (ListenersLocal w) !! laddr).
Qed.

Lemma check_proto_ok allow proto : check_proto allow proto = Ok () → allow = true ∨ HasPrefix proto P2PProtoPrefix = true.
Proof. unfold check_proto. destruct allow, (HasPrefix proto P2PProtoPrefix); simpl; auto; discriminate. Qed.

(** p2p forward: on success a socket listens on an address that was free and leads to
    the one peer that the target names, with a protocol of the namespace unless any is
    allowed; on an error no listener has changed. *)
Theorem p2pForward_exact proto listenOpt target allow w :
  locked (ListenersLocal w) = false →
  match p2pForwardCmd E proto listenOpt target allow w with
  | (Ok _, w') => ∃ m ai sock laddr,
      NewMultiaddr (sw E) listenOpt = Ok m ∧ parseIpfsAddr E target = Ok ai ∧
      manet_Listen E m (socks w) = Ok (sock, laddr) ∧
      (allow = true ∨ HasPrefix proto P2PProtoPrefix = true) ∧
      lis (ListenersLocal w) !! laddr = None ∧
      w' = mkP2PW (mkListeners (<[laddr := localListener proto laddr (ID ai) sock]> (lis (ListenersLocal w))) false)
             (ListenersP2P w) (reg w) ({[sock]} ∪ socks w) ((ID ai, Addrs ai) :: AddAddrs_calls w)
  | (Err (Fail _), w') => ListenersLocal w' = ListenersLocal w ∧ ListenersP2P w' = ListenersP2P w ∧ reg w' = reg w
  | (Err _, _) => False
  end.
Proof.
  intros Hl. unfold p2pForwardCmd. rewrite mlift_bind.
  destruct (p2pGetNode E) as [[]|e] eqn:Hn; [|by apply p2pGetNode_err in Hn as [s ->]].
  rewrite mlift_bind. destruct (NewMultiaddr (sw E) listenOpt) as [m|e] eqn:Hm; [|done]. cbn [fail].
  rewrite mlift_bind. destruct (parseIpfsAddr E target) as [ai|e] eqn:Hai; [|done]. cbn [fail].
  rewrite mlift_bind. destruct (check_proto allow proto) as [[]|e] eqn:Hc; [|done]. cbn [fail].
  rewrite forwardLocal_run by done. cbv zeta.
  destruct (manet_Listen E m (socks w)) as [[sock laddr]|e] eqn:Hs; [|done].
  unfold ForwardLocal, lis_Register. cbn [key]. destruct (lis (ListenersLocal w) !! laddr) eqn:Hla.
  - split; [|done]. cbn [ListenersLocal]. destruct (ListenersLocal w); simpl in *. by subst.
  - exists m, ai, sock, laddr. split_and!; try done. by apply check_proto_ok.
Qed.

(** The target of a p2p listen has a port that is not zero. *)
Definition port_of (m : Multiaddr) : string :=
  let sport := default "" (ValueForProtocol m "tcp") in
  if decide (sport ≠ "") then sport else default "" (ValueForProtocol m "udp").

Lemma checkPort_ok m : checkPort m = Ok () ↔ ∃ n, Atoi (port_of m) = Some n ∧ n ≠ 0%Z ∧ port_of m ≠ "".
Proof.
  unfold checkPort. fold (port_of m). destruct (decide (port_of m = "")) as [He|He].
  { split; [done|]. by intros (n & _ & _ & Hn). }
  destruct (Atoi (port_of m)) as [n|]; [|split; [done|naive_solver]].
  case_decide; split; try done; [naive_solver|]. eauto.
Qed.

(** p2p listen: on success the protocol, which had no listener, is dispatched to the
    target, whose port is not zero; everything else is as before, and an error changes
    nothing. *)
Theorem p2pListen_exact proto targetOpt allow report w :
  locked (ListenersP2P w) = false →
  match p2pListenCmd E proto targetOpt allow report w with
  | (Ok _, w') => ∃ m n,
      NewMultiaddr (sw E) targetOpt = Ok m ∧ Atoi (port_of m) = Some n ∧ n ≠ 0%Z ∧
      (allow = true ∨ HasPrefix proto P2PProtoPrefix = true) ∧
      dispatch proto (lis (ListenersP2P w)) = None ∧
      dispatch proto (lis (ListenersP2P w')) = Some (remoteListener proto (maddr_String (sw E) m) report) ∧
      (∀ q, q ≠ proto → dispatch q (lis (ListenersP2P w')) = dispatch q (lis (ListenersP2P w))) ∧
      w' = setL KP2P (ListenersP2P w') w ∧ locked (ListenersP2P w') = false
  | (Err (Fail _), w') => w' = w
  | (Err _, _) => False
  end.
Proof.
  intros Hl. unfold p2pListenCmd. rewrite mlift_bind.
  destruct (p2pGetNode E) as [[]|e] eqn:Hn; [|by apply p2pGetNode_err in Hn as [s ->]].
  rewrite mlift_bind. destruct (NewMultiaddr (sw E) targetOpt) as [m|e] eqn:Hm; [|done]. cbn [fail].
  rewrite mlift_bind. destruct (checkPort m) as [[]|e] eqn:Hp; [|done]. cbn [fail].
  rewrite mlift_bind. destruct (check_proto allow proto) as [[]|e] eqn:Hc; [|done]. cbn [fail].
  rewrite bind_unfold. unfold Lock. cbn [getL]. rewrite Hl.
  unfold ForwardRemote, lis_Register. cbn [key]. destruct (lis (ListenersP2P w) !! proto) eqn:Hla.
  - simpl. destruct w as [a [b c] d e]; simpl in *. by subst.
  - apply checkPort_ok in Hp as (n & Hn' & Hz & _). exists m, n. unfold dispatch. split_and!; try done; simpl.
    + by apply check_proto_ok.
    + apply lookup_insert_eq.
    + intros q Hq. by rewrite lookup_insert_ne.
Qed.

(** ** Streams *)

Lemma Deregister_Streams id r : Streams (Deregister id r) = delete id (Streams r).
Proof. unfold Deregister. repeat case_match; simpl; [done..|]. by rewrite delete_id. Qed.

Lemma Deregister_conns id r : open_conns (Deregister id r) = open_conns r.
Proof. unfold Deregister. by repeat case_match. Qed.

Definition reset_all (l : list (Z * Stream)) (r : StreamRegistry) : StreamRegistry :=
  foldl (λ r p, reg_Reset p.1 p.2 r) r l.

Lemma reset_all_spec l r : RegInv r →
  RegInv (reset_all l r) ∧
  (∀ i, Streams (reset_all l r) !! i = if decide (i ∈ l.*1) then None else Streams r !! i) ∧
  (∀ c, c ∈ open_conns (reset_all l r) ↔ c ∈ open_conns r ∧ ¬ ∃ p, p ∈ l ∧ (c = P2P.Local p.2 ∨ c = P2P.Remote p.2)).
Proof.
  unfold reset_all. revert r. induction l as [|[id s] l IH]; intros r Hr; cbn [foldl].
  { split_and!; [done|done|]. intros c. split; [|tauto]. intros Hc. split; [done|]. by intros (p & ?%not_elem_of_nil & _). }
  cbn [fst snd]. set (r1 := reg_Reset id s r).
  assert (RegInv r1) as Hr1 by (by apply Deregister_inv, RegInv_conns).
  destruct (IH r1 Hr1) as (HI & Hs & Hc). split_and!; [done|..].
  - intros i. rewrite Hs. unfold r1, reg_Reset. rewrite Deregister_Streams. cbn [Streams]. rewrite fmap_cons. cbn [fst].
    destruct (decide (i ∈ l.*1)); [by rewrite decide_True by (by right)|].
    destruct (decide (i = id)) as [->|].
    + rewrite decide_True by (by left). apply lookup_delete_eq.
    + rewrite decide_False by (rewrite elem_of_cons; tauto). by rewrite lookup_delete_ne.
  - intros c. rewrite Hc. unfold r1, reg_Reset. rewrite Deregister_conns. cbn [open_conns].
    rewrite elem_of_difference, elem_of_union, !elem_of_singleton. split.
    + intros [[Ho Hne] Hno]. split; [done|]. intros (p & [->|Hp]%elem_of_cons & Hd); [by apply Hne|]. apply Hno. eauto.
    + intros [Ho Hno]. split; [split; [done|]|].
      * intros Hd. apply Hno. exists (id, s). split; [by left|done].
      * intros (p & Hp & Hd). apply Hno. exists p. split; [by right|done].
Qed.

Lemma to_close_spec closeAll n l p : NoDup l.*1 →
  p ∈ to_close closeAll n l ↔ p ∈ l ∧ (closeAll = true ∨ p.1 = n).
Proof.
  induction l as [|q l IH]; cbn [to_close]; intros Hnd; [set_solver|].
  rewrite fmap_cons in Hnd. apply NoDup_cons in Hnd as [Hq Hnd]. specialize (IH Hnd).
  rewrite elem_of_cons. destruct closeAll; simpl.
  { rewrite elem_of_cons, IH. naive_solver. }
  case_bool_decide as Hn; [rewrite IH; naive_solver|]. rewrite list_elem_of_singleton.
  split; [naive_solver|]. intros [[->|Hp] [|Hpn]]; try done. exfalso. apply Hq. apply list_elem_of_fmap. exists p. split; [congruence|done].
Qed.

(** p2p stream close: resets exactly the stream named, or all of them, closes both of
    its connections and keeps the counts in order; an id that is not there is no error. *)
Theorem p2pStreamClose_exact closeAll arg w :
  RegInv (reg w) →
  match p2pStreamCloseCmd E closeAll arg w with
  | (Ok _, w') =>
      w' = set_reg (reg w') w ∧ RegInv (reg w') ∧
      (if closeAll : bool then Streams (reg w') = ∅
       else ∃ s n, arg = Some s ∧ ParseUint s = Some n ∧ Streams (reg w') = delete n (Streams (reg w))) ∧
      (∀ c, c ∈ open_conns (reg w') ↔ c ∈ open_conns (reg w) ∧
        ¬ ∃ id s, Streams (reg w) !! id = Some s ∧ Streams (reg w') !! id = None ∧ (c = P2P.Local s ∨ c = P2P.Remote s))
  | (Err (Fail _), w') => w' = w
  | (Err _, _) => False
  end.
Proof.
  intros Hr. unfold p2pStreamCloseCmd. rewrite mlift_bind.
  destruct (p2pGetNode E) as [[]|e] eqn:Hg; [|by apply p2pGetNode_err in Hg as [s ->]].
  rewrite mlift_bind.
  assert (NoDup (range E (Z * Stream) (map_to_list (Streams (reg w)))).*1) as Hnd
    by (rewrite range_perm; apply NoDup_fst_map_to_list).
  assert (∀ n p, p ∈ to_close closeAll n (range E (Z * Stream) (map_to_list (Streams (reg w)))) ↔
    Streams (reg w) !! p.1 = Some p.2 ∧ (closeAll = true ∨ p.1 = n)) as Hin.
  { intros n [i s]. rewrite to_close_spec by done. rewrite range_perm. cbn [fst snd]. by rewrite elem_of_map_to_list. }
  destruct (if closeAll then _ else _) as [n|e] eqn:Hn; [|destruct closeAll, arg; try done; [case_match; simplify_eq; done|by simplify_eq]].
  unfold mmodify. fold (reset_all (to_close closeAll n (range E (Z * Stream) (map_to_list (Streams (reg w))))) (reg w)).
  destruct (reset_all_spec (to_close closeAll n (range E (Z * Stream) (map_to_list (Streams (reg w))))) (reg w) Hr) as (HI & Hs & Hc).
  assert (∀ i, i ∈ (to_close closeAll n (range E (Z * Stream) (map_to_list (Streams (reg w))))).*1 ↔
    is_Some (Streams (reg w) !! i) ∧ (closeAll = true ∨ i = n)) as Hids.
  { intros i. rewrite list_elem_of_fmap. split; [intros (p & -> & [Hp ?]%Hin); split; [by eexists|done]|].
    intros [[s Hi] ?]. exists (i, s). split; [done|]. by apply Hin. }
  set (r' := reset_all _ _) in *. cbn [reg set_reg]. split_and!; [done|done|..].
  - destruct closeAll.
    + apply map_eq. intros i. rewrite Hs, lookup_empty. case_decide as Hd; [done|].
      destruct (Streams (reg w) !! i) eqn:Hi; [|done]. exfalso. apply Hd, Hids. split; [by eexists|by left].
    + destruct arg as [s|]; [|done]. destruct (ParseUint s) as [n'|] eqn:Hp; [|done]. injection Hn as ->.
      exists s, n. split_and!; [done|done|]. apply map_eq. intros i. rewrite Hs, lookup_delete.
      case_decide as Hd; [apply Hids in Hd as [_ [| ->]]; [done|by rewrite decide_True]|].
      case_decide as Hi; [|done]. destruct (Streams (reg w) !! i) eqn:He; [|done]. exfalso. apply Hd, Hids. split; [by eexists|by right].
  - intros c. rewrite Hc. split; intros [Ho Hno]; (split; [done|]).
    + intros (i & s & Hi & Hi' & Hd). apply Hno. exists (i, s). split; [|done]. apply Hin. cbn [fst snd]. split; [done|].
      rewrite Hs in Hi'. case_decide as Hd'; [by apply Hids in Hd' as [_ ?]|congruence].
    + intros ([i s] & [Hi Hd']%Hin & Hd). cbn [fst snd] in *. apply Hno. exists i, s. split_and!; [done| |done].
      rewrite Hs. rewrite decide_True; [done|]. apply Hids. split; [by eexists|done].
Qed.


(** ** Listing, and any sequence of commands *)

Lemma mapM_describe l : Forall oks l → ∃ out, mapM (describe E) l = Ok out ∧ Forall2 (λ x o, describe E x = Ok o) l out.
Proof.
  induction 1 as [|x l [Hl Ht] _ (out & Hm & Hf)]; [by exists []|].
  assert (∃ o, describe E x = Ok o) as [o Ho].
  { unfold describe. destruct (ListenAddress E x); [|done]. destruct (TargetAddress E x); [|done]. simpl. eauto. }
  exists (o :: out). split; [|by constructor]. simpl. rewrite Ho. simpl. by rewrite Hm.
Qed.

Lemma list_kind_exact k w : ListenersInv k (getL k w) →
  ∃ out, list_kind E k w = (Ok out, w) ∧ Forall2 (λ x o, describe E x = Ok o) (elements_of E (lis (getL k w))) out.
Proof.
  intros [Hf Hk Hd Ho]. destruct (mapM_describe (elements_of E (lis (getL k w)))) as (out & Hm & Hout).
  { apply Forall_forall. intros x [i Hi]%elem_of_elements_of. by eapply Ho. }
  exists out. split; [|done]. unfold list_kind. rewrite bind_unfold. unfold Lock. rewrite Hf. cbv beta iota.
  rewrite mlift_bind, Hm. cbn. unfold Unlock, mmodify. destruct w as [[a b] [c d] e f g], k; simpl in *; by subst.
Qed.

(** p2p ls: shows every listener of both registries once, and changes nothing. *)
Theorem p2pLs_exact w :
  P2PInv w →
  match p2pLsCmd E w with
  | (Ok out, w') => w' = w ∧ ∃ L, L ≡ₚ (map_to_list (lis (ListenersLocal w))).*2 ++ (map_to_list (lis (ListenersP2P w))).*2 ∧
      Forall2 (λ x o, describe E x = Ok o) L out
  | (Err (Fail _), w') => w' = w
  | (Err _, _) => False
  end.
Proof.
  intros Hw. unfold p2pLsCmd. rewrite mlift_bind. destruct (p2pGetNode E) as [[]|e] eqn:Hg; [|by apply p2pGetNode_err in Hg as [s ->]].
  destruct (list_kind_exact KLocal w) as (o1 & Ho1 & Hf1); [apply Hw|]. rewrite bind_unfold, Ho1.
  destruct (list_kind_exact KP2P w) as (o2 & Ho2 & Hf2); [apply Hw|]. rewrite bind_unfold, Ho2.
  split; [done|]. exists (elements_of E (lis (ListenersLocal w)) ++ elements_of E (lis (ListenersP2P w))). split.
  - unfold elements_of. by rewrite !range_perm.
  - by apply Forall2_app.
Qed.

Lemma P2PInv_close f w w' :
  P2PInv w → (∀ k, getL k w' = mkListeners (lis_Close f (lis (getL k w))).1 false) → reg w' = reg w →
  (∀ s, s ∈ socks w' ↔ s ∈ socks w ∧ ¬ ∃ i x, lis (ListenersLocal w) !! i = Some x ∧ f x = true ∧ s ∈ sock_of x) →
  P2PInv w'.
Proof.
  intros [Hl Hs Ho Hr] Hk Hreg Hsk.
  assert (∀ i x, lis (ListenersLocal w') !! i = Some x → lis (ListenersLocal w) !! i = Some x ∧ f x = false) as Hsub.
  { intros i x. change (ListenersLocal w') with (getL KLocal w'). rewrite Hk. cbn [lis]. apply elem_of_lis_Close. }
  split.
  - intros k. rewrite Hk. by apply ListenersInv_sub.
  - intros i x [Hx Hf]%Hsub s Hsx. apply Hsk. split; [by eapply Hs|]. intros (j & y & Hy & Hfy & Hsy).
    destruct (decide (i = j)) as [<-|Hne]; [congruence|]. by eapply (Ho i j x y).
  - intros i j x y [Hx _]%Hsub [Hy _]%Hsub. by apply Ho.
  - by rewrite Hreg.
Qed.

Lemma P2PInv_local laddr l w calls sock :
  P2PInv w → key l = laddr → kind_of l = KLocal → oks l → sock_of l = {[sock]} → sock ∉ socks w →
  lis (ListenersLocal w) !! laddr = None →
  P2PInv (mkP2PW (mkListeners (<[laddr := l]> (lis (ListenersLocal w))) false) (ListenersP2P w) (reg w) ({[sock]} ∪ socks w) calls).
Proof.
  intros [Hl Hs Ho Hr] Hk Hkd Hok Hsl Hn Hla. pose proof (Hl KLocal) as [Hf1 Hk1 Hd1 Ho1]. pose proof (Hl KP2P) as [Hf2 Hk2 Hd2 Ho2].
  split; cbn [ListenersLocal ListenersP2P lis socks reg]; [|..|done].
  - intros []; split; cbn; try done; intros i x [[<- <-]|[_ ?]]%lookup_insert_Some; eauto.
  - intros i x [[<- <-]|[_ Hx]]%lookup_insert_Some; [set_solver|]. apply Hs in Hx. set_solver.
  - intros i j x y [[<- <-]|[Hi Hx]]%lookup_insert_Some [[<- <-]|[Hj Hy]]%lookup_insert_Some Hne; try done;
      rewrite ?Hsl; [apply Hs in Hy|apply Hs in Hx|by eapply Ho]; set_solver.
Qed.

Lemma P2PInv_p2p proto l w :
  P2PInv w → key l = proto → kind_of l = KP2P → oks l →
  P2PInv (setL KP2P (mkListeners (<[proto := l]> (lis (ListenersP2P w))) false) w).
Proof.
  intros [Hl Hs Ho Hr] Hk Hkd Hok. split; try done.
  intros k. pose proof (Hl k) as [Hf Hk' Hd Ho']. destruct k; split; cbn; try done;
    intros i x [[<- <-]|[_ ?]]%lookup_insert_Some; eauto.
Qed.

Lemma P2PInv_reg r w : P2PInv w → RegInv r → P2PInv (set_reg r w).
Proof. intros [Hl Hs Ho _] Hr. by split. Qed.

(** A command, and how it ends *)
Inductive P2POp :=
  | Forward (proto listen target : string) (allow : bool)
  | Listen (proto target : string) (allow report : bool)
  | Ls
  | Close (closeAll : bool) (p l t : option string)
  | StreamLs
  | StreamClose (closeAll : bool) (arg : option string).

Definition p2p_run (op : P2POp) : M P2PW P2PErr unit :=
  match op with
  | Forward proto listen target allow => p2pForwardCmd E proto listen target allow
  | Listen proto target allow report => p2pListenCmd E proto target allow report
  | Ls => _ ← p2pLsCmd E; mret ()
  | Close closeAll p l t => _ ← p2pCloseCmd E closeAll p l t; mret ()
  | StreamLs => _ ← p2pStreamLsCmd E; mret ()
  | StreamClose closeAll arg => p2pStreamCloseCmd E closeAll arg
  end.

(** One after the other, each ending as it may *)
Fixpoint p2p_runs (ops : list P2POp) (w : P2PW) : list (res P2PErr unit) * P2PW :=
  match ops with
  | [] => ([], w)
  | op :: ops' => let '(r, w1) := p2p_run op w in let '(rs, w2) := p2p_runs ops' w1 in (r :: rs, w2)
  end.

Definition op_ok (op : P2POp) : Prop :=
  match op with Forward _ _ target _ => names_peer E target | _ => True end.

Definition ends_well (r : res P2PErr unit) : Prop := match r with Err (Panic _) | Err Deadlock => False | _ => True end.

Lemma forward_ok proto listen target allow w :
  P2PInv w → names_peer E target →
  ends_well (p2pForwardCmd E proto listen target allow w).1 ∧ P2PInv (p2pForwardCmd E proto listen target allow w).2.
Proof.
  intros Hw Hp. pose proof (pi_lis _ Hw KLocal) as Hl. pose proof (li_free _ _ Hl) as Hfree.
  pose proof (p2pForward_exact proto listen target allow w Hfree) as Hx.
  destruct (p2pForwardCmd E proto listen target allow w) as [[[]|[e|e|]] w'] eqn:Hr; try done.
  - destruct Hx as (m & ai & sock & laddr & Hm & Hai & Hs & _ & Hn & ->). split; [done|].
    apply P2PInv_local; try done; [|by eapply listen_fresh].
    split; [done|]. cbn [TargetAddress].
    pose proof (parseIpfsAddr_peer target ai Hai (Hp ai Hai)) as Hok. by apply must_maddr_ok.
  - split; [done|]. destruct Hx as (H1 & H2 & H3).
    assert (socks w ⊆ socks w') as Hsub.
    { revert Hr. unfold p2pForwardCmd. rewrite mlift_bind. destruct (p2pGetNode E); [|by intros [= _ <-]].
      rewrite mlift_bind. destruct (fail (NewMultiaddr _ _)); [|by intros [= _ <-]].
      rewrite mlift_bind. destruct (fail (parseIpfsAddr _ _)); [|by intros [= _ <-]].
      rewrite mlift_bind. destruct (fail (check_proto _ _)); [|by intros [= _ <-]].
      rewrite forwardLocal_run by done. cbv zeta. destruct (manet_Listen _ _ _) as [[sock laddr]|]; [|by intros [= _ <-]].
      destruct (ForwardLocal _ _ _ _). intros [= _ <-]. cbn. set_solver. }
    destruct Hw as [HL' Hs Ho Hrg]. cbn [snd]. split.
    + intros []; unfold getL; [rewrite H1; apply (HL' KLocal)|rewrite H2; apply (HL' KP2P)].
    + rewrite H1. intros i x Hx. etrans; [by eapply Hs|done].
    + by rewrite H1.
    + by rewrite H3.
Qed.

Lemma p2p_run_ok op w : P2PInv w → op_ok op → ends_well (p2p_run op w).1 ∧ P2PInv (p2p_run op w).2.
Proof.
  intros Hw Hop. destruct op as [proto listen target allow|proto target allow report| |closeAll p l t| |closeAll arg]; cbn [p2p_run].
  - by apply forward_ok.
  - pose proof (p2pListen_exact proto target allow report w (li_free _ _ (pi_lis _ Hw KP2P))) as Hx.
    destruct (p2pListenCmd E proto target allow report w) as [[[]|[e|e|]] w'] eqn:Hr; try done; [|by subst].
    split; [done|]. destruct Hx as (m & n & Hm & _ & _ & _ & Hd & Hd' & Hq & Hw' & Hf). cbn [snd]. rewrite Hw'.
    assert (ListenersP2P w' = mkListeners (<[proto := remoteListener proto (maddr_String (sw E) m) report]> (lis (ListenersP2P w))) false) as ->.
    { destruct (ListenersP2P w') as [ls b]. simpl in *. subst b. f_equal. apply map_eq. intros q.
      destruct (decide (q = proto)) as [->|Hne]; [by rewrite lookup_insert_eq|]. rewrite lookup_insert_ne by done. by apply Hq. }
    apply P2PInv_p2p; try done. split; [|done]. apply must_maddr_ok, identity_ok.
  - pose proof (p2pLs_exact w Hw) as Hx. rewrite bind_unfold.
    destruct (p2pLsCmd E w) as [[out|[e|e|]] w']; try done; [by destruct Hx as [-> _]|by subst].
  - rewrite bind_unfold. destruct (p2pCloseCmd E closeAll p l t w) as [n w'] eqn:Hr. apply p2pClose_run in Hr; [|done].
    destruct n as [n|[e|e|]]; [|by subst|done..]. destruct Hr as (lm & tm & _ & _ & Hk & Hs & Hreg & _). split; [done|].
    by eapply P2PInv_close.
  - unfold p2pStreamLsCmd. rewrite bind_unfold, mlift_bind. destruct (p2pGetNode E) as [[]|e] eqn:Hg; [done|].
    by apply p2pGetNode_err in Hg as [s ->].
  - pose proof (p2pStreamClose_exact closeAll arg w (pi_reg _ Hw)) as Hx.
    destruct (p2pStreamCloseCmd E closeAll arg w) as [[[]|[e|e|]] w']; try done; [|by subst].
    destruct Hx as (-> & HI & _). split; [done|]. by apply P2PInv_reg.
Qed.

(** Whatever p2p commands run, with targets that name a peer, none panics and none
    blocks on a lock, and the registries stay in order. *)
Theorem p2p_never_wedges ops w :
  P2PInv w → Forall op_ok ops →
  Forall ends_well (p2p_runs ops w).1 ∧ P2PInv (p2p_runs ops w).2.
Proof.
  intros Hw Hops. revert w Hw. induction Hops as [|op ops Hop _ IH]; intros w Hw; cbn [p2p_runs]; [done|].
  destruct (p2p_run_ok op w Hw Hop) as [He Hw1]. destruct (p2p_run op w) as [r w1]. cbn [fst snd] in *.
  destruct (IH w1 Hw1) as [Hes Hw2]. destruct (p2p_runs ops w1) as [rs w2]. split; [by constructor|done].
Qed.

End laws.

(** ** Examples *)

Module P2PCmdExample.

(** "/ip4/127.0.0.1/tcp/80", "/ip4/127.0.0.1/tcp/0" and "/dns/x", which resolves to an
    address without a peer *)
Definition addr (s : string) : res string Multiaddr :=
  if decide (s = "/p2p/A") then Ok [("p2p", "A")]
  else if decide (s = "/p2p/Qm") then Ok [("p2p", "Qm")]
  else if decide (s = "/ip4/127.0.0.1/tcp/80") then Ok [("ip4", "127.0.0.1"); ("tcp", "80")]
  else if decide (s = "/ip4/127.0.0.1/tcp/0") then Ok [("ip4", "127.0.0.1"); ("tcp", "0")]
  else if decide (s = "/dns/x") then Ok [("dns", "x")] else Err "failed to parse multiaddr".

Definition swenv : SwarmEnv := {|
  NewMultiaddr := addr; maddr_String := maddr_String (SwarmExample.env None);
  Resolve := λ m, if decide (m = [("dns", "x")]) then Ok [[("ip4", "d")]] else Err "no such host";
  arrive := λ l, l; arrive_err := λ l, l; range_peers := λ l, l; online := true;
  host_Connect := λ _ cs, Ok cs; ClosePeer_err := λ _, None; Close_err := λ _, None; latency := λ _, 0%Z;
  Duration_String := λ _, ""; known := []; hostAddrs := []; listenAddrs := Ok []; self := Ok "Qm"; Pretty := λ p, p;
  peer_Decode := λ s, Ok s; NewComponent_err := λ _, None; sort_by := λ _ _ l, l; NewMask := λ s, Ok s;
  ConvertIPNet := λ s, Ok s; Open_err := None; SetConfig_err := None; emit_err := λ _, None |}.

Definition env : P2PCmdEnv := {|
  sw := swenv; GetNode_err := None; StreamMounting := Ok true;
  manet_Listen := λ m s, Ok (fresh s, maddr_String swenv m); identity := "Qm"; range := λ _ l, l |}.

Definition w0 : P2PW := mkP2PW (mkListeners ∅ false) (mkListeners ∅ false) newStreamRegistry ∅ [].

#[global] Instance laws : P2PCmdLaws env.
Proof.
  split; [done|..].
  - intros m s sock a [= <- _]. apply is_fresh.
  - done.
  - intros s m t id. cbn. unfold addr. repeat case_decide; intros [= <-]; vm_compute; intros [= <- <-]; done.
  - intros m l a t id. cbn. case_decide; [|done]. intros [= <-] ->%list_elem_of_singleton. vm_compute. by intros [= <- <-].
Qed.

Lemma w0_inv : P2PInv env w0.
Proof.
  split; [..|apply RegInv_new].
  - intros []; split; try done; intros i l Hl; exfalso; exact (lookup_empty_Some (M := gmap string) _ _ Hl).
  - intros i l Hl. exfalso; exact (lookup_empty_Some (M := gmap string) _ _ Hl).
  - intros i j l l' Hl. exfalso; exact (lookup_empty_Some (M := gmap string) _ _ Hl).
Qed.

Definition forward : P2POp := Forward "/x/ssh" "/ip4/127.0.0.1/tcp/80" "/p2p/A" false.
Definition listen : P2POp := Listen "/x/ssh" "/ip4/127.0.0.1/tcp/80" false false.

(** A target that resolves only to addresses without a peer is forwarded to the empty
    peer; p2p ls then panics and leaves the lock held, and every later command that
    needs the local listeners blocks. *)
Lemma forward_to_nobody :
  (p2p_runs env [Forward "/x/ssh" "/ip4/127.0.0.1/tcp/80" "/dns/x" false; Ls; Ls; Close true None None None; forward] w0).1 =
    [Ok (); Err (Panic "failed to parse multiaddr"); Err Deadlock; Err Deadlock; Err Deadlock].
Proof. vm_compute. reflexivity. Qed.

(** With headers, the header is printed before every row, and not at all for an empty
    table. *)
Lemma header_per_row :
  p2pLs_text true [] = [] ∧
  p2pLs_text true [mkPLI "/x/a" "l" "t"; mkPLI "/x/b" "l" "t"] =
    [["Protocol"; "Listen Address"; "Target Address"]; ["/x/a"; "l"; "t"];
     ["Protocol"; "Listen Address"; "Target Address"]; ["/x/b"; "l"; "t"]].
Proof. done. Qed.

End P2PCmdExample.

Import P2PCmdExample.

Lemma p2p_never_wedges_witness :
  (p2p_runs env [forward; listen; Ls; Close false (Some "/x/ssh") None None; Ls] w0).1 = [Ok (); Ok (); Ok (); Ok (); Ok ()] ∧
  Forall ends_well (p2p_runs env [forward; listen; Ls; Close false (Some "/x/ssh") None None; Ls] w0).1 ∧
  P2PInv env (p2p_runs env [forward; listen; Ls; Close false (Some "/x/ssh") None None; Ls] w0).2.
Proof.
  split; [vm_compute; reflexivity|]. apply (p2p_never_wedges env); [apply w0_inv|].
  repeat constructor; try done. intros ai. vm_compute. by intros [= <-].
Defined.

Definition w1 : P2PW := (p2p_runs env [forward; listen] w0).2.

Lemma w1_inv : P2PInv env w1.
Proof.
  unfold w1. apply (p2p_never_wedges env); [apply w0_inv|]. repeat constructor. intros ai. vm_compute. by intros [= <-].
Qed.

Lemma p2pClose_exact_witness :
  (p2pCloseCmd env false (Some "/x/ssh") None (Some "/p2p/A") w1).1 = Ok 1 ∧
  lis (ListenersLocal (p2pCloseCmd env false (Some "/x/ssh") None (Some "/p2p/A") w1).2) !! "/ip4/127.0.0.1/tcp/80" = None.
Proof.
  pose proof (p2pClose_exact env false (Some "/x/ssh") None (Some "/p2p/A") w1 w1_inv) as Hx.
  assert ((p2pCloseCmd env false (Some "/x/ssh") None (Some "/p2p/A") w1).1 = Ok 1) as Hr by (vm_compute; reflexivity).
  split; [done|]. destruct (p2pCloseCmd _ _ _ _ _ _) as [r w']. cbn [fst] in Hr. subst r. cbn [snd].
  destruct Hx as (lm & tm & Hl & Ht & Hk & _). injection Hl as <-. injection Ht as <-.
  destruct (lis (ListenersLocal w') !! "/ip4/127.0.0.1/tcp/80") as [x|] eqn:Hx; [|done].
  apply (Hk KLocal) in Hx as [Hx Hno]. exfalso. apply Hno. right.
  assert (x = localListener "/x/ssh" "/ip4/127.0.0.1/tcp/80" "A" 0) as -> by (vm_compute in Hx; congruence).
  split_and!; intros q [= <-]; vm_compute; done.
Defined.

Lemma p2pForward_exact_witness :
  (p2pForwardCmd env "/x/ssh" "/ip4/127.0.0.1/tcp/80" "/p2p/A" false w0).1 = Ok () ∧
  ∃ sock, 0 ∈ socks (p2pForwardCmd env "/x/ssh" "/ip4/127.0.0.1/tcp/80" "/p2p/A" false w0).2 ∧
    lis (ListenersLocal (p2pForwardCmd env "/x/ssh" "/ip4/127.0.0.1/tcp/80" "/p2p/A" false w0).2) !! "/ip4/127.0.0.1/tcp/80" =
      Some (localListener "/x/ssh" "/ip4/127.0.0.1/tcp/80" "A" sock).
Proof.
  pose proof (p2pForward_exact env "/x/ssh" "/ip4/127.0.0.1/tcp/80" "/p2p/A" false w0 eq_refl) as Hx.
  assert ((p2pForwardCmd env "/x/ssh" "/ip4/127.0.0.1/tcp/80" "/p2p/A" false w0).1 = Ok ()) as Hr by (vm_compute; reflexivity).
  split; [done|]. destruct (p2pForwardCmd _ _ _ _ _ _) as [r w']. cbn [fst] in Hr. subst r. cbn [snd].
  destruct Hx as (m & ai & sock & laddr & Hm & Ha & Hs & _ & _ & ->).
  vm_compute in Hm, Ha. injection Hm as <-. injection Ha as <-. vm_compute in Hs. injection Hs as <- <-.
  exists 0. split; [vm_compute; reflexivity|]. apply lookup_insert_eq.
Defined.

Lemma p2pListen_exact_witness :
  (p2pListenCmd env "/x/ssh" "/ip4/127.0.0.1/tcp/80" false true w0).1 = Ok () ∧
  dispatch "/x/ssh" (lis (ListenersP2P (p2pListenCmd env "/x/ssh" "/ip4/127.0.0.1/tcp/80" false true w0).2)) =
    Some (remoteListener "/x/ssh" "/ip4/127.0.0.1/tcp/80" true).
Proof.
  pose proof (p2pListen_exact env "/x/ssh" "/ip4/127.0.0.1/tcp/80" false true w0 eq_refl) as Hx.
  assert ((p2pListenCmd env "/x/ssh" "/ip4/127.0.0.1/tcp/80" false true w0).1 = Ok ()) as Hr by (vm_compute; reflexivity).
  split; [done|]. destruct (p2pListenCmd _ _ _ _ _ _) as [r w']. cbn [fst] in Hr. subst r. cbn [snd].
  destruct Hx as (m & n & Hm & _ & _ & _ & _ & Hd & _). vm_compute in Hm. injection Hm as <-. exact Hd.
Defined.

Lemma p2pLs_exact_witness :
  ∃ out, (p2pLsCmd env w1).1 = Ok out ∧ length out = 2 ∧ (p2pLsCmd env w1).2 = w1.
Proof.
  pose proof (p2pLs_exact env w1 w1_inv) as Hx.
  assert (match (p2pLsCmd env w1).1 with Ok out => length out = 2 | Err _ => False end) as Hr by (vm_compute; reflexivity).
  destruct (p2pLsCmd env w1) as [[out|e] w']; [|done]. destruct Hx as [-> _]. by exists out.
Defined.

Definition ws : P2PW := set_reg (Register (mkStream "/x/ssh" "o" "t" "A" 1 2) (add_conn 2 (add_conn 1 newStreamRegistry))).2 w0.

Lemma p2pStreamClose_exact_witness :
  (p2pStreamCloseCmd env false (Some "0") ws).1 = Ok () ∧
  Streams (reg (p2pStreamCloseCmd env false (Some "0") ws).2) = ∅ ∧
  1 ∉ open_conns (reg (p2pStreamCloseCmd env false (Some "0") ws).2).
Proof.
  assert (RegInv (reg ws)) as Hi by (apply Register_add_inv; [done|]; apply RegInv_add, RegInv_new).
  pose proof (p2pStreamClose_exact env false (Some "0") ws Hi) as Hx.
  assert ((p2pStreamCloseCmd env false (Some "0") ws).1 = Ok ()) as Hr by (vm_compute; reflexivity).
  split; [done|]. destruct (p2pStreamCloseCmd _ _ _ _) as [r w']. cbn [fst] in Hr. subst r. cbn [snd].
  destruct Hx as (_ & _ & (s & n & Hs & Hn & Hst) & Hc). injection Hs as <-. vm_compute in Hn. injection Hn as <-.
  rewrite Hst. split; [vm_compute; reflexivity|]. intros [_ Hno]%Hc. apply Hno.
  exists 0%Z, (mkStream "/x/ssh" "o" "t" "A" 1 2). split; [done|]. split; [|by left]. rewrite Hst. done.
Defined.
