(* ===== verification/ReadCmd.v ===== *)
(** * Reading files: cat, get and ls
      (core/commands/cat.go, get.go, ls.go and the reading half of core/coreapi/unixfs.go)

    cat joins the windows of several files into one, get stores a file or a
    directory as an archive or unpacked, ls lists the links of directories.  The
    UnixFS library, the archive formats and the progress bar are parameters. *)

From Stdlib Require Import ZArith Ascii String.
From stdpp Require Import base gmap sets list strings sorting.
From S2P Require Import Prelude GoStrings GoFS Cid CmdEnv.
From S2P Require Mfs.

(** ** cat *)

Definition Bytes : Type := list ascii.

(** What Unixfs().Get answers: a file (a symbolic link is one, with its target for
    content) with the answers of Size, a directory, or something else *)
Inductive INode :=
  | IFile (data : Bytes) (Size : res string Z) (Seek_err : Z → option string)
  | IDirectory
  | IOther.

Definition ErrIsDir : string := "this dag node is a directory".
Definition ErrNotSupported : string := "operation not supported".

Section cat.
Context (Get : string → res string INode).

(** The loop of cat.  A reader is what can be read from it. *)
Fixpoint cat_loop (paths : list string) (offset max : Z) (readers : list Bytes) (length : Z)
    : res string (list Bytes * Z) :=
  match paths with
  | [] => Ok (readers, length)
  | p :: paths' =>
      f ← Get p;
      match f with
      | IDirectory => Err ErrIsDir
      | IOther => Err ErrNotSupported
      | IFile data Size Seek_err =>
          fsize ← Size;
          if (offset >? fsize)%Z then cat_loop paths' (i64 (offset - fsize)) max readers length else
          match Seek_err offset with
          | Some e => Err e
          | None =>
              let count := offset in
              let file := drop (Z.to_nat count) data in
              fsize ← Size;
              let size := u64 (fsize - count) in
              let length := u64 (length + size) in
              if (max >? 0)%Z && (length >=? u64 max)%Z then
                let overshoot := i64 (length - u64 max) in
                if decide (overshoot ≠ 0%Z)
                then Ok (readers ++ [take (Z.to_nat (i64 (i64 size - overshoot))) file], u64 max)
                else Ok (readers ++ [file], length)
              else cat_loop paths' 0 max (readers ++ [file]) length
          end
      end
  end.

Definition cat (paths : list string) (offset max : Z) : res string (list Bytes * Z) :=
  if decide (max = 0%Z) then Ok ([], 0%Z) else cat_loop paths offset max [] 0.

(** CatCmd.Run: the length it announces and what it emits *)
Definition CatCmd (offsetOpt lengthOpt : option Z) (ParseBodyArgs : res string (list string)) : res string (Z * Bytes) :=
  let offset := default 0%Z offsetOpt in
  if (offset <? 0)%Z then Err "cannot specify negative offset" else
  let max := default 0%Z lengthOpt in
  if (max <? 0)%Z then Err "cannot specify negative length" else
  let max := match lengthOpt with None => (-1)%Z | Some _ => max end in
  args ← ParseBodyArgs;
  '(readers, length) ← cat args offset max;
  Ok (length, concat readers).

End cat.

(** ** get *)

Definition NoCompression : Z := 0.
Definition DefaultCompression : Z := (-1).
Definition ErrInvalidCompressionLevel : string := "compression level must be between 1 and 9".

(** getCompressOptions *)
Definition getCompressOptions (cmprs : option bool) (cmplvl : option Z) : res string Z :=
  let cmprs := default false cmprs in
  if negb cmprs then Ok NoCompression else
  match cmplvl with
  | None => Ok DefaultCompression
  | Some lvl => if (lvl <? 1)%Z || (lvl >? 9)%Z then Err ErrInvalidCompressionLevel else Ok lvl
  end.

(** getOutPath, with filepath.Split *)
Definition getOutPath (output : string) (arg : string) : string :=
  if decide (output = "") then Clean (Mfs.PathSplit (Mfs.TrimRight arg)).2 else output.

(** The file a getWriter saves an archive to *)
Definition archive_path (archive : bool) (compression : Z) (fpath : string) : string :=
  let fpath := if archive && negb (HasSuffix fpath ".tar") && negb (HasSuffix fpath ".tar.gz")
               then fpath +:+ ".tar" else fpath in
  if negb (bool_decide (compression = NoCompression)) && negb (HasSuffix fpath ".gz") then fpath +:+ ".gz" else fpath.

(** What a pipe delivers: its bytes, and the error it is closed with *)
Record Piped := mkPiped { piped : string; pipe_err : option string }.

(** files.Node for get, the archive formats, and the extractor of tar-utils *)
Record GetEnv (GNode : Type) := mkGetEnv {
  api_Get : string → res string GNode;
  node_Size : GNode → res string Z;
  (** files.ToFile with what reading it gives *)
  ToFile : GNode → option Piped;
  (** A tar writer over all of a node under a name *)
  tar : GNode → string → Piped;
  NewWriterLevel_err : Z → option string;
  gzip : Z → string → string;
  Extract : string → Piped → M FS OSErr unit;
}.
Arguments api_Get {GNode}. Arguments node_Size {GNode}. Arguments ToFile {GNode}. Arguments tar {GNode}.
Arguments NewWriterLevel_err {GNode}. Arguments gzip {GNode}. Arguments Extract {GNode}.

Section get.
Context {GNode : Type} (E : GetEnv GNode).

(** newMaybeGzWriter *)
Definition maybe_gz (compression : Z) (p : Piped) : Piped :=
  if decide (compression = NoCompression) then p
  else match pipe_err p with None => mkPiped (gzip E compression (piped p)) None | Some e => p end.

(** fileArchive *)
Definition fileArchive (f : GNode) (name : string) (archive : bool) (compression : Z) : res string Piped :=
  let filename := (Mfs.PathSplit (Clean name)).2 in
  match (if decide (compression = NoCompression) then None else NewWriterLevel_err E compression) with
  | Some e => Err e
  | None =>
      if negb archive && bool_decide (compression ≠ NoCompression) then
        match ToFile E f with
        | None => Err "file is not regular"
        | Some r => Ok (maybe_gz compression r)
        end
      else Ok (maybe_gz compression (tar E f filename))
  end.

(** GetCmd.Run: the length announced and the reader emitted *)
Definition GetCmd (arg : string) (archive : bool) (cmprs : option bool) (lvl : option Z) : res string (Z * Piped) :=
  cmplvl ← getCompressOptions cmprs lvl;
  file ← api_Get E arg;
  size ← node_Size E file;
  reader ← fileArchive file arg archive cmplvl;
  Ok (u64 size, reader).

(** getWriter.writeArchive and Write.  io.Copy stores what arrives before an error. *)
Context (fault : string → string → option string).

Definition writeArchive (archive : bool) (compression : Z) (r : Piped) (fpath : string) : M FS OSErr unit :=
  let fpath := archive_path archive compression fpath in
  _ ← OsCreate fault fpath;
  _ ← WriteTo fault fpath (piped r);
  match pipe_err r with None => mret () | Some e => mthrow (OtherErr e) end.

Definition getWriter_Write (archive : bool) (compression : Z) (r : Piped) (fpath : string) : M FS OSErr unit :=
  if archive || bool_decide (compression ≠ NoCompression) then writeArchive archive compression r fpath
  else Extract E fpath r.

(** GetCmd.PostRun on the command line *)
Definition GetCmd_PostRun (arg output : string) (archive : bool) (cmprs : option bool) (lvl : option Z) (r : Piped)
    : M FS OSErr unit :=
  let outPath := getOutPath output arg in
  match getCompressOptions cmprs lvl with
  | Err e => mthrow (OtherErr e)
  | Ok cmplvl => getWriter_Write archive cmplvl r outPath
  end.

(** The whole command: Run at the daemon, PostRun at the client *)
Definition get_command (arg output : string) (archive : bool) (cmprs : option bool) (lvl : option Z) : M FS OSErr unit :=
  match GetCmd arg archive cmprs lvl with
  | Err e => mthrow (OtherErr e)
  | Ok (_, r) => GetCmd_PostRun arg output archive cmprs lvl r
  end.

End get.

(** ** ls *)

(** unixfs_pb.Data_DataType *)
Inductive DataType := TRaw | TDirectory | TFile | TMetadata | TSymlink | THAMTShard.
#[export] Instance DataType_eq_dec : EqDecision DataType. Proof. solve_decision. Defined.

Record FSNode := mkFSNode { fs_Type : DataType; fs_Data : string; fs_FileSize : Z }.

(** coreiface.FileType and DirEntry *)
Inductive FileType := FUnknown | FTFile | FTDirectory | FTSymlink.

Record DirEntry := mkDirEntry { de_Name : string; de_Cid : Cid; de_Size : Z; de_Type : FileType; de_Target : string; de_Err : option string }.

Record LsEnvLink := mkLink { lk_Name : string; lk_Size : Z; lk_Cid : Cid }.

Record LsLink := mkLsLink { ls_Name : string; ls_Hash : string; ls_Size : Z; ls_Type : DataType; ls_Target : string }.
Record LsObject := mkLsObject { ob_Hash : string; ob_Links : list LsLink }.

(** A resolved node: its links, and as a directory the results of enumerating it *)
Record LsNode := mkLsNode { nd_Links : list LsEnvLink; nd_Dir : option (res string (list (res string LsEnvLink))) }.

Record LsEnv := mkLsEnv {
  ResolveNode : string → res string LsNode;
  (** Link.GetNode; a node other than a ProtoNode is None, the data of a ProtoNode
      parses or does not *)
  GetNode : Cid → res string (option (res string FSNode));
  EncodeCid : Cid → string;
  EscNonPrint : string → string;
  FormatUint : Z → string;
  (** sort.Slice by name *)
  sort_links : list LsLink → list LsLink;
  Emit_err : option string;
}.

Section ls.
Context (E : LsEnv).

(** UnixfsAPI.processLink *)
Definition processLink (resolveChildren : bool) (linkres : res string LsEnvLink) : DirEntry :=
  match linkres with
  | Err e => mkDirEntry "" (CidV0 "") 0 FUnknown "" (Some e)
  | Ok l =>
      let lnk := mkDirEntry (lk_Name l) (lk_Cid l) 0 FUnknown "" None in
      if decide (cid_Type (lk_Cid l) = Raw) then mkDirEntry (lk_Name l) (lk_Cid l) (lk_Size l) FTFile "" None else
      if decide (cid_Type (lk_Cid l) = DagProtobuf) then
        if negb resolveChildren then lnk else
        match GetNode E (lk_Cid l) with
        | Err e => mkDirEntry (lk_Name l) (lk_Cid l) 0 FUnknown "" (Some e)
        | Ok None => lnk
        | Ok (Some (Err e)) => mkDirEntry (lk_Name l) (lk_Cid l) 0 FUnknown "" (Some e)
        | Ok (Some (Ok d)) =>
            let '(ty, target) :=
              match fs_Type d with
              | TFile | TRaw => (FTFile, "")
              | THAMTShard | TDirectory | TMetadata => (FTDirectory, "")
              | TSymlink => (FTSymlink, fs_Data d)
              end in
            mkDirEntry (lk_Name l) (lk_Cid l) (fs_FileSize d) ty target None
        end
      else lnk
  end.

(** UnixfsAPI.Ls, with lsFromLinks and lsFromLinksAsync: the entries in the order they
    arrive *)
Definition Ls (p : string) (resolveChildren : bool) : res string (list DirEntry) :=
  dagnode ← ResolveNode E p;
  match nd_Dir dagnode with
  | None => Ok ((λ l, processLink resolveChildren (Ok (mkLink (lk_Name l) (lk_Size l) (lk_Cid l)))) <$> nd_Links dagnode)
  | Some (Err e) => Err e
  | Some (Ok rs) => Ok (processLink resolveChildren <$> rs)
  end.

(** The body of the loop of LsCmd.Run over the entries *)
Definition to_lsLink (link : DirEntry) : LsLink :=
  mkLsLink (de_Name link) (EncodeCid E (de_Cid link)) (de_Size link)
    (match de_Type link with FTFile => TFile | FTDirectory => TDirectory | FTSymlink => TSymlink | FUnknown => TRaw end)
    (de_Target link).

(** The links up to the first entry with an error *)
Fixpoint take_links (l : list DirEntry) : list LsLink * option string :=
  match l with
  | [] => ([], None)
  | x :: l' =>
      match de_Err x with
      | Some e => ([], Some e)
      | None => let '(ls, e) := take_links l' in (to_lsLink x :: ls, e)
      end
  end.

(** The loop over the paths, without streaming: the objects to emit at the end *)
Fixpoint ls_paths (resolve : bool) (paths : list string) : res string (list LsObject) :=
  match paths with
  | [] => Ok []
  | p :: paths' =>
      results ← Ls p resolve;
      match take_links results with
      | (_, Some e) => Err e
      | (links, None) => rest ← ls_paths resolve paths'; Ok (mkLsObject p (sort_links E links) :: rest)
      end
  end.

(** With streaming: what is emitted, one object a link, and how it ends *)
Fixpoint ls_stream (resolve : bool) (paths : list string) : list LsObject * option string :=
  match paths with
  | [] => ([], None)
  | p :: paths' =>
      match Ls p resolve with
      | Err e => ([], Some e)
      | Ok results =>
          let '(links, e) := take_links results in
          let out := (λ l, mkLsObject p [l]) <$> links in
          match e with
          | Some e => (out, Some e)
          | None => let '(rest, e) := ls_stream resolve paths' in (out ++ rest, e)
          end
      end
  end.

(** LsCmd.Run: the outputs emitted, each a list of objects, and the error *)
Definition LsCmd (resolveType resolveSize stream : bool) (ParseBodyArgs : res string (list string))
    : list (list LsObject) * option string :=
  match ParseBodyArgs with
  | Err e => ([], Some e)
  | Ok paths =>
      let resolve := resolveSize || resolveType in
      if stream then
        let '(out, e) := ls_stream resolve paths in
        match Emit_err E with
        | Some e' => ([], match out with [] => e | _ => Some e' end)
        | None => ((λ o, [o]) <$> out, e)
        end
      else
        match ls_paths resolve paths with
        | Err e => ([], Some e)
        | Ok output => match Emit_err E with Some e => ([], Some e) | None => ([output], None) end
        end
  end.

(** tabularOutput: the lines, each with its cells, and the hash it returns *)
Record LsPrint := mkLsPrint { p_headers : bool; p_size : bool; p_multiple : bool; p_ignoreBreaks : bool }.

Definition break_lines (O : LsPrint) (hash last : string) : list (list string) :=
  (if p_multiple O then (if decide (last ≠ "") then [[""]] else []) ++ [[hash +:+ ":"]] else []) ++
  (if p_headers O then [if p_size O then ["Hash"; "Size"; "Name"] else ["Hash"; "Name"]] else []).

Definition link_line (O : LsPrint) (l : LsLink) : list string :=
  match ls_Type l with
  | TDirectory | THAMTShard | TMetadata =>
      if p_size O then [ls_Hash l; "-"; EscNonPrint E (ls_Name l) +:+ "/"] else [ls_Hash l; EscNonPrint E (ls_Name l) +:+ "/"]
  | _ => if p_size O then [ls_Hash l; FormatUint E (ls_Size l); EscNonPrint E (ls_Name l)]
         else [ls_Hash l; EscNonPrint E (ls_Name l)]
  end.

Fixpoint tabularOutput (O : LsPrint) (objects : list LsObject) (last : string) : list (list string) * string :=
  match objects with
  | [] => ([], last)
  | o :: objects' =>
      let brk := negb (p_ignoreBreaks O) && bool_decide (ob_Hash o ≠ last) in
      let '(lines, last') := tabularOutput O objects' (if brk then ob_Hash o else last) in
      ((if brk then break_lines O (ob_Hash o) last else []) ++ (link_line O <$> ob_Links o) ++ lines, last')
  end.

(** LsCmd.PostRun: one table after the other *)
Fixpoint ls_print (O : LsPrint) (outs : list (list LsObject)) (last : string) : list (list string) :=
  match outs with
  | [] => []
  | out :: outs' => let '(lines, last') := tabularOutput O out last in lines ++ ls_print O outs' last'
  end.

End ls.

(** ** What cat reads *)

Section cat_spec.
Context (Get : string → res string INode).

Definition content (p : string) : Bytes := match Get p with Ok (IFile d _ _) => d | _ => [] end.

(** A file whose size is that of its content *)
Definition is_file (p : string) : Prop := ∃ d sk, Get p = Ok (IFile d (Ok (Z.of_nat (length d))) sk).

(** The bytes from [offset] on, at most [max] of them unless it is negative *)
Definition window (offset max : Z) (l : Bytes) : Bytes :=
  let l := drop (Z.to_nat offset) l in if (max <? 0)%Z then l else take (Z.to_nat max) l.

(** Why cat can stop with an error at a path *)
Definition cat_fails (p e : string) : Prop :=
  Get p = Err e ∨ Get p = Ok IDirectory ∧ e = ErrIsDir ∨ Get p = Ok IOther ∧ e = ErrNotSupported ∨
  ∃ d S sk, Get p = Ok (IFile d S sk) ∧ (S = Err e ∨ ∃ o, sk o = Some e).

Context (Size_ok : ∀ p d S sk n, Get p = Ok (IFile d S sk) → S = Ok n → n = Z.of_nat (length d)).

Definition left_of (max len : Z) : Z := if (max <? 0)%Z then max else (max - len)%Z.

Lemma window_file offset max d l : (offset ≤ Z.of_nat (length d))%Z → (0 ≤ offset)%Z →
  window offset max (d ++ l) = window 0 max (drop (Z.to_nat offset) d ++ l).
Proof. intros Ho H0. unfold window. change (Z.to_nat 0) with 0. rewrite drop_0, drop_app_le by lia. done. Qed.

Lemma window_skip offset max d l : (Z.of_nat (length d) ≤ offset)%Z →
  window offset max (d ++ l) = window (offset - Z.of_nat (length d)) max l.
Proof. intros Ho. unfold window. rewrite drop_app_ge by lia. by replace (Z.to_nat (offset - Z.of_nat (length d))) with (Z.to_nat offset - length d) by lia. Qed.

Lemma window_fits max d l : (max < 0 ∨ Z.of_nat (length d) ≤ max)%Z →
  window 0 max (d ++ l) = d ++ window 0 (if (max <? 0)%Z then max else max - Z.of_nat (length d)) l.
Proof.
  intros Hm. unfold window. change (Z.to_nat 0) with 0. rewrite !drop_0. destruct (Z.ltb_spec max 0) as [Hn|Hn].
  - destruct (Z.ltb_spec max 0); [done|lia].
  - destruct (Z.ltb_spec (max - Z.of_nat (length d)) 0); [lia|].
    rewrite take_app_ge by lia. by replace (Z.to_nat (max - Z.of_nat (length d))) with (Z.to_nat max - length d) by lia.
Qed.

(** What is true of a run of the loop, the readers so far being [done] *)
Definition cat_post (paths : list string) (offset max : Z) (out : Bytes) (r : res string (list Bytes * Z)) : Prop :=
  match r with
  | Ok (rs, n) => ∃ pre post, paths = pre ++ post ∧ Forall is_file pre ∧
      concat rs = out ++ window offset (left_of max (Z.of_nat (length out))) (concat (content <$> pre)) ∧
      n = Z.of_nat (length (concat rs)) ∧ (post = [] ∨ n = max)
  | Err e => ∃ pre p post, paths = pre ++ p :: post ∧ Forall is_file pre ∧ cat_fails p e ∧
      ((max < 0)%Z ∨ (Z.of_nat (length out + length (drop (Z.to_nat offset) (concat (content <$> pre)))) < max)%Z)
  end.

(** One more file before the paths *)
Lemma cat_post_cons p d sk paths offset offset' max out out' r :
  Get p = Ok (IFile d (Ok (Z.of_nat (length d))) sk) →
  (∀ l, out ++ window offset (left_of max (Z.of_nat (length out))) (d ++ l) =
        out' ++ window offset' (left_of max (Z.of_nat (length out'))) l) →
  (∀ l, length out + length (drop (Z.to_nat offset) (d ++ l)) = length out' + length (drop (Z.to_nat offset') l)) →
  cat_post paths offset' max out' r → cat_post (p :: paths) offset max out r.
Proof.
  intros Hg Hw Hl. assert (content p = d) as Hd by (unfold content; by rewrite Hg).
  assert (is_file p) as Hf by (by eexists _, _).
  destruct r as [[rs n]|e]; cbn [cat_post].
  - intros (pre & post & -> & Hpre & Hc & Hn & Hpost). exists (p :: pre), post.
    split; [done|]. split; [by constructor|]. rewrite fmap_cons, Hd. cbn [concat]. by rewrite Hw.
  - intros (pre & q & post & -> & Hpre & Hq & Hlen). exists (p :: pre), q, post.
    split; [done|]. split; [by constructor|]. split; [done|]. rewrite fmap_cons, Hd. cbn [concat].
    destruct Hlen as [?|?]; [by left|right]. rewrite Hl. lia.
Qed.

Lemma cat_loop_spec paths offset max readers len :
  (0 ≤ offset ≤ i64_max)%Z → (max = -1 ∨ 0 < max ≤ i64_max ∧ len < max)%Z →
  len = Z.of_nat (length (concat readers)) →
  (len + Z.of_nat (length (concat (content <$> paths))) ≤ i64_max)%Z →
  cat_post paths offset max (concat readers) (cat_loop Get paths offset max readers len).
Proof.
  revert offset readers len. induction paths as [|p paths IH]; intros offset readers len Ho Hm Hlen Hb.
  { exists [], []. split_and!; [done|done|..|done|by left].
    change (concat (content <$> [])) with (@nil ascii). unfold window. rewrite drop_nil. destruct (_ <? 0)%Z; by rewrite ?take_nil, app_nil_r. }
  rewrite fmap_cons in Hb. cbn [concat] in Hb. rewrite length_app in Hb.
  assert (∀ e, cat_fails p e → cat_post (p :: paths) offset max (concat readers) (Err e)) as Hfail.
  { intros e He. exists [], p, paths. split_and!; [done|done|done|]. change (concat (content <$> [])) with (@nil ascii). rewrite drop_nil. cbn [length]. destruct Hm; [left|right]; lia. }
  cbn [cat_loop]. destruct (Get p) as [[d S sk| |]|e] eqn:Hg; cbn [mbind res_bind];
    try (apply Hfail; unfold cat_fails; rewrite Hg; naive_solver).
  destruct S as [n|e]; [|apply Hfail; unfold cat_fails; rewrite Hg; naive_solver]. cbn [mbind res_bind].
  pose proof (Size_ok _ _ _ _ _ Hg eq_refl) as ->.
  assert (content p = d) as Hd by (unfold content; by rewrite Hg). rewrite Hd in Hb.
  unfold i64_max in *.
  destruct (Z.gtb_spec offset (Z.of_nat (length d))) as [Hgt|Hle].
  { rewrite i64_small by (unfold i64_min, i64_max; lia).
    eapply cat_post_cons; [done|..|apply IH; [lia|done|done|lia]].
    - intros l. by rewrite window_skip by lia.
    - intros l. rewrite drop_app_ge by lia. do 3 f_equal. lia. }
  destruct (sk offset) as [e|] eqn:Hsk; [apply Hfail; unfold cat_fails; rewrite Hg; naive_solver|].
  set (file := drop (Z.to_nat offset) d).
  assert (Z.of_nat (length file) = Z.of_nat (length d) - offset)%Z as Hfile by (unfold file; rewrite length_drop; lia).
  rewrite <- Hfile. rewrite (u64_small (Z.of_nat (length file))) by (unfold u64_max; lia).
  rewrite (u64_small (len + _)) by (unfold u64_max; lia). cbv zeta.
  destruct (Z.gtb_spec max 0) as [Hpos|Hneg]; cbn [andb].
  - destruct Hm as [|[Hmax Hlt]]; [lia|].
    rewrite (u64_small max) by (unfold u64_max; lia).
    destruct (Z.geb_spec (len + Z.of_nat (length file)) max) as [Hge|Hnot].
    + rewrite (i64_small (_ - max)) by (unfold i64_min, i64_max; lia).
      assert (cat_post (p :: paths) offset max (concat readers)
        (Ok (readers ++ [take (Z.to_nat (max - len)) file], max))) as Hres.
      { exists [p], paths. split_and!; [done|by repeat econstructor| | |by right].
        - cbn. rewrite Hd, concat_app. cbn. rewrite !app_nil_r. f_equal.
          unfold left_of. destruct (Z.ltb_spec max 0); [lia|]. unfold window. fold file.
          destruct (Z.ltb_spec (max - Z.of_nat (length (concat readers))) 0); [lia|]. by rewrite <- Hlen.
        - rewrite concat_app, length_app. cbn. rewrite app_nil_r, length_take. lia. }
      case_decide as Hov.
      * rewrite (i64_small (Z.of_nat (length file))) by (unfold i64_min, i64_max; lia).
        rewrite i64_small by (unfold i64_min, i64_max; lia).
        replace (Z.of_nat (length file) - (len + Z.of_nat (length file) - max))%Z with (max - len)%Z by lia. done.
      * rewrite take_ge in Hres by lia. replace (len + Z.of_nat (length file))%Z with max by lia. done.
    + eapply (cat_post_cons p d sk paths offset 0 max (concat readers) (concat (readers ++ [file]))); [done|..|].
      * intros l. rewrite window_file by lia. fold file. rewrite concat_app. cbn. rewrite app_nil_r, <- app_assoc. f_equal.
        unfold left_of. destruct (Z.ltb_spec max 0); [lia|]. rewrite window_fits by lia. f_equal.
        destruct (Z.ltb_spec (max - Z.of_nat (length (concat readers))) 0); [lia|]. rewrite length_app. f_equal. lia.
      * intros l. rewrite drop_app_le by lia. fold file. rewrite concat_app. cbn. rewrite app_nil_r, !length_app. change (Z.to_nat 0) with 0. rewrite drop_0. lia.
      * apply IH; [lia|right; lia| |lia]. rewrite concat_app, length_app. cbn. rewrite app_nil_r. lia.
  - eapply (cat_post_cons p d sk paths offset 0 max (concat readers) (concat (readers ++ [file]))); [done|..|].
    + intros l. rewrite window_file by lia. fold file. rewrite concat_app. cbn. rewrite app_nil_r, <- app_assoc. f_equal.
      unfold left_of. destruct (Z.ltb_spec max 0); [|lia]. rewrite window_fits by lia. by destruct (Z.ltb_spec max 0); [|lia].
    + intros l. rewrite drop_app_le by lia. fold file. rewrite concat_app. cbn. rewrite app_nil_r, !length_app. change (Z.to_nat 0) with 0. rewrite drop_0. lia.
    + apply IH; [lia|left; lia| |lia]. rewrite concat_app, length_app. cbn. rewrite app_nil_r. lia.
Qed.

End cat_spec.

Lemma window_done offset max l l' :
  (0 ≤ max)%Z → Z.of_nat (length (window offset max l)) = max → window offset max (l ++ l') = window offset max l.
Proof.
  unfold window. intros H0. destruct (Z.ltb_spec max 0); [lia|]. intros Hn. rewrite length_take in Hn.
  destruct (decide (Z.to_nat max = 0)) as [->|Hz]; [by rewrite !take_0|].
  rewrite length_drop in Hn. rewrite drop_app_le by lia. rewrite take_app_le by (rewrite length_drop; lia). done.
Qed.

(** C25.  cat: what it writes is the window of the joined contents that the options ask for,
    whatever the cut into files; it announces that many bytes; and an error is that of
    the first path that is no readable file, which lies before the window is full. *)
Theorem CatCmd_exact Get offsetOpt lengthOpt paths :
  (∀ p d S sk n, Get p = Ok (IFile d S sk) → S = Ok n → n = Z.of_nat (length d)) →
  (Z.of_nat (length (concat (content Get <$> paths))) ≤ i64_max)%Z →
  (default 0%Z offsetOpt ≤ i64_max)%Z → (default 0%Z lengthOpt ≤ i64_max)%Z →
  let offset := default 0%Z offsetOpt in
  let max := default (-1)%Z lengthOpt in
  match CatCmd Get offsetOpt lengthOpt (Ok paths) with
  | Ok (n, out) => (0 ≤ offset)%Z ∧ n = Z.of_nat (length out) ∧
      (∃ pre post, paths = pre ++ post ∧ Forall (is_file Get) pre ∧
        out = window offset max (concat (content Get <$> pre)) ∧ (post = [] ∨ n = max)) ∧
      (Forall (is_file Get) paths → out = window offset max (concat (content Get <$> paths)))
  | Err e => (offset < 0)%Z ∨ (∃ m, lengthOpt = Some m ∧ m < 0)%Z ∨
      ∃ pre p post, paths = pre ++ p :: post ∧ Forall (is_file Get) pre ∧ cat_fails Get p e ∧
        ((max < 0)%Z ∨ (Z.of_nat (length (drop (Z.to_nat offset) (concat (content Get <$> pre)))) < max)%Z)
  end.
Proof.
  intros HS Hb Ho Hl offset max. unfold CatCmd. fold offset. cbv zeta.
  destruct (Z.ltb_spec offset 0); [by left|].
  destruct (Z.ltb_spec (default 0%Z lengthOpt) 0).
  { destruct lengthOpt as [m|]; [right; left; by exists m|simpl in *; lia]. }
  assert (match lengthOpt with None => (-1)%Z | Some _ => default 0%Z lengthOpt end = max) as -> by (by destruct lengthOpt).
  assert ((max = -1 ∨ 0 ≤ max ≤ i64_max)%Z) as Hm.
  { unfold max. destruct lengthOpt; simpl in *; [right; lia|by left]. }
  unfold cat. cbn [mbind res_bind]. destruct (decide (max = 0%Z)) as [Hz|Hz].
  { cbn. split; [done|]. split; [done|].
    assert (∀ l, window offset max l = []) as Hw by (intros l; unfold window; rewrite Hz; done).
    split; [|by rewrite Hw]. exists [], paths. rewrite Hw. split_and!; try done. by right. }
  assert (cat_post Get paths offset max [] (cat_loop Get paths offset max [] 0)) as Hs
    by (apply cat_loop_spec; [done|lia|lia|done|lia]).
  assert (left_of max 0 = max) as Hl0 by (unfold left_of; destruct (_ <? 0)%Z; lia).
  destruct (cat_loop Get paths offset max [] 0) as [[rs n]|e].
  - destruct Hs as (pre & post & -> & Hpre & Hc & Hn & Hpost).
    cbn [length] in Hc. change (Z.of_nat 0) with 0%Z in Hc. rewrite Hl0 in Hc. cbn [app] in Hc. split; [done|]. split; [done|].
    split; [by exists pre, post|]. intros Hall. destruct Hpost as [->|Hpost]; [by rewrite app_nil_r|].
    rewrite Hc, fmap_app, concat_app, window_done; [done|lia|]. rewrite <- Hc, <- Hn. done.
  - destruct Hs as (pre & p & post & -> & Hpre & Hp & Hlen). right. right.
    exists pre, p, post. by split_and!.
Qed.

(** ** What get stores *)

Lemma getCompressOptions_ok cmprs lvl n : getCompressOptions cmprs lvl = Ok n →
  (cmprs ≠ Some true ∧ n = NoCompression) ∨ (cmprs = Some true ∧ (n = DefaultCompression ∨ 1 ≤ n ≤ 9)%Z).
Proof.
  unfold getCompressOptions. destruct cmprs as [[]|]; cbn; [|intros [= <-]; by left..].
  destruct lvl as [l|]; [|intros [= <-]; right; auto].
  destruct (Z.ltb_spec l 1), (Z.gtb_spec l 9); cbn; try done. intros [= <-]. right. split; [done|right; lia].
Qed.

(** The bytes get makes of a node, and whether they are an archive to keep *)
Definition get_bytes {GNode} (E : GetEnv GNode) (f : GNode) (arg : string) (archive : bool) (lvl : Z) : option Piped :=
  if negb archive && bool_decide (lvl ≠ NoCompression) then maybe_gz E lvl <$> ToFile E f
  else Some (maybe_gz E lvl (tar E f (Mfs.PathSplit (Clean arg)).2)).

(** get: with no archive and no compression the client unpacks a tar stream of the node
    at the output path; otherwise it stores the stream, a tar archive if one was asked
    for and the bytes of a file if not, under a name with the endings of its format.  A
    level outside 1 to 9 and a directory without an archive are errors. *)
Theorem get_command_exact {GNode} (E : GetEnv GNode) fault arg output archive cmprs lvl fs :
  (∀ n, (n = DefaultCompression ∨ 1 ≤ n ≤ 9)%Z → NewWriterLevel_err E n = None) →
  match getCompressOptions cmprs lvl, api_Get E arg with
  | Err e, _ | Ok _, Err e => get_command E fault arg output archive cmprs lvl fs = (Err (OtherErr e), fs)
  | Ok n, Ok f =>
      match node_Size E f, get_bytes E f arg archive n with
      | Err e, _ => get_command E fault arg output archive cmprs lvl fs = (Err (OtherErr e), fs)
      | Ok _, None => get_command E fault arg output archive cmprs lvl fs = (Err (OtherErr "file is not regular"), fs)
      | Ok _, Some r =>
          let path := getOutPath output arg in
          get_command E fault arg output archive cmprs lvl fs =
            if negb archive && bool_decide (n = NoCompression) then Extract E path r fs
            else writeArchive fault archive n r path fs
      end
  end.
Proof.
  intros Hlvl. unfold get_command, GetCmd, GetCmd_PostRun. destruct (getCompressOptions cmprs lvl) as [n|e] eqn:Hn; [|done].
  cbn [mbind res_bind]. destruct (api_Get E arg) as [f|e]; [|done]. cbn [mbind res_bind].
  destruct (node_Size E f) as [size|e]; [|done]. cbn [mbind res_bind].
  assert ((if decide (n = NoCompression) then None else NewWriterLevel_err E n) = None) as Hgz.
  { case_decide; [done|]. apply Hlvl. apply getCompressOptions_ok in Hn as [[_ ?]|[_ ?]]; [done|done]. }
  unfold get_bytes, fileArchive. rewrite Hgz. unfold getWriter_Write.
  destruct archive; cbn [negb andb orb]; [done|].
  destruct (decide (n = NoCompression)) as [->|Hne]; cbn; [done|].
  rewrite (bool_decide_eq_true_2 (n ≠ NoCompression)) by done. rewrite (bool_decide_eq_false_2 (n = NoCompression)) by done.
  by destruct (ToFile E f).
Qed.

Definition has_slash : string → bool := has_char "/"%char.

Lemma PathSplit_base p : has_slash (Mfs.PathSplit p).2 = false.
Proof.
  unfold Mfs.PathSplit. pose proof (Split_words p "/"%char) as Hf. destruct (rev (Split p slash)) as [|f ds] eqn:Hr; [done|].
  cbn. eapply (proj1 (Forall_forall _ _)) in Hf; [exact Hf|]. apply list_elem_of_In, in_rev.
  change (String "/" "") with slash. rewrite Hr. by left.
Qed.

Lemma Clean_word w : has_slash w = false → Clean w = w ∨ w = "" ∧ Clean w = ".".
Proof.
  intros Hw. destruct (decide (w = "")) as [->|Hne]; [by right|]. left.
  destruct (decide (w = ".")) as [->|]; [done|]. destruct (decide (w = "..")) as [->|]; [done|].
  apply Clean_name. done.
Qed.

(** The output path of get, without one given, is one name of the argument in the
    current directory: it never contains a slash. *)
Theorem getOutPath_local arg : getOutPath "" arg ≠ "" ∧ has_slash (getOutPath "" arg) = false.
Proof.
  unfold getOutPath. rewrite decide_True by done.
  destruct (Clean_word (Mfs.PathSplit (Mfs.TrimRight arg)).2 (PathSplit_base _)) as [He|[-> He]]; rewrite He; [|done].
  split; [|apply PathSplit_base]. intros Hz. by rewrite Hz in He.
Qed.

(** The name of an archive says what is in it, and a name that does is left alone. *)
Theorem archive_path_exact archive n p :
  let q := archive_path archive n p in
  (archive = true → HasSuffix q ".tar" = true ∨ HasSuffix q ".gz" = true) ∧
  (n ≠ NoCompression → HasSuffix q ".gz" = true) ∧
  archive_path archive n q = q.
Proof.
  assert (∀ x, HasSuffix x ".tar.gz" = true → HasSuffix x ".gz" = true) as Hgz.
  { intros x (t & ->)%HasSuffix_true. change ".tar.gz" with (".tar" +:+ ".gz"). rewrite <- sapp_assoc. apply HasSuffix_app. }
  assert (∀ x, HasSuffix (x +:+ ".tar" +:+ ".gz") ".tar.gz" = true) as Htgz by (intros x; apply (HasSuffix_app x ".tar.gz")).
  assert (∀ x, HasSuffix (x +:+ ".tar") ".tar" = true) as Ht by (intros x; apply HasSuffix_app).
  assert (∀ x, HasSuffix (x +:+ ".gz") ".gz" = true) as Hg by (intros x; apply HasSuffix_app).
  assert (∀ x, HasSuffix x ".tar" = true → HasSuffix (x +:+ ".gz") ".tar.gz" = true) as Hx.
  { intros x (t & ->)%HasSuffix_true. rewrite sapp_assoc. apply Htgz. }
  intros q. subst q. unfold archive_path. cbv zeta. destruct (bool_decide_reflect (n = NoCompression)) as [Hn|Hn]; cbn [negb andb].
  - split; [|split; [done|]].
    + intros ->. cbn [andb]. destruct (HasSuffix p ".tar") eqn:H1; cbn [negb andb]; [auto|].
      destruct (HasSuffix p ".tar.gz") eqn:H2; cbn [negb andb]; [auto|]. left. apply Ht.
    + destruct archive; cbn [andb]; [|done]. destruct (HasSuffix p ".tar") eqn:H1; cbn [negb andb]; [by rewrite H1|].
      destruct (HasSuffix p ".tar.gz") eqn:H2; cbn [negb andb]; [by rewrite H1, H2|]. by rewrite Ht.
  - set (p1 := if archive && negb (HasSuffix p ".tar") && negb (HasSuffix p ".tar.gz") then p +:+ ".tar" else p).
    assert (archive = true → HasSuffix p1 ".tar" = true ∨ HasSuffix p1 ".tar.gz" = true) as Hp1.
    { intros ->. unfold p1. cbn [andb]. destruct (HasSuffix p ".tar") eqn:H1; cbn [negb andb]; [auto|].
      destruct (HasSuffix p ".tar.gz") eqn:H2; cbn [negb andb]; [auto|]. left. apply Ht. }
    set (q := if negb (HasSuffix p1 ".gz") then p1 +:+ ".gz" else p1).
    assert (HasSuffix q ".gz" = true) as Hq by (unfold q; destruct (HasSuffix p1 ".gz") eqn:H1; cbn [negb andb]; [done|apply Hg]).
    split; [by right|]. split; [done|]. destruct archive; cbn [andb]; [|by rewrite Hq]. assert (HasSuffix q ".tar.gz" = true ∨ HasSuffix q ".tar" = true) as [H1|H1].
    { destruct (Hp1 eq_refl) as [Hp|Hp]; unfold q; destruct (HasSuffix p1 ".gz") eqn:H1; cbn [negb andb]; auto.
      apply Hgz in Hp. congruence. }
    + rewrite H1. cbn [negb]. rewrite andb_false_r. by rewrite Hq.
    + rewrite H1. cbn [negb andb]. by rewrite Hq.
Qed.

(** ** What ls shows *)

Class LsLaws (E : LsEnv) : Prop := {
  sort_links_perm : ∀ l, sort_links E l ≡ₚ l;
  sort_links_sorted : ∀ l, Sorted (λ a b, String.leb (ls_Name a) (ls_Name b) = true) (sort_links E l);
}.

Section ls_spec.
Context (E : LsEnv).

Definition no_err (x : DirEntry) : Prop := de_Err x = None.

Lemma take_links_spec l :
  match take_links E l with
  | (ls, None) => Forall no_err l ∧ ls = to_lsLink E <$> l
  | (ls, Some e) => ∃ pre x post, l = pre ++ x :: post ∧ Forall no_err pre ∧ de_Err x = Some e ∧ ls = to_lsLink E <$> pre
  end.
Proof.
  induction l as [|x l IH]; cbn [take_links]; [done|]. destruct (de_Err x) as [e|] eqn:Hx; [by exists [], x, l|].
  destruct (take_links E l) as [ls [e|]].
  - destruct IH as (pre & y & post & -> & Hp & Hy & ->). exists (x :: pre), y, post. split_and!; try done. by constructor.
  - destruct IH as [Hl ->]. split; [by constructor|done].
Qed.

(** The entries of a path, none with an error *)
Definition lists (resolve : bool) (p : string) (es : list DirEntry) : Prop := Ls E p resolve = Ok es ∧ Forall no_err es.

(** Why a path cannot be listed *)
Definition ls_fails (resolve : bool) (p e : string) : Prop :=
  Ls E p resolve = Err e ∨ ∃ es pre x post, Ls E p resolve = Ok es ∧ es = pre ++ x :: post ∧ Forall no_err pre ∧ de_Err x = Some e.

Lemma ls_paths_spec resolve paths :
  match ls_paths E resolve paths with
  | Ok objs => ∃ ess, Forall2 (lists resolve) paths ess ∧
      objs = zip_with (λ p es, mkLsObject p (sort_links E (to_lsLink E <$> es))) paths ess
  | Err e => ∃ pre p post, paths = pre ++ p :: post ∧ Forall (λ p, ∃ es, lists resolve p es) pre ∧ ls_fails resolve p e
  end.
Proof.
  induction paths as [|p paths IH]; cbn [ls_paths]; [by exists []|].
  destruct (Ls E p resolve) as [es|e] eqn:Hp; cbn [mbind res_bind]; [|exists [], p, paths; split_and!; [done|done|by left]].
  pose proof (take_links_spec es) as Ht. destruct (take_links E es) as [links [e|]].
  { destruct Ht as (pre & x & post & -> & Hpre & Hx & _). exists [], p, paths. split_and!; [done|done|]. right. by exists (pre ++ x :: post), pre, x, post. }
  destruct Ht as [Hes ->]. destruct (ls_paths E resolve paths) as [objs|e]; cbn [mbind res_bind].
  - destruct IH as (ess & Hf & ->). exists (es :: ess). split; [by constructor|done].
  - destruct IH as (pre & q & post & -> & Hpre & Hq). exists (p :: pre), q, post. split_and!; [done| |done]. constructor; [by exists es|done].
Qed.

Lemma ls_stream_ok resolve paths ess :
  Forall2 (lists resolve) paths ess →
  ls_stream E resolve paths =
    (concat (zip_with (λ p es, (λ l, mkLsObject p [l]) <$> (to_lsLink E <$> es)) paths ess), None).
Proof.
  induction 1 as [|p es paths ess [Hp Hes] _ IH]; [done|]. cbn [ls_stream zip_with concat]. rewrite Hp.
  pose proof (take_links_spec es) as Ht. destruct (take_links E es) as [links [e|]].
  { destruct Ht as (pre & x & post & -> & _ & Hx & _). apply Forall_app in Hes as [_ [Hn _]%Forall_cons]. unfold no_err in Hn. congruence. }
  destruct Ht as [_ ->]. by rewrite IH.
Qed.

Lemma ls_stream_err resolve pre p post e :
  Forall (λ p, ∃ es, lists resolve p es) pre → ls_fails resolve p e → (ls_stream E resolve (pre ++ p :: post)).2 = Some e.
Proof.
  induction 1 as [|q pre (es & Hq & Hes) _ IH]; cbn [app ls_stream]; intros Hf.
  - destruct Hf as [->|(es & pre & x & post' & -> & -> & Hpre & Hx)]; [done|].
    pose proof (take_links_spec (pre ++ x :: post')) as Ht. destruct (take_links E _) as [links [e'|]].
    + destruct Ht as (pre' & x' & post'' & Heq & Hpre' & Hx' & _). cbn. f_equal.
      revert pre' Hpre' Heq. induction Hpre as [|y pre Hy _ IHp]; intros [|y' pre'] Hpre' [= -> Heq].
      * congruence.
      * apply Forall_cons in Hpre' as [Hn _]. unfold no_err in Hn. congruence.
      * unfold no_err in Hy. congruence.
      * apply Forall_cons in Hpre' as [_ Hpre']. by eapply IHp.
    + destruct Ht as [[_ [Hn _]%Forall_cons]%Forall_app _]. unfold no_err in Hn. congruence.
  - rewrite Hq. pose proof (take_links_spec es) as Ht. destruct (take_links E es) as [links [e'|]].
    { destruct Ht as (pre' & x & post' & -> & _ & Hx & _). apply Forall_app in Hes as [_ [Hn _]%Forall_cons]. unfold no_err in Hn. congruence. }
    specialize (IH Hf). by destruct (ls_stream E resolve (pre ++ p :: post)).
Qed.

Context {HL : LsLaws E} (Hemit : Emit_err E = None).

(** ls: without streaming it emits one output, in which each path has exactly its links,
    sorted by name; an error is that of the first path that cannot be listed, and then
    nothing is emitted. *)
Theorem LsCmd_exact resolveType resolveSize paths :
  match LsCmd E resolveType resolveSize false (Ok paths) with
  | (outs, None) => ∃ objs, outs = [objs] ∧
      Forall2 (λ p o, ob_Hash o = p ∧ ∃ es, lists (resolveSize || resolveType) p es ∧ ob_Links o ≡ₚ to_lsLink E <$> es ∧
        Sorted (λ a b, String.leb (ls_Name a) (ls_Name b) = true) (ob_Links o)) paths objs
  | (outs, Some e) => outs = [] ∧ ∃ pre p post, paths = pre ++ p :: post ∧
      Forall (λ p, ∃ es, lists (resolveSize || resolveType) p es) pre ∧ ls_fails (resolveSize || resolveType) p e
  end.
Proof.
  unfold LsCmd. pose proof (ls_paths_spec (resolveSize || resolveType) paths) as Hs.
  destruct (ls_paths E (resolveSize || resolveType) paths) as [objs|e]; [|done]. rewrite Hemit.
  destruct Hs as (ess & Hf & ->). eexists. split; [done|].
  induction Hf as [|p es paths ess Hp _ IH]; cbn [zip_with]; [done|]. constructor; [|done]. split; [done|].
  exists es. cbn [ob_Links]. split_and!; [done|apply sort_links_perm|apply sort_links_sorted].
Qed.

(** The objects of a stream, put together by path *)
Definition regroups (g : list LsObject) (o : LsObject) : Prop :=
  Forall (λ x, ob_Hash x = ob_Hash o ∧ length (ob_Links x) = 1) g ∧ concat (ob_Links <$> g) ≡ₚ ob_Links o.

(** ls --stream shows the same links of the same paths in the same order of paths, one
    object a link, and fails with the same error. *)
Theorem ls_stream_equiv resolveType resolveSize paths :
  let '(outs, e) := LsCmd E resolveType resolveSize false (Ok paths) in
  let '(outs', e') := LsCmd E resolveType resolveSize true (Ok paths) in
  e' = e ∧ (e = None → ∃ objs gs, outs = [objs] ∧ Forall2 regroups gs objs ∧ outs' = (λ o, [o]) <$> concat gs).
Proof.
  unfold LsCmd. pose proof (ls_paths_spec (resolveSize || resolveType) paths) as Hs.
  destruct (ls_paths E (resolveSize || resolveType) paths) as [objs|e]; rewrite Hemit.
  - destruct Hs as (ess & Hf & ->). rewrite (ls_stream_ok _ _ _ Hf). split; [done|]. intros _.
    exists (zip_with (λ p es, mkLsObject p (sort_links E (to_lsLink E <$> es))) paths ess),
      (zip_with (λ p es, (λ l, mkLsObject p [l]) <$> (to_lsLink E <$> es)) paths ess). split_and!; [done| |done].
    induction Hf as [|p es paths ess _ _ IH]; cbn [zip_with]; [constructor|]. constructor; [|done]. split; cbn [ob_Hash ob_Links].
    + apply Forall_fmap, Forall_true. done.
    + rewrite sort_links_perm, <- list_fmap_compose. cbn. generalize (to_lsLink E <$> es).
      induction l as [|l ls IHl]; [done|]. cbn. by rewrite IHl.
  - destruct Hs as (pre & p & post & -> & Hpre & Hp). pose proof (ls_stream_err _ _ _ post _ Hpre Hp) as He.
    destruct (ls_stream E _ _) as [out e']. cbn in He. subst e'. split; [done|]. done.
Qed.

End ls_spec.

Lemma tabular_group E O h l links last :
  tabularOutput E O ((λ l, mkLsObject h [l]) <$> (l :: links)) last = tabularOutput E O [mkLsObject h (l :: links)] last.
Proof.
  cbn [fmap list_fmap tabularOutput ob_Hash ob_Links].
  set (brk := negb (p_ignoreBreaks O) && bool_decide (h ≠ last)). set (last1 := if brk then h else last).
  assert (∀ l0, l0 = last1 → tabularOutput E O ((λ l, mkLsObject h [l]) <$> links) l0 = (link_line E O <$> links, last1)) as Hrest.
  { intros l0 ->. induction links as [|x xs IH]; [done|]. cbn [fmap list_fmap tabularOutput ob_Hash ob_Links].
    assert (negb (p_ignoreBreaks O) && bool_decide (h ≠ last1) = false) as ->.
    { unfold last1, brk. destruct (p_ignoreBreaks O); [done|]. cbn [negb andb]. apply bool_decide_eq_false. intros Hn. apply Hn.
      destruct (bool_decide_reflect (h ≠ last)) as [_|Hh]; [done|by apply dec_stable]. }
    cbv iota. unfold fmap in IH |- *. by rewrite IH. }
  unfold fmap in Hrest. rewrite Hrest by done. cbn. by rewrite app_nil_r.
Qed.

Lemma tabular_app E O xs ys last :
  tabularOutput E O (xs ++ ys) last =
    let '(a, l1) := tabularOutput E O xs last in let '(b, l2) := tabularOutput E O ys l1 in (a ++ b, l2).
Proof.
  revert last. induction xs as [|x xs IH]; intros last; cbn [app tabularOutput]; [by destruct (tabularOutput E O ys last)|].
  rewrite IH. destruct (tabularOutput E O xs _) as [a l1], (tabularOutput E O ys l1) as [b l2]. by rewrite <- !app_assoc.
Qed.

Lemma ls_print_singles E O objs last : ls_print E O ((λ o, [o]) <$> objs) last = (tabularOutput E O objs last).1.
Proof.
  revert last. induction objs as [|o objs IH]; intros last; [done|].
  change (o :: objs) with ([o] ++ objs) at 2. rewrite tabular_app. cbn [fmap list_fmap ls_print].
  destruct (tabularOutput E O [o] last) as [a l1]. unfold fmap in IH. rewrite IH. by destruct (tabularOutput E O objs l1).
Qed.

(** The objects of a stream, and the object of a table, of the links of a path *)
Definition singles (d : string * list LsLink) : list LsObject := (λ l, mkLsObject d.1 [l]) <$> d.2.
Definition whole (d : string * list LsLink) : LsObject := mkLsObject d.1 d.2.

(** On a terminal the stream of the links of directories that are not empty prints the
    lines that one table of the same objects does: the headings are those of the
    objects, printed once each. *)
Theorem ls_stream_prints E O (dirs : list (string * list LsLink)) :
  Forall (λ d, d.2 ≠ []) dirs →
  ls_print E O ((λ o : LsObject, [o]) <$> concat (singles <$> dirs)) "" = ls_print E O [whole <$> dirs] "".
Proof.
  intros Hd. rewrite ls_print_singles. cbn [ls_print].
  assert (∀ last, tabularOutput E O (concat (singles <$> dirs)) last = tabularOutput E O (whole <$> dirs) last) as Heq.
  { induction Hd as [|[h links] dirs Hne _ IH]; intros last; [done|]. rewrite !fmap_cons. cbn [concat].
    rewrite tabular_app. change (whole (h, links) :: (whole <$> dirs)) with ([mkLsObject h links] ++ (whole <$> dirs)).
    rewrite tabular_app. destruct links as [|l links]; [done|]. unfold singles at 1. cbn [fst snd]. rewrite tabular_group.
    destruct (tabularOutput E O [_] last) as [a l1]. by rewrite IH. }
  rewrite Heq. destruct (tabularOutput E O _ "") as [lines last']. cbn. by rewrite app_nil_r.
Qed.

(** ** Examples *)

Module ReadExample.

Definition bs (s : string) : Bytes := list_ascii_of_string s.

(** Two files of five bytes, and a directory *)
Definition Get (p : string) : res string INode :=
  if decide (p = "a") then Ok (IFile (bs "hello") (Ok 5%Z) (λ _, None))
  else if decide (p = "b") then Ok (IFile (bs "world") (Ok 5%Z) (λ _, None))
  else if decide (p = "d") then Ok IDirectory else Err "no such file".

Lemma Get_sizes p d S sk n : Get p = Ok (IFile d S sk) → S = Ok n → n = Z.of_nat (length d).
Proof. unfold Get. repeat case_decide; [intros [= <- <- <-] [= <-]; done..|done|done]. Qed.

Definition by_name (a b : LsLink) : Prop := String.leb (ls_Name a) (ls_Name b) = true.
#[global] Instance by_name_dec : RelDecision by_name. Proof. intros a b. unfold by_name. apply _. Defined.

Definition ls_env : LsEnv := {|
  ResolveNode := λ p, if decide (p = "d") then Ok (mkLsNode [mkLink "x" 3 (CidV1 Raw (mkMultihash 18 "h1")); mkLink "s" 9 (CidV0 "h2")] None)
                      else Err "no such path";
  GetNode := λ _, Ok (Some (Ok (mkFSNode TDirectory "" 0)));
  EncodeCid := λ _, "Qm"; EscNonPrint := λ s, s; FormatUint := Itoa;
  sort_links := merge_sort by_name; Emit_err := None |}.

#[global] Instance ls_laws : LsLaws ls_env.
Proof.
  assert (Total by_name) by (intros a b; apply String.leb_total).
  split; intros l; [apply merge_sort_Permutation|by apply (Sorted_merge_sort by_name)].
Qed.

(** Get a file, and a directory, which has no single content *)
Definition get_env : GetEnv (option string) := {|
  api_Get := λ p, if decide (p = "/ipfs/Qm/f") then Ok (Some "data") else if decide (p = "/ipfs/Qm") then Ok None else Err "no such path";
  node_Size := λ _, Ok 4%Z; ToFile := fmap (λ d, mkPiped d None); tar := λ f n, mkPiped ("tar:" +:+ n) None;
  NewWriterLevel_err := λ _, None; gzip := λ _ s, "gz:" +:+ s; Extract := λ p r, WriteFile (λ _ _, None) p (piped r) |}.

Definition fs0 : FS := {["." := NDir]}.

End ReadExample.

Import ReadExample.

Lemma CatCmd_exact_witness :
  CatCmd Get (Some 3%Z) (Some 4%Z) (Ok ["a"; "b"; "d"]) = Ok (4%Z, bs "lowo") ∧
  CatCmd Get (Some 3%Z) None (Ok ["a"; "b"; "d"]) = Err ErrIsDir ∧
  (∃ pre post, ["a"; "b"; "d"] = pre ++ post ∧ bs "lowo" = window 3 4 (concat (content Get <$> pre))) ∧
  (∃ pre p post, ["a"; "b"; "d"] = pre ++ p :: post ∧ cat_fails Get p ErrIsDir).
Proof.
  pose proof (CatCmd_exact Get (Some 3%Z) (Some 4%Z) ["a"; "b"; "d"] Get_sizes ltac:(done) ltac:(done) ltac:(done)) as H1.
  pose proof (CatCmd_exact Get (Some 3%Z) None ["a"; "b"; "d"] Get_sizes ltac:(done) ltac:(done) ltac:(done)) as H2.
  assert (CatCmd Get (Some 3%Z) (Some 4%Z) (Ok ["a"; "b"; "d"]) = Ok (4%Z, bs "lowo")) as R1 by (vm_compute; reflexivity).
  assert (CatCmd Get (Some 3%Z) None (Ok ["a"; "b"; "d"]) = Err ErrIsDir) as R2 by (vm_compute; reflexivity).
  rewrite R1 in H1. rewrite R2 in H2. split; [done|]. split; [done|]. split.
  - destruct H1 as (_ & _ & (pre & post & Hp & _ & Hw & _) & _). by exists pre, post.
  - destruct H2 as [H2|[(m & H2 & _)|(pre & p & post & Hp & _ & Hf & _)]]; [done|done|]. by exists pre, p, post.
Defined.

Lemma get_command_exact_witness :
  (get_command get_env (λ _ _, None) "/ipfs/Qm/f" "" true (Some true) (Some 9%Z) fs0).2 !! "f.tar.gz" = Some (NFile "gz:tar:f") ∧
  (get_command get_env (λ _ _, None) "/ipfs/Qm" "" false (Some true) None fs0) = (Err (OtherErr "file is not regular"), fs0) ∧
  get_command get_env (λ _ _, None) "/ipfs/Qm/f" "" false None None fs0 = Extract get_env "f" (mkPiped "tar:f" None) fs0.
Proof.
  split; [vm_compute; reflexivity|]. split.
  - exact (get_command_exact get_env (λ _ _, None) "/ipfs/Qm" "" false (Some true) None fs0 (λ _ _, eq_refl)).
  - exact (get_command_exact get_env (λ _ _, None) "/ipfs/Qm/f" "" false None None fs0 (λ _ _, eq_refl)).
Defined.

Lemma LsCmd_exact_witness :
  ∃ o, LsCmd ls_env true true false (Ok ["d"]) = ([[o]], None) ∧
    ob_Links o ≡ₚ [mkLsLink "x" "Qm" 3 TFile ""; mkLsLink "s" "Qm" 0 TDirectory ""].
Proof.
  pose proof (LsCmd_exact ls_env eq_refl true true ["d"]) as Hx.
  assert ((LsCmd ls_env true true false (Ok ["d"])).2 = None) as Hn by (vm_compute; reflexivity).
  destruct (LsCmd ls_env true true false (Ok ["d"])) as [outs e]. cbn in Hn. subst e.
  destruct Hx as (objs & -> & Hf). inversion Hf as [|? o ? os (_ & es & [Hls _] & Hl & _) Hf' Heq]; subst.
  inversion Hf'; subst. exists o. split; [done|]. rewrite Hl. vm_compute in Hls. injection Hls as <-. done.
Defined.

Lemma ls_stream_equiv_witness :
  (LsCmd ls_env true true true (Ok ["d"])).2 = None ∧ length (LsCmd ls_env true true true (Ok ["d"])).1 = 2 ∧
  (LsCmd ls_env true true true (Ok ["d"; "e"])).2 = (LsCmd ls_env true true false (Ok ["d"; "e"])).2.
Proof.
  split; [vm_compute; reflexivity|]. split; [vm_compute; reflexivity|].
  pose proof (ls_stream_equiv ls_env eq_refl true true ["d"; "e"]) as Hx.
  destruct (LsCmd ls_env true true false (Ok ["d"; "e"])) as [outs e], (LsCmd ls_env true true true (Ok ["d"; "e"])) as [outs' e'].
  by destruct Hx as [-> _].
Defined.

Lemma ls_stream_prints_witness :
  ls_print ls_env (mkLsPrint true true true false)
    [[mkLsObject "d" [mkLsLink "x" "Qm" 3 TFile ""]]; [mkLsObject "d" [mkLsLink "s" "Qm" 0 TDirectory ""]]] "" =
  [["d:"]; ["Hash"; "Size"; "Name"]; ["Qm"; "3"; "x"]; ["Qm"; "-"; "s/"]].
Proof.
  refine (eq_trans (ls_stream_prints ls_env (mkLsPrint true true true false)
    [("d", [mkLsLink "x" "Qm" 3 TFile ""; mkLsLink "s" "Qm" 0 TDirectory ""])] _) _); [by repeat constructor|vm_compute; reflexivity].
Defined.
