(* ===== verification/AddCmd.v ===== *)
(** * The add command (core/commands/add.go, UnixfsAPI.Add of core/coreapi/unixfs.go)

    The options of an add and what they imply (modelled after
    src/vendor/github.com/ipfs/interface-go-ipfs-core/options/unixfs.go), the API call
    that sets an [Adder] up over one of three stores, and the command that adds each
    entry of what it is given and passes the events on. *)

From Stdlib Require Import ZArith Ascii String.
From stdpp Require Import base gmap sets list strings sorting.
From S2P Require Import Prelude GoStrings GoFS Keystore Mfs Adder.

(** ** Options *)

Inductive LayoutOpt := BalancedLayout | TrickleLayout | OtherLayout (n : Z).
#[export] Instance LayoutOpt_eq_dec : EqDecision LayoutOpt. Proof. solve_decision. Defined.

Record Settings := mkSettings {
  s_CidVersion : Z; s_MhType : Z;
  s_Inline : bool; s_InlineLimit : Z; s_RawLeaves : bool; s_RawLeavesSet : bool;
  s_Chunker : string; s_Layout : LayoutOpt;
  s_Pin : bool; s_OnlyHash : bool; s_FsCache : bool; s_NoCopy : bool;
  s_Events : bool; s_Silent : bool; s_Progress : bool;
}.

Definition SHA2_256 : Z := 18.

Definition default_settings : Settings :=
  mkSettings (-1) SHA2_256 false 32 false false "size-262144" BalancedLayout false false false false false false false.

Definition set_version v s := mkSettings v (s_MhType s) (s_Inline s) (s_InlineLimit s) (s_RawLeaves s) (s_RawLeavesSet s) (s_Chunker s) (s_Layout s) (s_Pin s) (s_OnlyHash s) (s_FsCache s) (s_NoCopy s) (s_Events s) (s_Silent s) (s_Progress s).
Definition set_raw r set s := mkSettings (s_CidVersion s) (s_MhType s) (s_Inline s) (s_InlineLimit s) r set (s_Chunker s) (s_Layout s) (s_Pin s) (s_OnlyHash s) (s_FsCache s) (s_NoCopy s) (s_Events s) (s_Silent s) (s_Progress s).

(** An option, as the function of the settings it is *)
Inductive AddOption :=
  | OCidVersion (v : Z) | OHash (mhtype : Z) | ORawLeaves (b : bool) | OInline (b : bool) | OInlineLimit (n : Z)
  | OChunker (c : string) | OLayout (l : LayoutOpt) | OPin (b : bool) | OHashOnly (b : bool)
  | OEvents | OSilent (b : bool) | OProgress (b : bool) | OFsCache (b : bool) | ONocopy (b : bool).

Definition apply_option (o : AddOption) (s : Settings) : Settings :=
  let 'mkSettings v t i il r rs c l p oh fc nc ev si pr := s in
  match o with
  | OCidVersion v => mkSettings v t i il r rs c l p oh fc nc ev si pr
  | OHash t => mkSettings v t i il r rs c l p oh fc nc ev si pr
  | ORawLeaves r => mkSettings v t i il r true c l p oh fc nc ev si pr
  | OInline i => mkSettings v t i il r rs c l p oh fc nc ev si pr
  | OInlineLimit il => mkSettings v t i il r rs c l p oh fc nc ev si pr
  | OChunker c => mkSettings v t i il r rs c l p oh fc nc ev si pr
  | OLayout l => mkSettings v t i il r rs c l p oh fc nc ev si pr
  | OPin p => mkSettings v t i il r rs c l p oh fc nc ev si pr
  | OHashOnly oh => mkSettings v t i il r rs c l p oh fc nc ev si pr
  | OEvents => mkSettings v t i il r rs c l p oh fc nc true si pr
  | OSilent si => mkSettings v t i il r rs c l p oh fc nc ev si pr
  | OProgress pr => mkSettings v t i il r rs c l p oh fc nc ev si pr
  | OFsCache fc => mkSettings v t i il r rs c l p oh fc nc ev si pr
  | ONocopy nc => mkSettings v t i il r rs c l p oh fc nc ev si pr
  end.

(** dag.PrefixForCidVersion, as the builder the adder gets *)
Definition PrefixForCidVersion (version : Z) : res string Builder :=
  if decide (version = 0%Z ∨ version = 1%Z) then Ok (mkBuilder version SHA2_256 (-1))
  else Err ("unknown CID version: " +:+ Itoa version).

(** options.UnixfsAddOptions *)
Definition UnixfsAddOptions (opts : list AddOption) : res string (Settings * Builder) :=
  let options := foldl (λ s o, apply_option o s) default_settings opts in
  options ← (if s_NoCopy options && negb (s_RawLeaves options) then
               if s_RawLeavesSet options then Err "nocopy option requires '--raw-leaves' to be enabled as well"
               else Ok (set_raw true (s_RawLeavesSet options) options)
             else Ok options);
  options ← (if decide (s_MhType options ≠ SHA2_256) then
               if decide (s_CidVersion options = 0%Z) then Err "CIDv0 only supports sha2-256"
               else if decide (s_CidVersion options = 1%Z ∨ s_CidVersion options = (-1)%Z) then Ok (set_version 1 options)
               else Err ("unknown CID version: " +:+ Itoa (s_CidVersion options))
             else Ok (if (s_CidVersion options <? 0)%Z then set_version 0 options else options));
  let options := if (s_CidVersion options >? 0)%Z && negb (s_RawLeavesSet options)
                 then set_raw true (s_RawLeavesSet options) options else options in
  prefix ← PrefixForCidVersion (s_CidVersion options);
  Ok (options, mkBuilder (Version prefix) (s_MhType options) (-1)).

(** ** UnixfsAPI.Add *)

(** The store an adder writes to: the blocks themselves under the lock of the node, the
    node's whole blockstore, or that of the node without a repository *)
Inductive Store := BaseBlocks | NodeBlocks | NilNode.
#[export] Instance Store_eq_dec : EqDecision Store. Proof. solve_decision. Defined.

(** The node: its pins, how often the pin lock is held, the collections asked for, and
    what was provided, the latest first *)
Record AddW := mkAddW { w_pins : gset string; w_held : nat; w_gc : list bool; provided : list string }.

Record AddApi := mkAddApi {
  (** Experimental.FilestoreEnabled and UrlstoreEnabled *)
  Config : res string (bool * bool);
  (** Hashing and the layouts, over a store; its [room] is not looked at. *)
  adder : Store → Settings → AddEnv;
  NewNode_err : option string;
  Provide_err : string → option string;
}.

Definition addblockstore (s : Settings) : Store :=
  if s_OnlyHash s then NilNode else if s_FsCache s || s_NoCopy s then NodeBlocks else BaseBlocks.

Definition with_room (n : option nat) (E : AddEnv) : AddEnv :=
  mkAddEnv (cid_of E) (size_of E) (Layout E) (SymlinkNode E) (fails E) (ListNames E) n.

Definition adder_opts (s : Settings) (prefix : Builder) : AdderOpts :=
  mkOpts (s_Pin s && negb (s_OnlyHash s)) (s_Events s && s_Progress s) (s_Silent s) (s_Events s) prefix.

(** UnixfsAPI.Add: what it returns, the events it sends, and the node after it.  Where
    the adder only hashes it works on a node of its own. *)
Definition Add (X : AddApi) (room : option nat) (file : FNode) (opts : list AddOption) (w : AddW)
    : res MErr string * list AddEvent * AddW :=
  match UnixfsAddOptions opts with
  | Err e => (Err (MMsg e), [], w)
  | Ok (settings, prefix) =>
      match Config X with
      | Err e => (Err (MMsg e), [], w)
      | Ok (filestore, urlstore) =>
          if s_NoCopy settings && negb (filestore || urlstore)
          then (Err (MMsg "either the filestore or the urlstore must be enabled to use nocopy, see: https://git.io/vNItf"), [], w) else
          match (if s_OnlyHash settings then NewNode_err X else None), s_Layout settings with
          | Some e, _ => (Err (MMsg e), [], w)
          | None, OtherLayout n => (Err (MMsg ("unknown layout: " +:+ Itoa n)), [], w)
          | None, _ =>
              let E := with_room room (adder X (addblockstore settings) settings) in
              let O := adder_opts settings prefix in
              if s_OnlyHash settings then
                let '(r, s) := AddAllAndPin E O file (mkAS (Some (TDir prefix ∅)) false None 0 ∅ 0 [] [] []) in
                (match r with Ok nd => Ok (cid_of E nd) | Err e => Err e end, Out s, w)
              else
                let '(r, s) := AddAllAndPin E O file (mkAS None false None 0 (w_pins w) (w_held w) (w_gc w) [] []) in
                let w1 := mkAddW (pins s) (held s) (gc_requests s) (provided w) in
                match r with
                | Err e => (Err e, Out s, w1)
                | Ok nd =>
                    match Provide_err X (cid_of E nd) with
                    | Some e => (Err (MMsg e), Out s, w1)
                    | None => (Ok (cid_of E nd), Out s, mkAddW (w_pins w1) (w_held w1) (w_gc w1) (cid_of E nd :: provided w1))
                    end
                end
          end
      end
  end.

(** ** The command *)

Record AddReq := mkAddReq {
  progress_opt : option bool; trickle : bool; wrap : bool; only_hash : bool; quiet : bool; quieter : bool; silent : bool;
  chunker : string; dopin : bool; rawblks : option bool; nocopy : bool; fscache : bool; cidVer : option Z;
  hashFunStr : string; inline : bool; inlineLimit : Z;
}.

(** AddCmd.PreRun: the progress option after it *)
Definition add_PreRun (r : AddReq) : option bool :=
  if quiet r || quieter r || silent r then progress_opt r
  else match progress_opt r with Some b => Some b | None => Some true end.

(** The options the command builds; the last place is for the channel of events. *)
Definition add_opts (r : AddReq) (hashFunCode : Z) (progress : bool) : list AddOption :=
  [OHash hashFunCode; OInline (inline r); OInlineLimit (inlineLimit r); OChunker (chunker r); OPin (dopin r);
   OHashOnly (only_hash r); OFsCache (fscache r); ONocopy (nocopy r); OProgress progress; OSilent (silent r)] ++
  match cidVer r with Some v => [OCidVersion v] | None => [] end ++
  match rawblks r with Some b => [ORawLeaves b] | None => [] end ++
  (if trickle r then [OLayout TrickleLayout] else []) ++ [OEvents].

Definition adderOutChanSize : nat := 8.

Record AddCmdEnv := mkAddCmdEnv {
  api : AddApi;
  mh_Names : string → option Z;
  Encode : string → string;
  (** The error of emitting the n-th output *)
  Emit_err : nat → option string;
}.

Definition is_dir (f : FNode) : bool := match f with FDir _ _ => true | _ => false end.

(** What the command prints of an event of an entry *)
Definition add_output (X : AddCmdEnv) (name : string) (dir : bool) (ev : AddEvent) : AddEvent :=
  mkEvent (if negb dir && bool_decide (name ≠ "") then name else PathJoin name (evName ev))
          (if decide (evPath ev = "") then "" else Encode X (evPath ev)) (evSize ev) (evBytes ev).

(** The first of the next outputs that cannot be emitted *)
Fixpoint first_fail (f : nat → option string) (sent n : nat) : option (nat * string) :=
  match n with
  | O => None
  | S n' => match f sent with Some e => Some (0, e) | None => match first_fail f (S sent) n' with Some (k, e) => Some (S k, e) | None => None end end
  end.

(** The loop over the entries.  When an output cannot be emitted the command returns at
    once, and the goroutine of the add goes on alone: its channel takes [adderOutChanSize]
    more events. *)
Fixpoint add_entries (X : AddCmdEnv) (opts : list AddOption) (entries : list (string * FNode)) (added : nat)
    (sent : list AddEvent) (w : AddW) : res MErr nat * list AddEvent * AddW :=
  match entries with
  | [] => (Ok added, sent, w)
  | (name, node) :: entries' =>
      let '(r, evs, w1) := Add (api X) None node opts w in
      match first_fail (Emit_err X) (length sent) (length evs) with
      | Some (k, e) =>
          let '(_, _, w2) := Add (api X) (Some (k + 1 + adderOutChanSize)) node opts w in
          (Err (MMsg e), sent ++ (add_output X name (is_dir node) <$> take k evs), w2)
      | None =>
          let sent := sent ++ (add_output X name (is_dir node) <$> evs) in
          match r with
          | Err e => (Err e, sent, w1)
          | Ok _ => add_entries X opts entries' (S added) sent w1
          end
      end
  end.

(** AddCmd.Run on the directory of the files given, with the error its iterator ends with *)
Definition AddCmd (X : AddCmdEnv) (r : AddReq) (files : list (string * FNode)) (files_err : option MErr) (w : AddW)
    : res MErr unit * list AddEvent * AddW :=
  match mh_Names X (smap lower_char (hashFunStr r)) with
  | None => (Err (MMsg ("unrecognized hash function: " +:+ smap lower_char (hashFunStr r))), [], w)
  | Some hashFunCode =>
      let toadd := if wrap r then [("", FDir files files_err)] else files in
      let toadd_err := if wrap r then None else files_err in
      let '(res, sent, w') := add_entries X (add_opts r hashFunCode (default false (add_PreRun r))) toadd 0 [] w in
      match res with
      | Err e => (Err e, sent, w')
      | Ok added =>
          match toadd_err with
          | Some e => (Err e, sent, w')
          | None => (if decide (added = 0) then Err (MMsg "expected a file argument") else Ok (), sent, w')
          end
      end
  end.

(** ** The progress bar of the command line *)

Record Bar := mkBar { lastFile : string; lastHash : string; totalProgress : Z; prevFiles : Z; lastBytes : Z; bar : Z; printed : list string }.
Definition bar0 : Bar := mkBar "" "" 0 0 0 0 [].

(** One output of AddCmd.PostRun's loop; bar.Add64 adds to the bar and returns its value. *)
Definition bar_step (EscNonPrint : string → string) (quiet quieter progress : bool) (b : Bar) (o : AddEvent) : Bar :=
  if decide (evPath o ≠ "") then
    let line := if quiet || quieter then evPath o else "added " +:+ evPath o +:+ " " +:+ EscNonPrint (evName o) in
    mkBar (lastFile b) (evPath o) (totalProgress b) (prevFiles b) (lastBytes b) (bar b)
      (if quieter then printed b else printed b ++ [line])
  else if negb progress then b
  else
    let lastFile' := if decide (lastFile b = "") then evName o else lastFile b in
    let next := bool_decide (evName o ≠ lastFile') || (evBytes o <? lastBytes b)%Z in
    let prevFiles' := if next then i64 (prevFiles b + lastBytes b) else prevFiles b in
    let lastFile' := if next then evName o else lastFile' in
    let delta := i64 (i64 (prevFiles' + evBytes o) - totalProgress b) in
    let total := i64 (bar b + delta) in
    mkBar lastFile' (lastHash b) total prevFiles' (evBytes o) total (printed b).

(** The loop, and the last line when the channel is closed *)
Definition add_print (EscNonPrint : string → string) (quiet quieter progress : bool) (outs : list AddEvent) : list string * Z :=
  let b := foldl (bar_step EscNonPrint quiet quieter progress) bar0 outs in
  (printed b ++ (if quieter then [lastHash b] else []), bar b).

(** ** What the options come to *)

(** The settings an add works with are well formed: a version and a hash function that go
    together, raw leaves where the version or nocopy asks for them and otherwise as set,
    and a builder of just these; the errors are the three contradictions. *)
Theorem UnixfsAddOptions_exact opts :
  let o := foldl (λ s o, apply_option o s) default_settings opts in
  match UnixfsAddOptions opts with
  | Ok (s, p) =>
      (s_CidVersion s = 0 ∨ s_CidVersion s = 1)%Z ∧ p = mkBuilder (s_CidVersion s) (s_MhType o) (-1) ∧
      (s_MhType o ≠ SHA2_256 → s_CidVersion s = 1%Z) ∧
      (s_MhType o = SHA2_256 → s_CidVersion s = Z.max 0 (s_CidVersion o)) ∧
      (s_NoCopy o = true → s_RawLeaves s = true) ∧
      s_RawLeaves s = (s_RawLeaves o || negb (s_RawLeavesSet o) && (s_NoCopy o || bool_decide (s_CidVersion s = 1%Z))) ∧
      s = set_raw (s_RawLeaves s) (s_RawLeavesSet o) (set_version (s_CidVersion s) o)
  | Err _ =>
      s_NoCopy o = true ∧ s_RawLeaves o = false ∧ s_RawLeavesSet o = true ∨
      s_MhType o ≠ SHA2_256 ∧ s_CidVersion o ≠ 1%Z ∧ s_CidVersion o ≠ (-1)%Z ∨
      s_MhType o = SHA2_256 ∧ (1 < s_CidVersion o)%Z
  end.
Proof.
  intros o. unfold UnixfsAddOptions. fold o. destruct o as [v t i il r rs c l pi oh fc nc ev si pr].
  unfold PrefixForCidVersion, set_raw, set_version. cbn [s_CidVersion s_MhType s_NoCopy s_RawLeaves s_RawLeavesSet].
  destruct nc, r, rs; cbn [andb negb]; try (by left); cbn [mbind res_bind s_MhType s_CidVersion];
    (destruct (decide (t ≠ SHA2_256)) as [Ht|Ht%dec_stable];
     [destruct (decide (v = 0%Z)) as [Hv|Hv]; [|destruct (decide (v = 1 ∨ v = -1)%Z)]|destruct (Z.ltb_spec v 0)]);
    try (right; left; split_and!; [done|lia..]); cbn; rewrite ?decide_True by auto; cbn; try (split_and!; done || auto || lia);
    (destruct (Z.gtb_spec v 0); cbn; destruct (decide (v = 0 ∨ v = 1)%Z) as [[->| ->]|]); cbn;
    try (right; right; split; [done|lia]); try lia; split_and!; done || auto || lia.
Qed.

(** ** What an add does to the node *)

#[export] Instance with_room_laws n E : AddLaws E → AddLaws (with_room n E).
Proof. intros [H1 H2 H3]. split; cbn; [exact H1|exact H2|exact H3]. Qed.

Lemma fview_room n E q file : fview (with_room n E) q file = fview E q file.
Proof.
  revert file. induction q as [|c q IH]; intros [data reads|target|es err|]; try done.
  cbn [fview]. destruct (entry_named c es); [apply IH|done].
Qed.

(** The settings as given *)
Definition settings_of (opts : list AddOption) : Settings := foldl (λ s o, apply_option o s) default_settings opts.

Lemma UnixfsAddOptions_keeps opts s p :
  UnixfsAddOptions opts = Ok (s, p) → s_OnlyHash s = s_OnlyHash (settings_of opts) ∧ s_Pin s = s_Pin (settings_of opts).
Proof.
  unfold UnixfsAddOptions. fold (settings_of opts). unfold PrefixForCidVersion, set_raw, set_version, mbind, res_bind.
  repeat case_match; intros; simplify_eq/=; done.
Qed.

(** A successful add of a file: the CID of a node that looks like the file, in the store
    of the settings *)
Definition built (X : AddApi) (s : Settings) (file : FNode) (c : string) : Prop :=
  ∃ nd, c = cid_of (adder X (addblockstore s) s) nd ∧
    (wf_node file → ∀ q, view q nd = fview (adder X (addblockstore s) s) q file).

Section api.
Context (X : AddApi) {HX : ∀ st s, AddLaws (adder X st s)}.

Lemma adder_built room (s : Settings) p file m w r s' :
  (m = None ∨ m = Some (TDir p ∅)) →
  AddAllAndPin (with_room room (adder X (addblockstore s) s)) (adder_opts s p) file
    (mkAS m false None 0 (w_pins w) (w_held w) (w_gc w) [] []) = (r, s') →
  held s' = (if Pin (adder_opts s p) && is_blocked r then S (w_held w) else w_held w) ∧
  ∀ nd, r = Ok nd → built X s file (cid_of (adder X (addblockstore s) s) nd) ∧
    (Pin (adder_opts s p) = true → cid_of (adder X (addblockstore s) s) nd ∈ pins s').
Proof using HX.
  intros Hm Hr. pose proof (λ H1 H2, AddAllAndPin_run _ _ _ _ _ _ H1 H2 Hr) as Hrun. destruct (Hrun eq_refl eq_refl) as (Hh & _ & Hp).
  split; [done|]. intros nd ->. split; [|exact (Hp nd eq_refl)]. exists nd. split; [done|]. intros Hwf q.
  rewrite <- (fview_room room). refine (AddAllAndPin_tree _ _ file _ nd s' Hwf _ Hr q).
  unfold cur. by destruct Hm as [->| ->].
Qed.

Lemma Add_spec room file opts w :
  let '(r, evs, w') := Add X room file opts w in
  (s_OnlyHash (settings_of opts) = true → w' = w) ∧
  (r ≠ Err Blocked → w_held w' = w_held w) ∧
  match r with
  | Ok c => ∃ s p, UnixfsAddOptions opts = Ok (s, p) ∧ built X s file c ∧
      (s_OnlyHash s = false → provided w' = c :: provided w ∧ (s_Pin s = true → c ∈ w_pins w'))
  | Err _ => provided w' = provided w
  end.
Proof using HX.
  unfold Add. destruct (UnixfsAddOptions opts) as [[s p]|e] eqn:Ho; [|done].
  destruct (UnixfsAddOptions_keeps _ _ _ Ho) as [<- _].
  destruct (Config X) as [[fst urls]|e]; [|done]. destruct (_ && _); [done|].
  destruct (if s_OnlyHash s then NewNode_err X else None) as [e|]; [done|].
  destruct (s_OnlyHash s) eqn:Hoh.
  - destruct (AddAllAndPin _ _ file (mkAS (Some (TDir p ∅)) false None 0 ∅ 0 [] [] [])) as [r s'] eqn:Hr.
    pose proof (adder_built room s p file (Some (TDir p ∅)) (mkAddW ∅ 0 [] []) r s' (or_intror eq_refl) Hr) as [_ Hb].
    destruct (s_Layout s); cbv zeta; try done; try rewrite Hr;
      (destruct r as [nd|e]; split_and!; try done; exists s, p; split_and!; [done|by apply Hb|congruence]).
  - destruct (AddAllAndPin _ _ file (mkAS None false None 0 (w_pins w) (w_held w) (w_gc w) [] [])) as [r s'] eqn:Hr.
    pose proof (adder_built room s p file None w r s' (or_introl eq_refl) Hr) as [Hh Hb].
    assert (r ≠ Err Blocked → held s' = w_held w) as Hheld.
    { intros Hne. rewrite Hh. destruct r as [nd|e]; cbn; [by rewrite andb_false_r|]. rewrite bool_decide_eq_false_2, andb_false_r by congruence. done. }
    destruct (s_Layout s); cbv zeta; try (split_and!; [intros; congruence|done..]); try rewrite Hr;
      (destruct r as [nd|e]; [cbn [cid_of with_room]; destruct (Provide_err X _)|]);
      (split_and!; [intros; congruence|intros Hne; apply Hheld; first [done|intros [= ->]; by apply Hne]|try done]);
      exists s, p; (split_and!; [done|by apply Hb|]); intros _; cbn; (split; [done|]); intros HP;
      apply (Hb nd eq_refl); unfold adder_opts; cbn; by rewrite HP, Hoh.
Qed.

(** UnixfsAPI.Add: a CID it returns is that of a node that looks at every path like what
    was given, and unless the add only hashes the node has provided it and, if asked,
    pinned it; an add that only hashes leaves the node as it was; and a return, with an
    error too, leaves the pin lock as it was and an error provides nothing. *)
Theorem Add_exact room file opts w :
  let '(r, evs, w') := Add X room file opts w in
  (s_OnlyHash (settings_of opts) = true → w' = w) ∧
  (r ≠ Err Blocked → w_held w' = w_held w) ∧
  match r with
  | Ok c => ∃ s p, UnixfsAddOptions opts = Ok (s, p) ∧
      (∃ nd, c = cid_of (adder X (addblockstore s) s) nd ∧
        (wf_node file → ∀ q, view q nd = fview (adder X (addblockstore s) s) q file)) ∧
      (s_OnlyHash s = false → provided w' = c :: provided w ∧ (s_Pin s = true → c ∈ w_pins w'))
  | Err _ => provided w' = provided w
  end.
Proof using HX. exact (Add_spec room file opts w). Qed.

End api.

(** ** What the command does *)

(** An adder of its own never unpins. *)
Section keeps_pins.
Context (E : AddEnv) (O : AdderOpts) (P : gset string).

Definition pins_more (s : AS) : Prop := P ⊆ pins s ∧ tempRoot s = None.
Definition pin_part (s : AS) : gset string * option string := (pins s, tempRoot s).

Lemma keeps_kept {B} (c : M AS MErr B) : kept pin_part c → keeps pins_more c.
Proof.
  intros Hc s r s' Hr [H1 H2]. apply (kept_run pin_part) in Hr; [|done].
  injection Hr as Hp Hu. unfold pins_more. by rewrite Hp, Hu.
Qed.

Lemma keeps_same {B} (c : M AS MErr B) : (∀ s, pin_part (c s).2 = pin_part s) → keeps pins_more c.
Proof. intros Hc. apply keeps_kept. intros x s r s' Hr <-. specialize (Hc s). by rewrite Hr in Hc. Qed.

Lemma pins_mfsRoot : keeps pins_more (mfsRoot E O).
Proof. apply keeps_same. intros s. unfold mfsRoot, mbind, M_bind, mget, fail_at. destruct (mroot s); [done|]. by destruct (fails E "newroot" []). Qed.

Lemma pins_PinRoot t : keeps pins_more (PinRoot E O t).
Proof.
  intros s r s' Hr [H1 H2]. unfold PinRoot in Hr. destruct (Pin O); [|by injection Hr as _ <-].
  unfold mbind, M_bind, fail_at, mget, mmodify, mthrow, M_throw, mret, M_ret in Hr.
  destruct (fails E "add" []); [by injection Hr as _ <-|]. rewrite H2 in Hr.
  destruct (fails E "pinflush" []); injection Hr as _ <-; unfold pins_more; cbn; set_solver.
Qed.

Lemma pins_fail_at op : keeps pins_more (fail_at E op).
Proof. apply keeps_kept, kept_fail_at. Qed.

Lemma pins_curRootNode : keeps pins_more (curRootNode E O).
Proof.
  unfold curRootNode. apply keeps_bind; [apply pins_mfsRoot|]. intros t. apply keeps_bind; [apply pins_fail_at|]. intros _.
  destruct t as [b es| |]; try apply keeps_ret. destruct (map_to_list es) as [|[n nd] [|]]; try apply keeps_ret.
  apply keeps_bind; [apply pins_fail_at|intros _; apply keeps_ret].
Qed.

Lemma pins_before : keeps pins_more (before_node E O).
Proof.
  unfold before_node. apply keeps_bind.
  - unfold maybePauseForGC. apply keeps_bind; [by apply keeps_same|]. intros s. destruct (unlocker s); [|apply keeps_ret].
    apply keeps_bind; [apply keeps_same; intros s2; unfold GCRequested; by destruct (gc_requests s2)|].
    intros []; [|apply keeps_ret]. apply keeps_bind; [apply pins_curRootNode|]. intros t. apply keeps_bind; [apply pins_PinRoot|]. intros _.
    do 2 (apply keeps_bind; [by apply keeps_same|intros _]). by apply keeps_same.
  - intros _. apply keeps_bind; [by apply keeps_same|]. intros s. apply keeps_bind.
    + destruct (_ >=? _)%Z; [|apply keeps_ret]. apply keeps_bind; [apply pins_mfsRoot|]. intros _.
      apply keeps_bind; [apply pins_fail_at|]. intros _. by apply keeps_same.
    + intros _. apply keeps_bind; [by apply keeps_same|]. intros s2. by apply keeps_same.
Qed.

Lemma pins_add_all file : keeps pins_more (add_all E O file).
Proof.
  assert (∀ ev, kept pin_part (emit E ev)) as Hem by (intros; by apply kept_emit).
  assert (∀ t s, pins_more s → pins_more (put_root t s).2) as Hroot by (intros t s Hs; exact Hs).
  unfold add_all. apply keeps_bind.
  { apply keeps_addFileNode; [done| |apply pins_before].
    intros ev s. exact (keeps_kept _ (Hem ev) s _ _ (surjective_pairing _)). }
  intros _. apply keeps_bind; [apply pins_mfsRoot|]. intros t. apply keeps_bind; [apply pins_fail_at|]. intros _.
  apply keeps_bind.
  { destruct file; try apply keeps_ret; (destruct t as [b es| |]; [|apply keeps_throw..]);
      (destruct (ListNames E es); [apply keeps_throw|]); (apply keeps_bind; [by apply keeps_on_root|intros ?; apply keeps_ret]). }
  intros root. do 2 (apply keeps_bind; [apply pins_fail_at|]; intros _).
  apply keeps_bind; [apply keeps_kept, kept_outputDirs; done|]. intros _. apply keeps_bind; [apply pins_fail_at|]. intros _.
  apply keeps_bind; [destruct (Pin O); [apply pins_PinRoot|apply keeps_ret]|]. intros _. apply keeps_ret.
Qed.

Lemma adder_keeps_pins file s r s' :
  tempRoot s = None → P ⊆ pins s → AddAllAndPin E O file s = (r, s') → P ⊆ pins s'.
Proof.
  intros Ht HP. unfold AddAllAndPin. rewrite bind_unfold. destruct (Pin O); cbn;
    (destruct (add_all E O file _) as [r2 s2] eqn:H2; pose proof (pins_add_all file _ _ _ H2 (conj HP Ht)) as [H3 _];
     destruct r2 as [nd|e]; [|destruct (decide (e = Blocked))]; intros [= _ <-]; (destruct (unlocker s2); exact H3)).
Qed.

End keeps_pins.

Lemma Add_keeps_pins X room file opts w : w_pins w ⊆ w_pins (Add X room file opts w).2.
Proof.
  unfold Add. destruct (UnixfsAddOptions opts) as [[s p]|e]; [|done]. destruct (Config X) as [[f u]|e]; [|done].
  destruct (_ && _); [done|]. destruct (if s_OnlyHash s then _ else _); [done|].
  assert (∀ O, w_pins w ⊆ pins (AddAllAndPin (with_room room (adder X (addblockstore s) s)) O file
    (mkAS None false None 0 (w_pins w) (w_held w) (w_gc w) [] [])).2) as Hk.
  { intros O. destruct (AddAllAndPin _ O file _) as [r s'] eqn:Hr. by eapply adder_keeps_pins in Hr. }
  specialize (Hk (adder_opts s p)). destruct (s_Layout s); try done; cbv zeta;
    (destruct (s_OnlyHash s); [clear Hk; destruct (AddAllAndPin _ _ file _); cbn; reflexivity|]; destruct (AddAllAndPin _ _ file _) as [[nd|e] s'];
     [case_match|]; exact Hk).
Qed.

Section command.
Context (X : AddCmdEnv) {HX : ∀ st s, AddLaws (adder (api X) st s)}.

Lemma add_opts_settings r code progress :
  s_OnlyHash (settings_of (add_opts r code progress)) = only_hash r ∧ s_Pin (settings_of (add_opts r code progress)) = dopin r.
Proof using Type. unfold settings_of, add_opts. by destruct (cidVer r), (rawblks r), (trickle r). Qed.

Lemma add_entries_spec (Hemit : ∀ n, Emit_err X n = None) opts entries added sent w :
  let '(r, sent', w') := add_entries X opts entries added sent w in
  (r ≠ Err Blocked → w_held w' = w_held w) ∧ (s_OnlyHash (settings_of opts) = true → w' = w) ∧ w_pins w ⊆ w_pins w' ∧
  (∀ n, r = Ok n → n = added + length entries ∧ ∃ cids,
    Forall2 (λ e c, ∃ s p, UnixfsAddOptions opts = Ok (s, p) ∧ built (api X) s e.2 c) entries cids ∧
    (s_OnlyHash (settings_of opts) = false → provided w' = reverse cids ++ provided w ∧
      (s_Pin (settings_of opts) = true → Forall (λ c, c ∈ w_pins w') cids))).
Proof using HX.
  revert added sent w. induction entries as [|[name node] entries IH]; intros added sent w; cbn [add_entries].
  { split_and!; try done. intros n [= <-]. split; [cbn; lia|]. exists []. split; [done|]. intros _. by split. }
  pose proof (Add_spec (api X) None node opts w) as Ha. pose proof (Add_keeps_pins (api X) None node opts w) as Hk.
  destruct (Add (api X) None node opts w) as [[r evs] w1]. destruct Ha as (Hoh & Hh & Hr). cbn [snd] in Hk.
  assert (∀ k n, first_fail (Emit_err X) k n = None) as ->.
  { intros k n. revert k. induction n as [|n IHn]; intros k; [done|]. cbn. by rewrite Hemit, IHn. }
  destruct r as [c|e].
  - destruct Hr as (s & p & Hopts & Hb & Hprov). destruct (UnixfsAddOptions_keeps _ _ _ Hopts) as [Hs1 Hs2].
    specialize (IH (S added) (sent ++ (add_output X name (is_dir node) <$> evs)) w1).
    destruct (add_entries X opts entries _ _ w1) as [[r' sent'] w']. destruct IH as (IH1 & IH2 & IH3 & IH4). split_and!.
    + intros Hne. by rewrite IH1, Hh.
    + intros Ht. rewrite IH2 by done. by apply Hoh.
    + by etrans.
    + intros n Hn. destruct (IH4 n Hn) as (-> & cids & Hf & Hp). split; [cbn; lia|].
      exists (c :: cids). split; [constructor; [by exists s, p|done]|]. intros Ho.
      destruct (Hp Ho) as [-> Hpin]. destruct Hprov as [-> Hpin']; [congruence|]. rewrite reverse_cons, <- app_assoc.
      split; [done|]. intros Hpt. constructor; [|by apply Hpin]. apply IH3, Hpin'. congruence.
  - split_and!; [|exact Hoh|exact Hk|intros n [=]]. intros Hne. apply Hh. intros [= ->]. by apply Hne.
Qed.

(** What the command is asked to add, and the error it is given at the end *)
Definition to_add (r : AddReq) (files : list (string * FNode)) (files_err : option MErr) : list (string * FNode) :=
  if wrap r then [("", FDir files files_err)] else files.

(** ipfs add: it succeeds only when there was something to add and all of it was added,
    each entry as a node that looks like it, provided and, if asked, pinned in the end;
    with --only-hash the node is as it was; and while its outputs are read, the pin lock
    is given back however the command ends. *)
Theorem AddCmd_exact (Hemit : ∀ n, Emit_err X n = None) r files files_err w :
  let '(res, sent, w') := AddCmd X r files files_err w in
  (res ≠ Err Blocked → w_held w' = w_held w) ∧ (only_hash r = true → w' = w) ∧
  (res = Ok () → ∃ opts cids, to_add r files files_err ≠ [] ∧ (wrap r = false → files_err = None) ∧
    Forall2 (λ e c, ∃ s p, UnixfsAddOptions opts = Ok (s, p) ∧ built (api X) s e.2 c) (to_add r files files_err) cids ∧
    (only_hash r = false → provided w' = reverse cids ++ provided w ∧ (dopin r = true → Forall (λ c, c ∈ w_pins w') cids))).
Proof using HX.
  unfold AddCmd. destruct (mh_Names X _) as [code|]; [|done]. fold (to_add r files files_err).
  set (opts := add_opts r code (default false (add_PreRun r))).
  destruct (add_opts_settings r code (default false (add_PreRun r))) as [Hs1 Hs2]. fold opts in Hs1, Hs2.
  pose proof (add_entries_spec Hemit opts (to_add r files files_err) 0 [] w) as Hs.
  destruct (add_entries X opts _ 0 [] w) as [[res sent] w']. destruct Hs as (Hh & Hoh & _ & Hok). rewrite Hs1 in Hoh, Hok. rewrite Hs2 in Hok.
  destruct res as [n|e]; cbv beta iota.
  - destruct (Hok n eq_refl) as (-> & cids & Hf & Hp).
    assert (w_held w' = w_held w) as Hheld by (by apply Hh).
    destruct (if wrap r then None else files_err) as [e|] eqn:He; [done|].
    destruct (decide (0 + length (to_add r files files_err) = 0)) as [Hz|Hz]; [done|].
    split_and!; [done|done|]. intros _. exists opts, cids. split_and!; [|intros Hw; by rewrite Hw in He|done|done].
    intros Hnil. rewrite Hnil in Hz. done.
  - split_and!; [|done|done]. intros Hne. apply Hh. intros [= ->]. by apply Hne.
Qed.

End command.

(** ** What the progress bar shows *)

(** The reports of the files read one after the other: a name and the bytes so far *)
Definition reports (fs : list (string * list Z)) : list AddEvent :=
  concat ((λ f : string * list Z, (λ b, mkEvent f.1 "" "" b) <$> f.2) <$> fs).

Definition read_total (fs : list (string * list Z)) : Z := foldr (λ f n, default 0 (last f.2) + n)%Z 0%Z fs.

(** Reports that grow within a file *)
Definition grows (f : string * list Z) : Prop := f.1 ≠ "" ∧ f.2 ≠ [] ∧ Sorted Z.le (0%Z :: f.2).

Fixpoint names_differ (n : string) (fs : list (string * list Z)) : Prop :=
  match fs with [] => True | f :: fs' => f.1 ≠ n ∧ names_differ f.1 fs' end.

Lemma reports_cons n vs fs : reports ((n, vs) :: fs) = ((λ v, mkEvent n "" "" v) <$> vs) ++ reports fs.
Proof. done. Qed.

Lemma sorted_last a vs : Sorted Z.le (a :: vs) → (a ≤ default a (last vs))%Z.
Proof.
  intros Hs. apply Sorted_StronglySorted in Hs; [|intros x y z ? ?; lia]. apply StronglySorted_inv in Hs as [_ Hall].
  destruct (last vs) as [l|] eqn:Hl; cbn; [|lia]. rewrite Forall_forall in Hall. apply Hall. by apply last_Some_elem_of in Hl.
Qed.

Lemma read_total_nonneg fs : Forall grows fs → (0 ≤ read_total fs)%Z.
Proof.
  induction 1 as [|[m vs] fs (_ & _ & Hs) _ IH]; cbn; [lia|]. fold (read_total fs). cbn [snd] in Hs. apply sorted_last in Hs. lia.
Qed.

Section bar.
Context (esc : string → string) (qt qtr : bool).
Abbreviation step := (bar_step esc qt qtr true).

(** The bar in the middle of a file [n], the files before it having [prev] bytes *)
Definition bar_at (n : string) (prev cur : Z) (b : Bar) : Prop :=
  (lastFile b = "" ∨ lastFile b = n) ∧ prevFiles b = prev ∧ lastBytes b = cur ∧
  totalProgress b = (prev + cur)%Z ∧ bar b = (prev + cur)%Z.

Lemma step_same n prev cur b v :
  n ≠ "" → bar_at n prev cur b → (0 ≤ prev)%Z → (0 ≤ cur ≤ v)%Z → (prev + v ≤ i64_max)%Z →
  bar_at n prev v (step b (mkEvent n "" "" v)).
Proof.
  intros Hn (Hf & Hp & Hl & Ht & Hb) H0 Hv Hm. unfold bar_step. cbn [evPath evName evBytes].
  rewrite decide_False by (intros Hx; by apply Hx). cbn [negb].
  assert ((if decide (lastFile b = "") then n else lastFile b) = n) as -> by (destruct Hf as [->| ->]; [by rewrite decide_True|by case_decide]).
  rewrite bool_decide_eq_false_2 by (intros Hx; by apply Hx). cbn [orb].
  destruct (Z.ltb_spec v (lastBytes b)); [lia|]. rewrite Hp, Ht, Hb. unfold i64_max, i64_min in *.
  rewrite (i64_small (prev + v)) by (unfold i64_max, i64_min; lia).
  rewrite (i64_small (prev + v - _)) by (unfold i64_max, i64_min; lia).
  rewrite i64_small by (unfold i64_max, i64_min; lia). unfold bar_at. cbn. split_and!; [by right|done|done|lia|lia].
Qed.

Lemma step_next n m prev cur b v :
  n ≠ m → lastFile b = m → m ≠ "" → bar_at m prev cur b → (0 ≤ prev)%Z → (0 ≤ cur)%Z → (0 ≤ v)%Z → (prev + cur + v ≤ i64_max)%Z →
  bar_at n (prev + cur) v (step b (mkEvent n "" "" v)) ∧ lastFile (step b (mkEvent n "" "" v)) = n.
Proof.
  intros Hne Hm Hmn (_ & Hp & Hl & Ht & Hb) H0 Hc Hv Hmax. unfold bar_step. cbn [evPath evName evBytes].
  rewrite decide_False by (intros Hx; by apply Hx). cbn [negb]. rewrite Hm, (decide_False (P := m = "")) by done.
  rewrite bool_decide_eq_true_2 by done. cbn [orb]. rewrite Hp, Hl, Ht, Hb. unfold i64_max, i64_min in *.
  rewrite (i64_small (prev + cur)) by (unfold i64_max, i64_min; lia).
  rewrite (i64_small (prev + cur + v)) by (unfold i64_max, i64_min; lia).
  rewrite (i64_small (prev + cur + v - _)) by (unfold i64_max, i64_min; lia).
  rewrite i64_small by (unfold i64_max, i64_min; lia). unfold bar_at. cbn. split_and!; auto; lia.
Qed.

Lemma steps_same n prev vs : ∀ cur b,
  n ≠ "" → bar_at n prev cur b → (0 ≤ prev)%Z → (0 ≤ cur)%Z → Sorted Z.le (cur :: vs) →
  (prev + default cur (last vs) ≤ i64_max)%Z →
  bar_at n prev (default cur (last vs)) (foldl step b ((λ v, mkEvent n "" "" v) <$> vs)) ∧
  (vs ≠ [] ∨ lastFile b = n → lastFile (foldl step b ((λ v, mkEvent n "" "" v) <$> vs)) = n).
Proof.
  induction vs as [|v vs IH]; intros cur b Hn Hb H0 Hc Hs Hm; [cbn; split; [done|intros [|]; done]|].
  assert (Hs' := Hs). apply Sorted_inv in Hs as [Hs Hh]. inversion Hh as [|? ? Hle]; subst.
  assert (default cur (last (v :: vs)) = default v (last vs)) as Hlast by (rewrite last_cons; by destruct (last vs)).
  rewrite Hlast in Hm |- *.
  pose proof (sorted_last _ _ Hs) as Hvl.
  cbn [fmap list_fmap foldl]. assert (bar_at n prev v (step b (mkEvent n "" "" v))) as Hb' by (eapply step_same; [done|done|done|lia|lia]).
  assert (lastFile (step b (mkEvent n "" "" v)) = n) as Hf.
  { destruct Hb' as ([Hx|Hx] & _); [|done]. exfalso. revert Hx. unfold bar_step. cbn [evPath evName evBytes].
    rewrite decide_False by (intros Hx; by apply Hx). cbn. destruct Hb as (Hlf & _).
    destruct (decide (lastFile b = "")); cbn; destruct (_ || _); try done. }
  destruct (IH v _ Hn Hb' H0 ltac:(lia) Hs Hm) as [H1 H2]. split; [exact H1|]. intros _. apply H2. by right.
Qed.

Lemma bar_run fs : ∀ n prev cur b,
  bar_at n prev cur b → lastFile b = n → n ≠ "" → (0 ≤ prev)%Z → (0 ≤ cur)%Z → Forall grows fs → names_differ n fs →
  (prev + cur + read_total fs ≤ i64_max)%Z →
  bar (foldl step b (reports fs)) = (prev + cur + read_total fs)%Z.
Proof.
  induction fs as [|[m vs] fs IH]; intros n prev cur b Hb Hf Hn H0 Hc Hg Hd Hm.
  { cbn. destruct Hb as (_ & _ & _ & _ & ->). lia. }
  apply Forall_cons in Hg as [(Hm0 & Hne & Hs) Hg]. cbn [fst snd] in *. destruct Hd as [Hd Hd']. cbn [fst] in Hd, Hd'.
  destruct vs as [|v vs]; [done|]. apply Sorted_inv in Hs as [Hs Hh]. inversion Hh as [|? ? Hv]; subst.
  rewrite reports_cons, fmap_cons, foldl_app. cbn [foldl].
  cbn [read_total foldr snd] in Hm |- *. fold (read_total fs) in Hm |- *.
  assert (default 0%Z (last (v :: vs)) = default v (last vs)) as Hlast by (rewrite last_cons; by destruct (last vs)).
  rewrite Hlast in Hm |- *.
  pose proof (sorted_last _ _ Hs) as Hvl.
  pose proof (read_total_nonneg _ Hg) as Hrt.
  destruct (step_next m (lastFile b) prev cur b v Hd eq_refl Hn Hb H0 Hc Hv ltac:(lia)) as [Hb1 Hf1].
  destruct (steps_same m (prev + cur) vs v _ Hm0 Hb1 ltac:(lia) Hv Hs ltac:(lia)) as [Hb2 Hf2].
  specialize (Hf2 (or_intror Hf1)).
  rewrite (IH m (prev + cur)%Z (default v (last vs))%Z _ Hb2 Hf2 Hm0) by (lia || done). lia.
Qed.

(** The progress bar ends at the sum of the bytes of the files, each counted once, when
    the reports of a file grow and no file has the name of the one before it. *)
Theorem add_print_total n vs fs :
  Forall grows ((n, vs) :: fs) → names_differ n fs → (read_total ((n, vs) :: fs) ≤ i64_max)%Z →
  (add_print esc qt qtr true (reports ((n, vs) :: fs))).2 = read_total ((n, vs) :: fs).
Proof.
  intros Hg Hd Hm. apply Forall_cons in Hg as [(Hn & Hne & Hs) Hg]. cbn [fst snd] in *.
  unfold add_print. cbn [snd]. rewrite reports_cons, foldl_app.
  cbn [read_total foldr snd] in Hm |- *. fold (read_total fs) in Hm |- *.
  pose proof (read_total_nonneg _ Hg) as Hrt.
  destruct (steps_same n 0 vs 0 bar0 Hn) as [Hb Hf]; [by split_and!; [left|..]|lia|lia|done|lia|].
  specialize (Hf (or_introl Hne)).
  pose proof (sorted_last _ _ Hs) as Hl0.
  rewrite (bar_run fs n 0 _ _ Hb Hf Hn) by (lia || done). lia.
Qed.

End bar.

(** ** Examples *)

Module AddExample.

Definition api0 : AddApi := mkAddApi (Ok (false, false)) (λ _ _, ex_env) None (λ _, None).
Definition cmd (fail_at : option nat) : AddCmdEnv :=
  mkAddCmdEnv api0 (λ s, if decide (s = "sha2-256") then Some SHA2_256 else None) (λ c, c)
    (λ n, if decide (Some n = fail_at) then Some "broken pipe" else None).
Definition req (only_hash : bool) : AddReq :=
  mkAddReq None false true only_hash false false false "size-262144" true None false false (Some 1%Z) "SHA2-256" false 32.
Definition w0 : AddW := mkAddW ∅ 0 [] [].

Definition file (n : string) : string * FNode := (n, FFile n [(1, true)%Z]).
Definition ten : list (string * FNode) := file <$> ["a"; "b"; "c"; "d"; "e"; "f"; "g"; "h"; "i"; "j"].

(** A client that goes away while ten files are added leaves the add blocked on its
    channel of events with the pin lock held for ever: the collector never runs again. *)
Lemma add_leaks_lock :
  (AddCmd (cmd (Some 0)) (req false) ten None w0).1.1 = Err (MMsg "broken pipe") ∧
  w_held (AddCmd (cmd (Some 0)) (req false) ten None w0).2 = 1.
Proof. split; vm_compute; reflexivity. Qed.

End AddExample.

Import AddExample.

Lemma Add_exact_witness :
  let '(r, evs, w') := Add api0 None ex_dir [OPin true; OCidVersion 1] w0 in
  r = Ok "bafydir" ∧ w_held w' = 0 ∧ provided w' = ["bafydir"] ∧ "bafydir" ∈ w_pins w'.
Proof.
  pose proof (Add_exact api0 (HX := λ _ _, ex_laws) None ex_dir [OPin true; OCidVersion 1] w0) as Hx.
  assert ((Add api0 None ex_dir [OPin true; OCidVersion 1] w0).1.1 = Ok "bafydir") as Hr by (vm_compute; reflexivity).
  destruct (Add api0 None ex_dir [OPin true; OCidVersion 1] w0) as [[r evs] w']. cbn [fst] in Hr. subst r.
  destruct Hx as (_ & Hh & s & p & Ho & _ & Hp). vm_compute in Ho. injection Ho as <- <-.
  destruct (Hp eq_refl) as [-> Hpin]. split_and!; [done|by apply Hh|done|by apply Hpin].
Defined.

Lemma AddCmd_exact_witness :
  let '(r, sent, w') := AddCmd (cmd None) (req false) ten None w0 in
  r = Ok () ∧ w_held w' = 0 ∧ ∃ c, provided w' = [c] ∧ c ∈ w_pins w'.
Proof.
  pose proof (AddCmd_exact (cmd None) (HX := λ _ _, ex_laws) (λ _, eq_refl) (req false) ten None w0) as Hx.
  assert ((AddCmd (cmd None) (req false) ten None w0).1.1 = Ok ()) as Hr by (vm_compute; reflexivity).
  destruct (AddCmd (cmd None) (req false) ten None w0) as [[r evs] w']. cbn [fst] in Hr. subst r.
  destruct Hx as (Hh & _ & Hok). destruct (Hok eq_refl) as (opts & cids & _ & _ & Hf & Hp).
  split; [done|]. split; [by apply Hh|]. unfold to_add in Hf. cbn [wrap req] in Hf.
  inversion Hf as [|? c ? cs _ Hf']; subst. inversion Hf'; subst. destruct (Hp eq_refl) as [-> Hpin].
  exists c. split; [done|]. specialize (Hpin eq_refl). by apply Forall_cons in Hpin as [? _].
Defined.

Lemma add_print_total_witness :
  (add_print (λ s, s) false false true (reports [("a", [262144; 300000]%Z); ("b", [7]%Z)])).2 = 300007%Z.
Proof.
  apply (add_print_total (λ s, s) false false "a" [262144; 300000]%Z [("b", [7]%Z)]).
  - repeat constructor; done || lia.
  - by repeat constructor.
  - vm_compute. done.
Defined.
