(* ===== verification/RepoCmd.v ===== *)
(** * The repo commands (core/commands/repo.go)

    repo gc and repo stat over [CoreRepo], and repo verify, whose workers read the
    blocks concurrently: a step of the machine is a step of one worker, or of the
    context that is cancelled. *)

From Stdlib Require Import ZArith Ascii String.
From stdpp Require Import base gmap sets list strings relations.
From S2P Require Import Prelude GoStrings Cid Dag GC CoreRepo.

(** ** repo gc *)

Inductive GcResult := GcKey (k : Cid) | GcFailed (err : string).

(** What the command returns: the error of CollectResult, or a text *)
Inductive GcEnd := GcOk | GcCollect (e : CollectError) | GcText (msg : string).

Section gc.
Context (env : NodeEnv) (err_Error : GCError → string) (Emit_err : nat → option string).

(** The loop with --stream-errors; [errs] is set by an error seen. *)
Fixpoint stream_loop (gcOut : list Result) (sent : list GcResult) (errs : bool) : list GcResult * GcEnd :=
  match gcOut with
  | [] => (sent, if errs then GcText "encountered errors during gc run" else GcOk)
  | r :: gcOut' =>
      match Emit_err (length sent) with
      | Some e => (sent, GcText e)
      | None =>
          match r with
          | ResultError e => stream_loop gcOut' (sent ++ [GcFailed (err_Error e)]) true
          | KeyRemoved k => stream_loop gcOut' (sent ++ [GcKey k]) errs
          end
      end
  end.

(** The outputs that get through when their errors are ignored *)
Fixpoint emit_all (sent : list GcResult) (ks : list Cid) (n : nat) : list GcResult :=
  match ks with
  | [] => sent
  | k :: ks' => emit_all (match Emit_err n with None => sent ++ [GcKey k] | Some _ => sent end) ks' (S n)
  end.

(** repoGcCmd.Run, or None when it never returns *)
Definition repoGcCmd (streamErrors : bool) (done : nat → bool) (s : NodeState) : option (list GcResult * GcEnd) * NodeState :=
  let '(out, s') := GarbageCollectAsync env s in
  (match out with
   | None => None
   | Some gcOut =>
       Some (if streamErrors then stream_loop gcOut [] false
             else let '(e, removed) := CollectResult done true gcOut in
                  (emit_all [] removed 0, match e with Some e => GcCollect e | None => GcOk end))
   end, s').

End gc.

(** The text encoder of repo gc *)
Definition gc_text (key_String : Cid → string) (quiet : bool) (r : GcResult) : string :=
  match r with GcFailed e => "Error: " +:+ e | GcKey k => (if quiet then "" else "removed ") +:+ key_String k end.

(** ** repo stat *)

(** repoStatCmd.Run *)
Definition repoStatCmd (env : NodeEnv) (path : res string string) (sizeOnly : bool) : M NodeState RepoError Stat :=
  if sizeOnly then sizeStat ← RepoSize env; mret (mkStat sizeStat 0 "" "") else RepoStat env path.

(** Its text encoder: names and values *)
Definition repoStat_text (humanize : Z → string) (human sizeOnly : bool) (stat : Stat) : list (string * string) :=
  let size n := if human then humanize n else Itoa n in
  (if sizeOnly then [] else [("NumObjects", Itoa (NumObjects stat))]) ++
  [("RepoSize", size (RepoSize_bytes (Stat_size stat))); ("StorageMax", size (RepoStorageMax (Stat_size stat)))] ++
  (if sizeOnly then [] else [("RepoPath", RepoPath stat); ("Version", Stat_version stat)]).

(** ** repo verify *)

Inductive VerifyProgress := VMsg (Msg : string) | VProgress (Progress : nat).

(** A worker: at the head of its loop, sending the result of a key, or gone *)
Inductive Worker := Idle | Sending (k : Cid) | Gone.

#[export] Instance Worker_eq_dec : EqDecision Worker. Proof. solve_decision. Defined.

(** The keys not yet taken, the workers, whether the context is done, the variables of
    the command's loop, what it emitted, and the error it returned with inside the loop *)
Record VState := mkV {
  v_keys : list Cid; v_workers : list Worker; v_ctx : bool;
  v_fails : nat; v_i : nat; v_out : list VerifyProgress; v_stop : option string;
}.

(** Where the text encoder of repo verify writes a line: to the standard output of its
    process, or to the writer it is given *)
Inductive Printed := ToStdout (line : string) | ToWriter (line : string).

Definition newline : string := String (ascii_of_nat 10) "".

Definition verify_text (obj : VerifyProgress) : Printed :=
  let Msg := match obj with VMsg msg => msg | VProgress _ => "" end in
  let Progress := match obj with VProgress i => i | VMsg _ => 0 end in
  if Contains Msg "was corrupt" then ToStdout (Msg +:+ newline)
  else if decide (Msg ≠ "") then
    ToWriter ((if decide (String.length Msg < 20) then Msg +:+ "             " else Msg) +:+ newline)
  else ToWriter (Itoa (Z.of_nat Progress) +:+ " blocks processed." +:+ String (ascii_of_nat 13) "").

(** ** repo fsck and repo version *)

Definition repoFsckCmd : string := "`ipfs repo fsck` is deprecated and does nothing." +:+ newline.

(** repoVersionCmd.Run and its text encoder *)
Definition repoVersionCmd (RepoVersion : Z) : string := Itoa RepoVersion.
Definition repoVersion_text (quiet : bool) (Version : string) : string :=
  (if quiet then "fs-repo@" else "ipfs repo version fs-repo@") +:+ Version +:+ newline.

Section verify.
Context (bs_Get : Cid → res string string) (key_String : Cid → string) (Emit_err : nat → option string).

(** What verifyWorkerRun sends for a key *)
Definition verify_msg (k : Cid) : string :=
  match bs_Get k with
  | Err e => "block " +:+ key_String k +:+ " was corrupt (" +:+ e +:+ ")"
  | Ok _ => ""
  end.

Definition emit (p : VerifyProgress) (s : VState) : VState :=
  match v_stop s, Emit_err (length (v_out s)) with
  | None, None => mkV (v_keys s) (v_workers s) (v_ctx s) (v_fails s) (v_i s) (v_out s ++ [p]) None
  | None, Some e => mkV (v_keys s) (v_workers s) (v_ctx s) (v_fails s) (v_i s) (v_out s) (Some e)
  | Some _, _ => s
  end.

(** The body of the command's loop for a message *)
Definition count_fail (s : VState) : VState :=
  match v_stop s with
  | None => mkV (v_keys s) (v_workers s) (v_ctx s) (S (v_fails s)) (v_i s) (v_out s) None
  | Some _ => s
  end.
Definition count_one (s : VState) : VState :=
  match v_stop s with
  | None => let s := mkV (v_keys s) (v_workers s) (v_ctx s) (v_fails s) (S (v_i s)) (v_out s) None in emit (VProgress (v_i s)) s
  | Some _ => s
  end.

Definition receive (msg : string) (s : VState) : VState :=
  count_one (if decide (msg ≠ "") then count_fail (emit (VMsg msg) s) else s).

Definition set_worker (j : nat) (w : Worker) (s : VState) : VState :=
  mkV (v_keys s) (<[j := w]> (v_workers s)) (v_ctx s) (v_fails s) (v_i s) (v_out s) (v_stop s).

(** What worker [j] does next: takes a key, leaves when there is none, or hands its
    result to the command, which must be there to receive it *)
Definition work (j : nat) (s : VState) : option VState :=
  match v_workers s !! j with
  | Some Idle =>
      match v_keys s with
      | k :: ks => Some (set_worker j (Sending k) (mkV ks (v_workers s) (v_ctx s) (v_fails s) (v_i s) (v_out s) (v_stop s)))
      | [] => Some (set_worker j Gone s)
      end
  | Some (Sending k) =>
      match v_stop s with None => Some (receive (verify_msg k) (set_worker j Idle s)) | Some _ => None end
  | _ => None
  end.

(** A worker leaves while sending, once the context is done. *)
Definition quit (j : nat) (s : VState) : option VState :=
  match v_workers s !! j with
  | Some (Sending _) => if v_ctx s then Some (set_worker j Gone s) else None
  | _ => None
  end.

(** The context is cancelled; then the channel of keys can end early. *)
Definition cancel (s : VState) : option VState :=
  if v_ctx s then (match v_keys s with [] => None | _ => Some (mkV [] (v_workers s) true (v_fails s) (v_i s) (v_out s) (v_stop s)) end)
  else Some (mkV (v_keys s) (v_workers s) true (v_fails s) (v_i s) (v_out s) (v_stop s)).

Inductive vstep (s : VState) : VState → Prop :=
  | step_work j s' : work j s = Some s' → vstep s s'
  | step_quit j s' : quit j s = Some s' → vstep s s'
  | step_cancel s' : cancel s = Some s' → vstep s s'.

(** repoVerifyCmd.Run starts with [n] workers on the keys of the store. *)
Definition verify_init (n : nat) (keys : list Cid) : VState := mkV keys (replicate n Idle) false 0 0 [] None.

Definition gone (s : VState) : Prop := Forall (λ w, w = Gone) (v_workers s).

(** What the command returns when the channel of results is closed, that is when all the
    workers are gone, or from inside its loop *)
Definition verify_end (s : VState) : VState * option string :=
  match v_stop s with
  | Some e => (s, Some e)
  | None =>
      if v_ctx s then (s, Some "context canceled")
      else if decide (v_fails s ≠ 0) then (s, Some "verify complete, some blocks were corrupt")
      else let s := emit (VMsg "verify complete, all blocks validated.") s in (s, v_stop s)
  end.

(** ** What is verified *)

Definition corrupt (k : Cid) : bool := is_err (bs_Get k).

Lemma verify_msg_corrupt k : verify_msg k = "" ↔ corrupt k = false.
Proof. unfold verify_msg, corrupt. by destruct (bs_Get k). Qed.

(** The outputs for keys in the order they are received *)
Fixpoint reports (i : nat) (ks : list Cid) : list VerifyProgress :=
  match ks with
  | [] => []
  | k :: ks' => (if corrupt k then [VMsg (verify_msg k)] else []) ++ VProgress (S i) :: reports (S i) ks'
  end.

Definition ncorrupt (ks : list Cid) : nat := length (filter (λ k, corrupt k = true) ks).

Definition held_by (w : Worker) : list Cid := match w with Sending k => [k] | _ => [] end.
Definition inflight (ws : list Worker) : list Cid := ws ≫= held_by.

(** The keys already received, while the command has not stopped and the context is live *)
Definition VInv (keys : list Cid) (s : VState) : Prop :=
  v_stop s = None → v_ctx s = false →
  ∃ done, keys ≡ₚ done ++ inflight (v_workers s) ++ v_keys s ∧
    v_out s = reports 0 done ∧ v_i s = length done ∧ v_fails s = ncorrupt done.

Lemma reports_snoc k ks : ∀ i,
  reports i (ks ++ [k]) = reports i ks ++ (if corrupt k then [VMsg (verify_msg k)] else []) ++ [VProgress (S (i + length ks))].
Proof.
  induction ks as [|x ks IH]; intros i; cbn [app reports length].
  - by rewrite Nat.add_0_r.
  - rewrite IH. cbn [app]. rewrite <- !app_assoc. cbn. by rewrite Nat.add_succ_r.
Qed.

Lemma emit_same p s : v_stop s = None → v_stop (emit p s) = None →
  emit p s = mkV (v_keys s) (v_workers s) (v_ctx s) (v_fails s) (v_i s) (v_out s ++ [p]) None.
Proof. unfold emit. intros ->. by destruct (Emit_err (length (v_out s))). Qed.

Definition frame (s : VState) : list Cid * list Worker * bool := (v_keys s, v_workers s, v_ctx s).

Lemma emit_frame p s : frame (emit p s) = frame s.
Proof. unfold emit. by destruct (v_stop s), (Emit_err (length (v_out s))). Qed.

Lemma receive_frame msg s : frame (receive msg s) = frame s.
Proof.
  assert (∀ t, frame (count_one t) = frame t) as H1.
  { intros t. unfold count_one. destruct (v_stop t); [done|]. cbv zeta. by rewrite emit_frame. }
  assert (∀ t, frame (count_fail t) = frame t) as H2 by (intros t; unfold count_fail; by destruct (v_stop t)).
  unfold receive. rewrite H1. case_decide; [by rewrite H2, emit_frame|done].
Qed.

Lemma receive_keys msg s : v_keys (receive msg s) = v_keys s ∧ v_workers (receive msg s) = v_workers s ∧ v_ctx (receive msg s) = v_ctx s.
Proof. pose proof (receive_frame msg s) as Hf. by injection Hf. Qed.

(** A result that is received and reported *)
Lemma receive_ok k s : v_stop s = None → v_stop (receive (verify_msg k) s) = None →
  let s' := receive (verify_msg k) s in
  v_out s' = v_out s ++ (if corrupt k then [VMsg (verify_msg k)] else []) ++ [VProgress (S (v_i s))] ∧
  v_i s' = S (v_i s) ∧ v_fails s' = (if corrupt k then 1 else 0) + v_fails s.
Proof.
  intros Hs. unfold receive, count_one, count_fail.
  destruct (decide (verify_msg k ≠ "")) as [Hm|Hm].
  - assert (corrupt k = true) as -> by (destruct (corrupt k) eqn:Hc; [done|by apply verify_msg_corrupt in Hc]).
    destruct (v_stop (emit (VMsg (verify_msg k)) s)) as [e|] eqn:He; [cbv iota; rewrite !He; by intros [=]|]. cbn [v_stop].
    rewrite (emit_same _ s) by done. cbn [v_keys v_workers v_ctx v_fails v_i v_out]. intros He2.
    rewrite emit_same by done. cbn. split_and!; [by rewrite <- app_assoc|done|done].
  - assert (corrupt k = false) as -> by (apply verify_msg_corrupt; by apply dec_stable).
    rewrite Hs. intros He. rewrite emit_same by done. done.
Qed.

Lemma VInv_step keys s s' : vstep s s' → VInv keys s → VInv keys s'.
Proof.
  intros Hst HI Hs' Hc'. destruct Hst as [j s' Hw|j s' Hq|s' Hca].
  - unfold work in Hw. destruct (v_workers s !! j) as [[|k|]|] eqn:Hj; [| |done..].
    + destruct (v_keys s) as [|k ks] eqn:Hk; injection Hw as <-; destruct (HI Hs' Hc') as (dn & Hp & Ho & Hi & Hf);
        exists dn; (split; [|done]); rewrite Hp, Hk; cbn [v_workers set_worker v_keys].
      * destruct (bind_insert held_by _ j Idle Gone Hj) as (rest & H1 & H2). by rewrite H1, Hk, H2.
      * destruct (bind_insert held_by _ j Idle (Sending k) Hj) as (rest & H1 & H2). rewrite H1, H2. cbn. f_equiv.
        by rewrite Permutation_middle.
    + destruct (v_stop s) as [|] eqn:Hs; [done|]. injection Hw as <-.
      destruct (receive_keys (verify_msg k) (set_worker j Idle s)) as (K1 & K2 & K3).
      rewrite K3 in Hc'. destruct (HI Hs Hc') as (dn & Hp & Ho & Hi & Hf).
      destruct (receive_ok k (set_worker j Idle s) Hs Hs') as (R1 & R2 & R3). exists (dn ++ [k]).
      rewrite K1, K2, R1, R2, R3. cbn [v_workers set_worker v_keys v_out v_i v_fails].
      destruct (bind_insert held_by _ j (Sending k) Idle Hj) as (rest & H1 & H2). split_and!.
      * rewrite Hp, H1, H2. cbn. by rewrite <- app_assoc.
      * rewrite reports_snoc, Ho, Hi. done.
      * rewrite length_app, Hi. cbn. lia.
      * unfold ncorrupt. rewrite filter_app, length_app, Hf. unfold ncorrupt. rewrite filter_cons, filter_nil.
        destruct (corrupt k); [rewrite decide_True by done|rewrite decide_False by done]; cbn [length]; lia.
  - unfold quit in Hq. destruct (v_workers s !! j) as [[|k|]|]; try done. destruct (v_ctx s) eqn:Hc; [|done].
    injection Hq as <-. cbn in Hc'. congruence.
  - unfold cancel in Hca. destruct (v_ctx s); [destruct (v_keys s); [done|]|]; by injection Hca as <-.
Qed.

Lemma VInv_reach keys n s : rtc vstep (verify_init n keys) s → VInv keys s.
Proof.
  intros Hr. remember (verify_init n keys) as s0 eqn:Hs0. assert (VInv keys s0) as HI.
  { subst. intros _ _. exists []. split_and!; [|done..]. cbn [verify_init v_workers v_keys app].
    assert (inflight (replicate n Idle) = []) as ->; [|done]. clear. induction n as [|n IH]; [done|]. exact IH. }
  clear Hs0. revert HI. induction Hr as [|s0 s1 s2 Hst _ IH]; [done|]. intros HI. by apply IH, (VInv_step _ s0).
Qed.

Lemma inflight_gone ws : Forall (λ w, w = Gone) ws → inflight ws = [].
Proof. induction 1 as [|w ws -> _ IH]; [done|]. cbn. done. Qed.

Lemma gone_keys n keys s : rtc vstep (verify_init n keys) s → 0 < n → gone s → v_ctx s = false → v_keys s = [].
Proof.
  intros Hr Hn. enough (length (v_workers s) = n ∧ (v_ctx s = false → (∃ w, w ∈ v_workers s ∧ w ≠ Gone) ∨ v_keys s = [])) as [Hl Hk].
  { intros Hg Hc. destruct (Hk Hc) as [(w & Hw & Hne)|]; [|done]. unfold gone in Hg. rewrite Forall_forall in Hg. by apply Hg in Hw. }
  remember (verify_init n keys) as s0 eqn:Hs0.
  assert (length (v_workers s0) = n ∧ (v_ctx s0 = false → (∃ w, w ∈ v_workers s0 ∧ w ≠ Gone) ∨ v_keys s0 = [])) as H0.
  { subst. cbn. rewrite length_replicate. split; [done|]. intros _. left. exists Idle. destruct n; [lia|]. split; [by left|done]. }
  clear Hs0. revert H0. induction Hr as [|s0 s1 s2 Hst _ IH]; [done|]. intros [Hl Hk]. apply IH. clear IH.
  destruct Hst as [j s' Hw|j s' Hq|s' Hca].
  - unfold work in Hw. destruct (v_workers s0 !! j) as [[|k|]|] eqn:Hj; [| |done..].
    + destruct (v_keys s0) as [|k ks] eqn:Hks; injection Hw as <-; cbn; rewrite length_insert; (split; [done|]); intros _; [by right|].
      left. exists (Sending k). split; [|done]. apply list_elem_of_insert. by apply lookup_lt_Some in Hj.
    + destruct (v_stop s0); [done|]. injection Hw as <-.
      destruct (receive_keys (verify_msg k) (set_worker j Idle s0)) as (K1 & K2 & K3). rewrite K1, K2, K3. cbn. rewrite length_insert.
      split; [done|]. intros _. left. exists Idle. split; [|done]. apply list_elem_of_insert. by apply lookup_lt_Some in Hj.
  - unfold quit in Hq. destruct (v_workers s0 !! j) as [[|k|]|]; try done. destruct (v_ctx s0) eqn:Hc; [|done].
    injection Hq as <-. cbn. rewrite length_insert. split; [done|]. intros Hx. congruence.
  - unfold cancel in Hca. destruct (v_ctx s0); [destruct (v_keys s0); [done|]|]; injection Hca as <-; done.
Qed.

(** C15.  repo verify: however its workers interleave, once they are all gone and nobody
    cancelled, the command has reported every block of the store exactly once, each
    corrupt one with a message, counting up by one; it ends well exactly when no block
    is corrupt. *)
Theorem repo_verify_exact n keys s :
  0 < n → rtc vstep (verify_init n keys) s → gone s → v_stop s = None → v_ctx s = false →
  ∃ order, order ≡ₚ keys ∧ v_out s = reports 0 order ∧
    (if forallb (λ k, negb (corrupt k)) keys
     then verify_end s = (let s' := emit (VMsg "verify complete, all blocks validated.") s in (s', v_stop s'))
     else verify_end s = (s, Some "verify complete, some blocks were corrupt")).
Proof.
  intros Hn Hr Hg Hs Hc. destruct (VInv_reach _ _ _ Hr Hs Hc) as (dn & Hp & Ho & Hi & Hf).
  rewrite (gone_keys _ _ _ Hr Hn Hg Hc), (inflight_gone _ Hg), !app_nil_r in Hp. exists dn. split_and!; [done|done|].
  unfold verify_end. rewrite Hs, Hc.
  assert (v_fails s = ncorrupt keys) as -> by (rewrite Hf; unfold ncorrupt; by rewrite Hp).
  destruct (forallb _ keys) eqn:Hall.
  - rewrite decide_False; [done|]. intros Hne. apply Hne. unfold ncorrupt.
    destruct (filter (λ k, corrupt k = true) keys) as [|x xs] eqn:Hx; [done|]. exfalso.
    assert (x ∈ filter (λ k, corrupt k = true) keys) as [Hck Hk%list_elem_of_In]%list_elem_of_filter by (rewrite Hx; by left).
    rewrite forallb_forall in Hall. apply Hall in Hk. by rewrite Hck in Hk.
  - rewrite decide_True; [done|]. intros H0. apply not_true_iff_false in Hall. apply Hall. rewrite forallb_forall.
    intros k Hk. apply list_elem_of_In in Hk. destruct (corrupt k) eqn:Hck; [|done].
    assert (k ∈ filter (λ k, corrupt k = true) keys) as Hin by (by apply list_elem_of_filter).
    unfold ncorrupt in H0. apply nil_length_inv in H0. rewrite H0 in Hin. by apply not_elem_of_nil in Hin.
Qed.

(** ** The machine comes to an end *)

Definition worker_cost (w : Worker) : nat := match w with Idle => 1 | Sending _ => 2 | Gone => 0 end.
Definition cost (s : VState) : nat :=
  2 * length (v_keys s) + sum_list_with worker_cost (v_workers s) + (if v_ctx s then 0 else 1).

Lemma vstep_cost s s' : vstep s s' → cost s' < cost s.
Proof.
  intros Hst. destruct Hst as [j s' Hw|j s' Hq|s' Hca]; unfold cost.
  - unfold work in Hw. destruct (v_workers s !! j) as [[|k|]|] eqn:Hj; [| |done..].
    + destruct (v_keys s) as [|k ks] eqn:Hk; injection Hw as <-; cbn [v_keys v_workers v_ctx set_worker]; rewrite ?Hk.
      * pose proof (sum_insert worker_cost _ j _ Gone Hj). cbn in *. lia.
      * pose proof (sum_insert worker_cost _ j _ (Sending k) Hj). cbn in *. lia.
    + destruct (v_stop s); [done|]. injection Hw as <-.
      destruct (receive_keys (verify_msg k) (set_worker j Idle s)) as (-> & -> & ->). cbn [v_keys v_workers v_ctx set_worker].
      pose proof (sum_insert worker_cost _ j _ Idle Hj). cbn in *. lia.
  - unfold quit in Hq. destruct (v_workers s !! j) as [[|k|]|] eqn:Hj; try done. destruct (v_ctx s) eqn:Hc; [|done].
    injection Hq as <-. cbn [v_keys v_workers v_ctx set_worker]. rewrite Hc. pose proof (sum_insert worker_cost _ j _ Gone Hj). cbn in *. lia.
  - unfold cancel in Hca. destruct (v_ctx s) eqn:Hc; [destruct (v_keys s) eqn:Hk; [done|]|]; injection Hca as <-; cbn; lia.
Qed.

(** repo verify always comes to an end: a run has at most two steps a key, one a worker
    and one more; and as long as a worker is left some worker can move, unless the
    command has returned early and the context is not yet cancelled. *)
Theorem repo_verify_ends n keys m s :
  nsteps vstep m (verify_init n keys) s →
  m ≤ 2 * length keys + n + 1 ∧
  (gone s ∨ (∃ j s', work j s = Some s' ∨ quit j s = Some s') ∨ (v_stop s ≠ None ∧ v_ctx s = false)).
Proof.
  intros Hm. split.
  - assert (m + cost s ≤ cost (verify_init n keys)) as Hc.
    { remember (verify_init n keys) as s0 eqn:Hs0. clear Hs0. induction Hm as [|m s0 s1 s2 Hst _ IH]; [lia|]. apply vstep_cost in Hst. lia. }
    assert (sum_list_with worker_cost (replicate n Idle) = n) as Hw by (clear; induction n; cbn; lia).
    unfold cost in Hc at 2. cbn [verify_init v_keys v_workers v_ctx] in Hc. lia.
  - destruct (decide (Forall (λ w, w = Gone) (v_workers s))) as [Hg|Hg]; [by left|]. right.
    apply not_Forall_Exists in Hg; [|apply _]. apply Exists_exists in Hg as (w & Hw & Hne).
    apply list_elem_of_lookup in Hw as [j Hj]. destruct w as [|k|]; [| |by destruct Hne].
    + left. destruct (v_keys s) as [|k ks] eqn:Hk; exists j; eexists; left; unfold work; rewrite Hj, Hk; done.
    + destruct (v_stop s) as [e|] eqn:Hs.
      * destruct (v_ctx s) eqn:Hc; [|by right]. left. exists j, (set_worker j Gone s). right. unfold quit. by rewrite Hj, Hc.
      * left. exists j. eexists. left. unfold work. rewrite Hj, Hs. done.
Qed.

End verify.

(** ** What repo gc and repo stat report *)

Definition gc_keys (l : list GcResult) : list Cid := omap (λ r, match r with GcKey k => Some k | _ => None end) l.
Definition gc_failures (l : list GcResult) : list string := omap (λ r, match r with GcFailed e => Some e | _ => None end) l.

Section gc_spec.
Context (env : NodeEnv) (err_Error : GCError → string).

Lemma stream_loop_ok out sent errs :
  let '(sent', e) := stream_loop err_Error (λ _, None) out sent errs in
  gc_keys sent' = gc_keys sent ++ omap (λ r, match r with KeyRemoved k => Some k | _ => None end) out ∧
  gc_failures sent' = gc_failures sent ++ (err_Error <$> results_errors out) ∧
  (e = GcOk ↔ errs = false ∧ results_errors out = []).
Proof.
  revert sent errs. induction out as [|[k|e] out IH]; intros sent errs; cbn [stream_loop].
  - cbn. rewrite !app_nil_r. split_and!; [done|done|]. destruct errs; naive_solver.
  - specialize (IH (sent ++ [GcKey k]) errs). destruct (stream_loop _ _ out _ _) as [sent' e].
    destruct IH as (-> & -> & He). unfold gc_keys, gc_failures, results_errors in *. rewrite !omap_app. cbn. rewrite app_nil_r, <- app_assoc. done.
  - specialize (IH (sent ++ [GcFailed (err_Error e)]) true). destruct (stream_loop _ _ out _ _) as [sent' e'].
    destruct IH as (-> & -> & He). unfold gc_keys, gc_failures, results_errors in *. rewrite !omap_app. cbn. rewrite app_nil_r, <- app_assoc.
    split_and!; [done|done|]. rewrite He. naive_solver.
Qed.

Lemma emit_all_ok ks sent n : emit_all (λ _, None) sent ks n = sent ++ (GcKey <$> ks).
Proof. revert sent n. induction ks as [|k ks IH]; intros sent n; cbn; [by rewrite app_nil_r|]. by rewrite IH, <- app_assoc. Qed.

(** repo gc: when it returns, with all outputs read, both modes have collected the same
    and report every key removed, in order, and nothing else; the errors shown one by one
    with --stream-errors are those the other mode returns as one; and each mode ends
    well exactly when the other does. *)
Theorem repo_gc_modes_agree s out s' :
  GarbageCollectAsync env s = (Some out, s') → (∀ k, KeyRemoved k ∈ out → cid_Defined k = true) →
  ∃ l1 e1 l2 e2,
    repoGcCmd env err_Error (λ _, None) true (λ _, false) s = (Some (l1, e1), s') ∧
    repoGcCmd env err_Error (λ _, None) false (λ _, false) s = (Some (l2, e2), s') ∧
    gc_keys l1 = results_removed out ∧ gc_keys l2 = results_removed out ∧
    gc_failures l1 = err_Error <$> results_errors out ∧ gc_failures l2 = [] ∧
    match e2 with GcOk => results_errors out = [] | GcCollect e => error_list (Some e) = results_errors out | GcText _ => False end ∧
    (e1 = GcOk ↔ e2 = GcOk).
Proof.
  intros Hg Hd. unfold repoGcCmd. rewrite Hg.
  pose proof (stream_loop_ok out [] false) as Hs. destruct (stream_loop err_Error (λ _, None) out [] false) as [l1 e1].
  destruct Hs as (Hk & Hf & He).
  destruct (collect_loop_spec (λ _, false) true out 0 [] []) as (n & _ & _ & Hr & [(-> & _ & Hc)|[Hx _]]); [|done].
  rewrite firstn_all in Hr. cbn [app] in Hr, Hc.
  pose proof (collect_error_list (results_errors out)) as Hel.
  unfold CollectResult. destruct (collect_loop (λ _, false) true 0 out [] []) as [errors removed]. cbn [fst snd] in Hr, Hc. subst errors removed.
  set (ce := match results_errors out with [] => None | [e] => Some (OneError e) | _ => NewMultiError (results_errors out) end) in *.
  exists l1, e1, (GcKey <$> results_removed out), (match ce with Some e => GcCollect e | None => GcOk end).
  split_and!; [done|by rewrite emit_all_ok|..].
  - rewrite Hk. cbn. unfold results_removed. clear -Hd. induction out as [|[k|e] out IH]; [done| |].
    + cbn. rewrite Hd by (by left). cbn. f_equal. apply IH. intros k' Hk'. apply Hd. by right.
    + cbn. apply IH. intros k' Hk'. apply Hd. by right.
  - unfold gc_keys. generalize (results_removed out). induction l as [|k l IH]; [done|]. cbn. f_equal. exact IH.
  - exact Hf.
  - unfold gc_failures. generalize (results_removed out). induction l as [|k l IH]; [done|]. exact IH.
  - destruct ce; [done|]. by rewrite <- Hel.
  - rewrite He. destruct ce as [e|] eqn:Hce; split; try done.
    intros [_ Hn]. rewrite Hn in Hel. destruct e; cbn in Hel; [done|]. by apply app_nil in Hel as [_ ?].
Qed.

(** repo verify: exactly the lines on corrupt blocks miss the writer of the text encoder. *)
Theorem verify_text_corrupt bs_Get key_String k :
  (∃ line, verify_text (VMsg (verify_msg bs_Get key_String k)) = ToStdout line) ↔ corrupt bs_Get k = true.
Proof.
  unfold verify_text, verify_msg, corrupt. destruct (bs_Get k) as [d|e]; cbn [is_err].
  - split; [|done]. intros [line Hl]. done.
  - split; [done|]. intros _. rewrite (Contains_app _ (_ +:+ _)) by apply Contains_app, (Contains_mid " " "was corrupt" (" (" +:+ e +:+ ")")). by eexists.
Qed.

(** repo stat: with --size-only the sizes are those of the full answer, and neither
    changes the node. *)
Theorem repo_stat_sizes path s stat s' :
  repoStatCmd env path false s = (Ok stat, s') →
  repoStatCmd env path true s = (Ok (mkStat (Stat_size stat) 0 "" ""), s) ∧ s' = s.
Proof.
  assert (∀ r t, RepoSize env s = (r, t) → t = s) as Hsame.
  { intros r t. unfold RepoSize, env_check, env_res, mbind, M_bind, mget, mlift, mret, M_ret, mthrow, M_throw.
    repeat case_match; intros; simplify_eq; done. }
  unfold repoStatCmd, RepoStat. rewrite !bind_unfold. destruct (RepoSize env s) as [[sz|e] t] eqn:Hz; [|done].
  pose proof (Hsame _ _ eq_refl) as ->. intros Hr. unfold mbind, M_bind, mget, env_res, mthrow, M_throw, mret, M_ret, mlift in *.
  repeat case_match; simplify_eq/=. split; [|done]. by destruct sz.
Qed.

End gc_spec.

(** ** Examples *)

Module RepoExample.

Definition gc_env : NodeEnv := CoreRepoExample.env (Ok (Example.node "mfs")).
Definition k1 : Cid := CidV0 "a".
Definition k2 : Cid := CidV0 "b".
Definition bs_Get (k : Cid) : res string string := if decide (k = k2) then Err "hash mismatch" else Ok "data".
Definition str (k : Cid) : string := match k with CidV0 d => d | _ => "" end.
Definition worked (js : list nat) (s : VState) : VState := foldl (λ t j, default t (work bs_Get str (λ _, None) j t)) s js.

Lemma worked_rtc js s : rtc (vstep bs_Get str (λ _, None)) s (worked js s).
Proof.
  revert s. induction js as [|j js IH]; intros s; [done|]. unfold worked. cbn [foldl].
  destruct (work bs_Get str (λ _, None) j s) as [s1|] eqn:Hw; cbn [default]; [|apply IH].
  eapply rtc_l; [by apply (step_work _ _ _ _ j)|apply IH].
Qed.

(** The second worker is done first. *)
Definition last_state : VState := worked [0; 1; 1; 0; 1; 0] (verify_init 2 [k1; k2]).

End RepoExample.

Import RepoExample.

Lemma repo_verify_exact_witness :
  ∃ order, order ≡ₚ [k1; k2] ∧ v_out last_state = reports bs_Get str 0 order ∧
    (verify_end (λ _, None) last_state).2 = Some "verify complete, some blocks were corrupt".
Proof.
  destruct (repo_verify_exact bs_Get str (λ _, None) 2 [k1; k2] last_state) as (order & Hp & Ho & He);
    [lia|apply worked_rtc|vm_compute; repeat constructor|vm_compute; reflexivity|vm_compute; reflexivity|].
  exists order. split; [done|]. split; [done|].
  replace (forallb (λ k, negb (corrupt bs_Get k)) [k1; k2]) with false in He by (vm_compute; reflexivity). by rewrite He.
Defined.

Lemma repo_verify_ends_witness :
  ∃ m, nsteps (vstep bs_Get str (λ _, None)) m (verify_init 2 [k1; k2]) last_state ∧ m ≤ 7.
Proof.
  destruct (rtc_nsteps_1 _ _ (worked_rtc [0; 1; 1; 0; 1; 0] (verify_init 2 [k1; k2]))) as [m Hm].
  exists m. split; [exact Hm|]. exact (proj1 (repo_verify_ends bs_Get str (λ _, None) 2 [k1; k2] m _ Hm)).
Defined.

Lemma repo_gc_modes_agree_witness :
  ∃ l e, (repoGcCmd gc_env (λ _, "") (λ _, None) true (λ _, false) CoreRepoExample.state).1 = Some (l, e) ∧
    length (gc_keys l) = 2 ∧ gc_failures l = [].
Proof.
  assert (match (GarbageCollectAsync gc_env CoreRepoExample.state).1 with
          | Some out => forallb (λ r, match r with KeyRemoved k => cid_Defined k | _ => true end) out &&
              Nat.eqb (length (results_removed out)) 2 && Nat.eqb (length (results_errors out)) 0
          | None => false end = true) as Hc by (vm_compute; reflexivity).
  destruct (GarbageCollectAsync gc_env CoreRepoExample.state) as [[out|] s'] eqn:Hg; cbn [fst] in Hc; [|done].
  apply andb_prop in Hc as [Hc He]. apply andb_prop in Hc as [Hd Hl]. apply Nat.eqb_eq in He, Hl.
  destruct (repo_gc_modes_agree gc_env (λ _, "") CoreRepoExample.state out s' Hg)
    as (l1 & e1 & l2 & e2 & H1 & H2 & Hk & _ & Hf & _).
  { intros k Hk. rewrite forallb_forall in Hd. apply list_elem_of_In in Hk. exact (Hd _ Hk). }
  apply length_zero_iff_nil in He. exists l1, e1. split; [by rewrite H1|]. split; [rewrite Hk; exact Hl|].
  rewrite Hf, He. reflexivity.
Defined.

Lemma repo_stat_sizes_witness :
  (repoStatCmd gc_env (Ok "/repo") true CoreRepoExample.state).1 = Ok (mkStat (mkSizeStat 9500000000 NoLimit) 0 "" "").
Proof.
  assert (match (repoStatCmd gc_env (Ok "/repo") false CoreRepoExample.state).1 with
          | Ok stat => (RepoSize_bytes (Stat_size stat) =? 9500000000)%Z && (RepoStorageMax (Stat_size stat) =? NoLimit)%Z | Err _ => false end = true) as Hc
    by (vm_compute; reflexivity).
  destruct (repoStatCmd gc_env (Ok "/repo") false CoreRepoExample.state) as [[stat|e] s'] eqn:Hs; cbn [fst] in Hc; [|done].
  apply andb_prop in Hc as [H1 H2]. apply Z.eqb_eq in H1, H2. destruct (repo_stat_sizes _ _ _ _ _ Hs) as [-> _].
  cbn [fst]. destruct stat as [[b m] n p v]. cbn [RepoSize_bytes RepoStorageMax Stat_size] in *. by rewrite H1, H2.
Defined.
