(* ===== verification/BsMessage.v ===== *)
(** * Bitswap messages (vendor/github.com/ipfs/go-bitswap/message/message.go)

    The message nodes exchange, changed by this repository: it carries the wallet of its
    sender besides the wants, the blocks and the presences.  The protobuf record is
    [PbMessage]; its bytes are generated code.  [mh_Sum] is the library of hash
    functions.  A Go map is ranged over in any order: [rng] gives the order of the
    loops of a conversion. *)

From Stdlib Require Import ZArith NArith Ascii String.
From stdpp Require Import base gmap sets list strings.
From S2P Require Import Prelude GoStrings Cid.

(** ** Varints (go-varint) and the bytes of a prefix (go-cid) *)

Inductive VarintErr := ErrOverflow | ErrNotMinimal | ErrEOF.

(** varint.UvarintSize *)
Definition UvarintSize (num : N) : N :=
  let bits := N.size num in
  let size := (bits / 7)%N in
  if ((0 <? bits mod 7) || (size =? 0))%N then (size + 1)%N else size.

(** binary.PutUvarint of a uint64, which has at most ten digits of seven bits *)
Fixpoint put_uvarint (digits : nat) (x : N) : list N :=
  match digits with
  | 0 => []
  | S digits => if (x <? 128)%N then [x] else (x mod 128 + 128)%N :: put_uvarint digits (x / 128)
  end.
Definition PutUvarint (x : N) : list N := put_uvarint 10 x.

(** varint.ReadUvarint: [i] bytes were read, [x] is their value, [s] the next shift. *)
Fixpoint read_uvarint (i : nat) (x s : N) (r : list N) : res VarintErr (N * list N) :=
  match r with
  | [] => Err ErrEOF
  | b :: r' =>
      if ((Nat.eqb i 8) && (128 <=? b)%N) || (9 <=? i) then Err ErrOverflow
      else if (b <? 128)%N then
        (if ((b =? 0) && (0 <? s))%N then Err ErrNotMinimal else Ok (N.lor x (N.shiftl b s), r'))
      else read_uvarint (S i) (N.lor x (N.shiftl (N.land b 127) s)) (s + 7) r'
  end.
Definition ReadUvarint (r : list N) : res VarintErr (N * list N) := read_uvarint 0 0 0 r.

(** Prefix.Bytes, which panics when the size announced is not the one written *)
Definition Prefix_Bytes (p : Prefix) : option (list N) :=
  let size := (UvarintSize (Version p) + UvarintSize (Codec p) + UvarintSize (MhType p) + UvarintSize (MhLength p))%N in
  let buf := PutUvarint (Version p) ++ PutUvarint (Codec p) ++ PutUvarint (MhType p) ++ PutUvarint (MhLength p) in
  if (N.of_nat (length buf) =? size)%N then Some buf else None.

(** PrefixFromBytes *)
Definition PrefixFromBytes (buf : list N) : res VarintErr Prefix :=
  '(vers, r) ← ReadUvarint buf;
  '(codec, r) ← ReadUvarint r;
  '(mhtype, r) ← ReadUvarint r;
  '(mhlen, _) ← ReadUvarint r;
  Ok (mkPrefix vers codec mhtype mhlen).

(** ** Messages *)

Inductive WantType := Want_Block | Want_Have.
Inductive PresenceType := Have | DontHave.

#[export] Instance WantType_eq_dec : EqDecision WantType. Proof. solve_decision. Defined.
#[export] Instance PresenceType_eq_dec : EqDecision PresenceType. Proof. solve_decision. Defined.

(** Entry *)
Record Entry := mkEntry { e_Cid : Cid; e_Priority : Z; e_WantType : WantType; e_Cancel : bool; e_SendDontHave : bool }.

(** impl *)
Record Message := mkMsg {
  full : bool;
  wantlist : gmap Cid Entry;
  blocks : gmap Cid string;
  blockPresences : gmap Cid PresenceType;
  pendingBytes : Z;
  walletlist : string;
  walletsign : string;
}.

(** pb.Message: the entries, the blocks of the old format, those of the new one with their
    prefixes, and the presences *)
Record PbMessage := mkPb {
  pb_Full : bool;
  pb_Entries : list Entry;
  pb_Blocks : list string;
  pb_Payload : list (string * list N);
  pb_BlockPresences : list (Cid * PresenceType);
  pb_PendingBytes : Z;
  pb_Walletlist : string;
  pb_Walletsign : string;
}.

Definition newMsg (full : bool) : Message := mkMsg full ∅ ∅ ∅ 0 "" "".
Definition NewMsgWithWallet (full : bool) (wallet : string) : Message :=
  mkMsg full ∅ ∅ ∅ 0 wallet (wallet +:+ "sign").

(** New, with the wallet of the process *)
Definition New (Wallet : string) (full : bool) : Message := NewMsgWithWallet full Wallet.

Definition Reset (full : bool) (m : Message) : Message := mkMsg full ∅ ∅ ∅ 0 (walletlist m) (walletsign m).

Definition Empty (m : Message) : bool :=
  bool_decide (blocks m = ∅) && bool_decide (wantlist m = ∅) && bool_decide (blockPresences m = ∅).

Definition SetPendingBytes (n : Z) (m : Message) : Message :=
  mkMsg (full m) (wantlist m) (blocks m) (blockPresences m) n (walletlist m) (walletsign m).
Definition set_wantlist (w : gmap Cid Entry) (m : Message) : Message :=
  mkMsg (full m) w (blocks m) (blockPresences m) (pendingBytes m) (walletlist m) (walletsign m).
Definition Wallet (m : Message) : string := walletlist m.
Definition SetWallet (w : string) (m : Message) : Message :=
  mkMsg (full m) (wantlist m) (blocks m) (blockPresences m) (pendingBytes m) w (walletsign m).

Definition Remove (k : Cid) (m : Message) : Message := set_wantlist (delete k (wantlist m)) m.

(** How addEntry changes the entry that is there *)
Definition merge_entry (priority : Z) (cancel : bool) (wantType : WantType) (sendDontHave : bool) (e : Entry) : Entry :=
  mkEntry (e_Cid e)
    (if decide (e_WantType e = wantType) then priority else e_Priority e)
    (if decide (wantType = Want_Block ∧ e_WantType e = Want_Have) then wantType else e_WantType e)
    (if cancel then cancel else e_Cancel e)
    (if sendDontHave then sendDontHave else e_SendDontHave e).

(** addEntry, without the size of a new entry that it gives back *)
Definition addEntry (c : Cid) (priority : Z) (cancel : bool) (wantType : WantType) (sendDontHave : bool) (m : Message) : Message :=
  match wantlist m !! c with
  | Some e => set_wantlist (<[c := merge_entry priority cancel wantType sendDontHave e]> (wantlist m)) m
  | None => set_wantlist (<[c := mkEntry c priority wantType cancel sendDontHave]> (wantlist m)) m
  end.
Definition Cancel (k : Cid) (m : Message) : Message := addEntry k 0 true Want_Block false m.
Definition AddEntry (k : Cid) (priority : Z) (wantType : WantType) (sendDontHave : bool) (m : Message) : Message :=
  addEntry k priority false wantType sendDontHave m.

Definition AddBlock (c : Cid) (data : string) (m : Message) : Message :=
  mkMsg (full m) (wantlist m) (<[c := data]> (blocks m)) (delete c (blockPresences m)) (pendingBytes m) (walletlist m) (walletsign m).

Definition AddBlockPresence (c : Cid) (t : PresenceType) (m : Message) : Message :=
  match blocks m !! c with
  | Some _ => m
  | None => mkMsg (full m) (wantlist m) (blocks m) (<[c := t]> (blockPresences m)) (pendingBytes m) (walletlist m) (walletsign m)
  end.
Definition AddHave (c : Cid) : Message → Message := AddBlockPresence c Have.
Definition AddDontHave (c : Cid) : Message → Message := AddBlockPresence c DontHave.

(** *** From and to the protobuf record *)

Inductive MsgErr := ErrCidMissing | ErrPrefix (e : VarintErr) | ErrSum (e : string) | Panics.

Section proto.
Context (mh_Sum : string → N → option N → res string Multihash).

(** cid.Prefix.Sum *)
Definition Prefix_Sum (p : Prefix) (data : string) : res MsgErr Cid :=
  let length := if decide (MhType p = mh_ID) then None else Some (MhLength p) in
  if decide (Version p = 0%N ∧ (MhType p ≠ SHA2_256 ∨ MhLength p ≠ 32%N)) then Err (ErrSum "invalid v0 prefix")
  else match mh_Sum data (MhType p) length with
       | Err e => Err (ErrSum e)
       | Ok hash =>
           if decide (Version p = 0%N) then (match NewCidV0 hash with Some c => Ok c | None => Err Panics end)
           else if decide (Version p = 1%N) then Ok (NewCidV1 (Codec p) hash)
           else Err (ErrSum "invalid cid version")
       end.

(** The CID blocks.NewBlock gives to data *)
Definition NewBlock (data : string) : res MsgErr Cid :=
  match mh_Sum data SHA2_256 None with
  | Ok h => match NewCidV0 h with Some c => Ok c | None => Err Panics end
  | Err _ => Err Panics
  end.

(** The loops of newMessageFromProto *)
Fixpoint from_entries (es : list Entry) (m : Message) : res MsgErr Message :=
  match es with
  | [] => Ok m
  | e :: es' => if cid_Defined (e_Cid e)
                then from_entries es' (addEntry (e_Cid e) (e_Priority e) (e_Cancel e) (e_WantType e) (e_SendDontHave e) m)
                else Err ErrCidMissing
  end.
Fixpoint from_blocks (ds : list string) (m : Message) : res MsgErr Message :=
  match ds with
  | [] => Ok m
  | d :: ds' => c ← NewBlock d; from_blocks ds' (AddBlock c d m)
  end.
Fixpoint from_payload (bs : list (string * list N)) (m : Message) : res MsgErr Message :=
  match bs with
  | [] => Ok m
  | (d, pref) :: bs' =>
      match PrefixFromBytes pref with
      | Err e => Err (ErrPrefix e)
      | Ok p => c ← Prefix_Sum p d; from_payload bs' (AddBlock c d m)
      end
  end.
Fixpoint from_presences (ps : list (Cid * PresenceType)) (m : Message) : res MsgErr Message :=
  match ps with
  | [] => Ok m
  | (c, t) :: ps' => if cid_Defined c then from_presences ps' (AddBlockPresence c t m) else Err ErrCidMissing
  end.

Definition newMessageFromProto (pbm : PbMessage) : res MsgErr Message :=
  m ← from_entries (pb_Entries pbm) (newMsg (pb_Full pbm));
  m ← from_blocks (pb_Blocks pbm) m;
  m ← from_payload (pb_Payload pbm) m;
  m ← from_presences (pb_BlockPresences pbm) m;
  Ok (mkMsg (full m) (wantlist m) (blocks m) (blockPresences m) (pb_PendingBytes pbm) (pb_Walletlist pbm) (pb_Walletsign pbm)).

End proto.

(** The orders in which the maps of a message are ranged over *)
Record Ranges := mkRanges {
  rng_wants : list (Cid * Entry) → list (Cid * Entry);
  rng_blocks : list (Cid * string) → list (Cid * string);
  rng_presences : list (Cid * PresenceType) → list (Cid * PresenceType);
}.
Class RangesLaws (rng : Ranges) := {
  rng_wants_perm l : rng_wants rng l ≡ₚ l;
  rng_blocks_perm l : rng_blocks rng l ≡ₚ l;
  rng_presences_perm l : rng_presences rng l ≡ₚ l;
}.

Section to_proto.
Context (rng : Ranges).

Definition Wantlist (m : Message) : list Entry := (rng_wants rng (map_to_list (wantlist m))).*2.
Definition Blocks (m : Message) : list (Cid * string) := rng_blocks rng (map_to_list (blocks m)).
Definition BlockPresences (m : Message) : list (Cid * PresenceType) := rng_presences rng (map_to_list (blockPresences m)).
Definition getBlockPresenceByType (t : PresenceType) (m : Message) : list Cid :=
  (filter (λ p, p.2 = t) (BlockPresences m)).*1.
Definition Haves : Message → list Cid := getBlockPresenceByType Have.
Definition DontHaves : Message → list Cid := getBlockPresenceByType DontHave.

Definition ToProtoV0 (m : Message) : PbMessage :=
  mkPb (full m) (Wantlist m) (Blocks m).*2 [] [] 0 (walletlist m) (walletsign m).

(** A block of the payload, with the prefix of its CID; None is a panic. *)
Definition payload_block (b : Cid * string) : option (string * list N) :=
  pref ← Prefix_Bytes (cid_Prefix b.1); Some (b.2, pref).
Definition ToProtoV1 (m : Message) : option PbMessage :=
  payload ← mapM payload_block (Blocks m);
  Some (mkPb (full m) (Wantlist m) [] payload (BlockPresences m) (pendingBytes m) (walletlist m) (walletsign m)).

End to_proto.

(** ** Varints *)

Lemma put_uvarint_S n x : put_uvarint (S n) x =
  if (x <? 128)%N then [x] else (x mod 128 + 128)%N :: put_uvarint n (x / 128).
Proof. done. Qed.

(** A digit above the [s] bits of [x] *)
Lemma lor_digit x d s : (x < 2 ^ s)%N → N.lor x (N.shiftl d s) = (x + d * 2 ^ s)%N.
Proof.
  intros Hx. rewrite N.shiftl_mul_pow2.
  assert (N.land x (d * 2 ^ s) = 0%N) as Hl.
  { apply N.bits_inj. intros n. rewrite N.land_spec, N.bits_0. destruct (N.le_gt_cases s n) as [Hs|Hs].
    - rewrite <- (N.mod_small x (2 ^ s)) by done. by rewrite N.mod_pow2_bits_high.
    - rewrite N.mul_pow2_bits_low by done. apply andb_false_r. }
  by rewrite <- N.lxor_lor, <- N.add_nocarry_lxor by done.
Qed.

Lemma put_uvarint_len n x : length (put_uvarint n x) ≤ n.
Proof. revert x. induction n as [|n IH]; intros x; [done|]. rewrite put_uvarint_S. case_match; cbn; [lia|]. pose proof (IH (x / 128)%N). lia. Qed.

(** Reading where [i] digits were read gives the digits of [x] above them. *)
Lemma read_put n : ∀ x i acc rest,
  (x < 2 ^ (7 * N.of_nat n))%N → i + n ≤ 9 → (acc < 2 ^ (7 * N.of_nat i))%N → (i = 0 ∨ x ≠ 0%N) → (0 < n) →
  read_uvarint i acc (7 * N.of_nat i) (put_uvarint n x ++ rest) = Ok ((acc + x * 2 ^ (7 * N.of_nat i))%N, rest).
Proof.
  induction n as [|n IH]; intros x i acc rest Hx Hi Ha Hz Hn; [lia|]. rewrite put_uvarint_S.
  destruct (N.ltb_spec x 128) as [Hlt|Hge]; cbn [app read_uvarint].
  - replace (Nat.eqb i 8 && (128 <=? x)%N || (9 <=? i)) with false.
    2:{ symmetry. apply orb_false_iff. split; [apply andb_false_iff; right; by apply N.leb_gt|apply Nat.leb_gt; lia]. }
    rewrite (proj2 (N.ltb_lt x 128) Hlt).
    replace ((x =? 0) && (0 <? 7 * N.of_nat i))%N with false.
    2:{ symmetry. apply andb_false_iff. destruct Hz as [->|Hz]; [by right|left; by apply N.eqb_neq]. }
    by rewrite lor_digit.
  - assert (n ≠ 0) as Hn0 by (intros ->; change (2 ^ (7 * N.of_nat 1))%N with 128%N in Hx; lia).
    assert ((x mod 128 + 128 <? 128)%N = false) as -> by (apply N.ltb_ge; apply N.le_add_l).
    replace (Nat.eqb i 8 && (128 <=? x mod 128 + 128)%N || (9 <=? i)) with false.
    2:{ symmetry. apply orb_false_iff. split; [apply andb_false_iff; left; apply Nat.eqb_neq; lia|apply Nat.leb_gt; lia]. }
    assert (N.land (x mod 128 + 128) 127 = x mod 128)%N as ->.
    { change 127%N with (N.ones 7). rewrite N.land_ones. change (2 ^ 7)%N with 128%N.
      replace (x mod 128 + 128)%N with (x mod 128 + 1 * 128)%N by lia. by rewrite N.Div0.mod_add, N.Div0.mod_mod. }
    rewrite lor_digit by done. replace (7 * N.of_nat i + 7)%N with (7 * N.of_nat (S i))%N by lia.
    assert (2 ^ (7 * N.of_nat (S i)) = 2 ^ (7 * N.of_nat i) * 128)%N as Hp.
    { replace (7 * N.of_nat (S i))%N with (7 * N.of_nat i + 7)%N by lia. by rewrite N.pow_add_r. }
    pose proof (N.mod_lt x 128 ltac:(done)). pose proof (N.div_mod x 128 ltac:(done)) as Hd.
    rewrite IH.
    + f_equal. f_equal. rewrite Hp. rewrite Hd at 3. nia.
    + replace (7 * N.of_nat (S n))%N with (7 + 7 * N.of_nat n)%N in Hx by lia. rewrite N.pow_add_r in Hx.
      change (2 ^ 7)%N with 128%N in Hx. apply N.Div0.div_lt_upper_bound. lia.
    + lia.
    + rewrite Hp. nia.
    + right. intros H0. rewrite H0 in Hd. lia.
    + lia.
Qed.

Lemma put_uvarint_more n x : (x < 2 ^ (7 * N.of_nat n))%N → 0 < n → put_uvarint (S n) x = put_uvarint n x.
Proof.
  revert x. induction n as [|n IH]; intros x Hx Hn; [lia|]. rewrite (put_uvarint_S (S n) x), (put_uvarint_S n x).
  destruct (N.ltb_spec x 128); [done|]. f_equal. apply IH; [|destruct n; [change (2 ^ (7 * N.of_nat 1))%N with 128%N in Hx; lia|lia]].
  replace (7 * N.of_nat (S n))%N with (7 + 7 * N.of_nat n)%N in Hx by lia. rewrite N.pow_add_r in Hx.
  change (2 ^ 7)%N with 128%N in Hx. apply N.Div0.div_lt_upper_bound. lia.
Qed.

(** What is written is read back, up to 2^63. *)
Lemma uvarint_roundtrip x rest : (x < 2 ^ 63)%N → ReadUvarint (PutUvarint x ++ rest) = Ok (x, rest).
Proof.
  intros Hx. unfold ReadUvarint, PutUvarint. rewrite put_uvarint_more by (done || lia).
  pose proof (read_put 9 x 0 0 rest) as Hr. change (7 * N.of_nat 0)%N with 0%N in Hr.
  rewrite Hr; [|done|lia|done|by left|lia]. by rewrite N.add_0_l, N.mul_1_r.
Qed.

Lemma UvarintSize_small x : (x < 128)%N → UvarintSize x = 1%N.
Proof.
  intros Hx. unfold UvarintSize. destruct (decide (x = 0%N)) as [->|H0]; [done|].
  rewrite N.size_log2 by done. assert (N.log2 x < 7)%N as Hl by (apply N.log2_lt_pow2; [lia|done]).
  revert Hl. generalize (N.log2 x). intros l Hl.
  assert (l = 0 ∨ l = 1 ∨ l = 2 ∨ l = 3 ∨ l = 4 ∨ l = 5 ∨ l = 6)%N as Hc by lia.
  naive_solver.
Qed.

Lemma UvarintSize_step x : (128 <= x)%N → UvarintSize x = (1 + UvarintSize (x / 128))%N.
Proof.
  intros Hx. assert (1 <= x / 128)%N as Hd by (by apply N.div_le_lower_bound).
  unfold UvarintSize. rewrite !N.size_log2 by lia.
  assert (N.log2 (x / 128) = N.log2 x - 7)%N as ->.
  { change 128%N with (2 ^ 7)%N. rewrite <- N.shiftr_div_pow2. by rewrite N.log2_shiftr. }
  assert (7 <= N.log2 x)%N as Hl by (apply N.log2_le_pow2; [lia|done]).
  set (l := N.log2 x) in *. replace (N.succ l) with (N.succ (l - 7) + 1 * 7)%N by lia.
  rewrite N.Div0.mod_add, N.div_add by done. pose proof (N.le_0_l (N.succ (l - 7) / 7)).
  destruct ((0 <? N.succ (l - 7) mod 7)%N) eqn:Hm; cbn [orb]; [lia|].
  apply N.ltb_ge in Hm. assert (N.succ (l - 7) / 7 ≠ 0)%N as Hn.
  { intros H0. pose proof (N.div_mod (N.succ (l - 7)) 7 ltac:(done)). lia. }
  rewrite (proj2 (N.eqb_neq _ _) Hn). replace (N.succ (l - 7) / 7 + 1 =? 0)%N with false by (symmetry; apply N.eqb_neq; lia). lia.
Qed.

(** The size announced is the size written. *)
Lemma put_uvarint_size n x : (x < 2 ^ (7 * N.of_nat n))%N → 0 < n → N.of_nat (length (put_uvarint n x)) = UvarintSize x.
Proof.
  revert x. induction n as [|n IH]; intros x Hx Hn; [lia|]. rewrite put_uvarint_S.
  destruct (N.ltb_spec x 128) as [|Hge]; [by rewrite UvarintSize_small|].
  rewrite UvarintSize_step by done. cbn [length]. rewrite Nat2N.inj_succ, IH; [lia| |destruct n; [change (2 ^ (7 * N.of_nat 1))%N with 128%N in Hx; lia|lia]].
  replace (7 * N.of_nat (S n))%N with (7 + 7 * N.of_nat n)%N in Hx by lia. rewrite N.pow_add_r in Hx.
  change (2 ^ 7)%N with 128%N in Hx. apply N.Div0.div_lt_upper_bound. lia.
Qed.

Lemma PutUvarint_size x : (x < 2 ^ 64)%N → N.of_nat (length (PutUvarint x)) = UvarintSize x.
Proof. intros Hx. apply put_uvarint_size; [|lia]. etransitivity; [exact Hx|]. by apply N.pow_lt_mono_r. Qed.

Definition prefix_below (b : N) (p : Prefix) : Prop :=
  (Version p < b ∧ Codec p < b ∧ MhType p < b ∧ MhLength p < b)%N.

(** The prefix of a CID is always encoded, and decodes to itself. *)
Lemma prefix_roundtrip p :
  (prefix_below (2 ^ 64) p → is_Some (Prefix_Bytes p)) ∧
  (∀ buf rest, prefix_below (2 ^ 63) p → Prefix_Bytes p = Some buf → PrefixFromBytes (buf ++ rest) = Ok p).
Proof.
  unfold Prefix_Bytes. split.
  - intros (H1 & H2 & H3 & H4). rewrite !length_app, !Nat2N.inj_add, !PutUvarint_size by done.
    replace (_ =? _)%N with true by (symmetry; apply N.eqb_eq; lia). by eexists.
  - intros buf rest (H1 & H2 & H3 & H4) Hb. case_match; [|done]. injection Hb as <-. unfold PrefixFromBytes.
    rewrite <- !app_assoc. rewrite uvarint_roundtrip by done. cbn [mbind res_bind].
    rewrite uvarint_roundtrip by done. cbn [mbind res_bind]. rewrite uvarint_roundtrip by done. cbn [mbind res_bind].
    rewrite uvarint_roundtrip by done. cbn [mbind res_bind]. by destruct p.
Qed.

(** ** The maps of a message *)

(** An entry is under its own CID, and no block is also announced or denied. *)
Record msg_wf (m : Message) : Prop := {
  wf_wants : map_Forall (λ c e, e_Cid e = c) (wantlist m);
  wf_presences c d : blocks m !! c = Some d → blockPresences m !! c = None;
}.

(** A default record of the changes of a message, to compare the other fields at once *)
Definition rest_of (m : Message) : bool * Z * string * string := (full m, pendingBytes m, walletlist m, walletsign m).

Lemma newMsg_wf b : msg_wf (newMsg b).
Proof. split; [apply map_Forall_empty|done]. Qed.

Lemma addEntry_wf c p k t s m : msg_wf m → msg_wf (addEntry c p k t s m).
Proof.
  intros [Hw Hp]. split; unfold addEntry; [|by destruct (wantlist m !! c)].
  destruct (wantlist m !! c) as [e|] eqn:He; cbn; (apply map_Forall_insert_2; [|done]); [|done]. exact (Hw _ _ He).
Qed.

Lemma AddBlock_wf c d m : msg_wf m → msg_wf (AddBlock c d m).
Proof.
  intros [Hw Hp]. split; [done|]. cbn. intros k x. rewrite lookup_insert_Some. intros [[<- _]|[Hne Hk]].
  - apply lookup_delete_eq.
  - rewrite lookup_delete_ne by done. by eapply Hp.
Qed.

Lemma AddBlockPresence_wf c t m : msg_wf m → msg_wf (AddBlockPresence c t m).
Proof.
  intros [Hw Hp]. unfold AddBlockPresence. destruct (blocks m !! c) eqn:Hb; [done|]. split; [done|]. cbn.
  intros k x Hk. rewrite lookup_insert_ne by congruence. by eapply Hp.
Qed.

Section from_proto.
Context (mh_Sum : string → N → option N → res string Multihash).

Lemma from_entries_wf es m m' : msg_wf m → from_entries es m = Ok m' → msg_wf m' ∧ blocks m' = blocks m.
Proof.
  revert m. induction es as [|e es IH]; intros m Hm; cbn; [naive_solver|].
  destruct (cid_Defined (e_Cid e)); [|done]. intros H. apply IH in H as [H1 H2]; [|by apply addEntry_wf].
  split; [done|]. rewrite H2. unfold addEntry. by destruct (wantlist m !! e_Cid e).
Qed.

Lemma from_blocks_wf ds m m' : msg_wf m → from_blocks mh_Sum ds m = Ok m' → msg_wf m'.
Proof.
  revert m. induction ds as [|d ds IH]; intros m Hm; cbn; [naive_solver|].
  destruct (NewBlock mh_Sum d) as [c|]; cbn; [|done]. apply IH. by apply AddBlock_wf.
Qed.

Lemma from_payload_wf bs m m' : msg_wf m → from_payload mh_Sum bs m = Ok m' → msg_wf m'.
Proof.
  revert m. induction bs as [|[d pr] bs IH]; intros m Hm; cbn; [naive_solver|].
  destruct (PrefixFromBytes pr) as [p|]; [|done]. destruct (Prefix_Sum mh_Sum p d) as [c|]; cbn; [|done].
  apply IH. by apply AddBlock_wf.
Qed.

Lemma from_presences_wf ps m m' : msg_wf m → from_presences ps m = Ok m' → msg_wf m'.
Proof.
  revert m. induction ps as [|[c t] ps IH]; intros m Hm; cbn; [naive_solver|].
  destruct (cid_Defined c); [|done]. apply IH. by apply AddBlockPresence_wf.
Qed.

(** Whatever a peer sends, a message that is accepted is well formed: every want under
    its own CID and no block both sent and announced or denied. *)
Theorem newMessageFromProto_wf pbm m : newMessageFromProto mh_Sum pbm = Ok m → msg_wf m.
Proof.
  unfold newMessageFromProto.
  destruct (from_entries _ _) as [m1|] eqn:H1; cbn [mbind res_bind]; [|done]. apply from_entries_wf in H1 as [H1 _]; [|apply newMsg_wf].
  destruct (from_blocks _ _ _) as [m2|] eqn:H2; cbn [mbind res_bind]; [|done]. apply from_blocks_wf in H2; [|done].
  destruct (from_payload _ _ _) as [m3|] eqn:H3; cbn [mbind res_bind]; [|done]. apply from_payload_wf in H3; [|done].
  destruct (from_presences _ _) as [m4|] eqn:H4; cbn [mbind res_bind]; [|done]. apply from_presences_wf in H4 as [Hw Hp]; [|done].
  intros [= <-]. by split.
Qed.

Lemma key_in {A} (c : Cid) (x : A) l : (c, x) ∈ l → c ∈ l.*1.
Proof. intros Hin. apply list_elem_of_fmap. by exists (c, x). Qed.

(** *** What the loops build from lists without repetitions *)

Definition with_wants (w : gmap Cid Entry) (m : Message) : Message :=
  mkMsg (full m) w (blocks m) (blockPresences m) (pendingBytes m) (walletlist m) (walletsign m).
Definition with_blocks (b : gmap Cid string) (m : Message) : Message :=
  mkMsg (full m) (wantlist m) b (blockPresences m) (pendingBytes m) (walletlist m) (walletsign m).
Definition with_presences (p : gmap Cid PresenceType) (m : Message) : Message :=
  mkMsg (full m) (wantlist m) (blocks m) p (pendingBytes m) (walletlist m) (walletsign m).

Lemma from_entries_ok (l : list (Cid * Entry)) m :
  NoDup l.*1 → (∀ c e, (c, e) ∈ l → e_Cid e = c ∧ cid_Defined c = true ∧ wantlist m !! c = None) →
  from_entries l.*2 m = Ok (with_wants (list_to_map l ∪ wantlist m) m).
Proof.
  revert m. induction l as [|[c e] l IH]; intros m Hnd Hl.
  { cbn. rewrite (left_id_L ∅ (∪)). by destruct m. }
  rewrite fmap_cons in Hnd. apply NoDup_cons in Hnd as [Hc Hnd]. destruct (Hl c e) as (He & Hd & Hn); [by left|].
  cbn. rewrite He, Hd. unfold addEntry. rewrite Hn.
  assert (list_to_map (M := gmap Cid Entry) l !! c = None) as Hlc by (by apply not_elem_of_list_to_map).
  rewrite IH; [|done|].
  - unfold with_wants, set_wantlist. cbn. rewrite ?list_to_map_cons, <- insert_union_r, insert_union_l by done. subst c. by destruct e.
  - intros c' e' Hin. destruct (Hl c' e') as (? & ? & ?); [by right|]. split_and!; [done..|]. cbn.
    rewrite lookup_insert_ne; [done|]. intros <-. apply Hc. exact (key_in _ _ _ Hin).
Qed.

Definition add_blocks (l : list (Cid * string)) (m : Message) : Message := foldl (λ m b, AddBlock b.1 b.2 m) m l.

Lemma add_blocks_ok l m : NoDup l.*1 → blockPresences m = ∅ →
  add_blocks l m = with_blocks (list_to_map l ∪ blocks m) m.
Proof.
  revert m. induction l as [|[c d] l IH]; intros m Hnd Hp.
  { cbn. rewrite (left_id_L ∅ (∪)). by destruct m. }
  rewrite fmap_cons in Hnd. apply NoDup_cons in Hnd as [Hc Hnd]. cbn. fold (add_blocks l (AddBlock c d m)).
  rewrite IH; [|done|cbn; by rewrite Hp, delete_empty]. unfold with_blocks, AddBlock. cbn.
  assert (list_to_map (M := gmap Cid string) l !! c = None) as Hlc by (by apply not_elem_of_list_to_map).
  by rewrite Hp, delete_empty, ?list_to_map_cons, <- insert_union_r, insert_union_l by done.
Qed.

Lemma from_presences_ok l m : NoDup l.*1 →
  (∀ c t, (c, t) ∈ l → cid_Defined c = true ∧ blocks m !! c = None ∧ blockPresences m !! c = None) →
  from_presences l m = Ok (with_presences (list_to_map l ∪ blockPresences m) m).
Proof.
  revert m. induction l as [|[c t] l IH]; intros m Hnd Hl.
  { cbn. rewrite (left_id_L ∅ (∪)). by destruct m. }
  rewrite fmap_cons in Hnd. apply NoDup_cons in Hnd as [Hc Hnd]. destruct (Hl c t) as (Hd & Hb & Hn); [by left|].
  cbn. rewrite Hd. unfold AddBlockPresence. rewrite Hb.
  assert (list_to_map (M := gmap Cid PresenceType) l !! c = None) as Hlc by (by apply not_elem_of_list_to_map).
  rewrite IH; [|done|].
  - unfold with_presences. cbn. by rewrite ?list_to_map_cons, <- insert_union_r, insert_union_l by done.
  - intros c' t' Hin. destruct (Hl c' t') as (? & ? & ?); [by right|]. split_and!; [done..|]. cbn.
    rewrite lookup_insert_ne; [done|]. intros <-. apply Hc. exact (key_in _ _ _ Hin).
Qed.

(** A block that is what its CID says, and whose prefix go-varint reads back *)
Definition valid_block (c : Cid) (d : string) : Prop :=
  Prefix_Sum mh_Sum (cid_Prefix c) d = Ok c ∧ prefix_below (2 ^ 63) (cid_Prefix c).

Lemma from_payload_ok bs ps m : Forall (λ b, valid_block b.1 b.2) bs → mapM payload_block bs = Some ps →
  from_payload mh_Sum ps m = Ok (add_blocks bs m).
Proof.
  intros Hv Hps. apply mapM_Some_1 in Hps. revert m. induction Hps as [|[c d] [d' pr] bs ps Hb Hps IH]; intros m; [done|].
  apply Forall_cons in Hv as [[Hs Hb63] Hv]. unfold payload_block in Hb. cbn in Hb.
  destruct (Prefix_Bytes (cid_Prefix c)) as [buf|] eqn:Hbuf; [|done]. injection Hb as -> ->.
  cbn [from_payload]. rewrite <- (app_nil_r pr). rewrite (proj2 (prefix_roundtrip (cid_Prefix c)) pr []) by done.
  cbn [fst snd] in Hs. rewrite Hs. cbn. by rewrite IH.
Qed.

Lemma payload_total bs : Forall (λ b, valid_block b.1 b.2) bs → is_Some (mapM payload_block bs).
Proof.
  intros Hv. apply mapM_is_Some. eapply Forall_impl; [exact Hv|]. intros [c d] [_ (?&?&?&?)]. cbn in *.
  destruct (proj1 (prefix_roundtrip (cid_Prefix c))) as [buf Hbuf].
  - split_and!; (etransitivity; [done|]); done.
  - exists (d, buf). unfold payload_block. cbn [fst snd]. by rewrite Hbuf.
Qed.

(** What a node may put in a message *)
Record sendable (m : Message) : Prop := {
  s_wf : msg_wf m;
  s_wants : map_Forall (λ c _, cid_Defined c = true) (wantlist m);
  s_blocks : map_Forall valid_block (blocks m);
  s_presences : map_Forall (λ c _, cid_Defined c = true) (blockPresences m);
}.

Context (rng : Ranges) `{!RangesLaws rng}.

Lemma perm_keys {A} (l : list (Cid * A)) (mp : gmap Cid A) : l ≡ₚ map_to_list mp →
  NoDup l.*1 ∧ list_to_map l = mp ∧ ∀ c x, (c, x) ∈ l ↔ mp !! c = Some x.
Proof.
  intros Hl. assert (NoDup l.*1) as Hnd by (rewrite Hl; apply NoDup_fst_map_to_list). split_and!; [done| |].
  - rewrite (list_to_map_proper _ _ Hnd Hl). apply list_to_map_to_list.
  - intros c x. rewrite Hl. apply elem_of_map_to_list.
Qed.

Lemma proto_v1_reads_back m : sendable m →
  ∃ pbm, ToProtoV1 rng m = Some pbm ∧ newMessageFromProto mh_Sum pbm = Ok m.
Proof.
  intros [[Hw Hp] Hsw Hsb Hsp]. unfold ToProtoV1.
  destruct (perm_keys (rng_wants rng (map_to_list (wantlist m))) _ (rng_wants_perm _)) as (W1 & W2 & W3).
  destruct (perm_keys (Blocks rng m) _ (rng_blocks_perm _)) as (B1 & B2 & B3).
  destruct (perm_keys (BlockPresences rng m) _ (rng_presences_perm _)) as (P1 & P2 & P3).
  assert (Forall (λ b, valid_block b.1 b.2) (Blocks rng m)) as Hv.
  { apply Forall_forall. intros [c d] Hin. apply B3 in Hin. exact (Hsb _ _ Hin). }
  destruct (payload_total _ Hv) as [ps Hps]. rewrite Hps. eexists. split; [reflexivity|]. unfold newMessageFromProto, Wantlist. cbn.
  rewrite from_entries_ok; [|done|].
  2:{ intros c e Hin. apply W3 in Hin. split_and!; [exact (Hw _ _ Hin)|exact (Hsw _ _ Hin)|done]. }
  cbn. rewrite (from_payload_ok _ _ _ Hv Hps), add_blocks_ok by done. cbn.
  rewrite from_presences_ok; [|done|].
  2:{ intros c t Hin. apply P3 in Hin. split_and!; [exact (Hsp _ _ Hin)| |done]. cbn. rewrite B2, (right_id_L ∅ (∪)).
      destruct (blocks m !! c) as [d|] eqn:Hb; [|done]. apply Hp in Hb. by rewrite Hin in Hb. }
  cbn. rewrite W2, B2, P2, !(right_id_L ∅ (∪)). by destruct m.
Qed.

Lemma from_blocks_ok bs m : Forall (λ b, NewBlock mh_Sum b.2 = Ok b.1) bs →
  from_blocks mh_Sum bs.*2 m = Ok (add_blocks bs m).
Proof.
  revert m. induction bs as [|[c d] bs IH]; intros m Hb; [done|]. apply Forall_cons in Hb as [Hc Hb]. cbn in *. rewrite Hc. cbn. by apply IH.
Qed.

Lemma proto_v0_reads_back m : sendable m → map_Forall (λ c d, NewBlock mh_Sum d = Ok c) (blocks m) →
  newMessageFromProto mh_Sum (ToProtoV0 rng m) =
    Ok (mkMsg (full m) (wantlist m) (blocks m) ∅ 0 (walletlist m) (walletsign m)).
Proof.
  intros [[Hw Hp] Hsw _ _] Hb. unfold newMessageFromProto, ToProtoV0, Wantlist. cbn.
  destruct (perm_keys (rng_wants rng (map_to_list (wantlist m))) _ (rng_wants_perm _)) as (W1 & W2 & W3).
  destruct (perm_keys (Blocks rng m) _ (rng_blocks_perm _)) as (B1 & B2 & B3).
  rewrite from_entries_ok; [|done|].
  2:{ intros c e Hin. apply W3 in Hin. split_and!; [exact (Hw _ _ Hin)|exact (Hsw _ _ Hin)|done]. }
  cbn. rewrite from_blocks_ok by (apply Forall_forall; intros [c d] Hin; apply B3 in Hin; exact (Hb _ _ Hin)).
  rewrite add_blocks_ok by done. cbn. rewrite W2, B2, !(right_id_L ∅ (∪)). done.
Qed.

(** A message in the current format is read back as it was sent, wallet included: every
    want, block and presence, and nothing else, in whatever order they are sent.  The old
    format keeps the wants, the wallet and the blocks of version 0 and loses the presences
    and the count of pending bytes. *)
Theorem proto_roundtrip m : sendable m →
  (∃ pbm, ToProtoV1 rng m = Some pbm ∧ newMessageFromProto mh_Sum pbm = Ok m) ∧
  (map_Forall (λ c d, NewBlock mh_Sum d = Ok c) (blocks m) →
   newMessageFromProto mh_Sum (ToProtoV0 rng m) =
     Ok (mkMsg (full m) (wantlist m) (blocks m) ∅ 0 (walletlist m) (walletsign m))).
Proof. intros Hm. split; [by apply proto_v1_reads_back|by apply proto_v0_reads_back]. Qed.

End from_proto.

(** *** Wants of one CID *)

(** The requests for one CID: priority, cancel, type and whether a DONT_HAVE is asked for *)
Record Request := mkReq { r_Priority : Z; r_Cancel : bool; r_WantType : WantType; r_SendDontHave : bool }.
Definition request (c : Cid) (m : Message) (r : Request) : Message :=
  addEntry c (r_Priority r) (r_Cancel r) (r_WantType r) (r_SendDontHave r) m.

Definition wants_block (r : Request) : bool := bool_decide (r_WantType r = Want_Block).

Lemma requests_merge c rs : ∀ m e, wantlist m !! c = Some e →
  ∃ e', wantlist (foldl (request c) m rs) !! c = Some e' ∧ e_Cid e' = e_Cid e ∧
    e_Cancel e' = e_Cancel e || existsb r_Cancel rs ∧ e_SendDontHave e' = e_SendDontHave e || existsb r_SendDontHave rs ∧
    (e_WantType e' = Want_Block ↔ e_WantType e = Want_Block ∨ existsb wants_block rs = true) ∧
    ((∀ r, r ∈ rs → r_WantType r = e_WantType e) → e_Priority e' = default (e_Priority e) (r_Priority <$> last rs)).
Proof.
  induction rs as [|r rs IH]; intros m e He; cbn [foldl existsb].
  { exists e. rewrite !orb_false_r. naive_solver. }
  destruct (IH (request c m r) (merge_entry (r_Priority r) (r_Cancel r) (r_WantType r) (r_SendDontHave r) e)) as (e' & H1 & H2 & H3 & H4 & H5 & H6).
  { unfold request, addEntry. rewrite He. apply lookup_insert_eq. }
  exists e'. split_and!; [done|done| | | |].
  - rewrite H3. cbn. destruct (r_Cancel r), (e_Cancel e); done.
  - rewrite H4. cbn. destruct (r_SendDontHave r), (e_SendDontHave e); done.
  - rewrite H5. cbn. rewrite orb_true_iff. unfold wants_block at 2. rewrite bool_decide_eq_true.
    case_decide as Hd; destruct (r_WantType r), (e_WantType e); naive_solver.
  - intros Hall. pose proof (Hall r ltac:(by left)) as Hr. cbn in H6. rewrite Hr in H6.
    rewrite (decide_True _ _ (eq_refl (e_WantType e))) in H6. rewrite H6.
    + destruct rs as [|r' rs]; [done|]. rewrite last_cons_cons. by destruct (proj2 (last_is_Some (r' :: rs)) ltac:(done)) as [x ->].
    + intros r' Hin. rewrite decide_False by (intros [? ?]; congruence). apply Hall. by right.
Qed.

(** Asking again for a CID never takes back a cancel, a DONT_HAVE or a want-block: the
    flags of its entry are those asked for at least once, and the last priority counts when
    all are of one type; other wants and the blocks are left alone. *)
Theorem addEntry_merges c rs m : wantlist m !! c = None → rs ≠ [] →
  let m' := foldl (request c) m rs in
  ∃ e, wantlist m' !! c = Some e ∧ e_Cid e = c ∧
    e_Cancel e = existsb r_Cancel rs ∧ e_SendDontHave e = existsb r_SendDontHave rs ∧
    (e_WantType e = Want_Block ↔ existsb wants_block rs = true) ∧
    (∀ t, (∀ r, r ∈ rs → r_WantType r = t) → Some (e_Priority e) = r_Priority <$> last rs) ∧
    delete c (wantlist m') = delete c (wantlist m) ∧ blocks m' = blocks m ∧ blockPresences m' = blockPresences m.
Proof.
  intros Hc Hrs. cbv zeta. destruct rs as [|r rs]; [done|]. cbn [foldl].
  assert (∀ l x, delete c (wantlist (foldl (request c) x l)) = delete c (wantlist x) ∧
    blocks (foldl (request c) x l) = blocks x ∧ blockPresences (foldl (request c) x l) = blockPresences x) as Hoth.
  { induction l as [|y l IH]; intros x; [done|]. cbn. destruct (IH (request c x y)) as (-> & -> & ->).
    unfold request, addEntry. destruct (wantlist x !! c); cbn; by rewrite delete_insert_eq. }
  destruct (requests_merge c rs (request c m r) (mkEntry c (r_Priority r) (r_WantType r) (r_Cancel r) (r_SendDontHave r)))
    as (e & H1 & H2 & H3 & H4 & H5 & H6).
  { unfold request, addEntry. rewrite Hc. apply lookup_insert_eq. }
  destruct (Hoth (r :: rs) m) as (O1 & O2 & O3). cbn [foldl] in O1, O2, O3.
  exists e. split_and!; [done|done|done|done| | |done..].
  - rewrite H5. cbn. rewrite orb_true_iff. unfold wants_block at 2. by rewrite bool_decide_eq_true.
  - intros t Ht. rewrite H6.
    + destruct rs as [|r' rs]; [done|]. rewrite last_cons_cons. by destruct (proj2 (last_is_Some (r' :: rs)) ltac:(done)) as [x ->].
    + intros r' Hin. cbn. rewrite (Ht r'), (Ht r); [done|by left|by right].
Qed.

(** ** Examples *)

Lemma uvarint_examples :
  PutUvarint 127 = [127]%N ∧ PutUvarint 128 = [128; 1]%N ∧ PutUvarint 0xb220 = [160; 228; 2]%N ∧
  ReadUvarint [128; 0]%N = Err ErrNotMinimal ∧ ReadUvarint (PutUvarint (2 ^ 63)) = Err ErrOverflow ∧
  ReadUvarint [128]%N = Err ErrEOF.
Proof. split_and!; vm_compute; reflexivity. Qed.

Module MsgExample.

(** A hash function that pads, for blocks of at most 32 bytes *)
Fixpoint pad (n : nat) (s : string) : string :=
  match n with 0 => "" | S n => match s with "" => String "."%char (pad n "") | String a s => String a (pad n s) end end.
Definition mh_Sum (d : string) (code : N) (len : option N) : res string Multihash :=
  if decide (code = SHA2_256) then Ok (mkMultihash SHA2_256 (pad 32 d)) else
  if decide (code = mh_ID) then Ok (mkMultihash mh_ID d) else Err "unknown hash function".
Definition rng : Ranges := mkRanges reverse reverse reverse.
#[global] Instance rng_laws : RangesLaws rng.
Proof. split; intros l; apply reverse_Permutation. Qed.

Definition c0 : Cid := CidV0 (pad 32 "block").
Definition c1 : Cid := CidV1 Raw (mkMultihash mh_ID "inline").
Definition msg : Message :=
  AddHave (CidV0 (pad 32 "other")) (AddBlock c1 "inline" (AddBlock c0 "block"
    (AddEntry c1 5 Want_Have true (AddEntry c0 7 Want_Block false (New "wallet" true))))).

Lemma msg_sendable : sendable mh_Sum msg.
Proof.
  split.
  - unfold msg. apply AddBlockPresence_wf, AddBlock_wf, AddBlock_wf, addEntry_wf, addEntry_wf. split; [apply map_Forall_empty|done].
  - apply (bool_decide_unpack _). by vm_compute.
  - intros c d Hc. apply elem_of_map_to_list in Hc. vm_compute in Hc.
    repeat (apply elem_of_cons in Hc as [Hc|Hc]; [injection Hc as -> ->; split; [by vm_compute|split_and!; by vm_compute]|]).
    by apply elem_of_nil in Hc.
  - apply (bool_decide_unpack _). by vm_compute.
Qed.

End MsgExample.

Lemma proto_roundtrip_witness :
  ∃ pbm, ToProtoV1 MsgExample.rng MsgExample.msg = Some pbm ∧ length (pb_Payload pbm) = 2 ∧
    newMessageFromProto MsgExample.mh_Sum pbm = Ok MsgExample.msg.
Proof.
  destruct (proto_roundtrip MsgExample.mh_Sum MsgExample.rng MsgExample.msg MsgExample.msg_sendable) as [(pbm & Hp & Hm) _].
  exists pbm. split; [done|]. split; [|done].
  assert (length <$> (pb_Payload <$> ToProtoV1 MsgExample.rng MsgExample.msg) = Some 2) as Hl by (vm_compute; reflexivity).
  rewrite Hp in Hl. by injection Hl.
Defined.

Lemma newMessageFromProto_wf_witness :
  ∃ m, newMessageFromProto MsgExample.mh_Sum
         (mkPb true [] ["block"] [] [(MsgExample.c0, Have); (MsgExample.c1, DontHave)] 0 "w" "s") = Ok m ∧
    msg_wf m ∧ map_to_list (blockPresences m) = [(MsgExample.c1, DontHave)].
Proof.
  assert (match newMessageFromProto MsgExample.mh_Sum
         (mkPb true [] ["block"] [] [(MsgExample.c0, Have); (MsgExample.c1, DontHave)] 0 "w" "s") with
         | Ok m => bool_decide (map_to_list (blockPresences m) = [(MsgExample.c1, DontHave)]) | Err _ => false end = true) as Hc
    by (vm_compute; reflexivity).
  destruct (newMessageFromProto _ _) as [m|e] eqn:Hm; [|done].
  exists m. split; [done|]. split; [exact (newMessageFromProto_wf _ _ _ Hm)|]. by apply bool_decide_eq_true in Hc.
Defined.

Lemma addEntry_merges_witness :
  let m' := foldl (request MsgExample.c0) (New "" false) [mkReq 3 false Want_Have true; mkReq 9 true Want_Block false] in
  ∃ e, wantlist m' !! MsgExample.c0 = Some e ∧ e_Cancel e = true ∧ e_SendDontHave e = true ∧ e_WantType e = Want_Block.
Proof.
  cbv zeta. destruct (addEntry_merges MsgExample.c0 [mkReq 3 false Want_Have true; mkReq 9 true Want_Block false] (New "" false))
    as (e & H1 & _ & H2 & H3 & H4 & _); [reflexivity|discriminate|].
  exists e. split; [exact H1|]. split; [exact H2|]. split; [exact H3|]. by apply H4.
Defined.
