(* ===== verification/Contribution.v ===== *)
(** * Contributions (core/wallet, core/coreapi/contribution.go, core/commands/contribution.go)

    Who is credited for the blocks of a file: a node puts the wallet of its process in
    every bitswap message it sends (go-bitswap's network/ipfs_impl.go and workers.go, as
    this repository changed them), a node that receives blocks records the wallet of the
    message for each of them (internal/decision/engine.go), and the command namelist
    counts the links of an object by the wallet recorded for them. *)

From Stdlib Require Import ZArith NArith Ascii String.
From stdpp Require Import base gmap sets list strings pretty.
From S2P Require Import Prelude GoStrings Cid GoFS DagEdit Object BsMessage.

(** The variables of the process: wallet.Wallet and decision.AccountContribute *)
Record Process := mkProcess { Wallet : string; AccountContribute : gmap string string }.

(** ** The wallet of the node *)

Definition SetWallet (addr : string) (p : Process) : Process := mkProcess addr (AccountContribute p).
Definition GetWallet (p : Process) : string := Wallet p.

(** What daemonFunc does with the environment variable mint_account *)
Definition wallet_of_env (mint_account : option string) (p : Process) : Process :=
  match mint_account with Some account => SetWallet account p | None => p end.

(** ** Sending *)

Inductive Protocol := BitswapOneTwo | BitswapOneOne | BitswapOneZero | BitswapNoVers | OtherProtocol (id : string).

(** What the stream is given, or the error; None is a panic. *)
Definition msgToStream (rng : Ranges) (proto : Protocol) (p : Process) (msg : Message) : option (res string PbMessage) :=
  let msg := BsMessage.SetWallet (Wallet p) msg in
  match proto with
  | BitswapOneOne | BitswapOneTwo => pbm ← ToProtoV1 rng msg; Some (Ok pbm)
  | BitswapOneZero | BitswapNoVers => Some (Ok (ToProtoV0 rng msg))
  | OtherProtocol id => Some (Err ("unrecognized protocol on remote: " +:+ id))
  end.

(** Bitswap.sendBlocks, of a process whose wallet is [p]'s when the message is prepared and
    [p']'s when the stream is written *)
Definition sendBlocks (rng : Ranges) (proto : Protocol) (p p' : Process) (msg : Message) : option (res string PbMessage) :=
  msgToStream rng proto p' (BsMessage.SetWallet (Wallet p) msg).

(** ** Receiving *)

Section receive.
Context (cid_String : Cid → string) (rng : Ranges).

(** The part of Engine.MessageReceived that records the wallet *)
Definition MessageReceived (m : Message) (p : Process) : Process :=
  if decide (BsMessage.Wallet m ≠ "") then
    mkProcess (Wallet p)
      (foldl (λ acc b, <[cid_String b.1 := BsMessage.Wallet m]> acc) (AccountContribute p) (Blocks rng m))
  else p.

(** ** The API and the commands *)

Context {B : Type} `{!DagCodec Cid B} (E : ObjEnv Cid).

(** The loop of NameList: a Go int counts in 64 bits. *)
Definition count_link (acc : gmap string string) (accountCount : gmap string Z) (link : Link Cid) : gmap string Z :=
  match acc !! cid_String (lCid link) with
  | Some account =>
      match accountCount !! account with
      | None => <[account := 1%Z]> accountCount
      | Some n => <[account := i64 (n + 1)]> accountCount
      end
  | None => accountCount
  end.

Definition NameList (path : string) (p : Process) : M (OW Cid) OErr (gmap string Z) :=
  links ← Object.Links (B := B) E path;
  mret (foldl (count_link (AccountContribute p)) ∅ links).

(** contributionGetWalletCmd, contributionSetWalletCmd and contributionNameListCmd: what is
    emitted.  The text encoders print to the standard output of their process. *)
Definition contributionGetWalletCmd (p : Process) : string := GetWallet p.
Definition contributionSetWalletCmd (address : string) (p : Process) : string * Process := (address, SetWallet address p).
Definition contributionNameListCmd (path : string) (p : Process) : M (OW Cid) OErr (gmap string Z) := NameList path p.

Definition getwallet_text (address : string) : string := address.
Definition setwallet_text (address : string) : string := "set wallet address: " +:+ address.

(** ** What is verified *)

(** The links an account is credited for *)
Definition credited (acc : gmap string string) (account : string) (links : list (Link Cid)) : nat :=
  length (filter (λ l, acc !! cid_String (lCid l) = Some account) links).

Lemma credited_cons acc a l links :
  credited acc a (l :: links) = (if decide (acc !! cid_String (lCid l) = Some a) then 1 else 0) + credited acc a links.
Proof. unfold credited. rewrite filter_cons. by case_decide. Qed.

Lemma count_loop acc links : ∀ m : gmap string Z,
  map_Forall (λ _ n, 0 < n ∧ n + Z.of_nat (length links) ≤ i64_max)%Z m → (Z.of_nat (length links) ≤ i64_max)%Z →
  ∀ a, foldl (count_link acc) m links !! a =
    let n := (default 0 (m !! a) + Z.of_nat (credited acc a links))%Z in if decide (n = 0)%Z then None else Some n.
Proof.
  induction links as [|l links IH]; intros m Hm Hlen a; cbn [foldl length].
  { cbn [credited filter length list_filter]. rewrite Z.add_0_r. destruct (m !! a) as [n|] eqn:Ha; cbn [default]; [|done].
    destruct (Hm _ _ Ha). cbv zeta. rewrite decide_False; [done|]. cbn. lia. }
  cbn [length] in Hm, Hlen. rewrite credited_cons.
  assert (∀ x n : Z, (0 < n)%Z → (n + Z.of_nat (S (length links)) ≤ i64_max)%Z → i64 (n + 1) = (n + 1)%Z) as Hi.
  { intros _ n H0 Hn. apply i64_small. unfold i64_min, i64_max in *. lia. }
  rewrite IH; [| |lia].
  - cbv zeta. unfold count_link. destruct (acc !! cid_String (lCid l)) as [account|] eqn:Hacc; [|done].
    destruct (decide (Some account = Some a)) as [[= ->]|Hne].
    + destruct (m !! a) as [n|] eqn:Ha; rewrite lookup_insert_eq; cbn [default from_option id].
      * destruct (Hm _ _ Ha). rewrite (Hi 0%Z) by lia. rewrite !decide_False by lia. f_equal. lia.
      * rewrite !decide_False by lia. f_equal. lia.
    + destruct (m !! account); by rewrite lookup_insert_ne by congruence.
  - unfold count_link. destruct (acc !! cid_String (lCid l)) as [account|]; [|intros k n Hk; destruct (Hm _ _ Hk); lia].
    assert (map_Forall (λ _ n, 0 < n ∧ n + Z.of_nat (length links) ≤ i64_max)%Z m) as Hm'
      by (intros k n Hk; destruct (Hm _ _ Hk); lia).
    destruct (m !! account) as [n|] eqn:Ha; (apply map_Forall_insert_2; [|done]); [|unfold i64_max in *; lia].
    destruct (Hm _ _ Ha). rewrite (Hi 0%Z) by lia. lia.
Qed.

(** namelist gives each account the number of links of the object whose block it is
    credited for, no account that has none, and the error of an object that cannot be
    read; it changes nothing. *)
Theorem NameList_exact path p w :
  match Object.Links (B := B) E path w with
  | (Err e, w') => NameList path p w = (Err e, w')
  | (Ok links, w') => w' = w ∧ ((Z.of_nat (length links) ≤ i64_max)%Z →
      ∃ counts, NameList path p w = (Ok counts, w) ∧
        ∀ a n, counts !! a = Some n ↔ n = Z.of_nat (credited (AccountContribute p) a links) ∧ (0 < n)%Z)
  end.
Proof.
  assert (∀ r w', Object.Links (B := B) E path w = (r, w') → w' = w) as Hsame.
  { intros r w'. unfold Object.Links, ResolveNode, dagGet, mbind, M_bind, mlift, mret, M_ret. repeat case_match; intros; simplify_eq; done. }
  unfold NameList. rewrite bind_unfold. destruct (Object.Links E path w) as [[links|e] w'] eqn:Hl; [|done].
  rewrite (Hsame _ _ eq_refl). split; [done|]. intros Hlen. eexists. split; [reflexivity|]. intros a n.
  rewrite count_loop; [|apply map_Forall_empty|done]. rewrite lookup_empty. cbn [default from_option id]. cbv zeta.
  case_decide; naive_solver lia.
Qed.

Lemma record_blocks w l : ∀ acc : gmap string string, ∀ s,
  foldl (λ acc (b : Cid * string), <[cid_String b.1 := w]> acc) acc l !! s =
    if bool_decide (s ∈ (λ b : Cid * string, cid_String b.1) <$> l) then Some w else acc !! s.
Proof.
  induction l as [|b l IH]; intros acc s; [done|]. cbn [foldl]. rewrite IH, fmap_cons.
  destruct (decide (s = cid_String b.1)) as [->|Hne].
  - rewrite lookup_insert_eq, (bool_decide_true (_ ∈ _ :: _)) by (by left). by case_match.
  - rewrite lookup_insert_ne by done. case_bool_decide as H1; case_bool_decide as H2; [done| | |done]; exfalso.
    + apply H2. by right.
    + apply H1. by apply elem_of_cons in H2 as [?|?].
Qed.

Lemma MessageReceived_lookup `{!RangesLaws rng} `{!Inj (=) (=) cid_String} m p c :
  AccountContribute (MessageReceived m p) !! cid_String c =
    if decide (BsMessage.Wallet m ≠ "" ∧ is_Some (blocks m !! c)) then Some (BsMessage.Wallet m)
    else AccountContribute p !! cid_String c.
Proof.
  unfold MessageReceived. destruct (decide (BsMessage.Wallet m ≠ "")) as [Hw|Hw]; [|by rewrite decide_False by tauto].
  cbn [AccountContribute]. rewrite record_blocks.
  assert (cid_String c ∈ (λ b : Cid * string, cid_String b.1) <$> Blocks rng m ↔ is_Some (blocks m !! c)) as Hiff.
  { unfold Blocks. rewrite rng_blocks_perm, list_elem_of_fmap. split.
    - intros ([c' d] & Hc & Hin). apply (inj cid_String) in Hc as ->. apply elem_of_map_to_list in Hin. by eexists.
    - intros [d Hd]. exists (c, d). split; [done|]. by apply elem_of_map_to_list. }
  case_bool_decide as H1; case_decide as H2; naive_solver.
Qed.

(** The blocks of a message are credited to the wallet it names, whoever was credited
    for them before, and no other; what follows the wallet as its signature plays no part. *)
Theorem MessageReceived_exact `{!RangesLaws rng} `{!Inj (=) (=) cid_String} m p :
  Wallet (MessageReceived m p) = Wallet p ∧
  (∀ c, AccountContribute (MessageReceived m p) !! cid_String c =
     if decide (BsMessage.Wallet m ≠ "" ∧ is_Some (blocks m !! c)) then Some (BsMessage.Wallet m)
     else AccountContribute p !! cid_String c) ∧
  (∀ sign, MessageReceived (mkMsg (full m) (wantlist m) (blocks m) (blockPresences m) (pendingBytes m) (walletlist m) sign) p =
     MessageReceived m p).
Proof.
  split_and!; [unfold MessageReceived; by case_decide|apply MessageReceived_lookup|done].
Qed.

End receive.

(** ** From one node to another *)

Lemma set_wallet_sendable mh_Sum w m : sendable mh_Sum m → sendable mh_Sum (BsMessage.SetWallet w m).
Proof. intros [[H1 H2] H3 H4 H5]. split; [by split|done..]. Qed.

Section served.
Context (mh_Sum : string → N → option N → res string Multihash) (cid_String : Cid → string) `{!Inj (=) (=) cid_String}.
Context {B : Type} `{!DagCodec Cid B} (E : ObjEnv Cid).
Context (rngs rngr : Ranges) `{!RangesLaws rngs, !RangesLaws rngr}.

(** C23.  A node that serves blocks is credited for them: whatever the message was created
    with, what goes out names the wallet the process has when the stream is written; the
    node that reads it credits that wallet with exactly the blocks of the message, and its
    namelist counts the links to them for it and the other links as before. *)
Theorem served_blocks_credited proto p p' q m path w links w' :
  (proto = BitswapOneTwo ∨ proto = BitswapOneOne) → sendable mh_Sum m → Wallet p' ≠ "" →
  Object.Links (B := B) E path w = (Ok links, w') → (Z.of_nat (length links) ≤ i64_max)%Z →
  ∃ pbm m' counts, sendBlocks rngs proto p p' m = Some (Ok pbm) ∧ newMessageFromProto mh_Sum pbm = Ok m' ∧
    NameList cid_String (B := B) E path (MessageReceived cid_String rngr m' q) w = (Ok counts, w) ∧
    ∀ a n, counts !! a = Some n ↔ (0 < n)%Z ∧ n = Z.of_nat (length (filter (λ l,
      (if decide (is_Some (blocks m !! lCid l)) then Some (Wallet p') else AccountContribute q !! cid_String (lCid l)) = Some a) links)).
Proof.
  intros Hproto Hm Hw Hl Hlen.
  assert (sendable mh_Sum (BsMessage.SetWallet (Wallet p') (BsMessage.SetWallet (Wallet p) m))) as Hs by (by apply set_wallet_sendable, set_wallet_sendable).
  destruct (proto_v1_reads_back mh_Sum rngs _ Hs) as (pbm & Hp & Hn).
  set (m2 := BsMessage.SetWallet (Wallet p') (BsMessage.SetWallet (Wallet p) m)) in *.
  pose proof (NameList_exact cid_String (B := B) E path (MessageReceived cid_String rngr m2 q) w) as HN. rewrite Hl in HN.
  destruct HN as [-> HN]. destruct (HN Hlen) as (counts & Hc & Ha).
  exists pbm, m2, counts. split_and!; [|done|done|].
  - unfold sendBlocks, msgToStream. fold m2. by destruct Hproto as [-> | ->]; rewrite Hp.
  - intros a n. rewrite Ha. unfold credited.
    rewrite (list_filter_iff _ (λ l, (if decide (is_Some (blocks m !! lCid l)) then Some (Wallet p')
      else AccountContribute q !! cid_String (lCid l)) = Some a)); [tauto|].
    intros l. rewrite MessageReceived_lookup by done. unfold BsMessage.Wallet. cbn [m2 walletlist BsMessage.SetWallet blocks].
    by repeat case_decide; naive_solver.
Qed.

End served.

(** The wallet that goes out is the current one, but what stands for its signature is that
    of the wallet the message was created with. *)
Lemma stale_sign : ∃ pbm,
  sendBlocks MsgExample.rng BitswapOneTwo (mkProcess "new" ∅) (mkProcess "new" ∅) (New "old" false) = Some (Ok pbm) ∧
  pb_Walletlist pbm = "new" ∧ pb_Walletsign pbm = "oldsign".
Proof. eexists. split; [vm_compute; reflexivity|]. split; reflexivity. Qed.

(** The remote protocols that carry no CIDs credit a block under the CID of version 0 of its
    data, which is not the one the file links to. *)
Lemma old_protocol_miscredits :
  let m := AddBlock MsgExample.c1 "inline" (New "w" false) in
  match sendBlocks MsgExample.rng BitswapOneZero (mkProcess "w" ∅) (mkProcess "w" ∅) m with
  | Some (Ok pbm) =>
      match newMessageFromProto MsgExample.mh_Sum pbm with
      | Ok m' => blocks m' !! MsgExample.c1 = None ∧ blocks m' !! CidV0 (MsgExample.pad 32 "inline") = Some "inline"
      | Err _ => False
      end
  | _ => False
  end.
Proof. vm_compute. split; reflexivity. Qed.

(** ** Examples *)

Module ContributionExample.

#[global] Instance codec : DagCodec Cid () := {|
  v0CidPrefix := (); Prefix _ := (); Sum _ x := MsgExample.c0; encLen x := 0%Z |}.

(** An object that links to a block twice and to another *)
Definition dir : Cid := CidV0 (MsgExample.pad 32 "dir").
Definition links : list (Link Cid) :=
  [mkLink "a" 1 MsgExample.c0; mkLink "b" 1 MsgExample.c0; mkLink "c" 1 MsgExample.c1; mkLink "d" 1 (CidV0 (MsgExample.pad 32 "other"))].
Definition w : OW Cid := mkOW {[ dir := OtherBlock links 0 ]} ∅ [].
Definition E : ObjEnv Cid := {|
  get_fault _ := None; add_fault _ := None; flush_fault := None; ResolvePath p := if decide (p = "dir") then Ok dir else Err "no such path";
  json_Decode _ := None; xml_Unmarshal _ := None; DecodeProtobuf _ := None; base64_Decode s := Some s; base64_Encode s := s;
  cid_Decode _ := None; EmptyDir_data := ""; other_Stat _ _ _ := Err "" |}.
Definition cid_String (c : Cid) : string := pretty (Npos (encode c)).
#[global] Instance cid_String_inj : Inj (=) (=) cid_String.
Proof. intros c c' Hc. apply (inj pretty) in Hc. apply (inj encode). congruence. Qed.

Lemma dir_links : Object.Links (B := ()) E "dir" w = (Ok links, w).
Proof. reflexivity. Qed.

End ContributionExample.

Lemma served_blocks_credited_witness :
  let q := mkProcess "" {[ ContributionExample.cid_String (CidV0 (MsgExample.pad 32 "other")) := "earlier" ]} in
  ∃ pbm m' counts,
    sendBlocks MsgExample.rng BitswapOneTwo (mkProcess "mine" ∅) (mkProcess "mine" ∅) MsgExample.msg = Some (Ok pbm) ∧
    newMessageFromProto MsgExample.mh_Sum pbm = Ok m' ∧
    NameList ContributionExample.cid_String (B := ()) ContributionExample.E "dir"
      (MessageReceived ContributionExample.cid_String MsgExample.rng m' q) ContributionExample.w = (Ok counts, ContributionExample.w) ∧
    counts !! "mine" = Some 3%Z ∧ counts !! "earlier" = Some 1%Z ∧ counts !! "wallet" = None.
Proof.
  cbv zeta.
  destruct (served_blocks_credited MsgExample.mh_Sum ContributionExample.cid_String (B := ()) ContributionExample.E MsgExample.rng MsgExample.rng
    BitswapOneTwo (mkProcess "mine" ∅) (mkProcess "mine" ∅)
    (mkProcess "" {[ ContributionExample.cid_String (CidV0 (MsgExample.pad 32 "other")) := "earlier" ]}) MsgExample.msg "dir"
    ContributionExample.w ContributionExample.links ContributionExample.w (or_introl eq_refl) MsgExample.msg_sendable
    ltac:(discriminate) ContributionExample.dir_links ltac:(by vm_compute))
    as (pbm & m' & counts & H1 & H2 & H3 & H4).
  exists pbm, m', counts. split; [exact H1|]. split; [exact H2|]. split; [exact H3|].
  split; [apply H4; split; [done|by vm_compute]|]. split; [apply H4; split; [done|by vm_compute]|].
  destruct (counts !! "wallet") as [n|] eqn:Hn; [|done]. apply H4 in Hn as [Hp ->]. exfalso. by vm_compute in Hp.
Defined.

Lemma MessageReceived_exact_witness :
  AccountContribute (MessageReceived ContributionExample.cid_String MsgExample.rng MsgExample.msg
    (mkProcess "" {[ ContributionExample.cid_String MsgExample.c0 := "someone" ]})) !! ContributionExample.cid_String MsgExample.c0 =
  Some "wallet".
Proof.
  destruct (MessageReceived_exact ContributionExample.cid_String MsgExample.rng MsgExample.msg
    (mkProcess "" {[ ContributionExample.cid_String MsgExample.c0 := "someone" ]})) as (_ & Hc & _).
  rewrite Hc. by vm_compute.
Defined.
