(* ===== verification/Daemon.v ===== *)
(** * The daemon (cmd/ipfs/daemon.go, cmd/ipfs/add_migrations.go)

    ipfs daemon: the repository is initialised, opened and migrated when that is asked
    for, a node is built on it, its plugins, its API server, its mounts, its collector,
    its gateway and its threads are started in that order, and the command waits for the
    servers to end.  What was acquired is released by deferred calls on every way out but
    log.Fatal.  The parts started are modelled in their own files; here they are outcomes
    of the environment, and what is done is recorded in order. *)

From Stdlib Require Import ZArith Ascii String.
From stdpp Require Import base gmap sets list strings relations.
From S2P Require Import Prelude GoStrings.

(** How a call ends early: an error, a panic, which runs the deferred calls, or log.Fatal,
    which does not *)
Inductive DErr := DMsg (msg : string) | DPanic (msg : string) | DFatal (msg : string).

#[export] Instance DErr_eq_dec : EqDecision DErr. Proof. solve_decision. Defined.

(** The options of the two HTTP servers (corehttp) *)
Inductive ServeOption :=
  | MetricsCollectionOption (server : string)
  | MetricsOpenCensusCollectionOption
  | CheckVersionOption
  | CommandsOption
  | CommandsROOption
  | WebUIOption
  | GatewayOption (writable : bool) (paths : list string)
  | VersionOption
  | DefaultMux (path : string)
  | MutexFractionOption (path : string)
  | MetricsScrapingOption (path : string)
  | LogOption
  | HostnameOption
  | P2PProxyOption
  | RedirectOption (path redirect : string).

#[export] Instance ServeOption_eq_dec : EqDecision ServeOption. Proof. solve_decision. Defined.

(** What the daemon does, in order *)
Inductive DEvent :=
  | EvInit (profiles : string)
  | EvOpen
  | EvFetcher
  | EvTempDir (dir : string)
  | EvMigrated
  | EvNode (routing : string) (pubsub ipnsps online encrypted : bool)
  | EvPlugins
  | EvListen (server addr : string)
  | EvSetAPIAddr (addr : string)
  | EvServe (server addr : string) (opts : list ServeOption)
  | EvMounted (fsdir nsdir : string)
  | EvPeriodicGC
  | EvAddFile (path : string) (pin : bool)
  | EvConnect
  | EvPinPath (path : string)
  | EvGetPath (path : string)
  | EvPinMFS
  | EvWallet (account : string)
  | EvReady
  | EvRemoveDir (dir : string)
  | EvFetcherClose
  | EvPluginsClose
  | EvNodeClose
  | EvRepoClose.

#[export] Instance DEvent_eq_dec : EqDecision DEvent. Proof. solve_decision. Defined.

(** The events so far, the download directories that exist, migrations.DownloadDirectory,
    and whether the plugins are a child of the node's process *)
Record DW := mkDW { d_log : list DEvent; d_dirs : gset string; d_dl : string; d_child : bool }.

Abbreviation DM := (M DW DErr).

Definition event (e : DEvent) : DM unit := mmodify (λ w, mkDW (d_log w ++ [e]) (d_dirs w) (d_dl w) (d_child w)).
Definition set_dl (dir : string) : DM unit := mmodify (λ w, mkDW (d_log w) (d_dirs w) dir (d_child w)).

(** [defer d()] before the rest [c] of a function *)
Definition with_defer {A} (d : DM unit) (c : DM A) : DM A := λ w,
  match c w with
  | (Err (DFatal msg), w') => (Err (DFatal msg), w')
  | (r, w') => (r, (d w').2)
  end.

Definition msg_of {A} (r : res string A) : DM A := match r with Ok a => mret a | Err e => mthrow (DMsg e) end.
Definition throw_if (o : option string) : DM unit := match o with None => mret () | Some e => mthrow (DMsg e) end.
(** [return nil, fmt.Errorf(prefix, err)] *)
Definition wrap {A} (prefix : string) (r : res string A) : DM A :=
  match r with Ok a => mret a | Err e => mthrow (DMsg (prefix +:+ e)) end.

(** The parts of the configuration the daemon reads *)
Record DConfig := mkDConfig {
  Pubsub_Enabled : option bool; Ipns_UsePubsub : option bool; Routing_Type : string;
  Addresses_API : list string; Addresses_Gateway : list string;
  Gateway_Writable : bool; Gateway_RootRedirect : string; P2pHttpProxy : bool;
  Mounts_IPFS : string; Mounts_IPNS : string; Bootstrap : list string; Peering_Peers : list string;
}.

(** The command line options *)
Record DOptions := mkDOptions {
  o_init : bool; o_initConfig : string; o_initProfile : string; o_routing : string;
  o_mount : bool; o_writable : option bool; o_ipfsMount : option string; o_ipnsMount : option string;
  o_unrestricted : bool; o_unencrypted : bool; o_enableGC : bool; o_migrate : option bool;
  o_pubsub : option bool; o_ipnsps : option bool; o_offline : bool; o_api : string;
}.

(** The fetchers of a migration, when they are there: what is known of one that fetched
    over IPFS is its peer and the paths it fetched *)
Inductive MigFetcher := IpfsFetcher (addrs : list string) (FetchedPaths : list string) | HttpFetcher | UnknownFetcher.

(** What filepath.Walk calls its function with: a file, a directory, or no information *)
Inductive WalkEntry := WFile (path : string) | WDir (path : string) | WNoInfo (err : string).

Inductive OpenErr := ErrNeedMigration | OpenFailed (msg : string).

(** The environment: what the calls of other components return *)
Record DEnv := mkDEnv {
  IsInitialized : bool;
  LoadConf : string → option string;
  CreateIdentity : option string;
  InitWithIdentity : option string;
  doInit : string → option string;
  Open : res OpenErr unit;
  Scanf : list (option string);
  ReadMigrationConfig : res string string;
  GetMigrationFetcher : res string (list MigFetcher);
  TempDir : res string string;
  RunMigration : option string;
  OpenAgain : option string;
  repo_Config : res string DConfig;
  NewNode : option string;
  Plugins_Start : option string;
  GetConfig : res string DConfig;
  TakeListeners : string → res string (list string);
  NewMultiaddr : string → res string string;
  Listen : string → res string string;
  WebUIPaths : list string;
  ConstructNode : option string;
  SetAPIAddr : string → option string;
  Mount : string → string → option string;
  NewCoreAPI : option string;
  Connect : option string;
  pin_Add : string → option string;
  ufs_Get : string → option string;
  Walk : string → list WalkEntry;
  ufs_Add : string → option string;
  mint_account : option string;
  IPFS_REUSEPORT : string;
  Serve : string → string → option string;
  PeriodicGC : option string;
  merge_order : list (list (option string)) → list (option string);
}.

(** ** Questions and choices *)

(** YesNoPrompt: a scan that reads nothing leaves the answer of the last one. *)
Fixpoint ask (tries : nat) (s : string) (Scanf : list (option string)) : bool :=
  match tries with
  | 0 => false
  | S tries =>
      let s := match Scanf with Some t :: _ => t | _ => s end in
      if decide (s = "y" ∨ s = "Y") then true
      else if decide (s = "n" ∨ s = "N") then false
      else if decide (s = "") then false
      else ask tries s (tail Scanf)
  end.
Definition YesNoPrompt : list (option string) → bool := ask 3 "".

(** The routing of the node *)
Definition routing_choice (o : DOptions) (cfg : DConfig) : res string string :=
  let routingOption :=
    if decide (o_routing o = "default") then (if decide (Routing_Type cfg = "") then "dht" else Routing_Type cfg)
    else o_routing o in
  if decide (routingOption = "supernode") then Err "supernode routing was never fully implemented and has been removed"
  else if decide (routingOption ∈ ["dhtclient"; "dht"; "dhtserver"; "none"]) then Ok routingOption
  else Err ("unrecognized routing option: " +:+ routingOption).

(** Flag.WithDefault *)
Definition WithDefault (f : option bool) (d : bool) : bool := default d f.

Section daemon.
Context (o : DOptions) (E : DEnv).

(** ** The servers *)

(** The loop over the configured addresses: one that a listener has is skipped. *)
Fixpoint listen_all (server fn what : string) (addrs : list string) (listenerAddrs : gset string) (listeners : list string)
    : DM (list string) :=
  match addrs with
  | [] => mret listeners
  | addr :: addrs' =>
      maddr ← wrap (fn +:+ ": invalid " +:+ what +:+ " address: " +:+ addr +:+ " ") (NewMultiaddr E addr);
      if decide (maddr ∈ listenerAddrs) then listen_all server fn what addrs' listenerAddrs listeners
      else
        lis ← wrap (fn +:+ ": manet.Listen(" +:+ maddr +:+ ") failed: ") (Listen E maddr);
        _ ← event (EvListen server lis);
        listen_all server fn what addrs' ({[maddr]} ∪ listenerAddrs) (listeners ++ [lis])
  end.

(** The options of the API server, in order *)
Definition api_opts (cfg : DConfig) : list ServeOption :=
  let gatewayOpt := if o_unrestricted o then GatewayOption true ["/ipfs"; "/ipns"] else GatewayOption false (WebUIPaths E) in
  [MetricsCollectionOption "api"; MetricsOpenCensusCollectionOption; CheckVersionOption; CommandsOption; WebUIOption;
   gatewayOpt; VersionOption; DefaultMux "/debug/vars"; DefaultMux "/debug/pprof/"; MutexFractionOption "/debug/pprof-mutex/";
   MetricsScrapingOption "/debug/metrics/prometheus"; LogOption] ++
  (if decide (Gateway_RootRedirect cfg ≠ "") then [RedirectOption "" (Gateway_RootRedirect cfg)] else []).

Fixpoint serve_all (server : string) (listeners : list string) (opts : list ServeOption) : DM unit :=
  match listeners with
  | [] => mret ()
  | lis :: listeners' => _ ← event (EvServe server lis opts); serve_all server listeners' opts
  end.

(** serveHTTPApi: the addresses it serves *)
Definition serveHTTPApi : DM (list string) :=
  cfg ← wrap "serveHTTPApi: GetConfig() failed: " (GetConfig E);
  taken ← wrap "serveHTTPApi: socket activation failed: " (TakeListeners E "io.ipfs.api");
  let apiAddrs := if decide (o_api o = "") then Addresses_API cfg else [o_api o] in
  listeners ← listen_all "api" "serveHTTPApi" "API" apiAddrs (list_to_set taken) taken;
  _ ← wrap "serveHTTPApi: ConstructNode() failed: " (match ConstructNode E with None => Ok () | Some e => Err e end);
  match listeners with
  | [] => mthrow (DPanic "index out of range [0] with length 0")
  | first :: _ =>
      _ ← wrap "serveHTTPApi: SetAPIAddr() failed: " (match SetAPIAddr E first with None => Ok () | Some e => Err e end);
      _ ← event (EvSetAPIAddr first);
      _ ← serve_all "api" listeners (api_opts cfg);
      mret listeners
  end.

(** The options of the gateway, in order *)
Definition gateway_opts (cfg : DConfig) : list ServeOption :=
  let writable := default (Gateway_Writable cfg) (o_writable o) in
  [MetricsCollectionOption "gateway"; HostnameOption; GatewayOption writable ["/ipfs"; "/ipns"]; VersionOption;
   CheckVersionOption; CommandsROOption] ++
  (if P2pHttpProxy cfg then [P2PProxyOption] else []) ++
  (if decide (Gateway_RootRedirect cfg ≠ "") then [RedirectOption "" (Gateway_RootRedirect cfg)] else []).

Definition serveHTTPGateway : DM (list string) :=
  cfg ← wrap "serveHTTPGateway: GetConfig() failed: " (GetConfig E);
  taken ← wrap "serveHTTPGateway: socket activation failed: " (TakeListeners E "io.ipfs.gateway");
  listeners ← listen_all "gateway" "serveHTTPGateway" "gateway" (Addresses_Gateway cfg) (list_to_set taken) taken;
  _ ← wrap "serveHTTPGateway: ConstructNode() failed: " (match ConstructNode E with None => Ok () | Some e => Err e end);
  _ ← serve_all "gateway" listeners (gateway_opts cfg);
  mret listeners.

Definition mountFuse : DM unit :=
  cfg ← wrap "mountFuse: GetConfig() failed: " (GetConfig E);
  let fsdir := default (Mounts_IPFS cfg) (o_ipfsMount o) in
  let nsdir := default (Mounts_IPNS cfg) (o_ipnsMount o) in
  _ ← wrap "mountFuse: ConstructNode() failed: " (match ConstructNode E with None => Ok () | Some e => Err e end);
  _ ← throw_if (Mount E fsdir nsdir);
  event (EvMounted fsdir nsdir).

(** maybeRunGC: what its channel gives, or none *)
Definition maybeRunGC : DM (option (list (option string))) :=
  if o_enableGC o then _ ← event EvPeriodicGC; mret (Some [PeriodicGC E]) else mret None.

(** ** Files downloaded by a migration (add_migrations.go) *)

Fixpoint walk_paths (entries : list WalkEntry) (paths : list string) : res DErr (list string) :=
  match entries with
  | [] => Ok paths
  | WFile p :: entries' => walk_paths entries' (paths ++ [p])
  | WDir _ :: entries' => walk_paths entries' paths
  | WNoInfo _ :: _ => Err (DPanic "invalid memory address or nil pointer dereference")
  end.

Definition addMigrationFiles (paths : list string) (pin : bool) : DM unit :=
  if decide (paths = []) then mret ()
  else
    _ ← throw_if (NewCoreAPI E);
    mfor paths (λ filePath, _ ← throw_if (ufs_Add E filePath); event (EvAddFile filePath pin)).

Definition ipfsGet (path : string) : DM unit := _ ← throw_if (ufs_Get E path); event (EvGetPath path).

Definition addMigrationPaths (addrs paths : list string) (pin : bool) : DM unit :=
  if decide (paths = []) then mthrow (DMsg "nothing downloaded by ipfs fetcher")
  else if decide (addrs = []) then mthrow (DMsg "no local swarm address for migration node")
  else
    _ ← throw_if (NewCoreAPI E);
    _ ← wrap "could not connect to migration peer: " (match Connect E with None => Ok () | Some e => Err e end);
    _ ← event EvConnect;
    if pin then mfor paths (λ p, _ ← throw_if (pin_Add E p); event (EvPinPath p))
    else mfor paths ipfsGet.

Definition addMigrations (fetchers : list MigFetcher) (pin : bool) : DM unit :=
  mfor fetchers (λ f,
    match f with
    | IpfsFetcher addrs paths => addMigrationPaths addrs paths pin
    | HttpFetcher =>
        w ← mget;
        if decide (d_dl w ≠ "") then
          paths ← mlift (walk_paths (Walk E (d_dl w)) []);
          addMigrationFiles paths pin
        else mret ()
    | UnknownFetcher => mthrow (DMsg "Cannot get migrations from unknown fetcher type")
    end).

(** os.RemoveAll of a download directory *)
Definition RemoveAll (dir : string) : DM unit := λ w,
  (Ok (), mkDW (d_log w ++ [EvRemoveDir dir]) (d_dirs w ∖ {[dir]}) (d_dl w) (d_child w)).

(** An error of addMigrations is only printed; a panic goes on. *)
Definition print_err (c : DM unit) : DM unit := λ w,
  match c w with (Err (DMsg _), w') => (Ok (), w') | r => r end.

(** node.Close closes the children of the node's process. *)
Definition node_Close : DM unit := λ w,
  (Ok (), mkDW (d_log w ++ (if d_child w then [EvPluginsClose] else []) ++ [EvNodeClose]) (d_dirs w) (d_dl w) false).
Definition add_child : DM unit := mmodify (λ w, mkDW (d_log w) (d_dirs w) (d_dl w) true).
Definition plugins_running : DM unit := _ ← event EvPlugins; add_child.

(** ** daemonFunc *)

(** The first part: a repository that is not there is made *)
Definition maybe_init : DM unit :=
  if o_init o && negb (IsInitialized E) then
    _ ← (if decide (o_initConfig o ≠ "") then throw_if (LoadConf E (o_initConfig o))
         else _ ← throw_if (CreateIdentity E); throw_if (InitWithIdentity E));
    _ ← throw_if (doInit E (o_initProfile o));
    event (EvInit (o_initProfile o))
  else mret ().

(** From the open repository on: [fetchers] is the fetcher, if any *)
Definition run_node (fetchers : option (list MigFetcher)) (cacheMigrations pinMigrations : bool) : DM (list string) :=
  cfg ← msg_of (repo_Config E);
  let pubsub := match o_pubsub o with Some b => b | None => WithDefault (Pubsub_Enabled cfg) false end in
  let ipnsps := match o_ipnsps o with Some b => b | None => WithDefault (Ipns_UsePubsub cfg) false end in
  routing ← msg_of (routing_choice o cfg);
  _ ← throw_if (NewNode E);
  _ ← event (EvNode routing pubsub ipnsps (negb (o_offline o)) (negb (o_unencrypted o)));
  with_defer node_Close (
    _ ← throw_if (Plugins_Start E);
    _ ← plugins_running;
    api ← serveHTTPApi;
    _ ← (if o_mount o && o_offline o then mthrow (DMsg "mount is not currently supported in offline mode")
         else if o_mount o then mountFuse else mret ());
    gcErrc ← maybeRunGC;
    _ ← (if cacheMigrations || pinMigrations then
           _ ← print_err (addMigrations (default [] fetchers) pinMigrations);
           w ← mget;
           _ ← RemoveAll (d_dl w);
           set_dl ""
         else mret ());
    _ ← (match fetchers with Some _ => event EvFetcherClose | None => mret () end);
    gw ← serveHTTPGateway;
    _ ← event EvPinMFS;
    _ ← (match mint_account E with Some account => event (EvWallet account) | None => mret () end);
    _ ← event EvReady;
    _ ← (if decide (IPFS_REUSEPORT E ≠ "") then
           mthrow (DFatal "Support for IPFS_REUSEPORT was removed. Use LIBP2P_TCP_REUSEPORT instead.")
         else mret ());
    mret (omap id (merge_order E
      ([Serve E "api" <$> api; Serve E "gateway" <$> gw] ++ match gcErrc with Some c => [c] | None => [] end)))).

Definition with_repo {A} (c : DM A) : DM A := _ ← event EvOpen; with_defer (event EvRepoClose) c.

(** A directory for what the migrations download, removed on the way out if it is still
    the download directory *)
Definition with_download_dir {A} (wanted : bool) (c : DM A) : DM A :=
  if wanted then
    _ ← set_dl (match TempDir E with Ok dir => dir | Err _ => "" end);
    dir ← msg_of (TempDir E);
    _ ← (λ w, (Ok (), mkDW (d_log w ++ [EvTempDir dir]) ({[dir]} ∪ d_dirs w) (d_dl w) (d_child w)));
    with_defer (w ← mget; if decide (d_dl w ≠ "") then RemoveAll (d_dl w) else mret ()) c
  else c.

(** The case of a repository that needs a migration *)
Definition migrate_and_run : DM (list string) :=
  let domigrate := match o_migrate o with Some b => b | None => YesNoPrompt (Scanf E) end in
  if negb domigrate then mthrow (DMsg "fs-repo requires migration")
  else
    keep ← msg_of (ReadMigrationConfig E);
    fetchers ← msg_of (GetMigrationFetcher E);
    _ ← event EvFetcher;
    with_defer (event EvFetcherClose) (
      let cacheMigrations := bool_decide (keep = "cache") in
      let pinMigrations := negb cacheMigrations && bool_decide (keep = "pin") in
      with_download_dir (cacheMigrations || pinMigrations) (
        _ ← throw_if (RunMigration E);
        _ ← event EvMigrated;
        _ ← throw_if (OpenAgain E);
        with_repo (run_node (Some fetchers) cacheMigrations pinMigrations))).

(** daemonFunc: the errors of the servers and the collector, in the order they came *)
Definition daemonFunc : DM (list string) :=
  _ ← maybe_init;
  match Open E with
  | Ok _ => with_repo (run_node None false false)
  | Err ErrNeedMigration => migrate_and_run
  | Err (OpenFailed e) => mthrow (DMsg e)
  end.

(** One minute after an online daemon is ready: what is logged, or a panic *)
Definition check_peers (Swarm_Peers : res string (list string)) : res DErr (list string) :=
  match GetConfig E with
  | Err e => Err (DPanic "invalid memory address or nil pointer dereference")
  | Ok cfg =>
      if decide (Bootstrap cfg = [] ∧ Peering_Peers cfg = []) then
        Ok ["skipping bootstrap: empty Bootstrap and Peering lists"]
      else match NewCoreAPI E with
           | Some _ => Err (DPanic "invalid memory address or nil pointer dereference")
           | None =>
               let '(logged, peers) := match Swarm_Peers with
                 | Ok peers => ([], peers) | Err e => (["failed to read swarm peers: " +:+ e], []) end in
               Ok (logged ++ (if decide (peers = []) then
                 ["failed to bootstrap (no peers found): consider updating Bootstrap or Peering section of your config"] else []))
           end
  end.

End daemon.

(** printVersion *)
Definition printVersion (CurrentVersionNumber CurrentCommit RepoVersion system golang : string) : list string :=
  let v := if decide (CurrentCommit ≠ "") then CurrentVersionNumber +:+ "-" +:+ CurrentCommit else CurrentVersionNumber in
  ["go-ipfs version: " +:+ v; "Repo version: " +:+ RepoVersion; "System version: " +:+ system; "Golang version: " +:+ golang].

(** ** merge

    The errors of several channels on one: a goroutine for each channel takes a value
    and hands it on, and a last one closes the output when all of them are done. *)

Section merge.
Context {A : Type}.

(** What is still to come on a channel, the value its goroutine holds, and whether it is done *)
Record MG := mkMG { g_todo : list A; g_hand : option A; g_done : bool }.
Record MS := mkMS { m_gs : list MG; m_out : list A; m_closed : bool }.

Definition merge_init (cs : list (list A)) : MS := mkMS ((λ c, mkMG c None false) <$> cs) [] false.

(** The next step of goroutine [j] *)
Definition merge_go (j : nat) (s : MS) : option MS :=
  g ← m_gs s !! j;
  match g_hand g, g_todo g with
  | Some n, _ => Some (mkMS (<[j := mkMG (g_todo g) None (g_done g)]> (m_gs s)) (m_out s ++ [n]) (m_closed s))
  | None, n :: todo => Some (mkMS (<[j := mkMG todo (Some n) (g_done g)]> (m_gs s)) (m_out s) (m_closed s))
  | None, [] => if g_done g then None else Some (mkMS (<[j := mkMG [] None true]> (m_gs s)) (m_out s) (m_closed s))
  end.

(** wg.Wait and close(out) *)
Definition merge_close (s : MS) : option MS :=
  if m_closed s || negb (forallb g_done (m_gs s)) then None else Some (mkMS (m_gs s) (m_out s) true).

Inductive mstep (s : MS) : MS → Prop :=
  | mstep_go j s' : merge_go j s = Some s' → mstep s s'
  | mstep_close s' : merge_close s = Some s' → mstep s s'.

(** What can be read from the output until it is closed *)
Definition merged (cs : list (list A)) (out : list A) : Prop :=
  ∃ s, rtc mstep (merge_init cs) s ∧ m_closed s = true ∧ m_out s = out.

(** What a goroutine has left to send *)
Definition g_left (g : MG) : list A := option_list (g_hand g) ++ g_todo g.

Definition g_cost (g : MG) : nat := length (g_todo g) + length (g_left g) + (if g_done g then 0 else 1).
Definition m_cost (s : MS) : nat := sum_list_with g_cost (m_gs s) + (if m_closed s then 0 else 1).

(** Each channel is what was sent of it, in order, and what is left of it; a goroutine that
    is done has nothing left; and nothing else is sent. *)
Definition MInv (cs : list (list A)) (s : MS) : Prop :=
  Forall2 (λ c g, (g_done g = true → g_left g = []) ∧ ∃ sent, c = sent ++ g_left g ∧ sent `sublist_of` m_out s) cs (m_gs s) ∧
  concat cs ≡ₚ m_out s ++ (m_gs s ≫= g_left) ∧ (m_closed s = true → Forall (λ g, g_done g = true) (m_gs s)).

Lemma MInv_init cs : MInv cs (merge_init cs).
Proof.
  split_and!; [| |done].
  - cbn. induction cs as [|c cs IH]; constructor; [|exact IH]. split; [done|]. exists []. split; [done|constructor].
  - cbn. induction cs as [|c cs IH]; [done|]. cbn. by rewrite IH.
Qed.

(** A step of a goroutine that changes what it has left by what it sends *)
Lemma MInv_go cs s j g g' sent :
  MInv cs s → m_closed s = false → m_gs s !! j = Some g → g_left g = sent ++ g_left g' → (g_done g' = true → g_left g' = []) →
  MInv cs (mkMS (<[j := g']> (m_gs s)) (m_out s ++ sent) false).
Proof.
  intros (HF & Hp & _) Hc Hj Hl Hd. split_and!; [| |done]; cbn [m_gs m_out].
  - destruct (Forall2_lookup_r _ _ _ _ _ HF Hj) as (c & Hcj & _ & sent0 & -> & Hs).
    rewrite <- (list_insert_id cs j _ Hcj). apply Forall2_insert.
    + eapply Forall2_impl; [exact HF|]. intros c' x (Hx & s0 & -> & Hs0). split; [done|]. exists s0. split; [done|]. by apply sublist_inserts_r.
    + split; [done|]. exists (sent0 ++ sent). rewrite Hl, app_assoc. split; [done|]. by apply sublist_app.
  - destruct (bind_insert g_left _ _ _ g' Hj) as (rest & H1 & H2).
    rewrite Hp, H1, H2, Hl, <- !app_assoc. done.
Qed.

Lemma MInv_step cs s s' : mstep s s' → MInv cs s → MInv cs s'.
Proof.
  intros Hst HI. destruct Hst as [j s' Hg|s' Hcl].
  - unfold merge_go in Hg. destruct (m_gs s !! j) as [g|] eqn:Hj; [|done]. cbn in Hg.
    destruct (m_closed s) eqn:Hc.
    { destruct HI as (HF & _ & Hd). specialize (Hd Hc). destruct (Forall2_lookup_r _ _ _ _ _ HF Hj) as (c & _ & Hleft & _).
      rewrite Forall_lookup in Hd. pose proof (Hd _ _ Hj) as Hdg. cbn in Hdg. specialize (Hleft Hdg). unfold g_left in Hleft.
      destruct (g_hand g); [done|]. cbn in Hleft. rewrite Hleft, Hdg in Hg. done. }
    assert (g_done g = true → g_left g = []) as Hdg.
    { destruct HI as (HF & _ & _). by destruct (Forall2_lookup_r _ _ _ _ _ HF Hj) as (c & _ & Hleft & _). }
    destruct (g_hand g) as [n|] eqn:Hh; [|destruct (g_todo g) as [|n todo] eqn:Ht; [destruct (g_done g); [done|]|]]; injection Hg as <-.
    + apply (MInv_go cs s j g _ [n]); [done..| |]; unfold g_left; cbn; rewrite ?Hh; [done|]. intros Hd. apply Hdg in Hd. unfold g_left in Hd. by rewrite Hh in Hd.
    + rewrite <- (app_nil_r (m_out s)). apply (MInv_go cs s j g _ []); [done..| |done]. unfold g_left. by rewrite Hh, Ht.
    + rewrite <- (app_nil_r (m_out s)). apply (MInv_go cs s j g _ []); [done..| |]; unfold g_left; cbn; [by rewrite Hh, Ht|].
      intros Hd. apply Hdg in Hd. unfold g_left in Hd. by rewrite Hh, Ht in Hd.
  - unfold merge_close in Hcl. destruct (m_closed s || negb (forallb g_done (m_gs s))) eqn:Hb; [done|]. injection Hcl as <-.
    apply orb_false_iff in Hb as [_ Hb]. apply negb_false_iff in Hb. destruct HI as (H1 & H2 & _). split_and!; [done|done|].
    intros _. cbn. apply Forall_forall. intros g Hg. rewrite forallb_forall in Hb. apply Hb. by apply list_elem_of_In.
Qed.

Lemma MInv_rtc cs s : rtc mstep (merge_init cs) s → MInv cs s.
Proof. apply (rtc_ind_r (MInv cs)); [apply MInv_init|]. intros. by eapply MInv_step. Qed.

Lemma mstep_cost s s' : mstep s s' → m_cost s = S (m_cost s').
Proof.
  intros Hst. destruct Hst as [j s' Hg|s' Hcl]; unfold m_cost.
  - unfold merge_go in Hg. destruct (m_gs s !! j) as [g|] eqn:Hj; [|done]. cbn in Hg.
    pose proof (λ y, sum_insert g_cost _ j g y Hj) as Hs.
    destruct (g_hand g) as [n|] eqn:Hh; [|destruct (g_todo g) as [|n todo] eqn:Ht; [destruct (g_done g) eqn:Hd; [done|]|]]; injection Hg as <-;
      cbn [m_gs m_closed];
      match goal with |- context [<[j:=?y]> _] => specialize (Hs y) end;
      unfold g_cost at 2 4, g_left, option_list, option_rect in Hs; cbn [g_todo g_hand g_done app length] in Hs;
      rewrite ?Hh, ?Ht, ?Hd in Hs; cbn [app length] in Hs; lia.
  - unfold merge_close in Hcl. destruct (m_closed s); [done|]. destruct (forallb g_done (m_gs s)); [|done]. injection Hcl as <-. cbn. lia.
Qed.

Lemma m_cost_init cs : m_cost (merge_init cs) = 2 * length (concat cs) + length cs + 1.
Proof.
  assert (∀ c, g_cost (mkMG c None false) = 2 * length c + 1) as Hg by (intros c; unfold g_cost, g_left; cbn; lia).
  unfold m_cost. cbn [m_gs m_closed merge_init]. induction cs as [|c cs IH]; [done|]. rewrite fmap_cons. cbn [sum_list_with length concat].
  rewrite Hg, length_app. lia.
Qed.

Lemma merge_moves s : m_closed s = false → ∃ s', mstep s s'.
Proof.
  intros Hc. destruct (forallb g_done (m_gs s)) eqn:Hb.
  - eexists. apply mstep_close. unfold merge_close. by rewrite Hc, Hb.
  - assert (¬ Forall (λ g, g_done g = true) (m_gs s)) as Hn.
    { intros HF. rewrite Forall_forall in HF. assert (forallb g_done (m_gs s) = true) as Hb'; [|congruence].
      apply forallb_forall. intros g Hg. apply HF. by apply list_elem_of_In. }
    apply not_Forall_Exists in Hn; [|apply _]. apply Exists_exists in Hn as (g & Hg & Hd). apply list_elem_of_lookup in Hg as [j Hj].
    destruct (merge_go j s) as [s'|] eqn:Hs; [exists s'; by apply (mstep_go _ j)|].
    exfalso. unfold merge_go in Hs. rewrite Hj in Hs. cbn in Hs, Hd. destruct (g_hand g), (g_todo g), (g_done g); done.
Qed.

(** What merge gives is all the values of the channels, each channel in order. *)
Lemma merged_values cs out : merged cs out → out ≡ₚ concat cs ∧ Forall (λ c, c `sublist_of` out) cs.
Proof.
  intros (s & Hs & Hc & <-). apply MInv_rtc in Hs as (HF & Hp & Hd). specialize (Hd Hc).
  assert (m_gs s ≫= g_left = []) as Hnil.
  { clear -HF Hd. induction HF as [|c g cs gs (Hl & _) HF IH]; [done|]. apply Forall_cons in Hd as [Hg Hd].
    by rewrite bind_cons, (Hl Hg), (IH Hd). }
  rewrite Hnil, app_nil_r in Hp. split; [done|]. clear -HF Hd. induction HF as [|c g cs gs (Hl & sent & -> & Hs) HF IH]; [done|].
  apply Forall_cons in Hd as [Hg Hd]. constructor; [by rewrite (Hl Hg), app_nil_r|by apply IH].
Qed.

(** C31.  merge always ends, after two steps a value, one a channel and one more; what it
    then gave is all the values of the channels and nothing else, those of each channel in
    their order, whatever the order of the steps. *)
Theorem merge_complete cs :
  (∃ out, merged cs out) ∧
  (∀ m s, nsteps mstep m (merge_init cs) s →
     m ≤ 2 * length (concat cs) + length cs + 1 ∧
     (m_closed s = false → ∃ s', mstep s s') ∧ (m_closed s = true → m = 2 * length (concat cs) + length cs + 1)) ∧
  (∀ out, merged cs out → out ≡ₚ concat cs ∧ Forall (λ c, c `sublist_of` out) cs).
Proof.
  assert (∀ m s, nsteps mstep m (merge_init cs) s → m + m_cost s = 2 * length (concat cs) + length cs + 1) as Hcost.
  { intros m s Hs. rewrite <- m_cost_init. induction Hs as [x|n x y z Hxy Hyz IH]; [done|]. apply mstep_cost in Hxy. lia. }
  split_and!.
  - assert (∀ n s, m_cost s ≤ n → rtc mstep (merge_init cs) s → ∃ s', rtc mstep (merge_init cs) s' ∧ m_closed s' = true) as Hrun.
    { induction n as [|n IH]; intros s Hn Hs; (destruct (m_closed s) eqn:Hc; [by exists s|]).
      - unfold m_cost in Hn. rewrite Hc in Hn. lia.
      - destruct (merge_moves s Hc) as [s' Hst]. apply (IH s'); [apply mstep_cost in Hst; lia|]. by eapply rtc_r. }
    destruct (Hrun _ _ (le_n _) (rtc_refl _ _)) as (s & Hs & Hc). by exists (m_out s), s.
  - intros m s Hs. pose proof (Hcost _ _ Hs). split_and!; [lia|apply merge_moves|].
    intros Hc. assert (m_cost s = 0) as Hz; [|lia]. apply rtc_nsteps_2, MInv_rtc in Hs as (HF & _ & Hd). specialize (Hd Hc).
    unfold m_cost. rewrite Hc, Nat.add_0_r. clear -HF Hd. induction HF as [|c g cs gs (Hl & _) HF IH]; [done|].
    apply Forall_cons in Hd as [Hg Hd]. cbn. rewrite (IH Hd). specialize (Hl Hg). unfold g_cost. rewrite Hg, Hl.
    unfold g_left in Hl. apply app_nil in Hl as [_ ->]. done.
  - apply merged_values.
Qed.

Lemma insert_middle (l1 l2 : list MG) g g' : <[length l1 := g']> (l1 ++ g :: l2) = l1 ++ g' :: l2.
Proof. by rewrite insert_app_r_alt, Nat.sub_diag by done. Qed.

(** One order in which the values can come: channel by channel *)
Lemma drain_one c : ∀ l1 l2 out,
  rtc mstep (mkMS (l1 ++ mkMG c None false :: l2) out false) (mkMS (l1 ++ mkMG [] None true :: l2) (out ++ c) false).
Proof.
  induction c as [|n c IH]; intros l1 l2 out.
  - apply rtc_once, (mstep_go _ (length l1)). unfold merge_go. cbn [m_gs]. rewrite list_lookup_middle by done. cbn.
    by rewrite insert_middle, app_nil_r.
  - eapply rtc_l; [apply (mstep_go _ (length l1)); unfold merge_go; cbn [m_gs]; rewrite list_lookup_middle by done; reflexivity|].
    eapply rtc_l; [apply (mstep_go _ (length l1)); unfold merge_go; cbn; rewrite insert_middle, list_lookup_middle by done; reflexivity|].
    cbn. rewrite insert_middle. change (n :: c) with ([n] ++ c). rewrite app_assoc. apply IH.
Qed.

Lemma merged_concat cs : merged cs (concat cs).
Proof.
  assert (∀ l1 out, rtc mstep (mkMS (l1 ++ ((λ c, mkMG c None false) <$> cs)) out false)
    (mkMS (l1 ++ ((λ _, mkMG [] None true) <$> cs)) (out ++ concat cs) false)) as Hd.
  { induction cs as [|c cs IH]; intros l1 out; cbn; [rewrite !app_nil_r; apply rtc_refl|].
    etransitivity; [apply drain_one|]. specialize (IH (l1 ++ [mkMG [] None true]) (out ++ c)).
    rewrite <- !app_assoc in IH. exact IH. }
  exists (mkMS ((λ _, mkMG [] None true) <$> cs) (concat cs) true). split; [|done].
  eapply rtc_r; [apply (Hd [] [])|]. apply mstep_close. unfold merge_close. cbn.
  assert (forallb g_done ((λ _ : list A, mkMG [] None true) <$> cs) = true) as ->; [|done].
  apply forallb_forall. intros g Hg%list_elem_of_In. by apply list_elem_of_fmap in Hg as (c & -> & _).
Qed.

End merge.

(** ** What is held

    The resources of the daemon, and which events they allow: nothing is served, mounted
    or collected without a node whose plugins run, the daemon is ready only when no
    download directory is left, a node is closed after its plugins and before its
    repository. *)

Record Held := mkHeld { h_repo : bool; h_fetcher : bool; h_dir : bool; h_node : bool; h_plugins : bool }.

#[export] Instance Held_eq_dec : EqDecision Held. Proof. solve_decision. Defined.

Definition none_held : Held := mkHeld false false false false false.

Definition hold (h : Held) (e : DEvent) : option Held :=
  let '(mkHeld repo fetcher dir node plugins) := h in
  match e with
  | EvInit _ => if repo then None else Some h
  | EvOpen => if repo then None else Some (mkHeld true fetcher dir node plugins)
  | EvFetcher => Some (mkHeld repo true dir node plugins)
  | EvTempDir _ => if fetcher && negb dir then Some (mkHeld repo fetcher true node plugins) else None
  | EvMigrated => if fetcher && negb repo then Some h else None
  | EvNode _ _ _ _ _ => if repo && negb node then Some (mkHeld repo fetcher dir true plugins) else None
  | EvPlugins => if node && negb plugins then Some (mkHeld repo fetcher dir node true) else None
  | EvReady => if node && plugins && negb dir && negb fetcher then Some h else None
  | EvRemoveDir _ => Some (mkHeld repo fetcher false node plugins)
  | EvFetcherClose => Some (mkHeld repo false dir node plugins)
  | EvPluginsClose => if node && plugins then Some (mkHeld repo fetcher dir node false) else None
  | EvNodeClose => if repo && negb plugins then Some (mkHeld repo fetcher dir false plugins) else None
  | EvRepoClose => if node then None else Some (mkHeld false fetcher dir node plugins)
  | EvListen _ _ | EvSetAPIAddr _ | EvServe _ _ _ | EvMounted _ _ | EvPeriodicGC | EvAddFile _ _ | EvConnect
  | EvPinPath _ | EvGetPath _ | EvPinMFS | EvWallet _ => if repo && node && plugins then Some h else None
  end.

(** What is held after a log, or None when some event was not allowed *)
Definition held_after (l : list DEvent) : option Held := foldl (λ h e, h ≫= λ h, hold h e) (Some none_held) l.

Lemma held_after_snoc l e : held_after (l ++ [e]) = held_after l ≫= λ h, hold h e.
Proof. unfold held_after. by rewrite foldl_app. Qed.

Section discipline.
Context (o : DOptions) (E : DEnv) (D0 : gset string).

Definition fatal {A} (r : res DErr A) : Prop := ∃ m, r = Err (DFatal m).

Definition temp_dir : string := match TempDir E with Ok dir => dir | Err _ => "" end.

(** The world when [h] is held *)
Definition J (h : Held) (w : DW) : Prop :=
  held_after (d_log w) = Some h ∧ d_child w = h_plugins h ∧
  d_dirs w = (if h_dir h then {[temp_dir]} ∪ D0 else D0) ∧
  (d_dl w = temp_dir ∨ h_dir h = false ∧ d_dl w = "").

(** [c] keeps what is held; [c] ends, but for log.Fatal, with something held that satisfies [P]. *)
Definition stable {A} (h : Held) (c : DM A) : Prop := ∀ w, J h w → J h (c w).2.
Definition ends {A} (h : Held) (P : Held → Prop) (c : DM A) : Prop :=
  ∀ w, J h w → fatal (c w).1 ∨ ∃ h', P h' ∧ J h' (c w).2.

Lemma stable_bind {A B} h (c : DM A) (f : A → DM B) : stable h c → (∀ a, stable h (f a)) → stable h (c ≫= f).
Proof.
  intros Hc Hf w Hw. rewrite bind_unfold. specialize (Hc w Hw). destruct (c w) as [[a|e] w1]; [by apply Hf|done].
Qed.
Lemma stable_ret {A} h (a : A) : stable h (mret a). Proof. by intros w Hw. Qed.
Lemma stable_throw {A} h (e : DErr) : stable h (mthrow e : DM A). Proof. by intros w Hw. Qed.
Lemma stable_get h : stable h mget. Proof. by intros w Hw. Qed.
Lemma stable_throw_if h x : stable h (throw_if x). Proof. intros w Hw. by destruct x. Qed.
Lemma stable_msg_of {A} h (r : res string A) : stable h (msg_of r). Proof. intros w Hw. by destruct r. Qed.
Lemma stable_wrap {A} h p (r : res string A) : stable h (wrap p r). Proof. intros w Hw. by destruct r. Qed.
Lemma stable_lift {A} h (r : res DErr A) : stable h (mlift r). Proof. by intros w Hw. Qed.
Lemma stable_if {A} h (b : bool) (c d : DM A) : stable h c → stable h d → stable h (if b then c else d).
Proof. by destruct b. Qed.
Lemma stable_if_dec {A P} `{Decision P} h (c d : DM A) : stable h c → stable h d → stable h (if decide P then c else d).
Proof. by case_decide. Qed.
Lemma stable_mfor {A} h (l : list A) body : (∀ x, stable h (body x)) → stable h (mfor l body).
Proof. intros Hb. induction l; [apply stable_ret|]. apply stable_bind; [apply Hb|done]. Qed.
Lemma stable_print_err h c : stable h c → stable h (print_err c).
Proof. intros Hc w Hw. specialize (Hc w Hw). unfold print_err. by destruct (c w) as [[|[]] w']. Qed.

Lemma J_event h h' e w : hold h e = Some h' → h_plugins h' = h_plugins h → h_dir h' = h_dir h →
  J h w → J h' (event e w).2.
Proof.
  intros He Hp Hd (H1 & H2 & H3 & H4). unfold J, event. cbn. rewrite held_after_snoc, H1. cbn.
  rewrite Hp, Hd. done.
Qed.

Lemma stable_event h e : hold h e = Some h → stable h (event e).
Proof. intros He w. by apply J_event. Qed.

Lemma ends_bind {A B} h (P : Held → Prop) (c : DM A) (f : A → DM B) :
  stable h c → P h → (∀ a, ends h P (f a)) → ends h P (c ≫= f).
Proof.
  intros Hc HP Hf w Hw. rewrite bind_unfold. specialize (Hc w Hw). destruct (c w) as [[a|e] w1]; [by apply Hf|].
  right. by exists h.
Qed.
Lemma ends_event {A} h h' P e (f : unit → DM A) :
  hold h e = Some h' → h_plugins h' = h_plugins h → h_dir h' = h_dir h → ends h' P (f ()) → ends h P (event e ≫= f).
Proof.
  intros He Hp Hd Hf w Hw. pose proof (J_event _ _ _ _ He Hp Hd Hw) as Hw'. rewrite bind_unfold.
  destruct (event e w) as [[u|] w1] eqn:Hev; [|done]. destruct u. exact (Hf _ Hw').
Qed.
Lemma ends_stable {A} h (P : Held → Prop) (c : DM A) : stable h c → P h → ends h P c.
Proof. intros Hc HP w Hw. right. exists h. split; [done|by apply Hc]. Qed.
Lemma ends_fatal {A} h P m : ends h P (mthrow (DFatal m) : DM A).
Proof. intros w _. left. by eexists. Qed.
Lemma ends_if {A} h P (b : bool) (c d : DM A) : ends h P c → ends h P d → ends h P (if b then c else d).
Proof. by destruct b. Qed.

Lemma ends_defer {A} h (P Q : Held → Prop) (d : DM unit) (c : DM A) :
  ends h P c → (∀ h' w, P h' → J h' w → ∃ h'', Q h'' ∧ J h'' (d w).2) → ends h Q (with_defer d c).
Proof.
  intros Hc Hd w Hw. unfold with_defer. destruct (Hc w Hw) as [[m Hm]|(h' & HP & HJ)]; destruct (c w) as [r w'].
  - cbn in Hm. subst r. left. by eexists.
  - destruct r as [a|[m|m|m]]; [right; by eapply Hd..|]. left. by eexists.
Qed.

End discipline.

Create HintDb daemon.
#[export] Hint Resolve stable_bind stable_ret stable_throw stable_get stable_throw_if stable_msg_of stable_wrap stable_lift
  stable_if stable_if_dec stable_mfor stable_print_err stable_event : daemon.

Section runs.
Context (o : DOptions) (E : DEnv) (D0 : gset string).

Abbreviation J := (J E D0).
Abbreviation stable := (stable E D0).
Abbreviation ends := (ends E D0).

Definition running (h : Held) : Prop := h_repo h = true ∧ h_node h = true ∧ h_plugins h = true.

Ltac stab := repeat ((apply stable_bind; [|intros ?]) || apply stable_if || apply stable_if_dec || (eauto 2 with daemon; fail) || case_match).

Lemma hold_use h e : running h →
  match e with EvListen _ _ | EvSetAPIAddr _ | EvServe _ _ _ | EvMounted _ _ | EvPeriodicGC | EvAddFile _ _ | EvConnect
  | EvPinPath _ | EvGetPath _ | EvPinMFS | EvWallet _ => True | _ => False end → hold h e = Some h.
Proof. destruct h as [r f d n p]. intros (Hr & Hn & Hp). cbn in Hr, Hn, Hp. subst. by destruct e. Qed.

Lemma listen_all_stable h s f wh addrs : running h → ∀ known ls, stable h (listen_all E s f wh addrs known ls).
Proof.
  intros Hh. induction addrs as [|a addrs IH]; intros known ls; cbn [listen_all]; [apply stable_ret|].
  stab; try apply IH. by apply stable_event, hold_use.
Qed.

Lemma serve_all_stable h s ls opts : running h → stable h (serve_all s ls opts).
Proof.
  intros Hh. induction ls as [|l ls IH]; cbn [serve_all]; [apply stable_ret|].
  apply stable_bind; [by apply stable_event, hold_use|intros _; exact IH].
Qed.

Lemma serveHTTPApi_stable h : running h → stable h (serveHTTPApi o E).
Proof.
  intros Hh. unfold serveHTTPApi. stab; try (by apply listen_all_stable); try (by apply serve_all_stable).
  all: by apply stable_event, hold_use.
Qed.

Lemma serveHTTPGateway_stable h : running h → stable h (serveHTTPGateway o E).
Proof. intros Hh. unfold serveHTTPGateway. stab; [by apply listen_all_stable|by apply serve_all_stable]. Qed.

Lemma mountFuse_stable h : running h → stable h (mountFuse o E).
Proof. intros Hh. unfold mountFuse. stab. by apply stable_event, hold_use. Qed.

Lemma addMigrations_stable h fs pin : running h → stable h (addMigrations E fs pin).
Proof.
  intros Hh. unfold addMigrations. apply stable_mfor. intros [addrs paths| |]; [| |apply stable_throw].
  - unfold addMigrationPaths, ipfsGet. stab; try (apply stable_mfor; intros p; stab); by apply stable_event, hold_use.
  - stab. unfold addMigrationFiles. stab. apply stable_mfor. intros p. stab. by apply stable_event, hold_use.
Qed.

(** A part that changes what is held *)
Lemma ends_seq {A B} h h' (P : Held → Prop) (c : DM A) (f : A → DM B) :
  (∀ w, J h w → match c w with (Ok _, w1) => J h' w1 | (Err _, w1) => ∃ h'', P h'' ∧ J h'' w1 end) →
  (∀ a, ends h' P (f a)) → ends h P (c ≫= f).
Proof.
  intros Hc Hf w Hw. rewrite bind_unfold. specialize (Hc w Hw). destruct (c w) as [[a|e] w1]; [by apply Hf|by right].
Qed.

Context (fresh : temp_dir E ≠ "" ∧ temp_dir E ∉ D0).

(** The download directory goes. *)
Lemma J_remove h w : h_dir h = true → J h w → J (mkHeld (h_repo h) (h_fetcher h) false (h_node h) (h_plugins h)) (set_dl "" (RemoveAll (d_dl w) w).2).2.
Proof.
  intros Hd (H1 & H2 & H3 & H4). destruct fresh as [Hne Hfr]. destruct h as [r f d n p]. cbn in Hd, H2, H3, H4. subst d.
  unfold J, Daemon.J. cbn. rewrite held_after_snoc, H1. split_and!; [done|done| |by right]. destruct H4 as [-> |[? _]]; [|done]. rewrite H3. set_solver.
Qed.

(** The fetcher [f] and the directory [d] can be given up early. *)
Definition at_most (f d : bool) (h : Held) : Prop := (f = false → h_fetcher h = false) ∧ (d = false → h_dir h = false).
Definition closed_down (f d : bool) (h : Held) : Prop := h_repo h = true ∧ h_node h = false ∧ h_plugins h = false ∧ at_most f d h.

Lemma run_node_ends fetchers cache pin :
  let f := bool_decide (is_Some fetchers) in
  ends (mkHeld true f (cache || pin) false false) (closed_down f (cache || pin)) (run_node o E fetchers cache pin).
Proof.
  intros f. unfold run_node. do 2 (apply ends_bind; [apply stable_msg_of|done|intros ?]). apply ends_bind; [apply stable_throw_if|done|intros _].
  eapply ends_event; [reflexivity|done|done|].
  apply (ends_defer _ _ _ (λ h, h_repo h = true ∧ h_node h = true ∧ at_most f (cache || pin) h)).
  2:{ intros [r f' d n p] w (Hr & Hn & Ha) (H1 & H2 & H3 & H4). cbn in Hr, Hn, H2. subst r n.
      exists (mkHeld true f' d false false). split; [done|]. unfold J, Daemon.J, node_Close. cbn. rewrite H2.
      destruct p; cbn; [change [EvPluginsClose; EvNodeClose] with ([EvPluginsClose] ++ [EvNodeClose]); rewrite app_assoc|];
        rewrite !held_after_snoc, H1; done. }
  apply ends_bind; [apply stable_throw_if|done|intros _].
  eapply (ends_seq _ (mkHeld true f (cache || pin) true true)).
  { intros w (H1 & H2 & H3 & H4). unfold plugins_running. rewrite bind_unfold. unfold J, Daemon.J. cbn. rewrite held_after_snoc, H1. done. }
  intros _. assert (∀ f d, running (mkHeld true f d true true)) as Hrun by done.
  apply ends_bind; [by apply serveHTTPApi_stable|done|intros api].
  apply ends_bind; [stab; by apply mountFuse_stable|done|intros _].
  apply ends_bind; [unfold maybeRunGC; stab; by apply stable_event, hold_use|done|intros gcErrc].
  eapply (ends_seq _ (mkHeld true f false true true)).
  { intros w Hw. destruct (cache || pin) eqn:Hd; [|exact Hw]. rewrite bind_unfold.
    pose proof (stable_print_err E D0 _ _ (addMigrations_stable _ (default [] fetchers) pin (Hrun f true)) w Hw) as Hw1.
    destruct (print_err _ w) as [[u|e] w1]; [|eexists; split; [|exact Hw1]; done]. exact (J_remove (mkHeld true f true true true) w1 eq_refl Hw1). }
  intros _. eapply (ends_seq _ (mkHeld true false false true true)).
  { intros w Hw. unfold f in Hw. destruct fetchers; [|exact Hw]. refine (J_event E D0 _ (mkHeld true false false true true) EvFetcherClose w _ _ _ Hw); done. }
  intros _. apply ends_bind; [by apply serveHTTPGateway_stable|done|intros gw].
  apply ends_bind; [by apply stable_event|done|intros _].
  apply ends_bind; [stab; by apply stable_event|done|intros _].
  apply ends_bind; [by apply stable_event|done|intros _].
  intros w Hw. case_decide; [left; by eexists|]. right. exists (mkHeld true false false true true). by split.
Qed.

Lemma with_repo_ends {A} h (c : DM A) : h_repo h = false → h_node h = false → h_plugins h = false →
  ends (mkHeld true (h_fetcher h) (h_dir h) false false) (closed_down (h_fetcher h) (h_dir h)) c →
  ends h (λ h', h_repo h' = false ∧ h_node h' = false ∧ h_plugins h' = false ∧ at_most (h_fetcher h) (h_dir h) h') (with_repo c).
Proof.
  intros Hr Hn Hp Hc. unfold with_repo. destruct h as [r f d n p]. cbn in *. subst. eapply ends_event; [reflexivity|done|done|].
  eapply ends_defer; [exact Hc|]. intros [r' f' d' n' p'] w (Hr & Hn & Hp & Ha) Hw. cbn in *. subst.
  exists (mkHeld false f' d' false false). split; [done|]. refine (J_event E D0 _ (mkHeld false f' d' false false) EvRepoClose w _ _ _ Hw); done.
Qed.

Lemma maybe_init_stable : stable none_held (maybe_init o E).
Proof. unfold maybe_init. stab. Qed.

Lemma download_dir_ends {A} f d (c : DM A) :
  ends (mkHeld false true true false false) (λ h, h_repo h = false ∧ h_node h = false ∧ h_plugins h = false ∧ at_most f d h) c →
  ends (mkHeld false true false false false) (λ h, h_repo h = false ∧ h_node h = false ∧ h_plugins h = false ∧ h_dir h = false)
    (with_download_dir E true c).
Proof.
  intros Hc w (H1 & H2 & H3 & H4). cbn in H2, H3, H4. unfold with_download_dir. pose proof fresh as [Hne Hfr]. unfold temp_dir in Hne, Hfr.
  rewrite bind_unfold. unfold set_dl, mmodify. cbv beta iota. rewrite bind_unfold. destruct (TempDir E) as [dir|e] eqn:Ht; cbn [msg_of]; try rewrite Ht in Hne, Hfr.
  2:{ right. exists (mkHeld false true false false false). split; [done|]. by split_and!; [..|right]. }
  cbv beta iota in Hne, Hfr. cbv beta iota delta [mret M_ret]. rewrite bind_unfold. cbv beta iota. cbn [d_log d_dirs d_dl d_child].
  apply (ends_defer E D0 _ _ _ _ _ Hc).
  - intros [r f' d' n p] w' (Hr & Hn & Hp & _) (K1 & K2 & K3 & K4). cbn in Hr, Hn, Hp, K2, K3, K4. subst.
    exists (mkHeld false f' false false false). split; [done|]. rewrite bind_unfold. cbn [mget].
    unfold temp_dir in K3, K4. rewrite Ht in K3, K4.
    unfold J, Daemon.J, temp_dir. rewrite Ht. cbv beta iota. case_decide as Hd; cbn [RemoveAll mret M_ret fst snd d_log d_dirs d_dl d_child].
    + rewrite held_after_snoc, K1. split_and!; [done|done| |naive_solver]. cbn. destruct K4 as [-> |[_ ?]]; [|done].
      rewrite K3. destruct d'; set_solver.
    + rewrite Hd in K4.
      destruct K4 as [K4|[-> _]]; [congruence|]. split_and!; [done|done|exact K3|by right].
  - unfold Daemon.J, temp_dir. rewrite Ht. cbn. rewrite held_after_snoc, H1. split_and!; [done|done|by rewrite H3|by left].
Qed.

Lemma migrate_ends : ends none_held (λ h, h = none_held) (migrate_and_run o E).
Proof.
  unfold migrate_and_run. apply ends_if; [by apply ends_stable; [apply stable_throw|]|].
  do 2 (apply ends_bind; [apply stable_msg_of|done|intros ?]). eapply ends_event; [reflexivity|done|done|].
  eapply (ends_defer _ _ _ (λ h, h_repo h = false ∧ h_node h = false ∧ h_plugins h = false ∧ h_dir h = false)).
  2:{ intros [r f d n p] w (Hr & Hn & Hp & Hd) Hw. cbn in *. subst. exists none_held. split; [done|].
      refine (J_event E D0 _ none_held EvFetcherClose w _ _ _ Hw); done. }
  set (cache := bool_decide (a = "cache")). set (pin := negb cache && bool_decide (a = "pin")).
  pose proof (run_node_ends (Some a0) cache pin) as Hrun. cbv zeta in Hrun.
  destruct (cache || pin) eqn:Hw.
  - apply (download_dir_ends true true).
    apply ends_bind; [apply stable_throw_if|done|intros _]. eapply ends_event; [reflexivity|done|done|].
    apply ends_bind; [apply stable_throw_if|done|intros _].
    by apply (with_repo_ends (mkHeld false true true false false)).
  - unfold with_download_dir. intros w HJ.
    assert (ends (mkHeld false true false false false) (λ h, h_repo h = false ∧ h_node h = false ∧ h_plugins h = false ∧ at_most true false h)
      (_ ← throw_if (RunMigration E); _ ← event EvMigrated; _ ← throw_if (OpenAgain E); with_repo (run_node o E (Some a0) cache pin))) as He.
    { apply ends_bind; [apply stable_throw_if|done|intros _]. eapply ends_event; [reflexivity|done|done|].
    apply ends_bind; [apply stable_throw_if|done|intros _].
      by apply (with_repo_ends (mkHeld false true false false false)). }
    destruct (He w HJ) as [?|(h' & (Hr & Hn & Hp & Ha) & Hj)]; [by left|right]. exists h'. destruct Ha. naive_solver.
Qed.

Lemma daemonFunc_ends : ends none_held (λ h, h = none_held) (daemonFunc o E).
Proof.
  unfold daemonFunc. apply ends_bind; [apply maybe_init_stable|done|intros _].
  destruct (Open E) as [_|[|e]]; [|apply migrate_ends|by apply ends_stable; [apply stable_throw|]].
  intros w Hw. destruct (with_repo_ends none_held (run_node o E None false false) eq_refl eq_refl eq_refl (run_node_ends None false false) w Hw)
    as [?|([r f d n p] & (Hr & Hn & Hp & Hf & Hd) & Hw')]; [by left|right]. cbn in *. subst. exists none_held. split; [done|].
  by rewrite (Hf eq_refl), (Hd eq_refl) in Hw'.
Qed.

End runs.

(** C13.  However the daemon ends, but for log.Fatal, it gives back what it took: in its log
    nothing is used without what it needs, the node is closed after its plugins and before
    the repository, the fetcher is closed, and no download directory is left; and it was
    never ready with one, or before its plugins were running. *)
Theorem daemon_discipline o E D0 w :
  temp_dir E ≠ "" → temp_dir E ∉ D0 →
  d_log w = [] → d_dirs w = D0 → d_dl w = "" → d_child w = false →
  (∃ m, (daemonFunc o E w).1 = Err (DFatal m)) ∨
  (held_after (d_log (daemonFunc o E w).2) = Some none_held ∧ d_dirs (daemonFunc o E w).2 = D0).
Proof.
  intros Hne Hfr Hl HD Hdl Hc. destruct (daemonFunc_ends o E D0 (conj Hne Hfr) w) as [[m Hm]|(h & -> & H1 & _ & H3 & _)].
  - split_and!; [by rewrite Hl|done|done|by right].
  - left. by exists m.
  - right. by split.
Qed.

(** ** What is served

    [emits p c]: whatever [c] does and however it ends, its events satisfy [p]. *)

Section emits.
Context (p : DEvent → Prop).

Definition emits {A} (c : DM A) : Prop := ∀ w, ∃ evs, d_log (c w).2 = d_log w ++ evs ∧ Forall p evs.

Lemma emits_bind {A B} (c : DM A) (f : A → DM B) : emits c → (∀ a, emits (f a)) → emits (c ≫= f).
Proof.
  intros Hc Hf w. rewrite bind_unfold. destruct (Hc w) as (l1 & H1 & F1). destruct (c w) as [[a|e] w1]; [|by exists l1].
  destruct (Hf a w1) as (l2 & H2 & F2). exists (l1 ++ l2). cbn in H1. rewrite H2, H1, <- app_assoc. split; [done|by apply Forall_app].
Qed.
Lemma emits_pure {A} (c : DM A) : (∀ w, (c w).2 = w) → emits c.
Proof. intros Hc w. exists []. by rewrite Hc, app_nil_r. Qed.
Lemma emits_ret {A} (a : A) : emits (mret a). Proof. by apply emits_pure. Qed.
Lemma emits_throw {A} (e : DErr) : emits (mthrow e : DM A). Proof. by apply emits_pure. Qed.
Lemma emits_get : emits mget. Proof. by apply emits_pure. Qed.
Lemma emits_throw_if x : emits (throw_if x). Proof. apply emits_pure. by destruct x. Qed.
Lemma emits_msg_of {A} (r : res string A) : emits (msg_of r). Proof. apply emits_pure. by destruct r. Qed.
Lemma emits_wrap {A} pr (r : res string A) : emits (wrap pr r). Proof. apply emits_pure. by destruct r. Qed.
Lemma emits_lift {A} (r : res DErr A) : emits (mlift r). Proof. by apply emits_pure. Qed.
Lemma emits_event e : p e → emits (event e). Proof. intros He w. exists [e]. split; [done|by constructor]. Qed.
Lemma emits_set_dl d : emits (set_dl d). Proof. intros w. exists []. by rewrite app_nil_r. Qed.
Lemma emits_add_child : emits add_child. Proof. intros w. exists []. by rewrite app_nil_r. Qed.
Lemma emits_if {A} (b : bool) (c d : DM A) : emits c → emits d → emits (if b then c else d). Proof. by destruct b. Qed.
Lemma emits_if_dec {A P} `{Decision P} (c d : DM A) : emits c → emits d → emits (if decide P then c else d).
Proof. by case_decide. Qed.
Lemma emits_mfor {A} (l : list A) body : (∀ x, emits (body x)) → emits (mfor l body).
Proof. intros Hb. induction l; [apply emits_ret|]. apply emits_bind; [apply Hb|done]. Qed.
Lemma emits_print_err c : emits c → emits (print_err c).
Proof. intros Hc w. specialize (Hc w). unfold print_err. by destruct (c w) as [[|[]] w']. Qed.
Lemma emits_defer {A} d (c : DM A) : emits c → emits d → emits (with_defer d c).
Proof.
  intros Hc Hd w. unfold with_defer. destruct (Hc w) as (l1 & H1 & F1). destruct (c w) as [r w1]. cbn in H1.
  destruct (Hd w1) as (l2 & H2 & F2).
  assert (∃ evs, d_log (d w1).2 = d_log w ++ evs ∧ Forall p evs) as Hr.
  { exists (l1 ++ l2). rewrite H2, H1, <- app_assoc. split; [done|by apply Forall_app]. }
  destruct r as [a|[m|m|m]]; [exact Hr..|]. by exists l1.
Qed.

End emits.

#[export] Hint Resolve emits_ret emits_throw emits_get emits_throw_if emits_msg_of emits_wrap emits_lift emits_set_dl emits_add_child : daemon.

Lemma emits_bind_wrap {A B} p pr (r : res string A) (f : A → DM B) :
  (∀ a, r = Ok a → emits p (f a)) → emits p (wrap pr r ≫= f).
Proof.
  intros Hf. destruct r as [a|e] eqn:Hr; [|by apply emits_pure]. intros w. exact (Hf a eq_refl w).
Qed.

Ltac emit := repeat
  match goal with
  | |- emits _ (wrap _ _ ≫= _) => apply emits_bind_wrap; intros ? ?
  | |- emits _ (_ ≫= _) => apply emits_bind; [|intros ?]
  | |- emits _ (with_defer _ _) => apply emits_defer
  | |- emits _ (print_err _) => apply emits_print_err
  | |- emits _ (mfor _ _) => apply emits_mfor; intros ?
  | |- emits _ (if decide _ then _ else _) => apply emits_if_dec
  | |- emits _ (if _ then _ else _) => apply emits_if
  | |- emits _ (match ?x with _ => _ end) => destruct x eqn:?
  | |- emits _ (event _) => fail 1
  | |- emits _ _ => solve [eauto 2 with daemon]
  end.

Section served_emits.
Context (o : DOptions) (E : DEnv) (p : DEvent → Prop).
Hypothesis Hother : ∀ e, match e with EvServe _ _ _ | EvPeriodicGC => True | _ => p e end.

Lemma emits_other e : match e with EvServe _ _ _ | EvPeriodicGC => False | _ => True end → emits p (event e).
Proof. intros He. apply emits_event. specialize (Hother e). by destruct e. Qed.

Lemma emits_listen_all s f wh addrs : ∀ known ls, emits p (listen_all E s f wh addrs known ls).
Proof. induction addrs as [|a addrs IH]; intros known ls; cbn [listen_all]; emit; try apply IH; by apply emits_other. Qed.

Lemma emits_serve_all s ls opts : (∀ a, p (EvServe s a opts)) → emits p (serve_all s ls opts).
Proof. intros Hs. induction ls as [|l ls IH]; cbn [serve_all]; emit. by apply emits_event. Qed.

Lemma emits_api : (∀ a cfg, GetConfig E = Ok cfg → p (EvServe "api" a (api_opts o E cfg))) → emits p (serveHTTPApi o E).
Proof.
  intros Hs. unfold serveHTTPApi. emit; try apply emits_listen_all; try by apply emits_other.
  apply emits_serve_all. intros a'. by apply Hs.
Qed.

Lemma emits_gateway : (∀ a cfg, GetConfig E = Ok cfg → p (EvServe "gateway" a (gateway_opts o cfg))) → emits p (serveHTTPGateway o E).
Proof. intros Hs. unfold serveHTTPGateway. emit; [apply emits_listen_all|]. apply emits_serve_all. intros a'. by apply Hs. Qed.
Lemma emits_gc : p EvPeriodicGC → emits p (maybeRunGC o E).
Proof. intros Hp. unfold maybeRunGC. emit. by apply emits_event. Qed.

Lemma emits_rest : emits p (mountFuse o E) ∧ (∀ fs pin, emits p (addMigrations E fs pin)) ∧
  emits p node_Close ∧ (∀ d, emits p (RemoveAll d)) ∧ emits p plugins_running.
Proof.
  split_and!.
  - unfold mountFuse. emit. by apply emits_other.
  - intros fs pin. unfold addMigrations, addMigrationPaths, addMigrationFiles, ipfsGet. emit; by apply emits_other.
  - intros w. exists ((if d_child w then [EvPluginsClose] else []) ++ [EvNodeClose]). split; [done|].
    pose proof (Hother EvPluginsClose). pose proof (Hother EvNodeClose). apply Forall_app. split; [|by constructor].
    destruct (d_child w); by repeat constructor.
  - intros d w. exists [EvRemoveDir d]. split; [done|]. constructor; [exact (Hother (EvRemoveDir d))|constructor].
  - unfold plugins_running. emit. by apply emits_other.
Qed.

Lemma emits_run_node fs cache pin :
  p EvPeriodicGC →
  (∀ a cfg, GetConfig E = Ok cfg → p (EvServe "api" a (api_opts o E cfg))) → (∀ a cfg, GetConfig E = Ok cfg → p (EvServe "gateway" a (gateway_opts o cfg))) →
  emits p (run_node o E fs cache pin).
Proof.
  intros Hp Ha Hg. pose proof (emits_gc Hp) as R2. destruct emits_rest as (R1 & R3 & R4 & R5 & R6). unfold run_node.
  emit; try apply R5; try apply R3; try exact R1; try exact R2; try exact R4; try exact R6; try (by apply emits_api); try (by apply emits_gateway); by apply emits_other.
Qed.

Lemma emits_daemonFunc :
  p EvPeriodicGC →
  (∀ a cfg, GetConfig E = Ok cfg → p (EvServe "api" a (api_opts o E cfg))) → (∀ a cfg, GetConfig E = Ok cfg → p (EvServe "gateway" a (gateway_opts o cfg))) →
  emits p (daemonFunc o E).
Proof.
  intros Hp Ha Hg. pose proof (emits_gc Hp) as R2. destruct emits_rest as (R1 & R3 & R4 & R5 & R6).
  unfold daemonFunc, migrate_and_run, maybe_init, with_repo, with_download_dir.
  emit; try (by apply emits_run_node); try (by apply emits_other); try apply R5.
  all: intros w; eexists; split; [reflexivity|]; constructor; [|constructor]; exact (Hother (EvTempDir _)).
Qed.

End served_emits.

(** A server that offers commands of its own or writes *)
Definition option_writes (x : ServeOption) : bool :=
  match x with CommandsOption => true | GatewayOption writable _ => writable | _ => false end.

(** The paths of a gateway option *)
Definition option_paths (x : ServeOption) : list string := match x with GatewayOption _ paths => paths | _ => [] end.

(** What the daemon serves: the gateway port never offers the commands that change the
    node and never writes unless it was made writable; the API port gives access to
    objects other than those of the web interface only when that was asked for; and on
    both the version of a client is checked before any command it sends. *)
Theorem daemon_serves o E w server addr opts :
  EvServe server addr opts ∈ d_log (daemonFunc o E w).2 → EvServe server addr opts ∉ d_log w →
  (server = "api" ∨ server = "gateway") ∧
  (server = "gateway" → CommandsOption ∉ opts ∧
     (∀ x, x ∈ opts → option_writes x = true →
        o_writable o = Some true ∨ (o_writable o = None ∧ ∃ cfg, GetConfig E = Ok cfg ∧ Gateway_Writable cfg = true))) ∧
  (server = "api" → o_unrestricted o = false →
     CommandsROOption ∉ opts ∧ (∀ x, x ∈ opts → option_writes x = true → x = CommandsOption)) ∧
  (server = "api" → o_unrestricted o = false → ∀ x path, x ∈ opts → path ∈ option_paths x → path ∈ WebUIPaths E) ∧
  (∃ before cmds after, opts = before ++ CheckVersionOption :: cmds :: after ∧ (cmds = CommandsOption ∨ cmds = CommandsROOption) ∧
     CommandsOption ∉ before ∧ CommandsROOption ∉ before).
Proof.
  intros Hin Hnot.
  destruct (emits_daemonFunc o E (λ e, match e with
    | EvServe s a l => (s = "api" ∧ ∃ cfg, GetConfig E = Ok cfg ∧ l = api_opts o E cfg) ∨
                       (s = "gateway" ∧ ∃ cfg, GetConfig E = Ok cfg ∧ l = gateway_opts o cfg)
    | _ => True end)) with w as (evs & Hl & HF); [by intros []|done|by left; eauto|by right; eauto|].
  rewrite Hl, elem_of_app in Hin. destruct Hin as [?|Hin]; [done|]. rewrite Forall_forall in HF. apply HF in Hin as [(-> & cfg & Hc & ->)|(-> & cfg & Hc & ->)].
  - unfold api_opts. split_and!; [by left|done| | |].
    + intros _ Hu. rewrite Hu. split; [case_decide; set_solver|]. intros x Hx Hw. apply elem_of_app in Hx as [Hx|Hx].
      * repeat (apply elem_of_cons in Hx as [->|Hx]; [by try done|]). by apply elem_of_nil in Hx.
      * case_decide; [|by apply elem_of_nil in Hx]. apply list_elem_of_singleton in Hx as ->. done.
    + intros _ Hu x path Hx Hp. rewrite Hu in Hx. apply elem_of_app in Hx as [Hx|Hx].
      * repeat (apply elem_of_cons in Hx as [->|Hx]; [first [by apply elem_of_nil in Hp|exact Hp]|]). by apply elem_of_nil in Hx.
      * case_decide; [|by apply elem_of_nil in Hx]. apply list_elem_of_singleton in Hx as ->. by apply elem_of_nil in Hp.
    + eexists [MetricsCollectionOption "api"; MetricsOpenCensusCollectionOption], CommandsOption, _. split; [reflexivity|].
      split; [by left|]. split; set_solver.
  - unfold gateway_opts. split_and!; [by right| |done|done|].
    + intros _. split; [destruct (P2pHttpProxy cfg); case_decide; set_solver|]. intros x Hx Hw.
      assert (default (Gateway_Writable cfg) (o_writable o) = true) as Hd.
      { repeat (apply elem_of_cons in Hx as [->|Hx]; [by try done|]). exfalso. cbn [app] in Hx.
        repeat (apply elem_of_cons in Hx as [->|Hx]; [by try done|]).
        apply elem_of_app in Hx as [Hx|Hx]; [destruct (P2pHttpProxy cfg)|case_decide]; try (by apply elem_of_nil in Hx);
          apply list_elem_of_singleton in Hx as ->; done. }
      destruct (o_writable o) as [b|]; cbn in Hd; [left; congruence|right]. split; [done|]. by exists cfg.
    + eexists [MetricsCollectionOption "gateway"; HostnameOption; GatewayOption _ _; VersionOption], CommandsROOption, _. split; [reflexivity|].
      split; [by right|]. split; set_solver.
Qed.

(** ** The errors the daemon returns *)

Definition served (server : string) (l : list DEvent) : list string :=
  l ≫= λ e, match e with EvServe s a _ => if decide (s = server) then [a] else [] | _ => [] end.
Definition collected (l : list DEvent) : nat := length (filter (λ e, e = EvPeriodicGC) l).

(** An event that starts nothing that can fail later *)
Definition quiet (e : DEvent) : Prop := match e with EvServe _ _ _ | EvPeriodicGC => False | _ => True end.

Abbreviation Tally := (list string * list string * nat)%type.
Definition tally (l : list DEvent) : Tally := (served "api" l, served "gateway" l, collected l).
Definition tplus (t1 t2 : Tally) : Tally := (t1.1.1 ++ t2.1.1, t1.1.2 ++ t2.1.2, t1.2 + t2.2).
Definition tzero : Tally := ([], [], 0).

Lemma tally_app l1 l2 : tally (l1 ++ l2) = tplus (tally l1) (tally l2).
Proof. unfold tally, served, collected. by rewrite !bind_app, filter_app, length_app. Qed.
Lemma tplus_zero_l t : tplus tzero t = t. Proof. by destruct t as [[? ?] ?]. Qed.
Lemma tplus_zero_r t : tplus t tzero = t. Proof. destruct t as [[? ?] ?]. unfold tplus. cbn. by rewrite !app_nil_r, Nat.add_0_r. Qed.

Lemma tally_quiet l : Forall quiet l → tally l = tzero.
Proof. induction 1 as [|e l He _ IH]; [done|]. change (e :: l) with ([e] ++ l). rewrite tally_app, IH, tplus_zero_r. by destruct e. Qed.

Lemma tally_served s ls opts :
  tally ((λ a, EvServe s a opts) <$> ls) = (if decide (s = "api") then ls else [], if decide (s = "gateway") then ls else [], 0).
Proof.
  induction ls as [|a ls IH]; [by repeat case_decide|]. rewrite fmap_cons.
  change (tally ([EvServe s a opts] ++ ((λ a, EvServe s a opts) <$> ls)) = (if decide (s = "api") then a :: ls else [], if decide (s = "gateway") then a :: ls else [], 0)).
  rewrite tally_app, IH. unfold tally, served, collected, tplus. cbn. by repeat case_decide.
Qed.

Lemma serve_all_log s ls opts : ∀ w, (serve_all s ls opts w).1 = Ok () ∧ d_log (serve_all s ls opts w).2 = d_log w ++ ((λ a, EvServe s a opts) <$> ls).
Proof.
  induction ls as [|l ls IH]; intros w; cbn [serve_all]; [by rewrite app_nil_r|]. rewrite bind_unfold. unfold event, mmodify. cbv beta iota.
  destruct (IH (mkDW (d_log w ++ [EvServe s l opts]) (d_dirs w) (d_dl w) (d_child w))) as [-> ->]. cbn [d_log]. by rewrite fmap_cons, <- app_assoc.
Qed.

(** A computation that succeeds adds events whose tally goes with its result. *)
Definition adds {A} (R : A → Tally → Prop) (c : DM A) : Prop :=
  ∀ w a w', c w = (Ok a, w') → ∃ evs, d_log w' = d_log w ++ evs ∧ R a (tally evs).

Lemma adds_bind {A B} R1 (R : B → Tally → Prop) (c : DM A) (f : A → DM B) :
  adds R1 c → (∀ a t1, R1 a t1 → adds (λ b t, R b (tplus t1 t)) (f a)) → adds R (c ≫= f).
Proof.
  intros Hc Hf w b w' Hr. apply bind_ok in Hr as (a & w1 & Ha & Hb). destruct (Hc _ _ _ Ha) as (l1 & H1 & T1).
  destruct (Hf _ _ T1 _ _ _ Hb) as (l2 & H2 & T2). exists (l1 ++ l2). by rewrite H2, H1, <- app_assoc, tally_app.
Qed.

(** A quiet part first *)
Lemma adds_after {A B} (R : B → Tally → Prop) (c : DM A) (f : A → DM B) : emits quiet c → (∀ a, adds R (f a)) → adds R (c ≫= f).
Proof.
  intros Hc Hf w b w' Hr. apply bind_ok in Hr as (a & w1 & Ha & Hb). destruct (Hc w) as (l1 & H1 & F1). rewrite Ha in H1. cbn in H1.
  destruct (Hf _ _ _ _ Hb) as (l2 & H2 & T2). exists (l1 ++ l2). by rewrite H2, H1, <- app_assoc, tally_app, (tally_quiet l1), tplus_zero_l.
Qed.
Lemma adds_defer {A} R d (c : DM A) : adds R c → emits quiet d → adds R (with_defer d c).
Proof.
  intros Hc Hd w a w' Hr. unfold with_defer in Hr. destruct (c w) as [[x|[]] w1] eqn:Hw; try done. injection Hr as -> <-.
  destruct (Hc _ _ _ Hw) as (l1 & H1 & T1). destruct (Hd w1) as (l2 & H2 & F2). exists (l1 ++ l2).
  by rewrite H2, H1, <- app_assoc, tally_app, (tally_quiet l2), tplus_zero_r.
Qed.
Lemma adds_err {A} R (c : DM A) : (∀ w, is_err (c w).1 = true) → adds R c.
Proof. intros Hc w a w' Hr. specialize (Hc w). by rewrite Hr in Hc. Qed.

Lemma quiet_other e : match e with EvServe _ _ _ | EvPeriodicGC => True | _ => quiet e end. Proof. by destruct e. Qed.

Section errors.
Context (o : DOptions) (E : DEnv).

Lemma adds_serve s ls opts : adds (λ r t, r = ls ∧ t = (if decide (s = "api") then ls else [], if decide (s = "gateway") then ls else [], 0))
  (_ ← serve_all s ls opts; mret ls).
Proof.
  intros w a w' Hr. destruct (serve_all_log s ls opts w) as [H1 H2]. rewrite bind_unfold in Hr. destruct (serve_all s ls opts w) as [r w1].
  cbn in H1, H2. subst r. injection Hr as <- <-. eexists. split; [exact H2|]. split; [done|apply tally_served].
Qed.

Lemma adds_api : adds (λ ls t, t = (ls, [], 0)) (serveHTTPApi o E).
Proof.
  unfold serveHTTPApi. do 2 (apply adds_after; [apply emits_wrap|intros ?]). apply adds_after; [apply emits_listen_all, quiet_other|intros ls].
  apply adds_after; [apply emits_wrap|intros _]. destruct ls as [|l ls]; [by apply adds_err|].
  apply adds_after; [apply emits_wrap|intros _]. apply adds_after; [by apply emits_event|intros _].
  intros w r w' Hr. apply adds_serve in Hr as (evs & He & -> & Ht). by exists evs.
Qed.

Lemma adds_gateway : adds (λ ls t, t = ([], ls, 0)) (serveHTTPGateway o E).
Proof.
  unfold serveHTTPGateway. do 2 (apply adds_after; [apply emits_wrap|intros ?]). apply adds_after; [apply emits_listen_all, quiet_other|intros ls].
  apply adds_after; [apply emits_wrap|intros _]. intros w r w' Hr. apply adds_serve in Hr as (evs & He & -> & Ht). by exists evs.
Qed.

Lemma adds_gc : adds (λ c t, t = ([], [], match c with Some _ => 1 | None => 0 end) ∧ (∀ l, c = Some l → l = [PeriodicGC E])) (maybeRunGC o E).
Proof.
  unfold maybeRunGC. destruct (o_enableGC o).
  - intros w c w' Hr. rewrite bind_unfold in Hr. injection Hr as <- <-. exists [EvPeriodicGC]. split; [done|]. split; [done|naive_solver].
  - intros w c w' Hr. injection Hr as <- <-. exists []. by rewrite app_nil_r.
Qed.

(** The errors of what was started *)
Definition errors_of (t : Tally) : list string :=
  omap (Serve E "api") t.1.1 ++ omap (Serve E "gateway") t.1.2 ++ (if decide (t.2 = 0) then [] else option_list (PeriodicGC E)).

Hypothesis Hmerge : ∀ cs, merged cs (merge_order E cs).

Lemma omap_perm {A B} (f : A → option B) (l1 l2 : list A) : l1 ≡ₚ l2 → omap f l1 ≡ₚ omap f l2.
Proof. induction 1; cbn; repeat case_match; by (repeat constructor) || (etransitivity; eauto). Qed.

Lemma omap_id_fmap {A B} (f : A → option B) (l : list A) : omap id (f <$> l) = omap f l.
Proof. induction l as [|x l IH]; [done|]. cbn. rewrite IH. done. Qed.

Lemma adds_run_node fs cache pin : adds (λ errs t, errs ≡ₚ errors_of t) (run_node o E fs cache pin).
Proof.
  destruct (emits_rest o E quiet quiet_other) as (R1 & R3 & R4 & R5 & R6).
  unfold run_node. do 2 (apply adds_after; [apply emits_msg_of|intros ?]). apply adds_after; [apply emits_throw_if|intros _].
  apply adds_after; [by apply emits_event|intros _]. apply adds_defer; [|exact R4].
  apply adds_after; [apply emits_throw_if|intros _]. apply adds_after; [exact R6|intros _].
  eapply adds_bind; [apply adds_api|]. intros api t1 ->.
  apply adds_after; [emit|intros _].
  eapply adds_bind; [apply adds_gc|]. intros gc t2 [-> Hgc].
  apply adds_after; [emit|intros _].
  apply adds_after; [emit; try by apply emits_event|intros _].
  eapply adds_bind; [apply adds_gateway|]. intros gw t3 ->.
  do 3 (apply adds_after; [emit; try by apply emits_event|intros _]). apply adds_after; [emit|intros _].
  intros w errs w' Hr. injection Hr as <- <-. exists []. split; [by rewrite app_nil_r|].
  destruct (merged_values _ _ (Hmerge ([Serve E "api" <$> api; Serve E "gateway" <$> gw] ++ match gc with Some c => [c] | None => [] end)))
    as [Hp _].
  rewrite (omap_perm _ _ _ Hp). unfold errors_of, tplus. cbn [fst snd concat app]. rewrite !app_nil_r. cbn [app].
  rewrite !omap_app, !omap_id_fmap. do 2 apply Permutation_app_head. destruct gc as [l|]; [|done].
  rewrite (Hgc l eq_refl). cbn. by destruct (PeriodicGC E).
Qed.

Lemma adds_daemonFunc : adds (λ errs t, errs ≡ₚ errors_of t) (daemonFunc o E).
Proof.
  destruct (emits_rest o E quiet quiet_other) as (R1 & R3 & R4 & R5 & R6).
  unfold daemonFunc, migrate_and_run, maybe_init, with_repo, with_download_dir.
  apply adds_after; [emit; by apply emits_event|intros _].
  destruct (Open E) as [_|[|e]]; [| |by apply adds_err].
  - apply adds_after; [by apply emits_event|intros _]. apply adds_defer; [apply adds_run_node|by apply emits_event].
  - cbv zeta. match goal with |- adds _ (if ?b then _ else _) => destruct b end; [by apply adds_err|].
    do 2 (apply adds_after; [apply emits_msg_of|intros ?]).
    apply adds_after; [by apply emits_event|intros _]. apply adds_defer; [|by apply emits_event].
    assert (∀ fs cache pin, adds (λ errs t, errs ≡ₚ errors_of t)
      (_ ← throw_if (RunMigration E); _ ← event EvMigrated; _ ← throw_if (OpenAgain E); _ ← event EvOpen;
       with_defer (event EvRepoClose) (run_node o E fs cache pin))) as Hr.
    { intros fs cache pin. apply adds_after; [apply emits_throw_if|intros _]. apply adds_after; [by apply emits_event|intros _].
      apply adds_after; [apply emits_throw_if|intros _]. apply adds_after; [by apply emits_event|intros _].
      apply adds_defer; [apply adds_run_node|by apply emits_event]. }
    match goal with |- adds _ (if ?b then _ else _) => destruct b end; [|apply Hr]. apply adds_after; [apply emits_set_dl|intros _].
    apply adds_after; [apply emits_msg_of|intros dir]. apply adds_after; [|intros _].
    + intros w. eexists [_]. split; [reflexivity|by repeat constructor].
    + apply adds_defer; [apply Hr|emit].
Qed.

(** When the daemon returns without failing, its error is made of the errors of the
    servers it started and of the collector, each once and in some order: none is lost
    and none comes from elsewhere. *)
Theorem daemon_errors w errs w' :
  daemonFunc o E w = (Ok errs, w') →
  ∃ evs, d_log w' = d_log w ++ evs ∧
    errs ≡ₚ omap (Serve E "api") (served "api" evs) ++ omap (Serve E "gateway") (served "gateway" evs) ++
      (if decide (EvPeriodicGC ∈ evs) then option_list (PeriodicGC E) else []).
Proof.
  intros Hr. apply adds_daemonFunc in Hr as (evs & Hl & Hp). exists evs. split; [done|]. rewrite Hp. unfold errors_of, tally. cbn [fst snd].
  do 2 apply Permutation_app_head. unfold collected. destruct (decide (EvPeriodicGC ∈ evs)) as [Hin|Hin].
  - rewrite decide_False; [done|]. intros Hn%length_zero_iff_nil. exact (filter_nil_not_elem_of _ evs EvPeriodicGC Hn eq_refl Hin).
  - rewrite decide_True; [done|]. apply length_zero_iff_nil. destruct (filter (λ e, e = EvPeriodicGC) evs) as [|x l] eqn:Hf; [done|].
    destruct Hin. assert (x ∈ filter (λ e, e = EvPeriodicGC) evs) as Hx by (rewrite Hf; by left).
    by apply list_elem_of_filter in Hx as [-> ?].
Qed.

End errors.

(** ** Listening *)

Section listening.
Context (o : DOptions) (E : DEnv).

Lemma listen_all_ok s f wh addrs : ∀ known ls w ls' w',
  listen_all E s f wh addrs known ls w = (Ok ls', w') →
  ∃ new : list (string * string), ls' = ls ++ new.*2 ∧ NoDup new.*1 ∧ (∀ m l, (m, l) ∈ new → m ∉ known ∧ Listen E m = Ok l) ∧
    (∀ a, a ∈ addrs → ∃ m, NewMultiaddr E a = Ok m ∧ (m ∈ known ∨ m ∈ new.*1)) ∧
    (∀ m, m ∈ new.*1 → ∃ a, a ∈ addrs ∧ NewMultiaddr E a = Ok m) ∧
    d_log w' = d_log w ++ (EvListen s <$> new.*2).
Proof.
  induction addrs as [|a addrs IH]; intros known ls w ls' w' Hr; cbn [listen_all] in Hr.
  { injection Hr as <- <-. exists []. cbn. rewrite !app_nil_r.
    split_and!; [done|constructor|by intros ? ? ?%elem_of_nil|by intros ? ?%elem_of_nil|by intros ? ?%elem_of_nil|done]. }
  apply bind_ok in Hr as (m & w1 & Hm & Hr). destruct (NewMultiaddr E a) as [m'|] eqn:Ha; [|done]. injection Hm as -> ->.
  case_decide as Hk.
  - destruct (IH _ _ _ _ _ Hr) as (new & -> & Hnd & Hnew & Hall & Hfrom & Hl). exists new. split_and!; [done..| | |done].
    + intros b [->|Hb]%elem_of_cons; [exists m; auto|by apply Hall].
    + intros x Hx. destruct (Hfrom x Hx) as (b & ? & ?). exists b. split; [by right|done].
  - apply bind_ok in Hr as (l & w2 & Hl & Hr). destruct (Listen E m) as [l'|] eqn:Hli; [|done]. injection Hl as -> ->.
    apply bind_ok in Hr as (u & w3 & Hu & Hr). injection Hu as _ <-.
    destruct (IH _ _ _ _ _ Hr) as (new & -> & Hnd & Hnew & Hall & Hfrom & Hl). exists ((m, l) :: new). split_and!.
    + rewrite fmap_cons, <- app_assoc. done.
    + rewrite fmap_cons. constructor; [|done]. intros Hin. apply list_elem_of_fmap in Hin as ([m2 l2] & Heq & Hin). cbn in Heq. subst m2.
      apply Hnew in Hin as [Hin _]. apply Hin, elem_of_union. left. by apply elem_of_singleton.
    + intros m2 l2 [[= -> ->]|Hin]%elem_of_cons; [done|]. apply Hnew in Hin as [Hin ?]. split; [|done]. intros Hk2. apply Hin, elem_of_union. by right.
    + intros b [->|Hb]%elem_of_cons; [exists m; split; [done|right; by left]|]. destruct (Hall b Hb) as (x & Hx & Hor). exists x. split; [done|].
      rewrite fmap_cons, elem_of_cons. destruct Hor as [[->%elem_of_singleton|?]%elem_of_union|?]; [by right; left|by left|by right; right].
    + intros x Hx. rewrite fmap_cons in Hx. apply elem_of_cons in Hx as [->|Hx]; [exists a; split; [by left|done]|].
      destruct (Hfrom x Hx) as (b & ? & ?). exists b. split; [by right|done].
    + cbn [d_log] in Hl. rewrite Hl, fmap_cons, <- app_assoc. done.
Qed.

Definition no_serve (e : DEvent) : Prop := match e with EvServe _ _ _ => False | _ => True end.
Lemma no_serve_other e : match e with EvServe _ _ _ | EvPeriodicGC => True | _ => no_serve e end. Proof. by destruct e. Qed.

Lemma listen_all_err s f wh addrs : ∀ known ls w e w', listen_all E s f wh addrs known ls w = (Err e, w') → ∃ m, e = DMsg m.
Proof.
  induction addrs as [|a addrs IH]; intros known ls w e w' Hr; cbn [listen_all] in Hr; [done|].
  rewrite bind_unfold in Hr. destruct (NewMultiaddr E a) as [m|]; cbn [wrap] in Hr; [|injection Hr as <- _; eexists; reflexivity].
  cbv beta iota delta [mret M_ret] in Hr. case_decide; [by eapply IH|].
  rewrite bind_unfold in Hr. destruct (Listen E m) as [l|]; cbn [wrap] in Hr; [|injection Hr as <- _; eexists; reflexivity].
  cbv beta iota delta [mret M_ret] in Hr. rewrite bind_unfold in Hr. cbn in Hr. by eapply IH.
Qed.

(** The API server listens on every address it is configured with, once however often it
    is named, besides the sockets it was passed, serves on all of them, and makes the first
    known to the commands; with no address at all it panics. *)
Theorem serveHTTPApi_exact w :
  match serveHTTPApi o E w with
  | (Ok listeners, w') => ∃ cfg taken (new : list (string * string)) first rest,
      GetConfig E = Ok cfg ∧ TakeListeners E "io.ipfs.api" = Ok taken ∧ listeners = taken ++ new.*2 ∧ listeners = first :: rest ∧
      NoDup new.*1 ∧ (∀ m l, (m, l) ∈ new → m ∉ taken ∧ Listen E m = Ok l) ∧
      (∀ a, a ∈ (if decide (o_api o = "") then Addresses_API cfg else [o_api o]) →
         ∃ m, NewMultiaddr E a = Ok m ∧ (m ∈ taken ∨ m ∈ new.*1)) ∧
      d_log w' = d_log w ++ (EvListen "api" <$> new.*2) ++ EvSetAPIAddr first :: ((λ a, EvServe "api" a (api_opts o E cfg)) <$> listeners)
  | (Err (DPanic _), w') => TakeListeners E "io.ipfs.api" = Ok [] ∧ o_api o = "" ∧ ∃ cfg, GetConfig E = Ok cfg ∧ Addresses_API cfg = []
  | (Err (DFatal _), _) => False
  | (Err (DMsg _), w') => ∀ a opts, EvServe "api" a opts ∈ d_log w' → EvServe "api" a opts ∈ d_log w
  end.
Proof.
  assert (∀ evs w', d_log w' = d_log w ++ evs → Forall no_serve evs →
    ∀ a opts, EvServe "api" a opts ∈ d_log w' → EvServe "api" a opts ∈ d_log w) as Hold.
  { intros evs w' -> HF a opts [?|Hin]%elem_of_app; [done|]. rewrite Forall_forall in HF. by apply HF in Hin. }
  unfold serveHTTPApi. rewrite bind_unfold. destruct (GetConfig E) as [cfg|e] eqn:Hc; cbv beta iota delta [wrap mthrow M_throw mret M_ret]; [|done].
  rewrite bind_unfold. destruct (TakeListeners E "io.ipfs.api") as [taken|e] eqn:Ht; cbv beta iota delta [wrap mthrow M_throw mret M_ret]; [|done].
  rewrite bind_unfold. set (addrs := if decide (o_api o = "") then Addresses_API cfg else [o_api o]).
  destruct (emits_listen_all E no_serve no_serve_other "api" "serveHTTPApi" "API" addrs (list_to_set taken) taken w) as (evs & He & HF).
  destruct (listen_all E "api" "serveHTTPApi" "API" addrs (list_to_set taken) taken w) as [[ls|e] w1] eqn:Hl; cbn [snd] in He.
  2:{ destruct (listen_all_err _ _ _ _ _ _ _ _ _ Hl) as [m ->]. by eapply Hold. }
  apply listen_all_ok in Hl as (new & -> & Hnd & Hnew & Hall & _ & Hlog). rewrite bind_unfold.
  destruct (ConstructNode E) as [e|]; cbv beta iota delta [wrap mthrow M_throw mret M_ret]; [by eapply Hold|].
  destruct (taken ++ new.*2) as [|first rest] eqn:Hls.
  { apply app_nil in Hls as [-> Hn]. destruct new; [|done].
    destruct addrs as [|a addrs'] eqn:Haddrs; [|destruct (Hall a ltac:(by left)) as (x & _ & [Hx|Hx]); [by apply not_elem_of_empty in Hx|by apply elem_of_nil in Hx]].
    unfold addrs in Haddrs. case_decide as Hd; [|done]. split_and!; [done|done|by exists cfg]. }
  rewrite bind_unfold. destruct (SetAPIAddr E first) as [e|]; cbv beta iota delta [wrap mthrow M_throw mret M_ret]; [by eapply Hold|].
  rewrite bind_unfold. cbn [event mmodify]. rewrite bind_unfold.
  destruct (serve_all_log "api" (first :: rest) (api_opts o E cfg) (mkDW (d_log w1 ++ [EvSetAPIAddr first]) (d_dirs w1) (d_dl w1) (d_child w1))) as [H1 H2].
  destruct (serve_all "api" (first :: rest) _ _) as [r w2]. cbn [fst snd] in H1, H2. subst r.
  exists cfg, taken, new, first, rest. split_and!; [done|done|by rewrite Hls|done|done| | |].
  - intros m l Hin. destruct (Hnew m l Hin) as [Hm Hli]. split; [|done]. intros ?. by apply Hm, elem_of_list_to_set.
  - intros a Ha. destruct (Hall a Ha) as (m & Hm & Hor). exists m. split; [done|]. by rewrite elem_of_list_to_set in Hor.
  - rewrite H2. cbn [d_log]. rewrite Hlog, <- !app_assoc. done.
Qed.

End listening.

(** ** The question *)

(** The answer after [k] more scans *)
Fixpoint answer (s : string) (l : list (option string)) (k : nat) : string :=
  let s := match l with Some t :: _ => t | _ => s end in
  match k with 0 => s | S k => answer s (tail l) k end.

Definition yes (s : string) : Prop := s = "y" ∨ s = "Y".
Definition decided (s : string) : Prop := s ∈ ["y"; "Y"; "n"; "N"; ""].

Lemma ask_spec tries : ∀ s l, ask tries s l = true ↔ ∃ k, k < tries ∧ yes (answer s l k) ∧ ∀ i, i < k → ¬ decided (answer s l i).
Proof.
  induction tries as [|tries IH]; intros s l; [split; [done|intros (k & ? & _); lia]|]. cbn [ask]. cbv zeta.
  set (t := match l with Some t :: _ => t | _ => s end).
  assert (answer s l 0 = t) as H0 by (by destruct l as [|[]]).
  assert (∀ k, answer s l (S k) = answer t (tail l) k) as HS by done.
  destruct (decide (t = "y" ∨ t = "Y")) as [Hy|Hy].
  { split; [|done]. intros _. exists 0. rewrite H0. split_and!; [lia|exact Hy|intros; lia]. }
  assert (decided t → false = true ↔ ∃ k, k < S tries ∧ yes (answer s l k) ∧ ∀ i, i < k → ¬ decided (answer s l i)) as Hdec.
  { intros Hd. split; [done|]. intros ([|k] & _ & Hk & Hno); [by rewrite H0 in Hk|]. specialize (Hno 0 ltac:(lia)). by rewrite H0 in Hno. }
  destruct (decide (t = "n" ∨ t = "N")) as [Hn|Hn]; [apply Hdec; unfold decided; destruct Hn as [-> | ->]; set_solver|].
  destruct (decide (t = "")) as [He|He]; [apply Hdec; rewrite He; unfold decided; set_solver|]. rewrite IH. split.
  - intros (k & Hk & Hyk & Hno). exists (S k). split_and!; [lia|by rewrite HS|]. intros [|i] Hi.
    + rewrite H0. unfold decided. rewrite !elem_of_cons, elem_of_nil. tauto.
    + rewrite HS. apply Hno. lia.
  - intros ([|k] & Hk & Hyk & Hno); [by rewrite H0 in Hyk|]. exists k. split_and!; [lia|by rewrite <- HS|].
    intros i Hi. rewrite <- HS. apply Hno. lia.
Qed.

(** Migrations are run only on a clear yes: the first of at most three answers that is
    one, an empty answer or the end of the input counting as no. *)
Theorem YesNoPrompt_exact l :
  YesNoPrompt l = true ↔ ∃ k, k < 3 ∧ yes (answer "" l k) ∧ ∀ i, i < k → ¬ decided (answer "" l i).
Proof. apply ask_spec. Qed.

(** ** Examples *)

Module DaemonExample.

Definition cfg : DConfig := mkDConfig None (Some true) "" ["/ip4/127.0.0.1/tcp/5001"; "/ip4/127.0.0.1/tcp/5001"] ["/ip4/127.0.0.1/tcp/8080"]
  false "" false "/ipfs" "/ipns" ["peer"] [].
Definition no_addrs : DConfig := mkDConfig None None "" [] [] false "" false "/ipfs" "/ipns" [] [].
Definition opts : DOptions := mkDOptions false "" "" "default" false None None None false false true None None None false "".

(** A repository that needs a migration, which the user agrees to *)
Definition env (c : DConfig) (open : res OpenErr unit) (reuseport : string) : DEnv := {|
  IsInitialized := true; LoadConf _ := None; CreateIdentity := None; InitWithIdentity := None; doInit _ := None;
  Open := open; Scanf := [Some "what"; None; Some "y"]; ReadMigrationConfig := Ok "cache"; GetMigrationFetcher := Ok [HttpFetcher];
  TempDir := Ok "/tmp/migrations1"; RunMigration := None; OpenAgain := None; repo_Config := Ok c; NewNode := None; Plugins_Start := None;
  GetConfig := Ok c; TakeListeners _ := Ok []; NewMultiaddr a := Ok a; Listen m := Ok m; WebUIPaths := ["/ipfs/webui"]; ConstructNode := None;
  SetAPIAddr _ := None; Mount _ _ := None; NewCoreAPI := None; Connect := None; pin_Add _ := None; ufs_Get _ := None;
  Walk d := [WDir d; WFile (d +:+ "/m1"); WFile (d +:+ "/m2")]; ufs_Add p := if decide (p = "/tmp/migrations1/m2") then Some "no space" else None;
  mint_account := Some "fsv1"; IPFS_REUSEPORT := reuseport;
  Serve s a := if decide (s = "gateway") then Some "accept: closed" else None; PeriodicGC := Some "gc failed"; merge_order := @concat _ |}.
Definition w0 : DW := mkDW [] ∅ "" false.
Definition full_run := daemonFunc opts (env cfg (Err ErrNeedMigration) "") w0.

End DaemonExample.

Import DaemonExample.

(** The order of a run *)
Lemma daemon_order : full_run.1 = Ok ["accept: closed"; "gc failed"] ∧
  (λ e, match e with EvServe s a _ => EvListen s ("serving " +:+ a) | e => e end) <$> d_log full_run.2 =
  [EvFetcher; EvTempDir "/tmp/migrations1"; EvMigrated; EvOpen; EvNode "dht" false true true true; EvPlugins;
   EvListen "api" "/ip4/127.0.0.1/tcp/5001"; EvSetAPIAddr "/ip4/127.0.0.1/tcp/5001"; EvListen "api" "serving /ip4/127.0.0.1/tcp/5001";
   EvPeriodicGC; EvAddFile "/tmp/migrations1/m1" false; EvRemoveDir "/tmp/migrations1"; EvFetcherClose;
   EvListen "gateway" "/ip4/127.0.0.1/tcp/8080"; EvListen "gateway" "serving /ip4/127.0.0.1/tcp/8080"; EvPinMFS; EvWallet "fsv1"; EvReady;
   EvPluginsClose; EvNodeClose; EvRepoClose; EvFetcherClose].
Proof. split; vm_compute; reflexivity. Qed.

(** With no API address the daemon panics, after the node is closed again. *)
Lemma api_panics : ∃ m w', daemonFunc opts (env no_addrs (Ok ()) "") w0 = (Err (DPanic m), w') ∧ held_after (d_log w') = Some none_held.
Proof. eexists _, _. split; vm_compute; reflexivity. Qed.

(** With IPFS_REUSEPORT set it exits when all is running: node and repository stay open. *)
Lemma reuseport_leaves_open : ∃ m w', daemonFunc opts (env cfg (Ok ()) "1") w0 = (Err (DFatal m), w') ∧
  held_after (d_log w') = Some (mkHeld true false false true true).
Proof. eexists _, _. split; vm_compute; reflexivity. Qed.

(** The check a minute later panics when the configuration cannot be read. *)
Lemma check_peers_panics E e peers : GetConfig E = Err e → ∃ m, check_peers E peers = Err (DPanic m).
Proof. intros He. unfold check_peers. rewrite He. by eexists. Qed.

Lemma daemon_discipline_witness :
  held_after (d_log full_run.2) = Some none_held ∧ d_dirs full_run.2 = ∅.
Proof.
  destruct (daemon_discipline opts (env cfg (Err ErrNeedMigration) "") ∅ w0 ltac:(discriminate) ltac:(apply not_elem_of_empty)
    eq_refl eq_refl eq_refl eq_refl) as [[m Hm]|H]; [|exact H].
  exfalso. assert (is_ok full_run.1 = true) as Hok by (vm_compute; reflexivity). unfold full_run in Hok. by rewrite Hm in Hok.
Defined.

Lemma daemon_errors_witness : ∃ evs, d_log full_run.2 = evs ∧
  ["accept: closed"; "gc failed"] ≡ₚ omap (Serve (env cfg (Err ErrNeedMigration) "") "api") (served "api" evs) ++
    omap (Serve (env cfg (Err ErrNeedMigration) "") "gateway") (served "gateway" evs) ++ (if decide (EvPeriodicGC ∈ evs) then ["gc failed"] else []).
Proof.
  assert (full_run = (Ok ["accept: closed"; "gc failed"], full_run.2)) as Hr.
  { rewrite (surjective_pairing full_run) at 1. f_equal. }
  destruct (daemon_errors opts (env cfg (Err ErrNeedMigration) "") merged_concat w0 _ _ Hr) as (evs & Hl & Hp).
  exists evs. split; [exact Hl|exact Hp].
Defined.

Lemma daemon_serves_witness :
  let opts := [MetricsCollectionOption "gateway"; HostnameOption; GatewayOption false ["/ipfs"; "/ipns"]; VersionOption; CheckVersionOption; CommandsROOption] in
  EvServe "gateway" "/ip4/127.0.0.1/tcp/8080" opts ∈ d_log full_run.2 ∧ CommandsOption ∉ opts.
Proof.
  cbv zeta. assert (EvServe "gateway" "/ip4/127.0.0.1/tcp/8080" [MetricsCollectionOption "gateway"; HostnameOption; GatewayOption false ["/ipfs"; "/ipns"];
    VersionOption; CheckVersionOption; CommandsROOption] ∈ d_log full_run.2) as Hin by (apply (bool_decide_unpack _); vm_compute; exact I).
  split; [exact Hin|].
  destruct (daemon_serves opts (env cfg (Err ErrNeedMigration) "") w0 _ _ _ Hin) as (_ & Hg & _); [apply not_elem_of_nil|]. by apply Hg.
Defined.
