(* ===== verification/CliContext.v ===== *)
(** * The context of commands and the request log (commands/context.go, commands/reqlog.go)

    A context loads the configuration and builds the node and its API when they are first
    asked for.  The log of requests holds pointers: an entry that is finished is changed
    where it is, and stale entries are squeezed out of the slice in place. *)

From Stdlib Require Import ZArith Ascii String Sorted.
From stdpp Require Import base gmap sets list strings sorting.
From S2P Require Import Prelude.

(** ** The context *)

Section context.
Context {Config Node Api : Type}.

(** The functions of a context: loading the configuration, building a node, the
    configuration of a node's repository (with its error), and building an API *)
Record CtxEnv := mkCtxEnv {
  LoadConfig : option (nat → res string Config);
  ConstructNode : option (nat → res string Node);
  repo_Config : Node → res string Config;
  NewCoreAPI : Node → bool → res string Api;
  NoFetch : Config → bool;
  is_Gateway : bool;
}.

(** What the context keeps, and how often it called LoadConfig and ConstructNode *)
Record Ctx := mkCtx { c_config : option Config; c_node : option Node; c_api : option Api; c_loads : nat; c_builds : nat }.

Context (E : CtxEnv).
Abbreviation C := (M Ctx string).

(** GetConfig: what it returns besides an error is the configuration or nil. *)
Definition GetConfig : C Config := λ c,
  match c_config c with
  | Some cfg => (Ok cfg, c)
  | None =>
      match LoadConfig E with
      | None => (Err "nil LoadConfig function", c)
      | Some load =>
          match load (c_loads c) with
          | Ok cfg => (Ok cfg, mkCtx (Some cfg) (c_node c) (c_api c) (S (c_loads c)) (c_builds c))
          | Err e => (Err e, mkCtx None (c_node c) (c_api c) (S (c_loads c)) (c_builds c))
          end
      end
  end.

Definition GetConfigNoCache : C Config := λ c,
  match LoadConfig E with
  | None => (Err "panic: invalid memory address or nil pointer dereference", c)
  | Some load => (load (c_loads c), mkCtx (c_config c) (c_node c) (c_api c) (S (c_loads c)) (c_builds c))
  end.

(** GetNode: the configuration is replaced, by nil, only when reading it failed. *)
Definition GetNode : C Node := λ c,
  match c_node c with
  | Some n => (Ok n, c)
  | None =>
      match ConstructNode E with
      | None => (Err "nil ConstructNode function", c)
      | Some construct =>
          match construct (c_builds c) with
          | Err e => (Err e, mkCtx (c_config c) None (c_api c) (c_loads c) (S (c_builds c)))
          | Ok n =>
              let cfg := match repo_Config E n with Err _ => None | Ok _ => c_config c end in
              (Ok n, mkCtx cfg (Some n) (c_api c) (c_loads c) (S (c_builds c)))
          end
      end
  end.

Definition GetAPI : C Api := λ c,
  match c_api c with
  | Some api => (Ok api, c)
  | None =>
      (n ← GetNode;
       fetchBlocks ← (if is_Gateway E then cfg ← GetConfig; mret (negb (NoFetch E cfg)) else mret true);
       api ← mlift (NewCoreAPI E n fetchBlocks);
       _ ← mmodify (λ c, mkCtx (c_config c) (c_node c) (Some api) (c_loads c) (c_builds c));
       mret api) c
  end.

(** Context: the node, whose context it gives, or none for the background *)
Definition Context_ : M Ctx string (option Node) := λ c,
  match GetNode c with (Ok n, c') => (Ok (Some n), c') | (Err _, c') => (Ok None, c') end.

(** Close: the node it closes, if any *)
Definition Close (c : Ctx) : option Node := c_node c.

(** What holds of every context: it has a node when a build succeeded, and an API only
    with a node *)
Definition ctx_wf (c : Ctx) : Prop := is_Some (c_api c) → is_Some (c_node c).

Inductive Call := CallConfig | CallConfigNoCache | CallNode | CallAPI | CallContext.
Definition call (x : Call) (c : Ctx) : Ctx :=
  match x with
  | CallConfig => (GetConfig c).2 | CallConfigNoCache => (GetConfigNoCache c).2 | CallNode => (GetNode c).2
  | CallAPI => (GetAPI c).2 | CallContext => (Context_ c).2
  end.
Definition calls (xs : list Call) (c : Ctx) : Ctx := foldl (λ c x, call x c) c xs.

Lemma GetConfig_node c : c_node (GetConfig c).2 = c_node c ∧ c_builds (GetConfig c).2 = c_builds c ∧ c_api (GetConfig c).2 = c_api c.
Proof. unfold GetConfig. by repeat case_match. Qed.

(** A context that has a node keeps it, and builds no other. *)
Definition keeps_node (n : Node) (b : nat) (c : Ctx) : Prop := c_node c = Some n ∧ c_builds c = b.

Lemma GetNode_kept n b c : keeps_node n b c → GetNode c = (Ok n, c).
Proof. intros [Hn _]. unfold GetNode. by rewrite Hn. Qed.

Lemma GetAPI_kept n b c : keeps_node n b c → keeps_node n b (GetAPI c).2.
Proof.
  intros Hk. unfold GetAPI. destruct (c_api c); [done|]. rewrite bind_unfold, (GetNode_kept n b) by done. rewrite bind_unfold.
  destruct (is_Gateway E).
  - rewrite bind_unfold. pose proof (GetConfig_node c) as (H1 & H2 & _). destruct (GetConfig c) as [[cfg|e] c1]; cbn in H1, H2.
    + cbv beta iota delta [mret M_ret]. rewrite bind_unfold. unfold mlift. destruct Hk as [K1 K2].
      destruct (NewCoreAPI E n _); split; rewrite ?bind_unfold; cbn; congruence.
    + destruct Hk. split; cbn; congruence.
  - cbv beta iota delta [mret M_ret]. rewrite bind_unfold. unfold mlift. by destruct (NewCoreAPI E n true).
Qed.

Lemma call_keeps n b x c : keeps_node n b c → keeps_node n b (call x c).
Proof.
  intros Hk. destruct x; cbn.
  - pose proof (GetConfig_node c) as (H1 & H2 & _). destruct Hk as [K1 K2]. split; congruence.
  - unfold GetConfigNoCache. destruct Hk as [K1 K2]. destruct (LoadConfig E); by split.
  - by rewrite (GetNode_kept _ _ _ Hk).
  - by apply GetAPI_kept.
  - unfold Context_. by rewrite (GetNode_kept _ _ _ Hk).
Qed.

Lemma calls_keep n b xs : ∀ c, keeps_node n b c → keeps_node n b (calls xs c).
Proof. induction xs as [|x xs IH]; intros c Hk; [done|]. cbn. by apply IH, call_keeps. Qed.

(** A context builds one node at most that it uses: once GetNode succeeded every call
    gives the same node, whatever is called in between, and none is built again. *)
Theorem context_one_node c n c1 xs :
  GetNode c = (Ok n, c1) → GetNode (calls xs c1) = (Ok n, calls xs c1) ∧ c_builds (calls xs c1) = c_builds c1 ∧
    Close (calls xs c1) = Some n.
Proof.
  intros Hg. assert (keeps_node n (c_builds c1) c1) as Hk.
  { split; [|done]. revert Hg. unfold GetNode. repeat case_match; intros [= <- <-]; done. }
  pose proof (calls_keep n _ xs c1 Hk) as Hx. split_and!; [by eapply GetNode_kept|by destruct Hx|by destruct Hx].
Qed.

(** A gateway context gives an API that fetches blocks only as its configuration says,
    and any other context one that fetches; a configuration once loaded is used. *)
Theorem GetAPI_fetches c api c' :
  c_api c = None → GetAPI c = (Ok api, c') →
  ∃ n fetch, c_node c' = Some n ∧ NewCoreAPI E n fetch = Ok api ∧ c_api c' = Some api ∧
    if is_Gateway E then ∃ cfg, c_config c' = Some cfg ∧ fetch = negb (NoFetch E cfg) else fetch = true.
Proof.
  intros Hn Hg. unfold GetAPI in Hg. rewrite Hn in Hg. apply bind_ok in Hg as (n & c1 & Hg1 & Hg).
  assert (c_node c1 = Some n) as Hc1 by (revert Hg1; unfold GetNode; repeat case_match; intros [= <- <-]; done).
  apply bind_ok in Hg as (fetch & c2 & Hf & Hg). apply bind_ok in Hg as (a & c3 & Ha & Hg). apply bind_ok in Hg as (u & c4 & Hu & Hg).
  injection Hg as -> <-. injection Hu as _ <-. unfold mlift in Ha. injection Ha as Ha ->. exists n, fetch. cbn.
  destruct (is_Gateway E).
  - apply bind_ok in Hf as (cfg & c5 & Hc & Hf). injection Hf as <- ->. pose proof (GetConfig_node c1) as (H1 & _). rewrite Hc in H1. cbn in H1.
    split_and!; [congruence|done|done|]. exists cfg. split; [|done]. revert Hc. unfold GetConfig. repeat case_match; intros [= <- <-]; done.
  - injection Hf as <- <-. done.
Qed.

End context.

Arguments Ctx : clear implicits. Arguments CtxEnv : clear implicits.

(** ** The request log *)

(** ReqLogEntry; [options] and [args] are not looked at. *)
Record Entry := mkEntry { StartTime : Z; EndTime : Z; Active : bool; Command : string; ID : nat }.

(** ReqLog and the entries pointers point to *)
Record ReqLog := mkLog { Requests : list positive; nextID : nat; keep : Z; heap : gmap positive Entry }.

Definition entry_at (l : ReqLog) (p : positive) : option Entry := heap l !! p.

(** The loop of cleanup: [i] entries are kept at the front, [j] is looked at next. *)
Definition stays (now keep : Z) (h : gmap positive Entry) (p : positive) : bool :=
  match h !! p with Some e => Active e || (now <? EndTime e + keep)%Z | None => false end.

Fixpoint squeeze (now keep : Z) (h : gmap positive Entry) (n i j : nat) (rs : list positive) : nat * list positive :=
  match n with
  | 0 => (i, rs)
  | S n =>
      match rs !! j with
      | Some rj => if stays now keep h rj then squeeze now keep h n (S i) (S j) (<[i := rj]> rs) else squeeze now keep h n i (S j) rs
      | None => (i, rs)
      end
  end.

Definition cleanup (now : Z) (l : ReqLog) : ReqLog :=
  let '(i, rs) := squeeze now (keep l) (heap l) (length (Requests l)) 0 0 (Requests l) in
  mkLog (take i rs) (nextID l) (keep l) (heap l).

Definition maybeCleanup (now : Z) (l : ReqLog) : ReqLog :=
  if decide (length (Requests l) mod 10 = 0) then cleanup now l else l.

(** AddEntry of a pointer; the log is kept when the pointer is nil and it panics. *)
Definition AddEntry (now : Z) (rle : option positive) (l : ReqLog) : res string ReqLog :=
  match rle with
  | Some p =>
      match heap l !! p with
      | Some e =>
          let e' := mkEntry (StartTime e) (EndTime e) (Active e) (Command e) (nextID l) in
          let l' := mkLog (Requests l ++ [p]) (S (nextID l)) (keep l) (<[p := e']> (heap l)) in
          Ok (if negb (Active e) then maybeCleanup now l' else l')
      | None => Err "panic: invalid memory address or nil pointer dereference"
      end
  | None => Err "panic: invalid memory address or nil pointer dereference"
  end.

Definition ClearInactive (now : Z) (l : ReqLog) : ReqLog :=
  let l' := cleanup now (mkLog (Requests l) (nextID l) 0 (heap l)) in
  mkLog (Requests l') (nextID l') (keep l) (heap l').

Definition SetKeepTime (t : Z) (l : ReqLog) : ReqLog := mkLog (Requests l) (nextID l) t (heap l).

(** Report: copies *)
Definition Report (l : ReqLog) : list Entry := omap (entry_at l) (Requests l).

Definition Finish (now : Z) (p : positive) (l : ReqLog) : ReqLog :=
  match heap l !! p with
  | Some e =>
      maybeCleanup now (mkLog (Requests l) (nextID l) (keep l) (<[p := mkEntry (StartTime e) now false (Command e) (ID e)]> (heap l)))
  | None => l
  end.

(** Context.LogRequest: a new active entry, and the function that finishes it *)
Definition LogRequest (now : Z) (Command : string) (l : ReqLog) : res string (positive * ReqLog) :=
  let p := fresh (dom (heap l)) in
  l' ← AddEntry now (Some p) (mkLog (Requests l) (nextID l) (keep l) (<[p := mkEntry now 0 true Command 0]> (heap l)));
  Ok (p, l').

(** *** The loop in place is a filter *)

Lemma squeeze_filter now k h n : ∀ i j rs, i ≤ j → j + n = length rs →
  let '(i', rs') := squeeze now k h n i j rs in
  take i' rs' = take i rs ++ filter (λ p, stays now k h p = true) (drop j rs).
Proof.
  induction n as [|n IH]; intros i j rs Hij Hn; cbn [squeeze].
  { rewrite drop_ge by lia. by rewrite app_nil_r. }
  destruct (lookup_lt_is_Some_2 rs j) as [rj Hj]; [lia|]. rewrite Hj, (drop_S rs rj j Hj), filter_cons.
  destruct (stays now k h rj) eqn:Hs.
  - specialize (IH (S i) (S j) (<[i:=rj]> rs)). rewrite length_insert in IH. specialize (IH ltac:(lia) ltac:(lia)).
    destruct (squeeze _ _ _ _ _ _ _) as [i' rs']. rewrite IH. rewrite decide_True by done.
    rewrite (take_S_r _ _ rj) by (apply list_lookup_insert_eq; apply lookup_lt_Some in Hj; lia).
    rewrite take_insert_ge by lia. rewrite <- app_assoc. cbn. f_equal. f_equal. f_equal. apply drop_insert_lt. lia.
  - specialize (IH i (S j) rs ltac:(lia) ltac:(lia)). destruct (squeeze _ _ _ _ _ _ _) as [i' rs']. rewrite IH. by rewrite decide_False.
Qed.

Lemma cleanup_filter now l :
  cleanup now l = mkLog (filter (λ p, stays now (keep l) (heap l) p = true) (Requests l)) (nextID l) (keep l) (heap l).
Proof.
  unfold cleanup. pose proof (squeeze_filter now (keep l) (heap l) (length (Requests l)) 0 0 (Requests l) ltac:(lia) ltac:(lia)) as Hs.
  destruct (squeeze _ _ _ _ _ _ _) as [i rs]. by rewrite Hs.
Qed.

(** *** The log over its life *)

Inductive LogOp := OpRequest (now : Z) (cmd : string) | OpFinish (now : Z) (p : positive) | OpClear (now : Z) | OpKeep (t : Z).
Definition log_step (o : LogOp) (l : ReqLog) : ReqLog :=
  match o with
  | OpRequest now cmd => match LogRequest now cmd l with Ok (_, l') => l' | Err _ => l end
  | OpFinish now p => Finish now p l
  | OpClear now => ClearInactive now l
  | OpKeep t => SetKeepTime t l
  end.
Definition log_run (os : list LogOp) (l : ReqLog) : ReqLog := foldl (λ l o, log_step o l) l os.
Definition new_log (keep : Z) : ReqLog := mkLog [] 0 keep ∅.

(** The listed pointers point to entries, whose IDs increase and are below the next one;
    an entry that is active is listed. *)
Record log_wf (l : ReqLog) : Prop := {
  wf_listed : Forall (λ p, is_Some (entry_at l p)) (Requests l);
  wf_ids : StronglySorted lt (ID <$> Report l);
  wf_next : Forall (λ e, ID e < nextID l) (Report l);
  wf_active p e : entry_at l p = Some e → Active e → p ∈ Requests l;
}.

Lemma sublist_all {A} (P : A → Prop) l1 l2 : l1 `sublist_of` l2 → Forall P l2 → Forall P l1.
Proof. induction 1; intros Hf; [done|inversion Hf; constructor; auto|inversion Hf; auto]. Qed.

Lemma sublist_sorted {A} (R : A → A → Prop) l1 l2 : l1 `sublist_of` l2 → StronglySorted R l2 → StronglySorted R l1.
Proof.
  induction 1 as [|x l1 l2 Hs IH|x l1 l2 Hs IH]; intros Hf; [done| |]; inversion Hf; subst; [|auto].
  constructor; [auto|by eapply sublist_all].
Qed.

Lemma sublist_map {A B} (f : A → B) l1 l2 : l1 `sublist_of` l2 → (f <$> l1) `sublist_of` (f <$> l2).
Proof. induction 1; cbn; by constructor. Qed.

(** Keeping some of the pointers keeps a sublist of what is reported. *)
Lemma omap_filter_sublist (h : gmap positive Entry) (P : positive → Prop) `{∀ p, Decision (P p)} rs :
  omap (λ p, h !! p) (filter P rs) `sublist_of` omap (λ p, h !! p) rs.
Proof.
  induction rs as [|p rs IH]; [done|]. rewrite filter_cons. case_decide; cbn; destruct (h !! p); try done.
  - by apply sublist_skip.
  - by apply sublist_cons.
Qed.

Lemma cleanup_wf now l : log_wf l → log_wf (cleanup now l).
Proof.
  intros [Hl Hi Hn Ha]. rewrite cleanup_filter.
  assert (Report (mkLog (filter (λ p, stays now (keep l) (heap l) p = true) (Requests l)) (nextID l) (keep l) (heap l)) `sublist_of` Report l)
    as Hs by apply omap_filter_sublist.
  constructor.
  - apply Forall_forall. intros p [_ Hp]%list_elem_of_filter. rewrite Forall_forall in Hl. by apply Hl.
  - eapply sublist_sorted; [|exact Hi]. by apply sublist_map.
  - eapply sublist_all; [exact Hs|exact Hn].
  - intros p e He Hact. apply list_elem_of_filter. split; [|by eapply Ha]. unfold stays. unfold entry_at in He. cbn in He. rewrite He.
    by destruct (Active e).
Qed.

Lemma maybeCleanup_wf now l : log_wf l → log_wf (maybeCleanup now l).
Proof. intros Hl. unfold maybeCleanup. case_decide; [by apply cleanup_wf|done]. Qed.

Lemma omap_lookup_insert_ne (h : gmap positive Entry) p e (rs : list positive) :
  p ∉ rs → omap (λ q, <[p := e]> h !! q) rs = omap (λ q, h !! q) rs.
Proof.
  induction rs as [|q rs IH]; intros Hn; [done|]. cbn. rewrite lookup_insert_ne by (intros ->; apply Hn; left).
  rewrite IH; [done|]. intros Hi. apply Hn. by right.
Qed.

(** A new entry is listed last, with the next ID. *)
Lemma LogRequest_eq now cmd l :
  LogRequest now cmd l =
  Ok (fresh (dom (heap l)), mkLog (Requests l ++ [fresh (dom (heap l))]) (S (nextID l)) (keep l)
        (<[fresh (dom (heap l)) := mkEntry now 0 true cmd (nextID l)]> (heap l))).
Proof. unfold LogRequest, AddEntry. cbn. rewrite lookup_insert_eq. cbn. by rewrite insert_insert_eq. Qed.

Lemma LogRequest_entry now cmd l p l' : LogRequest now cmd l = Ok (p, l') → heap l' !! p = Some (mkEntry now 0 true cmd (nextID l)).
Proof. rewrite LogRequest_eq. intros [= <- <-]. cbn. apply lookup_insert_eq. Qed.

Lemma LogRequest_wf now cmd l p l' : log_wf l → LogRequest now cmd l = Ok (p, l') → log_wf l'.
Proof.
  intros [Hl Hi Hn Ha] Hr. rewrite LogRequest_eq in Hr. injection Hr as <- <-. set (p := fresh (dom (heap l))).
  assert (heap l !! p = None) as Hp by (apply not_elem_of_dom, is_fresh).
  assert (p ∉ Requests l) as Hnp.
  { intros Hin. rewrite Forall_forall in Hl. destruct (Hl p Hin) as [e He]. unfold entry_at in He. congruence. }
  assert (Report (mkLog (Requests l ++ [p]) (S (nextID l)) (keep l) (<[p := mkEntry now 0 true cmd (nextID l)]> (heap l)))
    = Report l ++ [mkEntry now 0 true cmd (nextID l)]) as Hrep.
  { unfold Report, entry_at. cbn. rewrite omap_app. cbn. rewrite lookup_insert_eq. by rewrite omap_lookup_insert_ne. }
  constructor.
  - unfold entry_at. cbn. apply Forall_app. split; [|constructor; [by rewrite lookup_insert_eq|done]].
    eapply Forall_impl; [exact Hl|]. intros q Hq. rewrite lookup_insert_is_Some'. by right.
  - rewrite Hrep, fmap_app. apply StronglySorted_app_2; [|exact Hi|repeat constructor].
    intros x y [e [-> He]]%list_elem_of_fmap ->%list_elem_of_singleton. cbn. rewrite Forall_forall in Hn. by apply Hn.
  - rewrite Hrep. cbn. apply Forall_app. split; [|repeat constructor]. eapply Forall_impl; [exact Hn|]. cbn. lia.
  - intros q e. unfold entry_at. cbn. destruct (decide (q = p)) as [->|Hq]; [intros _ _; apply elem_of_app; right; left|].
    rewrite lookup_insert_ne by done. intros He Hact. apply elem_of_app. left. by eapply Ha.
Qed.

Lemma omap_insert_ID (h : gmap positive Entry) p e e' (rs : list positive) :
  h !! p = Some e → ID e' = ID e → ID <$> omap (λ q, <[p := e']> h !! q) rs = ID <$> omap (λ q, h !! q) rs.
Proof.
  intros He Hid. induction rs as [|q rs IH]; [done|]. cbn. destruct (decide (q = p)) as [->|Hq].
  - rewrite lookup_insert_eq, He. cbn. by rewrite IH, Hid.
  - rewrite lookup_insert_ne by done. destruct (h !! q); cbn; by rewrite IH.
Qed.

Lemma Finish_wf now p l : log_wf l → log_wf (Finish now p l).
Proof.
  intros [Hl Hi Hn Ha]. unfold Finish. destruct (heap l !! p) as [e|] eqn:He; [|done]. apply maybeCleanup_wf.
  set (l' := mkLog _ _ _ _). assert (ID <$> Report l' = ID <$> Report l) as Hid 
    by exact (omap_insert_ID (heap l) p e (mkEntry (StartTime e) now false (Command e) (ID e)) (Requests l) He eq_refl).
  constructor.
  - eapply Forall_impl; [exact Hl|]. intros q Hq. unfold entry_at. cbn. rewrite lookup_insert_is_Some'. by right.
  - by rewrite Hid.
  - apply (Forall_fmap ID (λ i, i < nextID l)). rewrite Hid. by apply Forall_fmap.
  - intros q e'. unfold entry_at. cbn. destruct (decide (q = p)) as [->|Hq]; [rewrite lookup_insert_eq; by intros [= <-]|].
    rewrite lookup_insert_ne by done. apply Ha.
Qed.

Lemma log_wf_keep l t : log_wf l → log_wf (mkLog (Requests l) (nextID l) t (heap l)).
Proof. intros [A B C D]. constructor; [exact A|exact B|exact C|exact D]. Qed.

Lemma log_step_wf o l : log_wf l → log_wf (log_step o l).
Proof.
  intros Hl. destruct o; unfold log_step.
  - destruct (LogRequest now cmd l) as [[p l']|e] eqn:Hr; [by eapply LogRequest_wf|done].
  - by apply Finish_wf.
  - exact (log_wf_keep _ _ (cleanup_wf now _ (log_wf_keep _ 0 Hl))).
  - by apply log_wf_keep.
Qed.

Lemma log_run_wf os : ∀ l, log_wf l → log_wf (log_run os l).
Proof. induction os as [|o os IH]; intros l Hl; [done|]. cbn. by apply IH, log_step_wf. Qed.

(** Only finishing an entry changes it. *)
Lemma log_step_heap o l p e :
  heap l !! p = Some e → (∀ now, o ≠ OpFinish now p) → heap (log_step o l) !! p = Some e.
Proof.
  intros He Ho. destruct o; unfold log_step.
  - rewrite LogRequest_eq. cbn. rewrite lookup_insert_ne; [done|]. intros Hp. pose proof (is_fresh (dom (heap l))) as Hf.
    rewrite Hp in Hf. apply Hf. by apply elem_of_dom_2 in He.
  - unfold Finish. destruct (heap l !! p0) eqn:Hp0; [|done]. unfold maybeCleanup. case_decide; rewrite ?cleanup_filter; cbn;
      (rewrite lookup_insert_ne; [done|]); intros ->; by eapply Ho.
  - unfold ClearInactive. by rewrite cleanup_filter.
  - done.
Qed.

Lemma log_run_heap os p e : ∀ l, heap l !! p = Some e → (∀ now, OpFinish now p ∉ os) → heap (log_run os l) !! p = Some e.
Proof.
  induction os as [|o os IH]; intros l He Ho; [done|]. cbn. apply IH.
  - apply log_step_heap; [done|]. intros now ->. by eapply Ho; left.
  - intros now Hin. by eapply Ho; right.
Qed.

(** The request log never loses a request that runs, whatever is logged, finished or
    cleared around it, and numbers what it reports in the order of arrival: a request that
    was logged and not finished is reported, active and under the ID it got. *)
Theorem reqlog_keeps_active t os1 os2 now cmd p l' :
  LogRequest now cmd (log_run os1 (new_log t)) = Ok (p, l') → (∀ now', OpFinish now' p ∉ os2) →
  StronglySorted lt (ID <$> Report (log_run os2 l')) ∧
  mkEntry now 0 true cmd (nextID (log_run os1 (new_log t))) ∈ Report (log_run os2 l').
Proof.
  intros Hr Ho. assert (log_wf (new_log t)) as H0 by (constructor; cbn; by try constructor).
  pose proof (log_run_wf os1 _ H0) as H1. pose proof (LogRequest_wf _ _ _ _ _ H1 Hr) as H2. pose proof (log_run_wf os2 _ H2) as H3.
  split; [apply H3|]. pose proof (log_run_heap os2 _ _ _ (LogRequest_entry _ _ _ _ _ Hr) Ho) as Hh.
  apply list_elem_of_omap. exists p. split; [|exact Hh]. by eapply wf_active.
Qed.

Lemma omap_filter_active now (h : gmap positive Entry) (rs : list positive) :
  (∀ p e, p ∈ rs → h !! p = Some e → (EndTime e ≤ now)%Z) →
  omap (λ p, h !! p) (filter (λ p, stays now 0 h p = true) rs) = filter (λ e, Active e = true) (omap (λ p, h !! p) rs).
Proof.
  induction rs as [|p rs IH]; intros He; [done|]. rewrite filter_cons. specialize (IH ltac:(intros q e Hq; apply He; by right)).
  cbn [omap list_omap]. destruct (h !! p) as [e|] eqn:Hp.
  - pose proof (He p e ltac:(left) Hp) as Hend. assert (stays now 0 h p = Active e) as Hs.
    { unfold stays. rewrite Hp, (proj2 (Z.ltb_ge _ _)) by lia. apply orb_false_r. }
    rewrite Hs, filter_cons. destruct (Active e); [|done]. rewrite !decide_True by done. cbn. rewrite Hp. by f_equal.
  - assert (stays now 0 h p = false) as -> by (unfold stays; by rewrite Hp). done.
Qed.

(** Clearing the log leaves exactly the requests that run, in their order, and changes
    neither the time finished ones are kept for nor the next ID. *)
Theorem ClearInactive_exact now l :
  (∀ e, e ∈ Report l → (EndTime e ≤ now)%Z) →
  Report (ClearInactive now l) = filter (λ e, Active e = true) (Report l) ∧
  keep (ClearInactive now l) = keep l ∧ nextID (ClearInactive now l) = nextID l.
Proof.
  intros He. unfold ClearInactive. rewrite cleanup_filter. split; [|done]. unfold Report, entry_at. cbn. apply omap_filter_active.
  intros p e Hp Hh. apply He, list_elem_of_omap. by exists p.
Qed.

(** Where the code asks whether the entry is nil it has already written to it. *)
Theorem AddEntry_nil_panics now l : AddEntry now None l = Err "panic: invalid memory address or nil pointer dereference".
Proof. done. Qed.

(** ** Witnesses *)

(** A context on a repository whose configuration is "cfg", whose builds number the nodes *)
Definition sample_env (gateway : bool) : CtxEnv string nat (nat * bool) :=
  mkCtxEnv (Some (λ _, Ok "cfg")) (Some (λ b, Ok b)) (λ _, Ok "cfg") (λ n f, Ok (n, f)) (λ cfg, String.eqb cfg "cfg") gateway.
Definition fresh_ctx : Ctx string nat (nat * bool) := mkCtx None None None 0 0.

Lemma context_one_node_witness :
  GetNode (sample_env true) (calls (sample_env true) [CallAPI; CallConfig] (GetNode (sample_env true) fresh_ctx).2) =
    (Ok 0, calls (sample_env true) [CallAPI; CallConfig] (GetNode (sample_env true) fresh_ctx).2).
Proof. refine (proj1 (context_one_node (sample_env true) fresh_ctx 0 _ _ _)). reflexivity. Defined.

Lemma GetAPI_fetches_witness :
  (GetAPI (sample_env true) fresh_ctx).1 = Ok (0, false) ∧
  ∃ n fetch, c_node (GetAPI (sample_env true) fresh_ctx).2 = Some n ∧ NewCoreAPI (sample_env true) n fetch = Ok (0, false) ∧
    c_api (GetAPI (sample_env true) fresh_ctx).2 = Some (0, false) ∧
    ∃ cfg, c_config (GetAPI (sample_env true) fresh_ctx).2 = Some cfg ∧ fetch = negb (NoFetch (sample_env true) cfg).
Proof. split; [reflexivity|]. apply (GetAPI_fetches (sample_env true) fresh_ctx); reflexivity. Defined.

(** Of two requests the first ends while the second runs, and the log is cleared. *)
Definition first_done : list LogOp := [OpRequest 10 "cat"; OpFinish 12 1].
Definition clears : list LogOp := [OpFinish 20 1; OpClear 21; OpKeep 5].

Lemma reqlog_keeps_active_witness :
  ∃ p l', LogRequest 13 "refs" (log_run first_done (new_log 3600)) = Ok (p, l') ∧
    StronglySorted lt (ID <$> Report (log_run clears l')) ∧ mkEntry 13 0 true "refs" 1 ∈ Report (log_run clears l').
Proof.
  eexists _, _. split; [apply LogRequest_eq|]. eapply (reqlog_keeps_active 3600 first_done clears 13 "refs"); [apply LogRequest_eq|].
  intros now' Hin. vm_compute in Hin. repeat (apply elem_of_cons in Hin as [Hin|Hin]; [discriminate|]). by apply elem_of_nil in Hin.
Defined.

Lemma ClearInactive_exact_witness :
  Report (ClearInactive 30 (log_run (first_done ++ [OpRequest 13 "refs"]) (new_log 3600))) = [mkEntry 13 0 true "refs" 1].
Proof.
  refine (eq_trans (proj1 (ClearInactive_exact 30 (log_run (first_done ++ [OpRequest 13 "refs"]) (new_log 3600)) _)) _); [|reflexivity].
  apply Forall_forall. vm_compute. repeat constructor; discriminate.
Defined.
