(* ===== verification/Serve.v ===== *)
(** * The HTTP servers (core/corehttp)

    A server is put together from options, each of which registers handlers on a mux and
    says which mux the next one registers on: an option may put itself in front of all
    that follow.  The muxes are shared and written to while the server is built, so they
    are cells of a store here; a request is then routed through them to the commands, the
    gateway or one of the small handlers. *)

From Stdlib Require Import ZArith Ascii String Sorted.
From stdpp Require Import base gmap sets list strings sorting.
From S2P Require Import Prelude GoStrings GoFS Hostname Keys Daemon.

(** ** Header names *)

(** Bytes of a header name (RFC 7230) *)
Definition is_upper (c : ascii) : bool := (65 <=? nat_of_ascii c) && (nat_of_ascii c <=? 90).
Definition is_lower (c : ascii) : bool := (97 <=? nat_of_ascii c) && (nat_of_ascii c <=? 122).
Definition is_digit (c : ascii) : bool := (48 <=? nat_of_ascii c) && (nat_of_ascii c <=? 57).
Definition validHeaderFieldByte (c : ascii) : bool :=
  is_upper c || is_lower c || is_digit c || has_char c "!#$%&'*+-.^_`|~".

Definition to_upper (c : ascii) : ascii := if is_lower c then ascii_of_nat (nat_of_ascii c - 32) else c.
Definition to_lower (c : ascii) : ascii := if is_upper c then ascii_of_nat (nat_of_ascii c + 32) else c.

Fixpoint canonical_from (upper : bool) (s : string) : string :=
  match s with
  | EmptyString => EmptyString
  | String c s =>
      let c := if upper then to_upper c else to_lower c in
      String c (canonical_from (bool_decide (c = "-"%char)) s)
  end.

(** http.CanonicalHeaderKey *)
Definition CanonicalHeaderKey (s : string) : string := if sforall validHeaderFieldByte s then canonical_from true s else s.

(** strings.ToLower, on the bytes of ASCII *)
Fixpoint ToLower (s : string) : string := match s with EmptyString => EmptyString | String c s => String (to_lower c) (ToLower s) end.

(** cleanHeaderSet: the keys of a map, sorted *)
Definition cleanHeaderSet (headers : list string) : list string :=
  merge_sort string_le (elements (list_to_set (CanonicalHeaderKey <$> headers) : gset string)).

(** ** The configuration of the commands' handler *)

(** ServerConfig and the part of the CORS options it holds (go-ipfs-cmds/http/config.go) *)
Record ServerConfig := mkServerConfig {
  APIPath : string; sHeaders : gmap string (list string); AllowGet : bool;
  AllowedOrigins : list string; AllowedMethods : list string; AllowCredentials : bool;
}.

(** The headers of a configuration, in the order its map is gone through; a value may be nil. *)
Abbreviation ConfigHeaders := (list (string * option (list string))).
Definition header_at (h : string) (hs : ConfigHeaders) : option (list string) := mjoin ((list_to_map hs : gmap string _) !! h).

Definition ACAOrigin := "Access-Control-Allow-Origin".
Definition ACAMethods := "Access-Control-Allow-Methods".
Definition ACACredentials := "Access-Control-Allow-Credentials".

Definition NewServerConfig : ServerConfig := mkServerConfig "" ∅ false [] [] false.
Definition SetAllowedOrigins (o : list string) (c : ServerConfig) : ServerConfig :=
  mkServerConfig (APIPath c) (sHeaders c) (AllowGet c) o (AllowedMethods c) (AllowCredentials c).
Definition SetAllowedMethods (m : list string) (c : ServerConfig) : ServerConfig :=
  mkServerConfig (APIPath c) (sHeaders c) (AllowGet c) (AllowedOrigins c) m (AllowCredentials c).
Definition SetAllowCredentials (b : bool) (c : ServerConfig) : ServerConfig :=
  mkServerConfig (APIPath c) (sHeaders c) (AllowGet c) (AllowedOrigins c) (AllowedMethods c) b.
Definition SetHeaders (h : gmap string (list string)) (c : ServerConfig) : ServerConfig :=
  mkServerConfig (APIPath c) h (AllowGet c) (AllowedOrigins c) (AllowedMethods c) (AllowCredentials c).

Definition CurrentVersionNumber : string := "0.11.0".
Definition ApiVersion : string := "/go-ipfs/" +:+ CurrentVersionNumber +:+ "/".

(** addCORSFromEnv, given the value of API_ORIGIN *)
Definition addCORSFromEnv (origin : string) (c : ServerConfig) : ServerConfig :=
  if decide (origin ≠ "") then SetAllowedOrigins (AllowedOrigins c ++ [origin]) c else c.

(** addHeadersFromConfig *)
Definition copy_header (m : gmap string (list string)) (hv : string * option (list string)) : gmap string (list string) :=
  let h := CanonicalHeaderKey hv.1 in
  if decide (h ∈ [ACAOrigin; ACAMethods; ACACredentials]) then m else <[h := default [] hv.2]> m.

Definition addHeadersFromConfig (hs : ConfigHeaders) (c : ServerConfig) : ServerConfig :=
  let c := match header_at ACAOrigin hs with Some acao => SetAllowedOrigins acao c | None => c end in
  let c := match header_at ACAMethods hs with Some acam => SetAllowedMethods acam c | None => c end in
  let c := foldl (λ c v, SetAllowCredentials (bool_decide (ToLower v = "true")) c) c (default [] (header_at ACACredentials hs)) in
  SetHeaders (<["Server" := ["go-ipfs/" +:+ CurrentVersionNumber]]> (foldl copy_header ∅ hs)) c.

Definition defaultLocalhostOrigins : list string :=
  ["http://127.0.0.1:<port>"; "https://127.0.0.1:<port>"; "http://[::1]:<port>"; "https://[::1]:<port>";
   "http://localhost:<port>"; "https://localhost:<port>"].

Definition addCORSDefaults (c : ServerConfig) : ServerConfig :=
  let c := match AllowedOrigins c with [] => SetAllowedOrigins defaultLocalhostOrigins c | _ => c end in
  match AllowedMethods c with [] => SetAllowedMethods ["GET"; "POST"; "PUT"] c | _ => c end.

(** A net.Addr: one of TCP or UDP has a port *)
Inductive NetAddr := TCPAddr (Port : Z) | UDPAddr (Port : Z) | OtherAddr.

Definition addr_port (addr : NetAddr) : string := match addr with TCPAddr p | UDPAddr p => Itoa p | OtherAddr => "" end.
Definition patch_origin (port o : string) : string := if decide (port ≠ "") then ReplaceAll o "<port>" port else o.
Definition patchCORSVars (addr : NetAddr) (c : ServerConfig) : ServerConfig :=
  SetAllowedOrigins (patch_origin (addr_port addr) <$> AllowedOrigins c) c.

(** ** Muxes and handlers *)

Inductive Handler :=
  | HCollect (child : nat)                     (** metrics around a mux *)
  | HCheckVersion (child : nat)
  | HHostname (child : nat)
  | HCommands (ro : bool) (cfg : ServerConfig)
  | HGateway (writable : bool) (headers : gmap string (list string))
  | HRedirect (to : string)
  | HVersion
  | HDefaultMux
  | HMutexFraction
  | HMetrics
  | HLogs
  | HP2P
  | HDebug.                                    (** pages of OpenCensus *)

(** http.ServeMux: its patterns, in the order of registration, and the muxes there are *)
Abbreviation Mux := (list (string * Handler)).
Abbreviation Store := (list Mux).
Abbreviation B := (M Store string).

Definition NewServeMux : B nat := λ st, (Ok (length st), st ++ [[]]).

(** mux.Handle panics on an empty pattern and on one that is registered. *)
Definition Handle (m : nat) (pattern : string) (h : Handler) : B unit := λ st,
  match st !! m with
  | None => (Err "panic: invalid memory address or nil pointer dereference", st)
  | Some mux =>
      if decide (pattern = "") then (Err "panic: http: invalid pattern", st)
      else if decide (pattern ∈ mux.*1) then (Err ("panic: http: multiple registrations for " +:+ pattern), st)
      else (Ok (), <[m := mux ++ [(pattern, h)]]> st)
  end.

(** What a server is built with: the configuration of the node's repository, the core API,
    the exporter and the registry of metrics, the environment and the listener's address *)
Record ServeEnv := mkServeEnv {
  se_Config : res string (ConfigHeaders * ConfigHeaders);   (** API.HTTPHeaders, Gateway.HTTPHeaders *)
  se_NewCoreAPI : option string;
  se_Register : string → option string;
  se_NewExporter : option string;
  se_API_ORIGIN : string;
  se_Addr : NetAddr;
}.

Section build.
Context (E : ServeEnv).

Definition fails_with (o : option string) : B unit := match o with Some e => mthrow e | None => mret () end.

(** What commandsOption makes of the configuration it starts from *)
Definition commands_config (allowGet : bool) (hs : ConfigHeaders) : ServerConfig :=
  let corsAllowedMethods := if allowGet then ["POST"; "GET"] else ["POST"] in
  patchCORSVars (se_Addr E) (addCORSDefaults (addCORSFromEnv (se_API_ORIGIN E) (addHeadersFromConfig hs
    (mkServerConfig "/api/v0" ∅ allowGet [] corsAllowedMethods false)))).

Definition commandsOption (ro allowGet : bool) (m : nat) : B nat :=
  rcfg ← mlift (se_Config E);
  _ ← Handle m ("/api/v0" +:+ "/") (HCommands ro (commands_config allowGet rcfg.1));
  mret m.

Definition checkVersionOption (m : nat) : B nat :=
  mux ← NewServeMux;
  _ ← Handle m "/" (HCheckVersion mux);
  mret mux.

(** The headers of the gateway: a value nil or not is there. *)
Definition gateway_headers (hs : ConfigHeaders) : gmap string (list string) :=
  let headers : gmap string (list string) := foldl (λ m hv, <[CanonicalHeaderKey hv.1 := default [] hv.2]> m) ∅ hs in
  let headers := match headers !! ACAOrigin with None => <[ACAOrigin := ["*"]]> headers | Some _ => headers end in
  let headers := match headers !! ACAMethods with None => <[ACAMethods := ["GET"]]> headers | Some _ => headers end in
  let headers := <["Access-Control-Allow-Headers" := cleanHeaderSet
    (["Content-Type"; "User-Agent"; "Range"; "X-Requested-With"] ++ default [] (headers !! "Access-Control-Allow-Headers"))]> headers in
  <["Access-Control-Expose-Headers" := cleanHeaderSet
    (["Content-Range"; "X-Chunked-Output"; "X-Stream-Output"] ++ default [] (headers !! "Access-Control-Expose-Headers"))]> headers.

Definition gatewayOption (writable : bool) (paths : list string) (m : nat) : B nat :=
  cfg ← mlift (se_Config E);
  _ ← fails_with (se_NewCoreAPI E);
  _ ← mfor paths (λ p, Handle m (p +:+ "/") (HGateway writable (gateway_headers cfg.2)));
  mret m.

Definition redirectOption (path redirect : string) (m : nat) : B nat :=
  _ ← Handle m (if decide (path ≠ "") then "/" +:+ path +:+ "/" else "/") (HRedirect redirect);
  mret m.

Definition metricsCollectionOption (handlerName : string) (m : nat) : B nat :=
  _ ← mfor ["requests_total"; "request_duration_seconds"; "request_size_bytes"; "response_size_bytes"]
        (λ name, fails_with (se_Register E (handlerName +:+ ":" +:+ name)));
  childMux ← NewServeMux;
  _ ← Handle m "/" (HCollect childMux);
  mret childMux.

Definition metricsOpenCensusCollectionOption (m : nat) : B nat :=
  _ ← fails_with (se_NewExporter E);
  _ ← mfor ["rpcz"; "tracez"; "public/"] (λ p, Handle m (PathJoin "/debug/metrics/oc/debugz" p) HDebug);
  _ ← Handle m "/debug/metrics/oc" HMetrics;
  mret m.

Definition hostnameOption (m : nat) : B nat :=
  childMux ← NewServeMux;
  _ ← fails_with (se_NewCoreAPI E);
  _ ← mlift (se_Config E);
  _ ← Handle m "/" (HHostname childMux);
  mret childMux.

Definition single (pattern : string) (h : Handler) (m : nat) : B nat := _ ← Handle m pattern h; mret m.

Definition WebUIPath : string := "/ipfs/bafybeihcyruaeza7uyjd6ugicbcrqumejf6uf353e5etdkhotqffwtguva".

(** Every web interface there was *)
Definition WebUIPaths : list string :=
  [WebUIPath;
   "/ipfs/bafybeiflkjt66aetfgcrgvv75izymd5kc47g6luepqmfq6zsf5w6ueth6y";
   "/ipfs/bafybeid26vjplsejg7t3nrh7mxmiaaxriebbm4xxrxxdunlk7o337m5sqq";
   "/ipfs/bafybeif4zkmu7qdhkpf3pnhwxipylqleof7rl6ojbe7mq3fzogz6m4xk3i";
   "/ipfs/bafybeianwe4vy7sprht5sm3hshvxjeqhwcmvbzq73u55sdhqngmohkjgs4";
   "/ipfs/bafybeicitin4p7ggmyjaubqpi3xwnagrwarsy6hiihraafk5rcrxqxju6m";
   "/ipfs/bafybeihpetclqvwb4qnmumvcn7nh4pxrtugrlpw4jgjpqicdxsv7opdm6e";
   "/ipfs/bafybeibnnxd4etu4tq5fuhu3z5p4rfu3buabfkeyr3o3s4h6wtesvvw6mu";
   "/ipfs/bafybeid6luolenf4fcsuaw5rgdwpqbyerce4x3mi3hxfdtp5pwco7h7qyq";
   "/ipfs/bafybeigkbbjnltbd4ewfj7elajsbnjwinyk6tiilczkqsibf3o7dcr6nn4";
   "/ipfs/bafybeicp23nbcxtt2k2twyfivcbrc6kr3l5lnaiv3ozvwbemtrb7v52r6i";
   "/ipfs/bafybeidatpz2hli6fgu3zul5woi27ujesdf5o5a7bu622qj6ugharciwjq";
   "/ipfs/QmfQkD8pBSBCBxWEwFSu4XaDVSWK6bjnNuaWZjMyQbyDub";
   "/ipfs/QmXc9raDM1M5G5fpBnVyQ71vR4gbnskwnB9iMEzBuLgvoZ";
   "/ipfs/QmenEBWcAk3tN94fSKpKFtUMwty1qNwSYw3DMDFV6cPBXA";
   "/ipfs/QmUnXcWZC5Ve21gUseouJsH5mLAyz5JPp8aHsg8qVUUK8e";
   "/ipfs/QmSDgpiHco5yXdyVTfhKxr3aiJ82ynz8V14QcGKicM3rVh";
   "/ipfs/QmRuvWJz1Fc8B9cTsAYANHTXqGmKR9DVfY5nvMD1uA2WQ8";
   "/ipfs/QmQLXHs7K98JNQdWrBB2cQLJahPhmupbDjRuH1b9ibmwVa";
   "/ipfs/QmXX7YRpU7nNBKfw75VG7Y1c3GwpSAGHRev67XVPgZFv9R";
   "/ipfs/QmXdu7HWdV6CUaUabd9q2ZeA4iHZLVyDRj3Gi4dsJsWjbr";
   "/ipfs/QmaaqrHyAQm7gALkRW8DcfGX3u8q9rWKnxEMmf7m9z515w";
   "/ipfs/QmSHDxWsMPuJQKWmVA1rB5a3NX2Eme5fPqNb63qwaqiqSp";
   "/ipfs/QmctngrQAt9fjpQUZr7Bx3BsXUcif52eZGTizWhvcShsjz";
   "/ipfs/QmS2HL9v5YeKgQkkWMvs1EMnFtUowTEdFfSSeMT4pos1e6";
   "/ipfs/QmR9MzChjp1MdFWik7NjEjqKQMzVmBkdK3dz14A6B5Cupm";
   "/ipfs/QmRyWyKWmphamkMRnJVjUTzSFSAAZowYP4rnbgnfMXC9Mr";
   "/ipfs/QmU3o9bvfenhTKhxUakbYrLDnZU7HezAVxPM6Ehjw9Xjqy";
   "/ipfs/QmPhnvn747LqwPYMJmQVorMaGbMSgA7mRRoyyZYz3DoZRQ";
   "/ipfs/QmQNHd1suZTktPRhP7DD4nKWG46ZRSxkwHocycHVrK3dYW";
   "/ipfs/QmNyMYhwJUS1cVvaWoVBhrW8KPj1qmie7rZcWo8f1Bvkhz";
   "/ipfs/QmVTiRTQ72qiH4usAGT4c6qVxCMv4hFMUH9fvU6mktaXdP";
   "/ipfs/QmYcP4sp1nraBiCYi6i9kqdaKobrK32yyMpTrM5JDA8a2C";
   "/ipfs/QmUtMmxgHnDvQq4bpH6Y9MaLN1hpfjJz5LZcq941BEqEXs";
   "/ipfs/QmPURAjo3oneGH53ovt68UZEBvsc8nNmEhQZEpsVEQUMZE";
   "/ipfs/QmeSXt32frzhvewLKwA1dePTSjkTfGVwTh55ZcsJxrCSnk";
   "/ipfs/QmcjeTciMNgEBe4xXvEaA4TQtwTRkXucx7DmKWViXSmX7m";
   "/ipfs/QmfNbSskgvTXYhuqP8tb9AKbCkyRcCy3WeiXwD9y5LeoqK";
   "/ipfs/QmPkojhjJkJ5LEGBDrAvdftrjAYmi9GU5Cq27mWvZTDieW";
   "/ipfs/Qmexhq2sBHnXQbvyP2GfUdbnY7HCagH2Mw5vUNSBn2nxip"].

(** What an option registers on a mux, and the mux it exposes to the next *)
Definition serve_option (x : ServeOption) : nat → B nat :=
  match x with
  | MetricsCollectionOption name => metricsCollectionOption name
  | MetricsOpenCensusCollectionOption => metricsOpenCensusCollectionOption
  | CheckVersionOption => checkVersionOption
  | CommandsOption => commandsOption false false
  | CommandsROOption => commandsOption true true
  | WebUIOption => redirectOption "webui" WebUIPath
  | GatewayOption writable paths => gatewayOption writable paths
  | VersionOption => single "/version" HVersion
  | DefaultMux path => single path HDefaultMux
  | MutexFractionOption path => single path HMutexFraction
  | MetricsScrapingOption path => single path HMetrics
  | LogOption => single "/logs" HLogs
  | Daemon.HostnameOption => hostnameOption
  | P2PProxyOption => single "/p2p/" HP2P
  | RedirectOption path redirect => redirectOption path redirect
  end.

Fixpoint apply_options (m : nat) (options : list ServeOption) : B nat :=
  match options with [] => mret m | x :: options => m' ← serve_option x m; apply_options m' options end.

(** makeHandler: the muxes built, of which the first is the top one *)
Definition makeHandler (options : list ServeOption) : res string Store :=
  match (topMux ← NewServeMux; apply_options topMux options) [] with (Ok _, st) => Ok st | (Err e, _) => Err e end.

End build.

(** ** Routing a request *)

Record SReq := mkSReq {
  rq : Hostname.Request; Method : string; UserAgent : string; Origin : string; Referer : string;
  AccessControlRequestMethod : string; Star : bool; fraction : res string string;
}.
Definition rpath (r : SReq) : string := URLPath (rq r).
Definition set_path (p : string) (r : SReq) : SReq :=
  mkSReq (mkRequest (Host (rq r)) (XForwardedHost (rq r)) (XForwardedProto (rq r)) (Scheme (rq r)) p (RawQuery (rq r)))
    (Method r) (UserAgent r) (Origin r) (Referer r) (AccessControlRequestMethod r) (Star r) (fraction r).

(** What a request comes to: a status with a text, a redirection, a CORS preflight, or the
    part that answers it *)
Inductive Answer :=
  | AStatus (code : Z) (msg : string)
  | ARedirect (code : Z) (path query : string)
  | APreflight
  | ACall (ro : bool) (path : string) (headers : gmap string (list string))
  | AGateway (writable : bool) (headers : gmap string (list string)) (path : string)
  | AProxy (target name httpPath : string)
  | ASetFraction (rate : Z)
  | APage (h : Handler) (path : string)
  | APanics.

(** path.Clean with its trailing slash kept *)
Definition cleanPath (p : string) : string :=
  if decide (p = "") then "/"
  else
    let p := if HasPrefix p "/" then p else "/" +:+ p in
    let np := Clean p in
    if HasSuffix p "/" && negb (bool_decide (np = "/")) then np +:+ "/" else np.

(** The pattern that matches: the path itself, or the longest one that ends in a slash
    and begins it *)
Fixpoint longest (path : string) (best : option (string * Handler)) (mux : Mux) : option (string * Handler) :=
  match mux with
  | [] => best
  | (p, h) :: mux =>
      let better := HasSuffix p "/" && HasPrefix path p &&
        match best with Some (b, _) => String.length b <? String.length p | None => true end in
      longest path (if better then Some (p, h) else best) mux
  end.
Definition mux_match (mux : Mux) (path : string) : option Handler :=
  match list_find (λ ph, ph.1 = path) mux with Some (_, (_, h)) => Some h | None => snd <$> longest path None mux end.

(** ServeMux.Handler, for patterns without a host: a redirection or a handler *)
Definition mux_route (mux : Mux) (r : SReq) : Answer + Handler :=
  let path := cleanPath (rpath r) in
  if decide ((path ∉ mux.*1) ∧ (path +:+ "/") ∈ mux.*1) then inl (ARedirect 301 (path +:+ "/") (RawQuery (rq r)))
  else if decide (path ≠ rpath r) then inl (ARedirect 301 path (RawQuery (rq r)))
  else match mux_match mux path with Some h => inr h | None => inl (AStatus 404 "404 page not found") end.

(** The check of a client's version: the status, unless the request passes *)
Definition version_mismatch (r : SReq) : option Answer :=
  if HasPrefix (rpath r) "/api/v0" then
    match Split (sdrop (String.length "/api/v0") (rpath r)) "/" with
    | _ :: p1 :: _ =>
        if decide (p1 ≠ "version") then
          if Contains (UserAgent r) "/go-ipfs/" && negb (bool_decide (ApiVersion = UserAgent r))
          then Some (AStatus 400 ("api version mismatch (" +:+ ApiVersion +:+ " != " +:+ UserAgent r +:+ ")"))
          else None
        else None
    | _ => None
    end
  else None.

(** p2p_proxy.go: parseRequest, with peer.Decode as an argument *)
Definition p2p_parseRequest (peer_Decode : string → bool) (path : string) : res string (string * string * string) :=
  let invalid := Err ("Invalid request path '" +:+ path +:+ "'") in
  match SplitN path "/" 5 with
  | [_; _; target; proto; rest] =>
      if peer_Decode target then
        if decide (proto = "http") then Ok (target, "/http", rest)
        else match SplitN path "/" 7 with
             | [_; _; _; x; name; http; httpPath] =>
                 if decide (proto = "x" ∧ http = "http") then Ok (target, "/x/" +:+ name +:+ "/http", httpPath) else invalid
             | _ => invalid
             end
      else invalid
  | _ => invalid
  end.

(** The handler of MutexFractionOption *)
Definition mutex_fraction (r : SReq) : Answer :=
  if decide (Method r ≠ "POST") then AStatus 405 "only POST allowed"
  else match fraction r with
  | Err e => AStatus 400 e
  | Ok asfr =>
      if decide (asfr = "") then AStatus 400 "parameter 'fraction' must be set"
      else match Atoi asfr with
           | None => AStatus 400 ("strconv.Atoi: parsing " +:+ asfr)
           | Some fr => ASetFraction fr
           end
  end.

Section route.
(** The libraries: peer.Decode, url.Parse of a referer and then its origin, the handling
    of hosts, whose own file has it *)
Context (peer_Decode : string → bool) (referer_origin : string → option string) (hostname : Hostname.Request → Response).

(** The guards of go-ipfs-cmds/http/config.go *)
Definition allowed_by (origins : list string) (origin : string) : bool := existsb (λ o, String.eqb o "*" || String.eqb o origin) origins.
Definition allowOrigin (r : SReq) (cfg : ServerConfig) : bool := bool_decide (Origin r = "") || allowed_by (AllowedOrigins cfg) (Origin r).
Definition allowReferer (r : SReq) (cfg : ServerConfig) : bool :=
  bool_decide (Referer r = "") || match referer_origin (Referer r) with None => false | Some o => allowed_by (AllowedOrigins cfg) o end.
Definition allowUserAgent (r : SReq) : bool :=
  negb (bool_decide (Method r = "POST")) || negb (bool_decide (Origin r = "" ∧ Referer r = "")) ||
  Contains (UserAgent r) "Electron" || negb (HasPrefix (UserAgent r) "Mozilla").

(** The handler of the commands: CORS, the prefix of the API, the method and the guards *)
Definition commands_handler (ro : bool) (cfg : ServerConfig) (r : SReq) : Answer :=
  if decide (Method r = "OPTIONS" ∧ AccessControlRequestMethod r ≠ "") then APreflight
  else if negb (HasPrefix (rpath r) (APIPath cfg)) then AStatus 404 "404 page not found"
  else if decide (Method r = "OPTIONS") then AStatus 204 ""
  else if bool_decide (Method r = "POST") || (AllowGet cfg && bool_decide (Method r ∈ ["GET"; "HEAD"])) then
    if allowOrigin r cfg && allowReferer r cfg && allowUserAgent r
    then ACall ro (TrimPrefix (rpath r) (APIPath cfg)) (sHeaders cfg)
    else AStatus 403 "403 - Forbidden"
  else AStatus 405 "405 - Method Not Allowed".

(** A mux and the handlers behind it, with as much fuel as there are muxes *)
Fixpoint serve (fuel : nat) (st : Store) (m : nat) (r : SReq) : option Answer :=
  match fuel, st !! m with
  | S fuel, Some mux =>
      if Star r then Some (AStatus 400 "")
      else match mux_route mux r with
      | inl a => Some a
      | inr (HCollect child) => serve fuel st child r
      | inr (HCheckVersion child) => match version_mismatch r with Some a => Some a | None => serve fuel st child r end
      | inr (HHostname child) =>
          match hostname (rq r) with
          | Hostname.Serve p _ _ => serve fuel st child (set_path p r)
          | Hostname.Redirect url => Some (ARedirect 301 url "")
          | Hostname.NotFound => Some (AStatus 404 "404 page not found")
          | Hostname.BadRequest msg => Some (AStatus 400 msg)
          | HandlerPanic => Some APanics
          end
      | inr (HCommands ro cfg) => Some (commands_handler ro cfg r)
      | inr (HGateway w hs) => Some (AGateway w hs (rpath r))
      | inr (HRedirect to) => Some (ARedirect 302 to "")
      | inr HP2P =>
          match p2p_parseRequest peer_Decode (rpath r) with
          | Ok (target, name, httpPath) => Some (AProxy target name httpPath)
          | Err e => Some (AStatus 400 ("failed to parse request: " +:+ e))
          end
      | inr HMutexFraction => Some (mutex_fraction r)
      | inr h => Some (APage h (rpath r))
      end
  | _, _ => None
  end.

(** The handler makeHandler returns *)
Definition handle_request (st : Store) (r : SReq) : option Answer :=
  if decide (Method r = "CONNECT") then Some (AStatus 200 "") else serve (length st) st 0 r.

End route.

(** ** The muxes that are built *)

(** The mux a handler passes a request on to *)
Definition child (h : Handler) : option nat :=
  match h with HCollect c | HCheckVersion c | HHostname c => Some c | _ => None end.

Definition has (st : Store) (m : nat) (p : string) (h : Handler) : Prop := ∃ mux, st !! m = Some mux ∧ (p, h) ∈ mux.

Lemma Handle_ok m p h st u st' :
  Handle m p h st = (Ok u, st') →
  ∃ mux, st !! m = Some mux ∧ p ≠ "" ∧ (p ∉ mux.*1) ∧ st' = (<[m := mux ++ [(p, h)]]> st).
Proof. unfold Handle. destruct (st !! m) as [mux|] eqn:Hm; [|done]. repeat case_decide; try done. intros [= _ <-]. eauto. Qed.

Lemma has_Handle m p h st u st' m' p' h' :
  Handle m p h st = (Ok u, st') → has st' m' p' h' → has st m' p' h' ∨ (m' = m ∧ p' = p ∧ h' = h).
Proof.
  intros (mux & Hm & _ & _ & ->)%Handle_ok (mux' & Hm' & Hin). apply list_lookup_insert_Some in Hm' as [(-> & <- & _)|[_ Hm']]; [|left; by exists mux'].
  apply elem_of_app in Hin as [Hin|[= -> ->]%list_elem_of_singleton]; [left; by exists mux|by right].
Qed.

Lemma has_new st m p h : has (st ++ [[]]) m p h → has st m p h.
Proof.
  intros (mux & Hm & Hin). apply lookup_app_Some in Hm as [Hm|[_ Hm]]; [by exists mux|].
  destruct (m - length st) as [|[]]; cbn in Hm; [|done..]. injection Hm as <-. by apply elem_of_nil in Hin.
Qed.

Lemma length_Handle m p h st u st' : Handle m p h st = (Ok u, st') → length st' = length st.
Proof. intros (mux & _ & _ & _ & ->)%Handle_ok. apply length_insert. Qed.

(** The handlers an option registers that pass nothing on *)
Definition own (E : ServeEnv) (x : ServeOption) (p : string) (h : Handler) : Prop :=
  match h with
  | HCollect _ | HCheckVersion _ | HHostname _ => False
  | HCommands ro cfg => x = (if ro then CommandsROOption else CommandsOption) ∧ p = "/api/v0/" ∧
      ∃ rcfg, se_Config E = Ok rcfg ∧ cfg = commands_config E ro rcfg.1
  | HGateway w hs => ∃ paths q rcfg, x = GatewayOption w paths ∧ q ∈ paths ∧ p = q +:+ "/" ∧ se_Config E = Ok rcfg ∧ hs = gateway_headers rcfg.2
  | _ => True
  end.

(** The handlers that pass requests on to a mux *)
Definition front (x : ServeOption) (c : nat) (h : Handler) : Prop :=
  match h with
  | HCheckVersion c' => c' = c ∧ x = CheckVersionOption
  | HHostname c' => c' = c ∧ x = Daemon.HostnameOption
  | HCollect c' => c' = c ∧ ∃ name, x = MetricsCollectionOption name
  | _ => False
  end.

(** What an option adds: handlers of its own on the mux it was given, and perhaps one new
    mux behind one of them, which it then exposes. *)
Definition adds_to (E : ServeEnv) (x : ServeOption) (m : nat) (st : Store) (m' : nat) (st' : Store) : Prop :=
  (m' = m ∧ length st' = length st ∧ ∀ k p h, has st' k p h → has st k p h ∨ (k = m ∧ own E x p h)) ∨
  (m' = length st ∧ length st' = S (length st) ∧ ∀ k p h, has st' k p h → has st k p h ∨ (k = m ∧ front x m' h)).

Lemma adds_single E x m st p h u st' : Handle m p h st = (Ok u, st') → own E x p h → adds_to E x m st m st'.
Proof.
  intros Hh Ho. left. split; [done|]. split; [by eapply length_Handle|]. intros k q h' Hk.
  destruct (has_Handle _ _ _ _ _ _ _ _ _ Hh Hk) as [?|(-> & -> & ->)]; [by left|by right].
Qed.

(** Several handlers on one mux *)
Lemma adds_many {A} E x m (f : A → string) (h : A → Handler) l : ∀ st u st',
  mfor l (λ a, Handle m (f a) (h a)) st = (Ok u, st') → (∀ a, a ∈ l → own E x (f a) (h a)) →
  length st' = length st ∧ ∀ k p h', has st' k p h' → has st k p h' ∨ (k = m ∧ own E x p h').
Proof.
  induction l as [|a l IH]; intros st u st' Hf Ho; cbn in Hf.
  - injection Hf as _ <-. split; [done|]. by left.
  - apply bind_ok in Hf as (u1 & st1 & H1 & H2). apply IH in H2 as [Hl H2]; [|intros b Hb; apply Ho; by right].
    split; [rewrite Hl; by eapply length_Handle|]. intros k p h' Hk. destruct (H2 _ _ _ Hk) as [H|H]; [|by right].
    destruct (has_Handle _ _ _ _ _ _ _ _ _ H1 H) as [?|(-> & -> & ->)]; [by left|right]. split; [done|]. apply Ho. left.
Qed.

(** A mux behind the one given *)
Lemma adds_front E x m st h u st' :
  Handle m "/" h (st ++ [[]]) = (Ok u, st') → front x (length st) h → adds_to E x m st (length st) st'.
Proof.
  intros Hh Hf. right. split; [done|]. split; [rewrite (length_Handle _ _ _ _ _ _ Hh), length_app; cbn; lia|].
  intros k p h' Hk. destruct (has_Handle _ _ _ _ _ _ _ _ _ Hh Hk) as [H|(-> & -> & ->)]; [left; by apply has_new|by right].
Qed.

Lemma fails_with_ok o st u st' : fails_with o st = (Ok u, st') → o = None ∧ st' = st.
Proof. destruct o; [done|]. by intros [= _ <-]. Qed.

Lemma serve_option_adds E x m st m' st' : serve_option E x m st = (Ok m', st') → adds_to E x m st m' st'.
Proof.
  destruct x; cbn [serve_option]; intros H.
  - apply bind_ok in H as (u & st1 & H1 & H). assert (st1 = st) as ->.
    { revert H1. generalize ["requests_total"; "request_duration_seconds"; "request_size_bytes"; "response_size_bytes"].
      intros l. revert st u. induction l as [|y l IH]; intros st u H1; [by injection H1|]. apply bind_ok in H1 as (u' & st2 & [_ ->]%fails_with_ok & H2).
      by eapply IH. }
    apply bind_ok in H as (c & st2 & H2 & H). injection H2 as <- <-. apply bind_ok in H as (u2 & st3 & H3 & H). injection H as <- <-.
    eapply adds_front; [exact H3|]. cbn. eauto.
  - apply bind_ok in H as (u & st1 & [_ ->]%fails_with_ok & H). apply bind_ok in H as (u2 & st2 & H2 & H).
    apply bind_ok in H as (u3 & st3 & H3 & H). injection H as <- <-. left. split; [done|].
    apply (adds_many E MetricsOpenCensusCollectionOption) in H2 as [Hl H2]; [|done].
    rewrite (length_Handle _ _ _ _ _ _ H3). split; [done|]. intros k p h' Hk.
    destruct (has_Handle _ _ _ _ _ _ _ _ _ H3 Hk) as [Hk'|(-> & -> & ->)]; [by apply H2|by right].
  - apply bind_ok in H as (c & st2 & H2 & H). injection H2 as <- <-. apply bind_ok in H as (u2 & st3 & H3 & H). injection H as <- <-.
    eapply adds_front; [exact H3|]. done.
  - apply bind_ok in H as (rcfg & st1 & [Hc ->]%mlift_ok & H). apply bind_ok in H as (u2 & st3 & H3 & H). injection H as <- <-.
    eapply adds_single; [exact H3|]. cbn. eauto.
  - apply bind_ok in H as (rcfg & st1 & [Hc ->]%mlift_ok & H). apply bind_ok in H as (u2 & st3 & H3 & H). injection H as <- <-.
    eapply adds_single; [exact H3|]. cbn. eauto.
  - apply bind_ok in H as (u2 & st3 & H3 & H). injection H as <- <-. by eapply adds_single.
  - apply bind_ok in H as (rcfg & st1 & [Hc ->]%mlift_ok & H). apply bind_ok in H as (u1 & st1 & [_ ->]%fails_with_ok & H).
    apply bind_ok in H as (u2 & st3 & H3 & H). injection H as <- <-. left. split; [done|].
    eapply (adds_many E (GatewayOption writable paths)) in H3; [exact H3|]. intros q Hq. cbn. eauto 10.
  - apply bind_ok in H as (u2 & st3 & H3 & H). injection H as <- <-. by eapply adds_single.
  - apply bind_ok in H as (u2 & st3 & H3 & H). injection H as <- <-. by eapply adds_single.
  - apply bind_ok in H as (u2 & st3 & H3 & H). injection H as <- <-. by eapply adds_single.
  - apply bind_ok in H as (u2 & st3 & H3 & H). injection H as <- <-. by eapply adds_single.
  - apply bind_ok in H as (u2 & st3 & H3 & H). injection H as <- <-. by eapply adds_single.
  - apply bind_ok in H as (c & st2 & H2 & H). injection H2 as <- <-. apply bind_ok in H as (u1 & st1 & [_ ->]%fails_with_ok & H).
    apply bind_ok in H as (rcfg & st1 & [Hc ->]%mlift_ok & H). apply bind_ok in H as (u2 & st3 & H3 & H). injection H as <- <-.
    eapply adds_front; [exact H3|]. done.
  - apply bind_ok in H as (u2 & st3 & H3 & H). injection H as <- <-. by eapply adds_single.
  - apply bind_ok in H as (u2 & st3 & H3 & H). injection H as <- <-. by eapply adds_single.
Qed.

(** A property of the muxes that every option keeps holds after all of them. *)
Lemma apply_options_inv E (I : list ServeOption → Store → nat → Prop) :
  (∀ done x st m st' m', I done st m → adds_to E x m st m' st' → I (done ++ [x]) st' m') →
  ∀ opts done st m st' m', I done st m → apply_options E m opts st = (Ok m', st') → I (done ++ opts) st' m'.
Proof.
  intros Hstep opts. induction opts as [|x opts IH]; intros done st m st' m' HI Ha; cbn in Ha.
  - injection Ha as <- <-. by rewrite app_nil_r.
  - apply bind_ok in Ha as (m1 & st1 & H1 & H2). replace (done ++ x :: opts) with ((done ++ [x]) ++ opts) by by rewrite <- app_assoc.
    eapply IH; [|exact H2]. eapply Hstep; [exact HI|]. by apply serve_option_adds.
Qed.

(** Requests are passed on only to muxes built later. *)
Definition forward (st : Store) (m : nat) : Prop :=
  m < length st ∧ ∀ k p h c, has st k p h → child h = Some c → k < c < length st.

Lemma front_child x c h : front x c h → child h = Some c.
Proof. destruct h; try done; cbn; by intros [-> _]. Qed.
Lemma own_child E x p h : own E x p h → child h = None.
Proof. by destruct h. Qed.

Lemma forward_step E x st m st' m' : forward st m → adds_to E x m st m' st' → forward st' m'.
Proof.
  intros [Hm Hf] [(-> & Hl & Hh)|(-> & Hl & Hh)]; (split; [lia|]); intros k p h c Hk Hc; destruct (Hh _ _ _ Hk) as [H|[-> H]].
  - specialize (Hf _ _ _ _ H Hc). lia.
  - by rewrite (own_child _ _ _ _ H) in Hc.
  - specialize (Hf _ _ _ _ H Hc). lia.
  - rewrite (front_child _ _ _ H) in Hc. injection Hc as <-. lia.
Qed.

(** Every handler comes from an option. *)
Definition comes_from (E : ServeEnv) (opts : list ServeOption) (st : Store) : Prop :=
  ∀ k p h, has st k p h → ∃ x, x ∈ opts ∧ (own E x p h ∨ ∃ c, front x c h).

Lemma comes_from_step E done x st m st' m' : comes_from E done st → adds_to E x m st m' st' → comes_from E (done ++ [x]) st'.
Proof.
  intros Hc [(-> & Hl & Hh)|(-> & Hl & Hh)] k p h Hk; destruct (Hh _ _ _ Hk) as [H|[-> H]].
  - destruct (Hc _ _ _ H) as (y & Hy & Ho). exists y. split; [apply elem_of_app; by left|done].
  - exists x. split; [apply elem_of_app; right; left|by left].
  - destruct (Hc _ _ _ H) as (y & Hy & Ho). exists y. split; [apply elem_of_app; by left|done].
  - exists x. split; [apply elem_of_app; right; left|]. right. by exists (length st).
Qed.

Lemma has_empty k p h : ¬ has [[]] k p h.
Proof. intros (mux & Hm & Hin). destruct k as [|[]]; cbn in Hm; try done. injection Hm as <-. by apply elem_of_nil in Hin. Qed.

Lemma makeHandler_run E opts st : makeHandler E opts = Ok st → ∃ m, apply_options E 0 opts [[]] = (Ok m, st).
Proof. unfold makeHandler. rewrite bind_unfold. cbn. destruct (apply_options E 0 opts [[]]) as [[m|e] st']; intros [= ->]. by exists m. Qed.

Lemma makeHandler_wf E opts st : makeHandler E opts = Ok st → (∃ m, forward st m) ∧ comes_from E opts st.
Proof.
  intros [m Hm]%makeHandler_run. split.
  - exists m. apply (apply_options_inv E (λ _, forward) (λ d x st m st' m', forward_step E x st m st' m') opts [] [[]] 0 st m); [|done].
    split; [cbn; lia|]. by intros k p h c ?%has_empty.
  - apply (apply_options_inv E (λ d st _, comes_from E d st) (λ d x st m st' m', comes_from_step E d x st m st' m') opts [] [[]] 0 st m); [|done].
    by intros k p h ?%has_empty.
Qed.

(** ** What a mux gives *)

Lemma longest_in path mux : ∀ best p h, longest path best mux = Some (p, h) → best = Some (p, h) ∨ ((p, h) ∈ mux ∧ HasPrefix path p = true).
Proof.
  induction mux as [|[q g] mux IH]; intros best p h Hl; cbn in Hl; [by left|].
  apply IH in Hl as [Hl|[Hl Hp]]; [|right; split; [by right|done]].
  match type of Hl with context [if ?b then _ else _] => destruct b eqn:Hb end; [|by left]. injection Hl as <- <-.
  right. split; [left|]. by apply andb_prop in Hb as [[_ ?]%andb_prop _].
Qed.

Lemma HasPrefix_refl s : HasPrefix s s = true.
Proof. rewrite <- (sapp_nil_r s) at 1. apply HasPrefix_app. Qed.

Lemma mux_match_in mux path h : mux_match mux path = Some h → ∃ p, (p, h) ∈ mux ∧ HasPrefix path p = true.
Proof.
  unfold mux_match. destruct (list_find _ mux) as [[i [p g]]|] eqn:Hf.
  - intros [= ->]. apply list_find_Some in Hf as (Hi & Hp & _). cbn in Hp. subst p. exists path.
    split; [by eapply list_elem_of_lookup_2|apply HasPrefix_refl].
  - destruct (longest path None mux) as [[p g]|] eqn:Hl; [|done]. intros [= ->]. apply longest_in in Hl as [|[Hl Hp]]; [done|]. by exists p.
Qed.

Lemma mux_route_in mux r h : mux_route mux r = inr h → ∃ p, (p, h) ∈ mux ∧ HasPrefix (rpath r) p = true.
Proof.
  unfold mux_route. destruct (decide (_ ∧ _)); [done|]. destruct (decide (_ ≠ _)) as [|Hc]; [done|]. apply dec_stable in Hc.
  rewrite Hc. destruct (mux_match mux (rpath r)) eqn:Hm; intros [= <-]. by apply mux_match_in.
Qed.

Section answers.
Context (peer_Decode : string → bool) (referer_origin : string → option string) (hostname : Hostname.Request → Response).
Abbreviation serve' := (serve peer_Decode referer_origin hostname).
Abbreviation handle' := (handle_request peer_Decode referer_origin hostname).
Abbreviation commands_handler' := (commands_handler referer_origin).

(** With a mux less to come each time, there is fuel for all. *)
Lemma serve_enough st m0 : forward st m0 → ∀ fuel m r, m < length st → length st - m ≤ fuel → serve' fuel st m r ≠ None.
Proof.
  intros [_ Hf] fuel. induction fuel as [|fuel IH]; intros m r Hm Hl; [lia|]. cbn.
  destruct (lookup_lt_is_Some_2 st m Hm) as [mux Hmux]. rewrite Hmux. destruct (Star r); [done|].
  destruct (mux_route mux r) as [a|h] eqn:Hr; [done|]. apply mux_route_in in Hr as (p & Hin & _).
  assert (∀ c, child h = Some c → m < c < length st) as Hc by (intros c; by apply (Hf m p h c); exists mux).
  destruct h; try done.
  - specialize (Hc _ eq_refl). apply IH; lia.
  - specialize (Hc _ eq_refl). destruct (version_mismatch r); [done|]. apply IH; lia.
  - specialize (Hc _ eq_refl). destruct (hostname (rq r)); try done. apply IH; lia.
  - by destruct (p2p_parseRequest peer_Decode (rpath r)) as [[[] ]|].
Qed.

(** Whatever options a server is built with, every request is answered: it never goes
    round in the muxes. *)
Theorem requests_are_answered E opts st r : makeHandler E opts = Ok st → ∃ a, handle' st r = Some a.
Proof.
  intros [[m Hf] _]%makeHandler_wf. unfold handle_request. destruct (decide _); [eauto|]. apply not_eq_None_Some.
  eapply (serve_enough st m Hf); [destruct Hf; lia|lia].
Qed.

(** *** Where an answer comes from *)

(** What the handlers in front leave of a request: all but its path *)
Definition same_but_path (r r' : SReq) : Prop := r' = set_path (rpath r') r.

Lemma same_refl r : same_but_path r r.
Proof. by destruct r as [[] ]. Qed.
Lemma same_set p r r' : same_but_path (set_path p r) r' → same_but_path r r'.
Proof. unfold same_but_path. intros ->. by destruct r as [[] ]. Qed.

(** Answers that run nothing and read no object *)
Definition plain (a : Answer) : Prop := match a with ACall _ _ _ | AGateway _ _ _ => False | _ => True end.

(** How a mux comes to an answer *)
Inductive mux_answer (fuel : nat) (st : Store) (m : nat) (r : SReq) (a : Answer) : Prop :=
  | By_plain : plain a → mux_answer fuel st m r a
  | By_collect p c : has st m p (HCollect c) → serve' fuel st c r = Some a → mux_answer fuel st m r a
  | By_check p c : has st m p (HCheckVersion c) → version_mismatch r = None → serve' fuel st c r = Some a → mux_answer fuel st m r a
  | By_hostname p c q : has st m p (HHostname c) → serve' fuel st c (set_path q r) = Some a → mux_answer fuel st m r a
  | By_commands p ro cfg : has st m p (HCommands ro cfg) → a = commands_handler' ro cfg r → mux_answer fuel st m r a
  | By_gateway p w hs : has st m p (HGateway w hs) → HasPrefix (rpath r) p = true → a = AGateway w hs (rpath r) → mux_answer fuel st m r a.

Lemma mux_route_plain mux r a : mux_route mux r = inl a → plain a.
Proof. unfold mux_route. repeat case_match; by intros [= <-]. Qed.
Lemma version_mismatch_plain r a : version_mismatch r = Some a → plain a.
Proof. unfold version_mismatch. repeat case_match; by intros [= <-]. Qed.
Lemma commands_handler_call ro cfg r ro' path hs : commands_handler' ro cfg r = ACall ro' path hs → ro' = ro.
Proof. unfold commands_handler. repeat case_match; congruence. Qed.
Lemma commands_handler_gateway ro cfg r w hs path : commands_handler' ro cfg r ≠ AGateway w hs path.
Proof. unfold commands_handler. by repeat case_match. Qed.

Lemma serve_answer fuel st m r a : serve' (S fuel) st m r = Some a → mux_answer fuel st m r a.
Proof.
  cbn. intros Hs. destruct (st !! m) as [mux|] eqn:Hm; [|done]. destruct (Star r); [injection Hs as <-; by apply By_plain|].
  destruct (mux_route mux r) as [b|h] eqn:Hr; [injection Hs as ->; by eapply By_plain, mux_route_plain|].
  apply mux_route_in in Hr as (p & Hin & Hp). assert (has st m p h) as Hh by by exists mux.
  destruct h.
  - by eapply By_collect.
  - destruct (version_mismatch r) eqn:Hv; [injection Hs as ->; by eapply By_plain, version_mismatch_plain|by eapply By_check].
  - destruct (hostname (rq r)); [by eapply By_hostname|injection Hs as <-; by apply By_plain..].
  - injection Hs as <-. by eapply By_commands.
  - injection Hs as <-. by eapply By_gateway.
  - injection Hs as <-. by apply By_plain.
  - injection Hs as <-. by apply By_plain.
  - injection Hs as <-. by apply By_plain.
  - injection Hs as <-. apply By_plain. unfold mutex_fraction. by repeat case_match.
  - injection Hs as <-. by apply By_plain.
  - injection Hs as <-. by apply By_plain.
  - apply By_plain. destruct (p2p_parseRequest peer_Decode (rpath r)) as [[[] ]|]; by injection Hs as <-.
  - injection Hs as <-. by apply By_plain.
Qed.

(** A call of a command is that of a handler, given a request of which only the path may
    have changed. *)
Lemma serve_call fuel st : ∀ m r ro path hs, serve' fuel st m r = Some (ACall ro path hs) →
  ∃ k p cfg r', has st k p (HCommands ro cfg) ∧ same_but_path r r' ∧ commands_handler' ro cfg r' = ACall ro path hs.
Proof.
  induction fuel as [|fuel IH]; intros m r ro path hs Hs; [done|].
  apply serve_answer in Hs as [[]|p c _ Hs|p c _ _ Hs|p c q _ Hs|p ro' cfg Hh Hs|p w hs' _ _ [=]]; [by eapply IH..| |].
  - apply IH in Hs as (k & p' & cfg & r' & Hk & Hsm & Hc). exists k, p', cfg, r'. split_and!; [done|by eapply same_set|done].
  - symmetry in Hs. pose proof (commands_handler_call _ _ _ _ _ _ Hs) as ->. exists m, p, cfg, r. split_and!; [done|apply same_refl|done].
Qed.

Lemma serve_gateway fuel st : ∀ m r w hs path, serve' fuel st m r = Some (AGateway w hs path) →
  ∃ k p, has st k p (HGateway w hs) ∧ HasPrefix path p = true.
Proof.
  induction fuel as [|fuel IH]; intros m r w hs path Hs; [done|].
  apply serve_answer in Hs as [[]|p c _ Hs|p c _ _ Hs|p c q _ Hs|p ro' cfg Hh Hs|p w' hs' Hh Hp [= -> -> ->]]; [by eapply IH..| |by eauto].
  by destruct (commands_handler_gateway ro' cfg r w hs path).
Qed.

(** *** Behind the check of the version *)

(** From mux [K] on nothing changes the path, and from below commands are reached only
    through the check. *)
Definition guarded (K : nat) (st : Store) : Prop :=
  ∀ k p h, has st k p h →
    (k < K → (∀ ro cfg, h ≠ HCommands ro cfg) ∧ (∀ c, child h = Some c → K ≤ c → h = HCheckVersion K)) ∧
    (K ≤ k → ∀ c, h ≠ HHostname c).

Section behind.
Context (K : nat) (st : Store) (Hf : ∀ k p h c, has st k p h → child h = Some c → k < c < length st) (Hg : guarded K st).

Lemma serve_call_behind fuel : ∀ m r ro path hs, K ≤ m → serve' fuel st m r = Some (ACall ro path hs) →
  ∃ p cfg, (∃ k, has st k p (HCommands ro cfg)) ∧ commands_handler' ro cfg r = ACall ro path hs.
Proof.
  induction fuel as [|fuel IH]; intros m r ro path hs HK Hs; [done|].
  apply serve_answer in Hs as [[]|p c Hh Hs|p c Hh _ Hs|p c q Hh Hs|p ro' cfg Hh Hs|p w hs' _ _ [=]].
  - apply IH in Hs; [done|]. pose proof (Hf _ _ _ _ Hh eq_refl). lia.
  - apply IH in Hs; [done|]. pose proof (Hf _ _ _ _ Hh eq_refl). lia.
  - by destruct (proj2 (Hg _ _ _ Hh) HK c).
  - symmetry in Hs. pose proof (commands_handler_call _ _ _ _ _ _ Hs) as ->. eauto.
Qed.

Lemma serve_call_checked fuel : ∀ m r ro path hs, m < K → serve' fuel st m r = Some (ACall ro path hs) →
  ∃ p cfg r', (∃ k, has st k p (HCommands ro cfg)) ∧ same_but_path r r' ∧ version_mismatch r' = None ∧ commands_handler' ro cfg r' = ACall ro path hs.
Proof.
  induction fuel as [|fuel IH]; intros m r ro path hs HK Hs; [done|].
  apply serve_answer in Hs as [[]|p c Hh Hs|p c Hh Hv Hs|p c q Hh Hs|p ro' cfg Hh Hs|p w hs' _ _ [=]].
  - destruct (decide (c < K)); [by apply IH in Hs|]. destruct (proj1 (Hg _ _ _ Hh) HK) as [_ Hc]. by discriminate (Hc c eq_refl ltac:(lia)).
  - destruct (decide (c < K)); [by apply IH in Hs|]. apply serve_call_behind in Hs as (p' & cfg & Hk & Hc); [|lia].
    exists p', cfg, r. split_and!; [done|apply same_refl|done|done].
  - destruct (decide (c < K)).
    + apply IH in Hs as (p' & cfg & r' & Hk & Hsm & Hv & Hc); [|done]. exists p', cfg, r'. split_and!; [done|by eapply same_set|done|done].
    + destruct (proj1 (Hg _ _ _ Hh) HK) as [_ Hc]. by discriminate (Hc c eq_refl ltac:(lia)).
  - by destruct (proj1 (proj1 (Hg _ _ _ Hh) HK) ro' cfg).
Qed.
End behind.
End answers.

Lemma apply_options_app E xs ys st st' m' : ∀ m, apply_options E m (xs ++ ys) st = (Ok m', st') →
  ∃ m1 st1, apply_options E m xs st = (Ok m1, st1) ∧ apply_options E m1 ys st1 = (Ok m', st').
Proof.
  revert st. induction xs as [|x xs IH]; intros st m Ha; cbn in Ha; [by exists m, st|].
  apply bind_ok in Ha as (m2 & st2 & H1 & H2). apply IH in H2 as (m1 & st1 & H2 & H3). exists m1, st1. split; [|done].
  cbn. by rewrite bind_unfold, H1.
Qed.

(** An option that offers commands *)
Definition is_commands (x : ServeOption) : bool := bool_decide (x = CommandsOption ∨ x = CommandsROOption).

Lemma checkVersionOption_adds m st m' st' : checkVersionOption m st = (Ok m', st') →
  m' = length st ∧ length st ≤ length st' ∧ ∀ k p h, has st' k p h → has st k p h ∨ (k = m ∧ h = HCheckVersion m').
Proof.
  intros H. apply bind_ok in H as (c & st2 & H2 & H). injection H2 as <- <-. apply bind_ok in H as (u2 & st3 & H3 & H). injection H as <- <-.
  split; [done|]. split; [rewrite (length_Handle _ _ _ _ _ _ H3), length_app; cbn; lia|].
  intros k p h Hk. destruct (has_Handle _ _ _ _ _ _ _ _ _ H3 Hk) as [H|(-> & -> & ->)]; [left; by apply has_new|by right].
Qed.

Lemma has_length st k p h : has st k p h → k < length st.
Proof. intros (mux & Hm & _). by eapply lookup_lt_Some. Qed.

(** The check makes the mux it exposes a guarded one. *)
Lemma guarded_check E before st1 m1 st2 :
  forward st1 m1 → comes_from E before st1 → (∀ x, x ∈ before → is_commands x = false) →
  (∀ k p h, has st2 k p h → has st1 k p h ∨ (k = m1 ∧ h = HCheckVersion (length st1))) → guarded (length st1) st2.
Proof.
  intros [Hm Hf] Hc Hb Hh k p h Hk. destruct (Hh _ _ _ Hk) as [H|[-> ->]].
  - pose proof (has_length _ _ _ _ H) as Hl. split; [|lia]. intros _. split.
    + intros ro cfg ->. destruct (Hc _ _ _ H) as (x & Hx & [(-> & _)|[c Hfr]]); [|done]. specialize (Hb _ Hx). by destruct ro.
    + intros c Hch. specialize (Hf _ _ _ _ H Hch). lia.
  - split; [|lia]. intros _. split; [done|]. by intros c [= <-].
Qed.

Lemma guarded_step K E x st m st' m' :
  guarded K st → K ≤ m → K ≤ length st → adds_to E x m st m' st' → x ≠ Daemon.HostnameOption →
  guarded K st' ∧ K ≤ m' ∧ K ≤ length st'.
Proof.
  intros Hg Hm Hl [(-> & Hl' & Hh)|(-> & Hl' & Hh)] Hx; (split; [|lia]); intros k p h Hk; destruct (Hh _ _ _ Hk) as [H|[-> H]].
  - by apply Hg in H.
  - split; [lia|]. by intros _ c ->.
  - by apply Hg in H.
  - split; [lia|]. intros _ c ->. by destruct H.
Qed.

(** A server whose commands come after the check, and no host names after that *)
Lemma makeHandler_guarded E before after st :
  (∀ x, x ∈ before → is_commands x = false) → Daemon.HostnameOption ∉ after →
  makeHandler E (before ++ CheckVersionOption :: after) = Ok st → ∃ K, 0 < K ∧ guarded K st.
Proof.
  intros Hb Ha [m Hm]%makeHandler_run. apply apply_options_app in Hm as (m1 & st1 & H1 & H2).
  assert (forward st1 m1) as Hf1.
  { apply (apply_options_inv E (λ _, forward) (λ d x st m st' m', forward_step E x st m st' m') before [] [[]] 0 st1 m1); [|done].
    split; [cbn; lia|]. by intros k p h c ?%has_empty. }
  assert (comes_from E before st1) as Hc1.
  { apply (apply_options_inv E (λ d st _, comes_from E d st) (λ d x st m st' m', comes_from_step E d x st m st' m') before [] [[]] 0 st1 m1); [|done].
    by intros k p h ?%has_empty. }
  cbn [apply_options] in H2. apply bind_ok in H2 as (m2 & st2 & H2 & H3). exists (length st1). split; [destruct Hf1; lia|].
  apply checkVersionOption_adds in H2 as (-> & Hlen & Hh). assert (guarded (length st1) st2) as Hg2 by (by eapply guarded_check).
  apply (apply_options_inv E (λ d st m, Daemon.HostnameOption ∉ d → guarded (length st1) st ∧ length st1 ≤ m ∧ length st1 ≤ length st)) with (done := []) in H3.
  - by apply H3.
  - intros d x st' m' st'' m'' Hd Hadd Hn. apply not_elem_of_app in Hn as [Hn Hx]. destruct (Hd Hn) as (Hg & Hm' & Hl').
    eapply guarded_step; [exact Hg|exact Hm'|exact Hl'|exact Hadd|]. intros ->. apply Hx. left.
  - done.
  - done.
Qed.

(** ** What a request must be to run a command *)

Lemma creds_fold vs : ∀ c, let c' := foldl (λ c v, SetAllowCredentials (bool_decide (ToLower v = "true")) c) c vs in
  APIPath c' = APIPath c ∧ AllowGet c' = AllowGet c ∧ AllowedOrigins c' = AllowedOrigins c ∧ AllowedMethods c' = AllowedMethods c.
Proof. induction vs as [|v vs IH]; intros c; [done|]. exact (IH (SetAllowCredentials (bool_decide (ToLower v = "true")) c)). Qed.

(** The origins and methods of a configuration, before the port is put in *)
Definition config_origins (E : ServeEnv) (hs : ConfigHeaders) : list string :=
  let o := default [] (header_at ACAOrigin hs) ++ (if decide (se_API_ORIGIN E ≠ "") then [se_API_ORIGIN E] else []) in
  match o with [] => defaultLocalhostOrigins | _ => o end.

Lemma commands_config_eq E g hs :
  APIPath (commands_config E g hs) = "/api/v0" ∧ AllowGet (commands_config E g hs) = g ∧
  AllowedOrigins (commands_config E g hs) = patch_origin (addr_port (se_Addr E)) <$> config_origins E hs.
Proof.
  unfold commands_config. set (c0 := mkServerConfig _ _ _ _ _ _). set (c1 := addHeadersFromConfig hs c0).
  assert (APIPath c1 = "/api/v0" ∧ AllowGet c1 = g ∧ AllowedOrigins c1 = default [] (header_at ACAOrigin hs)) as (H1 & H2 & H3).
  { unfold c1, addHeadersFromConfig. cbn zeta.
    set (c2 := match header_at ACAMethods hs with Some _ => _ | None => _ end).
    destruct (creds_fold (default [] (header_at ACACredentials hs)) c2) as (K1 & K2 & K3 & _). cbn [SetHeaders APIPath AllowGet AllowedOrigins].
    rewrite K1, K2, K3. unfold c2. by destruct (header_at ACAMethods hs), (header_at ACAOrigin hs). }
  clearbody c1. unfold patchCORSVars, addCORSDefaults, addCORSFromEnv, config_origins. rewrite <- H3. clear H3.
  set (dflt := defaultLocalhostOrigins). clearbody dflt. set (port := patch_origin _). clearbody port. destruct c1 as [? ? ? os ms ?].
  cbn [APIPath AllowGet AllowedOrigins AllowedMethods SetAllowedOrigins] in *.
  destruct (decide (se_API_ORIGIN E ≠ "")), os, ms; cbn; rewrite ?app_nil_r; done.
Qed.

(** Calls of commands on a server *)
Record gated (referer_origin : string → option string) (E : ServeEnv) (ro : bool) (r : SReq) (path : string) (hs : gmap string (list string)) : Prop := {
  g_method : Method r = "POST" ∨ (ro = true ∧ Method r ∈ ["GET"; "HEAD"]);
  g_config : ∃ rcfg, se_Config E = Ok rcfg ∧ hs = sHeaders (commands_config E ro rcfg.1) ∧
    (Origin r ≠ "" → allowed_by (AllowedOrigins (commands_config E ro rcfg.1)) (Origin r) = true) ∧
    (Referer r ≠ "" → ∃ o, referer_origin (Referer r) = Some o ∧ allowed_by (AllowedOrigins (commands_config E ro rcfg.1)) o = true);
  g_agent : Method r = "POST" → Origin r = "" → Referer r = "" → HasPrefix (UserAgent r) "Mozilla" = true → Contains (UserAgent r) "Electron" = true;
}.

Lemma commands_handler_gated po E ro rcfg r path hs :
  se_Config E = Ok rcfg → commands_handler po ro (commands_config E ro rcfg.1) r = ACall ro path hs →
  gated po E ro r path hs ∧ rpath r = "/api/v0" +:+ path.
Proof.
  intros Hc. destruct (commands_config_eq E ro rcfg.1) as (H1 & H2 & _). unfold commands_handler. rewrite H1, H2.
  destruct (decide (_ ∧ _)); [done|]. destruct (HasPrefix (rpath r) "/api/v0") eqn:Hp; [|done]. cbn [negb].
  destruct (decide (Method r = "OPTIONS")); [done|]. destruct (_ || _) eqn:Hm; [|done]. destruct (_ && _ && _) eqn:Hg; [|done].
  intros Heq. assert (path = TrimPrefix (rpath r) "/api/v0") as -> by congruence. assert (hs = sHeaders (commands_config E ro rcfg.1)) as -> by congruence.
  clear Heq. apply andb_prop in Hg as [[Ho Hr]%andb_prop Hu]. split.
  - constructor.
    + apply orb_prop in Hm as [Hm%bool_decide_eq_true|[? Hm%bool_decide_eq_true]%andb_prop]; [by left|by right].
    + exists rcfg. split_and!; [done|done| |].
      * intros Hn. unfold allowOrigin in Ho. apply orb_prop in Ho as [Ho%bool_decide_eq_true|Ho]; done.
      * intros Hn. unfold allowReferer in Hr. apply orb_prop in Hr as [Hr%bool_decide_eq_true|Hr]; [done|].
        destruct (po (Referer r)) as [o|]; [by exists o|done].
    + intros Hpost Hor Hre Hmo. unfold allowUserAgent in Hu. rewrite Hmo, !bool_decide_eq_true_2 in Hu by done. cbn in Hu. by rewrite orb_false_r in Hu.
  - apply HasPrefix_true in Hp as [t Ht]. by rewrite Ht, TrimPrefix_app.
Qed.

Lemma version_mismatch_none r path w0 w1 ws :
  version_mismatch r = None → rpath r = "/api/v0" +:+ path → Split path "/" = w0 :: w1 :: ws → w1 ≠ "version" →
  Contains (UserAgent r) "/go-ipfs/" = true → UserAgent r = ApiVersion.
Proof.
  unfold version_mismatch. intros Hv Hp Hs Hw Hc. rewrite Hp, HasPrefix_app, sdrop_app, Hs, decide_True, Hc in Hv by done.
  destruct (bool_decide_reflect (ApiVersion = UserAgent r)); [done|]. by cbn in Hv.
Qed.

Section gates.
Context (peer_Decode : string → bool) (referer_origin : string → option string) (hostname : Hostname.Request → Response).
Abbreviation handle' := (handle_request peer_Decode referer_origin hostname).

(** Where the commands a server runs come from, and what the request is *)
Lemma call_gated E opts st r ro path hs :
  makeHandler E opts = Ok st → handle' st r = Some (ACall ro path hs) →
  (if ro then CommandsROOption else CommandsOption) ∈ opts ∧ gated referer_origin E ro r path hs.
Proof.
  intros [_ Hc]%makeHandler_wf Hh. unfold handle_request in Hh. destruct (decide _); [done|].
  apply serve_call in Hh as (k & p & cfg & r' & Hk & Hsm & Hcall). destruct (Hc _ _ _ Hk) as (x & Hx & [(-> & _ & rcfg & Hr & ->)|[c []]]).
  split; [done|]. destruct (commands_handler_gated _ _ _ _ _ _ _ Hr Hcall) as [[G1 G2 G3] _]. rewrite Hsm in G1, G2, G3. by constructor.
Qed.

Lemma call_checked E before after st r ro path hs w0 w1 ws :
  (∀ x, x ∈ before → is_commands x = false) → Daemon.HostnameOption ∉ after →
  makeHandler E (before ++ CheckVersionOption :: after) = Ok st → handle' st r = Some (ACall ro path hs) →
  Split path "/" = w0 :: w1 :: ws → w1 ≠ "version" → Contains (UserAgent r) "/go-ipfs/" = true → UserAgent r = ApiVersion.
Proof.
  intros Hb Ha Hm Hh Hs Hw Hc. pose proof (makeHandler_wf _ _ _ Hm) as [[m0 [Hm0 Hf]] Hfrom].
  destruct (makeHandler_guarded _ _ _ _ Hb Ha Hm) as (K & HK & Hg). unfold handle_request in Hh. destruct (decide _); [done|].
  eapply serve_call_checked in Hh as (p & cfg & r' & [k Hk] & Hsm & Hv & Hcall); [|done..].
  destruct (Hfrom _ _ _ Hk) as (x & Hx & [(-> & _ & rcfg & Hr & ->)|[c []]]).
  destruct (commands_handler_gated _ _ _ _ _ _ _ Hr Hcall) as [_ Hp]. pose proof (version_mismatch_none r' path w0 w1 ws Hv Hp Hs Hw) as Hu.
  rewrite Hsm in Hu. by apply Hu.
Qed.

Lemma gateway_answer E opts st r w hs path :
  makeHandler E opts = Ok st → handle' st r = Some (AGateway w hs path) →
  ∃ paths q, GatewayOption w paths ∈ opts ∧ q ∈ paths ∧ HasPrefix path (q +:+ "/") = true.
Proof.
  intros [_ Hc]%makeHandler_wf Hh. unfold handle_request in Hh. destruct (decide _); [done|].
  apply serve_gateway in Hh as (k & p & Hk & Hp). destruct (Hc _ _ _ Hk) as (x & Hx & [(paths & q & rcfg & -> & Hq & -> & _)|[c []]]).
  by exists paths, q.
Qed.
End gates.

(** ** The two servers of the daemon *)

Lemma replace_go_skip old new s : replace_go old new (String.length s) s = "".
Proof. induction s; [done|]. done. Qed.

Lemma ReplaceAll_at_end pre c old new :
  has_char c pre = false → ReplaceAll (pre +:+ String c old) (String c old) new = pre +:+ new.
Proof.
  unfold ReplaceAll. induction pre as [|x pre IH]; intros Hc.
  - cbn [append replace_go]. rewrite HasPrefix_refl. cbn [String.length pred]. by rewrite replace_go_skip, sapp_nil_r.
  - rewrite has_char_cons in Hc. apply orb_false_elim in Hc as [Hx%bool_decide_eq_false Hc].
    cbn [append replace_go]. assert (HasPrefix (String x (pre +:+ String c old)) (String c old) = false) as ->.
    { cbn. by rewrite decide_False. }
    f_equal. by apply IH.
Qed.

(** The origins of pages the node's own host serves on a port *)
Definition localhost_pages : list string :=
  ["http://127.0.0.1:"; "https://127.0.0.1:"; "http://[::1]:"; "https://[::1]:"; "http://localhost:"; "https://localhost:"].
Definition localhost_origins (port : string) : list string := (λ pre, pre +:+ port) <$> localhost_pages.

Lemma patch_defaults port : port ≠ "" → patch_origin port <$> defaultLocalhostOrigins = localhost_origins port.
Proof.
  intros Hp. change defaultLocalhostOrigins with ((λ pre, pre +:+ "<port>") <$> localhost_pages). unfold localhost_origins.
  assert (Forall (λ pre, has_char "<"%char pre = false) localhost_pages) as Hf by (repeat constructor).
  induction Hf as [|pre l Hpre _ IH]; [done|]. cbn [fmap list_fmap]. rewrite <- IH. f_equal.
  unfold patch_origin. rewrite decide_True by done. exact (ReplaceAll_at_end pre "<"%char "port>" port Hpre).
Qed.

Lemma allowed_by_no_star os o : "*" ∉ os → allowed_by os o = true → o ∈ os.
Proof.
  unfold allowed_by. intros Hs (x & Hx & Hor)%existsb_exists. apply list_elem_of_In in Hx. apply orb_prop in Hor as [H|H]; apply String.eqb_eq in H as ->; done.
Qed.

Lemma localhost_no_star port : "*" ∉ localhost_origins port.
Proof. unfold localhost_origins, localhost_pages. rewrite list_elem_of_fmap. intros (pre & Hp & Hin). repeat (apply elem_of_cons in Hin as [->|Hin]; [done|]). by apply elem_of_nil in Hin. Qed.

Section daemon.
Context (peer_Decode : string → bool) (referer_origin : string → option string) (hostname : Hostname.Request → Response).
Abbreviation handle' := (handle_request peer_Decode referer_origin hostname).

(** C19.  A page of another site cannot run a command on the API server of a node whose
    configuration and environment name no origins: a request that runs one is a POST, comes
    from a page of the node's own host and port if it names its origin or referer, from no
    browser if it names neither, and from this version of go-ipfs or not go-ipfs at all,
    but for the command that tells the version. *)
Theorem api_server_guards_commands o D cfg E st r ro path hs port :
  makeHandler E (api_opts o D cfg) = Ok st → handle' st r = Some (ACall ro path hs) →
  (∀ rcfg, se_Config E = Ok rcfg → header_at ACAOrigin rcfg.1 = None) → se_API_ORIGIN E = "" → se_Addr E = TCPAddr port →
  ro = false ∧ Method r = "POST" ∧
  (Origin r ≠ "" → Origin r ∈ localhost_origins (Itoa port)) ∧
  (Referer r ≠ "" → ∃ u, referer_origin (Referer r) = Some u ∧ u ∈ localhost_origins (Itoa port)) ∧
  (Origin r = "" → Referer r = "" → HasPrefix (UserAgent r) "Mozilla" = true → Contains (UserAgent r) "Electron" = true) ∧
  (∀ w0 w1 ws, Split path "/" = w0 :: w1 :: ws → w1 ≠ "version" → Contains (UserAgent r) "/go-ipfs/" = true → UserAgent r = ApiVersion).
Proof.
  intros Hm Hh Hcfg Henv Haddr. destruct (call_gated _ _ _ _ _ _ _ _ _ _ Hm Hh) as [Hin [Gm (rcfg & Hr & -> & Go & Gr) Ga]].
  assert (ro = false) as ->.
  { destruct ro; [|done]. exfalso. revert Hin. unfold api_opts. rewrite elem_of_app. intros [Hin|Hin].
    - repeat (apply elem_of_cons in Hin as [Hin|Hin]; [try discriminate Hin; by destruct (o_unrestricted o)|]). by apply elem_of_nil in Hin.
    - destruct (decide _); [by apply list_elem_of_singleton in Hin|by apply elem_of_nil in Hin]. }
  destruct (commands_config_eq E false rcfg.1) as (_ & _ & Ho). unfold config_origins in Ho. rewrite (Hcfg _ Hr), Henv, Haddr in Ho. cbn [addr_port] in Ho.
  rewrite decide_False in Ho by (intros []; done). cbn [default app] in Ho. rewrite patch_defaults in Ho by apply Itoa_no_space. rewrite Ho in Go, Gr.
  assert (Method r = "POST") as Hpost by (destruct Gm as [|[? _]]; done).
  split_and!; [done|done| | |by auto|].
  - intros Hn. apply allowed_by_no_star; [apply localhost_no_star|by apply Go].
  - intros Hn. destruct (Gr Hn) as (u & Hu & Hal). exists u. split; [done|]. apply allowed_by_no_star; [apply localhost_no_star|done].
  - intros w0 w1 ws. apply (call_checked peer_Decode referer_origin hostname E [MetricsCollectionOption "api"; MetricsOpenCensusCollectionOption]
      (drop 3 (api_opts o D cfg)) st r false path (sHeaders (commands_config E false rcfg.1)) w0 w1 ws); [| |exact Hm|exact Hh].
    + intros x Hx. repeat (apply elem_of_cons in Hx as [->|Hx]; [done|]). by apply elem_of_nil in Hx.
    + unfold api_opts. cbn [app drop]. intros Hx. repeat (apply elem_of_cons in Hx as [Hx|Hx]; [try discriminate Hx; by destruct (o_unrestricted o)|]).
      cbn in Hx. destruct (decide _); [by apply list_elem_of_singleton in Hx|by apply elem_of_nil in Hx].
Qed.
(** The gateway server runs no command that is not read-only, and what it serves of
    objects is under /ipfs/ or /ipns/ and writable exactly when the daemon was told so. *)
Theorem gateway_server_reads o cfg E st r :
  makeHandler E (gateway_opts o cfg) = Ok st →
  (∀ path hs, handle' st r ≠ Some (ACall false path hs)) ∧
  (∀ w hs path, handle' st r = Some (AGateway w hs path) →
     w = default (Gateway_Writable cfg) (o_writable o) ∧ (HasPrefix path "/ipfs/" = true ∨ HasPrefix path "/ipns/" = true)).
Proof.
  intros Hm.
  assert (∀ x, x ∈ gateway_opts o cfg → x ≠ CommandsOption ∧ (∀ w paths, x = GatewayOption w paths →
    w = default (Gateway_Writable cfg) (o_writable o) ∧ paths = ["/ipfs"; "/ipns"])) as Hx.
  { intros x. unfold gateway_opts. rewrite !elem_of_app. intros [Hin|[Hin|Hin]].
    - repeat (apply elem_of_cons in Hin as [->|Hin]; [split; [done|intros w ps Heq; try discriminate Heq; by injection Heq as <- <-]|]). by apply elem_of_nil in Hin.
    - destruct (P2pHttpProxy cfg); [by apply list_elem_of_singleton in Hin as ->|by apply elem_of_nil in Hin].
    - destruct (decide _); [by apply list_elem_of_singleton in Hin as ->|by apply elem_of_nil in Hin]. }
  split.
  - intros path hs Hh. destruct (call_gated _ _ _ _ _ _ _ _ _ _ Hm Hh) as [Hin _]. by destruct (Hx _ Hin).
  - intros w hs path Hh. destruct (gateway_answer _ _ _ _ _ _ _ _ _ _ Hm Hh) as (paths & q & Hin & Hq & Hp).
    destruct (Hx _ Hin) as [_ Hg]. destruct (Hg _ _ eq_refl) as [-> ->]. split; [done|].
    apply elem_of_cons in Hq as [->|Hq]; [by left|]. apply list_elem_of_singleton in Hq as ->. by right.
Qed.
End daemon.

(** *** A server can be built when no pattern is registered twice *)

(** The patterns an option registers, and whether it then exposes a new mux *)
Definition patterns (x : ServeOption) : list string :=
  match x with
  | MetricsCollectionOption _ | CheckVersionOption | Daemon.HostnameOption => ["/"]
  | MetricsOpenCensusCollectionOption =>
      ["/debug/metrics/oc/debugz/rpcz"; "/debug/metrics/oc/debugz/tracez"; "/debug/metrics/oc/debugz/public"; "/debug/metrics/oc"]
  | CommandsOption | CommandsROOption => ["/api/v0/"]
  | WebUIOption => ["/webui/"]
  | GatewayOption _ paths => (λ p, p +:+ "/") <$> paths
  | VersionOption => ["/version"]
  | DefaultMux path | MutexFractionOption path | MetricsScrapingOption path => [path]
  | LogOption => ["/logs"]
  | P2PProxyOption => ["/p2p/"]
  | RedirectOption path _ => [if decide (path ≠ "") then "/" +:+ path +:+ "/" else "/"]
  end.
Definition exposes (x : ServeOption) : bool :=
  match x with MetricsCollectionOption _ | CheckVersionOption | Daemon.HostnameOption => true | _ => false end.

Fixpoint no_clash (cur : list string) (opts : list ServeOption) : bool :=
  match opts with
  | [] => true
  | x :: opts =>
      bool_decide (NoDup (cur ++ patterns x) ∧ "" ∉ patterns x) && no_clash (if exposes x then [] else cur ++ patterns x) opts
  end.

(** Nothing but the muxes can fail. *)
Record sound (E : ServeEnv) : Prop := {
  sound_config : is_ok (se_Config E) = true; sound_api : se_NewCoreAPI E = None;
  sound_register n : se_Register E n = None; sound_exporter : se_NewExporter E = None;
}.

(** A mux [m] with the patterns [cur] *)
Definition mux_at (st : Store) (m : nat) (cur : list string) : Prop := ∃ mux : Mux, st !! m = Some mux ∧ mux.*1 = cur.

Lemma Handle_at st m cur p h : mux_at st m cur → p ≠ "" → p ∉ cur → ∃ st', Handle m p h st = (Ok (), st') ∧ mux_at st' m (cur ++ [p]).
Proof.
  intros (mux & Hm & <-) Hp Hn. unfold Handle. rewrite Hm, !decide_False by done. eexists. split; [done|].
  eexists. split; [apply list_lookup_insert_eq; by eapply lookup_lt_Some|]. by rewrite fmap_app.
Qed.

Lemma Handles_at {A} m (f : A → string) (h : A → Handler) l : ∀ st cur, mux_at st m cur → NoDup (cur ++ (f <$> l)) → "" ∉ f <$> l →
  ∃ st', mfor l (λ a, Handle m (f a) (h a)) st = (Ok (), st') ∧ mux_at st' m (cur ++ (f <$> l)).
Proof.
  induction l as [|a l IH]; intros st cur Hm Hd He; [exists st; by rewrite app_nil_r|].
  rewrite fmap_cons in Hd, He. rewrite cons_middle, app_assoc in Hd. apply not_elem_of_cons in He as [Ha He].
  destruct (Handle_at st m cur (f a) (h a) Hm) as (st1 & H1 & Hm1); [done|apply NoDup_app in Hd as (Hd & _); apply NoDup_app in Hd; set_solver|].
  destruct (IH st1 _ Hm1 Hd He) as (st2 & H2 & Hm2). exists st2. cbn. rewrite bind_unfold, H1. split; [done|].
  by rewrite <- app_assoc in Hm2.
Qed.

(** A new mux behind the one given *)
Lemma front_at st m cur h : mux_at st m cur → "/" ∉ cur →
  ∃ st', Handle m "/" h (st ++ [[]]) = (Ok (), st') ∧ mux_at st' (length st) [].
Proof.
  intros (mux & Hm & <-) Hn. unfold Handle. rewrite (lookup_app_l_Some _ _ _ _ Hm), !decide_False by done. eexists. split; [done|].
  exists []. split; [|done]. rewrite list_lookup_insert_ne by (apply lookup_lt_Some in Hm; lia). by rewrite lookup_app_r, Nat.sub_diag by lia.
Qed.

Lemma mfor_ok {A} (l : list A) (body : A → B unit) st : (∀ a, a ∈ l → body a st = (Ok (), st)) → mfor l body st = (Ok (), st).
Proof. induction l as [|a l IH]; intros Hb; [done|]. cbn. rewrite bind_unfold, Hb by left. apply IH. intros b Hin. apply Hb. by right. Qed.

Lemma single_at st m cur p h : mux_at st m cur → NoDup (cur ++ [p]) → "" ∉ [p] →
  ∃ st', single p h m st = (Ok m, st') ∧ mux_at st' m (cur ++ [p]).
Proof.
  intros Hm Hd He. apply NoDup_app in Hd as (_ & Hd & _). apply not_elem_of_cons in He as [He _].
  destruct (Handle_at st m cur p h Hm) as (st' & H & Hm'); [done|intros Hin; eapply Hd; [exact Hin|left]|].
  exists st'. unfold single. by rewrite bind_unfold, H.
Qed.

Lemma serve_option_builds E x st m cur :
  sound E → mux_at st m cur → NoDup (cur ++ patterns x) → "" ∉ patterns x →
  ∃ m' st', serve_option E x m st = (Ok m', st') ∧ mux_at st' m' (if exposes x then [] else cur ++ patterns x).
Proof.
  intros [Sc Sa Sr Se] Hm Hd He. destruct (se_Config E) as [rcfg|] eqn:Hcfg; [|done].
  assert (exposes x = true → "/" ∉ cur) as Hroot.
  { intros Hx. apply NoDup_app in Hd as (_ & Hd & _). destruct x; try done; intros Hin; eapply Hd; [exact Hin|left|exact Hin|left|exact Hin|left]. }
  destruct x; cbn [serve_option exposes]; cbn [patterns] in *.
  - destruct (front_at st m cur (HCollect (length st)) Hm (Hroot eq_refl)) as (st' & H & Hm'). exists (length st), st'. split; [|done].
    unfold metricsCollectionOption. rewrite bind_unfold, mfor_ok; [|intros a _; unfold fails_with; by rewrite Sr].
    rewrite bind_unfold. cbn. by rewrite bind_unfold, H.
  - destruct (Handles_at m (PathJoin "/debug/metrics/oc/debugz") (λ _, HDebug) ["rpcz"; "tracez"; "public/"] st cur Hm) as (st1 & H1 & Hm1).
    { change (["/debug/metrics/oc/debugz/rpcz"; "/debug/metrics/oc/debugz/tracez"; "/debug/metrics/oc/debugz/public"; "/debug/metrics/oc"])
        with ((PathJoin "/debug/metrics/oc/debugz" <$> ["rpcz"; "tracez"; "public/"]) ++ ["/debug/metrics/oc"]) in Hd.
      rewrite app_assoc in Hd. by apply NoDup_app in Hd as [Hd _]. }
    { change (PathJoin "/debug/metrics/oc/debugz" <$> ["rpcz"; "tracez"; "public/"])
        with ["/debug/metrics/oc/debugz/rpcz"; "/debug/metrics/oc/debugz/tracez"; "/debug/metrics/oc/debugz/public"]. clear. set_solver. }
    destruct (single_at st1 m _ "/debug/metrics/oc" HMetrics Hm1) as (st2 & H2 & Hm2); [by rewrite <- app_assoc|clear; set_solver|].
    exists m, st2. rewrite <- app_assoc in Hm2. split; [|exact Hm2]. unfold metricsOpenCensusCollectionOption, fails_with. rewrite Se.
    rewrite bind_unfold. cbn [mret M_ret]. by rewrite bind_unfold, H1.
  - destruct (front_at st m cur (HCheckVersion (length st)) Hm (Hroot eq_refl)) as (st' & H & Hm'). exists (length st), st'. split; [|done].
    unfold checkVersionOption. rewrite bind_unfold. cbn. by rewrite bind_unfold, H.
  - destruct (single_at st m cur "/api/v0/" (HCommands false (commands_config E false rcfg.1)) Hm Hd He) as (st' & H & Hm').
    exists m, st'. split; [|done]. unfold commandsOption. rewrite bind_unfold. unfold mlift. rewrite Hcfg. exact H.
  - destruct (single_at st m cur "/api/v0/" (HCommands true (commands_config E true rcfg.1)) Hm Hd He) as (st' & H & Hm').
    exists m, st'. split; [|done]. unfold commandsOption. rewrite bind_unfold. unfold mlift. rewrite Hcfg. exact H.
  - destruct (single_at st m cur "/webui/" (HRedirect WebUIPath) Hm Hd He) as (st' & H & Hm'). by exists m, st'.
  - destruct (Handles_at m (λ p, p +:+ "/") (λ _, HGateway writable (gateway_headers rcfg.2)) paths st cur Hm Hd He) as (st' & H & Hm').
    exists m, st'. split; [|done]. unfold gatewayOption, fails_with. rewrite bind_unfold. unfold mlift. rewrite Hcfg, bind_unfold, Sa.
    cbn [mret M_ret]. by rewrite bind_unfold, H.
  - destruct (single_at st m cur "/version" HVersion Hm Hd He) as (st' & H & Hm'). by exists m, st'.
  - destruct (single_at st m cur path HDefaultMux Hm Hd He) as (st' & H & Hm'). by exists m, st'.
  - destruct (single_at st m cur path HMutexFraction Hm Hd He) as (st' & H & Hm'). by exists m, st'.
  - destruct (single_at st m cur path HMetrics Hm Hd He) as (st' & H & Hm'). by exists m, st'.
  - destruct (single_at st m cur "/logs" HLogs Hm Hd He) as (st' & H & Hm'). by exists m, st'.
  - destruct (front_at st m cur (HHostname (length st)) Hm (Hroot eq_refl)) as (st' & H & Hm'). exists (length st), st'. split; [|done].
    unfold hostnameOption, fails_with, mlift. rewrite bind_unfold. cbn [NewServeMux]. rewrite bind_unfold, Sa. cbn [mret M_ret]. rewrite bind_unfold, Hcfg.
    by rewrite bind_unfold, H.
  - destruct (single_at st m cur "/p2p/" HP2P Hm Hd He) as (st' & H & Hm'). by exists m, st'.
  - destruct (single_at st m cur _ (HRedirect redirect) Hm Hd He) as (st' & H & Hm'). by exists m, st'.
Qed.

Lemma apply_options_builds E opts : sound E → ∀ st m cur, mux_at st m cur → no_clash cur opts = true →
  ∃ m' st', apply_options E m opts st = (Ok m', st').
Proof.
  intros HE. induction opts as [|x opts IH]; intros st m cur Hm Hn; [by exists m, st|]. cbn in Hn.
  apply andb_prop in Hn as [[Hd He]%bool_decide_eq_true Hn]. destruct (serve_option_builds E x st m cur HE Hm Hd He) as (m1 & st1 & H1 & Hm1).
  destruct (IH st1 m1 _ Hm1 Hn) as (m' & st' & H2). exists m', st'. cbn. by rewrite bind_unfold, H1.
Qed.

Lemma makeHandler_builds E opts : sound E → no_clash [] opts = true → ∃ st, makeHandler E opts = Ok st.
Proof.
  intros HE Hn. destruct (apply_options_builds E opts HE [[]] 0 [] ltac:(by exists []) Hn) as (m & st & H). exists st.
  unfold makeHandler. rewrite bind_unfold. cbn [NewServeMux length app]. by rewrite H.
Qed.

(** Both servers of the daemon can be built, with or without a page to redirect to: no
    two of their options register a pattern on the same mux. *)
Theorem daemon_servers_build o D cfg E :
  sound E → Daemon.WebUIPaths D = WebUIPaths →
  (∃ st, makeHandler E (api_opts o D cfg) = Ok st) ∧ (∃ st, makeHandler E (gateway_opts o cfg) = Ok st).
Proof.
  intros HE HD. split; apply makeHandler_builds; try exact HE.
  - unfold api_opts. rewrite HD. destruct (o_unrestricted o), (decide (Gateway_RootRedirect cfg ≠ "")); vm_compute; reflexivity.
  - unfold gateway_opts. destruct (P2pHttpProxy cfg), (decide (Gateway_RootRedirect cfg ≠ "")); vm_compute; reflexivity.
Qed.

(** ** The headers *)

Lemma canonical_byte c : to_upper (to_upper c) = to_upper c ∧ to_lower (to_lower c) = to_lower c ∧
  (validHeaderFieldByte c = true → validHeaderFieldByte (to_upper c) = true ∧ validHeaderFieldByte (to_lower c) = true).
Proof. destruct c as [[][][][][][][][]]; vm_compute; done. Qed.

Lemma canonical_from_idem s : ∀ u, canonical_from u (canonical_from u s) = canonical_from u s.
Proof.
  induction s as [|c s IH]; intros u; [done|]. cbn [canonical_from]. destruct (canonical_byte c) as (Hu & Hl & _).
  destruct u; rewrite ?Hu, ?Hl; f_equal; apply IH.
Qed.

Lemma canonical_from_valid s : ∀ u, sforall validHeaderFieldByte s = true → sforall validHeaderFieldByte (canonical_from u s) = true.
Proof.
  induction s as [|c s IH]; intros u Hs; [done|]. cbn in Hs. apply andb_prop in Hs as [Hc Hs]. cbn [canonical_from sforall].
  destruct (canonical_byte c) as (_ & _ & Hv). destruct (Hv Hc) as [H1 H2]. apply andb_true_intro. split; [by destruct u|by apply IH].
Qed.

Lemma CanonicalHeaderKey_idem h : CanonicalHeaderKey (CanonicalHeaderKey h) = CanonicalHeaderKey h.
Proof.
  unfold CanonicalHeaderKey at 2 3. destruct (sforall validHeaderFieldByte h) eqn:Hv; unfold CanonicalHeaderKey.
  - by rewrite canonical_from_valid, canonical_from_idem.
  - by rewrite Hv.
Qed.

Lemma elem_of_cleanHeaderSet hs h : h ∈ cleanHeaderSet hs ↔ ∃ h0, h0 ∈ hs ∧ h = CanonicalHeaderKey h0.
Proof. unfold cleanHeaderSet. rewrite merge_sort_Permutation, elem_of_elements, elem_of_list_to_set, list_elem_of_fmap. naive_solver. Qed.

(** cleanHeaderSet gives the canonical names of the headers, each once and in order, and
    has nothing to do on its own result. *)
Theorem cleanHeaderSet_exact hs :
  Sorted string_le (cleanHeaderSet hs) ∧ NoDup (cleanHeaderSet hs) ∧
  (∀ h, h ∈ cleanHeaderSet hs ↔ ∃ h0, h0 ∈ hs ∧ h = CanonicalHeaderKey h0) ∧
  cleanHeaderSet (cleanHeaderSet hs) = cleanHeaderSet hs.
Proof.
  split_and!; [| |apply elem_of_cleanHeaderSet|].
  - apply Sorted_merge_sort. intros x y. unfold string_le. destruct (String.leb_total x y); auto.
  - unfold cleanHeaderSet. rewrite merge_sort_Permutation. apply NoDup_elements.
  - unfold cleanHeaderSet at 1 3. f_equal. f_equal. apply leibniz_equiv. intros h. rewrite !elem_of_list_to_set, !list_elem_of_fmap.
    split.
    + intros (h1 & -> & (h0 & Hh & ->)%elem_of_cleanHeaderSet). rewrite CanonicalHeaderKey_idem. eauto.
    + intros (h0 & -> & Hh). exists (CanonicalHeaderKey h0). rewrite CanonicalHeaderKey_idem. split; [done|]. apply elem_of_cleanHeaderSet. eauto.
Qed.

(** The gateway's headers always let a page send and read those it needs, and answer any
    origin unless the configuration names some. *)
Lemma gateway_headers_allow hs :
  ∃ allow expose, gateway_headers hs !! "Access-Control-Allow-Headers" = Some allow ∧ gateway_headers hs !! "Access-Control-Expose-Headers" = Some expose ∧
    "Range" ∈ allow ∧ "Content-Type" ∈ allow ∧ "Content-Range" ∈ expose ∧ is_Some (gateway_headers hs !! ACAOrigin).
Proof.
  unfold gateway_headers. cbn zeta. set (h1 := foldl _ _ _). set (h2 := match h1 !! ACAOrigin with Some _ => _ | None => _ end).
  set (h3 := match h2 !! ACAMethods with Some _ => _ | None => _ end).
  eexists _, _. rewrite lookup_insert_ne, lookup_insert_eq by done. split; [done|]. rewrite lookup_insert_eq. split; [done|].
  assert (∀ h l, h ∈ l → CanonicalHeaderKey h = h → h ∈ cleanHeaderSet l) as Hc.
  { intros h l Hl Hk. apply elem_of_cleanHeaderSet. by exists h. }
  split_and!; [apply Hc; [|done]; apply elem_of_app; left; apply (bool_decide_unpack _); by vm_compute..|].
  rewrite !lookup_insert_ne by done. unfold h3. assert (is_Some (h2 !! ACAOrigin)) as Hs.
  { unfold h2. destruct (h1 !! ACAOrigin) eqn:H; [by rewrite H|]. rewrite lookup_insert_eq. eauto. }
  destruct (h2 !! ACAMethods); [done|]. by rewrite lookup_insert_ne.
Qed.

(** The origins of a configuration are looked up under the canonical name, but a header of
    any spelling of that name is left to them: spelt in lower case they are lost. *)
Theorem lower_case_origins_lost E g os :
  se_API_ORIGIN E = "" →
  let c := commands_config E g [("access-control-allow-origin", Some os)] in
  AllowedOrigins c = patch_origin (addr_port (se_Addr E)) <$> defaultLocalhostOrigins ∧ sHeaders c !! ACAOrigin = None.
Proof.
  intros He. cbn zeta. destruct (commands_config_eq E g [("access-control-allow-origin", Some os)]) as (_ & _ & ->). split.
  - unfold config_origins. by rewrite He.
  - unfold commands_config. set (c0 := mkServerConfig _ _ _ _ _ _).
    assert (∀ c, sHeaders (patchCORSVars (se_Addr E) (addCORSDefaults (addCORSFromEnv (se_API_ORIGIN E) c))) = sHeaders c) as ->.
    { intros [? ? ? os' ms ?]. rewrite He. unfold patchCORSVars, addCORSDefaults, addCORSFromEnv. rewrite decide_False by (intros []; done).
      by destruct os', ms. }
    unfold addHeadersFromConfig. cbn zeta. cbn [SetHeaders sHeaders]. rewrite lookup_insert_ne by done. done.
Qed.

(** ** The proxy to other peers *)

Lemma SplitN_word w s d n : has_char d w = false → SplitN (w +:+ String d s) (String d "") (S (S n)) = w :: SplitN s (String d "") (S n).
Proof.
  intros Hw. unfold SplitN. rewrite Split_app_sep by done. cbn [length]. repeat case_decide; try lia; done.
Qed.

Lemma SplitN_one s d : SplitN s (String d "") 1 = [s].
Proof.
  unfold SplitN. destruct (decide (length (Split s (String d "")) ≤ 1)) as [Hl|_]; [|rewrite take_0, drop_0; cbn [app]; by rewrite Join_Split].
  pose proof (Split_length s d) as H1. pose proof (Join_Split s d) as Hj. destruct (Split s (String d "")) as [|w [|w' ws]]; cbn in *; [lia| |lia]. by subst.
Qed.

(** A request for a path on another peer's server is proxied to that peer, under the
    protocol it names and with the rest of the path whatever slashes that has. *)
Theorem p2p_request_parsed peer_Decode target rest :
  peer_Decode target = true → has_char "/"%char target = false →
  p2p_parseRequest peer_Decode ("/p2p/" +:+ target +:+ "/http/" +:+ rest) = Ok (target, "/http", rest) ∧
  ∀ name, has_char "/"%char name = false →
    p2p_parseRequest peer_Decode ("/p2p/" +:+ target +:+ "/x/" +:+ name +:+ "/http/" +:+ rest) = Ok (target, "/x/" +:+ name +:+ "/http", rest).
Proof.
  intros Hp Ht. unfold p2p_parseRequest. split.
  - change ("/p2p/" +:+ target +:+ "/http/" +:+ rest) with ("" +:+ String "/" ("p2p" +:+ String "/" (target +:+ String "/" ("http" +:+ String "/" rest)))).
    rewrite !SplitN_word, SplitN_one by done. by rewrite Hp.
  - intros name Hn.
    change ("/p2p/" +:+ target +:+ "/x/" +:+ name +:+ "/http/" +:+ rest)
      with ("" +:+ String "/" ("p2p" +:+ String "/" (target +:+ String "/" ("x" +:+ String "/" (name +:+ String "/" ("http" +:+ String "/" rest)))))).
    rewrite !SplitN_word, !SplitN_one by done. by rewrite Hp.
Qed.

(** ** The log stream *)

(** newWriteErrNotifier: a channel with room for one error *)
Inductive LogOp := LWrite (err : option string) | LClose.
Definition notify_err (err : string) (errs : option string) : option string := match errs with None => Some err | Some e => Some e end.
Definition log_op (errs : option string) (o : LogOp) : option string :=
  match o with LWrite (Some e) => notify_err e errs | LWrite None => errs | LClose => notify_err "EOF" errs end.

(** What an operation reports *)
Definition op_err (o : LogOp) : option string := match o with LWrite e => e | LClose => Some "EOF" end.

(** The handler waits for the first error, which no later one replaces; a write never waits. *)
Lemma notifier_first ops : foldl log_op None ops = head (omap op_err ops).
Proof.
  assert (∀ e, foldl log_op (Some e) ops = Some e) as Hs by (induction ops as [|[[]|] ops IH]; intros; cbn; auto).
  revert Hs. induction ops as [|o ops IH]; intros Hs; [done|]. destruct o as [[e|]|]; cbn.
  - specialize (Hs e). exact Hs.
  - apply IH. intros e. exact (Hs e).
  - exact (Hs "EOF").
Qed.

(** ** The count of peers *)

(** PeersTotalValues: of each peer the oldest connection, by the protocols of its address;
    the gauges are floats, exact for the numbers of peers there are. *)
Fixpoint transport (protos : list string) (tr : string) : string :=
  match protos with [] => tr | p :: protos => transport protos (tr +:+ "/" +:+ p) end.
Definition count_peer (vals : gmap string nat) (conns : list (list string)) : gmap string nat :=
  match conns with
  | [] => vals
  | protos :: _ => let tr := transport protos "" in <[tr := S (default 0 (vals !! tr))]> vals
  end.
Definition PeersTotalValues (peers : option (list (list (list string)))) : gmap string nat :=
  match peers with None => ∅ | Some ps => foldl count_peer ∅ ps end.

Lemma count_peers tr ps : ∀ vals : gmap string nat, default 0 (foldl count_peer vals ps !! tr) =
  default 0 (vals !! tr) + length (filter (λ conns, (λ p, transport p "") <$> head conns = Some tr) ps).
Proof.
  induction ps as [|conns ps IH]; intros vals; cbn [foldl]; [cbn; lia|]. rewrite IH, filter_cons. destruct conns as [|protos conns]; cbn [head fmap option_fmap option_map count_peer].
  - rewrite decide_False by done. done.
  - cbn zeta. destruct (decide (transport protos "" = tr)) as [->|Hn].
    + rewrite lookup_insert_eq, decide_True by done. cbn. lia.
    + rewrite lookup_insert_ne, decide_False by (congruence || intros [=]; done). done.
Qed.

(** The gauge of a transport is the number of peers whose first connection uses it. *)
Theorem PeersTotalValues_exact ps tr :
  default 0 (PeersTotalValues (Some ps) !! tr) = length (filter (λ conns, (λ p, transport p "") <$> head conns = Some tr) ps).
Proof. unfold PeersTotalValues. by rewrite count_peers. Qed.

(** ** Running a server *)

Inductive SrvEvent := SrvClose | SrvStart | SrvShutdown.
#[export] Instance SrvEvent_eq_dec : EqDecision SrvEvent. Proof. solve_decision. Defined.

(** How a running server ends: by itself, or because the node closes and it is shut down *)
Inductive SrvEnd := Exited (err : option string) | NodeClosing (Shutdown : option string).

(** Serve of corehttp, with the closing of the listener it defers *)
Definition Serve_ (handler : res string Store) (FromNetAddr : option string) (closing : bool) (ends : SrvEnd) : option string * list SrvEvent :=
  let '(err, evs) :=
    match handler with
    | Err e => (Some e, [])
    | Ok _ =>
        match FromNetAddr with
        | Some e => (Some e, [])
        | None =>
            if closing then (Some "failed to start server, process closing", [])
            else match ends with
                 | Exited err => (err, [SrvStart])
                 | NodeClosing err => (err, [SrvStart; SrvShutdown])
                 end
        end
    end in
  (err, evs ++ [SrvClose]).

(** ListenAndServe *)
Definition ListenAndServe (NewMultiaddr Listen : res string string) (handler : res string Store) (FromNetAddr : option string) (closing : bool)
    (ends : SrvEnd) : option string * list SrvEvent :=
  match NewMultiaddr with
  | Err e => (Some e, [])
  | Ok _ => match Listen with Err e => (Some e, []) | Ok _ => Serve_ handler FromNetAddr closing ends end
  end.

(** A server is started at most once, only when its handler could be built and the node
    is not closing, and its listener is closed last, whatever happens. *)
Theorem Serve_closes handler FromNetAddr closing ends err evs :
  Serve_ handler FromNetAddr closing ends = (err, evs) →
  ∃ before, evs = before ++ [SrvClose] ∧ (SrvClose ∉ before) ∧
    (SrvStart ∈ before ↔ is_ok handler = true ∧ FromNetAddr = None ∧ closing = false) ∧
    (err = None → SrvStart ∈ before).
Proof.
  unfold Serve_. match goal with |- context [let '(_, _) := ?m in _] => destruct m as [e before] eqn:Hin end. intros [= <- <-].
  exists before. split; [done|].
  destruct handler as [st|e']; [destruct FromNetAddr as [e'|]; [|destruct closing; [|destruct ends]]|]; injection Hin as <- <-;
    (split_and!; [apply (bool_decide_unpack _); vm_compute; exact I| |]); try done; try (by intros _; left);
    (split; [|by intros (? & ? & ?); first [left|done]]); first [done|by intros ?%elem_of_nil].
Qed.

(** ** Witnesses *)

Module ServeExample.
Definition E : ServeEnv := mkServeEnv (Ok ([], [("x-frame", Some ["deny"])])) None (λ _, None) None "" (TCPAddr 5001).
Definition D0 : DEnv := DaemonExample.env DaemonExample.cfg (Err ErrNeedMigration) "".
Definition D : DEnv :=
  mkDEnv (Daemon.IsInitialized D0) (Daemon.LoadConf D0) (Daemon.CreateIdentity D0) (Daemon.InitWithIdentity D0) (Daemon.doInit D0)
    (Daemon.Open D0) (Daemon.Scanf D0) (Daemon.ReadMigrationConfig D0) (Daemon.GetMigrationFetcher D0) (Daemon.TempDir D0)
    (Daemon.RunMigration D0) (Daemon.OpenAgain D0) (Daemon.repo_Config D0) (Daemon.NewNode D0) (Daemon.Plugins_Start D0)
    (Daemon.GetConfig D0) (Daemon.TakeListeners D0) (Daemon.NewMultiaddr D0) (Daemon.Listen D0) WebUIPaths
    (Daemon.ConstructNode D0) (Daemon.SetAPIAddr D0) (Daemon.Mount D0) (Daemon.NewCoreAPI D0) (Daemon.Connect D0)
    (Daemon.pin_Add D0) (Daemon.ufs_Get D0) (Daemon.Walk D0) (Daemon.ufs_Add D0) (Daemon.mint_account D0)
    (Daemon.IPFS_REUSEPORT D0) (Daemon.Serve D0) (Daemon.PeriodicGC D0) (Daemon.merge_order D0).
Definition api : list ServeOption := api_opts DaemonExample.opts D0 DaemonExample.cfg.
Definition gw : list ServeOption := gateway_opts DaemonExample.opts DaemonExample.cfg.
Definition built (opts : list ServeOption) : Store := match makeHandler E opts with Ok st => st | Err _ => [] end.
Definition post (path agent origin : string) : SReq :=
  mkSReq (mkRequest "127.0.0.1:5001" "" "" "" path "") "POST" agent origin "" "" false (Ok "").
Definition get (path : string) : SReq := mkSReq (mkRequest "127.0.0.1:8080" "" "" "" path "") "GET" "curl" "" "" "" false (Ok "").
Definition ask_api := handle_request (λ _, true) (λ _, None) (λ r, Hostname.Serve (URLPath r) None None) (built api).
Definition ask_gw := handle_request (λ _, true) (λ _, None) (λ r, Hostname.Serve (URLPath r) None None) (built gw).
Definition api_headers := sHeaders (commands_config E false []).

(** What the servers answer *)
Example api_answers :
  ask_api (post "/api/v0/id" "curl" "http://localhost:5001") = Some (ACall false "/id" api_headers) ∧
  ask_api (post "/api/v0/id" "curl" "https://evil.example") = Some (AStatus 403 "403 - Forbidden") ∧
  ask_api (post "/api/v0/id" "/go-ipfs/0.1/" "") = Some (AStatus 400 "api version mismatch (/go-ipfs/0.11.0/ != /go-ipfs/0.1/)") ∧
  ask_api (post "/api/v0/version" "/go-ipfs/0.1/" "") = Some (ACall false "/version" api_headers) ∧
  ask_api (get "/api/v0/id") = Some (AStatus 405 "405 - Method Not Allowed") ∧
  ask_api (get "/webui") = Some (ARedirect 301 "/webui/" "").
Proof. split_and!; vm_compute; reflexivity. Qed.
End ServeExample.

Lemma requests_are_answered_witness :
  is_ok (makeHandler ServeExample.E ServeExample.api) = true ∧ ∃ a, ServeExample.ask_api (ServeExample.get "/webui") = Some a.
Proof.
  split; [vm_compute; reflexivity|].
  apply (requests_are_answered _ _ _ ServeExample.E ServeExample.api (ServeExample.built ServeExample.api)). vm_compute. reflexivity.
Defined.

Lemma api_server_guards_commands_witness :
  ServeExample.ask_api (ServeExample.post "/api/v0/id" "curl" "http://localhost:5001") = Some (ACall false "/id" ServeExample.api_headers) ∧
  "http://localhost:5001" ∈ localhost_origins "5001".
Proof.
  assert (ServeExample.ask_api (ServeExample.post "/api/v0/id" "curl" "http://localhost:5001") = Some (ACall false "/id" ServeExample.api_headers)) as Hc
    by (vm_compute; reflexivity).
  split; [exact Hc|].
  refine (proj1 (proj2 (proj2 (api_server_guards_commands (λ _, true) (λ _, None) (λ r, Hostname.Serve (URLPath r) None None) DaemonExample.opts
    ServeExample.D0 DaemonExample.cfg ServeExample.E (ServeExample.built ServeExample.api)
    (ServeExample.post "/api/v0/id" "curl" "http://localhost:5001") false "/id" ServeExample.api_headers 5001 _ Hc _ eq_refl eq_refl))) _).
  - vm_compute. reflexivity.
  - intros rcfg [= <-]. reflexivity.
  - discriminate.
Defined.

Lemma gateway_server_reads_witness :
  ServeExample.ask_gw (ServeExample.get "/ipfs/bafy1") = Some (AGateway false (gateway_headers [("x-frame", Some ["deny"])]) "/ipfs/bafy1") ∧
  ∀ path hs, ServeExample.ask_gw (ServeExample.post "/api/v0/repo/gc" "curl" "") ≠ Some (ACall false path hs).
Proof.
  split; [vm_compute; reflexivity|].
  refine (proj1 (gateway_server_reads (λ _, true) (λ _, None) (λ r, Hostname.Serve (URLPath r) None None) DaemonExample.opts DaemonExample.cfg ServeExample.E
    (ServeExample.built ServeExample.gw) (ServeExample.post "/api/v0/repo/gc" "curl" "") _)). vm_compute. reflexivity.
Defined.

Lemma daemon_servers_build_witness :
  (∃ st, makeHandler ServeExample.E (api_opts DaemonExample.opts ServeExample.D DaemonExample.cfg) = Ok st) ∧ ∃ st, makeHandler ServeExample.E ServeExample.gw = Ok st.
Proof. exact (daemon_servers_build DaemonExample.opts ServeExample.D DaemonExample.cfg ServeExample.E (Build_sound ServeExample.E eq_refl eq_refl (λ _, eq_refl) eq_refl) eq_refl). Defined.

Lemma p2p_request_parsed_witness :
  p2p_parseRequest (λ t, bool_decide (t = "QmPeer")) "/p2p/QmPeer/x/tunnel/http/a/b" = Ok ("QmPeer", "/x/tunnel/http", "a/b").
Proof. refine (proj2 (p2p_request_parsed (λ t, bool_decide (t = "QmPeer")) "QmPeer" "a/b" _ _) "tunnel" _); vm_compute; reflexivity. Defined.

Lemma Serve_closes_witness :
  ∃ before, [SrvStart; SrvShutdown; SrvClose] = before ++ [SrvClose] ∧ (SrvClose ∉ before) ∧
    (SrvStart ∈ before ↔ is_ok (Ok [] : res string Store) = true ∧ (None : option string) = None ∧ false = false) ∧
    ((None : option string) = None → SrvStart ∈ before).
Proof. apply (Serve_closes (Ok []) None false (NodeClosing None)). reflexivity. Defined.
