(* ===== verification/Dht.v ===== *)
(** * The routing commands (core/commands/dht.go, core/coreapi/dht.go)

    A routing command runs its query in a goroutine of its own that publishes events and
    cancels their context when it is done; the command passes the events on in the order
    they were published and gives the goroutine's error when the channel is closed.
    Announcing a whole graph is done in two ways: the command visits each graph and then
    announces what it found, the API announces each node when it is first visited. *)

From Stdlib Require Import ZArith Ascii String.
From stdpp Require Import base gmap sets list strings relations.
From S2P Require Import Prelude GoStrings Cid Dag.

(** ** Events *)

Inductive EventType := SendingQuery | PeerResponse | FinalPeer | QueryError | Provider | Value | AddingPeer | DialingPeer | OtherEvent (n : Z).
#[export] Instance EventType_eq_dec : EqDecision EventType. Proof. solve_decision. Defined.

(** peer.AddrInfo: the peer and its addresses; routing.QueryEvent *)
Record AddrInfo := mkAddrInfo { ai_ID : string; ai_Addrs : list string }.
Record QueryEvent := mkEvent { ev_ID : string; ev_Type : EventType; Responses : list AddrInfo; Extra : string }.

(** The client for queries: none, the dual DHT the node runs, with whether its wide-area
    part is active, another router, with whether it is a DHT, or an interface that holds a
    nil dual DHT, which is no nil interface *)
Inductive Client := NoClient | DualDHT (WANActive : bool) | OtherClient (is_kademlia : bool) | NilDualDHT.
#[export] Instance Client_eq_dec : EqDecision Client. Proof. solve_decision. Defined.
Inductive Dht := WAN | LAN | Custom.
#[export] Instance Dht_eq_dec : EqDecision Dht. Proof. solve_decision. Defined.

Record DhtEnv := mkDhtEnv {
  IsOnline : bool; DHTClient : Client; Conns : nat;
  peer_Decode : string → res string string;
  cid_Decode : string → res string Cid;
  (** what a router publishes while it works, and its answer *)
  GetClosestPeers : Dht → string → list QueryEvent * list string * option string;
  FindProvidersAsync : Cid → Z → list QueryEvent * list AddrInfo;
  FindPeer : string → list QueryEvent * res string AddrInfo;
  GetValue : string → list QueryEvent * res string string;
  PutValue : string → string → list QueryEvent * option string;
  Provide : Cid → option string;
  Has : Cid → res string bool;
  Links : Cid → res string (list Cid);
  ResolvePath : string → res string Cid;
  (** the order Keys gives the members of a set in *)
  Keys : list Cid → list Cid;
  (** the error of passing on the n-th event *)
  Emit : nat → option string;
}.

Definition ErrNotOnline : string := "this command must be run in online mode. Try running 'ipfs daemon' first".
Definition ErrNotDHT : string := "routing service is not a DHT".

Section dht.
Context (E : DhtEnv).

(** The loop over the events: what was passed on, and the error that ended it *)
Fixpoint pass_on (n : nat) (events : list QueryEvent) : list QueryEvent * option string :=
  match events with
  | [] => ([], None)
  | e :: events => match Emit E n with Some err => ([], Some err) | None => let '(out, err) := pass_on (S n) events in (e :: out, err) end
  end.

(** What a command comes to when its goroutine published [events] and ended with [err] *)
Definition follow_events (events : list QueryEvent) (err : option string) : list QueryEvent * option string :=
  match pass_on 0 events with (out, Some e) => (out, Some e) | (out, None) => (out, err) end.

Definition error_event (msg : string) : QueryEvent := mkEvent "" QueryError [] msg.
Definition refuse (msg : string) : list QueryEvent * option string := ([], Some msg).

(** ** Queries *)

Definition queryDhtCmd (arg : string) : list QueryEvent * option string :=
  match DHTClient E with
  | NoClient => refuse ErrNotDHT
  | client =>
      match peer_Decode E arg with
      | Err _ => refuse "invalid peer ID"
      | Ok id =>
          let client' := match client with DualDHT active => Some (if active then WAN else LAN) | OtherClient true => Some Custom | _ => None end in
          match client' with
          | None => if decide (client = NilDualDHT) then refuse "panic: invalid memory address or nil pointer dereference" else refuse "dht client does not support GetClosestPeers"
          | Some d =>
              let '(lib, closestPeers, err) := GetClosestPeers E d id in
              follow_events (lib ++ ((λ p, mkEvent p FinalPeer [] "") <$> closestPeers)) err
          end
      end
  end.

Definition findProvidersDhtCmd (numProviders : Z) (arg : string) : list QueryEvent * option string :=
  if negb (IsOnline E) then refuse ErrNotOnline
  else if (numProviders <? 1)%Z then refuse "number of providers must be greater than 0"
  else match cid_Decode E arg with
  | Err e => refuse e
  | Ok c => let '(lib, pchan) := FindProvidersAsync E c numProviders in follow_events (lib ++ ((λ p, mkEvent "" Provider [p] "") <$> pchan)) None
  end.

Definition findPeerDhtCmd (arg : string) : list QueryEvent * option string :=
  if negb (IsOnline E) then refuse ErrNotOnline
  else match peer_Decode E arg with
  | Err e => refuse e
  | Ok pid =>
      match FindPeer E pid with
      | (lib, Err e) => follow_events (lib ++ [error_event e]) (Some e)
      | (lib, Ok pi) => follow_events (lib ++ [mkEvent "" FinalPeer [pi] ""]) None
      end
  end.

(** escapeDhtKey: the key with its peer as bytes *)
Definition escapeDhtKey (s : string) : res string string :=
  match Split s "/" with
  | [p0; p1; p2] =>
      if decide (p0 = "" ∧ (p1 = "ipns" ∨ p1 = "pk"))
      then k ← peer_Decode E p2; Ok (Join [p0; p1; k] "/")
      else Err "invalid key"
  | _ => Err "invalid key"
  end.

(** encoding/base64, as what the value is in an event and how the printer reads it *)
Context (EncodeToString : string → string) (DecodeString : string → res string string).

Definition getValueDhtCmd (arg : string) : list QueryEvent * option string :=
  if negb (IsOnline E) then refuse ErrNotOnline
  else match escapeDhtKey arg with
  | Err e => refuse e
  | Ok dhtkey =>
      match GetValue E dhtkey with
      | (lib, Err e) => follow_events (lib ++ [error_event e]) (Some e)
      | (lib, Ok val) => follow_events (lib ++ [mkEvent "" Value [] (EncodeToString val)]) None
      end
  end.

Definition putValueDhtCmd (arg : string) (file : res string string) : list QueryEvent * option string :=
  if negb (IsOnline E) then refuse ErrNotOnline
  else match escapeDhtKey arg with
  | Err e => refuse e
  | Ok key =>
      match file with
      | Err e => refuse e
      | Ok data =>
          match PutValue E key data with
          | (lib, Some e) => follow_events (lib ++ [error_event e]) (Some e)
          | (lib, None) => follow_events lib None
          end
      end
  end.

(** ** Announcing *)

(** The announcements made so far *)
Abbreviation P := (M (list Cid) string).

Definition provide (c : Cid) : P unit := λ log, (match Provide E c with Some e => Err e | None => Ok () end, log ++ [c]).
Definition provideKeys (cids : list Cid) : P unit := mfor cids provide.

(** dag.Walk without options: depth first, over the nodes visited so far, the last first *)
Inductive WalkErr := WErr (msg : string) | OutOfFuel.

Fixpoint walk (fuel : nat) (c : Cid) (visited : list Cid) : option WalkErr * list Cid :=
  match fuel with
  | 0 => (Some OutOfFuel, visited)
  | S fuel =>
      if decide (c ∈ visited) then (None, visited)
      else
        let visited := visited ++ [c] in
        match Links E c with
        | Err e => (Some (WErr e), visited)
        | Ok links =>
            (fix each (ls : list Cid) (visited : list Cid) : option WalkErr * list Cid :=
               match ls with
               | [] => (None, visited)
               | l :: ls => match walk fuel l visited with (None, visited) => each ls visited | (Some e, visited) => (Some e, visited) end
               end) links visited
        end
  end.

Definition walk_msg (e : WalkErr) : string := match e with WErr e => e | OutOfFuel => "out of fuel" end.

(** provideKeysRec of the command *)
Fixpoint provide_new (keys : list Cid) (provided : list Cid) : P (list Cid) :=
  match keys with
  | [] => mret provided
  | k :: keys => if decide (k ∈ provided) then provide_new keys provided else _ ← provide k; provide_new keys (k :: provided)
  end.

Fixpoint provide_roots (fuel : nat) (cids provided : list Cid) : P unit :=
  match cids with
  | [] => mret ()
  | c :: cids =>
      match walk fuel c [] with
      | (Some e, _) => mthrow (walk_msg e)
      | (None, kset) => provided ← provide_new (Keys E kset) provided; provide_roots fuel cids provided
      end
  end.
Definition provideKeysRec (fuel : nat) (cids : list Cid) : P unit := provide_roots fuel cids [].

(** The arguments; [localCheck] is an option the command does not declare *)
Fixpoint provide_args (localCheck : bool) (args : list string) : res string (list Cid) :=
  match args with
  | [] => Ok []
  | arg :: args =>
      c ← cid_Decode E arg;
      _ ← (if localCheck then has ← Has E c; if has : bool then Ok () else Err "block not found locally, cannot provide" else Ok ());
      cids ← provide_args localCheck args;
      Ok (c :: cids)
  end.

(** The command, with the announcements its goroutine made and the events they published *)
Definition provideRefDhtCmd (fuel : nat) (recursive : bool) (args : list string) (published : list Cid → list QueryEvent)
    : list QueryEvent * option string * list Cid :=
  if negb (IsOnline E) then (refuse ErrNotOnline, [])
  else if decide (Conns E = 0) then (refuse "cannot provide, no connected peers", [])
  else match provide_args false args with
  | Err e => (refuse e, [])
  | Ok cids =>
      match (if recursive then provideKeysRec fuel cids else provideKeys cids) [] with
      | (Err e, log) => (follow_events (published log ++ [error_event e]) (Some e), log)
      | (Ok _, log) => (follow_events (published log) None, log)
      end
  end.

(** *** The API *)

(** How provideKeysRec of the API ends: it returns an error, or it waits for its context to
    end, with the error that has *)
Inductive Ending := Returns (err : string) | Waits.

(** The receiver: each node when it is first visited, until an announcement fails; then
    the error of the walk if it had one; there is nothing else to receive. *)
Fixpoint receive (new : list Cid) (err : option WalkErr) (log : list Cid) : Ending * list Cid :=
  match new with
  | c :: new => match Provide E c with Some e => (Returns e, log ++ [c]) | None => receive new err (log ++ [c]) end
  | [] => match err with Some e => (Returns (walk_msg e), log) | None => (Waits, log) end
  end.
Definition api_provideKeysRec (fuel : nat) (c : Cid) : Ending * list Cid :=
  let '(err, new) := walk fuel c [] in receive new err [].

(** Provide of the API: refused, done without or with an error, or the recursive one, whose
    context ends with [ctx_err] *)
Definition api_Provide (fuel : nat) (checkOnline : option string) (recursive : bool) (ctx_err : string) (path : string)
    : option string * list Cid :=
  match checkOnline with
  | Some e => (Some e, [])
  | None =>
      match ResolvePath E path with
      | Err e => (Some e, [])
      | Ok c =>
          match Has E c with
          | Err e => (Some e, [])
          | Ok false => (Some "block not found locally, cannot provide", [])
          | Ok true =>
              if recursive then match api_provideKeysRec fuel c with (Returns e, log) => (Some e, log) | (Waits, log) => (Some ctx_err, log) end
              else match provideKeys [c] [] with (Err e, log) => (Some e, log) | (Ok _, log) => (None, log) end
          end
      end
  end.

Definition api_FindPeer (checkOnline : option string) (p : string) : res string AddrInfo :=
  match checkOnline with Some e => Err e | None => (FindPeer E p).2 end.

Definition api_FindProviders (checkOnline : option string) (path : string) (numProviders : Z) : res string (list AddrInfo) :=
  match checkOnline with
  | Some e => Err e
  | None => c ← ResolvePath E path;
            if (numProviders <? 1)%Z then Err "number of providers must be greater than 0" else Ok (FindProvidersAsync E c numProviders).2
  end.

(** ** Printing *)

Definition nl : string := String "010"%char "".
Definition tab : string := String "009"%char "".
Definition concat_map (f : AddrInfo → string) (l : list AddrInfo) : string := foldr (λ a s, f a +:+ s) "" l.

(** An override of a type of event, which may panic on an event without responses *)
Abbreviation PfMap := (list (EventType * (QueryEvent → bool → res string string))).

(** printEvent, given the time as it is printed *)
Definition print_default (obj : QueryEvent) (verbose : bool) : string :=
  match ev_Type obj with
  | SendingQuery => if verbose then "* querying " +:+ ev_ID obj +:+ nl else ""
  | Value => if verbose then "got value: '" +:+ Extra obj +:+ "'" +:+ nl else Extra obj
  | PeerResponse => if verbose then "* " +:+ ev_ID obj +:+ " says use " +:+ concat_map (λ p, ai_ID p +:+ " ") (Responses obj) +:+ nl else ""
  | QueryError => if verbose then "error: " +:+ Extra obj +:+ nl else ""
  | DialingPeer => if verbose then "dialing peer: " +:+ ev_ID obj +:+ nl else ""
  | AddingPeer => if verbose then "adding peer to query: " +:+ ev_ID obj +:+ nl else ""
  | FinalPeer => ""
  | Provider => if verbose then "unrecognized event type: 4" +:+ nl else ""
  | OtherEvent n => if verbose then "unrecognized event type: " +:+ Itoa n +:+ nl else ""
  end.

Definition printEvent (now : string) (override : PfMap) (verbose : bool) (obj : QueryEvent) : res string string :=
  let stamp := if verbose then now +:+ ": " else "" in
  match list_find (λ tf, tf.1 = ev_Type obj) override with
  | Some (_, (_, pf)) => s ← pf obj verbose; Ok (stamp +:+ s)
  | None => Ok (stamp +:+ print_default obj verbose)
  end.

Definition first_response (obj : QueryEvent) (f : AddrInfo → string) : res string string :=
  match Responses obj with a :: _ => Ok (f a) | [] => Err "panic: index out of range [0] with length 0" end.

(** The overrides of the commands *)
Definition query_pfm : PfMap := [(FinalPeer, λ (obj : QueryEvent) (_ : bool), Ok (ev_ID obj +:+ nl))].
Definition findprovs_pfm : PfMap :=
  [(FinalPeer, λ (obj : QueryEvent) (verbose : bool), Ok (if verbose then "* closest peer " +:+ ev_ID obj +:+ nl else ""));
   (Provider, λ (obj : QueryEvent) (verbose : bool), first_response obj (λ prov,
      (if verbose then "provider: " else "") +:+ ai_ID prov +:+ nl +:+
      (if verbose then foldr (λ a s, tab +:+ a +:+ nl +:+ s) "" (ai_Addrs prov) else "")))].
Definition provide_pfm : PfMap := [(FinalPeer, λ (obj : QueryEvent) (verbose : bool), Ok (if verbose then "sending provider record to peer " +:+ ev_ID obj +:+ nl else ""))].
Definition findpeer_pfm : PfMap := [(FinalPeer, λ (obj : QueryEvent) (_ : bool), first_response obj (λ pi, foldr (λ a s, a +:+ nl +:+ s) "" (ai_Addrs pi)))].
Definition get_pfm : PfMap :=
  [(Value, λ (obj : QueryEvent) (verbose : bool), if verbose : bool then Ok ("got value: '" +:+ Extra obj +:+ "'" +:+ nl) else DecodeString (Extra obj))].
Definition put_pfm : PfMap :=
  [(FinalPeer, λ (obj : QueryEvent) (verbose : bool), Ok (if verbose then "* closest peer " +:+ ev_ID obj +:+ nl else "")); (Value, λ (obj : QueryEvent) (_ : bool), Ok (ev_ID obj +:+ nl))].

(** What a command writes for the events it passes on *)
Definition print_events (now : string) (pfm : PfMap) (verbose : bool) (events : list QueryEvent) : res string string :=
  foldr (λ (e : QueryEvent) (acc : res string string), s ← printEvent now pfm verbose e; t ← acc; Ok (s +:+ t)) (Ok "") events.
End dht.

(** ** The walk *)

Section walk.
Context (E : DhtEnv).
Definition children (c : Cid) : list Cid := match Links E c with Ok ls => ls | Err _ => [] end.
Abbreviation reach' := (reach children).

(** Walking a list of links *)
Fixpoint walk_each (fuel : nat) (ls : list Cid) (visited : list Cid) : option WalkErr * list Cid :=
  match ls with
  | [] => (None, visited)
  | l :: ls => match walk E fuel l visited with (None, visited) => walk_each fuel ls visited | (Some e, visited) => (Some e, visited) end
  end.

Lemma walk_S fuel c visited :
  walk E (S fuel) c visited =
  if decide (c ∈ visited) then (None, visited)
  else match Links E c with Err e => (Some (WErr e), visited ++ [c]) | Ok links => walk_each fuel links (visited ++ [c]) end.
Proof.
  cbn. destruct (decide (c ∈ visited)); [done|]. destruct (Links E c) as [links|e]; [|done].
  generalize (visited ++ [c]). induction links as [|l ls IH]; intros vs; [done|]. cbn. destruct (walk E fuel l vs) as [[e|] vs']; [done|apply IH].
Qed.

(** What a part of a walk from the nodes [from] adds *)
Record walked (from visited : list Cid) (e : option WalkErr) (visited' new : list Cid) : Prop := {
  w_app : visited' = visited ++ new;
  w_dup : NoDup visited → NoDup visited';
  w_reach x : x ∈ new → ∃ c, c ∈ from ∧ reach' c x;
  w_from : e = None → ∀ c, c ∈ from → c ∈ visited';
  w_closed : e = None → ∀ x, x ∈ new → ∃ ls, Links E x = Ok ls ∧ ∀ y, y ∈ ls → y ∈ visited';
  w_err msg : e = Some (WErr msg) → ∃ x, x ∈ new ∧ Links E x = Err msg;
}.

Lemma walked_nil visited : walked [] visited None visited [].
Proof. constructor; try done; [by rewrite app_nil_r|by intros x ?%elem_of_nil|by intros _ c ?%elem_of_nil|by intros _ x ?%elem_of_nil]. Qed.

Lemma walk_walked fuel : ∀ c visited, ∃ new, walked [c] visited (walk E fuel c visited).1 (walk E fuel c visited).2 new.
Proof.
  induction fuel as [|fuel IH]; intros c visited.
  { exists []. constructor; cbn; try done; [by rewrite app_nil_r|by intros x ?%elem_of_nil]. }
  assert (∀ ls visited, ∃ new, walked ls visited (walk_each fuel ls visited).1 (walk_each fuel ls visited).2 new) as Heach.
  { induction ls as [|l ls IHl]; intros vs; [exists []; apply walked_nil|]. cbn. destruct (IH l vs) as (n1 & [A1 D1 R1 F1 C1 E1]).
    destruct (walk E fuel l vs) as [[e|] vs1]; cbn in *.
    - exists n1. constructor; try done. intros x (c0 & ->%list_elem_of_singleton & Hr)%R1. exists l. split; [left|done].
    - destruct (IHl vs1) as (n2 & [A2 D2 R2 F2 C2 E2]). exists (n1 ++ n2). constructor.
      + by rewrite A2, A1, app_assoc.
      + auto.
      + intros x [(c0 & ->%list_elem_of_singleton & Hr)%R1|(c0 & Hc & Hr)%R2]%elem_of_app; [exists l; split; [left|done]|exists c0; split; [by right|done]].
      + intros He c0 [->|Hc]%elem_of_cons; [|by apply F2]. rewrite A2. apply elem_of_app. left. apply F1; [done|left].
      + intros He x [Hx|Hx]%elem_of_app; [|by apply C2]. destruct (C1 eq_refl x Hx) as (ls' & Hl & Hy). exists ls'. split; [done|].
        intros y Hy'. rewrite A2. apply elem_of_app. left. by apply Hy.
      + intros msg Hm. destruct (E2 msg Hm) as (x & Hx & Hl). exists x. split; [apply elem_of_app; by right|done]. }
  rewrite walk_S. destruct (decide (c ∈ visited)) as [Hin|Hnin].
  { exists []. constructor; cbn; try done; [by rewrite app_nil_r|by intros x ?%elem_of_nil|by intros _ c0 ->%list_elem_of_singleton|by intros _ x ?%elem_of_nil]. }
  destruct (Links E c) as [ls|e] eqn:Hl.
  - destruct (Heach ls (visited ++ [c])) as (n & [A D R F C Er]). exists (c :: n). constructor.
    + rewrite A. by rewrite <- app_assoc.
    + intros Hd. apply D, NoDup_app. split; [done|]. split; [|apply NoDup_singleton]. by intros x Hx ->%list_elem_of_singleton.
    + intros x [->|Hx]%elem_of_cons; [exists c; split; [left|apply rtc_refl]|]. destruct (R x Hx) as (d & Hd & Hr). exists c. split; [left|].
      eapply rtc_l; [|exact Hr]. unfold edge, children. by rewrite Hl.
    + intros _ c0 ->%list_elem_of_singleton. rewrite A. rewrite !elem_of_app. left. right. left.
    + intros He x [->|Hx]%elem_of_cons; [|by apply C]. exists ls. split; [done|]. by apply F.
    + intros msg Hm. destruct (Er msg Hm) as (x & Hx & Hlx). exists x. split; [by right|done].
  - exists [c]. constructor; cbn; try done.
    + intros Hd. apply NoDup_app. split; [done|]. split; [|apply NoDup_singleton]. by intros x Hx ->%list_elem_of_singleton.
    + intros x ->%list_elem_of_singleton. exists c. split; [left|apply rtc_refl].
    + intros msg [= <-]. exists c. split; [left|done].
Qed.

(** A walk that returns has visited exactly what is reachable, each node once. *)
Lemma walk_exact fuel c new :
  walk E fuel c [] = (None, new) → NoDup new ∧ ∀ x, x ∈ new ↔ reach' c x.
Proof.
  intros Hw. destruct (walk_walked fuel c []) as (n & [A D R F C _]). rewrite Hw in *. cbn in *. subst n. split; [by apply D, NoDup_nil_2|].
  intros x. split; [by intros (d & ->%list_elem_of_singleton & Hr)%R|]. intros Hr.
  assert (c ∈ new) as Hc by (apply F; [done|left]). clear -Hr Hc C.
  induction Hr as [|y z x Hyz Hr IH]; [done|]. apply IH. destruct (C eq_refl y Hc) as (ls & Hl & Hin). apply Hin. unfold edge, children in Hyz. by rewrite Hl in Hyz.
Qed.

Lemma walk_sound fuel c e new : walk E fuel c [] = (e, new) → NoDup new ∧ (∀ x, x ∈ new → reach' c x) ∧ (∀ msg, e = Some (WErr msg) → ∃ x, x ∈ new ∧ Links E x = Err msg).
Proof.
  intros Hw. destruct (walk_walked fuel c []) as (n & [A D R F C Er]). rewrite Hw in *. cbn in *. subst n. split; [by apply D, NoDup_nil_2|].
  split; [by intros x (d & ->%list_elem_of_singleton & Hr)%R|done].
Qed.

(** With a rank that decreases along links, fuel beyond that of the root is enough. *)
Lemma walk_enough (rank : Cid → nat) : (∀ a b, edge children a b → rank b < rank a) →
  ∀ fuel c visited, rank c < fuel → (walk E fuel c visited).1 ≠ Some OutOfFuel.
Proof.
  intros Hrank fuel. induction fuel as [|fuel IH]; intros c visited Hf; [lia|]. rewrite walk_S. destruct (decide (c ∈ visited)); [done|].
  destruct (Links E c) as [ls|e] eqn:Hl; [|done].
  assert (∀ l, l ∈ ls → rank l < fuel) as Hls.
  { intros l Hin. assert (edge children c l) as Hed by (unfold edge, children; by rewrite Hl). apply Hrank in Hed. lia. }
  generalize (visited ++ [c]). clear Hl Hf. induction ls as [|l ls IHl]; intros vs; [done|]. cbn.
  pose proof (IH l vs (Hls l ltac:(left))) as Hn. destruct (walk E fuel l vs) as [[e|] vs']; [done|]. apply IHl. intros l' Hl'. apply Hls. by right.
Qed.
End walk.

(** ** What is announced *)

Section announce.
Context (E : DhtEnv) (Keys_perm : ∀ l, Keys E l ≡ₚ l).
Abbreviation reach' := (reach (children E)).

Lemma provide_new_run keys : ∀ provided log r log',
  NoDup log → (∀ x, x ∈ provided ↔ x ∈ log) → provide_new E keys provided log = (r, log') →
  NoDup log' ∧ (∀ x, x ∈ log' → x ∈ log ∨ x ∈ keys) ∧ (∀ x, x ∈ log → x ∈ log') ∧
  match r with Ok p => (∀ x, x ∈ p ↔ x ∈ log') ∧ (∀ x, x ∈ keys → x ∈ log') | Err e => ∃ x, x ∈ log' ∧ Provide E x = Some e end.
Proof.
  induction keys as [|k keys IH]; intros provided log r log' Hd Hp Hr; cbn in Hr.
  - injection Hr as <- <-. split_and!; [done|by left|done|done|by intros x ?%elem_of_nil].
  - destruct (decide (k ∈ provided)) as [Hk|Hk].
    + destruct (IH _ _ _ _ Hd Hp Hr) as (H1 & H2 & H3 & H4). split_and!; [done| |done|].
      * intros x [?|?]%H2; [by left|right; by right].
      * destruct r; [|done]. destruct H4 as [H4 H5]. split; [done|]. intros x [->|Hx]%elem_of_cons; [by apply H3, Hp|by apply H5].
    + rewrite bind_unfold in Hr. unfold provide in Hr. assert (NoDup (log ++ [k])) as Hd'.
      { apply NoDup_app. split; [done|]. split; [|apply NoDup_singleton]. intros x Hx ->%list_elem_of_singleton. by apply Hk, Hp. }
      destruct (Provide E k) as [e|] eqn:He.
      * injection Hr as <- <-. split_and!; [done| | |].
        -- intros x [?| ->%list_elem_of_singleton]%elem_of_app; [by left|right; left].
        -- intros x Hx. apply elem_of_app. by left.
        -- exists k. split; [|done]. apply elem_of_app. right. left.
      * apply IH in Hr as (H1 & H2 & H3 & H4); [|done|].
        -- split_and!; [done| | |].
           ++ intros x [[?| ->%list_elem_of_singleton]%elem_of_app|?]%H2; [by left|right; left|right; by right].
           ++ intros x Hx. apply H3, elem_of_app. by left.
           ++ destruct r; [|done]. destruct H4 as [H4 H5]. split; [done|].
              intros x [->|Hx]%elem_of_cons; [apply H3, elem_of_app; right; left|by apply H5].
        -- intros x. rewrite elem_of_cons, elem_of_app, list_elem_of_singleton, Hp. tauto.
Qed.

Lemma provide_roots_run fuel cids : ∀ provided log r log',
  NoDup log → (∀ x, x ∈ provided ↔ x ∈ log) → provide_roots E fuel cids provided log = (r, log') →
  NoDup log' ∧ (∀ x, x ∈ log' → x ∈ log ∨ ∃ c, c ∈ cids ∧ reach' c x) ∧ (∀ x, x ∈ log → x ∈ log') ∧
  (r = Ok () → ∀ c x, c ∈ cids → reach' c x → x ∈ log') ∧
  (∀ e, r = Err e → (∃ x, x ∈ log' ∧ Provide E x = Some e) ∨ ∃ c w vs, c ∈ cids ∧ walk E fuel c [] = (Some w, vs) ∧ e = walk_msg w).
Proof.
  induction cids as [|c cids IH]; intros provided log r log' Hd Hp Hr; cbn in Hr.
  - injection Hr as <- <-. split_and!; [done|by left|done|by intros _ c x ?%elem_of_nil|done].
  - destruct (walk E fuel c []) as [[w|] kset] eqn:Hw.
    + injection Hr as <- <-. split_and!; [done|by left|done|done|]. intros e [= <-]. right. exists c, w, kset. split; [left|done].
    + rewrite bind_unfold in Hr. destruct (provide_new E (Keys E kset) provided log) as [[p|e] log1] eqn:Hn.
      * apply provide_new_run in Hn as (H1 & H2 & H3 & H4 & H5); [|done..].
        apply IH in Hr as (K1 & K2 & K3 & K4 & K5); [|done..]. apply walk_exact in Hw as [_ Hw]. split_and!; [done| |by auto| |].
        -- intros x [[?|Hx]%H2|(d & Hd' & Hx)]%K2; [by left|right; exists c; split; [left|]|right; exists d; split; [by right|done]].
           rewrite Keys_perm in Hx. by apply Hw.
        -- intros Hok d x [->|Hd']%elem_of_cons Hx; [|by eapply K4]. apply K3, H5. rewrite Keys_perm. by apply Hw.
        -- intros e He. destruct (K5 e He) as [?|(d & w & vs & Hd' & Hwd & ->)]; [by left|]. right. exists d, w, vs. split; [by right|done].
      * apply provide_new_run in Hn as (H1 & H2 & H3 & H4); [|done..]. injection Hr as <- <-. apply walk_exact in Hw as [_ Hw].
        split_and!; [done| |done|done|intros e' [= <-]; by left].
        intros x [?|Hx]%H2; [by left|right]. exists c. split; [left|]. rewrite Keys_perm in Hx. by apply Hw.
Qed.

(** A recursive announcement announces only what is reachable from the keys it was
    given, nothing twice even where the graphs overlap, and when it succeeds all of it; it
    fails only because an announcement or the reading of a node did. *)
Theorem provideKeysRec_exact (rank : Cid → nat) fuel cids r log :
  (∀ a b, edge (children E) a b → rank b < rank a) → (∀ c, c ∈ cids → rank c < fuel) → provideKeysRec E fuel cids [] = (r, log) →
  NoDup log ∧ (∀ x, x ∈ log → ∃ c, c ∈ cids ∧ reach' c x) ∧
  match r with
  | Ok _ => ∀ c x, c ∈ cids → reach' c x → x ∈ log
  | Err e => (∃ x, x ∈ log ∧ Provide E x = Some e) ∨ (∃ c x, c ∈ cids ∧ reach' c x ∧ Links E x = Err e)
  end.
Proof.
  intros Hrank Hf Hr. apply provide_roots_run in Hr as (H1 & H2 & _ & H4 & H5); [|apply NoDup_nil_2|done]. split; [done|]. split.
  - intros x [?%elem_of_nil|?]%H2; done.
  - destruct r as [[]|e]; [by apply H4|]. destruct (H5 e eq_refl) as [?|(c & w & vs & Hc & Hw & ->)]; [by left|right].
    pose proof (walk_enough E rank Hrank fuel c [] (Hf c Hc)) as Hn. rewrite Hw in Hn. cbn in Hn.
    destruct w as [msg|]; [|done]. destruct (walk_sound _ _ _ _ _ Hw) as (_ & Hs & He). destruct (He msg eq_refl) as (x & Hx & Hl).
    exists c, x. split; [done|]. split; [by apply Hs|done].
Qed.

(** The API's way announces in the order of the visits. *)
Lemma receive_run new err : ∀ log, match receive E new err log with
  | (Returns e, log') => (∃ x, x ∈ new ∧ Provide E x = Some e) ∨ (∃ w, err = Some w ∧ e = walk_msg w)
  | (Waits, log') => err = None ∧ log' = log ++ new ∧ ∀ x, x ∈ new → Provide E x = None
  end.
Proof.
  induction new as [|c new IH]; intros log; cbn.
  - destruct err as [w|]; [right; by exists w|]. split_and!; [done|by rewrite app_nil_r|by intros x ?%elem_of_nil].
  - destruct (Provide E c) as [e|] eqn:He; [left; exists c; split; [left|done]|]. specialize (IH (log ++ [c])).
    destruct (receive E new err (log ++ [c])) as [[e|] log'].
    + destruct IH as [(x & Hx & Hp)|?]; [left; exists x; split; [by right|done]|by right].
    + destruct IH as (-> & -> & Hp). split_and!; [done|by rewrite <- app_assoc|]. intros x [->|Hx]%elem_of_cons; [done|by apply Hp].
Qed.

(** A recursive announcement through the API never succeeds: where nothing fails it
    announces the whole graph, each node once, and then waits for its context to end. *)
Theorem api_provide_never_succeeds fuel ctx_err path :
  (api_Provide E fuel None true ctx_err path).1 ≠ None ∧
  ∀ (rank : Cid → nat) c, (∀ a b, edge (children E) a b → rank b < rank a) → rank c < fuel →
    (∀ x, reach' c x → is_ok (Links E x) = true ∧ Provide E x = None) →
    ∃ log, api_provideKeysRec E fuel c = (Waits, log) ∧ NoDup log ∧ ∀ x, x ∈ log ↔ reach' c x.
Proof.
  split.
  - unfold api_Provide. destruct (ResolvePath E path) as [c|]; [|done]. destruct (Has E c) as [[]|]; [|done..].
    by destruct (api_provideKeysRec E fuel c) as [[] ].
  - intros rank c Hrank Hf Hok. unfold api_provideKeysRec. destruct (walk E fuel c []) as [err new] eqn:Hw.
    destruct (walk_sound _ _ _ _ _ Hw) as (_ & Hs & He). pose proof (walk_enough E rank Hrank fuel c [] Hf) as Hn. rewrite Hw in Hn. cbn in Hn.
    assert (err = None) as ->.
    { destruct err as [[msg|]|]; [|done..]. destruct (He msg eq_refl) as (x & Hx & Hl). destruct (Hok x (Hs x Hx)) as [H _]. by rewrite Hl in H. }
    apply walk_exact in Hw as [Hd Hin]. exists new. pose proof (receive_run new None []) as Hr. destruct (receive E new None []) as [[e|] log'].
    + destruct Hr as [(x & Hx & Hp)|(w & [=] & _)]. destruct (Hok x (Hs x Hx)) as [_ H]. congruence.
    + destruct Hr as (_ & -> & _). done.
Qed.
End announce.

(** ** What a command passes on *)

Section passes.
Context (E : DhtEnv).

Lemma emit_all_run events : ∀ n,
  match pass_on E n events with
  | (out, None) => out = events ∧ ∀ i, i < length events → Emit E (n + i) = None
  | (out, Some e) => out = take (length out) events ∧ length out < length events ∧ Emit E (n + length out) = Some e ∧
      ∀ i, i < length out → Emit E (n + i) = None
  end.
Proof.
  induction events as [|ev events IH]; intros n; cbn; [split; [done|lia]|].
  destruct (Emit E n) as [e|] eqn:He; cbn; [rewrite Nat.add_0_r; split_and!; [done|lia|done|lia]|].
  specialize (IH (S n)). destruct (pass_on E (S n) events) as [out [e|]]; cbn.
  - destruct IH as (H1 & H2 & H3 & H4). split_and!; [by rewrite <- H1|lia|by rewrite <- Nat.add_succ_comm|].
    intros [|i] Hi; [by rewrite Nat.add_0_r|]. rewrite <- Nat.add_succ_comm. apply H4. lia.
  - destruct IH as [-> H2]. split; [done|]. intros [|i] Hi; [by rewrite Nat.add_0_r|]. rewrite <- Nat.add_succ_comm. apply H2. lia.
Qed.

(** A command passes on the events of its query in order, none lost or added, up to one
    it cannot pass on; it ends with the error of that, or else with the query's own. *)
Theorem follow_exact events err :
  ((∀ i, i < length events → Emit E i = None) → follow_events E events err = (events, err)) ∧
  ∀ out e, follow_events E events err = (out, e) →
    out = take (length out) events ∧ (out ≠ events → ∃ msg, e = Some msg ∧ Emit E (length out) = Some msg) ∧ (e = None → out = events ∧ err = None).
Proof.
  pose proof (emit_all_run events 0) as He. unfold follow_events. destruct (pass_on E 0 events) as [out [msg|]]; cbn in He.
  - destruct He as (H1 & H2 & H3 & H4). split; [intros H; by rewrite H in H3 by done|]. intros out' e [= <- <-]. split_and!; [done| |done].
    intros _. by exists msg.
  - destruct He as [-> H2]. split; [done|]. intros out e [= <- <-]. by rewrite take_ge by lia.
Qed.

(** The keys the value commands take are those of two words after the root, the first
    ipns or pk and the second a peer, and they are sent with the peer in bytes. *)
Theorem escapeDhtKey_exact s k :
  escapeDhtKey E s = Ok k ↔
  ∃ ns p id, (ns = "ipns" ∨ ns = "pk") ∧ has_char "/"%char p = false ∧ s = "/" +:+ ns +:+ "/" +:+ p ∧ peer_Decode E p = Ok id ∧
    k = "/" +:+ ns +:+ "/" +:+ id.
Proof.
  unfold escapeDhtKey. split.
  - pose proof (Join_Split s "/"%char) as Hj. pose proof (Split_words s "/"%char) as Hw. change (String "/" "") with "/" in Hj, Hw.
    destruct (Split s "/") as [|p0 [|p1 [|p2 [|p3 ws]]]]; try done. destruct (decide _) as [[-> Hns]|]; [|done].
    destruct (peer_Decode E p2) as [id|e] eqn:Hp; [|done]. intros [= <-]. exists p1, p2, id. split_and!; [done| |by rewrite <- Hj|done|done].
    inversion Hw as [|? ? _ Hw1]; inversion Hw1 as [|? ? _ Hw2]; by inversion Hw2.
  - intros (ns & p & id & Hns & Hp & -> & Hd & ->).
    assert (has_char "/"%char ns = false) as Hs by (by destruct Hns as [->| ->]).
    change ("/" +:+ ns +:+ "/" +:+ p) with ("" +:+ String "/" (ns +:+ String "/" p)). change "/" with (String "/" "").
    rewrite !Split_app_sep, Split_word by done. rewrite decide_True by done. rewrite Hd. done.
Qed.

Lemma printed_cons now pfm verbose e events :
  print_events now pfm verbose (e :: events) = (s ← printEvent now pfm verbose e; t ← print_events now pfm verbose events; Ok (s +:+ t)).
Proof. reflexivity. Qed.

(** Events that print nothing *)
Lemma printed_quiet now pfm verbose lib events :
  (∀ e, e ∈ lib → printEvent now pfm verbose e = Ok "") → print_events now pfm verbose (lib ++ events) = print_events now pfm verbose events.
Proof.
  induction lib as [|e lib IH]; intros Hq; [done|]. cbn [app]. rewrite printed_cons, Hq, IH by (left || intros e' He'; apply Hq; by right).
  by destruct (print_events now pfm verbose events).
Qed.

(** ipfs dht get writes the value and nothing else, whatever the query publishes on its
    way but values. *)
Theorem get_prints_value EncodeToString DecodeString now lib val :
  DecodeString (EncodeToString val) = Ok val → (∀ e, e ∈ lib → ev_Type e ≠ Value) →
  print_events now (get_pfm DecodeString) false (lib ++ [mkEvent "" Value [] (EncodeToString val)]) = Ok val.
Proof.
  intros Hd Hlib. rewrite printed_quiet.
  - rewrite printed_cons. unfold printEvent, get_pfm. cbn [list_find]. rewrite decide_True by done. cbn [fst snd ev_Type Extra]. rewrite Hd.
    cbn. by rewrite sapp_nil_r.
  - intros e He. unfold printEvent, get_pfm. cbn [list_find]. rewrite decide_False by (cbn; specialize (Hlib e He); congruence). cbn.
    unfold print_default. specialize (Hlib e He). by destruct (ev_Type e).
Qed.

(** ipfs dht findprovs writes the peers it finds in their order, one to a line. *)
Theorem findprovs_prints now lib pchan :
  (∀ e, e ∈ lib → ev_Type e ∉ [Value; Provider]) →
  print_events now findprovs_pfm false (lib ++ ((λ p, mkEvent "" Provider [p] "") <$> pchan)) = Ok (concat_map (λ p, ai_ID p +:+ nl) pchan).
Proof.
  intros Hlib. rewrite printed_quiet.
  - induction pchan as [|p pchan IHp]; [done|]. cbn [fmap list_fmap]. rewrite printed_cons, IHp. unfold printEvent. cbn -[nl append concat_map].
    rewrite !sapp_nil_r. done.
  - intros [id ty rs ex] He. specialize (Hlib _ He). cbn in Hlib. destruct ty; try done; exfalso; apply Hlib; [right; left|left].
Qed.
End passes.

(** ** Witnesses *)

Module DhtExample.
Definition k (s : string) : Cid := CidV1 DagProtobuf (mkMultihash SHA2_256 s).
(** Two graphs that share a node, which one of them reaches twice *)
Definition links (c : Cid) : res string (list Cid) :=
  if decide (c = k "a") then Ok [k "b"; k "c"] else if decide (c = k "b") then Ok [k "c"]
  else if decide (c = k "d") then Ok [k "c"] else Ok [].
Definition rank (c : Cid) : nat := if decide (c = k "a") then 2 else if decide (c = k "b" ∨ c = k "d") then 1 else 0.
Definition E : DhtEnv := {|
  IsOnline := true; DHTClient := DualDHT false; Conns := 3; peer_Decode p := if decide (p = "") then Err "empty" else Ok ("id:" +:+ p); cid_Decode s := Ok (k s);
  GetClosestPeers d _ := ([], if decide (d = LAN) then ["near"] else [], None); FindProvidersAsync _ _ := ([], [mkAddrInfo "p1" []; mkAddrInfo "p2" []]);
  FindPeer p := ([], Ok (mkAddrInfo p [])); GetValue _ := ([mkEvent "p1" SendingQuery [] ""], Ok "v"); PutValue _ _ := ([], None); Provide _ := None;
  Has _ := Ok true; Links := links; ResolvePath s := Ok (k s); Keys l := rev l; Emit n := if decide (n = 7) then Some "pipe" else None |}.

Lemma rank_below a b : edge (children E) a b → rank b < rank a.
Proof.
  unfold edge, children. cbn [Links E]. unfold links.
  repeat case_decide; subst; intros Hin; repeat (apply elem_of_cons in Hin as [->|Hin]; [vm_compute; lia|]); by apply elem_of_nil in Hin.
Qed.
End DhtExample.

(** The witness's set of keys is given backwards. *)
Lemma provideKeysRec_exact_witness :
  let log := [DhtExample.k "c"; DhtExample.k "b"; DhtExample.k "a"; DhtExample.k "d"] in
  provideKeysRec DhtExample.E 3 [DhtExample.k "a"; DhtExample.k "d"] [] = (Ok (), log) ∧ NoDup log.
Proof.
  cbv zeta. assert (provideKeysRec DhtExample.E 3 [DhtExample.k "a"; DhtExample.k "d"] [] =
    (Ok (), [DhtExample.k "c"; DhtExample.k "b"; DhtExample.k "a"; DhtExample.k "d"])) as Hr by (vm_compute; reflexivity).
  split; [exact Hr|]. refine (proj1 (provideKeysRec_exact DhtExample.E _ DhtExample.rank 3 _ _ _ DhtExample.rank_below _ Hr)).
  - intros l. symmetry. apply Permutation_rev.
  - intros c Hin. repeat (apply elem_of_cons in Hin as [->|Hin]; [vm_compute; lia|]). by apply elem_of_nil in Hin.
Defined.

Lemma api_provide_never_succeeds_witness :
  ∃ log, api_provideKeysRec DhtExample.E 3 (DhtExample.k "a") = (Waits, log) ∧ NoDup log ∧
    ∀ x, x ∈ log ↔ reach (children DhtExample.E) (DhtExample.k "a") x.
Proof.
  refine (proj2 (api_provide_never_succeeds DhtExample.E 3 "context canceled" "a") DhtExample.rank _ DhtExample.rank_below _ _).
  - vm_compute. lia.
  - intros x _. split; [|reflexivity]. cbn. unfold DhtExample.links. by repeat case_decide.
Defined.

Lemma follow_exact_witness :
  follow_events DhtExample.E [mkEvent "p1" SendingQuery [] ""; mkEvent "p2" FinalPeer [] ""] None =
    ([mkEvent "p1" SendingQuery [] ""; mkEvent "p2" FinalPeer [] ""], None).
Proof.
  refine (proj1 (follow_exact DhtExample.E [mkEvent "p1" SendingQuery [] ""; mkEvent "p2" FinalPeer [] ""] None) _).
  intros i Hi. cbn. rewrite decide_False; [done|]. cbn in Hi. lia.
Defined.

Lemma get_prints_value_witness :
  print_events "12:00" (get_pfm (λ s, Ok (sdrop 1 s))) false [mkEvent "p1" SendingQuery [] ""; mkEvent "" Value [] "=v"] = Ok "v".
Proof.
  refine (get_prints_value (λ s, "=" +:+ s) (λ s, Ok (sdrop 1 s)) "12:00" [mkEvent "p1" SendingQuery [] ""] "v" eq_refl _).
  intros e ->%list_elem_of_singleton. discriminate.
Defined.

Lemma findprovs_prints_witness :
  print_events "12:00" findprovs_pfm false ([mkEvent "p" PeerResponse [] ""] ++ [mkEvent "" Provider [mkAddrInfo "p1" []] ""]) = Ok ("p1" +:+ nl +:+ "").
Proof.
  refine (findprovs_prints "12:00" [mkEvent "p" PeerResponse [] ""] [mkAddrInfo "p1" []] _).
  intros e ->%list_elem_of_singleton. apply (bool_decide_unpack _). vm_compute. exact I.
Defined.
