(* ===== verification/Names.v ===== *)
(** * Names (core/coreapi/name.go, core/coreapi/coreapi.go, core/commands/name,
    core/commands/resolve.go)

    Publishing signs a path with a key that is looked up by its name or by its peer ID;
    resolving takes the last of the results a resolver finds.  The key store is the
    interface of Keystore.v, so what is proved of a look-up holds of every store with its
    laws. *)

From Stdlib Require Import ZArith Ascii String.
From stdpp Require Import base gmap sets list strings.
From S2P Require Import Prelude GoStrings Cid CmdEnv Keystore Keys.

(** ** An API and what it is made of *)

(** Where a part of an API comes from: the node, one that stays offline, or nowhere *)
Inductive Part := OfNode | OfflinePart | NilPart.

(** The parts that depend on the settings (coreapi.go) *)
Record CoreAPI := mkCoreAPI {
  routing : Part; namesys : Part; provider : Part; peerstore : Part; peerHost : Part; recordValidator : Part;
  exchange : Part; blocks : Part; dag : Part; set_Offline : bool; set_FetchBlocks : bool;
}.

(** options.ApiOption *)
Inductive ApiOption := OptOffline (b : bool) | OptFetchBlocks (b : bool).
Definition apply_opt (s : bool * bool) (o : ApiOption) : bool * bool :=
  match o with OptOffline b => (b, s.2) | OptFetchBlocks b => (s.1, b) end.

Definition DefaultIpnsCacheSize : Z := 128.

(** WithOptions, on the settings of the API it is called on; [cfg] is Ipns.ResolveCacheSize
    and [NewNameSystem] what building a name system with a cache of a size returns. *)
Definition WithOptions (nd : bool) (cfg : res string Z) (NewNameSystem : Z → option string) (parentOpts : bool * bool) (opts : list ApiOption)
    : res string CoreAPI :=
  let '(offline, fetch) := foldl apply_opt parentOpts opts in
  if negb nd then Err "cannot apply options to api without node"
  else
    let sub := mkCoreAPI OfNode OfNode OfNode OfNode OfNode OfNode OfNode OfNode OfNode offline fetch in
    sub ← (if offline then
             cs ← cfg;
             let cs := if decide (cs = 0%Z) then DefaultIpnsCacheSize else cs in
             if (cs <? 0)%Z then Err "cannot specify negative resolve cache size"
             else match NewNameSystem cs with
                  | Some e => Err ("error constructing namesys: " +:+ e)
                  | None => Ok (mkCoreAPI OfflinePart OfflinePart OfflinePart NilPart NilPart NilPart OfNode OfNode OfNode offline fetch)
                  end
           else Ok sub : res string CoreAPI);
    Ok (if offline || negb fetch
        then mkCoreAPI (routing sub) (namesys sub) (provider sub) (peerstore sub) (peerHost sub) (recordValidator sub)
               OfflinePart OfflinePart OfflinePart offline fetch
        else sub).

Definition NewCoreAPI (nd : bool) (cfg : res string Z) (NewNameSystem : Z → option string) (opts : list ApiOption) : res string CoreAPI :=
  WithOptions nd cfg NewNameSystem (false, true) opts.

(** ** Publishing *)

(** Errors: being offline is told apart from the rest. *)
Inductive NErr := NOffline | NOther (e : KErr).
Definition ErrOffline : string := "this action must be run in online mode, try running 'ipfs daemon' first".
Definition err_offline (allowOffline IsOnline : bool) : option NErr := if negb IsOnline && negb allowOffline then Some NOffline else None.

(** A record that was published *)
Record Published (K : Type) := mkPublished { pub_key : K; pub_path : string; pub_eol : Z; pub_ttl : option Z }.
Arguments mkPublished {K}. Arguments pub_key {K}. Arguments pub_path {K}. Arguments pub_eol {K}. Arguments pub_ttl {K}.

Record IpnsEntry := mkIpnsEntry { ie_Name : string; ie_Value : string }.
Record PublishSettings := mkPublishSettings { ValidTime : Z; p_Key : string; TTL : option Z; AllowOffline : bool }.

Record NameEnv (K : Type) := mkNameEnv {
  n_IsOnline : bool;
  IpnsMounted : bool;                              (** Mounts.Ipns is there and active *)
  ParsePath : string → res string string;
  PublishWithEOL : K → string → option string;
  privateKey : K;
  n_IDFromKey : K → res KErr string;
  n_peer_Decode : string → option string;
  FormatKeyID : string → string;
  Now_ : Z;
}.
Arguments n_IsOnline {K}. Arguments IpnsMounted {K}. Arguments ParsePath {K}. Arguments PublishWithEOL {K}. Arguments privateKey {K}.
Arguments n_IDFromKey {K}. Arguments n_peer_Decode {K}. Arguments FormatKeyID {K}. Arguments Now_ {K}. Arguments mkNameEnv {K}.

Section name_api.
Context {S K : Type} `{!Keystore S K} (E : NameEnv K).
Abbreviation A := (M S KErr).
(** The key store and the records published *)
Abbreviation NM := (M (S * list (Published K)) NErr).

(** The last loop of keylookup *)
Fixpoint lookup_by_id (targetPid : string) (keys : list string) : A K :=
  match keys with
  | [] => mthrow (KMsg "no key by the given name or PeerID was found")
  | key :: keys =>
      privKey ← ks_Get key;
      pid ← mlift (n_IDFromKey E privKey);
      if decide (targetPid = pid) then mret privKey else lookup_by_id targetPid keys
  end.

(** keylookup: a Get that gives no key and no error there is not. *)
Definition keylookup (k : string) : A K :=
  if decide (k = "self") then mret (privateKey E)
  else mstate (λ s,
    match ks_Get k s with
    | (Ok key, s1) => (Ok key, s1)
    | (Err ErrNoSuchKey, s1) =>
        (keys ← ks_List (K := K);
         match n_peer_Decode E k with
         | None => mthrow ErrNoSuchKey
         | Some targetPid =>
             match n_IDFromKey E (privateKey E) with
             | Err e => mthrow (KMsg "failed to determine peer ID for private key")
             | Ok pid => if decide (pid = targetPid) then mret (privateKey E) else lookup_by_id targetPid keys
             end
         end) s1
    | (Err e, s1) => (Err e, s1)
    end).

Definition on_store {B} (c : A B) : NM B := λ sp,
  match c sp.1 with (Ok b, s) => (Ok b, (s, sp.2)) | (Err e, s) => (Err (NOther e), (s, sp.2)) end.
Definition other {B} (r : res string B) : NM B := λ sp, (match r with Ok b => Ok b | Err e => Err (NOther (KMsg e)) end, sp).
Definition refuse_if (o : option NErr) : NM unit := match o with Some e => mthrow e | None => mret () end.

(** PublishWithEOL of the name system *)
Definition publish (k : K) (pth : string) (eol : Z) (ttl : option Z) : NM unit := λ sp,
  match PublishWithEOL E k pth with
  | Some e => (Err (NOther (KMsg e)), sp)
  | None => (Ok (), (sp.1, sp.2 ++ [mkPublished k pth eol ttl]))
  end.

Definition Publish (p : string) (options : PublishSettings) : NM IpnsEntry :=
  _ ← refuse_if (if IpnsMounted E then Some (NOther (KMsg "cannot manually publish while IPNS is mounted")) else None);
  _ ← refuse_if (err_offline (AllowOffline options) (n_IsOnline E));
  pth ← other (ParsePath E p);
  k ← on_store (keylookup (p_Key options));
  let eol := (Now_ E + ValidTime options)%Z in
  _ ← publish k pth eol (TTL options);
  pid ← on_store (mlift (n_IDFromKey E k));
  mret (mkIpnsEntry (FormatKeyID E pid) p).

(** PublishCmd: the options, an encoder of keys, time.ParseDuration and resolving a node *)
Definition PublishCmd (keyEnc : res string (string → string)) (ParseDuration : string → res string Z) (ResolveNode : string → option string)
    (allowOffline : bool) (kname lifetime : string) (ttl : option string) (resolve : bool) (arg : string) : NM IpnsEntry :=
  enc ← other keyEnc;
  validTime ← other (match ParseDuration lifetime with Ok d => Ok d | Err e => Err ("error parsing lifetime option: " +:+ e) end);
  d ← other (match ttl with None => Ok None | Some t => match ParseDuration t with Ok d => Ok (Some d) | Err e => Err e end end);
  _ ← other (if resolve then match ResolveNode arg with Some e => Err e | None => Ok () end else Ok ());
  out ← (λ sp, match Publish arg (mkPublishSettings validTime kname d allowOffline) sp with
               | (Err NOffline, sp') => (Err (NOther (KMsg "can't publish while offline: pass `--allow-offline` to override")), sp')
               | r => r
               end);
  pid ← other (match n_peer_Decode E (ie_Name out) with Some pid => Ok pid | None => Err "failed to parse peer ID" end);
  mret (mkIpnsEntry (enc pid) (ie_Value out)).

End name_api.

(** ** Resolving *)

(** What a resolver is asked, and a result: a path and perhaps an error *)
Inductive ResolveOpt := Depth (n : Z) | DhtRecordCount (n : Z) | DhtTimeout (d : Z).
Inductive RsErr := ErrResolveRecursion | ErrResolveFailed | RsMsg (msg : string).
#[export] Instance RsErr_eq_dec : EqDecision RsErr. Proof. solve_decision. Defined.
Record IpnsResult := mkResult { r_Path : string; r_Err : option RsErr }.

Record ResolveEnv := mkResolveEnv {
  (** the resolver of the node, which has a cache, and one made for the request *)
  ResolveAsync : bool → string → list ResolveOpt → list IpnsResult;
  NewNameSystem : option string;
  SelfID : res string string;
  rs_ParseDuration : string → res string Z;
}.

Section resolve.
Context (E : ResolveEnv).

Definition ipns_name (name : string) : string := if HasPrefix name "/ipns/" then name else "/ipns/" +:+ name.

(** Search: allowed offline *)
Definition Search (name : string) (cache : bool) (opts : list ResolveOpt) : res string (list IpnsResult) :=
  _ ← (if cache then Ok () else match NewNameSystem E with Some e => Err e | None => Ok () end : res string unit);
  Ok (ResolveAsync E cache (ipns_name name) opts).

(** The loop of Resolve *)
Fixpoint last_result (results : list IpnsResult) (p : option string) (err : option RsErr) : option string * option RsErr :=
  match results with
  | [] => (p, err)
  | r :: results => match r_Err r with Some e => (Some (r_Path r), Some e) | None => last_result results (Some (r_Path r)) None end
  end.
Definition Resolve (name : string) (cache : bool) (opts : list ResolveOpt) : option string * option RsErr :=
  match Search name cache opts with
  | Err e => (None, Some (RsMsg e))
  | Ok results => last_result results None (Some ErrResolveFailed)
  end.

(** The options of a resolution *)
Definition resolve_opts (recursive : bool) (rc : option Z) (dhtt : option string) : res string (list ResolveOpt) :=
  t ← (match dhtt with
       | None => Ok []
       | Some t => d ← rs_ParseDuration E t; if (d <? 0)%Z then Err "DHT timeout value must be >= 0" else Ok [DhtTimeout d]
       end : res string (list ResolveOpt));
  Ok ((if recursive then [] else [Depth 1]) ++ (match rc with Some n => [DhtRecordCount n] | None => [] end) ++ t).

(** An error a command that resolves step by step lets pass *)
Definition fatal_err (recursive : bool) (e : option RsErr) : option RsErr :=
  match e with Some e => if recursive || negb (bool_decide (e = ErrResolveRecursion)) then Some e else None | None => None end.

(** The loop of IpnsCmd over a stream of results *)
Fixpoint emit_results (recursive : bool) (results : list IpnsResult) : list string * option RsErr :=
  match results with
  | [] => ([], None)
  | v :: results =>
      match fatal_err recursive (r_Err v) with
      | Some e => ([], Some e)
      | None => let '(out, err) := emit_results recursive results in (r_Path v :: out, err)
      end
  end.

(** IpnsCmd: the paths it emits and its error *)
Definition IpnsCmd (arg : option string) (recursive nocache stream : bool) (rc : option Z) (dhtt : option string) : list string * option RsErr :=
  match (match arg with Some n => Ok n | None => SelfID E end) with
  | Err e => ([], Some (RsMsg e))
  | Ok name =>
      match resolve_opts recursive rc dhtt with
      | Err e => ([], Some (RsMsg e))
      | Ok opts =>
          let name := ipns_name name in
          if negb stream then
            let '(output, err) := Resolve name (negb nocache) opts in
            match fatal_err recursive err with
            | Some e => ([], Some e)
            | None => match output with Some p => ([p], None) | None => ([], Some (RsMsg "panic: nil path")) end
            end
          else match Search name (negb nocache) opts with
               | Err e => ([], Some (RsMsg e))
               | Ok results => emit_results recursive results
               end
      end
  end.

(** ResolveCmd, which declares the record count as an int and reads it as a uint, so never
    has one; resolving a path gives its namespace, its CID and what is left of it. *)
Definition ResolveCmd (mb : Multibase) (req : CidOpts) (ResolvePath : string → res string (string * Cid * string))
    (name : string) (recursive : bool) (rc : option Z) (dhtt : option string) : res string string :=
  if HasPrefix name "/ipns/" && negb recursive then
    opts ← resolve_opts false None dhtt;
    match Resolve name true opts with
    | (output, err) => match fatal_err false err with
        | Some (RsMsg e) => Err e
        | Some _ => Err "could not resolve name"
        | None => match output with Some p => Ok p | None => Err "panic: nil path" end
        end
    end
  else
    enc ← (if negb (CidBaseDefined req) && negb (HasPrefix name "/ipns/")
           then match CidEncoderFromPath mb name with Ok enc => Ok enc | Err _ => GetCidEncoder mb req end
           else GetCidEncoder mb req);
    rp ← ResolvePath name;
    let '(namespace, c, remainder) := rp in
    let encoded := "/" +:+ namespace +:+ "/" +:+ Encode mb enc c in
    Ok (if decide (remainder ≠ "") then encoded +:+ "/" +:+ remainder else encoded).
End resolve.

(** ** Subscriptions to names (ipnsps.go) *)

(** record.SplitKey *)
Definition SplitKey (key : string) : option (string * string) :=
  match key with
  | String "/"%char rest => match SplitN rest "/" 2 with [ns; k] => if decide (ns = "") then None else Some (ns, k) | _ => None end
  | _ => None
  end.

(** ipnspsSubsCmd, with the subscriptions of the router if there is one *)
Definition ipnspsSubsCmd (keyEnc : res string (string → string)) (PSRouter : option (list string)) (IDFromString : string → option string)
    : res string (list string) :=
  enc ← keyEnc;
  match PSRouter with
  | None => Err "IPNS pubsub subsystem is not enabled"
  | Some subs =>
      Ok (omap (λ key, match SplitKey key with
                       | Some (ns, k) => if decide (ns ≠ "ipns") then None else (λ pid, "/ipns/" +:+ enc pid) <$> IDFromString k
                       | None => None
                       end) subs)
  end.

(** ipnspsCancelCmd: whether there was a subscription, and those left *)
Definition ipnspsCancelCmd (PSRouter : option (list string)) (watching : list string) (peer_Decode : string → res string string) (arg : string)
    : res string (bool * list string) :=
  match PSRouter with
  | None => Err "IPNS pubsub subsystem is not enabled"
  | Some subs =>
      pid ← peer_Decode (TrimPrefix arg "/ipns/");
      let key := "/ipns/" +:+ pid in
      if decide (key ∈ watching) then Err "key has active subscriptions"
      else Ok (bool_decide (key ∈ subs), filter (λ k, k ≠ key) subs)
  end.

(** ** What an API made offline uses *)

(** An API made offline has no part that reaches the network, and one that must not
    fetch blocks has no such exchange; otherwise every part is the node's. *)
Theorem WithOptions_exact nd cfg mk parent opts api :
  WithOptions nd cfg mk parent opts = Ok api →
  (set_Offline api, set_FetchBlocks api) = foldl apply_opt parent opts ∧
  (set_Offline api = true → Forall (λ p, p ≠ OfNode) [routing api; namesys api; provider api; peerstore api; peerHost api; exchange api; blocks api; dag api]) ∧
  (set_FetchBlocks api = false → Forall (λ p, p = OfflinePart) [exchange api; blocks api; dag api]) ∧
  (set_Offline api = false → set_FetchBlocks api = true →
     Forall (λ p, p = OfNode) [routing api; namesys api; provider api; peerstore api; peerHost api; recordValidator api; exchange api; blocks api; dag api]).
Proof.
  unfold WithOptions. destruct (foldl apply_opt parent opts) as [offline fetch]. destruct nd; [|done]. cbn [negb].
  destruct offline; cbn [orb].
  - destruct cfg as [cs|]; [|done]. cbn -[Z.ltb DefaultIpnsCacheSize]. destruct (_ <? 0)%Z; [done|]. destruct (mk _); [done|]. intros [= <-].
    cbn. split_and!; [done|by repeat constructor|by repeat constructor|done].
  - cbn. destruct fetch; intros [= <-]; cbn; (split_and!; [done|done| |]); by repeat constructor.
Qed.

(** ** Looking a key up *)

Section lookup.
Context {S K : Type} `{!Keystore S K, !KeystoreView S K, !KeystoreLaws S K} (E : NameEnv K).

Lemma lookup_by_id_run target keys : ∀ s r s', lookup_by_id E target keys s = (r, s') →
  s' = s ∧ ∀ key, r = Ok key → (∃ n, n ∈ keys ∧ stored s n key) ∧ n_IDFromKey E key = Ok target.
Proof.
  induction keys as [|n keys IH]; intros s r s' Hr; cbn in Hr; [by injection Hr as <- <-|].
  rewrite bind_unfold in Hr. destruct (ks_Get n s) as [rk s1] eqn:Hg. destruct (Get_law _ _ _ _ Hg) as [-> Hk]. destruct rk as [key|e]; [|by injection Hr as <- <-].
  rewrite bind_unfold in Hr. unfold mlift in Hr. destruct (n_IDFromKey E key) as [pid|e] eqn:Hid; [|by injection Hr as <- <-].
  destruct (decide (target = pid)) as [->|Hne].
  - injection Hr as <- <-. split; [done|]. intros key' [= <-]. split; [|done]. exists n. split; [left|by apply Hk].
  - destruct (IH _ _ _ Hr) as [-> H]. split; [done|]. intros key' Hok. destruct (H _ Hok) as [(m & Hm & Hs) ?]. split; [|done]. exists m. split; [by right|done].
Qed.

(** What a look-up may give for a name *)
Definition named_key (s : S) (k : string) (key : K) : Prop :=
  (k = "self" ∧ key = privateKey E) ∨ stored s k key ∨
  ∃ id, n_peer_Decode E k = Some id ∧ n_IDFromKey E key = Ok id ∧ (key = privateKey E ∨ ∃ n, stored s n key).

Lemma keylookup_run k s r s' : keylookup E k s = (r, s') → s' = s ∧ ∀ key, r = Ok key → named_key s k key.
Proof.
  unfold keylookup, mstate. destruct (decide (k = "self")) as [->|Hk].
  - intros [= <- <-]. split; [done|]. intros key [= <-]. by left.
  - destruct (ks_Get k s) as [rk s1] eqn:Hg. destruct (Get_law _ _ _ _ Hg) as [-> Hst].
    destruct rk as [key|[| |o|m]]; try (intros [= <- <-]; by split).
    + intros [= <- <-]. split; [done|]. intros key' [= <-]. right. left. by apply Hst.
    + rewrite bind_unfold. destruct (ks_List s) as [rl s2] eqn:Hl. destruct (List_law _ _ _ Hl) as [-> _]. destruct rl as [keys|e]; [|intros [= <- <-]; by split].
      destruct (n_peer_Decode E k) as [target|] eqn:Hd; [|intros [= <- <-]; by split].
      destruct (n_IDFromKey E (privateKey E)) as [pid|e] eqn:Hid; [|intros [= <- <-]; by split].
      destruct (decide (pid = target)) as [->|Hne].
      * intros [= <- <-]. split; [done|]. intros key [= <-]. right. right. exists target. split; [done|]. split; [done|by left].
      * intros Hr. destruct (lookup_by_id_run _ _ _ _ _ Hr) as [-> H]. split; [done|]. intros key Hok. destruct (H _ Hok) as [(n & _ & Hs) ?].
        right. right. exists target. split; [done|]. split; [done|]. right. by exists n.
Qed.

(** Looking a key up changes nothing, and gives the node's own key for self, the key
    stored under the name, or else a key, the node's own or a stored one, whose peer ID the
    name is; and a name that is stored is never taken for an ID. *)
Theorem keylookup_exact k s r s' :
  keylookup E k s = (r, s') →
  s' = s ∧ (∀ key, r = Ok key → named_key s k key) ∧ (k = "self" → r = Ok (privateKey E)) ∧
  (k ≠ "self" → ∀ key, (ks_Get k s).1 = Ok key → r = Ok key).
Proof.
  intros Hr. destruct (keylookup_run _ _ _ _ Hr) as [-> H]. split_and!; [done|done| |].
  - intros ->. unfold keylookup in Hr. rewrite decide_True in Hr by done. by injection Hr as <-.
  - intros Hk key Hg. unfold keylookup, mstate in Hr. rewrite decide_False in Hr by done. destruct (ks_Get k s) as [rk s1]. cbn in Hg. subst rk. by injection Hr as <-.
Qed.

(** Publishing publishes one record, of the path that was given, until the end of its
    lifetime, signed with the key that was named, and answers with that key's ID; it does
    so only online or when told otherwise, and not over a mounted name system.  It
    publishes nothing when it fails, but for failing to give the ID. *)
Theorem Publish_exact p o s l r s' l' :
  Publish E p o (s, l) = (r, (s', l')) →
  s' = s ∧
  match r with
  | Ok ie => ∃ key pth id, l' = l ++ [mkPublished key pth (Now_ E + ValidTime o)%Z (TTL o)] ∧ ParsePath E p = Ok pth ∧ named_key s (p_Key o) key ∧
      n_IDFromKey E key = Ok id ∧ ie = mkIpnsEntry (FormatKeyID E id) p ∧ IpnsMounted E = false ∧ (n_IsOnline E = true ∨ AllowOffline o = true)
  | Err e => l' = l ∨ ∃ key e', named_key s (p_Key o) key ∧ n_IDFromKey E key = Err e' ∧ e = NOther e'
  end.
Proof.
  unfold Publish. rewrite bind_unfold. destruct (IpnsMounted E) eqn:Hm; cbn [refuse_if]; [intros [= <- <- <-]; by auto|]. cbn [mret M_ret].
  rewrite bind_unfold. unfold err_offline. destruct (negb (n_IsOnline E) && negb (AllowOffline o)) eqn:Ho; cbn [refuse_if]; [intros [= <- <- <-]; by auto|]. cbn [mret M_ret].
  rewrite bind_unfold. unfold other. destruct (ParsePath E p) as [pth|e] eqn:Hp; [|intros [= <- <- <-]; by auto].
  rewrite bind_unfold. unfold on_store at 1. cbn [fst snd]. destruct (keylookup E (p_Key o) s) as [rk s1] eqn:Hk. destruct (keylookup_run _ _ _ _ Hk) as [-> Hkey].
  destruct rk as [key|e]; [|intros [= <- <- <-]; by auto]. rewrite bind_unfold. unfold publish. destruct (PublishWithEOL E key pth); [intros [= <- <- <-]; by auto|].
  cbn [fst snd]. rewrite bind_unfold. unfold on_store, mlift. cbn [fst snd]. destruct (n_IDFromKey E key) as [id|e] eqn:Hid; intros [= <- <- <-]; (split; [done|]).
  - exists key, pth, id. split_and!; try done; [by apply Hkey|]. apply andb_false_iff in Ho as [H|H]; apply negb_false_iff in H; [by left|by right].
  - right. exists key, e. split; [by apply Hkey|done].
Qed.
End lookup.

(** ** One result or a stream of them *)

Section resolving.
Context (E : ResolveEnv).

(** Only the last result has an error. *)
Definition err_last (results : list IpnsResult) : Prop := ∀ i r, results !! i = Some r → is_Some (r_Err r) → S i = length results.

Lemma err_last_cons r results : err_last (r :: results) → err_last results ∧ (is_Some (r_Err r) → results = []).
Proof.
  intros Hl. split.
  - intros i r' Hi He. specialize (Hl (S i) r' Hi He). cbn in Hl. lia.
  - intros He. specialize (Hl 0 r eq_refl He). destruct results; [done|]. cbn in Hl. lia.
Qed.

Lemma last_result_fatal recursive results : ∀ p err out e,
  (recursive = true ∨ err_last results) → emit_results recursive results = (out, e) →
  let '(p', err') := last_result results p err in
  match last out with
  | Some q => e = None → p' = Some q ∧ fatal_err recursive err' = None
  | None => e = None → results = [] ∧ p' = p ∧ err' = err
  end ∧ (∀ x, e = Some x → fatal_err recursive err' = Some x).
Proof.
  induction results as [|r results IH]; intros p err out e Hl Hem; cbn in Hem |- *; [by injection Hem as <- <-|].
  destruct (fatal_err recursive (r_Err r)) as [x|] eqn:Hf.
  - injection Hem as <- <-. destruct (r_Err r) as [y|]; [|done]. split; [done|]. by intros ? [= <-].
  - destruct (emit_results recursive results) as [out' e'] eqn:Hem'. injection Hem as <- <-. destruct (r_Err r) as [y|] eqn:Hy.
    + assert (results = []) as ->.
      { destruct Hl as [->|Hl]; [by cbn in Hf|]. by apply err_last_cons in Hl as [_ Hl]; apply Hl; rewrite Hy. }
      injection Hem' as <- <-. by cbn.
    + assert (recursive = true ∨ err_last results) as Hl' by (destruct Hl as [->|Hl]; [by left|right; by apply err_last_cons in Hl as [? _]]).
      specialize (IH (Some (r_Path r)) None out' e' Hl' eq_refl). destruct (last_result results (Some (r_Path r)) None) as [p' err'].
      destruct IH as [IH1 IH2]. split; [|done]. rewrite last_cons. destruct (last out') as [q|]; [done|]. intros He. by destruct (IH1 He) as (_ & -> & ->).
Qed.

(** Resolving at once gives the last of the paths a stream gives, and fails with its
    error or, when it gives none, with one of its own; that holds of a recursive
    resolution, and of any whose results have no error but the last. *)
Theorem resolve_is_last_of_stream arg recursive nocache rc dhtt out e :
  (recursive = true ∨ ∀ c n o, err_last (ResolveAsync E c n o)) →
  IpnsCmd E arg recursive nocache true rc dhtt = (out, e) →
  IpnsCmd E arg recursive nocache false rc dhtt =
    match e with Some x => ([], Some x) | None => match last out with Some p => ([p], None) | None => ([], Some ErrResolveFailed) end end.
Proof.
  unfold IpnsCmd. intros Hl. destruct (match arg with Some _ => _ | None => _ end) as [name|x]; [|by intros [= <- <-]].
  destruct (resolve_opts E recursive rc dhtt) as [opts|x]; [|by intros [= <- <-]]. cbn [negb].
  unfold Resolve. destruct (Search E (ipns_name name) (negb nocache) opts) as [results|x] eqn:Hs.
  - intros Hem. assert (recursive = true ∨ err_last results) as Hl'.
    { destruct Hl as [->|Hl]; [by left|right]. unfold Search in Hs. destruct (if negb nocache then _ else _) as [[]|]; [|done]. injection Hs as <-. apply Hl. }
    pose proof (last_result_fatal recursive results None (Some ErrResolveFailed) out e Hl' Hem) as Hf.
    destruct (last_result results None (Some ErrResolveFailed)) as [p' err']. destruct Hf as [H1 H2]. destruct e as [x|].
    + by rewrite (H2 x eq_refl).
    + destruct (last out) as [q|].
      * by destruct (H1 eq_refl) as [-> ->].
      * destruct (H1 eq_refl) as (_ & -> & ->). cbn. by destruct recursive.
  - intros [= <- <-]. cbn. by destruct recursive.
Qed.

(** ResolveCmd never asks for a number of records, whatever it was given. *)
Lemma resolve_ignores_record_count mb req rp name recursive rc rc' dhtt :
  ResolveCmd E mb req rp name recursive rc dhtt = ResolveCmd E mb req rp name recursive rc' dhtt.
Proof. done. Qed.
End resolving.

(** ** Witnesses *)

Module NameExample.
Definition E : NameEnv string := mkNameEnv false false (λ p, if HasPrefix p "/ipfs/" then Ok p else Err "invalid path") (λ _ _, None) "mine"
  (λ k, Ok ("id-" +:+ k)) (λ s, if HasPrefix s "id-" then Some s else None) (λ id, id) 100.
Definition R : ResolveEnv := mkResolveEnv (λ c n o, [mkResult "/ipfs/old" None; mkResult "/ipfs/new" None]) None (Ok "id-mine") (λ _, Ok 0%Z).
End NameExample.

Lemma WithOptions_exact_witness :
  Forall (λ p, p = OfflinePart) [OfflinePart; OfflinePart; OfflinePart] ∧
  is_ok (NewCoreAPI true (Ok 0%Z) (λ _, None) [OptFetchBlocks false]) = true.
Proof.
  split; [|reflexivity].
  exact (proj1 (proj2 (proj2 (WithOptions_exact true (Ok 0%Z) (λ _, None) (false, true) [OptFetchBlocks false]
    (mkCoreAPI OfNode OfNode OfNode OfNode OfNode OfNode OfflinePart OfflinePart OfflinePart false false) eq_refl))) eq_refl).
Defined.

(** The key stored under a is named by its ID. *)
Lemma keylookup_exact_witness :
  (keylookup NameExample.E "id-secret" KeyExample.fs0).1 = Ok "secret" ∧ named_key NameExample.E KeyExample.fs0 "id-secret" "secret".
Proof.
  assert ((keylookup NameExample.E "id-secret" KeyExample.fs0).1 = Ok "secret") as Hr by (vm_compute; reflexivity).
  split; [exact Hr|]. refine (proj1 (proj2 (keylookup_exact NameExample.E "id-secret" KeyExample.fs0 _ _ (surjective_pairing _))) _ _). exact Hr.
Defined.

Lemma Publish_exact_witness :
  ∃ s', Publish NameExample.E "/ipfs/bafy" (mkPublishSettings 24 "a" None true) (KeyExample.fs0, []) =
    (Ok (mkIpnsEntry "id-secret" "/ipfs/bafy"), (s', [mkPublished "secret" "/ipfs/bafy" 124 None])) ∧ s' = KeyExample.fs0.
Proof.
  assert (let x := Publish NameExample.E "/ipfs/bafy" (mkPublishSettings 24 "a" None true) (KeyExample.fs0, []) in
    x.1 = Ok (mkIpnsEntry "id-secret" "/ipfs/bafy") ∧ x.2.2 = [mkPublished "secret" "/ipfs/bafy" 124 None]) as [H1 H2] by (split; vm_compute; reflexivity).
  destruct (Publish NameExample.E "/ipfs/bafy" (mkPublishSettings 24 "a" None true) (KeyExample.fs0, [])) as [r [s' l']] eqn:Hr. cbn in H1, H2. subst r l'.
  exists s'. split; [reflexivity|]. exact (proj1 (Publish_exact NameExample.E _ _ _ _ _ _ _ Hr)).
Defined.

Lemma resolve_is_last_of_stream_witness :
  IpnsCmd NameExample.R None true false true None None = (["/ipfs/old"; "/ipfs/new"], None) ∧
  IpnsCmd NameExample.R None true false false None None = (["/ipfs/new"], None).
Proof. split; [reflexivity|]. apply (resolve_is_last_of_stream NameExample.R None true false None None ["/ipfs/old"; "/ipfs/new"] None); [by left|reflexivity]. Defined.
