(* ===== verification/NodeConfig.v ===== *)
(** * How a node is put together (core/node)

    A node is a list of units for the dependency injection of fx: constructors it provides,
    functions it invokes, and errors.  What is modelled is which units a configuration
    gives, and what the constructors that decide something make of their inputs; the
    services they construct are in their own files or libraries. *)

From Stdlib Require Import ZArith Ascii String Sorted.
From stdpp Require Import base gmap sets list strings sorting.
From S2P Require Import Prelude GoStrings Dht.

(** ** A stable sort *)

Section isort.
Context {A : Type} (R : A → A → Prop) `{∀ x y, Decision (R x y)}.

Fixpoint insert_before (x : A) (l : list A) : list A :=
  match l with [] => [x] | y :: l' => if decide (R x y) then x :: l else y :: insert_before x l' end.
Definition isort (l : list A) : list A := foldr insert_before [] l.

Lemma insert_before_perm x l : insert_before x l ≡ₚ x :: l.
Proof. induction l as [|y l IH]; [done|]. cbn. destruct (decide (R x y)); [done|]. rewrite IH. apply Permutation_swap. Qed.

Lemma isort_perm l : isort l ≡ₚ l.
Proof. induction l as [|x l IH]; [done|]. cbn. by rewrite insert_before_perm, IH. Qed.

Lemma insert_before_sorted x l : Total R → Transitive R → StronglySorted R l → StronglySorted R (insert_before x l).
Proof.
  intros Ht Htr. induction l as [|y l IH]; intros Hs; cbn; [by repeat constructor|]. apply StronglySorted_inv in Hs as [Hs Hy].
  destruct (decide (R x y)) as [Hxy|Hxy].
  - constructor; [by constructor|]. constructor; [done|]. eapply Forall_impl; [exact Hy|]. intros z. by apply Htr.
  - constructor; [by apply IH|]. rewrite insert_before_perm. constructor; [|done]. by destruct (Ht x y).
Qed.

Lemma isort_sorted l : Total R → Transitive R → StronglySorted R (isort l).
Proof. intros Ht Htr. induction l as [|x l IH]; cbn; [constructor|]. by apply insert_before_sorted. Qed.

(** Elements that go before each other keep their order. *)
Lemma insert_before_filter (P : A → Prop) `{∀ x, Decision (P x)} x l :
  (∀ y, P x → P y → R x y) → filter P (insert_before x l) = filter P (x :: l).
Proof.
  intros Hp. induction l as [|y l IH]; [done|]. cbn [insert_before]. destruct (decide (R x y)) as [|Hn]; [done|].
  rewrite !(filter_cons _ y), IH, !(filter_cons _ x), (filter_cons _ y). destruct (decide (P x)), (decide (P y)); try done. by destruct Hn; apply Hp.
Qed.

Lemma isort_filter (P : A → Prop) `{∀ x, Decision (P x)} l : (∀ x y, P x → P y → R x y) → filter P (isort l) = filter P l.
Proof.
  intros Hp. induction l as [|x l IH]; [done|]. change (isort (x :: l)) with (insert_before x (isort l)).
  rewrite insert_before_filter by auto. by rewrite !filter_cons, IH.
Qed.
End isort.

(** ** Priorities (core/node/libp2p/libp2p.go) *)

(** config.Priority: 0 is the default, -1 is disabled. *)
Definition DefaultPriority : Z := 0.
Definition Disabled : Z := -1.

Inductive Prio := Enabled (n : Z) | Off | Invalid.
Definition prio_WithDefault (p defaultPriority : Z) : Prio :=
  let positive n := if (n <=? 0)%Z then Invalid else Enabled n in
  if decide (p = Disabled) then Off
  else if decide (p = DefaultPriority) then
    if decide (defaultPriority = Disabled) then Off else if decide (defaultPriority = DefaultPriority) then Enabled 0 else positive defaultPriority
  else positive p.

Record priorityOption := mkPriorityOption { priority : Z; defaultPriority : Z; opt : string }.

(** The options that are enabled, or none when a priority is invalid, which panics *)
Fixpoint enabledOptions (opts : list priorityOption) : option (list (Z * string)) :=
  match opts with
  | [] => Some []
  | o :: opts =>
      match prio_WithDefault (priority o) (defaultPriority o), enabledOptions opts with
      | Enabled n, Some l => Some ((n, opt o) :: l)
      | Off, r => r
      | _, _ => None
      end
  end.

(** sort.Slice with the larger number first; lists this short are sorted by insertion, so
    that equals keep their order *)
Definition prio_before (x y : Z * string) : Prop := (y.1 ≤ x.1)%Z.
#[export] Instance prio_before_dec x y : Decision (prio_before x y). Proof. unfold prio_before. apply _. Defined.
#[export] Instance prio_before_total : Total prio_before. Proof. intros x y. unfold prio_before. lia. Qed.
#[export] Instance prio_before_trans : Transitive prio_before. Proof. intros x y z. unfold prio_before. lia. Qed.

Definition prioritizeOptions (opts : list priorityOption) : option (list string) :=
  l ← enabledOptions opts; Some ((isort prio_before l).*2).

(** ** Transports, security and multiplexers *)

(** config.Flag: WithDefault *)
Definition flag (f : option bool) (d : bool) : bool := default d f.

Record Transports := mkTransports {
  QUIC : option bool; TCP : option bool; Websocket : option bool; Relay : option bool;
  TLS : Z; SECIO : Z; Noise : Z; Yamux : Z; Mplex : Z;
}.

Definition yamuxID := "/yamux/1.0.0".
Definition mplexID := "/mplex/6.7.0".

(** makeSmuxTransportOption; the map of muxers seen is never written to. *)
Fixpoint legacy_muxers (enabled : gset string) (muxers : list string) : res string (list string) :=
  match muxers with
  | [] => Ok []
  | tpt :: muxers =>
      if decide (tpt ∈ enabled) then Err ("duplicate muxer found in LIBP2P_MUX_PREFS: " +:+ tpt)
      else if decide (tpt = yamuxID ∨ tpt = mplexID) then rest ← legacy_muxers enabled muxers; Ok (tpt :: rest)
      else Err ("unknown muxer: " +:+ tpt)
  end.

Definition or_panic (o : option (list string)) : res string (list string) := match o with Some l => Ok l | None => Err "panic: invalid priority" end.

Definition makeSmuxTransportOption (LIBP2P_MUX_PREFS : list string) (t : Transports) : res string (list string) :=
  match LIBP2P_MUX_PREFS with
  | [] => or_panic (prioritizeOptions [mkPriorityOption (Yamux t) 100 yamuxID; mkPriorityOption (Mplex t) 200 mplexID])
  | prefs => legacy_muxers ∅ prefs
  end.

Definition Security (enabled : bool) (t : Transports) : res string (list string) :=
  if negb enabled then Ok ["NoSecurity"]
  else or_panic (prioritizeOptions [mkPriorityOption (TLS t) 100 "/tls/1.0.0"; mkPriorityOption (Noise t) 300 "/noise"]).

Definition TransportOpts (privateNetworkEnabled : bool) (t : Transports) : res string (list string) :=
  let tcp := if flag (TCP t) true then ["tcp"] else [] in
  let ws := if flag (Websocket t) true then ["websocket"] else [] in
  if flag (QUIC t) (negb privateNetworkEnabled)
  then if privateNetworkEnabled
       then Err "The QUIC transport does not support private networks. Please disable Swarm.Transports.Network.QUIC."
       else Ok (tcp ++ ws ++ ["quic"])
  else Ok (tcp ++ ws).

(** RelayService: the limits of the relay; each is an override of the default or not. *)
Record RelayOpts := mkRelayOpts {
  ConnectionDataLimit : option Z; ConnectionDurationLimit : option Z; MaxCircuits : option Z; BufferSize : option Z; ReservationTTL : option Z;
  MaxReservations : option Z; MaxReservationsPerIP : option Z; MaxReservationsPerPeer : option Z; MaxReservationsPerASN : option Z;
}.
Record Resources := mkResources {
  r_Data : Z; r_Duration : Z; r_MaxCircuits : Z; r_BufferSize : Z; r_ReservationTTL : Z;
  r_MaxReservations : Z; r_MaxReservationsPerIP : Z; r_MaxReservationsPerPeer : Z; r_MaxReservationsPerASN : Z;
}.
Definition RelayService (enable : bool) (o : RelayOpts) (def : Resources) : option Resources :=
  if enable then Some (mkResources
    (default (r_Data def) (ConnectionDataLimit o)) (default (r_Duration def) (ConnectionDurationLimit o))
    (default (r_MaxCircuits def) (MaxCircuits o)) (default (r_BufferSize def) (BufferSize o)) (default (r_ReservationTTL def) (ReservationTTL o))
    (default (r_MaxReservations def) (MaxReservations o)) (default (r_MaxReservationsPerIP def) (MaxReservations o))
    (default (r_MaxReservationsPerPeer def) (MaxReservations o)) (default (r_MaxReservationsPerASN def) (MaxReservations o)))
  else None.

Definition ForceReachability (val : option string) : res string (list string) :=
  match val with
  | None => Ok []
  | Some v => if decide (v = "public") then Ok ["ForceReachabilityPublic"] else if decide (v = "private") then Ok ["ForceReachabilityPrivate"]
              else Err ("unrecognized reachability option: " +:+ v)
  end.

Fixpoint StaticRelays (AddrInfoFromString : string → res string string) (relays : list string) : res string (list string) :=
  match relays with
  | [] => Ok []
  | s :: relays => addr ← AddrInfoFromString s; rest ← StaticRelays AddrInfoFromString relays; Ok (addr :: rest)
  end.

(** HolePunching: log.Fatal is an error of its own. *)
Definition HolePunching (f : option bool) (hasRelayClient : bool) : res string (list string) :=
  if flag f false then if hasRelayClient then Ok ["EnableHolePunching"]
                       else Err "fatal: To enable `Swarm.EnableHolePunching` requires `Swarm.RelayClient.Enabled` to be enabled."
  else Ok [].

(** ** The addresses a host announces (core/node/libp2p/addrs.go) *)

Section addrs.
(** Multiaddrs by their bytes, masks by the addresses they block *)
Context (NewMultiaddr : string → res string string) (NewMask : string → option (string → bool)).

Fixpoint parse_addrs (addrs : list string) : res string (list string) :=
  match addrs with [] => Ok [] | a :: addrs => m ← NewMultiaddr a; rest ← parse_addrs addrs; Ok (m :: rest) end.

(** The filters and the exact addresses of noAnnounce *)
Fixpoint no_announce (addrs : list string) : res string (list (string → bool) * list string) :=
  match addrs with
  | [] => Ok ([], [])
  | a :: addrs =>
      match NewMask a with
      | Some f => rest ← no_announce addrs; Ok (f :: rest.1, rest.2)
      | None => m ← NewMultiaddr a; rest ← no_announce addrs; Ok (rest.1, m :: rest.2)
      end
  end.

Definition makeAddrsFactory (announce appendAnnounce noAnnounce : list string) : res string (list string → list string) :=
  annAddrs ← parse_addrs announce;
  appendAnnAddrs ← parse_addrs (filter (λ a, a ∉ announce) appendAnnounce);
  no ← no_announce noAnnounce;
  Ok (λ allAddrs,
    let addrs := (match annAddrs with [] => allAddrs | _ => annAddrs end) ++ appendAnnAddrs in
    filter (λ a, a ∉ no.2 ∧ existsb (λ f, f a) no.1 = false) addrs).

Fixpoint AddrFilters (filters : list string) : res string (list (string → bool)) :=
  match filters with
  | [] => Ok []
  | s :: filters =>
      match NewMask s with
      | None => Err ("incorrectly formatted address filter in config: " +:+ s)
      | Some f => rest ← AddrFilters filters; Ok (f :: rest)
      end
  end.

Definition listenAddresses (addresses : list string) : res string (list string) :=
  match parse_addrs addresses with Ok l => Ok l | Err _ => Err "failure to parse config.Addresses.Swarm" end.
End addrs.

(** ** Routers (core/node/libp2p/routing.go) *)

Record Router := mkRouter { rt_Routing : string; rt_Priority : Z }.
Definition router_before (x y : Router) : Prop := (rt_Priority x ≤ rt_Priority y)%Z.
#[export] Instance router_before_dec x y : Decision (router_before x y). Proof. unfold router_before. apply _. Defined.
#[export] Instance router_before_total : Total router_before. Proof. intros x y. unfold router_before. lia. Qed.
#[export] Instance router_before_trans : Transitive router_before. Proof. intros x y z. unfold router_before. lia. Qed.

(** Routing: the routers of the tiers, tried in this order *)
Definition Routing (routers : list Router) : list string := rt_Routing <$> isort router_before routers.

(** BaseRouting: the router a node starts with is the dual DHT or another one. *)
Inductive InitialRouter := InitDHT (WANActive : bool) | InitOther.
Record BaseRoutingOut := mkBaseRoutingOut { out_Router : Router; out_DHT : bool; out_DHTClient : Client; out_BaseRT : string }.

Definition BaseRouting (experimentalDHTClient : bool) (Config : option string) (BootstrapPeers : option string) (NewFullRT : option string)
    (init : InitialRouter) : res string BaseRoutingOut :=
  match init, experimentalDHTClient with
  | InitDHT _, true =>
      match Config, BootstrapPeers, NewFullRT with
      | Some e, _, _ | None, Some e, _ | None, None, Some e => Err e
      | None, None, None => Ok (mkBaseRoutingOut (mkRouter "fullrt" 1000) true (OtherClient true) "fullrt")
      end
  | InitDHT active, false => Ok (mkBaseRoutingOut (mkRouter "dht" 1000) true (DualDHT active) "dht")
  | InitOther, _ => Ok (mkBaseRoutingOut (mkRouter "initial" 1000) false NilDualDHT "initial")
  end.

(** PubsubRouter: a router for names only *)
Definition PubsubRouter (NewPubsubValueStore : option string) : res string Router :=
  match NewPubsubValueStore with Some e => Err e | None => Ok (mkRouter "pubsub:ipns" 100) end.

(** ** Identity (core/node/identity.go, groups.go) *)

Definition PrivateKey (IDFromPrivateKey : string → res string string) (sk id : string) : res string string :=
  id2 ← IDFromPrivateKey sk;
  if decide (id2 ≠ id) then Err ("private key in config does not match id: " +:+ id +:+ " != " +:+ id2) else Ok sk.

(** ** DNS (core/node/dns.go) *)

Definition defaultResolvers : list (string * string) :=
  [("eth.", "https://resolver.cloudflare-eth.com/dns-query"); ("crypto.", "https://resolver.cloudflare-eth.com/dns-query")].

(** madns options: a resolver by its URL, for a domain or by default *)
Inductive DnsOpt := WithDomainResolver (domain url : string) | WithDefaultResolver (url : string).

Definition newResolver (url : string) : res string string :=
  if HasPrefix url "https://" then Ok url else Err ("invalid resolver url: " +:+ url).
Definition bad_resolver (domain : string) (r : res string string) : res string string :=
  match r with Ok u => Ok u | Err e => Err ("bad resolver for " +:+ domain +:+ ": " +:+ e) end.

(** The loops over the configured and the default resolvers, in the order their maps are
    gone through; a resolver is reused for the same URL. *)
Fixpoint dns_configured (IsFqdn : string → bool) (l : list (string * string)) (rslvrs : gset string) : res string (list DnsOpt * gset string) :=
  match l with
  | [] => Ok ([], rslvrs)
  | (domain, url) :: l =>
      if negb (bool_decide (domain = ".")) && negb (IsFqdn domain) then Err ("invalid domain " +:+ domain +:+ "; must be FQDN")
      else if decide (url = "") then dns_configured IsFqdn l rslvrs
      else
        u ← (if decide (url ∈ rslvrs) then Ok url else bad_resolver domain (newResolver url));
        rest ← dns_configured IsFqdn l ({[url]} ∪ rslvrs);
        Ok ((if decide (domain ≠ ".") then WithDomainResolver domain u else WithDefaultResolver u) :: rest.1, rest.2)
  end.
Fixpoint dns_defaults (l : list (string * string)) (domains rslvrs : gset string) : res string (list DnsOpt) :=
  match l with
  | [] => Ok []
  | (domain, url) :: l =>
      if decide (domain ∈ domains) then dns_defaults l domains rslvrs
      else
        u ← (if decide (url ∈ rslvrs) then Ok url else bad_resolver domain (newResolver url));
        rest ← dns_defaults l domains ({[url]} ∪ rslvrs);
        Ok (WithDomainResolver domain u :: rest)
  end.
Definition DNSResolver (IsFqdn : string → bool) (Resolvers : list (string * string)) : res string (list DnsOpt) :=
  c ← dns_configured IsFqdn Resolvers ∅;
  d ← dns_defaults defaultResolvers (list_to_set Resolvers.*1) c.2;
  Ok (c.1 ++ d).

(** ** Lemmas *)

Lemma elem_enabledOptions opts en x : enabledOptions opts = Some en →
  x ∈ en ↔ ∃ o, o ∈ opts ∧ prio_WithDefault (priority o) (defaultPriority o) = Enabled x.1 ∧ opt o = x.2.
Proof.
  destruct x as [n s]. revert en. induction opts as [|o opts IH]; intros en.
  { cbn. intros [= <-]. split; [intros H%not_elem_of_nil; done|intros (o & H%not_elem_of_nil & _); done]. }
  cbn [enabledOptions]. destruct (prio_WithDefault (priority o) (defaultPriority o)) as [k| |] eqn:Hp; [| |done].
  - destruct (enabledOptions opts) as [l|]; [|done]. intros [= <-]. rewrite elem_of_cons, (IH l eq_refl). split.
    + intros [[= -> ->]|(o' & Ho & Hr)]; [exists o; split; [left|done]|exists o'; split; [by right|done]].
    + intros (o' & [->|Ho]%elem_of_cons & Hr & Hs); cbn in *; [left; congruence|right; eauto].
  - intros He. rewrite (IH en He). split; intros (o' & Ho & Hr & Hs); [exists o'; split; [by right|done]|].
    apply elem_of_cons in Ho as [->|Ho]; [congruence|eauto].
Qed.

Lemma isort_exact {A} (R : A → A → Prop) `{!∀ x y, Decision (R x y)} (l : list A) : Total R → Transitive R →
  isort R l ≡ₚ l ∧ StronglySorted R (isort R l)
  ∧ ∀ P `{!∀ x, Decision (P x)}, (∀ x y, P x → P y → R x y) → filter P (isort R l) = filter P l.
Proof. intros Ht Htr. split_and!; [apply isort_perm|by apply isort_sorted|intros; by apply isort_filter]. Qed.

Lemma parse_addrs_Forall2 NewMultiaddr l ms : parse_addrs NewMultiaddr l = Ok ms ↔ Forall2 (λ a m, NewMultiaddr a = Ok m) l ms.
Proof.
  revert ms. induction l as [|a l IH]; intros ms; cbn; [split; [intros [= <-]; constructor|intros H; by inversion H]|].
  destruct (NewMultiaddr a) as [m|e] eqn:Ha; cbn; [|split; [done|intros H; inversion H; congruence]].
  destruct (parse_addrs NewMultiaddr l) as [rest|e]; cbn.
  - split; [intros [= <-]; constructor; [done|by apply IH]|]. intros H. inversion H as [|? m' ? l' Hm Hr]; subst. apply IH in Hr. congruence.
  - split; [done|]. intros H. inversion H as [|? ? ? ? ? H2]; subst. by apply IH in H2.
Qed.

Lemma no_announce_spec NewMultiaddr NewMask l fs ms : no_announce NewMultiaddr NewMask l = Ok (fs, ms) →
  fs = omap NewMask l ∧ Forall2 (λ a m, NewMultiaddr a = Ok m) (filter (λ a, NewMask a = None) l) ms.
Proof.
  revert fs ms. induction l as [|a l IH]; intros fs ms; cbn [no_announce]; [intros [= <- <-]; by split|].
  destruct (NewMask a) as [f|] eqn:Hf.
  - destruct (no_announce _ _ l) as [[fs' ms']|]; [|done]. cbn [mbind res_bind fst snd]. intros [= <- <-]. destruct (IH fs' ms' eq_refl) as [-> Hm].
    split; [cbn; by rewrite Hf|]. by rewrite filter_cons_False by congruence.
  - destruct (NewMultiaddr a) as [m|] eqn:Ha; cbn [mbind res_bind]; [|done]. destruct (no_announce _ _ l) as [[fs' ms']|]; [|done]. cbn [mbind res_bind fst snd]. intros [= <- <-].
    destruct (IH fs' ms' eq_refl) as [-> Hm]. split; [cbn; by rewrite Hf|]. rewrite filter_cons_True by done. by constructor.
Qed.

(** ** What the configuration decides *)

(** Prioritised options are those that are enabled, each once, the largest number first
    and equals in the order they were given. *)
Theorem prioritizeOptions_exact opts l (Hl : prioritizeOptions opts = Some l) :
  ∃ sorted, l = sorted.*2 ∧ StronglySorted (λ x y, (y.1 ≤ x.1)%Z) sorted
    ∧ (∀ n s, (n, s) ∈ sorted ↔ ∃ o, o ∈ opts ∧ prio_WithDefault (priority o) (defaultPriority o) = Enabled n ∧ opt o = s)
    ∧ ∀ en n, enabledOptions opts = Some en → sorted ≡ₚ en ∧ filter (λ x, x.1 = n) sorted = filter (λ x, x.1 = n) en.
Proof.
  unfold prioritizeOptions in Hl. destruct (enabledOptions opts) as [en|] eqn:He; [|done]. injection Hl as <-.
  destruct (isort_exact prio_before en _ _) as (Hp & Hs & Hf). exists (isort prio_before en). split_and!; [done|exact Hs| |].
  - intros n s. rewrite Hp. apply (elem_enabledOptions opts en (n, s) He).
  - intros en' n [= <-]. split; [done|]. apply Hf. intros x y. unfold prio_before. lia.
Qed.

(** By default Noise is asked for before TLS and Mplex before Yamux: the larger number
    comes first. *)
Theorem default_order t (Ht : TLS t = 0%Z ∧ Noise t = 0%Z ∧ Yamux t = 0%Z ∧ Mplex t = 0%Z) :
  Security true t = Ok ["/noise"; "/tls/1.0.0"] ∧ makeSmuxTransportOption [] t = Ok [mplexID; yamuxID].
Proof. destruct Ht as (H1 & H2 & H3 & H4). unfold Security, makeSmuxTransportOption. rewrite H1, H2, H3, H4. by vm_compute. Qed.

(** The legacy list of multiplexers is accepted when all of it is known, duplicates
    included. *)
Theorem legacy_muxers_exact muxers :
  legacy_muxers ∅ muxers = Ok muxers ↔ Forall (λ m, m = yamuxID ∨ m = mplexID) muxers.
Proof.
  induction muxers as [|m muxers IH]; [by split; [constructor|]|]. cbn [legacy_muxers]. rewrite decide_False by set_solver. rewrite Forall_cons, <-IH.
  destruct (decide (m = yamuxID ∨ m = mplexID)) as [Hm|Hm]; [|by split; [|intros [? _]]].
  destruct (legacy_muxers ∅ muxers) as [l|e]; cbn; [|by split; [|intros [_ ?]]]. split; [intros [= ->]; done|by intros [_ [= ->]]].
Qed.

(** QUIC is never used in a private network: it is left out, or refused when asked for;
    outside it is on unless turned off. *)
Theorem TransportOpts_exact pnet t :
  match TransportOpts pnet t with
  | Ok l => ("quic" ∈ l ↔ pnet = false ∧ QUIC t ≠ Some false) ∧ ("tcp" ∈ l ↔ TCP t ≠ Some false) ∧ ("websocket" ∈ l ↔ Websocket t ≠ Some false)
  | Err _ => pnet = true ∧ QUIC t = Some true
  end.
Proof.
  unfold TransportOpts, flag. destruct (QUIC t) as [[]|], pnet, (TCP t) as [[]|], (Websocket t) as [[]|]; cbn; try done; apply (bool_decide_unpack _); by vm_compute.
Qed.

(** The limits of the relay are the configured ones or the defaults, except that the
    limits per IP, peer and AS number follow the total: their own settings are ignored. *)
Theorem RelayService_exact o def r (Hr : RelayService true o def = Some r) :
  r_MaxReservations r = default (r_MaxReservations def) (MaxReservations o)
  ∧ r_MaxReservationsPerIP r = default (r_MaxReservationsPerIP def) (MaxReservations o)
  ∧ (∀ ip peer asn, RelayService true (mkRelayOpts (ConnectionDataLimit o) (ConnectionDurationLimit o) (MaxCircuits o) (BufferSize o) (ReservationTTL o) (MaxReservations o) ip peer asn) def = Some r).
Proof. cbn in Hr. injection Hr as <-. by split_and!. Qed.

(** A host announces its listening addresses, or the configured ones in their place,
    and the appended ones, less the addresses and ranges that are not to be announced. *)
Theorem makeAddrsFactory_exact NewMultiaddr NewMask announce appendAnnounce noAnnounce f
    (Hf : makeAddrsFactory NewMultiaddr NewMask announce appendAnnounce noAnnounce = Ok f) all a :
  a ∈ f all ↔
    ((announce = [] ∧ a ∈ all) ∨ (∃ s, s ∈ announce ∧ NewMultiaddr s = Ok a) ∨ (∃ s, s ∈ appendAnnounce ∧ s ∉ announce ∧ NewMultiaddr s = Ok a))
    ∧ (∀ s, s ∈ noAnnounce → NewMask s = None → NewMultiaddr s ≠ Ok a)
    ∧ (∀ s m, s ∈ noAnnounce → NewMask s = Some m → m a = false).
Proof.
  unfold makeAddrsFactory in Hf.
  destruct (parse_addrs _ announce) as [ann|] eqn:H1; [|done]. destruct (parse_addrs _ (filter _ _)) as [app|] eqn:H2; [|done].
  destruct (no_announce _ _ noAnnounce) as [[fs no]|] eqn:H3; [|done]. cbn in Hf. injection Hf as <-.
  apply parse_addrs_Forall2 in H1. apply parse_addrs_Forall2 in H2. apply no_announce_spec in H3 as [-> H3].
  assert (Hin : ∀ l ms, Forall2 (λ s m, NewMultiaddr s = Ok m) l ms → ∀ x, x ∈ ms ↔ ∃ s, s ∈ l ∧ NewMultiaddr s = Ok x).
  { clear. intros l ms H. induction H as [|s m l ms Hs H IH]; intros x; [split; [intros Hx%not_elem_of_nil; done|intros (? & Hx%not_elem_of_nil & _); done]|].
    rewrite elem_of_cons, IH. split; [intros [->|(s' & ? & ?)]; [exists s|exists s']; (split; [set_solver|done])|].
    intros (s' & [->|?]%elem_of_cons & Hx); [left; congruence|right; eauto]. }
  rewrite list_elem_of_filter, elem_of_app, (Hin _ _ H2), (Hin _ _ H3). cbn [fst snd].
  assert (Hex : existsb (λ g, g a) (omap NewMask noAnnounce) = false ↔ ∀ s m, s ∈ noAnnounce → NewMask s = Some m → m a = false).
  { rewrite <-not_true_iff_false, existsb_exists. split.
    - intros Hn s m Hs Hm. destruct (m a) eqn:Hma; [|done]. destruct Hn. exists m. split; [|done]. apply list_elem_of_In, list_elem_of_omap. eauto.
    - intros Hall (m & Hm & Hma). apply list_elem_of_In, list_elem_of_omap in Hm as (s & Hs & Hm). by rewrite (Hall s m Hs Hm) in Hma. }
  rewrite Hex. assert (Hann : a ∈ match ann with [] => all | _ => ann end ↔ (announce = [] ∧ a ∈ all) ∨ ∃ s, s ∈ announce ∧ NewMultiaddr s = Ok a).
  { rewrite <-(Hin _ _ H1). destruct H1 as [|s m l ms Hs Hr]; [|naive_solver]. set_solver. }
  rewrite Hann. setoid_rewrite list_elem_of_filter. naive_solver.
Qed.

(** The routers of a node are tried with the smallest number first, so that names are
    looked up in pubsub before the DHT, and equals in the order they were provided. *)
Theorem Routing_exact routers :
  ∃ sorted, Routing routers = rt_Routing <$> sorted ∧ sorted ≡ₚ routers ∧ StronglySorted (λ x y, (rt_Priority x ≤ rt_Priority y)%Z) sorted
    ∧ ∀ n, filter (λ r, rt_Priority r = n) sorted = filter (λ r, rt_Priority r = n) routers.
Proof.
  destruct (isort_exact router_before routers _ _) as (Hp & Hs & Hf). exists (isort router_before routers). split_and!; [done..|].
  intros n. apply Hf. intros x y. unfold router_before. lia.
Qed.

(** Without a DHT the client a node is given is a nil pointer in an interface that is
    not nil: querying the DHT panics rather than answering that there is none. *)
Theorem no_dht_panics experimental Config BootstrapPeers NewFullRT out
    (Hout : BaseRouting experimental Config BootstrapPeers NewFullRT InitOther = Ok out) E arg id
    (HE : DHTClient E = out_DHTClient out) (Hid : peer_Decode E arg = Ok id) :
  out_DHT out = false ∧ queryDhtCmd E arg = ([], Some "panic: invalid memory address or nil pointer dereference").
Proof. injection Hout as <-. split; [done|]. unfold queryDhtCmd. by rewrite HE, Hid. Qed.

(** A node runs with the key of its identity or not at all. *)
Theorem PrivateKey_matches IDFromPrivateKey sk id sk' : PrivateKey IDFromPrivateKey sk id = Ok sk' ↔ sk' = sk ∧ IDFromPrivateKey sk = Ok id.
Proof.
  unfold PrivateKey. destruct (IDFromPrivateKey sk) as [id2|e]; cbn; [|naive_solver]. destruct (decide (id2 = id)) as [->|Hn]; [rewrite decide_False by auto|rewrite decide_True by done]; naive_solver.
Qed.

Lemma dns_configured_spec IsFqdn l rs opts rs' : dns_configured IsFqdn l rs = Ok (opts, rs') →
  (∀ u, u ∈ rs → HasPrefix u "https://" = true) →
  (∀ u, u ∈ rs' → HasPrefix u "https://" = true) ∧
  opts = (λ p : string * string, if decide (p.1 ≠ ".") then WithDomainResolver p.1 p.2 else WithDefaultResolver p.2) <$> filter (λ p, p.2 ≠ "") l
  ∧ Forall (λ p, (p.1 = "." ∨ IsFqdn p.1 = true) ∧ (p.2 = "" ∨ HasPrefix p.2 "https://" = true)) l.
Proof.
  revert rs opts rs'. induction l as [|[d u] l IH]; intros rs opts rs'; cbn [dns_configured]; [intros [= <- <-] Hrs; split_and!; [done..|constructor]|].
  intros H Hrs. destruct (negb (bool_decide (d = ".")) && negb (IsFqdn d)) eqn:Hd; [done|].
  assert (Hd' : d = "." ∨ IsFqdn d = true). { apply andb_false_iff in Hd as [Hd|Hd]; apply negb_false_iff in Hd; [left; by apply bool_decide_eq_true in Hd|by right]. }
  destruct (decide (u = "")) as [->|Hu].
  { destruct (IH _ _ _ H Hrs) as (? & -> & ?). split_and!; [done| |constructor; [cbn; auto|done]]. by rewrite filter_cons_False by (cbn; congruence). }
  assert (Hok : ∀ x, (if decide (u ∈ rs) then Ok u else bad_resolver d (newResolver u)) = Ok x → x = u ∧ HasPrefix u "https://" = true).
  { intros x. destruct (decide (u ∈ rs)) as [Hin|]; [intros [= <-]; auto|]. unfold bad_resolver, newResolver. destruct (HasPrefix u "https://"); naive_solver. }
  destruct (if decide (u ∈ rs) then Ok u else bad_resolver d (newResolver u)) as [x|e]; [|done]. destruct (Hok x eq_refl) as [-> Hpre].
  cbn [mbind res_bind] in H. destruct (dns_configured IsFqdn l ({[u]} ∪ rs)) as [[o2 r2]|e] eqn:Hr; [|done]. cbn in H. injection H as <- <-.
  destruct (IH _ _ _ Hr ltac:(set_solver)) as (? & -> & ?). split_and!; [done| |constructor; [cbn; auto|done]].
  rewrite filter_cons_True by done. done.
Qed.

Lemma dns_defaults_spec l (domains rs : gset string) opts : dns_defaults l domains rs = Ok opts →
  opts = (λ p, WithDomainResolver p.1 p.2) <$> filter (λ p, p.1 ∉ domains) l.
Proof.
  revert rs opts. induction l as [|[d u] l IH]; intros rs opts; cbn [dns_defaults]; [by intros [= <-]|].
  destruct (decide (d ∈ domains)) as [Hd|Hd]; [intros H; rewrite filter_cons_False by (cbn; intros []; done); by apply (IH rs)|].
  assert (Hok : ∀ x, (if decide (u ∈ rs) then Ok u else bad_resolver d (newResolver u)) = Ok x → x = u).
  { intros x. destruct (decide (u ∈ rs)); [by intros [= <-]|]. unfold bad_resolver, newResolver. destruct (HasPrefix u "https://"); naive_solver. }
  destruct (if decide (u ∈ rs) then Ok u else bad_resolver d (newResolver u)) as [x|e]; [|done]. rewrite (Hok x eq_refl).
  cbn [mbind res_bind]. destruct (dns_defaults l domains ({[u]} ∪ rs)) as [o|] eqn:Hr; [|done]. cbn [mbind res_bind]. intros [= <-].
  rewrite filter_cons_True by done. by rewrite (IH _ _ Hr).
Qed.

(** Names are resolved with the configured resolvers, over https only; an implicit
    resolver is used for its domain unless the configuration names the domain, with an
    empty URL to have none. *)
Theorem DNSResolver_exact IsFqdn Resolvers opts (H : DNSResolver IsFqdn Resolvers = Ok opts) :
  (∀ domain url, WithDomainResolver domain url ∈ opts ↔
      ((domain, url) ∈ Resolvers ∧ domain ≠ "." ∧ url ≠ "") ∨ ((domain, url) ∈ defaultResolvers ∧ domain ∉ Resolvers.*1))
  ∧ (∀ url, WithDefaultResolver url ∈ opts ↔ (".", url) ∈ Resolvers ∧ url ≠ "")
  ∧ ∀ domain url, (domain, url) ∈ Resolvers → (domain = "." ∨ IsFqdn domain = true) ∧ (url = "" ∨ HasPrefix url "https://" = true).
Proof.
  unfold DNSResolver in H. destruct (dns_configured IsFqdn Resolvers ∅) as [[c rs]|] eqn:Hc; [|done]. cbn [mbind res_bind fst snd] in H.
  destruct (dns_defaults defaultResolvers _ rs) as [d|] eqn:Hd; [|done]. cbn in H. injection H as <-.
  apply dns_configured_spec in Hc as (_ & -> & Hall); [|set_solver]. apply dns_defaults_spec in Hd as ->. split_and!.
  - intros domain url. rewrite elem_of_app, !list_elem_of_fmap. setoid_rewrite list_elem_of_filter. setoid_rewrite elem_of_list_to_set. split.
    + intros [([d u] & He & Hu & Hin)|([d u] & [= -> ->] & Hn & Hin)]; [left|right; by rewrite list_elem_of_fmap in Hn]. cbn in *. destruct (decide (d ≠ ".")); [|done]. by injection He as -> ->.
    + intros [(Hin & Hd & Hu)|(Hin & Hn)]; [left|right]; exists (domain, url); cbn; [by rewrite decide_True by done|by rewrite list_elem_of_fmap].
  - intros url. rewrite elem_of_app, !list_elem_of_fmap. setoid_rewrite list_elem_of_filter. split.
    + intros [([d u] & He & Hu & Hin)|([d u] & [=] & _)]. cbn in *. destruct (decide (d ≠ ".")) as [|Hd%dec_stable]; [done|]. by injection He as ->; subst.
    + intros [Hin Hu]. left. exists (".", url). done.
  - intros domain url Hin. rewrite Forall_forall in Hall. by apply (Hall (domain, url)).
Qed.

(** ** Witnesses *)

Definition t0 : Transports := mkTransports None None None None 0 0 0 0 0.
Definition opts0 : list priorityOption := [mkPriorityOption 0 100 "tls"; mkPriorityOption 7 300 "noise"; mkPriorityOption (-1) 5 "off"; mkPriorityOption 100 9 "other"].
Definition addr0 (s : string) : res string string := if HasPrefix s "/" then Ok ("b" +:+ s) else Err "must begin with /".
Definition mask0 (s : string) : option (string → bool) := if decide (s = "/ip4/10.0.0.0/ipcidr/8") then Some (λ a, HasPrefix a "b/ip4/10.") else None.

Lemma prioritizeOptions_exact_witness : prioritizeOptions opts0 = Some ["tls"; "other"; "noise"] ∧
  ∃ sorted, ["tls"; "other"; "noise"] = sorted.*2 ∧ ∀ n s, (n, s) ∈ sorted ↔ ∃ o, o ∈ opts0 ∧ prio_WithDefault (priority o) (defaultPriority o) = Enabled n ∧ opt o = s.
Proof. split; [by vm_compute|]. destruct (prioritizeOptions_exact opts0 ["tls"; "other"; "noise"] ltac:(by vm_compute)) as (s & ? & _ & ? & _). by exists s. Defined.

Lemma default_order_witness : Security true t0 = Ok ["/noise"; "/tls/1.0.0"] ∧ makeSmuxTransportOption [] t0 = Ok [mplexID; yamuxID].
Proof. apply (default_order t0). by vm_compute. Defined.

Lemma RelayService_exact_witness :
  let o := mkRelayOpts None None None None None (Some 5%Z) (Some 1%Z) None None in let d := mkResources 1 2 3 4 5 128 8 4 32 in
  ∃ r, RelayService true o d = Some r ∧ r_MaxReservationsPerIP r = 5%Z.
Proof.
  intros o d. exists (mkResources 1 2 3 4 5 5 5 5 5). split; [done|].
  destruct (RelayService_exact o d (mkResources 1 2 3 4 5 5 5 5 5) eq_refl) as (_ & H & _). exact H.
Defined.

Lemma makeAddrsFactory_exact_witness :
  let f := makeAddrsFactory addr0 mask0 [] ["/dns/x"] ["/ip4/10.0.0.0/ipcidr/8"; "/ip4/1.1.1.1"] in
  ∃ g, f = Ok g ∧ g ["b/ip4/10.2.0.1"; "b/ip4/1.1.1.1"; "b/ip4/2.2.2.2"] = ["b/ip4/2.2.2.2"; "b/dns/x"]
    ∧ "b/ip4/1.1.1.1" ∉ g ["b/ip4/1.1.1.1"].
Proof.
  intros f. destruct f as [g|] eqn:Hf; [|vm_compute in Hf; discriminate Hf]. exists g. split; [done|]. split.
  - subst f. revert Hf. vm_compute. by intros [= <-].
  - intros Hin. apply (makeAddrsFactory_exact addr0 mask0 _ _ _ g Hf) in Hin as (_ & Hn & _). apply (Hn "/ip4/1.1.1.1"); [right; left|reflexivity|reflexivity].
Defined.

Definition E0 : DhtEnv := let E := DhtExample.E in
  mkDhtEnv true NilDualDHT (Conns E) (peer_Decode E) (cid_Decode E) (GetClosestPeers E) (FindProvidersAsync E) (FindPeer E) (GetValue E) (PutValue E)
    (Provide E) (Has E) (Links E) (ResolvePath E) (Keys E) (Emit E).

Lemma no_dht_panics_witness : ∃ out, BaseRouting true None None None InitOther = Ok out
  ∧ queryDhtCmd E0 "p" = ([], Some "panic: invalid memory address or nil pointer dereference").
Proof.
  eexists. split; [reflexivity|]. exact (proj2 (no_dht_panics true None None None _ eq_refl E0 "p" "id:p" eq_refl ltac:(by vm_compute))).
Defined.

Lemma DNSResolver_exact_witness :
  let rs := [(".", "https://dns.example"); ("eth.", "")] in
  let opts := [WithDefaultResolver "https://dns.example"; WithDomainResolver "crypto." "https://resolver.cloudflare-eth.com/dns-query"] in
  DNSResolver (λ d, HasSuffix d ".") rs = Ok opts ∧ (∀ url, WithDefaultResolver url ∈ opts ↔ (".", url) ∈ rs ∧ url ≠ "").
Proof.
  intros rs opts. assert (H : DNSResolver (λ d, HasSuffix d ".") rs = Ok opts) by (by vm_compute). split; [exact H|].
  destruct (DNSResolver_exact (λ d, HasSuffix d ".") rs opts H) as (_ & Hd & _). exact Hd.
Defined.
