(* ===== verification/NodeGraph.v ===== *)
(** * The units of a node (core/node/groups.go, builder.go, provider.go)

    A configuration gives a list of units for the container of fx: constructors, functions
    to invoke, and errors.  Each constructor is named with the arguments the configuration
    gives it; what it makes and what it needs are the types of its signature.  A container
    is in order when no type is made twice and whatever has to be made can be made. *)

From Stdlib Require Import ZArith Ascii String.
From stdpp Require Import base gmap sets list strings.
From S2P Require Import Prelude NodeConfig.

(** ** Types and constructors *)

(** What the container holds; the last two are groups, to which several constructors add. *)
Inductive Ty :=
  | TRepo | THostOption | TRoutingOption | TMetricsCtx | TProcess | TConfig | TDatastore | TBaseBlocks
  | TGCLocker | TGCBlockstore | TBlockstore | TFilestore | TPeerID | TPrivKey | TPeerstore | TValidator
  | TExchange | TGraphExchange | TResolver | TNameSystem | TPeeringService | TP2P
  | TBlockService | TDAGService | TIpldFetcher | TUnixfsFetcher | TPinner | TFilesRoot
  | TPNetFingerprint | TOptsFunc | THost | TInitialRouting | TFilters | TDiscoveryHandler
  | TRouting | TDHT | TDHTClient | TBaseIpfsRouting | TPubsubValueStore | TBandwidthCounter | TPubSub | TDiscovery
  | TInt | TDuration | TQueue | TProvider | TReprovider | TKeyChanFunc | TSystem
  | GLibp2p | GRouters.
#[export] Instance Ty_eq_dec : EqDecision Ty. Proof. solve_decision. Defined.
Definition is_group (t : Ty) : bool := match t with GLibp2p | GRouters => true | _ => false end.

Inductive Ctor :=
  (* builder.go *)
  | repoOption | hostOption | routingOption | metricsCtx
  (* groups.go *)
  | baseProcess | RepoConfig | DatastoreCtor | BaseBlockstoreCtor (HasBloomFilterSize : Z) (nilRepo hashOnRead : bool) | GcBlockstoreCtor | FilestoreBlockstoreCtor
  | PeerIDCtor (id : string) | PrivateKeyCtor (sk : string) | Peerstore | PstoreAddSelfKeys | RecordValidator
  | OnlineExchange (provide : bool) | Graphsync | DNSResolverCtor | Namesys (cacheSize : Z) | Peering | PeerWith (peers : list string)
  | IpnsRepublisher (repubPeriod recordLifetime : Z) | p2p_New
  | offline_Exchange | offroute_NewOfflineRouter
  | BlockService | Dag | FetcherConfig | Pinning | Files
  (* BaseLibP2P and LibP2P *)
  | UserAgent | PNet | ConnectionManagerFunc | Host | MultiaddrResolver | DiscoveryHandler | PNetChecker
  | AddrFiltersCtor (filters : list string) | AddrsFactoryCtor (announce appendAnnounce noAnnounce : list string) | SmuxTransport (t : Transports)
  | RelayTransport (enable : bool) | RelayServiceCtor (enable : bool) (o : RelayOpts) | TransportsCtor (t : Transports)
  | StartListening (addresses : list string) | SetupDiscovery (useMdns : bool) (mdnsInterval : Z) | ForceReachabilityCtor (val : option string)
  | StaticRelaysCtor (relays : list string) | HolePunchingCtor (f : option bool) (hasRelayClient : bool) | SecurityCtor (enabled : bool) (t : Transports)
  | RoutingCtor | BaseRoutingCtor (experimentalDHTClient : bool) | PubsubRouterCtor | BandwidthCounter | NatPortMap | AutoRelay (addDefaultRelays : bool)
  | AutoNATService | ConnectionManager (low high grace : Z) | GossipSub (sign : bool) | FloodSub (sign : bool) | TopicDiscovery
  (* provider.go *)
  | ProviderQueue | SimpleProvider | NewBlockstoreProvider | pinnedProviderStrategy (onlyRoots : bool) | SimpleReprovider (interval : Z)
  | SimpleProviderSys (isOnline : bool) | BatchedProviderSys (isOnline : bool) (reprovideInterval : string) | NewOfflineProvider
  (* core/builder.go: fx.Extract(n) *)
  | ExtractNode.

Inductive FxUnit := Provide (c : Ctor) | Invoke (c : Ctor) | FxError (err : string).

Record Sig := mkSig { outs : list Ty; ins : list Ty; optional : list Ty }.

(** The parts of IpfsNode, those that have to be there and those that may *)
Definition node_fields : Sig := mkSig []
  [TPeerID; TRepo; TPinner; TGCBlockstore; TBaseBlocks; TGCLocker; TBlockService; TDAGService; TIpldFetcher; TUnixfsFetcher; TFilesRoot; TValidator;
   TResolver; TExchange; TNameSystem; TSystem; TProcess]
  [TPrivKey; TPNetFingerprint; TPeerstore; TFilestore; TBandwidthCounter; THost; TPeeringService; TFilters; TRouting; TGraphExchange; TPubSub;
   TPubsubValueStore; TDHT; TDHTClient; TP2P].

Definition host_signature : Sig := mkSig [THost; TInitialRouting] [TMetricsCtx; TRepo; TValidator; THostOption; TRoutingOption; TPeerID; TPeerstore; GLibp2p] [].
Definition base_routing_signature : Sig := mkSig [GRouters; TDHT; TDHTClient; TBaseIpfsRouting] [TMetricsCtx; TInitialRouting; THost; TRepo; TValidator] [].
Definition pubsub_router_signature : Sig := mkSig [GRouters; TPubsubValueStore] [TMetricsCtx; TBaseIpfsRouting; TValidator; THost] [TPubSub].

(** The signatures; fx.Lifecycle is always there and left out. *)
Definition signature (c : Ctor) : Sig :=
  let opts ins := mkSig [GLibp2p] ins [] in
  match c with
  | repoOption => mkSig [TRepo] [] [] | hostOption => mkSig [THostOption] [] [] | routingOption => mkSig [TRoutingOption] [] [] | metricsCtx => mkSig [TMetricsCtx] [] []
  | baseProcess => mkSig [TProcess] [] [] | RepoConfig => mkSig [TConfig] [TRepo] [] | DatastoreCtor => mkSig [TDatastore] [TRepo] []
  | BaseBlockstoreCtor _ _ _ => mkSig [TBaseBlocks] [TMetricsCtx; TRepo] []
  | GcBlockstoreCtor => mkSig [TGCLocker; TGCBlockstore; TBlockstore] [TBaseBlocks] []
  | FilestoreBlockstoreCtor => mkSig [TGCLocker; TGCBlockstore; TBlockstore; TFilestore] [TRepo; TBaseBlocks] []
  | PeerIDCtor _ => mkSig [TPeerID] [] [] | PrivateKeyCtor _ => mkSig [TPrivKey] [TPeerID] [] | Peerstore => mkSig [TPeerstore] [] []
  | PstoreAddSelfKeys => mkSig [] [TPeerID; TPrivKey; TPeerstore] [] | RecordValidator => mkSig [TValidator] [TPeerstore] []
  | OnlineExchange _ => mkSig [TExchange] [TMetricsCtx; THost; TRouting; TGCBlockstore] [] | Graphsync => mkSig [TGraphExchange] [TMetricsCtx; THost; TGCBlockstore] []
  | DNSResolverCtor => mkSig [TResolver] [TConfig] [] | Namesys _ => mkSig [TNameSystem] [TRouting; TResolver; TRepo] []
  | Peering => mkSig [TPeeringService] [THost] [] | PeerWith _ => mkSig [] [TPeeringService] []
  | IpnsRepublisher _ _ => mkSig [] [TProcess; TNameSystem; TRepo; TPrivKey] [] | p2p_New => mkSig [TP2P] [TPeerID; THost; TPeerstore] []
  | offline_Exchange => mkSig [TExchange] [TBlockstore] [] | offroute_NewOfflineRouter => mkSig [TRouting] [TDatastore; TValidator] []
  | BlockService => mkSig [TBlockService] [TBlockstore; TExchange] [] | Dag => mkSig [TDAGService] [TBlockService] []
  | FetcherConfig => mkSig [TIpldFetcher; TUnixfsFetcher] [TBlockService] [] | Pinning => mkSig [TPinner] [TBlockstore; TDAGService; TRepo] []
  | Files => mkSig [TFilesRoot] [TMetricsCtx; TRepo; TDAGService] []
  | UserAgent | AddrsFactoryCtor _ _ _ | SmuxTransport _ | RelayTransport _ | RelayServiceCtor _ _ | ForceReachabilityCtor _ | StaticRelaysCtor _ | HolePunchingCtor _ _
  | SecurityCtor _ _ | NatPortMap | AutoRelay _ | AutoNATService | ConnectionManager _ _ _ => opts []
  | PNet => mkSig [GLibp2p; TPNetFingerprint] [TRepo] []
  | ConnectionManagerFunc => mkSig [TOptsFunc] [TInt; TInt; TDuration] []
  | Host => host_signature
  | MultiaddrResolver => opts [TResolver] | DiscoveryHandler => mkSig [TDiscoveryHandler] [TMetricsCtx; THost] [] | PNetChecker => mkSig [] [TRepo; THost] []
  | AddrFiltersCtor _ => mkSig [TFilters; GLibp2p] [] [] | TransportsCtor _ => mkSig [GLibp2p] [] [TPNetFingerprint]
  | StartListening _ => mkSig [] [THost] [] | SetupDiscovery _ _ => mkSig [] [TMetricsCtx; THost; TDiscoveryHandler] []
  | RoutingCtor => mkSig [TRouting] [GRouters; TValidator] []
  | BaseRoutingCtor _ => base_routing_signature
  | PubsubRouterCtor => pubsub_router_signature
  | BandwidthCounter => mkSig [GLibp2p; TBandwidthCounter] [] []
  | GossipSub _ | FloodSub _ => mkSig [TPubSub] [TMetricsCtx; THost; TDiscovery] [] | TopicDiscovery => mkSig [TDiscovery] [TMetricsCtx; THost; TBaseIpfsRouting] []
  | ProviderQueue => mkSig [TQueue] [TMetricsCtx; TRepo] [] | SimpleProvider => mkSig [TProvider] [TMetricsCtx; TQueue; TRouting] []
  | NewBlockstoreProvider => mkSig [TKeyChanFunc] [TBlockstore] [] | pinnedProviderStrategy _ => mkSig [TKeyChanFunc] [TPinner; TIpldFetcher] []
  | SimpleReprovider _ => mkSig [TReprovider] [TMetricsCtx; TRouting; TKeyChanFunc] [] | SimpleProviderSys _ => mkSig [TSystem] [TProvider; TReprovider] []
  | BatchedProviderSys _ _ => mkSig [TSystem] [TBaseIpfsRouting; TQueue; TKeyChanFunc; TRepo] [] | NewOfflineProvider => mkSig [TSystem] [] []
  | ExtractNode => node_fields
  end.

(** ** Containers *)

Definition provided (us : list FxUnit) : list Ty := mbind (λ u, match u with Provide c => outs (signature c) | _ => [] end) us.
Definition fx_errors (us : list FxUnit) : list string := omap (λ u, match u with FxError e => Some e | _ => None end) us.

(** What has to be made: the parameters of what is invoked, and of the constructors of what
    has to be made; what is optional is made when it can be. *)
Inductive needed (us : list FxUnit) : Ty → Prop :=
  | needed_invoke c t : Invoke c ∈ us → t ∈ ins (signature c) → needed us t
  | needed_invoke_opt c t : Invoke c ∈ us → t ∈ optional (signature c) → t ∈ provided us → needed us t
  | needed_ctor c t t' : Provide c ∈ us → needed us t' → t' ∈ outs (signature c) → t ∈ ins (signature c) → needed us t
  | needed_ctor_opt c t t' : Provide c ∈ us → needed us t' → t' ∈ outs (signature c) → t ∈ optional (signature c) → t ∈ provided us → needed us t.

(** No type is made twice, groups apart; what is needed is made; and no constructor has to
    wait for itself. *)
Definition unique (us : list FxUnit) : Prop := NoDup (filter (λ t, is_group t = false) (provided us)).
Definition complete (us : list FxUnit) : Prop := ∀ t, needed us t → is_group t = true ∨ t ∈ provided us.
Definition depends (us : list FxUnit) (t t' : Ty) : Prop := ∃ c, Provide c ∈ us ∧ t ∈ outs (signature c) ∧ t' ∈ ins (signature c) ++ optional (signature c).
Definition acyclic (us : list FxUnit) : Prop := well_founded (λ t' t, depends us t t').

(** ** The configuration *)

(** BuildCfg; a repository is known by its configuration. *)
Inductive AutoNATServiceMode := AutoNATServiceUnset | AutoNATServiceEnabled | AutoNATServiceDisabled | AutoNATServiceOther.
Record Config := mkConfig {
  PeerID : string; PrivKey : string;
  ConnMgr_Type : string; GracePeriod : string; LowWater : Z; HighWater : Z;
  Pubsub_Router : string; DisableSigning : bool; ServiceMode : AutoNATServiceMode;
  cfg_Transports : Transports; DisableRelay : bool; EnableRelayHop : bool; cfg_AddrFilters : list string;
  Announce : list string; AppendAnnounce : list string; NoAnnounce : list string; Addresses_Swarm : list string;
  RelayService_Enabled : option bool; cfg_RelayService : RelayOpts; RelayClient_Enabled : option bool; cfg_StaticRelays : list string;
  MDNS_Enabled : bool; MDNS_Interval : Z; Libp2pForceReachability : option string; EnableHolePunching : option bool;
  DisableBandwidthMetrics : bool; DisableNatPortMap : bool;
  BloomFilterSize : Z; HashOnRead : bool; FilestoreEnabled : bool; UrlstoreEnabled : bool;
  ResolveCacheSize : Z; RepublishPeriod : string; RecordLifetime : string;
  StrategicProviding : bool; AcceleratedDHTClient : bool; GraphsyncEnabled : bool; ShardingEnabled : bool;
  Peering_Peers : list string; Reprovider_Strategy : string; Reprovider_Interval : string; UnixFSShardingSizeThreshold : option string;
}.

Record BuildCfg := mkBuildCfg {
  Online : bool; ExtraOpts : option (gmap string bool); Permanent : bool; DisableEncryptedConnections : bool; NilRepo : bool;
  cfg_Routing : option string; cfg_Host : option string; cfg_Repo : option (res string Config);
}.

Definition getOpt (cfg : BuildCfg) (key : string) : bool := match ExtraOpts cfg with None => false | Some m => default false (m !! key) end.

Section graph.
(** defaultRepo, which generates a key; durations and sizes; a peer's ID and key from their
    strings; and whether the program was built for debugging *)
Context (defaultRepo : res string Config) (ParseDuration ParseBytes : string → res string Z)
  (peer_Decode : string → res string string) (DecodePrivateKey : string → res string string) (Debug : bool).

Definition fillDefaults (cfg : BuildCfg) : res string BuildCfg :=
  if bool_decide (cfg_Repo cfg ≠ None) && NilRepo cfg then Err "cannot set a Repo and specify nilrepo at the same time"
  else
    r ← match cfg_Repo cfg with Some r => Ok r | None => match defaultRepo with Ok c => Ok (Ok c) | Err e => Err e end end;
    Ok (mkBuildCfg (Online cfg) (ExtraOpts cfg) (Permanent cfg) (DisableEncryptedConnections cfg) (NilRepo cfg)
          (Some (default "DHTOption" (cfg_Routing cfg))) (Some (default "DefaultHostOption" (cfg_Host cfg))) (Some r)).

(** options: the units, and the configuration unless there was an error *)
Definition options (cfg : BuildCfg) : list FxUnit * option Config :=
  match fillDefaults cfg with
  | Err e => ([FxError e], None)
  | Ok cfg =>
      match cfg_Repo cfg with
      | Some (Ok conf) => ([Provide repoOption; Provide hostOption; Provide routingOption; Provide metricsCtx], Some conf)
      | Some (Err e) => ([FxError e], None)
      | None => ([FxError "nil"], None)
      end
  end.

Definition maybeProvide (c : Ctor) (enable : bool) : list FxUnit := if enable then [Provide c] else [].

Definition BaseLibP2P : list FxUnit :=
  [Provide UserAgent; Provide PNet; Provide ConnectionManagerFunc; Provide Host; Provide MultiaddrResolver; Provide DiscoveryHandler; Invoke PNetChecker].

Definition DefaultConnMgrLowWater : Z := 600.
Definition DefaultConnMgrHighWater : Z := 900.
Definition Second : Z := 1000000000.
Definition Minute : Z := 60 * Second.
Definition Hour : Z := 60 * Minute.
Definition DefaultConnMgrGracePeriod : Z := 20 * Second.

(** The connection manager of the configuration *)
Definition connmgr_units (cfg : Config) : res string (list FxUnit) :=
  if decide (ConnMgr_Type cfg = "none") then Ok []
  else if decide (ConnMgr_Type cfg = "") then Ok [Provide (ConnectionManager DefaultConnMgrLowWater DefaultConnMgrHighWater DefaultConnMgrGracePeriod)]
  else if decide (ConnMgr_Type cfg = "basic") then
    match ParseDuration (GracePeriod cfg) with
    | Err e => Err ("parsing Swarm.ConnMgr.GracePeriod: " +:+ e)
    | Ok grace => Ok [Provide (ConnectionManager (LowWater cfg) (HighWater cfg) grace)]
    end
  else Err ("unrecognized ConnMgr.Type: " +:+ ConnMgr_Type cfg).

Definition pubsub_units (bcfg : BuildCfg) (cfg : Config) : res string (list FxUnit) :=
  if getOpt bcfg "pubsub" || getOpt bcfg "ipnsps" then
    let sign := negb (DisableSigning cfg) in
    if decide (Pubsub_Router cfg = "" ∨ Pubsub_Router cfg = "gossipsub") then Ok [Provide (GossipSub sign); Provide TopicDiscovery]
    else if decide (Pubsub_Router cfg = "floodsub") then Ok [Provide (FloodSub sign); Provide TopicDiscovery]
    else Err ("unknown pubsub router " +:+ Pubsub_Router cfg)
  else Ok [].

Definition autonat_units (cfg : Config) : res string (list FxUnit) :=
  match ServiceMode cfg with
  | AutoNATServiceDisabled => Ok []
  | AutoNATServiceUnset | AutoNATServiceEnabled => Ok [Provide AutoNATService]
  | AutoNATServiceOther => Err "panic: BUG: unhandled autonat service mode"
  end.

Definition err_unit (r : res string (list FxUnit)) (k : list FxUnit → res string (list FxUnit)) : res string (list FxUnit) :=
  match r with Ok us => k us | Err e => Ok [FxError e] end.

(** What every online node has of libp2p *)
Definition libp2p_units (bcfg : BuildCfg) (cfg : Config) : list FxUnit :=
  let enableRelayTransport := flag (Relay (cfg_Transports cfg)) (negb (DisableRelay cfg)) in
      [Provide (AddrFiltersCtor (cfg_AddrFilters cfg)); Provide (AddrsFactoryCtor (Announce cfg) (AppendAnnounce cfg) (NoAnnounce cfg));
       Provide (SmuxTransport (cfg_Transports cfg)); Provide (RelayTransport enableRelayTransport);
       Provide (RelayServiceCtor (flag (RelayService_Enabled cfg) true) (cfg_RelayService cfg)); Provide (TransportsCtor (cfg_Transports cfg));
       Invoke (StartListening (Addresses_Swarm cfg)); Invoke (SetupDiscovery (MDNS_Enabled cfg) (MDNS_Interval cfg));
       Provide (ForceReachabilityCtor (Libp2pForceReachability cfg)); Provide (StaticRelaysCtor (cfg_StaticRelays cfg));
       Provide (HolePunchingCtor (EnableHolePunching cfg) (flag (RelayClient_Enabled cfg) false));
       Provide (SecurityCtor (negb (DisableEncryptedConnections bcfg)) (cfg_Transports cfg));
       Provide RoutingCtor; Provide (BaseRoutingCtor (AcceleratedDHTClient cfg))].

(** LibP2P: an Err is the end of the process, by panic or log.Fatal; other errors are units. *)
Definition LibP2P (bcfg : BuildCfg) (cfg : Config) : res string (list FxUnit) :=
  err_unit (connmgr_units cfg) (λ connmgr,
  err_unit (pubsub_units bcfg cfg) (λ ps_disc,
  autonat ← autonat_units cfg;
  if EnableRelayHop cfg then Err "fatal: The `Swarm.EnableRelayHop` config field is ignored."
  else
    Ok (BaseLibP2P ++ libp2p_units bcfg cfg
      ++ maybeProvide PubsubRouterCtor (getOpt bcfg "ipnsps")
      ++ maybeProvide BandwidthCounter (negb (DisableBandwidthMetrics cfg)) ++ maybeProvide NatPortMap (negb (DisableNatPortMap cfg))
      ++ maybeProvide (AutoRelay false) (flag (RelayClient_Enabled cfg) false) ++ autonat ++ connmgr ++ ps_disc))).

Definition Storage (bcfg : BuildCfg) (cfg : Config) : list FxUnit :=
  let HasBloomFilterSize := if Permanent bcfg then BloomFilterSize cfg else 0%Z in
  let finalBstore := if FilestoreEnabled cfg || UrlstoreEnabled cfg then FilestoreBlockstoreCtor else GcBlockstoreCtor in
  [Provide RepoConfig; Provide DatastoreCtor; Provide (BaseBlockstoreCtor HasBloomFilterSize (NilRepo bcfg) (HashOnRead cfg)); Provide finalBstore].

Definition Identity (cfg : Config) : list FxUnit :=
  if decide (PeerID cfg = "") then [FxError "identity was not set in config (was 'ipfs init' run?)"]
  else match peer_Decode (PeerID cfg) with
  | Err e => [FxError ("peer ID invalid: " +:+ e)]
  | Ok id =>
      if decide (PrivKey cfg = "") then [Provide (PeerIDCtor id); Provide Peerstore]
      else match DecodePrivateKey (PrivKey cfg) with
      | Err e => [FxError e]
      | Ok sk => [Provide (PeerIDCtor id); Provide (PrivateKeyCtor sk); Provide Peerstore; Invoke PstoreAddSelfKeys]
      end
  end.

(** *** Providing (provider.go) *)

Definition kReprovideFrequency : Z := 12 * Hour.

Definition SimpleProviders (reprovideStrategy reprovideInterval : string) : list FxUnit :=
  match (if decide (reprovideInterval = "") then Ok kReprovideFrequency else ParseDuration reprovideInterval) with
  | Err e => [FxError e]
  | Ok interval =>
      let units keyProvider := [Provide ProviderQueue; Provide SimpleProvider; Provide keyProvider; Provide (SimpleReprovider interval)] in
      if decide (reprovideStrategy = "all" ∨ reprovideStrategy = "") then units NewBlockstoreProvider
      else if decide (reprovideStrategy = "roots") then units (pinnedProviderStrategy true)
      else if decide (reprovideStrategy = "pinned") then units (pinnedProviderStrategy false)
      else [FxError ("unknown reprovider strategy '" +:+ reprovideStrategy +:+ "'")]
  end.

Definition OnlineProviders (useStrategicProviding useBatchedProviding : bool) (reprovideStrategy reprovideInterval : string) : list FxUnit :=
  if useStrategicProviding then [Provide NewOfflineProvider]
  else SimpleProviders reprovideStrategy reprovideInterval
       ++ maybeProvide (SimpleProviderSys true) (negb useBatchedProviding) ++ maybeProvide (BatchedProviderSys true reprovideInterval) useBatchedProviding.

Definition OfflineProviders (useStrategicProviding useBatchedProviding : bool) (reprovideStrategy reprovideInterval : string) : list FxUnit :=
  if useStrategicProviding then [Provide NewOfflineProvider]
  else SimpleProviders reprovideStrategy reprovideInterval ++ maybeProvide (SimpleProviderSys false) true.

(** *** Online and offline nodes *)

Definition DefaultIpnsCacheSize : Z := 128.

(** The period of the republisher, which is checked when it is read and when it is used *)
Definition period_in_bounds (d : Z) : bool := negb (negb Debug && ((d <? Minute)%Z || (Hour * 24 <? d)%Z)).
Definition repub_period (cfg : Config) : res string Z :=
  if decide (RepublishPeriod cfg = "") then Ok 0%Z
  else match ParseDuration (RepublishPeriod cfg) with
       | Err e => Err ("failure to parse config setting IPNS.RepublishPeriod: " +:+ e)
       | Ok d => if period_in_bounds d then Ok d else Err "config setting IPNS.RepublishPeriod is not between 1min and 1day"
       end.
Definition record_lifetime (cfg : Config) : res string Z :=
  if decide (RecordLifetime cfg = "") then Ok 0%Z
  else match ParseDuration (RecordLifetime cfg) with
       | Err e => Err ("failure to parse config setting IPNS.RecordLifetime: " +:+ e)
       | Ok d => Ok d
       end.

(** IpnsRepublisher: the interval and the lifetime the republisher runs with *)
Definition run_republisher (repubPeriod recordLifetime : Z) (defInterval defLifetime : Z) : res string (Z * Z) :=
  if (negb (repubPeriod =? 0)%Z) && negb (period_in_bounds repubPeriod) then Err "config setting IPNS.RepublishPeriod is not between 1min and 1day"
  else Ok (if (repubPeriod =? 0)%Z then defInterval else repubPeriod, if (recordLifetime =? 0)%Z then defLifetime else recordLifetime).

Definition online_units (bcfg : BuildCfg) (cfg : Config) : res string (list FxUnit) :=
  let ipnsCacheSize := if (ResolveCacheSize cfg =? 0)%Z then DefaultIpnsCacheSize else ResolveCacheSize cfg in
  if (ipnsCacheSize <? 0)%Z then Ok [FxError "cannot specify negative resolve cache size"]
  else match repub_period cfg, record_lifetime cfg with
  | Err e, _ | Ok _, Err e => Ok [FxError e]
  | Ok repubPeriod, Ok recordLifetime =>
      libp2p ← LibP2P bcfg cfg;
      Ok ([Provide (OnlineExchange (negb (StrategicProviding cfg)))] ++ maybeProvide Graphsync (GraphsyncEnabled cfg)
        ++ [Provide DNSResolverCtor; Provide (Namesys ipnsCacheSize); Provide Peering; Invoke (PeerWith (Peering_Peers cfg));
            Invoke (IpnsRepublisher repubPeriod recordLifetime); Provide p2p_New]
        ++ libp2p ++ OnlineProviders (StrategicProviding cfg) (AcceleratedDHTClient cfg) (Reprovider_Strategy cfg) (Reprovider_Interval cfg))
  end.

Definition Offline (cfg : Config) : list FxUnit :=
  [Provide offline_Exchange; Provide DNSResolverCtor; Provide (Namesys 0); Provide offroute_NewOfflineRouter]
  ++ OfflineProviders (StrategicProviding cfg) (AcceleratedDHTClient cfg) (Reprovider_Strategy cfg) (Reprovider_Interval cfg).

Definition IPNS : list FxUnit := [Provide RecordValidator].
Definition Core : list FxUnit := [Provide BlockService; Provide Dag; Provide FetcherConfig; Provide Pinning; Provide Files].

Definition Networked (bcfg : BuildCfg) (cfg : Config) : res string (list FxUnit) := if Online bcfg then online_units bcfg cfg else Ok (Offline cfg).

(** IPFS, and the directory size from which directories are sharded: a 64-bit size turned
    into an int *)
Definition IPFS (bcfg : BuildCfg) : res string (list FxUnit * option Z) :=
  let '(bcfgOpts, cfg) := options bcfg in
  match cfg with
  | None => Ok (bcfgOpts, None)
  | Some cfg =>
      match ParseBytes (default "256kiB" (UnixFSShardingSizeThreshold cfg)) with
      | Err e => Ok ([FxError e], None)
      | Ok shardSizeInt =>
          if ShardingEnabled cfg then Err "fatal: The `Experimental.ShardingEnabled` field is no longer used, please remove it from the config."
          else
            networked ← Networked bcfg cfg;
            Ok (bcfgOpts ++ [Provide baseProcess] ++ Storage bcfg cfg ++ Identity cfg ++ IPNS ++ networked ++ Core, Some (i64 shardSizeInt))
      end
  end.

(** NewNode: the units of the node and the extraction of its parts (core/builder.go) *)
Definition node_units (bcfg : BuildCfg) : res string (list FxUnit) := us ← IPFS bcfg; Ok (us.1 ++ [Invoke ExtractNode]).
End graph.

(** ** Lemmas on containers *)

Lemma provided_app us us' : provided (us ++ us') = provided us ++ provided us'.
Proof. apply bind_app. Qed.

Lemma elem_provided us t : t ∈ provided us ↔ ∃ c, Provide c ∈ us ∧ t ∈ outs (signature c).
Proof.
  unfold provided. rewrite list_elem_of_bind. split.
  - intros ([c|c|e] & Ht & Hu); [eauto|by apply elem_of_nil in Ht..].
  - intros (c & Hc & Ht). by exists (Provide c).
Qed.

Lemma elem_fx_errors us e : e ∈ fx_errors us ↔ FxError e ∈ us.
Proof.
  unfold fx_errors. rewrite list_elem_of_omap. split; [intros ([c|c|e'] & Hu & He); try done; by injection He as ->|]. intros H. by exists (FxError e).
Qed.

(** A rank that every constructor raises *)
Definition rank (t : Ty) : nat :=
  match t with
  | TRepo | THostOption | TRoutingOption | TMetricsCtx | TProcess | TPeerID | TPeerstore | TInt | TDuration => 0
  | TConfig | TDatastore | TBaseBlocks | TPrivKey | TPNetFingerprint | TValidator | TOptsFunc | TQueue => 1
  | TResolver | TGCLocker | TGCBlockstore | TBlockstore | TFilestore => 2
  | GLibp2p | TFilters | TBandwidthCounter => 3
  | THost | TInitialRouting => 4
  | TBaseIpfsRouting | TDHT | TDHTClient | TPeeringService | TP2P | TGraphExchange | TDiscoveryHandler => 5
  | TDiscovery => 6 | TPubSub => 7 | GRouters | TPubsubValueStore => 8 | TRouting => 9
  | TExchange | TProvider | TNameSystem => 10 | TBlockService => 11 | TDAGService | TIpldFetcher | TUnixfsFetcher => 12
  | TPinner | TFilesRoot => 13 | TKeyChanFunc => 14 | TReprovider => 15 | TSystem => 16
  end.

Lemma rank_raised c : Forall (λ t, Forall (λ t', rank t' < rank t) (ins (signature c) ++ optional (signature c))) (outs (signature c)).
Proof. destruct c; cbn; repeat constructor; cbn; lia. Qed.

Lemma always_acyclic us : acyclic us.
Proof.
  apply (well_founded_lt_compat _ rank). intros t' t (c & _ & Ht & Ht'). pose proof (rank_raised c) as H.
  rewrite Forall_forall in H. specialize (H t Ht). rewrite Forall_forall in H. by apply H.
Qed.

(** Constructors whose parameters can all be made, the one that is never asked apart, make a
    complete container. *)
Lemma complete_intro us :
  (∀ c, Provide c ∈ us → c ≠ ConnectionManagerFunc → ∀ t, t ∈ ins (signature c) → t ∈ provided us ∨ is_group t = true) →
  (∀ c, Invoke c ∈ us → ∀ t, t ∈ ins (signature c) → t ∈ provided us ∨ is_group t = true) → complete us.
Proof.
  intros Hp Hi. assert (Hf : ∀ c, TOptsFunc ∉ ins (signature c) ++ optional (signature c)) by (intros c; destruct c; apply (bool_decide_unpack _); by vm_compute).
  assert (∀ t, needed us t → (is_group t = true ∨ t ∈ provided us) ∧ t ≠ TOptsFunc) as H; [|intros t Ht; by apply H].
  induction 1 as [c t Hc Ht|c t Hc Ht Hpr|c t t' Hc Hn IH Ho Ht|c t t' Hc Hn IH Ho Ht Hpr].
  - split; [destruct (Hi c Hc t Ht); auto|]. intros ->. apply (Hf c), elem_of_app; auto.
  - split; [auto|]. intros ->. apply (Hf c), elem_of_app; auto.
  - split; [|intros ->; apply (Hf c), elem_of_app; auto]. assert (c = ConnectionManagerFunc ∨ c ≠ ConnectionManagerFunc) as [->|Hne] by (destruct c; auto); [|destruct (Hp c Hc Hne t Ht); auto].
    apply list_elem_of_singleton in Ho as ->. by destruct (proj2 IH).
  - split; [auto|]. intros ->. apply (Hf c), elem_of_app; auto.
Qed.

Lemma fx_errors_app us us' : fx_errors (us ++ us') = fx_errors us ++ fx_errors us'.
Proof. apply omap_app. Qed.

Lemma provided_mono us us' : us ⊆ us' → provided us ⊆ provided us'.
Proof. intros H t. rewrite !elem_provided. intros (c & Hc & Ht). exists c. split; [by apply H|done]. Qed.

(** A check that what the units of a list need is among some types *)
Definition closed_in (P : list Ty) (us : list FxUnit) : bool :=
  forallb (λ u, match u with
    | Provide ConnectionManagerFunc | FxError _ => true
    | Provide c | Invoke c => forallb (λ t, bool_decide (t ∈ P) || is_group t) (ins (signature c))
    end) us.

Lemma closed_in_spec P us : closed_in P us = true ↔
  ∀ c, (Provide c ∈ us ∧ c ≠ ConnectionManagerFunc) ∨ Invoke c ∈ us → ∀ t, t ∈ ins (signature c) → t ∈ P ∨ is_group t = true.
Proof.
  unfold closed_in. rewrite forallb_forall. split.
  - intros H c Hc t Ht. assert (Hb : forallb (λ t, bool_decide (t ∈ P) || is_group t) (ins (signature c)) = true).
    { destruct Hc as [[Hc Hn]|Hc]; apply list_elem_of_In in Hc; specialize (H _ Hc); cbn in H; [by destruct c|done]. }
    rewrite forallb_forall in Hb. specialize (Hb t). rewrite <-list_elem_of_In in Hb. specialize (Hb Ht).
    apply orb_true_iff in Hb as [Hb%bool_decide_eq_true|Hb]; auto.
  - intros H u Hu. apply list_elem_of_In in Hu.
    assert (Hok : ∀ c, (Provide c ∈ us ∧ c ≠ ConnectionManagerFunc) ∨ Invoke c ∈ us → forallb (λ t, bool_decide (t ∈ P) || is_group t) (ins (signature c)) = true).
    { intros c Hc. apply forallb_forall. intros t Ht%list_elem_of_In. apply orb_true_iff. destruct (H c Hc t Ht); [left; by apply bool_decide_eq_true|by right]. }
    destruct u as [c|c|e]; [|by apply Hok; right|done].
    assert (c = ConnectionManagerFunc ∨ c ≠ ConnectionManagerFunc) as [->|Hn] by (destruct c; auto); [done|]. specialize (Hok c (or_introl (conj Hu Hn))). by destruct c.
Qed.

Lemma closed_in_app P us us' : closed_in P (us ++ us') = closed_in P us && closed_in P us'.
Proof. apply forallb_app. Qed.

Lemma closed_in_elem P us : closed_in P us = true ↔ ∀ u, u ∈ us → closed_in P [u] = true.
Proof.
  induction us as [|u us IH]; [split; [intros _ u Hu%not_elem_of_nil; done|done]|].
  change (u :: us) with ([u] ++ us). rewrite closed_in_app, andb_true_iff, IH. setoid_rewrite elem_of_app. setoid_rewrite list_elem_of_singleton. naive_solver.
Qed.

Lemma closed_in_mono P P' us : P ⊆ P' → closed_in P us = true → closed_in P' us = true.
Proof. intros HP. rewrite !closed_in_spec. intros H c Hc t Ht. destruct (H c Hc t Ht); auto. Qed.

Lemma complete_closed us : closed_in (provided us) us = true → complete us.
Proof. rewrite closed_in_spec. intros H. apply complete_intro; intros c Hc; [intros Hn|]; apply H; auto. Qed.

Lemma filter_sublist {A} (P : A → Prop) `{∀ x, Decision (P x)} (l l' : list A) : l `sublist_of` l' → filter P l `sublist_of` filter P l'.
Proof. induction 1 as [|x l l' Hs IH|x l l' Hs IH]; [done| |]; rewrite ?filter_cons; case_decide; first [by constructor|done]. Qed.

Lemma unique_sublist us us' : provided us `sublist_of` provided us' → unique us' → unique us.
Proof. unfold unique. intros Hs Hn. eapply sublist_NoDup; [exact Hn|by apply filter_sublist]. Qed.

Lemma provided_maybe c b : provided (maybeProvide c b) `sublist_of` outs (signature c).
Proof. destruct b; cbn; [by rewrite app_nil_r|apply sublist_nil_l]. Qed.

(** ** The shapes of the groups *)

Lemma no_errors us us' : fx_errors (us ++ us') = [] ↔ fx_errors us = [] ∧ fx_errors us' = [].
Proof. rewrite fx_errors_app. apply app_nil. Qed.

Lemma fx_errors_cons u us : fx_errors (u :: us) = match u with FxError e => [e] | _ => [] end ++ fx_errors us.
Proof. by destruct u. Qed.

Ltac split_errors := repeat first [rewrite fx_errors_cons; cbn [app] | rewrite no_errors].

Inductive key_provider : Ctor → Prop := kp_all : key_provider NewBlockstoreProvider | kp_pinned b : key_provider (pinnedProviderStrategy b).

Section shapes.
Context (defaultRepo : res string Config) (ParseDuration ParseBytes : string → res string Z)
  (peer_Decode : string → res string string) (DecodePrivateKey : string → res string string) (Debug : bool).

(** The providing units of a node, whose last unit makes the system *)
Definition providing (kp sys : Ctor) (i : Z) : list FxUnit := [Provide ProviderQueue; Provide SimpleProvider; Provide kp; Provide (SimpleReprovider i); Provide sys].

Lemma SimpleProviders_shape st iv : fx_errors (SimpleProviders ParseDuration st iv) = [] →
  ∃ kp i, key_provider kp ∧ SimpleProviders ParseDuration st iv = [Provide ProviderQueue; Provide SimpleProvider; Provide kp; Provide (SimpleReprovider i)].
Proof.
  unfold SimpleProviders. destruct (if decide (iv = "") then _ else _) as [i|e]; [|done].
  repeat case_decide; intros He; try done; eexists _, i; (split; [constructor|reflexivity]).
Qed.

Lemma OfflineProviders_shape s b st iv : fx_errors (OfflineProviders ParseDuration s b st iv) = [] →
  OfflineProviders ParseDuration s b st iv = [Provide NewOfflineProvider]
  ∨ ∃ kp i, key_provider kp ∧ OfflineProviders ParseDuration s b st iv = providing kp (SimpleProviderSys false) i.
Proof.
  unfold OfflineProviders. destruct s; [by left|]. rewrite no_errors. intros [H _]. right.
  destruct (SimpleProviders_shape st iv H) as (kp & i & Hk & ->). by exists kp, i.
Qed.

Lemma OnlineProviders_shape s b st iv : fx_errors (OnlineProviders ParseDuration s b st iv) = [] →
  OnlineProviders ParseDuration s b st iv = [Provide NewOfflineProvider]
  ∨ ∃ kp i, key_provider kp ∧ OnlineProviders ParseDuration s b st iv = providing kp (if b then BatchedProviderSys true iv else SimpleProviderSys true) i.
Proof.
  unfold OnlineProviders. destruct s; [by left|]. rewrite no_errors. intros [H _]. right.
  destruct (SimpleProviders_shape st iv H) as (kp & i & Hk & ->). exists kp, i. split; [done|]. by destruct b.
Qed.

Definition option_unit (c : Ctor) (us : list FxUnit) : Prop := ∃ b, us = maybeProvide c b.
Lemma option_unit_maybe c b : option_unit c (maybeProvide c b).
Proof. by exists b. Qed.
#[local] Hint Resolve option_unit_maybe : core.

Lemma connmgr_shape cfg us : connmgr_units ParseDuration cfg = Ok us → ∃ low high grace, option_unit (ConnectionManager low high grace) us.
Proof.
  unfold connmgr_units. repeat case_decide; [intros [= <-]; exists 0%Z, 0%Z, 0%Z; by exists false|intros [= <-]; eexists _, _, _; by exists true| |done].
  destruct (ParseDuration _); [|done]. intros [= <-]. eexists _, _, _. by exists true.
Qed.

(** Pubsub comes with discovery. *)
Lemma pubsub_shape bcfg cfg us : pubsub_units bcfg cfg = Ok us → us = [] ∨ ∃ c sign, (c = GossipSub sign ∨ c = FloodSub sign) ∧ us = [Provide c; Provide TopicDiscovery].
Proof.
  unfold pubsub_units. destruct (_ || _); [|intros [= <-]; by left]. cbv zeta. repeat case_decide; intros [= <-]; right; eexists _, _; (split; [|reflexivity]); eauto.
Qed.

Lemma autonat_shape cfg us : autonat_units cfg = Ok us → option_unit AutoNATService us.
Proof. unfold autonat_units. destruct (ServiceMode cfg); intros [= <-]; [exists true|exists true|exists false]; done. Qed.

Lemma LibP2P_shape bcfg cfg us : LibP2P ParseDuration bcfg cfg = Ok us → fx_errors us = [] →
  ∃ psr bw nat ar an cm ps low high grace,
    us = BaseLibP2P ++ libp2p_units bcfg cfg ++ psr ++ bw ++ nat ++ ar ++ an ++ cm ++ ps
    ∧ option_unit PubsubRouterCtor psr ∧ option_unit BandwidthCounter bw ∧ option_unit NatPortMap nat ∧ option_unit (AutoRelay false) ar
    ∧ option_unit AutoNATService an ∧ option_unit (ConnectionManager low high grace) cm
    ∧ (ps = [] ∨ ∃ c sign, (c = GossipSub sign ∨ c = FloodSub sign) ∧ ps = [Provide c; Provide TopicDiscovery]).
Proof.
  unfold LibP2P, err_unit. destruct (connmgr_units ParseDuration cfg) as [cm|] eqn:Hcm; [|by intros [= <-]].
  destruct (pubsub_units bcfg cfg) as [ps|] eqn:Hps; [|by intros [= <-]]. destruct (autonat_units cfg) as [an|] eqn:Han; [|done].
  cbn [mbind res_bind]. destruct (EnableRelayHop cfg); [done|]. intros [= <-] _. destruct (connmgr_shape _ _ Hcm) as (low & high & grace & ?).
  eexists _, _, _, _, an, cm, ps, low, high, grace. split_and!; [reflexivity|apply option_unit_maybe..|by apply (autonat_shape cfg)|done|by apply (pubsub_shape bcfg cfg)].
Qed.

(** What every online node has besides libp2p *)
Definition net_units (cache repub life : Z) (peers : list string) : list FxUnit :=
  [Provide DNSResolverCtor; Provide (Namesys cache); Provide Peering; Invoke (PeerWith peers); Invoke (IpnsRepublisher repub life); Provide p2p_New].

Lemma online_shape bcfg cfg us : online_units ParseDuration Debug bcfg cfg = Ok us → fx_errors us = [] →
  ∃ gs cache repub life lib prov,
    us = [Provide (OnlineExchange (negb (StrategicProviding cfg)))] ++ gs ++ net_units cache repub life (Peering_Peers cfg) ++ lib ++ prov
    ∧ option_unit Graphsync gs ∧ (cache = if (ResolveCacheSize cfg =? 0)%Z then DefaultIpnsCacheSize else ResolveCacheSize cfg) ∧ (0 ≤ cache)%Z
    ∧ repub_period ParseDuration Debug cfg = Ok repub ∧ record_lifetime ParseDuration cfg = Ok life
    ∧ LibP2P ParseDuration bcfg cfg = Ok lib ∧ fx_errors lib = []
    ∧ prov = OnlineProviders ParseDuration (StrategicProviding cfg) (AcceleratedDHTClient cfg) (Reprovider_Strategy cfg) (Reprovider_Interval cfg) ∧ fx_errors prov = [].
Proof.
  unfold online_units. set (cache := if (ResolveCacheSize cfg =? 0)%Z then _ else _). destruct (Z.ltb_spec cache 0) as [|Hc]; [by intros [= <-]|].
  destruct (repub_period ParseDuration Debug cfg) as [rp|e] eqn:Hrp; [|by intros [= <-]].
  destruct (record_lifetime ParseDuration cfg) as [rl|e] eqn:Hrl; [|by intros [= <-]].
  destruct (LibP2P ParseDuration bcfg cfg) as [lib|e] eqn:Hl; [|done]. cbn [mbind res_bind]. intros [= <-].
  split_errors. intros (_ & Hlib & Hprov). eexists _, cache, rp, rl, lib, _. split_and!; [reflexivity|apply option_unit_maybe|done..].
Qed.

(** The identity of a node that starts, with or without its key *)
Inductive identity_units (cfg : Config) : list FxUnit → Prop :=
  | identity_public id : PrivKey cfg = "" → identity_units cfg [Provide (PeerIDCtor id); Provide Peerstore]
  | identity_full id sk : PrivKey cfg ≠ "" → identity_units cfg [Provide (PeerIDCtor id); Provide (PrivateKeyCtor sk); Provide Peerstore; Invoke PstoreAddSelfKeys].

Lemma Identity_shape cfg : fx_errors (Identity peer_Decode DecodePrivateKey cfg) = [] → identity_units cfg (Identity peer_Decode DecodePrivateKey cfg).
Proof.
  unfold Identity. case_decide as Hi; [done|]. destruct (peer_Decode (PeerID cfg)) as [id|]; [|done]. case_decide as Hk; [by constructor|].
  destruct (DecodePrivateKey (PrivKey cfg)) as [sk|]; [|done]. by constructor.
Qed.

(** The configuration a node is made from *)
Definition node_config (bcfg : BuildCfg) : option Config := (options defaultRepo bcfg).2.

Lemma options_shape bcfg cfg : node_config bcfg = Some cfg →
  (options defaultRepo bcfg).1 = [Provide repoOption; Provide hostOption; Provide routingOption; Provide metricsCtx].
Proof. unfold node_config, options. destruct (fillDefaults _ _) as [c|]; [|done]. by destruct (cfg_Repo c) as [[]|]. Qed.

Lemma node_shape bcfg us : node_units defaultRepo ParseDuration ParseBytes peer_Decode DecodePrivateKey Debug bcfg = Ok us → fx_errors us = [] →
  ∃ cfg ident net, node_config bcfg = Some cfg
    ∧ us = ([Provide repoOption; Provide hostOption; Provide routingOption; Provide metricsCtx] ++ [Provide baseProcess] ++ Storage bcfg cfg ++ ident ++ IPNS ++ net ++ Core)
           ++ [Invoke ExtractNode]
    ∧ identity_units cfg ident ∧ Networked ParseDuration Debug bcfg cfg = Ok net ∧ fx_errors net = [].
Proof.
  unfold node_units, IPFS, node_config. pose proof (options_shape bcfg) as Ho. unfold node_config in Ho. destruct (options defaultRepo bcfg) as [opts [cfg|]] eqn:Hopt; cbn [snd fst] in *.
  - destruct (ParseBytes _); [|by intros [= <-]]. destruct (ShardingEnabled cfg); [done|].
    destruct (Networked ParseDuration Debug bcfg cfg) as [net|] eqn:Hn; [|done]. cbn [mbind res_bind fst]. intros [= <-].
    split_errors. intros ((_ & Hid & Hnet & _) & _). rewrite (Ho cfg eq_refl).
    eexists cfg, _, net. split_and!; [done|reflexivity|by apply Identity_shape|done|done].
  - cbn [mbind res_bind fst]. intros [= <-]. split_errors. intros [Herr _]. exfalso. revert Hopt Herr. unfold options.
    destruct (fillDefaults _ _) as [c|]; [|by intros [= <-]]. destruct (cfg_Repo c) as [[]|]; intros [= <-]; done.
Qed.
End shapes.

(** ** Lemmas on the containers of nodes *)

Ltac by_shape := apply (bool_decide_unpack _); by vm_compute.

Lemma option_unit_sublist c us : option_unit c us → provided us `sublist_of` provided [Provide c].
Proof. intros [[] ->]; cbn; [done|apply sublist_nil_l]. Qed.

Lemma option_unit_elem c us u : option_unit c us → u ∈ us → u = Provide c.
Proof. intros [[] ->]; [by intros ->%list_elem_of_singleton|by intros ?%elem_of_nil]. Qed.

(** The units that are there in any case, and all that can be there *)
Definition start_units (bcfg : BuildCfg) (cfg : Config) (ident : list FxUnit) : list FxUnit :=
  ([Provide repoOption; Provide hostOption; Provide routingOption; Provide metricsCtx] ++ [Provide baseProcess]) ++ Storage bcfg cfg ++ ident ++ IPNS.
Definition online_least bcfg cfg ident x cache repub life prov : list FxUnit :=
  start_units bcfg cfg ident ++ [Provide (OnlineExchange x)] ++ net_units cache repub life (Peering_Peers cfg) ++ (BaseLibP2P ++ libp2p_units bcfg cfg) ++ prov ++ Core ++ [Invoke ExtractNode].
Definition online_most bcfg cfg ident x cache repub life low high grace prov : list FxUnit :=
  (start_units bcfg cfg ident ++ ([Provide (OnlineExchange x)] ++ [Provide Graphsync] ++ net_units cache repub life (Peering_Peers cfg)
    ++ (BaseLibP2P ++ libp2p_units bcfg cfg ++ [Provide PubsubRouterCtor] ++ [Provide BandwidthCounter] ++ [Provide NatPortMap] ++ [Provide (AutoRelay false)]
        ++ [Provide AutoNATService] ++ [Provide (ConnectionManager low high grace)] ++ [Provide (GossipSub true); Provide TopicDiscovery]) ++ prov) ++ Core) ++ [Invoke ExtractNode].

Definition provider_shape (online : bool) (prov : list FxUnit) : Prop :=
  prov = [Provide NewOfflineProvider]
  ∨ ∃ kp sys i, key_provider kp ∧ (sys = SimpleProviderSys online ∨ online = true ∧ ∃ iv, sys = BatchedProviderSys true iv) ∧ prov = providing kp sys i.

(** Case analysis on the providing units *)
Ltac by_provider H tac :=
  destruct H as [->|(kp & sys & i & Hk & Hs & ->)]; [tac|destruct Hk; (destruct Hs as [->|[[=] [iv ->]]]); tac].

Definition full (id sk : string) : list FxUnit := [Provide (PeerIDCtor id); Provide (PrivateKeyCtor sk); Provide Peerstore; Invoke PstoreAddSelfKeys].
Definition public (id : string) : list FxUnit := [Provide (PeerIDCtor id); Provide Peerstore].

Lemma online_least_closed bcfg cfg id sk x cache repub life prov : provider_shape true prov →
  let m := online_least bcfg cfg (full id sk) x cache repub life prov in
  closed_in (provided m) m = true ∧ (∀ low high grace, closed_in (provided m)
    [Provide Graphsync; Provide PubsubRouterCtor; Provide BandwidthCounter; Provide NatPortMap; Provide (AutoRelay false); Provide AutoNATService; Provide (ConnectionManager low high grace)] = true)
  ∧ ∀ sign, closed_in (provided m ++ [TDiscovery]) [Provide (GossipSub sign); Provide (FloodSub sign); Provide TopicDiscovery] = true.
Proof.
  unfold online_least, start_units, Storage. intros Hp. destruct (FilestoreEnabled cfg || UrlstoreEnabled cfg); by_provider Hp ltac:(by vm_compute).
Qed.

Lemma online_most_unique bcfg cfg id sk x cache repub life low high grace prov : provider_shape true prov →
  unique (online_most bcfg cfg (full id sk) x cache repub life low high grace prov).
Proof.
  unfold unique, online_most, start_units, Storage. intros Hp. destruct (FilestoreEnabled cfg || UrlstoreEnabled cfg); by_provider Hp ltac:(by_shape).
Qed.

Lemma public_no_key bcfg cfg id x cache repub life low high grace prov : provider_shape true prov →
  TPrivKey ∉ provided (online_most bcfg cfg (public id) x cache repub life low high grace prov).
Proof.
  unfold online_most, start_units, Storage. intros Hp. destruct (FilestoreEnabled cfg || UrlstoreEnabled cfg); by_provider Hp ltac:(by_shape).
Qed.

Lemma identity_cases cfg ident : identity_units cfg ident →
  (PrivKey cfg ≠ "" ∧ ∃ id sk, ident = full id sk) ∨ (PrivKey cfg = "" ∧ ∃ id, ident = public id).
Proof. intros [id H|id sk H]; [right|left]; split; eauto. Qed.

Section graphs.
Context (defaultRepo : res string Config) (ParseDuration ParseBytes : string → res string Z)
  (peer_Decode : string → res string string) (DecodePrivateKey : string → res string string) (Debug : bool).
Notation node_units := (node_units defaultRepo ParseDuration ParseBytes peer_Decode DecodePrivateKey Debug).
Notation node_config := (node_config defaultRepo).

Lemma node_start bcfg us (Hus : node_units bcfg = Ok us) (Hok : fx_errors us = []) :
  ∃ cfg ident net, node_config bcfg = Some cfg ∧ us = (start_units bcfg cfg ident ++ net ++ Core) ++ [Invoke ExtractNode]
    ∧ identity_units cfg ident ∧ Networked ParseDuration Debug bcfg cfg = Ok net ∧ fx_errors net = [].
Proof.
  destruct (node_shape _ _ _ _ _ _ _ _ Hus Hok) as (cfg & ident & net & Hcfg & -> & Hid & Hn & He). exists cfg, ident, net. split_and!; try done.
  unfold start_units. by rewrite <-!app_assoc.
Qed.

Lemma offline_graph bcfg cfg ident net : identity_units cfg ident → Networked ParseDuration Debug bcfg cfg = Ok net → fx_errors net = [] → Online bcfg = false →
  let us := (start_units bcfg cfg ident ++ net ++ Core) ++ [Invoke ExtractNode] in
  unique us ∧ complete us ∧ THost ∉ provided us.
Proof.
  unfold Networked. intros Hid Hn He Hoff. rewrite Hoff in Hn. injection Hn as <-. unfold Offline in *. revert He. split_errors. intros [_ He].
  assert (Hp : provider_shape false (OfflineProviders ParseDuration (StrategicProviding cfg) (AcceleratedDHTClient cfg) (Reprovider_Strategy cfg) (Reprovider_Interval cfg))).
  { destruct (OfflineProviders_shape ParseDuration _ _ _ _ He) as [->|(kp & i & Hk & ->)]; [by left|right]. eexists kp, _, i. split_and!; [done| |reflexivity]. eauto. }
  cbv zeta. revert Hp. generalize (OfflineProviders ParseDuration (StrategicProviding cfg) (AcceleratedDHTClient cfg) (Reprovider_Strategy cfg) (Reprovider_Interval cfg)).
  intros prov Hp. assert (Hc : ∀ us, closed_in (provided us) us = true ∧ unique us ∧ THost ∉ provided us → unique us ∧ complete us ∧ THost ∉ provided us).
  { intros us (H1 & H2 & H3). split_and!; [done|by apply complete_closed|done]. }
  apply Hc. unfold start_units, Storage.
  destruct (identity_cases cfg ident Hid) as [(_ & id & sk & ->)|(_ & id & ->)]; destruct (FilestoreEnabled cfg || UrlstoreEnabled cfg);
    by_provider Hp ltac:(split_and!; [by vm_compute|unfold unique; by_shape|by_shape]).
Qed.

Lemma online_graph bcfg cfg ident net us : identity_units cfg ident → Networked ParseDuration Debug bcfg cfg = Ok net → fx_errors net = [] → Online bcfg = true →
  us = (start_units bcfg cfg ident ++ net ++ Core) ++ [Invoke ExtractNode] →
  unique us ∧ (complete us ↔ PrivKey cfg ≠ "").
Proof.
  unfold Networked. intros Hid Hn He Hon Hus. rewrite Hon in Hn.
  destruct (online_shape ParseDuration Debug bcfg cfg net Hn He) as (gs & cache & repub & life & lib & prov & -> & Hgs & _ & _ & _ & _ & Hlib & Hle & Hprov & Hpe).
  destruct (LibP2P_shape ParseDuration bcfg cfg lib Hlib Hle) as (psr & bw & nat & ar & an & cm & ps & low & high & grace & -> & Hpsr & Hbw & Hnat & Har & Han & Hcm & Hps).
  assert (Hp : provider_shape true prov).
  { rewrite Hprov in Hpe |- *. destruct (OnlineProviders_shape ParseDuration _ _ _ _ Hpe) as [->|(kp & i & Hk & ->)]; [by left|right].
    eexists kp, _, i. split_and!; [done| |reflexivity]. destruct (AcceleratedDHTClient cfg); eauto. }
  clear Hprov Hpe Hn He Hlib Hle.
  set (x := negb (StrategicProviding cfg)). set (least i := online_least bcfg cfg i x cache repub life prov). set (most i := online_most bcfg cfg i x cache repub life low high grace prov).
  assert (Hleast : least ident ⊆ us) by (rewrite Hus; unfold least, online_least; intros u; rewrite !elem_of_app; tauto).
  assert (Hmost : ∀ i, provided ident `sublist_of` provided i → provided us `sublist_of` provided (most i)).
  { intros i Hi. rewrite Hus. unfold most, online_most, start_units. rewrite !provided_app.
    assert (provided ps `sublist_of` provided [Provide (GossipSub true); Provide TopicDiscovery]) by (destruct Hps as [->|(c & sign & [->| ->] & ->)]; [apply sublist_nil_l|done..]).
    repeat first [assumption|reflexivity|by apply option_unit_sublist|apply sublist_app]. }
  destruct (identity_cases cfg ident Hid) as [(Hk & id & sk & ->)|(Hk & id & ->)].
  - split; [apply (unique_sublist _ (most (full id sk))); [by apply Hmost|by apply online_most_unique]|]. split; [done|]. intros _.
    apply complete_closed. pose proof (online_least_closed bcfg cfg id sk x cache repub life prov Hp) as (Hc & Ho & Hg). specialize (Ho low high grace).
    fold (least (full id sk)) in Hc, Ho, Hg. pose proof (provided_mono _ _ Hleast) as HP. apply (closed_in_mono _ _ _ HP) in Hc. apply (closed_in_mono _ _ _ HP) in Ho.
    rewrite closed_in_elem in Hc, Ho. apply closed_in_elem. intros u Hu.
    assert (Hcase : u ∈ least (full id sk) ∨ u ∈ gs ∨ u ∈ psr ∨ u ∈ bw ∨ u ∈ nat ∨ u ∈ ar ∨ u ∈ an ∨ u ∈ cm ∨ u ∈ ps).
    { revert Hu. rewrite Hus. unfold least, online_least. rewrite !elem_of_app. tauto. }
    destruct Hcase as [Hu'|[Hu'|[Hu'|[Hu'|[Hu'|[Hu'|[Hu'|[Hu'|Hu']]]]]]]]; [by apply Hc|match goal with H : option_unit _ ?l, H' : u ∈ ?l |- _ => rewrite (option_unit_elem _ _ _ H H') end; apply Ho; rewrite !elem_of_cons; tauto..|].
    destruct Hps as [Hps|(c & sign & Hcs & Hps)]; [by rewrite Hps in Hu'; apply elem_of_nil in Hu'|].
    assert (Hd : TDiscovery ∈ provided us). { apply elem_provided. exists TopicDiscovery. split; [|left]. assert (Hin : ps ⊆ us) by (rewrite Hus; intros v; rewrite !elem_of_app; tauto). apply Hin. rewrite Hps. right; left. }
    specialize (Hg sign). rewrite closed_in_elem in Hg.
    apply (closed_in_mono (provided (least (full id sk)) ++ [TDiscovery])); [intros t [Ht|Ht%list_elem_of_singleton]%elem_of_app; [by apply HP|by subst]|].
    apply Hg. rewrite Hps in Hu'. apply elem_of_cons in Hu' as [->|Hu']; [destruct Hcs as [-> | ->]; [left|right; left]|do 2 right; exact Hu'].
  - split; [apply (unique_sublist _ (most (full id ""))); [apply Hmost|by apply online_most_unique]|].
    { apply sublist_skip. by apply sublist_cons. }
    split; [|done]. intros Hc. exfalso. apply (public_no_key bcfg cfg id x cache repub life low high grace prov Hp).
    apply (sublist_subseteq _ _ (Hmost (public id) ltac:(done))).
    destruct (Hc TPrivKey) as [|H]; [|done|exact H]. apply (needed_invoke _ (IpnsRepublisher repub life)); [|by vm_compute; set_solver].
    apply Hleast. unfold least, online_least. do 2 (apply elem_of_app; right). apply elem_of_app; left. do 4 right. left.
Qed.

(** C11.  Whatever the configuration, a node whose groups report no error has each service
    made by one constructor and no service that waits for itself; everything it needs is
    there, except that an online node needs the private key of its identity. *)
Theorem node_graph bcfg us (Hus : node_units bcfg = Ok us) (Hok : fx_errors us = []) :
  unique us ∧ acyclic us ∧ ∃ cfg, node_config bcfg = Some cfg ∧ (complete us ↔ Online bcfg = false ∨ PrivKey cfg ≠ "").
Proof.
  destruct (node_start bcfg us Hus Hok) as (cfg & ident & net & Hcfg & -> & Hid & Hn & He). pose proof always_acyclic as Ha.
  destruct (Online bcfg) eqn:Hon.
  - destruct (online_graph bcfg cfg ident net _ Hid Hn He Hon eq_refl) as [Hu Hc]. split_and!; [exact Hu|apply Ha|]. exists cfg. split; [done|].
    etrans; [exact Hc|]. naive_solver.
  - destruct (offline_graph bcfg cfg ident net Hid Hn He Hon) as (Hu & Hc & _). split_and!; [exact Hu|apply Ha|]. exists cfg. split; [done|]. split; auto.
Qed.

(** An offline node has no constructor of a host: nothing in it can reach the network. *)
Theorem offline_has_no_host bcfg us (Hus : node_units bcfg = Ok us) (Hok : fx_errors us = []) (Hoff : Online bcfg = false) :
  THost ∉ provided us ∧ ∀ t, needed us t → t ≠ THost.
Proof.
  destruct (node_start bcfg us Hus Hok) as (cfg & ident & net & Hcfg & -> & Hid & Hn & He).
  destruct (offline_graph bcfg cfg ident net Hid Hn He Hoff) as (_ & Hc & Hh). split; [exact Hh|]. intros t Ht ->. by destruct (Hc THost Ht).
Qed.

(** The period of the republisher is its default, or within a minute and a day unless the
    program was built for debugging; a size of the cache is positive, and no node is made
    with other values. *)
Theorem online_bounds bcfg cfg us (Hus : online_units ParseDuration Debug bcfg cfg = Ok us) (Hok : fx_errors us = []) defInterval defLifetime
    (Hdef : (Minute ≤ defInterval ≤ 24 * Hour)%Z) :
  ∃ cache repub life interval lifetime, Provide (Namesys cache) ∈ us ∧ (0 < cache)%Z ∧ Invoke (IpnsRepublisher repub life) ∈ us
    ∧ run_republisher Debug repub life defInterval defLifetime = Ok (interval, lifetime)
    ∧ (Debug = false → (Minute ≤ interval ≤ 24 * Hour)%Z).
Proof.
  destruct (online_shape ParseDuration Debug bcfg cfg us Hus Hok) as (gs & cache & repub & life & lib & prov & -> & _ & Hcache & Hpos & Hrp & _).
  assert (Hpb : repub = 0%Z ∨ period_in_bounds Debug repub = true).
  { unfold repub_period in Hrp. case_decide; [left; by injection Hrp|]. destruct (ParseDuration _) as [d|]; [|done].
    destruct (period_in_bounds Debug d) eqn:Hb; [|done]. right. by injection Hrp as <-. }
  exists cache, repub, life, (if (repub =? 0)%Z then defInterval else repub), (if (life =? 0)%Z then defLifetime else life). split_and!.
  - apply elem_of_app; right. apply elem_of_app; right. apply elem_of_app; left. right; left.
  - subst cache. revert Hpos. destruct (Z.eqb_spec (ResolveCacheSize cfg) 0); unfold DefaultIpnsCacheSize; lia.
  - apply elem_of_app; right. apply elem_of_app; right. apply elem_of_app; left. do 4 right; left.
  - unfold run_republisher. destruct Hpb as [->| ->]; [done|]. by rewrite andb_false_r.
  - intros Hd. destruct (Z.eqb_spec repub 0) as [->|Hne]; [done|]. destruct Hpb as [|Hb]; [done|].
    unfold period_in_bounds in Hb. rewrite Hd in Hb. cbn in Hb. apply negb_true_iff, orb_false_iff in Hb as [H1%Z.ltb_ge H2%Z.ltb_ge]. lia.
Qed.
End graphs.

(** ** Witnesses *)

Definition cfg0 (key : string) : Config :=
  mkConfig "12D3" key "" "" 0 0 "" false AutoNATServiceUnset t0 false false [] [] [] [] ["/ip4/0.0.0.0/tcp/4001"]
    None (mkRelayOpts None None None None None None None None None) None [] true 10 None None false false 0 false false false 0 "" "" false false false false [] "" "12h" None.
Definition bcfg0 (online : bool) (key : string) : BuildCfg := mkBuildCfg online (Some {["pubsub" := true; "ipnsps" := true]}) true false false None None (Some (Ok (cfg0 key))).
Definition dur0 (s : string) : res string Z := if decide (s = "12h") then Ok kReprovideFrequency else Err "bad duration".
Definition units0 (online : bool) (key : string) : res string (list FxUnit) :=
  node_units (Err "no entropy") dur0 (λ _, Ok 262144%Z) (λ s, Ok s) (λ s, Ok s) false (bcfg0 online key).

Lemma node_graph_witness : ∃ us, units0 true "key" = Ok us ∧ unique us ∧ complete us.
Proof.
  destruct (units0 true "key") as [us|e] eqn:Hus; [|exfalso; revert Hus; by vm_compute]. exists us. split; [done|].
  assert (Hok : fx_errors us = []) by (revert Hus; unfold units0; vm_compute; by intros [= <-]).
  destruct (node_graph _ _ _ _ _ _ _ _ Hus Hok) as (Hu & _ & cfg & Hcfg & Hc). split; [done|]. apply Hc. right. revert Hcfg. vm_compute. intros [= <-]. by vm_compute.
Defined.

Lemma offline_has_no_host_witness : ∃ us, units0 false "" = Ok us ∧ THost ∉ provided us.
Proof.
  destruct (units0 false "") as [us|e] eqn:Hus; [|exfalso; revert Hus; by vm_compute]. exists us. split; [done|].
  assert (Hok : fx_errors us = []) by (revert Hus; unfold units0; vm_compute; by intros [= <-]).
  exact (proj1 (offline_has_no_host _ _ _ _ _ _ _ _ Hus Hok eq_refl)).
Defined.

Lemma online_bounds_witness : ∃ us cache, online_units dur0 false (bcfg0 true "key") (cfg0 "key") = Ok us ∧ Provide (Namesys cache) ∈ us ∧ (0 < cache)%Z.
Proof.
  destruct (online_units dur0 false (bcfg0 true "key") (cfg0 "key")) as [us|e] eqn:Hus; [|exfalso; revert Hus; by vm_compute].
  assert (Hok : fx_errors us = []) by (revert Hus; vm_compute; by intros [= <-]).
  destruct (online_bounds _ _ _ _ _ Hus Hok (4 * Hour) (24 * Hour) ltac:(vm_compute; split; discriminate)) as (cache & _ & _ & _ & _ & Hn & Hp & _). by exists us, cache.
Defined.
