(* ===== verification/FilesRoot.v ===== *)
(** * The persisted root of the files (core/node/core.go)

    [Files] loads the root of the mutable file system when a node starts, and gives it the
    function that saves a new root: the blocks and the references to files outside are
    synced first, then the root is put and synced.  A datastore keeps what was written in
    memory until a sync of its prefix, may write out any of it earlier, and loses the rest
    when the machine stops. *)

From Stdlib Require Import Ascii String.
From stdpp Require Import base gmap sets list strings relations.
From S2P Require Import Prelude Cid Dag.

(** ** The datastore *)

(** What is in memory, and what a halt of the machine leaves *)
Record Store := mkStore {
  root : option string; root_disk : option string;
  blocks : gset Cid; blocks_disk : gset Cid;
  refs : gset Cid; refs_disk : gset Cid;
}.

Definition add_block (c : Cid) (s : Store) : Store := mkStore (root s) (root_disk s) ({[c]} ∪ blocks s) (blocks_disk s) (refs s) (refs_disk s).
Definition put_ref (c : Cid) (s : Store) : Store := mkStore (root s) (root_disk s) (blocks s) (blocks_disk s) ({[c]} ∪ refs s) (refs_disk s).
Definition put_root (v : string) (s : Store) : Store := mkStore (Some v) (root_disk s) (blocks s) (blocks_disk s) (refs s) (refs_disk s).
Definition sync_blocks (s : Store) : Store := mkStore (root s) (root_disk s) (blocks s) (blocks s ∪ blocks_disk s) (refs s) (refs_disk s).
Definition sync_refs (s : Store) : Store := mkStore (root s) (root_disk s) (blocks s) (blocks_disk s) (refs s) (refs s ∪ refs_disk s).
Definition sync_root (s : Store) : Store := mkStore (root s) (root s) (blocks s) (blocks_disk s) (refs s) (refs_disk s).
(** Some of what is in memory is written out. *)
Definition write_out (bs rs : gset Cid) (r : bool) (s : Store) : Store :=
  mkStore (root s) (if r then root s else root_disk s) (blocks s) ((bs ∩ blocks s) ∪ blocks_disk s) (refs s) ((rs ∩ refs s) ∪ refs_disk s).
Definition halt (s : Store) : Store := mkStore (root_disk s) (root_disk s) (blocks_disk s) (blocks_disk s) (refs_disk s) (refs_disk s).

(** ** Saving a root *)

Section files.
(** The bytes of a CID, and the links and the kind of the node it names *)
Context (Bytes : Cid → string) (children : Cid → list Cid) (Cast : string → res string Cid) (is_proto : Cid → bool).

(** Where the function that saves a root is: it stops at the first error. *)
Inductive Pf := PfSyncRefs (c : Cid) | PfPut (c : Cid) | PfSyncRoot (c : Cid).

Definition stored (s : Store) (c : Cid) : Prop := c ≠ Undef ∧ ∀ d, reach children c d → d ∈ blocks s ∪ refs s.
Definition durable (s : Store) (c : Cid) : Prop := c ≠ Undef ∧ ∀ d, reach children c d → d ∈ blocks_disk s ∪ refs_disk s.

(** A step of a node: blocks are added, the datastore writes out, a root whose DAG is stored
    is saved, in steps that may fail, and the machine stops.  (The collector, which deletes
    blocks, keeps what the root reaches: GC.) *)
Inductive step : Store * option Pf → Store * option Pf → Prop :=
  | step_block s p c : step (s, p) (add_block c s, p)
  | step_ref s p c : step (s, p) (put_ref c s, p)
  | step_write_out s p bs rs r : step (s, p) (write_out bs rs r s, p)
  | pf_sync_blocks s c : stored s c → step (s, None) (sync_blocks s, Some (PfSyncRefs c))
  | pf_sync_refs s c : step (s, Some (PfSyncRefs c)) (sync_refs s, Some (PfPut c))
  | pf_put s c : step (s, Some (PfPut c)) (put_root (Bytes c) s, Some (PfSyncRoot c))
  | pf_sync_root s c : step (s, Some (PfSyncRoot c)) (sync_root s, None)
  | pf_fail s p : step (s, Some p) (s, None)
  | step_stop s p : step (s, p) (halt s, None).

(** The function itself: what its four calls answer *)
Definition pf (err_blocks err_refs err_put err_root : option string) (c : Cid) (s : Store) : Store * option string :=
  match err_blocks with Some e => (s, Some e) | None =>
  let s := sync_blocks s in
  match err_refs with Some e => (s, Some e) | None =>
  let s := sync_refs s in
  match err_put with Some e => (s, Some e) | None =>
  let s := put_root (Bytes c) s in
  match err_root with Some e => (s, Some e) | None => (sync_root s, None)
  end end end end.

(** ** Loading it *)

Inductive Loaded := RootOf (c : Cid) | Fresh.
Definition ErrNotFound : string := "datastore: key not found".
Definition ErrNotProtobuf : string := "expected protobuf dag node".

(** [get] is the answer of the datastore, whose value is nil with an error; [fetch] what the
    exchange gives for a block that is not stored.  A fresh root adds the empty directory. *)
Definition Files (s : Store) (get : res string string) (add fetch : option string) : res string Loaded :=
  let val := match get with Ok v => Some v | Err _ => None end in
  if bool_decide (get = Err ErrNotFound) || bool_decide (val = None) then
    match add with Some e => Err ("failure writing to dagstore: " +:+ e) | None => Ok Fresh end
  else match get with
  | Err e => Err e
  | Ok v =>
      c ← Cast v;
      match (if decide (c ∈ blocks s ∪ refs s) then None else fetch) with
      | Some e => Err ("error loading filesroot from DAG: " +:+ e)
      | None => if is_proto c then Ok (RootOf c) else Err ErrNotProtobuf
      end
  end.

Definition Get (s : Store) : res string string := match root s with Some v => Ok v | None => Err ErrNotFound end.

(** ** Lemmas *)

Definition saved (s : Store) (r : option string) : Prop := ∀ v, r = Some v → ∃ c, v = Bytes c ∧ durable s c.

Record Inv (x : Store * option Pf) : Prop := {
  inv_disk : saved x.1 (root_disk x.1);
  inv_mem : saved x.1 (root x.1);
  inv_sub : blocks_disk x.1 ⊆ blocks x.1 ∧ refs_disk x.1 ⊆ refs x.1;
  inv_pf : match x.2 with
           | Some (PfSyncRefs c) => c ≠ Undef ∧ ∀ d, reach children c d → d ∈ blocks_disk x.1 ∪ refs x.1
           | Some (PfPut c) | Some (PfSyncRoot c) => durable x.1 c
           | None => True
           end;
}.

Lemma durable_mono s s' c : blocks_disk s ⊆ blocks_disk s' → refs_disk s ⊆ refs_disk s' → durable s c → durable s' c.
Proof. intros Hb Hr [Hn Hd]. split; [done|]. intros d Hc. specialize (Hd d Hc). set_solver. Qed.

Lemma saved_mono s s' r : blocks_disk s ⊆ blocks_disk s' → refs_disk s ⊆ refs_disk s' → saved s r → saved s' r.
Proof. intros Hb Hr Hs v Hv. destruct (Hs v Hv) as (c & -> & Hd). exists c. split; [done|by apply (durable_mono s)]. Qed.

(** A step that only adds to the disk and leaves the roots keeps the invariant. *)
Lemma inv_grow s s' p : Inv (s, p) → (root_disk s' = root_disk s ∨ root_disk s' = root s) → root s' = root s →
  blocks_disk s ⊆ blocks_disk s' → refs_disk s ⊆ refs_disk s' → blocks_disk s' ⊆ blocks s' → refs_disk s' ⊆ refs s' → refs s ⊆ refs s' → Inv (s', p).
Proof.
  intros [Hd Hm Hs Hp] Hrd Hr Hb1 Hr1 Hb2 Hr2 Hr3. cbn in *. split; cbn.
  - destruct Hrd as [-> | ->]; by apply (saved_mono s).
  - rewrite Hr. by apply (saved_mono s).
  - done.
  - destruct p as [[c|c|c]|]; [|by apply (durable_mono s)..|done]. destruct Hp as [Hn Hp]. split; [done|]. intros d Hc. specialize (Hp d Hc). set_solver.
Qed.

Lemma step_inv x y : step x y → Inv x → Inv y.
Proof.
  intros Hst Hx. destruct Hst as [s p c|s p c|s p bs rs r|s c Hc|s c|s c|s c|s p|s p]; pose proof Hx as [Hd Hm [Hb Hr] Hp]; cbn in *.
  - apply (inv_grow s); cbn; auto; set_solver.
  - apply (inv_grow s); cbn; auto; set_solver.
  - apply (inv_grow s); cbn; auto; [destruct r; auto|set_solver..].
  - assert (Hn : Inv (sync_blocks s, None)) by (apply (inv_grow s); cbn; auto; set_solver). destruct Hn. split; cbn; try done.
    destruct Hc as [Hn Hc]. split; [done|]. intros d Hcd. specialize (Hc d Hcd). set_solver.
  - assert (Hn : Inv (sync_refs s, None)) by (apply (inv_grow s); cbn; auto; [by split|set_solver..]). destruct Hn. split; cbn; try done.
    destruct Hp as [Hne Hp]. split; [done|]. intros d Hcd. specialize (Hp d Hcd). cbn. set_solver.
  - split; cbn; [done| |done|done]. intros v [= <-]. by exists c.
  - split; cbn; done.
  - split; cbn; done.
  - split; cbn; done.
Qed.

Definition empty_store : Store := mkStore None None ∅ ∅ ∅ ∅.

Lemma steps_inv x : rtc step (empty_store, None) x → Inv x.
Proof.
  intros H. assert (H0 : Inv (empty_store, None)) by (split; cbn; [done..|done]). revert H0. induction H as [|x y z Hxy _ IH]; [done|]. intros Hx. apply IH. by apply (step_inv x).
Qed.

(** ** What saving promises *)

(** The function that saves a root is a run of these steps, whichever of its calls fails. *)
Lemma pf_runs e1 e2 e3 e4 c s : stored s c → rtc step (s, None) ((pf e1 e2 e3 e4 c s).1, None).
Proof.
  intros Hc. unfold pf. destruct e1 as [e|]; [done|]. pose proof (pf_sync_blocks s c Hc) as H1.
  destruct e2 as [e|]; [by apply (rtc_l _ _ _ _ H1), rtc_once, pf_fail|]. pose proof (pf_sync_refs (sync_blocks s) c) as H2.
  destruct e3 as [e|]; [by apply (rtc_l _ _ _ _ H1), (rtc_l _ _ _ _ H2), rtc_once, pf_fail|]. pose proof (pf_put (sync_refs (sync_blocks s)) c) as H3.
  apply (rtc_l _ _ _ _ H1), (rtc_l _ _ _ _ H2), (rtc_l _ _ _ _ H3).
  destruct e4 as [e|]; [apply rtc_once, pf_fail|apply rtc_once, pf_sync_root].
Qed.


(** When none of its calls fails, the root the function was given is the one a later start
    finds, with its DAG. *)
Theorem save_refines s c e1 e2 e3 e4 (Hc : stored s c) :
  let '(s', err) := pf e1 e2 e3 e4 c s in
  rtc step (s, None) (s', None)
  ∧ (err = None → root (halt s') = Some (Bytes c) ∧ stored (halt s') c)
  ∧ (err = None ↔ e1 = None ∧ e2 = None ∧ e3 = None ∧ e4 = None).
Proof.
  clear Cast is_proto. pose proof (pf_runs e1 e2 e3 e4 c s Hc) as Hrun. revert Hrun.
  unfold pf. destruct e1, e2, e3, e4; cbn; intros Hrun; (split_and!; [exact Hrun| |naive_solver]); try done.
  intros _. split; [done|]. destruct Hc as [Hne Hc]. split; [done|]. intros d Hd. specialize (Hc d Hd). cbn. set_solver.
Qed.

(** An error of the datastore on reading the root is taken for a missing root: the node
    starts with an empty directory instead of failing. *)
Theorem read_error_is_fresh s e fetch : Files s (Err e) None fetch = Ok Fresh.
Proof. unfold Files. by rewrite orb_true_r. Qed.
End files.

(** ** Witnesses *)

Definition v1 (s : string) : Cid := CidV1 112 (mkMultihash 18 s).
Definition links0 (c : Cid) : list Cid := if decide (c = v1 "a") then [v1 "b"] else [].
Fixpoint bits (p : positive) : string := match p with xH => "" | xO p => String "0" (bits p) | xI p => String "1" (bits p) end.
Fixpoint unbits (s : string) : positive := match s with EmptyString => xH | String b s => if Ascii.eqb b "0"%char then xO (unbits s) else xI (unbits s) end.
Definition bytes0 (c : Cid) : string := bits (encode c).
Definition cast0 (s : string) : res string Cid := match decode (unbits s) with Some c => Ok c | None => Err "invalid cid" end.
Lemma cast_bytes0 c : cast0 (bytes0 c) = Ok c.
Proof.
  unfold cast0, bytes0. assert (H : ∀ p, unbits (bits p) = p) by (induction p; cbn; congruence). by rewrite H, decode_encode.
Qed.
Definition s0 : Store := mkStore None None {[v1 "a"; v1 "b"]} ∅ ∅ ∅.

Lemma stored_s0 : stored links0 s0 (v1 "a").
Proof.
  split; [done|]. intros d Hd. apply (reach_within _ [v1 "a"; v1 "b"]) in Hd; [|apply (bool_decide_unpack _); by vm_compute|left].
  apply elem_of_cons in Hd as [->|Hd%list_elem_of_singleton]; [|subst d]; apply (bool_decide_unpack _); by vm_compute.
Qed.

(** The machine stops in the middle of a save, with the root already written out. *)
Definition s1 : Store := write_out ∅ ∅ true (put_root (bytes0 (v1 "a")) (sync_refs (sync_blocks (add_block (v1 "a") (add_block (v1 "b") empty_store))))).

Lemma save_refines_witness : root (halt (pf bytes0 None None None None (v1 "a") s0).1) = Some (bytes0 (v1 "a"))
  ∧ rtc (step bytes0 links0) (s0, None) ((pf bytes0 None None None None (v1 "a") s0).1, None).
Proof. destruct (save_refines bytes0 links0 s0 (v1 "a") None None None None stored_s0) as (H1 & H2 & _). split; [by apply H2|exact H1]. Defined.
