(* ===== verification/Tar.v ===== *)
(** * Tar archives as DAGs (tar/format.go, core/commands/tar.go)

    An archive is imported as a DAG of its headers, each with the data of its file below,
    and exported by a reader that walks the DAG as it is read.  A tree of readers, one for
    each directory being read, gives the header, then what is below it, then the padding of
    a file to whole blocks. *)

From Stdlib Require Import ZArith Ascii String.
From stdpp Require Import base gmap sets list strings.
From S2P Require Import Prelude GoStrings GoFS Mfs DagEdit Object.

Definition bytes := list ascii.
Definition blockSize : nat := 512.
(** The padding after a file of some length *)
Definition padding (n : nat) : nat := (blockSize - n mod blockSize) mod blockSize.
Definition zeros (n : nat) : bytes := repeat Ascii.zero n.

Section tar.
Context {K B : Type} `{!EqDecision K, !Countable K, !DagCodec K B}.
(** The DAG service, and what a reader of a file gives: its bytes, and the error it then
    meets, if any *)
Context (get : K → res OErr (INode K B)) (NewDagReader : ProtoNode K B → res OErr (bytes * option OErr)).

(** ** The reader *)

Inductive tarReader := mkTarReader (links : list (Link K)) (hdrBuf : option bytes) (childRead : option tarReader)
    (fileRead : option (bytes * option OErr * nat)) (pad : nat).

Inductive ReadErr := EOF | Failed (e : OErr).

Definition header_data (p : ProtoNode K B) : bytes := list_ascii_of_string (default "" (pdata p)).

(** bytes.Reader *)
Definition read_hdr (ls : list (Link K)) (h : bytes) (c : option tarReader) (f : option (bytes * option OErr * nat)) (pad n : nat)
    : tarReader * bytes * option ReadErr :=
  match h with
  | [] => (mkTarReader ls None c f pad, [], None)
  | _ => (mkTarReader ls (Some (drop n h)) c f pad, take n h, None)
  end.

(** The next link: its header, and what is below it *)
Definition next_entry (next : Link K) : res OErr (bytes * option tarReader * option (bytes * option OErr * nat)) :=
  headerNd ← get (lCid next);
  match headerNd with
  | NOther _ _ _ => Err ErrNotProtobuf
  | NProto hndpb =>
      match GetLinkedProtoNode get "data" hndpb with
      | Ok dataNd => dr ← NewDagReader dataNd; Ok (header_data hndpb, None, Some (dr, 0))
      | Err ErrLinkNotFound =>
          Ok (header_data hndpb, match plinks hndpb with [] => None | links => Some (mkTarReader links None None None 0) end, None)
      | Err e => Err e
      end
  end.

(** Read with a buffer of n bytes; at the end of a link the reader calls itself, and reads
    the header it has just got. *)
Fixpoint Read (tr : tarReader) (n : nat) : tarReader * bytes * option ReadErr :=
  let 'mkTarReader links hdrBuf childRead fileRead pad := tr in
  match hdrBuf with
  | Some h => read_hdr links h childRead fileRead pad n
  | None =>
      match childRead with
      | Some child =>
          match Read child n with
          | (_, out, Some EOF) => (mkTarReader links None None fileRead pad, out, None)
          | (child, out, err) => (mkTarReader links None (Some child) fileRead pad, out, err)
          end
      | None =>
          match fileRead with
          | Some (rem, fail, nr) =>
              if n <=? length rem then (mkTarReader links None None (Some (drop n rem, fail, nr + n)) pad, take n rem, None)
              else match fail with
              | None => (mkTarReader links None None None (padding (nr + length rem)), rem, None)
              | Some e => (mkTarReader links None None (Some ([], fail, nr + length rem)) pad, rem, Some (Failed e))
              end
          | None =>
              match pad with
              | S _ => (mkTarReader links None None None (pad - min n pad), zeros (min n pad), None)
              | 0 =>
                  match links with
                  | [] => (tr, [], Some EOF)
                  | next :: links =>
                      match next_entry next with
                      | Err e => (mkTarReader links None None None 0, [], Some (Failed e))
                      | Ok (h, child, file) => read_hdr links h child file 0 n
                      end
                  end
              end
          end
      end
  end.

Definition ExportTar (root : ProtoNode K B) : res string tarReader :=
  if decide (default "" (pdata root) = "ipfs/tar") then Ok (mkTarReader (plinks root) None None None 0) else Err "not an IPFS tarchive".

(** ** Importing *)

(** Each element of a path starts with a dash, so that "data" is left for the file's data. *)
Definition escapePath (pth : string) : string := Join ((λ e, "-" +:+ e) <$> Split (Trim pth) slash) slash.

(** An entry of the archive: its name, its header as bytes, and for a file the nodes the
    importer adds and the one it makes of its data. *)
Record Entry := mkEntry { h_Name : string; h_header : res OErr string; h_data : option (list (ProtoNode K B) * res OErr (ProtoNode K B)) }.

Record Import := mkImport { ds : gmap K (Block K); tmp : gmap K (Block K); root : ProtoNode K B }.

Definition add_node (n : INode K B) (d : gmap K (Block K)) : gmap K (Block K) := <[node_Cid n := block_of n]> d.
Definition add_nodes (ns : list (ProtoNode K B)) (d : gmap K (Block K)) : gmap K (Block K) := foldl (λ d n, add_node (NProto n) d) d ns.
Definition on_ds (f : gmap K (Block K) → gmap K (Block K)) (s : Import) : Import := mkImport (f (ds s)) (tmp s) (root s).

(** InsertNodeAtPath of the editor *)
Definition insert_at (path : list string) (nd : INode K B) : M Import OErr unit := λ s,
  match insertNodeAtPath (dag_Get (ds s)) (root s) path nd (Some new_ProtoNode) (tmp s) with
  | (Err e, tmp) => (Err e, mkImport (ds s) tmp (root s))
  | (Ok root, tmp) => (Ok (), mkImport (ds s) tmp root)
  end.

Definition import_entry (e : Entry) : M Import OErr unit :=
  headerBytes ← mlift (h_header e);
  let header := SetData headerBytes new_ProtoNode in
  header ← match h_data e with
           | None => mret header
           | Some (added, r) => _ ← mmodify (on_ds (add_nodes added)); nd ← mlift r; mret (AddNodeLink "data" (NProto nd) header)
           end;
  _ ← mmodify (on_ds (add_node (NProto header)));
  insert_at (Split (escapePath (h_Name e)) slash) (NProto header).

(** ImportTar: the entries up to the end of the archive or an error of its reader, and
    Finalize *)
Definition ImportTar (fuel : nat) (es : list Entry) (next_err : option OErr) (d : gmap K (Block K)) : res OErr (ProtoNode K B) * gmap K (Block K) :=
  match (_ ← mfor es import_entry; match next_err with Some e => mthrow e | None => mret () end) (mkImport d ∅ (SetData "ipfs/tar" new_ProtoNode)) with
  | (Err e, s) => (Err e, ds s)
  | (Ok _, s) =>
      let nd := Copy (root s) in
      match copyDag (λ n, mmodify (add_node n)) (tmp s) fuel (NProto nd) (ds s) with
      | (Ok _, d) => (Ok nd, d)
      | (Err e, d) => (Err e, d)
      end
  end.

(** ** What an archive holds *)

(** The bytes of an entry and of a list of entries, up to the first error *)
Definition cat2 (x : bytes * option OErr) (y : bytes * option OErr) : bytes * option OErr :=
  match x with (b, Some e) => (b, Some e) | (b, None) => (b ++ y.1, y.2) end.

Definition archive_entry (below : list (Link K) → bytes * option OErr) (l : Link K) : bytes * option OErr :=
  match get (lCid l) with
  | Err e => ([], Some e)
  | Ok (NOther _ _ _) => ([], Some ErrNotProtobuf)
  | Ok (NProto p) =>
      match GetLinkedProtoNode get "data" p with
      | Ok d =>
          match NewDagReader d with
          | Err e => ([], Some e)
          | Ok (content, fail) => cat2 (header_data p, None) (cat2 (content, fail) (zeros (padding (length content)), None))
          end
      | Err ErrLinkNotFound => cat2 (header_data p, None) (match plinks p with [] => ([], None) | ls => below ls end)
      | Err e => ([], Some e)
      end
  end.

Fixpoint archive (fuel : nat) (links : list (Link K)) : bytes * option OErr :=
  match fuel, links with
  | _, [] => ([], None)
  | 0, _ => ([], Some OFuel)
  | S fuel, _ => foldr (λ l rest, cat2 (archive_entry (archive fuel) l) rest) ([], None) links
  end.

(** Reading with buffers of any sizes ends, with some bytes and an error or none. *)
Inductive drains : tarReader → bytes → option OErr → Prop :=
  drains_intro tr bs err :
    (∀ n tr' out, 0 < n → Read tr n = (tr', out, None) → out `prefix_of` bs) →
    (∀ n tr' out, 0 < n → Read tr n = (tr', out, None) → drains tr' (drop (length out) bs) err) →
    (∀ n tr' out, 0 < n → Read tr n = (tr', out, Some EOF) → out = [] ∧ bs = [] ∧ err = None) →
    (∀ n tr' out e, 0 < n → Read tr n = (tr', out, Some (Failed e)) → out = bs ∧ err = Some e) →
    drains tr bs err.

(** ** Lemmas *)

(** A reader all of whose reads go the way of another's drains like it. *)
Lemma drains_same tr tr' bs err : (∀ n, 0 < n → Read tr n = Read tr' n) → drains tr' bs err → drains tr bs err.
Proof. intros Hr Hd. inversion_clear Hd as [? ? ? H1 H2 H3 H4]. constructor; intros *; intros Hn; rewrite Hr by exact Hn; eauto. Qed.

(** One read that makes progress without an error *)
Lemma drains_step tr bs err :
  (∀ n, 0 < n → ∃ tr' out bs', Read tr n = (tr', out, None) ∧ bs = out ++ bs' ∧ drains tr' bs' err) → drains tr bs err.
Proof.
  intros Hs. constructor.
  - intros n tr' out Hn Hr. destruct (Hs n Hn) as (tr1 & out1 & bs1 & Hr' & -> & Hd). rewrite Hr' in Hr. injection Hr as _ <-. by exists bs1.
  - intros n tr' out Hn Hr. destruct (Hs n Hn) as (tr1 & out1 & bs1 & Hr' & -> & Hd). rewrite Hr' in Hr. injection Hr as <- <-. by rewrite drop_app_length.
  - intros n tr' out Hn Hr. destruct (Hs n Hn) as (tr1 & out1 & bs1 & Hr' & _). rewrite Hr' in Hr. discriminate Hr.
  - intros n tr' out e Hn Hr. destruct (Hs n Hn) as (tr1 & out1 & bs1 & Hr' & _). rewrite Hr' in Hr. discriminate Hr.
Qed.

Lemma drains_hdr ls c f pad bs err : drains (mkTarReader ls None c f pad) bs err →
  ∀ k h, length h ≤ k → drains (mkTarReader ls (Some h) c f pad) (h ++ bs) err.
Proof.
  intros Hd k. induction k as [|k IH]; intros h Hk; apply drains_step; intros n Hn; cbn [Read]; unfold read_hdr; destruct h as [|x h]; try (cbn in Hk; lia).
  1,2: eexists _, [], bs; split_and!; [reflexivity|reflexivity|exact Hd].
  eexists _, (take n (x :: h)), (drop n (x :: h) ++ bs). split_and!; [reflexivity|by rewrite app_assoc, take_drop|]. apply IH. rewrite length_drop. cbn in *. lia.
Qed.

Lemma drains_hdr_cat ls c f h (y : bytes * option OErr) : drains (mkTarReader ls None c f 0) y.1 y.2 →
  drains (mkTarReader ls (Some h) c f 0) (cat2 (h, None) y).1 (cat2 (h, None) y).2.
Proof. intros Hd. apply (drains_hdr _ _ _ _ _ _ Hd _ _ (le_n _)). Qed.

Lemma read_child ls child f pad n : Read (mkTarReader ls None (Some child) f pad) n =
  match Read child n with
  | (_, out, Some EOF) => (mkTarReader ls None None f pad, out, None)
  | (child, out, err) => (mkTarReader ls None (Some child) f pad, out, err)
  end.
Proof. reflexivity. Qed.

Lemma drains_child child bs e : drains child bs e → ∀ ls f pad bs' err,
  (e = None → drains (mkTarReader ls None None f pad) bs' err) →
  drains (mkTarReader ls None (Some child) f pad) (cat2 (bs, e) (bs', err)).1 (cat2 (bs, e) (bs', err)).2.
Proof.
  induction 1 as [tr bs e H1 H2 IH H3 H4]; intros ls f pad bs' err Hrest. constructor.
  - intros n tr' out Hn. rewrite read_child. destruct (Read tr n) as [[c o] [[|e']|]] eqn:Hr; intros Hx; [|discriminate Hx|]; injection Hx as <- <-.
    + destruct (H3 n _ _ Hn Hr) as (-> & -> & ->). by exists bs'.
    + destruct (H1 n _ _ Hn Hr) as [bs1 ->]. destruct e as [e|]; cbn; [by exists bs1|]. exists (bs1 ++ bs'). by rewrite app_assoc.
  - intros n tr' out Hn. rewrite read_child. destruct (Read tr n) as [[c o] [[|e']|]] eqn:Hr; intros Hx; [|discriminate Hx|]; injection Hx as <- <-.
    + destruct (H3 n _ _ Hn Hr) as (-> & -> & ->). by apply Hrest.
    + destruct (H1 n _ _ Hn Hr) as [bs1 ->]. specialize (IH n _ _ Hn Hr ls f pad bs' err Hrest). rewrite drop_app_length in IH.
      destruct e as [e|]; cbn in *; [by rewrite drop_app_length|]. by rewrite <-app_assoc, drop_app_length.
  - intros n tr' out Hn. rewrite read_child. destruct (Read tr n) as [[c o] [[|e']|]] eqn:Hr; intros Hx; discriminate Hx.
  - intros n tr' out e0 Hn. rewrite read_child. destruct (Read tr n) as [[c o] [[|e']|]] eqn:Hr; intros Hx; [discriminate Hx| |discriminate Hx]. injection Hx as <- <- <-.
    by destruct (H4 n _ _ _ Hn Hr) as (-> & ->).
Qed.

Lemma drains_pad ls bs err : drains (mkTarReader ls None None None 0) bs err →
  ∀ k p, p ≤ k → drains (mkTarReader ls None None None p) (zeros p ++ bs) err.
Proof.
  intros Hd k. induction k as [|k IH]; intros [|p] Hp; [exact Hd|lia|exact Hd|]. apply drains_step. intros n Hn.
  eexists _, (zeros (min n (S p))), (zeros (S p - min n (S p)) ++ bs). split_and!; [reflexivity| |apply IH; lia].
  unfold zeros. rewrite app_assoc, <-repeat_app. do 2 f_equal. lia.
Qed.

Lemma read_file ls rem fail nr n : Read (mkTarReader ls None None (Some (rem, fail, nr)) 0) n =
  if n <=? length rem then (mkTarReader ls None None (Some (drop n rem, fail, nr + n)) 0, take n rem, None)
  else match fail with
  | None => (mkTarReader ls None None None (padding (nr + length rem)), rem, None)
  | Some e => (mkTarReader ls None None (Some ([], fail, nr + length rem)) 0, rem, Some (Failed e))
  end.
Proof. reflexivity. Qed.

(** A file that ends well is followed by its padding; one that fails ends the reading. *)
Lemma drains_file_ok ls bs err total : drains (mkTarReader ls None None None (padding total)) bs err →
  ∀ k rem nr, length rem ≤ k → nr + length rem = total → drains (mkTarReader ls None None (Some (rem, None, nr)) 0) (rem ++ bs) err.
Proof.
  intros Hd k. induction k as [|k IH]; intros rem nr Hk Ht; apply drains_step; intros n Hn; rewrite read_file; destruct (Nat.leb_spec n (length rem)) as [Hle|Hgt].
  1: lia.
  2: eexists _, (take n rem), (drop n rem ++ bs); split_and!; [reflexivity|by rewrite app_assoc, take_drop|apply IH; rewrite length_drop; lia].
  all: eexists _, rem, bs; split_and!; [reflexivity|reflexivity|by rewrite Ht].
Qed.

Lemma drains_file_failed ls e : ∀ k rem nr, length rem ≤ k → drains (mkTarReader ls None None (Some (rem, Some e, nr)) 0) rem (Some e).
Proof.
  intros k. induction k as [|k IH]; intros rem nr Hk; (constructor;
    [intros n tr' out Hn|intros n tr' out Hn|intros n tr' out Hn|intros n tr' out e0 Hn]; rewrite read_file; destruct (Nat.leb_spec n (length rem)) as [Hle|Hgt]; intros Hx; try discriminate Hx; try lia).
  - injection Hx as _ <- <-. by split.
  - injection Hx as _ <-. exists (drop n rem). by rewrite take_drop.
  - injection Hx as <- <-. rewrite length_take, Nat.min_l by done. apply IH. rewrite length_drop. lia.
  - injection Hx as _ <- <-. by split.
Qed.

(** ** Reading gives the archive *)

Section archives.
(** Links go down: a node's hash cannot be among what it is the hash of. *)
Context (rank : K → nat) (Hrank : ∀ c n, get c = Ok n → ∀ l, l ∈ node_Links n → rank (lCid l) < rank c).

Lemma drains_entry ls l bs err h child file :
  next_entry l = Ok (h, child, file) → drains (mkTarReader ls (Some h) child file 0) bs err → drains (mkTarReader (l :: ls) None None None 0) bs err.
Proof. intros He. apply drains_same. intros k Hk. cbn [Read]. by rewrite He. Qed.

Lemma drains_error ls l e : next_entry l = Err e → drains (mkTarReader (l :: ls) None None None 0) [] (Some e).
Proof.
  intros He. constructor; [intros n tr' out Hn|intros n tr' out Hn|intros n tr' out Hn|intros n tr' out e0 Hn]; cbn [Read]; rewrite He; intros Hx; try discriminate Hx.
  injection Hx as _ <- <-. by split.
Qed.

Lemma drains_end : drains (mkTarReader [] None None None 0) [] None.
Proof.
  constructor; [intros n tr' out Hn|intros n tr' out Hn|intros n tr' out Hn|intros n tr' out e0 Hn]; cbn [Read]; intros Hx; try discriminate Hx.
  injection Hx as _ <-. by split_and!.
Qed.

Lemma cat2_assoc x y z : cat2 (cat2 x y) z = cat2 x (cat2 y z).
Proof. destruct x as [b [e|]], y as [b' [e'|]]; cbn; [done..|]. by rewrite app_assoc. Qed.

Lemma cat2_nil x : cat2 x ([], None) = x.
Proof. destruct x as [b [e|]]; cbn; [done|]. by rewrite app_nil_r. Qed.

(** An entry and what follows it *)
Lemma drains_one below l ls rest err :
  (∀ c p, get c = Ok (NProto p) → c = lCid l → drains (mkTarReader (plinks p) None None None 0) (below (plinks p)).1 (below (plinks p)).2) →
  drains (mkTarReader ls None None None 0) rest err →
  let x := cat2 (archive_entry below l) (rest, err) in drains (mkTarReader (l :: ls) None None None 0) x.1 x.2.
Proof.
  intros Hb Hd x. subst x. unfold archive_entry.
  pose proof (drains_error ls l) as Herr. pose proof (drains_entry ls l) as Hent. unfold next_entry in Herr, Hent.
  destruct (get (lCid l)) as [[p|c ls' sz]|e] eqn:Hg; cbn [mbind res_bind] in Herr, Hent; [|by apply Herr..]. specialize (Hb _ p Hg eq_refl).
  destruct (GetLinkedProtoNode get "data" p) as [d|[]] eqn:Hgl; try by apply Herr.
  - destruct (NewDagReader d) as [[content fail]|e]; [|by apply Herr]. rewrite cat2_assoc.
    apply (Hent _ _ (header_data p) None (Some ((content, fail), 0)) eq_refl). apply drains_hdr_cat.
    destruct fail as [e|]; cbn; [by apply (drains_file_failed _ _ _ _ _ (le_n _))|].
    rewrite <-app_assoc. eapply drains_file_ok; [apply (drains_pad _ _ _ Hd _ _ (le_n _))|apply le_n|reflexivity].
  - rewrite cat2_assoc. destruct (plinks p) as [|l' ls'] eqn:Hp.
    + apply (Hent _ _ (header_data p) None None eq_refl). apply drains_hdr_cat. exact Hd.
    + apply (Hent _ _ (header_data p) (Some (mkTarReader (l' :: ls') None None None 0)) None eq_refl). apply drains_hdr_cat.
      pose proof (drains_child _ _ _ Hb ls None 0 rest err (λ _, Hd)) as H. by destruct (below (l' :: ls')).
Qed.

Lemma drains_archive fuel : ∀ links, (∀ l, l ∈ links → rank (lCid l) < fuel) →
  drains (mkTarReader links None None None 0) (archive fuel links).1 (archive fuel links).2.
Proof.
  induction fuel as [|fuel IH]; intros links Hl.
  { destruct links as [|l links]; [apply drains_end|specialize (Hl l ltac:(left)); lia]. }
  induction links as [|l links IHl]; [apply drains_end|].
  assert (Ha : archive (S fuel) (l :: links) = cat2 (archive_entry (archive fuel) l) (archive (S fuel) links)) by (by destruct links).
  rewrite Ha. destruct (archive (S fuel) links) as [rest err]. apply drains_one; [|by apply IHl; intros l' Hl'; apply Hl; right].
  intros c p Hg ->. apply IH. intros l' Hl'. specialize (Hrank _ _ Hg l' Hl'). specialize (Hl l ltac:(left)). lia.
Qed.
End archives.
End tar.

(** ** Importing and exporting *)

Section roundtrip.
Context {K B : Type} `{!EqDecision K, !Countable K, !DagCodec K B, !DagCodecLaws K B}.
Context (NewDagReader : ProtoNode K B → res OErr (bytes * option OErr)).
Abbreviation Store := (gmap K (Block K)).

(** A node as it is read back from a store *)
Definition as_read (p : ProtoNode K B) : ProtoNode K B :=
  let x := EncodeProtobuf p in mkPN x.1 x.2 (Some x) (Some (Prefix (pn_Cid p))).

Definition holds (D : Store) (p : ProtoNode K B) : Prop := D !! pn_Cid p = Some (PB (EncodeProtobuf p)).

(** An entry without directories, the header made of it, and the bytes it has in an
    archive: the importer's data read back as it was. *)
Inductive flat : Entry (K := K) (B := B) → ProtoNode K B → bytes → Prop :=
  | flat_plain e h : h_header e = Ok h → h_data e = None → flat e (SetData h new_ProtoNode) (list_ascii_of_string h)
  | flat_file e h added d content : h_header e = Ok h → h_data e = Some (added, Ok d) → d ∈ added → NewDagReader (as_read d) = Ok (content, None) →
      flat e (AddNodeLink "data" (NProto d) (SetData h new_ProtoNode)) (list_ascii_of_string h ++ content ++ zeros (padding (length content))).

(** Only protobuf nodes, under their CIDs *)
Definition protos (T : Store) : Prop := ∀ c b, T !! c = Some b → ∃ bd x, b = PB x ∧ c = Sum bd x.

Lemma protos_insert T p : protos T → protos (add_node (NProto p) T).
Proof. intros HT c b. unfold add_node. rewrite lookup_insert_Some. intros [[<- <-]|[_ Hb]]; [by eexists _, _|by apply HT]. Qed.
Lemma protos_delete T c : protos T → protos (delete c T).
Proof. intros HT c' b. rewrite lookup_delete_Some. intros [_ Hb]. by apply HT. Qed.
Lemma protos_sound T : protos T → sound (B := B) T.
Proof. intros HT c b Hb. destruct (HT c b Hb) as (bd & x & -> & ->). by exists bd. Qed.

Lemma add_sound D p : sound (B := B) D → sound (B := B) (add_node (NProto p) D) ∧ D ⊆ add_node (NProto p) D ∧ holds (add_node (NProto p) D) p.
Proof. intros Hs. destruct (sound_insert D (NProto p) Hs I) as [H1 H2]. split_and!; [done|done|]. unfold holds, add_node. by rewrite lookup_insert_eq. Qed.

Lemma holds_weaken D D' p : D ⊆ D' → holds D p → holds D' p.
Proof. intros HD Hp. by eapply lookup_weaken. Qed.

Lemma add_nodes_sound ps D : sound (B := B) D → sound (B := B) (add_nodes ps D) ∧ D ⊆ add_nodes ps D ∧ Forall (holds (add_nodes ps D)) ps.
Proof.
  unfold add_nodes. revert D. induction ps as [|p ps IH]; intros D Hs; cbn; [by split_and!|].
  destruct (add_sound D p Hs) as (H1 & H2 & H3). destruct (IH _ H1) as (H4 & H5 & H6). split_and!; [done|by etrans|]. constructor; [by eapply holds_weaken|done].
Qed.

Lemma get_held D p : holds D p → dag_Get D (pn_Cid p) = Ok (NProto (as_read p)).
Proof. unfold holds, dag_Get. by intros ->. Qed.

(** The bytes of a stored entry *)
Lemma archive_flat D e h out l below : flat e h out → holds D h → lCid l = pn_Cid h →
  (∀ added d, h_data e = Some (added, Ok d) → holds D d) → archive_entry (dag_Get D) NewDagReader below l = (out, None).
Proof.
  intros Hf Hh Hl Hd. unfold archive_entry. rewrite Hl, (get_held D h Hh). destruct Hf as [e h Hhd Hdt|e h added d content Hhd Hdt Hin Hr].
  - cbn. by rewrite app_nil_r.
  - set (hdr := AddNodeLink "data" (NProto d) (SetData h new_ProtoNode)).
    assert (Hg : GetLinkedProtoNode (dag_Get D) "data" (as_read hdr) = (nd ← dag_Get D (pn_Cid d); match nd with NProto q => Ok q | NOther _ _ _ => Err ErrNotProtobuf end)) by reflexivity.
    rewrite Hg, (get_held D d (Hd _ _ Hdt)). cbn [mbind res_bind]. by rewrite Hr.
Qed.

Lemma has_char_dash w : has_char "/"%char w = false → has_char "/"%char ("-" +:+ w) = false.
Proof. intros Hw. change ("-" +:+ w) with (String "-" w). by rewrite has_char_cons, Hw. Qed.

(** The words of an escaped path are those of the path, each with its dash. *)
Lemma escapePath_words pth : Split (escapePath pth) slash = (λ e, "-" +:+ e) <$> Split (Trim pth) slash.
Proof.
  unfold escapePath. apply Split_Join.
  - pose proof (Split_not_nil (Trim pth) slash 0) as Hn. unfold Split. by destruct (split_go slash 0 (Trim pth)).
  - apply Forall_fmap. eapply Forall_impl; [apply (Split_words (Trim pth) "/"%char)|]. intros w. apply has_char_dash.
Qed.

Definition flat_name (e : Entry (K := K) (B := B)) : Prop := has_char "/"%char (Trim (h_Name e)) = false.
Definition entry_link (x : Entry (K := K) (B := B) * ProtoNode K B * bytes) : Link K := mkLink ("-" +:+ Trim (h_Name x.1.1)) (pn_Size x.1.2) (pn_Cid x.1.2).
Definition entry_held (D : Store) (x : Entry (K := K) (B := B) * ProtoNode K B * bytes) : Prop :=
  holds D x.1.2 ∧ ∀ added d, h_data x.1.1 = Some (added, Ok d) → holds D d.

Lemma entry_held_weaken D D' x : D ⊆ D' → entry_held D x → entry_held D' x.
Proof. intros HD [H1 H2]. split; [by eapply holds_weaken|]. intros added d Hd. eapply holds_weaken; eauto. Qed.

(** What an import keeps: a sound store, temporary nodes, the mark of the root *)
Record importing (s : Import (K := K) (B := B)) : Prop := { im_sound : sound (B := B) (ds s); im_tmp : protos (tmp s); im_mark : pdata (root s) = Some "ipfs/tar" }.

Lemma import_flat e h out s : flat e h out → flat_name e → importing s → ("-" +:+ Trim (h_Name e)) ∉ Name <$> plinks (root s) →
  ∃ s', import_entry e s = (Ok (), s') ∧ importing s' ∧ ds s ⊆ ds s' ∧ entry_held (ds s') (e, h, out)
    ∧ plinks (root s') = plinks (root s) ++ [entry_link (e, h, out)].
Proof.
  intros Hf Hn [Hs Ht Hm] Hfresh.
  assert (Hp : Split (escapePath (h_Name e)) slash = ["-" +:+ Trim (h_Name e)]).
  { rewrite escapePath_words. unfold slash. by rewrite (Split_word _ "/"%char Hn). }
  assert (Hins : ∀ D, importing (mkImport D (tmp s) (root s)) → ∃ s', insert_at (Split (escapePath (h_Name e)) slash) (NProto h) (mkImport D (tmp s) (root s)) = (Ok (), s')
      ∧ importing s' ∧ ds s' = D ∧ plinks (root s') = plinks (root s) ++ [entry_link (e, h, out)]).
  { intros D [HD _ _]. rewrite Hp. unfold insert_at, insertNodeAtPath, addLink. cbn [ds tmp root]. rewrite decide_False by (by destruct (Trim (h_Name e))).
    eexists. split; [reflexivity|]. split; [split; cbn [ds tmp root]|split; [reflexivity|]].
    - exact HD.
    - apply protos_insert, protos_delete, protos_insert, Ht.
    - unfold relink, RemoveNodeLink. by case_decide.
    - cbn [root]. rewrite relink_links. f_equal. apply filter_all. apply Forall_forall. intros l Hl Hname. apply Hfresh. rewrite <-Hname. by apply list_elem_of_fmap_2. }
  assert (Hstep : ∀ D : Store, sound (B := B) D → ds s ⊆ D → (∀ added d, h_data e = Some (added, Ok d) → holds D d) →
    import_entry e s = (_ ← mmodify (on_ds (add_node (NProto h))); insert_at (Split (escapePath (h_Name e)) slash) (NProto h)) (mkImport D (tmp s) (root s)) →
    ∃ s', import_entry e s = (Ok (), s') ∧ importing s' ∧ ds s ⊆ ds s' ∧ entry_held (ds s') (e, h, out) ∧ plinks (root s') = plinks (root s) ++ [entry_link (e, h, out)]).
  { intros D HD Hsub Hdata Heq. destruct (add_sound D h HD) as (H1 & H2 & H3).
    destruct (Hins (add_node (NProto h) D)) as (s' & Hi & Him & Hds & Hl); [by split|]. exists s'. rewrite Heq.
    split; [exact Hi|]. split; [exact Him|]. rewrite Hds. split_and!; [by etrans| |done]. split; [exact H3|]. intros added d Hd. eapply holds_weaken; [exact H2|eauto]. }
  destruct Hf as [e h Hh Hd|e h added d content Hh Hd Hin Hr].
  - apply (Hstep (ds s)); [done|done|by rewrite Hd|]. unfold import_entry. rewrite Hh, Hd. by destruct s.
  - destruct (add_nodes_sound added (ds s) Hs) as (H1 & H2 & H3). apply (Hstep (add_nodes added (ds s))); [done|done| |].
    + rewrite Hd. intros added' d' [= <- <-]. rewrite Forall_forall in H3. by apply H3.
    + unfold import_entry. by rewrite Hh, Hd.
Qed.

Lemma import_flats l : Forall (λ x, flat x.1.1 x.1.2 x.2 ∧ flat_name x.1.1) l → NoDup ((λ x, Trim (h_Name x.1.1)) <$> l) →
  ∀ s, importing s → (∀ x, x ∈ l → Name (entry_link x) ∉ Name <$> plinks (root s)) →
  ∃ s', mfor (l.*1.*1) import_entry s = (Ok (), s') ∧ importing s' ∧ ds s ⊆ ds s' ∧ Forall (entry_held (ds s')) l
    ∧ plinks (root s') = plinks (root s) ++ (entry_link <$> l).
Proof.
  induction l as [|[[e h] out] l IH]; intros Hl Hnd s Him Hfresh; [exists s; rewrite app_nil_r; by split_and!|].
  apply Forall_cons in Hl as [[Hf Hn] Hl]. rewrite fmap_cons in Hnd. apply NoDup_cons in Hnd as [Hni Hnd].
  destruct (import_flat e h out s Hf Hn Him (Hfresh (e, h, out) ltac:(left))) as (s1 & Hi & Him1 & Hsub1 & Hheld & Hlinks).
  destruct (IH Hl Hnd s1 Him1) as (s2 & Hi2 & Him2 & Hsub2 & Hheld2 & Hlinks2).
  { intros x Hx. rewrite Hlinks, fmap_app. intros [Hin|Hin]%elem_of_app; [by apply (Hfresh x); [right|]|].
    cbn in Hin. apply list_elem_of_singleton in Hin. injection Hin as Heq. apply Hni, list_elem_of_fmap. by exists x. }
  exists s2. cbn [fmap list_fmap fst mfor]. rewrite bind_unfold, Hi. split_and!; [done|done|by etrans| |].
  - constructor; [by eapply entry_held_weaken|done].
  - by rewrite Hlinks2, Hlinks, <-app_assoc.
Qed.

(** Copying between stores in memory fails only for want of fuel. *)
Lemma copyDag_fuel_only (T : Store) fuel : ∀ nd D e, (copyDag (λ n, mmodify (add_node n)) T fuel nd D).1 = Err e → e = OFuel.
Proof.
  induction fuel as [|fuel IH]; intros nd D e; [by intros [= <-]|]. rewrite copyDag_S, bind_unfold. cbn.
  generalize (node_Links nd), (add_node nd D). intros ls. induction ls as [|l ls IHl]; intros D'; [done|]. cbn [mfor]. rewrite bind_unfold.
  unfold dag_Get. destruct (T !! lCid l) as [b|]; [|apply IHl].
  destruct (copyDag (λ n, mmodify (add_node n)) T fuel (decode_block (lCid l) b) D') as [[[]|e'] D''] eqn:Hc; [apply IHl|]. cbn. intros [= <-]. apply (IH (decode_block (lCid l) b) D'). by rewrite Hc.
Qed.

Lemma archive_flats D l fuel : Forall (λ x, flat x.1.1 x.1.2 x.2 ∧ flat_name x.1.1) l → Forall (entry_held D) l →
  archive (dag_Get D) NewDagReader (S fuel) (entry_link <$> l) = (concat l.*2, None).
Proof.
  intros Hl Hh. induction l as [|[[e h] out] l IH]; [done|]. apply Forall_cons in Hl as [[Hf _] Hl]. apply Forall_cons in Hh as [[Hh Hd] Hhs].
  assert (Ha : archive (dag_Get D) NewDagReader (S fuel) (entry_link <$> (e, h, out) :: l)
    = cat2 (archive_entry (dag_Get D) NewDagReader (archive (dag_Get D) NewDagReader fuel) (entry_link (e, h, out))) (archive (dag_Get D) NewDagReader (S fuel) (entry_link <$> l)))
    by (by destruct l).
  rewrite Ha, (IH Hl Hhs), (archive_flat D e h out); try done.
Qed.

Lemma sound_links D c n : sound (B := B) D → dag_Get D c = Ok n → ∀ l, l ∈ node_Links n → height (B := B) (lCid l) < height (B := B) c.
Proof.
  unfold dag_Get. intros Hs. destruct (D !! c) as [b|] eqn:Hb; [|done]. intros [= <-] l. destruct (decode_stored D c b Hs Hb) as (_ & _ & Hlk). rewrite Hlk.
  pose proof (Hs c b Hb) as Hc. destruct b as [x|ls sz]; [|by apply Hc]. destruct Hc as [bd ->]. by apply Sum_height.
Qed.

Lemma links_bound (f : Link K → nat) (ls : list (Link K)) : ∃ n, ∀ l, l ∈ ls → f l < n.
Proof.
  induction ls as [|l ls [n IH]]; [exists 0; intros x Hx; by apply elem_of_nil in Hx|]. exists (S (f l `max` n)). intros x [->|Hx%IH]%elem_of_cons; lia.
Qed.

(** However a reader of an exported archive is read, with buffers of any sizes, it ends
    and has given the headers of the archive in order, each with what is below it, a file's
    data padded to whole blocks, up to the first error. *)
Theorem export_reads_archive get (rank : K → nat) (Hrank : ∀ c n, get c = Ok n → ∀ l, l ∈ node_Links n → rank (lCid l) < rank c) (root : ProtoNode K B) tr
    (Htr : ExportTar root = Ok tr) fuel (Hfuel : ∀ l, l ∈ plinks root → rank (lCid l) < fuel) :
  drains get NewDagReader tr (archive get NewDagReader fuel (plinks root)).1 (archive get NewDagReader fuel (plinks root)).2.
Proof.
  clear DagCodecLaws0. unfold ExportTar in Htr. case_decide; [|done]. injection Htr as <-. by apply (drains_archive get NewDagReader rank Hrank).
Qed.

(** Importing an archive of entries without directories and exporting what it made gives
    the archive back: the headers in their order, each file's data behind its header, padded
    to whole blocks. *)
Theorem tar_roundtrip l d (Hl : Forall (λ x, flat x.1.1 x.1.2 x.2 ∧ flat_name x.1.1) l) (Hnames : NoDup ((λ x, Trim (h_Name x.1.1)) <$> l))
    (Hd : sound (B := B) d) :
  ∃ n, ∀ fuel, n < fuel → ∃ root d' tr, ImportTar fuel l.*1.*1 None d = (Ok root, d') ∧ ExportTar root = Ok tr
    ∧ drains (dag_Get d') NewDagReader tr (concat l.*2) None.
Proof.
  set (s0 := mkImport d ∅ (SetData "ipfs/tar" (new_ProtoNode (B := B)))).
  destruct (import_flats l Hl Hnames s0) as (s & Hi & [Hs Ht Hm] & Hsub & Hheld & Hlinks); [by split|intros x _ Hx; by apply elem_of_nil in Hx|].
  cbn [plinks Tar.root s0 SetData new_ProtoNode app] in Hlinks. set (nd := Copy (root s)).
  destruct (links_bound (λ l, height (B := B) (lCid l)) (plinks nd)) as [n Hn]. exists n. intros [|fuel] Hf; [lia|].
  destruct (copyDag (λ n, mmodify (add_node n)) (tmp s) (S fuel) (NProto nd) (ds s)) as [[[]|e] d'] eqn:Hc.
  - assert (Hadd : ∀ (n : INode K B) (w w' : Store), (mmodify (add_node n) : M Store OErr unit) w = (Ok (), w') → w' = <[node_Cid n := block_of n]> w) by (intros n0 w w' [= <-]; done).
    destruct (copyDag_copies (λ D : Store, D) _ Hadd (tmp s) (protos_sound _ Ht) _ _ _ _ Hc Hs I) as [(Hsub' & Hs' & _) _].
    { intros c ls sz Hb. destruct (Ht c _ Hb) as (bd & x & [=] & _). }
    { by left. }
    exists nd, d', (mkTarReader (plinks nd) None None None 0). split_and!.
    + unfold ImportTar. fold s0. rewrite bind_unfold, Hi. cbn [mret M_ret]. fold nd. by rewrite Hc.
    + unfold ExportTar, nd, Copy. cbn [pdata]. by rewrite Hm.
    + pose proof (drains_archive (dag_Get d') NewDagReader (height (B := B)) (λ c n, sound_links d' c n Hs') (S n) (plinks nd)) as Hdr.
      assert (Hheld' : Forall (entry_held d') l) by (eapply Forall_impl; [exact Hheld|]; intros x; by apply entry_held_weaken).
      change (plinks nd) with (plinks (root s)) in *. rewrite Hlinks in *. rewrite (archive_flats d' l n Hl Hheld') in Hdr. apply Hdr. intros l0 Hl0. specialize (Hn l0 Hl0). lia.
  - exfalso. assert (Hne : (copyDag (λ n, mmodify (add_node n)) (tmp s) (S fuel) (NProto nd) (ds s)).1 ≠ Err OFuel).
    { apply (copyDag_ends _ (tmp s) (protos_sound _ Ht)); [done|]. intros l0 Hl0. specialize (Hn l0 Hl0). lia. }
    apply Hne. rewrite Hc. cbn. f_equal. apply (copyDag_fuel_only (tmp s) (S fuel) (NProto nd) (ds s)). by rewrite Hc.
Qed.

(** No element of an escaped path is the link of a file's data, and different paths,
    the slashes around them apart, have different escapes. *)
Theorem escapePath_safe p q : Forall (λ e, HasPrefix e "-" = true ∧ e ≠ "data") (Split (escapePath p) slash) ∧ (escapePath p = escapePath q → Trim p = Trim q).
Proof.
  split.
  - rewrite escapePath_words. apply Forall_fmap, Forall_forall. intros w _. by split.
  - intros Heq. assert (Hw : (λ e, "-" +:+ e) <$> Split (Trim p) slash = (λ e, "-" +:+ e) <$> Split (Trim q) slash) by (rewrite <-!escapePath_words; by rewrite Heq).
    apply (inj (fmap (λ e, "-" +:+ e))) in Hw. rewrite <-(Join_Split (Trim p) "/"%char), <-(Join_Split (Trim q) "/"%char). by f_equal.
Qed.
End roundtrip.

(** ** Examples and witnesses *)

Module TarExample.
Import ObjectExample.

Abbreviation Node := (ProtoNode Hash_ ()).
Definition reader (p : Node) : res OErr (bytes * option OErr) := Ok (header_data p, None).
Definition content0 : Node := SetData "content" new_ProtoNode.
Definition e_dir : Entry (K := Hash_) (B := ()) := mkEntry "d/" (Ok "hdr:d;") None.
Definition e_file : Entry (K := Hash_) (B := ()) := mkEntry "d/f" (Ok "hdr:f;") (Some ([content0], Ok content0)).
Definition e_flat : Entry (K := Hash_) (B := ()) := mkEntry "f" (Ok "hdr:f;") (Some ([content0], Ok content0)).

(** What exporting an import gives *)
Definition reimport (es : list (Entry (K := Hash_) (B := ()))) : option (bytes * option OErr) :=
  match ImportTar 9 es None ∅ with
  | (Ok root, d) => Some (archive (dag_Get d) reader 9 (plinks root))
  | (Err _, _) => None
  end.

Definition file_bytes : bytes := list_ascii_of_string "hdr:f;" ++ list_ascii_of_string "content" ++ zeros 505.

(** An archive that has the header of a directory after what is in it loses what is in
    it. *)
Theorem late_directory_loses_files :
  reimport [e_dir; e_file] = Some (list_ascii_of_string "hdr:d;" ++ file_bytes, None)
  ∧ reimport [e_file; e_dir] = Some (list_ascii_of_string "hdr:d;", None).
Proof. split; by vm_compute. Qed.

Definition l0 : list (Entry (K := Hash_) (B := ()) * Node * bytes) :=
  [(mkEntry "/a" (Ok "hdr:a;") None, SetData "hdr:a;" new_ProtoNode, list_ascii_of_string "hdr:a;");
   (e_flat, AddNodeLink "data" (NProto content0) (SetData "hdr:f;" new_ProtoNode), file_bytes)].

Lemma l0_flat : Forall (λ x, flat reader x.1.1 x.1.2 x.2 ∧ flat_name x.1.1) l0.
Proof.
  apply Forall_cons; split; [split; [by constructor|by vm_compute]|]. apply Forall_cons; split; [|done]. split; [|by vm_compute].
  apply (flat_file reader e_flat "hdr:f;" [content0] content0 (list_ascii_of_string "content")); [done|done|left|by vm_compute].
Qed.

Lemma tar_roundtrip_witness : ∃ n, ∀ fuel, n < fuel → ∃ root d' tr, ImportTar fuel l0.*1.*1 None ∅ = (Ok root, d') ∧ ExportTar root = Ok tr
  ∧ drains (dag_Get d') reader tr (list_ascii_of_string "hdr:a;" ++ file_bytes) None.
Proof.
  apply (tar_roundtrip reader l0 ∅ l0_flat); [apply (bool_decide_unpack _); by vm_compute|]. intros c b Hb. by rewrite lookup_empty in Hb.
Defined.

Definition store0 : gmap Hash_ (Block Hash_) := (ImportTar 9 [e_flat] None ∅).2.
Definition root0 : Node := match (ImportTar 9 [e_flat] None ∅).1 with Ok r => r | Err _ => new_ProtoNode end.

Lemma store0_rank c n : dag_Get (B := ()) store0 c = Ok n → ∀ l, l ∈ node_Links n → height (B := ()) (lCid l) < height (B := ()) c.
Proof.
  apply (sound_links (K := Hash_) (B := ()) store0 c n). intros c' b Hb.
  assert (H : map_Forall (λ (c : Hash_) (b : Block Hash_), match b with PB x => bool_decide (c = sum x) | _ => false end = true) store0) by (apply (bool_decide_unpack _); by vm_compute).
  specialize (H c' b Hb). destruct b as [x|]; [|done]. exists (). by apply bool_decide_eq_true in H.
Qed.

Lemma export_reads_archive_witness : drains (dag_Get store0) reader (mkTarReader (plinks root0) None None None 0) file_bytes None.
Proof.
  assert (Hf : ∀ l, l ∈ plinks root0 → height (B := ()) (lCid l) < 9).
  { intros l Hl. assert (H : Forall (λ l, height (B := ()) (lCid l) < 9) (plinks root0)) by (apply (bool_decide_unpack _); by vm_compute). rewrite Forall_forall in H. by apply H. }
  pose proof (export_reads_archive reader (dag_Get store0) (height (B := ())) store0_rank root0 _ eq_refl 9 Hf) as H.
  assert (Ha : archive (dag_Get store0) reader 9 (plinks root0) = (file_bytes, None)) by (by vm_compute). rewrite Ha in H. exact H.
Defined.
End TarExample.
