(* ===== verification/Init.v ===== *)
(** * ipfs init (cmd/ipfs/init.go)

    Creating a repository: the configuration is read or generated, the directory is tried,
    profiles are applied, and the repository of [FsRepo] is initialised; then a node on it
    adds the first documents and publishes an empty directory under its key. *)

From Stdlib Require Import ZArith Ascii String.
From stdpp Require Import base gmap sets list strings.
From S2P Require Import Prelude GoStrings GoFS Migrations Datastores FsRepo.

Definition errRepoExists : string := "ipfs configuration file already exists!
Reinitializing would overwrite your keys.
".

(** os.IsPermission *)
Definition IsPermission (e : OSErr) : bool := bool_decide (e = OtherErr "permission denied").

Section init.
Context (env : Env) (X : RepoEnv) {C : Type} `{ConfigPkg C}.
Local Abbreviation fault := (fault env).

(** Profiles, standard output, and what nodes on a repository do: making one, which may
    fail, closing it with its repository, adding the documents, and publishing *)
Context (Profiles : gmap string (C → res string C)) (Fprintf : string → res RErr unit)
  (NewNode : FSRepo C → M W RErr unit) (CloseNode : FSRepo C → M W RErr unit) (SeedInitDocs : M W RErr string)
  (PinEmptyDir FlushPins PublishEmptyDir : M W RErr unit).

(** ** The configuration *)

(** The file given as an argument: what its decoding gives *)
Inductive FileArg := NoEntry (err : option string) | NotRegular | Decoded (r : res string C).

Inductive KeyGenOption := KeySize (n : Z) | KeyType (algorithm : string).

Definition init_config (CreateIdentity : list KeyGenOption → res string C) (Files : option FileArg) (algorithm : string) (bits : option Z) : res RErr C :=
  match Files with
  | Some (NoEntry (Some e)) => Err (EMsg e)
  | Some (NoEntry None) => Err (EMsg "file argument was nil")
  | Some NotRegular => Err (EMsg "expected a regular file")
  | Some (Decoded (Err e)) => Err (EMsg e)
  | Some (Decoded (Ok conf)) => Ok conf
  | None =>
      match CreateIdentity (match bits with Some n => [KeySize n; KeyType algorithm] | None => [KeyType algorithm] end) with
      | Err e => Err (EMsg e)
      | Ok conf => Ok conf
      end
  end.

Fixpoint apply_profiles (profiles : list string) (conf : C) : res RErr C :=
  match profiles with
  | [] => Ok conf
  | profile :: profiles =>
      match Profiles !! profile with
      | None => Err (EMsg ("invalid configuration profile: " +:+ profile))
      | Some transform => match transform conf with Err e => Err (EMsg e) | Ok conf => apply_profiles profiles conf end
      end
  end.
Definition applyProfiles (conf : C) (profiles : string) : res RErr C := if decide (profiles = "") then Ok conf else apply_profiles (Split profiles ",") conf.

(** ** The directory *)

(** os.Mkdir *)
Definition Mkdir (p : string) : M FS OSErr unit :=
  _ ← os_try fault "mkdir" p;
  fs ← mget;
  match fs !! p, fs !! Dir p with
  | Some _, _ => mthrow ErrExist
  | None, Some NDir => mmodify <[p := NDir]>
  | None, _ => mthrow ErrNotExist
  end.

Definition checkWritable (dir : string) : M W RErr unit := λ w,
  match Stat fault dir (wfs w) with
  | (Ok _, _) =>
      let testfile := PathJoin dir "test" in
      match on_fs (OsCreate fault testfile) w with
      | (Err (EOS e), w) => if IsPermission e then (Err (EMsg (dir +:+ " is not writeable by the current user")), w)
                            else (Err (EMsg "unexpected error while checking writeablility of repo root"), w)
      | (Err e, w) => (Err e, w)
      | (Ok _, w) => on_fs (Remove fault testfile) w
      end
  | (Err e, _) =>
      if IsNotExist e then on_fs (Mkdir dir) w
      else if IsPermission e then (Err (EMsg ("cannot write to " +:+ dir +:+ ", incorrect permissions")), w)
      else (Err (EOS e), w)
  end.

(** ** Initialising *)

(** A node on the repository, closed when it has done its work; when it cannot be made the
    repository stays open. *)
Definition with_node (repoRoot : string) (work : M W RErr unit) : M W RErr unit :=
  r ← open env X repoRoot;
  _ ← NewNode r;
  mdefer work (CloseNode r).

Definition addDefaultAssets (repoRoot : string) : M W RErr unit :=
  with_node repoRoot (λ w,
    match SeedInitDocs w with
    | (Err e, w) => (Err (EMsg "init: seeding init docs failed"), w)
    | (Ok dkey, w) => (_ ← mlift (Fprintf "to get started, enter:"); mlift (Fprintf ("ipfs cat /ipfs/" +:+ dkey +:+ "/readme"))) w
    end).

Definition initializeIpnsKeyspace (repoRoot : string) : M W RErr unit :=
  with_node repoRoot (_ ← PinEmptyDir; _ ← FlushPins; PublishEmptyDir).

Definition doInit (repoRoot : string) (empty : bool) (confProfiles : string) (conf : C) : M W RErr unit :=
  _ ← mlift (Fprintf ("initializing IPFS node at " +:+ repoRoot));
  _ ← checkWritable repoRoot;
  w ← mget;
  if IsInitialized env repoRoot w then mthrow (EMsg errRepoExists)
  else
    conf ← mlift (applyProfiles conf confProfiles);
    _ ← Init env X repoRoot conf;
    _ ← (if empty then mret () else addDefaultAssets repoRoot);
    initializeIpnsKeyspace repoRoot.

Definition initCmd (CreateIdentity : list KeyGenOption → res string C) (ConfigRoot : string) (Files : option FileArg) (algorithm : string) (bits : option Z)
    (empty : bool) (profiles : string) : M W RErr unit :=
  conf ← mlift (init_config CreateIdentity Files algorithm bits);
  doInit ConfigRoot empty profiles conf.

(** ** Lemmas *)

(** Another world may only differ in the directory and its test file. *)
Record tried (dir : string) (w w' : W) : Prop := {
  tried_fs : ∀ q, q ≠ dir → q ≠ PathJoin dir "test" → wfs w' !! q = wfs w !! q;
  tried_dir : wfs w !! dir = Some NDir → wfs w' !! dir = Some NDir ∨ PathJoin dir "test" = dir;
  tried_locks : locks w' = locks w;
  tried_ds : open_ds w' = open_ds w;
}.

Lemma checkWritable_fs dir w q : q ≠ dir → q ≠ PathJoin dir "test" → wfs (checkWritable dir w).2 !! q = wfs w !! q.
Proof.
  intros H1 H2. unfold checkWritable, on_fs, Stat, OsCreate, Remove, Mkdir, os_try. go_run.
  go_cases; cbn [wfs snd]; rewrite ?lookup_delete_ne, ?lookup_insert_ne by done; done.
Qed.

Lemma checkWritable_rest dir w : locks (checkWritable dir w).2 = locks w ∧ open_ds (checkWritable dir w).2 = open_ds w.
Proof.
  unfold checkWritable, on_fs. destruct (Stat fault dir (wfs w)) as [[n|e] fs1].
  - destruct (OsCreate fault _ (wfs w)) as [[n'|[]] fs2]; cbn; try (by destruct (Remove fault _ fs2)); repeat case_match; done.
  - destruct (IsNotExist e); [by destruct (Mkdir dir (wfs w))|]. by destruct (IsPermission e).
Qed.
(** The first part of an initialisation touches nothing but the directory and its test file. *)
Definition only_tried (dir : string) (w w' : W) : Prop :=
  (∀ q, q ≠ dir → q ≠ PathJoin dir "test" → wfs w' !! q = wfs w !! q) ∧ locks w' = locks w ∧ open_ds w' = open_ds w.

Lemma checkWritable_tried dir w r w' : checkWritable dir w = (r, w') → only_tried dir w w'.
Proof.
  intros Hc. pose proof (checkWritable_rest dir w) as [Hl Hd]. rewrite Hc in Hl, Hd. split_and!; [|done..].
  intros q H1 H2. pose proof (checkWritable_fs dir w q H1 H2) as Hq. by rewrite Hc in Hq.
Qed.

Lemma only_tried_refl dir w : only_tried dir w w.
Proof. by split_and!. Qed.

(** Initialising where there is a configuration already, or with a profile that is not
    known or does not apply, fails and leaves the repository as it was: nothing is touched
    but the directory itself and a file named test in it, nothing is locked, and no
    datastore is opened. *)
Theorem doInit_refuses repoRoot empty profiles conf w r w' f (Hf : Filename env repoRoot = Ok f) (Hdir : f ≠ repoRoot) (Htest : f ≠ PathJoin repoRoot "test")
    (Hno : is_Some (wfs w !! f) ∨ ∃ e, applyProfiles conf profiles = Err e) (Hr : doInit repoRoot empty profiles conf w = (r, w')) :
  is_err r = true ∧ only_tried repoRoot w w'.
Proof.
  unfold doInit in Hr. rewrite bind_unfold in Hr. unfold mlift at 1 in Hr. destruct (Fprintf _) as [[]|e]; [|injection Hr as <- <-; by split; [|apply only_tried_refl]].
  rewrite bind_unfold in Hr. destruct (checkWritable repoRoot w) as [[[]|e] w1] eqn:Hc; apply checkWritable_tried in Hc; [|injection Hr as <- <-; by split].
  rewrite bind_unfold in Hr. cbn [mget] in Hr. destruct (IsInitialized env repoRoot w1) eqn:Hi; [injection Hr as <- <-; by split|].
  destruct Hno as [Hno|[e He]].
  - exfalso. unfold IsInitialized, isInitializedUnsynced, configIsInitialized in Hi. rewrite Hf in Hi. unfold FileExists in Hi.
    destruct (Migrations.fault env "stat" f); [done|]. apply bool_decide_eq_false in Hi. apply Hi. destruct Hc as [Hfs _]. by rewrite Hfs.
  - rewrite bind_unfold in Hr. unfold mlift in Hr. rewrite He in Hr. injection Hr as <- <-. by split.
Qed.

(** When initialising succeeds there was no configuration, the profiles applied in
    turn gave the one that was written, and the rest ran on the repository that [Init]
    made of it. *)
Theorem doInit_exact repoRoot empty profiles conf w w' (Hr : doInit repoRoot empty profiles conf w = (Ok (), w')) :
  ∃ conf' w1 w2 w3, only_tried repoRoot w w1 ∧ IsInitialized env repoRoot w1 = false ∧ applyProfiles conf profiles = Ok conf'
    ∧ Init env X repoRoot conf' w1 = (Ok (), w2)
    ∧ (if empty then w3 = w2 else addDefaultAssets repoRoot w2 = (Ok (), w3)) ∧ initializeIpnsKeyspace repoRoot w3 = (Ok (), w').
Proof.
  unfold doInit in Hr. apply bind_ok in Hr as ([] & w0 & [_ ->]%mlift_ok & Hr). apply bind_ok in Hr as ([] & w1 & Hc%checkWritable_tried & Hr).
  apply bind_ok in Hr as (wa & wb & [= <- <-] & Hr). destruct (IsInitialized env repoRoot w1) eqn:Hi; [done|].
  apply bind_ok in Hr as (conf' & wc & [Ha ->]%mlift_ok & Hr). apply bind_ok in Hr as ([] & w2 & Hinit & Hr). apply bind_ok in Hr as ([] & w3 & Hd & Hr).
  exists conf', w1, w2, w3. split_and!; try done. destruct empty; [by injection Hd|done].
Qed.

(** Trying a directory deletes a file named test that was in it. *)
Theorem checkWritable_deletes_test dir w content (Hcalm : ∀ op q, Migrations.fault env op q = None) (Hdir : wfs w !! dir = Some NDir)
    (Hparent : Dir (PathJoin dir "test") = dir) (Htest : wfs w !! PathJoin dir "test" = Some (NFile content)) :
  ∃ w', checkWritable dir w = (Ok (), w') ∧ wfs w' !! PathJoin dir "test" = None.
Proof.
  unfold checkWritable. rewrite (Stat_calm _ Hcalm _ _ _ Hdir). unfold on_fs. rewrite OsCreate_calm; [|done|by rewrite Hparent|by rewrite Htest].
  cbn [wfs locks open_ds]. rewrite (Remove_calm _ Hcalm _ _ (NFile "")) by (by rewrite lookup_insert_eq). eexists. split; [done|]. cbn. apply lookup_delete_eq.
Qed.
End init.

(** ** Witnesses *)

Module InitExample.
Import RepoExample.

Definition existing : W := mkW {["/repo" := NDir; "/repo/config" := NFile "ksecret"; "/repo/test" := NFile "mine"]} ∅ ∅.
Definition profiles : gmap string (Conf → res string Conf) := {["mem" := λ c, Ok (mkConf (key c) true)]}.
Definition run (p : string) (profs : string) (w : W) : res RErr () * W :=
  doInit env X profiles (λ _, Ok ()) (λ _, mret ()) (λ _, mret ()) (mret "Qm") (mret ()) (mret ()) (mret ()) p true profs conf w.

Lemma doInit_refuses_witness : (run "/repo" "mem" existing).1 = Err (EMsg errRepoExists) ∧ only_tried "/repo" existing (run "/repo" "mem" existing).2.
Proof.
  split; [by vm_compute|]. unfold run.
  destruct (doInit env X profiles (λ _, Ok ()) (λ _, mret ()) (λ _, mret ()) (mret "Qm") (mret ()) (mret ()) (mret ()) "/repo" true "mem" conf existing) as [r w'] eqn:Hr.
  apply (proj2 (doInit_refuses _ _ _ _ _ _ _ _ _ _ "/repo" true "mem" conf existing r w' "/repo/config" ltac:(by vm_compute) ltac:(done) ltac:(done) ltac:(left; by vm_compute; eexists) Hr)).
Defined.

Lemma doInit_runs : ∃ w', run "/repo" "mem" w0 = (Ok (), w') ∧ IsInitialized env "/repo" w' = true.
Proof. eexists. split; [vm_compute; reflexivity|]. by vm_compute. Defined.
End InitExample.
